(* ===== verification/_CoqProject ===== *)
-Q . S2P
Prelude.v
Loops.v
Bytes.v
Arrays.v
Vint.v
Crc.v
Source.v
Headers.v
HeaderReader.v
HeaderWriter.v
HeaderRoundtrip.v
BlockRoundtrip.v
SandboxIpc.v
WorkerProtocol.v
CompressPlan.v
CdcChunker.v
CdcPlanner.v
PathUtil.v
Wildcard.v
ForeignReader.v
ForeignTar.v
Filters.v
Simd.v
Delta.v
BitReader.v
Huffman.v
BuildLengths.v
InflateBits.v
InflateTable.v
Inflate.v
InflateSpec.v
InflateExact.v
InflateRefine.v
InflateSink.v
ForeignGzip.v
GzipExact.v
BitOutput.v
Encoder.v
LzWindow.v
StateFail.v
ApplyEngine.v
Decoder.v
DecoderSafety.v
TokenRoundtrip.v
TableRoundtrip.v
EncoderRoundtrip.v
Gf16.v
Linear.v
Rs16.v
Rs16Fold.v
RecoveryRecord.v
