(* ===== verification/Prelude.v ===== *)
(** * A verification library for OpenRAR

    OpenRAR is an archiver for the RAR 5.0 format, with readers for TAR, ZIP
    and GZIP, a recovery record, a sandboxed worker and self-extracting
    modules.  Its layers, from the bottom: [src/core] (byte order, UTF-8,
    variable-length integers), [src/crypto] (checksums, ciphers), [src/io]
    (files, paths), [src/format] (the headers), [src/compress] (the codec and
    its filters), [src/recovery] (Reed-Solomon), [src/archive] (reading,
    writing and foreign formats), [src/sandbox] (the worker and its wire
    protocol), and the front ends [src/cli], [src/dll], [src/wasm] and
    [src/sfx].  This library translates the parts of them that decide what is
    read, written and delivered into executable definitions and proves what
    makes those parts correct.

    ** The files

    - [Prelude]: machine words, the outcome type [res], weakest preconditions
      [wp], lists measured in [Z], the tactics [zlen_lia], [size_simpl],
      [dlia], [bytes_solve], and the hint databases [orar] and [zlen].
    - [Bytes] ([core/types.hpp]), [Vint] ([core/vint.cpp]), [Crc]
      ([crypto/crc32.cpp], [crypto/crc64.cpp]).
    - [Source]: the [ReadSource] interface ([io/file_stream.hpp]) as a class
      with laws; [BufferStream] and [MappedFile] are its instances.
    - [Headers], [HeaderReader], [HeaderWriter] ([format/]); [HeaderRoundtrip]
      and [BlockRoundtrip] compose the writer with the reader.
    - [SandboxIpc] ([sandbox/ipc.cpp]) and [WorkerProtocol]
      ([sandbox/worker_protocol.cpp]).
    - [CompressPlan] ([compress/compress_plan.hpp]).
    - [PathUtil], [Wildcard] ([io/path_util.cpp]); [ForeignReader]
      ([archive/foreign_reader.cpp], [archive/extraction_limits.hpp]) and
      [ForeignTar] ([archive/foreign_tar.cpp]), over any [ReadSource].
    - [Filters] and [Delta] ([compress/filters50.cpp]) with the SSE2
      operations of [Simd].
    - [Gf16], [Linear], [Rs16], [Rs16Fold] ([recovery/rs16.cpp]) and
      [RecoveryRecord] ([recovery/recovery_record.cpp]).
    - [Loops], [Arrays]: counted loops over a state and arrays of words.
    - The codec, decoding: [BitReader] ([BitReader] of
      [compress/decompressor50.cpp]) and [LzWindow] ([WindowBuffer] and the
      copies into it) implement the interfaces [BitSource] and [Dictionary];
      [ApplyEngine] (filter queue, flush) and [Decoder] (block headers, code
      tables, token loop) are written against the interfaces, with the
      failures of [StateFail]; [DecoderSafety] composes them.
    - The codec, encoding ([compress/compressor50.cpp]): [Huffman] (canonical
      codes and the decoder's tables), [BuildLengths] (code lengths from
      frequencies), [BitOutput], [Encoder] (tokens, tables, blocks);
      [TokenRoundtrip], [TableRoundtrip] and [EncoderRoundtrip] compose it
      with the decoder.
    - [CdcChunker] ([compress/cdc_chunker.cpp]) and [CdcPlanner]
      ([compress/cdc_planner.cpp]).
    - DEFLATE ([compress/inflate.cpp]): [InflateBits], [InflateTable] and
      [Inflate] are the code, [InflateSpec] the format as a function on bits,
      [InflateExact], [InflateRefine] and [InflateSink] relate them;
      [ForeignGzip] ([archive/foreign_gzip.cpp]) is a client, [GzipExact] its
      specification.

    ** Conventions

    A [w]-bit unsigned integer is a [Z] and every operation that may leave its
    range is wrapped where the source wraps; [size_t] has 64 bits and the host
    is little-endian unless a definition takes the byte order.  A buffer is a
    list of bytes and every access to it is checked: an access outside is
    [Fault], a [return false] is [Fail], and a loop whose bound is exhausted is
    [Fuel].  [safe] and [wp] exclude [Fault] and [Fuel], so that each of the
    theorems about a loop is also a theorem that it ends and stays inside its
    buffers.  Code outside [src/] (a callback, a stream, memory the allocator
    hands out) is a parameter, with what the code relies on as the laws of a
    class.

    ** What is shown

    - Encodings are exact: UTF-8, variable-length integers, block framing,
      worker messages and scan results accept exactly the well-formed bytes,
      and what a writer emits is read back field by field.
    - Readers of hostile input are safe: header parsers, TAR, filter
      detection, worker payloads and the frame decoder stay in bounds and
      terminate on any bytes; path sanitizing always yields a relative path of
      safe components.
    - Optimised code equals its reference: slicing CRC, SSE2, SSSE3 and AVX2
      kernels, the streaming frame decoder against the byte stream, the stream
      reader against the memory reader.
    - The recovery record restores whatever the intact parity sectors allow,
      over a proved field GF(2^16) and a proved matrix inversion.
    - The decoder over the real reader and window refines the decoder over a
      list of bits and the plain history, for sequences of calls on one
      object; it never leaves its tables and always ends ([DecoderSafety]).
    - What the block encoder writes for any operations the parser may choose
      is decoded to the expansion of these operations ([EncoderRoundtrip]).
      Match finding is free to choose: the round trip holds for every choice.
    - The inflate decoder delivers what RFC 1951 says, stops at its cap, and
      the GZIP reader on top of it what RFC 1952 says ([GzipExact]).
    - Chunk boundaries depend on the bytes only: not on the blocks in which
      they arrive, nor on the number of threads; the packing order is a
      permutation of the files ([CdcChunker], [CdcPlanner]).

    ** Bounds and fuel

    The bounds of the loops are computed from their inputs (bytes left plus
    one, entries plus one, matrix size) or are constants of the code: ten
    groups of a 64-bit variable-length integer, twelve doublings of the
    recovery sector size, sixteen steps of the field generator.  In the codec:
    the token loop has one round per bit left and one more, a table
    description one per entry and one more, the bit length of a block header
    and of a table description 21, the copies and flushes one per byte and one
    more; the queue merge one per leaf, the walk of the tree and the repair of
    the lengths one per node and per unit of the Kraft sum.  Inflate and GZIP
    take the bound as an argument: any number above the bits of the input, and
    above the bytes of the file, gives the same result, which is shown.  Where
    a loop of the source does not end, this is stated ([CompressPlan],
    [lz_window_for_input] above 2^63).

    ** Not modelled

    - Operating-system calls (opening, mapping, syncing and locking files,
      extended attributes, processes, seccomp), threads, diagnostics text and
      progress callbacks, and failing allocation of plain byte buffers (the
      window of the decoder apart).
    - The vector kernels for ARM (NEON), AVX-512, GFNI, PCLMULQDQ and the SHA
      and AES extensions, whose instructions have no definition in the
      sources, and the branches for 32-bit hosts.
    - In the decoder, the two-phase path that parses blocks on several threads
      ([decode_span] and the record applier) and the streaming shells; in the
      encoder, match finding, the price model and optimal parsing
      ([compress/compressor50.cpp]), which are heuristics under the contract
      that the decoder restores the input, and the file target of [BitOutput].
    - The command line, the C and WebAssembly interfaces and the file-level
      drivers ([archive/archive_reader.cpp], [archive/archive_mutator.cpp],
      [recovery/recovery_writer.cpp]): they mix the modelled parts with
      file-system work.
    - Ciphers and cryptographic hashes (SHA-256, PBKDF2, AES-256, BLAKE2sp)
      with the encrypted headers, the ZIP reader, transcoding, Unicode
      normalization with the collision detector, the extraction report and
      journal, volume names and the self-extractor script. *)

From Stdlib Require Import ZArith Lia Ascii String.
From stdpp Require Import base tactics list numbers.

Local Open Scope Z_scope.

(** ** Machine words

    A [w]-bit unsigned integer is a [Z] in [0, 2^w); arithmetic that may leave
    the range is written with the wrap-around explicit. *)

Definition wrap (w z : Z) : Z := z mod 2 ^ w.

Abbreviation u8 := (wrap 8).
Abbreviation u16 := (wrap 16).
Abbreviation u32 := (wrap 32).
Abbreviation u64 := (wrap 64).

(** [size_t] arithmetic of a 64-bit host. *)
Definition size_add (a b : Z) : Z := u64 (a + b).
Definition size_sub (a b : Z) : Z := u64 (a - b).

Declare Scope size_scope.
Delimit Scope size_scope with size.
Notation "a +s b" := (size_add a b) (at level 50, left associativity) : size_scope.
Notation "a -s b" := (size_sub a b) (at level 50, left associativity) : size_scope.
#[global] Open Scope size_scope.

(** A bit test of a flag word: [flags & mask] in a boolean context. *)
Definition has_flag (flags mask : Z) : bool := negb (Z.land flags mask =? 0).

Definition is_byte (b : Z) : Prop := 0 <= b < 256.
Abbreviation bytes := (Forall is_byte).

Definition zlen {A} (l : list A) : Z := Z.of_nat (length l).

(** ** Outcomes of a routine over a bounded buffer

    [Ok]: normal return.  [Fail]: the routine returned [false].  [Fault]: the
    routine touched memory outside the buffer it was handed, or otherwise left
    the domain of the standard function it called (undefined behaviour).
    [Fuel]: the bound the model puts on a loop was reached; theorems show it is
    not. *)

Inductive res (A : Type) : Type :=
| Ok (a : A)
| Fail
| Fault
| Fuel.

Arguments Ok {A} a.
Arguments Fail {A}.
Arguments Fault {A}.
Arguments Fuel {A}.

#[global] Instance res_ret : MRet res := fun A => @Ok A.
#[global] Instance res_bind : MBind res := fun A B f m =>
  match m with
  | Ok a => f a
  | Fail => Fail
  | Fault => Fault
  | Fuel => Fuel
  end.

(** Run the binds whose first computation has become a value. *)
Ltac res_simpl := cbn [mbind res_bind mret res_ret].

(** [if (!cond) return false;] *)
Definition require (b : bool) : res unit := if b then Ok tt else Fail.

(** [p[i]] and [memcpy(dst, p + i, n)], checked. *)
Definition byte_at (m : list Z) (i : Z) : res Z :=
  if i <? 0 then Fault
  else match m !! Z.to_nat i with Some b => Ok b | None => Fault end.

Definition slice (m : list Z) (i n : Z) : res (list Z) :=
  if (0 <=? i) && (0 <=? n) && (i + n <=? zlen m)
  then Ok (take (Z.to_nat n) (drop (Z.to_nat i) m))
  else Fault.

(** The buffer seen from [p + off]. *)
Definition view (m : list Z) (off : Z) : list Z := drop (Z.to_nat off) m.

(** ** Weakest preconditions for [res]

    [wp r Q]: [r] neither faults nor runs out of fuel, and a normal return
    satisfies [Q]. *)

Definition wp {A} (r : res A) (Q : A -> Prop) : Prop :=
  match r with
  | Ok a => Q a
  | Fail => True
  | Fault => False
  | Fuel => False
  end.

(** The routine stays inside its buffers and terminates. *)
Definition safe {A} (r : res A) : Prop := wp r (fun _ => True).

Create HintDb orar discriminated.

Section wp.
Context {A B : Type}.

Lemma wp_ok (a : A) (Q : A -> Prop) : Q a -> wp (Ok a) Q.
Proof. done. Qed.

Lemma wp_ret (a : A) (Q : A -> Prop) : Q a -> wp (mret a) Q.
Proof. done. Qed.

Lemma wp_fail (Q : A -> Prop) : wp Fail Q.
Proof. done. Qed.

Lemma wp_bind (m : res A) (f : A -> res B) (Q : B -> Prop) :
    wp m (fun a => wp (f a) Q) -> wp (m ≫= f) Q.
Proof. by destruct m. Qed.

Lemma wp_mono (m : res A) (P Q : A -> Prop) :
    wp m P -> (forall a, P a -> Q a) -> wp m Q.
Proof. destruct m; simpl; auto. Qed.

Lemma wp_conj (m : res A) (P Q : A -> Prop) :
    wp m P -> wp m Q -> wp m (fun a => P a /\ Q a).
Proof. destruct m; simpl; auto. Qed.

Lemma wp_safe (m : res A) (Q : A -> Prop) : wp m Q -> safe m.
Proof. intros H. by apply (wp_mono m Q). Qed.

Lemma wp_inv (m : res A) (Q : A -> Prop) (a : A) : wp m Q -> m = Ok a -> Q a.
Proof. by intros H ->. Qed.

Lemma safe_cases (m : res A) : safe m -> m = Fail \/ exists a, m = Ok a.
Proof. destruct m; simpl; eauto; done. Qed.

Lemma wp_bind_mono (m : res A) (P : A -> Prop) (f : A -> res B) (Q : B -> Prop) :
    wp m P -> (forall a, P a -> wp (f a) Q) -> wp (m ≫= f) Q.
Proof. intros H1 H2. apply wp_bind. by apply (wp_mono m P). Qed.
End wp.

Lemma wp_require (b : bool) (Q : unit -> Prop) :
  (b = true -> Q tt) -> wp (require b) Q.
Proof. destruct b; simpl; auto. Qed.

Lemma wp_bind_require {B} (b : bool) (f : unit -> res B) (Q : B -> Prop) :
  (b = true -> wp (f tt) Q) -> wp (require b ≫= f) Q.
Proof. destruct b; simpl; auto. Qed.

#[export] Hint Resolve wp_ok wp_ret wp_fail : orar.

(** ** Lists measured in [Z] *)

Section zlen.
Context {A : Type}.
Implicit Types l k : list A.

Lemma zlen_nonneg l : 0 <= zlen l.
Proof. unfold zlen. lia. Qed.

Lemma zlen_nil : zlen (@nil A) = 0.
Proof. done. Qed.

Lemma zlen_cons (x : A) l : zlen (x :: l) = 1 + zlen l.
Proof. unfold zlen. cbn [length]. lia. Qed.

Lemma zlen_app l k : zlen (l ++ k) = zlen l + zlen k.
Proof. unfold zlen. rewrite length_app. lia. Qed.

Lemma zlen_take n l : 0 <= n <= zlen l -> zlen (take (Z.to_nat n) l) = n.
Proof. unfold zlen. intros H. rewrite length_take. lia. Qed.

Lemma zlen_drop n l : 0 <= n <= zlen l -> zlen (drop (Z.to_nat n) l) = zlen l - n.
Proof. unfold zlen. intros H. rewrite length_drop. lia. Qed.

Lemma zlen_replicate n (x : A) : zlen (replicate n x) = Z.of_nat n.
Proof. unfold zlen. by rewrite length_replicate. Qed.

Lemma zlen_zero_nil l : zlen l = 0 -> l = [].
Proof. destruct l; [done|]. rewrite zlen_cons. pose proof (zlen_nonneg l). lia. Qed.

Lemma zlen_map {B} (f : A -> B) l : zlen (map f l) = zlen l.
Proof. unfold zlen. by rewrite length_map. Qed.
End zlen.

Lemma zlen_rev {A} (l : list A) : zlen (reverse l) = zlen l.
Proof. unfold zlen. by rewrite length_reverse. Qed.

Create Rewrite HintDb zlen.
#[export] Hint Rewrite @zlen_nil @zlen_cons @zlen_app @zlen_replicate : zlen.

(** [zlen_lia]: linear arithmetic over list lengths. *)
Ltac zlen_pose :=
  repeat match goal with
  | |- context [zlen ?l] =>
      lazymatch goal with _ : 0 <= zlen l |- _ => fail | _ => pose proof (zlen_nonneg l) end
  | H : context [zlen ?l] |- _ =>
      lazymatch goal with _ : 0 <= zlen l |- _ => fail | _ => pose proof (zlen_nonneg l) end
  end.
Ltac zlen_lia := autorewrite with zlen in *; zlen_pose; lia.

(** ** Word lemmas *)

Lemma wrap_range w z : 0 <= w -> 0 <= wrap w z < 2 ^ w.
Proof. intros H. apply Z.mod_pos_bound. lia. Qed.

Lemma wrap_small w z : 0 <= z < 2 ^ w -> wrap w z = z.
Proof. apply Z.mod_small. Qed.

Lemma wrap_land w z : 0 <= w -> wrap w z = Z.land z (Z.ones w).
Proof. intros H. unfold wrap. by rewrite Z.land_ones. Qed.

Lemma size_add_small a b : 0 <= a + b < 2 ^ 64 -> (a +s b) = a + b.
Proof. apply wrap_small. Qed.

Lemma size_sub_small a b : 0 <= a - b < 2 ^ 64 -> (a -s b) = a - b.
Proof. apply wrap_small. Qed.

(** Discharge the no-wrap side conditions of [size_t] arithmetic. *)
Ltac size_simpl :=
  repeat first
    [ rewrite size_add_small in * by zlen_lia
    | rewrite size_sub_small in * by zlen_lia ].

(** [lia] with division and remainder by constants. *)
Ltac dlia := Z.div_mod_to_equations; lia.

Lemma testbit_high w z i : 0 <= z < 2 ^ w -> 0 <= w <= i -> Z.testbit z i = false.
Proof.
  intros Hz Hi. rewrite <- (Z.mod_small z (2 ^ w)) by done.
  apply Z.mod_pow2_bits_high. lia.
Qed.

Lemma land_shiftl_disjoint n a b :
  0 <= n -> 0 <= a < 2 ^ n -> Z.land a (Z.shiftl b n) = 0.
Proof.
  intros Hn Ha. apply Z.bits_inj_0. intros i. rewrite Z.land_spec.
  destruct (Z.ltb_spec i n) as [Hlt|Hge].
  - rewrite Z.shiftl_spec_low by done. apply andb_false_r.
  - rewrite (testbit_high n a i) by lia. done.
Qed.

(** A disjoint [|] is a sum. *)
Lemma lor_shiftl_add n a b :
  0 <= n -> 0 <= a < 2 ^ n -> Z.lor a (Z.shiftl b n) = a + b * 2 ^ n.
Proof.
  intros Hn Ha. rewrite <- Z.shiftl_mul_pow2 by done.
  pose proof (land_shiftl_disjoint n a b Hn Ha) as D.
  by rewrite <- Z.lxor_lor, Z.add_nocarry_lxor.
Qed.

Lemma lor_shiftl_add_l n a b :
  0 <= n -> 0 <= a < 2 ^ n -> Z.lor (Z.shiftl b n) a = a + b * 2 ^ n.
Proof. intros. rewrite Z.lor_comm. by apply lor_shiftl_add. Qed.

Lemma lor_range w a b :
  0 <= w -> 0 <= a < 2 ^ w -> 0 <= b < 2 ^ w -> 0 <= Z.lor a b < 2 ^ w.
Proof.
  intros Hw Ha Hb.
  assert (E : Z.lor a b = wrap w (Z.lor a b)).
  { rewrite wrap_land by done. apply Z.bits_inj'. intros i Hi.
    rewrite Z.land_spec, Z.lor_spec.
    destruct (Z.ltb_spec i w).
    - rewrite Z.ones_spec_low by lia. by rewrite andb_true_r.
    - rewrite (testbit_high w a i), (testbit_high w b i) by lia. done. }
  rewrite E. by apply wrap_range.
Qed.

Lemma lxor_range w a b :
  0 <= w -> 0 <= a < 2 ^ w -> 0 <= b < 2 ^ w -> 0 <= Z.lxor a b < 2 ^ w.
Proof.
  intros Hw Ha Hb.
  assert (E : Z.lxor a b = wrap w (Z.lxor a b)).
  { rewrite wrap_land by done. apply Z.bits_inj'. intros i Hi.
    rewrite Z.land_spec, Z.lxor_spec.
    destruct (Z.ltb_spec i w).
    - rewrite Z.ones_spec_low by lia. by rewrite andb_true_r.
    - rewrite (testbit_high w a i), (testbit_high w b i) by lia. done. }
  rewrite E. by apply wrap_range.
Qed.

Lemma land_ones_mod z n : 0 <= n -> Z.land z (Z.ones n) = z mod 2 ^ n.
Proof. apply Z.land_ones. Qed.

Lemma land_range w a m : 0 <= w -> 0 <= m < 2 ^ w -> 0 <= Z.land a m < 2 ^ w.
Proof.
  intros Hw Hm.
  assert (E : Z.land a m = wrap w (Z.land a m)).
  { rewrite wrap_land by done. apply Z.bits_inj'. intros i Hi.
    rewrite !Z.land_spec.
    destruct (Z.ltb_spec i w).
    - rewrite Z.ones_spec_low by lia. by rewrite andb_true_r.
    - rewrite (testbit_high w m i) by lia. by rewrite !andb_false_r. }
  rewrite E. by apply wrap_range.
Qed.

Lemma shiftr_range w n a : 0 <= w -> 0 <= n -> 0 <= a < 2 ^ w -> 0 <= Z.shiftr a n < 2 ^ w.
Proof.
  intros Hw Hn [Ha1 Ha2]. rewrite Z.shiftr_div_pow2 by done. split.
  - apply Z.div_pos; lia.
  - apply Z.le_lt_trans with a; [|done]. apply Z.div_le_upper_bound; [lia|]. nia.
Qed.

Lemma lxor_cancel a b c : Z.lxor a b = Z.lxor a c -> b = c.
Proof.
  intros H. rewrite <- (Z.lxor_0_l b), <- (Z.lxor_0_l c), <- (Z.lxor_nilpotent a).
  by rewrite !Z.lxor_assoc, H.
Qed.

Lemma has_flag_testbit f n :
  0 <= n -> has_flag f (2 ^ n) = Z.testbit f n.
Proof.
  intros Hn. unfold has_flag. destruct (Z.testbit f n) eqn:E.
  - apply negb_true_iff, Z.eqb_neq. intros H0.
    assert (T : Z.testbit (Z.land f (2 ^ n)) n = false) by (rewrite H0; apply Z.testbit_0_l).
    rewrite Z.land_spec, E, Z.pow2_bits_true in T by done. done.
  - apply negb_false_iff, Z.eqb_eq, Z.bits_inj_0. intros i.
    rewrite Z.land_spec. destruct (decide (i = n)) as [->|Hne].
    + by rewrite E.
    + rewrite Z.pow2_bits_false by done. apply andb_false_r.
Qed.

(** ** Buffer lemmas *)

Lemma view_0 m : view m 0 = m.
Proof. done. Qed.

Lemma slice_in m i n :
  0 <= i -> 0 <= n -> i + n <= zlen m -> slice m i n = Ok (take (Z.to_nat n) (drop (Z.to_nat i) m)).
Proof.
  intros H1 H2 H3. unfold slice.
  by rewrite (proj2 (Z.leb_le 0 i)), (proj2 (Z.leb_le 0 n)), (proj2 (Z.leb_le _ _)) by lia.
Qed.

Lemma view_app p m off : off = zlen p -> view (p ++ m) off = m.
Proof. intros ->. unfold view, zlen. rewrite Nat2Z.id. apply drop_app_length. Qed.

Lemma view_step m off a b : 0 <= off -> view m off = a ++ b -> view m (off + zlen a) = b.
Proof.
  unfold view. intros Ho H. rewrite Z2Nat.inj_add by (auto using zlen_nonneg).
  rewrite <- drop_drop, H. unfold zlen. rewrite Nat2Z.id. apply drop_app_length.
Qed.

Lemma zlen_view m off : 0 <= off <= zlen m -> zlen (view m off) = zlen m - off.
Proof. apply zlen_drop. Qed.

Lemma view_length m off r : 0 <= off <= zlen m -> view m off = r -> zlen m = off + zlen r.
Proof. intros H <-. rewrite zlen_view by done. lia. Qed.

Lemma byte_at_view m off b r : 0 <= off -> view m off = b :: r -> byte_at m off = Ok b.
Proof.
  unfold view, byte_at. intros Ho H.
  rewrite (proj2 (Z.ltb_ge _ _)) by done.
  replace (m !! Z.to_nat off) with (Some b); [done|].
  rewrite <- (Nat.add_0_r (Z.to_nat off)), <- lookup_drop, H. done.
Qed.

Lemma slice_view m off a b :
  0 <= off <= zlen m -> view m off = a ++ b -> slice m off (zlen a) = Ok a.
Proof.
  intros Ho H. pose proof (view_length _ _ _ Ho H) as L. unfold slice.
  rewrite (proj2 (Z.leb_le 0 off)), (proj2 (Z.leb_le 0 (zlen a))), (proj2 (Z.leb_le _ _))
    by zlen_lia. simpl. f_equal.
  change (drop (Z.to_nat off) m) with (view m off). rewrite H. unfold zlen.
  rewrite Nat2Z.id. apply take_app_length.
Qed.

(** A list cut at an index. *)
Lemma list_cut {A} (a : list A) n : 0 <= n <= zlen a -> exists p q, a = p ++ q /\ zlen p = n.
Proof.
  intros H. exists (take (Z.to_nat n) a), (drop (Z.to_nat n) a). split; [symmetry; apply take_drop | now apply zlen_take].
Qed.

Lemma wp_byte_at m i (Q : Z -> Prop) :
  0 <= i < zlen m -> (forall b, m !! Z.to_nat i = Some b -> Q b) -> wp (byte_at m i) Q.
Proof.
  unfold byte_at, zlen. intros Hi HQ. rewrite (proj2 (Z.ltb_ge _ _)) by lia.
  destruct (m !! Z.to_nat i) eqn:E; [by apply HQ|].
  apply lookup_ge_None in E. lia.
Qed.

Lemma wp_slice m i n (Q : list Z -> Prop) :
  0 <= i -> 0 <= n -> i + n <= zlen m ->
  (forall l, zlen l = n -> l = take (Z.to_nat n) (view m i) -> Q l) -> wp (slice m i n) Q.
Proof.
  intros Hi Hn Hm HQ. unfold slice.
  rewrite !(proj2 (Z.leb_le _ _)) by lia. simpl. apply HQ; [|done].
  apply zlen_take. rewrite zlen_drop; lia.
Qed.

Lemma bytes_lookup m i b : bytes m -> m !! i = Some b -> is_byte b.
Proof. intros H E. by eapply Forall_lookup_1. Qed.

Lemma bytes_take n m : bytes m -> bytes (take n m).
Proof. apply Forall_take. Qed.

Lemma bytes_drop n m : bytes m -> bytes (drop n m).
Proof. apply Forall_drop. Qed.

Lemma bytes_view m off : bytes m -> bytes (view m off).
Proof. apply Forall_drop. Qed.

#[export] Hint Resolve bytes_take bytes_drop bytes_view : orar.

(** ** Exhaustive checks over a byte *)

Definition byte_range : list Z := map Z.of_nat (seq 0 256).

Lemma byte_range_spec b : is_byte b -> In b byte_range.
Proof.
  intros H. unfold byte_range. rewrite in_map_iff. exists (Z.to_nat b).
  unfold is_byte in H. split; [lia|]. apply in_seq. lia.
Qed.

(** A decidable statement about every byte follows from its 256 instances. *)
Lemma byte_forall (P : Z -> bool) :
  forallb P byte_range = true -> forall b, is_byte b -> P b = true.
Proof.
  intros H b Hb. rewrite forallb_forall in H. by apply H, byte_range_spec.
Qed.

Lemma Forall_cons_inv {A} (P : A -> Prop) x l : Forall P (x :: l) -> P x /\ Forall P l.
Proof. intros H. by inversion H. Qed.

(** A byte obtained by masking with 0xFF. *)
Lemma land_ff_byte z : is_byte (Z.land z 0xFF).
Proof. apply (land_range 8); unfold is_byte; lia. Qed.

#[export] Hint Resolve land_ff_byte : orar.

(** Split [bytes] of explicit lists and appends into their parts. *)
Ltac bytes_solve :=
  repeat first
    [ apply Forall_nil_2 | apply Forall_app_2 | apply Forall_cons_2 ]; auto with orar.

Definition is_byteb (b : Z) : bool := (0 <=? b) && (b <? 256).

Lemma bytes_forallb l : forallb is_byteb l = true -> bytes l.
Proof.
  rewrite forallb_forall. intros H. apply Forall_forall. intros x Hx.
  specialize (H x Hx). unfold is_byteb, is_byte in *. lia.
Qed.

(** [bytes] of a literal. *)
Ltac bytes_const := apply bytes_forallb; vm_compute; reflexivity.

(** ** String literals

    The bytes of an ASCII literal, and equality of byte strings. *)

Definition str (s : string) : list Z :=
  List.map (fun a => Z.of_nat (nat_of_ascii a)) (list_ascii_of_string s).

Fixpoint str_eqb (a b : list Z) : bool :=
  match a, b with
  | [], [] => true
  | x :: a, y :: b => (x =? y) && str_eqb a b
  | _, _ => false
  end.

Lemma str_eqb_eq a b : str_eqb a b = true <-> a = b.
Proof.
  revert b. induction a as [|x a IH]; intros [|y b]; try (by split).
  cbn [str_eqb]. rewrite andb_true_iff, Z.eqb_eq, IH. split; [by intros [-> ->]|by intros [= -> ->]].
Qed.

Lemma str_eqb_refl a : str_eqb a a = true.
Proof. by apply str_eqb_eq. Qed.
