(* ===== verification/Loops.v ===== *)
(** Counted loops over a state: [for (i = a; i < n; ++i)] and
    [for (i = n; i-- > 0;)], their induction principles and congruences. *)

From Stdlib Require Import ZArith Lia.
From stdpp Require Import base tactics list numbers.
From S2P Require Import Prelude.

Local Open Scope Z_scope.

(** ** Counted loops *)

(** [for (i = a; i < n; ++i)] and [for (i = n; i-- > 0;)] over a state. *)
Fixpoint for_n {S : Type} (k : nat) (a : Z) (body : Z -> S -> S) (s : S) : S :=
  match k with O => s | Datatypes.S k' => for_n k' (a + 1) body (body a s) end.

Definition for_range {S : Type} (a n : Z) (body : Z -> S -> S) (s : S) : S := for_n (Z.to_nat (n - a)) a body s.

Fixpoint down_n {S : Type} (k : nat) (body : Z -> S -> S) (s : S) : S :=
  match k with O => s | Datatypes.S k' => down_n k' body (body (Z.of_nat k') s) end.

Definition for_down {S : Type} (n : Z) (body : Z -> S -> S) (s : S) : S := down_n (Z.to_nat n) body s.

Lemma range_ind (P : Z -> Prop) a n :
  a <= n -> P a -> (forall i, a <= i < n -> P i -> P (i + 1)) -> P n.
Proof.
  intros Hn Ha Hs. replace n with (a + (n - a)) by lia.
  assert (H : forall k, 0 <= k -> k <= n - a -> P (a + k)); [|apply H; lia].
  apply (natlike_ind (fun k => k <= n - a -> P (a + k))); [by rewrite Z.add_0_r|].
  intros k Hk IH Hle. replace (a + Z.succ k) with (a + k + 1) by lia. apply Hs; [lia|]. apply IH. lia.
Qed.

Lemma down_ind (P : Z -> Prop) n : 0 <= n -> P n -> (forall i, 0 <= i < n -> P (i + 1) -> P i) -> P 0.
Proof.
  intros Hn H0 Hs. enough (P (n - n)) by (by replace 0 with (n - n) by lia).
  apply (range_ind (fun k => P (n - k)) 0); [lia|by rewrite Z.sub_0_r|].
  intros i Hi HP. apply Hs; [lia|]. by replace (n - (i + 1) + 1) with (n - i) by lia.
Qed.

Lemma for_n_ind {S} (P : Z -> S -> Prop) (body : Z -> S -> S) k a s :
  P a s -> (forall i t, a <= i < a + Z.of_nat k -> P i t -> P (i + 1) (body i t)) ->
  P (a + Z.of_nat k) (for_n k a body s).
Proof.
  revert a s. induction k as [|k IH]; intros a s Ha Hs; cbn [for_n]; [by rewrite Z.add_0_r|].
  replace (a + Z.of_nat (Datatypes.S k)) with (a + 1 + Z.of_nat k) by lia.
  apply IH; [apply Hs; [lia|done]|]. intros i t Hi. apply Hs. lia.
Qed.

Lemma for_range_ind {S} (P : Z -> S -> Prop) (body : Z -> S -> S) a n s :
  a <= n -> P a s -> (forall i t, a <= i < n -> P i t -> P (i + 1) (body i t)) -> P n (for_range a n body s).
Proof.
  intros Hn Ha Hs. unfold for_range. pose proof (for_n_ind P body (Z.to_nat (n - a)) a s Ha) as H.
  replace (a + Z.of_nat (Z.to_nat (n - a))) with n in H by lia. by apply H.
Qed.

Lemma for_down_ind {S} (P : Z -> S -> Prop) (body : Z -> S -> S) n s :
  0 <= n -> P n s -> (forall i t, 0 <= i < n -> P (i + 1) t -> P i (body i t)) -> P 0 (for_down n body s).
Proof.
  intros Hn Ha Hs. unfold for_down. assert (H : forall k t, Z.of_nat k <= n -> P (Z.of_nat k) t -> P 0 (down_n k body t)).
  { induction k as [|k IH]; intros t Hk Ht; cbn [down_n]; [done|]. apply IH; [lia|]. apply Hs; [lia|].
    by replace (Z.of_nat k + 1) with (Z.of_nat (Datatypes.S k)) by lia. }
  apply H; [lia|]. by rewrite Z2Nat.id.
Qed.

Lemma for_n_snoc {S} (body : Z -> S -> S) k a s :
  for_n (Datatypes.S k) a body s = body (a + Z.of_nat k) (for_n k a body s).
Proof.
  revert a s. induction k as [|k IH]; intros a s; [cbn; by rewrite Z.add_0_r|].
  change (for_n (Datatypes.S (Datatypes.S k)) a body s) with (for_n (Datatypes.S k) (a + 1) body (body a s)).
  rewrite IH. cbn [for_n]. f_equal. lia.
Qed.

Lemma for_range_snoc {S} (body : Z -> S -> S) a n s :
  a <= n -> for_range a (n + 1) body s = body n (for_range a n body s).
Proof.
  intros Hn. unfold for_range. replace (Z.to_nat (n + 1 - a)) with (Datatypes.S (Z.to_nat (n - a))) by lia.
  rewrite for_n_snoc. f_equal. lia.
Qed.

Lemma for_range_empty {S} (body : Z -> S -> S) a n s : n <= a -> for_range a n body s = s.
Proof. intros Hn. unfold for_range. by replace (Z.to_nat (n - a)) with O by lia. Qed.

(** A loop commutes with a map of its states that each pass commutes with. *)
Lemma for_range_hom {S T} (g : S -> T) (b1 : Z -> S -> S) (b2 : Z -> T -> T) a n s :
  (forall i t, a <= i < n -> b2 i (g t) = g (b1 i t)) -> for_range a n b2 (g s) = g (for_range a n b1 s).
Proof.
  intros H. destruct (Z.le_gt_cases a n) as [Hn|]; [|by rewrite !for_range_empty by lia].
  apply (for_range_ind (fun i t => for_range a i b2 (g s) = g t) b1 a n s Hn); [by rewrite for_range_empty|].
  intros i t Hi E. rewrite for_range_snoc, E by lia. by apply H.
Qed.

Lemma for_down_hom {S T} (g : S -> T) (b1 : Z -> S -> S) (b2 : Z -> T -> T) n s :
  (forall i t, 0 <= i < n -> b2 i (g t) = g (b1 i t)) -> for_down n b2 (g s) = g (for_down n b1 s).
Proof.
  intros H. unfold for_down. assert (Hk : forall k t, Z.of_nat k <= n -> down_n k b2 (g t) = g (down_n k b1 t)).
  { induction k as [|k IH]; intros t Hk; cbn [down_n]; [done|]. rewrite H by lia. apply IH. lia. }
  destruct (Z.le_gt_cases 0 n); [apply Hk; lia|by replace (Z.to_nat n) with O by lia].
Qed.

Lemma for_range_ext {S} (b1 b2 : Z -> S -> S) a n s :
  (forall i t, a <= i < n -> b1 i t = b2 i t) -> for_range a n b1 s = for_range a n b2 s.
Proof.
  intros H. destruct (Z.le_gt_cases a n) as [Hn|]; [|by rewrite !for_range_empty by lia].
  apply (for_range_ind (fun i t => t = for_range a i b2 s) b1 a n s Hn); [by rewrite for_range_empty|].
  intros i t Hi ->. rewrite for_range_snoc by lia. by apply H.
Qed.
