(* ===== verification/Bytes.v ===== *)
(** Byte order, powers of two and UTF-8 well-formedness: [src/core/types.hpp].

    The byte-wise [read_le*]/[write_le*]/[read_be32]/[write_be32] helpers, the
    hot-path [load_le*] (one host load plus a swap on a big-endian host),
    [is_power_of_two] and the RFC 3629 validator [is_valid_utf8]. *)

From stdpp Require Import base tactics list numbers.
From Stdlib Require Import ZArith Lia.
From S2P Require Import Prelude.

Local Open Scope Z_scope.

(** ** Little-endian reads, byte by byte *)

Definition read_le16 (m : list Z) (off : Z) : res Z :=
  p0 ← byte_at m off;
  p1 ← byte_at m (off + 1);
  mret (Z.lor p0 (Z.shiftl p1 8)).

(** [p[0] | p[1] << 8 | p[2] << 16 | p[3] << 24]. *)
Definition le32_of (p0 p1 p2 p3 : Z) : Z :=
  Z.lor (Z.lor (Z.lor p0 (Z.shiftl p1 8)) (Z.shiftl p2 16)) (Z.shiftl p3 24).

Definition read_le32 (m : list Z) (off : Z) : res Z :=
  p0 ← byte_at m off;
  p1 ← byte_at m (off + 1);
  p2 ← byte_at m (off + 2);
  p3 ← byte_at m (off + 3);
  mret (le32_of p0 p1 p2 p3).

Definition read_le64 (m : list Z) (off : Z) : res Z :=
  lo ← read_le32 m off;
  hi ← read_le32 m (off + 4);
  mret (Z.lor lo (Z.shiftl hi 32)).

Definition read_be32 (m : list Z) (off : Z) : res Z :=
  p0 ← byte_at m off;
  p1 ← byte_at m (off + 1);
  p2 ← byte_at m (off + 2);
  p3 ← byte_at m (off + 3);
  mret (Z.lor (Z.lor (Z.lor (Z.shiftl p0 24) (Z.shiftl p1 16)) (Z.shiftl p2 8)) p3).

(** ** Stores: the bytes a [write_*] puts at [ptr] *)

Definition le16_bytes (val : Z) : list Z :=
  [Z.land val 0xFF; Z.land (Z.shiftr val 8) 0xFF].

Definition le32_bytes (val : Z) : list Z :=
  [Z.land val 0xFF; Z.land (Z.shiftr val 8) 0xFF;
   Z.land (Z.shiftr val 16) 0xFF; Z.land (Z.shiftr val 24) 0xFF].

Definition le64_bytes (val : Z) : list Z :=
  le32_bytes (Z.land val 0xFFFFFFFF) ++
  le32_bytes (Z.land (Z.shiftr val 32) 0xFFFFFFFF).

Definition be32_bytes (val : Z) : list Z :=
  [Z.land (Z.shiftr val 24) 0xFF; Z.land (Z.shiftr val 16) 0xFF;
   Z.land (Z.shiftr val 8) 0xFF; Z.land val 0xFF].

(** [memcpy(m + off, l, n)] into a buffer. *)
Definition store (m : list Z) (off : Z) (l : list Z) : res (list Z) :=
  if (0 <=? off) && (off + zlen l <=? zlen m)
  then Ok (take (Z.to_nat off) m ++ l ++ drop (Z.to_nat (off + zlen l)) m)
  else Fault.

Definition write_le16 (m : list Z) (off val : Z) : res (list Z) := store m off (le16_bytes val).
Definition write_le32 (m : list Z) (off val : Z) : res (list Z) := store m off (le32_bytes val).
Definition write_le64 (m : list Z) (off val : Z) : res (list Z) :=
  m1 ← store m off (le32_bytes (Z.land val 0xFFFFFFFF));
  store m1 (off + 4) (le32_bytes (Z.land (Z.shiftr val 32) 0xFFFFFFFF)).
Definition write_be32 (m : list Z) (off val : Z) : res (list Z) := store m off (be32_bytes val).

(** ** Host-order loads *)

(** The integer a little-endian, resp. big-endian, host sees in memory. *)
Fixpoint le_val (l : list Z) : Z :=
  match l with [] => 0 | b :: l' => b + 256 * le_val l' end.
Definition be_val (l : list Z) : Z := le_val (reverse l).

Fixpoint le_digits (n : nat) (v : Z) : list Z :=
  match n with O => [] | S n' => v mod 256 :: le_digits n' (v / 256) end.

(** [__builtin_bswap{32,64}] reverses the bytes of a word. *)
Definition bswap (n : nat) (v : Z) : Z := be_val (le_digits n v).

Definition load_le32 (big_endian : bool) (m : list Z) (off : Z) : res Z :=
  p ← slice m off 4;
  mret (if big_endian then bswap 4 (be_val p) else le_val p).

Definition load_le64 (big_endian : bool) (m : list Z) (off : Z) : res Z :=
  p ← slice m off 8;
  mret (if big_endian then bswap 8 (be_val p) else le_val p).

(** ** Powers of two *)

Definition is_power_of_two (n : Z) : bool :=
  negb (n =? 0) && (Z.land n (u64 (n - 1)) =? 0).

(** ** UTF-8 *)

(** The lead byte of a multi-byte sequence: how many continuation bytes follow
    and the smallest code point the length may encode. *)
Definition utf8_lead (c : Z) : option (Z * Z) :=
  if Z.land c 0xE0 =? 0xC0 then
    if Z.land c 0x1E =? 0 then None else Some (1, 0x80)
  else if Z.land c 0xF0 =? 0xE0 then Some (2, 0x800)
  else if Z.land c 0xF8 =? 0xF0 then
    if c >? 0xF4 then None else Some (3, 0x10000)
  else None.

(** [for (size_t k = 1; k <= extra; ++k)]: fold the continuation bytes. *)
Fixpoint utf8_continuation (left : nat) (p : list Z) (pos code : Z) : res (option Z) :=
  match left with
  | O => Ok (Some code)
  | S left' =>
      cc ← byte_at p pos;
      if negb (Z.land cc 0xC0 =? 0x80) then Ok None
      else utf8_continuation left' p (pos + 1)
             (Z.lor (u32 (Z.shiftl code 6)) (Z.land cc 0x3F))
  end.

Fixpoint is_valid_utf8_loop (fuel : nat) (p : list Z) (n i : Z) : res bool :=
  match fuel with
  | O => Fuel
  | S fuel' =>
      if i <? n then
        c ← byte_at p i;
        if c <? 0x80 then is_valid_utf8_loop fuel' p n (i + 1)
        else match utf8_lead c with
        | None => Ok false
        | Some (extra, min_val) =>
            if i + extra >=? n then Ok false
            else
              r ← utf8_continuation (Z.to_nat extra) p (i + 1)
                    (Z.land c (Z.shiftr 0xFF (extra + 2)));
              match r with
              | None => Ok false
              | Some code =>
                  if code <? min_val then Ok false
                  else if (code >=? 0xD800) && (code <=? 0xDFFF) then Ok false
                  else if code >? 0x10FFFF then Ok false
                  else is_valid_utf8_loop fuel' p n (i + 1 + extra)
              end
        end
      else Ok true
  end.

Definition is_valid_utf8 (s : list Z) : res bool :=
  is_valid_utf8_loop (S (length s)) s (zlen s) 0.

(** ** Lemmas: little-endian words *)

Lemma le_val_app a b : le_val (a ++ b) = le_val a + 256 ^ zlen a * le_val b.
Proof.
  induction a as [|x a IH]; [cbn [app le_val]; change (zlen (@nil Z)) with 0; lia|].
  cbn [app le_val]. rewrite IH, zlen_cons, Z.pow_add_r by zlen_lia. lia.
Qed.

Lemma le_val_range l : bytes l -> 0 <= le_val l < 256 ^ zlen l.
Proof.
  induction 1 as [|x l Hx Hl IH]; [change (zlen (@nil Z)) with 0; simpl; lia|].
  cbn [le_val]. rewrite zlen_cons, Z.pow_add_r by zlen_lia.
  unfold is_byte in Hx. lia.
Qed.

Lemma le_digits_bytes n v : bytes (le_digits n v).
Proof.
  revert v. induction n as [|n IH]; intros v; [constructor|].
  cbn [le_digits]. constructor; [|apply IH]. unfold is_byte. apply Z.mod_pos_bound. lia.
Qed.

Lemma zlen_le_digits n v : zlen (le_digits n v) = Z.of_nat n.
Proof. revert v. induction n; intros v; [done|]. cbn [le_digits]. rewrite zlen_cons, IHn. lia. Qed.

Lemma le_val_digits n v : le_val (le_digits n v) = v mod 256 ^ Z.of_nat n.
Proof.
  revert v. induction n as [|n IH]; intros v.
  - simpl. by rewrite Z.mod_1_r.
  - cbn [le_digits le_val]. rewrite IH, Nat2Z.inj_succ, Z.pow_succ_r by lia.
    rewrite Z.rem_mul_r by lia. lia.
Qed.

Lemma le_digits_val l : bytes l -> le_digits (length l) (le_val l) = l.
Proof.
  induction 1 as [|x l Hx Hl IH]; [done|]. cbn [length le_digits le_val].
  unfold is_byte in Hx. f_equal.
  - rewrite Z.mul_comm, Z.mod_add, Z.mod_small; lia.
  - rewrite Z.mul_comm, Z.div_add, Z.div_small, Z.add_0_l by lia. done.
Qed.

Lemma land_ff_mod z : Z.land z 0xFF = z mod 256.
Proof. exact (Z.land_ones z 8 ltac:(lia)). Qed.

Lemma le16_bytes_digits v : le16_bytes v = le_digits 2 v.
Proof.
  unfold le16_bytes. cbn [le_digits].
  by rewrite !land_ff_mod, Z.shiftr_div_pow2 by lia.
Qed.

Lemma le32_bytes_digits v : le32_bytes v = le_digits 4 v.
Proof.
  unfold le32_bytes. cbn [le_digits].
  rewrite !land_ff_mod, !Z.shiftr_div_pow2, !Z.div_div by lia. done.
Qed.

Lemma le_digits_mod n v : le_digits n (v mod 256 ^ Z.of_nat n) = le_digits n v.
Proof.
  rewrite <- le_val_digits.
  pose proof (le_digits_val (le_digits n v) (le_digits_bytes n v)) as H.
  assert (L : length (le_digits n v) = n).
  { pose proof (zlen_le_digits n v) as Z. unfold zlen in Z. lia. }
  by rewrite L in H.
Qed.

Lemma le_digits_add n k v :
  le_digits (n + k) v = le_digits n v ++ le_digits k (v / 256 ^ Z.of_nat n).
Proof.
  revert v. induction n as [|n IH]; intros v.
  - simpl. by rewrite Z.div_1_r.
  - cbn [Nat.add le_digits app]. rewrite IH, Z.div_div, Nat2Z.inj_succ, Z.pow_succ_r by lia.
    done.
Qed.

Lemma le64_bytes_digits v : le64_bytes v = le_digits 8 v.
Proof.
  unfold le64_bytes. rewrite !le32_bytes_digits.
  change 0xFFFFFFFF with (Z.ones 32). rewrite !Z.land_ones, Z.shiftr_div_pow2 by lia.
  change (2 ^ 32) with (256 ^ Z.of_nat 4). rewrite !le_digits_mod.
  by rewrite (le_digits_add 4 4).
Qed.

Lemma be32_bytes_rev v : be32_bytes v = reverse (le32_bytes v).
Proof. done. Qed.

Lemma le_val_le32 v : 0 <= v < 2 ^ 32 -> le_val (le32_bytes v) = v.
Proof. intros H. rewrite le32_bytes_digits, le_val_digits. by apply Z.mod_small. Qed.

Lemma le_val_le64 v : 0 <= v < 2 ^ 64 -> le_val (le64_bytes v) = v.
Proof. intros H. rewrite le64_bytes_digits, le_val_digits. by apply Z.mod_small. Qed.

Lemma zlen_le32_bytes v : zlen (le32_bytes v) = 4.
Proof. done. Qed.

Lemma zlen_le64_bytes v : zlen (le64_bytes v) = 8.
Proof. done. Qed.

Lemma le32_bytes_bytes v : bytes (le32_bytes v).
Proof. rewrite le32_bytes_digits. apply le_digits_bytes. Qed.

Lemma le64_bytes_bytes v : bytes (le64_bytes v).
Proof. rewrite le64_bytes_digits. apply le_digits_bytes. Qed.

#[export] Hint Resolve le32_bytes_bytes le64_bytes_bytes le_digits_bytes : orar.
#[export] Hint Rewrite zlen_le32_bytes zlen_le64_bytes zlen_le_digits : zlen.

(** A read of [n] bytes that succeeds is the little-endian value of the slice. *)

Lemma view_cons m off b :
  0 <= off -> m !! Z.to_nat off = Some b -> view m off = b :: view m (off + 1).
Proof.
  intros Ho H. unfold view. rewrite (drop_S m b (Z.to_nat off)) by done.
  do 2 f_equal. lia.
Qed.

Lemma view_nonempty m off :
  0 <= off < zlen m -> exists b, m !! Z.to_nat off = Some b /\ view m off = b :: view m (off + 1).
Proof.
  intros Ho. destruct (m !! Z.to_nat off) as [b|] eqn:E.
  - exists b. split; [done|]. apply view_cons; [lia|done].
  - apply lookup_ge_None in E. unfold zlen in Ho. lia.
Qed.

Lemma lor_bytes_4 p0 p1 p2 p3 :
  is_byte p0 -> is_byte p1 -> is_byte p2 -> is_byte p3 ->
  le32_of p0 p1 p2 p3 = le_val [p0; p1; p2; p3].
Proof.
  unfold is_byte, le32_of. intros.
  rewrite (lor_shiftl_add 8), (lor_shiftl_add 16), (lor_shiftl_add 24) by lia.
  cbn [le_val]. lia.
Qed.

Lemma read_le16_view m off a r :
  bytes m -> 0 <= off -> view m off = a ++ r -> zlen a = 2 -> read_le16 m off = Ok (le_val a).
Proof.
  intros Hm Ho Hv Ha.
  destruct a as [|p0 [|p1 [|]]]; try (zlen_lia).
  assert (Hb : bytes (view m off)) by (by apply bytes_view).
  rewrite Hv in Hb. simpl in Hb, Hv.
  apply Forall_cons_inv in Hb as [H0 Hb]. apply Forall_cons_inv in Hb as [H1 Hb].
  unfold read_le16. rewrite (byte_at_view m off p0 (p1 :: r)) by done. simpl.
  rewrite (byte_at_view m (off + 1) p1 r) by (try lia; apply (view_step m off [p0]); done).
  simpl. f_equal. unfold is_byte in *. rewrite lor_shiftl_add by lia. lia.
Qed.

Lemma read_le32_view m off a r :
  bytes m -> 0 <= off -> view m off = a ++ r -> zlen a = 4 -> read_le32 m off = Ok (le_val a).
Proof.
  intros Hm Ho Hv Ha.
  destruct a as [|p0 [|p1 [|p2 [|p3 [|]]]]]; try (zlen_lia).
  assert (Hb : bytes (view m off)) by (by apply bytes_view).
  rewrite Hv in Hb. simpl in Hb, Hv.
  apply Forall_cons_inv in Hb as [H0 Hb]. apply Forall_cons_inv in Hb as [H1 Hb].
  apply Forall_cons_inv in Hb as [H2 Hb]. apply Forall_cons_inv in Hb as [H3 Hb].
  unfold read_le32. rewrite (byte_at_view m off p0 (p1 :: p2 :: p3 :: r)) by done. simpl.
  rewrite (byte_at_view m (off + 1) p1 (p2 :: p3 :: r))
    by (try lia; apply (view_step m off [p0]); done). simpl.
  rewrite (byte_at_view m (off + 2) p2 (p3 :: r))
    by (try lia; apply (view_step m off [p0; p1]); done). simpl.
  rewrite (byte_at_view m (off + 3) p3 r)
    by (try lia; apply (view_step m off [p0; p1; p2]); done). simpl.
  f_equal. by apply lor_bytes_4.
Qed.

Lemma read_le64_view m off a r :
  bytes m -> 0 <= off -> view m off = a ++ r -> zlen a = 8 -> read_le64 m off = Ok (le_val a).
Proof.
  intros Hm Ho Hv Ha.
  rewrite <- (take_drop 4 a) in Hv |- *.
  assert (L4 : zlen (take 4 a) = 4) by (apply (zlen_take 4); lia).
  assert (R4 : zlen (drop 4 a) = 4) by (change 4%nat with (Z.to_nat 4); rewrite zlen_drop; lia).
  rewrite <- app_assoc in Hv.
  assert (Hb : bytes (view m off)) by (by apply bytes_view).
  rewrite Hv in Hb. apply Forall_app in Hb as [Hb1 Hb2]. apply Forall_app in Hb2 as [Hb2 _].
  pose proof (le_val_range _ Hb1) as R1.
  unfold read_le64.
  rewrite (read_le32_view m off _ _ Hm Ho Hv L4). simpl.
  rewrite (read_le32_view m (off + 4) (drop 4 a) r Hm ltac:(lia)); [|rewrite <- L4 at 1; by apply view_step|done].
  simpl. f_equal. rewrite L4 in R1. rewrite lor_shiftl_add, le_val_app, L4 by lia. lia.
Qed.

(** ** Memory at a split *)

Lemma byte_at_split p c r : byte_at (p ++ c :: r) (zlen p) = Ok c.
Proof. apply (byte_at_view _ _ c r); [apply zlen_nonneg|by apply view_app]. Qed.

Lemma read_le32_split p a r : bytes (p ++ a ++ r) -> zlen a = 4 -> read_le32 (p ++ a ++ r) (zlen p) = Ok (le_val a).
Proof. intros Hb Ha. apply (read_le32_view _ _ a r); [done|apply zlen_nonneg|by apply view_app|done]. Qed.

Lemma store_split p a r b : zlen b = zlen a -> store (p ++ a ++ r) (zlen p) b = Ok (p ++ b ++ r).
Proof.
  intros Hb. unfold store. pose proof (zlen_nonneg p). rewrite !zlen_app, Hb.
  rewrite !(proj2 (Z.leb_le _ _)) by zlen_lia. cbn [andb]. f_equal. f_equal.
  - unfold zlen. rewrite Nat2Z.id. apply take_app_length.
  - f_equal. rewrite app_assoc. replace (zlen p + zlen a) with (zlen (p ++ a)) by zlen_lia.
    unfold zlen. rewrite Nat2Z.id. apply drop_app_length.
Qed.

Lemma split_at (data : list Z) cur n :
  0 <= cur -> 0 <= n -> cur + n <= zlen data ->
  exists p a r, data = p ++ a ++ r /\ zlen p = cur /\ zlen a = n.
Proof.
  intros Hc Hn Hl. exists (take (Z.to_nat cur) data), (take (Z.to_nat n) (drop (Z.to_nat cur) data)),
    (drop (Z.to_nat n) (drop (Z.to_nat cur) data)).
  rewrite take_drop, take_drop. split; [done|]. split; [apply zlen_take; lia|].
  apply zlen_take. rewrite zlen_drop; lia.
Qed.

(** Two stores in a row are one. *)
Lemma store_seq m off a b :
  0 <= off -> off + zlen a + zlen b <= zlen m ->
  (m1 ← store m off a; store m1 (off + zlen a) b) = store m off (a ++ b).
Proof.
  intros Ho Hl. destruct (split_at m off (zlen a)) as (p & x & r0 & -> & <- & Hx); [zlen_lia..|].
  destruct (split_at r0 0 (zlen b)) as (q & y & r & -> & Hq & Hy); [zlen_lia..|].
  apply zlen_zero_nil in Hq as ->. cbn [app]. rewrite store_split by done. res_simpl.
  rewrite (app_assoc x y r), store_split by (rewrite !zlen_app; lia).
  replace (zlen p + zlen a) with (zlen (p ++ a)) by zlen_lia.
  rewrite app_assoc, store_split by done. by rewrite <- !app_assoc.
Qed.

(** *** Big-endian words *)

(** Four bytes put together, the first the highest. *)
Lemma lor_be_bytes x y z w : is_byte x -> is_byte y -> is_byte z -> is_byte w ->
  Z.lor (Z.lor (Z.lor (Z.shiftl x 24) (Z.shiftl y 16)) (Z.shiftl z 8)) w = be_val [x; y; z; w].
Proof.
  intros Hx Hy Hz Hw. unfold be_val, reverse. cbn [rev_append]. rewrite <- lor_bytes_4 by done.
  unfold le32_of. rewrite (Z.lor_comm (Z.lor (Z.lor _ _) _) w). rewrite (Z.lor_comm (Z.lor (Z.shiftl x 24) _)).
  rewrite (Z.lor_comm (Z.shiftl x 24)). by rewrite !Z.lor_assoc.
Qed.

Lemma zlen_4 (l : list Z) : zlen l = 4 -> exists a b c d, l = [a; b; c; d].
Proof.
  intros H. destruct l as [|a [|b [|c [|d [|]]]]]; try (unfold zlen in H; cbn in H; lia). by exists a, b, c, d.
Qed.

Lemma read_be32_val p a r : bytes (p ++ a ++ r) -> zlen a = 4 -> read_be32 (p ++ a ++ r) (zlen p) = Ok (be_val a).
Proof.
  intros Hb Ha. destruct (zlen_4 a Ha) as (x & y & z & w & ->). clear Ha. cbn [app].
  apply Forall_app in Hb as [_ Hb]. repeat (apply Forall_cons_inv in Hb as [? Hb]).
  unfold read_be32. rewrite byte_at_split. res_simpl.
  change (x :: y :: z :: w :: r) with ([x] ++ y :: z :: w :: r). rewrite app_assoc.
  replace (zlen p + 1) with (zlen (p ++ [x])) by zlen_lia. rewrite byte_at_split. res_simpl.
  change (y :: z :: w :: r) with ([y] ++ z :: w :: r). rewrite app_assoc.
  replace (zlen p + 2) with (zlen ((p ++ [x]) ++ [y])) by zlen_lia. rewrite byte_at_split. res_simpl.
  change (z :: w :: r) with ([z] ++ w :: r). rewrite app_assoc.
  replace (zlen p + 3) with (zlen (((p ++ [x]) ++ [y]) ++ [z])) by zlen_lia. rewrite byte_at_split. res_simpl.
  f_equal. by apply lor_be_bytes.
Qed.

Lemma read_be32_words block i : bytes block -> (4 * i + 4 <= length block)%nat ->
  read_be32 block (Z.of_nat i * 4) = Ok (be_val (take 4 (drop (4 * i) block))).
Proof.
  intros Hb Hl. set (p := take (4 * i) block). set (a := take 4 (drop (4 * i) block)). set (r := drop 4 (drop (4 * i) block)).
  assert (E : block = p ++ a ++ r) by (unfold p, a, r; by rewrite !take_drop).
  assert (Hp : zlen p = Z.of_nat i * 4) by (unfold p, zlen; rewrite length_take; lia).
  assert (Ha : zlen a = 4) by (unfold a, zlen; rewrite length_take, length_drop; lia).
  rewrite E in Hb |- *. rewrite <- Hp. by apply read_be32_val.
Qed.

(** Xor of byte strings. *)
Lemma xor_byte a b : is_byte a -> is_byte b -> is_byte (Z.lxor a b).
Proof. unfold is_byte. change 256 with (2 ^ 8). intros Ha Hb. apply lxor_range; lia. Qed.

Lemma bytes_xor a b : bytes a -> bytes b -> bytes (zip_with Z.lxor a b).
Proof.
  intros Ba. revert b. induction Ba as [|x a Hx Ba IH]; intros b Bb; [done|]. destruct Bb as [|y b Hy Bb]; [done|].
  cbn [zip_with]. constructor; [by apply xor_byte|by apply IH].
Qed.

Lemma bytes_xor_const x k : is_byte x -> bytes k -> bytes (map (fun b => Z.lxor b x) k).
Proof. intros Hx. induction 1 as [|b k Hb Hk IH]; [done|]. cbn [map]. constructor; [by apply xor_byte|done]. Qed.

(** *** Reading by index *)

Definition nthZ (l : list Z) (i : Z) : Z := nth (Z.to_nat i) l 0.

Lemma byte_at_nthZ m i : 0 <= i < zlen m -> byte_at m i = Ok (nthZ m i).
Proof.
  intros Hi. unfold byte_at, nthZ. rewrite (proj2 (Z.ltb_ge _ _)) by lia.
  destruct (m !! Z.to_nat i) as [b|] eqn:E; [|apply lookup_ge_None in E; unfold zlen in Hi; lia].
  by rewrite (nth_lookup_Some _ _ 0 b).
Qed.

Lemma nthZ_app a b i : 0 <= i -> nthZ (a ++ b) i = if i <? zlen a then nthZ a i else nthZ b (i - zlen a).
Proof.
  intros Hi. unfold nthZ, zlen. destruct (Z.ltb_spec i (Z.of_nat (length a))).
  - apply app_nth1. lia.
  - rewrite app_nth2 by lia. f_equal. lia.
Qed.

Lemma store_get m off l :
  0 <= off -> off + zlen l <= zlen m ->
  exists m', store m off l = Ok m' /\ zlen m' = zlen m /\
    forall i, 0 <= i -> nthZ m' i = if (off <=? i) && (i <? off + zlen l) then nthZ l (i - off) else nthZ m i.
Proof.
  intros Ho Hl. destruct (split_at m off (zlen l)) as (p & x & r & -> & <- & Hx); [zlen_lia..|].
  exists (p ++ l ++ r). split; [by apply store_split|]. split; [rewrite !zlen_app; lia|]. intros i Hi.
  rewrite !(nthZ_app p) by lia. destruct (Z.ltb_spec i (zlen p)), (Z.leb_spec (zlen p) i); try lia; cbn [andb]; [done|].
  rewrite (nthZ_app l), (nthZ_app x) by lia. destruct (Z.ltb_spec (i - zlen p) (zlen l)), (Z.ltb_spec i (zlen p + zlen l)),
    (Z.ltb_spec (i - zlen p) (zlen x)); try lia; by rewrite ?Hx.
Qed.

(** Equal lengths and equal bytes. *)
Lemma nthZ_ext a b : zlen a = zlen b -> (forall i, 0 <= i < zlen a -> nthZ a i = nthZ b i) -> a = b.
Proof.
  intros Hl Hn. apply (nth_ext _ _ 0 0); [unfold zlen in Hl; lia|]. intros k Hk.
  specialize (Hn (Z.of_nat k) ltac:(unfold zlen; lia)). unfold nthZ in Hn. by rewrite Nat2Z.id in Hn.
Qed.

Lemma nthZ_take n l i : 0 <= i < n -> nthZ (take (Z.to_nat n) l) i = nthZ l i.
Proof. intros Hi. unfold nthZ. rewrite !nth_lookup, lookup_take_lt by lia. done. Qed.

Lemma nthZ_view l o k : 0 <= o -> 0 <= k -> nthZ (view l o) k = nthZ l (o + k).
Proof. intros Ho Hk. unfold nthZ, view. rewrite !nth_lookup, lookup_drop. do 2 f_equal. lia. Qed.

Lemma nthZ_byte m i : bytes m -> is_byte (nthZ m i).
Proof.
  intros Hm. unfold nthZ. destruct (nth_in_or_default (Z.to_nat i) m 0) as [Hin| ->]; [|done].
  rewrite List.Forall_forall in Hm. by apply Hm.
Qed.

(** ** Lemmas: a store is read back, host loads agree with byte-wise reads *)

Lemma store_read m off l m' :
  store m off l = Ok m' -> 0 <= off /\ view m' off = l ++ view m (off + zlen l) /\ zlen m' = zlen m.
Proof.
  unfold store. destruct (_ && _) eqn:E; [|done]. intros [= <-].
  apply andb_true_iff in E as [E1 E2]. apply Z.leb_le in E1, E2.
  assert (L : zlen (take (Z.to_nat off) m) = off) by (apply zlen_take; zlen_lia).
  split; [done|]. split; [by apply view_app|].
  rewrite !zlen_app, L, zlen_drop; zlen_lia.
Qed.

Lemma store_bytes m off l m' : bytes m -> bytes l -> store m off l = Ok m' -> bytes m'.
Proof.
  unfold store. intros Hm Hl. destruct (_ && _); [|done]. intros [= <-].
  repeat apply Forall_app_2; auto with orar.
Qed.

Theorem write_read_le32 m off v m' :
  bytes m -> 0 <= v < 2 ^ 32 -> write_le32 m off v = Ok m' -> read_le32 m' off = Ok v.
Proof.
  intros Hm Hv Hs. pose proof (store_bytes _ _ _ _ Hm (le32_bytes_bytes v) Hs) as Hb.
  apply store_read in Hs as (Ho & Hview & _).
  rewrite (read_le32_view m' off _ _ Hb Ho Hview); [|done]. f_equal. by apply le_val_le32.
Qed.

Theorem write_read_le16 m off v m' :
  bytes m -> 0 <= v < 2 ^ 16 -> write_le16 m off v = Ok m' -> read_le16 m' off = Ok v.
Proof.
  intros Hm Hv Hs.
  assert (Hl : bytes (le16_bytes v)) by (rewrite le16_bytes_digits; apply le_digits_bytes).
  pose proof (store_bytes _ _ _ _ Hm Hl Hs) as Hb.
  apply store_read in Hs as (Ho & Hview & _).
  rewrite (read_le16_view m' off _ _ Hb Ho Hview); [|done]. f_equal.
  rewrite le16_bytes_digits, le_val_digits. by apply Z.mod_small.
Qed.

(** A big-endian host swaps, a little-endian host does not; both see the value
    of the byte-wise read. *)
Lemma bswap_be_val l : bytes l -> bswap (length l) (be_val l) = le_val l.
Proof.
  intros H. unfold bswap, be_val.
  rewrite <- (length_reverse l), le_digits_val by (by apply Forall_reverse).
  by rewrite reverse_involutive.
Qed.

Lemma zlen_length {A} (l : list A) n : zlen l = Z.of_nat n -> length l = n.
Proof. unfold zlen. lia. Qed.

Lemma load_le32_slice big m off : bytes m -> load_le32 big m off = (p ← slice m off 4; mret (le_val p)).
Proof.
  intros Hm. unfold load_le32, slice. destruct (_ && _) eqn:E; [|done].
  apply andb_true_iff in E as [E1 E3]. apply andb_true_iff in E1 as [E1 E2].
  apply Z.leb_le in E1, E2, E3. cbn [mbind res_bind].
  destruct big; [|done]. f_equal.
  set (l := take _ _). assert (L : length l = 4%nat).
  { apply zlen_length. apply zlen_take. rewrite zlen_drop; zlen_lia. }
  rewrite <- L. apply bswap_be_val. subst l. auto with orar.
Qed.

Theorem load_le32_read big m off :
  bytes m -> 0 <= off -> off + 4 <= zlen m -> load_le32 big m off = read_le32 m off.
Proof.
  intros Hm Ho Hl. rewrite load_le32_slice by done.
  assert (E : slice m off 4 = Ok (take 4 (view m off))).
  { unfold slice. by rewrite !(proj2 (Z.leb_le _ _)) by lia. }
  rewrite E. symmetry.
  apply (read_le32_view m off _ (drop 4 (view m off))); [done..|by rewrite take_drop|].
  apply (zlen_take 4). rewrite zlen_view; lia.
Qed.

(** ** Lemmas: powers of two *)

Lemma pow2_land_pred k : 0 <= k -> Z.land (2 ^ k) (2 ^ k - 1) = 0.
Proof.
  intros Hk. replace (2 ^ k - 1) with (Z.ones k) by (rewrite Z.ones_equiv; lia).
  rewrite Z.land_ones by done. apply Z.mod_same. lia.
Qed.

Lemma land_pred_pow2 n : 0 < n -> Z.land n (n - 1) = 0 -> n = 2 ^ Z.log2 n.
Proof.
  intros Hn HL. pose proof (Z.log2_spec n Hn) as [L1 L2]. pose proof (Z.log2_nonneg n).
  destruct (decide (n = 2 ^ Z.log2 n)) as [|Hne]; [done|exfalso].
  assert (E : Z.log2 (n - 1) = Z.log2 n) by (apply Z.log2_unique; lia).
  assert (B2 : Z.testbit (n - 1) (Z.log2 n) = true).
  { rewrite <- E. apply Z.bit_log2. pose proof (Z.pow_pos_nonneg 2 (Z.log2 n)). lia. }
  assert (B : Z.testbit (Z.land n (n - 1)) (Z.log2 n) = true) by (by rewrite Z.land_spec, B2, Z.bit_log2).
  by rewrite HL, Z.testbit_0_l in B.
Qed.

Theorem is_power_of_two_spec n :
  0 <= n < 2 ^ 64 -> is_power_of_two n = true <-> exists k, 0 <= k < 64 /\ n = 2 ^ k.
Proof.
  intros Hn. unfold is_power_of_two. rewrite andb_true_iff, negb_true_iff, Z.eqb_neq, Z.eqb_eq.
  split.
  - intros [H0 Hland]. rewrite wrap_small in Hland by lia. pose proof (Z.log2_nonneg n).
    exists (Z.log2 n). assert (Z.log2 n < 64) by (apply Z.log2_lt_pow2; lia). split; [lia|]. by apply land_pred_pow2; lia.
  - intros (k & Hk & ->). pose proof (Z.pow_pos_nonneg 2 k).
    split; [lia|]. rewrite wrap_small by lia. apply pow2_land_pred. lia.
Qed.

(** ** UTF-8 against RFC 3629 *)

(** Unicode scalar values and their encoding. *)
Definition scalar (cp : Z) : Prop := 0 <= cp <= 0x10FFFF /\ ~ (0xD800 <= cp <= 0xDFFF).

Definition utf8_encode (cp : Z) : list Z :=
  if cp <? 0x80 then [cp]
  else if cp <? 0x800 then [0xC0 + cp / 64; 0x80 + cp mod 64]
  else if cp <? 0x10000 then [0xE0 + cp / 4096; 0x80 + cp / 64 mod 64; 0x80 + cp mod 64]
  else [0xF0 + cp / 262144; 0x80 + cp / 4096 mod 64; 0x80 + cp / 64 mod 64; 0x80 + cp mod 64].

Definition utf8_text (s : list Z) : Prop :=
  exists cps, Forall scalar cps /\ s = concat (map utf8_encode cps).

(** The bit tests of the validator, as ranges. *)
Lemma utf8_lead_range c :
  is_byte c -> 0x80 <= c ->
  utf8_lead c = (if c <? 0xC2 then None else if c <? 0xE0 then Some (1, 0x80)
                 else if c <? 0xF0 then Some (2, 0x800)
                 else if c <? 0xF5 then Some (3, 0x10000) else None).
Proof.
  intros Hb Hc.
  set (P c := (c <? 0x80) ||
    match utf8_lead c,
      (if c <? 0xC2 then None else if c <? 0xE0 then Some (1, 0x80)
       else if c <? 0xF0 then Some (2, 0x800)
       else if c <? 0xF5 then Some (3, 0x10000) else None) with
    | None, None => true
    | Some (a, b), Some (a', b') => (a =? a') && (b =? b')
    | _, _ => false
    end).
  assert (H : P c = true) by (apply byte_forall; [vm_compute; done|done]).
  unfold P in H. apply orb_true_iff in H as [H|H]; [lia|].
  destruct (utf8_lead c) as [[a b]|], (if c <? 0xC2 then _ else _) as [[a' b']|]; try done.
  apply andb_true_iff in H as [H1 H2]. apply Z.eqb_eq in H1, H2. by subst.
Qed.

Lemma utf8_lead_bits c :
  is_byte c -> 0xC0 <= c < 0xF8 ->
  Z.land c (Z.shiftr 0xFF 3) = c mod 32 /\ Z.land c (Z.shiftr 0xFF 4) = c mod 16 /\
  Z.land c (Z.shiftr 0xFF 5) = c mod 8.
Proof.
  intros Hb Hc. split_and!;
    [exact (Z.land_ones c 5 ltac:(lia))|exact (Z.land_ones c 4 ltac:(lia))
    |exact (Z.land_ones c 3 ltac:(lia))].
Qed.

Definition is_cont (c : Z) : bool := (0x80 <=? c) && (c <? 0xC0).

Lemma cont_test c : is_byte c -> (Z.land c 0xC0 =? 0x80) = is_cont c.
Proof.
  intros Hb. apply eqb_prop.
  exact (byte_forall (fun c => eqb (Z.land c 0xC0 =? 0x80) (is_cont c))
           ltac:(vm_compute; done) c Hb).
Qed.

Lemma cont_bits c : is_byte c -> is_cont c = true -> Z.land c 0x3F = c - 0x80.
Proof.
  intros Hb Hc. unfold is_cont in Hc. apply andb_true_iff in Hc as [H1 H2].
  change 0x3F with (Z.ones 6). rewrite Z.land_ones by lia. unfold is_byte in Hb. dlia.
Qed.

Lemma utf8_acc code cc :
  is_byte cc -> is_cont cc = true -> 0 <= code < 2 ^ 26 ->
  Z.lor (u32 (Z.shiftl code 6)) (Z.land cc 0x3F) = code * 64 + (cc - 0x80).
Proof.
  intros Hb Hc Hcode. rewrite (cont_bits cc) by done.
  unfold is_cont in Hc. apply andb_true_iff in Hc as [H1 H2].
  rewrite wrap_small by (rewrite Z.shiftl_mul_pow2 by lia; lia).
  rewrite lor_shiftl_add_l; lia.
Qed.

(** One sequence, on the list: what is left after a well-formed first
    character. *)
Definition utf8_tail (extra code min_val : Z) (l : list Z) : option (list Z) :=
  if (Z.of_nat (length l) <? extra) then None
  else
    let t := take (Z.to_nat extra) l in
    let code := fold_left (fun acc c => acc * 64 + (c - 0x80)) t code in
    if forallb is_cont t && (min_val <=? code) && (code <=? 0x10FFFF)
       && negb ((0xD800 <=? code) && (code <=? 0xDFFF))
    then Some (drop (Z.to_nat extra) l) else None.

Definition utf8_next (l : list Z) : option (list Z) :=
  match l with
  | [] => None
  | c :: l1 =>
      if c <? 0x80 then Some l1
      else if c <? 0xC2 then None
      else if c <? 0xE0 then utf8_tail 1 (c - 0xC0) 0x80 l1
      else if c <? 0xF0 then utf8_tail 2 (c - 0xE0) 0x800 l1
      else if c <? 0xF5 then utf8_tail 3 (c - 0xF0) 0x10000 l1
      else None
  end.

Lemma utf8_continuation_spec t p pos code r :
  bytes t -> 0 <= pos -> view p pos = t ++ r -> 0 <= code -> code * 64 ^ zlen t + 64 ^ zlen t <= 2 ^ 26 ->
  utf8_continuation (length t) p pos code =
  Ok (if forallb is_cont t then Some (fold_left (fun acc c => acc * 64 + (c - 0x80)) t code) else None).
Proof.
  intros Ht. revert pos code. induction Ht as [|c t Hc Ht IH]; intros pos code Hpos Hv Hc0 Hc1; [done|].
  cbn [length utf8_continuation forallb fold_left].
  rewrite (byte_at_view p pos c (t ++ r)) by done. cbn [mbind res_bind].
  rewrite cont_test by done. destruct (is_cont c) eqn:Ec; [|done]. cbn [negb andb].
  rewrite zlen_cons, Z.pow_add_r in Hc1 by zlen_lia.
  assert (P : 0 < 64 ^ zlen t) by (apply Z.pow_pos_nonneg; zlen_lia).
  rewrite utf8_acc by (try done; nia).
  unfold is_cont in Ec. apply andb_true_iff in Ec as [E1 E2].
  apply IH; [lia| |lia|nia].
  apply (view_step p pos [c]); done.
Qed.

Lemma is_valid_utf8_step f p i l :
  bytes p -> 0 <= i -> view p i = l -> l <> [] ->
  is_valid_utf8_loop (S f) p (zlen p) i =
  match utf8_next l with
  | Some l' => is_valid_utf8_loop f p (zlen p) (i + (zlen l - zlen l'))
  | None => Ok false
  end.
Proof.
  intros Hp Hi Hv Hne. destruct l as [|c l1]; [done|]. clear Hne.
  assert (Hb : bytes (view p i)) by (by apply bytes_view).
  rewrite Hv in Hb. apply Forall_cons_inv in Hb as [Hc Hb].
  assert (Hlen : i <= zlen p).
  { destruct (Z.le_gt_cases i (zlen p)); [done|]. unfold view in Hv.
    rewrite drop_ge in Hv by (unfold zlen in *; lia). done. }
  pose proof (view_length p i _ ltac:(lia) Hv) as Hzl. rewrite zlen_cons in Hzl.
  pose proof (zlen_nonneg l1) as Hl1.
  cbn [is_valid_utf8_loop]. rewrite (proj2 (Z.ltb_lt i (zlen p))) by lia.
  rewrite (byte_at_view p i c l1) by done. cbn [mbind res_bind utf8_next].
  destruct (c <? 0x80) eqn:E1.
  { f_equal. rewrite zlen_cons. lia. }
  rewrite utf8_lead_range by (done || lia).
  assert (Hvt : view p (i + 1) = l1) by (by apply (view_step p i [c])).
  assert (Step : forall extra mv m,
    0 < extra -> 0 <= m -> m * 64 ^ extra + 64 ^ extra <= 2 ^ 26 ->
    Z.land c (Z.shiftr 0xFF (extra + 2)) = m ->
    (if i + extra >=? zlen p then Ok false
     else
       r ← utf8_continuation (Z.to_nat extra) p (i + 1) (Z.land c (Z.shiftr 0xFF (extra + 2)));
       match r with
       | None => Ok false
       | Some code =>
           if code <? mv then Ok false
           else if (code >=? 0xD800) && (code <=? 0xDFFF) then Ok false
           else if code >? 0x10FFFF then Ok false
           else is_valid_utf8_loop f p (zlen p) (i + 1 + extra)
       end) =
    match utf8_tail extra m mv l1 with
    | Some l' => is_valid_utf8_loop f p (zlen p) (i + (zlen (c :: l1) - zlen l'))
    | None => Ok false
    end).
  { intros extra mv m He Hm0 Hm1 Hm. rewrite Hm. unfold utf8_tail. fold (zlen l1).
    destruct (Z.ltb_spec (zlen l1) extra) as [Hs|Hs].
    { destruct (Z.geb_spec (i + extra) (zlen p)); [done|lia]. }
    destruct (Z.geb_spec (i + extra) (zlen p)) as [?|_]; [lia|].
    assert (Lt : length (take (Z.to_nat extra) l1) = Z.to_nat extra).
    { rewrite length_take. unfold zlen in Hs. lia. }
    assert (Zt : zlen (take (Z.to_nat extra) l1) = extra) by (unfold zlen; lia).
    rewrite <- Lt at 1.
    rewrite (utf8_continuation_spec _ p (i + 1) m (drop (Z.to_nat extra) l1));
      [|auto with orar|lia|by rewrite take_drop|done|by rewrite Zt].
    cbn [mbind res_bind].
    destruct (forallb is_cont _); [|done]. cbn [andb].
    set (code := fold_left _ _ _).
    destruct (Z.ltb_spec code mv), (Z.leb_spec mv code); try lia; [done|]. cbn [andb].
    destruct (Z.geb_spec code 0xD800), (Z.leb_spec 0xD800 code); try lia;
      destruct (Z.leb_spec code 0xDFFF); cbn [andb negb]; rewrite ?andb_false_r; try done;
      destruct (Z.gtb_spec code 0x10FFFF), (Z.leb_spec code 0x10FFFF); try lia; try done;
      cbn [andb]; f_equal; rewrite zlen_cons, zlen_drop; lia. }
  unfold is_byte in Hc.
  destruct (c <? 0xC2) eqn:E2; [done|].
  destruct (c <? 0xE0) eqn:E3.
  { apply Step; [lia|lia|lia|]. change (1 + 2) with 3. rewrite (proj1 (utf8_lead_bits c Hc ltac:(lia))). dlia. }
  destruct (c <? 0xF0) eqn:E4.
  { apply Step; [lia|lia|lia|]. change (2 + 2) with 4.
    rewrite (proj1 (proj2 (utf8_lead_bits c Hc ltac:(lia)))). dlia. }
  destruct (c <? 0xF5) eqn:E5; [|done].
  apply Step; [lia|lia|lia|]. change (3 + 2) with 5.
  rewrite (proj2 (proj2 (utf8_lead_bits c Hc ltac:(lia)))). dlia.
Qed.

Lemma utf8_tail_some extra code mv l l' :
  0 <= extra -> 0 <= mv -> utf8_tail extra code mv l = Some l' ->
  exists t, l = t ++ l' /\ zlen t = extra /\ forallb is_cont t = true /\
    let cp := fold_left (fun acc c => acc * 64 + (c - 0x80)) t code in
    mv <= cp /\ scalar cp.
Proof.
  intros He Hmv. unfold utf8_tail. fold (zlen l). destruct (Z.ltb_spec (zlen l) extra); [done|].
  destruct (_ && _) eqn:E; [|done]. intros [= <-].
  exists (take (Z.to_nat extra) l). rewrite take_drop.
  apply andb_true_iff in E as [E E4]. apply andb_true_iff in E as [E E3].
  apply andb_true_iff in E as [E1 E2].
  split; [done|]. split; [apply zlen_take; lia|]. split; [done|]. cbv zeta.
  unfold scalar. lia.
Qed.

Lemma utf8_next_sound l l' :
  bytes l -> utf8_next l = Some l' -> exists cp, scalar cp /\ l = utf8_encode cp ++ l'.
Proof.
  intros Hl. destruct l as [|c l1]; [done|]. apply Forall_cons_inv in Hl as [Hc Hl].
  unfold is_byte in Hc. cbn [utf8_next].
  destruct (Z.ltb_spec c 0x80).
  { intros [= ->]. exists c. unfold scalar, utf8_encode.
    rewrite (proj2 (Z.ltb_lt c 0x80)) by lia. split; [lia|done]. }
  destruct (Z.ltb_spec c 0xC2); [done|].
  destruct (Z.ltb_spec c 0xE0); [|destruct (Z.ltb_spec c 0xF0); [|destruct (Z.ltb_spec c 0xF5); [|done]]];
    intros (t & -> & Ht & Hcont & Hcp)%utf8_tail_some; try lia;
    cbv zeta in Hcp;
    [destruct t as [|d [|]]|destruct t as [|d [|e [|]]]|destruct t as [|d [|e [|f [|]]]]];
    try (zlen_lia); cbn [fold_left forallb] in Hcp, Hcont; unfold is_cont in Hcont.
  - exists ((c - 0xC0) * 64 + (d - 0x80)). unfold scalar, utf8_encode in *. split; [lia|].
    rewrite (proj2 (Z.ltb_ge _ 0x80)), (proj2 (Z.ltb_lt _ 0x800)) by lia.
    cbn [app]. f_equal; [dlia|]. f_equal. dlia.
  - exists (((c - 0xE0) * 64 + (d - 0x80)) * 64 + (e - 0x80)). unfold scalar, utf8_encode in *.
    split; [lia|].
    rewrite (proj2 (Z.ltb_ge _ 0x80)), (proj2 (Z.ltb_ge _ 0x800)), (proj2 (Z.ltb_lt _ 0x10000)) by lia.
    cbn [app]. f_equal; [dlia|]. f_equal; [dlia|]. f_equal; dlia.
  - exists ((((c - 0xF0) * 64 + (d - 0x80)) * 64 + (e - 0x80)) * 64 + (f - 0x80)).
    unfold scalar, utf8_encode in *. split; [lia|].
    rewrite (proj2 (Z.ltb_ge _ 0x80)), (proj2 (Z.ltb_ge _ 0x800)), (proj2 (Z.ltb_ge _ 0x10000)) by lia.
    cbn [app]. f_equal; [dlia|]. f_equal; [dlia|]. f_equal; [dlia|]. f_equal; dlia.
Qed.

Lemma utf8_tail_intro t l code mv cp :
  forallb is_cont t = true -> fold_left (fun acc c => acc * 64 + (c - 0x80)) t code = cp ->
  mv <= cp -> scalar cp -> utf8_tail (zlen t) code mv (t ++ l) = Some l.
Proof.
  intros Ht Hf Hmv [Hs1 Hs2]. unfold utf8_tail. fold (zlen (t ++ l)).
  rewrite (proj2 (Z.ltb_ge _ _)) by zlen_lia.
  replace (Z.to_nat (zlen t)) with (length t) by (unfold zlen; lia).
  rewrite take_app_length, drop_app_length, Hf, Ht.
  rewrite (proj2 (Z.leb_le mv cp)), (proj2 (Z.leb_le cp 0x10FFFF)) by lia. cbn [andb].
  destruct (Z.leb_spec 0xD800 cp), (Z.leb_spec cp 0xDFFF); try done; lia.
Qed.

Lemma utf8_next_complete cp l : scalar cp -> utf8_next (utf8_encode cp ++ l) = Some l.
Proof.
  intros Hs. unfold utf8_encode. pose proof Hs as [H1 H2].
  destruct (Z.ltb_spec cp 0x80).
  { cbn [app utf8_next]. by rewrite (proj2 (Z.ltb_lt cp 0x80)). }
  destruct (Z.ltb_spec cp 0x800); [|destruct (Z.ltb_spec cp 0x10000)]; cbn [app utf8_next].
  - rewrite (proj2 (Z.ltb_ge _ 0x80)), (proj2 (Z.ltb_ge _ 0xC2)), (proj2 (Z.ltb_lt _ 0xE0)) by dlia.
    apply (utf8_tail_intro [0x80 + cp mod 64] l _ _ cp); [| |lia|done];
      cbn [forallb fold_left]; unfold is_cont; dlia.
  - rewrite (proj2 (Z.ltb_ge _ 0x80)), (proj2 (Z.ltb_ge _ 0xC2)), (proj2 (Z.ltb_ge _ 0xE0)),
      (proj2 (Z.ltb_lt _ 0xF0)) by dlia.
    apply (utf8_tail_intro [0x80 + cp / 64 mod 64; 0x80 + cp mod 64] l _ _ cp); [| |lia|done];
      cbn [forallb fold_left]; unfold is_cont; dlia.
  - rewrite (proj2 (Z.ltb_ge _ 0x80)), (proj2 (Z.ltb_ge _ 0xC2)), (proj2 (Z.ltb_ge _ 0xE0)),
      (proj2 (Z.ltb_ge _ 0xF0)), (proj2 (Z.ltb_lt _ 0xF5)) by dlia.
    apply (utf8_tail_intro [0x80 + cp / 4096 mod 64; 0x80 + cp / 64 mod 64; 0x80 + cp mod 64] l _ _ cp);
      [| |lia|done]; cbn [forallb fold_left]; unfold is_cont; dlia.
Qed.

Lemma utf8_encode_nonempty cp : 1 <= zlen (utf8_encode cp).
Proof.
  unfold utf8_encode.
  destruct (cp <? 0x80), (cp <? 0x800), (cp <? 0x10000); cbn [length]; zlen_lia.
Qed.

Lemma utf8_text_cons cp l : scalar cp -> utf8_text l -> utf8_text (utf8_encode cp ++ l).
Proof. intros H (cps & Hc & ->). exists (cp :: cps). split; [by constructor|done]. Qed.

Lemma is_valid_utf8_loop_spec f p i :
  bytes p -> 0 <= i <= zlen p -> zlen p - i < Z.of_nat f ->
  exists b, is_valid_utf8_loop f p (zlen p) i = Ok b /\ (b = true <-> utf8_text (view p i)).
Proof.
  intros Hp. revert i. induction f as [|f IH]; intros i Hi Hf; [lia|].
  destruct (view p i) as [|c l1] eqn:Hv.
  { pose proof (view_length p i [] Hi Hv) as L. rewrite zlen_nil in L.
    exists true. cbn [is_valid_utf8_loop]. rewrite (proj2 (Z.ltb_ge _ _)) by lia.
    split; [done|]. split; [|done]. intros _. by exists []. }
  rewrite (is_valid_utf8_step f p i (c :: l1)) by (done || lia).
  assert (Hb : bytes (c :: l1)) by (rewrite <- Hv; auto with orar).
  pose proof (view_length p i _ Hi Hv) as L.
  destruct (utf8_next (c :: l1)) as [l'|] eqn:En.
  - destruct (utf8_next_sound _ _ Hb En) as (cp & Hcp & El).
    rewrite El in Hv, L |- *. rewrite zlen_app in L |- *.
    pose proof (utf8_encode_nonempty cp). pose proof (zlen_nonneg l').
    replace (zlen (utf8_encode cp) + zlen l' - zlen l') with (zlen (utf8_encode cp)) by lia.
    destruct (IH (i + zlen (utf8_encode cp))) as (b & -> & Hb'); [lia..|].
    exists b. split; [done|]. rewrite Hb', (view_step p i _ l') by (done || lia).
    split; [by apply utf8_text_cons|].
    intros ([|cp' cps] & Hc & E); cbn [map concat] in E.
    { rewrite <- app_nil_r in E at 1. apply (f_equal zlen) in E. zlen_lia. }
    apply Forall_cons_inv in Hc as [Hc1 Hc2]. exists cps. split; [done|].
    apply (f_equal utf8_next) in E. rewrite !utf8_next_complete in E by done. congruence.
  - exists false. split; [done|]. split; [done|].
    intros ([|cp cps] & Hc & E); [done|]. cbn [map concat] in E.
    apply Forall_cons_inv in Hc as [Hc1 Hc2].
    rewrite E, utf8_next_complete in En by done. done.
Qed.

Lemma is_valid_utf8_total s : bytes s -> exists b, is_valid_utf8 s = Ok b.
Proof.
  intros Hs. destruct (is_valid_utf8_loop_spec (S (length s)) s 0 Hs) as (b & E & _);
    [zlen_lia|unfold zlen; lia|]. by exists b.
Qed.

Lemma is_valid_utf8_iff s : bytes s -> is_valid_utf8 s = Ok true <-> utf8_text s.
Proof.
  intros Hs. unfold is_valid_utf8.
  destruct (is_valid_utf8_loop_spec (S (length s)) s 0 Hs) as (b & -> & Hb);
    [zlen_lia|unfold zlen; lia|]. rewrite view_0 in Hb. rewrite <- Hb.
  split; [by intros [= ->]|by intros ->].
Qed.

(** C28. [is_valid_utf8] decides exactly the byte strings that are a
    concatenation of RFC 3629 encodings of Unicode scalar values (no overlong
    form, no surrogate, nothing above U+10FFFF), and on every byte string it
    returns without reading outside the string. *)
Theorem is_valid_utf8_correct (s : list Z) :
  bytes s ->
  safe (is_valid_utf8 s) /\ (is_valid_utf8 s = Ok true <-> utf8_text s).
Proof.
  intros Hs. split; [|by apply is_valid_utf8_iff].
  destruct (is_valid_utf8_total s Hs) as [b ->]. done.
Qed.

(** "é€𝄞" is well formed; the overlong slash and a surrogate are not. *)
Lemma is_valid_utf8_correct_witness :
  let s := [0xC3; 0xA9; 0xE2; 0x82; 0xAC; 0xF0; 0x9D; 0x84; 0x9E] in
  safe (is_valid_utf8 s) /\ (is_valid_utf8 s = Ok true <-> utf8_text s) /\
  is_valid_utf8 [0xC0; 0xAF] = Ok false /\ is_valid_utf8 [0xED; 0xA0; 0x80] = Ok false.
Proof.
  cbv zeta.
  destruct (is_valid_utf8_correct [0xC3; 0xA9; 0xE2; 0x82; 0xAC; 0xF0; 0x9D; 0x84; 0x9E]) as [H1 H2].
  - repeat constructor; done.
  - split; [exact H1|]. split; [exact H2|]. split; vm_compute; reflexivity.
Defined.
