(* ===== verification/Arrays.v ===== *)
(** Arrays of words as lists: constant-index stores, checked stores, and
    characterisations by index. *)

From Stdlib Require Import ZArith Lia.
From stdpp Require Import base tactics list numbers.
From S2P Require Import Prelude Bytes.

Local Open Scope Z_scope.

(** [a[i] = v] where [i] is in range by construction. *)
Definition setZ (a : list Z) (i v : Z) : list Z := <[Z.to_nat i := v]> a.

Lemma zlen_setZ a i v : zlen (setZ a i v) = zlen a.
Proof. unfold setZ, zlen. by rewrite length_insert. Qed.

Lemma nthZ_setZ a i v j : 0 <= i < zlen a -> 0 <= j -> nthZ (setZ a i v) j = if j =? i then v else nthZ a j.
Proof.
  intros Hi Hj. unfold nthZ, setZ, zlen in *. rewrite !nth_lookup. destruct (Z.eqb_spec j i) as [->|Hne].
  - by rewrite list_lookup_insert_eq by lia.
  - by rewrite list_lookup_insert_ne by lia.
Qed.

Lemma nthZ_setZ_eq a i v : 0 <= i < zlen a -> nthZ (setZ a i v) i = v.
Proof. intros Hi. by rewrite nthZ_setZ, Z.eqb_refl by lia. Qed.

Lemma nthZ_setZ_ne a i v j : 0 <= i -> 0 <= j -> j <> i -> nthZ (setZ a i v) j = nthZ a j.
Proof.
  intros Hi Hj Hne. unfold nthZ, setZ. rewrite !nth_lookup. by rewrite list_lookup_insert_ne by lia.
Qed.

Lemma nthZ_replicate n v i : 0 <= i < Z.of_nat n -> nthZ (replicate n v) i = v.
Proof.
  intros Hi. unfold nthZ. by rewrite nth_lookup, lookup_replicate_2 by lia.
Qed.

Lemma nthZ_replicate_0 n i : nthZ (replicate n 0) i = 0.
Proof.
  unfold nthZ. rewrite nth_lookup. destruct (replicate n 0 !! _) as [x|] eqn:E; [|done].
  by apply lookup_replicate_1 in E as [-> _].
Qed.

(** A checked store at one index. *)
Lemma store_one m i v : 0 <= i < zlen m -> store m i [v] = Ok (setZ m i v).
Proof.
  intros Hi. unfold store. change (zlen [v]) with 1.
  rewrite !(proj2 (Z.leb_le _ _)) by lia. cbn [andb]. f_equal. unfold setZ.
  rewrite insert_take_drop by (unfold zlen in Hi; lia). do 3 f_equal. lia.
Qed.

(** Rewriting form of the bind: unlike reduction it never makes the kernel
    compare the two computations. *)
Lemma bind_ok {A B} (a : A) (f : A -> res B) : (Ok a ≫= f) = f a.
Proof. done. Qed.

(** A store just behind the part of the array that is filled. *)
Lemma setZ_next l n i v : zlen l = i -> setZ (l ++ replicate (S n) 0) i v = (l ++ [v]) ++ replicate n 0.
Proof.
  intros <-. unfold setZ, zlen. rewrite Nat2Z.id, insert_app_r_alt by lia. rewrite Nat.sub_diag. cbn. by rewrite <- app_assoc.
Qed.
