(* ===== verification/Vint.v ===== *)
(** Variable-length integers: [src/core/vint.cpp].

    [push_vint] (minimal encoding), [push_vint_fixed] (padded to a width) and
    the lenient decoder [read_vint], with its failure contract: the byte count
    it reports on failure is what it consumed. *)

From stdpp Require Import base tactics list numbers.
From Stdlib Require Import ZArith Lia.
From S2P Require Import Prelude.

Local Open Scope Z_scope.

Definition MAX_VINT_SIZE : Z := 10.

(** [do { ... } while (value != 0)] with one iteration per 7 bits. *)
Fixpoint vint_digits (fuel : nat) (value : Z) : list Z :=
  match fuel with
  | O => []
  | S fuel' =>
      let b := Z.land value 0x7F in
      let value := Z.shiftr value 7 in
      if value =? 0 then [b] else Z.lor b 0x80 :: vint_digits fuel' value
  end.

Definition vint_fuel (value : Z) : nat := S (Z.to_nat (Z.log2 value)).

(** The bytes [push_vint] appends. *)
Definition vint (value : Z) : list Z := vint_digits (vint_fuel value) value.

Definition push_vint (vect : list Z) (value : Z) : list Z := vect ++ vint value.

(** [for (i = 0; i < width; ++i)]: [left] iterations remain. *)
Fixpoint push_vint_fixed_loop (left : nat) (vect : list Z) (value : Z) : list Z * Z :=
  match left with
  | O => (vect, value)
  | S left' =>
      let b := Z.land value 0x7F in
      let value := Z.shiftr value 7 in
      let b := match left' with O => b | S _ => Z.lor b 0x80 end in
      push_vint_fixed_loop left' (vect ++ [b]) value
  end.

Definition push_vint_fixed (vect : list Z) (value : Z) (width : nat) : list Z * bool :=
  let '(vect, value) := push_vint_fixed_loop width vect value in
  (vect, value =? 0).

(** The decoding loop over the bytes at [data]; [left] is the number of
    iterations [i < size && i < MAX_VINT_SIZE] still allows.  The result is
    ([return value], [value], [bytes_read]). *)
Fixpoint read_vint_loop (left : nat) (data : list Z) (shift value bytes_read : Z)
  : res (bool * Z * Z) :=
  match left with
  | O => Ok (false, value, bytes_read)
  | S left' =>
      match data with
      | [] => Fault
      | b :: data' =>
          let bytes_read := bytes_read + 1 in
          if (shift =? 63) && negb (Z.land b 0x7E =? 0) then Ok (false, value, bytes_read)
          else
            let value :=
              if shift =? 63 then Z.lor value (Z.shiftl (Z.land b 0x01) 63)
              else Z.lor value (u64 (Z.shiftl (Z.land b 0x7F) shift)) in
            let shift := shift + 7 in
            if Z.land b 0x80 =? 0 then Ok (true, value, bytes_read)
            else read_vint_loop left' data' shift value bytes_read
      end
  end.

(** [read_vint(m + off, size, value, bytes_read)]. *)
Definition read_vint (m : list Z) (off size : Z) : res (bool * Z * Z) :=
  read_vint_loop (Z.to_nat (Z.min size MAX_VINT_SIZE)) (view m off) 0 0 0.

(** ** The encoding, as arithmetic *)

(** The number a run of base-128 digits stands for. *)
Fixpoint vint_val (l : list Z) : Z :=
  match l with [] => 0 | b :: l' => b mod 128 + 128 * vint_val l' end.

(** A complete encoding: continuation bytes, then a final byte. *)
Inductive is_vint : list Z -> Prop :=
| is_vint_last b : 0 <= b < 128 -> is_vint [b]
| is_vint_more b l : 128 <= b < 256 -> is_vint l -> is_vint (b :: l).

#[export] Hint Constructors is_vint : orar.

Lemma land_7f z : Z.land z 0x7F = z mod 128.
Proof. exact (Z.land_ones z 7 ltac:(lia)). Qed.

Lemma shiftr_7 z : Z.shiftr z 7 = z / 128.
Proof. exact (Z.shiftr_div_pow2 z 7 ltac:(lia)). Qed.

Lemma lor_80 z : Z.lor (z mod 128) 0x80 = z mod 128 + 128.
Proof. exact (lor_shiftl_add 7 (z mod 128) 1 ltac:(lia) (Z.mod_pos_bound z 128 ltac:(lia))). Qed.

Lemma land_80 b : is_byte b -> (Z.land b 0x80 =? 0) = (b <? 128).
Proof.
  intros H. apply eqb_prop.
  exact (byte_forall (fun b => eqb (Z.land b 0x80 =? 0) (b <? 128)) ltac:(vm_compute; done) b H).
Qed.

Lemma land_7e b : is_byte b -> (Z.land b 0x7E =? 0) = (b mod 128 <? 2).
Proof.
  intros H. apply eqb_prop.
  exact (byte_forall (fun b => eqb (Z.land b 0x7E =? 0) (b mod 128 <? 2))
           ltac:(vm_compute; done) b H).
Qed.

Lemma land_01 b : Z.land b 0x01 = b mod 2.
Proof. exact (Z.land_ones b 1 ltac:(lia)). Qed.

(** The fuel is enough: [vint] satisfies the loop's own equation. *)
Lemma vint_digits_fuel f g v :
  0 <= v -> (Z.to_nat (Z.log2 v) < f)%nat -> (Z.to_nat (Z.log2 v) < g)%nat ->
  vint_digits f v = vint_digits g v.
Proof.
  revert g v. induction f as [|f IH]; intros g v Hv Hf Hg; [lia|].
  destruct g as [|g]; [lia|]. cbn [vint_digits]. rewrite shiftr_7.
  destruct (Z.eqb_spec (v / 128) 0) as [|Hne]; [done|]. f_equal.
  assert (H128 : 128 <= v) by (destruct (Z.le_gt_cases 128 v); [done|rewrite Z.div_small in Hne; lia]).
  assert (L : Z.log2 (v / 128) = Z.log2 v - 7).
  { rewrite <- shiftr_7. rewrite Z.log2_shiftr by lia.
    assert (7 <= Z.log2 v) by (apply Z.log2_le_pow2; lia). lia. }
  assert (7 <= Z.log2 v) by (apply Z.log2_le_pow2; lia).
  apply IH; [dlia|rewrite L; lia..].
Qed.

Lemma vint_eq v :
  0 <= v -> vint v = if v <? 128 then [v] else (v mod 128 + 128) :: vint (v / 128).
Proof.
  intros Hv. unfold vint, vint_fuel at 1. cbn [vint_digits].
  rewrite shiftr_7, land_7f, lor_80. destruct (Z.ltb_spec v 128).
  - rewrite Z.div_small, Z.mod_small by lia. done.
  - rewrite (proj2 (Z.eqb_neq _ _)) by dlia. f_equal.
    assert (7 <= Z.log2 v) by (apply Z.log2_le_pow2; lia).
    assert (Z.log2 (v / 128) = Z.log2 v - 7).
    { rewrite <- shiftr_7, Z.log2_shiftr by lia. lia. }
    apply vint_digits_fuel; [dlia|lia|unfold vint_fuel; lia].
Qed.

(** Induction on the base-128 digits of a number. *)
Lemma digits_ind (P : Z -> Prop) :
  (forall v, 0 <= v < 128 -> P v) ->
  (forall v, 128 <= v -> P (v / 128) -> P v) -> forall v, 0 <= v -> P v.
Proof.
  intros H1 H2. apply (Zlt_0_ind P). intros v IH Hv.
  destruct (Z.le_gt_cases 128 v); [|by apply H1].
  apply H2; [done|]. apply IH. dlia.
Qed.

Lemma vint_is_vint v : 0 <= v -> is_vint (vint v).
Proof.
  revert v. apply digits_ind; intros v Hv.
  - rewrite vint_eq, (proj2 (Z.ltb_lt _ _)) by lia. auto with orar.
  - intros IH. rewrite vint_eq, (proj2 (Z.ltb_ge _ _)) by lia.
    constructor; [dlia|done].
Qed.

Lemma vint_val_vint v : 0 <= v -> vint_val (vint v) = v.
Proof.
  revert v. apply digits_ind; intros v Hv.
  - rewrite vint_eq, (proj2 (Z.ltb_lt _ _)) by lia. cbn [vint_val]. dlia.
  - intros IH. rewrite vint_eq, (proj2 (Z.ltb_ge _ _)) by lia.
    cbn [vint_val]. rewrite IH. dlia.
Qed.

Lemma is_vint_bytes l : is_vint l -> bytes l.
Proof. induction 1; constructor; unfold is_byte; try lia; auto. Qed.

Lemma is_vint_nonempty l : is_vint l -> 1 <= zlen l.
Proof. destruct 1; zlen_lia. Qed.

Lemma is_vint_val_range l : is_vint l -> 0 <= vint_val l < 128 ^ zlen l.
Proof.
  induction 1 as [b Hb|b l Hb Hl IH]; cbn [vint_val].
  - change (zlen [b]) with 1. change (128 ^ 1) with 128. dlia.
  - pose proof (zlen_nonneg l). rewrite zlen_cons, Z.pow_add_r by lia.
    change (128 ^ 1) with 128. pose proof (Z.mod_pos_bound b 128). lia.
Qed.

Lemma vint_length v k : 0 <= k -> 0 <= v < 128 ^ k -> zlen (vint v) <= Z.max 1 k.
Proof.
  intros Hk [Hv0 Hv]. revert v Hv0 k Hk Hv.
  apply (digits_ind (fun v => forall k, 0 <= k -> v < 128 ^ k -> zlen (vint v) <= Z.max 1 k)).
  - intros v Hv k Hk Hlt. rewrite vint_eq, (proj2 (Z.ltb_lt _ _)) by lia. zlen_lia.
  - intros v Hv IH k Hk Hlt. rewrite vint_eq, (proj2 (Z.ltb_ge _ _)) by lia.
    assert (1 < k).
    { destruct (Z.le_gt_cases k 1); [|done].
      assert (128 ^ k <= 128 ^ 1) by (apply Z.pow_le_mono_r; lia). lia. }
    rewrite zlen_cons. specialize (IH (k - 1) ltac:(lia)).
    assert (E : 128 ^ k = 128 * 128 ^ (k - 1)).
    { replace k with (1 + (k - 1)) at 1 by lia. rewrite Z.pow_add_r by lia. lia. }
    rewrite E in Hlt. specialize (IH ltac:(apply Z.div_lt_upper_bound; lia)). lia.
Qed.

Lemma vint_length_u64 v : 0 <= v < 2 ^ 64 -> 1 <= zlen (vint v) <= 10.
Proof.
  intros Hv. split; [apply is_vint_nonempty, vint_is_vint; lia|].
  apply (vint_length v 10); lia.
Qed.

Lemma vint_bytes v : 0 <= v -> bytes (vint v).
Proof. intros H. by apply is_vint_bytes, vint_is_vint. Qed.

#[export] Hint Resolve vint_bytes vint_is_vint : orar.

(** ** The fixed-width form *)

(** Little-endian base-128 digits with the continuation bit on all but the
    last. *)
Fixpoint vint_fixed (width : nat) (value : Z) : list Z :=
  match width with
  | O => []
  | S O => [value mod 128]
  | S width' => (value mod 128 + 128) :: vint_fixed width' (value / 128)
  end.

Lemma push_vint_fixed_loop_eq n vect v :
  push_vint_fixed_loop n vect v = (vect ++ vint_fixed n v, v / 128 ^ Z.of_nat n).
Proof.
  revert vect v. induction n as [|n IH]; intros vect v.
  - cbn. by rewrite app_nil_r, Z.div_1_r.
  - cbn [push_vint_fixed_loop]. rewrite IH, land_7f, lor_80, shiftr_7, <- app_assoc.
    rewrite Z.div_div by lia. rewrite Nat2Z.inj_succ, Z.pow_succ_r by lia.
    destruct n; done.
Qed.

Lemma push_vint_fixed_eq vect v n :
  0 <= v -> push_vint_fixed vect v n = (vect ++ vint_fixed n v, v <? 128 ^ Z.of_nat n).
Proof.
  intros Hv. unfold push_vint_fixed. rewrite push_vint_fixed_loop_eq. f_equal.
  assert (0 < 128 ^ Z.of_nat n) by (apply Z.pow_pos_nonneg; lia).
  destruct (Z.ltb_spec v (128 ^ Z.of_nat n)).
  - rewrite Z.div_small by lia. done.
  - apply Z.eqb_neq. assert (1 <= v / 128 ^ Z.of_nat n) by (apply Z.div_le_lower_bound; lia). lia.
Qed.

Lemma vint_fixed_is_vint n v : (0 < n)%nat -> is_vint (vint_fixed n v).
Proof.
  revert v. induction n as [|[|n] IH]; intros v Hn; [lia|constructor; apply Z.mod_pos_bound; lia|].
  change (vint_fixed (S (S n)) v) with ((v mod 128 + 128) :: vint_fixed (S n) (v / 128)).
  pose proof (Z.mod_pos_bound v 128). constructor; [lia|apply IH; lia].
Qed.

Lemma zlen_vint_fixed n v : zlen (vint_fixed n v) = Z.of_nat n.
Proof.
  revert v. induction n as [|[|n] IH]; intros v; [done|done|].
  change (vint_fixed (S (S n)) v) with ((v mod 128 + 128) :: vint_fixed (S n) (v / 128)).
  rewrite zlen_cons, IH. lia.
Qed.

Lemma vint_val_fixed n v : vint_val (vint_fixed n v) = v mod 128 ^ Z.of_nat n.
Proof.
  revert v. induction n as [|[|n] IH]; intros v.
  - cbn. by rewrite Z.mod_1_r.
  - cbn [vint_fixed vint_val]. change (128 ^ Z.of_nat 1) with 128. dlia.
  - change (vint_fixed (S (S n)) v) with ((v mod 128 + 128) :: vint_fixed (S n) (v / 128)).
    cbn [vint_val]. rewrite IH, (Nat2Z.inj_succ (S n)), Z.pow_succ_r by lia.
    rewrite Z.rem_mul_r by lia. pose proof (Z.mod_pos_bound v 128). dlia.
Qed.

#[export] Hint Rewrite zlen_vint_fixed : zlen.

(** ** The decoder *)

(** One iteration, with the bit operations as arithmetic.  [value < 2^shift]
    is the loop invariant. *)
Lemma read_vint_loop_cons left b data k value nread :
  is_byte b -> 0 <= k < 10 -> 0 <= value < 128 ^ k ->
  read_vint_loop (S left) (b :: data) (7 * k) value nread =
  let value' := value + (b mod 128) * 128 ^ k in
  if 2 ^ 64 <=? value' then Ok (false, value, nread + 1)
  else if b <? 128 then Ok (true, value', nread + 1)
  else read_vint_loop left data (7 * (k + 1)) value' (nread + 1).
Proof.
  intros Hb Hk Hv. cbn [read_vint_loop]. rewrite land_7e, land_80 by done.
  replace (7 * k + 7) with (7 * (k + 1)) by lia.
  assert (E128 : 128 ^ k = 2 ^ (7 * k)) by (rewrite Z.pow_mul_r by lia; done).
  rewrite E128 in Hv |- *. pose proof (Z.mod_pos_bound b 128 ltac:(lia)) as Hm.
  destruct (Z.eqb_spec (7 * k) 63) as [E63|Hne].
  - rewrite E63 in Hv |- *. cbn [andb]. cbv zeta. unfold is_byte in Hb.
    destruct (Z.ltb_spec (b mod 128) 2) as [Hs|Hs]; cbn [negb].
    + rewrite land_01, (lor_shiftl_add 63) by lia.
      replace (b mod 2) with (b mod 128) by dlia.
      destruct (Z.leb_spec (2 ^ 64) (value + b mod 128 * 2 ^ 63)); [lia|done].
    + rewrite (proj2 (Z.leb_le _ _)) by lia. done.
  - cbn [andb]. cbv zeta. rewrite land_7f.
    assert (P : 0 < 2 ^ (7 * k)) by lia.
    assert (P2 : 2 ^ (7 * k) <= 2 ^ 56) by (apply Z.pow_le_mono_r; lia).
    rewrite wrap_small by (rewrite Z.shiftl_mul_pow2 by lia; nia).
    rewrite lor_shiftl_add by lia.
    destruct (Z.leb_spec (2 ^ 64) (value + b mod 128 * 2 ^ (7 * k))); [nia|done].
Qed.

Lemma read_vint_loop_enc l k value nread left rest :
  is_vint l -> 0 <= k -> k + zlen l <= 10 -> zlen l <= Z.of_nat left ->
  0 <= value < 128 ^ k -> value + vint_val l * 128 ^ k < 2 ^ 64 ->
  read_vint_loop left (l ++ rest) (7 * k) value nread =
  Ok (true, value + vint_val l * 128 ^ k, nread + zlen l).
Proof.
  intros Hl. revert k value nread left. induction Hl as [b Hb|b l Hb Hl IH];
    intros k value nread left Hk Hlen Hleft Hv Hsum.
  - rewrite zlen_cons, zlen_nil in *. destruct left as [|left]; [lia|]. cbn [app vint_val] in *.
    rewrite read_vint_loop_cons by (unfold is_byte; lia). cbv zeta.
    rewrite Z.mul_0_r, Z.add_0_r in *.
    rewrite (proj2 (Z.leb_gt _ _)), (proj2 (Z.ltb_lt _ _)) by lia. done.
  - rewrite zlen_cons in *. pose proof (is_vint_nonempty l Hl).
    destruct left as [|left]; [lia|]. cbn [app vint_val] in *.
    rewrite read_vint_loop_cons by (unfold is_byte; lia). cbv zeta.
    pose proof (is_vint_val_range l Hl) as [R1 R2].
    assert (P : 0 < 128 ^ k) by lia. pose proof (Z.mod_pos_bound b 128 ltac:(lia)).
    rewrite (proj2 (Z.leb_gt _ _)), (proj2 (Z.ltb_ge _ _)) by nia.
    assert (E : 128 ^ (k + 1) = 128 * 128 ^ k) by (rewrite Z.pow_add_r by lia; lia).
    rewrite IH; [|lia|lia|lia|rewrite E; nia|rewrite E; nia].
    rewrite E. do 2 f_equal; [f_equal; ring|lia].
Qed.

(** A complete encoding of a 64-bit value decodes, whatever its width. *)
Lemma read_vint_enc m off size l rest :
  is_vint l -> vint_val l < 2 ^ 64 -> zlen l <= 10 -> zlen l <= size ->
  view m off = l ++ rest -> read_vint m off size = Ok (true, vint_val l, zlen l).
Proof.
  intros Hl Hv H10 Hs Hview. unfold read_vint, MAX_VINT_SIZE. rewrite Hview.
  pose proof (is_vint_nonempty l Hl). pose proof (is_vint_val_range l Hl).
  rewrite (read_vint_loop_enc l 0 0 0) by (done || lia). do 3 f_equal. lia.
Qed.

Lemma read_push_vint m off size v rest :
  0 <= v < 2 ^ 64 -> zlen (vint v) <= size -> view m off = vint v ++ rest ->
  read_vint m off size = Ok (true, v, zlen (vint v)).
Proof.
  intros Hv Hs Hview. pose proof (vint_length_u64 v Hv).
  rewrite (read_vint_enc m off size (vint v) rest);
    rewrite ?vint_val_vint by lia; try done; try lia.
  apply vint_is_vint. lia.
Qed.

Lemma read_push_vint_fixed m off size v n rest :
  0 <= v < 2 ^ 64 -> (0 < n <= 10)%nat -> v < 128 ^ Z.of_nat n -> Z.of_nat n <= size ->
  view m off = vint_fixed n v ++ rest ->
  read_vint m off size = Ok (true, v, Z.of_nat n).
Proof.
  intros Hv Hn Hfit Hs Hview.
  rewrite (read_vint_enc m off size (vint_fixed n v) rest);
    rewrite ?vint_val_fixed, ?zlen_vint_fixed, ?Z.mod_small by lia;
    try lia; auto using vint_fixed_is_vint with lia.
Qed.

(** What the loop does on arbitrary bytes: it stays inside them, reports what
    it consumed, succeeds with the value of the encoding at the front, and
    fails only when no complete encoding of a 64-bit value is there. *)
Lemma read_vint_loop_spec left data k value nread :
  bytes data -> (left <= length data)%nat -> 0 <= k -> k + Z.of_nat left <= 10 ->
  0 <= value < 128 ^ k -> value < 2 ^ 64 ->
  exists ok v n,
    read_vint_loop left data (7 * k) value nread = Ok (ok, v, nread + n) /\
    0 <= v < 2 ^ 64 /\ 0 <= n <= Z.of_nat left /\ ((0 < left)%nat -> 1 <= n) /\
    (ok = true -> exists l rest,
       data = l ++ rest /\ is_vint l /\ zlen l = n /\ v = value + vint_val l * 128 ^ k) /\
    (ok = false -> forall l rest,
       data = l ++ rest -> is_vint l -> zlen l <= Z.of_nat left ->
       2 ^ 64 <= value + vint_val l * 128 ^ k).
Proof.
  intros Hdata. revert data Hdata k value nread.
  induction left as [|left IH]; intros data Hdata k value nread Hlen Hk Hk10 Hv Hv64.
  { exists false, value, 0. split_and!; try done; try lia.
    - cbn. do 2 f_equal. lia.
    - intros _ l rest -> Hl Hz. pose proof (is_vint_nonempty l Hl). lia. }
  destruct data as [|b data]; [cbn in Hlen; lia|].
  apply Forall_cons_inv in Hdata as [Hb Hdata].
  rewrite read_vint_loop_cons by (done || lia). cbv zeta.
  assert (P : 0 < 128 ^ k) by lia. pose proof (Z.mod_pos_bound b 128 ltac:(lia)) as Hm.
  pose proof Hb as Hbb. unfold is_byte in Hbb.
  destruct (Z.leb_spec (2 ^ 64) (value + b mod 128 * 128 ^ k)) as [Hov|Hov].
  { exists false, value, 1. split_and!; try done; try lia.
    intros _ l rest E Hl Hz. destruct Hl as [b' Hb'|b' l Hb' Hl]; injection E as -> ->;
      cbn [vint_val].
    - lia.
    - pose proof (is_vint_val_range l Hl). nia. }
  destruct (Z.ltb_spec b 128) as [Hlast|Hmore].
  { exists true, (value + b mod 128 * 128 ^ k), 1. split_and!; try done; try lia; try nia.
    - intros _. exists [b], data. split; [done|]. split; [constructor; lia|].
      split; [done|]. cbn [vint_val]. lia. }
  assert (E : 128 ^ (k + 1) = 128 * 128 ^ k) by (rewrite Z.pow_add_r by lia; lia).
  destruct (IH data Hdata (k + 1) (value + b mod 128 * 128 ^ k) (nread + 1))
    as (ok & v & n & Heq & Hv1 & Hn & Hn1 & Hok & Hfail);
    [cbn in Hlen; lia|lia|lia|rewrite E; nia|lia|].
  exists ok, v, (n + 1). rewrite Heq. split_and!; try lia.
  - do 2 f_equal. lia.
  - intros Ht. destruct (Hok Ht) as (l & rest & -> & Hl & Hz & ->).
    exists (b :: l), rest. split; [done|]. split; [constructor; [lia|done]|].
    split; [rewrite zlen_cons; lia|]. cbn [vint_val]. rewrite E. ring.
  - intros Hf l rest Ed Hl Hz. destruct Hl as [b' Hb'|b' l Hb' Hl]; injection Ed as -> ->; [lia|].
    specialize (Hfail Hf l rest eq_refl Hl ltac:(rewrite zlen_cons in Hz; lia)).
    cbn [vint_val]. rewrite E in Hfail. lia.
Qed.

Lemma read_vint_spec m off size :
  bytes m -> 0 <= off -> 0 <= size -> off + size <= zlen m ->
  exists ok v n,
    read_vint m off size = Ok (ok, v, n) /\
    0 <= v < 2 ^ 64 /\ 0 <= n <= Z.min size 10 /\ (0 < size -> 1 <= n) /\
    (ok = true -> exists l rest, view m off = l ++ rest /\ is_vint l /\ zlen l = n /\ v = vint_val l) /\
    (ok = false -> forall l rest, view m off = l ++ rest -> is_vint l ->
       zlen l <= Z.min size 10 -> 2 ^ 64 <= vint_val l).
Proof.
  intros Hm Ho Hs Hlen. unfold read_vint, MAX_VINT_SIZE.
  destruct (read_vint_loop_spec (Z.to_nat (Z.min size 10)) (view m off) 0 0 0)
    as (ok & v & n & Heq & Hv & Hn & Hn1 & Hok & Hfail); try lia.
  - auto with orar.
  - pose proof (zlen_view m off ltac:(lia)) as L. unfold zlen in L, Hlen. lia.
  - exists ok, v, n. replace (7 * 0) with 0 in Heq by lia. rewrite Heq.
    split_and!; try lia; try done.
    + intros Ht. destruct (Hok Ht) as (l & rest & ? & ? & ? & ->). exists l, rest.
      split_and!; try done. lia.
    + intros Hf l rest E Hl Hz. specialize (Hfail Hf l rest E Hl ltac:(lia)). lia.
Qed.

Lemma wp_read_vint m off size (Q : bool * Z * Z -> Prop) :
  bytes m -> 0 <= off -> 0 <= size -> off + size <= zlen m ->
  (forall ok v n, 0 <= v < 2 ^ 64 -> 0 <= n <= size -> (ok = true -> 1 <= n) -> Q (ok, v, n)) ->
  wp (read_vint m off size) Q.
Proof.
  intros Hm Ho Hs Hlen HQ.
  destruct (read_vint_spec m off size Hm Ho Hs Hlen) as (ok & v & n & -> & Hv & Hn & Hn1 & Hok & _).
  apply HQ; [done|lia|]. intros Ht. destruct (Hok Ht) as (l & ? & _ & Hl & <- & _).
  by apply is_vint_nonempty.
Qed.

(** ** Properties *)

(** C29. [read_vint] on any bytes: it reads only inside [data, data + size),
    reports at most [min(size, 10)] bytes consumed (at least one when there is
    one), and returns [true] with [value] exactly when those bytes are a
    complete, possibly padded, encoding of a value below 2^64. *)
Theorem read_vint_exact (m : list Z) (off size : Z) :
  bytes m -> 0 <= off -> 0 <= size -> off + size <= zlen m ->
  exists ok v n,
    read_vint m off size = Ok (ok, v, n) /\
    0 <= n <= Z.min size 10 /\ (0 < size -> 1 <= n) /\
    (ok = true <->
     exists l, is_vint l /\ zlen l <= Z.min size 10 /\ vint_val l < 2 ^ 64 /\
       exists rest, view m off = l ++ rest) /\
    (ok = true -> is_vint (take (Z.to_nat n) (view m off)) /\
       v = vint_val (take (Z.to_nat n) (view m off))).
Proof.
  intros Hm Ho Hs Hlen.
  destruct (read_vint_spec m off size Hm Ho Hs Hlen)
    as (ok & v & n & E & Hv & Hn & Hn1 & Hok & Hfail).
  exists ok, v, n. split; [done|]. split; [done|]. split; [done|]. split.
  - split.
    + intros Ht. destruct (Hok Ht) as (l & rest & Ev & Hl & <- & ->).
      exists l. split_and!; try done; [lia|lia|by exists rest].
    + intros (l & Hl & Hz & Hv64 & rest & Ev). destruct ok; [done|].
      specialize (Hfail eq_refl l rest Ev Hl Hz). lia.
  - intros Ht. destruct (Hok Ht) as (l & rest & Ev & Hl & <- & ->).
    rewrite Ev. unfold zlen. rewrite Nat2Z.id, take_app_length. done.
Qed.

(** The padded locator offset [D1 80 00] = 81 is accepted. *)
Lemma read_vint_exact_witness :
  read_vint [0xD1; 0x80; 0x00; 0x55] 0 4 = Ok (true, 81, 3) /\
  exists ok v n, read_vint [0xD1; 0x80; 0x00; 0x55] 0 4 = Ok (ok, v, n) /\ 0 <= n <= Z.min 4 10.
Proof.
  split; [vm_compute; reflexivity|].
  destruct (read_vint_exact [0xD1; 0x80; 0x00; 0x55] 0 4) as (ok & v & n & E & Hn & _).
  - repeat constructor; done.
  - lia.
  - lia.
  - vm_compute. discriminate.
  - exists ok, v, n. split; [exact E|exact Hn].
Defined.

(** Round trip and minimality of [push_vint]: the bytes it appends for a
    64-bit value are between 1 and 10, no encoding of the value is shorter, and
    [read_vint] at that place gives the value back and consumes exactly them,
    whatever follows; the padded form written by [push_vint_fixed] reads back
    the same when the value fits the width. *)
Theorem push_vint_roundtrip (vect rest : list Z) (v : Z) (width : nat) :
  0 <= v < 2 ^ 64 -> (0 < width <= 10)%nat -> v < 128 ^ Z.of_nat width ->
  (let m := push_vint vect v ++ rest in
   let n := zlen (push_vint vect v) - zlen vect in
   1 <= n <= 10 /\ read_vint m (zlen vect) (zlen m - zlen vect) = Ok (true, v, n) /\
   (forall l, is_vint l -> vint_val l = v -> n <= zlen l)) /\
  (let '(vect', fits) := push_vint_fixed vect v width in
   fits = true /\ zlen vect' = zlen vect + Z.of_nat width /\
   read_vint (vect' ++ rest) (zlen vect) (zlen (vect' ++ rest) - zlen vect)
     = Ok (true, v, Z.of_nat width)).
Proof.
  intros Hv Hw Hfit. split.
  - cbv zeta. unfold push_vint. rewrite zlen_app.
    replace (zlen vect + zlen (vint v) - zlen vect) with (zlen (vint v)) by lia.
    split; [by apply vint_length_u64|]. rewrite <- app_assoc. split.
    + apply (read_push_vint _ _ _ v rest Hv); [zlen_lia|by apply view_app].
    + intros l Hl Hval. pose proof (is_vint_val_range l Hl). pose proof (is_vint_nonempty l Hl).
      pose proof (vint_length v (zlen l) ltac:(lia) ltac:(lia)). lia.
  - rewrite push_vint_fixed_eq by lia. rewrite (proj2 (Z.ltb_lt _ _)) by done.
    split; [done|]. split; [zlen_lia|]. rewrite <- app_assoc.
    apply (read_push_vint_fixed _ _ _ v width rest); try lia; [|by apply view_app].
    zlen_lia.
Qed.

Lemma push_vint_roundtrip_witness :
  push_vint [7] 300 = [7; 0xAC; 0x02] /\ push_vint_fixed [7] 300 4 = ([7; 0xAC; 0x82; 0x80; 0x00], true) /\
  read_vint (push_vint [7] 300 ++ [9]) 1 3 = Ok (true, 300, 2).
Proof.
  split; [vm_compute; reflexivity|]. split; [vm_compute; reflexivity|].
  destruct (push_vint_roundtrip [7] [9] 300 4) as [(_ & H & _) _]; [lia|lia|vm_compute; reflexivity|].
  exact H.
Defined.
