(* ===== verification/Crc.v ===== *)
(** Checksums: [src/crypto/crc32.cpp] and [src/crypto/crc64.cpp].

    The table builders, the portable alignment-aware slicing-by-8 loops and the
    streaming classes, against the bit-serial definition of a reflected CRC.
    The PCLMUL and ARM kernels of [crypto/arch] are compiler intrinsics and are
    not modelled: [crc32_step] is the path taken without them. *)

From stdpp Require Import base tactics list numbers.
From Stdlib Require Import ZArith Lia.
From S2P Require Import Prelude Bytes.

Local Open Scope Z_scope.

(** ** The shape of the update loops *)

(** A byte at a time while the address is not a multiple of 8. *)
Fixpoint lead_loop (f : Z -> Z -> Z) (data : list Z) (addr crc : Z) : list Z * Z :=
  match data with
  | [] => ([], crc)
  | b :: data' =>
      if Z.land addr 7 =? 0 then (data, crc) else lead_loop f data' (addr + 1) (f crc b)
  end.

(** Eight bytes at a time while there are eight. *)
Fixpoint slices8_loop (f : Z -> Z -> Z -> Z -> Z -> Z -> Z -> Z -> Z -> Z)
    (data : list Z) (crc : Z) : list Z * Z :=
  match data with
  | b0 :: b1 :: b2 :: b3 :: b4 :: b5 :: b6 :: b7 :: data' =>
      slices8_loop f data' (f crc b0 b1 b2 b3 b4 b5 b6 b7)
  | _ => (data, crc)
  end.

(** ** CRC-32 *)

Definition CRC32_POLY : Z := 0xEDB88320.

(** The inner loop of the table constructor: [n] bit steps. *)
Fixpoint crc32_bits (n : nat) (crc : Z) : Z :=
  match n with
  | O => crc
  | S n' =>
      crc32_bits n'
        (Z.lxor (Z.shiftr crc 1) (if negb (Z.land crc 1 =? 0) then CRC32_POLY else 0))
  end.

Definition crc32_table0 : list Z := map (crc32_bits 8) byte_range.

(** [table[j][i] = (table[j-1][i] >> 8) ^ table[0][table[j-1][i] & 0xFF]]. *)
Definition crc32_next_row (row : list Z) : list Z :=
  map (fun t => Z.lxor (Z.shiftr t 8) (nth (Z.to_nat (Z.land t 0xFF)) crc32_table0 0)) row.

Fixpoint crc32_rows (n : nat) (row : list Z) : list (list Z) :=
  match n with O => [] | S n' => row :: crc32_rows n' (crc32_next_row row) end.

Definition CRC_TABLE : list (list Z) := crc32_rows 8 crc32_table0.

Definition crc32_table (j : nat) (i : Z) : Z := nth (Z.to_nat i) (nth j CRC_TABLE []) 0.

(** [crc = (crc >> 8) ^ table[0][(crc ^ byte) & 0xFF]]. *)
Definition crc32_byte (crc b : Z) : Z :=
  Z.lxor (Z.shiftr crc 8) (crc32_table 0 (Z.land (Z.lxor crc b) 0xFF)).

(** [while (size > 0 && (p & 7) != 0)]: leading bytes, until the address is a
    multiple of 8. *)
Definition crc32_lead : list Z -> Z -> Z -> list Z * Z := lead_loop crc32_byte.

Definition crc32_slice8 (crc b0 b1 b2 b3 b4 b5 b6 b7 : Z) : Z :=
  let low := Z.lxor (le32_of b0 b1 b2 b3) crc in
  let high := le32_of b4 b5 b6 b7 in
  Z.lxor (Z.lxor (Z.lxor (Z.lxor (Z.lxor (Z.lxor (Z.lxor
    (crc32_table 7 (Z.land low 0xFF))
    (crc32_table 6 (Z.land (Z.shiftr low 8) 0xFF)))
    (crc32_table 5 (Z.land (Z.shiftr low 16) 0xFF)))
    (crc32_table 4 (Z.land (Z.shiftr low 24) 0xFF)))
    (crc32_table 3 (Z.land high 0xFF)))
    (crc32_table 2 (Z.land (Z.shiftr high 8) 0xFF)))
    (crc32_table 1 (Z.land (Z.shiftr high 16) 0xFF)))
    (crc32_table 0 (Z.land (Z.shiftr high 24) 0xFF)).

(** [while (size >= 8)]. *)
Definition crc32_slices : list Z -> Z -> list Z * Z := slices8_loop crc32_slice8.

Definition crc32_trail (data : list Z) (crc : Z) : Z := fold_left crc32_byte data crc.

(** [addr] is the address of [data]; the result must not depend on it. *)
Definition crc32_step (addr crc : Z) (data : list Z) : Z :=
  let '(data, crc) := crc32_lead data addr crc in
  let '(data, crc) := crc32_slices data crc in
  crc32_trail data crc.

(** [~x] on [uint32]. *)
Definition not32 (x : Z) : Z := u32 (Z.lnot x).

Definition crc32 (addr : Z) (data : list Z) (init_crc : Z) : Z :=
  not32 (crc32_step addr (not32 init_crc) data).

(** [class Crc32]: the state is [value_]. *)
Definition Crc32_init : Z := 0.
Definition Crc32_update (addr : Z) (data : list Z) (value_ : Z) : Z := crc32 addr data value_.
Definition Crc32_get (value_ : Z) : Z := value_.

(** ** CRC-64 *)

Definition CRC64_POLY : Z := 0xC96C5795D7870F42.

Fixpoint crc64_bits (n : nat) (c : Z) : Z :=
  match n with
  | O => c
  | S n' =>
      crc64_bits n'
        (if negb (Z.land c 1 =? 0) then Z.lxor CRC64_POLY (Z.shiftr c 1) else Z.shiftr c 1)
  end.

Definition crc64_table0 : list Z := map (crc64_bits 8) byte_range.

Definition crc64_next_row (row : list Z) : list Z :=
  map (fun c => Z.lxor (Z.shiftr c 8) (nth (Z.to_nat (Z.land c 0xFF)) crc64_table0 0)) row.

Fixpoint crc64_rows (n : nat) (row : list Z) : list (list Z) :=
  match n with O => [] | S n' => row :: crc64_rows n' (crc64_next_row row) end.

Definition Crc64Tables : list (list Z) := crc64_rows 8 crc64_table0.

Definition crc64_table (k : nat) (i : Z) : Z := nth (Z.to_nat i) (nth k Crc64Tables []) 0.

Definition crc64_slice8 (c b0 b1 b2 b3 b4 b5 b6 b7 : Z) : Z :=
  let chunk := Z.lor (le32_of b0 b1 b2 b3) (Z.shiftl (le32_of b4 b5 b6 b7) 32) in
  let c := Z.lxor c chunk in
  Z.lxor (Z.lxor (Z.lxor (Z.lxor (Z.lxor (Z.lxor (Z.lxor
    (crc64_table 7 (Z.land c 0xFF))
    (crc64_table 6 (Z.land (Z.shiftr c 8) 0xFF)))
    (crc64_table 5 (Z.land (Z.shiftr c 16) 0xFF)))
    (crc64_table 4 (Z.land (Z.shiftr c 24) 0xFF)))
    (crc64_table 3 (Z.land (Z.shiftr c 32) 0xFF)))
    (crc64_table 2 (Z.land (Z.shiftr c 40) 0xFF)))
    (crc64_table 1 (Z.land (Z.shiftr c 48) 0xFF)))
    (crc64_table 0 (Z.land (Z.shiftr c 56) 0xFF)).

Definition crc64_byte (c b : Z) : Z :=
  Z.lxor (crc64_table 0 (Z.land (Z.lxor c b) 0xFF)) (Z.shiftr c 8).

Definition crc64_update_slice8 (c : Z) (data : list Z) : Z :=
  let '(data, c) := slices8_loop crc64_slice8 data c in
  fold_left crc64_byte data c.

Definition not64 (x : Z) : Z := u64 (Z.lnot x).

(** [class Crc64Xz] and [class RawCrc64]: the state is [crc_]. *)
Definition Crc64Xz_init : Z := not64 0.
Definition Crc64Xz_update (data : list Z) (crc_ : Z) : Z := crc64_update_slice8 crc_ data.
Definition Crc64Xz_get (crc_ : Z) : Z := Z.lxor crc_ (not64 0).
Definition Crc64Xz_compute (data : list Z) : Z := Crc64Xz_get (Crc64Xz_update data Crc64Xz_init).

Definition RawCrc64_init : Z := 0.
Definition RawCrc64_update (data : list Z) (crc_ : Z) : Z := crc64_update_slice8 crc_ data.
Definition RawCrc64_compute (data : list Z) : Z := RawCrc64_update data RawCrc64_init.

(** ** The reference: a reflected CRC, one bit at a time *)

Section Reflected.
Variable poly : Z.

Definition bit_step (c : Z) : Z := Z.lxor (Z.shiftr c 1) (if Z.odd c then poly else 0).

Fixpoint bit_steps (n : nat) (c : Z) : Z :=
  match n with O => c | S n' => bit_steps n' (bit_step c) end.

(** A byte enters at the low end of the register, then eight bit steps. *)
Definition crc_ref_byte (c b : Z) : Z := bit_steps 8 (Z.lxor c b).
Definition crc_ref (c : Z) (data : list Z) : Z := fold_left crc_ref_byte data c.

Lemma bit_step_lxor a b : bit_step (Z.lxor a b) = Z.lxor (bit_step a) (bit_step b).
Proof.
  unfold bit_step. rewrite Z.shiftr_lxor, <- !Z.bit0_odd, Z.lxor_spec.
  destruct (Z.testbit a 0), (Z.testbit b 0); cbn [xorb];
    rewrite ?Z.lxor_0_r; rewrite <- ?Z.lxor_assoc; try done.
  - rewrite (Z.lxor_comm (Z.lxor _ poly) (Z.shiftr b 1)), <- Z.lxor_assoc.
    rewrite (Z.lxor_comm (Z.shiftr b 1)). rewrite Z.lxor_assoc, Z.lxor_nilpotent.
    by rewrite Z.lxor_0_r.
  - rewrite !Z.lxor_assoc. by rewrite (Z.lxor_comm poly).
Qed.

Lemma bit_steps_lxor n a b : bit_steps n (Z.lxor a b) = Z.lxor (bit_steps n a) (bit_steps n b).
Proof. revert a b. induction n; intros a b; [done|]. cbn [bit_steps]. by rewrite bit_step_lxor. Qed.

Lemma bit_steps_add n k c : bit_steps (n + k) c = bit_steps k (bit_steps n c).
Proof. revert c. induction n; intros c; [done|]. cbn [Nat.add bit_steps]. auto. Qed.

Lemma bit_step_shiftl c : bit_step (Z.shiftl c 1) = c.
Proof.
  unfold bit_step. rewrite <- Z.bit0_odd, Z.shiftl_spec_low by lia.
  rewrite Z.lxor_0_r, Z.shiftr_shiftl_l by lia. done.
Qed.

Lemma bit_steps_shiftl n c : bit_steps n (Z.shiftl c (Z.of_nat n)) = c.
Proof.
  revert c. induction n as [|n IH]; intros c; [by rewrite Z.shiftl_0_r|].
  cbn [bit_steps]. replace (Z.of_nat (S n)) with (Z.of_nat n + 1) by lia.
  rewrite <- Z.shiftl_shiftl, bit_step_shiftl by lia. apply IH.
Qed.

Lemma bit_steps_0 n : bit_steps n 0 = 0.
Proof. induction n; [done|]. cbn. done. Qed.

(** A word is its low byte and the rest. *)
Lemma split_byte x : x = Z.lxor (Z.land x 0xFF) (Z.shiftl (Z.shiftr x 8) 8).
Proof.
  change 0xFF with (Z.ones 8). apply Z.bits_inj'. intros i Hi.
  rewrite Z.lxor_spec, Z.land_spec.
  destruct (Z.ltb_spec i 8).
  - rewrite Z.ones_spec_low, Z.shiftl_spec_low by lia. by rewrite andb_true_r, xorb_false_r.
  - rewrite Z.ones_spec_high, Z.shiftl_spec, Z.shiftr_spec by lia.
    rewrite andb_false_r, xorb_false_l. f_equal. lia.
Qed.

Lemma bit_steps_peel n x :
  bit_steps (8 + n) x = Z.lxor (bit_steps (8 + n) (Z.land x 0xFF)) (bit_steps n (Z.shiftr x 8)).
Proof.
  rewrite (split_byte x) at 1. rewrite bit_steps_lxor. f_equal.
  rewrite bit_steps_add. f_equal. apply (bit_steps_shiftl 8).
Qed.

Lemma bit_steps_8 x : bit_steps 8 x = Z.lxor (Z.shiftr x 8) (bit_steps 8 (Z.land x 0xFF)).
Proof. rewrite (bit_steps_peel 0 x) at 1. by rewrite Z.lxor_comm. Qed.

Lemma lxor_shiftl_byte b v : is_byte b -> Z.lxor b (Z.shiftl v 8) = b + 256 * v.
Proof.
  intros Hb. unfold is_byte in Hb. pose proof (land_shiftl_disjoint 8 b v ltac:(lia) ltac:(lia)) as D.
  rewrite <- Z.add_nocarry_lxor, Z.shiftl_mul_pow2 by (done || lia). lia.
Qed.

Lemma crc_ref_byte_eq c b : crc_ref_byte c b = bit_steps 8 (Z.lxor c b).
Proof. reflexivity. Qed.

Lemma crc_ref_cons c b l : crc_ref c (b :: l) = crc_ref (crc_ref_byte c b) l.
Proof. reflexivity. Qed.

(** Feeding bytes is xoring their little-endian value, then stepping. *)
Lemma crc_ref_le_val c l : bytes l -> crc_ref c l = bit_steps (8 * length l) (Z.lxor c (le_val l)).
Proof.
  intros Hl. revert c. induction Hl as [|b l Hb Hl IH]; intros c.
  - cbn. by rewrite Z.lxor_0_r.
  - rewrite crc_ref_cons, IH. cbn [length le_val].
    replace (8 * S (length l))%nat with (8 + 8 * length l)%nat by lia.
    rewrite bit_steps_add. apply (f_equal (bit_steps _)). unfold crc_ref_byte.
    rewrite <- (bit_steps_shiftl 8 (le_val l)) at 1.
    rewrite <- bit_steps_lxor, Z.lxor_assoc. apply (f_equal (fun z => bit_steps 8 (Z.lxor c z))).
    by apply lxor_shiftl_byte.
Qed.

Lemma crc_ref_app c l k : crc_ref c (l ++ k) = crc_ref (crc_ref c l) k.
Proof. apply fold_left_app. Qed.

(** *** Ranges and injectivity: the polynomial's top coefficient is set *)
Variable w : Z.
Hypothesis Hw : 0 < w.
Hypothesis Hpoly : 0 <= poly < 2 ^ w.

Lemma bit_step_range c : 0 <= c < 2 ^ w -> 0 <= bit_step c < 2 ^ w.
Proof.
  intros Hc. unfold bit_step. apply lxor_range; [lia| |].
  - apply shiftr_range; lia.
  - destruct (Z.odd c); lia.
Qed.

Lemma bit_steps_range n c : 0 <= c < 2 ^ w -> 0 <= bit_steps n c < 2 ^ w.
Proof. revert c. induction n; intros c Hc; [done|]. cbn [bit_steps]. by apply IHn, bit_step_range. Qed.

Lemma crc_ref_range c l : 8 <= w -> 0 <= c < 2 ^ w -> bytes l -> 0 <= crc_ref c l < 2 ^ w.
Proof.
  intros H8 Hc Hl. revert c Hc. induction Hl as [|b l Hb Hl IH]; intros c Hc; [done|].
  rewrite crc_ref_cons. apply IH. apply bit_steps_range, lxor_range; [lia|done|].
  unfold is_byte in Hb. assert (2 ^ 8 <= 2 ^ w) by (apply Z.pow_le_mono_r; lia). lia.
Qed.

Hypothesis Htop : Z.testbit poly (w - 1) = true.

Lemma bit_step_zero c : 0 <= c < 2 ^ w -> bit_step c = 0 -> c = 0.
Proof.
  intros Hc E. unfold bit_step in E. destruct (Z.odd c) eqn:Eo.
  - assert (T : Z.testbit (Z.lxor (Z.shiftr c 1) poly) (w - 1) = true).
    { rewrite Z.lxor_spec, Htop, Z.shiftr_spec by lia.
      rewrite (testbit_high w c) by lia. done. }
    rewrite E, Z.testbit_0_l in T. done.
  - rewrite Z.lxor_0_r in E. rewrite Z.shiftr_div_pow2 in E by lia.
    rewrite <- Z.negb_even in Eo. apply negb_false_iff in Eo.
    apply Z.even_spec in Eo as [k ->]. rewrite Z.mul_comm in E.
    change (2 ^ 1) with 2 in E. rewrite Z.div_mul in E; lia.
Qed.

Lemma bit_steps_inj n a b :
  0 <= a < 2 ^ w -> 0 <= b < 2 ^ w -> bit_steps n a = bit_steps n b -> a = b.
Proof.
  revert a b. induction n as [|n IH]; intros a b Ha Hb E; [done|]. cbn [bit_steps] in E.
  apply IH in E; [|by apply bit_step_range..].
  assert (D : bit_step (Z.lxor a b) = 0) by (by rewrite bit_step_lxor, E, Z.lxor_nilpotent).
  apply bit_step_zero in D; [|apply lxor_range; lia]. by apply Z.lxor_eq.
Qed.

Lemma crc_ref_inj l a b :
  8 <= w -> bytes l -> 0 <= a < 2 ^ w -> 0 <= b < 2 ^ w -> crc_ref a l = crc_ref b l -> a = b.
Proof.
  intros H8 Hl. revert a b. induction Hl as [|x l Hx Hl IH]; intros a b Ha Hb E; [done|].
  rewrite !crc_ref_cons in E.
  assert (Hx' : 0 <= x < 2 ^ w).
  { unfold is_byte in Hx. assert (2 ^ 8 <= 2 ^ w) by (apply Z.pow_le_mono_r; lia). lia. }
  rewrite !crc_ref_byte_eq in E.
  apply IH in E; [|apply bit_steps_range, lxor_range; lia..].
  apply bit_steps_inj in E; [|apply lxor_range; lia..].
  rewrite !(Z.lxor_comm _ x) in E. by apply lxor_cancel in E.
Qed.

(** A change confined to one register width of input always shows. *)
Lemma crc_ref_burst c p x y q :
  8 <= w -> 0 <= c < 2 ^ w -> bytes p -> bytes x -> bytes y -> bytes q ->
  length x = length y -> 8 * zlen x <= w -> x <> y ->
  crc_ref c (p ++ x ++ q) <> crc_ref c (p ++ y ++ q).
Proof.
  intros H8 Hc Hp Hx Hy Hq Hlen Hburst Hne E. apply Hne.
  rewrite !crc_ref_app in E. set (d := crc_ref c p) in E.
  assert (Hd : 0 <= d < 2 ^ w) by (by apply crc_ref_range).
  apply crc_ref_inj in E; [|done|done|apply crc_ref_range; done..].
  rewrite !crc_ref_le_val, Hlen in E by done.
  assert (R : forall z, bytes z -> zlen z = zlen x -> 0 <= le_val z < 2 ^ w).
  { intros z Hz Hzx. pose proof (le_val_range z Hz).
    assert (256 ^ zlen z <= 2 ^ w).
    { change 256 with (2 ^ 8). rewrite <- Z.pow_mul_r by zlen_lia.
      apply Z.pow_le_mono_r; lia. }
    lia. }
  assert (Hyx : zlen y = zlen x) by (unfold zlen; lia).
  apply bit_steps_inj in E; [|apply lxor_range; auto with lia..].
  apply lxor_cancel in E.
  rewrite <- (le_digits_val x Hx), <- (le_digits_val y Hy), E. by rewrite Hlen.
Qed.
End Reflected.

(** ** The tables hold iterated bit steps *)

Lemma byte_range_nth f i : is_byte i -> nth (Z.to_nat i) (map f byte_range) 0 = f i.
Proof.
  intros Hi. unfold is_byte in Hi. unfold byte_range.
  rewrite (nth_indep _ 0 (f 0)) by (rewrite !length_map, length_seq; lia).
  rewrite map_nth. f_equal. rewrite (nth_indep _ 0 (Z.of_nat 0)) by (rewrite length_map, length_seq; lia).
  rewrite map_nth, seq_nth by lia. lia.
Qed.

Lemma land_1_odd c : negb (Z.land c 1 =? 0) = Z.odd c.
Proof.
  rewrite (Z.land_ones c 1 ltac:(lia) : Z.land c 1 = c mod 2).
  rewrite Zmod_odd. by destruct (Z.odd c).
Qed.

Lemma crc32_bits_steps n c : crc32_bits n c = bit_steps CRC32_POLY n c.
Proof.
  revert c. induction n; intros c; [done|]. cbn [crc32_bits bit_steps].
  by rewrite IHn, land_1_odd.
Qed.

Lemma crc64_bits_steps n c : crc64_bits n c = bit_steps CRC64_POLY n c.
Proof.
  revert c. induction n; intros c; [done|]. cbn [crc64_bits bit_steps].
  rewrite IHn, land_1_odd. unfold bit_step. f_equal. destruct (Z.odd c).
  - by rewrite Z.lxor_comm.
  - by rewrite Z.lxor_0_r.
Qed.

(** One row from the previous one, for either polynomial. *)
Lemma next_row_steps poly t0 n :
  t0 = map (bit_steps poly 8) byte_range ->
  map (fun t => Z.lxor (Z.shiftr t 8) (nth (Z.to_nat (Z.land t 0xFF)) t0 0))
      (map (bit_steps poly n) byte_range) = map (bit_steps poly (n + 8)) byte_range.
Proof.
  intros ->. rewrite map_map. apply map_ext. intros i.
  rewrite byte_range_nth by auto with orar.
  by rewrite bit_steps_add, (bit_steps_8 poly (bit_steps poly n i)).
Qed.

Lemma crc32_table0_steps : crc32_table0 = map (bit_steps CRC32_POLY 8) byte_range.
Proof. apply map_ext. intros i. apply crc32_bits_steps. Qed.

Lemma crc64_table0_steps : crc64_table0 = map (bit_steps CRC64_POLY 8) byte_range.
Proof. apply map_ext. intros i. apply crc64_bits_steps. Qed.

Lemma crc32_rows_nth n k j :
  (j < n)%nat ->
  nth j (crc32_rows n (map (bit_steps CRC32_POLY k) byte_range)) [] =
  map (bit_steps CRC32_POLY (k + 8 * j)) byte_range.
Proof.
  revert k j. induction n as [|n IH]; intros k j Hj; [lia|]. cbn [crc32_rows].
  destruct j as [|j]; [cbn [nth]; by rewrite Nat.mul_0_r, Nat.add_0_r|]. cbn [nth].
  unfold crc32_next_row. rewrite (next_row_steps _ _ _ crc32_table0_steps), IH by lia.
  do 2 f_equal. lia.
Qed.

Lemma crc64_rows_nth n k j :
  (j < n)%nat ->
  nth j (crc64_rows n (map (bit_steps CRC64_POLY k) byte_range)) [] =
  map (bit_steps CRC64_POLY (k + 8 * j)) byte_range.
Proof.
  revert k j. induction n as [|n IH]; intros k j Hj; [lia|]. cbn [crc64_rows].
  destruct j as [|j]; [cbn [nth]; by rewrite Nat.mul_0_r, Nat.add_0_r|]. cbn [nth].
  unfold crc64_next_row. rewrite (next_row_steps _ _ _ crc64_table0_steps), IH by lia.
  do 2 f_equal. lia.
Qed.

Lemma crc32_table_steps j i :
  (j < 8)%nat -> is_byte i -> crc32_table j i = bit_steps CRC32_POLY (8 * (j + 1)) i.
Proof.
  intros Hj Hi. unfold crc32_table, CRC_TABLE. rewrite crc32_table0_steps, crc32_rows_nth by done.
  rewrite byte_range_nth by done. f_equal. lia.
Qed.

Lemma crc64_table_steps j i :
  (j < 8)%nat -> is_byte i -> crc64_table j i = bit_steps CRC64_POLY (8 * (j + 1)) i.
Proof.
  intros Hj Hi. unfold crc64_table, Crc64Tables. rewrite crc64_table0_steps, crc64_rows_nth by done.
  rewrite byte_range_nth by done. f_equal. lia.
Qed.

(** Keep conversion from unrolling bit steps and table reads. *)
#[global] Opaque bit_step bit_steps crc32_table crc64_table.

(** ** The loops compute the reference *)

Lemma crc32_byte_ref c b : crc32_byte c b = crc_ref_byte CRC32_POLY c b \/ ~ is_byte b.
Proof.
  destruct (decide (0 <= b < 256)) as [Hb|Hb]; [left|by right].
  unfold crc32_byte, crc_ref_byte. rewrite crc32_table_steps by (lia || auto with orar).
  rewrite (bit_steps_8 _ (Z.lxor c b)). f_equal.
  rewrite Z.shiftr_lxor, (Z.shiftr_div_pow2 b), Z.div_small by lia. by rewrite Z.lxor_0_r.
Qed.

Lemma crc32_byte_eq c b : is_byte b -> crc32_byte c b = crc_ref_byte CRC32_POLY c b.
Proof. intros Hb. by destruct (crc32_byte_ref c b). Qed.

Lemma crc64_byte_eq c b : is_byte b -> crc64_byte c b = crc_ref_byte CRC64_POLY c b.
Proof.
  intros Hb. unfold crc64_byte, crc_ref_byte. rewrite crc64_table_steps by (lia || auto with orar).
  rewrite (bit_steps_8 _ (Z.lxor c b)), Z.lxor_comm. f_equal. unfold is_byte in Hb.
  rewrite Z.shiftr_lxor, (Z.shiftr_div_pow2 b), Z.div_small by lia. by rewrite Z.lxor_0_r.
Qed.

(** Eight table lookups are 64 bit steps of the 64-bit word. *)
Lemma slice8_steps poly x :
  0 <= x < 2 ^ 64 ->
  bit_steps poly 64 x =
  Z.lxor (Z.lxor (Z.lxor (Z.lxor (Z.lxor (Z.lxor (Z.lxor
    (bit_steps poly 64 (Z.land x 0xFF))
    (bit_steps poly 56 (Z.land (Z.shiftr x 8) 0xFF)))
    (bit_steps poly 48 (Z.land (Z.shiftr x 16) 0xFF)))
    (bit_steps poly 40 (Z.land (Z.shiftr x 24) 0xFF)))
    (bit_steps poly 32 (Z.land (Z.shiftr x 32) 0xFF)))
    (bit_steps poly 24 (Z.land (Z.shiftr x 40) 0xFF)))
    (bit_steps poly 16 (Z.land (Z.shiftr x 48) 0xFF)))
    (bit_steps poly 8 (Z.land (Z.shiftr x 56) 0xFF)).
Proof.
  intros Hx.
  assert (P : forall m n y, m = (8 + n)%nat ->
    bit_steps poly m y = Z.lxor (bit_steps poly m (Z.land y 0xFF)) (bit_steps poly n (Z.shiftr y 8)))
    by (intros m n y ->; apply bit_steps_peel).
  rewrite (P 64%nat 56%nat x eq_refl), (P 56%nat 48%nat _ eq_refl), (P 48%nat 40%nat _ eq_refl), (P 40%nat 32%nat _ eq_refl),
    (P 32%nat 24%nat _ eq_refl), (P 24%nat 16%nat _ eq_refl), (P 16%nat 8%nat _ eq_refl), (P 8%nat 0%nat _ eq_refl).
  rewrite !Z.shiftr_shiftr by lia.
  change (8 + 8) with 16. change (16 + 8) with 24. change (24 + 8) with 32.
  change (32 + 8) with 40. change (40 + 8) with 48. change (48 + 8) with 56.
  change (56 + 8) with 64.
  assert (E : bit_steps poly 0 (Z.shiftr x 64) = 0).
  { cbn [bit_steps]. rewrite Z.shiftr_div_pow2 by lia. apply Z.div_small. lia. }
  rewrite E, Z.lxor_0_r, !Z.lxor_assoc. reflexivity.
Qed.

Lemma word_shiftr_hi low high k :
  0 <= low < 2 ^ 32 -> 0 <= k ->
  Z.shiftr (low + high * 2 ^ 32) (32 + k) = Z.shiftr high k.
Proof.
  intros Hl Hk. rewrite <- Z.shiftr_shiftr by done. f_equal.
  rewrite Z.shiftr_div_pow2, Z.div_add, Z.div_small by lia. lia.
Qed.

Lemma word_byte_lo low high k :
  0 <= low < 2 ^ 32 -> 0 <= k -> k + 8 <= 32 ->
  Z.land (Z.shiftr (low + high * 2 ^ 32) k) 0xFF = Z.land (Z.shiftr low k) 0xFF.
Proof.
  intros Hl Hk Hk2. rewrite <- (lor_shiftl_add 32) by lia. change 0xFF with (Z.ones 8).
  apply Z.bits_inj'. intros i Hi. rewrite !Z.land_spec, !Z.shiftr_spec, Z.lor_spec by lia.
  destruct (Z.ltb_spec i 8).
  - rewrite (Z.shiftl_spec_low high) by lia. by rewrite orb_false_r.
  - rewrite Z.ones_spec_high by lia. by rewrite !andb_false_r.
Qed.

Lemma le32_of_range p0 p1 p2 p3 :
  is_byte p0 -> is_byte p1 -> is_byte p2 -> is_byte p3 -> 0 <= le32_of p0 p1 p2 p3 < 2 ^ 32.
Proof.
  intros. rewrite lor_bytes_4 by done.
  apply (le_val_range [p0; p1; p2; p3]). bytes_solve.
Qed.

(** The 64-bit word of eight bytes, split as the code splits it. *)
Lemma lxor_word c b0 b1 b2 b3 b4 b5 b6 b7 :
  0 <= c < 2 ^ 32 -> bytes [b0; b1; b2; b3; b4; b5; b6; b7] ->
  Z.lxor c (le_val [b0; b1; b2; b3; b4; b5; b6; b7]) =
  Z.lxor (le32_of b0 b1 b2 b3) c + le32_of b4 b5 b6 b7 * 2 ^ 32.
Proof.
  intros Hc Hb. change [b0; b1; b2; b3; b4; b5; b6; b7] with ([b0; b1; b2; b3] ++ [b4; b5; b6; b7]).
  rewrite le_val_app. repeat (apply Forall_cons_inv in Hb as [? Hb]).
  rewrite <- !lor_bytes_4 by done. change (256 ^ zlen [b0; b1; b2; b3]) with (2 ^ 32).
  pose proof (le32_of_range b0 b1 b2 b3 ltac:(done) ltac:(done) ltac:(done) ltac:(done)) as R.
  set (lo := le32_of b0 b1 b2 b3) in *. set (hi := le32_of b4 b5 b6 b7).
  pose proof (lxor_range 32 lo c ltac:(lia) R Hc) as R2.
  rewrite (Z.mul_comm (2 ^ 32)), <- !Z.shiftl_mul_pow2 by lia.
  rewrite (Z.add_nocarry_lxor lo) by (by apply land_shiftl_disjoint).
  rewrite (Z.add_nocarry_lxor (Z.lxor lo c)) by (by apply land_shiftl_disjoint).
  by rewrite <- Z.lxor_assoc, (Z.lxor_comm c lo).
Qed.

Lemma crc32_slice8_ref c b0 b1 b2 b3 b4 b5 b6 b7 :
  0 <= c < 2 ^ 32 -> bytes [b0; b1; b2; b3; b4; b5; b6; b7] ->
  crc32_slice8 c b0 b1 b2 b3 b4 b5 b6 b7 = crc_ref CRC32_POLY c [b0; b1; b2; b3; b4; b5; b6; b7].
Proof.
  intros Hc Hb. rewrite crc_ref_le_val, lxor_word by done. cbn [length].
  repeat (apply Forall_cons_inv in Hb as [? Hb]).
  pose proof (le32_of_range b0 b1 b2 b3 ltac:(done) ltac:(done) ltac:(done) ltac:(done)) as R1.
  pose proof (le32_of_range b4 b5 b6 b7 ltac:(done) ltac:(done) ltac:(done) ltac:(done)) as R2.
  unfold crc32_slice8.
  pose proof (lxor_range 32 _ c ltac:(lia) R1 Hc) as Rlow.
  set (low := Z.lxor (le32_of b0 b1 b2 b3) c) in *. set (high := le32_of b4 b5 b6 b7) in *.
  change (8 * 8)%nat with 64%nat. rewrite slice8_steps by lia.
  rewrite !crc32_table_steps by (lia || auto with orar).
  pose proof (word_byte_lo low high 0 Rlow ltac:(lia) ltac:(lia)) as B0.
  rewrite !Z.shiftr_0_r in B0. rewrite B0.
  rewrite (word_byte_lo low high 8), (word_byte_lo low high 16), (word_byte_lo low high 24) by lia.
  pose proof (word_shiftr_hi low high 0 Rlow ltac:(lia)) as H0'.
  rewrite Z.shiftr_0_r in H0'.
  change 40 with (32 + 8). change 48 with (32 + 16). change 56 with (32 + 24).
  change (Z.shiftr (low + high * 2 ^ 32) 32) with (Z.shiftr (low + high * 2 ^ 32) (32 + 0)).
  rewrite H0', !word_shiftr_hi by lia. reflexivity.
Qed.

Lemma crc64_slice8_ref c b0 b1 b2 b3 b4 b5 b6 b7 :
  0 <= c < 2 ^ 64 -> bytes [b0; b1; b2; b3; b4; b5; b6; b7] ->
  crc64_slice8 c b0 b1 b2 b3 b4 b5 b6 b7 = crc_ref CRC64_POLY c [b0; b1; b2; b3; b4; b5; b6; b7].
Proof.
  intros Hc Hb. rewrite crc_ref_le_val by done. cbn [length]. pose proof (le_val_range _ Hb) as R.
  change (256 ^ zlen _) with (2 ^ 64) in R.
  assert (E : Z.lor (le32_of b0 b1 b2 b3) (Z.shiftl (le32_of b4 b5 b6 b7) 32)
              = le_val [b0; b1; b2; b3; b4; b5; b6; b7]).
  { repeat (apply Forall_cons_inv in Hb as [? Hb]).
    pose proof (le32_of_range b0 b1 b2 b3 ltac:(done) ltac:(done) ltac:(done) ltac:(done)).
    rewrite lor_shiftl_add, !lor_bytes_4 by (done || lia). cbn [le_val]. lia. }
  unfold crc64_slice8. rewrite E. change (8 * 8)%nat with 64%nat.
  rewrite slice8_steps by (apply lxor_range; lia).
  rewrite !crc64_table_steps by (lia || auto with orar). reflexivity.
Qed.

Lemma crc32_poly_ok : 0 <= CRC32_POLY < 2 ^ 32.
Proof. unfold CRC32_POLY. lia. Qed.

Lemma crc64_poly_ok : 0 <= CRC64_POLY < 2 ^ 64.
Proof. unfold CRC64_POLY. lia. Qed.

#[global] Opaque crc32_byte crc64_byte crc32_slice8 crc64_slice8 crc_ref_byte.

(** Lists eight elements at a time. *)
Lemma list_ind8 (P : list Z -> Prop) :
  (forall l, (length l < 8)%nat -> P l) ->
  (forall b0 b1 b2 b3 b4 b5 b6 b7 l, P l -> P ([b0; b1; b2; b3; b4; b5; b6; b7] ++ l)) ->
  forall l, P l.
Proof.
  intros Hs Hc l. remember (length l) as n eqn:E. revert l E.
  induction n as [n IH] using lt_wf_ind. intros l ->.
  destruct l as [|b0 [|b1 [|b2 [|b3 [|b4 [|b5 [|b6 [|b7 l]]]]]]]];
    try (apply Hs; cbn; lia).
  apply (Hc b0 b1 b2 b3 b4 b5 b6 b7 l). apply (IH (length l)); [cbn; lia|done].
Qed.

(** The loops of an update function compute a left fold of any byte step [g]
    that the byte step and the eight-byte step of the code agree with. *)
Section Loops.
Variables (f1 : Z -> Z -> Z) (f8 : Z -> Z -> Z -> Z -> Z -> Z -> Z -> Z -> Z -> Z).
Variables (g : Z -> list Z -> Z) (ok : Z -> Prop).
Hypothesis g_nil : forall c, g c [] = c.
Hypothesis g_app : forall c l k, g c (l ++ k) = g (g c l) k.
Hypothesis g_ok : forall c l, ok c -> bytes l -> ok (g c l).
Hypothesis f1_g : forall c b, is_byte b -> f1 c b = g c [b].
Hypothesis f8_g : forall c b0 b1 b2 b3 b4 b5 b6 b7,
  ok c -> bytes [b0; b1; b2; b3; b4; b5; b6; b7] ->
  f8 c b0 b1 b2 b3 b4 b5 b6 b7 = g c [b0; b1; b2; b3; b4; b5; b6; b7].

Lemma fold_loop_ref c l : bytes l -> fold_left f1 l c = g c l.
Proof.
  intros Hl. revert c. induction Hl as [|b l Hb Hl IH]; intros c; [done|]. cbn [fold_left].
  rewrite IH, f1_g by done. by rewrite <- g_app.
Qed.

Lemma lead_loop_ref l addr c :
  bytes l -> let '(l', c') := lead_loop f1 l addr c in exists p, l = p ++ l' /\ c' = g c p.
Proof.
  intros Hl. revert addr c. induction Hl as [|b l Hb Hl IH]; intros addr c; cbn [lead_loop].
  { by exists []. }
  destruct (Z.land addr 7 =? 0); [by exists []|].
  specialize (IH (addr + 1) (f1 c b)). destruct (lead_loop f1 l _ _) as [l' c'].
  destruct IH as (p & -> & ->). exists (b :: p). split; [done|].
  by rewrite f1_g, <- g_app by done.
Qed.

Lemma slices8_loop_ref l c :
  bytes l -> ok c ->
  let '(l', c') := slices8_loop f8 l c in exists p, l = p ++ l' /\ c' = g c p.
Proof.
  revert c. pattern l. apply list_ind8; clear l.
  - intros l Hl c Hb Hc.
    destruct l as [|b0 [|b1 [|b2 [|b3 [|b4 [|b5 [|b6 [|b7 l]]]]]]]];
      [by exists []..|cbn in Hl; lia].
  - intros b0 b1 b2 b3 b4 b5 b6 b7 l IH c Hb Hc. cbn [app slices8_loop].
    apply (Forall_app _ [b0; b1; b2; b3; b4; b5; b6; b7]) in Hb as [Hb Hl].
    rewrite f8_g by done. specialize (IH _ Hl (g_ok _ _ Hc Hb)).
    destruct (slices8_loop f8 l _) as [l' c']. destruct IH as (p & -> & ->).
    exists ([b0; b1; b2; b3; b4; b5; b6; b7] ++ p). split; [done|]. by rewrite g_app.
Qed.
End Loops.

Definition word_ok (w c : Z) : Prop := 0 <= c < 2 ^ w.

Lemma crc32_ref_ok c l : word_ok 32 c -> bytes l -> word_ok 32 (crc_ref CRC32_POLY c l).
Proof. intros Hc Hl. apply (crc_ref_range _ 32); try lia; [apply crc32_poly_ok|done..]. Qed.

Lemma crc64_ref_ok c l : word_ok 64 c -> bytes l -> word_ok 64 (crc_ref CRC64_POLY c l).
Proof. intros Hc Hl. apply (crc_ref_range _ 64); try lia; [apply crc64_poly_ok|done..]. Qed.

Lemma crc_ref_one poly c b : crc_ref poly c [b] = crc_ref_byte poly c b.
Proof. by rewrite crc_ref_cons. Qed.

Lemma crc32_byte_one c b : is_byte b -> crc32_byte c b = crc_ref CRC32_POLY c [b].
Proof. intros Hb. by rewrite crc_ref_one, crc32_byte_eq. Qed.

Lemma crc64_byte_one c b : is_byte b -> crc64_byte c b = crc_ref CRC64_POLY c [b].
Proof. intros Hb. by rewrite crc_ref_one, crc64_byte_eq. Qed.

Lemma crc_ref_nil poly c : crc_ref poly c [] = c.
Proof. reflexivity. Qed.

Lemma crc32_step_ref addr c l :
  bytes l -> word_ok 32 c -> crc32_step addr c l = crc_ref CRC32_POLY c l.
Proof.
  intros Hl Hc. unfold crc32_step, crc32_lead, crc32_slices, crc32_trail.
  pose proof (lead_loop_ref _ _ (crc_ref_nil _) (crc_ref_app _) crc32_byte_one l addr c Hl) as L.
  destruct (lead_loop _ l addr c) as [l1 c1].
  destruct L as (p1 & -> & ->). apply Forall_app in Hl as [Hp1 Hl1].
  pose proof (crc32_ref_ok c p1 Hc Hp1) as R.
  pose proof (slices8_loop_ref _ _ _ (crc_ref_nil _) (crc_ref_app _) crc32_ref_ok
                crc32_slice8_ref l1 _ Hl1 R) as S.
  destruct (slices8_loop _ l1 _) as [l2 c2].
  destruct S as (p2 & -> & ->). apply Forall_app in Hl1 as [Hp2 Hl2].
  rewrite (fold_loop_ref _ _ (crc_ref_nil _) (crc_ref_app _) crc32_byte_one) by done.
  by rewrite !crc_ref_app.
Qed.

Lemma crc64_update_ref c l :
  bytes l -> word_ok 64 c -> crc64_update_slice8 c l = crc_ref CRC64_POLY c l.
Proof.
  intros Hl Hc. unfold crc64_update_slice8.
  pose proof (slices8_loop_ref _ _ _ (crc_ref_nil _) (crc_ref_app _) crc64_ref_ok
                crc64_slice8_ref l _ Hl Hc) as S.
  destruct (slices8_loop _ l _) as [l2 c2].
  destruct S as (p2 & -> & ->). apply Forall_app in Hl as [Hp2 Hl2].
  rewrite (fold_loop_ref _ _ (crc_ref_nil _) (crc_ref_app _) crc64_byte_one) by done.
  by rewrite <- crc_ref_app.
Qed.

Lemma not32_eq x : 0 <= x < 2 ^ 32 -> not32 x = Z.lxor x 0xFFFFFFFF.
Proof.
  intros Hx. unfold not32. rewrite wrap_land by lia. change 0xFFFFFFFF with (Z.ones 32).
  apply Z.bits_inj'. intros i Hi. rewrite Z.land_spec, Z.lxor_spec, Z.lnot_spec by done.
  destruct (Z.ltb_spec i 32).
  - rewrite Z.ones_spec_low by lia. by rewrite andb_true_r, xorb_true_r.
  - rewrite Z.ones_spec_high, (testbit_high 32 x) by lia. done.
Qed.

Lemma not32_range x : 0 <= not32 x < 2 ^ 32.
Proof. apply wrap_range. lia. Qed.

Lemma not32_invol x : 0 <= x < 2 ^ 32 -> not32 (not32 x) = x.
Proof.
  intros Hx. rewrite (not32_eq (not32 x)) by apply not32_range. rewrite not32_eq by done.
  by rewrite Z.lxor_assoc, Z.lxor_nilpotent, Z.lxor_0_r.
Qed.

Lemma crc32_ref addr l c :
  bytes l -> crc32 addr l c = not32 (crc_ref CRC32_POLY (not32 c) l).
Proof. intros Hl. unfold crc32. rewrite crc32_step_ref; [done|done|apply not32_range]. Qed.

Lemma crc32_range addr l c : 0 <= crc32 addr l c < 2 ^ 32.
Proof. apply not32_range. Qed.

Lemma crc32_app addr addr' l k c :
  bytes l -> bytes k -> crc32 addr' k (crc32 addr l c) = crc32 0 (l ++ k) c.
Proof.
  intros Hl Hk. rewrite !crc32_ref by bytes_solve. rewrite not32_invol, crc_ref_app; [done|].
  apply crc32_ref_ok; [apply not32_range|done].
Qed.

Lemma crc32_addr addr l c : bytes l -> crc32 addr l c = crc32 0 l c.
Proof. intros Hl. by rewrite !crc32_ref. Qed.

Lemma Crc64Xz_compute_ref l :
  bytes l -> Crc64Xz_compute l = Z.lxor (crc_ref CRC64_POLY Crc64Xz_init l) (not64 0).
Proof.
  intros Hl. unfold Crc64Xz_compute, Crc64Xz_get, Crc64Xz_update.
  rewrite crc64_update_ref; [done|done|]. vm_compute. split; [discriminate|reflexivity].
Qed.

#[export] Hint Resolve crc32_range : orar.

(** C30. The alignment prologue, the slicing-by-8 loop and the byte tail of
    [crc32_step] together compute the bit-serial IEEE CRC-32 of the input,
    whatever the address of the buffer; and a [Crc32] object updated piece by
    piece, at any addresses, holds the checksum of the concatenation. *)
Theorem crc32_slicing_correct (addr1 addr2 crc : Z) (d1 d2 : list Z) :
  bytes d1 -> bytes d2 -> 0 <= crc < 2 ^ 32 ->
  crc32_step addr1 crc d1 = crc_ref CRC32_POLY crc d1 /\
  Crc32_get (Crc32_update addr2 d2 (Crc32_update addr1 d1 Crc32_init)) =
  Z.lxor (crc_ref CRC32_POLY 0xFFFFFFFF (d1 ++ d2)) 0xFFFFFFFF.
Proof.
  intros H1 H2 Hc. split; [by apply crc32_step_ref|].
  unfold Crc32_get, Crc32_update, Crc32_init. rewrite crc32_app, crc32_ref by bytes_solve.
  apply not32_eq, crc32_ref_ok; [unfold word_ok; lia|bytes_solve].
Qed.

(** The standard check value, from an unaligned buffer in two pieces. *)
Lemma crc32_slicing_correct_witness :
  let d := [0x31; 0x32; 0x33; 0x34; 0x35; 0x36; 0x37; 0x38; 0x39] in
  Crc32_get (Crc32_update 5 d Crc32_init) = 0xCBF43926 /\
  crc32_step 5 0xFFFFFFFF d = crc_ref CRC32_POLY 0xFFFFFFFF d.
Proof.
  cbv zeta. split; [vm_compute; reflexivity|].
  apply (crc32_slicing_correct 5 0 0xFFFFFFFF [0x31; 0x32; 0x33; 0x34; 0x35; 0x36; 0x37; 0x38; 0x39] []);
    [bytes_const|bytes_const|lia].
Defined.

(** Two inputs of the same length that differ only inside four
    consecutive bytes never have the same CRC-32: a header corrupted in one
    such burst is always rejected.  For CRC-64/XZ the burst may be eight
    bytes. *)
Theorem crc_burst_detected (addr c : Z) (p x y q : list Z) :
  bytes p -> bytes x -> bytes y -> bytes q -> length x = length y -> x <> y ->
  (zlen x <= 4 -> crc32 addr (p ++ x ++ q) c <> crc32 addr (p ++ y ++ q) c) /\
  (zlen x <= 8 -> Crc64Xz_compute (p ++ x ++ q) <> Crc64Xz_compute (p ++ y ++ q)).
Proof.
  intros Hp Hx Hy Hq Hlen Hne. split; intros Hburst E.
  - rewrite !crc32_ref in E by bytes_solve. apply (f_equal not32) in E.
    rewrite !not32_invol in E by
      (apply crc32_ref_ok; [apply not32_range|bytes_solve]).
    revert E. apply (crc_ref_burst _ 32); try done; try lia. apply not32_range.
  - rewrite !Crc64Xz_compute_ref in E by bytes_solve.
    rewrite !(Z.lxor_comm _ (not64 0)) in E. apply lxor_cancel in E. revert E.
    apply (crc_ref_burst _ 64); try done; lia.
Qed.

Lemma crc_burst_detected_witness :
  crc32 0 ([1; 2] ++ [3; 4; 5; 6] ++ [7]) 0 <> crc32 0 ([1; 2] ++ [3; 9; 5; 8] ++ [7]) 0.
Proof.
  apply (crc_burst_detected 0 0 [1; 2] [3; 4; 5; 6] [3; 9; 5; 8] [7]);
    try bytes_const; [reflexivity|discriminate|vm_compute; discriminate].
Defined.

(** [RawCrc64] is linear over GF(2): the checksum of the bytewise xor of
    two buffers is the xor of their checksums, and every all-zero buffer has
    checksum 0; and its slicing loop is the bit-serial CRC with the XZ
    polynomial. *)
Theorem RawCrc64_linear (a b : list Z) (n : nat) :
  bytes a -> bytes b -> length a = length b ->
  RawCrc64_compute a = crc_ref CRC64_POLY 0 a /\
  RawCrc64_compute (zip_with Z.lxor a b) = Z.lxor (RawCrc64_compute a) (RawCrc64_compute b) /\
  RawCrc64_compute (replicate n 0) = 0.
Proof.
  intros Ha Hb Hlen. unfold RawCrc64_compute, RawCrc64_update, RawCrc64_init.
  assert (Hz : bytes (zip_with Z.lxor a b)).
  { revert b Hb Hlen. induction Ha as [|x a Hx Ha IH]; intros b Hb Hlen; [constructor|].
    destruct Hb as [|y b Hy Hb]; [constructor|]. constructor; [|by apply IH; cbn in Hlen; auto].
    by apply (lxor_range 8). }
  assert (Hr : bytes (replicate n 0)) by (apply Forall_replicate; unfold is_byte; lia).
  rewrite !crc64_update_ref by (done || (unfold word_ok; lia)). split; [done|]. split.
  - rewrite !crc_ref_le_val, !Z.lxor_0_l by done. rewrite length_zip_with_l by lia.
    rewrite <- Hlen, <- bit_steps_lxor. f_equal. clear Hz.
    revert b Hb Hlen. induction Ha as [|x a Hx Ha IH]; intros b Hb Hlen.
    { by destruct Hb. }
    destruct Hb as [|y b Hy Hb]; [done|]. cbn [zip_with le_val]. rewrite IH by (done || cbn in Hlen; lia).
    rewrite <- !lxor_shiftl_byte by (done || by apply (lxor_range 8)).
    rewrite Z.shiftl_lxor, !Z.lxor_assoc. f_equal. rewrite <- !Z.lxor_assoc. f_equal.
    apply Z.lxor_comm.
  - rewrite crc_ref_le_val by done. rewrite Z.lxor_0_l.
    replace (le_val (replicate n 0)) with 0 by (clear; induction n; cbn; lia).
    apply bit_steps_0.
Qed.

Lemma RawCrc64_linear_witness :
  RawCrc64_compute [1; 2; 3; 4; 5; 6; 7; 8; 9] = crc_ref CRC64_POLY 0 [1; 2; 3; 4; 5; 6; 7; 8; 9] /\
  Crc64Xz_compute [0x31; 0x32; 0x33; 0x34; 0x35; 0x36; 0x37; 0x38; 0x39] = 0x995DC9BBDF1939FA.
Proof.
  split; [|vm_compute; reflexivity].
  apply (RawCrc64_linear [1; 2; 3; 4; 5; 6; 7; 8; 9] [9; 2; 3; 4; 5; 6; 7; 8; 9] 3);
    try bytes_const. reflexivity.
Defined.
