(* ===== verification/Source.v ===== *)
(** Random-access reads: the [ReadSource] interface of
    [src/io/file_stream.hpp] and its two in-memory implementations,
    [BufferStream] ([src/io/buffer_stream.hpp]) and the mapped file
    ([src/io/mapped_file.cpp], POSIX).

    Clients are written against the operations class [ReadSource] and proved
    against its laws [ReadSourceLaws]; both implementations discharge them. *)

From stdpp Require Import base tactics list numbers.
From Stdlib Require Import ZArith Lia.
From S2P Require Import Prelude.

Local Open Scope Z_scope.

Inductive SeekOrigin := Begin | Current | End_.

(** [resolve_seek]: [None] is [false], [Some out] is [true]. *)
Definition resolve_seek (cursor size offset : Z) (origin : SeekOrigin) : option Z :=
  let base := match origin with Begin => 0 | Current => cursor | End_ => size end in
  if base >? size then None
  else if offset >=? 0 then
    let fwd := u64 offset in
    if fwd >? u64 (size - base) then None else Some (u64 (base + fwd))
  else
    let back := u64 (u64 (- (offset + 1)) + 1) in
    if back >? base then None else Some (u64 (base - back)).

(** ** The interface *)

Class ReadSource (S : Type) := {
  src_contents : S -> list Z;
  src_tell : S -> Z;
  src_read : S -> Z -> list Z * S;
  src_seek : S -> Z -> SeekOrigin -> bool * S
}.

(** What a source promises: a read at the cursor returns the bytes up to the
    request or the end and moves the cursor past them; a seek lands exactly
    where the arithmetic says, or fails and moves nothing. *)
Class ReadSourceLaws (S : Type) `{ReadSource S} := {
  src_wf : S -> Prop;
  src_tell_range : forall s, src_wf s -> 0 <= src_tell s <= zlen (src_contents s) /\ zlen (src_contents s) < 2 ^ 63;
  src_read_bytes : forall s n, src_wf s -> 0 <= n ->
    (src_read s n).1 = take (Z.to_nat n) (view (src_contents s) (src_tell s));
  src_read_state : forall s n, src_wf s -> 0 <= n ->
    let s' := (src_read s n).2 in
    src_wf s' /\ src_contents s' = src_contents s /\
    src_tell s' = src_tell s + zlen (src_read s n).1;
  src_seek_state : forall s off o, src_wf s -> - 2 ^ 63 <= off < 2 ^ 63 ->
    let target := (match o with Begin => 0 | Current => src_tell s | End_ => zlen (src_contents s) end) + off in
    let '(ok, s') := src_seek s off o in
    src_wf s' /\ src_contents s' = src_contents s /\
    (ok = true <-> 0 <= target <= zlen (src_contents s)) /\
    (src_tell s' = if ok then target else src_tell s)
}.

(** ** BufferStream *)

Record BufferStream := { bs_data : list Z; bs_pos : Z }.

Definition bs_set (data : list Z) : BufferStream := {| bs_data := data; bs_pos := 0 |}.
Definition bs_size (s : BufferStream) : Z := zlen (bs_data s).
Definition bs_tell (s : BufferStream) : Z := bs_pos s.
Definition bs_remaining (s : BufferStream) : Z :=
  if bs_pos s <=? bs_size s then bs_size s - bs_pos s else 0.

Definition bs_read (s : BufferStream) (n : Z) : list Z * BufferStream :=
  if n =? 0 then ([], s)
  else
    let avail := bs_remaining s in
    let n := if n >? avail then avail else n in
    if n =? 0 then ([], s)
    else (take (Z.to_nat n) (view (bs_data s) (bs_pos s)),
          {| bs_data := bs_data s; bs_pos := u64 (bs_pos s + n) |}).

Definition bs_seek (s : BufferStream) (off : Z) (origin : SeekOrigin) : bool * BufferStream :=
  match resolve_seek (bs_pos s) (bs_size s) off origin with
  | None => (false, s)
  | Some next => (true, {| bs_data := bs_data s; bs_pos := next |})
  end.

Definition bs_reset (s : BufferStream) : BufferStream := {| bs_data := bs_data s; bs_pos := 0 |}.

#[export] Instance BufferStream_source : ReadSource BufferStream := {
  src_contents := bs_data;
  src_tell := bs_tell;
  src_read := bs_read;
  src_seek := bs_seek
}.

(** ** MappedFile

    [mf_data] is what the mapping shows, [mf_current] the size [fstat] reports
    at the moment of a read (the file may have been truncated since). *)

Record MappedFile := { mf_data : list Z; mf_size : Z; mf_current : Z; mf_cursor : Z }.

Definition mf_read_at (s : MappedFile) (offset bytes : Z) : list Z :=
  if bytes =? 0 then []
  else if offset >=? mf_size s then []
  else
    let take_ := Z.min bytes (mf_size s - offset) in
    if mf_current s <=? 0 then []
    else if offset >=? mf_current s then []
    else
      let valid := Z.min take_ (mf_current s - offset) in
      if valid =? 0 then [] else take (Z.to_nat valid) (view (mf_data s) offset).

Definition mf_set_cursor (s : MappedFile) (c : Z) : MappedFile :=
  {| mf_data := mf_data s; mf_size := mf_size s; mf_current := mf_current s; mf_cursor := c |}.

Definition mf_read (s : MappedFile) (bytes : Z) : list Z * MappedFile :=
  let l := mf_read_at s (mf_cursor s) bytes in
  (l, mf_set_cursor s (u64 (mf_cursor s + zlen l))).

Definition mf_seek (s : MappedFile) (off : Z) (origin : SeekOrigin) : bool * MappedFile :=
  match resolve_seek (mf_cursor s) (mf_size s) off origin with
  | None => (false, s)
  | Some next => (true, mf_set_cursor s next)
  end.

#[export] Instance MappedFile_source : ReadSource MappedFile := {
  src_contents := mf_data;
  src_tell := mf_cursor;
  src_read := mf_read;
  src_seek := mf_seek
}.

(** ** The laws *)

Lemma resolve_seek_spec cursor size offset origin :
  0 <= cursor <= size -> size < 2 ^ 63 -> - 2 ^ 63 <= offset < 2 ^ 63 ->
  let target := (match origin with Begin => 0 | Current => cursor | End_ => size end) + offset in
  resolve_seek cursor size offset origin =
  if (0 <=? target) && (target <=? size) then Some target else None.
Proof.
  intros Hc Hs Ho. unfold resolve_seek. cbv zeta.
  set (base := match origin with Begin => 0 | Current => cursor | End_ => size end).
  assert (Hb : 0 <= base <= size) by (subst base; destruct origin; lia).
  clearbody base. rewrite Z.gtb_ltb, (proj2 (Z.ltb_ge _ _)) by lia.
  destruct (Z.geb_spec offset 0).
  - rewrite !(wrap_small 64 offset), !(wrap_small 64 (size - base)) by lia.
    rewrite Z.gtb_ltb. destruct (Z.ltb_spec (size - base) offset).
    + rewrite (proj2 (Z.leb_gt _ size)), andb_false_r by lia. done.
    + rewrite !(proj2 (Z.leb_le _ _)) by lia. rewrite wrap_small by lia. done.
  - rewrite (wrap_small 64 (- (offset + 1))), wrap_small by lia.
    replace (- (offset + 1) + 1) with (- offset) by lia.
    rewrite Z.gtb_ltb. destruct (Z.ltb_spec base (- offset)).
    + rewrite (proj2 (Z.leb_gt 0 _)) by lia. done.
    + rewrite !(proj2 (Z.leb_le _ _)) by lia. rewrite wrap_small by lia. cbn [andb].
      f_equal. lia.
Qed.

Lemma take_view_clamp m off n k :
  0 <= off <= zlen m -> 0 <= k -> zlen m - off <= k -> zlen m - off <= n ->
  take (Z.to_nat n) (view m off) = take (Z.to_nat k) (view m off).
Proof.
  intros Ho Hk H1 H2. pose proof (zlen_view m off ltac:(lia)) as L. unfold zlen in L, H1, H2.
  rewrite !take_ge by lia. done.
Qed.

Lemma zlen_take_view m off n :
  0 <= off <= zlen m -> 0 <= n ->
  zlen (take (Z.to_nat n) (view m off)) = Z.min n (zlen m - off).
Proof.
  intros Ho Hn. pose proof (zlen_view m off ltac:(lia)) as L. unfold zlen in *.
  rewrite length_take. lia.
Qed.

Definition bs_wf (s : BufferStream) : Prop :=
  0 <= bs_pos s <= zlen (bs_data s) /\ zlen (bs_data s) < 2 ^ 63.

Lemma bs_read_eq s n :
  bs_wf s -> 0 <= n ->
  bs_read s n = (take (Z.to_nat n) (view (bs_data s) (bs_pos s)),
    {| bs_data := bs_data s; bs_pos := bs_pos s + zlen (take (Z.to_nat n) (view (bs_data s) (bs_pos s))) |}).
Proof.
  intros [H1 H2] Hn. rewrite zlen_take_view by lia. unfold bs_read, bs_remaining, bs_size.
  destruct (Z.eqb_spec n 0) as [->|Hn0].
  { destruct s; simpl in *. do 2 f_equal. lia. }
  rewrite (proj2 (Z.leb_le _ _)) by lia. rewrite Z.gtb_ltb.
  destruct (Z.ltb_spec (zlen (bs_data s) - bs_pos s) n) as [Hlt|Hge].
  - destruct (Z.eqb_spec (zlen (bs_data s) - bs_pos s) 0) as [E|Hne].
    + rewrite (take_view_clamp _ _ n 0) by lia. destruct s; simpl in *. do 2 f_equal. lia.
    + rewrite wrap_small by lia. f_equal; [apply take_view_clamp; lia|f_equal; lia].
  - rewrite (proj2 (Z.eqb_neq _ _)) by lia. rewrite wrap_small by lia. do 2 f_equal. lia.
Qed.

#[export] Program Instance BufferStream_laws : ReadSourceLaws BufferStream := {
  src_wf := bs_wf
}.
Next Obligation. intros s H. exact H. Qed.
Next Obligation. intros s n Hs Hn. simpl. by rewrite bs_read_eq. Qed.
Next Obligation.
  intros s n Hs Hn. simpl. rewrite bs_read_eq by done. simpl.
  destruct Hs as [H1 H2]. unfold bs_wf, bs_tell. simpl.
  rewrite zlen_take_view by lia. split_and!; try done; lia.
Qed.
Next Obligation.
  intros s off o [H1 H2] Hoff. simpl. unfold bs_seek, bs_size.
  rewrite resolve_seek_spec by lia. cbv zeta.
  change (bs_tell s) with (bs_pos s). destruct (_ && _) eqn:E.
  - apply andb_true_iff in E as [E1 E2]. apply Z.leb_le in E1, E2.
    unfold bs_wf, bs_tell; simpl. split_and!; try done; lia.
  - split; [done|]. split; [done|]. split; [|done]. split; [done|]. intros [? ?].
    apply andb_false_iff in E as [E|E]; apply Z.leb_gt in E; lia.
Qed.

(** A mapping whose file has not shrunk. *)
Definition mf_wf (s : MappedFile) : Prop :=
  0 <= mf_cursor s <= mf_size s /\ mf_size s = zlen (mf_data s) /\ mf_size s < 2 ^ 63 /\
  mf_size s <= mf_current s.

Lemma mf_read_at_eq s off n :
  mf_wf s -> 0 <= off <= mf_size s -> 0 <= n ->
  mf_read_at s off n = take (Z.to_nat n) (view (mf_data s) off).
Proof.
  intros (H1 & H2 & H3 & H4) Ho Hn. unfold mf_read_at.
  destruct (Z.eqb_spec n 0) as [->|Hn0]; [done|].
  destruct (Z.geb_spec off (mf_size s)) as [Hge|Hlt].
  { rewrite (take_view_clamp _ _ n 0) by lia. done. }
  rewrite (proj2 (Z.leb_gt _ _)) by lia.
  destruct (Z.geb_spec off (mf_current s)); [lia|].
  rewrite (proj2 (Z.eqb_neq _ _)) by lia.
  destruct (Z.le_gt_cases n (mf_size s - off)).
  - by replace (Z.min _ _) with n by lia.
  - apply take_view_clamp; lia.
Qed.

#[export] Program Instance MappedFile_laws : ReadSourceLaws MappedFile := {
  src_wf := mf_wf
}.
Next Obligation. intros s (H1 & H2 & H3 & H4). simpl. lia. Qed.
Next Obligation. intros s n Hs Hn. simpl. destruct Hs as (H1 & H2 & H3 & H4).
  rewrite mf_read_at_eq; [done|unfold mf_wf; lia..]. Qed.
Next Obligation.
  intros s n Hs Hn. simpl. pose proof Hs as (H1 & H2 & H3 & H4).
  rewrite mf_read_at_eq by (done || lia). rewrite zlen_take_view by lia.
  unfold mf_wf; simpl. rewrite wrap_small by lia. split_and!; try done; lia.
Qed.
Next Obligation.
  intros s off o Hs Hoff. simpl. pose proof Hs as (H1 & H2 & H3 & H4). unfold mf_seek.
  rewrite resolve_seek_spec by lia. cbv zeta. rewrite H2. destruct (_ && _) eqn:E.
  - apply andb_true_iff in E as [E1 E2]. apply Z.leb_le in E1, E2.
    unfold mf_wf; simpl. split_and!; try done; lia.
  - split; [done|]. split; [done|]. split; [|done]. split; [done|]. intros [? ?].
    apply andb_false_iff in E as [E|E]; apply Z.leb_gt in E; lia.
Qed.
