(* ===== verification/Headers.v ===== *)
(** The RAR 5.0 header model: [src/format/headers.hpp].

    Block types, flag words, extra-record types, the bounds shared by reader
    and writer, and the records the parsers fill.  [FileBlock] is split into
    the groups its comments name (fixed fields, digest, timestamps, owner,
    version, encryption, redirection); strings and byte arrays are lists of
    bytes, [*_ok] states the widths the C++ types enforce. *)

From stdpp Require Import base tactics list numbers.
From Stdlib Require Import ZArith Lia.
From S2P Require Import Prelude.

Local Open Scope Z_scope.

Definition RAR5_SIGNATURE_SIZE : Z := 8.

(** The signature is stored XOR-masked and unmasked at run time. *)
Definition signature_masked : list Z :=
  map (fun b => Z.lxor b 0x5B) [0x52; 0x61; 0x72; 0x21; 0x1A; 0x07; 0x01; 0x00].
Definition rar5_signature : list Z := map (fun b => Z.lxor b 0x5B) signature_masked.

Definition HEAD_MAIN : Z := 1.
Definition HEAD_FILE : Z := 2.
Definition HEAD_SERVICE : Z := 3.
Definition HEAD_CRYPT : Z := 4.
Definition HEAD_ENDARC : Z := 5.

Definition HFL_EXTRA : Z := 0x0001.
Definition HFL_DATA : Z := 0x0002.
Definition HFL_SKIP_IF_UNKNOWN : Z := 0x0004.
Definition HFL_SPLITBEFORE : Z := 0x0008.
Definition HFL_SPLITAFTER : Z := 0x0010.
Definition HFL_CHILD : Z := 0x0020.
Definition HFL_INHERITED : Z := 0x0040.

Definition MHFL_VOLUME : Z := 0x0001.
Definition MHFL_VOLNUMBER : Z := 0x0002.
Definition MHFL_SOLID : Z := 0x0004.
Definition MHFL_PROTECT : Z := 0x0008.
Definition MHFL_LOCK : Z := 0x0010.

Definition FHFL_DIRECTORY : Z := 0x0001.
Definition FHFL_UTIME : Z := 0x0002.
Definition FHFL_CRC32 : Z := 0x0004.
Definition FHFL_UNPUNKNOWN : Z := 0x0008.

Definition FHEXTRA_CRYPT : Z := 0x01.
Definition FHEXTRA_HASH : Z := 0x02.
Definition FHEXTRA_HTIME : Z := 0x03.
Definition FHEXTRA_VERSION : Z := 0x04.
Definition FHEXTRA_REDIR : Z := 0x05.
Definition FHEXTRA_OWNER : Z := 0x06.
Definition FHEXTRA_SUBDATA : Z := 0x07.
Definition FHEXTRA_XATTR : Z := 0x08.
Definition MHEXTRA_LOCATOR : Z := 0x01.
Definition MHEXTRA_METADATA : Z := 0x02.

Definition FHEXTRA_XATTR_NAME_MAX : Z := 255.
Definition FHEXTRA_XATTR_VALUE_MAX : Z := 65536.

Definition INT64_MAX : Z := 2 ^ 63 - 1.

(** ** Main header *)

Record MainBlock := {
  arc_flags : Z;
  vol_number : Z;
  has_locator : bool;
  locator_qo_offset : Z;
  locator_rr_offset : Z;
  has_metadata : bool;
  metadata_name : list Z;
  metadata_ctime : Z;
  metadata_is_unix_time : bool;
  metadata_is_nanoseconds : bool
}.

Definition MainBlock_default : MainBlock :=
  {| arc_flags := 0; vol_number := 0; has_locator := false;
     locator_qo_offset := -1; locator_rr_offset := -1; has_metadata := false;
     metadata_name := []; metadata_ctime := 0;
     metadata_is_unix_time := false; metadata_is_nanoseconds := false |}.

(** ** Dictionary limits *)

Definition RAR_DICT_BASE : Z := 128 * 1024.
Definition RAR_DICT_MAX_V0 : Z := Z.shiftl RAR_DICT_BASE 15.
Definition RAR_DICT_MAX_V1 : Z := Z.shiftl RAR_DICT_BASE 23.
Definition RAR_DICT_SPEC_MAX_ABSOLUTE : Z := RAR_DICT_MAX_V1.
Definition FCI_RAR5_COMPAT : Z := 0x100000.

(** [wide]: a 64-bit native build; 32-bit and WASM builds use 1 GiB. *)
Definition RAR_DICT_ALLOC_LIMIT (wide : bool) : Z :=
  if wide then 64 * 1024 * 1024 * 1024 else 1 * 1024 * 1024 * 1024.

Definition is_dictionary_too_large_for_alloc (wide : bool) (win_size : Z) : bool :=
  win_size >? RAR_DICT_ALLOC_LIMIT wide.

Definition is_dictionary_spec_max_exceeded (win_size unp_ver : Z) : bool :=
  if unp_ver =? 0 then win_size >? RAR_DICT_MAX_V0
  else if unp_ver =? 1 then win_size >? RAR_DICT_MAX_V1
  else win_size >? RAR_DICT_SPEC_MAX_ABSOLUTE.

(** ** File and service headers *)

Record FileFixed := {
  is_service : bool;
  service_type : list Z;
  file_flags : Z;
  unp_size : Z;
  unp_unknown : bool;
  pack_size : Z;
  attributes : Z;
  has_crc32 : bool;
  data_crc32 : Z;
  utime_unix : Z;
  method : Z;
  win_size : Z;
  is_solid : bool;
  unp_ver : Z;
  extra_dist : bool;
  host_os : Z;
  file_name : list Z
}.

Record FileHash := { has_blake2sp : bool; blake2sp : list Z }.

(** One of [mtime], [ctime], [atime]: [*_win], [htime_*_unix], [*_ns],
    [has_*_ns]. *)
Record Stamp := { st_win : Z; st_unix : Z; st_ns : Z; st_has_ns : bool }.

Record HTimes := { htime_is_unix : bool; mtime : Stamp; ctime : Stamp; atime : Stamp }.

Record Owner := {
  has_owner : bool;
  owner_user : list Z;
  owner_group : list Z;
  owner_uid : Z;
  owner_gid : Z;
  has_owner_uid : bool;
  has_owner_gid : bool
}.

Record FileVersion := { has_file_version : bool; file_version : Z }.

Record FileCrypt := {
  is_encrypted : bool;
  crypt_version : Z;
  crypt_flags : Z;
  lg2_count : Z;
  salt : list Z;
  init_v : list Z;
  has_psw_check : bool;
  psw_check : list Z;
  psw_check_csum : list Z
}.

Record Redir := { redir_type : Z; redir_dir_target : bool; redir_target : list Z }.

Record FileXattr := { xa_name : list Z; xa_value : list Z }.

Record UnknownExtra := { ue_type : Z; ue_raw : list Z }.

Record FileBlock := {
  fixed : FileFixed;
  hash : FileHash;
  htimes : HTimes;
  owner : Owner;
  version : FileVersion;
  crypt : FileCrypt;
  redir : Redir;
  sub_data : list Z;
  xattrs : list FileXattr;
  unknown_extras : list UnknownExtra
}.

Definition zeros (n : nat) : list Z := replicate n 0.

Definition FileFixed_default : FileFixed :=
  {| is_service := false; service_type := []; file_flags := 0; unp_size := 0;
     unp_unknown := false; pack_size := -1; attributes := 0; has_crc32 := false;
     data_crc32 := 0; utime_unix := 0; method := 0; win_size := 0; is_solid := false;
     unp_ver := 0; extra_dist := false; host_os := 0; file_name := [] |}.
Definition FileHash_default : FileHash :=
  {| has_blake2sp := false; blake2sp := zeros 32 |}.
Definition Stamp_default : Stamp :=
  {| st_win := 0; st_unix := 0; st_ns := 0; st_has_ns := false |}.
Definition HTimes_default : HTimes :=
  {| htime_is_unix := false; mtime := Stamp_default; ctime := Stamp_default;
     atime := Stamp_default |}.
Definition Owner_default : Owner :=
  {| has_owner := false; owner_user := []; owner_group := []; owner_uid := 0;
     owner_gid := 0; has_owner_uid := false; has_owner_gid := false |}.
Definition FileVersion_default : FileVersion :=
  {| has_file_version := false; file_version := 0 |}.
Definition FileCrypt_default : FileCrypt :=
  {| is_encrypted := false; crypt_version := 0; crypt_flags := 0; lg2_count := 0;
     salt := zeros 16; init_v := zeros 16; has_psw_check := false;
     psw_check := zeros 8; psw_check_csum := zeros 4 |}.
Definition Redir_default : Redir :=
  {| redir_type := 0; redir_dir_target := false; redir_target := [] |}.

Definition FileBlock_default : FileBlock :=
  {| fixed := FileFixed_default; hash := FileHash_default; htimes := HTimes_default;
     owner := Owner_default; version := FileVersion_default; crypt := FileCrypt_default;
     redir := Redir_default; sub_data := []; xattrs := []; unknown_extras := [] |}.

(** Assignment to one group of an existing block. *)
Definition set_hash (x : FileHash) (b : FileBlock) : FileBlock :=
  Build_FileBlock (fixed b) x (htimes b) (owner b) (version b) (crypt b) (redir b)
    (sub_data b) (xattrs b) (unknown_extras b).
Definition set_htimes (x : HTimes) (b : FileBlock) : FileBlock :=
  Build_FileBlock (fixed b) (hash b) x (owner b) (version b) (crypt b) (redir b)
    (sub_data b) (xattrs b) (unknown_extras b).
Definition set_owner (x : Owner) (b : FileBlock) : FileBlock :=
  Build_FileBlock (fixed b) (hash b) (htimes b) x (version b) (crypt b) (redir b)
    (sub_data b) (xattrs b) (unknown_extras b).
Definition set_version (x : FileVersion) (b : FileBlock) : FileBlock :=
  Build_FileBlock (fixed b) (hash b) (htimes b) (owner b) x (crypt b) (redir b)
    (sub_data b) (xattrs b) (unknown_extras b).
Definition set_crypt (x : FileCrypt) (b : FileBlock) : FileBlock :=
  Build_FileBlock (fixed b) (hash b) (htimes b) (owner b) (version b) x (redir b)
    (sub_data b) (xattrs b) (unknown_extras b).
Definition set_redir (x : Redir) (b : FileBlock) : FileBlock :=
  Build_FileBlock (fixed b) (hash b) (htimes b) (owner b) (version b) (crypt b) x
    (sub_data b) (xattrs b) (unknown_extras b).
Definition set_sub_data (x : list Z) (b : FileBlock) : FileBlock :=
  Build_FileBlock (fixed b) (hash b) (htimes b) (owner b) (version b) (crypt b) (redir b)
    x (xattrs b) (unknown_extras b).
Definition add_xattrs (x : list FileXattr) (b : FileBlock) : FileBlock :=
  Build_FileBlock (fixed b) (hash b) (htimes b) (owner b) (version b) (crypt b) (redir b)
    (sub_data b) (xattrs b ++ x) (unknown_extras b).
Definition add_unknown (x : UnknownExtra) (b : FileBlock) : FileBlock :=
  Build_FileBlock (fixed b) (hash b) (htimes b) (owner b) (version b) (crypt b) (redir b)
    (sub_data b) (xattrs b) (unknown_extras b ++ [x]).

(** ** Encryption and end-of-archive headers *)

Record CryptBlock := {
  cb_version : Z;
  cb_enc_flags : Z;
  cb_lg2_count : Z;
  cb_salt : list Z;
  cb_has_psw_check : bool;
  cb_psw_check : list Z;
  cb_psw_check_csum : list Z
}.

Definition CryptBlock_default : CryptBlock :=
  {| cb_version := 0; cb_enc_flags := 0; cb_lg2_count := 0; cb_salt := zeros 16;
     cb_has_psw_check := false; cb_psw_check := zeros 8; cb_psw_check_csum := zeros 4 |}.

Record EndArcBlock := { end_flags : Z }.

Definition EndArcBlock_default : EndArcBlock := {| end_flags := 0 |}.

(** ** The ranges of the C++ field types *)

Definition is_u32 (z : Z) : Prop := 0 <= z < 2 ^ 32.
Definition is_u64 (z : Z) : Prop := 0 <= z < 2 ^ 64.
Definition is_i64 (z : Z) : Prop := - 2 ^ 63 <= z < 2 ^ 63.
Definition byte_array (n : Z) (l : list Z) : Prop := zlen l = n /\ bytes l.

Record MainBlock_ok (b : MainBlock) : Prop := {
  arc_flags_ok : is_u64 (arc_flags b);
  vol_number_ok : is_u64 (vol_number b);
  locator_qo_ok : is_i64 (locator_qo_offset b);
  locator_rr_ok : is_i64 (locator_rr_offset b);
  metadata_name_ok : bytes (metadata_name b);
  metadata_ctime_ok : is_u64 (metadata_ctime b)
}.

Record FileFixed_ok (b : FileFixed) : Prop := {
  service_type_ok : bytes (service_type b);
  file_flags_ok : is_u64 (file_flags b);
  unp_size_ok : is_u64 (unp_size b);
  pack_size_ok : is_i64 (pack_size b);
  attributes_ok : is_u64 (attributes b);
  data_crc32_ok : is_u32 (data_crc32 b);
  utime_unix_ok : is_u32 (utime_unix b);
  method_ok : is_u32 (method b);
  win_size_ok : is_u64 (win_size b);
  unp_ver_ok : is_u32 (unp_ver b);
  host_os_ok : is_u32 (host_os b);
  file_name_ok : bytes (file_name b)
}.

Record Stamp_ok (s : Stamp) : Prop := {
  st_win_ok : is_u64 (st_win s);
  st_unix_ok : is_u32 (st_unix s);
  st_ns_ok : is_u32 (st_ns s)
}.

Record HTimes_ok (t : HTimes) : Prop := {
  mtime_ok : Stamp_ok (mtime t);
  ctime_ok : Stamp_ok (ctime t);
  atime_ok : Stamp_ok (atime t)
}.

Record Owner_ok (o : Owner) : Prop := {
  owner_user_ok : bytes (owner_user o);
  owner_group_ok : bytes (owner_group o);
  owner_uid_ok : is_u64 (owner_uid o);
  owner_gid_ok : is_u64 (owner_gid o)
}.

Record FileCrypt_ok (c : FileCrypt) : Prop := {
  crypt_version_ok : is_u32 (crypt_version c);
  crypt_flags_ok : is_u32 (crypt_flags c);
  lg2_count_ok : is_byte (lg2_count c);
  salt_ok : byte_array 16 (salt c);
  init_v_ok : byte_array 16 (init_v c);
  psw_check_ok : byte_array 8 (psw_check c);
  psw_check_csum_ok : byte_array 4 (psw_check_csum c)
}.

Record Redir_ok (r : Redir) : Prop := {
  redir_type_ok : is_byte (redir_type r);
  redir_target_ok : bytes (redir_target r)
}.

Definition Xattr_ok (x : FileXattr) : Prop := bytes (xa_name x) /\ bytes (xa_value x).
Definition Unknown_ok (u : UnknownExtra) : Prop := is_byte (ue_type u) /\ bytes (ue_raw u).

Record FileBlock_ok (b : FileBlock) : Prop := {
  fixed_ok : FileFixed_ok (fixed b);
  hash_ok : byte_array 32 (blake2sp (hash b));
  htimes_ok : HTimes_ok (htimes b);
  owner_ok : Owner_ok (owner b);
  version_ok : is_u64 (file_version (version b));
  crypt_ok : FileCrypt_ok (crypt b);
  redir_ok : Redir_ok (redir b);
  sub_data_ok : bytes (sub_data b);
  xattrs_ok : Forall Xattr_ok (xattrs b);
  unknown_ok : Forall Unknown_ok (unknown_extras b)
}.

Record CryptBlock_ok (b : CryptBlock) : Prop := {
  cb_version_ok : is_u32 (cb_version b);
  cb_enc_flags_ok : is_u32 (cb_enc_flags b);
  cb_lg2_count_ok : is_byte (cb_lg2_count b);
  cb_salt_ok : byte_array 16 (cb_salt b);
  cb_psw_check_ok : byte_array 8 (cb_psw_check b);
  cb_psw_check_csum_ok : byte_array 4 (cb_psw_check_csum b)
}.

(** ** The defaults are in range, and the groups can be replaced one by one *)

Lemma is_u64_0 : is_u64 0.
Proof. unfold is_u64. lia. Qed.

Lemma is_u32_0 : is_u32 0.
Proof. unfold is_u32. lia. Qed.

Lemma is_byte_0 : is_byte 0.
Proof. unfold is_byte. lia. Qed.

Lemma is_i64_m1 : is_i64 (-1).
Proof. unfold is_i64. lia. Qed.

Lemma byte_array_zeros n k : k = Z.of_nat n -> byte_array k (zeros n).
Proof.
  intros ->. split; [apply zlen_replicate|]. apply Forall_replicate. apply is_byte_0.
Qed.

#[export] Hint Resolve is_u64_0 is_u32_0 is_byte_0 is_i64_m1 byte_array_zeros : orar.
#[export] Hint Constructors MainBlock_ok FileFixed_ok Stamp_ok HTimes_ok Owner_ok
  FileCrypt_ok Redir_ok FileBlock_ok CryptBlock_ok : orar.

Lemma Stamp_default_ok : Stamp_ok Stamp_default.
Proof. split; simpl; auto with orar. Qed.

#[export] Hint Resolve Stamp_default_ok : orar.

Lemma MainBlock_default_ok : MainBlock_ok MainBlock_default.
Proof. split; simpl; auto with orar. Qed.

Lemma CryptBlock_default_ok : CryptBlock_ok CryptBlock_default.
Proof. split; simpl; auto with orar. Qed.

(** A block whose fixed part is in range and whose other groups still have
    their initial values. *)
Definition file_block_of (f : FileFixed) : FileBlock :=
  {| fixed := f; hash := FileHash_default; htimes := HTimes_default;
     owner := Owner_default; version := FileVersion_default; crypt := FileCrypt_default;
     redir := Redir_default; sub_data := []; xattrs := []; unknown_extras := [] |}.

Lemma file_block_of_ok f : FileFixed_ok f -> FileBlock_ok (file_block_of f).
Proof.
  intros H. split; simpl; auto with orar; split; simpl; auto with orar.
Qed.

Section setters.
Context (b : FileBlock) (Hb : FileBlock_ok b).

Lemma set_hash_ok x : byte_array 32 (blake2sp x) -> FileBlock_ok (set_hash x b).
Proof using Hb. destruct Hb. by split. Qed.
Lemma set_htimes_ok x : HTimes_ok x -> FileBlock_ok (set_htimes x b).
Proof using Hb. destruct Hb. by split. Qed.
Lemma set_owner_ok x : Owner_ok x -> FileBlock_ok (set_owner x b).
Proof using Hb. destruct Hb. by split. Qed.
Lemma set_version_ok x : is_u64 (file_version x) -> FileBlock_ok (set_version x b).
Proof using Hb. destruct Hb. by split. Qed.
Lemma set_crypt_ok x : FileCrypt_ok x -> FileBlock_ok (set_crypt x b).
Proof using Hb. destruct Hb. by split. Qed.
Lemma set_redir_ok x : Redir_ok x -> FileBlock_ok (set_redir x b).
Proof using Hb. destruct Hb. by split. Qed.
Lemma set_sub_data_ok x : bytes x -> FileBlock_ok (set_sub_data x b).
Proof using Hb. destruct Hb. by split. Qed.
Lemma add_xattrs_ok x : Forall Xattr_ok x -> FileBlock_ok (add_xattrs x b).
Proof using Hb. intros Hx. destruct Hb. split; try done. by apply Forall_app. Qed.
Lemma add_unknown_ok x : Unknown_ok x -> FileBlock_ok (add_unknown x b).
Proof using Hb. intros Hx. destruct Hb. split; try done. apply Forall_app_2; auto. Qed.
End setters.

#[export] Hint Resolve set_hash_ok set_htimes_ok set_owner_ok set_version_ok set_crypt_ok
  set_redir_ok set_sub_data_ok add_xattrs_ok add_unknown_ok file_block_of_ok : orar.
