(* ===== verification/HeaderReader.v ===== *)
(** Reading and parsing header blocks: [src/format/header_reader.cpp].

    [parse_block_fields], the two raw readers (stream and memory), and the
    typed parsers of the main, file/service, encryption and end headers.
    Offsets are [size_t] ([+s], [-s] wrap at 2^64); a read outside the body is
    [Fault]; [Fail] is [return false], whose partially filled out-parameter no
    caller inspects.  [extra_loop] is the record loop the main and the file
    parser share, with the per-record code as an argument; its fuel is the
    body length, and every iteration consumes at least two bytes.

    The decrypting branch of [read_block_raw] (an active [HeaderCryptReader])
    is not part of this file. *)

From stdpp Require Import base tactics list numbers gmap.
From Stdlib Require Import ZArith Lia.
From S2P Require Import Prelude Bytes Vint Crc Source Headers.

Local Open Scope Z_scope.

(** ** Field access *)

(** [read_vint(body + offset, lim - offset, v, n)]: the value and the offset
    behind it, or [None] when it returns [false]. *)
Definition try_vint (body : list Z) (offset lim : Z) : res (option (Z * Z)) :=
  '(ok, v, n) ← read_vint body offset (lim -s offset);
  mret (if (ok : bool) then Some (v, offset +s n) else None).

(** [if (!read_vint(...)) return false; offset += read_bytes;] *)
Definition vint_field (body : list Z) (offset lim : Z) : res (Z * Z) :=
  r ← try_vint body offset lim;
  match r with Some p => mret p | None => Fail end.

(** A field present only when a flag says so; [dflt] otherwise. *)
Definition vint_field_if (c : bool) (body : list Z) (offset lim dflt : Z) : res (Z * Z) :=
  if c then vint_field body offset lim else mret (dflt, offset).

(** [if (offset + 4 > size) return false; v = read_le32(body + offset);] *)
Definition le32_field_if (c : bool) (body : list Z) (offset size : Z) : res (Z * Z) :=
  if c then
    if offset +s 4 >? size then Fail
    else v ← read_le32 body offset; mret (v, offset +s 4)
  else mret (0, offset).

(** ** Raw blocks *)

Definition MAX_BODY_SIZE : Z := 2 * 1024 * 1024.

Definition parse_block_fields (body : list Z) : res (Z * Z * Z) :=
  let size := zlen body in
  '(out_type, offset) ← vint_field body 0 size;
  '(out_flags, offset) ← vint_field body offset size;
  '(_, offset) ← vint_field_if (has_flag out_flags HFL_EXTRA) body offset size 0;
  '(out_data_size, _) ← vint_field_if (has_flag out_flags HFL_DATA) body offset size 0;
  mret (out_type, out_flags, out_data_size).

Inductive block_result :=
| BlockOk (type flags : Z) (body : list Z) (data_size : Z)
| BlockEof
| BlockError
| BlockCrcMismatch.

(** [parse_block_fields(...) ? Ok : Error]. *)
Definition finish_block (body : list Z) : res block_result :=
  match parse_block_fields body with
  | Ok (ty, fl, ds) => Ok (BlockOk ty fl body ds)
  | Fail => Ok BlockError
  | Fault => Fault
  | Fuel => Fuel
  end.

(** The checksum over the size vint and the body. *)
Definition header_crc (size_vint body : list Z) : Z :=
  Crc32_get (Crc32_update 0 body (Crc32_update 0 size_vint Crc32_init)).

(** [for (i < got) if (!(b[i] & 0x80)) { vint_len = i + 1; break; }] *)
Fixpoint size_vint_len (l : list Z) (i : Z) : Z :=
  match l with
  | [] => 0
  | b :: l' => if Z.land b 0x80 =? 0 then i + 1 else size_vint_len l' (i + 1)
  end.

Section stream.
Context {S : Type} `{ReadSource S}.

Definition read_block_raw (src : S) : res (block_result * S) :=
  let '(crc_buf, src) := src_read src 4 in
  if zlen crc_buf =? 0 then mret (BlockEof, src)
  else if negb (zlen crc_buf =? 4) then mret (BlockError, src)
  else
    expected_crc ← read_le32 crc_buf 0;
    let '(size_vint_bytes, src) := src_read src 10 in
    let got := zlen size_vint_bytes in
    if got =? 0 then mret (BlockError, src)
    else
      let vint_len := size_vint_len size_vint_bytes 0 in
      if vint_len =? 0 then mret (BlockError, src)
      else
        let '(seek_ok, src) :=
          if got >? vint_len then src_seek src (vint_len - got) Current else (true, src) in
        if negb seek_ok then mret (BlockError, src)
        else
          '(ok, body_size, _) ← read_vint size_vint_bytes 0 vint_len;
          if negb ok then mret (BlockError, src)
          else if body_size >? MAX_BODY_SIZE then mret (BlockError, src)
          else
            let '(out_body, src) := src_read src body_size in
            if negb (zlen out_body =? body_size) then mret (BlockError, src)
            else if negb (header_crc (take (Z.to_nat vint_len) size_vint_bytes) out_body =? expected_crc)
            then mret (BlockCrcMismatch, src)
            else r ← finish_block out_body; mret (r, src).
End stream.

(** The result carries [cur_offset] as the caller sees it afterwards. *)
Definition read_block_raw_mem (data : list Z) (cur_offset : Z) : res (block_result * Z) :=
  let size := zlen data in
  if cur_offset +s 4 >? size then mret (BlockError, cur_offset)
  else
    expected_crc ← read_le32 data cur_offset;
    let cur_offset := cur_offset +s 4 in
    '(ok, body_size, read_bytes) ← read_vint data cur_offset (size -s cur_offset);
    if negb ok then mret (BlockError, cur_offset)
    else if body_size >? MAX_BODY_SIZE then mret (BlockError, cur_offset)
    else
      size_vint ← slice data cur_offset read_bytes;
      let cur_offset := cur_offset +s read_bytes in
      if cur_offset +s body_size >? size then mret (BlockError, cur_offset)
      else
        out_body ← slice data cur_offset body_size;
        if negb (header_crc size_vint out_body =? expected_crc)
        then mret (BlockCrcMismatch, cur_offset)
        else
          r ← finish_block out_body;
          mret (r, cur_offset +s body_size).

(** ** The extra area *)

(** How a record's code ends: [continue], or falling to the bottom of the loop. *)
Inductive flow := Continue | Next.

Section extra.
Context {A : Type}.

(** [record body offset rec_end extra_end old_offset rec_type rec_size block]:
    the code of one record, [offset] behind its type byte.  It may move
    [rec_end] (the one-byte fold of a service sub-data record). *)
Context (record : list Z -> Z -> Z -> Z -> Z -> Z -> Z -> A -> res (flow * A * Z)).

Definition record_end (offset extra_end rec_size : Z) : Z :=
  if rec_size <=? extra_end -s offset then offset +s rec_size else extra_end.

Fixpoint extra_loop (fuel : nat) (body : list Z) (offset extra_end : Z) (block : A) : res A :=
  match fuel with
  | O => Fuel
  | S fuel' =>
      if offset <? extra_end then
        let old_offset := offset in
        r ← try_vint body offset extra_end;
        match r with
        | None => mret block
        | Some (rec_size, offset) =>
            if (offset >=? extra_end) || (rec_size <? 1) then mret block
            else
              let rec_end := record_end offset extra_end rec_size in
              rec_type ← byte_at body offset;
              '(fl, block, rec_end) ←
                record body (offset +s 1) rec_end extra_end old_offset rec_type rec_size block;
              match fl with
              | Continue => extra_loop fuel' body rec_end extra_end block
              | Next =>
                  if rec_end <=? old_offset then Fail
                  else extra_loop fuel' body rec_end extra_end block
              end
        end
      else mret block
  end.

(** [if (flags & HFL_EXTRA && extra_size > 0) {...}] behind the fixed fields,
    which end at [offset]. *)
Definition extra_area (body : list Z) (flags extra_size offset : Z) (block : A) : res A :=
  let body_size := zlen body in
  if has_flag flags HFL_EXTRA && (extra_size >? 0) then
    if (offset >? body_size) || (extra_size >? body_size -s offset) then Fail
    else extra_loop (S (length body)) body (body_size -s extra_size) body_size block
  else mret block.
End extra.

(** ** Main header *)

Definition set_locator (qo rr : Z) (b : MainBlock) : MainBlock :=
  {| arc_flags := arc_flags b; vol_number := vol_number b; has_locator := true;
     locator_qo_offset := qo; locator_rr_offset := rr; has_metadata := has_metadata b;
     metadata_name := metadata_name b; metadata_ctime := metadata_ctime b;
     metadata_is_unix_time := metadata_is_unix_time b;
     metadata_is_nanoseconds := metadata_is_nanoseconds b |}.

Definition set_metadata (name : list Z) (time : Z) (is_unix is_ns : bool) (b : MainBlock) : MainBlock :=
  {| arc_flags := arc_flags b; vol_number := vol_number b; has_locator := has_locator b;
     locator_qo_offset := locator_qo_offset b; locator_rr_offset := locator_rr_offset b;
     has_metadata := true; metadata_name := name; metadata_ctime := time;
     metadata_is_unix_time := is_unix; metadata_is_nanoseconds := is_ns |}.

(** One locator offset: 0 and values above [INT64_MAX] mean absent. *)
Definition locator_offset (c : bool) (body : list Z) (offset rec_end cur : Z) : res (Z * Z) :=
  if c then
    r ← try_vint body offset rec_end;
    mret match r with
    | Some (off, offset) =>
        (if negb (off =? 0) && (off <=? INT64_MAX) then off else -1, offset)
    | None => (cur, offset)
    end
  else mret (cur, offset).

Definition locator_record (body : list Z) (offset rec_end : Z) (b : MainBlock) : res MainBlock :=
  r ← try_vint body offset rec_end;
  match r with
  | None => mret (set_locator (locator_qo_offset b) (locator_rr_offset b) b)
  | Some (loc_flags, offset) =>
      '(qo, offset) ← locator_offset (has_flag loc_flags 0x01) body offset rec_end (locator_qo_offset b);
      '(rr, _) ← locator_offset (has_flag loc_flags 0x02) body offset rec_end (locator_rr_offset b);
      mret (set_locator qo rr b)
  end.

(** [metadata_name.resize(find('\0'))]. *)
Fixpoint until_nul (l : list Z) : list Z :=
  match l with [] => [] | b :: l' => if b =? 0 then [] else b :: until_nul l' end.

Definition metadata_name_field (c : bool) (body : list Z) (cur rec_end : Z) (name : list Z)
  : res (list Z * Z) :=
  if c then
    r ← try_vint body cur rec_end;
    match r with
    | None => mret (name, cur)
    | Some (name_len, cur) =>
        if name_len <=? rec_end -s cur then
          s ← slice body cur name_len; mret (until_nul s, cur +s name_len)
        else mret (name, cur)
    end
  else mret (name, cur).

Definition metadata_time_field (c is_unix is_ns : bool) (body : list Z) (cur rec_end time : Z) : res Z :=
  if c then
    if is_unix then
      if is_ns && (cur +s 8 <=? rec_end) then read_le64 body cur
      else if negb is_ns && (cur +s 4 <=? rec_end) then read_le32 body cur
      else mret time
    else if cur +s 8 <=? rec_end then read_le64 body cur
    else mret time
  else mret time.

Definition metadata_record (body : list Z) (offset rec_end : Z) (b : MainBlock) : res MainBlock :=
  r ← try_vint body offset rec_end;
  match r with
  | None => mret b
  | Some (meta_flags, cur) =>
      let is_unix := has_flag meta_flags 0x04 in
      let is_ns := has_flag meta_flags 0x08 in
      '(name, cur) ← metadata_name_field (has_flag meta_flags 0x01) body cur rec_end (metadata_name b);
      time ← metadata_time_field (has_flag meta_flags 0x02) is_unix is_ns body cur rec_end (metadata_ctime b);
      mret (set_metadata name time is_unix is_ns b)
  end.

Definition main_record (body : list Z) (offset rec_end extra_end old_offset rec_type rec_size : Z)
    (b : MainBlock) : res (flow * MainBlock * Z) :=
  b ← (if (rec_type =? MHEXTRA_LOCATOR) && (rec_size >=? 2) then locator_record body offset rec_end b
       else if rec_type =? MHEXTRA_METADATA then metadata_record body offset rec_end b
       else mret b);
  mret (Next, b, rec_end).

Definition parse_main_header (body : list Z) : res MainBlock :=
  let body_size := zlen body in
  '(type, offset) ← vint_field body 0 body_size;
  _ ← require (type =? HEAD_MAIN);
  '(flags, offset) ← vint_field body offset body_size;
  '(extra_size, offset) ← vint_field_if (has_flag flags HFL_EXTRA) body offset body_size 0;
  '(aflags, offset) ← vint_field body offset body_size;
  '(vol, offset) ← vint_field_if (has_flag aflags MHFL_VOLNUMBER) body offset body_size 0;
  extra_area main_record body flags extra_size offset
    {| arc_flags := aflags; vol_number := vol; has_locator := false;
       locator_qo_offset := -1; locator_rr_offset := -1; has_metadata := false;
       metadata_name := []; metadata_ctime := 0;
       metadata_is_unix_time := false; metadata_is_nanoseconds := false |}.

(** ** File and service headers: fixed fields *)

(** The dictionary window of a compression-information word; [..._MAX + 1] is
    the "too large" sentinel. *)
Definition decode_win_size (comp_info unp_ver method : Z) : Z :=
  if (unp_ver >? 1) || ((method =? 0) && (Z.land comp_info 0x7C00 =? 0)) then 0
  else
    let raw_dict_bits := Z.land (Z.shiftr comp_info 10) 0x1F in
    if (unp_ver =? 0) && (raw_dict_bits >? 15) then RAR_DICT_MAX_V0 + 1
    else if (unp_ver =? 1) && (raw_dict_bits >? 23) then RAR_DICT_MAX_V1 + 1
    else
      let base := u64 (Z.shiftl RAR_DICT_BASE raw_dict_bits) in
      if unp_ver =? 1 then
        let frac := Z.land (Z.shiftr comp_info 15) 0x1F in
        let win := u64 (base + u64 (base / 32 * frac)) in
        if win >? RAR_DICT_MAX_V1 then RAR_DICT_MAX_V1 + 1 else win
      else if base >? RAR_DICT_MAX_V0 then RAR_DICT_MAX_V0 + 1 else base.

(** [pack_size]: rejected above [INT64_MAX], -1 without a data area. *)
Definition pack_size_field (c : bool) (body : list Z) (offset size : Z) : res (Z * Z) :=
  if c then
    '(pack_sz, offset) ← vint_field body offset size;
    if pack_sz >? INT64_MAX then Fail else mret (pack_sz, offset)
  else mret (-1, offset).

Definition name_field (body : list Z) (offset size : Z) : res (list Z * Z) :=
  '(name_len, offset) ← vint_field body offset size;
  if name_len >? size -s offset then Fail
  else name ← slice body offset name_len; mret (name, offset +s name_len).

(** Everything before the extra area: the fields, the common flags, the extra
    size and the offset behind the name. *)
Definition parse_file_fixed (body : list Z) : res (FileFixed * Z * Z * Z) :=
  let body_size := zlen body in
  '(type, offset) ← vint_field body 0 body_size;
  if negb (type =? HEAD_FILE) && negb (type =? HEAD_SERVICE) then Fail
  else
    let is_service := type =? HEAD_SERVICE in
    '(flags, offset) ← vint_field body offset body_size;
    '(extra_size, offset) ← vint_field_if (has_flag flags HFL_EXTRA) body offset body_size 0;
    '(pack_size, offset) ← pack_size_field (has_flag flags HFL_DATA) body offset body_size;
    '(fflags, offset) ← vint_field body offset body_size;
    '(unp_size, offset) ← vint_field body offset body_size;
    '(attributes, offset) ← vint_field body offset body_size;
    '(utime, offset) ← le32_field_if (has_flag fflags FHFL_UTIME) body offset body_size;
    '(crc, offset) ← le32_field_if (has_flag fflags FHFL_CRC32) body offset body_size;
    '(comp_info, offset) ← vint_field body offset body_size;
    '(os, offset) ← vint_field body offset body_size;
    '(name, offset) ← name_field body offset body_size;
    let ver := u32 (Z.land comp_info 0x3F) in
    let meth := u32 (Z.land (Z.shiftr comp_info 7) 7) in
    mret ({| is_service := is_service;
             service_type := if is_service then name else [];
             file_flags := fflags;
             unp_size := unp_size;
             unp_unknown := has_flag fflags FHFL_UNPUNKNOWN;
             pack_size := pack_size;
             attributes := attributes;
             has_crc32 := has_flag fflags FHFL_CRC32;
             data_crc32 := crc;
             utime_unix := utime;
             method := meth;
             win_size := decode_win_size comp_info ver meth;
             is_solid := has_flag comp_info 0x40;
             unp_ver := ver;
             extra_dist := (ver =? 1) && negb (has_flag comp_info FCI_RAR5_COMPAT);
             host_os := u32 os;
             file_name := name |}, flags, extra_size, offset).

(** ** File extra records *)

Definition hash_record (body : list Z) (offset rec_end : Z) (b : FileBlock) : res FileBlock :=
  if rec_end -s offset >=? 33 then
    hash_type ← byte_at body offset;
    let offset := offset +s 1 in
    if hash_type =? 0 then
      d ← slice body offset 32;
      mret (set_hash {| has_blake2sp := true; blake2sp := d |} b)
    else mret b
  else mret b.

(** [offset >= rec_end || !read_vint(...)] fails the header. *)
Definition crypt_vint (body : list Z) (offset rec_end : Z) : res (Z * Z) :=
  if offset >=? rec_end then Fail else vint_field body offset rec_end.

Definition all_zero (l : list Z) : bool := forallb (fun x => x =? 0) l.

Definition crypt_record (body : list Z) (offset rec_end : Z) (b : FileBlock) : res FileBlock :=
  '(cver, offset) ← crypt_vint body offset rec_end;
  '(cflags, offset) ← crypt_vint body offset rec_end;
  let check := has_flag cflags 0x01 in
  let need := 1 + 16 + 16 + (if check then 8 + 4 else 0) in
  if rec_end -s offset <? need then Fail
  else
    lg2 ← byte_at body offset;
    let offset := offset +s 1 in
    salt ← slice body offset 16;
    let offset := offset +s 16 in
    iv ← slice body offset 16;
    let offset := offset +s 16 in
    '(has, psw, csum) ← (if check then
        psw ← slice body offset 8;
        csum ← slice body (offset +s 8) 4;
        mret (negb (all_zero psw), psw, csum)
      else mret (has_psw_check (crypt b), psw_check (crypt b), psw_check_csum (crypt b)));
    mret (set_crypt {| is_encrypted := true; crypt_version := u32 cver; crypt_flags := u32 cflags;
                       lg2_count := lg2; salt := salt; init_v := iv; has_psw_check := has;
                       psw_check := psw; psw_check_csum := csum |} b).

(** Is the record exactly [flags vint == 0][version vint]? *)
Definition version_probe (body : list Z) (offset rec_end : Z) : res (option Z) :=
  '(ok1, vflags, v1) ← read_vint body offset (rec_end -s offset);
  if ok1 && (vflags =? 0) && (offset +s v1 <=? rec_end) then
    '(ok2, vnum, v2) ← read_vint body (offset +s v1) ((rec_end -s offset) -s v1);
    if ok2 && (((offset +s v1) +s v2) =? rec_end) then mret (Some vnum) else mret None
  else mret None.

(** [continue]s leave the block as it was: the record is dropped. *)
Definition redir_record (body : list Z) (offset rec_end : Z) (b : FileBlock)
  : res (flow * FileBlock) :=
  v ← version_probe body offset rec_end;
  match v with
  | Some vnum =>
      mret (Continue, set_version {| has_file_version := true; file_version := vnum |} b)
  | None =>
      r1 ← try_vint body offset rec_end;
      match r1 with
      | None => mret (Continue, b)
      | Some (rtype, offset) =>
          r2 ← try_vint body offset rec_end;
          match r2 with
          | None => mret (Continue, b)
          | Some (rflags, offset) =>
              r3 ← try_vint body offset rec_end;
              match r3 with
              | None => mret (Continue, b)
              | Some (tlen, offset) =>
                  if tlen >=? 2048 then mret (Continue, b)
                  else if rec_end -s offset <? tlen then mret (Continue, b)
                  else
                    target ← slice body offset tlen;
                    mret (Next, set_redir {| redir_type := u8 rtype;
                                             redir_dir_target := has_flag rflags 0x01;
                                             redir_target := target |} b)
              end
          end
      end
  end.

(** Timestamps: assignment to the fields of one stamp. *)
Definition with_win (v : Z) (s : Stamp) : Stamp :=
  {| st_win := v; st_unix := st_unix s; st_ns := st_ns s; st_has_ns := st_has_ns s |}.
Definition with_unix (v : Z) (s : Stamp) : Stamp :=
  {| st_win := st_win s; st_unix := v; st_ns := st_ns s; st_has_ns := st_has_ns s |}.
Definition with_ns (v : Z) (s : Stamp) : Stamp :=
  {| st_win := st_win s; st_unix := st_unix s; st_ns := v; st_has_ns := true |}.
Definition no_ns (s : Stamp) : Stamp :=
  {| st_win := st_win s; st_unix := st_unix s; st_ns := st_ns s; st_has_ns := false |}.

(** [if (c && offset + 8 <= rec_end) { *_win = read_le64; offset += 8; }] *)
Definition stamp_win (c : bool) (body : list Z) (offset rec_end : Z) (s : Stamp) : res (Stamp * Z) :=
  if c && (offset +s 8 <=? rec_end) then
    v ← read_le64 body offset; mret (with_win v s, offset +s 8)
  else mret (s, offset).

Definition stamp_unix (c : bool) (body : list Z) (offset rec_end : Z) (s : Stamp) : res (Stamp * Z) :=
  if c && (offset +s 4 <=? rec_end) then
    v ← read_le32 body offset; mret (with_unix v s, offset +s 4)
  else mret (s, offset).

Definition stamp (c is_unix : bool) : list Z -> Z -> Z -> Stamp -> res (Stamp * Z) :=
  if is_unix then stamp_unix c else stamp_win c.

Definition stamp_ns (c : bool) (body : list Z) (offset rec_end : Z) (s : Stamp) : res (Stamp * Z) :=
  if c && (offset +s 4 <=? rec_end) then
    raw ← read_le32 body offset;
    let raw := Z.land raw 0x3FFFFFFF in
    mret (if raw <? 1000000000 then with_ns raw s else s, offset +s 4)
  else mret (s, offset).

Definition htime_is_legacy (tflags offset rec_end : Z) : bool :=
  (tflags <=? 0x07) && has_flag tflags 0x01 && negb (has_flag tflags 0x02) &&
  (((rec_end -s offset) mod 8) =? 0) && ((rec_end -s offset) >? 0).

Definition htime_legacy (tflags : Z) (body : list Z) (offset rec_end : Z) (t : HTimes) : res HTimes :=
  let c := has_flag tflags 0x01 in
  let m0 := if c && (offset +s 8 <=? rec_end) then no_ns (mtime t) else mtime t in
  '(m, offset) ← stamp_win c body offset rec_end m0;
  '(c, offset) ← stamp_win (has_flag tflags 0x02) body offset rec_end (ctime t);
  '(a, _) ← stamp_win (has_flag tflags 0x04) body offset rec_end (atime t);
  mret {| htime_is_unix := false; mtime := m; ctime := c; atime := a |}.

Definition htime_spec (tflags : Z) (body : list Z) (offset rec_end : Z) (t : HTimes) : res HTimes :=
  let is_unix := has_flag tflags 0x01 in
  let has_mtime := has_flag tflags 0x02 in
  let has_ctime := has_flag tflags 0x04 in
  let has_atime := has_flag tflags 0x08 in
  let has_ns := has_flag tflags 0x10 in
  '(m, offset) ← stamp has_mtime is_unix body offset rec_end (mtime t);
  '(c, offset) ← stamp has_ctime is_unix body offset rec_end (ctime t);
  '(a, offset) ← stamp has_atime is_unix body offset rec_end (atime t);
  '(m, offset) ← stamp_ns (has_ns && is_unix && has_mtime) body offset rec_end m;
  '(c, offset) ← stamp_ns (has_ns && is_unix && has_ctime) body offset rec_end c;
  '(a, _) ← stamp_ns (has_ns && is_unix && has_atime) body offset rec_end a;
  mret {| htime_is_unix := is_unix; mtime := m; ctime := c; atime := a |}.

Definition htime_record (body : list Z) (offset rec_end : Z) (b : FileBlock)
  : res (flow * FileBlock) :=
  r ← try_vint body offset rec_end;
  match r with
  | None => mret (Continue, b)
  | Some (tflags, offset) =>
      t ← (if htime_is_legacy tflags offset rec_end
           then htime_legacy tflags body offset rec_end (htimes b)
           else htime_spec tflags body offset rec_end (htimes b));
      mret (Next, set_htimes t b)
  end.

(** The sub-data and, when exactly one byte follows the record in the extra
    area, that byte folded in and [rec_end] moved behind it. *)
Definition subdata_record (body : list Z) (offset rec_end extra_end : Z) (b : FileBlock)
  : res (FileBlock * Z) :=
  if rec_end >=? offset then
    d ← slice body offset (rec_end - offset);
    if (rec_end <? extra_end) && ((extra_end -s rec_end) =? 1) then
      x ← byte_at body rec_end;
      mret (set_sub_data (d ++ [x]) b, extra_end)
    else mret (set_sub_data d b, rec_end)
  else mret (b, rec_end).

(** [rec_end >= off ? rec_end - off : 0]. *)
Definition remaining (rec_end off : Z) : Z := if rec_end >=? off then rec_end -s off else 0.

(** One step of the owner-name probe: the offset behind the name, or [None]
    when its length is malformed. *)
Definition owner_name_probe (c : bool) (body : list Z) (probe_off rec_end : Z) : res (option Z) :=
  if c then
    let rem := remaining rec_end probe_off in
    '(ok, probe_len, probe_rr) ← read_vint body probe_off rem;
    if negb ok || (probe_len >? 255) || ((probe_rr +s probe_len) >? rem) then mret None
    else mret (Some (probe_off +s (probe_rr +s probe_len)))
  else mret (Some probe_off).

Definition owner_probe (oflags : Z) (body : list Z) (offset rec_end : Z) : res bool :=
  r ← owner_name_probe (has_flag oflags 0x0001) body offset rec_end;
  match r with
  | None => mret false
  | Some probe_off =>
      r ← owner_name_probe (has_flag oflags 0x0002) body probe_off rec_end;
      mret match r with Some _ => true | None => false end
  end.

Definition owner_name (c : bool) (body : list Z) (offset rec_end : Z) (cur : list Z)
  : res (list Z * Z) :=
  if c then
    r ← try_vint body offset rec_end;
    match r with
    | None => mret (cur, offset)
    | Some (len, offset) =>
        let take := Z.min len (remaining rec_end offset) in
        s ← slice body offset take;
        mret (s, offset +s take)
    end
  else mret (cur, offset).

Definition owner_id (c : bool) (body : list Z) (offset rec_end : Z) (cur : Z) (has : bool)
  : res (Z * bool * Z) :=
  if c then
    r ← try_vint body offset rec_end;
    mret match r with
    | None => (cur, has, offset)
    | Some (id, offset) => (id, true, offset)
    end
  else mret (cur, has, offset).

Definition owner_record (body : list Z) (offset rec_end : Z) (b : FileBlock)
  : res (flow * FileBlock) :=
  r ← try_vint body offset rec_end;
  match r with
  | None => mret (Continue, b)
  | Some (oflags, offset) =>
      name_ok ← owner_probe oflags body offset rec_end;
      let o := owner b in
      if negb name_ok then
        mret (Continue, set_owner
          {| has_owner := false; owner_user := owner_user o; owner_group := owner_group o;
             owner_uid := owner_uid o; owner_gid := owner_gid o;
             has_owner_uid := has_owner_uid o; has_owner_gid := has_owner_gid o |} b)
      else
        '(user, offset) ← owner_name (has_flag oflags 0x0001) body offset rec_end (owner_user o);
        '(group, offset) ← owner_name (has_flag oflags 0x0002) body offset rec_end (owner_group o);
        '(uid, has_uid, offset) ←
          owner_id (has_flag oflags 0x0004) body offset rec_end (owner_uid o) (has_owner_uid o);
        '(gid, has_gid, _) ←
          owner_id (has_flag oflags 0x0008) body offset rec_end (owner_gid o) (has_owner_gid o);
        mret (Next, set_owner
          {| has_owner := true; owner_user := user; owner_group := group; owner_uid := uid;
             owner_gid := gid; has_owner_uid := has_uid; has_owner_gid := has_gid |} b)
  end.

(** *** Extended attributes: all or nothing *)

(** One entry: its attribute and the offset behind it; [None] is [ok = false]. *)
Definition xattr_entry (body : list Z) (xoff rec_end : Z) : res (option (FileXattr * Z)) :=
  r ← try_vint body xoff rec_end;
  match r with
  | None => mret None
  | Some (nlen, xoff) =>
      if (nlen =? 0) || (nlen >? FHEXTRA_XATTR_NAME_MAX) then mret None
      else if nlen >? rec_end -s xoff then mret None
      else
        name ← slice body xoff nlen;
        let xoff := xoff +s nlen in
        r ← try_vint body xoff rec_end;
        match r with
        | None => mret None
        | Some (vlen, xoff) =>
            if vlen >? FHEXTRA_XATTR_VALUE_MAX then mret None
            else if vlen >? rec_end -s xoff then mret None
            else
              value ← slice body xoff vlen;
              mret (Some ({| xa_name := name; xa_value := value |}, xoff +s vlen))
        end
  end.

(** [for (i = 0; ok && i < xcount; ++i)], [left] entries to go. *)
Fixpoint xattr_loop (left : nat) (body : list Z) (xoff rec_end : Z)
    (seen_names : gset (list Z)) (parsed : list FileXattr) : res (option (list FileXattr * Z)) :=
  match left with
  | O => mret (Some (parsed, xoff))
  | S left' =>
      r ← xattr_entry body xoff rec_end;
      match r with
      | None => mret None
      | Some (xa, xoff) =>
          if bool_decide (xa_name xa ∈ seen_names) then mret None
          else xattr_loop left' body xoff rec_end ({[ xa_name xa ]} ∪ seen_names) (parsed ++ [xa])
      end
  end.

Definition parse_xattrs (body : list Z) (offset rec_end : Z) : res (option (list FileXattr)) :=
  r ← try_vint body offset rec_end;
  match r with
  | None => mret None
  | Some (xflags, xoff) =>
      if negb (xflags =? 0) then mret None
      else
        r ← try_vint body xoff rec_end;
        match r with
        | None => mret None
        | Some (xcount, xoff) =>
            if xcount >? (rec_end -s xoff) / 3 then mret None
            else
              r ← xattr_loop (Z.to_nat xcount) body xoff rec_end ∅ [];
              match r with
              | None => mret None
              | Some (parsed, xoff) =>
                  mret (if xoff =? rec_end then Some parsed else None)
              end
        end
  end.

(** Captured verbatim: [body[old_offset, rec_end)]. *)
Definition unknown_record (body : list Z) (old_offset rec_end rec_type : Z) (b : FileBlock)
  : res FileBlock :=
  raw ← slice body old_offset (rec_end - old_offset);
  mret (add_unknown {| ue_type := rec_type; ue_raw := raw |} b).

Definition xattr_record (body : list Z) (offset rec_end old_offset rec_type : Z) (b : FileBlock)
  : res FileBlock :=
  r ← parse_xattrs body offset rec_end;
  match r with
  | Some parsed => mret (add_xattrs parsed b)
  | None => unknown_record body old_offset rec_end rec_type b
  end.

(** The dispatch on the record type. *)
Definition file_record (body : list Z) (offset rec_end extra_end old_offset rec_type rec_size : Z)
    (b : FileBlock) : res (flow * FileBlock * Z) :=
  if (rec_type =? FHEXTRA_HASH) && (rec_size >=? 34) then
    b ← hash_record body offset rec_end b; mret (Next, b, rec_end)
  else if rec_type =? FHEXTRA_CRYPT then
    b ← crypt_record body offset rec_end b; mret (Next, b, rec_end)
  else if (rec_type =? FHEXTRA_REDIR) || (rec_type =? 0x04) then
    '(fl, b) ← redir_record body offset rec_end b; mret (fl, b, rec_end)
  else if rec_type =? FHEXTRA_HTIME then
    '(fl, b) ← htime_record body offset rec_end b; mret (fl, b, rec_end)
  else if rec_type =? FHEXTRA_SUBDATA then
    '(b, rec_end) ← subdata_record body offset rec_end extra_end b; mret (Next, b, rec_end)
  else if rec_type =? FHEXTRA_OWNER then
    '(fl, b) ← owner_record body offset rec_end b; mret (fl, b, rec_end)
  else if rec_type =? FHEXTRA_XATTR then
    b ← xattr_record body offset rec_end old_offset rec_type b; mret (Next, b, rec_end)
  else
    b ← unknown_record body old_offset rec_end rec_type b; mret (Next, b, rec_end).

Definition parse_file_header (body : list Z) : res FileBlock :=
  '(f, flags, extra_size, offset) ← parse_file_fixed body;
  extra_area file_record body flags extra_size offset (file_block_of f).

(** ** Encryption and end headers *)

Definition parse_crypt_header (body : list Z) : res CryptBlock :=
  let body_size := zlen body in
  '(type, offset) ← vint_field body 0 body_size;
  _ ← require (type =? HEAD_CRYPT);
  '(_, offset) ← vint_field body offset body_size;
  '(cver, offset) ← vint_field body offset body_size;
  '(eflags, offset) ← vint_field body offset body_size;
  if offset >=? body_size then Fail
  else
    lg2 ← byte_at body offset;
    let offset := offset +s 1 in
    if offset +s 16 >? body_size then Fail
    else
      salt ← slice body offset 16;
      let offset := offset +s 16 in
      let check := has_flag (u32 eflags) 0x01 in
      if check && (offset +s 12 >? body_size) then Fail
      else
        '(psw, csum) ← (if check then
            psw ← slice body offset 8; csum ← slice body (offset +s 8) 4; mret (psw, csum)
          else mret (zeros 8, zeros 4));
        mret {| cb_version := u32 cver; cb_enc_flags := u32 eflags; cb_lg2_count := lg2;
                cb_salt := salt; cb_has_psw_check := check; cb_psw_check := psw;
                cb_psw_check_csum := csum |}.

(** [end_flags] receives whatever [read_vint] left in it: its result is
    ignored. *)
Definition parse_end_header (body : list Z) : res EndArcBlock :=
  let body_size := zlen body in
  '(type, offset) ← vint_field body 0 body_size;
  _ ← require (type =? HEAD_ENDARC);
  '(_, offset) ← vint_field body offset body_size;
  if offset <? body_size then
    '(_, fl, _) ← read_vint body offset (body_size -s offset);
    mret {| end_flags := fl |}
  else mret EndArcBlock_default.

(** ** No input makes the parsers read out of bounds

    [in_buf body off lim]: [off] is a cursor with the field limit [lim], both
    inside the body; no buffer is larger than half the address space. *)

Definition in_buf (body : list Z) (off lim : Z) : Prop :=
  bytes body /\ 0 <= off <= lim /\ lim <= zlen body /\ zlen body < 2 ^ 63.

(** The cursor stays inside the limit. *)
Definition moves (off lim : Z) (off' : Z) : Prop := off <= off' <= lim.

Lemma in_buf_move body off lim off' : in_buf body off lim -> moves off lim off' -> in_buf body off' lim.
Proof. unfold in_buf, moves. intros (? & ? & ? & ?) ?. split_and!; try done; lia. Qed.

Lemma in_buf_bytes body off lim : in_buf body off lim -> bytes body.
Proof. by intros []. Qed.

#[export] Hint Resolve in_buf_bytes : orar.

(** Linear arithmetic with cursors unfolded and [size_t] operations that
    provably do not wrap replaced by plain ones. *)
Ltac buf_inv :=
  repeat match goal with
  | H : in_buf _ _ _ |- _ => destruct H as (? & ? & ? & ?)
  | H : moves _ _ _ |- _ => unfold moves in H
  end.
Ltac buf_lia := buf_inv; unfold moves; size_simpl; zlen_lia.

Section parts.
Context {body : list Z} {off lim : Z}.
Local Abbreviation buf := (in_buf body off lim).

Lemma wp_try_vint : buf ->
  wp (try_vint body off lim)
    (fun r => match r with Some (v, o) => is_u64 v /\ moves (off + 1) lim o | None => True end).
Proof.
  intros H. pose proof H as (H1 & H2 & H3 & H4). unfold try_vint. apply wp_bind.
  apply wp_read_vint; [done|lia|buf_lia..|].
  intros ok v n Hv Hn Hok. destruct ok; [|done]. specialize (Hok eq_refl).
  apply wp_ret. split; [done|]. rewrite size_sub_small in Hn by lia.
  rewrite size_add_small by lia. buf_lia.
Qed.

Lemma wp_vint_field : buf ->
  wp (vint_field body off lim) (fun '(v, o) => is_u64 v /\ moves (off + 1) lim o).
Proof.
  intros H. unfold vint_field. eapply wp_bind_mono; [by apply wp_try_vint|].
  intros [[v o]|] Hr; [by apply wp_ret|done].
Qed.

Lemma wp_vint_field_if c d :
  buf ->
  is_u64 d -> wp (vint_field_if c body off lim d) (fun '(v, o) => is_u64 v /\ moves off lim o).
Proof.
  intros H Hd. unfold vint_field_if. destruct c.
  - eapply wp_mono; [by apply wp_vint_field|]. intros [v o]. unfold moves. intros [? ?].
    split; [done|lia].
  - apply wp_ret. split; [done|]. buf_lia.
Qed.

Lemma wp_slice_buf n :
  buf ->
  0 <= n -> off + n <= lim -> wp (slice body off n) (byte_array n).
Proof.
  intros H Hn Hl. pose proof H as (H1 & H2 & H3 & H4).
  apply wp_slice; [lia..|]. intros l Hz ->. split; [done|]. auto with orar.
Qed.

Lemma wp_byte_buf : buf -> off < lim -> wp (byte_at body off) is_byte.
Proof.
  intros H Hl. pose proof H as (H1 & H2 & H3 & H4).
  apply wp_byte_at; [lia|]. intros b Hb. by eapply bytes_lookup.
Qed.

Lemma read_le32_buf : buf -> off + 4 <= lim -> wp (read_le32 body off) is_u32.
Proof.
  intros H Hl. pose proof H as (H1 & H2 & H3 & H4).
  set (a := take 4 (view body off)).
  assert (La : zlen a = 4) by (apply (zlen_take 4); rewrite zlen_view; lia).
  rewrite (read_le32_view body off a (drop 4 (view body off))) by (done || lia || (symmetry; apply take_drop)).
  assert (Ha : bytes a) by (subst a; auto with orar).
  pose proof (le_val_range a Ha) as R. rewrite La in R. exact R.
Qed.

Lemma read_le64_buf : buf -> off + 8 <= lim -> wp (read_le64 body off) is_u64.
Proof.
  intros H Hl. pose proof H as (H1 & H2 & H3 & H4).
  set (a := take 8 (view body off)).
  assert (La : zlen a = 8) by (apply (zlen_take 8); rewrite zlen_view; lia).
  rewrite (read_le64_view body off a (drop 8 (view body off))) by (done || lia || (symmetry; apply take_drop)).
  assert (Ha : bytes a) by (subst a; auto with orar).
  pose proof (le_val_range a Ha) as R. rewrite La in R. exact R.
Qed.

Lemma wp_le32_field_if c :
  buf ->
  wp (le32_field_if c body off lim) (fun '(v, o) => is_u32 v /\ moves off lim o).
Proof.
  intros H. unfold le32_field_if. pose proof H as (H1 & H2 & H3 & H4). destruct c.
  - rewrite size_add_small, Z.gtb_ltb by lia. destruct (Z.ltb_spec lim (off + 4)); [done|].
    eapply wp_bind_mono; [by apply read_le32_buf|]. intros v Hv. apply wp_ret.
    split; [done|]. unfold moves. lia.
  - apply wp_ret. split; [apply is_u32_0|]. unfold moves. lia.
Qed.
End parts.

(** [wp_next L as p]: run one [<-] with the specification [L]. *)
Tactic Notation "wp_next" uconstr(L) :=
  eapply wp_bind_mono; [eapply L; eauto with orar|]; cbn beta.

Section extra_wp.
Context {A : Type} (P : A -> Prop).
Context (record : list Z -> Z -> Z -> Z -> Z -> Z -> Z -> A -> res (flow * A * Z)).
Context (body : list Z).
Context (record_wp : forall off rec_end extra_end old ty rs b,
  in_buf body off rec_end -> rec_end <= extra_end -> extra_end <= zlen body -> 0 <= old < off ->
  is_byte ty -> P b ->
  wp (record body off rec_end extra_end old ty rs b)
     (fun '(_, b', re') => P b' /\ rec_end <= re' <= extra_end)).

Lemma record_end_spec off extra_end rs :
  in_buf body off extra_end -> off < extra_end -> 1 <= rs < 2 ^ 64 ->
  off + 1 <= record_end off extra_end rs <= extra_end.
Proof.
  intros (H1 & H2 & H3 & H4) Hlt Hrs. unfold record_end. rewrite size_sub_small by lia.
  destruct (Z.leb_spec rs (extra_end - off)); [rewrite size_add_small; lia|lia].
Qed.

Lemma wp_extra_loop fuel offset extra_end b :
  in_buf body offset extra_end -> extra_end - offset < Z.of_nat fuel -> P b ->
  wp (extra_loop record fuel body offset extra_end b) P.
Proof using record_wp.
  revert offset b. induction fuel as [|fuel IH]; intros offset b Hb Hf HP.
  { buf_lia. }
  cbn [extra_loop]. destruct (Z.ltb_spec offset extra_end) as [Hlt|]; [|done].
  wp_next wp_try_vint. intros [[rs o]|]; [|by intros; apply wp_ret].
  intros [Hrs Ho].
  destruct (Z.geb_spec o extra_end) as [|Hoe]; [by apply wp_ret|].
  destruct (Z.ltb_spec rs 1) as [|Hrs1]; [by apply wp_ret|]. cbn [orb].
  assert (Hbo : in_buf body o extra_end) by (eapply in_buf_move; [done|]; unfold moves in *; lia).
  unfold is_u64 in Hrs. pose proof (record_end_spec o extra_end rs Hbo Hoe ltac:(lia)) as Hre.
  wp_next wp_byte_buf. intros ty Hty.
  assert (Hbr : in_buf body (o +s 1) (record_end o extra_end rs)).
  { buf_inv. rewrite size_add_small by lia. split_and!; try done; lia. }
  wp_next record_wp; [lia|by buf_inv|buf_inv; rewrite size_add_small; lia|].
  intros [[fl b'] re'] [HP' Hre'].
  assert (Hrec : wp (extra_loop record fuel body re' extra_end b') P).
  { apply IH; [|unfold moves in Ho; lia|done]. eapply in_buf_move; [done|].
    unfold moves in *; lia. }
  destruct fl; [done|]. destruct (Z.leb_spec re' offset); [done|done].
Qed.

Lemma wp_extra_area flags extra_size offset b :
  in_buf body offset (zlen body) -> is_u64 extra_size -> P b ->
  wp (extra_area record body flags extra_size offset b) P.
Proof using record_wp.
  intros Hb He HP. unfold extra_area. destruct (_ && _) eqn:E; [|by apply wp_ret].
  apply andb_true_iff in E as [_ E]. apply Z.gtb_lt in E.
  pose proof Hb as (H1 & H2 & H3 & H4). unfold is_u64 in He.
  rewrite !Z.gtb_ltb, (proj2 (Z.ltb_ge _ _)) by lia.
  rewrite size_sub_small by lia. cbn [orb].
  destruct (Z.ltb_spec (zlen body - offset) extra_size) as [|Hfit]; [done|].
  rewrite size_sub_small by lia. apply wp_extra_loop; [|unfold zlen in *; lia|done].
  split_and!; try done; lia.
Qed.
End extra_wp.

(** Assignments keep the ranges. *)
Lemma set_locator_ok qo rr b :
  is_i64 qo -> is_i64 rr -> MainBlock_ok b -> MainBlock_ok (set_locator qo rr b).
Proof. intros ? ? []. by split. Qed.

Lemma set_metadata_ok name time u n b :
  bytes name -> is_u64 time -> MainBlock_ok b -> MainBlock_ok (set_metadata name time u n b).
Proof. intros ? ? []. by split. Qed.

Lemma until_nul_bytes l : bytes l -> bytes (until_nul l).
Proof. induction 1; cbn; [constructor|]. destruct (_ =? 0); constructor; done. Qed.

#[export] Hint Resolve set_locator_ok set_metadata_ok until_nul_bytes : orar.

Lemma wp_locator_offset {body off lim} c cur :
  in_buf body off lim -> is_i64 cur ->
  wp (locator_offset c body off lim cur) (fun '(v, o) => is_i64 v /\ moves off lim o).
Proof.
  intros Hb Hc. unfold locator_offset. destruct c.
  - wp_next wp_try_vint. intros [[v o]|] Hr; apply wp_ret.
    + destruct Hr as [Hv Ho]. split; [|unfold moves in *; lia].
      unfold is_i64, is_u64, INT64_MAX in *.
      destruct (Z.leb_spec v (2 ^ 63 - 1)); destruct (_ =? 0); cbn [negb andb]; lia.
    + split; [done|buf_lia].
  - apply wp_ret. split; [done|buf_lia].
Qed.

Lemma wp_locator_record {body off lim} b :
  in_buf body off lim -> MainBlock_ok b -> wp (locator_record body off lim b) MainBlock_ok.
Proof.
  intros Hb Hok. pose proof Hok as []. unfold locator_record. wp_next wp_try_vint.
  intros [[v o]|] Hr; [|apply wp_ret; auto with orar]. destruct Hr as [_ Ho].
  assert (Hb' : in_buf body o lim) by (eapply in_buf_move; [done|]; unfold moves in *; lia).
  wp_next wp_locator_offset. intros [qo o'] [Hqo Ho'].
  assert (Hb'' : in_buf body o' lim) by (by eapply in_buf_move).
  wp_next wp_locator_offset. intros [rr o''] [Hrr _]. apply wp_ret. auto with orar.
Qed.

Lemma wp_metadata_name_field {body off lim} c name :
  in_buf body off lim -> bytes name ->
  wp (metadata_name_field c body off lim name) (fun '(s, o) => bytes s /\ moves off lim o).
Proof.
  intros Hb Hn. unfold metadata_name_field. destruct c; [|apply wp_ret; split; [done|buf_lia]].
  wp_next wp_try_vint. intros [[v o]|] Hr; [|apply wp_ret; split; [done|buf_lia]].
  destruct Hr as [Hv Ho]. unfold is_u64 in Hv.
  assert (Hb' : in_buf body o lim) by (eapply in_buf_move; [done|]; unfold moves in *; lia).
  rewrite size_sub_small by buf_lia.
  destruct (Z.leb_spec v (lim - o)); [|apply wp_ret; split; [done|unfold moves in *; lia]].
  wp_next wp_slice_buf; [lia..|]. intros s [Hz Hs]. apply wp_ret.
  split; [auto with orar|]. rewrite size_add_small by buf_lia. unfold moves in *. lia.
Qed.

Lemma wp_metadata_time_field {body off lim} c u n time :
  in_buf body off lim -> is_u64 time -> wp (metadata_time_field c u n body off lim time) is_u64.
Proof.
  intros Hb Ht. unfold metadata_time_field. destruct c; [|done].
  rewrite !size_add_small by buf_lia.
  assert (H4 : off + 4 <= lim -> wp (read_le32 body off) is_u64).
  { intros. eapply wp_mono; [by apply (read_le32_buf (lim := lim))|].
    unfold is_u32, is_u64. lia. }
  destruct (Z.leb_spec (off + 8) lim), (Z.leb_spec (off + 4) lim), u, n;
    cbn [andb negb]; try done; try (by apply (read_le64_buf (lim := lim))); by apply H4.
Qed.

Lemma wp_metadata_record {body off lim} b :
  in_buf body off lim -> MainBlock_ok b -> wp (metadata_record body off lim b) MainBlock_ok.
Proof.
  intros Hb Hok. pose proof Hok as []. unfold metadata_record. wp_next wp_try_vint.
  intros [[v o]|] Hr; [|by apply wp_ret]. destruct Hr as [_ Ho].
  assert (Hb' : in_buf body o lim) by (eapply in_buf_move; [done|]; unfold moves in *; lia).
  wp_next wp_metadata_name_field. intros [s o'] [Hs Ho'].
  assert (Hb'' : in_buf body o' lim) by (by eapply in_buf_move).
  wp_next wp_metadata_time_field. intros t Ht. apply wp_ret. auto with orar.
Qed.

Lemma wp_main_record body off rec_end extra_end old ty rs b :
  in_buf body off rec_end -> rec_end <= extra_end -> extra_end <= zlen body -> 0 <= old < off ->
  is_byte ty -> MainBlock_ok b ->
  wp (main_record body off rec_end extra_end old ty rs b)
     (fun '(_, b', re') => MainBlock_ok b' /\ rec_end <= re' <= extra_end).
Proof.
  intros Hb He Hz Ho Hty Hok. unfold main_record.
  apply (wp_bind_mono _ MainBlock_ok).
  - destruct (_ && _); [by apply wp_locator_record|].
    destruct (_ =? _); [by apply wp_metadata_record|done].
  - intros b' Hb'. apply wp_ret. split; [done|lia].
Qed.

(** [wp_field L]: run a field reader, and keep the cursor facts. *)
Tactic Notation "wp_field" uconstr(L) :=
  wp_next L;
  let v := fresh "v" in let o := fresh "o" in let Hv := fresh "Hv" in let Ho := fresh "Ho" in
  intros [v o] [Hv Ho];
  match goal with
  | Hb : in_buf ?body ?off ?lim |- _ =>
      let Hb' := fresh "Hb" in
      assert (Hb' : in_buf body o lim)
        by (apply (in_buf_move body off lim o Hb); unfold moves in *; lia);
      clear Hb
  end.

Lemma in_buf_start body : bytes body -> zlen body < 2 ^ 63 -> in_buf body 0 (zlen body).
Proof. intros. split_and!; try done; zlen_lia. Qed.

Lemma wp_parse_main_header body :
  bytes body -> zlen body < 2 ^ 63 -> wp (parse_main_header body) MainBlock_ok.
Proof.
  intros Hbody Hlen. pose proof (in_buf_start body Hbody Hlen) as Hb. unfold parse_main_header.
  wp_field wp_vint_field. apply wp_bind_require. intros _.
  wp_field wp_vint_field. wp_field wp_vint_field_if. wp_field wp_vint_field.
  wp_field wp_vint_field_if. apply wp_extra_area; [|done|done|].
  - intros. by apply wp_main_record.
  - split; simpl; auto with orar; unfold is_i64; lia.
Qed.

(** The window a compression word decodes to is 0, at least 128 KiB and within
    the limit of its version, or that limit's "too large" sentinel. *)
Lemma decode_win_size_range ci ver meth :
  let w := decode_win_size ci ver meth in
  w = 0 \/ RAR_DICT_BASE <= w <= (if ver =? 0 then RAR_DICT_MAX_V0 else RAR_DICT_MAX_V1) + 1 \/ ver < 0.
Proof.
  cbv zeta. unfold decode_win_size. set (raw := Z.land (Z.shiftr ci 10) 0x1F).
  set (frac := Z.land (Z.shiftr ci 15) 0x1F).
  assert (Hraw : 0 <= raw < 32) by (apply (land_range 5); lia).
  assert (Hfrac : 0 <= frac < 32) by (apply (land_range 5); lia).
  clearbody raw frac.
  change RAR_DICT_MAX_V0 with (2 ^ 32). change RAR_DICT_MAX_V1 with (2 ^ 40).
  change RAR_DICT_BASE with (2 ^ 17).
  destruct (_ || _) eqn:E1; [by left|]. right. apply orb_false_iff in E1 as [E1 _].
  rewrite Z.gtb_ltb in E1. apply Z.ltb_ge in E1.
  rewrite Z.shiftl_mul_pow2, <- Z.pow_add_r by lia.
  assert (P : forall k, 0 <= raw <= k -> 2 ^ 17 <= 2 ^ (17 + raw) <= 2 ^ (17 + k))
    by (intros k Hk; split; apply Z.pow_le_mono_r; lia).
  pose proof (P 31) as P31. pose proof (P 15) as P15. pose proof (P 23) as P23.
  change (17 + 31) with 48 in P31. change (17 + 15) with 32 in P15.
  change (17 + 23) with 40 in P23. clear P. assert (Hraw' : 0 <= raw <= 31) by lia.
  specialize (P31 Hraw').
  rewrite !Z.gtb_ltb.
  destruct (Z.eqb_spec ver 0) as [->|H0]; cbn [andb].
  - left. destruct (Z.ltb_spec 15 raw); [lia|]. cbn [Z.eqb andb]. specialize (P15 ltac:(lia)).
    rewrite wrap_small by lia. destruct (Z.ltb_spec (2 ^ 32) (2 ^ (17 + raw))); lia.
  - destruct (Z.eqb_spec ver 1) as [->|H1]; cbn [andb]; [|right; lia].
    left. destruct (Z.ltb_spec 23 raw); [lia|]. specialize (P23 ltac:(lia)).
    rewrite (wrap_small 64 (2 ^ (17 + raw))) by lia.
    assert (0 <= 2 ^ (17 + raw) / 32 <= 2 ^ 40) by dlia.
    rewrite (wrap_small 64 (_ * _)) by nia. rewrite wrap_small by nia.
    destruct (Z.ltb_spec (2 ^ 40) (2 ^ (17 + raw) + 2 ^ (17 + raw) / 32 * frac)); nia.
Qed.

Lemma decode_win_size_u64 ci ver meth : 0 <= ver -> is_u64 (decode_win_size ci ver meth).
Proof.
  intros Hv. pose proof (decode_win_size_range ci ver meth) as H. cbv zeta in H.
  change RAR_DICT_MAX_V0 with (2 ^ 32) in H. change RAR_DICT_MAX_V1 with (2 ^ 40) in H.
  change RAR_DICT_BASE with (2 ^ 17) in H. unfold is_u64. destruct (ver =? 0); lia.
Qed.

Lemma wp_pack_size_field {body off lim} c :
  in_buf body off lim ->
  wp (pack_size_field c body off lim) (fun '(v, o) => -1 <= v < 2 ^ 63 /\ moves off lim o).
Proof.
  intros Hb. unfold pack_size_field. destruct c; [|apply wp_ret; split; [lia|buf_lia]].
  wp_next wp_vint_field. intros [v o] [Hv Ho]. unfold is_u64 in Hv.
  rewrite Z.gtb_ltb. unfold INT64_MAX. destruct (Z.ltb_spec (2 ^ 63 - 1) v); [done|].
  apply wp_ret. unfold moves in *. lia.
Qed.

Lemma wp_name_field {body off lim} :
  in_buf body off lim ->
  wp (name_field body off lim) (fun '(s, o) => bytes s /\ moves off lim o).
Proof.
  intros Hb. unfold name_field. wp_field wp_vint_field. unfold is_u64 in Hv.
  rewrite size_sub_small by buf_lia. rewrite Z.gtb_ltb.
  destruct (Z.ltb_spec (lim - o) v); [done|].
  wp_next wp_slice_buf; [lia..|]. intros s [Hz Hs]. apply wp_ret. split; [done|].
  rewrite size_add_small by buf_lia. buf_lia.
Qed.

Lemma u32_is_u32 z : is_u32 (u32 z).
Proof. apply wrap_range. lia. Qed.

Lemma u8_is_byte z : is_byte (u8 z).
Proof. apply (wrap_range 8). lia. Qed.

#[export] Hint Resolve u32_is_u32 u8_is_byte : orar.

Lemma wp_parse_file_fixed body :
  bytes body -> zlen body < 2 ^ 63 ->
  wp (parse_file_fixed body)
    (fun '(f, flags, extra_size, o) => FileFixed_ok f /\ is_u64 extra_size /\ in_buf body o (zlen body)).
Proof.
  intros Hbody Hlen. pose proof (in_buf_start body Hbody Hlen) as Hb. unfold parse_file_fixed.
  wp_field wp_vint_field. destruct (_ && _); [done|].
  wp_field wp_vint_field. wp_field wp_vint_field_if. wp_field wp_pack_size_field.
  wp_field wp_vint_field. wp_field wp_vint_field. wp_field wp_vint_field.
  wp_field wp_le32_field_if. wp_field wp_le32_field_if. wp_field wp_vint_field.
  wp_field wp_vint_field. wp_field wp_name_field.
  apply wp_ret. split; [|by split].
  split; simpl; auto with orar.
  - destruct (_ =? _); [done|constructor].
  - unfold is_i64. lia.
  - apply decode_win_size_u64. by apply wrap_range.
Qed.

(** Replace every [size_t] operation that provably does not wrap. *)
Ltac buf_size :=
  repeat match goal with
  | |- context [?a +s ?b] => rewrite (size_add_small a b) by buf_lia
  | |- context [?a -s ?b] => rewrite (size_sub_small a b) by buf_lia
  end.

Lemma wp_hash_record {body off lim} b :
  in_buf body off lim -> FileBlock_ok b -> wp (hash_record body off lim b) FileBlock_ok.
Proof.
  intros Hb Hok. unfold hash_record. buf_size.
  destruct (Z.geb_spec (lim - off) 33) as [Hge|]; [|by apply wp_ret].
  wp_next wp_byte_buf; [lia..|]. intros ty _. buf_size.
  destruct (ty =? 0); [|by apply wp_ret].
  assert (Hb' : in_buf body (off + 1) lim) by (eapply in_buf_move; [done|unfold moves; lia]).
  wp_next wp_slice_buf; [lia..|]. intros d Hd. apply wp_ret. auto with orar.
Qed.

Lemma wp_crypt_vint {body off lim} :
  in_buf body off lim -> wp (crypt_vint body off lim) (fun '(v, o) => is_u64 v /\ moves (off + 1) lim o).
Proof.
  intros Hb. unfold crypt_vint. destruct (off >=? lim); [done|]. by apply wp_vint_field.
Qed.

Lemma wp_crypt_record {body off lim} b :
  in_buf body off lim -> FileBlock_ok b -> wp (crypt_record body off lim b) FileBlock_ok.
Proof.
  intros Hb Hok. unfold crypt_record. wp_field wp_crypt_vint. wp_field wp_crypt_vint.
  buf_size. set (check := has_flag _ _).
  destruct (Z.ltb_spec (lim - o0) (1 + 16 + 16 + (if check then 8 + 4 else 0))) as [|Hneed]; [done|].
  assert (Hat : forall k, 0 <= k <= 45 -> o0 + k <= lim -> in_buf body (o0 + k) lim).
  { intros k Hk Hkl. eapply in_buf_move; [done|unfold moves; lia]. }
  assert (H45 : 33 <= lim - o0) by (destruct check; lia).
  wp_next wp_byte_buf; [lia..|]. intros lg2 Hlg2.
  buf_size. pose proof (Hat 1 ltac:(lia) ltac:(lia)) as Hb1.
  wp_next wp_slice_buf; [lia..|]. intros sa Hsa.
  buf_size.
  pose proof (Hat (1 + 16) ltac:(lia) ltac:(lia)) as Hb2. rewrite Z.add_assoc in Hb2.
  wp_next wp_slice_buf; [lia..|]. intros iv Hiv.
  buf_size.
  apply (wp_bind_mono _ (fun '(_, psw, csum) => byte_array 8 psw /\ byte_array 4 csum)).
  - pose proof (crypt_ok _ Hok) as []. destruct check; [|by apply wp_ret].
    pose proof (Hat (1 + 16 + 16) ltac:(lia) ltac:(lia)) as Hb3. rewrite !Z.add_assoc in Hb3.
    wp_next wp_slice_buf; [lia..|]. intros psw Hpsw. buf_size.
    pose proof (Hat (1 + 16 + 16 + 8) ltac:(lia) ltac:(lia)) as Hb4. rewrite !Z.add_assoc in Hb4.
    wp_next wp_slice_buf; [lia..|]. intros csum Hcsum. by apply wp_ret.
  - intros [[has psw] csum] [Hp Hc]. apply wp_ret. apply set_crypt_ok; [done|].
    split; simpl; auto with orar.
Qed.

Lemma wp_version_probe {body off lim} :
  in_buf body off lim ->
  wp (version_probe body off lim) (fun r => match r with Some v => is_u64 v | None => True end).
Proof.
  intros Hb. unfold version_probe. buf_size. apply wp_bind.
  apply wp_read_vint; [by eapply in_buf_bytes|buf_lia|buf_lia|buf_lia|].
  intros ok v n Hv Hn Hok. destruct (_ && _); [|done]. buf_size.
  apply wp_bind. apply wp_read_vint; [by eapply in_buf_bytes|buf_lia|buf_lia|buf_lia|].
  intros ok2 v2 n2 Hv2 _ _. destruct (_ && _); by apply wp_ret.
Qed.

(** Continue behind an optional field. *)
Tactic Notation "wp_opt" :=
  wp_next wp_try_vint;
  let v := fresh "v" in let o := fresh "o" in let Hr := fresh "Hr" in
  let Hv := fresh "Hv" in let Ho := fresh "Ho" in
  intros [[v o]|] Hr;
    [ destruct Hr as [Hv Ho];
      match goal with
      | Hb : in_buf ?body ?off ?lim |- _ =>
          let Hb' := fresh "Hb" in
          assert (Hb' : in_buf body o lim)
            by (apply (in_buf_move body off lim o Hb); unfold moves in *; lia);
          clear Hb
      end
    | clear Hr; try (apply wp_ret; by auto with orar) ].

(** A handler's result, whatever its flow. *)
Definition flow_ok (r : flow * FileBlock) : Prop := FileBlock_ok r.2.

Lemma wp_redir_record {body off lim} b :
  in_buf body off lim -> FileBlock_ok b -> wp (redir_record body off lim b) flow_ok.
Proof.
  intros Hb Hok. unfold redir_record, flow_ok. wp_next wp_version_probe.
  intros [vnum|] Hv; [apply wp_ret; simpl; auto with orar|]. clear Hv.
  wp_opt. wp_opt. wp_opt. unfold is_u64 in *.
  rewrite Z.geb_leb. destruct (Z.leb_spec 2048 v1); [by apply wp_ret|]. buf_size.
  destruct (Z.ltb_spec (lim - o1) v1); [by apply wp_ret|].
  wp_next wp_slice_buf; [lia..|]. intros t [_ Ht]. apply wp_ret. simpl.
  apply set_redir_ok; [done|]. split; simpl; auto with orar.
Qed.

Lemma wp_stamp_win {body off lim} c s :
  in_buf body off lim -> Stamp_ok s ->
  wp (stamp_win c body off lim s) (fun '(s', o) => Stamp_ok s' /\ moves off lim o).
Proof.
  intros Hb Hs. unfold stamp_win. buf_size. destruct (_ && _) eqn:E.
  - apply andb_true_iff in E as [_ E]. apply Z.leb_le in E.
    wp_next (read_le64_buf (lim := lim)); [lia..|]. intros v Hv. apply wp_ret. buf_size.
    destruct Hs. split; [by split|unfold moves; lia].
  - apply wp_ret. split; [done|buf_lia].
Qed.

Lemma wp_stamp_unix {body off lim} c s :
  in_buf body off lim -> Stamp_ok s ->
  wp (stamp_unix c body off lim s) (fun '(s', o) => Stamp_ok s' /\ moves off lim o).
Proof.
  intros Hb Hs. unfold stamp_unix. buf_size. destruct (_ && _) eqn:E.
  - apply andb_true_iff in E as [_ E]. apply Z.leb_le in E.
    wp_next (read_le32_buf (lim := lim)); [lia..|]. intros v Hv. apply wp_ret. buf_size.
    destruct Hs. split; [by split|unfold moves; lia].
  - apply wp_ret. split; [done|buf_lia].
Qed.

Lemma wp_stamp {body off lim} c u s :
  in_buf body off lim -> Stamp_ok s ->
  wp (stamp c u body off lim s) (fun '(s', o) => Stamp_ok s' /\ moves off lim o).
Proof. destruct u; [apply wp_stamp_unix|apply wp_stamp_win]. Qed.

Lemma wp_stamp_ns {body off lim} c s :
  in_buf body off lim -> Stamp_ok s ->
  wp (stamp_ns c body off lim s) (fun '(s', o) => Stamp_ok s' /\ moves off lim o).
Proof.
  intros Hb Hs. unfold stamp_ns. buf_size. destruct (_ && _) eqn:E.
  - apply andb_true_iff in E as [_ E]. apply Z.leb_le in E.
    wp_next (read_le32_buf (lim := lim)); [lia..|]. intros v Hv. apply wp_ret. buf_size.
    split; [|unfold moves; lia]. destruct (_ <? _); [|done]. destruct Hs. split; try done.
    simpl. apply (land_range 32); lia.
  - apply wp_ret. split; [done|buf_lia].
Qed.

Lemma wp_htime_legacy {body off lim} tflags t :
  in_buf body off lim -> HTimes_ok t -> wp (htime_legacy tflags body off lim t) HTimes_ok.
Proof.
  intros Hb [Hm0 Hc0 Ha0]. unfold htime_legacy.
  assert (Hm : Stamp_ok (if has_flag tflags 0x01 && (off +s 8 <=? lim)
                         then no_ns (mtime t) else mtime t)).
  { destruct (_ && _); [|done]. destruct Hm0. by split. }
  wp_field wp_stamp_win. wp_field wp_stamp_win. wp_next wp_stamp_win. intros [a o'] [Ha _].
  apply wp_ret. by split.
Qed.

Lemma wp_htime_spec {body off lim} tflags t :
  in_buf body off lim -> HTimes_ok t -> wp (htime_spec tflags body off lim t) HTimes_ok.
Proof.
  intros Hb []. unfold htime_spec.
  wp_field wp_stamp. wp_field wp_stamp. wp_field wp_stamp.
  wp_field wp_stamp_ns. wp_field wp_stamp_ns. wp_next wp_stamp_ns. intros [a o'] [Ha _].
  apply wp_ret. by split.
Qed.

Lemma wp_htime_record {body off lim} b :
  in_buf body off lim -> FileBlock_ok b -> wp (htime_record body off lim b) flow_ok.
Proof.
  intros Hb Hok. unfold htime_record, flow_ok. wp_opt.
  apply (wp_bind_mono _ HTimes_ok).
  - pose proof (htimes_ok _ Hok). destruct (htime_is_legacy _ _ _);
      [by apply wp_htime_legacy|by apply wp_htime_spec].
  - intros t Ht. apply wp_ret. simpl. auto with orar.
Qed.

Lemma wp_subdata_record {body off rec_end} extra_end b :
  in_buf body off rec_end -> rec_end <= extra_end -> extra_end <= zlen body -> FileBlock_ok b ->
  wp (subdata_record body off rec_end extra_end b)
     (fun '(b', re') => FileBlock_ok b' /\ rec_end <= re' <= extra_end).
Proof.
  intros Hb He Hz Hok. unfold subdata_record.
  destruct (Z.geb_spec rec_end off); [|apply wp_ret; split; [done|lia]].
  wp_next wp_slice_buf; [lia..|]. intros d [_ Hd].
  destruct (_ && _) eqn:E.
  - apply andb_true_iff in E as [E _]. apply Z.ltb_lt in E.
    assert (Hb' : in_buf body rec_end extra_end) by (buf_inv; split_and!; try done; lia).
    wp_next wp_byte_buf. intros x Hx. apply wp_ret. split; [|lia].
    apply set_sub_data_ok; [done|]. apply Forall_app_2; auto.
  - apply wp_ret. split; [auto with orar|lia].
Qed.

Lemma remaining_eq body off lim : in_buf body off lim -> remaining lim off = lim - off.
Proof.
  intros Hb. unfold remaining. destruct (Z.geb_spec lim off); [|buf_lia]. by buf_size.
Qed.

Lemma wp_owner_name_probe {body off lim} c :
  in_buf body off lim ->
  wp (owner_name_probe c body off lim)
     (fun r => match r with Some o => moves off lim o | None => True end).
Proof.
  intros Hb. unfold owner_name_probe. destruct c; [|apply wp_ret; buf_lia].
  rewrite (remaining_eq _ _ _ Hb). apply wp_bind.
  apply wp_read_vint; [by eapply in_buf_bytes|buf_lia|buf_lia|buf_lia|].
  intros ok v n Hv Hn Hok. destruct (_ || _) eqn:E; [done|].
  apply orb_false_iff in E as [E E3]. apply orb_false_iff in E as [E1 E2].
  rewrite Z.gtb_ltb in *. apply Z.ltb_ge in E2, E3. apply wp_ret.
  rewrite (size_add_small n v) in E3 |- * by buf_lia.
  rewrite size_add_small by buf_lia. unfold moves. lia.
Qed.

Lemma wp_owner_probe {body off lim} oflags :
  in_buf body off lim -> safe (owner_probe oflags body off lim).
Proof.
  intros Hb. unfold owner_probe, safe. wp_next wp_owner_name_probe. intros [o|] Ho; [|done].
  assert (Hb' : in_buf body o lim) by (by eapply in_buf_move).
  wp_next wp_owner_name_probe. intros [o'|] _; by apply wp_ret.
Qed.

Lemma wp_owner_name {body off lim} c cur :
  in_buf body off lim -> bytes cur ->
  wp (owner_name c body off lim cur) (fun '(s, o) => bytes s /\ moves off lim o).
Proof.
  intros Hb Hc. unfold owner_name. destruct c; [|apply wp_ret; split; [done|buf_lia]].
  wp_opt; [|apply wp_ret; split; [done|buf_lia]].
  rewrite (remaining_eq body o lim) by done. unfold is_u64 in Hv.
  assert (Hol : o <= lim) by (unfold moves in Ho; lia).
  wp_next wp_slice_buf; [lia..|]. intros s [_ Hs]. apply wp_ret. split; [done|].
  rewrite size_add_small by buf_lia. unfold moves in *. lia.
Qed.

Lemma wp_owner_id {body off lim} c cur has :
  in_buf body off lim -> is_u64 cur ->
  wp (owner_id c body off lim cur has) (fun '(v, _, o) => is_u64 v /\ moves off lim o).
Proof.
  intros Hb Hc. unfold owner_id. destruct c; [|apply wp_ret; split; [done|buf_lia]].
  wp_next wp_try_vint. intros [[v o]|] Hr; apply wp_ret.
  - destruct Hr. split; [done|]. unfold moves in *; lia.
  - split; [done|buf_lia].
Qed.

Lemma wp_owner_record {body off lim} b :
  in_buf body off lim -> FileBlock_ok b -> wp (owner_record body off lim b) flow_ok.
Proof.
  intros Hb Hok. unfold owner_record, flow_ok. pose proof (owner_ok _ Hok) as []. wp_opt.
  wp_next wp_owner_probe. intros [|] _; cbn [negb].
  - wp_field wp_owner_name. wp_field wp_owner_name.
    wp_next wp_owner_id. intros [[u hu] o'] [Hu Ho'].
    match goal with Hb : in_buf body _ lim |- _ => assert (Hb' : in_buf body o' lim) by (by eapply in_buf_move) end.
    wp_next wp_owner_id. intros [[g hg] o''] [Hg _].
    apply wp_ret. simpl. apply set_owner_ok; [done|]. by split.
  - apply wp_ret. simpl. apply set_owner_ok; [done|]. by split.
Qed.

Lemma wp_xattr_entry {body off lim} :
  in_buf body off lim ->
  wp (xattr_entry body off lim)
     (fun r => match r with Some (x, o) => Xattr_ok x /\ moves off lim o | None => True end).
Proof.
  intros Hb. unfold xattr_entry. wp_opt. destruct (_ || _); [by apply wp_ret|].
  buf_size. rewrite Z.gtb_ltb. destruct (Z.ltb_spec (lim - o) v); [by apply wp_ret|].
  unfold is_u64 in Hv.
  wp_next wp_slice_buf; [lia..|]. intros name [_ Hname]. buf_size.
  assert (Hb1 : in_buf body (o + v) lim) by (eapply in_buf_move; [done|unfold moves; lia]).
  clear Hb0. wp_opt. destruct (v0 >? FHEXTRA_XATTR_VALUE_MAX); [by apply wp_ret|]. buf_size.
  rewrite Z.gtb_ltb. destruct (Z.ltb_spec (lim - o0) v0); [by apply wp_ret|].
  unfold is_u64 in Hv0.
  wp_next wp_slice_buf; [lia..|]. intros value [_ Hvalue]. apply wp_ret. buf_size.
  split; [by split|]. unfold moves in *. lia.
Qed.

Lemma wp_xattr_loop {body lim} left off seen parsed :
  in_buf body off lim -> Forall Xattr_ok parsed ->
  wp (xattr_loop left body off lim seen parsed)
     (fun r => match r with Some (p, _) => Forall Xattr_ok p | None => True end).
Proof.
  revert off seen parsed. induction left as [|left IH]; intros off seen parsed Hb Hp; [by apply wp_ret|].
  cbn [xattr_loop]. wp_next wp_xattr_entry. intros [[x o]|]; [|by intros; apply wp_ret].
  intros [Hx Ho]. destruct (bool_decide _); [by apply wp_ret|].
  apply IH; [by eapply in_buf_move|]. apply Forall_app_2; auto.
Qed.

Lemma wp_parse_xattrs {body off lim} :
  in_buf body off lim ->
  wp (parse_xattrs body off lim)
     (fun r => match r with Some p => Forall Xattr_ok p | None => True end).
Proof.
  intros Hb. unfold parse_xattrs. wp_opt. destruct (negb _); [by apply wp_ret|]. wp_opt.
  destruct (_ >? _); [by apply wp_ret|].
  wp_next wp_xattr_loop. intros [[p o1]|] Hp; [|by apply wp_ret].
  apply wp_ret. by destruct (_ =? _).
Qed.

Lemma wp_unknown_record {body old rec_end} ty b :
  in_buf body old rec_end -> is_byte ty -> FileBlock_ok b ->
  wp (unknown_record body old rec_end ty b) FileBlock_ok.
Proof.
  intros Hb Hty Hok. unfold unknown_record. pose proof Hb as (? & ? & ? & ?).
  wp_next wp_slice_buf; [lia..|]. intros raw [_ Hraw]. apply wp_ret.
  apply add_unknown_ok; [done|by split].
Qed.

Lemma wp_file_record body off rec_end extra_end old ty rs b :
  in_buf body off rec_end -> rec_end <= extra_end -> extra_end <= zlen body -> 0 <= old < off ->
  is_byte ty -> FileBlock_ok b ->
  wp (file_record body off rec_end extra_end old ty rs b)
     (fun '(_, b', re') => FileBlock_ok b' /\ rec_end <= re' <= extra_end).
Proof.
  intros Hb He Hz Ho Hty Hok. unfold file_record.
  assert (Hold : in_buf body old rec_end) by (buf_inv; split_and!; try done; lia).
  repeat match goal with |- wp (if ?c then _ else _) _ => destruct c end.
  1: wp_next wp_hash_record.
  2: wp_next wp_crypt_record.
  3: wp_next wp_redir_record; intros [fl b'] Hb'; apply wp_ret; split; [done|lia].
  3: wp_next wp_htime_record; intros [fl b'] Hb'; apply wp_ret; split; [done|lia].
  3: wp_next wp_subdata_record; intros [b' re'] Hb'; by apply wp_ret.
  3: wp_next wp_owner_record; intros [fl b'] Hb'; apply wp_ret; split; [done|lia].
  4: wp_next wp_unknown_record.
  3: { apply (wp_bind_mono _ FileBlock_ok).
       - unfold xattr_record. wp_next wp_parse_xattrs. intros [p|] Hp.
         + apply wp_ret. auto with orar.
         + by apply wp_unknown_record.
       - intros b' Hb'. apply wp_ret. split; [done|lia]. }
  all: intros b' Hb'; apply wp_ret; split; [done|lia].
Qed.

Lemma wp_parse_file_header body :
  bytes body -> zlen body < 2 ^ 63 -> wp (parse_file_header body) FileBlock_ok.
Proof.
  intros Hbody Hlen. unfold parse_file_header. wp_next wp_parse_file_fixed.
  intros [[[f flags] es] o] (Hf & Hes & Hb). apply wp_extra_area; [|done|done|].
  - intros. by apply wp_file_record.
  - by apply file_block_of_ok.
Qed.

Lemma wp_parse_crypt_header body :
  bytes body -> zlen body < 2 ^ 63 -> wp (parse_crypt_header body) CryptBlock_ok.
Proof.
  intros Hbody Hlen. pose proof (in_buf_start body Hbody Hlen) as Hb. unfold parse_crypt_header.
  wp_field wp_vint_field. apply wp_bind_require. intros _.
  wp_field wp_vint_field. wp_field wp_vint_field. wp_field wp_vint_field.
  destruct (Z.geb_spec o2 (zlen body)); [done|].
  wp_next wp_byte_buf. intros lg2 Hlg2. buf_size.
  rewrite Z.gtb_ltb. destruct (Z.ltb_spec (zlen body) (o2 + 1 + 16)); [done|].
  assert (Hb1 : in_buf body (o2 + 1) (zlen body)) by (eapply in_buf_move; [done|unfold moves; lia]).
  wp_next wp_slice_buf; [lia..|]. intros sa Hsa. buf_size.
  destruct (_ && _) eqn:E; [done|].
  apply (wp_bind_mono _ (fun '(psw, csum) => byte_array 8 psw /\ byte_array 4 csum)).
  - destruct (has_flag _ _); [|apply wp_ret; auto with orar].
    cbn [andb] in E. rewrite Z.gtb_ltb in E. apply Z.ltb_ge in E.
    assert (Hb2 : in_buf body (o2 + 1 + 16) (zlen body)) by (eapply in_buf_move; [done|unfold moves; lia]).
    wp_next wp_slice_buf; [lia..|]. intros psw Hpsw. buf_size.
    assert (Hb3 : in_buf body (o2 + 1 + 16 + 8) (zlen body)) by (eapply in_buf_move; [done|unfold moves; lia]).
    wp_next wp_slice_buf; [lia..|]. intros csum Hcsum. by apply wp_ret.
  - intros [psw csum] [Hp Hc]. apply wp_ret. split; simpl; auto with orar.
Qed.

Lemma wp_parse_end_header body :
  bytes body -> zlen body < 2 ^ 63 -> wp (parse_end_header body) (fun e => is_u64 (end_flags e)).
Proof.
  intros Hbody Hlen. pose proof (in_buf_start body Hbody Hlen) as Hb. unfold parse_end_header.
  wp_field wp_vint_field. apply wp_bind_require. intros _. wp_field wp_vint_field.
  destruct (_ <? _); [|apply wp_ret; simpl; auto with orar]. buf_size. apply wp_bind.
  apply wp_read_vint; [by eapply in_buf_bytes|buf_lia|buf_lia|buf_lia|].
  intros ok fl n Hfl _ _. by apply wp_ret.
Qed.

(** ** The framing of a raw block

    [framed data pos l body]: at [pos] stand a little-endian CRC-32, the size
    vint [l] (any encoding of the body length, padded or not) and the body; the
    checksum covers the vint and the body. *)

Definition framed (data : list Z) (pos : Z) (l body : list Z) : Prop :=
  exists c rest,
    view data pos = c ++ l ++ body ++ rest /\ zlen c = 4 /\ is_vint l /\ zlen l <= 10 /\
    vint_val l = zlen body /\ zlen body <= MAX_BODY_SIZE /\ le_val c = header_crc l body.

Lemma slice_inv m i n l :
  slice m i n = Ok l ->
  0 <= i /\ 0 <= n /\ i + n <= zlen m /\ zlen l = n /\ view m i = l ++ view m (i + n).
Proof.
  unfold slice. destruct (_ && _) eqn:E; [|done]. intros [= <-].
  apply andb_true_iff in E as [E E3]. apply andb_true_iff in E as [E1 E2].
  apply Z.leb_le in E1, E2, E3. split_and!; try done.
  - apply zlen_take. rewrite zlen_drop; lia.
  - unfold view. rewrite Z2Nat.inj_add, <- drop_drop by lia. by rewrite take_drop.
Qed.

Lemma slice_ok m i n :
  0 <= i -> 0 <= n -> i + n <= zlen m ->
  exists l, slice m i n = Ok l /\ zlen l = n /\ view m i = l ++ view m (i + n).
Proof.
  intros H1 H2 H3. eexists. split; [unfold slice; by rewrite !(proj2 (Z.leb_le _ _)) by lia|].
  assert (E : slice m i n = Ok (take (Z.to_nat n) (drop (Z.to_nat i) m)))
    by (unfold slice; by rewrite !(proj2 (Z.leb_le _ _)) by lia).
  apply slice_inv in E. tauto.
Qed.

Lemma read_le32_slice m off :
  bytes m -> 0 <= off -> off + 4 <= zlen m ->
  exists c, read_le32 m off = Ok (le_val c) /\ zlen c = 4 /\ view m off = c ++ view m (off + 4).
Proof.
  intros Hm Ho Hl. destruct (slice_ok m off 4) as (c & _ & Hc & Hv); [lia..|].
  exists c. split; [|done]. by eapply read_le32_view.
Qed.

(** A vint read inside a buffer, both ways. *)
Lemma read_vint_inv m off size ok v n :
  bytes m -> 0 <= off -> 0 <= size -> off + size <= zlen m ->
  read_vint m off size = Ok (ok, v, n) ->
  0 <= v < 2 ^ 64 /\ 0 <= n <= Z.min size 10 /\
  (ok = true -> exists l, view m off = l ++ view m (off + n) /\ is_vint l /\ zlen l = n /\ v = vint_val l).
Proof.
  intros Hm Ho Hs Hl E.
  destruct (read_vint_spec m off size Hm Ho Hs Hl) as (ok' & v' & n' & E' & Hv & Hn & _ & Hok & _).
  rewrite E' in E. injection E as -> -> ->. split; [done|]. split; [done|]. intros Ht.
  destruct (Hok Ht) as (l & rest & Hview & Hlv & <- & ->). exists l. split_and!; try done.
  rewrite Hview. f_equal. symmetry. by apply view_step.
Qed.

(** What [finish_block] adds. *)
Lemma finish_block_ok body r :
  finish_block body = Ok r ->
  (exists ty fl ds, r = BlockOk ty fl body ds /\ parse_block_fields body = Ok (ty, fl, ds)) \/
  (r = BlockError /\ parse_block_fields body = Fail).
Proof.
  unfold finish_block. destruct (parse_block_fields body) as [[[ty fl] ds]| | |]; intros [= <-]; eauto 10.
Qed.

Lemma wp_parse_block_fields body :
  bytes body -> zlen body < 2 ^ 63 ->
  wp (parse_block_fields body) (fun '(ty, fl, ds) => is_u64 ty /\ is_u64 fl /\ is_u64 ds).
Proof.
  intros Hbody Hlen. pose proof (in_buf_start body Hbody Hlen) as Hb. unfold parse_block_fields.
  wp_field wp_vint_field. wp_field wp_vint_field. wp_field wp_vint_field_if.
  wp_field wp_vint_field_if. by apply wp_ret.
Qed.

Lemma finish_block_total body :
  bytes body -> zlen body < 2 ^ 63 -> exists r, finish_block body = Ok r.
Proof.
  intros Hb Hl. pose proof (wp_parse_block_fields body Hb Hl) as H. unfold finish_block.
  destruct (parse_block_fields body) as [[[ty fl] ds]| | |]; try done; eauto.
Qed.

(** The reader over memory, on every input: it is total, and when the framing
    is broken anywhere the result is not [BlockOk]. *)
Lemma read_block_raw_mem_cases data pos :
  bytes data -> 0 <= pos <= zlen data -> zlen data < 2 ^ 63 ->
  exists r pos', read_block_raw_mem data pos = Ok (r, pos') /\
    match r with
    | BlockOk ty fl body ds =>
        exists l, framed data pos l body /\ pos' = pos + 4 + zlen l + zlen body /\
                  parse_block_fields body = Ok (ty, fl, ds)
    | _ => pos <= pos' <= zlen data
    end.
Proof.
  intros Hd Hp Hz. unfold read_block_raw_mem. buf_size.
  rewrite Z.gtb_ltb. destruct (Z.ltb_spec (zlen data) (pos + 4)); [by eexists _, _; split; [reflexivity|cbn; lia]|].
  destruct (read_le32_slice data pos) as (c & -> & Hc & Hv1); [done|lia..|]. cbn [mbind res_bind].
  buf_size.
  destruct (read_vint_spec data (pos + 4) (zlen data - (pos + 4)))
    as (ok & v & n & E & _ ); [done|lia..|].
  rewrite E. apply read_vint_inv in E as (Hv & Hn & Hok); [|done|lia..]. cbn [mbind res_bind].
  destruct ok; cbn [negb]; [|by eexists _, _; split; [reflexivity|cbn; lia]].
  destruct (Hok eq_refl) as (l & Hv2 & Hl & Hln & ->).
  rewrite Z.gtb_ltb. destruct (Z.ltb_spec MAX_BODY_SIZE (vint_val l)); [by eexists _, _; split; [reflexivity|cbn; lia]|].
  destruct (slice_ok data (pos + 4) n) as (l' & -> & Hl'n & Hv2'); [lia..|].
  assert (l' = l) as ->.
  { rewrite Hv2 in Hv2'. symmetry. by apply app_inv_tail in Hv2'. }
  cbn [mbind res_bind]. unfold MAX_BODY_SIZE in *. buf_size.
  rewrite Z.gtb_ltb. destruct (Z.ltb_spec (zlen data) (pos + 4 + n + vint_val l)); [by eexists _, _; split; [reflexivity|cbn; lia]|].
  destruct (slice_ok data (pos + 4 + n) (vint_val l)) as (body & -> & Hbn & Hv3); [lia..|].
  cbn [mbind res_bind].
  destruct (Z.eqb_spec (header_crc l body) (le_val c)) as [Hcrc|]; cbn [negb]; [|by eexists _, _; split; [reflexivity|cbn; lia]].
  assert (Hbody : bytes body).
  { pose proof (bytes_view data (pos + 4 + n) Hd) as B. rewrite Hv3 in B. by apply Forall_app in B as [B _]. }
  destruct (finish_block_total body) as [r Hr]; [done|lia|]. rewrite Hr. cbn [mbind res_bind].
  buf_size. eexists _, _. split; [done|].
  apply finish_block_ok in Hr as [(ty & fl & ds & -> & Hpf)|[-> _]]; [|lia].
  exists l. split; [|split; [lia|done]].
  exists c, (view data (pos + 4 + n + vint_val l)). rewrite Hv1, Hv2, Hv3. unfold MAX_BODY_SIZE. split_and!; try done; lia.
Qed.

(** The other direction: a framed block is accepted. *)
Lemma read_block_raw_mem_framed data pos l body r :
  bytes data -> 0 <= pos <= zlen data -> zlen data < 2 ^ 63 -> framed data pos l body ->
  finish_block body = Ok r ->
  read_block_raw_mem data pos = Ok (r, pos + 4 + zlen l + zlen body).
Proof.
  intros Hd Hp Hz (c & rest & Hv & Hc & Hl & Hl10 & Hval & Hmax & Hcrc) Hfin.
  pose proof (view_length data pos _ Hp Hv) as L. rewrite !zlen_app in L.
  pose proof (zlen_nonneg body). pose proof (zlen_nonneg rest). pose proof (zlen_nonneg l).
  assert (Hv2 : view data (pos + 4) = l ++ body ++ rest) by (rewrite <- Hc; apply view_step; [lia|done]).
  assert (Hv3 : view data (pos + 4 + zlen l) = body ++ rest) by (apply view_step; [lia|done]).
  unfold read_block_raw_mem. buf_size.
  rewrite Z.gtb_ltb, (proj2 (Z.ltb_ge _ _)) by lia.
  rewrite (read_le32_view data pos c _ Hd ltac:(lia) Hv Hc). cbn [mbind res_bind]. buf_size.
  unfold MAX_BODY_SIZE in *.
  rewrite (read_vint_enc data _ _ l (body ++ rest)) by (done || lia). cbn [mbind res_bind negb].
  rewrite Z.gtb_ltb, (proj2 (Z.ltb_ge _ _)) by lia.
  rewrite (slice_view data _ l (body ++ rest)) by (done || lia). cbn [mbind res_bind]. buf_size.
  rewrite Z.gtb_ltb, (proj2 (Z.ltb_ge _ _)) by lia.
  rewrite Hval, (slice_view data _ body rest) by (done || lia). cbn [mbind res_bind].
  rewrite <- Hcrc, Z.eqb_refl. cbn [negb]. rewrite Hfin. cbn [mbind res_bind]. buf_size. done.
Qed.

(** ** The stream reader, over any source *)

Lemma size_vint_len_enc l rest i :
  is_vint l -> 0 <= i -> size_vint_len (l ++ rest) i = i + zlen l.
Proof.
  intros Hl. revert i. induction Hl as [b Hb|b l Hb Hl IH]; intros i Hi; cbn [app size_vint_len].
  - rewrite land_80 by (unfold is_byte; lia). rewrite (proj2 (Z.ltb_lt _ _)) by lia. zlen_lia.
  - rewrite land_80 by (unfold is_byte; lia). rewrite (proj2 (Z.ltb_ge _ _)) by lia.
    rewrite IH by lia. zlen_lia.
Qed.

Lemma size_vint_len_spec l i :
  bytes l -> 0 <= i ->
  size_vint_len l i = 0 \/
  exists l1 rest, l = l1 ++ rest /\ is_vint l1 /\ size_vint_len l i = i + zlen l1.
Proof.
  intros Hl. revert i. induction Hl as [|b l Hb Hl IH]; intros i Hi; [by left|].
  cbn [size_vint_len]. rewrite land_80 by done. unfold is_byte in Hb.
  destruct (Z.ltb_spec b 128).
  - right. exists [b], l. split_and!; [done|constructor; lia|zlen_lia].
  - destruct (IH (i + 1) ltac:(lia)) as [E|(l1 & rest & -> & Hl1 & E)]; [by left|].
    right. exists (b :: l1), rest. split_and!; [done|constructor; [lia|done]|zlen_lia].
Qed.

(** A read of at most [n] bytes sees a prefix of the view. *)
Lemma take_prefix n m off a b :
  take (Z.to_nat n) (view m off) = a ++ b -> exists rest, view m off = a ++ rest.
Proof.
  intros H. exists (b ++ drop (Z.to_nat n) (view m off)).
  rewrite app_assoc, <- H. by rewrite take_drop.
Qed.

(** A complete encoding is not a proper prefix of another. *)
Lemma is_vint_prefix l l' r r' : is_vint l -> is_vint l' -> l ++ r = l' ++ r' -> l = l'.
Proof.
  intros Hl. revert l' r r'. induction Hl as [b Hb|b l Hb Hl IH]; intros l' r r' Hl' E;
    destruct Hl' as [b' Hb'|b' l' Hb' Hl']; injection E as -> E; try lia; [done|].
  f_equal. by eapply IH.
Qed.

Section stream_laws.
Context {S : Type} `{ReadSourceLaws S}.

(** One read, as the laws describe it. *)
Lemma src_read_spec src n :
  src_wf src -> 0 <= n ->
  exists l src', src_read src n = (l, src') /\
    l = take (Z.to_nat n) (view (src_contents src) (src_tell src)) /\
    zlen l = Z.min n (zlen (src_contents src) - src_tell src) /\
    src_wf src' /\ src_contents src' = src_contents src /\ src_tell src' = src_tell src + zlen l.
Proof.
  intros Hwf Hn. pose proof (src_read_bytes src n Hwf Hn) as E.
  pose proof (src_read_state src n Hwf Hn) as St. cbv zeta in St.
  pose proof (src_tell_range src Hwf) as [R _].
  destruct (src_read src n) as [l src']. simpl in *. exists l, src'. split; [done|].
  split; [done|]. split; [rewrite E; by apply zlen_take_view|done].
Qed.

Lemma read_block_raw_cases src :
  src_wf src -> bytes (src_contents src) ->
  let data := src_contents src in let pos := src_tell src in
  exists r src', read_block_raw src = Ok (r, src') /\ src_wf src' /\ src_contents src' = data /\
    match r with
    | BlockOk ty fl body ds =>
        exists l, framed data pos l body /\ src_tell src' = pos + 4 + zlen l + zlen body /\
                  parse_block_fields body = Ok (ty, fl, ds)
    | BlockEof => pos = zlen data
    | _ => pos < zlen data
    end.
Proof.
  intros Hwf Hd. cbv zeta. pose proof (src_tell_range src Hwf) as [R1 R2].
  set (data := src_contents src) in *. set (pos := src_tell src) in *.
  unfold read_block_raw.
  destruct (src_read_spec src 4 Hwf ltac:(lia)) as (c & s1 & -> & Ec & Lc & W1 & C1 & T1).
  fold data pos in Ec, Lc, T1. fold data in C1.
  destruct (Z.eqb_spec (zlen c) 0).
  { eexists _, _. split; [done|]. split_and!; try done. lia. }
  destruct (Z.eqb_spec (zlen c) 4) as [Lc4|]; cbn [negb];
    [|eexists _, _; split; [done|]; split_and!; try done; lia].
  assert (Hvc : view data pos = c ++ view data (pos + 4)).
  { destruct (slice_ok data pos 4) as (c' & Es & _ & Hv); [lia..|].
    apply slice_inv in Es as (_ & _ & _ & _ & _). rewrite Ec. unfold view.
    replace (Z.to_nat (pos + 4)) with (Z.to_nat pos + 4)%nat by lia.
    rewrite <- drop_drop. symmetry. apply take_drop. }
  assert (Hcb : bytes c) by (rewrite Ec; auto with orar).
  rewrite (read_le32_view c 0 c []) by (done || lia || by rewrite app_nil_r). cbn [mbind res_bind].
  destruct (src_read_spec s1 10 W1 ltac:(lia)) as (p & s2 & -> & Ep & Lp & W2 & C2 & T2).
  rewrite C1, T1, Lc4 in Ep, Lp. rewrite C1 in C2. rewrite T1, Lc4 in T2.
  destruct (Z.eqb_spec (zlen p) 0); [eexists _, _; split; [done|]; split_and!; try done; lia|].
  assert (Hpb : bytes p) by (rewrite Ep; auto with orar).
  destruct (size_vint_len_spec p 0 Hpb ltac:(lia)) as [->|(l & prest & Epl & Hl & Esl)].
  { eexists _, _. split; [done|]. split_and!; try done. lia. }
  rewrite Esl. replace (0 + zlen l) with (zlen l) by lia.
  pose proof (is_vint_nonempty l Hl) as Hl1.
  assert (Lpl : zlen p = zlen l + zlen prest) by (rewrite Epl; zlen_lia).
  pose proof (zlen_nonneg prest).
  rewrite (proj2 (Z.eqb_neq _ _)) by lia.
  (* the seek back over the over-read bytes *)
  assert (Hseek : exists s3, (if zlen p >? zlen l then src_seek s2 (zlen l - zlen p) Current
                              else (true, s2)) = (true, s3) /\
                  src_wf s3 /\ src_contents s3 = data /\ src_tell s3 = pos + 4 + zlen l).
  { rewrite Z.gtb_ltb. destruct (Z.ltb_spec (zlen l) (zlen p)).
    - pose proof (src_seek_state s2 (zlen l - zlen p) Current W2 ltac:(lia)) as Sk. cbv zeta in Sk.
      destruct (src_seek s2 (zlen l - zlen p) Current) as [ok s3]. destruct Sk as (W3 & C3 & Hok & T3).
      assert (ok = true) as -> by (apply Hok; rewrite C2, T2; lia).
      exists s3. split_and!; try done; [by rewrite C3|]. rewrite T3, T2. lia.
    - exists s2. split_and!; try done. rewrite T2. lia. }
  destruct Hseek as (s3 & -> & W3 & C3 & T3). cbn [negb].
  assert (Hvl : exists rest, view data (pos + 4) = l ++ rest)
    by (apply (take_prefix 10 data (pos + 4) l prest); by rewrite <- Ep).
  destruct Hvl as [vrest Hvl].
  destruct (read_vint_spec p 0 (zlen l)) as (ok & v & n' & E & Hv & Hn & _ & Hok & Hfail); [done|lia..|].
  rewrite E. cbn [mbind res_bind].
  destruct ok; cbn [negb]; [|eexists _, _; split; [done|]; split_and!; try done; lia].
  assert (v = vint_val l) as ->.
  { destruct (Hok eq_refl) as (l' & rest' & Hview & Hl' & <- & ->). rewrite view_0, Epl in Hview.
    by rewrite (is_vint_prefix _ _ _ _ Hl Hl' Hview). }
  rewrite Z.gtb_ltb. destruct (Z.ltb_spec MAX_BODY_SIZE (vint_val l));
    [eexists _, _; split; [done|]; split_and!; try done; lia|].
  destruct (src_read_spec s3 (vint_val l) W3 ltac:(lia)) as (body & s4 & -> & Eb & Lb & W4 & C4 & T4).
  rewrite C3, T3 in Eb, Lb. rewrite C3 in C4. rewrite T3 in T4.
  destruct (Z.eqb_spec (zlen body) (vint_val l)) as [Lbv|]; cbn [negb];
    [|eexists _, _; split; [done|]; split_and!; try done; lia].
  rewrite Epl. replace (take (Z.to_nat (zlen l)) (l ++ prest)) with l
    by (unfold zlen; rewrite Nat2Z.id, take_app_length; done).
  destruct (Z.eqb_spec (header_crc l body) (le_val c)) as [Hcrc|]; cbn [negb];
    [|eexists _, _; split; [done|]; split_and!; try done; lia].
  assert (Hbody : bytes body) by (rewrite Eb; auto with orar).
  unfold MAX_BODY_SIZE in *.
  destruct (finish_block_total body) as [r Hr]; [done|lia|]. rewrite Hr. cbn [mbind res_bind].
  eexists _, _. split; [done|]. split; [done|]. split; [done|].
  apply finish_block_ok in Hr as [(ty & fl & ds & -> & Hpf)|[-> _]]; [|lia].
  exists l. split; [|split; [lia|done]].
  exists c, (drop (Z.to_nat (vint_val l)) (view data (pos + 4 + zlen l))).
  rewrite Hvc, Hvl. unfold MAX_BODY_SIZE. split_and!; try done; try lia.
  do 2 f_equal. rewrite Eb. rewrite take_drop. symmetry. by apply view_step; [lia|].
Qed.
End stream_laws.

Lemma framed_unique data pos l body l' body' :
  framed data pos l body -> framed data pos l' body' -> l = l' /\ body = body'.
Proof.
  intros (c & rest & Hv & Hc & Hl & _ & Hval & _) (c' & rest' & Hv' & Hc' & Hl' & _ & Hval' & _).
  rewrite Hv in Hv'. apply app_inj_1 in Hv' as [-> E]; [|unfold zlen in *; lia].
  pose proof (is_vint_prefix _ _ _ _ Hl Hl' E) as <-. split; [done|].
  apply app_inv_head in E. apply app_inj_1 in E as [-> _]; [done|]. unfold zlen in *. lia.
Qed.

(** A prefix of the view of known length is what a read of that size returns. *)
Lemma take_view_app data pos a b n :
  view data pos = a ++ b -> n = zlen a -> take (Z.to_nat n) (view data pos) = a.
Proof. intros -> ->. unfold zlen. by rewrite Nat2Z.id, take_app_length. Qed.

Section stream_framed.
Context {S : Type} `{ReadSourceLaws S}.

Lemma read_block_raw_framed src l body r :
  src_wf src -> bytes (src_contents src) ->
  framed (src_contents src) (src_tell src) l body -> finish_block body = Ok r ->
  exists src', read_block_raw src = Ok (r, src') /\ src_wf src' /\
    src_contents src' = src_contents src /\
    src_tell src' = src_tell src + 4 + zlen l + zlen body.
Proof.
  intros Hwf Hd (c & rest & Hv & Hc & Hl & Hl10 & Hval & Hmax & Hcrc) Hfin.
  pose proof (src_tell_range src Hwf) as [R1 R2].
  set (data := src_contents src) in *. set (pos := src_tell src) in *.
  pose proof (view_length data pos _ R1 Hv) as L. rewrite !zlen_app in L.
  pose proof (zlen_nonneg body). pose proof (zlen_nonneg rest). pose proof (is_vint_nonempty l Hl).
  assert (Hv2 : view data (pos + 4) = l ++ body ++ rest) by (rewrite <- Hc; apply view_step; [lia|done]).
  assert (Hv3 : view data (pos + 4 + zlen l) = body ++ rest) by (apply view_step; [lia|done]).
  unfold read_block_raw.
  destruct (src_read_spec src 4 Hwf ltac:(lia)) as (c' & s1 & -> & Ec & _ & W1 & C1 & T1).
  fold data pos in Ec, C1, T1. rewrite (take_view_app _ _ c (l ++ body ++ rest)) in Ec by done.
  subst c'. rewrite Hc. cbn [Z.eqb Pos.eqb negb].
  assert (Hcb : bytes c).
  { pose proof (bytes_view data pos Hd) as B. rewrite Hv in B. by apply Forall_app in B as [B _]. }
  rewrite (read_le32_view c 0 c []) by (done || lia || by rewrite app_nil_r). cbn [mbind res_bind].
  destruct (src_read_spec s1 10 W1 ltac:(lia)) as (p & s2 & -> & Ep & Lp & W2 & C2 & T2).
  rewrite C1, T1, Hc in Ep, Lp. rewrite C1 in C2. rewrite T1, Hc in T2.
  rewrite (proj2 (Z.eqb_neq _ _)) by lia.
  assert (Epl : exists prest, p = l ++ prest).
  { rewrite Ep, Hv2. exists (take (10 - length l) (body ++ rest)).
    change (Z.to_nat 10) with 10%nat. rewrite take_app. f_equal. apply take_ge. unfold zlen in *. lia. }
  destruct Epl as [prest Epl]. rewrite Epl, size_vint_len_enc, <- Epl by (done || lia).
  replace (0 + zlen l) with (zlen l) by lia. rewrite (proj2 (Z.eqb_neq _ _)) by lia.
  assert (Lpl : zlen p = zlen l + zlen prest) by (rewrite Epl; zlen_lia).
  pose proof (zlen_nonneg prest).
  assert (Hseek : exists s3, (if zlen p >? zlen l then src_seek s2 (zlen l - zlen p) Current
                              else (true, s2)) = (true, s3) /\
                  src_wf s3 /\ src_contents s3 = data /\ src_tell s3 = pos + 4 + zlen l).
  { rewrite Z.gtb_ltb. destruct (Z.ltb_spec (zlen l) (zlen p)).
    - pose proof (src_seek_state s2 (zlen l - zlen p) Current W2 ltac:(lia)) as Sk. cbv zeta in Sk.
      destruct (src_seek s2 (zlen l - zlen p) Current) as [ok s3]. destruct Sk as (W3 & C3 & Hok & T3).
      assert (ok = true) as -> by (apply Hok; rewrite C2, T2; lia).
      exists s3. split_and!; try done; [by rewrite C3|]. rewrite T3, T2. lia.
    - exists s2. split_and!; try done. rewrite T2. lia. }
  destruct Hseek as (s3 & -> & W3 & C3 & T3). cbn [negb].
  unfold MAX_BODY_SIZE in *.
  rewrite (read_vint_enc p 0 (zlen l) l prest) by (done || lia). cbn [mbind res_bind negb].
  rewrite Z.gtb_ltb, (proj2 (Z.ltb_ge _ _)) by lia.
  destruct (src_read_spec s3 (vint_val l) W3 ltac:(lia)) as (body' & s4 & -> & Eb & _ & W4 & C4 & T4).
  rewrite C3, T3, (take_view_app _ _ body rest) in Eb by done. subst body'.
  rewrite <- Hval, Z.eqb_refl. cbn [negb].
  rewrite Epl. rewrite (take_view_app (l ++ prest) 0 l prest) by done.
  rewrite <- Hcrc, Z.eqb_refl. cbn [negb]. rewrite Hfin. cbn [mbind res_bind].
  exists s4. split_and!; try done; [by rewrite C4|]. lia.
Qed.
End stream_framed.

(** ** Properties *)

(** C5. On any bytes whatsoever, the typed header parsers terminate, read
    nothing outside the body they are given (every [size_t] expression
    included), and when they accept, every field of the result fits the width
    its C++ type gives it: adversarial headers cannot cause an out-of-bounds
    access. *)
Theorem header_parsers_in_bounds (body : list Z) :
  bytes body -> zlen body < 2 ^ 63 ->
  wp (parse_main_header body) MainBlock_ok /\
  wp (parse_file_header body) FileBlock_ok /\
  wp (parse_crypt_header body) CryptBlock_ok /\
  wp (parse_end_header body) (fun e => is_u64 (end_flags e)).
Proof.
  intros Hb Hl. split; [by apply wp_parse_main_header|]. split; [by apply wp_parse_file_header|].
  split; [by apply wp_parse_crypt_header|by apply wp_parse_end_header].
Qed.

(** A file header whose extra area holds a hash record that claims 2^64 - 1
    bytes: clamped, too short for a digest, ignored. *)
Lemma header_parsers_in_bounds_witness :
  let body := [2; 1; 13; 0; 5; 32; 0; 0; 1; 0x61;
               0xFF; 0xFF; 0xFF; 0xFF; 0xFF; 0xFF; 0xFF; 0xFF; 0xFF; 1; 2; 0; 7] in
  (exists b, parse_file_header body = Ok b /\ has_blake2sp (hash b) = false) /\
  wp (parse_file_header body) FileBlock_ok.
Proof.
  split; [eexists; split; vm_compute; reflexivity|].
  apply header_parsers_in_bounds; [bytes_const|vm_compute; reflexivity].
Defined.

(** C8. [read_block_raw_mem] accepts exactly the framed blocks: it returns
    [Ok] with a body and a new offset if and only if at that offset stand the
    CRC-32 of (size vint, body), a size vint encoding the body length in any
    width up to ten bytes, and the body, no longer than 2 MiB and with
    well-formed common fields; the offset ends right behind the block.  On
    every other input it terminates within bounds and reports an error. *)
Theorem read_block_raw_mem_exact (data : list Z) (pos : Z) :
  bytes data -> 0 <= pos <= zlen data -> zlen data < 2 ^ 63 ->
  safe (read_block_raw_mem data pos) /\
  (forall ty fl body ds pos',
    read_block_raw_mem data pos = Ok (BlockOk ty fl body ds, pos') <->
    exists l, framed data pos l body /\ parse_block_fields body = Ok (ty, fl, ds) /\
              pos' = pos + 4 + zlen l + zlen body).
Proof.
  intros Hd Hp Hz.
  destruct (read_block_raw_mem_cases data pos Hd Hp Hz) as (r & p' & E & Hr).
  split; [by rewrite E|]. intros ty fl body ds pos'. split.
  - rewrite E. intros [= -> ->]. destruct Hr as (l & H1 & H2 & H3). by exists l.
  - intros (l & Hf & Hpf & ->). apply (read_block_raw_mem_framed data pos l body); try done.
    unfold finish_block. by rewrite Hpf.
Qed.

(** An end-of-archive block as every archive ends with: [HEAD_ENDARC], flags 4. *)
Lemma read_block_raw_mem_exact_witness :
  let data := [0x1D; 0x77; 0x56; 0x51; 0x03; 0x05; 0x04; 0x00] in
  read_block_raw_mem data 0 = Ok (BlockOk 5 4 [5; 4; 0] 0, 8) /\
  exists l, framed data 0 l [5; 4; 0].
Proof.
  cbv zeta. assert (E : read_block_raw_mem [0x1D; 0x77; 0x56; 0x51; 0x03; 0x05; 0x04; 0x00] 0
    = Ok (BlockOk 5 4 [5; 4; 0] 0, 8)) by (vm_compute; reflexivity).
  split; [exact E|].
  destruct (read_block_raw_mem_exact [0x1D; 0x77; 0x56; 0x51; 0x03; 0x05; 0x04; 0x00] 0) as [_ H];
    [bytes_const|vm_compute; split; discriminate|vm_compute; reflexivity|].
  destruct (proj1 (H 5 4 [5; 4; 0] 0 8) E) as (l & Hl & _). exists l. exact Hl.
Defined.

(** C7. The stream reader and the memory reader agree: over any [ReadSource]
    that obeys its laws, [read_block_raw] returns [Ok] with some body exactly
    when [read_block_raw_mem] on the source's contents does, with the same
    fields, and both end at the same position (the ten-byte prefetch of the
    size vint is undone); it reports [Eof] only at the end of the data. *)
Theorem read_block_raw_agrees {S : Type} `{ReadSourceLaws S} (src : S) :
  src_wf src -> bytes (src_contents src) ->
  exists r src', read_block_raw src = Ok (r, src') /\ src_contents src' = src_contents src /\
    (r = BlockEof -> src_tell src = zlen (src_contents src)) /\
    (forall ty fl body ds,
      r = BlockOk ty fl body ds <->
      read_block_raw_mem (src_contents src) (src_tell src)
        = Ok (BlockOk ty fl body ds, src_tell src')).
Proof.
  intros Hwf Hd. pose proof (src_tell_range src Hwf) as [R1 R2].
  destruct (read_block_raw_cases src Hwf Hd) as (r & src' & E & W' & C' & Hr). cbv zeta in C', Hr.
  exists r, src'. split; [done|]. split; [done|]. split; [by intros ->|].
  intros ty fl body ds. split.
  - intros ->. destruct Hr as (l & Hf & -> & Hpf).
    apply (read_block_raw_mem_framed _ _ l); try done. unfold finish_block. by rewrite Hpf.
  - intros Em.
    destruct (read_block_raw_mem_cases _ _ Hd R1 R2) as (r2 & p2 & E2 & H2).
    rewrite Em in E2. injection E2 as <- <-. destruct H2 as (l & Hf & Ht & Hpf).
    destruct (read_block_raw_framed src l body (BlockOk ty fl body ds) Hwf Hd Hf) as (s2 & E3 & _).
    { unfold finish_block. by rewrite Hpf. }
    rewrite E in E3. by injection E3 as -> _.
Qed.

Lemma read_block_raw_agrees_witness :
  let data := [0x1D; 0x77; 0x56; 0x51; 0x03; 0x05; 0x04; 0x00; 0xAA; 0xBB] in
  let src := {| bs_data := data; bs_pos := 0 |} in
  (exists src', read_block_raw src = Ok (BlockOk 5 4 [5; 4; 0] 0, src') /\ bs_pos src' = 8) /\
  (exists r src', read_block_raw src = Ok (r, src') /\ bs_data src' = data).
Proof.
  cbv zeta. split; [eexists; split; vm_compute; reflexivity|].
  destruct (read_block_raw_agrees
    {| bs_data := [0x1D; 0x77; 0x56; 0x51; 0x03; 0x05; 0x04; 0x00; 0xAA; 0xBB]; bs_pos := 0 |})
    as (r & src' & E & C & _).
  - vm_compute. repeat split; discriminate.
  - bytes_const.
  - exists r, src'. split; [exact E|exact C].
Defined.
