(* ===== verification/HeaderWriter.v ===== *)
(** Writing header blocks: [src/format/header_writer.cpp].

    Each extra record is its own definition, in the order
    [serialize_file_block] emits them; [file_body] is the block before
    [wrap_block] adds checksum and size.  [write_*] append to a sink that may
    run out of room ([FileStream::write]).  Writing encrypted headers (an
    active [HeaderCryptWriter]) is not part of this file. *)

From stdpp Require Import base tactics list numbers.
From Stdlib Require Import ZArith Lia.
From S2P Require Import Prelude Bytes Vint Crc Source Headers HeaderReader.

Local Open Scope Z_scope.

(** ** Output *)

Class WriteSink (S : Type) := { sink_write : S -> list Z -> Z * S }.

(** A file on a volume with [fs_room] bytes left: a short write stops there. *)
Record FileSink := { fs_written : list Z; fs_room : Z }.

Definition fs_write (s : FileSink) (l : list Z) : Z * FileSink :=
  let n := Z.min (zlen l) (fs_room s) in
  (n, {| fs_written := fs_written s ++ take (Z.to_nat n) l; fs_room := fs_room s - n |}).

#[export] Instance FileSink_sink : WriteSink FileSink := { sink_write := fs_write }.

Definition push_le32 (val : Z) : list Z := le32_bytes val.

(** [for (i < 8) push_back((val >> 8 * i) & 0xFF)]. *)
Definition push_le64 (val : Z) : list Z :=
  map (fun i => Z.land (Z.shiftr val (8 * i)) 0xFF) [0; 1; 2; 3; 4; 5; 6; 7].

(** ** Framing *)

Definition wrap_block (body : list Z) : list Z :=
  let size_vint := push_vint [] (zlen body) in
  let crc_val := header_crc size_vint body in
  push_le32 crc_val ++ size_vint ++ body.

Section emit.
Context {S : Type} `{WriteSink S}.

Definition emit_block (dest : S) (wrapped : list Z) : bool * S :=
  let '(n, dest) := sink_write dest wrapped in (n =? zlen wrapped, dest).

Definition write_signature (dest : S) : bool * S :=
  let '(n, dest) := sink_write dest rar5_signature in (n =? RAR5_SIGNATURE_SIZE, dest).
End emit.

(** ** Main header *)

(** [push_vint_fixed(extra, static_cast<uint64>(offset), 10)]. *)
Definition locator_vint (offset : Z) : list Z := (push_vint_fixed [] (u64 offset) 10).1.

Definition locator_extra (b : MainBlock) : list Z :=
  if has_locator b then
    let has_qo := locator_qo_offset b >=? 0 in
    let has_rr := locator_rr_offset b >=? 0 in
    if has_qo && has_rr then
      vint 22 ++ [MHEXTRA_LOCATOR] ++ vint (Z.lor 0x01 0x02) ++
      locator_vint (locator_qo_offset b) ++ locator_vint (locator_rr_offset b)
    else if has_qo then
      vint 12 ++ [MHEXTRA_LOCATOR] ++ vint 0x01 ++ locator_vint (locator_qo_offset b)
    else if has_rr then
      vint 12 ++ [MHEXTRA_LOCATOR] ++ vint 0x02 ++ locator_vint (locator_rr_offset b)
    else []
  else [].

Definition bit (c : bool) (mask : Z) : Z := if c then mask else 0.

Definition metadata_flags (b : MainBlock) : Z :=
  Z.lor (Z.lor (Z.lor (bit (negb (zlen (metadata_name b) =? 0)) 0x01)
    (bit (negb (metadata_ctime b =? 0)) 0x02))
    (bit (metadata_is_unix_time b) 0x04)) (bit (metadata_is_nanoseconds b) 0x08).

Definition metadata_payload (b : MainBlock) : list Z :=
  let flags := metadata_flags b in
  vint flags ++
  (if has_flag flags 0x01 then vint (zlen (metadata_name b)) ++ metadata_name b else []) ++
  (if has_flag flags 0x02 then
     if metadata_is_unix_time b && negb (metadata_is_nanoseconds b)
     then push_le32 (u32 (metadata_ctime b)) else push_le64 (metadata_ctime b)
   else []).

Definition metadata_extra (b : MainBlock) : list Z :=
  if has_metadata b then
    vint (1 + zlen (metadata_payload b)) ++ [MHEXTRA_METADATA] ++ metadata_payload b
  else [].

Definition main_body (b : MainBlock) : list Z :=
  let extra := locator_extra b ++ metadata_extra b in
  let common_flags := if zlen extra =? 0 then 0 else HFL_EXTRA in
  vint HEAD_MAIN ++ vint common_flags ++
  (if has_flag common_flags HFL_EXTRA then vint (zlen extra) else []) ++
  vint (arc_flags b) ++
  (if has_flag (arc_flags b) MHFL_VOLNUMBER then vint (vol_number b) else []) ++
  extra.

Definition write_main_block {S} `{WriteSink S} (dest : S) (b : MainBlock) : bool * S :=
  emit_block dest (wrap_block (main_body b)).

(** ** File extra records *)

(** [push_vint(extra, content.size() + 1); push_back(type); insert(content)]. *)
Definition extra_record (ty : Z) (content : list Z) : list Z :=
  vint (zlen content + 1) ++ [ty] ++ content.

Definition crypt_content (c : FileCrypt) : list Z :=
  vint (crypt_version c) ++ vint (crypt_flags c) ++ [lg2_count c] ++ salt c ++ init_v c ++
  (if has_psw_check c then psw_check c ++ psw_check_csum c else []).

Definition crypt_extra (b : FileBlock) : list Z :=
  if is_encrypted (crypt b) then extra_record FHEXTRA_CRYPT (crypt_content (crypt b)) else [].

Definition redir_content (r : Redir) : list Z :=
  vint (redir_type r) ++ vint (if redir_dir_target r then 1 else 0) ++
  vint (zlen (redir_target r)) ++ redir_target r.

Definition redir_extra (b : FileBlock) : list Z :=
  if negb (redir_type (redir b) =? 0) then extra_record FHEXTRA_REDIR (redir_content (redir b))
  else [].

Definition hash_extra (b : FileBlock) : list Z :=
  if has_blake2sp (hash b) then
    vint (2 + 32) ++ [FHEXTRA_HASH] ++ [0] ++ blake2sp (hash b)
  else [].

(** Which stamps are written, and in which of the two forms. *)
Record HTimePlan := { hp_unix : bool; hp_mtime : bool; hp_ctime : bool; hp_atime : bool; hp_ns : bool }.

Definition unix_set (s : Stamp) : bool := negb (st_unix s =? 0) || st_has_ns s.
Definition win_set (s : Stamp) : bool := negb (st_win s =? 0).

Definition htime_plan_unix (t : HTimes) : HTimePlan :=
  {| hp_unix := true; hp_mtime := unix_set (mtime t); hp_ctime := unix_set (ctime t);
     hp_atime := unix_set (atime t);
     hp_ns := st_has_ns (mtime t) || st_has_ns (ctime t) || st_has_ns (atime t) |}.

Definition htime_plan_win (t : HTimes) : HTimePlan :=
  {| hp_unix := false; hp_mtime := win_set (mtime t); hp_ctime := win_set (ctime t);
     hp_atime := win_set (atime t); hp_ns := false |}.

Definition hp_any (p : HTimePlan) : bool := hp_mtime p || hp_ctime p || hp_atime p.

Definition htime_plan (t : HTimes) : HTimePlan :=
  if htime_is_unix t then
    let p := htime_plan_unix t in
    if negb (hp_any p) && win_set (mtime t) then htime_plan_win t else p
  else
    let p := htime_plan_win t in
    if negb (hp_any p) && unix_set (mtime t) then htime_plan_unix t else p.

Definition htime_flags (p : HTimePlan) : Z :=
  if hp_unix p then
    Z.lor (Z.lor (Z.lor (Z.lor 0x01 (bit (hp_mtime p) 0x02)) (bit (hp_ctime p) 0x04))
      (bit (hp_atime p) 0x08)) (bit (hp_ns p) 0x10)
  else
    Z.lor (Z.lor (bit (hp_mtime p) 0x02) (bit (hp_ctime p) 0x04)) (bit (hp_atime p) 0x08).

Definition stamp_bytes (c is_unix : bool) (s : Stamp) : list Z :=
  if c then if is_unix then push_le32 (st_unix s) else push_le64 (st_win s) else [].

Definition ns_bytes (c : bool) (s : Stamp) : list Z := if c then push_le32 (st_ns s) else [].

Definition htime_content (p : HTimePlan) (t : HTimes) : list Z :=
  vint (htime_flags p) ++
  stamp_bytes (hp_mtime p) (hp_unix p) (mtime t) ++
  stamp_bytes (hp_ctime p) (hp_unix p) (ctime t) ++
  stamp_bytes (hp_atime p) (hp_unix p) (atime t) ++
  (if hp_ns p && hp_unix p then
     ns_bytes (hp_mtime p) (mtime t) ++ ns_bytes (hp_ctime p) (ctime t) ++
     ns_bytes (hp_atime p) (atime t)
   else []).

Definition htime_extra (b : FileBlock) : list Z :=
  let p := htime_plan (htimes b) in
  if hp_any p then extra_record FHEXTRA_HTIME (htime_content p (htimes b)) else [].

Definition version_extra (b : FileBlock) : list Z :=
  if has_file_version (version b) then
    extra_record FHEXTRA_VERSION (vint 0 ++ vint (file_version (version b)))
  else [].

Definition owner_flags (o : Owner) : Z :=
  Z.lor (Z.lor (Z.lor (bit (negb (zlen (owner_user o) =? 0)) 0x0001)
    (bit (negb (zlen (owner_group o) =? 0)) 0x0002))
    (bit (has_owner_uid o) 0x0004)) (bit (has_owner_gid o) 0x0008).

(** Names are truncated to the 255 bytes the format allows. *)
Definition push_owner_name (name : list Z) : list Z :=
  let len := Z.min (zlen name) 255 in vint len ++ take (Z.to_nat len) name.

Definition owner_content (o : Owner) : list Z :=
  let oflags := owner_flags o in
  vint oflags ++
  (if has_flag oflags 0x0001 then push_owner_name (owner_user o) else []) ++
  (if has_flag oflags 0x0002 then push_owner_name (owner_group o) else []) ++
  (if has_flag oflags 0x0004 then vint (owner_uid o) else []) ++
  (if has_flag oflags 0x0008 then vint (owner_gid o) else []).

Definition owner_present (o : Owner) : bool :=
  has_owner o || negb (zlen (owner_user o) =? 0) || negb (zlen (owner_group o) =? 0) ||
  has_owner_uid o || has_owner_gid o.

Definition owner_extra (b : FileBlock) : list Z :=
  if owner_present (owner b) then extra_record FHEXTRA_OWNER (owner_content (owner b)) else [].

Definition subdata_extra (b : FileBlock) : list Z :=
  if is_service (fixed b) && negb (zlen (sub_data b) =? 0)
  then extra_record FHEXTRA_SUBDATA (sub_data b) else [].

(** Attributes beyond the reader's caps are skipped. *)
Definition xattr_emitted (x : FileXattr) : bool :=
  negb ((zlen (xa_name x) =? 0) || (zlen (xa_name x) >? FHEXTRA_XATTR_NAME_MAX) ||
        (zlen (xa_value x) >? FHEXTRA_XATTR_VALUE_MAX)).

Definition xattr_bytes (x : FileXattr) : list Z :=
  vint (zlen (xa_name x)) ++ xa_name x ++ vint (zlen (xa_value x)) ++ xa_value x.

Fixpoint xattr_entries (l : list FileXattr) : list Z * Z :=
  match l with
  | [] => ([], 0)
  | x :: l' =>
      let '(entries, emitted) := xattr_entries l' in
      if xattr_emitted x then (xattr_bytes x ++ entries, emitted + 1) else (entries, emitted)
  end.

Definition xattr_extra (b : FileBlock) : list Z :=
  let '(entries, emitted) := xattr_entries (xattrs b) in
  if emitted >? 0 then extra_record FHEXTRA_XATTR (vint 0 ++ vint emitted ++ entries) else [].

Definition unknown_extra (b : FileBlock) : list Z := concat (map ue_raw (unknown_extras b)).

Definition file_extra (b : FileBlock) : list Z :=
  crypt_extra b ++ redir_extra b ++ hash_extra b ++ htime_extra b ++ version_extra b ++
  owner_extra b ++ subdata_extra b ++ xattr_extra b ++ unknown_extra b.

(** ** File and service headers *)

Definition head_flags (b : FileBlock) (extra_head_flags : Z) : Z :=
  Z.lor (Z.lor (if pack_size (fixed b) >=? 0 then HFL_DATA else 0)
    (if zlen (file_extra b) =? 0 then 0 else HFL_EXTRA))
    (Z.land extra_head_flags
       (Z.lor (Z.lor (Z.lor HFL_SPLITBEFORE HFL_SPLITAFTER) HFL_CHILD) HFL_INHERITED)).

Definition eff_file_flags (f : FileFixed) : Z :=
  Z.lor (Z.lor (file_flags f) (bit (has_crc32 f) FHFL_CRC32))
    (bit (negb (utime_unix f =? 0)) FHFL_UTIME).

(** [while (2 * pow2 <= win_size && dict_bits < max)], [left = max - dict_bits]. *)
Fixpoint dict_loop (left : nat) (win pow2 dict_bits : Z) : Z * Z :=
  match left with
  | O => (pow2, dict_bits)
  | S left' =>
      if 2 * pow2 <=? win then dict_loop left' win (2 * pow2) (dict_bits + 1)
      else (pow2, dict_bits)
  end.

Definition dict_fraction (win pow2 : Z) : Z :=
  if win >? pow2 then
    let fraction := u64 ((win - pow2) * 32) / pow2 in
    let fraction := if fraction >? 31 then 31 else fraction in
    Z.land (u32 fraction) 0x1F
  else 0.

(** The compression-information word. *)
Definition comp_info (f : FileFixed) : Z :=
  let info := Z.lor (Z.lor (Z.land (unp_ver f) 0x3F) (bit (is_solid f) 0x40))
                (Z.shiftl (Z.land (method f) 7) 7) in
  let info :=
    if win_size f >=? 0x20000 then
      let '(pow2, dict_bits) :=
        dict_loop (if unp_ver f =? 1 then 23 else 15) (win_size f) 0x20000 0 in
      let info := Z.lor info (Z.shiftl dict_bits 10) in
      if unp_ver f =? 1 then Z.lor info (Z.shiftl (dict_fraction (win_size f) pow2) 15) else info
    else info in
  if (unp_ver f =? 1) && negb (extra_dist f) then Z.lor info FCI_RAR5_COMPAT else info.

Definition file_body (b : FileBlock) (extra_head_flags : Z) (fixed_pack_size_vint : bool) : list Z :=
  let f := fixed b in
  let extra := file_extra b in
  let flags := head_flags b extra_head_flags in
  let eff := eff_file_flags f in
  vint (if is_service f then HEAD_SERVICE else HEAD_FILE) ++
  vint flags ++
  (if has_flag flags HFL_EXTRA then vint (zlen extra) else []) ++
  (if pack_size f >=? 0 then
     if fixed_pack_size_vint then (push_vint_fixed [] (pack_size f) 10).1 else vint (pack_size f)
   else []) ++
  vint eff ++ vint (unp_size f) ++ vint (attributes f) ++
  (if has_flag eff FHFL_UTIME then push_le32 (utime_unix f) else []) ++
  (if has_flag eff FHFL_CRC32 then push_le32 (data_crc32 f) else []) ++
  vint (comp_info f) ++ vint (host_os f) ++
  vint (zlen (file_name f)) ++ file_name f ++ extra.

Definition serialize_file_block (b : FileBlock) (extra_head_flags : Z) (fixed_pack_size_vint : bool)
  : list Z := wrap_block (file_body b extra_head_flags fixed_pack_size_vint).

Definition write_file_block {S} `{WriteSink S} (dest : S) (b : FileBlock)
    (extra_head_flags : Z) (fixed_pack_size_vint : bool) : bool * S :=
  emit_block dest (serialize_file_block b extra_head_flags fixed_pack_size_vint).

(** ** Encryption and end headers *)

Definition crypt_block_body (b : CryptBlock) : list Z :=
  vint HEAD_CRYPT ++ vint 0 ++ vint (cb_version b) ++
  vint (if cb_has_psw_check b then 1 else 0) ++ [cb_lg2_count b] ++ cb_salt b ++
  (if cb_has_psw_check b then cb_psw_check b ++ cb_psw_check_csum b else []).

Definition write_crypt_block {S} `{WriteSink S} (dest : S) (b : CryptBlock) : bool * S :=
  emit_block dest (wrap_block (crypt_block_body b)).

Definition end_body (b : EndArcBlock) : list Z :=
  vint HEAD_ENDARC ++ vint 0 ++ vint (end_flags b).

Definition write_end_block {S} `{WriteSink S} (dest : S) (b : EndArcBlock) : bool * S :=
  emit_block dest (wrap_block (end_body b)).
