(* ===== verification/HeaderRoundtrip.v ===== *)
(** What the header writer writes, the header reader reads back.

    [region] is a cursor over bytes known to stand in the body; [parses l f]
    says that the extra loop, standing on the bytes [l], applies [f] to the
    block and moves behind them.  The round trips of the main, file/service,
    encryption and end headers follow, with the normalisation the writer
    performs spelled out ([reread]). *)

From stdpp Require Import base tactics list numbers gmap.
From Stdlib Require Import ZArith Lia.
From S2P Require Import Prelude Bytes Vint Crc Source Headers HeaderReader HeaderWriter.

Local Open Scope Z_scope.

(** ** Regions *)

(** The bytes of the body from [off] to [lim] are [l]. *)
Definition region (body : list Z) (off : Z) (l : list Z) (lim : Z) : Prop :=
  bytes body /\ zlen body < 2 ^ 63 /\ 0 <= off /\ lim = off + zlen l /\ lim <= zlen body /\
  view body off = l ++ view body lim.

Section region.
Context {body : list Z}.

Lemma region_step off a l lim :
  region body off (a ++ l) lim -> region body (off + zlen a) l lim.
Proof.
  intros (H1 & H2 & H3 & H4 & H5 & H6). rewrite zlen_app in H4. rewrite <- app_assoc in H6.
  split_and!; try done; [zlen_lia|lia|]. by apply view_step.
Qed.

Lemma region_bounds off l lim :
  region body off l lim -> 0 <= off /\ lim = off + zlen l /\ lim <= zlen body /\ zlen body < 2 ^ 63.
Proof. intros (H1 & H2 & H3 & H4 & H5 & H6). done. Qed.

Lemma region_prefix off a l lim :
  region body off (a ++ l) lim -> region body off a (off + zlen a).
Proof.
  intros H. pose proof (region_step _ _ _ _ H) as (_ & _ & _ & L & _ & V).
  destruct H as (H1 & H2 & H3 & H4 & H5 & H6).
  rewrite zlen_app in H4. split_and!; try done; [zlen_lia|].
  rewrite H6, V. by rewrite app_assoc.
Qed.

Lemma region_vint_read off v l lim :
  region body off (vint v ++ l) lim -> 0 <= v < 2 ^ 64 ->
  read_vint body off (lim -s off) = Ok (true, v, zlen (vint v)).
Proof.
  intros (H1 & H2 & H3 & H4 & H5 & H6) Hv. rewrite zlen_app in H4.
  rewrite size_sub_small by zlen_lia. rewrite <- app_assoc in H6.
  apply (read_push_vint body off _ v (l ++ view body lim) Hv); [zlen_lia|exact H6].
Qed.

Lemma region_try_vint off v l lim :
  region body off (vint v ++ l) lim -> 0 <= v < 2 ^ 64 ->
  try_vint body off lim = Ok (Some (v, off + zlen (vint v))).
Proof.
  intros H Hv. unfold try_vint. rewrite (region_vint_read _ _ _ _ H Hv). cbn [mbind res_bind].
  destruct H as (H1 & H2 & H3 & H4 & H5 & H6). rewrite zlen_app in H4.
  rewrite size_add_small by zlen_lia. done.
Qed.

Lemma region_vint_field off v l lim :
  region body off (vint v ++ l) lim -> 0 <= v < 2 ^ 64 ->
  vint_field body off lim = Ok (v, off + zlen (vint v)).
Proof. intros H Hv. unfold vint_field. by rewrite (region_try_vint _ _ _ _ H Hv). Qed.

Lemma region_byte off b l lim :
  region body off ([b] ++ l) lim -> byte_at body off = Ok b /\ off +s 1 = off + 1.
Proof.
  intros (H1 & H2 & H3 & H4 & H5 & H6). split.
  - by apply (byte_at_view _ _ _ (l ++ view body lim)).
  - rewrite zlen_app in H4. apply size_add_small. change (zlen [b]) with 1 in H4. zlen_lia.
Qed.

Lemma region_slice off a l lim n :
  region body off (a ++ l) lim -> n = zlen a ->
  slice body off n = Ok a /\ off +s n = off + n /\ n <= lim -s off.
Proof.
  intros (H1 & H2 & H3 & H4 & H5 & H6) ->. rewrite zlen_app in H4. rewrite <- app_assoc in H6.
  split; [apply (slice_view body off a (l ++ view body lim)); [zlen_lia|exact H6]|].
  split; [apply size_add_small; zlen_lia|]. rewrite size_sub_small; zlen_lia.
Qed.

(** The last field of a region. *)
Lemma region_slice_all off a lim n :
  region body off a lim -> n = zlen a ->
  slice body off n = Ok a /\ (off +s n) = lim /\ (lim -s off) = n.
Proof.
  intros H ->. pose proof (region_bounds _ _ _ H) as R. rewrite <- (app_nil_r a) in H at 1.
  destruct (region_slice _ _ _ _ (zlen a) H eq_refl) as (E & -> & _). pose proof (zlen_nonneg a).
  split_and!; [done|lia|]. rewrite size_sub_small; lia.
Qed.

(** The last vint of a region. *)
Lemma region_vint_last off v lim :
  region body off (vint v) lim -> 0 <= v < 2 ^ 64 ->
  read_vint body off (lim -s off) = Ok (true, v, zlen (vint v)) /\
  try_vint body off lim = Ok (Some (v, lim)) /\ vint_field body off lim = Ok (v, lim).
Proof.
  intros H Hv. pose proof (region_bounds _ _ _ H) as (_ & -> & _ & _).
  rewrite <- (app_nil_r (vint v)) in H at 1. split_and!.
  - by apply (region_vint_read _ _ [] _ H).
  - by apply (region_try_vint _ _ [] _ H).
  - by apply (region_vint_field _ _ [] _ H).
Qed.

Lemma region_le32 off v l lim :
  region body off (le32_bytes v ++ l) lim -> 0 <= v < 2 ^ 32 ->
  read_le32 body off = Ok v /\ off +s 4 = off + 4 /\ off + 4 <= lim.
Proof.
  intros (H1 & H2 & H3 & H4 & H5 & H6) Hv. rewrite zlen_app, zlen_le32_bytes in H4.
  rewrite <- app_assoc in H6. split; [|split; [apply size_add_small; zlen_lia|zlen_lia]].
  rewrite (read_le32_view _ _ _ _ H1 H3 H6) by done. by rewrite le_val_le32.
Qed.

Lemma push_le64_eq v : 0 <= v < 2 ^ 64 -> push_le64 v = le64_bytes v.
Proof.
  intros Hv. unfold push_le64, le64_bytes, le32_bytes. cbn [map app].
  rewrite !Z.shiftr_land, !Z.shiftr_shiftr by lia. rewrite <- !Z.land_assoc. done.
Qed.

Lemma region_le64 off v l lim :
  region body off (push_le64 v ++ l) lim -> 0 <= v < 2 ^ 64 ->
  read_le64 body off = Ok v /\ off +s 8 = off + 8 /\ off + 8 <= lim.
Proof.
  intros (H1 & H2 & H3 & H4 & H5 & H6) Hv. rewrite push_le64_eq in * by done.
  rewrite zlen_app, zlen_le64_bytes in H4.
  rewrite <- app_assoc in H6. split; [|split; [apply size_add_small; zlen_lia|zlen_lia]].
  rewrite (read_le64_view _ _ _ _ H1 H3 H6) by apply zlen_le64_bytes. by rewrite le_val_le64.
Qed.
End region.

(** ** One record at a time *)

Section parses.
Context {A : Type}.
Context (record : list Z -> Z -> Z -> Z -> Z -> Z -> Z -> A -> res (flow * A * Z)).

(** Standing on [l] (nothing, or at least two bytes), the loop applies [f]. *)
Definition parses (l : list Z) (f : A -> A) : Prop :=
  (l = [] \/ 2 <= zlen l) /\
  forall fuel body off rest b,
    region body off (l ++ rest) (zlen body) -> (length (l ++ rest) < fuel)%nat -> zlen rest <> 1 ->
    exists fuel', (length rest < fuel')%nat /\
      extra_loop record fuel body off (zlen body) b =
      extra_loop record fuel' body (off + zlen l) (zlen body) (f b).

Lemma parses_nil : parses [] id.
Proof.
  split; [by left|]. intros fuel body off rest b _ Hf _. exists fuel. split; [done|].
  change (zlen (@nil Z)) with 0. by rewrite Z.add_0_r.
Qed.

Lemma parses_app l1 f1 l2 f2 :
  parses l1 f1 -> parses l2 f2 -> parses (l1 ++ l2) (fun b => f2 (f1 b)).
Proof.
  intros [N1 H1] [N2 H2]. split.
  { rewrite zlen_app. pose proof (zlen_nonneg l1). pose proof (zlen_nonneg l2).
    destruct N1 as [->|N1]; [simpl; destruct N2; [by left|right; change (zlen (@nil Z)) with 0; lia]|].
    right. lia. }
  intros fuel body off rest b Hr Hf Hrest. rewrite <- app_assoc in Hr, Hf.
  destruct (H1 fuel body off (l2 ++ rest) b Hr Hf) as (fuel1 & Hf1 & ->).
  { rewrite zlen_app. pose proof (zlen_nonneg rest). destruct N2 as [->|N2]; [done|lia]. }
  destruct (H2 fuel1 body (off + zlen l1) rest (f1 b) (region_step _ _ _ _ Hr) Hf1 Hrest)
    as (fuel2 & Hf2 & ->).
  exists fuel2. split; [done|]. rewrite zlen_app. by rewrite Z.add_assoc.
Qed.

(** A condition chooses between a record and nothing. *)
Lemma parses_if (c : bool) l f :
  (c = true -> parses l f) -> parses (if c then l else []) (if c then f else id).
Proof. destruct c; [auto|]. intros _. apply parses_nil. Qed.

Lemma parses_id l f g : parses l f -> (forall b, f b = g b) -> parses l g.
Proof.
  intros [N H] E. split; [done|]. intros fuel body off rest b H1 H2 H3. rewrite <- E. by apply H.
Qed.

(** One pass of the loop over a record with the writer's framing. *)
Lemma extra_loop_head fuel ty sz content body off rest b :
  is_byte ty -> is_vint sz -> zlen sz <= 10 -> vint_val sz = zlen content + 1 ->
  region body off ((sz ++ [ty] ++ content) ++ rest) (zlen body) ->
  let start := off + zlen sz + 1 in
  extra_loop record (S fuel) body off (zlen body) b =
    ('(fl, b, rec_end) ← record body start (start + zlen content) (zlen body) off ty (zlen content + 1) b;
     match fl with
     | Continue => extra_loop record fuel body rec_end (zlen body) b
     | Next => if rec_end <=? off then Fail else extra_loop record fuel body rec_end (zlen body) b
     end).
Proof.
  intros Hty Hsz Hsz10 Hval Hr. cbv zeta. pose proof (is_vint_nonempty sz Hsz) as Hsz1.
  pose proof (region_bounds _ _ _ Hr) as R. pose proof Hr as (H1 & H2 & H3 & H4 & H5 & H6).
  rewrite !zlen_app in R, H4. change (zlen [ty]) with 1 in R, H4. pose proof (zlen_nonneg content). pose proof (zlen_nonneg rest).
  cbn [extra_loop]. rewrite (proj2 (Z.ltb_lt _ _)) by lia.
  rewrite <- !app_assoc in Hr. rewrite <- !app_assoc in H6.
  unfold try_vint. rewrite size_sub_small by lia.
  rewrite (read_vint_enc body off _ sz ([ty] ++ content ++ rest ++ view body (zlen body)) Hsz);
    [|lia|done|lia|done].
  res_simpl. rewrite size_add_small by lia. rewrite Hval.
  destruct (Z.geb_spec (off + zlen sz) (zlen body)); [lia|].
  destruct (Z.ltb_spec (zlen content + 1) 1); [lia|]. cbn [orb].
  unfold record_end. rewrite size_sub_small by lia.
  destruct (Z.leb_spec (zlen content + 1) (zlen body - (off + zlen sz))); [|lia].
  rewrite (size_add_small _ 1), (size_add_small _ (zlen content + 1)) by lia.
  apply region_step in Hr. destruct (region_byte _ _ _ _ Hr) as [-> _]. res_simpl.
  by replace (off + zlen sz + (zlen content + 1)) with (off + zlen sz + 1 + zlen content) by lia.
Qed.

(** A record with the writer's framing, given what its handler does. *)
Lemma parses_record ty sz content f :
  is_byte ty -> is_vint sz -> zlen sz <= 10 -> vint_val sz = zlen content + 1 ->
  (forall body off old rest b,
     region body off content (off + zlen content) -> 0 <= old < off ->
     off + zlen content <= zlen body -> view body (off + zlen content) = rest -> zlen rest <> 1 ->
     view body old = (sz ++ [ty] ++ content) ++ rest -> off = old + zlen sz + 1 ->
     exists fl, record body off (off + zlen content) (zlen body) old ty (zlen content + 1) b
                = Ok (fl, f b, off + zlen content)) ->
  parses (sz ++ [ty] ++ content) f.
Proof.
  intros Hty Hsz Hsz10 Hval Hrec. pose proof (is_vint_nonempty sz Hsz) as Hsz1.
  split; [right; zlen_lia|]. intros fuel body off rest b Hr Hf Hrest.
  destruct fuel as [|fuel]; [lia|]. exists fuel. split.
  { rewrite !length_app in Hf. cbn [length] in Hf. lia. }
  rewrite (extra_loop_head fuel ty sz content body off rest b) by done.
  pose proof (region_bounds _ _ _ Hr) as R. pose proof Hr as (H1 & H2 & H3 & H4 & H5 & H6).
  rewrite !zlen_app in R, H4. change (zlen [ty]) with 1 in R, H4. pose proof (zlen_nonneg content). pose proof (zlen_nonneg rest).
  rewrite <- !app_assoc in Hr.
  assert (Hend : view body (zlen body) = []) by (unfold view, zlen; rewrite Nat2Z.id; apply drop_all).
  rewrite Hend, app_nil_r in H6.
  apply region_step in Hr. apply region_step in Hr. change (zlen [ty]) with 1 in Hr.
  destruct (Hrec body (off + zlen sz + 1) off rest b) as [fl E]; try done; try lia.
  - by apply region_prefix in Hr.
  - apply region_step in Hr. destruct Hr as (_ & _ & _ & _ & _ & V). by rewrite Hend, app_nil_r in V.
  - rewrite E. res_simpl.
    replace (off + zlen (sz ++ [ty] ++ content)) with (off + zlen sz + 1 + zlen content)
      by (rewrite !zlen_app; change (zlen [ty]) with 1; lia).
    destruct fl; [done|]. by rewrite (proj2 (Z.leb_gt _ _)) by lia.
Qed.

(** Records one after another, then the end of the extra area. *)
Lemma parses_extra_area l f body flags offset b :
  parses l f -> bytes body -> zlen body < 2 ^ 63 -> 0 <= offset ->
  view body offset = l -> zlen body = offset + zlen l ->
  has_flag flags HFL_EXTRA = negb (zlen l =? 0) ->
  extra_area record body flags (if has_flag flags HFL_EXTRA then zlen l else 0) offset b = Ok (f b).
Proof.
  intros [N H] Hb Hl Ho Hv HL Hfl. unfold extra_area. rewrite Hfl.
  assert (Hr : region body offset (l ++ []) (zlen body)).
  { rewrite app_nil_r. split_and!; try done. rewrite Hv.
    assert (view body (zlen body) = []) as ->. { unfold view, zlen. rewrite Nat2Z.id. apply drop_all. }
    by rewrite app_nil_r. }
  assert (Hlen : (length (l ++ []) < Datatypes.S (length body))%nat).
  { rewrite app_nil_r. unfold zlen in *. lia. }
  destruct (H (Datatypes.S (length body)) body offset [] b Hr Hlen ltac:(done)) as (fuel' & Hf' & E).
  destruct (Z.eqb_spec (zlen l) 0) as [E0|Hne]; cbn [negb andb].
  - destruct fuel' as [|fuel']; [cbn in Hf'; lia|]. rewrite <- HL in E.
    assert (offset = zlen body) as -> by lia.
    cbn [extra_loop] in E. rewrite Z.ltb_irrefl in E. exact E.
  - pose proof (zlen_nonneg l). rewrite Z.gtb_ltb, (proj2 (Z.ltb_lt _ _)) by lia.
    rewrite !Z.gtb_ltb, !(proj2 (Z.ltb_ge _ _)) by (rewrite ?size_sub_small; lia). cbn [orb].
    rewrite size_sub_small by lia. replace (zlen body - zlen l) with offset by lia.
    rewrite E. destruct fuel' as [|fuel']; [cbn in Hf'; lia|].
    rewrite <- HL. cbn [extra_loop]. by rewrite Z.ltb_irrefl.
Qed.
End parses.

(** ** The file extra records *)

Abbreviation fparses := (parses file_record).

Lemma parses_extra_record ty content f :
  is_byte ty -> zlen content < 2 ^ 63 ->
  (forall body off old rest b,
     region body off content (off + zlen content) -> 0 <= old < off ->
     off + zlen content <= zlen body -> view body (off + zlen content) = rest -> zlen rest <> 1 ->
     exists fl, file_record body off (off + zlen content) (zlen body) old ty (zlen content + 1) b
                = Ok (fl, f b, off + zlen content)) ->
  fparses (extra_record ty content) f.
Proof.
  intros Hty Hc Hrec. pose proof (zlen_nonneg content). unfold extra_record.
  apply parses_record; auto.
  - apply vint_is_vint. lia.
  - apply vint_length_u64. lia.
  - apply vint_val_vint. lia.
  - intros; by apply (Hrec _ _ old rest).
Qed.

(** Step a region over the field just read. *)
Ltac rg_vint H :=
  first [ rewrite (region_try_vint _ _ _ _ H) by lia
        | rewrite (region_vint_field _ _ _ _ H) by lia ];
  apply region_step in H; res_simpl.

Lemma parses_hash d :
  byte_array 32 d ->
  fparses (vint (2 + 32) ++ [FHEXTRA_HASH] ++ [0] ++ d)
    (set_hash {| has_blake2sp := true; blake2sp := d |}).
Proof.
  intros [Hd Hb].
  apply (parses_record _ FHEXTRA_HASH (vint (2 + 32)) ([0] ++ d)).
  - unfold is_byte, FHEXTRA_HASH. lia.
  - apply vint_is_vint. lia.
  - vm_compute. discriminate.
  - rewrite vint_val_vint, zlen_app, Hd by lia. done.
  - intros body off old rest b Hr Ho Hz _ _ _ _. exists Next.
    assert (L : zlen ([0] ++ d) = 33) by (rewrite zlen_app, Hd; done). rewrite L in *.
    change (file_record body off (off + 33) (zlen body) old FHEXTRA_HASH (33 + 1) b)
      with (b ← hash_record body off (off + 33) b; mret (Next, b, off + 33)).
    unfold hash_record. pose proof (region_bounds _ _ _ Hr) as R.
    rewrite size_sub_small by lia. replace (off + 33 - off) with 33 by lia. cbn [Z.geb Z.compare Pos.compare Pos.compare_cont].
    destruct (region_byte _ _ _ _ Hr) as [-> ->]. res_simpl. cbn [Z.eqb].
    apply region_step in Hr. change (zlen [0]) with 1 in Hr.
    by destruct (region_slice_all _ _ _ 32 Hr (eq_sym Hd)) as [-> _].
Qed.

(** A block's check fields must agree with its flag word: the reader follows
    the flag, the writer the boolean. *)
Definition crypt_consistent (c : FileCrypt) : Prop := has_flag (crypt_flags c) 0x01 = has_psw_check c.

Definition read_crypt (c : FileCrypt) (b : FileBlock) : FileBlock :=
  set_crypt {| is_encrypted := true; crypt_version := crypt_version c; crypt_flags := crypt_flags c;
    lg2_count := lg2_count c; salt := salt c; init_v := init_v c;
    has_psw_check := if has_psw_check c then negb (all_zero (psw_check c)) else has_psw_check (crypt b);
    psw_check := if has_psw_check c then psw_check c else psw_check (crypt b);
    psw_check_csum := if has_psw_check c then psw_check_csum c else psw_check_csum (crypt b) |} b.

Lemma u32_small z : is_u32 z -> u32 z = z.
Proof. apply wrap_small. Qed.

Lemma zlen_crypt_tail c :
  FileCrypt_ok c ->
  zlen ([lg2_count c] ++ salt c ++ init_v c ++
        (if has_psw_check c then psw_check c ++ psw_check_csum c else [])) =
  1 + 16 + 16 + (if has_psw_check c then 8 + 4 else 0).
Proof.
  intros [_ _ _ [Hs _] [Hi _] [Hp _] [Hc _]]. rewrite !zlen_app, Hs, Hi.
  change (zlen [lg2_count c]) with 1. destruct (has_psw_check c); [rewrite zlen_app, Hp, Hc|]; done.
Qed.

Lemma parses_crypt c :
  FileCrypt_ok c -> crypt_consistent c ->
  fparses (extra_record FHEXTRA_CRYPT (crypt_content c)) (read_crypt c).
Proof.
  intros Hok Hcons. pose proof Hok as [Hv Hf Hl [Hs Hsb] [Hi Hib] [Hp Hpb] [Hcs Hcsb]].
  pose proof (zlen_crypt_tail c Hok) as Ht. unfold is_u32 in Hv, Hf.
  pose proof (vint_length_u64 (crypt_version c) ltac:(lia)) as L1.
  pose proof (vint_length_u64 (crypt_flags c) ltac:(lia)) as L2.
  assert (Lc : zlen (crypt_content c) = zlen (vint (crypt_version c)) + zlen (vint (crypt_flags c)) +
    (1 + 16 + 16 + (if has_psw_check c then 8 + 4 else 0)))
    by (unfold crypt_content; rewrite (zlen_app (vint _)), (zlen_app (vint _)), Ht; lia).
  apply parses_extra_record; [unfold is_byte, FHEXTRA_CRYPT; lia|destruct (has_psw_check c); lia|].
  intros body off old rest b Hr Ho Hz _ _. exists Next.
  set (lim := off + zlen (crypt_content c)) in *.
  change (file_record body off lim (zlen body) old FHEXTRA_CRYPT (zlen (crypt_content c) + 1) b)
    with (b ← crypt_record body off lim b; mret (Next, b, lim)).
  unfold crypt_content in Hr. unfold crypt_record, crypt_vint.
  pose proof (region_bounds _ _ _ Hr) as R.
  destruct (Z.geb_spec off lim); [destruct (has_psw_check c); lia|]. rg_vint Hr.
  destruct (Z.geb_spec (off + zlen (vint (crypt_version c))) lim); [destruct (has_psw_check c); lia|].
  rg_vint Hr. set (o := off + zlen (vint (crypt_version c)) + zlen (vint (crypt_flags c))) in *.
  rewrite Hcons. pose proof (region_bounds _ _ _ Hr) as R2. rewrite Ht in R2.
  rewrite size_sub_small by (destruct (has_psw_check c); lia).
  rewrite (proj2 (Z.ltb_ge _ _)) by lia.
  destruct (region_byte _ _ _ _ Hr) as [-> ->]. res_simpl. apply region_step in Hr.
  change (zlen [lg2_count c]) with 1 in Hr.
  destruct (region_slice _ _ _ _ 16 Hr (eq_sym Hs)) as (-> & -> & _). res_simpl. apply region_step in Hr.
  rewrite Hs in Hr.
  destruct (region_slice _ _ _ _ 16 Hr (eq_sym Hi)) as (-> & -> & _). res_simpl. apply region_step in Hr.
  rewrite Hi in Hr. unfold read_crypt. rewrite !u32_small by done.
  destruct (has_psw_check c).
  - destruct (region_slice _ _ _ _ 8 Hr (eq_sym Hp)) as (-> & -> & _). res_simpl. apply region_step in Hr.
    rewrite Hp in Hr. by destruct (region_slice_all _ _ _ 4 Hr (eq_sym Hcs)) as (-> & _ & _).
  - done.
Qed.

Lemma parses_redir r :
  Redir_ok r -> redir_type r <> 0 -> zlen (redir_target r) < 2048 ->
  fparses (extra_record FHEXTRA_REDIR (redir_content r)) (set_redir r).
Proof.
  intros [Ht Hb] Hne Hlen. unfold is_byte in Ht. pose proof (zlen_nonneg (redir_target r)).
  pose proof (vint_length_u64 (redir_type r) ltac:(lia)) as L1.
  set (d := if redir_dir_target r then 1 else 0).
  assert (Hd : 0 <= d <= 1) by (subst d; destruct (redir_dir_target r); lia).
  pose proof (vint_length_u64 d ltac:(lia)) as L2.
  pose proof (vint_length_u64 (zlen (redir_target r)) ltac:(lia)) as L3.
  assert (Lc : zlen (redir_content r) = zlen (vint (redir_type r)) + zlen (vint d) +
     zlen (vint (zlen (redir_target r))) + zlen (redir_target r))
    by (unfold redir_content; fold d; rewrite !zlen_app; lia).
  apply parses_extra_record; [unfold is_byte, FHEXTRA_REDIR; lia|lia|].
  intros body off old rest b Hr Ho Hz _ _. exists Next.
  set (lim := off + zlen (redir_content r)) in *.
  change (file_record body off lim (zlen body) old FHEXTRA_REDIR (zlen (redir_content r) + 1) b)
    with ('(fl, b) ← redir_record body off lim b; mret (fl, b, lim)).
  unfold redir_content in Hr. fold d in Hr. unfold redir_record, version_probe.
  rewrite (region_vint_read _ _ _ _ Hr) by lia. res_simpl.
  rewrite (proj2 (Z.eqb_neq _ _)) by done. cbn [andb]. res_simpl.
  rg_vint Hr. rg_vint Hr. rg_vint Hr.
  rewrite Z.geb_leb, (proj2 (Z.leb_gt _ _)) by lia.
  destruct (region_slice_all _ _ _ _ Hr eq_refl) as (E & _ & ->).
  rewrite (proj2 (Z.ltb_ge _ _)), E by lia. res_simpl.
  assert (Hdir : has_flag d 0x01 = redir_dir_target r) by (subst d; by destruct (redir_dir_target r)).
  rewrite Hdir, wrap_small by lia. by destruct r.
Qed.

Lemma parses_version v :
  is_u64 v ->
  fparses (extra_record FHEXTRA_VERSION (vint 0 ++ vint v))
    (set_version {| has_file_version := true; file_version := v |}).
Proof.
  intros Hv. unfold is_u64 in Hv. pose proof (vint_length_u64 v Hv) as L1.
  change (zlen (vint 0)) with 1 in *.
  assert (Lc : zlen (vint 0 ++ vint v) = 1 + zlen (vint v)) by (rewrite zlen_app; done).
  apply parses_extra_record; [unfold is_byte, FHEXTRA_VERSION; lia|lia|].
  intros body off old rest b Hr Ho Hz _ _. exists Continue. pose proof (region_bounds _ _ _ Hr) as R.
  set (lim := off + zlen (vint 0 ++ vint v)) in *.
  change (file_record body off lim (zlen body) old FHEXTRA_VERSION (zlen (vint 0 ++ vint v) + 1) b)
    with ('(fl, b) ← redir_record body off lim b; mret (fl, b, lim)).
  unfold redir_record, version_probe. rewrite (region_vint_read _ _ _ _ Hr) by lia. res_simpl.
  change (zlen (vint 0)) with 1. cbn [andb Z.eqb].
  rewrite (size_add_small off 1), (proj2 (Z.leb_le _ _)) by lia.
  assert (Es : (lim -s off) -s 1 = lim -s (off + 1)) by (rewrite !size_sub_small; rewrite ?size_sub_small; lia).
  rewrite Es. apply region_step in Hr. change (zlen (vint 0)) with 1 in Hr.
  destruct (region_vint_last _ _ _ Hr Hv) as (-> & _ & _). res_simpl.
  rewrite size_add_small, (proj2 (Z.eqb_eq _ _)) by lia. done.
Qed.

(** *** Timestamps *)

Definition read_stamp (c is_unix : bool) (s acc : Stamp) : Stamp :=
  if c then if is_unix then with_unix (st_unix s) acc else with_win (st_win s) acc else acc.

Definition read_ns (c : bool) (s acc : Stamp) : Stamp :=
  let raw := Z.land (st_ns s) 0x3FFFFFFF in
  if c && (raw <? 1000000000) then with_ns raw acc else acc.

Definition read_htimes (p : HTimePlan) (t acc : HTimes) : HTimes :=
  let ns := hp_ns p && hp_unix p in
  {| htime_is_unix := hp_unix p;
     mtime := read_ns (ns && hp_mtime p) (mtime t) (read_stamp (hp_mtime p) (hp_unix p) (mtime t) (mtime acc));
     ctime := read_ns (ns && hp_ctime p) (ctime t) (read_stamp (hp_ctime p) (hp_unix p) (ctime t) (ctime acc));
     atime := read_ns (ns && hp_atime p) (atime t) (read_stamp (hp_atime p) (hp_unix p) (atime t) (atime acc)) |}.

Lemma region_stamp body off c u s acc l lim :
  Stamp_ok s -> region body off (stamp_bytes c u s ++ l) lim ->
  stamp c u body off lim acc = Ok (read_stamp c u s acc, off + zlen (stamp_bytes c u s)).
Proof.
  intros [Hw Hu _] Hr. unfold read_stamp, stamp_bytes in *. destruct c; cbn [stamp].
  - destruct u.
    + destruct (region_le32 _ _ _ _ Hr Hu) as (E & Es & Hl). unfold stamp, stamp_unix.
      rewrite Es, (proj2 (Z.leb_le _ _)), E by done. done.
    + destruct (region_le64 _ _ _ _ Hr Hw) as (E & Es & Hl). unfold stamp, stamp_win.
      rewrite Es, (proj2 (Z.leb_le _ _)), E by done. done.
  - change (zlen (@nil Z)) with 0. rewrite Z.add_0_r. by destruct u.
Qed.

Lemma region_stamp_ns body off c s acc l lim :
  Stamp_ok s -> region body off (ns_bytes c s ++ l) lim ->
  stamp_ns c body off lim acc = Ok (read_ns c s acc, off + zlen (ns_bytes c s)).
Proof.
  intros [_ _ Hn] Hr. unfold read_ns, stamp_ns, ns_bytes in *. destruct c.
  - destruct (region_le32 _ _ _ _ Hr Hn) as (E & Es & Hl).
    rewrite Es, (proj2 (Z.leb_le _ _)), E by done. done.
  - change (zlen (@nil Z)) with 0. by rewrite Z.add_0_r.
Qed.

Lemma htime_flags_spec p :
  0 <= htime_flags p < 32 /\ has_flag (htime_flags p) 0x01 = hp_unix p /\
  has_flag (htime_flags p) 0x02 = hp_mtime p /\ has_flag (htime_flags p) 0x04 = hp_ctime p /\
  has_flag (htime_flags p) 0x08 = hp_atime p /\
  has_flag (htime_flags p) 0x10 && hp_unix p = hp_ns p && hp_unix p.
Proof.
  destruct p as [[] [] [] [] []]; (split; [vm_compute; split; [discriminate|reflexivity]|]);
    vm_compute; done.
Qed.

(** The writer never emits the shape the reader takes for the legacy layout. *)
Lemma htime_not_legacy p n :
  n = (if hp_mtime p then 4 else 0) + (if hp_ctime p then 4 else 0) + (if hp_atime p then 4 else 0) +
      (if hp_ns p then (if hp_mtime p then 4 else 0) + (if hp_ctime p then 4 else 0) +
        (if hp_atime p then 4 else 0) else 0) \/ hp_unix p = false ->
  (htime_flags p <=? 0x07) && has_flag (htime_flags p) 0x01 && negb (has_flag (htime_flags p) 0x02) &&
  ((n mod 8) =? 0) && (n >? 0) = false.
Proof.
  intros [->|Hu].
  - by destruct p as [[] [] [] [] []]; vm_compute.
  - destruct (htime_flags_spec p) as (_ & -> & _). rewrite Hu. by rewrite andb_false_r.
Qed.

Lemma zlen_stamp_bytes c u s :
  zlen (stamp_bytes c u s) = if c then if u then 4 else 8 else 0.
Proof. by destruct c, u. Qed.

Lemma zlen_ns_bytes c s : zlen (ns_bytes c s) = if c then 4 else 0.
Proof. by destruct c. Qed.

Lemma parses_htime p t :
  HTimes_ok t ->
  fparses (extra_record FHEXTRA_HTIME (htime_content p t))
    (fun b => set_htimes (read_htimes p t (htimes b)) b).
Proof.
  intros [Hm Hc Ha]. destruct (htime_flags_spec p) as (Hfl & F1 & F2 & F3 & F4 & F5).
  pose proof (vint_length_u64 (htime_flags p) ltac:(lia)) as L1.
  pose proof (zlen_stamp_bytes (hp_mtime p) (hp_unix p) (mtime t)) as Lm.
  pose proof (zlen_stamp_bytes (hp_ctime p) (hp_unix p) (ctime t)) as Lct.
  pose proof (zlen_stamp_bytes (hp_atime p) (hp_unix p) (atime t)) as La.
  set (ns := if hp_ns p && hp_unix p then
     ns_bytes (hp_mtime p) (mtime t) ++ ns_bytes (hp_ctime p) (ctime t) ++
     ns_bytes (hp_atime p) (atime t) else []).
  assert (Ln : zlen ns = if hp_ns p && hp_unix p then (if hp_mtime p then 4 else 0) +
    (if hp_ctime p then 4 else 0) + (if hp_atime p then 4 else 0) else 0).
  { subst ns. destruct (hp_ns p && hp_unix p); [rewrite !zlen_app, !zlen_ns_bytes; lia|done]. }
  apply parses_extra_record; [unfold is_byte, FHEXTRA_HTIME; lia| |].
  { unfold htime_content. fold ns. rewrite !zlen_app, Lm, Lct, La, Ln.
    destruct (hp_mtime p), (hp_ctime p), (hp_atime p), (hp_unix p), (hp_ns p); cbn [andb]; lia. }
  intros body off old rest b Hr Ho Hz _ _. exists Next.
  set (lim := off + zlen (htime_content p t)) in *.
  change (file_record body off lim (zlen body) old FHEXTRA_HTIME (zlen (htime_content p t) + 1) b)
    with ('(fl, b) ← htime_record body off lim b; mret (fl, b, lim)).
  unfold htime_content in Hr. fold ns in Hr. unfold htime_record. rg_vint Hr.
  assert (Hleg : htime_is_legacy (htime_flags p) (off + zlen (vint (htime_flags p))) lim = false).
  { unfold htime_is_legacy. pose proof (region_bounds _ _ _ Hr) as R.
    rewrite !zlen_app, Lm, Lct, La, Ln in R. apply htime_not_legacy.
    destruct (hp_unix p); [left|by right]. rewrite size_sub_small;
      destruct (hp_mtime p), (hp_ctime p), (hp_atime p), (hp_ns p); cbn [andb] in *; lia. }
  rewrite Hleg. unfold htime_spec. rewrite F1, F2, F3, F4, F5.
  rewrite (region_stamp _ _ _ _ _ _ _ _ Hm Hr). res_simpl. apply region_step in Hr.
  rewrite (region_stamp _ _ _ _ _ _ _ _ Hc Hr). res_simpl. apply region_step in Hr.
  rewrite (region_stamp _ _ _ _ _ _ _ _ Ha Hr). res_simpl. apply region_step in Hr.
  assert (Ens : ns = ns_bytes (hp_ns p && hp_unix p && hp_mtime p) (mtime t) ++
    ns_bytes (hp_ns p && hp_unix p && hp_ctime p) (ctime t) ++
    ns_bytes (hp_ns p && hp_unix p && hp_atime p) (atime t) ++ []).
  { subst ns. rewrite app_nil_r. by destruct (hp_ns p && hp_unix p). }
  rewrite Ens in Hr.
  rewrite (region_stamp_ns _ _ _ _ _ _ _ Hm Hr). res_simpl. apply region_step in Hr.
  rewrite (region_stamp_ns _ _ _ _ _ _ _ Hc Hr). res_simpl. apply region_step in Hr.
  rewrite (region_stamp_ns _ _ _ _ _ _ _ Ha Hr). res_simpl. done.
Qed.

(** *** Owner *)

Definition owner_name_len (name : list Z) : Z := Z.min (zlen name) 255.

Definition read_owner (o : Owner) (b : FileBlock) : FileBlock :=
  set_owner {| has_owner := true;
    owner_user := if zlen (owner_user o) =? 0 then owner_user (owner b) else take 255%nat (owner_user o);
    owner_group := if zlen (owner_group o) =? 0 then owner_group (owner b) else take 255%nat (owner_group o);
    owner_uid := if has_owner_uid o then owner_uid o else owner_uid (owner b);
    owner_gid := if has_owner_gid o then owner_gid o else owner_gid (owner b);
    has_owner_uid := has_owner_uid o || has_owner_uid (owner b);
    has_owner_gid := has_owner_gid o || has_owner_gid (owner b) |} b.

Lemma take_owner_name (name : list Z) : take (Z.to_nat (Z.min (zlen name) 255)) name = take 255%nat name.
Proof.
  destruct (Z.le_gt_cases (zlen name) 255).
  - rewrite Z.min_l by done. unfold zlen in *. rewrite Nat2Z.id, !take_ge by lia. done.
  - by rewrite Z.min_r by lia.
Qed.

Lemma zlen_owner_name (name : list Z) : zlen (take 255%nat name) = Z.min (zlen name) 255.
Proof. rewrite <- take_owner_name. apply zlen_take. zlen_lia. Qed.

Lemma region_owner_probe body off name l lim (c : bool) :
  region body off ((if c then push_owner_name name else []) ++ l) lim ->
  owner_name_probe c body off lim =
    Ok (Some (off + zlen (if c then push_owner_name name else []))).
Proof.
  intros Hr. unfold owner_name_probe. destruct c; [|change (zlen (@nil Z)) with 0; by rewrite Z.add_0_r].
  unfold push_owner_name in *. cbv zeta in *. rewrite take_owner_name in *.
  pose proof (zlen_owner_name name) as Ln. pose proof (zlen_nonneg name).
  set (len := Z.min (zlen name) 255) in *.
  pose proof (vint_length_u64 len ltac:(lia)) as L1.
  rewrite <- app_assoc in Hr. pose proof (region_bounds _ _ _ Hr) as R.
  rewrite !zlen_app, Ln in R. pose proof (zlen_nonneg l).
  unfold remaining. destruct (Z.geb_spec lim off); [|lia].
  rewrite (region_vint_read _ _ _ _ Hr) by lia. res_simpl. cbn [negb orb].
  rewrite Z.gtb_ltb, (proj2 (Z.ltb_ge _ _)) by lia. cbn [orb].
  rewrite size_sub_small, (size_add_small _ len) by lia.
  rewrite Z.gtb_ltb, (proj2 (Z.ltb_ge _ _)) by lia.
  rewrite size_add_small, zlen_app, Ln by lia. done.
Qed.

Lemma region_owner_name body off name l lim (c : bool) cur :
  region body off ((if c then push_owner_name name else []) ++ l) lim ->
  owner_name c body off lim cur =
    Ok (if c then take 255%nat name else cur, off + zlen (if c then push_owner_name name else [])).
Proof.
  intros Hr. unfold owner_name. destruct c; [|change (zlen (@nil Z)) with 0; by rewrite Z.add_0_r].
  unfold push_owner_name in *. cbv zeta in *. rewrite take_owner_name in *.
  pose proof (zlen_owner_name name) as Ln. pose proof (zlen_nonneg name).
  set (len := Z.min (zlen name) 255) in *.
  rewrite <- app_assoc in Hr. rg_vint Hr. pose proof (region_bounds _ _ _ Hr) as R.
  rewrite !zlen_app, Ln in R. pose proof (zlen_nonneg l).
  unfold remaining. destruct (Z.geb_spec lim (off + zlen (vint len))); [|lia].
  rewrite size_sub_small by lia. rewrite Z.min_l by lia.
  destruct (region_slice _ _ _ _ len Hr (eq_sym Ln)) as (-> & -> & _). res_simpl.
  rewrite zlen_app, Ln. by rewrite Z.add_assoc.
Qed.

Lemma region_owner_id body off v l lim (c : bool) cur has :
  0 <= v < 2 ^ 64 -> region body off ((if c then vint v else []) ++ l) lim ->
  owner_id c body off lim cur has =
    Ok (if c then v else cur, c || has, off + zlen (if c then vint v else [])).
Proof.
  intros Hv Hr. unfold owner_id. destruct c; [|change (zlen (@nil Z)) with 0; by rewrite Z.add_0_r].
  by rewrite (region_try_vint _ _ _ _ Hr).
Qed.

Lemma owner_flags_spec o :
  0 <= owner_flags o < 16 /\
  has_flag (owner_flags o) 0x0001 = negb (zlen (owner_user o) =? 0) /\
  has_flag (owner_flags o) 0x0002 = negb (zlen (owner_group o) =? 0) /\
  has_flag (owner_flags o) 0x0004 = has_owner_uid o /\
  has_flag (owner_flags o) 0x0008 = has_owner_gid o.
Proof.
  unfold owner_flags.
  generalize (negb (zlen (owner_user o) =? 0)) (negb (zlen (owner_group o) =? 0))
    (has_owner_uid o) (has_owner_gid o).
  intros [] [] [] []; (split; [vm_compute; split; [discriminate|reflexivity]|]); vm_compute; done.
Qed.

Lemma zlen_push_owner_name name : zlen (push_owner_name name) <= 265.
Proof.
  unfold push_owner_name. cbv zeta. rewrite zlen_app, take_owner_name, zlen_owner_name.
  pose proof (zlen_nonneg name).
  pose proof (vint_length_u64 (Z.min (zlen name) 255) ltac:(lia)). lia.
Qed.

Lemma parses_owner o :
  Owner_ok o -> fparses (extra_record FHEXTRA_OWNER (owner_content o)) (read_owner o).
Proof.
  intros [_ _ Hu Hg]. destruct (owner_flags_spec o) as (Hfl & F1 & F2 & F3 & F4).
  unfold is_u64 in Hu, Hg.
  pose proof (vint_length_u64 (owner_flags o) ltac:(lia)) as L1.
  pose proof (vint_length_u64 (owner_uid o) ltac:(lia)) as L2.
  pose proof (vint_length_u64 (owner_gid o) ltac:(lia)) as L3.
  pose proof (zlen_push_owner_name (owner_user o)). pose proof (zlen_push_owner_name (owner_group o)).
  assert (EC : owner_content o = vint (owner_flags o) ++
    (if negb (zlen (owner_user o) =? 0) then push_owner_name (owner_user o) else []) ++
    (if negb (zlen (owner_group o) =? 0) then push_owner_name (owner_group o) else []) ++
    (if has_owner_uid o then vint (owner_uid o) else []) ++
    (if has_owner_gid o then vint (owner_gid o) else []) ++ [])
    by (unfold owner_content; rewrite F1, F2, F3, F4; by rewrite app_nil_r).
  apply parses_extra_record; [unfold is_byte, FHEXTRA_OWNER; lia| |].
  { rewrite EC, !zlen_app. change (zlen (@nil Z)) with 0.
    destruct (negb (zlen (owner_user o) =? 0)), (negb (zlen (owner_group o) =? 0)),
      (has_owner_uid o), (has_owner_gid o); change (zlen (@nil Z)) with 0; lia. }
  intros body off old rest b Hr Ho Hz _ _. exists Next.
  set (lim := off + zlen (owner_content o)) in *.
  change (file_record body off lim (zlen body) old FHEXTRA_OWNER (zlen (owner_content o) + 1) b)
    with ('(fl, b) ← owner_record body off lim b; mret (fl, b, lim)).
  rewrite EC in Hr. unfold owner_record. rg_vint Hr. unfold owner_probe. rewrite F1, F2, F3, F4.
  rewrite (region_owner_probe _ _ _ _ _ _ Hr). res_simpl.
  pose proof Hr as Hr'. apply region_step in Hr'. rewrite (region_owner_probe _ _ _ _ _ _ Hr').
  res_simpl. clear Hr'. cbn [negb].
  rewrite (region_owner_name _ _ _ _ _ _ _ Hr). res_simpl. apply region_step in Hr.
  rewrite (region_owner_name _ _ _ _ _ _ _ Hr). res_simpl. apply region_step in Hr.
  rewrite (region_owner_id _ _ _ _ _ _ _ _ Hu Hr). res_simpl. apply region_step in Hr.
  rewrite (region_owner_id _ _ _ _ _ _ _ _ Hg Hr). res_simpl.
  unfold read_owner. by destruct (zlen (owner_user o) =? 0), (zlen (owner_group o) =? 0).
Qed.

(** *** Service sub-data *)

Lemma parses_subdata d :
  zlen d < 2 ^ 63 -> fparses (extra_record FHEXTRA_SUBDATA d) (set_sub_data d).
Proof.
  intros Hd. apply parses_extra_record; [unfold is_byte, FHEXTRA_SUBDATA; lia|done|].
  intros body off old rest b Hr Ho Hz Hrest Hne. exists Next.
  pose proof (region_bounds _ _ _ Hr) as R. pose proof (zlen_nonneg d).
  set (lim := off + zlen d) in *.
  change (file_record body off lim (zlen body) old FHEXTRA_SUBDATA (zlen d + 1) b)
    with ('(b, rec_end) ← subdata_record body off lim (zlen body) b; mret (Next, b, rec_end)).
  unfold subdata_record. destruct (Z.geb_spec lim off); [|lia].
  destruct (region_slice_all _ _ _ (lim - off) Hr ltac:(lia)) as (-> & _ & _). res_simpl.
  assert (E : (lim <? zlen body) && ((zlen body -s lim) =? 1) = false).
  { apply (f_equal zlen) in Hrest. rewrite zlen_view in Hrest by lia.
    rewrite size_sub_small, (proj2 (Z.eqb_neq _ _)) by lia. apply andb_false_r. }
  by rewrite E.
Qed.

(** *** Extended attributes *)

Definition emitted_xattrs (l : list FileXattr) : list FileXattr := List.filter xattr_emitted l.

Lemma xattr_entries_eq l :
  xattr_entries l = (concat (map xattr_bytes (emitted_xattrs l)), zlen (emitted_xattrs l)).
Proof.
  induction l as [|x l IH]; [done|]. unfold emitted_xattrs in *. cbn [xattr_entries List.filter]. rewrite IH.
  destruct (xattr_emitted x); [|done]. cbn [map concat]. f_equal. zlen_lia.
Qed.

Lemma xattr_emitted_spec x :
  xattr_emitted x = true ->
  1 <= zlen (xa_name x) <= FHEXTRA_XATTR_NAME_MAX /\ zlen (xa_value x) <= FHEXTRA_XATTR_VALUE_MAX.
Proof.
  unfold xattr_emitted. rewrite negb_true_iff, !orb_false_iff, !Z.gtb_ltb.
  intros [[H1%Z.eqb_neq H2%Z.ltb_ge] H3%Z.ltb_ge]. pose proof (zlen_nonneg (xa_name x)). lia.
Qed.

Lemma region_xattr_entry body off x l lim :
  xattr_emitted x = true -> region body off (xattr_bytes x ++ l) lim ->
  xattr_entry body off lim = Ok (Some (x, off + zlen (xattr_bytes x))) /\ 3 <= zlen (xattr_bytes x).
Proof.
  intros Hx Hr. apply xattr_emitted_spec in Hx as [Hn Hv].
  unfold FHEXTRA_XATTR_NAME_MAX, FHEXTRA_XATTR_VALUE_MAX in *.
  pose proof (zlen_nonneg (xa_value x)).
  pose proof (vint_length_u64 (zlen (xa_name x)) ltac:(lia)) as L1.
  pose proof (vint_length_u64 (zlen (xa_value x)) ltac:(lia)) as L2.
  assert (LB : zlen (xattr_bytes x) = zlen (vint (zlen (xa_name x))) + zlen (xa_name x) +
    zlen (vint (zlen (xa_value x))) + zlen (xa_value x)) by (unfold xattr_bytes; rewrite !zlen_app; lia).
  split; [|lia]. rewrite LB. unfold xattr_bytes in Hr. rewrite <- !app_assoc in Hr.
  unfold xattr_entry, FHEXTRA_XATTR_NAME_MAX, FHEXTRA_XATTR_VALUE_MAX. rg_vint Hr.
  rewrite (proj2 (Z.eqb_neq _ _)), !Z.gtb_ltb, (proj2 (Z.ltb_ge 255 _)) by lia. cbn [orb].
  destruct (region_slice _ _ _ _ (zlen (xa_name x)) Hr eq_refl) as (-> & -> & Hle).
  rewrite (proj2 (Z.ltb_ge _ _)) by done. res_simpl. apply region_step in Hr.
  rg_vint Hr. rewrite !Z.gtb_ltb, (proj2 (Z.ltb_ge 65536 _)) by lia.
  destruct (region_slice _ _ _ _ (zlen (xa_value x)) Hr eq_refl) as (-> & -> & Hle2).
  rewrite (proj2 (Z.ltb_ge _ _)) by done. res_simpl. destruct x; simpl. do 3 f_equal. lia.
Qed.

Lemma region_xattr_loop body xs off lim seen parsed :
  Forall (fun x => xattr_emitted x = true) xs -> NoDup (map xa_name xs) ->
  (forall x, In x xs -> xa_name x ∉ (seen : gset (list Z))) ->
  region body off (concat (map xattr_bytes xs)) lim ->
  xattr_loop (length xs) body off lim seen parsed = Ok (Some (parsed ++ xs, lim)) /\
  3 * zlen xs <= lim - off.
Proof.
  intros He. revert off seen parsed. induction He as [|x xs Hx He IH]; intros off seen parsed Hnd Hs Hr.
  - pose proof (region_bounds _ _ _ Hr) as (_ & -> & _). cbn [xattr_loop length].
    change (zlen (@nil FileXattr)) with 0. cbn [map concat]. change (zlen (@nil Z)) with 0.
    rewrite app_nil_r, Z.add_0_r. split; [done|lia].
  - cbn [map concat] in Hr. destruct (region_xattr_entry _ _ _ _ _ Hx Hr) as [E L3].
    cbn [length xattr_loop]. rewrite E. res_simpl.
    rewrite bool_decide_eq_false_2 by (apply Hs; by left).
    cbn [map] in Hnd. apply NoDup_cons in Hnd as [Hnx Hnd].
    apply region_step in Hr. destruct (IH (off + zlen (xattr_bytes x)) ({[xa_name x]} ∪ seen) (parsed ++ [x]) Hnd) as [-> L].
    + intros y Hy. apply not_elem_of_union. split; [|apply Hs; by right].
      intros Hyx%elem_of_singleton. apply Hnx. rewrite <- Hyx. apply list_elem_of_In.
      apply in_map_iff. by exists y.
    + done.
    + rewrite <- app_assoc. split; [done|]. rewrite zlen_cons. lia.
Qed.

Lemma parses_xattr xs :
  Forall (fun x => xattr_emitted x = true) xs -> NoDup (map xa_name xs) ->
  zlen (concat (map xattr_bytes xs)) < 2 ^ 62 -> zlen xs < 2 ^ 62 ->
  fparses (extra_record FHEXTRA_XATTR (vint 0 ++ vint (zlen xs) ++ concat (map xattr_bytes xs)))
    (add_xattrs xs).
Proof.
  intros He Hnd Hl Hxs. pose proof (zlen_nonneg xs).
  pose proof (vint_length_u64 (zlen xs) ltac:(lia)) as L1. change (zlen (vint 0)) with 1 in *.
  set (content := vint 0 ++ vint (zlen xs) ++ concat (map xattr_bytes xs)).
  assert (Lc : zlen content = 1 + zlen (vint (zlen xs)) + zlen (concat (map xattr_bytes xs)))
    by (subst content; rewrite !zlen_app; change (zlen (vint 0)) with 1; lia).
  apply parses_extra_record; [unfold is_byte, FHEXTRA_XATTR; lia|lia|].
  intros body off old rest b Hr Ho Hz _ _. exists Next.
  set (lim := off + zlen content) in *.
  change (file_record body off lim (zlen body) old FHEXTRA_XATTR (zlen content + 1) b)
    with (b ← xattr_record body off lim old FHEXTRA_XATTR b; mret (Next, b, lim)).
  subst content. unfold xattr_record, parse_xattrs. rg_vint Hr. cbn [negb Z.eqb]. rg_vint Hr.
  destruct (region_xattr_loop body xs _ lim ∅ [] He Hnd (fun x _ => not_elem_of_empty _) Hr) as [E L].
  pose proof (region_bounds _ _ _ Hr) as R.
  rewrite size_sub_small, Z.gtb_ltb, (proj2 (Z.ltb_ge _ _)) by (try lia; apply Z.div_le_lower_bound; lia).
  unfold zlen at 1. rewrite Nat2Z.id, E. res_simpl. by rewrite Z.eqb_refl.
Qed.

(** *** Unknown records *)

(** A captured record of a type the reader does not implement: complete, and
    re-encoded in front of nothing shorter than itself. *)
Record Unknown_wf (u : UnknownExtra) : Prop := {
  uw_type : is_byte (ue_type u);
  uw_frame : exists sz content, ue_raw u = sz ++ [ue_type u] ++ content /\ is_vint sz /\
    zlen sz <= 10 /\ vint_val sz = zlen content + 1;
  uw_known : ~ In (ue_type u) [FHEXTRA_CRYPT; FHEXTRA_HASH; FHEXTRA_HTIME; FHEXTRA_VERSION;
    FHEXTRA_REDIR; FHEXTRA_OWNER; FHEXTRA_SUBDATA; FHEXTRA_XATTR]
}.

Lemma parses_unknown u : Unknown_wf u -> fparses (ue_raw u) (add_unknown u).
Proof.
  intros [Hty (sz & content & Eraw & Hsz & H10 & Hval) Hk]. rewrite Eraw.
  apply parses_record; [done..|].
  intros body off old rest b Hr Ho Hz Hrest Hne Hview Hoff. exists Next.
  pose proof (region_bounds _ _ _ Hr) as R. pose proof (is_vint_nonempty sz Hsz). pose proof (zlen_nonneg content).
  set (lim := off + zlen content) in *.
  assert (ED : file_record body off lim (zlen body) old (ue_type u) (zlen content + 1) b =
    (b ← unknown_record body old lim (ue_type u) b; mret (Next, b, lim))).
  { unfold file_record. cbn [In] in Hk.
    repeat match goal with |- context [ue_type u =? ?k] =>
      rewrite (proj2 (Z.eqb_neq (ue_type u) k))
        by (intros Et; apply Hk; rewrite Et; unfold FHEXTRA_CRYPT, FHEXTRA_HASH, FHEXTRA_HTIME,
          FHEXTRA_VERSION, FHEXTRA_REDIR, FHEXTRA_OWNER, FHEXTRA_SUBDATA, FHEXTRA_XATTR; tauto)
    end. done. }
  rewrite ED. unfold unknown_record.
  assert (Lr : lim - old = zlen (sz ++ [ue_type u] ++ content))
    by (rewrite !zlen_app; change (zlen [ue_type u]) with 1; lia).
  rewrite Lr, (slice_view _ _ _ rest) by (done || lia). res_simpl.
  rewrite <- Eraw. by destruct u.
Qed.

Fixpoint add_unknowns (us : list UnknownExtra) (b : FileBlock) : FileBlock :=
  match us with [] => b | u :: us' => add_unknowns us' (add_unknown u b) end.

Lemma parses_unknowns us :
  Forall Unknown_wf us -> fparses (concat (map ue_raw us)) (add_unknowns us).
Proof.
  induction 1 as [|u us Hu Hus IH]; [apply (parses_id _ _ id); [apply parses_nil|done]|].
  cbn [map concat add_unknowns]. eapply parses_id; [apply (parses_app _ _ _ _ _ (parses_unknown u Hu) IH)|done].
Qed.

(** ** The compression-information word *)

Lemma land_field a m n : 0 <= n -> Z.land a (Z.shiftl m n) = Z.shiftl (Z.land (Z.shiftr a n) m) n.
Proof.
  intros Hn. apply Z.bits_inj'. intros i Hi. rewrite Z.land_spec.
  destruct (Z.ltb_spec i n).
  - rewrite !(Z.shiftl_spec_low _ _ i) by done. apply andb_false_r.
  - rewrite !Z.shiftl_spec, Z.land_spec, Z.shiftr_spec by lia. by replace (i - n + n) with i by lia.
Qed.

(** The exponent and fraction the writer chooses. *)
Definition dict_params (win ver : Z) : Z * Z :=
  if win >=? 0x20000 then
    let '(pow2, d) := dict_loop (if ver =? 1 then 23 else 15) win 0x20000 0 in
    (d, if ver =? 1 then dict_fraction win pow2 else 0)
  else (0, 0).

Lemma dict_loop_spec left win k :
  0 <= k -> 2 ^ (17 + k) <= win ->
  exists d, dict_loop left win (2 ^ (17 + k)) k = (2 ^ (17 + d), d) /\
    k <= d <= k + Z.of_nat left /\ 2 ^ (17 + d) <= win /\
    (win < 2 * 2 ^ (17 + d) \/ d = k + Z.of_nat left).
Proof.
  revert k. induction left as [|left IH]; intros k Hk Hw.
  - exists k. cbn [dict_loop]. split_and!; try done; lia.
  - cbn [dict_loop]. destruct (Z.leb_spec (2 * 2 ^ (17 + k)) win).
    + assert (E : 2 * 2 ^ (17 + k) = 2 ^ (17 + (k + 1))).
      { rewrite Z.add_assoc, (Z.pow_add_r 2 (17 + k) 1) by lia. lia. }
      rewrite E in *. destruct (IH (k + 1)) as (d & -> & Hd & Hw' & Hor); [lia|lia|].
      exists d. split_and!; try done; lia.
    + exists k. split_and!; try done; lia.
Qed.

(** [fraction] without the overflow: the whole 1/32 steps above the power. *)
Lemma dict_fraction_spec win p :
  2 ^ 17 <= p <= win -> win < 2 * p -> win < 2 ^ 58 ->
  dict_fraction win p = (win - p) * 32 / p /\ 0 <= (win - p) * 32 / p <= 31.
Proof.
  intros Hp Hw Hmax. unfold dict_fraction.
  assert (Q : 0 <= (win - p) * 32 / p <= 31).
  { split; [apply Z.div_pos; lia|]. apply Z.lt_succ_r. apply Z.div_lt_upper_bound; lia. }
  split; [|done]. rewrite Z.gtb_ltb. destruct (Z.ltb_spec p win).
  - rewrite (wrap_small 64) by lia. rewrite Z.gtb_ltb, (proj2 (Z.ltb_ge _ _)) by lia.
    rewrite (wrap_small 32) by lia. change 0x1F with (Z.ones 5). rewrite Z.land_ones, Z.mod_small by lia. done.
  - replace win with p by lia. rewrite Z.sub_diag. done.
Qed.

Lemma dict_fraction_range win p : 0 <= dict_fraction win p < 32.
Proof.
  unfold dict_fraction. destruct (_ >? _); [|lia]. apply (land_range 5); lia.
Qed.

Lemma dict_params_range win ver d fr :
  dict_params win ver = (d, fr) ->
  0 <= d <= (if ver =? 1 then 23 else 15) /\ 0 <= fr < 32 /\ (ver <> 1 -> fr = 0).
Proof.
  unfold dict_params. destruct (Z.geb_spec win 0x20000) as [Hw|]; [|intros [= <- <-]; destruct (_ =? _); lia].
  destruct (dict_loop_spec (if ver =? 1 then 23%nat else 15%nat) win 0 ltac:(lia) ltac:(lia))
    as (d' & E & Hd & _ & _).
  change (2 ^ (17 + 0)) with 0x20000 in E. rewrite E. intros [= -> <-].
  destruct (Z.eqb_spec ver 1).
  - pose proof (dict_fraction_range win (2 ^ (17 + d))). lia.
  - lia.
Qed.

Lemma comp_info_eq f d fr :
  dict_params (win_size f) (unp_ver f) = (d, fr) ->
  comp_info f = unp_ver f mod 64 + bit (is_solid f) 64 + (method f mod 8) * 2 ^ 7 + d * 2 ^ 10 +
    fr * 2 ^ 15 + bit ((unp_ver f =? 1) && negb (extra_dist f)) (2 ^ 20).
Proof.
  intros Hp. pose proof (dict_params_range _ _ _ _ Hp) as (Hd & Hfr & Hfr0).
  assert (Hd' : 0 <= d < 32) by (destruct (_ =? _); lia). clear Hd.
  unfold comp_info. cbv zeta.
  replace (Z.land (unp_ver f) 0x3F) with (unp_ver f mod 64) by (symmetry; apply (Z.land_ones _ 6); lia).
  replace (Z.land (method f) 7) with (method f mod 8) by (symmetry; apply (Z.land_ones _ 3); lia).
  pose proof (Z.mod_pos_bound (unp_ver f) 64 ltac:(lia)) as Hv.
  pose proof (Z.mod_pos_bound (method f) 8 ltac:(lia)) as Hm.
  assert (E1 : Z.lor (unp_ver f mod 64) (bit (is_solid f) 0x40) = unp_ver f mod 64 + bit (is_solid f) 64).
  { destruct (is_solid f); cbn [bit]; [|by rewrite Z.lor_0_r, Z.add_0_r].
    exact (lor_shiftl_add 6 (unp_ver f mod 64) 1 ltac:(lia) Hv). }
  rewrite E1.
  assert (Hs : 0 <= bit (is_solid f) 64 <= 64) by (destruct (is_solid f); cbn [bit]; lia).
  set (x0 := unp_ver f mod 64 + bit (is_solid f) 64) in *.
  rewrite (lor_shiftl_add 7) by (subst x0; lia). set (x1 := x0 + method f mod 8 * 2 ^ 7) in *.
  assert (Hx1 : 0 <= x1 < 2 ^ 10) by (subst x1 x0; lia).
  assert (E2 : (if win_size f >=? 0x20000 then
      let '(pow2, dict_bits) := dict_loop (if unp_ver f =? 1 then 23 else 15) (win_size f) 0x20000 0 in
      if unp_ver f =? 1
      then Z.lor (Z.lor x1 (Z.shiftl dict_bits 10)) (Z.shiftl (dict_fraction (win_size f) pow2) 15)
      else Z.lor x1 (Z.shiftl dict_bits 10)
    else x1) = x1 + d * 2 ^ 10 + fr * 2 ^ 15).
  { revert Hp. unfold dict_params. destruct (_ >=? _); [|intros [= <- <-]; lia].
    destruct (dict_loop _ _ _ _) as [p d']. intros [= -> Efr].
    rewrite (lor_shiftl_add 10) by lia. destruct (unp_ver f =? 1); [|lia].
    rewrite Efr, (lor_shiftl_add 15) by lia. done. }
  rewrite E2. set (x2 := x1 + d * 2 ^ 10 + fr * 2 ^ 15) in *.
  assert (Hx2 : 0 <= x2 < 2 ^ 20) by (subst x2; lia).
  destruct (_ && _); cbn [bit]; [|lia].
  change FCI_RAR5_COMPAT with (Z.shiftl 1 20). rewrite lor_shiftl_add by lia. lia.
Qed.

(** Every field of the word, as the reader extracts it. *)
Lemma comp_info_fields f d fr :
  dict_params (win_size f) (unp_ver f) = (d, fr) ->
  let ci := comp_info f in
  0 <= ci < 2 ^ 21 /\ Z.land ci 0x3F = unp_ver f mod 64 /\ has_flag ci 0x40 = is_solid f /\
  Z.land (Z.shiftr ci 7) 7 = method f mod 8 /\ Z.land (Z.shiftr ci 10) 0x1F = d /\
  Z.land (Z.shiftr ci 15) 0x1F = fr /\
  has_flag ci FCI_RAR5_COMPAT = (unp_ver f =? 1) && negb (extra_dist f) /\
  (Z.land ci 0x7C00 =? 0) = (d =? 0).
Proof.
  intros Hp. cbv zeta. rewrite (comp_info_eq _ _ _ Hp).
  pose proof (dict_params_range _ _ _ _ Hp) as (Hd & Hfr & _).
  assert (Hd' : 0 <= d < 32) by (destruct (_ =? _); lia). clear Hd.
  pose proof (Z.mod_pos_bound (unp_ver f) 64 ltac:(lia)) as Hv.
  pose proof (Z.mod_pos_bound (method f) 8 ltac:(lia)) as Hm.
  set (v := unp_ver f mod 64) in *. set (m := method f mod 8) in *.
  set (s := bit (is_solid f) 64). set (c := bit _ (2 ^ 20)).
  assert (Hs : s = 0 \/ s = 64) by (subst s; destruct (is_solid f); auto).
  assert (Hc : c = 0 \/ c = 2 ^ 20) by (subst c; destruct (_ && _); auto).
  set (ci := v + s + m * 2 ^ 7 + d * 2 ^ 10 + fr * 2 ^ 15 + c).
  assert (Hr : 0 <= ci < 2 ^ 21) by (subst ci; lia).
  assert (F : forall n k, 0 <= n -> 0 <= k -> Z.land (Z.shiftr ci n) (Z.ones k) = ci / 2 ^ n mod 2 ^ k).
  { intros n k Hn Hk. by rewrite Z.land_ones, Z.shiftr_div_pow2. }
  assert (Fd : Z.land (Z.shiftr ci 10) (Z.ones 5) = d) by (rewrite F by lia; subst ci; dlia).
  split; [done|]. split_and!.
  - change 0x3F with (Z.ones 6). rewrite Z.land_ones by lia. subst ci. dlia.
  - change 0x40 with (2 ^ 6). rewrite has_flag_testbit, Z.testbit_eqb by lia.
    subst ci s. destruct (is_solid f); cbn [bit] in *; [apply Z.eqb_eq|apply Z.eqb_neq]; dlia.
  - change 7 with (Z.ones 3) at 2. rewrite F by lia. subst ci. dlia.
  - exact Fd.
  - change 0x1F with (Z.ones 5). rewrite F by lia. subst ci. dlia.
  - change FCI_RAR5_COMPAT with (2 ^ 20). rewrite has_flag_testbit, Z.testbit_eqb by lia.
    subst ci c. destruct (_ && negb _); cbn [bit] in *; [apply Z.eqb_eq|apply Z.eqb_neq]; dlia.
  - change 0x7C00 with (Z.shiftl (Z.ones 5) 10). rewrite land_field, Fd, Z.shiftl_mul_pow2 by lia.
    destruct (Z.eqb_spec d 0), (Z.eqb_spec (d * 2 ^ 10) 0); lia.
Qed.

(** What the reader makes of the writer's window. *)
Lemma decode_comp_info f d fr :
  dict_params (win_size f) (unp_ver f) = (d, fr) ->
  let v := unp_ver f mod 64 in let m := method f mod 8 in
  decode_win_size (comp_info f) v m =
  if (v >? 1) || ((m =? 0) && (d =? 0)) then 0
  else if v =? 1 then
    let w := 2 ^ (17 + d) + 2 ^ (12 + d) * fr in if w >? 2 ^ 40 then 2 ^ 40 + 1 else w
  else 2 ^ (17 + d).
Proof.
  intros Hp. cbv zeta. destruct (comp_info_fields _ _ _ Hp) as (_ & _ & _ & _ & Fd & Ffr & _ & F7).
  pose proof (dict_params_range _ _ _ _ Hp) as (Hd & Hfr & Hfr0).
  assert (Hd23 : 0 <= d <= 23) by (destruct (Z.eqb_spec (unp_ver f) 1); lia).
  unfold decode_win_size. rewrite Fd, Ffr, F7. destruct (_ || _) eqn:E1; [done|].
  apply orb_false_iff in E1 as [E1 _]. rewrite Z.gtb_ltb in E1. apply Z.ltb_ge in E1.
  pose proof (Z.mod_pos_bound (unp_ver f) 64 ltac:(lia)) as Hv.
  set (v := unp_ver f mod 64) in *.
  assert (P : forall k, d <= k -> 2 ^ 17 <= 2 ^ (17 + d) <= 2 ^ (17 + k))
    by (intros k Hk; split; apply Z.pow_le_mono_r; lia).
  change RAR_DICT_BASE with (2 ^ 17). rewrite Z.shiftl_mul_pow2, <- Z.pow_add_r by lia.
  rewrite !Z.gtb_ltb. change RAR_DICT_MAX_V0 with (2 ^ 32). change RAR_DICT_MAX_V1 with (2 ^ 40).
  destruct (Z.eqb_spec v 0) as [Ev|Ev]; cbn [andb].
  - assert (d <= 15).
    { destruct (Z.eqb_spec (unp_ver f) 1) as [E|]; [|lia]. subst v. rewrite E in Ev. done. }
    specialize (P 15 ltac:(done)). change (17 + 15) with 32 in P.
    rewrite (proj2 (Z.ltb_ge 15 d)) by done. rewrite Ev. cbn [Z.eqb andb].
    rewrite wrap_small by lia. by rewrite (proj2 (Z.ltb_ge _ _)) by lia.
  - assert (v = 1) as -> by lia. cbn [Z.eqb Pos.eqb andb].
    assert (d <= 23) by lia.
    specialize (P 23 ltac:(done)). change (17 + 23) with 40 in P.
    rewrite (proj2 (Z.ltb_ge 23 d)) by done.
    rewrite (wrap_small 64 (2 ^ (17 + d))) by lia.
    replace (2 ^ (17 + d) / 32) with (2 ^ (12 + d)).
    2:{ replace (17 + d) with ((12 + d) + 5) by lia. rewrite (Z.pow_add_r 2 (12 + d) 5) by lia.
        change (2 ^ 5) with 32. by rewrite Z.div_mul. }
    assert (Q : 0 < 2 ^ (12 + d) <= 2 ^ 35).
    { split; [apply Z.pow_pos_nonneg; lia|apply Z.pow_le_mono_r; lia]. }
    rewrite (wrap_small 64 (_ * _)) by nia. by rewrite wrap_small by nia.
Qed.

(** The block the reader reconstructs. *)
Definition reread_fixed (f : FileFixed) : FileFixed :=
  let eff := eff_file_flags f in
  let ver := unp_ver f mod 64 in
  {| is_service := is_service f;
     service_type := if is_service f then file_name f else [];
     file_flags := eff;
     unp_size := unp_size f;
     unp_unknown := has_flag eff FHFL_UNPUNKNOWN;
     pack_size := if pack_size f >=? 0 then pack_size f else -1;
     attributes := attributes f;
     has_crc32 := has_flag eff FHFL_CRC32;
     data_crc32 := if has_flag eff FHFL_CRC32 then data_crc32 f else 0;
     utime_unix := utime_unix f;
     method := method f mod 8;
     win_size := decode_win_size (comp_info f) ver (method f mod 8);
     is_solid := is_solid f;
     unp_ver := ver;
     extra_dist := (ver =? 1) && negb ((unp_ver f =? 1) && negb (extra_dist f));
     host_os := host_os f;
     file_name := file_name f |}.

Lemma has_flag_lor a b m : has_flag (Z.lor a b) m = has_flag a m || has_flag b m.
Proof.
  unfold has_flag. rewrite Z.land_lor_distr_l.
  destruct (Z.eqb_spec (Z.land a m) 0) as [->|Ha]; [by rewrite Z.lor_0_l|].
  cbn [negb orb]. apply negb_true_iff, Z.eqb_neq. intros E. apply Z.lor_eq_0_iff in E. lia.
Qed.

Lemma bit_range c m w : 0 <= w -> 0 <= m < 2 ^ w -> 0 <= bit c m < 2 ^ w.
Proof. intros. destruct c; cbn [bit]; lia. Qed.

Lemma eff_flags_u64 f : is_u64 (file_flags f) -> is_u64 (eff_file_flags f).
Proof.
  intros H. unfold eff_file_flags, is_u64. apply lor_range; [lia| |apply bit_range; done].
  apply lor_range; [lia|done|apply bit_range; done].
Qed.

(** No UTIME flag means no time to write. *)
Lemma eff_flags_utime f : has_flag (eff_file_flags f) FHFL_UTIME = false -> utime_unix f = 0.
Proof.
  unfold eff_file_flags. rewrite has_flag_lor. intros H. apply orb_false_iff in H as [_ H].
  destruct (Z.eqb_spec (utime_unix f) 0); [done|by vm_compute in H].
Qed.

Lemma head_flags_range b ehf : 0 <= ehf -> is_u64 (head_flags b ehf).
Proof.
  intros He. unfold head_flags, is_u64. apply lor_range; [lia| |].
  - apply lor_range; [lia|destruct (_ >=? _); vm_compute; split; [discriminate|reflexivity| discriminate|reflexivity]|].
    destruct (_ =? _); vm_compute; split; [discriminate|reflexivity|discriminate|reflexivity].
  - apply land_range; [lia|]. vm_compute. split; [discriminate|reflexivity].
Qed.

Lemma head_flags_spec b ehf :
  has_flag (head_flags b ehf) HFL_EXTRA = negb (zlen (file_extra b) =? 0) /\
  has_flag (head_flags b ehf) HFL_DATA = (pack_size (fixed b) >=? 0).
Proof.
  unfold head_flags. rewrite !has_flag_lor.
  assert (E : forall m, Z.land 0x78 m = 0 ->
    has_flag (Z.land ehf (Z.lor (Z.lor (Z.lor HFL_SPLITBEFORE HFL_SPLITAFTER) HFL_CHILD) HFL_INHERITED)) m = false).
  { intros m Hm. unfold has_flag. rewrite <- Z.land_assoc.
    change (Z.lor (Z.lor (Z.lor HFL_SPLITBEFORE HFL_SPLITAFTER) HFL_CHILD) HFL_INHERITED) with 0x78.
    by rewrite Hm, Z.land_0_r. }
  rewrite !E by done. destruct (_ >=? _), (_ =? _); done.
Qed.

Lemma region_le32_field_if body off (c : bool) v l lim :
  region body off ((if c then push_le32 v else []) ++ l) lim -> 0 <= v < 2 ^ 32 ->
  le32_field_if c body off lim =
    Ok (if c then v else 0, off + zlen (if c then push_le32 v else [])).
Proof.
  intros Hr Hv. unfold le32_field_if. destruct c; [|change (zlen (@nil Z)) with 0; by rewrite Z.add_0_r].
  destruct (region_le32 _ _ _ _ Hr Hv) as (E & -> & Hl).
  by rewrite Z.gtb_ltb, (proj2 (Z.ltb_ge _ _)), E by done.
Qed.

Lemma region_vint_field_if body off (c : bool) v l lim d :
  region body off ((if c then vint v else []) ++ l) lim -> 0 <= v < 2 ^ 64 ->
  vint_field_if c body off lim d = Ok (if c then v else d, off + zlen (if c then vint v else [])).
Proof.
  intros Hr Hv. unfold vint_field_if. destruct c; [|change (zlen (@nil Z)) with 0; by rewrite Z.add_0_r].
  by rewrite (region_vint_field _ _ _ _ Hr).
Qed.

(** [pack_size] in either width. *)
Definition pack_bytes (p : Z) (wide : bool) : list Z :=
  if wide then (push_vint_fixed [] p 10).1 else vint p.

Lemma region_pack_size body off p wide l lim (c : bool) :
  region body off ((if c then pack_bytes p wide else []) ++ l) lim -> (c = true -> 0 <= p < 2 ^ 63) ->
  pack_size_field c body off lim =
    Ok (if c then p else -1, off + zlen (if c then pack_bytes p wide else [])).
Proof.
  intros Hr Hp. unfold pack_size_field. destruct c; [|change (zlen (@nil Z)) with 0; by rewrite Z.add_0_r].
  specialize (Hp eq_refl).
  assert (E : vint_field body off lim = Ok (p, off + zlen (pack_bytes p wide))).
  { unfold pack_bytes in *. destruct wide; [|by apply (region_vint_field _ _ _ _ Hr); lia].
    rewrite push_vint_fixed_eq in * by lia. cbn [fst app] in *.
    pose proof (region_bounds _ _ _ Hr) as R. rewrite zlen_app, zlen_vint_fixed in *.
    pose proof (zlen_nonneg l). destruct Hr as (_ & _ & _ & _ & _ & V). rewrite <- app_assoc in V.
    unfold vint_field, try_vint.
    rewrite (read_push_vint_fixed body off _ p 10 (l ++ view body lim));
      [|lia|lia|lia|rewrite size_sub_small; lia|done].
    res_simpl. rewrite size_add_small by lia. done. }
  rewrite E. res_simpl. rewrite Z.gtb_ltb, (proj2 (Z.ltb_ge _ _)) by (unfold INT64_MAX; lia). done.
Qed.

Lemma region_name body off name l lim :
  region body off (vint (zlen name) ++ name ++ l) lim ->
  name_field body off lim = Ok (name, off + zlen (vint (zlen name)) + zlen name).
Proof.
  intros Hr. unfold name_field. pose proof (zlen_nonneg name).
  assert (zlen name < 2 ^ 63) by (pose proof (region_bounds _ _ _ Hr) as R; rewrite !zlen_app in R; zlen_lia).
  rg_vint Hr. destruct (region_slice _ _ _ _ (zlen name) Hr eq_refl) as (-> & -> & Hl).
  rewrite Z.gtb_ltb, (proj2 (Z.ltb_ge _ _)) by done. done.
Qed.

(** ** The body is bytes *)

Lemma le32_bytes_ok v : bytes (push_le32 v).
Proof. apply le32_bytes_bytes. Qed.

Lemma push_le64_bytes v : bytes (push_le64 v).
Proof. unfold push_le64. cbn [map]. bytes_solve. Qed.

Lemma push_fixed_bytes p n : 0 <= p -> bytes (push_vint_fixed [] p n).1.
Proof.
  intros Hp. rewrite push_vint_fixed_eq by done. cbn [fst app].
  destruct n as [|n]; [constructor|]. apply is_vint_bytes, vint_fixed_is_vint. lia.
Qed.

Lemma bytes_if (c : bool) l : (c = true -> bytes l) -> bytes (if c then l else []).
Proof. destruct c; [auto|constructor]. Qed.

Lemma single_byte b : is_byte b -> bytes [b].
Proof. repeat constructor; apply H. Qed.

#[export] Hint Resolve le32_bytes_ok push_le64_bytes bytes_if single_byte zlen_nonneg : orar.

Lemma extra_record_bytes ty content : is_byte ty -> bytes content -> bytes (extra_record ty content).
Proof.
  intros. unfold extra_record. pose proof (zlen_nonneg content).
  apply Forall_app_2; [apply vint_bytes; lia|]. apply Forall_app_2; auto with orar.
Qed.

Ltac known_type := vm_compute; split; [discriminate|reflexivity].

Lemma crypt_extra_bytes b : FileBlock_ok b -> bytes (crypt_extra b).
Proof.
  intros Hok. pose proof (crypt_ok _ Hok) as [Hv Hf Hl [_ Hs] [_ Hi] [_ Hp] [_ Hc]].
  apply bytes_if. intros _. apply extra_record_bytes; [known_type|]. unfold crypt_content.
  unfold is_u32 in *. repeat apply Forall_app_2; auto with orar; try (apply vint_bytes; lia).
  apply bytes_if. intros _. by apply Forall_app_2.
Qed.

Lemma redir_extra_bytes b : FileBlock_ok b -> bytes (redir_extra b).
Proof.
  intros Hok. pose proof (redir_ok _ Hok) as [Ht Hb]. unfold is_byte in Ht.
  apply bytes_if. intros _. apply extra_record_bytes; [known_type|]. unfold redir_content.
  repeat apply Forall_app_2; auto with orar; apply vint_bytes; [lia|destruct (redir_dir_target _); lia].
Qed.

Lemma hash_extra_bytes b : FileBlock_ok b -> bytes (hash_extra b).
Proof.
  intros Hok. pose proof (hash_ok _ Hok) as [_ Hb]. apply bytes_if. intros _.
  repeat apply Forall_app_2; auto with orar; apply single_byte; known_type.
Qed.

Lemma htime_flags_bytes p : bytes (vint (htime_flags p)).
Proof. apply vint_bytes. destruct (htime_flags_spec p) as [? _]. lia. Qed.

Lemma htime_extra_bytes b : bytes (htime_extra b).
Proof.
  unfold htime_extra. apply bytes_if. intros _. apply extra_record_bytes; [known_type|].
  unfold htime_content. repeat apply Forall_app_2; [apply htime_flags_bytes|..];
    try (apply bytes_if; intros _; auto with orar; destruct (hp_unix _); auto with orar).
  apply bytes_if. intros _. unfold ns_bytes. repeat apply Forall_app_2; auto with orar.
Qed.

Lemma version_extra_bytes b : FileBlock_ok b -> bytes (version_extra b).
Proof.
  intros Hok. pose proof (version_ok _ Hok) as Hv. unfold is_u64 in Hv.
  apply bytes_if. intros _. apply extra_record_bytes; [known_type|].
  apply Forall_app_2; apply vint_bytes; lia.
Qed.

Lemma push_owner_name_bytes name : bytes name -> bytes (push_owner_name name).
Proof.
  intros H. unfold push_owner_name. cbv zeta. pose proof (zlen_nonneg name).
  apply Forall_app_2; [apply vint_bytes; lia|auto with orar].
Qed.

Lemma owner_extra_bytes b : FileBlock_ok b -> bytes (owner_extra b).
Proof.
  intros Hok. pose proof (owner_ok _ Hok) as [H1 H2 H3 H4]. unfold is_u64 in *.
  apply bytes_if. intros _. apply extra_record_bytes; [known_type|].
  destruct (owner_flags_spec (owner b)) as [Hf _]. unfold owner_content. cbv zeta.
  repeat apply Forall_app_2; try (apply bytes_if; intros _);
    try (by apply push_owner_name_bytes); apply vint_bytes; lia.
Qed.

Lemma subdata_extra_bytes b : FileBlock_ok b -> bytes (subdata_extra b).
Proof.
  intros Hok. apply bytes_if. intros _. apply extra_record_bytes; [known_type|]. apply (sub_data_ok _ Hok).
Qed.

Lemma emitted_In x l : In x (emitted_xattrs l) -> In x l /\ xattr_emitted x = true.
Proof. apply filter_In. Qed.

Lemma xattr_extra_bytes b : FileBlock_ok b -> bytes (xattr_extra b).
Proof.
  intros Hok. unfold xattr_extra. rewrite xattr_entries_eq. apply bytes_if. intros _.
  apply extra_record_bytes; [known_type|].
  apply Forall_app_2; [apply vint_bytes; lia|]. apply Forall_app_2; [auto with orar|].
  pose proof (xattrs_ok _ Hok) as Hx. rewrite Forall_forall in Hx.
  apply Forall_concat, Forall_map, Forall_forall. intros x Hin%list_elem_of_In.
  apply emitted_In in Hin as [Hin _]. apply list_elem_of_In, Hx in Hin as [H1 H2].
  unfold xattr_bytes. repeat apply Forall_app_2; auto with orar.
Qed.

Lemma unknown_extra_bytes b : FileBlock_ok b -> bytes (unknown_extra b).
Proof.
  intros Hok. pose proof (unknown_ok _ Hok) as Hu. unfold unknown_extra.
  apply Forall_concat, Forall_map. eapply Forall_impl; [exact Hu|]. by intros u [_ H].
Qed.

Lemma file_extra_bytes b : FileBlock_ok b -> bytes (file_extra b).
Proof.
  intros Hok. unfold file_extra. repeat apply Forall_app_2;
    auto using crypt_extra_bytes, redir_extra_bytes, hash_extra_bytes, htime_extra_bytes,
      version_extra_bytes, owner_extra_bytes, subdata_extra_bytes, xattr_extra_bytes, unknown_extra_bytes.
Qed.

Lemma comp_info_range f : 0 <= comp_info f < 2 ^ 21.
Proof. destruct (dict_params (win_size f) (unp_ver f)) as [d fr] eqn:E. by apply comp_info_fields in E as [? _]. Qed.

Lemma pack_bytes_bytes p wide : 0 <= p -> bytes (pack_bytes p wide).
Proof. intros. unfold pack_bytes. destruct wide; [by apply push_fixed_bytes|by apply vint_bytes]. Qed.

Lemma file_body_bytes b ehf wide :
  FileBlock_ok b -> 0 <= ehf -> bytes (file_body b ehf wide).
Proof.
  intros Hok He. pose proof (fixed_ok _ Hok) as []. pose proof (head_flags_range b ehf He) as Hh.
  pose proof (eff_flags_u64 _ file_flags_ok) as Hef. pose proof (comp_info_range (fixed b)) as Hci.
  unfold is_u64, is_u32 in *. unfold file_body. cbv zeta.
  pose proof (file_extra_bytes b Hok) as Hex. set (ex := file_extra b) in *. clearbody ex.
  repeat apply Forall_app_2; auto with orar; try (apply vint_bytes; lia).
  - destruct (is_service _); apply vint_bytes; vm_compute; discriminate.
  - destruct (Z.geb_spec (pack_size (fixed b)) 0); [|constructor].
    by apply (pack_bytes_bytes _ wide).
Qed.

(** ** The fixed part *)

Lemma parse_file_fixed_body b ehf wide :
  FileBlock_ok b -> 0 <= ehf -> zlen (file_body b ehf wide) < 2 ^ 63 ->
  exists off,
    parse_file_fixed (file_body b ehf wide) =
      Ok (reread_fixed (fixed b), head_flags b ehf,
          (if has_flag (head_flags b ehf) HFL_EXTRA then zlen (file_extra b) else 0), off) /\
    view (file_body b ehf wide) off = file_extra b /\ 0 <= off /\
    zlen (file_body b ehf wide) = off + zlen (file_extra b).
Proof.
  intros Hok He Hlen. pose proof (file_body_bytes b ehf wide Hok He) as Hbytes.
  pose proof (fixed_ok _ Hok) as []. pose proof (head_flags_range b ehf He) as Hh.
  pose proof (eff_flags_u64 _ file_flags_ok) as Hef. pose proof (comp_info_range (fixed b)) as Hci.
  destruct (head_flags_spec b ehf) as [Hex Hda].
  destruct (dict_params (win_size (fixed b)) (unp_ver (fixed b))) as [d fr] eqn:Edp.
  destruct (comp_info_fields _ _ _ Edp) as (_ & F1 & F2 & F3 & _ & _ & F6 & _).
  unfold is_u64, is_u32, is_i64 in *. set (body := file_body b ehf wide) in *.
  assert (Hr : region body 0 (file_body b ehf wide) (zlen body)).
  { split_and!; try done. fold body. unfold view, zlen. rewrite Nat2Z.id, drop_all. by rewrite app_nil_r. }
  unfold file_body in Hr. cbv zeta in Hr. fold (pack_bytes (pack_size (fixed b)) wide) in Hr.
  unfold parse_file_fixed.
  assert (Hty : 0 <= (if is_service (fixed b) then HEAD_SERVICE else HEAD_FILE) < 2 ^ 64)
    by (destruct (is_service (fixed b)); unfold HEAD_SERVICE, HEAD_FILE; lia).
  assert (Hze : 0 <= zlen (file_extra b) < 2 ^ 64).
  { pose proof (region_bounds _ _ _ Hr) as R. rewrite !zlen_app in R. zlen_pose. lia. }
  rg_vint Hr.
  assert (Es : negb ((if is_service (fixed b) then HEAD_SERVICE else HEAD_FILE) =? HEAD_FILE) &&
               negb ((if is_service (fixed b) then HEAD_SERVICE else HEAD_FILE) =? HEAD_SERVICE) = false)
    by (by destruct (is_service (fixed b))).
  assert (Es2 : ((if is_service (fixed b) then HEAD_SERVICE else HEAD_FILE) =? HEAD_SERVICE)
                = is_service (fixed b)) by (by destruct (is_service (fixed b))).
  rewrite Es, Es2. rg_vint Hr.
  rewrite (region_vint_field_if _ _ _ _ _ _ 0 Hr) by done. res_simpl. apply region_step in Hr.
  rewrite Hda. rewrite (region_pack_size _ _ _ _ _ _ _ Hr).
  2:{ intros Hp%Z.geb_le. lia. }
  res_simpl. apply region_step in Hr. rg_vint Hr. rg_vint Hr. rg_vint Hr.
  rewrite (region_le32_field_if _ _ _ _ _ _ Hr) by done. res_simpl. apply region_step in Hr.
  rewrite (region_le32_field_if _ _ _ _ _ _ Hr) by done. res_simpl. apply region_step in Hr.
  rg_vint Hr. rg_vint Hr. rewrite (region_name _ _ _ _ _ Hr). res_simpl.
  apply region_step in Hr. apply region_step in Hr.
  eexists. split; [|].
  - do 5 f_equal. unfold reread_fixed.
    rewrite F1, F3, F2, F6. rewrite !u32_small by (unfold is_u32; dlia).
    destruct (has_flag (eff_file_flags (fixed b)) FHFL_UTIME) eqn:Eut; [done|].
    by rewrite (eff_flags_utime _ Eut).
  - pose proof (region_bounds _ _ _ Hr) as R. split; [|lia].
    destruct Hr as (_ & _ & _ & _ & _ & V). rewrite V. unfold view, zlen. rewrite Nat2Z.id, drop_all.
    by rewrite app_nil_r.
Qed.

(** ** File and service headers *)

(** What the reader makes of a block written by the writer: absent groups have
    their initial values, over-long owner names are cut to 255 bytes,
    attributes beyond the caps are gone, an all-zero password check counts as
    none, and the fixed part is normalised by [reread_fixed]. *)
Definition reread (b : FileBlock) : FileBlock :=
  let c := crypt b in let o := owner b in let p := htime_plan (htimes b) in
  {| fixed := reread_fixed (fixed b);
     hash := if has_blake2sp (hash b) then hash b else FileHash_default;
     htimes := if hp_any p then read_htimes p (htimes b) HTimes_default else HTimes_default;
     owner := if owner_present o then
       {| has_owner := true; owner_user := take 255%nat (owner_user o);
          owner_group := take 255%nat (owner_group o);
          owner_uid := if has_owner_uid o then owner_uid o else 0;
          owner_gid := if has_owner_gid o then owner_gid o else 0;
          has_owner_uid := has_owner_uid o; has_owner_gid := has_owner_gid o |}
       else Owner_default;
     version := if has_file_version (version b) then version b else FileVersion_default;
     crypt := if is_encrypted c then
       {| is_encrypted := true; crypt_version := crypt_version c; crypt_flags := crypt_flags c;
          lg2_count := lg2_count c; salt := salt c; init_v := init_v c;
          has_psw_check := has_psw_check c && negb (all_zero (psw_check c));
          psw_check := if has_psw_check c then psw_check c else zeros 8;
          psw_check_csum := if has_psw_check c then psw_check_csum c else zeros 4 |}
       else FileCrypt_default;
     redir := if redir_type (redir b) =? 0 then Redir_default else redir b;
     sub_data := if is_service (fixed b) then sub_data b else [];
     xattrs := emitted_xattrs (xattrs b);
     unknown_extras := unknown_extras b |}.

(** The blocks the writer can express. *)
Record Writable (b : FileBlock) : Prop := {
  wr_ok : FileBlock_ok b;
  wr_crypt : is_encrypted (crypt b) = true -> crypt_consistent (crypt b);
  wr_redir : redir_type (redir b) <> 0 -> zlen (redir_target (redir b)) < 2048;
  wr_xattrs : NoDup (map xa_name (emitted_xattrs (xattrs b)));
  wr_unknown : Forall Unknown_wf (unknown_extras b)
}.

(** What each part of the extra area does to the block read so far. *)
Definition upd_crypt (b acc : FileBlock) : FileBlock :=
  let c := crypt b in
  set_crypt (if is_encrypted c then
    {| is_encrypted := true; crypt_version := crypt_version c; crypt_flags := crypt_flags c;
       lg2_count := lg2_count c; salt := salt c; init_v := init_v c;
       has_psw_check := if has_psw_check c then negb (all_zero (psw_check c)) else has_psw_check (crypt acc);
       psw_check := if has_psw_check c then psw_check c else psw_check (crypt acc);
       psw_check_csum := if has_psw_check c then psw_check_csum c else psw_check_csum (crypt acc) |}
    else crypt acc) acc.
Definition upd_redir (b acc : FileBlock) : FileBlock :=
  set_redir (if redir_type (redir b) =? 0 then redir acc else redir b) acc.
Definition upd_hash (b acc : FileBlock) : FileBlock :=
  set_hash (if has_blake2sp (hash b) then hash b else hash acc) acc.
Definition upd_htimes (b acc : FileBlock) : FileBlock :=
  let p := htime_plan (htimes b) in
  set_htimes (if hp_any p then read_htimes p (htimes b) (htimes acc) else htimes acc) acc.
Definition upd_version (b acc : FileBlock) : FileBlock :=
  set_version (if has_file_version (version b) then version b else version acc) acc.
Definition upd_owner (b acc : FileBlock) : FileBlock :=
  if owner_present (owner b) then read_owner (owner b) acc else acc.
Definition upd_sub_data (b acc : FileBlock) : FileBlock :=
  set_sub_data (if is_service (fixed b) && negb (zlen (sub_data b) =? 0) then sub_data b
                else sub_data acc) acc.
Definition upd_xattrs (b acc : FileBlock) : FileBlock := add_xattrs (emitted_xattrs (xattrs b)) acc.
Definition upd_unknown (b acc : FileBlock) : FileBlock := add_unknowns (unknown_extras b) acc.

Lemma zlen_concat_xattrs xs :
  Forall (fun x => xattr_emitted x = true) xs -> zlen xs <= zlen (concat (map xattr_bytes xs)).
Proof.
  induction 1 as [|x xs Hx Hxs IH]; [done|]. cbn [map concat]. rewrite zlen_cons, zlen_app.
  apply xattr_emitted_spec in Hx as [Hx _].
  assert (zlen (vint (zlen (xa_name x))) <= zlen (xattr_bytes x))
    by (unfold xattr_bytes; rewrite !zlen_app; zlen_pose; lia).
  pose proof (is_vint_nonempty _ (vint_is_vint (zlen (xa_name x)) ltac:(lia))). lia.
Qed.

Lemma emitted_all l : Forall (fun x => xattr_emitted x = true) (emitted_xattrs l).
Proof. apply Forall_forall. intros x Hx%list_elem_of_In. by apply emitted_In in Hx as [_ ?]. Qed.

(** A framed record is no shorter than its content. *)
Lemma zlen_extra_record ty content : zlen content <= zlen (extra_record ty content).
Proof. unfold extra_record. rewrite !zlen_app. zlen_pose. lia. Qed.

(** Nothing written, nothing changed. *)
Lemma parses_nothing f : (forall acc, f acc = acc) -> fparses [] f.
Proof. intros H. apply (parses_id _ _ id); [apply parses_nil|done]. Qed.

Section extras.
Context (b : FileBlock) (Hb : Writable b).

Lemma parses_crypt_extra : fparses (crypt_extra b) (upd_crypt b).
Proof using Hb.
  destruct Hb as [Hok Hc _ _ _]. unfold crypt_extra, upd_crypt. cbv zeta.
  destruct (is_encrypted (crypt b)).
  - apply (parses_crypt _ (crypt_ok _ Hok) (Hc eq_refl)).
  - apply parses_nothing. by intros [].
Qed.

Lemma parses_redir_extra : fparses (redir_extra b) (upd_redir b).
Proof using Hb.
  destruct Hb as [Hok _ Hr _ _]. unfold redir_extra, upd_redir.
  destruct (Z.eqb_spec (redir_type (redir b)) 0); cbn [negb].
  - apply parses_nothing. by intros [].
  - apply (parses_redir _ (redir_ok _ Hok)); auto.
Qed.

Lemma parses_hash_extra : fparses (hash_extra b) (upd_hash b).
Proof using Hb.
  destruct Hb as [Hok _ _ _ _]. unfold hash_extra, upd_hash.
  pose proof (parses_hash _ (hash_ok _ Hok)) as H. destruct (hash b) as [[] d]; cbn [has_blake2sp blake2sp] in *.
  - exact H.
  - apply parses_nothing. by intros [].
Qed.

Lemma parses_htime_extra : fparses (htime_extra b) (upd_htimes b).
Proof using Hb.
  destruct Hb as [Hok _ _ _ _]. unfold htime_extra, upd_htimes. cbv zeta. destruct (hp_any _).
  - apply (parses_htime _ _ (htimes_ok _ Hok)).
  - apply parses_nothing. by intros [].
Qed.

Lemma parses_version_extra : fparses (version_extra b) (upd_version b).
Proof using Hb.
  destruct Hb as [Hok _ _ _ _]. unfold version_extra, upd_version.
  pose proof (parses_version _ (version_ok _ Hok)) as H.
  destruct (version b) as [[] v]; cbn [has_file_version file_version] in *.
  - exact H.
  - apply parses_nothing. by intros [].
Qed.

Lemma parses_owner_extra : fparses (owner_extra b) (upd_owner b).
Proof using Hb.
  destruct Hb as [Hok _ _ _ _]. unfold owner_extra, upd_owner. destruct (owner_present _).
  - apply (parses_owner _ (owner_ok _ Hok)).
  - by apply parses_nothing.
Qed.

Lemma parses_subdata_extra : zlen (subdata_extra b) < 2 ^ 61 -> fparses (subdata_extra b) (upd_sub_data b).
Proof using Type.
  unfold subdata_extra, upd_sub_data. destruct (_ && _); intros Hl.
  - apply parses_subdata. pose proof (zlen_extra_record FHEXTRA_SUBDATA (sub_data b)). lia.
  - apply parses_nothing. by intros [].
Qed.

Lemma parses_xattr_extra : zlen (xattr_extra b) < 2 ^ 61 -> fparses (xattr_extra b) (upd_xattrs b).
Proof using Hb.
  destruct Hb as [_ _ _ Hn _]. unfold xattr_extra, upd_xattrs. rewrite xattr_entries_eq.
  rewrite Z.gtb_ltb. destruct (Z.ltb_spec 0 (zlen (emitted_xattrs (xattrs b)))); intros Hl.
  - pose proof (emitted_all (xattrs b)) as He. pose proof (zlen_concat_xattrs _ He) as Hc.
    pose proof (zlen_extra_record FHEXTRA_XATTR (vint 0 ++ vint (zlen (emitted_xattrs (xattrs b))) ++
      concat (map xattr_bytes (emitted_xattrs (xattrs b))))) as Hx.
    rewrite !zlen_app in Hx. zlen_pose. apply parses_xattr; [done|done|lia|lia].
  - rewrite (zlen_zero_nil (emitted_xattrs (xattrs b))) by zlen_lia. apply parses_nothing.
    intros []. unfold add_xattrs; simpl. by rewrite app_nil_r.
Qed.

Lemma parses_unknown_extra : fparses (unknown_extra b) (upd_unknown b).
Proof using Hb. destruct Hb. by apply parses_unknowns. Qed.

Definition read_extras (acc : FileBlock) : FileBlock :=
  upd_unknown b (upd_xattrs b (upd_sub_data b (upd_owner b (upd_version b (upd_htimes b
    (upd_hash b (upd_redir b (upd_crypt b acc)))))))).

Lemma file_extra_parses : zlen (file_extra b) < 2 ^ 61 -> fparses (file_extra b) read_extras.
Proof using Hb.
  intros Hlen. unfold file_extra in *. rewrite !zlen_app in Hlen. zlen_pose.
  assert (Hsd : zlen (subdata_extra b) < 2 ^ 61) by lia.
  assert (Hxa : zlen (xattr_extra b) < 2 ^ 61) by lia.
  exact (parses_app _ _ _ _ _ parses_crypt_extra (parses_app _ _ _ _ _ parses_redir_extra
    (parses_app _ _ _ _ _ parses_hash_extra (parses_app _ _ _ _ _ parses_htime_extra
    (parses_app _ _ _ _ _ parses_version_extra (parses_app _ _ _ _ _ parses_owner_extra
    (parses_app _ _ _ _ _ (parses_subdata_extra Hsd) (parses_app _ _ _ _ _ (parses_xattr_extra Hxa)
      parses_unknown_extra)))))))).
Qed.
End extras.

Lemma add_unknowns_eq us b :
  add_unknowns us b =
  Build_FileBlock (fixed b) (hash b) (htimes b) (owner b) (version b) (crypt b) (redir b)
    (sub_data b) (xattrs b) (unknown_extras b ++ us).
Proof.
  revert b. induction us as [|u us IH]; intros b; [rewrite app_nil_r; by destruct b|].
  cbn [add_unknowns]. rewrite IH. unfold add_unknown; simpl. by rewrite <- app_assoc.
Qed.

Lemma take_owner_empty (name : list Z) :
  (if zlen name =? 0 then [] else take 255%nat name) = take 255%nat name.
Proof.
  destruct (Z.eqb_spec (zlen name) 0) as [E|]; [|done]. apply zlen_zero_nil in E. by subst.
Qed.

Lemma upd_owner_eq b acc :
  owner acc = Owner_default ->
  upd_owner b acc = set_owner (if owner_present (owner b) then
       {| has_owner := true; owner_user := take 255%nat (owner_user (owner b));
          owner_group := take 255%nat (owner_group (owner b));
          owner_uid := if has_owner_uid (owner b) then owner_uid (owner b) else 0;
          owner_gid := if has_owner_gid (owner b) then owner_gid (owner b) else 0;
          has_owner_uid := has_owner_uid (owner b); has_owner_gid := has_owner_gid (owner b) |}
       else Owner_default) acc.
Proof.
  intros E. unfold upd_owner, read_owner. destruct (owner_present (owner b)).
  - rewrite E. cbn [owner_user owner_group owner_uid owner_gid has_owner_uid has_owner_gid Owner_default].
    by rewrite !take_owner_empty, !orb_false_r.
  - rewrite <- E. by destruct acc.
Qed.

Lemma read_extras_reread b : read_extras b (file_block_of (reread_fixed (fixed b))) = reread b.
Proof.
  unfold read_extras. rewrite upd_owner_eq by reflexivity. unfold upd_unknown. rewrite add_unknowns_eq.
  unfold reread. cbv zeta. cbn [upd_crypt upd_redir upd_hash upd_htimes upd_version upd_sub_data upd_xattrs
    file_block_of set_crypt set_redir set_hash set_htimes set_version set_owner set_sub_data add_xattrs
    fixed hash htimes owner version crypt redir sub_data xattrs unknown_extras app
    has_psw_check psw_check psw_check_csum FileCrypt_default].
  f_equal.
  destruct (is_service (fixed b)); [|done].
  destruct (Z.eqb_spec (zlen (sub_data b)) 0) as [E|]; [|done]. cbn. symmetry. by apply zlen_zero_nil.
Qed.

Lemma parse_file_header_body b ehf wide :
  Writable b -> 0 <= ehf -> zlen (file_body b ehf wide) < 2 ^ 61 ->
  parse_file_header (file_body b ehf wide) = Ok (reread b).
Proof.
  intros Hb He Hlen. pose proof Hb as [Hok _ _ _ _].
  destruct (parse_file_fixed_body b ehf wide Hok He ltac:(lia)) as (off & E & Hv & Ho & HL).
  unfold parse_file_header. rewrite E. res_simpl. rewrite <- read_extras_reread.
  apply (parses_extra_area _ _ _ _ _ _ _ (file_extra_parses b Hb ltac:(lia))); try done; try lia.
  - by apply file_body_bytes.
  - apply head_flags_spec.
Qed.

(** ** A wrapped block is framed *)

Lemma wrap_block_framed p body rest :
  zlen body <= MAX_BODY_SIZE ->
  framed (p ++ wrap_block body ++ rest) (zlen p) (vint (zlen body)) body.
Proof.
  intros Hm. pose proof (zlen_nonneg body). unfold MAX_BODY_SIZE in *.
  exists (push_le32 (header_crc (vint (zlen body)) body)), rest.
  split_and!.
  - rewrite view_app by done. unfold wrap_block, push_vint. cbn [app]. by rewrite <- !app_assoc.
  - apply zlen_le32_bytes.
  - apply vint_is_vint. lia.
  - apply vint_length_u64. lia.
  - apply vint_val_vint. lia.
  - done.
  - apply le_val_le32. apply crc32_range.
Qed.

Lemma zlen_wrap_block body :
  zlen (wrap_block body) = 4 + zlen (vint (zlen body)) + zlen body.
Proof. unfold wrap_block, push_vint. cbn [app]. rewrite !zlen_app. change (zlen (push_le32 _)) with 4. lia. Qed.

Lemma wrap_block_bytes body : bytes body -> bytes (wrap_block body).
Proof.
  intros H. unfold wrap_block, push_vint. pose proof (zlen_nonneg body).
  repeat apply Forall_app_2; auto with orar.
Qed.

(** Whatever stands around it, a wrapped block is read back whole. *)
Lemma read_wrapped p body rest r :
  bytes p -> bytes body -> bytes rest -> zlen body <= MAX_BODY_SIZE ->
  zlen p + zlen rest < 2 ^ 62 -> finish_block body = Ok r ->
  read_block_raw_mem (p ++ wrap_block body ++ rest) (zlen p) = Ok (r, zlen p + zlen (wrap_block body)).
Proof.
  intros Hp Hb Hr Hm Hl Hf. pose proof (zlen_nonneg body). pose proof (zlen_nonneg rest). pose proof (zlen_nonneg p).
  unfold MAX_BODY_SIZE in *. pose proof (vint_length_u64 (zlen body) ltac:(lia)).
  rewrite zlen_wrap_block, !Z.add_assoc.
  apply read_block_raw_mem_framed; [|rewrite !zlen_app, zlen_wrap_block; lia..| |done].
  - apply Forall_app_2; [done|]. apply Forall_app_2; [by apply wrap_block_bytes|done].
  - by apply wrap_block_framed.
Qed.

(** The common fields of a file body. *)
Lemma parse_block_fields_file b ehf wide :
  FileBlock_ok b -> 0 <= ehf -> zlen (file_body b ehf wide) < 2 ^ 61 ->
  parse_block_fields (file_body b ehf wide) =
    Ok (if is_service (fixed b) then HEAD_SERVICE else HEAD_FILE, head_flags b ehf,
        if pack_size (fixed b) >=? 0 then pack_size (fixed b) else 0).
Proof.
  intros Hok He Hlen. pose proof (file_body_bytes b ehf wide Hok He) as Hbytes.
  pose proof (fixed_ok _ Hok) as []. pose proof (head_flags_range b ehf He) as Hh.
  destruct (head_flags_spec b ehf) as [Hex Hda]. unfold is_u64, is_i64 in *.
  set (body := file_body b ehf wide) in *.
  assert (Hr : region body 0 (file_body b ehf wide) (zlen body)).
  { split_and!; try done; [lia|]. fold body. unfold view, zlen. rewrite Nat2Z.id, drop_all. by rewrite app_nil_r. }
  unfold file_body in Hr. cbv zeta in Hr. fold (pack_bytes (pack_size (fixed b)) wide) in Hr.
  unfold parse_block_fields.
  assert (Hty : 0 <= (if is_service (fixed b) then HEAD_SERVICE else HEAD_FILE) < 2 ^ 64)
    by (destruct (is_service (fixed b)); unfold HEAD_SERVICE, HEAD_FILE; lia).
  assert (Hze : 0 <= zlen (file_extra b) < 2 ^ 64).
  { pose proof (region_bounds _ _ _ Hr) as R. rewrite !zlen_app in R. zlen_pose. lia. }
  rg_vint Hr. rg_vint Hr.
  rewrite (region_vint_field_if _ _ _ _ _ _ 0 Hr) by done. res_simpl. apply region_step in Hr.
  rewrite Hda. pose proof (region_pack_size _ _ _ _ _ _ _ Hr) as Hps.
  unfold pack_size_field in Hps. unfold vint_field_if.
  destruct (Z.geb_spec (pack_size (fixed b)) 0); [|done].
  specialize (Hps ltac:(lia)). destruct (vint_field _ _ _) as [[v o]| | |]; try done.
  res_simpl. cbn in Hps. destruct (v >? INT64_MAX); [done|]. by injection Hps as ->.
Qed.

(** ** Properties *)

(** C6. Write, then read: a file or service block, serialized with any split
    or child flags and with either width of the packed-size field, placed
    anywhere in a byte buffer, is accepted by the raw reader with exactly the
    body written, its header type, flags and packed size, and the typed parser
    recovers the block: every field except what [reread] says the format
    normalises. *)
Theorem file_header_roundtrip (b : FileBlock) (extra_head_flags : Z) (wide : bool) (p rest : list Z) :
  Writable b -> 0 <= extra_head_flags ->
  bytes p -> bytes rest -> zlen p + zlen rest < 2 ^ 62 ->
  zlen (file_body b extra_head_flags wide) <= MAX_BODY_SIZE ->
  let block := serialize_file_block b extra_head_flags wide in
  let body := file_body b extra_head_flags wide in
  read_block_raw_mem (p ++ block ++ rest) (zlen p) =
    Ok (BlockOk (if is_service (fixed b) then HEAD_SERVICE else HEAD_FILE)
          (head_flags b extra_head_flags) body
          (if pack_size (fixed b) >=? 0 then pack_size (fixed b) else 0), zlen p + zlen block) /\
  parse_file_header body = Ok (reread b).
Proof.
  intros Hb He Hp Hr Hl Hm. cbv zeta. pose proof Hb as [Hok _ _ _ _].
  assert (Hm' : zlen (file_body b extra_head_flags wide) < 2 ^ 61) by (unfold MAX_BODY_SIZE in Hm; lia).
  split; [|by apply parse_file_header_body]. unfold serialize_file_block.
  apply read_wrapped; try done; [by apply file_body_bytes|].
  unfold finish_block. by rewrite parse_block_fields_file.
Qed.

(** A block with every kind of extra record. *)
Definition sample_block : FileBlock :=
  {| fixed := {| is_service := true; service_type := [0x43; 0x4D; 0x54]; file_flags := 4; unp_size := 70000;
       unp_unknown := false; pack_size := 300; attributes := 32; has_crc32 := true;
       data_crc32 := 0xDEADBEEF; utime_unix := 0; method := 3; win_size := 0x180000; is_solid := true;
       unp_ver := 1; extra_dist := false; host_os := 1; file_name := [0x43; 0x4D; 0x54] |};
     hash := {| has_blake2sp := true; blake2sp := replicate 32 7 |};
     htimes := {| htime_is_unix := true;
       mtime := {| st_win := 0; st_unix := 1700000000; st_ns := 5; st_has_ns := true |};
       ctime := Stamp_default; atime := Stamp_default |};
     owner := {| has_owner := true; owner_user := [0x72]; owner_group := []; owner_uid := 1000;
       owner_gid := 0; has_owner_uid := true; has_owner_gid := false |};
     version := {| has_file_version := true; file_version := 300 |};
     crypt := {| is_encrypted := true; crypt_version := 0; crypt_flags := 3; lg2_count := 15;
       salt := replicate 16 1; init_v := replicate 16 2; has_psw_check := true;
       psw_check := replicate 8 3; psw_check_csum := replicate 4 4 |};
     redir := {| redir_type := 1; redir_dir_target := true; redir_target := [0x61; 0x62] |};
     sub_data := [9; 8; 7];
     xattrs := [{| xa_name := [0x75; 0x2E; 0x61]; xa_value := [1; 2] |};
                {| xa_name := [0x75; 0x2E; 0x62]; xa_value := [] |}];
     unknown_extras := [{| ue_type := 0x55; ue_raw := [3; 0x55; 1; 2] |}] |}.

Ltac ok_const := unfold is_u64, is_u32, is_i64, is_byte; simpl; first [lia | bytes_const | (split; [reflexivity|bytes_const])].

Lemma sample_writable : Writable sample_block.
Proof.
  split.
  - split; cbn [sample_block fixed hash htimes owner version crypt redir sub_data xattrs unknown_extras].
    + split; ok_const.
    + ok_const.
    + split; split; ok_const.
    + split; ok_const.
    + ok_const.
    + split; ok_const.
    + split; ok_const.
    + bytes_const.
    + repeat constructor; ok_const.
    + repeat constructor; ok_const.
  - reflexivity.
  - intros _. vm_compute. reflexivity.
  - apply (bool_decide_unpack _). vm_compute. exact I.
  - constructor; [|constructor]. split.
    + ok_const.
    + exists [3], [1; 2]. repeat split; try reflexivity; [constructor; lia|vm_compute; discriminate].
    + cbn. intros H. repeat destruct H as [H|H]; discriminate || done.
Qed.

Lemma file_header_roundtrip_witness :
  reread sample_block = sample_block /\
  parse_file_header (file_body sample_block 0x20 true) = Ok sample_block.
Proof.
  assert (E : reread sample_block = sample_block) by (vm_compute; reflexivity).
  split; [exact E|].
  destruct (file_header_roundtrip sample_block 0x20 true [1; 2] [3]) as [_ H].
  - exact sample_writable.
  - lia.
  - bytes_const.
  - bytes_const.
  - vm_compute. reflexivity.
  - vm_compute. discriminate.
  - rewrite E in H. exact H.
Defined.

(** Dictionary windows: for the two algorithm versions and any window
    between 128 KiB and the version's limit, the window the reader decodes from
    the writer's compression word never exceeds the requested one and is the
    closest encodable below it (the next power of two is out of reach for
    version 0; less than one 1/32 step is lost for version 1); an encodable
    window comes back exactly, and so do version, method, solidity and the
    table flavour.  The only window lost is a stored file's 128 KiB default. *)
Theorem dictionary_window_roundtrip (f : FileFixed) :
  (unp_ver f = 0 /\ win_size f <= RAR_DICT_MAX_V0 \/ unp_ver f = 1 /\ win_size f <= RAR_DICT_MAX_V1) ->
  RAR_DICT_BASE <= win_size f -> 0 <= method f < 8 ->
  method f <> 0 \/ 2 * RAR_DICT_BASE <= win_size f ->
  let w := win_size (reread_fixed f) in
  RAR_DICT_BASE <= w <= win_size f /\
  (unp_ver f = 0 -> win_size f < 2 * w) /\
  (unp_ver f = 1 -> 32 * (win_size f - w) < w) /\
  (forall d k, 0 <= d -> 0 <= k < 32 -> (unp_ver f = 0 -> k = 0) ->
     win_size f = 2 ^ (17 + d) + k * 2 ^ (12 + d) -> w = win_size f) /\
  unp_ver (reread_fixed f) = unp_ver f /\ method (reread_fixed f) = method f /\
  is_solid (reread_fixed f) = is_solid f /\
  extra_dist (reread_fixed f) = (unp_ver f =? 1) && extra_dist f.
Proof.
  change RAR_DICT_MAX_V0 with (2 ^ 32). change RAR_DICT_MAX_V1 with (2 ^ 40). change RAR_DICT_BASE with (2 ^ 17).
  intros Hv Hw Hm Hst. cbv zeta. unfold reread_fixed; cbn [win_size unp_ver method is_solid extra_dist].
  rewrite (Z.mod_small (unp_ver f)), (Z.mod_small (method f)) by lia.
  destruct (dict_loop_spec (if unp_ver f =? 1 then 23%nat else 15%nat) (win_size f) 0 ltac:(lia) Hw)
    as (d & Ed & Hd & Hlow & Hhigh). change (2 ^ (17 + 0)) with 0x20000 in Ed.
  set (P := 2 ^ (17 + d)) in *.
  assert (HP : P = 32 * 2 ^ (12 + d)).
  { subst P. replace (17 + d) with (5 + (12 + d)) by lia. by rewrite (Z.pow_add_r 2 5) by lia. }
  assert (HP17 : 2 ^ 17 <= P) by (subst P; apply Z.pow_le_mono_r; lia).
  assert (Hmax : win_size f < 2 * P).
  { destruct Hhigh as [Hh1|Hh2]; [done|rewrite Hh2 in *]. subst P.
    destruct Hv as [[E Hle]|[E Hle]]; rewrite E in *; cbn in *; lia. }
  assert (Edp : dict_params (win_size f) (unp_ver f) =
    (d, if unp_ver f =? 1 then dict_fraction (win_size f) P else 0)).
  { unfold dict_params. rewrite Z.geb_leb, (proj2 (Z.leb_le _ _)) by lia. by rewrite Ed. }
  assert (Hd0 : method f = 0 -> d <> 0).
  { intros Em Ed0. subst P. rewrite Ed0 in Hmax. cbn in Hmax. lia. }
  pose proof (decode_comp_info f _ _ Edp) as Hdec. cbv zeta in Hdec.
  rewrite (Z.mod_small (unp_ver f)), (Z.mod_small (method f)) in Hdec by lia.
  assert (Ec : (unp_ver f >? 1) || ((method f =? 0) && (d =? 0)) = false).
  { rewrite Z.gtb_ltb, (proj2 (Z.ltb_ge _ _)) by lia.
    destruct (Z.eqb_spec (method f) 0), (Z.eqb_spec d 0); cbn; try done. tauto. }
  rewrite Ec in Hdec. fold P in Hdec.
  (* an encodable window determines its exponent *)
  assert (Huniq : forall d' k, 0 <= d' -> 0 <= k < 32 -> win_size f = 2 ^ (17 + d') + k * 2 ^ (12 + d') -> d' = d).
  { intros d' k Hd' Hk E. assert (Hq : 2 ^ (17 + d') = 32 * 2 ^ (12 + d')).
    { replace (17 + d') with (5 + (12 + d')) by lia. by rewrite (Z.pow_add_r 2 5) by lia. }
    assert (0 < 2 ^ (12 + d')) by (apply Z.pow_pos_nonneg; lia).
    destruct (Z.lt_trichotomy d' d) as [Hlt|[Heq|Hgt]]; [|done|]; exfalso.
    - assert (2 ^ (17 + (d' + 1)) <= P) by (subst P; apply Z.pow_le_mono_r; lia).
      rewrite Z.add_assoc, (Z.pow_add_r 2 (17 + d') 1) in * by lia. nia.
    - assert (2 * P <= 2 ^ (17 + d')); [|nia]. subst P.
      replace (2 * 2 ^ (17 + d)) with (2 ^ (17 + d + 1)) by (rewrite (Z.pow_add_r 2 (17 + d) 1) by lia; lia).
      apply Z.pow_le_mono_r; lia. }
  set (U := 2 ^ (12 + d)) in *. assert (HU : 0 < U) by (subst U; apply Z.pow_pos_nonneg; lia).
  destruct Hv as [[E Hle]|[E Hle]]; rewrite E in *; cbn [Z.eqb Pos.eqb andb] in *.
  - rewrite Hdec. split_and!; try done; try lia.
    intros d' k Hd' Hk Hk0 Ew. rewrite (Hk0 eq_refl), Z.mul_0_l, Z.add_0_r in Ew.
    pose proof (Huniq d' 0 Hd' ltac:(lia) ltac:(lia)) as Edd. rewrite Edd in Ew. by rewrite Ew.
  - destruct (dict_fraction_spec (win_size f) P) as [EF HF]; [lia|lia|lia|].
    assert (EF' : (win_size f - P) * 32 / P = (win_size f - P) / U).
    { rewrite HP. replace ((win_size f - 32 * U) * 32) with (32 * (win_size f - 32 * U)) by lia.
      apply Z.div_mul_cancel_l; lia. }
    rewrite EF, EF' in Hdec. rewrite EF' in HF.
    pose proof (Z.div_mod (win_size f - P) U ltac:(lia)) as HD.
    pose proof (Z.mod_pos_bound (win_size f - P) U HU) as HM.
    set (F := (win_size f - P) / U) in *.
    rewrite Z.gtb_ltb, (proj2 (Z.ltb_ge _ _)) in Hdec by lia. rewrite Hdec.
    split_and!; try done; try nia.
    + intros d' k Hd' Hk _ Ew. pose proof (Huniq d' k Hd' Hk Ew) as ->. fold P U in Ew.
      assert (win_size f - P = k * U) by lia. assert (F = k) by (subst F; rewrite H; apply Z.div_mul; lia).
      nia.
    + by destruct (extra_dist f).
Qed.

Lemma dictionary_window_roundtrip_witness :
  let f := fixed sample_block in
  win_size f = 2 ^ (17 + 3) + 16 * 2 ^ (12 + 3) /\ win_size (reread_fixed f) = win_size f.
Proof.
  cbv zeta. split; [vm_compute; reflexivity|].
  apply (dictionary_window_roundtrip (fixed sample_block)) with (d := 3) (k := 16);
    try (vm_compute; reflexivity); try lia; try (vm_compute; discriminate).
  - right. split; [reflexivity|vm_compute; discriminate].
  - vm_compute. split; [discriminate|reflexivity].
  - left. vm_compute. discriminate.
Defined.
