(* ===== verification/BlockRoundtrip.v ===== *)
(** Round trips of the main, encryption and end-of-archive headers, and the
    header the reader accepts but cannot read back after re-serialization.
    Continues [HeaderRoundtrip]. *)

From stdpp Require Import base tactics list numbers gmap.
From Stdlib Require Import ZArith Lia.
From S2P Require Import Prelude Bytes Vint Crc Source Headers HeaderReader HeaderWriter HeaderRoundtrip.

Local Open Scope Z_scope.

Abbreviation mparses := (parses main_record).

(** ** Main header *)

Lemma locator_vint_eq o : 0 <= o < 2 ^ 63 -> locator_vint o = vint_fixed 10 o.
Proof. intros Ho. unfold locator_vint. rewrite wrap_small, push_vint_fixed_eq by lia. done. Qed.

Lemma zlen_locator_vint o : 0 <= o < 2 ^ 63 -> zlen (locator_vint o) = 10.
Proof. intros Ho. rewrite locator_vint_eq by done. by rewrite zlen_vint_fixed. Qed.

(** A locator offset as the reader keeps it: 0 means absent. *)
Definition read_offset (o : Z) : Z := if o =? 0 then -1 else o.

Lemma region_locator_offset body off (c : bool) o l lim cur :
  (c = true -> 0 <= o < 2 ^ 63) -> region body off ((if c then locator_vint o else []) ++ l) lim ->
  locator_offset c body off lim cur =
    Ok (if c then read_offset o else cur, off + zlen (if c then locator_vint o else [])).
Proof.
  intros Ho Hr. unfold locator_offset. destruct c; [|change (zlen (@nil Z)) with 0; by rewrite Z.add_0_r].
  specialize (Ho eq_refl). rewrite locator_vint_eq in * by done. rewrite zlen_vint_fixed.
  pose proof (region_bounds _ _ _ Hr) as R. rewrite zlen_app, zlen_vint_fixed in R.
  pose proof (zlen_nonneg l). destruct Hr as (_ & _ & _ & _ & _ & V). rewrite <- app_assoc in V.
  unfold try_vint.
  rewrite (read_push_vint_fixed body off _ o 10 (l ++ view body lim));
    [|lia|lia|lia|rewrite size_sub_small; lia|done].
  res_simpl. rewrite size_add_small by lia. unfold read_offset, INT64_MAX.
  rewrite (proj2 (Z.leb_le _ _)), andb_true_r by lia. by destruct (o =? 0).
Qed.

Lemma parses_locator (hq hr : bool) qo rr :
  (hq = true -> 0 <= qo < 2 ^ 63) -> (hr = true -> 0 <= rr < 2 ^ 63) -> hq || hr = true ->
  mparses (vint (2 + (if hq then 10 else 0) + (if hr then 10 else 0)) ++ [MHEXTRA_LOCATOR] ++
           vint (Z.lor (bit hq 1) (bit hr 2)) ++
           (if hq then locator_vint qo else []) ++ (if hr then locator_vint rr else []))
    (fun b => set_locator (if hq then read_offset qo else locator_qo_offset b)
                          (if hr then read_offset rr else locator_rr_offset b) b).
Proof.
  intros Hq Hr Hany. set (fl := Z.lor (bit hq 1) (bit hr 2)).
  assert (Hfl : 0 <= fl < 4 /\ zlen (vint fl) = 1 /\ has_flag fl 1 = hq /\ has_flag fl 2 = hr).
  { subst fl. destruct hq, hr; vm_compute; repeat split; done || discriminate. }
  destruct Hfl as (Hfl & Lf & F1 & F2).
  assert (L1 : zlen (if hq then locator_vint qo else []) = if hq then 10 else 0)
    by (destruct hq; [apply zlen_locator_vint; auto|done]).
  assert (L2 : zlen (if hr then locator_vint rr else []) = if hr then 10 else 0)
    by (destruct hr; [apply zlen_locator_vint; auto|done]).
  set (content := vint fl ++ (if hq then locator_vint qo else []) ++ (if hr then locator_vint rr else [])).
  assert (Lc : zlen content = 1 + (if hq then 10 else 0) + (if hr then 10 else 0))
    by (subst content; rewrite !zlen_app, Lf, L1, L2; lia).
  assert (Hs : 0 <= (if hq then 10 else 0) + (if hr then 10 else 0) <= 20) by (destruct hq, hr; lia).
  apply (parses_record _ MHEXTRA_LOCATOR _ content).
  - unfold is_byte, MHEXTRA_LOCATOR. lia.
  - apply vint_is_vint. lia.
  - apply vint_length_u64. lia.
  - rewrite vint_val_vint by lia. lia.
  - intros body off old rest b Hreg Ho Hz _ _ _ _. exists Next. unfold main_record.
    cbn [Z.eqb Pos.eqb MHEXTRA_LOCATOR andb]. rewrite Z.geb_leb, (proj2 (Z.leb_le 2 _)) by lia.
    set (lim := off + zlen content) in *. clearbody lim. unfold locator_record.
    subst content. rg_vint Hreg. rewrite F1, F2.
    rewrite (region_locator_offset _ _ _ _ _ _ _ Hq Hreg). res_simpl. apply region_step in Hreg.
    rewrite <- (app_nil_r (if hr then _ else _)) in Hreg.
    rewrite (region_locator_offset _ _ _ _ _ _ _ Hr Hreg). done.
Qed.

Lemma metadata_flags_spec b :
  0 <= metadata_flags b < 16 /\
  has_flag (metadata_flags b) 0x01 = negb (zlen (metadata_name b) =? 0) /\
  has_flag (metadata_flags b) 0x02 = negb (metadata_ctime b =? 0) /\
  has_flag (metadata_flags b) 0x04 = metadata_is_unix_time b /\
  has_flag (metadata_flags b) 0x08 = metadata_is_nanoseconds b.
Proof.
  unfold metadata_flags.
  generalize (negb (zlen (metadata_name b) =? 0)) (negb (metadata_ctime b =? 0))
    (metadata_is_unix_time b) (metadata_is_nanoseconds b).
  intros [] [] [] []; (split; [vm_compute; split; [discriminate|reflexivity]|]); vm_compute; done.
Qed.

(** The time the reader recovers: Unix seconds are 32 bits wide. *)
Definition read_time (b : MainBlock) : Z :=
  if metadata_is_unix_time b && negb (metadata_is_nanoseconds b) then u32 (metadata_ctime b)
  else metadata_ctime b.

Definition read_metadata (b acc : MainBlock) : MainBlock :=
  set_metadata (if zlen (metadata_name b) =? 0 then metadata_name acc else until_nul (metadata_name b))
    (if metadata_ctime b =? 0 then metadata_ctime acc else read_time b)
    (metadata_is_unix_time b) (metadata_is_nanoseconds b) acc.

Lemma parses_metadata b :
  MainBlock_ok b -> zlen (metadata_name b) < 2 ^ 62 ->
  mparses (vint (1 + zlen (metadata_payload b)) ++ [MHEXTRA_METADATA] ++ metadata_payload b)
    (read_metadata b).
Proof.
  intros [_ _ _ _ Hn Ht] Hlen. destruct (metadata_flags_spec b) as (Hfl & F1 & F2 & F3 & F4).
  unfold is_u64 in Ht. pose proof (zlen_nonneg (metadata_name b)).
  pose proof (vint_length_u64 (metadata_flags b) ltac:(lia)) as L1.
  pose proof (vint_length_u64 (zlen (metadata_name b)) ltac:(lia)) as L2.
  set (tm := if metadata_is_unix_time b && negb (metadata_is_nanoseconds b)
             then push_le32 (u32 (metadata_ctime b)) else push_le64 (metadata_ctime b)).
  assert (Lt : zlen tm = 4 \/ zlen tm = 8) by (subst tm; destruct (_ && _); auto).
  assert (EP : metadata_payload b = vint (metadata_flags b) ++
     (if negb (zlen (metadata_name b) =? 0) then vint (zlen (metadata_name b)) ++ metadata_name b else []) ++
     (if negb (metadata_ctime b =? 0) then tm else []))
    by (unfold metadata_payload; cbv zeta; rewrite F1, F2; done).
  assert (LP : 1 <= zlen (metadata_payload b) < 2 ^ 63).
  { rewrite EP, !zlen_app. destruct (negb (zlen (metadata_name b) =? 0)), (negb (metadata_ctime b =? 0));
      rewrite ?zlen_app; change (zlen (@nil Z)) with 0; lia. }
  apply (parses_record _ MHEXTRA_METADATA _ (metadata_payload b)).
  - unfold is_byte, MHEXTRA_METADATA. lia.
  - apply vint_is_vint. lia.
  - apply vint_length_u64. lia.
  - rewrite vint_val_vint by lia. lia.
  - intros body off old rest acc Hreg Ho Hz _ _ _ _. exists Next.
    set (lim := off + zlen (metadata_payload b)) in *. rewrite EP in Hreg. unfold main_record.
    cbn [Z.eqb Pos.eqb MHEXTRA_METADATA MHEXTRA_LOCATOR andb]. unfold metadata_record. rg_vint Hreg.
    rewrite F1, F2, F3, F4.
    assert (EN : metadata_name_field (negb (zlen (metadata_name b) =? 0)) body
        (off + zlen (vint (metadata_flags b))) lim (metadata_name acc) =
      Ok (if zlen (metadata_name b) =? 0 then metadata_name acc else until_nul (metadata_name b),
          off + zlen (vint (metadata_flags b)) +
          zlen (if negb (zlen (metadata_name b) =? 0) then vint (zlen (metadata_name b)) ++ metadata_name b else []))).
    { unfold metadata_name_field. destruct (zlen (metadata_name b) =? 0); cbn [negb] in *.
      - change (zlen (@nil Z)) with 0. by rewrite Z.add_0_r.
      - rewrite <- app_assoc in Hreg. rg_vint Hreg.
        destruct (region_slice _ _ _ _ (zlen (metadata_name b)) Hreg eq_refl) as (E & Es & Hle).
        rewrite (proj2 (Z.leb_le _ _)) by done. rewrite E. res_simpl. rewrite Es, zlen_app.
        by rewrite Z.add_assoc. }
    rewrite EN. res_simpl. apply region_step in Hreg.
    set (o := off + _ + _) in *. pose proof (region_bounds _ _ _ Hreg) as R.
    unfold metadata_time_field, read_metadata, read_time.
    destruct (metadata_ctime b =? 0); cbn [negb] in *; [done|].
    rewrite <- (app_nil_r tm) in Hreg. subst tm.
    destruct (metadata_is_unix_time b), (metadata_is_nanoseconds b); cbn [andb negb] in *;
      first [ destruct (region_le64 _ _ _ _ Hreg Ht) as (E & Es & Hle)
            | destruct (region_le32 _ _ _ _ Hreg (u32_is_u32 (metadata_ctime b))) as (E & Es & Hle) ];
      rewrite Es, (proj2 (Z.leb_le _ _)), E by done; done.
Qed.

Definition has_qo (b : MainBlock) : bool := has_locator b && (locator_qo_offset b >=? 0).
Definition has_rr (b : MainBlock) : bool := has_locator b && (locator_rr_offset b >=? 0).

Definition upd_locator (b acc : MainBlock) : MainBlock :=
  if has_qo b || has_rr b then
    set_locator (if has_qo b then read_offset (locator_qo_offset b) else locator_qo_offset acc)
      (if has_rr b then read_offset (locator_rr_offset b) else locator_rr_offset acc) acc
  else acc.

Lemma locator_extra_eq b :
  locator_extra b = if has_qo b || has_rr b then
    vint (2 + (if has_qo b then 10 else 0) + (if has_rr b then 10 else 0)) ++ [MHEXTRA_LOCATOR] ++
    vint (Z.lor (bit (has_qo b) 1) (bit (has_rr b) 2)) ++
    (if has_qo b then locator_vint (locator_qo_offset b) else []) ++
    (if has_rr b then locator_vint (locator_rr_offset b) else []) else [].
Proof.
  unfold locator_extra, has_qo, has_rr. cbv zeta.
  destruct (has_locator b), (locator_qo_offset b >=? 0), (locator_rr_offset b >=? 0);
    cbn [andb orb bit app]; rewrite ?app_nil_r; done.
Qed.

Lemma parses_locator_extra b : MainBlock_ok b -> mparses (locator_extra b) (upd_locator b).
Proof.
  intros [_ _ Hq Hr _ _]. unfold is_i64 in *. rewrite locator_extra_eq. unfold upd_locator.
  destruct (has_qo b || has_rr b) eqn:E.
  - apply (parses_locator (has_qo b) (has_rr b)); [| |done].
    + intros [_ H%Z.geb_le]%andb_true_iff. lia.
    + intros [_ H%Z.geb_le]%andb_true_iff. lia.
  - apply (parses_id _ _ id); [apply parses_nil|done].
Qed.

Definition upd_metadata (b acc : MainBlock) : MainBlock :=
  if has_metadata b then read_metadata b acc else acc.

Lemma parses_metadata_extra b :
  MainBlock_ok b -> zlen (metadata_name b) < 2 ^ 62 -> mparses (metadata_extra b) (upd_metadata b).
Proof.
  intros Hb Hl. unfold metadata_extra, upd_metadata. destruct (has_metadata b).
  - by apply parses_metadata.
  - apply (parses_id _ _ id); [apply parses_nil|done].
Qed.

Definition main_extra (b : MainBlock) : list Z := locator_extra b ++ metadata_extra b.

Lemma main_extra_bytes b : MainBlock_ok b -> bytes (main_extra b).
Proof.
  intros [_ _ Hq Hr Hn Ht]. unfold main_extra. apply Forall_app_2.
  - rewrite locator_extra_eq. apply bytes_if. intros _.
    assert (L : forall c o, c = has_locator b && (o >=? 0) -> bytes (if c then locator_vint o else [])).
    { intros c o ->. apply bytes_if. intros _. apply push_fixed_bytes. apply wrap_range. lia. }
    repeat apply Forall_app_2.
    + apply vint_bytes. destruct (has_qo b), (has_rr b); lia.
    + apply single_byte. unfold is_byte, MHEXTRA_LOCATOR. lia.
    + apply vint_bytes. destruct (has_qo b), (has_rr b); vm_compute; discriminate.
    + by apply L.
    + by apply L.
  - unfold metadata_extra. apply bytes_if. intros _. pose proof (zlen_nonneg (metadata_payload b)).
    apply Forall_app_2; [apply vint_bytes; lia|].
    apply Forall_app_2; [apply single_byte; unfold is_byte, MHEXTRA_METADATA; lia|].
    destruct (metadata_flags_spec b) as (Hfl & _). unfold metadata_payload. cbv zeta.
    repeat apply Forall_app_2; [apply vint_bytes; lia| |].
    + apply bytes_if. intros _. apply Forall_app_2; [apply vint_bytes, zlen_nonneg|done].
    + apply bytes_if. intros _. destruct (_ && _); auto with orar.
Qed.

Lemma main_body_eq b :
  main_body b =
  vint HEAD_MAIN ++ vint (bit (negb (zlen (main_extra b) =? 0)) HFL_EXTRA) ++
  (if negb (zlen (main_extra b) =? 0) then vint (zlen (main_extra b)) else []) ++
  vint (arc_flags b) ++
  (if has_flag (arc_flags b) MHFL_VOLNUMBER then vint (vol_number b) else []) ++ main_extra b.
Proof.
  unfold main_body. fold (main_extra b). cbv zeta. by destruct (zlen (main_extra b) =? 0).
Qed.

Lemma main_body_bytes b : MainBlock_ok b -> bytes (main_body b).
Proof.
  intros Hb. pose proof (main_extra_bytes b Hb) as Hx. pose proof Hb as [Ha Hv _ _ _ _].
  rewrite main_body_eq. unfold is_u64 in *. set (ex := main_extra b) in *. clearbody ex.
  pose proof (zlen_nonneg ex). repeat apply Forall_app_2; try (apply bytes_if; intros _); try done;
    apply vint_bytes; try lia; [unfold HEAD_MAIN; lia|]. destruct (negb _); vm_compute; discriminate.
Qed.

(** The main block the reader reconstructs: a zero offset is absent, the name
    ends at its first NUL, and the volume number needs its flag. *)
Definition reread_main (b : MainBlock) : MainBlock :=
  upd_metadata b (upd_locator b
    {| arc_flags := arc_flags b;
       vol_number := if has_flag (arc_flags b) MHFL_VOLNUMBER then vol_number b else 0;
       has_locator := false; locator_qo_offset := -1; locator_rr_offset := -1;
       has_metadata := false; metadata_name := []; metadata_ctime := 0;
       metadata_is_unix_time := false; metadata_is_nanoseconds := false |}).

Lemma region_whole body : bytes body -> zlen body < 2 ^ 63 -> region body 0 body (zlen body).
Proof.
  intros Hb Hl. split_and!; try done. rewrite view_0. unfold view, zlen.
  by rewrite Nat2Z.id, drop_all, app_nil_r.
Qed.

Lemma region_end body off l : region body off l (zlen body) -> view body off = l /\ zlen body = off + zlen l.
Proof.
  intros (_ & _ & _ & E & _ & V). split; [|done]. rewrite V. unfold view, zlen.
  by rewrite Nat2Z.id, drop_all, app_nil_r.
Qed.

Lemma main_extra_len b : MainBlock_ok b -> zlen (metadata_name b) <= zlen (main_extra b) \/ has_metadata b = false.
Proof.
  intros _. unfold main_extra, metadata_extra. destruct (has_metadata b); [left|by right].
  destruct (metadata_flags_spec b) as (_ & F1 & _). unfold metadata_payload. cbv zeta. rewrite F1.
  rewrite !zlen_app. zlen_pose. destruct (Z.eqb_spec (zlen (metadata_name b)) 0) as [E|]; cbn [negb].
  - rewrite E. zlen_pose. lia.
  - rewrite zlen_app. zlen_pose. lia.
Qed.

Lemma parse_main_header_body b :
  MainBlock_ok b -> zlen (main_body b) < 2 ^ 62 ->
  parse_main_header (main_body b) = Ok (reread_main b) /\
  parse_block_fields (main_body b) =
    Ok (HEAD_MAIN, bit (negb (zlen (main_extra b) =? 0)) HFL_EXTRA, 0).
Proof.
  intros Hb Hlen. pose proof (main_body_bytes b Hb) as Hbytes.
  pose proof (region_whole _ Hbytes ltac:(lia)) as Hr. set (body := main_body b) in *.
  assert (Ebody : body = main_body b) by done. rewrite main_body_eq in Ebody.
  rewrite Ebody in Hr at 2. clear Ebody. pose proof Hb as [Ha Hv _ _ _ _]. unfold is_u64 in *.
  assert (Hze : 0 <= zlen (main_extra b) < 2 ^ 62).
  { pose proof (region_bounds _ _ _ Hr) as R. rewrite !zlen_app in R. zlen_pose. lia. }
  set (c := negb (zlen (main_extra b) =? 0)) in *.
  assert (Hfl : 0 <= bit c HFL_EXTRA < 2 ^ 64 /\ has_flag (bit c HFL_EXTRA) HFL_EXTRA = c /\
    has_flag (bit c HFL_EXTRA) HFL_DATA = false)
    by (destruct c; vm_compute; repeat split; done || discriminate).
  destruct Hfl as (Hfl & F1 & F2). unfold parse_main_header, parse_block_fields.
  assert (HM : 0 <= HEAD_MAIN < 2 ^ 64) by (unfold HEAD_MAIN; lia).
  rg_vint Hr. cbn [require Z.eqb Pos.eqb HEAD_MAIN]. rg_vint Hr. rewrite F1, F2.
  rewrite (region_vint_field_if _ _ _ _ _ _ 0 Hr) by lia. res_simpl. apply region_step in Hr.
  split; [|done]. rg_vint Hr.
  rewrite (region_vint_field_if _ _ _ _ _ _ 0 Hr) by done. res_simpl. apply region_step in Hr.
  apply region_end in Hr as HE. destruct HE as [HV HL].
  assert (Hn : zlen (metadata_name b) < 2 ^ 62 \/ has_metadata b = false)
    by (destruct (main_extra_len b Hb); [left; lia|by right]).
  assert (Hp : mparses (main_extra b) (fun acc => upd_metadata b (upd_locator b acc))).
  { apply parses_app; [by apply parses_locator_extra|]. destruct Hn as [Hn|Hn].
    - by apply parses_metadata_extra.
    - unfold metadata_extra, upd_metadata. rewrite Hn. apply (parses_id _ _ id); [apply parses_nil|done]. }
  assert (Es : (if c then zlen (main_extra b) else 0) =
    if has_flag (bit c HFL_EXTRA) HFL_EXTRA then zlen (main_extra b) else 0) by (by rewrite F1).
  rewrite Es. apply (parses_extra_area _ _ _ _ _ _ _ Hp); try done; try lia.
  - apply region_bounds in Hr. lia.
Qed.

(** ** Encryption and end headers *)

Definition reread_crypt (b : CryptBlock) : CryptBlock :=
  {| cb_version := cb_version b; cb_enc_flags := if cb_has_psw_check b then 1 else 0;
     cb_lg2_count := cb_lg2_count b; cb_salt := cb_salt b;
     cb_has_psw_check := cb_has_psw_check b;
     cb_psw_check := if cb_has_psw_check b then cb_psw_check b else zeros 8;
     cb_psw_check_csum := if cb_has_psw_check b then cb_psw_check_csum b else zeros 4 |}.

Lemma crypt_body_bytes b : CryptBlock_ok b -> bytes (crypt_block_body b).
Proof.
  intros [Hv _ Hl [_ Hs] [_ Hp] [_ Hc]]. unfold is_u32 in *. unfold crypt_block_body.
  repeat apply Forall_app_2; auto with orar; try (apply vint_bytes; unfold HEAD_CRYPT; try lia).
  - destruct (cb_has_psw_check b); lia.
  - apply bytes_if. intros _. by apply Forall_app_2.
Qed.

Lemma zlen_crypt_body b : CryptBlock_ok b -> zlen (crypt_block_body b) <= 64.
Proof.
  intros [Hv _ _ [Hs _] [Hp _] [Hc _]]. unfold is_u32 in *.
  pose proof (vint_length_u64 (cb_version b) ltac:(lia)). unfold crypt_block_body.
  destruct (cb_has_psw_check b); rewrite !zlen_app, Hs; try rewrite zlen_app, Hp, Hc;
    change (zlen (vint HEAD_CRYPT)) with 1; change (zlen (vint 0)) with 1;
    change (zlen (vint 1)) with 1; change (zlen [cb_lg2_count b]) with 1; change (zlen (@nil Z)) with 0; lia.
Qed.

Lemma parse_crypt_header_body b :
  CryptBlock_ok b ->
  parse_crypt_header (crypt_block_body b) = Ok (reread_crypt b) /\
  parse_block_fields (crypt_block_body b) = Ok (HEAD_CRYPT, 0, 0).
Proof.
  intros Hb. pose proof (crypt_body_bytes b Hb) as Hbytes. pose proof (zlen_crypt_body b Hb) as Hlen.
  pose proof Hb as [Hv _ Hl [Hs _] [Hp _] [Hc _]]. unfold is_u32 in Hv.
  pose proof (region_whole _ Hbytes ltac:(lia)) as Hr. unfold parse_crypt_header, parse_block_fields.
  set (body := crypt_block_body b) in *.
  assert (Ebody : body = crypt_block_body b) by done. rewrite Ebody in Hr at 2. clear Ebody.
  unfold crypt_block_body in Hr.
  assert (HM : 0 <= HEAD_CRYPT < 2 ^ 64) by (unfold HEAD_CRYPT; lia).
  set (fl := if cb_has_psw_check b then 1 else 0) in *.
  assert (Hfl : 0 <= fl < 2 ^ 32) by (subst fl; destruct (cb_has_psw_check b); lia).
  rg_vint Hr. cbn [require Z.eqb Pos.eqb HEAD_CRYPT]. rg_vint Hr. split; [|done].
  rg_vint Hr. rg_vint Hr.
  match goal with |- context [?x >=? zlen body] => set (o := x) in * end.
  pose proof (region_bounds _ _ _ Hr) as R. rewrite !zlen_app, Hs in R.
  change (zlen [cb_lg2_count b]) with 1 in R. zlen_pose.
  rewrite Z.geb_leb, (proj2 (Z.leb_gt _ _)) by lia.
  destruct (region_byte _ _ _ _ Hr) as [-> ->]. res_simpl. apply region_step in Hr.
  change (zlen [cb_lg2_count b]) with 1 in Hr.
  destruct (region_slice _ _ _ _ 16 Hr (eq_sym Hs)) as (-> & -> & _). res_simpl. apply region_step in Hr.
  rewrite Hs in Hr.
  rewrite Z.gtb_ltb, (proj2 (Z.ltb_ge _ _)) by lia. unfold reread_crypt. fold fl.
  rewrite !(wrap_small 32) by lia.
  assert (Hck : has_flag fl 1 = cb_has_psw_check b) by (subst fl; by destruct (cb_has_psw_check b)).
  rewrite Hck. destruct (cb_has_psw_check b); [|done]. rewrite !zlen_app, Hp, Hc in R.
  rewrite size_add_small, Z.gtb_ltb, (proj2 (Z.ltb_ge _ _)) by lia. cbn [andb].
  destruct (region_slice _ _ _ _ 8 Hr (eq_sym Hp)) as (-> & -> & _). res_simpl. apply region_step in Hr.
  rewrite Hp in Hr. by destruct (region_slice_all _ _ _ 4 Hr (eq_sym Hc)) as (-> & _ & _).
Qed.

Lemma end_body_bytes b : is_u64 (end_flags b) -> bytes (end_body b).
Proof.
  intros H. unfold is_u64 in H. unfold end_body, HEAD_ENDARC. repeat apply Forall_app_2; apply vint_bytes; lia.
Qed.

Lemma zlen_end_body b : is_u64 (end_flags b) -> zlen (end_body b) <= 12.
Proof.
  intros H. unfold is_u64 in H. pose proof (vint_length_u64 (end_flags b) H). unfold end_body.
  rewrite !zlen_app. change (zlen (vint HEAD_ENDARC)) with 1. change (zlen (vint 0)) with 1. lia.
Qed.

Lemma parse_end_header_body b :
  is_u64 (end_flags b) ->
  parse_end_header (end_body b) = Ok b /\ parse_block_fields (end_body b) = Ok (HEAD_ENDARC, 0, 0).
Proof.
  intros Hb. pose proof (end_body_bytes b Hb) as Hbytes. pose proof (zlen_end_body b Hb) as Hlen.
  unfold is_u64 in Hb.
  pose proof (region_whole _ Hbytes ltac:(lia)) as Hr. unfold parse_end_header, parse_block_fields.
  set (body := end_body b) in *.
  assert (Ebody : body = end_body b) by done. rewrite Ebody in Hr at 2. clear Ebody. unfold end_body in Hr.
  assert (HM : 0 <= HEAD_ENDARC < 2 ^ 64) by (unfold HEAD_ENDARC; lia).
  rg_vint Hr. cbn [require Z.eqb Pos.eqb HEAD_ENDARC]. rg_vint Hr. split; [|done].
  pose proof (region_bounds _ _ _ Hr) as R. pose proof (vint_length_u64 (end_flags b) Hb).
  rewrite (proj2 (Z.ltb_lt _ _)) by lia.
  destruct (region_vint_last _ _ _ Hr Hb) as (-> & _ & _). res_simpl. by destruct b.
Qed.

(** ** Properties *)

(** C27. Main, encryption and end-of-archive blocks, written by [wrap_block]
    and placed anywhere in a buffer, are read back: the raw reader returns the
    body written and its type, and the typed parser recovers the block (an end
    block exactly; of a main block, a locator offset 0 and a volume number
    without its flag are absent and the comment name ends at a NUL; of an
    encryption block, the flag word is the presence of the check). *)
Theorem archive_header_roundtrip (m : MainBlock) (c : CryptBlock) (e : EndArcBlock) (p rest : list Z) :
  MainBlock_ok m -> zlen (main_body m) <= MAX_BODY_SIZE -> CryptBlock_ok c -> is_u64 (end_flags e) ->
  bytes p -> bytes rest -> zlen p + zlen rest < 2 ^ 62 ->
  let stored ty fl body :=
    read_block_raw_mem (p ++ wrap_block body ++ rest) (zlen p) =
      Ok (BlockOk ty fl body 0, zlen p + zlen (wrap_block body)) in
  (stored HEAD_MAIN (bit (negb (zlen (main_extra m) =? 0)) HFL_EXTRA) (main_body m) /\
   parse_main_header (main_body m) = Ok (reread_main m)) /\
  (stored HEAD_CRYPT 0 (crypt_block_body c) /\
   parse_crypt_header (crypt_block_body c) = Ok (reread_crypt c)) /\
  (stored HEAD_ENDARC 0 (end_body e) /\ parse_end_header (end_body e) = Ok e).
Proof.
  intros Hm Hlen Hc He Hp Hr Hl. cbv zeta.
  assert (Hlen' : zlen (main_body m) < 2 ^ 62) by (unfold MAX_BODY_SIZE in Hlen; lia).
  destruct (parse_main_header_body m Hm Hlen') as [M1 M2].
  destruct (parse_crypt_header_body c Hc) as [C1 C2]. destruct (parse_end_header_body e He) as [E1 E2].
  pose proof (zlen_crypt_body c Hc). pose proof (zlen_end_body e He).
  split_and!; try done; apply read_wrapped; try done;
    try (unfold MAX_BODY_SIZE; lia); try (unfold finish_block; by rewrite ?M2, ?C2, ?E2).
  - by apply main_body_bytes.
  - by apply crypt_body_bytes.
  - by apply end_body_bytes.
Qed.

Definition sample_main : MainBlock :=
  {| arc_flags := 6; vol_number := 2; has_locator := true; locator_qo_offset := 81;
     locator_rr_offset := -1; has_metadata := true; metadata_name := [0x61; 0x2E; 0x72];
     metadata_ctime := 1700000000; metadata_is_unix_time := true; metadata_is_nanoseconds := false |}.

Lemma archive_header_roundtrip_witness :
  parse_main_header (main_body sample_main) = Ok sample_main.
Proof.
  assert (E : reread_main sample_main = sample_main) by (vm_compute; reflexivity).
  rewrite <- E at 2.
  apply (archive_header_roundtrip sample_main CryptBlock_default {| end_flags := 1 |} [1] [2]).
  - split; ok_const.
  - vm_compute. discriminate.
  - exact CryptBlock_default_ok.
  - ok_const.
  - bytes_const.
  - bytes_const.
  - vm_compute. reflexivity.
Defined.

(** ** A password check of zeros *)

(** A record without the check its flag word announces is twelve bytes short. *)
Lemma crypt_record_short c body off acc :
  FileCrypt_ok c -> has_flag (crypt_flags c) 0x01 = true -> has_psw_check c = false ->
  region body off (crypt_content c) (off + zlen (crypt_content c)) ->
  crypt_record body off (off + zlen (crypt_content c)) acc = Fail.
Proof.
  intros Hok Hf Hn Hr. pose proof (zlen_crypt_tail c Hok) as Ht. pose proof Hok as [Hv Hfl _ _ _ _ _].
  unfold is_u32 in Hv, Hfl. set (lim := off + zlen (crypt_content c)) in *. unfold crypt_content in Hr.
  rewrite Hn in Hr, Ht. unfold crypt_record, crypt_vint.
  pose proof (region_bounds _ _ _ Hr) as R. rewrite (zlen_app (vint _)), (zlen_app (vint _)), Ht in R.
  pose proof (zlen_nonneg (vint (crypt_version c))). pose proof (zlen_nonneg (vint (crypt_flags c))).
  rewrite Z.geb_leb, (proj2 (Z.leb_gt _ _)) by lia. rg_vint Hr.
  rewrite Z.geb_leb, (proj2 (Z.leb_gt _ _)) by lia. rg_vint Hr.
  rewrite Hf, size_sub_small by lia. by rewrite (proj2 (Z.ltb_lt _ _)) by lia.
Qed.

(** The record comes first in the extra area, so the whole header fails. *)
Lemma parse_unchecked_body b ehf wide :
  FileBlock_ok b -> is_encrypted (crypt b) = true -> has_flag (crypt_flags (crypt b)) 0x01 = true ->
  has_psw_check (crypt b) = false -> 0 <= ehf -> zlen (file_body b ehf wide) < 2 ^ 61 ->
  parse_file_header (file_body b ehf wide) = Fail.
Proof.
  intros Hok He Hf Hn Hehf Hlen. pose proof (file_body_bytes b ehf wide Hok Hehf) as Hbytes.
  destruct (parse_file_fixed_body b ehf wide Hok Hehf ltac:(lia)) as (off & E & Hv & Ho & HL).
  set (body := file_body b ehf wide) in *. unfold parse_file_header. rewrite E. res_simpl.
  set (c := crypt b) in *. set (content := crypt_content c).
  set (rest := redir_extra b ++ hash_extra b ++ htime_extra b ++ version_extra b ++ owner_extra b ++ subdata_extra b ++
               xattr_extra b ++ unknown_extra b).
  assert (Ex : file_extra b = (vint (zlen content + 1) ++ [FHEXTRA_CRYPT] ++ content) ++ rest).
  { unfold file_extra, crypt_extra. fold c. rewrite He. unfold extra_record. by rewrite <- !app_assoc. }
  pose proof (zlen_nonneg content) as Hc. pose proof (zlen_nonneg rest).
  pose proof (vint_is_vint (zlen content + 1) ltac:(lia)) as Hvi. pose proof (is_vint_nonempty _ Hvi) as Hvi1.
  assert (Hx : zlen (file_extra b) = zlen (vint (zlen content + 1)) + 1 + zlen content + zlen rest) by (rewrite Ex; zlen_lia).
  unfold extra_area. rewrite (proj1 (head_flags_spec b ehf)), (proj2 (Z.eqb_neq _ 0)) by lia. cbn [negb andb].
  rewrite !Z.gtb_ltb, (proj2 (Z.ltb_lt _ _)) by lia.
  rewrite !(proj2 (Z.ltb_ge _ _)) by (rewrite ?size_sub_small; lia). cbn [orb].
  rewrite size_sub_small by lia. replace (zlen body - zlen (file_extra b)) with off by lia.
  assert (Hend : view body (zlen body) = []) by (unfold view, zlen; rewrite Nat2Z.id; apply drop_all).
  assert (Hr : region body off ((vint (zlen content + 1) ++ [FHEXTRA_CRYPT] ++ content) ++ rest) (zlen body)).
  { rewrite <- Ex. split_and!; try done; try lia. by rewrite Hv, Hend, app_nil_r. }
  rewrite (extra_loop_head file_record (length body) FHEXTRA_CRYPT (vint (zlen content + 1)) content body off rest);
    [|unfold is_byte, FHEXTRA_CRYPT; lia|done|apply vint_length_u64; lia|apply vint_val_vint; lia|done].
  rewrite <- !app_assoc in Hr. apply region_step in Hr. apply region_step in Hr. change (zlen [FHEXTRA_CRYPT]) with 1 in Hr.
  apply region_prefix in Hr. set (start := off + zlen (vint (zlen content + 1)) + 1) in *.
  change (file_record body start (start + zlen content) (zlen body) off FHEXTRA_CRYPT (zlen content + 1) ?acc)
    with (b ← crypt_record body start (start + zlen content) acc; mret (Next, b, start + zlen content)).
  unfold content in *. by rewrite (crypt_record_short c body start _ (crypt_ok _ Hok) Hf Hn Hr).
Qed.

Lemma emitted_idem l : emitted_xattrs (emitted_xattrs l) = emitted_xattrs l.
Proof.
  unfold emitted_xattrs. induction l as [|x l IH]; [done|]. cbn [List.filter].
  destruct (xattr_emitted x) eqn:E; [|done]. cbn [List.filter]. by rewrite E, IH.
Qed.

(** A header read with its check is written again without loss. *)
Lemma writable_reread b ehf wide :
  Writable b -> 0 <= ehf -> zlen (file_body b ehf wide) < 2 ^ 61 ->
  (has_psw_check (crypt b) = true -> all_zero (psw_check (crypt b)) = false) -> Writable (reread b).
Proof.
  intros Hw Hehf Hlen Hz. pose proof Hw as [Hok Hcons Hredir Hx Hu]. split.
  - pose proof (wp_parse_file_header _ (file_body_bytes b ehf wide Hok Hehf) ltac:(lia)) as P.
    by rewrite (parse_file_header_body b ehf wide Hw Hehf Hlen) in P.
  - unfold crypt_consistent, reread. cbn [crypt]. destruct (is_encrypted (crypt b)) eqn:Ee; [|done].
    intros _. cbn [crypt_flags has_psw_check]. rewrite (Hcons eq_refl). destruct (has_psw_check (crypt b)); [|done].
    by rewrite (Hz eq_refl).
  - unfold reread. cbn [redir]. destruct (redir_type (redir b) =? 0); [done|exact Hredir].
  - unfold reread. cbn [xattrs]. by rewrite emitted_idem.
  - exact Hu.
Qed.

(** What an archive mutation does to a header it keeps: it parses the body and
    writes the block again. *)
Definition rewritten (body : list Z) (extra_head_flags : Z) (wide : bool) : res (list Z) :=
  b ← parse_file_header body; mret (file_body b extra_head_flags wide).

(** C31. Reading an encrypted header and writing it again, as archive
    mutations do, keeps it readable exactly when its password check is not all
    zero.  A check of eight zero bytes is accepted and marked absent, while the
    flag word still announces it; the writer then omits the twelve check bytes,
    and the result no longer parses. *)
Theorem zero_password_check_not_rewritable (b : FileBlock) (extra_head_flags : Z) (wide wide' : bool) :
  Writable b -> is_encrypted (crypt b) = true -> has_psw_check (crypt b) = true -> 0 <= extra_head_flags ->
  zlen (file_body b extra_head_flags wide) < 2 ^ 61 ->
  exists b' body', parse_file_header (file_body b extra_head_flags wide) = Ok b' /\
    rewritten (file_body b extra_head_flags wide) extra_head_flags wide' = Ok body' /\
    (zlen body' < 2 ^ 61 ->
      (all_zero (psw_check (crypt b)) = true ->
         has_psw_check (crypt b') = false /\ has_flag (crypt_flags (crypt b')) 0x01 = true /\ parse_file_header body' = Fail) /\
      (all_zero (psw_check (crypt b)) = false ->
         exists b'', parse_file_header body' = Ok b'' /\ crypt b'' = crypt b')).
Proof.
  intros Hw He Hp Hehf Hlen. pose proof Hw as [Hok Hcons _ _ _]. specialize (Hcons He). unfold crypt_consistent in Hcons. rewrite Hp in Hcons.
  pose proof (parse_file_header_body b extra_head_flags wide Hw Hehf Hlen) as E.
  exists (reread b), (file_body (reread b) extra_head_flags wide'). split; [exact E|].
  split; [unfold rewritten; by rewrite E|].
  assert (Ec : crypt (reread b) = {| is_encrypted := true; crypt_version := crypt_version (crypt b); crypt_flags := crypt_flags (crypt b);
      lg2_count := lg2_count (crypt b); salt := salt (crypt b); init_v := init_v (crypt b);
      has_psw_check := negb (all_zero (psw_check (crypt b)));
      psw_check := psw_check (crypt b); psw_check_csum := psw_check_csum (crypt b) |})
    by (unfold reread; cbn [crypt]; by rewrite He, Hp).
  intros Hlen'. split; intros Hz; rewrite Hz in Ec.
  - pose proof (wp_parse_file_header _ (file_body_bytes b extra_head_flags wide Hok Hehf) ltac:(lia)) as P. rewrite E in P.
    rewrite Ec. do 2 (split; [done|]). apply parse_unchecked_body; [exact P|by rewrite Ec..|done|done].
  - assert (Hw' : Writable (reread b)) by (by apply (writable_reread b extra_head_flags wide)).
    exists (reread (reread b)). split; [by apply parse_file_header_body|].
    unfold reread at 1. cbn [crypt]. rewrite Ec.
    cbn [is_encrypted crypt_version crypt_flags lg2_count salt init_v has_psw_check psw_check psw_check_csum]. by rewrite Hz.
Qed.

(** Two encrypted headers, with a check of zeros and of sevens. *)
Definition check_block (check : Z) : FileBlock :=
  set_crypt {| is_encrypted := true; crypt_version := 0; crypt_flags := 1; lg2_count := 15;
    salt := replicate 16 1; init_v := replicate 16 2; has_psw_check := true;
    psw_check := replicate 8 check; psw_check_csum := zeros 4 |} sample_block.

Lemma zero_password_check_not_rewritable_witness :
  (exists body, rewritten (file_body (check_block 0) 0 false) 0 true = Ok body /\ parse_file_header body = Fail) /\
  (exists body b, rewritten (file_body (check_block 7) 0 false) 0 true = Ok body /\ parse_file_header body = Ok b /\
     psw_check (crypt b) = replicate 8 7).
Proof.
  assert (Hw : forall c, 0 <= c < 256 -> Writable (check_block c)).
  { intros c Hc. pose proof sample_writable as [[Hfx Hha Hht How Hve _ Hre Hsu Hxa Hun] _ H3 H4 H5].
    split; [split; [exact Hfx|exact Hha|exact Hht|exact How|exact Hve| |exact Hre|exact Hsu|exact Hxa|exact Hun]|reflexivity|exact H3|exact H4|exact H5].
    split; try ok_const. split; [reflexivity|]. repeat constructor; lia. }
  split.
  - destruct (zero_password_check_not_rewritable (check_block 0) 0 false true) as (b & body & E & R & H).
    + apply Hw. lia.
    + reflexivity.
    + reflexivity.
    + lia.
    + vm_compute. reflexivity.
    + exists body. split; [exact R|].
      assert (Hl : zlen body < 2 ^ 61) by (vm_compute in R; injection R as <-; vm_compute; reflexivity).
      exact (proj2 (proj2 (proj1 (H Hl) eq_refl))).
  - destruct (zero_password_check_not_rewritable (check_block 7) 0 false true) as (b & body & E & R & H).
    + apply Hw. lia.
    + reflexivity.
    + reflexivity.
    + lia.
    + vm_compute. reflexivity.
    + assert (Hl : zlen body < 2 ^ 61) by (vm_compute in R; injection R as <-; vm_compute; reflexivity).
      destruct (proj2 (H Hl) eq_refl) as (b'' & E2 & E3). exists body, b''. split; [exact R|]. split; [exact E2|].
      rewrite E3. vm_compute in E. injection E as <-. reflexivity.
Defined.
