(* ===== verification/SandboxIpc.v ===== *)
(** The broker/worker frame protocol: [src/sandbox/ipc.hpp], [ipc.cpp].

    A frame is [u32le payload_len | u8 type | payload].  [FrameReader] decodes
    a byte stream that arrives in arbitrary chunks; a bad type or an over-long
    length poisons it for good.  [feed1] is the byte-at-a-time reference the
    chunked [feed] is shown equal to.  Hosts are little-endian, as the source
    requires. *)

From stdpp Require Import base tactics list numbers.
From Stdlib Require Import ZArith Lia.
From S2P Require Import Prelude Bytes.

Local Open Scope Z_scope.

(** [enum class FrameType : uint8]: the registered values. *)
Definition FT_Ping : Z := 1.
Definition FT_SelftestResult : Z := 13.

Definition type_registered (t : Z) : bool := (t >=? FT_Ping) && (t <=? FT_SelftestResult).

Definition MAX_FRAME_PAYLOAD : Z := 4 * 1024 * 1024.
Definition FRAME_HEADER_SIZE : Z := 5.

Record Frame := { fr_type : Z; fr_payload : list Z }.

Definition frame_wire_size (f : Frame) : Z := FRAME_HEADER_SIZE + zlen (fr_payload f).

(** [None]: nothing is written. *)
Definition encode_frame (f : Frame) (out : list Z) : option (list Z) :=
  let t := fr_type f in
  if negb (type_registered t) then None
  else if zlen (fr_payload f) >? MAX_FRAME_PAYLOAD then None
  else
    let len := u32 (zlen (fr_payload f)) in
    Some (out ++ (le32_bytes len ++ [t]) ++ fr_payload f).

Inductive FeedResult := FeedOk | FeedIncomplete | FeedPoisoned.

Record FrameReader := {
  pending : list Z;
  poisoned : bool;
  header_done : bool;
  frame_len : Z;
  frame_type : Z
}.

Definition FrameReader_init : FrameReader :=
  {| pending := []; poisoned := false; header_done := false; frame_len := 0; frame_type := FT_Ping |}.

Definition buffered (r : FrameReader) : Z := zlen (pending r).

Definition set_pending (p : list Z) (r : FrameReader) : FrameReader :=
  {| pending := p; poisoned := poisoned r; header_done := header_done r;
     frame_len := frame_len r; frame_type := frame_type r |}.

Definition poison (r : FrameReader) : FrameReader :=
  {| pending := []; poisoned := true; header_done := header_done r;
     frame_len := frame_len r; frame_type := frame_type r |}.

Definition start_payload (len t : Z) (r : FrameReader) : FrameReader :=
  {| pending := []; poisoned := poisoned r; header_done := true; frame_len := len; frame_type := t |}.

Definition end_frame (r : FrameReader) : FrameReader :=
  {| pending := []; poisoned := poisoned r; header_done := false;
     frame_len := frame_len r; frame_type := frame_type r |}.

(** [take = min(len - pos, need)] bytes move from the input to [pending_]. *)
Definition refill (need : Z) (rest : list Z) (r : FrameReader) : FrameReader * list Z :=
  let take_ := if zlen rest <? need then zlen rest else need in
  (set_pending (pending r ++ take (Z.to_nat take_) rest) r, drop (Z.to_nat take_) rest).

(** One pass over the [while (true)] body; [rest] is [data + pos .. data + len]. *)
Inductive step_result :=
| Return (res : FeedResult)
| Again.

Definition payload_step (r : FrameReader) (rest : list Z) (out : list Frame)
  : step_result * FrameReader * list Z * list Frame :=
  let need := frame_len r -s zlen (pending r) in
  let '(r, rest) := refill need rest r in
  if zlen (pending r) <? frame_len r then
    (Return (if zlen rest =? 0 then FeedIncomplete else FeedOk), r, rest, out)
  else
    let out := out ++ [{| fr_type := frame_type r; fr_payload := pending r |}] in
    let r := end_frame r in
    (if zlen rest =? 0 then Return FeedOk else Again, r, rest, out).

Definition feed_step (r : FrameReader) (rest : list Z) (out : list Frame)
  : step_result * FrameReader * list Z * list Frame :=
  if negb (header_done r) then
    let need := FRAME_HEADER_SIZE -s zlen (pending r) in
    let '(r, rest) := refill need rest r in
    if zlen (pending r) <? FRAME_HEADER_SIZE then
      (Return (if zlen rest =? 0 then FeedIncomplete else FeedOk), r, rest, out)
    else
      let len32 := le_val (take 4 (pending r)) in
      let t := nth 4 (pending r) 0 in
      if negb (type_registered t) then (Return FeedPoisoned, poison r, rest, out)
      else if len32 >? MAX_FRAME_PAYLOAD then (Return FeedPoisoned, poison r, rest, out)
      else
        let r := start_payload len32 t r in
        if len32 =? 0 then
          let out := out ++ [{| fr_type := t; fr_payload := [] |}] in
          (if zlen rest =? 0 then Return FeedOk else Again, end_frame r, rest, out)
        else payload_step r rest out
  else payload_step r rest out.

Fixpoint feed_loop (fuel : nat) (r : FrameReader) (rest : list Z) (out : list Frame)
  : res (FeedResult * FrameReader * list Frame) :=
  match fuel with
  | O => Fuel
  | S fuel' =>
      match feed_step r rest out with
      | (Return q, r, _, out) => Ok (q, r, out)
      | (Again, r, rest, out) => feed_loop fuel' r rest out
      end
  end.

Definition feed (r : FrameReader) (data : list Z) (out : list Frame)
  : res (FeedResult * FrameReader * list Frame) :=
  if poisoned r then Ok (FeedPoisoned, r, out)
  else feed_loop (S (length data)) r data out.

(** Successive [feed] calls, one per chunk. *)
Fixpoint feed_all (r : FrameReader) (chunks : list (list Z)) (out : list Frame)
  : res (FrameReader * list Frame) :=
  match chunks with
  | [] => Ok (r, out)
  | c :: chunks' =>
      '(_, r, out) ← feed r c out;
      feed_all r chunks' out
  end.

(** ** The reference: one byte at a time *)

(** The five header bytes [p] are complete. *)
Definition finish_header (p : list Z) (r : FrameReader) : FrameReader * list Frame :=
  let len := le_val (take 4 p) in
  let t := nth 4 p 0 in
  if negb (type_registered t) || (len >? MAX_FRAME_PAYLOAD) then (poison r, [])
  else if len =? 0 then (end_frame (start_payload len t r), [{| fr_type := t; fr_payload := [] |}])
  else (start_payload len t r, []).

Definition feed1 (r : FrameReader) (b : Z) : FrameReader * list Frame :=
  if poisoned r then (r, [])
  else
    let p := pending r ++ [b] in
    if header_done r then
      if zlen p <? frame_len r then (set_pending p r, [])
      else (end_frame r, [{| fr_type := frame_type r; fr_payload := p |}])
    else if zlen p <? FRAME_HEADER_SIZE then (set_pending p r, [])
    else finish_header p r.

Fixpoint feed_bytes (r : FrameReader) (l : list Z) : FrameReader * list Frame :=
  match l with
  | [] => (r, [])
  | b :: l' =>
      let '(r, fs) := feed1 r b in
      let '(r', fs') := feed_bytes r l' in (r', fs ++ fs')
  end.

(** The reader's invariant: what is buffered is an incomplete header or an
    incomplete payload, never more than one frame. *)
Record reader_ok (r : FrameReader) : Prop := {
  ro_bytes : bytes (pending r);
  ro_poisoned : poisoned r = true -> pending r = [];
  ro_payload : header_done r = true -> poisoned r = false ->
    0 < frame_len r <= MAX_FRAME_PAYLOAD /\ zlen (pending r) < frame_len r;
  ro_header : header_done r = false -> zlen (pending r) < FRAME_HEADER_SIZE
}.

Lemma reader_ok_init : reader_ok FrameReader_init.
Proof. split; cbn; try done. Qed.

Lemma feed_bytes_app r l k :
  feed_bytes r (l ++ k) =
  let '(r1, f1) := feed_bytes r l in let '(r2, f2) := feed_bytes r1 k in (r2, f1 ++ f2).
Proof.
  revert r. induction l as [|b l IH]; intros r.
  - cbn [app feed_bytes]. by destruct (feed_bytes r k).
  - cbn [app feed_bytes]. destruct (feed1 r b) as [r0 f0]. rewrite IH.
    destruct (feed_bytes r0 l) as [r1 f1]. destruct (feed_bytes r1 k) as [r2 f2].
    by rewrite app_assoc.
Qed.

Lemma feed_bytes_poisoned r l : poisoned r = true -> feed_bytes r l = (r, []).
Proof.
  intros H. induction l as [|b l IH]; [done|]. cbn [feed_bytes]. unfold feed1. by rewrite H, IH.
Qed.

Lemma set_pending_ok p r :
  poisoned r = false -> bytes p ->
  (header_done r = true -> 0 < frame_len r <= MAX_FRAME_PAYLOAD /\ zlen p < frame_len r) ->
  (header_done r = false -> zlen p < FRAME_HEADER_SIZE) -> reader_ok (set_pending p r).
Proof. intros Hp Hb H1 H2. split; cbn; try done; auto. by rewrite Hp. Qed.

Lemma end_frame_ok r : reader_ok (end_frame r).
Proof. split; cbn; done. Qed.

Lemma poison_ok r : reader_ok r -> reader_ok (poison r).
Proof. intros []. split; cbn; try done. Qed.

Lemma finish_header_ok p r :
  reader_ok r -> bytes p -> reader_ok (finish_header p r).1.
Proof.
  intros Hr Hb. unfold finish_header. destruct (_ || _) eqn:E; [by apply poison_ok|].
  apply orb_false_iff in E as [_ E]. rewrite Z.gtb_ltb in E. apply Z.ltb_ge in E.
  destruct (Z.eqb_spec (le_val (take 4 p)) 0) as [|Hne]; [apply end_frame_ok|].
  pose proof (le_val_range (take 4 p) ltac:(auto with orar)) as [H0 _].
  split; cbn; try done. intros _ _. change (zlen (@nil Z)) with 0. lia.
Qed.

Lemma feed1_ok r b : reader_ok r -> is_byte b -> reader_ok (feed1 r b).1.
Proof.
  intros Hr Hb. unfold feed1. destruct (poisoned r) eqn:Hp; [done|].
  pose proof Hr as [H1 _ H3 H4].
  assert (Hpb : bytes (pending r ++ [b])) by bytes_solve.
  destruct (header_done r) eqn:Hh.
  - destruct (Z.ltb_spec (zlen (pending r ++ [b])) (frame_len r)); [|apply end_frame_ok].
    apply set_pending_ok; try done; rewrite Hh; [|done]. intros _. destruct (H3 eq_refl Hp). done.
  - destruct (Z.ltb_spec (zlen (pending r ++ [b])) FRAME_HEADER_SIZE); [|by apply finish_header_ok].
    by apply set_pending_ok; rewrite ?Hh.
Qed.

Lemma feed_bytes_ok r l : reader_ok r -> bytes l -> reader_ok (feed_bytes r l).1.
Proof.
  intros Hr Hl. revert r Hr. induction Hl as [|b l Hb Hl IH]; intros r Hr; [done|].
  cbn [feed_bytes]. pose proof (feed1_ok r b Hr Hb) as H1. destruct (feed1 r b) as [r1 f1].
  specialize (IH r1 H1). by destruct (feed_bytes r1 l).
Qed.

(** The number of bytes the current header or payload still wants. *)
Definition limit (r : FrameReader) : Z := if header_done r then frame_len r else FRAME_HEADER_SIZE.

(** Bytes that do not complete it are only buffered... *)
Lemma feed_bytes_short r l :
  poisoned r = false -> zlen (pending r) + zlen l < limit r ->
  feed_bytes r l = (set_pending (pending r ++ l) r, []).
Proof.
  revert r. induction l as [|b l IH]; intros r Hp Hlt.
  - cbn. rewrite app_nil_r. by destruct r.
  - cbn [feed_bytes]. unfold feed1, limit in *. rewrite Hp. rewrite zlen_cons in Hlt. pose proof (zlen_nonneg l).
    assert (L : zlen (pending r ++ [b]) = zlen (pending r) + 1) by (rewrite zlen_app; done).
    rewrite L. destruct (header_done r) eqn:Hh; rewrite (proj2 (Z.ltb_lt _ _)) by lia;
      rewrite IH by (cbn; rewrite ?Hh, ?L; done || lia); cbn; by rewrite <- app_assoc.
Qed.

(** ... and the last one completes it. *)
Lemma feed_bytes_complete r l :
  poisoned r = false -> l <> [] -> zlen (pending r) + zlen l = limit r ->
  feed_bytes r l =
    if header_done r
    then (end_frame r, [{| fr_type := frame_type r; fr_payload := pending r ++ l |}])
    else finish_header (pending r ++ l) (set_pending (pending r ++ removelast l) r).
Proof.
  intros Hp Hne Hlen. destruct (exists_last Hne) as (l' & b & ->).
  rewrite removelast_last. rewrite zlen_app in Hlen. change (zlen [b]) with 1 in Hlen.
  rewrite feed_bytes_app, feed_bytes_short by (done || lia).
  cbn [feed_bytes]. unfold feed1, limit in *. cbn [poisoned set_pending header_done pending frame_len frame_type].
  rewrite Hp. rewrite <- app_assoc.
  assert (L : zlen (pending r ++ l' ++ [b]) = zlen (pending r) + zlen l' + 1)
    by (rewrite !zlen_app; change (zlen [b]) with 1; lia).
  rewrite L. destruct (header_done r); rewrite (proj2 (Z.ltb_ge _ _)) by lia; [done|].
  destruct (finish_header _ _) as [r1 f1]. by rewrite app_nil_r.
Qed.

(** [finish_header] forgets what was buffered. *)
Lemma finish_header_pending p q r : finish_header p (set_pending q r) = finish_header p r.
Proof.
  unfold finish_header. cbv zeta.
  repeat match goal with |- context [if ?c then _ else _] => destruct c end; done.
Qed.

Lemma refill_spec r need rest :
  0 <= need ->
  exists used rest', rest = used ++ rest' /\ zlen used = Z.min (zlen rest) need /\
    refill need rest r = (set_pending (pending r ++ used) r, rest').
Proof.
  intros Hn. unfold refill.
  exists (take (Z.to_nat (Z.min (zlen rest) need)) rest), (drop (Z.to_nat (Z.min (zlen rest) need)) rest).
  pose proof (zlen_nonneg rest).
  split; [by rewrite take_drop|]. split; [apply zlen_take; lia|].
  assert (E : (if zlen rest <? need then zlen rest else need) = Z.min (zlen rest) need).
  { destruct (Z.ltb_spec (zlen rest) need); lia. }
  by rewrite E.
Qed.

(** What one pass of the loop consumed is what the reference does with it. *)
Definition step_sound (r : FrameReader) (rest : list Z) (out : list Frame)
    (s : step_result * FrameReader * list Z * list Frame) : Prop :=
  let '(act, r', rest', out') := s in
  exists used fs, rest = used ++ rest' /\ feed_bytes r used = (r', fs) /\ out' = out ++ fs /\
    match act with
    | Again => rest' <> [] /\ used <> [] /\ poisoned r' = false
    | Return FeedPoisoned => poisoned r' = true
    | Return _ => rest' = [] /\ poisoned r' = false
    end.

Lemma zlen_eqb_nil {A} (l : list A) : (zlen l =? 0) = match l with [] => true | _ => false end.
Proof. destruct l; [done|]. rewrite zlen_cons. apply Z.eqb_neq. pose proof (zlen_nonneg l). lia. Qed.

Lemma payload_step_sound r rest out :
  reader_ok r -> poisoned r = false -> header_done r = true ->
  step_sound r rest out (payload_step r rest out).
Proof.
  intros [_ _ H3 _] Hp Hh. destruct (H3 Hh Hp) as [Hlen Hpend]. unfold MAX_FRAME_PAYLOAD in *.
  unfold payload_step. pose proof (zlen_nonneg (pending r)). rewrite size_sub_small by lia.
  destruct (refill_spec r (frame_len r - zlen (pending r)) rest ltac:(lia)) as (used & rest' & Er & Lu & ->).
  cbn [pending set_pending frame_len frame_type].
  assert (L : zlen (pending r ++ used) = zlen (pending r) + zlen used) by apply zlen_app.
  pose proof (zlen_nonneg rest'). assert (LR : zlen rest = zlen used + zlen rest') by (rewrite Er; apply zlen_app).
  assert (Elim : limit r = frame_len r) by (unfold limit; by rewrite Hh).
  rewrite L. destruct (Z.ltb_spec (zlen (pending r) + zlen used) (frame_len r)) as [Hlt|Hge].
  - rewrite zlen_eqb_nil. assert (rest' = []) as -> by (apply zlen_zero_nil; lia). cbn.
    exists used, []. split_and!; try done; [|by rewrite app_nil_r].
    apply feed_bytes_short; [done|lia].
  - assert (Hne : used <> []) by (intros ->; change (zlen (@nil Z)) with 0 in *; lia).
    assert (E : feed_bytes r used = (end_frame r, [{| fr_type := frame_type r; fr_payload := pending r ++ used |}])).
    { rewrite feed_bytes_complete by (done || lia). by rewrite Hh. }
    rewrite zlen_eqb_nil. destruct rest' as [|x rest'];
      (exists used, [{| fr_type := frame_type r; fr_payload := pending r ++ used |}]; by split_and!).
Qed.

Lemma step_sound_prefix r r1 used rest out s :
  feed_bytes r used = (r1, []) -> step_sound r1 rest out s -> step_sound r (used ++ rest) out s.
Proof.
  intros E. unfold step_sound. destruct s as [[[act r'] rest'] out'].
  intros (u & fs & -> & Ef & -> & Hact). exists (used ++ u), fs.
  split; [by rewrite app_assoc|]. split; [by rewrite feed_bytes_app, E, Ef|]. split; [done|].
  destruct act; [done|]. destruct Hact as (H1 & H2 & H3). split; [done|]. split; [|done].
  destruct used; [done|discriminate].
Qed.

Lemma feed_step_sound r rest out :
  reader_ok r -> bytes rest -> poisoned r = false ->
  step_sound r rest out (feed_step r rest out).
Proof.
  intros Hr Hb Hp. unfold feed_step. destruct (header_done r) eqn:Hh; cbn [negb]; [by apply payload_step_sound|].
  pose proof Hr as [HB _ _ H4]. specialize (H4 Hh). unfold FRAME_HEADER_SIZE in *.
  pose proof (zlen_nonneg (pending r)). rewrite size_sub_small by lia.
  destruct (refill_spec r (5 - zlen (pending r)) rest ltac:(lia)) as (used & rest' & Er & Lu & ->).
  cbn [pending set_pending].
  assert (L : zlen (pending r ++ used) = zlen (pending r) + zlen used) by apply zlen_app.
  pose proof (zlen_nonneg rest'). assert (LR : zlen rest = zlen used + zlen rest') by (rewrite Er; apply zlen_app).
  assert (Elim : limit r = 5) by (unfold limit; by rewrite Hh).
  rewrite L. destruct (Z.ltb_spec (zlen (pending r) + zlen used) 5) as [Hlt|Hge].
  - rewrite zlen_eqb_nil. assert (rest' = []) as -> by (apply zlen_zero_nil; lia). cbn.
    exists used, []. split_and!; try done; [|by rewrite app_nil_r].
    apply feed_bytes_short; [done|lia].
  - assert (Hne : used <> []) by (intros ->; change (zlen (@nil Z)) with 0 in *; lia).
    assert (E : feed_bytes r used = finish_header (pending r ++ used) r).
    { rewrite feed_bytes_complete by (done || lia). rewrite Hh. apply finish_header_pending. }
    assert (Hbu : bytes (pending r ++ used)).
    { rewrite Er in Hb. apply Forall_app in Hb as [Hb _]. by apply Forall_app_2. }
    pose proof (finish_header_ok _ r Hr Hbu) as Hok.
    unfold finish_header in E, Hok. cbv zeta in E, Hok |- *.
    set (p := pending r ++ used) in *.
    destruct (negb (type_registered (nth 4 p 0))); cbn [orb] in *.
    { exists used, []. split_and!; try done. by rewrite app_nil_r. }
    destruct (le_val (take 4 p) >? MAX_FRAME_PAYLOAD) eqn:Emax.
    { exists used, []. split_and!; try done. by rewrite app_nil_r. }
    destruct (le_val (take 4 p) =? 0) eqn:E0.
    + rewrite zlen_eqb_nil. destruct rest' as [|x rest'];
        (exists used, [{| fr_type := nth 4 p 0; fr_payload := [] |}]; by split_and!).
    + change (start_payload (le_val (take 4 p)) (nth 4 p 0) (set_pending p r))
        with (start_payload (le_val (take 4 p)) (nth 4 p 0) r).
      rewrite Er. apply (step_sound_prefix r (start_payload (le_val (take 4 p)) (nth 4 p 0) r)); [done|].
      by apply payload_step_sound.
Qed.

Lemma feed_step_again r rest out r' rest' out' :
  feed_step r rest out = (Again, r', rest', out') ->
  reader_ok r -> bytes rest -> poisoned r = false ->
  (length rest' < length rest)%nat /\ reader_ok r' /\ bytes rest' /\ poisoned r' = false.
Proof.
  intros E Hr Hb Hp. pose proof (feed_step_sound r rest out Hr Hb Hp) as H. rewrite E in H.
  destruct H as (used & fs & -> & Ef & _ & _ & Hu & Hp'). apply Forall_app in Hb as [Hbu Hbr].
  split_and!; try done.
  - rewrite length_app. destruct used; [done|]. cbn. lia.
  - pose proof (feed_bytes_ok r used Hr Hbu) as H. by rewrite Ef in H.
Qed.

(** [feed] is the reference, and terminates. *)
Lemma feed_spec r data out :
  reader_ok r -> bytes data ->
  exists q, feed r data out = Ok (q, (feed_bytes r data).1, out ++ (feed_bytes r data).2) /\
    (q = FeedPoisoned <-> poisoned (feed_bytes r data).1 = true).
Proof.
  intros Hr Hb. unfold feed. destruct (poisoned r) eqn:Hp.
  { rewrite feed_bytes_poisoned by done. exists FeedPoisoned. cbn. rewrite app_nil_r. done. }
  assert (Hfuel : (length data < S (length data))%nat) by lia.
  revert Hfuel. generalize (S (length data)) as fuel. intros fuel. revert r data out Hr Hb Hp.
  induction fuel as [|fuel IH]; intros r data out Hr Hb Hp Hf; [lia|]. cbn [feed_loop].
  pose proof (feed_step_sound r data out Hr Hb Hp) as Hs.
  destruct (feed_step r data out) as [[[act r'] rest'] out'] eqn:Es.
  destruct Hs as (used & fs & -> & Ef & -> & Hact). rewrite feed_bytes_app, Ef.
  destruct act as [q|].
  - exists q. destruct q.
    1, 2: destruct Hact as [-> Hp']; cbn; rewrite Hp', app_nil_r; split; [done|split; done].
    rewrite feed_bytes_poisoned by done. cbn. rewrite Hact, app_nil_r. done.
  - destruct (feed_step_again _ _ _ _ _ _ Es Hr Hb Hp) as (Hl & Hr' & Hb' & Hp').
    destruct (IH r' rest' (out ++ fs) Hr' Hb' Hp' ltac:(lia)) as (q & -> & Hq).
    exists q. destruct (feed_bytes r' rest') as [r2 f2]. cbn. by rewrite app_assoc.
Qed.

Lemma feed_all_spec r chunks out :
  reader_ok r -> Forall bytes chunks ->
  feed_all r chunks out =
    Ok ((feed_bytes r (concat chunks)).1, out ++ (feed_bytes r (concat chunks)).2).
Proof.
  intros Hr Hc. revert r out Hr. induction Hc as [|c chunks Hb Hc IH]; intros r out Hr.
  - cbn. by rewrite app_nil_r.
  - cbn [feed_all concat]. destruct (feed_spec r c out Hr Hb) as (q & -> & _). res_simpl.
    pose proof (feed_bytes_ok r c Hr Hb) as Hr1. rewrite feed_bytes_app.
    destruct (feed_bytes r c) as [r1 f1]. cbn [fst snd] in *. rewrite IH by done.
    destruct (feed_bytes r1 (concat chunks)) as [r2 f2]. cbn. by rewrite app_assoc.
Qed.

(** ** Encoded frames *)

Definition frame_ok (f : Frame) : Prop :=
  type_registered (fr_type f) = true /\ zlen (fr_payload f) <= MAX_FRAME_PAYLOAD /\ bytes (fr_payload f).

Definition frame_bytes (f : Frame) : list Z :=
  le32_bytes (zlen (fr_payload f)) ++ [fr_type f] ++ fr_payload f.

Lemma encode_frame_eq f out : frame_ok f -> encode_frame f out = Some (out ++ frame_bytes f).
Proof.
  intros (Ht & Hl & Hb). unfold encode_frame. rewrite Ht. cbn [negb].
  pose proof (zlen_nonneg (fr_payload f)). unfold MAX_FRAME_PAYLOAD in *.
  rewrite Z.gtb_ltb, (proj2 (Z.ltb_ge _ _)), wrap_small by lia.
  unfold frame_bytes. by rewrite <- !app_assoc.
Qed.

(** A reader between frames. *)
Definition idle (r : FrameReader) : Prop := pending r = [] /\ poisoned r = false /\ header_done r = false.

Lemma type_registered_range t : type_registered t = true -> is_byte t.
Proof.
  unfold type_registered, FT_Ping, FT_SelftestResult, is_byte. rewrite Z.geb_leb.
  intros [H1%Z.leb_le H2%Z.leb_le]%andb_true_iff. lia.
Qed.

Lemma feed_frame r f :
  idle r -> frame_ok f -> exists r', feed_bytes r (frame_bytes f) = (r', [f]) /\ idle r'.
Proof.
  intros (Hpe & Hp & Hh) (Ht & Hl & Hb). unfold frame_bytes. rewrite app_assoc, feed_bytes_app.
  pose proof (zlen_nonneg (fr_payload f)) as H0.
  set (hdr := le32_bytes (zlen (fr_payload f)) ++ [fr_type f]).
  assert (E : feed_bytes r hdr = finish_header hdr r).
  { rewrite feed_bytes_complete; [|done|done|unfold limit; by rewrite Hh, Hpe].
    rewrite Hh, Hpe, finish_header_pending. done. }
  rewrite E. unfold finish_header.
  assert (EL : le_val (take 4 hdr) = zlen (fr_payload f))
    by (apply (le_val_le32 (zlen (fr_payload f))); unfold MAX_FRAME_PAYLOAD in Hl; lia).
  change (nth 4 hdr 0) with (fr_type f). rewrite EL, Ht. cbn [negb orb].
  rewrite Z.gtb_ltb, (proj2 (Z.ltb_ge _ _)) by done.
  destruct (Z.eqb_spec (zlen (fr_payload f)) 0) as [E0|Hne].
  - apply zlen_zero_nil in E0. rewrite E0. cbn. eexists. split; [f_equal; f_equal; by destruct f; cbn in *; subst|].
    by split.
  - set (r1 := start_payload _ _ r).
    rewrite (feed_bytes_complete r1); [|done|by intros En; rewrite En in Hne|].
    + cbn. eexists. split; [f_equal; by destruct f|]. by split.
    + unfold limit. cbn. change (zlen (@nil Z)) with 0. lia.
Qed.

Lemma feed_frames r fs :
  idle r -> Forall frame_ok fs ->
  exists r', feed_bytes r (concat (map frame_bytes fs)) = (r', fs) /\ idle r'.
Proof.
  intros Hi Hfs. revert r Hi. induction Hfs as [|f fs Hf Hfs IH]; intros r Hi; [by exists r|].
  cbn [map concat]. rewrite feed_bytes_app. destruct (feed_frame r f Hi Hf) as (r1 & -> & Hi1).
  destruct (IH r1 Hi1) as (r2 & -> & Hi2). by exists r2.
Qed.

(** What an invalid header does, at a frame boundary. *)
Lemma feed_bad_header r p :
  idle r -> zlen p = 5 -> bytes p ->
  type_registered (nth 4 p 0) = false \/ le_val (take 4 p) > MAX_FRAME_PAYLOAD ->
  poisoned (feed_bytes r p).1 = true /\ (feed_bytes r p).2 = [].
Proof.
  intros (Hpe & Hp & Hh) Hl Hb Hbad.
  rewrite feed_bytes_complete; [|done|by intros ->|unfold limit; by rewrite Hh, Hpe].
  rewrite Hh, Hpe, finish_header_pending. unfold finish_header.
  assert (E : negb (type_registered (nth 4 ([] ++ p) 0)) || (le_val (take 4 ([] ++ p)) >? MAX_FRAME_PAYLOAD) = true).
  { cbn [app]. destruct Hbad as [->|Hgt]; [done|]. apply orb_true_iff. right. apply Z.gtb_lt. lia. }
  by rewrite E.
Qed.

(** ** Properties *)

(** C19. The frame decoder does not depend on how the channel cuts the
    stream: feeding any bytes in any chunks terminates, and ends in the state
    and with the frames of the byte-at-a-time reference over their
    concatenation; what it buffers never exceeds one header or one announced
    payload (at most 4 MiB), and it is empty once the stream is poisoned. *)
Theorem feed_chunking_irrelevant (chunks1 chunks2 : list (list Z)) (out : list Frame) :
  Forall bytes chunks1 -> Forall bytes chunks2 -> concat chunks1 = concat chunks2 ->
  exists r fs,
    feed_all FrameReader_init chunks1 out = Ok (r, out ++ fs) /\
    feed_all FrameReader_init chunks2 out = Ok (r, out ++ fs) /\
    (r, fs) = feed_bytes FrameReader_init (concat chunks1) /\
    buffered r < Z.max FRAME_HEADER_SIZE MAX_FRAME_PAYLOAD /\
    (poisoned r = true -> buffered r = 0).
Proof.
  intros H1 H2 E.
  exists (feed_bytes FrameReader_init (concat chunks1)).1, (feed_bytes FrameReader_init (concat chunks1)).2.
  rewrite !feed_all_spec by (done || apply reader_ok_init). rewrite <- E.
  split; [done|]. split; [done|]. split; [by destruct (feed_bytes _ _)|].
  assert (Hb : bytes (concat chunks1)) by (by apply Forall_concat).
  pose proof (feed_bytes_ok _ _ reader_ok_init Hb) as [_ R2 R3 R4].
  set (r := (feed_bytes FrameReader_init (concat chunks1)).1) in *. unfold buffered.
  split; [|by intros Hp; rewrite R2].
  unfold FRAME_HEADER_SIZE, MAX_FRAME_PAYLOAD in *.
  destruct (poisoned r) eqn:Hp; [rewrite R2 by done; done|].
  destruct (header_done r); [destruct (R3 eq_refl eq_refl); lia|specialize (R4 eq_refl); lia].
Qed.

Lemma feed_chunking_irrelevant_witness :
  let a := [[2; 0]; [0; 0; 5; 7]; []; [8; 0; 0; 0; 0; 1; 3]] in
  let b := [[2; 0; 0; 0; 5]; [7; 8; 0; 0; 0; 0; 1; 3]] in
  feed_all FrameReader_init a [] = feed_all FrameReader_init b [] /\
  (feed_bytes FrameReader_init (concat a)).2 =
    [{| fr_type := 5; fr_payload := [7; 8] |}; {| fr_type := 1; fr_payload := [] |}].
Proof.
  cbv zeta. split; [|vm_compute; reflexivity].
  destruct (feed_chunking_irrelevant [[2; 0]; [0; 0; 5; 7]; []; [8; 0; 0; 0; 0; 1; 3]]
    [[2; 0; 0; 0; 5]; [7; 8; 0; 0; 0; 0; 1; 3]] []) as (r & fs & E1 & E2 & _).
  - repeat constructor; discriminate.
  - repeat constructor; discriminate.
  - reflexivity.
  - rewrite E1, E2. reflexivity.
Defined.

(** C32. Round trip over a hostile channel: the frames [encode_frame] writes,
    cut into any chunks, come back exactly, in order, and the reader is left
    between frames; if the next five bytes carry an unregistered type or a
    length above the cap, the stream is poisoned, and from then on no bytes
    ever yield a frame and every call reports it. *)
Theorem frames_roundtrip_then_poison (fs : list Frame) (chunks : list (list Z)) (bad : list Z) (later : list (list Z)) :
  Forall frame_ok fs -> concat chunks = concat (map frame_bytes fs) -> Forall bytes chunks ->
  zlen bad = FRAME_HEADER_SIZE -> bytes bad -> Forall bytes later ->
  type_registered (nth 4 bad 0) = false \/ le_val (take 4 bad) > MAX_FRAME_PAYLOAD ->
  (forall f out, In f fs -> encode_frame f out = Some (out ++ frame_bytes f)) /\
  exists r r',
    feed_all FrameReader_init chunks [] = Ok (r, fs) /\ poisoned r = false /\ buffered r = 0 /\
    feed r bad fs = Ok (FeedPoisoned, r', fs) /\
    feed_all r' later fs = Ok (r', fs) /\ (forall l out, feed r' l out = Ok (FeedPoisoned, r', out)).
Proof.
  intros Hfs Ec Hb Hl Hbb Hlater Hbad. split.
  { intros f out Hin. apply encode_frame_eq. by apply (proj1 (List.Forall_forall _ _) Hfs). }
  assert (Hi : idle FrameReader_init) by done.
  destruct (feed_frames FrameReader_init fs Hi Hfs) as (r & Er & Hir).
  pose proof (feed_all_spec FrameReader_init chunks [] reader_ok_init Hb) as EA.
  assert (Hbc : bytes (concat chunks)) by (by apply Forall_concat).
  pose proof (feed_bytes_ok _ _ reader_ok_init Hbc) as Hok. rewrite Ec, Er in *. cbn [fst snd app] in *.
  destruct (feed_bad_header r bad Hir Hl Hbb Hbad) as [Hp2 Hf2].
  destruct (feed_spec r bad fs Hok Hbb) as (q & EF & Hq). rewrite Hf2, app_nil_r in EF.
  apply Hq in Hp2 as Hq'. subst q.
  exists r, (feed_bytes r bad).1. destruct Hir as (Hpe & Hp & Hh). split_and!; try done.
  - unfold buffered. by rewrite Hpe.
  - rewrite feed_all_spec by (done || by apply feed_bytes_ok). rewrite feed_bytes_poisoned by done.
    cbn. by rewrite app_nil_r.
  - intros l out. unfold feed. by rewrite Hp2.
Qed.

Lemma frames_roundtrip_then_poison_witness :
  exists r r',
    feed_all FrameReader_init [[1; 0; 0]; [0; 9; 7; 0; 0; 0; 0; 1]] [] =
      Ok (r, [{| fr_type := 9; fr_payload := [7] |}; {| fr_type := 1; fr_payload := [] |}]) /\
    feed r [0; 0; 0; 0; 14] [] = Ok (FeedPoisoned, r', []).
Proof.
  destruct (frames_roundtrip_then_poison
    [{| fr_type := 9; fr_payload := [7] |}; {| fr_type := 1; fr_payload := [] |}]
    [[1; 0; 0]; [0; 9; 7; 0; 0; 0; 0; 1]] [0; 0; 0; 0; 14] []) as (_ & r & r' & E1 & _ & _ & E2 & _ & _).
  - repeat constructor; discriminate.
  - reflexivity.
  - repeat constructor; discriminate.
  - reflexivity.
  - bytes_const.
  - constructor.
  - left. reflexivity.
  - exists r, r'. split; [exact E1|].
    unfold feed in *. destruct (poisoned r); [by injection E2 as ->|].
    revert E2. vm_compute in E1. injection E1 as <-. vm_compute. intros E2. by injection E2 as <-.
Defined.
