(* ===== verification/WorkerProtocol.v ===== *)
(** The payloads of the broker/worker protocol: [src/sandbox/worker_protocol.hpp],
    [worker_protocol.cpp].

    Every message is a packed little-endian structure, optionally followed by
    a blob.  A pointer is an [option]: [None] is [nullptr].  Allocation failure
    ([reserve], [assign]) is not modelled. *)

From stdpp Require Import base tactics list numbers.
From Stdlib Require Import ZArith Lia.
From S2P Require Import Prelude Bytes SandboxIpc.

Local Open Scope Z_scope.

(** ** Packed structures

    [#pragma pack(push, 1)]: the fields follow each other, [ws] are their
    widths in bytes. *)

Fixpoint struct_bytes (ws : list nat) (vs : list Z) : list Z :=
  match ws, vs with
  | w :: ws, v :: vs => le_digits w v ++ struct_bytes ws vs
  | _, _ => []
  end.

Fixpoint struct_vals (ws : list nat) (l : list Z) : list Z :=
  match ws with
  | [] => []
  | w :: ws => le_val (take w l) :: struct_vals ws (drop w l)
  end.

(** [int32]: two's complement. *)
Definition s32 (z : Z) : Z := if z <? 2 ^ 31 then z else z - 2 ^ 32.

Record WireEntry := {
  we_path_offset : Z;
  we_path_len : Z;
  we_is_dir : Z;
  we_method : Z;
  we_is_encrypted : Z;
  we_crc32 : Z;
  we_size : Z;
  we_packed_size : Z;
  we_mtime : Z;
  we_pad0 : Z;
  we_pad1 : Z
}.

Definition WireEntry_widths : list nat := [4; 4; 4; 4; 4; 4; 8; 8; 8; 8; 8]%nat.
Definition WireEntry_size : Z := 64.
Definition WIRE_FLAG_SERVICE : Z := 1.
Definition WIRE_FLAG_HAS_CRC32 : Z := 2.

Definition WireEntry_fields (e : WireEntry) : list Z :=
  [we_path_offset e; we_path_len e; we_is_dir e; we_method e; we_is_encrypted e; we_crc32 e;
   we_size e; we_packed_size e; we_mtime e; we_pad0 e; we_pad1 e].

Definition WireEntry_bytes (e : WireEntry) : list Z := struct_bytes WireEntry_widths (WireEntry_fields e).

Definition WireEntry_of (vs : list Z) : WireEntry :=
  let f i := nth i vs 0 in
  {| we_path_offset := f 0%nat; we_path_len := f 1%nat; we_is_dir := f 2%nat; we_method := f 3%nat;
     we_is_encrypted := f 4%nat; we_crc32 := f 5%nat; we_size := f 6%nat; we_packed_size := f 7%nat;
     we_mtime := f 8%nat; we_pad0 := f 9%nat; we_pad1 := f 10%nat |}.

Record WireScanHeader := { sh_entry_count : Z; sh_reserved : Z; sh_paths_bytes : Z }.
Definition WireScanHeader_widths : list nat := [4; 4; 8]%nat.
Definition WireScanHeader_size : Z := 16.
Definition WireScanHeader_bytes (h : WireScanHeader) : list Z :=
  struct_bytes WireScanHeader_widths [sh_entry_count h; sh_reserved h; sh_paths_bytes h].
Definition WireScanHeader_of (vs : list Z) : WireScanHeader :=
  {| sh_entry_count := nth 0 vs 0; sh_reserved := nth 1 vs 0; sh_paths_bytes := nth 2 vs 0 |}.

Record ScanView := { entries : list WireEntry; paths : list Z }.

(** ** pack_scan_result *)

Definition total_paths (es : list WireEntry) : Z :=
  fold_left (fun t e => u64 (t + we_path_len e)) es 0.

(** The returned flag and the payload left in the out-parameter. *)
Definition pack_scan_result (view : ScanView) (payload : list Z) : bool * list Z :=
  let total := total_paths (entries view) in
  if total >? 0xFFFFFFFF then (false, payload)
  else if zlen (entries view) >? 0xFFFFFFFF then (false, payload)
  else
    let hdr := {| sh_entry_count := u32 (zlen (entries view)); sh_reserved := 0; sh_paths_bytes := total |} in
    let payload := WireScanHeader_bytes hdr ++ concat (map WireEntry_bytes (entries view)) ++ paths view in
    (zlen payload <=? MAX_FRAME_PAYLOAD, payload).

(** ** unpack_scan_result *)

Definition read_struct (ws : list nat) (size : Z) (m : list Z) (off : Z) : res (list Z) :=
  b ← slice m off size;
  mret (struct_vals ws b).

(** [e._pad[0] & ~(WIRE_FLAG_SERVICE | WIRE_FLAG_HAS_CRC32)] *)
Definition unknown_wire_flags (e : WireEntry) : bool :=
  negb (Z.land (we_pad0 e) (2 ^ 64 - 1 - Z.lor WIRE_FLAG_SERVICE WIRE_FLAG_HAS_CRC32) =? 0).

(** The loop over the entries; [left] is [entry_count - i], [eb] the offset of
    entry [i].  [(false, _)] is an early [return false]. *)
Fixpoint unpack_entries (left : nat) (payload : list Z) (eb paths_bytes : Z) (out : list WireEntry)
  : res (bool * list WireEntry) :=
  match left with
  | O => Ok (true, out)
  | S left' =>
      vs ← read_struct WireEntry_widths WireEntry_size payload eb;
      let e := WireEntry_of vs in
      if negb (we_pad1 e =? 0) then Ok (false, out)
      else if unknown_wire_flags e then Ok (false, out)
      else
        let end_ := u64 (we_path_offset e + we_path_len e) in
        if end_ >? paths_bytes then Ok (false, out)
        else unpack_entries left' payload (eb + WireEntry_size) paths_bytes (out ++ [e])
  end.

Definition unpack_scan_result (payload : option (list Z)) (out : ScanView) : res (bool * ScanView) :=
  match payload with
  | None => Ok (false, out)
  | Some payload =>
      let len := zlen payload in
      if len <? WireScanHeader_size then Ok (false, out)
      else
        vs ← read_struct WireScanHeader_widths WireScanHeader_size payload 0;
        let hdr := WireScanHeader_of vs in
        if negb (sh_reserved hdr =? 0) then Ok (false, out)
        else
          let entries_bytes := u64 (sh_entry_count hdr * WireEntry_size) in
          if entries_bytes >? len -s WireScanHeader_size then Ok (false, out)
          else if negb (u64 (u64 (WireScanHeader_size + entries_bytes) + sh_paths_bytes hdr) =? len)
          then Ok (false, out)
          else
            '(ok, es) ← unpack_entries (Z.to_nat (sh_entry_count hdr)) payload WireScanHeader_size
                          (sh_paths_bytes hdr) [];
            if negb ok then Ok (false, {| entries := es; paths := [] |})
            else
              ps ← slice payload (WireScanHeader_size + entries_bytes) (sh_paths_bytes hdr);
              Ok (true, {| entries := es; paths := ps |})
  end.

(** ** The small messages

    Each unpacker returns its flag and the message it stored. *)

Definition WireExtractReq_widths : list nat := [4; 4]%nat.
Definition WireExtractReq_size : Z := 8.

Definition pack_extract_req (index : Z) : list Z := struct_bytes WireExtractReq_widths [index; 0].

Definition unpack_extract_req (payload : option (list Z)) : res (option Z) :=
  match payload with
  | None => Ok None
  | Some payload =>
      if negb (zlen payload =? WireExtractReq_size) then Ok None
      else
        vs ← read_struct WireExtractReq_widths WireExtractReq_size payload 0;
        if negb (nth 1 vs 0 =? 0) then Ok None else Ok (Some (nth 0 vs 0))
  end.

Record WireEntryResult := {
  er_entry_index : Z;
  er_reserved : Z;
  er_rc : Z;
  er_pad : Z;
  er_bytes_emitted : Z
}.
Definition WireEntryResult_widths : list nat := [4; 4; 4; 4; 8]%nat.
Definition WireEntryResult_size : Z := 24.

Definition pack_entry_result (index rc bytes : Z) : list Z :=
  struct_bytes WireEntryResult_widths [index; 0; u32 rc; 0; bytes].

(** [out] is overwritten before the reserved words are tested. *)
Definition unpack_entry_result (payload : option (list Z)) (out : WireEntryResult)
  : res (bool * WireEntryResult) :=
  match payload with
  | None => Ok (false, out)
  | Some payload =>
      if negb (zlen payload =? WireEntryResult_size) then Ok (false, out)
      else
        vs ← read_struct WireEntryResult_widths WireEntryResult_size payload 0;
        let out := {| er_entry_index := nth 0 vs 0; er_reserved := nth 1 vs 0; er_rc := s32 (nth 2 vs 0);
                      er_pad := nth 3 vs 0; er_bytes_emitted := nth 4 vs 0 |} in
        Ok ((er_reserved out =? 0) && (er_pad out =? 0), out)
  end.

Definition WireError_widths : list nat := [4]%nat.
Definition WireError_size : Z := 4.

Definition pack_error (rc : Z) (detail : list Z) : bool * list Z :=
  let payload := struct_bytes WireError_widths [u32 rc] ++ detail in
  (zlen payload <=? MAX_FRAME_PAYLOAD, payload).

Definition unpack_error (payload : option (list Z)) : res (option (Z * list Z)) :=
  match payload with
  | None => Ok None
  | Some payload =>
      if zlen payload <? WireError_size then Ok None
      else
        vs ← read_struct WireError_widths WireError_size payload 0;
        detail ← slice payload WireError_size (zlen payload -s WireError_size);
        Ok (Some (s32 (nth 0 vs 0), detail))
  end.

(** [write_ok; write_err; net_ok; net_err; volume_read_ok; volume_read_err; pad[2]] *)
Definition WireSelftest_widths : list nat := [4; 4; 4; 4; 4; 4; 4; 4]%nat.
Definition WireSelftest_size : Z := 32.

Definition pack_selftest (st : list Z) : list Z := struct_bytes WireSelftest_widths st.

Definition unpack_selftest (payload : option (list Z)) (out : list Z) : res (bool * list Z) :=
  match payload with
  | None => Ok (false, out)
  | Some payload =>
      if negb (zlen payload =? WireSelftest_size) then Ok (false, out)
      else
        vs ← read_struct WireSelftest_widths WireSelftest_size payload 0;
        Ok ((nth 6 vs 0 =? 0) && (nth 7 vs 0 =? 0), vs)
  end.

(** ** Packed structures: lemmas *)

Definition fits (w : nat) (v : Z) : Prop := 0 <= v < 256 ^ Z.of_nat w.

Lemma struct_vals_struct_bytes ws vs rest :
  Forall2 fits ws vs -> struct_vals ws (struct_bytes ws vs ++ rest) = vs.
Proof.
  intros H. induction H as [|w v ws vs Hf _ IH]; [done|].
  cbn [struct_bytes struct_vals]. rewrite <- app_assoc.
  assert (L : length (le_digits w v) = w) by (apply zlen_length, zlen_le_digits).
  rewrite take_app_length', drop_app_length' by done. rewrite IH, le_val_digits.
  f_equal. by apply Z.mod_small.
Qed.

Lemma struct_bytes_struct_vals ws l :
  length l = sum_list ws -> bytes l ->
  struct_bytes ws (struct_vals ws l) = l /\ Forall2 fits ws (struct_vals ws l).
Proof.
  revert l. induction ws as [|w ws IH]; intros l Hl Hb; [by destruct l|].
  cbn in Hl. cbn [struct_bytes struct_vals].
  destruct (IH (drop w l)) as [E F]; [rewrite length_drop; lia|by apply Forall_drop|].
  assert (L : length (take w l) = w) by (rewrite length_take; lia).
  pose proof (le_val_range (take w l) ltac:(by apply Forall_take)) as R.
  unfold zlen in R. rewrite L in R. split; [|by constructor].
  rewrite E. rewrite <- L at 1. rewrite le_digits_val by (by apply Forall_take). apply take_drop.
Qed.

Lemma struct_bytes_bytes ws vs : bytes (struct_bytes ws vs).
Proof.
  revert vs. induction ws as [|w ws IH]; intros [|v vs]; try constructor.
  apply Forall_app_2; [apply le_digits_bytes|apply IH].
Qed.

Lemma zlen_struct_bytes ws vs :
  length ws = length vs -> zlen (struct_bytes ws vs) = Z.of_nat (sum_list ws).
Proof.
  revert vs. induction ws as [|w ws IH]; intros [|v vs] E; try done.
  cbn [struct_bytes]. rewrite zlen_app, zlen_le_digits, IH by (by injection E). cbn. lia.
Qed.

Lemma slice_app_mid a b c : slice (a ++ b ++ c) (zlen a) (zlen b) = Ok b.
Proof.
  apply (slice_view _ _ b c); [zlen_lia|]. by apply view_app.
Qed.

Lemma read_struct_mid ws a vs c :
  Forall2 fits ws vs ->
  read_struct ws (Z.of_nat (sum_list ws)) (a ++ struct_bytes ws vs ++ c) (zlen a) = Ok vs.
Proof.
  intros F. unfold read_struct. rewrite <- (zlen_struct_bytes ws vs) by (by eapply Forall2_length).
  rewrite slice_app_mid. res_simpl. f_equal.
  rewrite <- (app_nil_r (struct_bytes ws vs)). by apply struct_vals_struct_bytes.
Qed.

(** A structure read inside the buffer is what its bytes spell. *)
Lemma read_struct_inv ws m off :
  bytes m -> 0 <= off -> off + Z.of_nat (sum_list ws) <= zlen m ->
  exists vs rest, read_struct ws (Z.of_nat (sum_list ws)) m off = Ok vs /\
    view m off = struct_bytes ws vs ++ rest /\ Forall2 fits ws vs.
Proof.
  intros Hb Ho Hl. unfold read_struct, slice.
  rewrite !(proj2 (Z.leb_le _ _)) by lia. res_simpl. rewrite Nat2Z.id.
  set (b := take (sum_list ws) (drop (Z.to_nat off) m)).
  assert (L : length b = sum_list ws).
  { subst b. rewrite length_take, length_drop. unfold zlen in Hl. lia. }
  destruct (struct_bytes_struct_vals ws b L) as [E F]; [by apply Forall_take, Forall_drop|].
  exists (struct_vals ws b), (drop (sum_list ws) (drop (Z.to_nat off) m)).
  split; [done|]. split; [|done]. rewrite E. subst b. by rewrite take_drop.
Qed.

Lemma zlen_WireEntry_bytes e : zlen (WireEntry_bytes e) = WireEntry_size.
Proof. unfold WireEntry_bytes. by rewrite zlen_struct_bytes. Qed.

Lemma WireEntry_of_fields e : WireEntry_of (WireEntry_fields e) = e.
Proof. by destruct e. Qed.

Lemma WireEntry_fields_of vs : length vs = 11%nat -> WireEntry_fields (WireEntry_of vs) = vs.
Proof. intros H. do 11 (destruct vs as [|? vs]; [done|]). by destruct vs. Qed.

(** ** Well-formed scan results *)

Definition entry_ok (paths_bytes : Z) (e : WireEntry) : Prop :=
  Forall2 fits WireEntry_widths (WireEntry_fields e) /\
  we_pad1 e = 0 /\ we_pad0 e < 4 /\ we_path_offset e + we_path_len e <= paths_bytes.

Definition scan_ok (v : ScanView) : Prop :=
  Forall (entry_ok (zlen (paths v))) (entries v) /\ zlen (entries v) < 2 ^ 32 /\ bytes (paths v).

Definition scan_bytes (v : ScanView) : list Z :=
  WireScanHeader_bytes {| sh_entry_count := zlen (entries v); sh_reserved := 0; sh_paths_bytes := zlen (paths v) |}
  ++ concat (map WireEntry_bytes (entries v)) ++ paths v.

Lemma entry_ranges e :
  Forall2 fits WireEntry_widths (WireEntry_fields e) ->
  0 <= we_path_offset e < 2 ^ 32 /\ 0 <= we_path_len e < 2 ^ 32 /\ 0 <= we_pad0 e < 2 ^ 64.
Proof.
  unfold WireEntry_widths, WireEntry_fields. intros H.
  repeat match goal with F : Forall2 _ (_ :: _) (_ :: _) |- _ => apply Forall2_cons_1 in F as [? F] end.
  done.
Qed.

Lemma unknown_flags_spec e : 0 <= we_pad0 e < 2 ^ 64 -> unknown_wire_flags e = negb (we_pad0 e <? 4).
Proof.
  intros H. unfold unknown_wire_flags. f_equal.
  change (2 ^ 64 - 1 - Z.lor WIRE_FLAG_SERVICE WIRE_FLAG_HAS_CRC32) with (Z.shiftl (Z.ones 62) 2).
  assert (E : Z.land (we_pad0 e) (Z.shiftl (Z.ones 62) 2) = Z.shiftl (Z.shiftr (we_pad0 e) 2) 2).
  { apply Z.bits_inj'. intros i Hi. rewrite Z.land_spec.
    destruct (Z.ltb_spec i 2) as [Hlt|Hge].
    - rewrite !Z.shiftl_spec_low by done. apply andb_false_r.
    - rewrite !Z.shiftl_spec, Z.shiftr_spec by lia. replace (i - 2 + 2) with i by lia.
      destruct (Z.ltb_spec i 64) as [Hlt2|Hge2].
      + rewrite Z.ones_spec_low by lia. apply andb_true_r.
      + rewrite (testbit_high 64) by lia. done. }
  rewrite E, Z.shiftr_div_pow2, Z.shiftl_mul_pow2 by done.
  change (2 ^ 2) with 4. destruct (Z.ltb_spec (we_pad0 e) 4); [apply Z.eqb_eq|apply Z.eqb_neq]; dlia.
Qed.

(** The loop accepts exactly the well-formed entries it is pointed at. *)
Lemma unpack_entries_spec n m eb pb out :
  bytes m -> 0 <= eb -> eb + 64 * Z.of_nat n <= zlen m -> 0 <= pb < 2 ^ 64 ->
  exists ok es, unpack_entries n m eb pb out = Ok (ok, out ++ es) /\
    (ok = true -> length es = n /\ Forall (entry_ok pb) es /\
       exists rest, view m eb = concat (map WireEntry_bytes es) ++ rest).
Proof.
  intros Hb. revert eb out. induction n as [|n IH]; intros eb out He Hl Hpb.
  { exists true, []. cbn. rewrite app_nil_r. split; [done|]. intros _. split; [done|]. split; [done|]. by exists (view m eb). }
  cbn [unpack_entries].
  destruct (read_struct_inv WireEntry_widths m eb Hb He) as (vs & rest & Er & Ev & F); [cbn; lia|].
  change (Z.of_nat (sum_list WireEntry_widths)) with WireEntry_size in Er. rewrite Er. res_simpl.
  assert (Hvs : length vs = 11%nat) by (symmetry; apply (Forall2_length F)).
  set (e := WireEntry_of vs).
  assert (Ef : WireEntry_fields e = vs) by (by apply WireEntry_fields_of).
  rewrite <- Ef in F. clearbody e. destruct (entry_ranges e F) as (H0 & H1 & Hp0).
  rewrite unknown_flags_spec by lia. rewrite wrap_small by lia.
  assert (Hrej : exists ok es, Ok (false, out) = Ok (ok, out ++ es) /\
     (ok = true -> length es = S n /\ Forall (entry_ok pb) es /\
       exists rest, view m eb = concat (map WireEntry_bytes es) ++ rest)).
  { exists false, []. by rewrite app_nil_r. }
  destruct (Z.eqb_spec (we_pad1 e) 0) as [Hp1|]; cbn [negb]; [|done].
  destruct (Z.ltb_spec (we_pad0 e) 4) as [Hp0'|]; cbn [negb]; [|done].
  destruct (Z.gtb_spec (we_path_offset e + we_path_len e) pb) as [|Hend]; [done|]. clear Hrej.
  destruct (IH (eb + WireEntry_size) (out ++ [e])) as (ok & es & -> & Hok);
    [unfold WireEntry_size; lia..|].
  exists ok, (e :: es). split; [by rewrite <- app_assoc|]. intros Et.
  destruct (Hok Et) as (L & Fe & rest' & Ev'). split; [by cbn; rewrite L|].
  split. { constructor; [|done]. done. }
  exists rest'. cbn [map concat]. rewrite Ev. unfold WireEntry_bytes at 1. rewrite Ef, <- app_assoc. f_equal.
  rewrite <- Ev', <- (zlen_WireEntry_bytes e). symmetry. apply view_step; [done|].
  rewrite Ev. unfold WireEntry_bytes. by rewrite Ef.
Qed.

Lemma unpack_entries_complete es a c pb out :
  Forall (entry_ok pb) es -> 0 <= pb < 2 ^ 64 ->
  unpack_entries (length es) (a ++ concat (map WireEntry_bytes es) ++ c) (zlen a) pb out = Ok (true, out ++ es).
Proof.
  intros H Hpb. revert a out. induction H as [|e es (F & Hp1 & Hp0 & Hend) _ IH]; intros a out.
  { cbn. by rewrite app_nil_r. }
  cbn [length unpack_entries map concat]. rewrite <- (app_assoc (WireEntry_bytes e)).
  pose proof (read_struct_mid _ a _ (concat (map WireEntry_bytes es) ++ c) F) as Er.
  change (Z.of_nat (sum_list WireEntry_widths)) with WireEntry_size in Er.
  fold (WireEntry_bytes e) in Er. rewrite Er. res_simpl.
  rewrite WireEntry_of_fields. rewrite (proj2 (Z.eqb_eq _ _) Hp1). cbn [negb].
  destruct (entry_ranges e F) as (R1 & R2 & R0).
  rewrite unknown_flags_spec, (proj2 (Z.ltb_lt _ _) Hp0) by lia. cbn [negb].
  rewrite wrap_small by lia. rewrite Z.gtb_ltb, (proj2 (Z.ltb_ge _ _)) by lia.
  specialize (IH (a ++ WireEntry_bytes e) (out ++ [e])). rewrite <- !app_assoc in IH.
  rewrite zlen_app, zlen_WireEntry_bytes in IH. exact IH.
Qed.

Lemma zlen_concat_entries es : zlen (concat (map WireEntry_bytes es)) = 64 * zlen es.
Proof.
  induction es as [|e es IH]; [done|]. cbn [map concat].
  rewrite zlen_app, zlen_WireEntry_bytes, IH, zlen_cons. unfold WireEntry_size. lia.
Qed.

Lemma zlen_scan_bytes v : zlen (scan_bytes v) = 16 + 64 * zlen (entries v) + zlen (paths v).
Proof.
  unfold scan_bytes. rewrite !zlen_app, zlen_concat_entries. unfold WireScanHeader_bytes.
  rewrite zlen_struct_bytes by done. cbn. lia.
Qed.

(** Every well-formed view unpacks from its own bytes. *)
Lemma unpack_scan_bytes v out :
  scan_ok v -> zlen (scan_bytes v) < 2 ^ 64 -> unpack_scan_result (Some (scan_bytes v)) out = Ok (true, v).
Proof.
  intros (He & Hn & Hp) Hl. unfold unpack_scan_result.
  rewrite zlen_scan_bytes in *. pose proof (zlen_nonneg (entries v)). pose proof (zlen_nonneg (paths v)).
  unfold WireScanHeader_size in *. rewrite (proj2 (Z.ltb_ge _ _)) by lia.
  assert (F : Forall2 fits WireScanHeader_widths [zlen (entries v); 0; zlen (paths v)]).
  { repeat constructor; change (256 ^ Z.of_nat 4) with (2 ^ 32); change (256 ^ Z.of_nat 8) with (2 ^ 64); lia. }
  pose proof (read_struct_mid _ [] _ (concat (map WireEntry_bytes (entries v)) ++ paths v) F) as Er.
  change (read_struct WireScanHeader_widths 16 (scan_bytes v) 0 = Ok [zlen (entries v); 0; zlen (paths v)]) in Er.
  rewrite Er. res_simpl. cbn [WireScanHeader_of nth sh_entry_count sh_reserved sh_paths_bytes].
  change (negb (0 =? 0)) with false. unfold WireEntry_size. cbv iota.
  rewrite (wrap_small 64 (zlen (entries v) * 64)) by lia.
  rewrite size_sub_small by lia. rewrite Z.gtb_ltb, (proj2 (Z.ltb_ge _ _)) by lia.
  rewrite !wrap_small by (rewrite ?wrap_small; lia). rewrite (proj2 (Z.eqb_eq _ _)) by lia. cbn [negb].
  set (hb := WireScanHeader_bytes {| sh_entry_count := zlen (entries v); sh_reserved := 0; sh_paths_bytes := zlen (paths v) |}).
  assert (Lh : zlen hb = 16) by done.
  pose proof (unpack_entries_complete (entries v) hb (paths v) (zlen (paths v)) [] He ltac:(lia)) as Eu.
  rewrite Lh in Eu. change (hb ++ concat (map WireEntry_bytes (entries v)) ++ paths v) with (scan_bytes v) in Eu.
  replace (Z.to_nat (zlen (entries v))) with (length (entries v)) by (unfold zlen; lia).
  rewrite Eu. res_simpl. cbn [negb].
  assert (Ep : slice (scan_bytes v) (16 + zlen (entries v) * 64) (zlen (paths v)) = Ok (paths v)).
  { pose proof (slice_app_mid (hb ++ concat (map WireEntry_bytes (entries v))) (paths v) []) as E.
    rewrite app_nil_r, <- app_assoc, zlen_app, Lh, zlen_concat_entries in E.
    rewrite (Z.mul_comm (zlen (entries v))). exact E. }
  rewrite Ep. res_simpl. by destruct v.
Qed.

(** What unpacks is a well-formed view's bytes, and nothing else. *)
Lemma unpack_scan_inv payload out :
  bytes payload -> zlen payload < 2 ^ 64 ->
  exists ok v, unpack_scan_result (Some payload) out = Ok (ok, v) /\
    (ok = true -> scan_ok v /\ payload = scan_bytes v).
Proof.
  intros Hb Hl. unfold unpack_scan_result, WireScanHeader_size, WireEntry_size.
  assert (Hrej : exists (ok : bool) (v : ScanView), Ok (false, out) = Ok (ok, v) /\ (ok = true -> scan_ok v /\ payload = scan_bytes v))
    by (by exists false, out).
  destruct (Z.ltb_spec (zlen payload) 16) as [|H16]; [done|].
  destruct (read_struct_inv WireScanHeader_widths payload 0 Hb) as (vs & rest & Er & Ev & F); [done|cbn; lia|].
  change (Z.of_nat (sum_list WireScanHeader_widths)) with 16 in Er. rewrite Er. res_simpl. clear Er.
  unfold WireScanHeader_widths in F.
  pose proof (Forall2_length F) as Lvs. destruct vs as [|n [|r [|pb [|]]]]; try discriminate Lvs.
  apply Forall2_cons_1 in F as [Fn F]. apply Forall2_cons_1 in F as [Fr F]. apply Forall2_cons_1 in F as [Fp _].
  unfold fits in Fn, Fr, Fp. change (256 ^ Z.of_nat 4) with (2 ^ 32) in *. change (256 ^ Z.of_nat 8) with (2 ^ 64) in *.
  cbn [WireScanHeader_of nth sh_entry_count sh_reserved sh_paths_bytes].
  destruct (Z.eqb_spec r 0) as [->|]; cbn [negb]; [|done].
  rewrite (wrap_small 64 (n * 64)), size_sub_small by lia.
  destruct (Z.gtb_spec (n * 64) (zlen payload - 16)) as [|Hn]; [done|].
  rewrite (wrap_small 64 (16 + n * 64)) by lia.
  destruct (Z.eqb_spec (u64 (16 + n * 64 + pb)) (zlen payload)) as [Et|]; cbn [negb]; [|done]. clear Hrej.
  (* the 64-bit sum cannot have wrapped onto the length *)
  assert (Epb : pb = zlen payload - 16 - n * 64) by (unfold wrap in Et; Z.div_mod_to_equations; lia).
  set (hb := WireScanHeader_bytes {| sh_entry_count := n; sh_reserved := 0; sh_paths_bytes := pb |}).
  change (view payload 0 = hb ++ rest) in Ev. rewrite view_0 in Ev.
  assert (Lh : zlen hb = 16) by done.
  destruct (unpack_entries_spec (Z.to_nat n) payload 16 pb [] Hb) as (ok & es & -> & Hok); [lia..|].
  res_simpl. cbn [app]. destruct ok; cbn [negb]; [|by exists false, {| entries := es; paths := [] |}].
  destruct (Hok eq_refl) as (Hes & Fe & rest' & Ev').
  assert (Er : rest = concat (map WireEntry_bytes es) ++ rest').
  { rewrite <- Ev', Ev. symmetry. by apply view_app. }
  assert (Hze : zlen es = n) by (unfold zlen; lia).
  assert (Lr : zlen rest' = pb).
  { assert (L := f_equal zlen Ev). rewrite Er, !zlen_app, Lh, zlen_concat_entries in L. lia. }
  assert (Ep : slice payload (16 + n * 64) pb = Ok rest').
  { pose proof (slice_app_mid (hb ++ concat (map WireEntry_bytes es)) rest' []) as E.
    rewrite app_nil_r, <- app_assoc, zlen_app, Lh, zlen_concat_entries, Lr, Hze in E.
    rewrite Ev, Er, (Z.mul_comm n). exact E. }
  rewrite Ep. res_simpl. exists true, {| entries := es; paths := rest' |}. split; [done|]. intros _.
  split.
  - unfold scan_ok. cbn [entries paths]. rewrite Lr, Hze. split; [done|]. split; [lia|].
    rewrite Ev, Er in Hb. by apply Forall_app in Hb as [_ [_ Hb]%Forall_app].
  - unfold scan_bytes. cbn [entries paths]. rewrite Lr, Hze. fold hb. by rewrite Ev, Er.
Qed.

(** ** Injectivity *)

Lemma struct_bytes_inj ws vs vs' r r' :
  Forall2 fits ws vs -> Forall2 fits ws vs' ->
  struct_bytes ws vs ++ r = struct_bytes ws vs' ++ r' -> vs = vs' /\ r = r'.
Proof.
  intros F F' E.
  assert (Ev : vs = vs').
  { rewrite <- (struct_vals_struct_bytes ws vs r F), E. by apply struct_vals_struct_bytes. }
  split; [done|]. rewrite Ev in E. by apply app_inv_head in E.
Qed.

Lemma entries_bytes_inj es es' r r' :
  Forall (fun e => Forall2 fits WireEntry_widths (WireEntry_fields e)) es ->
  Forall (fun e => Forall2 fits WireEntry_widths (WireEntry_fields e)) es' ->
  length es = length es' ->
  concat (map WireEntry_bytes es) ++ r = concat (map WireEntry_bytes es') ++ r' -> es = es' /\ r = r'.
Proof.
  intros H. revert es'. induction H as [|e es He _ IH]; intros [|e' es'] H' L E; try done.
  apply Forall_cons_inv in H' as [He' H']. cbn [map concat] in E. rewrite <- !app_assoc in E.
  destruct (struct_bytes_inj WireEntry_widths _ _ _ _ He He' E) as [Ee Er].
  destruct (IH es' H' ltac:(by injection L) Er) as [-> ->].
  by rewrite <- (WireEntry_of_fields e), Ee, WireEntry_of_fields.
Qed.

Lemma header_fits n pb : 0 <= n < 2 ^ 32 -> 0 <= pb < 2 ^ 64 -> Forall2 fits WireScanHeader_widths [n; 0; pb].
Proof.
  intros Hn Hp. repeat constructor; change (256 ^ Z.of_nat 4) with (2 ^ 32);
    change (256 ^ Z.of_nat 8) with (2 ^ 64); lia.
Qed.

Lemma entry_ok_fits pb es :
  Forall (entry_ok pb) es -> Forall (fun e => Forall2 fits WireEntry_widths (WireEntry_fields e)) es.
Proof. apply List.Forall_impl. by intros e []. Qed.

(** [total_paths] has not wrapped when it passed the guard of a frame. *)
Lemma total_paths_range es : 0 <= total_paths es < 2 ^ 64.
Proof.
  unfold total_paths. assert (G : forall z, 0 <= z < 2 ^ 64 ->
    0 <= fold_left (fun t e => u64 (t + we_path_len e)) es z < 2 ^ 64); [|by apply G].
  induction es as [|e es IH]; intros z Hz; [done|]. cbn [fold_left]. apply IH, (wrap_range 64). lia.
Qed.

Lemma read_struct_whole ws m :
  bytes m -> zlen m = Z.of_nat (sum_list ws) ->
  exists vs, read_struct ws (Z.of_nat (sum_list ws)) m 0 = Ok vs /\ m = struct_bytes ws vs /\ Forall2 fits ws vs.
Proof.
  intros Hb Hl. destruct (read_struct_inv ws m 0 Hb) as (vs & rest & Er & Ev & F); [lia..|].
  exists vs. split; [done|]. split; [|done]. rewrite view_0 in Ev.
  assert (L := f_equal zlen Ev). rewrite zlen_app, Hl, zlen_struct_bytes in L by (apply (Forall2_length F)).
  rewrite (zlen_zero_nil rest), app_nil_r in Ev by lia. done.
Qed.

Lemma read_struct_pack ws vs :
  Forall2 fits ws vs -> read_struct ws (Z.of_nat (sum_list ws)) (struct_bytes ws vs) 0 = Ok vs.
Proof. intros F. pose proof (read_struct_mid ws [] vs [] F) as E. by rewrite app_nil_r in E. Qed.

Lemma s32_u32 z : - 2 ^ 31 <= z < 2 ^ 31 -> s32 (u32 z) = z.
Proof. intros H. unfold s32, wrap. destruct (Z.ltb_spec (z mod 2 ^ 32) (2 ^ 31)); Z.div_mod_to_equations; lia. Qed.

Lemma u32_s32 z : 0 <= z < 2 ^ 32 -> u32 (s32 z) = z.
Proof. intros H. unfold s32, wrap. destruct (Z.ltb_spec z (2 ^ 31)); Z.div_mod_to_equations; lia. Qed.

Lemma s32_range z : 0 <= z < 2 ^ 32 -> - 2 ^ 31 <= s32 z < 2 ^ 31.
Proof. intros H. unfold s32. destruct (Z.ltb_spec z (2 ^ 31)); lia. Qed.

Lemma fits4 z : fits 4 z <-> 0 <= z < 2 ^ 32.
Proof. done. Qed.

Lemma fits8 z : fits 8 z <-> 0 <= z < 2 ^ 64.
Proof. done. Qed.

(** Split [Forall2 fits] over explicit lists. *)
Ltac fits_inv F :=
  repeat match type of F with
  | Forall2 _ (_ :: _) ?l =>
      let v := fresh "v" in let vs := fresh "vs" in
      destruct l as [|v vs]; [by inversion F|];
      let H := fresh "Hf" in apply Forall2_cons_1 in F as [H F]
  end.

Lemma Forall2_nil_r_inv {A B} (P : A -> B -> Prop) l : Forall2 P [] l -> l = [].
Proof. by inversion 1. Qed.

Ltac fits_intro := repeat constructor; rewrite ?fits4, ?fits8; try lia; try apply (wrap_range 32); try lia.

Lemma extract_req_exact payload i :
  bytes payload ->
  unpack_extract_req (Some payload) = Ok (Some i) <-> 0 <= i < 2 ^ 32 /\ payload = pack_extract_req i.
Proof.
  intros Hb. unfold unpack_extract_req, pack_extract_req. split.
  - destruct (Z.eqb_spec (zlen payload) WireExtractReq_size) as [Hl|]; cbn [negb]; [|done].
    destruct (read_struct_whole WireExtractReq_widths payload Hb Hl) as (vs & Er & -> & F).
    change (Z.of_nat (sum_list WireExtractReq_widths)) with WireExtractReq_size in Er.
    rewrite Er. res_simpl. unfold WireExtractReq_widths in F. fits_inv F. apply Forall2_nil_r_inv in F as ->.
    cbn [nth]. destruct (Z.eqb_spec v0 0) as [->|]; cbn [negb]; [|done]. intros [= ->]. by split.
  - intros (Hi & ->). rewrite zlen_struct_bytes by done. change (negb (Z.of_nat (sum_list WireExtractReq_widths) =? WireExtractReq_size)) with false.
    cbv iota. change WireExtractReq_size with (Z.of_nat (sum_list WireExtractReq_widths)).
    rewrite read_struct_pack by fits_intro. done.
Qed.

Lemma entry_result_exact payload out r :
  bytes payload ->
  unpack_entry_result (Some payload) out = Ok (true, r) <->
    0 <= er_entry_index r < 2 ^ 32 /\ - 2 ^ 31 <= er_rc r < 2 ^ 31 /\ 0 <= er_bytes_emitted r < 2 ^ 64 /\
    er_reserved r = 0 /\ er_pad r = 0 /\
    payload = pack_entry_result (er_entry_index r) (er_rc r) (er_bytes_emitted r).
Proof.
  intros Hb. unfold unpack_entry_result, pack_entry_result. split.
  - destruct (Z.eqb_spec (zlen payload) WireEntryResult_size) as [Hl|]; cbn [negb]; [|done].
    destruct (read_struct_whole WireEntryResult_widths payload Hb Hl) as (vs & Er & -> & F).
    change (Z.of_nat (sum_list WireEntryResult_widths)) with WireEntryResult_size in Er.
    rewrite Er. res_simpl. unfold WireEntryResult_widths in F. fits_inv F. apply Forall2_nil_r_inv in F as ->.
    cbn [nth er_reserved er_pad]. intros [= [->%Z.eqb_eq ->%Z.eqb_eq]%andb_true_iff <-].
    cbn [er_entry_index er_rc er_bytes_emitted er_reserved er_pad]. rewrite fits4, fits8 in *.
    split; [done|]. split; [by apply s32_range|]. rewrite u32_s32 by done. done.
  - intros (Hi & Hr & Hby & H0 & H1 & ->). rewrite zlen_struct_bytes by done.
    change (negb (Z.of_nat (sum_list WireEntryResult_widths) =? WireEntryResult_size)) with false.
    cbv iota. change WireEntryResult_size with (Z.of_nat (sum_list WireEntryResult_widths)).
    rewrite read_struct_pack by fits_intro. res_simpl. cbn [nth er_reserved er_pad].
    rewrite s32_u32 by done. destruct r; cbn in *. by subst.
Qed.

Lemma error_exact payload rc detail :
  bytes payload -> zlen payload < 2 ^ 64 ->
  unpack_error (Some payload) = Ok (Some (rc, detail)) <->
    - 2 ^ 31 <= rc < 2 ^ 31 /\ payload = (pack_error rc detail).2.
Proof.
  intros Hb Hl64. unfold unpack_error, pack_error. cbn [snd].
  assert (Hd : forall hd, zlen hd = 4 -> forall d, zlen (hd ++ d) < 2 ^ 64 ->
    slice (hd ++ d) WireError_size (zlen (hd ++ d) -s WireError_size) = Ok d).
  { intros hd Hh d Hl. unfold WireError_size. pose proof (slice_app_mid hd d []) as E.
    rewrite app_nil_r, Hh in E. rewrite zlen_app in *. pose proof (zlen_nonneg d).
    rewrite size_sub_small by lia. by replace (zlen hd + zlen d - 4) with (zlen d) by lia. }
  split.
  - destruct (Z.ltb_spec (zlen payload) WireError_size) as [|Hl]; [done|].
    destruct (read_struct_inv WireError_widths payload 0 Hb) as (vs & rest & Er & Ev & F); [done|exact Hl|].
    change (Z.of_nat (sum_list WireError_widths)) with WireError_size in Er. rewrite Er. res_simpl. clear Er.
    rewrite view_0 in Ev. unfold WireError_widths in F. fits_inv F. apply Forall2_nil_r_inv in F as ->.
    subst payload. rewrite Hd by done. res_simpl. cbn [nth]. intros [= <- <-]. rewrite fits4 in Hf.
    split; [by apply s32_range|]. by rewrite u32_s32.
  - intros (Hrc & ->). rewrite Hd by done. rewrite zlen_app.
    rewrite (proj2 (Z.ltb_ge _ _)) by (change WireError_size with (zlen (struct_bytes WireError_widths [u32 rc])); pose proof (zlen_nonneg detail); lia).
    pose proof (read_struct_mid WireError_widths [] [u32 rc] detail ltac:(fits_intro)) as Er.
    change (read_struct WireError_widths WireError_size (struct_bytes WireError_widths [u32 rc] ++ detail) 0 = Ok [u32 rc]) in Er.
    rewrite Er. res_simpl. cbn [nth]. by rewrite s32_u32.
Qed.

Lemma selftest_exact payload out st :
  bytes payload ->
  unpack_selftest (Some payload) out = Ok (true, st) <->
    Forall2 fits WireSelftest_widths st /\ nth 6 st 0 = 0 /\ nth 7 st 0 = 0 /\ payload = pack_selftest st.
Proof.
  intros Hb. unfold unpack_selftest, pack_selftest. split.
  - destruct (Z.eqb_spec (zlen payload) WireSelftest_size) as [Hl|]; cbn [negb]; [|done].
    destruct (read_struct_whole WireSelftest_widths payload Hb Hl) as (vs & Er & -> & F).
    change (Z.of_nat (sum_list WireSelftest_widths)) with WireSelftest_size in Er.
    rewrite Er. res_simpl. intros [= [H6%Z.eqb_eq H7%Z.eqb_eq]%andb_true_iff <-]. done.
  - intros (F & H6 & H7 & ->). rewrite zlen_struct_bytes by apply (Forall2_length F).
    change (negb (Z.of_nat (sum_list WireSelftest_widths) =? WireSelftest_size)) with false.
    cbv iota. change WireSelftest_size with (Z.of_nat (sum_list WireSelftest_widths)).
    rewrite read_struct_pack by done. res_simpl. by rewrite H6, H7.
Qed.

(** ** Properties *)

(** C20. The broker's parser of a scan result is exact on hostile bytes: it
    reads nothing outside the payload and terminates, and it accepts a payload
    just when it is the header, the entries and the path blob of a
    well-formed view (reserved words zero, known flags only, every path inside
    the blob), sizes matching exactly although they are summed in 64 bits;
    the view it stores is that view. *)
Theorem unpack_scan_result_exact (payload : list Z) (out : ScanView) :
  bytes payload -> zlen payload < 2 ^ 64 ->
  exists ok v, unpack_scan_result (Some payload) out = Ok (ok, v) /\
    (ok = true <-> exists v', scan_ok v' /\ payload = scan_bytes v') /\
    (ok = true -> scan_ok v /\ payload = scan_bytes v).
Proof.
  intros Hb Hl. destruct (unpack_scan_inv payload out Hb Hl) as (ok & v & E & H).
  exists ok, v. split; [done|]. split; [|done]. split.
  - intros Ht. exists v. by apply H.
  - intros (v' & Hok & ->). rewrite unpack_scan_bytes in E by done. by injection E as <- _.
Qed.

Definition sample_entry : WireEntry :=
  {| we_path_offset := 0; we_path_len := 3; we_is_dir := 0; we_method := 3; we_is_encrypted := 0;
     we_crc32 := 0xDEADBEEF; we_size := 2 ^ 40; we_packed_size := 77; we_mtime := 1700000000;
     we_pad0 := 2; we_pad1 := 0 |}.

Definition sample_view : ScanView := {| entries := [sample_entry]; paths := [97; 47; 98] |}.

Lemma unpack_scan_result_exact_witness :
  exists ok v, unpack_scan_result (Some (scan_bytes sample_view)) {| entries := []; paths := [] |} = Ok (ok, v) /\
    ok = true /\ v = sample_view.
Proof.
  destruct (unpack_scan_result_exact (scan_bytes sample_view) {| entries := []; paths := [] |})
    as (ok & v & E & _ & _).
  - bytes_const.
  - vm_compute. reflexivity.
  - exists ok, v. split; [exact E|]. vm_compute in E. injection E as <- <-. split; reflexivity.
Defined.

(** Round trip of a scan result, with the precondition the worker must
    meet: of the payloads [pack_scan_result] produces, the broker accepts
    exactly those whose path lengths sum to the blob and whose entries are
    well formed, and then recovers the view unchanged; the rest are refused,
    never misread. *)
Theorem scan_result_roundtrip (v : ScanView) (old payload : list Z) (out : ScanView) :
  Forall (fun e => Forall2 fits WireEntry_widths (WireEntry_fields e)) (entries v) -> bytes (paths v) ->
  pack_scan_result v old = (true, payload) ->
  zlen payload <= MAX_FRAME_PAYLOAD /\
  exists ok v', unpack_scan_result (Some payload) out = Ok (ok, v') /\
    (ok = true <-> total_paths (entries v) = zlen (paths v) /\ Forall (entry_ok (zlen (paths v))) (entries v)) /\
    (ok = true -> v' = v).
Proof.
  intros Hf Hp. unfold pack_scan_result.
  destruct (Z.gtb_spec (total_paths (entries v)) 0xFFFFFFFF); [done|].
  destruct (Z.gtb_spec (zlen (entries v)) 0xFFFFFFFF) as [|Hn]; [done|].
  pose proof (zlen_nonneg (entries v)). rewrite wrap_small by lia.
  set (hb := WireScanHeader_bytes _).
  set (p := hb ++ concat (map WireEntry_bytes (entries v)) ++ paths v). intros E0.
  assert (Hmax := f_equal fst E0). assert (Epl := f_equal snd E0). cbn [fst snd] in Hmax, Epl.
  apply Z.leb_le in Hmax. clear E0. rewrite <- Epl in *. clear Epl payload. rename p into payload.
  split; [done|]. unfold MAX_FRAME_PAYLOAD in Hmax.
  assert (Hb : bytes payload).
  { apply Forall_app_2; [apply struct_bytes_bytes|]. apply Forall_app_2; [|done].
    apply Forall_concat. rewrite Forall_map. apply Forall_true. intros e. apply struct_bytes_bytes. }
  destruct (unpack_scan_inv payload out Hb) as (ok & v' & E & H'); [lia|].
  exists ok, v'. split; [done|].
  assert (Himp : ok = true -> total_paths (entries v) = zlen (paths v) /\ v' = v).
  { intros Ht. destruct (H' Ht) as ((Hf' & Hn' & _) & Ep). clear H'.
    assert (Lp : zlen payload = 16 + 64 * zlen (entries v) + zlen (paths v)).
    { subst payload. rewrite !zlen_app, zlen_concat_entries. change (zlen hb) with 16. lia. }
    rewrite Ep in Lp. rewrite zlen_scan_bytes in Lp.
    unfold payload, hb, scan_bytes, WireScanHeader_bytes in Ep. cbn [sh_entry_count sh_reserved sh_paths_bytes] in Ep.
    pose proof (total_paths_range (entries v)). pose proof (zlen_nonneg (entries v')).
    pose proof (zlen_nonneg (paths v')). pose proof (zlen_nonneg (paths v)).
    assert (zlen payload = 16 + 64 * zlen (entries v') + zlen (paths v')).
    { unfold payload. rewrite !zlen_app, zlen_concat_entries. change (zlen hb) with 16. lia. }
    apply struct_bytes_inj in Ep as [[= En Et] Er]; [|by apply header_fits; lia..].
    apply entries_bytes_inj in Er as [Ees Eps]; [|done|by eapply entry_ok_fits|unfold zlen in En; lia].
    split; [rewrite Et, Eps; done|]. destruct v, v'; cbn in *. by subst. }
  split; [|by intros Ht; apply Himp]. split.
  - intros Ht. destruct (Himp Ht) as [Et ->]. split; [done|]. by destruct (H' Ht) as ((? & _) & _).
  - intros [Et He]. assert (Es : payload = scan_bytes v) by (unfold payload, hb, scan_bytes; by rewrite Et).
    rewrite Es, unpack_scan_bytes in E; [by injection E as <- _| |rewrite <- Es; lia]. split; [done|]. split; [lia|done].
Qed.

Lemma scan_result_roundtrip_witness :
  exists payload, pack_scan_result sample_view [] = (true, payload) /\
    unpack_scan_result (Some payload) {| entries := []; paths := [] |} = Ok (true, sample_view).
Proof.
  exists (pack_scan_result sample_view []).2.
  assert (E : pack_scan_result sample_view [] = (true, (pack_scan_result sample_view []).2))
    by (vm_compute; reflexivity).
  split; [exact E|].
  destruct (scan_result_roundtrip sample_view [] (pack_scan_result sample_view []).2
    {| entries := []; paths := [] |}) as (_ & ok & v' & Eu & Hok & Hv).
  - repeat constructor; vm_compute; discriminate.
  - bytes_const.
  - exact E.
  - rewrite Eu. assert (ok = true) as ->.
    { apply Hok. split; [reflexivity|]. repeat constructor; vm_compute; discriminate. }
    rewrite Hv; reflexivity.
Defined.

(** The fixed-size messages: each unpacker accepts exactly the bytes its
    packer writes (extraction request, entry result with a signed status,
    error with its detail, self-test), so every field survives and a reserved
    word that is not zero, a short or an over-long payload is refused. *)
Theorem worker_messages_exact (payload : list Z) :
  bytes payload -> zlen payload < 2 ^ 64 ->
  (forall i, unpack_extract_req (Some payload) = Ok (Some i) <-> 0 <= i < 2 ^ 32 /\ payload = pack_extract_req i) /\
  (forall out r, unpack_entry_result (Some payload) out = Ok (true, r) <->
     0 <= er_entry_index r < 2 ^ 32 /\ - 2 ^ 31 <= er_rc r < 2 ^ 31 /\ 0 <= er_bytes_emitted r < 2 ^ 64 /\
     er_reserved r = 0 /\ er_pad r = 0 /\
     payload = pack_entry_result (er_entry_index r) (er_rc r) (er_bytes_emitted r)) /\
  (forall rc detail, unpack_error (Some payload) = Ok (Some (rc, detail)) <->
     - 2 ^ 31 <= rc < 2 ^ 31 /\ payload = (pack_error rc detail).2) /\
  (forall out st, unpack_selftest (Some payload) out = Ok (true, st) <->
     Forall2 fits WireSelftest_widths st /\ nth 6 st 0 = 0 /\ nth 7 st 0 = 0 /\ payload = pack_selftest st).
Proof.
  intros Hb Hl. split; [intros; by apply extract_req_exact|]. split; [intros; by apply entry_result_exact|].
  split; [intros; by apply error_exact|intros; by apply selftest_exact].
Qed.

Lemma worker_messages_exact_witness :
  unpack_error (Some [254; 255; 255; 255; 104; 105]) = Ok (Some (-2, [104; 105])).
Proof.
  apply (worker_messages_exact [254; 255; 255; 255; 104; 105]).
  - bytes_const.
  - vm_compute. reflexivity.
  - split; [lia|]. vm_compute. reflexivity.
Defined.
