(* ===== verification/CompressPlan.v ===== *)
(** Dictionary windows and the compression plan of a batch:
    [src/compress/compress_plan.hpp].

    The doubling loops carry fuel; 64 passes exhaust every value of a 64-bit
    word.  The containers are unbounded; allocation failure is not modelled. *)

From stdpp Require Import base tactics list numbers.
From Stdlib Require Import ZArith Lia.
From S2P Require Import Prelude Headers HeaderReader HeaderWriter HeaderRoundtrip.

Local Open Scope Z_scope.

(** ** Windows *)

Definition default_dict_size_for_method (m : Z) : Z :=
  if m =? 0 then 0x20000 else if m =? 1 then 0x80000 else if m =? 2 then 0x100000
  else if m =? 3 then 0x800000 else if m =? 4 then 0x1000000 else if m =? 5 then 0x4000000
  else 0x800000.

Definition DICT_SIZE_AUTO : Z := 2 ^ 64 - 1.

(** [while (2 * pow2 <= win && bits < 23)], [left = 23 - bits]. *)
Fixpoint snap_loop (left : nat) (win pow2 bits : Z) : Z * Z :=
  match left with
  | O => (pow2, bits)
  | S left' =>
      if u64 (2 * pow2) <=? win then snap_loop left' win (u64 (pow2 * 2)) (bits + 1) else (pow2, bits)
  end.

Definition snap_window_to_fci_grid (win : Z) : Z :=
  if win <? 0x20000 then win
  else
    let '(pow2, bits) := snap_loop 23 win 0x20000 0 in
    if win <=? pow2 then pow2
    else if bits =? 23 then u64 (pow2 + u64 (pow2 / 32 * 31))
    else
      let fraction := u64 ((win - pow2) * 32) / pow2 in
      u64 (pow2 + u64 (pow2 / 32 * fraction)).

Definition auto_dict_ceiling_for_method (m : Z) : Z :=
  if m =? 0 then 0x20000 else if m =? 1 then 0x80000 else if m =? 2 then 0x200000
  else if m =? 3 then 0x4000000 else if m =? 4 then 0x4000000 else if m =? 5 then 0x10000000
  else 0x4000000.

(** [while (w < input_size && w < limit) w <<= 1;] *)
Fixpoint grow (fuel : nat) (w input limit : Z) : res Z :=
  match fuel with
  | O => Fuel
  | S fuel' =>
      if (w <? input) && (w <? limit) then grow fuel' (u64 (Z.shiftl w 1)) input limit else Ok w
  end.

Definition resolve_auto_dict (method input_size : Z) : res Z :=
  let def := default_dict_size_for_method method in
  if input_size =? 0 then Ok def
  else if input_size <? def then
    w ← grow 64 0x20000 input_size def;
    mret (snap_window_to_fci_grid w)
  else
    w ← grow 64 def input_size (auto_dict_ceiling_for_method method);
    mret (snap_window_to_fci_grid w).

Definition resolve_dict_window_size (dict_size method input_size : Z) : res Z :=
  if dict_size =? DICT_SIZE_AUTO then resolve_auto_dict method input_size
  else if (dict_size >=? 1) && (dict_size <=? 15) then Ok (u64 (Z.shiftl 0x20000 (dict_size - 1)))
  else if dict_size =? 0 then
    if input_size >? 0 then grow 64 0x20000 input_size (default_dict_size_for_method method)
    else Ok (default_dict_size_for_method method)
  else Ok dict_size.

Definition lz_window_for_input (fuel : nat) (declared input_bytes : Z) : res Z :=
  if (declared <=? 0x20000) || (input_bytes =? 0) then Ok declared
  else
    w ← grow fuel 0x20000 input_bytes declared;
    mret (if w <? declared then w else declared).

(** ** Plans *)

Inductive EntryDecision := Stored | BlockStream | WholeMember.

Record EntryPlan := {
  ep_decision : EntryDecision;
  ep_dict_size : Z;
  ep_method : Z;
  ep_is_solid_chain : bool;
  ep_is_dir : bool;
  ep_is_filecopy_ref : bool;
  ep_raw_size : Z;
  ep_workspace : Z
}.

Record CompressPlan := {
  cp_dict_size : Z;
  cp_method : Z;
  cp_solid : bool;
  cp_continue_solid_stream : bool;
  cp_seen_compressed_entry : bool;
  cp_entries : list EntryPlan
}.

(** The decision, the window and the chain bit; the other fields are copied. *)
Definition ep_decide (ep : EntryPlan) (d : EntryDecision) (dict : Z) (chain : bool) : EntryPlan :=
  {| ep_decision := d; ep_dict_size := dict; ep_method := ep_method ep; ep_is_solid_chain := chain;
     ep_is_dir := ep_is_dir ep; ep_is_filecopy_ref := ep_is_filecopy_ref ep;
     ep_raw_size := ep_raw_size ep; ep_workspace := ep_workspace ep |}.

Definition ep_set_workspace (ep : EntryPlan) (ws : Z) : EntryPlan :=
  {| ep_decision := ep_decision ep; ep_dict_size := ep_dict_size ep; ep_method := ep_method ep;
     ep_is_solid_chain := ep_is_solid_chain ep; ep_is_dir := ep_is_dir ep;
     ep_is_filecopy_ref := ep_is_filecopy_ref ep; ep_raw_size := ep_raw_size ep; ep_workspace := ws |}.

Definition MAX_ALLOWED_DICT : Z := 64 * 1024 * 1024 * 1024.

Definition workspace (ep : EntryPlan) : Z :=
  let ws :=
    match ep_decision ep with
    | BlockStream =>
        let clamped_dict := Z.min (ep_dict_size ep) MAX_ALLOWED_DICT in
        u64 (u64 (clamped_dict * 5) + 6 * 1024 * 1024)
    | _ => Z.min (ep_raw_size ep) (16 * 1024 * 1024)
    end in
  if ws =? 0 then 1 else ws.

(** The three-way decision and [seen_compressed_entry] afterwards. *)
Definition decide_entry (cp : CompressPlan) (ep : EntryPlan) : res (EntryPlan * bool) :=
  let chain := (cp_solid cp || cp_continue_solid_stream cp) && cp_seen_compressed_entry cp in
  if ep_is_filecopy_ref ep then Ok (ep_decide ep Stored 0 chain, cp_seen_compressed_entry cp)
  else if ep_is_dir ep || (ep_method ep =? 0) then
    Ok (ep_decide ep Stored 0 false, cp_seen_compressed_entry cp)
  else
    dict ← (if ep_dict_size ep =? 0
            then resolve_dict_window_size
                   (if negb (cp_dict_size cp =? 0) then cp_dict_size cp
                    else default_dict_size_for_method (ep_method ep)) (ep_method ep) (ep_raw_size ep)
            else Ok (ep_dict_size ep));
    Ok (ep_decide ep BlockStream dict chain, true).

Definition plan_next_entry (cp : CompressPlan) (req : EntryPlan) : res (CompressPlan * EntryPlan) :=
  '(ep, seen) ← decide_entry cp req;
  let ep := ep_set_workspace ep (workspace ep) in
  Ok ({| cp_dict_size := cp_dict_size cp; cp_method := cp_method cp; cp_solid := cp_solid cp;
         cp_continue_solid_stream := cp_continue_solid_stream cp; cp_seen_compressed_entry := seen;
         cp_entries := cp_entries cp ++ [ep] |}, ep).

Fixpoint plan_loop (cp : CompressPlan) (requests : list EntryPlan) : res CompressPlan :=
  match requests with
  | [] => Ok cp
  | req :: rest => '(cp, _) ← plan_next_entry cp req; plan_loop cp rest
  end.

Definition plan_entries (requests : list EntryPlan) (solid_mode : bool) (default_method default_dict_size : Z)
    (continue_solid_stream : bool) : res CompressPlan :=
  plan_loop {| cp_dict_size := default_dict_size; cp_method := default_method; cp_solid := solid_mode;
               cp_continue_solid_stream := continue_solid_stream;
               cp_seen_compressed_entry := continue_solid_stream; cp_entries := [] |} requests.

Record ExecutionPlan := { xp_entries : list EntryPlan; xp_total : Z; xp_peak : Z }.

Definition from_compress_plan (cp : CompressPlan) : ExecutionPlan :=
  let '(total, peak) :=
    fold_left (fun '(total, peak) e =>
      (u64 (total + ep_workspace e), if ep_workspace e >? peak then ep_workspace e else peak))
      (cp_entries cp) (0, 0) in
  {| xp_entries := cp_entries cp; xp_total := total; xp_peak := peak |}.

(** ** The grid *)

Lemma pow17_32 d : 0 <= d -> 2 ^ (17 + d) = 32 * 2 ^ (12 + d).
Proof. intros H. replace (17 + d) with (5 + (12 + d)) by lia. by rewrite (Z.pow_add_r 2 5) by lia. Qed.

Lemma snap_loop_dict left win pow2 bits :
  0 <= pow2 -> pow2 * 2 ^ Z.of_nat left < 2 ^ 63 -> snap_loop left win pow2 bits = dict_loop left win pow2 bits.
Proof.
  revert pow2 bits. induction left as [|left IH]; intros pow2 bits H0 Hl; [done|].
  cbn [snap_loop dict_loop]. rewrite Nat2Z.inj_succ, Z.pow_succ_r in Hl by lia.
  assert (0 < 2 ^ Z.of_nat left) by (apply Z.pow_pos_nonneg; lia).
  rewrite !wrap_small by nia. rewrite (Z.mul_comm pow2 2).
  destruct (_ <=? win); [apply IH; nia|done].
Qed.

Lemma pow2_interval d d' x :
  0 <= d -> 0 <= d' -> 2 ^ (17 + d) <= x < 2 * 2 ^ (17 + d) -> 2 ^ (17 + d') <= x < 2 * 2 ^ (17 + d') -> d' = d.
Proof.
  intros Hd Hd' H H'. destruct (Z.lt_trichotomy d' d) as [Hlt|[?|Hgt]]; [exfalso|done|exfalso].
  - assert (2 * 2 ^ (17 + d') <= 2 ^ (17 + d)) by (rewrite <- Z.pow_succ_r by lia; apply Z.pow_le_mono_r; lia). lia.
  - assert (2 * 2 ^ (17 + d) <= 2 ^ (17 + d')) by (rewrite <- Z.pow_succ_r by lia; apply Z.pow_le_mono_r; lia). lia.
Qed.

(** Where a window lands: its power of two and the whole 1/32 steps above. *)
Lemma snap_spec win :
  2 ^ 17 <= win <= 2 ^ 40 ->
  exists d k, 0 <= d <= 23 /\ 0 <= k <= 31 /\ (d = 23 -> k = 0) /\
    snap_window_to_fci_grid win = 2 ^ (17 + d) + 2 ^ (12 + d) * k /\
    2 ^ (17 + d) <= win < 2 * 2 ^ (17 + d) /\ k = (win - 2 ^ (17 + d)) * 32 / 2 ^ (17 + d) /\
    dict_loop 23 win 0x20000 0 = (2 ^ (17 + d), d).
Proof.
  intros Hw. destruct (dict_loop_spec 23 win 0 ltac:(lia) ltac:(lia)) as (d & E & Hd & Hlow & Hhigh).
  change (2 ^ (17 + 0)) with 0x20000 in E.
  unfold snap_window_to_fci_grid. rewrite (proj2 (Z.ltb_ge _ _)) by lia.
  rewrite snap_loop_dict by (cbn; lia). rewrite E.
  set (P := 2 ^ (17 + d)) in *. assert (HP : P = 32 * 2 ^ (12 + d)) by (apply pow17_32; lia).
  assert (HP17 : 2 ^ 17 <= P <= 2 ^ 40) by (subst P; split; apply Z.pow_le_mono_r; lia).
  assert (Hmax : win < 2 * P).
  { destruct Hhigh as [|Hd23]; [done|]. subst P. rewrite Hd23. cbn. lia. }
  exists d, ((win - P) * 32 / P).
  assert (Q : 0 <= (win - P) * 32 / P <= 31).
  { split; [apply Z.div_pos; lia|]. apply Z.lt_succ_r, Z.div_lt_upper_bound; lia. }
  destruct (Z.leb_spec win P) as [Hle|Hgt].
  - assert (EP : (win - P) * 32 / P = 0) by (replace (win - P) with 0 by lia; done).
    rewrite EP. split_and!; try done; try lia.
  - assert (d <> 23). { intros Hd23. subst P. rewrite Hd23 in Hgt. cbn in Hgt. lia. }
    rewrite (proj2 (Z.eqb_neq _ _)) by done. rewrite (wrap_small 64 ((win - P) * 32)) by lia.
    replace (P / 32) with (2 ^ (12 + d)) by (rewrite HP, Z.mul_comm, Z.div_mul; lia).
    rewrite !wrap_small by (rewrite ?wrap_small; nia). split_and!; try done; lia.
Qed.

Lemma grid_snap d k :
  0 <= d <= 23 -> 0 <= k <= 31 -> (d = 23 -> k = 0) ->
  snap_window_to_fci_grid (2 ^ (17 + d) + 2 ^ (12 + d) * k) = 2 ^ (17 + d) + 2 ^ (12 + d) * k.
Proof.
  intros Hd Hk H23. set (win := 2 ^ (17 + d) + 2 ^ (12 + d) * k).
  pose proof (pow17_32 d ltac:(lia)) as HP.
  assert (B : 2 ^ 12 <= 2 ^ (12 + d) <= 2 ^ 35) by (split; apply Z.pow_le_mono_r; lia).
  assert (Hw : 2 ^ 17 <= win <= 2 ^ 40).
  { subst win. destruct (Z.eqb_spec d 23) as [E|]; [rewrite H23, E by done; cbn; lia|].
    assert (2 ^ (12 + d) <= 2 ^ 34) by (apply Z.pow_le_mono_r; lia). nia. }
  destruct (snap_spec win Hw) as (d' & k' & Hd' & Hk' & _ & -> & [L U] & Ek & _).
  pose proof (pow17_32 d' ltac:(lia)) as HP'.
  assert (d' = d) as -> by (apply (pow2_interval d d' win); try lia; subst win; nia).
  f_equal. f_equal. rewrite Ek. subst win. rewrite HP.
  replace ((32 * 2 ^ (12 + d) + 2 ^ (12 + d) * k - 32 * 2 ^ (12 + d)) * 32) with (k * (32 * 2 ^ (12 + d))) by lia.
  apply Z.div_mul. lia.
Qed.

(** The snap loses less than one 1/32 step. *)
Lemma snap_close win :
  2 ^ 17 <= win <= 2 ^ 40 ->
  let w := snap_window_to_fci_grid win in 2 ^ 17 <= w <= win /\ 32 * (win - w) < w /\ snap_window_to_fci_grid w = w.
Proof.
  intros Hw. cbv zeta. destruct (snap_spec win Hw) as (d & k & Hd & Hk & H23 & Es & [L U] & Ek & _).
  pose proof (pow17_32 d ltac:(lia)) as HP.
  assert (Hq : 2 ^ 12 <= 2 ^ (12 + d)) by (apply Z.pow_le_mono_r; lia).
  rewrite Es, grid_snap by done. rewrite HP, (Z.mul_comm 32 (2 ^ (12 + d))), Z.div_mul_cancel_r in Ek by lia.
  pose proof (Z.mul_div_le (win - 2 ^ (12 + d) * 32) (2 ^ (12 + d)) ltac:(lia)) as B1.
  pose proof (Z.mul_succ_div_gt (win - 2 ^ (12 + d) * 32) (2 ^ (12 + d)) ltac:(lia)) as B2.
  rewrite <- Ek in B1, B2. split; [nia|]. split; [nia|done].
Qed.

Lemma dict_params_loop win d :
  2 ^ 17 <= win <= 2 ^ 40 -> 0 <= d -> 2 ^ (17 + d) <= win < 2 * 2 ^ (17 + d) ->
  dict_loop 23 win 0x20000 0 = (2 ^ (17 + d), d) ->
  dict_params win 1 = (d, (win - 2 ^ (17 + d)) * 32 / 2 ^ (17 + d)).
Proof.
  intros Hw Hd [L U] El. unfold dict_params. rewrite Z.geb_leb, (proj2 (Z.leb_le _ _)) by lia.
  cbn [Z.eqb Pos.eqb]. rewrite El. f_equal.
  apply dict_fraction_spec; [split; [apply Z.pow_le_mono_r|]; lia|lia|lia].
Qed.

(** The writer's exponent and fraction are those of the snap, and of its snap. *)
Lemma snap_dict_params win :
  2 ^ 17 <= win <= 2 ^ 40 ->
  exists d k, 0 <= d <= 23 /\ snap_window_to_fci_grid win = 2 ^ (17 + d) + 2 ^ (12 + d) * k /\
    dict_params win 1 = (d, k) /\ dict_params (snap_window_to_fci_grid win) 1 = (d, k).
Proof.
  intros Hw. destruct (snap_close win Hw) as (Hs & _ & Ei).
  destruct (snap_spec win Hw) as (d & k & Hd & Hk & _ & Es & R & Ek & El).
  destruct (snap_spec (snap_window_to_fci_grid win)) as (d' & k' & Hd' & Hk' & _ & Es' & R' & Ek' & El'); [lia|].
  exists d, k. split; [done|]. split; [done|].
  rewrite (dict_params_loop win d) by (done || lia). rewrite (dict_params_loop _ d') by (done || lia).
  rewrite <- Ek, <- Ek'. split; [done|]. pose proof (pow17_32 d ltac:(lia)) as HP.
  assert (0 < 2 ^ (12 + d)) by (apply Z.pow_pos_nonneg; lia).
  assert (d' = d) as -> by (apply (pow2_interval d d' (snap_window_to_fci_grid win)); try lia; rewrite Es; nia).
  f_equal. nia.
Qed.

(** ** The doubling loop *)

Lemma shiftl1 w : Z.shiftl w 1 = 2 * w.
Proof. rewrite Z.shiftl_mul_pow2 by lia. lia. Qed.

Lemma grow_spec fuel k input limit :
  0 <= k -> 2 ^ k < 2 ^ 63 -> Z.min input limit <= 2 ^ 63 -> 63 - k < Z.of_nat fuel ->
  exists d, k <= d <= 63 /\ grow fuel (2 ^ k) input limit = Ok (2 ^ d) /\
    (input <= 2 ^ d \/ limit <= 2 ^ d) /\ (d = k \/ 2 ^ (d - 1) < Z.min input limit).
Proof.
  revert k. induction fuel as [|fuel IH]; intros k Hk Hlt Hm Hf.
  { assert (k < 63) by (apply (Z.pow_lt_mono_r_iff 2); lia). lia. }
  assert (Hk63 : k < 63) by (apply (Z.pow_lt_mono_r_iff 2); lia).
  cbn [grow]. destruct (Z.ltb_spec (2 ^ k) input) as [Hi|]; cbn [andb];
    [|exists k; split; [lia|]; split; [done|]; split; [by left|by left]].
  destruct (Z.ltb_spec (2 ^ k) limit) as [Hl|];
    [|exists k; split; [lia|]; split; [done|]; split; [by right|by left]].
  rewrite shiftl1, <- Z.pow_succ_r by lia.
  assert (Hp : 0 < 2 ^ Z.succ k <= 2 ^ 63) by (split; [apply Z.pow_pos_nonneg; lia|apply Z.pow_le_mono_r; lia]).
  rewrite wrap_small by lia.
  destruct (Z.eq_dec (Z.succ k) 63) as [E63|Hne].
  - exists 63. destruct fuel as [|fuel]; [lia|]. rewrite E63. cbn [grow].
    assert (E : (2 ^ 63 <? input) && (2 ^ 63 <? limit) = false).
    { apply andb_false_iff. rewrite !Z.ltb_ge. lia. }
    rewrite E. split; [lia|]. split; [done|]. split; [lia|]. right. replace (63 - 1) with k by lia. lia.
  - assert (2 ^ Z.succ k < 2 ^ 63) by (apply Z.pow_lt_mono_r; lia).
    destruct (IH (Z.succ k)) as (d & Hd & E & Hor & Hmin); [lia..|].
    exists d. split; [lia|]. split; [done|]. split; [done|]. right.
    destruct Hmin as [->|]; [|done]. replace (Z.succ k - 1) with k by lia. lia.
Qed.

(** A doubling that overflows the word never reaches a limit above [2^63]. *)
Lemma grow_overflow fuel w input limit :
  2 ^ 63 < input -> 2 ^ 63 < limit -> w = 0 \/ (exists k, 0 <= k <= 63 /\ w = 2 ^ k) ->
  grow fuel w input limit = Fuel.
Proof.
  intros Hi Hl. revert w. induction fuel as [|fuel IH]; intros w Hw; [done|]. cbn [grow].
  assert (0 <= w <= 2 ^ 63).
  { destruct Hw as [->|(k & Hk & ->)]; [lia|]. split; [apply Z.pow_nonneg; lia|apply Z.pow_le_mono_r; lia]. }
  rewrite !(proj2 (Z.ltb_lt _ _)) by lia. cbn [andb]. apply IH. rewrite shiftl1.
  destruct Hw as [->|(k & Hk & ->)]; [by left|].
  destruct (Z.eq_dec k 63) as [->|Hne]; [by left|]. right. exists (k + 1). split; [lia|].
  rewrite <- Z.pow_succ_r by lia. apply wrap_small. split; [apply Z.pow_nonneg; lia|].
  apply Z.pow_lt_mono_r; lia.
Qed.

(** The two method tables, as powers of two: [(log2 default, log2 ceiling)]. *)
Lemma method_tables m :
  exists a c, 17 <= a <= c /\ c <= 28 /\
    default_dict_size_for_method m = 2 ^ a /\ auto_dict_ceiling_for_method m = 2 ^ c.
Proof.
  unfold default_dict_size_for_method, auto_dict_ceiling_for_method.
  destruct (m =? 0); [exists 17, 17; done|]. destruct (m =? 1); [exists 19, 19; done|].
  destruct (m =? 2); [exists 20, 21; done|]. destruct (m =? 3); [exists 23, 26; done|].
  destruct (m =? 4); [exists 24, 26; done|]. destruct (m =? 5); [exists 26, 28; done|exists 23, 26; done].
Qed.

Lemma snap_pow2 d : 17 <= d <= 40 -> snap_window_to_fci_grid (2 ^ d) = 2 ^ d.
Proof.
  intros Hd. pose proof (grid_snap (d - 17) 0 ltac:(lia) ltac:(lia) ltac:(lia)) as E.
  rewrite Z.mul_0_r, Z.add_0_r in E. by replace (17 + (d - 17)) with d in E by lia.
Qed.

Lemma pow2_lt_inv a b : 0 <= a -> 2 ^ a < 2 ^ b -> a < b.
Proof. intros Ha H. destruct (Z.ltb_spec a b); [done|]. pose proof (Z.pow_le_mono_r 2 b a). lia. Qed.

(** The automatic window: the least power of two that covers the input,
    between 128 KiB and the method's ceiling. *)
Lemma resolve_auto_dict_spec m input :
  0 < input < 2 ^ 64 ->
  exists d, 17 <= d <= 28 /\ resolve_auto_dict m input = Ok (2 ^ d) /\
    2 ^ d <= auto_dict_ceiling_for_method m /\
    (input <= 2 ^ d \/ 2 ^ d = auto_dict_ceiling_for_method m) /\ (d = 17 \/ 2 ^ (d - 1) < input).
Proof.
  intros Hi. destruct (method_tables m) as (a & c & Hac & Hc & Ea & Ec). unfold resolve_auto_dict.
  rewrite Ea, Ec, (proj2 (Z.eqb_neq _ _)) by lia.
  assert (Hc28 : 2 ^ a <= 2 ^ c <= 2 ^ 28) by (split; apply Z.pow_le_mono_r; lia).
  destruct (Z.ltb_spec input (2 ^ a)) as [Hlt|Hge].
  - destruct (grow_spec 64 17 input (2 ^ a)) as (d & Hd & E & Hor & Hmin); [lia..|].
    change 0x20000 with (2 ^ 17). rewrite E. res_simpl.
    assert (Hda : d <= a).
    { destruct Hmin as [->|Hmin]; [lia|]. assert (d - 1 < a); [|lia]. apply pow2_lt_inv; lia. }
    assert (2 ^ d <= 2 ^ a) by (apply Z.pow_le_mono_r; lia).
    exists d. rewrite snap_pow2 by lia. split; [lia|]. split; [done|]. split; [lia|].
    split; [left; lia|]. destruct Hmin as [->|]; [by left|right; lia].
  - destruct (grow_spec 64 a input (2 ^ c)) as (d & Hd & E & Hor & Hmin); [lia..|].
    rewrite E. res_simpl.
    assert (Hdc : d <= c).
    { destruct Hmin as [->|Hmin]; [lia|]. assert (d - 1 < c); [|lia]. apply pow2_lt_inv; lia. }
    assert (2 ^ d <= 2 ^ c) by (apply Z.pow_le_mono_r; lia).
    exists d. rewrite snap_pow2 by lia. split; [lia|]. split; [done|]. split; [done|]. split; [lia|].
    destruct Hmin as [->|Hmin]; [|right; lia]. destruct (Z.eq_dec a 17); [by left|right].
    assert (2 ^ a = 2 * 2 ^ (a - 1)).
    { rewrite <- Z.pow_succ_r by lia. f_equal. lia. }
    assert (0 < 2 ^ (a - 1)) by (apply Z.pow_pos_nonneg; lia). lia.
Qed.

(** ** The plan *)

Record request_ok (r : EntryPlan) : Prop := {
  rq_dict : 0 <= ep_dict_size r < 2 ^ 64;
  rq_raw : 0 <= ep_raw_size r < 2 ^ 64
}.

Definition compressed (r : EntryPlan) : bool :=
  negb (ep_is_filecopy_ref r) && negb (ep_is_dir r || (ep_method r =? 0)).

(** The window of a compressed entry: its own; else the archive's, where 1 to
    15 count doublings and the automatic value takes the least power of two
    that covers the input, from 128 KiB to the ceiling of the method; else the
    default of the method. *)
Definition planned_window (dict : Z) (req : EntryPlan) : Z :=
  if negb (ep_dict_size req =? 0) then ep_dict_size req
  else if dict =? 0 then default_dict_size_for_method (ep_method req)
  else if dict =? DICT_SIZE_AUTO then
    if ep_raw_size req =? 0 then default_dict_size_for_method (ep_method req)
    else Z.min (auto_dict_ceiling_for_method (ep_method req)) (2 ^ Z.max 17 (Z.log2_up (ep_raw_size req)))
  else if dict <=? 15 then 2 ^ (16 + dict) else dict.

(** What the plan of [req] must be, in an archive with the window [dict] whose
    earlier compressed data is [seen]. *)
Definition planned (dict : Z) (solid cont seen : bool) (req ep : EntryPlan) : Prop :=
  ep_decision ep = (if compressed req then BlockStream else Stored) /\
  ep_is_solid_chain ep = (solid || cont) && seen && (compressed req || ep_is_filecopy_ref req) /\
  ep_dict_size ep = (if compressed req then planned_window dict req else 0) /\
  ep_method ep = ep_method req /\ ep_raw_size ep = ep_raw_size req /\
  ep_workspace ep =
    Z.max 1 (if compressed req then Z.min (ep_dict_size ep) (2 ^ 36) * 5 + 6 * 2 ^ 20
             else Z.min (ep_raw_size req) (2 ^ 24)).

Lemma auto_window m input :
  0 < input < 2 ^ 64 ->
  resolve_auto_dict m input = Ok (Z.min (auto_dict_ceiling_for_method m) (2 ^ Z.max 17 (Z.log2_up input))).
Proof.
  intros Hi. destruct (resolve_auto_dict_spec m input Hi) as (d & Hd & -> & Hle & Hor & Hmin). f_equal.
  destruct (Z.le_gt_cases input (2 ^ d)) as [Hc|Hc].
  - assert (Z.max 17 (Z.log2_up input) = d) as ->; [|lia].
    destruct Hmin as [->|Hmin].
    + assert (Z.log2_up input <= 17) by (apply Z.log2_up_le_pow2; lia). lia.
    + rewrite (Z.log2_up_unique input d); [lia|lia|]. split; [|done]. by rewrite <- Z.sub_1_r.
  - destruct Hor as [Hor|Hor]; [lia|]. rewrite <- Hor. rewrite Z.min_l; [done|].
    apply Z.pow_le_mono_r; [lia|]. assert (d < Z.log2_up input) by (apply Z.log2_up_lt_pow2; lia). lia.
Qed.

(** The resolution of the archive's choice. *)
Lemma resolve_planned dict req :
  0 <= dict < 2 ^ 64 -> request_ok req -> ep_dict_size req = 0 ->
  resolve_dict_window_size (if negb (dict =? 0) then dict else default_dict_size_for_method (ep_method req))
    (ep_method req) (ep_raw_size req) = Ok (planned_window dict req) /\ 0 < planned_window dict req < 2 ^ 64.
Proof.
  intros Hd [_ Hr] E0. unfold planned_window. rewrite E0. cbn [Z.eqb negb].
  destruct (method_tables (ep_method req)) as (a & c & Hac & Hc & Ea & Ec).
  assert (Ha : 2 ^ 17 <= 2 ^ a <= 2 ^ 28) by (split; apply Z.pow_le_mono_r; lia).
  assert (Hcc : 2 ^ 17 <= 2 ^ c <= 2 ^ 28) by (split; apply Z.pow_le_mono_r; lia).
  unfold resolve_dict_window_size, DICT_SIZE_AUTO. destruct (Z.eqb_spec dict 0) as [->|Hne]; cbn [negb].
  { rewrite Ea, (proj2 (Z.eqb_neq _ (2 ^ 64 - 1))), (proj2 (Z.geb_le _ 1)), (proj2 (Z.leb_gt _ 15)), (proj2 (Z.eqb_neq _ 0)) by lia.
    cbn [andb]. split; [done|lia]. }
  destruct (Z.eqb_spec dict (2 ^ 64 - 1)) as [->|Hna].
  - destruct (Z.eqb_spec (ep_raw_size req) 0) as [Er|Er].
    + rewrite Er. unfold resolve_auto_dict. cbn [Z.eqb]. rewrite Ea. split; [done|lia].
    + rewrite auto_window, Ec by lia. split; [done|].
      assert (0 < 2 ^ Z.max 17 (Z.log2_up (ep_raw_size req))) by (apply Z.pow_pos_nonneg; lia). lia.
  - rewrite (proj2 (Z.geb_le dict 1)) by lia. cbn [andb]. destruct (Z.leb_spec dict 15).
    + rewrite Z.shiftl_mul_pow2 by lia. change 0x20000 with (2 ^ 17). rewrite <- Z.pow_add_r by lia.
      replace (17 + (dict - 1)) with (16 + dict) by lia.
      assert (0 < 2 ^ (16 + dict) <= 2 ^ 31) by (split; [apply Z.pow_pos_nonneg; lia|apply Z.pow_le_mono_r; lia]).
      rewrite wrap_small by lia. split; [done|lia].
    + rewrite (proj2 (Z.eqb_neq dict 0)) by lia. split; [done|lia].
Qed.

Lemma decide_entry_spec cp req :
  0 <= cp_dict_size cp < 2 ^ 64 -> request_ok req ->
  exists ep, decide_entry cp req = Ok (ep, cp_seen_compressed_entry cp || compressed req) /\
    ep_raw_size ep = ep_raw_size req /\ ep_method ep = ep_method req /\
    ep_decision ep = (if compressed req then BlockStream else Stored) /\
    ep_is_solid_chain ep = (cp_solid cp || cp_continue_solid_stream cp) && cp_seen_compressed_entry cp &&
                           (compressed req || ep_is_filecopy_ref req) /\
    ep_dict_size ep = (if compressed req then planned_window (cp_dict_size cp) req else 0) /\
    (compressed req = true -> 0 < ep_dict_size ep < 2 ^ 64).
Proof.
  intros Hcp Hok. pose proof Hok as [Hd Hr]. unfold decide_entry, compressed.
  destruct (ep_is_filecopy_ref req); cbn [negb andb orb].
  { eexists. rewrite orb_false_r, andb_true_r. done. }
  destruct (ep_is_dir req || (ep_method req =? 0)); cbn [negb orb].
  { eexists. rewrite orb_false_r, andb_false_r. done. }
  rewrite orb_true_r, andb_true_r.
  destruct (Z.eqb_spec (ep_dict_size req) 0) as [E0|Hne].
  - destruct (resolve_planned (cp_dict_size cp) req Hcp Hok E0) as [-> Hw].
    res_simpl. eexists. split_and!; try done; cbn; lia.
  - res_simpl. eexists. unfold planned_window. rewrite (proj2 (Z.eqb_neq _ _)) by done. split_and!; try done; cbn; lia.
Qed.

Lemma workspace_spec ep (c : bool) :
  0 <= ep_raw_size ep ->
  ep_decision ep = (if c then BlockStream else Stored) -> (if c then 0 < ep_dict_size ep else True) ->
  workspace ep = Z.max 1 (if c then Z.min (ep_dict_size ep) (2 ^ 36) * 5 + 6 * 2 ^ 20
                          else Z.min (ep_raw_size ep) (2 ^ 24)).
Proof.
  intros Hr Hd Hc. unfold workspace, MAX_ALLOWED_DICT. rewrite Hd.
  destruct c.
  - change (64 * 1024 * 1024 * 1024) with (2 ^ 36). rewrite !wrap_small by (rewrite ?wrap_small; lia).
    rewrite (proj2 (Z.eqb_neq _ _)) by lia. lia.
  - change (16 * 1024 * 1024) with (2 ^ 24). destruct (Z.eqb_spec (Z.min (ep_raw_size ep) (2 ^ 24)) 0); lia.
Qed.

Lemma plan_next_spec cp req :
  0 <= cp_dict_size cp < 2 ^ 64 -> request_ok req ->
  exists cp' ep, plan_next_entry cp req = Ok (cp', ep) /\
    planned (cp_dict_size cp) (cp_solid cp) (cp_continue_solid_stream cp) (cp_seen_compressed_entry cp) req ep /\
    cp_entries cp' = cp_entries cp ++ [ep] /\
    cp_seen_compressed_entry cp' = cp_seen_compressed_entry cp || compressed req /\
    cp_dict_size cp' = cp_dict_size cp /\ cp_solid cp' = cp_solid cp /\
    cp_continue_solid_stream cp' = cp_continue_solid_stream cp.
Proof.
  intros Hcp Hr. destruct (decide_entry_spec cp req Hcp Hr) as (ep & E & Eraw & Em & Ed & Ec & Ew & Ex).
  unfold plan_next_entry. rewrite E. res_simpl. do 2 eexists. split; [done|].
  split; [|done]. unfold planned, ep_set_workspace. cbn [ep_decision ep_is_solid_chain ep_dict_size ep_method ep_raw_size ep_workspace].
  split; [done|]. split; [done|]. split; [done|]. split; [done|]. split; [done|].
  rewrite <- Eraw. apply (workspace_spec ep (compressed req)); [rewrite Eraw; apply (rq_raw _ Hr)|done|].
  destruct (compressed req); [by apply Ex|done].
Qed.

Lemma plan_loop_spec reqs cp :
  0 <= cp_dict_size cp < 2 ^ 64 -> Forall request_ok reqs ->
  exists cp' eps, plan_loop cp reqs = Ok cp' /\ cp_entries cp' = cp_entries cp ++ eps /\
    length eps = length reqs /\
    forall i req ep, reqs !! i = Some req -> eps !! i = Some ep ->
      planned (cp_dict_size cp) (cp_solid cp) (cp_continue_solid_stream cp)
        (cp_seen_compressed_entry cp || existsb compressed (take i reqs)) req ep.
Proof.
  intros Hcp Hrs. revert cp Hcp. induction Hrs as [|req reqs Hr Hrs IH]; intros cp Hcp.
  { exists cp, []. rewrite app_nil_r. done. }
  destruct (plan_next_spec cp req Hcp Hr) as (cp1 & ep & E1 & Hp & Ee & Es & Edict & Eso & Eco).
  destruct (IH cp1) as (cp' & eps & E & Ea & El & Hall); [by rewrite Edict|].
  exists cp', (ep :: eps). cbn [plan_loop]. rewrite E1. res_simpl. split; [done|].
  split; [by rewrite Ea, Ee, <- app_assoc|]. split; [by cbn; rewrite El|].
  intros [|i] rq e Hq He; cbn in Hq, He.
  - injection Hq as <-. injection He as <-. cbn. by rewrite orb_false_r.
  - specialize (Hall i rq e Hq He). rewrite Edict, Eso, Eco, Es in Hall. cbn [take existsb].
    by rewrite orb_assoc.
Qed.

Lemma workspace_fold eps t p :
  fold_left (fun '(total, peak) e =>
    (u64 (total + ep_workspace e), if ep_workspace e >? peak then ep_workspace e else peak)) eps (t, p) =
  (fold_left (fun x e => u64 (x + ep_workspace e)) eps t, foldr Z.max p (map ep_workspace eps)).
Proof.
  revert t p. induction eps as [|e eps IH]; intros t p; [done|]. cbn [fold_left map foldr]. rewrite IH. f_equal.
  assert (E : (if ep_workspace e >? p then ep_workspace e else p) = Z.max (ep_workspace e) p).
  { destruct (Z.gtb_spec (ep_workspace e) p); lia. }
  rewrite E. clear. generalize (ep_workspace e) as w. intros w.
  induction (map ep_workspace eps) as [|x l IH]; [done|]. cbn [foldr]. rewrite IH. lia.
Qed.

Lemma sum_fold (eps : list EntryPlan) t b :
  0 <= t -> Forall (fun e => 0 <= ep_workspace e <= b) eps -> t + b * zlen eps < 2 ^ 64 ->
  fold_left (fun x e => u64 (x + ep_workspace e)) eps t = t + foldr Z.add 0 (map ep_workspace eps).
Proof.
  intros Ht H. revert t Ht. induction H as [|e eps He _ IH]; intros t Ht Hb; cbn [fold_left map foldr]; [lia|].
  rewrite zlen_cons in Hb. pose proof (zlen_nonneg eps).
  rewrite wrap_small by nia. rewrite IH by nia. lia.
Qed.

(** ** The header's window *)

Lemma reread_window f d k :
  unp_ver f = 1 -> 1 <= method f < 8 -> dict_params (win_size f) (unp_ver f) = (d, k) ->
  win_size (reread_fixed f) =
    let w := 2 ^ (17 + d) + 2 ^ (12 + d) * k in if w >? 2 ^ 40 then 2 ^ 40 + 1 else w.
Proof.
  intros Hv Hm Edp. pose proof (decode_comp_info f d k Edp) as Hdec. cbv zeta in Hdec.
  cbn [reread_fixed win_size]. rewrite Hv, (Z.mod_small 1), (Z.mod_small (method f)) in * by lia.
  rewrite Hdec, (proj2 (Z.eqb_neq (method f) 0)) by lia. reflexivity.
Qed.

(** ** Properties *)

(** The packer's window is the header's window: for every requested
    window from 128 KiB to 1 TiB, [snap_window_to_fci_grid] yields exactly the
    window a reader decodes from the compression word the writer stores,
    whether the writer is handed the requested or the snapped size; it is at
    most the request, loses less than one 1/32 step, and is a fixed point.
    Above 1 TiB the two part: the snap is [2^40 + 31 * 2^35] (above the
    request just past the limit), and the reader refuses that window. *)
Theorem snapped_window_is_header_window (f : FileFixed) (win : Z) :
  2 ^ 17 <= win < 2 ^ 64 -> unp_ver f = 1 -> 1 <= method f < 8 ->
  win_size f = win \/ win_size f = snap_window_to_fci_grid win ->
  let w := snap_window_to_fci_grid win in
  (win <= RAR_DICT_MAX_V1 ->
     win_size (reread_fixed f) = w /\ w <= win /\ 32 * (win - w) < w /\ snap_window_to_fci_grid w = w) /\
  (RAR_DICT_MAX_V1 < win ->
     w = 2 ^ 40 + 31 * 2 ^ 35 /\
     (win_size f = w -> is_dictionary_spec_max_exceeded (win_size (reread_fixed f)) 1 = true)).
Proof.
  change RAR_DICT_MAX_V1 with (2 ^ 40). intros Hwin Hv Hm Hor. cbv zeta. split.
  - intros Hmax. destruct (snap_close win) as (Hw & Hc & Ei); [lia|].
    destruct (snap_dict_params win) as (d & k & Hd & Es & E1 & E2); [lia|].
    assert (Edp : dict_params (win_size f) (unp_ver f) = (d, k)) by (by rewrite Hv; destruct Hor as [-> | ->]).
    rewrite (reread_window f d k) by (done || lia). cbv zeta. rewrite <- Es.
    rewrite Z.gtb_ltb, (proj2 (Z.ltb_ge _ _)) by lia. split; [done|]. split; [lia|]. by split.
  - intros Hbig. assert (Ew : snap_window_to_fci_grid win = 2 ^ 40 + 31 * 2 ^ 35).
    { unfold snap_window_to_fci_grid. rewrite (proj2 (Z.ltb_ge _ _)), snap_loop_dict by (cbn; lia).
      destruct (dict_loop_spec 23 win 0 ltac:(lia) ltac:(lia)) as (d & E & Hd & Hlow & Hhigh).
      change (2 ^ (17 + 0)) with 0x20000 in E. rewrite E.
      assert (d = 23) as ->.
      { destruct Hhigh as [Hh|Hh]; [|lia]. destruct (Z.eq_dec d 23); [done|exfalso].
        assert (2 * 2 ^ (17 + d) <= 2 ^ 40); [|lia]. rewrite <- Z.pow_succ_r by lia. apply Z.pow_le_mono_r; lia. }
      change (2 ^ (17 + 23)) with (2 ^ 40). rewrite (proj2 (Z.leb_gt _ _)) by lia. reflexivity. }
    split; [done|]. intros Ef. rewrite Ew in Ef.
    assert (Edp : dict_params (win_size f) (unp_ver f) = (23, 31)) by (rewrite Ef, Hv; reflexivity).
    by rewrite (reread_window f 23 31).
Qed.

Lemma snapped_window_is_header_window_witness :
  win_size (reread_fixed (fixed sample_block)) = snap_window_to_fci_grid 0x180000 /\
  snap_window_to_fci_grid 0x180000 = 0x180000.
Proof.
  destruct (snapped_window_is_header_window (fixed sample_block) 0x180000) as [H _].
  - split; vm_compute; congruence.
  - reflexivity.
  - split; vm_compute; congruence.
  - left. reflexivity.
  - destruct H as (E & _ & _ & _); [vm_compute; discriminate|]. split; [exact E|reflexivity].
Defined.

(** Automatic sizing ([-md=auto]) is a total pure function of method and
    size: the window is the least power of two that covers the input, from
    128 KiB up to the method's ceiling; it never shrinks when the input grows,
    and the header can represent it exactly. *)
Theorem resolve_auto_dict_least (m input : Z) :
  0 < input < 2 ^ 64 ->
  exists w, resolve_auto_dict m input = Ok w /\
    (exists d, 17 <= d <= 28 /\ w = 2 ^ d /\ (d = 17 \/ 2 ^ (d - 1) < input)) /\
    w <= auto_dict_ceiling_for_method m /\ (input <= w \/ w = auto_dict_ceiling_for_method m) /\
    snap_window_to_fci_grid w = w /\
    forall input' w', input <= input' < 2 ^ 64 -> resolve_auto_dict m input' = Ok w' -> w <= w'.
Proof.
  intros Hi. destruct (resolve_auto_dict_spec m input Hi) as (d & Hd & E & Hc & Hor & Hmin).
  exists (2 ^ d). split; [done|]. split; [by exists d|]. split; [done|]. split; [done|].
  split; [apply snap_pow2; lia|]. intros input' w' Hi' E'.
  destruct (resolve_auto_dict_spec m input' ltac:(lia)) as (d' & Hd' & E'' & Hc' & Hor' & _).
  rewrite E' in E''. injection E'' as ->. destruct Hor' as [Hin|Hce]; [|lia].
  destruct Hmin as [->|Hmin]; [apply Z.pow_le_mono_r; lia|].
  apply Z.pow_le_mono_r; [lia|]. assert (d - 1 < d'); [|lia]. apply pow2_lt_inv; lia.
Qed.

Lemma resolve_auto_dict_least_witness :
  exists w, resolve_auto_dict 3 100000000 = Ok w /\ w = 0x4000000.
Proof.
  destruct (resolve_auto_dict_least 3 100000000) as (w & E & _); [lia|].
  exists w. split; [exact E|]. vm_compute in E. by injection E as <-.
Defined.

(** The encoder's allocation window: for a declared window or an input
    of at most [2^63] bytes the loop ends (64 passes suffice) with a window
    that covers every distance the stream can use, never exceeds the declared
    one, and is less than twice the input (or the 128 KiB floor).  When both
    exceed [2^63] the doubling overflows to zero and the loop never ends. *)
Theorem lz_window_for_input_bounds (declared input : Z) :
  0 <= declared < 2 ^ 64 -> 0 < input < 2 ^ 64 ->
  (declared <= 2 ^ 63 \/ input <= 2 ^ 63 ->
     exists w, lz_window_for_input 64 declared input = Ok w /\
       Z.min declared input <= w <= declared /\ (w <= 2 ^ 17 \/ w < 2 * input)) /\
  (2 ^ 63 < declared -> 2 ^ 63 < input -> forall fuel, lz_window_for_input fuel declared input = Fuel).
Proof.
  intros Hd Hi. unfold lz_window_for_input. rewrite (proj2 (Z.eqb_neq _ _)), orb_false_r by lia. split.
  - intros Hor. destruct (Z.leb_spec declared 0x20000); [exists declared; split; [done|lia]|].
    destruct (grow_spec 64 17 input declared) as (d & Hd' & E & Hc & Hmin); [lia..|].
    change 0x20000 with (2 ^ 17) in *. rewrite E. res_simpl.
    exists (if 2 ^ d <? declared then 2 ^ d else declared). split; [done|].
    assert (Hb : d = 17 \/ 2 ^ d < 2 * input).
    { destruct Hmin as [->|Hmin]; [by left|right].
      assert (2 ^ d = 2 * 2 ^ (d - 1)) by (rewrite <- Z.pow_succ_r by lia; f_equal; lia). lia. }
    destruct (Z.ltb_spec (2 ^ d) declared); destruct Hb as [->|]; lia.
  - intros Hd63 Hi63 fuel. rewrite (proj2 (Z.leb_gt _ _)) by lia.
    rewrite grow_overflow; [done|lia|lia|]. right. exists 17. split; [lia|done].
Qed.

Lemma lz_window_for_input_bounds_witness :
  (exists w, lz_window_for_input 64 (8 * 2 ^ 30) (24 * 2 ^ 20) = Ok w /\ w = 2 ^ 25) /\
  lz_window_for_input 1000 (2 ^ 64 - 1) (2 ^ 64 - 1) = Fuel.
Proof.
  split.
  - destruct (lz_window_for_input_bounds (8 * 2 ^ 30) (24 * 2 ^ 20)) as [H _]; [lia..|].
    destruct H as (w & E & _); [lia|]. exists w. split; [exact E|]. vm_compute in E. by injection E as <-.
  - apply (lz_window_for_input_bounds (2 ^ 64 - 1) (2 ^ 64 - 1)); lia.
Defined.

(** C33. The plan of a batch, entry by entry and in order: a member is
    compressed as a block stream just when it is neither a reference, nor a
    directory, nor method 0; it (or a reference) continues the solid chain
    just when the archive is solid or continues one and compressed data came
    before it, so a fresh run never starts chained and references and stored
    members do not break the run; a compressed member's window is its own, or
    the archive's resolved for the method and the size of the input, stored
    members get none; the workspace estimate does not overflow; the execution
    plan takes its peak and, for fewer than 2^24 entries, its sum. *)
Theorem plan_entries_correct (reqs : list EntryPlan) (solid : bool) (m dict : Z) (cont : bool) :
  0 <= dict < 2 ^ 64 -> Forall request_ok reqs ->
  exists cp, plan_entries reqs solid m dict cont = Ok cp /\
    length (cp_entries cp) = length reqs /\
    (forall i req ep, reqs !! i = Some req -> cp_entries cp !! i = Some ep ->
       planned dict solid cont (cont || existsb compressed (take i reqs)) req ep) /\
    (zlen reqs < 2 ^ 24 ->
       xp_total (from_compress_plan cp) = foldr Z.add 0 (map ep_workspace (cp_entries cp))) /\
    xp_peak (from_compress_plan cp) = foldr Z.max 0 (map ep_workspace (cp_entries cp)).
Proof.
  intros Hd Hr. unfold plan_entries.
  destruct (plan_loop_spec reqs {| cp_dict_size := dict; cp_method := m; cp_solid := solid;
    cp_continue_solid_stream := cont; cp_seen_compressed_entry := cont; cp_entries := [] |} Hd Hr)
    as (cp & eps & E & Ee & El & Hall).
  cbn [cp_entries cp_solid cp_continue_solid_stream cp_seen_compressed_entry app] in *.
  exists cp. split; [done|]. rewrite Ee. split; [done|]. split; [done|].
  unfold from_compress_plan. rewrite workspace_fold, Ee. cbn [xp_total xp_peak]. split; [|done].
  intros Hn. rewrite (sum_fold eps 0 (2 ^ 39)); [done|lia| |unfold zlen in *; lia].
  apply Forall_lookup_2. intros i ep Hi.
  destruct (lookup_lt_is_Some_2 reqs i) as (req & Hq); [rewrite <- El; by eapply lookup_lt_Some|].
  destruct (Hall i req ep Hq Hi) as (_ & _ & _ & _ & _ & ->). destruct (compressed req); lia.
Qed.

Definition sample_request (m raw : Z) (dir ref : bool) : EntryPlan :=
  {| ep_decision := Stored; ep_dict_size := 0; ep_method := m; ep_is_solid_chain := false; ep_is_dir := dir;
     ep_is_filecopy_ref := ref; ep_raw_size := raw; ep_workspace := 0 |}.

Lemma plan_entries_correct_witness :
  exists cp, plan_entries [sample_request 3 100 false false; sample_request 0 7 false false;
                           sample_request 3 0 false true; sample_request 3 500 false false] true 3 0 false = Ok cp /\
    map ep_is_solid_chain (cp_entries cp) = [false; false; true; true] /\
    xp_total (from_compress_plan cp) = foldr Z.add 0 (map ep_workspace (cp_entries cp)).
Proof.
  destruct (plan_entries_correct [sample_request 3 100 false false; sample_request 0 7 false false;
    sample_request 3 0 false true; sample_request 3 500 false false] true 3 0 false) as (cp & E & _ & _ & Ht & _).
  - lia.
  - repeat constructor; vm_compute; discriminate.
  - exists cp. split; [exact E|]. split; [|apply Ht; reflexivity]. vm_compute in E. injection E as <-. reflexivity.
Defined.
