(* ===== verification/CdcChunker.v ===== *)
(** Content-defined chunking
    ([src/compress/cdc_chunker.cpp], [src/compress/cdc_chunker.hpp]).

    The Gear hash of a byte range, the streaming chunker that owns the cut
    rules, the one-shot front end and the parallel one, which scans slices of
    the input for candidate positions and replays the cut rules over them.

    [chunked] is the specification: a text is cut at the first length at which
    the rules allow it, and the rest is cut the same way.  The streaming
    chunker implements it for any partition of the text into blocks, and the
    parallel one for any number of threads. *)

From Stdlib Require Import ZArith Lia.
From stdpp Require Import base tactics list numbers.
From S2P Require Import Prelude Loops Bytes Arrays.

Local Open Scope Z_scope.
Local Open Scope size_scope.

(** ** The Gear table and the masks *)

(** [splitmix64]: the advanced state and the value drawn from it. *)
Definition splitmix64 (state : Z) : Z * Z :=
  let state := u64 (state + 0x9E3779B97F4A7C15) in
  let z := state in
  let z := u64 (Z.lxor z (Z.shiftr z 30) * 0xBF58476D1CE4E5B9) in
  let z := u64 (Z.lxor z (Z.shiftr z 27) * 0x94D049BB133111EB) in
  (state, Z.lxor z (Z.shiftr z 31)).

Fixpoint fill_table (k : nat) (state : Z) : list Z :=
  match k with
  | O => []
  | S k' => let '(state, v) := splitmix64 state in v :: fill_table k' state
  end.

Definition table_ : list Z := Eval vm_compute in fill_table 256 0x243F6A8885A308D3.

Definition mask_strict_ : Z := 0xFFFF800000000000.
Definition mask_light_ : Z := 0xFFFE000000000000.

Definition CDC_MIN_CHUNK : Z := 16 * 1024.
Definition CDC_MAX_CHUNK : Z := 256 * 1024.
Definition CDC_AVG_CHUNK : Z := 64 * 1024.

Record CdcChunk := { offset : Z; length : Z; hash : Z }.

(** [h = (h << 1) + table_[b]] *)
Definition roll (h b : Z) : Z := u64 (u64 (Z.shiftl h 1) + nthZ table_ (u8 b)).

Definition hash_range (data : list Z) : Z := foldl roll 0 data.

Definition is_strict (h : Z) : bool := Z.land h mask_strict_ =? 0.
Definition is_light (h : Z) : bool := Z.land h mask_light_ =? 0.

(** ** CdcStreamChunker *)

Record CdcStreamChunker := { h_ : Z; pending_size_ : Z; fed_ : Z }.

Definition CdcStreamChunker_init : CdcStreamChunker := {| h_ := 0; pending_size_ := 0; fed_ := 0 |}.

Definition emit (s : CdcStreamChunker) (out : list CdcChunk) : CdcStreamChunker * list CdcChunk :=
  ({| h_ := 0; pending_size_ := 0; fed_ := fed_ s |},
   out ++ [{| offset := fed_ s -s pending_size_ s; length := u32 (pending_size_ s); hash := h_ s |}]).

(** One byte enters the hash and both counters. *)
Definition take_byte (s : CdcStreamChunker) (b : Z) : CdcStreamChunker :=
  {| h_ := roll (h_ s) b; pending_size_ := pending_size_ s +s 1; fed_ := fed_ s +s 1 |}.

(** The bytes below the minimum, which no rule looks at. *)
Definition skip_bytes (s : CdcStreamChunker) (data : list Z) (skip : Z) : res (CdcStreamChunker * list Z) :=
  x ← slice data 0 skip;
  mret ({| h_ := foldl roll (h_ s) x; pending_size_ := pending_size_ s +s skip; fed_ := fed_ s +s skip |},
        view data skip).

(** [while (i < end)]: [k] bytes are left of the range. *)
Fixpoint strict_loop (k : nat) (s : CdcStreamChunker) (data : list Z) (out : list CdcChunk) :
    res (CdcStreamChunker * list Z * list CdcChunk) :=
  match k with
  | O => Ok (s, data, out)
  | S k' =>
      match data with
      | [] => Fault
      | b :: data =>
          let s := take_byte s b in
          if is_strict (h_ s) then let '(s, out) := emit s out in Ok (s, data, out)
          else strict_loop k' s data out
      end
  end.

(** The last [while (i < n)]. *)
Fixpoint light_loop (s : CdcStreamChunker) (data : list Z) (out : list CdcChunk) :
    CdcStreamChunker * list Z * list CdcChunk :=
  match data with
  | [] => (s, data, out)
  | b :: data =>
      let s := take_byte s b in
      if is_light (h_ s) || (pending_size_ s =? CDC_MAX_CHUNK)
      then let '(s, out) := emit s out in (s, data, out)
      else light_loop s data out
  end.

(** [data] is what the input holds from [i] on. *)
Fixpoint feed_loop (fuel : nat) (s : CdcStreamChunker) (data : list Z) (out : list CdcChunk) :
    res (CdcStreamChunker * list CdcChunk) :=
  match fuel with
  | O => Fuel
  | S fuel' =>
      if zlen data =? 0 then Ok (s, out)
      else
        '(s, data) ← (if pending_size_ s <? CDC_MIN_CHUNK - 1
                      then skip_bytes s data (Z.min (zlen data) (CDC_MIN_CHUNK - 1 -s pending_size_ s))
                      else mret (s, data));
        if zlen data =? 0 then Ok (s, out)
        else if pending_size_ s <? CDC_AVG_CHUNK - 1 then
          '(s, data, out) ← strict_loop
             (Z.to_nat (Z.min (zlen data) (CDC_AVG_CHUNK - 1 -s pending_size_ s))) s data out;
          if (pending_size_ s =? 0) || (zlen data =? 0) then feed_loop fuel' s data out
          else let '(s, data, out) := light_loop s data out in feed_loop fuel' s data out
        else let '(s, data, out) := light_loop s data out in feed_loop fuel' s data out
  end.

Definition feed (s : CdcStreamChunker) (data : list Z) (out : list CdcChunk) :
    res (CdcStreamChunker * list CdcChunk) :=
  feed_loop (S (List.length data)) s data out.

Definition finish (s : CdcStreamChunker) (out : list CdcChunk) : CdcStreamChunker * list CdcChunk :=
  if pending_size_ s >? 0 then emit s out else (s, out).

Definition chunk (data : list Z) : res (list CdcChunk) :=
  '(s, out) ← feed CdcStreamChunker_init data [];
  mret (finish s out).2.

(** A caller that feeds a sequence of blocks and ends the stream. *)
Fixpoint feed_blocks (s : CdcStreamChunker) (blocks : list (list Z)) (out : list CdcChunk) :
    res (list CdcChunk) :=
  match blocks with
  | [] => Ok (finish s out).2
  | b :: blocks => '(s, out) ← feed s b out; feed_blocks s blocks out
  end.

(** ** chunk_parallel *)

Definition MATCH_LIGHT : Z := 1.
Definition MATCH_STRICT : Z := 2.

Record CandidateInterval := { start_off : Z; count : Z; flags : Z }.

(** [intervals.back()], if there is one. *)
Definition back (l : list CandidateInterval) : option CandidateInterval :=
  match reverse l with [] => None | c :: _ => Some c end.

Record CdcParallelDiag := { fell_back : bool; candidate_intervals : Z }.

(** The scan of one slice from position [i] with the hash [h]; the second
    component is [slice_overflow], and an overflow clears the list. *)
Fixpoint scan_slice (max_intervals : Z) (data : list Z) (i h : Z) (intervals : list CandidateInterval) :
    list CandidateInterval * bool :=
  match data with
  | [] => (intervals, false)
  | b :: data =>
      let h := roll h b in
      if is_strict h || is_light h then
        let flags_ := Z.lor (if is_strict h then MATCH_STRICT else 0) (if is_light h then MATCH_LIGHT else 0) in
        let extends :=
          match back intervals with
          | Some c => (start_off c +s count c =? i) && (flags c =? flags_)
          | None => false
          end in
        if extends then
          let intervals := match back intervals with
                           | Some c => removelast intervals ++
                               [{| start_off := start_off c; count := count c +s 1; flags := flags c |}]
                           | None => intervals
                           end in
          scan_slice max_intervals data (i + 1) h intervals
        else if zlen intervals >=? max_intervals then ([], true)
        else scan_slice max_intervals data (i + 1) h
               (intervals ++ [{| start_off := i; count := 1; flags := flags_ |}])
      else scan_slice max_intervals data (i + 1) h intervals
  end.

(** The body of [parallel_for] for slice [s]. *)
Definition scan_slice_at (data : list Z) (num_slices s : Z) : res (list CandidateInterval * bool) :=
  let size := zlen data in
  let slice_size := size / num_slices in
  let s_start := s * slice_size in
  let s_end := if s + 1 =? num_slices then size else (s + 1) * slice_size in
  let s_len := s_end -s s_start in
  let max_intervals := Z.max (s_len / 1024) 64 in
  let warmup_start := if s =? 0 then 0 else s_start -s 63 in
  w ← slice data warmup_start (s_start - warmup_start);
  x ← slice data s_start s_len;
  mret (scan_slice max_intervals x s_start (foldl roll 0 w) []).

(** The slices write to slots of their own, so their order does not matter. *)
Fixpoint scan_all (data : list Z) (num_slices : Z) (k : nat) : res (list (list CandidateInterval * bool)) :=
  match k with
  | O => Ok []
  | S k' =>
      l ← scan_all data num_slices k';
      x ← scan_slice_at data num_slices (Z.of_nat k');
      mret (l ++ [x])
  end.

(** [while (idx < n_cand && start_off + count <= bound) ++idx;] *)
Fixpoint skip_until (bound : Z) (cands : list CandidateInterval) : list CandidateInterval :=
  match cands with
  | [] => []
  | c :: rest => if (start_off c +s count c) <=? bound then skip_until bound rest else cands
  end.

(** The search for the first interval with [mask] that reaches into
    [low .. high): the cut, or [SIZE_MAX], and where the search stopped. *)
Fixpoint search (mask low high : Z) (cands : list CandidateInterval) : Z * list CandidateInterval :=
  match cands with
  | [] => (2 ^ 64 - 1, [])
  | c :: rest =>
      if start_off c <? high then
        if negb (Z.land (flags c) mask =? 0) then
          let cand_off := Z.max (start_off c) low in
          if cand_off <? high then (cand_off, cands) else search mask low high rest
        else search mask low high rest
      else (2 ^ 64 - 1, cands)
  end.

(** The replay: [cands] is [all_intervals] from [cand_idx] on.  The result is
    [last_cut] when the loop ends. *)
Fixpoint stitch (fuel : nat) (data : list Z) (last_cut : Z) (cands : list CandidateInterval)
    (out : list CdcChunk) : res (Z * list CdcChunk) :=
  match fuel with
  | O => Fuel
  | S fuel' =>
      let size := zlen data in
      if negb (last_cut <? size) then Ok (last_cut, out)
      else if (size -s last_cut) <=? CDC_MIN_CHUNK then Ok (last_cut, out)
      else
        let strict_start := last_cut +s CDC_MIN_CHUNK -s 1 in
        let avg_boundary := Z.min size (last_cut +s CDC_AVG_CHUNK -s 1) in
        let max_boundary := Z.min size (last_cut +s CDC_MAX_CHUNK) in
        let cands := skip_until strict_start cands in
        let '(cut_at, rest) := search MATCH_STRICT strict_start avg_boundary cands in
        let cut_at :=
          if cut_at =? 2 ^ 64 - 1
          then (search MATCH_LIGHT avg_boundary max_boundary (skip_until avg_boundary rest)).1
          else cut_at in
        if negb (cut_at =? 2 ^ 64 - 1) then
          let chunk_len := cut_at +s 1 -s last_cut in
          x ← slice data (cut_at +s 1 -s 64) 64;
          stitch fuel' data (cut_at +s 1) cands
            (out ++ [{| offset := last_cut; length := u32 chunk_len; hash := hash_range x |}])
        else if max_boundary =? size then Ok (last_cut, out)
        else
          x ← slice data (last_cut +s CDC_MAX_CHUNK -s 64) 64;
          stitch fuel' data (last_cut +s CDC_MAX_CHUNK) cands
            (out ++ [{| offset := last_cut; length := u32 CDC_MAX_CHUNK; hash := hash_range x |}])
  end.

(** The tail chunk. *)
Definition stitch_tail (data : list Z) (last_cut : Z) (out : list CdcChunk) : res (list CdcChunk) :=
  let size := zlen data in
  if last_cut <? size then
    let tail_len := size -s last_cut in
    x ← (if tail_len >=? 64 then slice data (size -s 64) 64 else slice data last_cut tail_len);
    mret (out ++ [{| offset := last_cut; length := u32 tail_len; hash := hash_range x |}])
  else mret out.

(** [threads], the worker count of the caller's pool if it gives one, and
    [std::thread::hardware_concurrency()]. *)
Definition chunk_parallel (data : list Z) (threads : Z) (pool : option Z) (hardware : Z) :
    res (list CdcChunk * CdcParallelDiag) :=
  let size := zlen data in
  let sequential := out ← chunk data; mret (out, {| fell_back := false; candidate_intervals := 0 |}) in
  if size =? 0 then mret ([], {| fell_back := false; candidate_intervals := 0 |})
  else if (size <? 2 * CDC_MAX_CHUNK) || ((threads =? 1) && match pool with None => true | _ => false end)
  then sequential
  else
    let threads := if threads =? 0 then match pool with Some w => w | None => Z.min hardware 8 end
                   else threads in
    if (threads <=? 1) && match pool with None => true | Some w => w <=? 1 end then sequential
    else
      let num_slices := Z.min threads (size / (2 * CDC_MAX_CHUNK)) in
      if num_slices <=? 1 then sequential
      else
        slices ← scan_all data num_slices (Z.to_nat num_slices);
        if existsb snd slices then
          out ← chunk data; mret (out, {| fell_back := true; candidate_intervals := 0 |})
        else
          let all_intervals := mjoin (map fst slices) in
          '(last_cut, out) ← stitch (Z.to_nat (size / CDC_MIN_CHUNK + 2)) data 0 all_intervals [];
          out ← stitch_tail data last_cut out;
          mret (out, {| fell_back := false; candidate_intervals := zlen all_intervals |}).

(** ** The cut rules, one byte at a time *)

Definition cut_here (len h : Z) : bool :=
  (CDC_MIN_CHUNK <=? len) &&
  (if len <? CDC_AVG_CHUNK then is_strict h else is_light h || (len =? CDC_MAX_CHUNK)).

Definition step (st : CdcStreamChunker * list CdcChunk) (b : Z) : CdcStreamChunker * list CdcChunk :=
  let s := take_byte st.1 b in
  if cut_here (pending_size_ s) (h_ s) then emit s st.2 else (s, st.2).

(** The hash after more bytes, and the counters with it. *)
Definition take_all (s : CdcStreamChunker) (x : list Z) : CdcStreamChunker :=
  {| h_ := foldl roll (h_ s) x; pending_size_ := pending_size_ s +s zlen x; fed_ := fed_ s +s zlen x |}.

Lemma take_all_cons s b x : take_all s (b :: x) = take_all (take_byte s b) x.
Proof.
  unfold take_all, take_byte, size_add; cbn. rewrite zlen_cons. unfold u64, wrap.
  rewrite !Zplus_mod_idemp_l. f_equal; f_equal; lia.
Qed.

Lemma u64_fix a : 0 <= a < 2 ^ 64 -> u64 a = a.
Proof. apply wrap_small. Qed.

Definition counted (s : CdcStreamChunker) : Prop :=
  0 <= pending_size_ s < CDC_MAX_CHUNK /\ 0 <= fed_ s < 2 ^ 64.

Lemma pending_take s b : 0 <= pending_size_ s < CDC_MAX_CHUNK -> pending_size_ (take_byte s b) = pending_size_ s + 1.
Proof. unfold CDC_MAX_CHUNK; intros H. cbn. apply size_add_small. lia. Qed.

Lemma fed_take s b : 0 <= fed_ (take_byte s b) < 2 ^ 64.
Proof. apply wrap_range. lia. Qed.

Lemma skip_steps x s out :
  counted s -> pending_size_ s + zlen x < CDC_MIN_CHUNK -> foldl step (s, out) x = (take_all s x, out).
Proof.
  revert s. induction x as [|b x IH]; intros s [Hp Hf] Hx.
  - unfold take_all, size_add. cbn. change (zlen (@nil Z)) with 0. rewrite !Z.add_0_r.
    rewrite !u64_fix by (unfold CDC_MAX_CHUNK in *; lia). destruct s; reflexivity.
  - rewrite zlen_cons in Hx. rewrite take_all_cons. cbn [foldl]. unfold step at 2. cbn [fst snd].
    rewrite pending_take by lia. unfold cut_here.
    destruct (Z.leb_spec CDC_MIN_CHUNK (pending_size_ s + 1)) as [H1|H1]; [zlen_pose; lia|].
    cbn [andb]. apply IH.
    + split; [rewrite pending_take by lia; unfold CDC_MAX_CHUNK, CDC_MIN_CHUNK in *; lia | apply fed_take].
    + rewrite pending_take by lia. lia.
Qed.

Lemma emit_counted s out : 0 <= fed_ s < 2 ^ 64 -> counted (emit s out).1.
Proof. intros H. split; cbn; [unfold CDC_MAX_CHUNK; lia | exact H]. Qed.

Lemma strict_steps k s data out :
  counted s -> CDC_MIN_CHUNK - 1 <= pending_size_ s -> pending_size_ s + Z.of_nat k <= CDC_AVG_CHUNK - 1 ->
  Z.of_nat k <= zlen data ->
  exists pre post s' out',
    strict_loop k s data out = Ok (s', post, out') /\ data = pre ++ post /\
    foldl step (s, out) pre = (s', out') /\ counted s' /\ (0 < Z.of_nat k -> pre <> []) /\
    (pending_size_ s' = 0 \/ pending_size_ s' = pending_size_ s + Z.of_nat k /\ zlen pre = Z.of_nat k).
Proof.
  revert s data. induction k as [|k IH]; intros s data [Hp Hf] Hmin Hmax Hlen.
  - exists [], data, s, out. cbn. split_and!; auto; [split; auto | right; split; [lia | reflexivity]].
  - destruct data as [|b data]; [change (zlen (@nil Z)) with 0 in Hlen; lia|]. rewrite zlen_cons in Hlen.
    cbn [strict_loop]. assert (Hpt := pending_take s b Hp).
    assert (Hcut : cut_here (pending_size_ (take_byte s b)) (h_ (take_byte s b)) = is_strict (h_ (take_byte s b))).
    { unfold cut_here. rewrite Hpt.
      rewrite (proj2 (Z.leb_le _ _)) by lia. rewrite (proj2 (Z.ltb_lt _ _)) by lia. reflexivity. }
    destruct (is_strict (h_ (take_byte s b))) eqn:E.
    + destruct (emit (take_byte s b) out) as [s' out'] eqn:Ee.
      exists [b], data, s', out'. cbn [foldl]. unfold step. cbn [fst snd]. rewrite Hcut, Ee.
      assert (Hc := emit_counted (take_byte s b) out (fed_take s b)). rewrite Ee in Hc.
      split_and!; auto; try discriminate. left. unfold emit in Ee. now inversion Ee.
    + destruct (IH (take_byte s b) data) as (pre & post & s' & out' & H1 & H2 & H3 & H4 & _ & H6);
        [split; [rewrite Hpt; unfold CDC_AVG_CHUNK, CDC_MAX_CHUNK in *; lia | apply fed_take] | lia.. |].
      exists (b :: pre), post, s', out'. rewrite H1, H2. cbn [foldl]. unfold step at 2. cbn [fst snd].
      rewrite Hcut. split_and!; auto; try discriminate. rewrite zlen_cons.
      destruct H6 as [H6|[H6 H7]]; [left; exact H6 | right; lia].
Qed.

Lemma light_steps s data out :
  counted s -> CDC_AVG_CHUNK - 1 <= pending_size_ s ->
  exists pre post s' out',
    light_loop s data out = (s', post, out') /\ data = pre ++ post /\
    foldl step (s, out) pre = (s', out') /\ counted s' /\ (data <> [] -> pre <> []).
Proof.
  revert s. induction data as [|b data IH]; intros s [Hp Hf] Hmin.
  - exists [], [], s, out. cbn. split_and!; auto.  split; auto.
  - cbn [light_loop]. assert (Hpt := pending_take s b Hp).
    assert (Hcut : cut_here (pending_size_ (take_byte s b)) (h_ (take_byte s b)) =
                   is_light (h_ (take_byte s b)) || (pending_size_ (take_byte s b) =? CDC_MAX_CHUNK)).
    { unfold cut_here. rewrite Hpt. unfold CDC_MIN_CHUNK, CDC_AVG_CHUNK in *.
      rewrite (proj2 (Z.leb_le _ _)) by lia. rewrite (proj2 (Z.ltb_ge _ _)) by lia. reflexivity. }
    rewrite <- Hcut. destruct (cut_here _ _) eqn:E.
    + destruct (emit (take_byte s b) out) as [s' out'] eqn:Ee.
      exists [b], data, s', out'. cbn [foldl]. unfold step. cbn [fst snd]. rewrite E, Ee.
      assert (Hc := emit_counted (take_byte s b) out (fed_take s b)). rewrite Ee in Hc.
      split_and!; auto; try discriminate.
    + symmetry in Hcut. apply orb_false_iff in Hcut as [_ Hmax]. rewrite Hpt in Hmax. apply Z.eqb_neq in Hmax.
      destruct (IH (take_byte s b)) as (pre & post & s' & out' & H1 & H2 & H3 & H4 & _);
        [split; [rewrite Hpt; lia | apply fed_take] | lia |].
      exists (b :: pre), post, s', out'. rewrite H1, H2. cbn [foldl]. unfold step at 2. cbn [fst snd].
      rewrite E. split_and!; auto; try discriminate.
Qed.

Lemma skip_phase s data out :
  counted s -> 
  exists x y s1,
    (if pending_size_ s <? CDC_MIN_CHUNK - 1
     then skip_bytes s data (Z.min (zlen data) (CDC_MIN_CHUNK - 1 -s pending_size_ s))
     else mret (s, data)) = Ok (s1, y) /\
    data = x ++ y /\ foldl step (s, out) x = (s1, out) /\ counted s1 /\ (y <> [] -> CDC_MIN_CHUNK - 1 <= pending_size_ s1).
Proof.
  intros Hc. assert (Hc' := Hc). destruct Hc' as [Hp Hf]. destruct (Z.ltb_spec (pending_size_ s) (CDC_MIN_CHUNK - 1)) as [H|H].
  - rewrite (size_sub_small (CDC_MIN_CHUNK - 1)) by (unfold CDC_MIN_CHUNK in *; lia).
    set (n := Z.min _ _). assert (Hnr : 0 <= n <= zlen data) by (unfold n; zlen_pose; lia).
    set (x := take (Z.to_nat n) data). set (y := drop (Z.to_nat n) data).
    assert (Hx : zlen x = n) by (apply zlen_take; lia).
    assert (Hcp : pending_size_ (take_all s x) = pending_size_ s + n).
    { cbn [take_all pending_size_]. rewrite Hx. apply size_add_small. unfold n, CDC_MIN_CHUNK in *; zlen_pose; lia. }
    exists x, y, (take_all s x). split_and!.
    + unfold skip_bytes. rewrite slice_in by lia. rewrite bind_ok. cbn [Z.to_nat drop].
      fold x. unfold take_all. rewrite Hx. reflexivity.
    + symmetry. apply take_drop.
    + apply skip_steps; [exact Hc|]. unfold n in *. lia.
    + split; [rewrite Hcp; unfold n, CDC_MIN_CHUNK, CDC_MAX_CHUNK in *; lia | apply wrap_range; lia].
    + intros Hy. rewrite Hcp. destruct (Z.le_gt_cases (zlen data) n) as [Hn|Hn]; [|unfold n in *; lia].
      contradict Hy. apply zlen_zero_nil. unfold y. rewrite zlen_drop; lia.
  - exists [], data, s. split_and!; auto.
Qed.

(** The loop feeds every byte, one step each. *)
Lemma feed_loop_steps fuel s data out :
  (List.length data < fuel)%nat -> counted s ->
  feed_loop fuel s data out = Ok (foldl step (s, out) data) /\ counted (foldl step (s, out) data).1.
Proof.
  revert s data out. induction fuel as [|fuel IH]; intros s data out Hl Hc; [lia|].
  cbn [feed_loop]. destruct (Z.eqb_spec (zlen data) 0) as [H0|H0].
  { apply zlen_zero_nil in H0. subst data. auto. }
  destruct (skip_phase s data out Hc) as (x & y & s1 & H1 & H2 & H3 & H4 & H5).
  rewrite H1, bind_ok. rewrite H2, foldl_app, H3.
  destruct (Z.eqb_spec (zlen y) 0) as [H6|H6].
  { apply zlen_zero_nil in H6. subst y. auto. }
  assert (Hy : y <> []) by (intros ->; apply H6; reflexivity). specialize (H5 Hy).
  assert (Hxy : (List.length y <= List.length data)%nat) by (rewrite H2, length_app; lia).
  assert (Hlight : forall s out z, counted s -> (List.length z <= List.length data)%nat ->
            CDC_AVG_CHUNK - 1 <= pending_size_ s -> z <> [] ->
            let '(s', z', out') := light_loop s z out in
            feed_loop fuel s' z' out' = Ok (foldl step (s, out) z) /\ counted (foldl step (s, out) z).1).
  { intros s2 out2 z G1 G2 G3 G5. destruct (light_steps s2 z out2 G1 G3) as (pre & post & s' & out' & L1 & L2 & L3 & L4 & L5).
    rewrite L1, L2, foldl_app, L3. apply IH; [|exact L4].
    specialize (L5 G5). destruct pre; [congruence|]. rewrite L2 in G2. cbn in G2. rewrite length_app in G2. lia. }
  destruct (Z.ltb_spec (pending_size_ s1) (CDC_AVG_CHUNK - 1)) as [H7|H7].
  - rewrite (size_sub_small (CDC_AVG_CHUNK - 1)) by (destruct H4; unfold CDC_AVG_CHUNK in *; lia).
    set (k := Z.min _ _). assert (Hk : 0 < k) by (unfold k; zlen_pose; lia).
    destruct (strict_steps (Z.to_nat k) s1 y out H4 H5) as (pre & post & s' & out' & S1 & S2 & S3 & S4 & S5 & S6);
      [unfold k in *; lia | unfold k in *; lia |].
    rewrite S1, bind_ok. rewrite S2, foldl_app, S3.
    assert (Hpost : (List.length post < List.length data)%nat).
    { rewrite S2, length_app in Hxy. destruct pre; [exfalso; apply S5; [lia|reflexivity]|]. cbn in Hxy. lia. }
    destruct (Z.eqb_spec (pending_size_ s') 0) as [H8|H8]; cbn [orb]; [apply IH; [lia|exact S4]|].
    destruct (Z.eqb_spec (zlen post) 0) as [H9|H9]; [apply IH; [lia|exact S4]|].
    assert (Hne : post <> []) by (intros ->; apply H9; reflexivity).
    specialize (Hlight s' out' post S4). destruct (light_loop s' post out') as [[s3 z3] o3].
    apply Hlight; [lia | | exact Hne].
    destruct S6 as [S6|[S6 S7]]; [congruence|]. rewrite S2, zlen_app in H6. unfold k in *.
    assert (zlen y = zlen pre + zlen post) by now rewrite S2, zlen_app.
    zlen_pose; lia.
  - specialize (Hlight s1 out y H4). destruct (light_loop s1 y out) as [[s3 z3] o3].
    apply Hlight; [lia | lia | exact Hy].
Qed.

Lemma feed_steps s data out :
  counted s -> feed s data out = Ok (foldl step (s, out) data) /\ counted (foldl step (s, out) data).1.
Proof. intros H. apply feed_loop_steps; [lia|exact H]. Qed.

Lemma counted_init : counted CdcStreamChunker_init.
Proof. split; cbn; unfold CDC_MAX_CHUNK; lia. Qed.

Lemma chunk_steps data :
  chunk data = let '(s, out) := foldl step (CdcStreamChunker_init, []) data in Ok (finish s out).2.
Proof.
  unfold chunk. rewrite (proj1 (feed_steps _ data [] counted_init)), bind_ok.
  destruct (foldl step _ _). reflexivity.
Qed.

Lemma feed_blocks_steps s blocks out :
  counted s -> feed_blocks s blocks out = let '(s, out) := foldl step (s, out) (mjoin blocks) in Ok (finish s out).2.
Proof.
  revert s out. induction blocks as [|b blocks IH]; intros s out Hc; [reflexivity|].
  cbn [feed_blocks]. destruct (feed_steps s b out Hc) as [H1 H2]. rewrite H1, bind_ok.
  change (mjoin (b :: blocks)) with (b ++ mjoin blocks). rewrite foldl_app.
  destruct (foldl step (s, out) b) as [s1 out1]. now apply IH.
Qed.

(** ** The specification *)

Definition chunk_of (off : Z) (a : list Z) : CdcChunk :=
  {| offset := u64 off; length := zlen a; hash := hash_range a |}.

(** The rules allow a cut after [a], counted from the last cut. *)
Definition cuts (a : list Z) : bool := cut_here (zlen a) (hash_range a).

Inductive chunked : Z -> list Z -> list CdcChunk -> Prop :=
| chunked_nil off : chunked off [] []
| chunked_tail off a :
    a <> [] -> (forall p q, a = p ++ q -> cuts p = false) -> chunked off a [chunk_of off a]
| chunked_cut off a b out :
    cuts a = true -> (forall p q, a = p ++ q -> q <> [] -> cuts p = false) ->
    chunked (off + zlen a) b out -> chunked off (a ++ b) (chunk_of off a :: out).

Lemma cuts_bounds a : cuts a = true -> CDC_MIN_CHUNK <= zlen a.
Proof. unfold cuts, cut_here. intros H. apply andb_true_iff in H as [H _]. lia. Qed.

Lemma hash_range_snoc a b : hash_range (a ++ [b]) = roll (hash_range a) b.
Proof. unfold hash_range. now rewrite foldl_app. Qed.

(** A run in which no prefix is a cut stays below the maximum. *)
Lemma uncut_short a : (forall p q, a = p ++ q -> cuts p = false) -> zlen a < CDC_MAX_CHUNK.
Proof.
  intros H. destruct (Z.lt_ge_cases (zlen a) CDC_MAX_CHUNK) as [Hl|Hl]; [exact Hl|exfalso].
  destruct (list_cut a CDC_MAX_CHUNK) as (p & q & E & Hp); [unfold CDC_MAX_CHUNK in *; lia|].
  specialize (H p q E). unfold cuts, cut_here in H. rewrite Hp, Z.eqb_refl, orb_true_r in H. discriminate.
Qed.

Lemma uncut_snoc p b :
  (forall x y, p = x ++ y -> cuts x = false) -> cuts (p ++ [b]) = false ->
  forall x y, p ++ [b] = x ++ y -> cuts x = false.
Proof.
  intros Hp Hb x y E. destruct y as [|y0 y] using rev_ind.
  - rewrite app_nil_r in E. now subst x.
  - rewrite app_assoc in E. apply app_inj_tail in E as [E _]. now apply (Hp x y).
Qed.

Lemma uncut_nil : forall x y, (@nil Z) = x ++ y -> cuts x = false.
Proof. intros x y E. symmetry in E. apply app_eq_nil in E as [-> _]. reflexivity. Qed.

Definition pending_state (off : Z) (p : list Z) : CdcStreamChunker :=
  {| h_ := hash_range p; pending_size_ := zlen p; fed_ := u64 (off + zlen p) |}.

Lemma pending_step off p b :
  zlen p < CDC_MAX_CHUNK -> take_byte (pending_state off p) b = pending_state off (p ++ [b]).
Proof.
  intros H. unfold take_byte, pending_state. cbn [h_ pending_size_ fed_]. rewrite hash_range_snoc, zlen_app.
  change (zlen [b]) with 1. rewrite size_add_small by (unfold CDC_MAX_CHUNK in *; zlen_pose; lia).
  f_equal. unfold size_add, u64, wrap. rewrite Zplus_mod_idemp_l. f_equal. lia.
Qed.

Lemma pending_emit off p out :
  zlen p <= CDC_MAX_CHUNK ->
  emit (pending_state off p) out = (pending_state (off + zlen p) [], out ++ [chunk_of off p]).
Proof.
  intros H. unfold emit, pending_state, chunk_of. cbn [h_ pending_size_ fed_].
  change (zlen (@nil Z)) with 0. rewrite Z.add_0_r. f_equal. f_equal. f_equal. f_equal.
  - unfold size_sub, u64, wrap. rewrite Zminus_mod_idemp_l. f_equal. lia.
  - apply wrap_small. unfold CDC_MAX_CHUNK in *; zlen_pose; lia.
Qed.

Lemma steps_chunked data off p out :
  (forall x y, p = x ++ y -> cuts x = false) ->
  exists rest, (let '(s, out) := foldl step (pending_state off p, out) data in (finish s out).2) = out ++ rest /\
    chunked off (p ++ data) rest.
Proof.
  revert off p out. induction data as [|b data IH]; intros off p out Hp; assert (Hs := uncut_short p Hp).
  - cbn [foldl]. unfold finish. cbn [pending_state pending_size_]. rewrite app_nil_r.
    destruct (Z.gtb_spec (zlen p) 0) as [H|H].
    + fold (pending_state off p). rewrite pending_emit by lia. exists [chunk_of off p]. split; [reflexivity|].
      constructor; [intros ->; change (zlen (@nil Z)) with 0 in H; lia | exact Hp].
    + exists []. rewrite app_nil_r. split; [reflexivity|]. rewrite (zlen_zero_nil p) by (zlen_pose; lia). constructor.
  - cbn [foldl]. unfold step at 2. cbn [fst snd]. rewrite pending_step by exact Hs.
    cbn [pending_state pending_size_ h_]. fold (pending_state off (p ++ [b])). fold (cuts (p ++ [b])).
    assert (Ha : p ++ b :: data = (p ++ [b]) ++ data) by now rewrite <- app_assoc. rewrite Ha.
    destruct (cuts (p ++ [b])) eqn:E.
    + rewrite pending_emit by (rewrite zlen_app; change (zlen [b]) with 1; lia).
      destruct (IH (off + zlen (p ++ [b])) [] (out ++ [chunk_of off (p ++ [b])]) uncut_nil) as (rest & H1 & H2).
      exists (chunk_of off (p ++ [b]) :: rest). rewrite H1, <- app_assoc. split; [reflexivity|].
      apply chunked_cut; [exact E | | exact H2].
      intros x y Exy Hy. destruct y as [|y0 y _] using rev_ind; [congruence|].
      rewrite app_assoc in Exy. apply app_inj_tail in Exy as [Exy _]. now apply (Hp x y).
    + apply IH. now apply uncut_snoc.
Qed.

Lemma steps_from_start data :
  exists out, (let '(s, out) := foldl step (CdcStreamChunker_init, []) data in Ok (finish s out).2) = Ok out /\
    chunked 0 data out.
Proof.
  destruct (steps_chunked data 0 [] [] uncut_nil) as (rest & H1 & H2).
  exists rest. change (pending_state 0 []) with CdcStreamChunker_init in H1.
  destruct (foldl step (CdcStreamChunker_init, []) data). split; [now f_equal | exact H2].
Qed.

(** *** The specification determines the chunks *)

Lemma prefixes_comparable {A} (a b c d : list A) :
  a ++ b = c ++ d -> (exists x, x <> [] /\ c = a ++ x) \/ (exists x, x <> [] /\ a = c ++ x) \/ (a = c /\ b = d).
Proof.
  revert c. induction a as [|u a IH]; intros [|v c] E; cbn in E.
  - right; right. auto.
  - left. exists (v :: c). split; [discriminate|reflexivity].
  - right; left. exists (u :: a). split; [discriminate|reflexivity].
  - injection E as -> E. destruct (IH c E) as [(x & Hx & ->)|[(x & Hx & ->)|[-> ->]]].
    + left. exists x. auto.
    + right; left. exists x. auto.
    + right; right. auto.
Qed.

Lemma cuts_nonempty a : cuts a = true -> a <> [].
Proof. intros H ->. discriminate. Qed.

Lemma chunked_unique off text out1 out2 : chunked off text out1 -> chunked off text out2 -> out1 = out2.
Proof.
  intros H1. revert out2. induction H1 as [off|off a Hne Ha|off a b out Hc Ha H1 IH]; intros out2 H2;
    inversion H2 as [off'|off' a' Hne' Ha' Eo|off' a' b' out' Hc' Ha' H2' Eo Et]; subst; auto; try congruence.
  - apply app_eq_nil in Et as [-> ->]. now apply cuts_nonempty in Hc'.
  - now rewrite (Ha a' b' eq_refl) in Hc'.
  - match goal with E : _ |- _ => first [apply app_eq_nil in E as [-> ->] | symmetry in E; apply app_eq_nil in E as [-> ->]] end.
    now apply cuts_nonempty in Hc.
  - now rewrite (Ha' a b eq_refl) in Hc.
  - destruct (prefixes_comparable _ _ _ _ Et) as [(x & Hx & ->)|[(x & Hx & ->)|[-> ->]]].
    + now rewrite (Ha a' x eq_refl Hx) in Hc'.
    + now rewrite (Ha' a x eq_refl Hx) in Hc.
    + f_equal. now apply IH.
Qed.

(** ** The memory of the Gear hash *)

Lemma roll_range h b : 0 <= roll h b < 2 ^ 64.
Proof. apply wrap_range. lia. Qed.

Lemma foldl_roll_range h x : 0 <= h < 2 ^ 64 -> 0 <= foldl roll h x < 2 ^ 64.
Proof. revert h. induction x as [|b x IH]; intros h H; [exact H|]. apply IH, roll_range. Qed.

Lemma hash_range_range x : 0 <= hash_range x < 2 ^ 64.
Proof. apply foldl_roll_range. lia. Qed.

Lemma roll_mod h b : roll h b = (2 * h + nthZ table_ (u8 b)) mod 2 ^ 64.
Proof.
  unfold roll, u64, wrap. rewrite Zplus_mod_idemp_l, Z.shiftl_mul_pow2 by lia. f_equal. change (2 ^ 1) with 2. lia.
Qed.

Lemma foldl_roll_diff x h1 h2 :
  (foldl roll h1 x - foldl roll h2 x) mod 2 ^ 64 = (2 ^ zlen x * (h1 - h2)) mod 2 ^ 64.
Proof.
  revert h1 h2. induction x as [|b x IH]; intros h1 h2.
  - change (zlen (@nil Z)) with 0. cbn [foldl]. f_equal. lia.
  - cbn [foldl]. rewrite IH, !roll_mod, zlen_cons, Z.pow_add_r by (zlen_pose; lia).
    rewrite <- Zmult_mod_idemp_r, <- Zminus_mod, Zmult_mod_idemp_r. f_equal. ring.
Qed.

(** After 64 bytes nothing of the earlier state is left. *)
Lemma long_hash x h1 h2 :
  64 <= zlen x -> 0 <= h1 < 2 ^ 64 -> 0 <= h2 < 2 ^ 64 -> foldl roll h1 x = foldl roll h2 x.
Proof.
  intros Hx H1 H2. assert (D := foldl_roll_diff x h1 h2).
  replace (zlen x) with (64 + (zlen x - 64)) in D by lia. rewrite Z.pow_add_r in D by lia.
  rewrite <- Z.mul_assoc, Z.mul_comm, Z_mod_mult in D.
  assert (R1 := foldl_roll_range h1 x H1). assert (R2 := foldl_roll_range h2 x H2).
  apply Z.mod_divide in D; [|lia]. destruct D as [k D]. nia.
Qed.

Lemma last_64 a x : zlen x = 64 -> hash_range (a ++ x) = hash_range x.
Proof.
  intros Hx. unfold hash_range. rewrite foldl_app. apply long_hash; [lia | apply hash_range_range | lia].
Qed.

(** ** Candidates *)

Lemma high_mask h k : 0 <= h < 2 ^ 64 -> 0 <= k <= 64 -> (Z.land h (Z.shiftl (Z.ones (64 - k)) k) =? 0) = (h <? 2 ^ k).
Proof.
  intros Hh Hk. assert (E : Z.land h (Z.shiftl (Z.ones (64 - k)) k) = Z.shiftl (Z.shiftr h k) k).
  { apply Z.bits_inj'. intros i Hi. rewrite Z.land_spec. destruct (Z.ltb_spec i k) as [H|H].
    - rewrite !Z.shiftl_spec_low, andb_false_r by lia. reflexivity.
    - rewrite !Z.shiftl_spec, Z.shiftr_spec by lia. replace (i - k + k) with i by lia.
      destruct (Z.ltb_spec i 64) as [H1|H1].
      + rewrite Z.ones_spec_low, andb_true_r by lia. reflexivity.
      + rewrite (testbit_high 64 h) by lia. reflexivity. }
  rewrite E, Z.shiftl_mul_pow2, Z.shiftr_div_pow2 by lia.
  assert (Hp : 0 < 2 ^ k) by (apply Z.pow_pos_nonneg; lia).
  destruct (Z.ltb_spec h (2 ^ k)) as [H|H].
  - now rewrite Z.div_small by lia.
  - apply Z.eqb_neq. assert (1 <= h / 2 ^ k) by (apply Z.div_le_lower_bound; lia). nia.
Qed.

Lemma is_light_spec h : 0 <= h < 2 ^ 64 -> is_light h = (h <? 2 ^ 49).
Proof. intros H. unfold is_light. change mask_light_ with (Z.shiftl (Z.ones (64 - 49)) 49). apply high_mask; lia. Qed.

Lemma is_strict_spec h : 0 <= h < 2 ^ 64 -> is_strict h = (h <? 2 ^ 47).
Proof. intros H. unfold is_strict. change mask_strict_ with (Z.shiftl (Z.ones (64 - 47)) 47). apply high_mask; lia. Qed.

Lemma strict_light h : 0 <= h < 2 ^ 64 -> is_strict h = true -> is_light h = true.
Proof. intros H. rewrite is_light_spec, is_strict_spec by exact H. rewrite !Z.ltb_lt. lia. Qed.

(** No entry of the table is near 0 or 2^64. *)
Lemma table_middle b : is_byte b -> 2 ^ 51 <= nthZ table_ b <= 2 ^ 64 - 2 ^ 51.
Proof.
  intros H. assert (G : (2 ^ 51 <=? nthZ table_ b) && (nthZ table_ b <=? 2 ^ 64 - 2 ^ 51) = true); [|lia].
  revert b H. apply byte_forall. vm_compute. reflexivity.
Qed.

(** So two neighbouring positions never both match. *)
Lemma light_not_next h b : 0 <= h < 2 ^ 64 -> is_light h = true -> is_light (roll h b) = false.
Proof.
  intros H. rewrite !is_light_spec by (exact H || apply roll_range). rewrite Z.ltb_lt, Z.ltb_ge. intros Hl.
  rewrite roll_mod. assert (T := table_middle (u8 b) (wrap_range 8 b ltac:(lia))).
  rewrite Z.mod_small by lia. lia.
Qed.

Definition mark (i h : Z) : CandidateInterval :=
  {| start_off := i; count := 1; flags := Z.lor (if is_strict h then MATCH_STRICT else 0) MATCH_LIGHT |}.

(** The matching positions of [x] from position [i] on. *)
Fixpoint marks (i h : Z) (x : list Z) : list CandidateInterval :=
  match x with
  | [] => []
  | b :: x => let h := roll h b in (if is_light h then [mark i h] else []) ++ marks (i + 1) h x
  end.

Lemma marks_app i h x y : marks i h (x ++ y) = marks i h x ++ marks (i + zlen x) (foldl roll h x) y.
Proof.
  revert i h. induction x as [|b x IH]; intros i h.
  - cbn. change (zlen (@nil Z)) with 0. now rewrite Z.add_0_r.
  - cbn [app marks foldl]. rewrite IH, zlen_cons, <- app_assoc. do 3 f_equal. lia.
Qed.

Lemma marks_hash i h1 h2 b x : roll h1 b = roll h2 b -> marks i h1 (b :: x) = marks i h2 (b :: x).
Proof. intros E. cbn [marks]. now rewrite E. Qed.

(** What [back] shows while the scan is at position [i] with hash [h]. *)
Definition scan_inv (i h : Z) (intervals : list CandidateInterval) : Prop :=
  0 <= h < 2 ^ 64 /\
  forall c, back intervals = Some c -> start_off c +s count c = i -> is_light h = true.

Lemma back_snoc l c : back (l ++ [c]) = Some c.
Proof. unfold back. rewrite reverse_app. reflexivity. Qed.

Lemma scan_slice_marks m x i h intervals :
  0 <= i -> i + zlen x < 2 ^ 64 -> scan_inv i h intervals ->
  (forall c, back intervals = Some c -> start_off c +s count c <= i) ->
  scan_slice m x i h intervals = ([], true) \/
  scan_slice m x i h intervals = (intervals ++ marks i h x, false).
Proof.
  revert i h intervals. induction x as [|b x IH]; intros i h intervals Hi Hl [Hh Hinv] Hb.
  - right. cbn. now rewrite app_nil_r.
  - cbn [scan_slice marks]. rewrite zlen_cons in Hl. assert (Hr := roll_range h b).
    assert (Hor : is_strict (roll h b) || is_light (roll h b) = is_light (roll h b)).
    { destruct (is_strict (roll h b)) eqn:E; [|reflexivity]. now rewrite (strict_light _ Hr E). }
    rewrite Hor. destruct (is_light (roll h b)) eqn:E.
    + assert (Hne : match back intervals with
                    | Some c => (start_off c +s count c =? i) &&
                        (flags c =? Z.lor (if is_strict (roll h b) then MATCH_STRICT else 0) MATCH_LIGHT)
                    | None => false end = false).
      { destruct (back intervals) as [c|] eqn:Eb; [|reflexivity].
        destruct (Z.eqb_spec (start_off c +s count c) i) as [Ec|Ec]; [|reflexivity].
        assert (Hx := light_not_next h b Hh (Hinv c eq_refl Ec)). congruence. }
      rewrite Hne. destruct (zlen intervals >=? m); [left; reflexivity|].
      fold (mark i (roll h b)).
      assert (Es : start_off (mark i (roll h b)) +s count (mark i (roll h b)) = i + 1)
        by (cbn; apply size_add_small; zlen_pose; lia).
      cbn [app].
      replace (intervals ++ mark i (roll h b) :: marks (i + 1) (roll h b) x)
        with ((intervals ++ [mark i (roll h b)]) ++ marks (i + 1) (roll h b) x) by now rewrite <- app_assoc.
      apply IH; [lia | lia | split; [exact Hr|] |].
      * intros c Hc _. exact E.
      * intros c. rewrite back_snoc. intros [= <-]. lia.
    + cbn [app]. apply IH; [lia | lia | split; [exact Hr|] |].
      * intros c Hc Ec. specialize (Hb c Hc). lia.
      * intros c Hc. specialize (Hb c Hc). lia.
Qed.

(** ** The slices *)

Lemma slice_between a x b : slice (a ++ x ++ b) (zlen a) (zlen x) = Ok x.
Proof. apply (slice_view _ _ _ b); [zlen_lia | now apply view_app]. Qed.

Lemma slice_between' m a x b i n : m = a ++ x ++ b -> i = zlen a -> n = zlen x -> slice m i n = Ok x.
Proof. intros -> -> ->. apply slice_between. Qed.

Section slices.
Context (data : list Z) (num_slices : Z).
Hypothesis (Hsize : zlen data < 2 ^ 63) (Hnum : 2 <= num_slices) (Hmany : num_slices * (2 * CDC_MAX_CHUNK) <= zlen data).

Let slice_size := zlen data / num_slices.

(** Where slice [k] starts, and where the last one ends. *)
Definition slice_start (k : Z) : Z := if k =? num_slices then zlen data else k * (zlen data / num_slices).

Lemma slice_size_large : 2 * CDC_MAX_CHUNK <= slice_size.
Proof. apply Z.div_le_lower_bound; lia. Qed.

Lemma slice_start_step k :
  0 <= k < num_slices -> k * slice_size = slice_start k /\ slice_start k + 2 * CDC_MAX_CHUNK <= slice_start (k + 1) <= zlen data.
Proof.
  intros Hk. assert (Hs := slice_size_large). unfold slice_start. fold slice_size.
  assert (Hq : num_slices * slice_size <= zlen data) by (apply Z.mul_div_le; lia).
  rewrite (proj2 (Z.eqb_neq k num_slices)) by lia. unfold CDC_MAX_CHUNK in *.
  destruct (Z.eqb_spec (k + 1) num_slices); split_and!; nia.
Qed.

Lemma scan_slice_at_marks k :
  0 <= k < num_slices ->
  exists l o, scan_slice_at data num_slices k = Ok (l, o) /\
    (o = false -> forall a x b, data = a ++ x ++ b -> zlen a = slice_start k -> zlen x = slice_start (k + 1) - slice_start k ->
       l = marks (zlen a) (hash_range a) x).
Proof.
  intros Hk. destruct (slice_start_step k Hk) as [Hstart [Hstep Hend]]. unfold CDC_MAX_CHUNK in Hstep.
  assert (H0 : 0 <= slice_start k).
  { unfold slice_start. destruct (k =? num_slices); [apply zlen_nonneg|]. fold slice_size.
    assert (Hs := slice_size_large). unfold CDC_MAX_CHUNK in Hs. nia. }
  destruct (list_cut data (slice_start k)) as (a & r & E & Ha); [lia|].
  destruct (list_cut r (slice_start (k + 1) - slice_start k)) as (x & b & -> & Hx).
  { assert (zlen data = zlen a + zlen r) by now rewrite E, zlen_app. lia. }
  unfold scan_slice_at. fold slice_size. rewrite Hstart.
  replace (if k + 1 =? num_slices then zlen data else (k + 1) * slice_size) with (slice_start (k + 1)) by reflexivity.
  rewrite (size_sub_small (slice_start (k + 1))) by lia.
  set (warm := if k =? 0 then 0 else slice_start k -s 63).
  assert (Hwarm : exists a1 w, a = a1 ++ w /\ zlen a1 = warm /\ (a1 = [] \/ zlen w = 63)).
  { unfold warm. destruct (Z.eqb_spec k 0) as [Hk0|Hk0]; [exists [], a; auto|].
    assert (63 <= slice_start k).
    { destruct (slice_start_step (k - 1)) as [_ [Hp _]]; [lia|]. replace (k - 1 + 1) with k in Hp by lia.
      assert (0 <= slice_start (k - 1)).
      { unfold slice_start. destruct (k - 1 =? num_slices); [apply zlen_nonneg|]. fold slice_size.
        assert (Hs := slice_size_large). unfold CDC_MAX_CHUNK in Hs. nia. }
      unfold CDC_MAX_CHUNK in Hp. lia. }
    rewrite size_sub_small by lia. destruct (list_cut a (slice_start k - 63)) as (a1 & w & Ea & Hw); [lia|].
    exists a1, w. split_and!; [exact Ea | exact Hw | right]. rewrite Ea, zlen_app in Ha. lia. }
  destruct Hwarm as (a1 & w & Ea & Ha1 & Hw).
  rewrite (slice_between' data a1 w (x ++ b) warm) ; [| rewrite E, Ea, <- app_assoc; reflexivity | auto | rewrite <- Ha, Ea, zlen_app; lia].
  rewrite bind_ok. rewrite (slice_between' data a x b); [| exact E | auto | auto]. rewrite bind_ok.
  destruct (scan_slice _ x (slice_start k) (foldl roll 0 w) []) as [l o] eqn:Es.
  exists l, o. split; [reflexivity|]. intros -> a' x' b' E' Ha' Hx'.
  assert (a' = a /\ x' = x) as [-> ->].
  { rewrite E in E'. apply app_inj_1 in E' as [-> E']; [|unfold zlen in *; lia].
    apply app_inj_1 in E' as [-> _]; [auto | unfold zlen in *; lia]. }
  destruct (scan_slice_marks (Z.max ((slice_start (k + 1) - slice_start k) / 1024) 64) x (slice_start k) (foldl roll 0 w) [])
    as [H|H]; [lia | lia | | | |].
  - split; [apply hash_range_range | discriminate].
  - discriminate.
  - rewrite H in Es. discriminate.
  - rewrite H in Es. injection Es as <-. cbn [app]. rewrite Ha. destruct x as [|c x]; [reflexivity|].
    apply marks_hash. destruct Hw as [->|Hw]; [now rewrite Ea|].
    rewrite Ea. unfold hash_range. rewrite foldl_app.
    assert (G : foldl roll 0 (w ++ [c]) = foldl roll (hash_range a1) (w ++ [c]))
      by (apply long_hash; [zlen_lia | lia | apply hash_range_range]).
    rewrite !foldl_app in G. exact G.
Qed.

Lemma scan_all_marks k :
  Z.of_nat k <= num_slices ->
  exists l : list (list CandidateInterval * bool), scan_all data num_slices k = Ok l /\
    (existsb snd l = false -> forall a b, data = a ++ b -> zlen a = slice_start (Z.of_nat k) ->
       mjoin (map fst l) = marks 0 0 a).
Proof.
  induction k as [|k IH]; intros Hk.
  - exists []. split; [reflexivity|]. intros _ a b _ Ha.
    assert (a = []) as ->; [|reflexivity]. apply zlen_zero_nil. rewrite Ha. unfold slice_start.
    now rewrite (proj2 (Z.eqb_neq _ _)) by lia.
  - destruct IH as (l & Hl & Hm); [lia|]. destruct (scan_slice_at_marks (Z.of_nat k)) as (l1 & o & H1 & H2); [lia|].
    exists (l ++ [(l1, o)]). split; [cbn [scan_all]; now rewrite Hl, bind_ok, H1, bind_ok|].
    rewrite existsb_app, map_app, join_app. cbn. rewrite !orb_false_r, app_nil_r. intros Ho a b E Ha.
    apply orb_false_iff in Ho as [Ho1 ->].
    destruct (slice_start_step (Z.of_nat k)) as [_ [S1 S2]]; [lia|]. rewrite Nat2Z.inj_succ in Ha.
    change (Z.succ (Z.of_nat k)) with (Z.of_nat k + 1) in Ha. unfold CDC_MAX_CHUNK in S1.
    assert (H0 : 0 <= slice_start (Z.of_nat k)).
    { unfold slice_start. destruct (_ =? num_slices); [apply zlen_nonneg|]. fold slice_size.
      assert (Hs := slice_size_large). unfold CDC_MAX_CHUNK in Hs. nia. }
    destruct (list_cut a (slice_start (Z.of_nat k))) as (a1 & x & -> & Ha1); [lia|]. rewrite zlen_app in Ha.
    rewrite <- app_assoc in E. rewrite (Hm Ho1 a1 (x ++ b) E Ha1), marks_app.
    f_equal. rewrite (H2 eq_refl a1 x b E Ha1) by lia. reflexivity.
Qed.

End slices.

(** ** The replay *)

Lemma start_count i h : 0 <= i < 2 ^ 63 -> start_off (mark i h) +s count (mark i h) = i + 1.
Proof. intros H. apply size_add_small. cbn. lia. Qed.

Lemma skip_beyond bound x j z :
  0 <= bound < j -> j + zlen x < 2 ^ 63 -> skip_until bound (marks j z x) = marks j z x.
Proof.
  revert j z. induction x as [|c x IH]; intros j z Hj Hl; [reflexivity|]. cbn [marks]. rewrite zlen_cons in Hl.
  destruct (is_light (roll z c)); [|apply IH; lia]. cbn [app skip_until].
  rewrite start_count by (zlen_pose; lia). now rewrite (proj2 (Z.leb_gt _ _)) by lia.
Qed.

Lemma skip_marks i h a b :
  0 <= i -> i + zlen a + zlen b < 2 ^ 63 ->
  skip_until (i + zlen a) (marks i h (a ++ b)) = marks (i + zlen a) (foldl roll h a) b.
Proof.
  revert i h. induction a as [|c a IH]; intros i h Hi Hl.
  - change (zlen (@nil Z)) with 0 in *. rewrite Z.add_0_r in *. cbn [app foldl].
    destruct b as [|c b]; [reflexivity|]. cbn [marks]. rewrite zlen_cons in Hl.
    destruct (is_light (roll h c)); cbn [app]; [|apply skip_beyond; lia].
    cbn [skip_until]. rewrite start_count by (zlen_pose; lia).
    now rewrite (proj2 (Z.leb_gt _ _)) by lia.
  - rewrite zlen_cons in *. cbn [app marks foldl].
    replace (i + (1 + zlen a)) with (i + 1 + zlen a) by lia.
    destruct (is_light (roll h c)); cbn [app]; [|apply IH; lia].
    cbn [skip_until]. rewrite start_count by (zlen_pose; lia).
    rewrite (proj2 (Z.leb_le _ _)) by (zlen_pose; lia). apply IH; lia.
Qed.

(** The two masks and what they ask of a hash. *)
Inductive mask_test : Z -> (Z -> bool) -> Prop :=
| test_strict : mask_test MATCH_STRICT is_strict
| test_light : mask_test MATCH_LIGHT is_light.

Lemma mark_flag mask test i h :
  mask_test mask test -> is_light h = true -> negb (Z.land (flags (mark i h)) mask =? 0) = test h.
Proof. intros [] Hl; cbn; [destruct (is_strict h); reflexivity | rewrite Hl; destruct (is_strict h); reflexivity]. Qed.

Lemma test_needs_light mask test h :
  mask_test mask test -> 0 <= h < 2 ^ 64 -> test h = true -> is_light h = true.
Proof. intros [] H; [now apply strict_light | auto]. Qed.

(** No position of [a], entered with the hash [h], passes the test. *)
Definition none_in (test : Z -> bool) (h : Z) (a : list Z) : Prop :=
  forall x c y, a = x ++ c :: y -> test (foldl roll h (x ++ [c])) = false.

Lemma none_cons test h c a : test (roll h c) = false -> none_in test (roll h c) a -> none_in test h (c :: a).
Proof. intros H1 H2 [|u x] v y E; cbn in E; injection E as -> E; [exact H1|]. apply (H2 x v y E). Qed.

Lemma none_nil test h : none_in test h [].
Proof. intros x c y E. now destruct x. Qed.

Lemma search_beyond mask low high j z x :
  high <= j -> search mask low high (marks j z x) = (2 ^ 64 - 1, marks j z x).
Proof.
  revert j z. induction x as [|c x IH]; intros j z Hj; [reflexivity|]. cbn [marks].
  destruct (is_light (roll z c)); [|apply IH; lia]. cbn [app search mark start_off].
  now rewrite (proj2 (Z.ltb_ge _ _)) by lia.
Qed.

Lemma search_marks mask test low high i h a b :
  mask_test mask test -> low <= i -> high = i + zlen a ->
  (exists a1 c a2, a = a1 ++ c :: a2 /\ none_in test h a1 /\ test (foldl roll h (a1 ++ [c])) = true /\
     (search mask low high (marks i h (a ++ b))).1 = i + zlen a1) \/
  (none_in test h a /\ search mask low high (marks i h (a ++ b)) = (2 ^ 64 - 1, marks high (foldl roll h a) b)).
Proof.
  intros Ht. revert i h. induction a as [|c a IH]; intros i h Hi Hh.
  - right. change (zlen (@nil Z)) with 0 in Hh. split; [apply none_nil|]. subst high. rewrite Z.add_0_r.
    apply search_beyond. lia.
  - rewrite zlen_cons in Hh. cbn [app marks foldl]. assert (Hr := roll_range h c).
    assert (Hnext : test (roll h c) = false ->
      (exists a1 c0 a2, c :: a = a1 ++ c0 :: a2 /\ none_in test h a1 /\ test (foldl roll h (a1 ++ [c0])) = true /\
         (search mask low high (marks (i + 1) (roll h c) (a ++ b))).1 = i + zlen a1) \/
      (none_in test h (c :: a) /\
         search mask low high (marks (i + 1) (roll h c) (a ++ b)) = (2 ^ 64 - 1, marks high (foldl roll (roll h c) a) b))).
    { intros Hf. destruct (IH (i + 1) (roll h c)) as [(a1 & c0 & a2 & -> & H2 & H3 & H4)|[H1 H2]]; [lia | lia | left | right].
      - exists (c :: a1), c0, a2. split_and!; [reflexivity | now apply none_cons | exact H3 | rewrite H4, zlen_cons; lia].
      - split; [now apply none_cons | exact H2]. }
    destruct (is_light (roll h c)) eqn:El; cbn [app].
    + cbn [search]. change (start_off (mark i (roll h c))) with i.
      rewrite (proj2 (Z.ltb_lt i high)) by (zlen_pose; lia). rewrite (mark_flag mask test) by auto.
      destruct (test (roll h c)) eqn:Et; [left | apply Hnext; reflexivity].
      exists [], c, a. rewrite Z.max_l by lia. rewrite (proj2 (Z.ltb_lt i high)) by (zlen_pose; lia).
      split_and!; [reflexivity | apply none_nil | exact Et | cbn; change (zlen (@nil Z)) with 0; lia].
    + apply Hnext. destruct (test (roll h c)) eqn:Et; [|reflexivity].
      now rewrite (test_needs_light mask test _ Ht Hr Et) in El.
Qed.

Lemma prefix_within {A} (a b x : list A) c q :
  a ++ b = x ++ c :: q -> zlen x < zlen a -> exists y, a = x ++ c :: y.
Proof.
  revert a. induction x as [|u x IH]; intros [|v a] E Hl; cbn in E.
  - change (zlen (@nil A)) with 0 in Hl. lia.
  - injection E as -> E. now exists a.
  - change (zlen (@nil A)) with 0 in Hl. zlen_pose; lia.
  - injection E as -> E. rewrite !zlen_cons in Hl. destruct (IH a E) as [y ->]; [lia|]. now exists y.
Qed.

Lemma prefix_after {A} (a s p q : list A) :
  a ++ s = p ++ q -> zlen a < zlen p -> exists x c, p = a ++ x ++ [c] /\ s = x ++ c :: q.
Proof.
  revert p. induction a as [|u a IH]; intros p E Hl; cbn in E.
  - destruct p as [|c x] using rev_ind; [change (zlen (@nil A)) with 0 in Hl; lia|].
    exists x, c. rewrite <- app_assoc in E. auto.
  - destruct p as [|v p]; [change (zlen (@nil A)) with 0 in Hl; zlen_pose; lia|].
    injection E as <- E. rewrite !zlen_cons in Hl. destruct (IH p E) as (x & c & -> & Hs); [lia|].
    exists x, c. auto.
Qed.

Lemma cuts_short p : zlen p < CDC_MIN_CHUNK -> cuts p = false.
Proof. intros H. unfold cuts, cut_here. now rewrite (proj2 (Z.leb_gt _ _)) by lia. Qed.

Lemma hash_from h a x :
  0 <= h < 2 ^ 64 -> 64 <= zlen a + zlen x -> foldl roll (foldl roll h a) x = hash_range (a ++ x).
Proof. intros H1 H2. rewrite <- foldl_app. apply long_hash; [zlen_lia | lia | lia]. Qed.

Lemma cuts_rule h a x :
  0 <= h < 2 ^ 64 -> CDC_MIN_CHUNK <= zlen (a ++ x) < CDC_MAX_CHUNK ->
  cuts (a ++ x) = (if zlen (a ++ x) <? CDC_AVG_CHUNK then is_strict else is_light) (foldl roll (foldl roll h a) x).
Proof.
  intros Hh Hl. unfold CDC_MIN_CHUNK in Hl. rewrite zlen_app in *. rewrite (hash_from h) by lia.
  unfold cuts, cut_here. rewrite zlen_app, (proj2 (Z.leb_le _ _)) by (unfold CDC_MIN_CHUNK; lia).
  destruct (_ <? _); [reflexivity|]. rewrite (proj2 (Z.eqb_neq _ CDC_MAX_CHUNK)) by lia. apply orb_false_r.
Qed.

(** At the maximum any text is cut. *)
Lemma cuts_max p : zlen p = CDC_MAX_CHUNK -> cuts p = true.
Proof. intros H. unfold cuts, cut_here. rewrite H, Z.eqb_refl, orb_true_r. reflexivity. Qed.

(** Where the replay cuts: the first cut of [r], or nowhere. *)
Definition first_cut (last : Z) (r : list Z) (cut_at : Z) : Prop :=
  (exists p q, r = p ++ q /\ cuts p = true /\ (forall x y, p = x ++ y -> y <> [] -> cuts x = false) /\
     CDC_MIN_CHUNK <= zlen p <= CDC_MAX_CHUNK /\ cut_at = last + zlen p - 1) \/
  (cut_at = 2 ^ 64 - 1 /\ forall p q, r = p ++ q -> zlen p < CDC_MAX_CHUNK -> cuts p = false).

Definition replay_cut (last size : Z) (cands : list CandidateInterval) : Z :=
  let '(cut_at, rest) := search MATCH_STRICT (last + CDC_MIN_CHUNK - 1) (Z.min size (last + CDC_AVG_CHUNK - 1)) cands in
  if cut_at =? 2 ^ 64 - 1
  then (search MATCH_LIGHT (Z.min size (last + CDC_AVG_CHUNK - 1)) (Z.min size (last + CDC_MAX_CHUNK))
          (skip_until (Z.min size (last + CDC_AVG_CHUNK - 1)) rest)).1
  else cut_at.

(** A cut in the region [b] after [a], when nothing before it cuts. *)
Lemma cut_found h a b t x c y :
  0 <= h < 2 ^ 64 -> b = x ++ c :: y ->
  (forall p q, a ++ x = p ++ q -> cuts p = false) ->
  (zlen (a ++ x ++ [c]) < CDC_MAX_CHUNK -> cuts (a ++ x ++ [c]) = true) ->
  CDC_MIN_CHUNK <= zlen (a ++ x ++ [c]) <= CDC_MAX_CHUNK -> forall last,
  first_cut last (a ++ b ++ t) (last + zlen a + zlen x).
Proof.
  intros Hh -> Hbefore Hcut Hl last. left. exists (a ++ x ++ [c]), (y ++ t). split_and!.
  - rewrite <- !app_assoc. reflexivity.
  - destruct (Z.eq_dec (zlen (a ++ x ++ [c])) CDC_MAX_CHUNK) as [E|E]; [now apply cuts_max | apply Hcut; lia].
  - intros p q E Hq. destruct q as [|u q _] using rev_ind; [congruence|].
    rewrite !app_assoc in E. apply app_inj_tail in E as [E _]. now apply (Hbefore p q).
  - lia.
  - lia.
  - rewrite !zlen_app. change (zlen [c]) with 1. lia.
Qed.

(** Nothing cuts inside a region without matches. *)
Lemma region_uncut h a b p q :
  0 <= h < 2 ^ 64 -> (forall x y, a = x ++ y -> cuts x = false) -> CDC_MIN_CHUNK - 1 <= zlen a ->
  (zlen (a ++ b) < CDC_AVG_CHUNK /\ none_in is_strict (foldl roll h a) b \/
   CDC_AVG_CHUNK - 1 <= zlen a /\ zlen p < CDC_MAX_CHUNK /\ none_in is_light (foldl roll h a) b) ->
  a ++ b = p ++ q -> cuts p = false.
Proof.
  intros Hh Ha Hmin Hn E. destruct (Z.le_gt_cases (zlen p) (zlen a)) as [Hp|Hp].
  - destruct (list_cut a (zlen p)) as (x & y & -> & Hx); [zlen_pose; lia|].
    rewrite <- app_assoc in E. apply app_inj_1 in E as [-> _]; [|unfold zlen in *; lia]. apply (Ha p y eq_refl).
  - destruct (prefix_after a b p q E Hp) as (x & c & -> & Hb).
    assert (Hlp : zlen (a ++ x ++ [c]) = zlen a + zlen x + 1) by (rewrite !zlen_app; change (zlen [c]) with 1; lia).
    assert (Hlb : zlen b = zlen x + 1 + zlen q) by (rewrite Hb, zlen_app, zlen_cons; lia).
    destruct Hn as [[Hl Hn]|[Hl [Hpm Hn]]].
    + rewrite zlen_app in Hl. rewrite (cuts_rule h) by (auto; unfold CDC_AVG_CHUNK, CDC_MAX_CHUNK in *; zlen_pose; lia).
      rewrite (proj2 (Z.ltb_lt _ _)) by (zlen_pose; lia). apply (Hn x c q Hb).
    + rewrite (cuts_rule h) by (auto; zlen_pose; lia).
      rewrite (proj2 (Z.ltb_ge _ _)) by (zlen_pose; lia). apply (Hn x c q Hb).
Qed.

Section replay.
Context (last h : Z) (a0 s : list Z).
Hypothesis (Hlast : 0 <= last) (Hh : 0 <= h < 2 ^ 64) (Ha0 : zlen a0 = CDC_MIN_CHUNK - 1) (Hs : 0 < zlen s)
           (Hfit : last + zlen a0 + zlen s < 2 ^ 63).

Let size := last + zlen a0 + zlen s.
Let avg := Z.min size (last + CDC_AVG_CHUNK - 1).
Let max := Z.min size (last + CDC_MAX_CHUNK).

Lemma a0_uncut x y : a0 = x ++ y -> cuts x = false.
Proof. intros E. apply cuts_short. assert (zlen a0 = zlen x + zlen y) by now rewrite E, zlen_app. zlen_pose; lia. Qed.

Lemma strict_part a s1 :
  s = a ++ s1 -> zlen a = avg - (last + CDC_MIN_CHUNK - 1) ->
  first_cut last (a0 ++ s) (search MATCH_STRICT (last + CDC_MIN_CHUNK - 1) avg (marks (last + CDC_MIN_CHUNK - 1) (foldl roll h a0) s)).1 /\
    (search MATCH_STRICT (last + CDC_MIN_CHUNK - 1) avg (marks (last + CDC_MIN_CHUNK - 1) (foldl roll h a0) s)).1 < 2 ^ 64 - 1 \/
  none_in is_strict (foldl roll h a0) a /\
  search MATCH_STRICT (last + CDC_MIN_CHUNK - 1) avg (marks (last + CDC_MIN_CHUNK - 1) (foldl roll h a0) s) =
    (2 ^ 64 - 1, marks avg (foldl roll (foldl roll h a0) a) s1).
Proof.
  intros Es Ha. rewrite Es.
  destruct (search_marks MATCH_STRICT is_strict (last + CDC_MIN_CHUNK - 1) avg (last + CDC_MIN_CHUNK - 1)
              (foldl roll h a0) a s1 test_strict) as [(a1 & c & a2 & E & H2 & H3 & H4)|[H1 H2]];
    [lia | lia | left | right; split; assumption].
  rewrite H4. assert (Hla : zlen a = zlen a1 + 1 + zlen a2) by (rewrite E, zlen_app, zlen_cons; lia).
  assert (Hl3 : zlen (a0 ++ a1 ++ [c]) = CDC_MIN_CHUNK + zlen a1) by (rewrite !zlen_app; change (zlen [c]) with 1; lia).
  unfold avg in Ha. split; [|unfold size in *; zlen_pose; lia].
  replace (last + CDC_MIN_CHUNK - 1 + zlen a1) with (last + zlen a0 + zlen a1) by lia.
  apply (cut_found h a0 a s1 a1 c a2); [exact Hh | exact E | | |].
  - intros p q. apply (region_uncut h a0 a1 p q Hh a0_uncut); [lia|]. left. split; [|exact H2].
    rewrite zlen_app. zlen_pose; lia.
  - intros _. rewrite (cuts_rule h) by (auto; unfold CDC_AVG_CHUNK, CDC_MAX_CHUNK in *; zlen_pose; lia).
    rewrite (proj2 (Z.ltb_lt _ _)) by (zlen_pose; lia). exact H3.
  - unfold CDC_AVG_CHUNK, CDC_MAX_CHUNK in *. zlen_pose; lia.
Qed.

Lemma light_part a b t :
  s = a ++ b ++ t -> zlen a = avg - (last + CDC_MIN_CHUNK - 1) -> zlen b = max - avg ->
  none_in is_strict (foldl roll h a0) a ->
  first_cut last (a0 ++ s) (search MATCH_LIGHT avg max (marks avg (foldl roll (foldl roll h a0) a) (b ++ t))).1.
Proof.
  intros Es Ha Hb Hn. assert (Hls : zlen s = zlen a + zlen b + zlen t) by (rewrite Es, !zlen_app; lia).
  assert (Ha_uncut : forall p q, a0 ++ a = p ++ q -> cuts p = false).
  { intros p q. apply (region_uncut h a0 a p q Hh a0_uncut); [lia|]. left. split; [|exact Hn].
    rewrite zlen_app. unfold avg in Ha. zlen_pose; lia. }
  assert (Hla : zlen (a0 ++ a) = avg - last) by (rewrite zlen_app; lia).
  assert (Hmin : CDC_MIN_CHUNK - 1 <= zlen (a0 ++ a)) by (rewrite zlen_app; zlen_pose; lia).
  rewrite Es, app_assoc. rewrite <- foldl_app.
  destruct (search_marks MATCH_LIGHT is_light avg max avg (foldl roll h (a0 ++ a)) b t test_light)
    as [(b1 & c & b2 & E & H2 & H3 & H4)|[H1 H2]]; [lia | lia | |].
  - rewrite H4. assert (Hlb : zlen b = zlen b1 + 1 + zlen b2) by (rewrite E, zlen_app, zlen_cons; lia).
    assert (Havg : zlen (a0 ++ a) = CDC_AVG_CHUNK - 1) by (unfold avg, max, size in *; zlen_pose; lia).
    assert (Hl3 : zlen ((a0 ++ a) ++ b1 ++ [c]) = CDC_AVG_CHUNK + zlen b1)
      by (rewrite (zlen_app (a0 ++ a)), (zlen_app b1), Havg; change (zlen [c]) with 1; lia).
    replace (avg + zlen b1) with (last + zlen (a0 ++ a) + zlen b1) by lia.
    apply (cut_found h (a0 ++ a) b t b1 c b2); [exact Hh | exact E | | |].
    + intros p q Ep. apply (region_uncut h (a0 ++ a) b1 p q Hh Ha_uncut Hmin); [|exact Ep]. right.
      assert (Hpq : zlen ((a0 ++ a) ++ b1) = zlen p + zlen q) by now rewrite Ep, zlen_app.
      rewrite (zlen_app (a0 ++ a)), Havg in Hpq.
      split_and!; [lia | unfold avg, max, size, CDC_AVG_CHUNK, CDC_MAX_CHUNK in *; zlen_pose; lia | exact H2].
    + intros Hm. rewrite (cuts_rule h) by (auto; unfold CDC_AVG_CHUNK, CDC_MIN_CHUNK in *; zlen_pose; lia).
      rewrite (proj2 (Z.ltb_ge _ _)) by (zlen_pose; lia). exact H3.
    + unfold max, size, CDC_AVG_CHUNK, CDC_MIN_CHUNK, CDC_MAX_CHUNK in *. zlen_pose; lia.
  - rewrite H2. right. split; [reflexivity|]. intros p q Ep Hp.
    assert (El : zlen ((a0 ++ a) ++ b ++ t) = zlen p + zlen q) by now rewrite Ep, zlen_app.
    rewrite !zlen_app in El. rewrite app_assoc in Ep.
    assert (Hp' : zlen p <= zlen ((a0 ++ a) ++ b)).
    { rewrite !zlen_app. unfold max, avg, size, CDC_AVG_CHUNK, CDC_MAX_CHUNK in *. zlen_pose; lia. }
    destruct (list_cut ((a0 ++ a) ++ b) (zlen p)) as (p' & q' & E' & Lp); [zlen_pose; lia|].
    rewrite E', <- app_assoc in Ep. apply app_inj_1 in Ep as [<- _]; [|unfold zlen in *; lia].
    destruct (Z.lt_ge_cases size (last + CDC_AVG_CHUNK)) as [Hsz|Hsz].
    + assert (b = []) as -> by (apply zlen_zero_nil; unfold max, avg, CDC_AVG_CHUNK, CDC_MAX_CHUNK in *; zlen_pose; lia).
      rewrite app_nil_r in E'. apply (Ha_uncut p' q' E').
    + apply (region_uncut h (a0 ++ a) b p' q' Hh Ha_uncut Hmin); [right|exact E']. split_and!; [|exact Hp|exact H1].
      unfold avg in *. lia.
Qed.

Lemma replay_first_cut :
  first_cut last (a0 ++ s) (replay_cut last size (marks (last + CDC_MIN_CHUNK - 1) (foldl roll h a0) s)).
Proof.
  unfold replay_cut. fold avg max.
  assert (Hreg : 0 <= avg - (last + CDC_MIN_CHUNK - 1) <= zlen s /\ 0 <= max - avg /\ max <= size).
  { unfold avg, max, size, CDC_AVG_CHUNK, CDC_MAX_CHUNK, CDC_MIN_CHUNK in *. lia. }
  destruct (list_cut s (avg - (last + CDC_MIN_CHUNK - 1))) as (a & s1 & Es & Ha); [lia|].
  assert (Hls : zlen s = zlen a + zlen s1) by now rewrite Es, zlen_app.
  destruct (list_cut s1 (max - avg)) as (b & t & Es1 & Hb); [unfold size in *; lia|].
  destruct (strict_part a s1 Es Ha) as [[H1 H2]|[H1 H2]].
  - destruct (search MATCH_STRICT _ _ _) as [cut rest]. cbn [fst] in *.
    now rewrite (proj2 (Z.eqb_neq _ _)) by lia.
  - rewrite H2, Z.eqb_refl. rewrite Es1.
    assert (Hskip := skip_marks avg (foldl roll (foldl roll h a0) a) [] (b ++ t)).
    change (zlen (@nil Z)) with 0 in Hskip. rewrite Z.add_0_r in Hskip. cbn [app foldl] in Hskip.
    rewrite Hskip; [|unfold avg, size, CDC_AVG_CHUNK in *; zlen_pose; lia |].
    + apply light_part; [now rewrite <- Es1 | exact Ha | exact Hb | exact H1].
    + rewrite <- Es1. unfold size in *. lia.
Qed.
End replay.

Lemma chunked_last off r :
  r <> [] -> (forall p q, r = p ++ q -> q <> [] -> cuts p = false) -> chunked off r [chunk_of off r].
Proof.
  intros Hr Hc. destruct (cuts r) eqn:E.
  - rewrite <- (app_nil_r r) at 1. apply chunked_cut; [exact E | exact Hc | constructor].
  - apply chunked_tail; [exact Hr|]. intros p q Eq. destruct q as [|u q]; [|apply (Hc p (u :: q) Eq); discriminate].
    rewrite app_nil_r in Eq. now subst r.
Qed.

(** The hash of a piece of at least 64 bytes, read from its end. *)
Lemma piece_hash a p b :
  64 <= zlen p -> exists x, slice (a ++ p ++ b) (zlen a + zlen p - 64) 64 = Ok x /\ hash_range x = hash_range p.
Proof.
  intros H. destruct (list_cut p (zlen p - 64)) as (p1 & x & E & Hp); [lia|].
  assert (Hx : zlen x = 64) by (apply (f_equal zlen) in E; rewrite zlen_app in E; lia).
  exists x. split.
  - apply (slice_between' _ (a ++ p1) x b); [rewrite E, <- !app_assoc; reflexivity | rewrite zlen_app; lia | lia].
  - rewrite E. symmetry. now apply last_64.
Qed.

Lemma chunk_of_eq off a h :
  0 <= off < 2 ^ 64 -> zlen a < 2 ^ 32 -> h = hash_range a ->
  {| offset := off; length := u32 (zlen a); hash := h |} = chunk_of off a.
Proof.
  intros Ho Hl ->. unfold chunk_of. f_equal; [symmetry|]; apply wrap_small; [exact Ho | zlen_pose; lia].
Qed.

Lemma tail_chunked pre r out :
  zlen pre + zlen r < 2 ^ 63 -> zlen r <= CDC_MAX_CHUNK ->
  (forall p q, r = p ++ q -> q <> [] -> cuts p = false) ->
  exists rest, stitch_tail (pre ++ r) (zlen pre) out = Ok (out ++ rest) /\ chunked (zlen pre) r rest.
Proof.
  intros Hl Hr Hc. unfold stitch_tail, CDC_MAX_CHUNK in *. rewrite zlen_app.
  destruct (Z.ltb_spec (zlen pre) (zlen pre + zlen r)) as [H|H].
  - exists [chunk_of (zlen pre) r]. split.
    + rewrite !size_sub_small by (zlen_pose; lia). replace (zlen pre + zlen r - zlen pre) with (zlen r) by lia.
      assert (Hx : exists x, (if zlen r >=? 64 then slice (pre ++ r) (zlen pre + zlen r -s 64) 64
                    else slice (pre ++ r) (zlen pre) (zlen r)) = Ok x /\ hash_range x = hash_range r).
      { destruct (Z.geb_spec (zlen r) 64) as [H64|H64].
        - rewrite size_sub_small by (zlen_pose; lia). destruct (piece_hash pre r [] H64) as (x & Hx & Hh).
          rewrite app_nil_r in Hx. eauto.
        - exists r. split; [|reflexivity]. apply (slice_between' _ pre r []); [now rewrite app_nil_r | auto..]. }
      destruct Hx as (x & Hx & Hh). rewrite Hx, bind_ok. unfold mret, res_ret. do 3 f_equal.
      apply chunk_of_eq; [zlen_pose; lia | zlen_pose; lia | exact Hh].
    + apply chunked_last; [|exact Hc]. intros ->. change (zlen (@nil Z)) with 0 in H. lia.
  - assert (r = []) as -> by (apply zlen_zero_nil; zlen_pose; lia). exists []. rewrite app_nil_r. split; [reflexivity|constructor].
Qed.

(** One cut of the replay, or its end. *)
Lemma stitch_step fuel data pre a0 s a b out :
  data = pre ++ a0 ++ s -> data = a ++ b -> zlen a <= zlen pre + zlen a0 -> zlen data < 2 ^ 63 ->
  zlen a0 = CDC_MIN_CHUNK - 1 -> 1 < zlen s ->
  stitch (S fuel) data (zlen pre) (marks (zlen a) (hash_range a) b) out =
  let cands := marks (zlen pre + CDC_MIN_CHUNK - 1) (foldl roll (hash_range pre) a0) s in
  let cut_at := replay_cut (zlen pre) (zlen data) cands in
  if negb (cut_at =? 2 ^ 64 - 1) then
    x ← slice data (cut_at +s 1 -s 64) 64;
    stitch fuel data (cut_at +s 1) cands
      (out ++ [{| offset := zlen pre; length := u32 (cut_at +s 1 -s zlen pre); hash := hash_range x |}])
  else if Z.min (zlen data) (zlen pre + CDC_MAX_CHUNK) =? zlen data then Ok (zlen pre, out)
  else
    x ← slice data (zlen pre + CDC_MAX_CHUNK -s 64) 64;
    stitch fuel data (zlen pre + CDC_MAX_CHUNK) cands
      (out ++ [{| offset := zlen pre; length := u32 CDC_MAX_CHUNK; hash := hash_range x |}]).
Proof.
  intros E1 E2 Ha Hl Ha0 Hs.
  assert (Hd : zlen data = zlen pre + zlen a0 + zlen s) by (rewrite E1, !zlen_app; lia).
  assert (Hab : zlen data = zlen a + zlen b) by (rewrite E2, !zlen_app; lia).
  assert (P1 := zlen_nonneg pre). assert (P2 := zlen_nonneg a). assert (P3 := zlen_nonneg b).
  cbn [stitch]. unfold CDC_MIN_CHUNK, CDC_AVG_CHUNK, CDC_MAX_CHUNK in *.
  rewrite !(size_sub_small (zlen data)) by lia. rewrite (proj2 (Z.ltb_lt _ _)) by lia. cbn [negb].
  rewrite (proj2 (Z.leb_gt _ _)) by lia.
  rewrite !(size_add_small (zlen pre)) by lia. rewrite !(size_sub_small (zlen pre + _)) by lia.
  assert (Hskip : skip_until (zlen pre + 16 * 1024 - 1) (marks (zlen a) (hash_range a) b) =
                  marks (zlen pre + 16 * 1024 - 1) (foldl roll (hash_range pre) a0) s).
  { destruct (list_cut b (zlen pre + zlen a0 - zlen a)) as (b1 & b2 & Eb & Hb1); [lia|].
    assert (Hx : a ++ b1 = pre ++ a0 /\ b2 = s).
    { rewrite Eb in E2. rewrite E2, !app_assoc in E1. apply app_inj_1 in E1; [exact E1|].
      rewrite !length_app. unfold zlen in *. lia. }
    destruct Hx as [Hx ->]. rewrite Eb.
    assert (Hm := skip_marks (zlen a) (hash_range a) b1 s P2).
    replace (zlen pre + 16 * 1024 - 1) with (zlen a + zlen b1) by lia. rewrite Hm by (rewrite Eb, zlen_app in Hab; lia).
    f_equal. unfold hash_range. rewrite <- !foldl_app. now rewrite Hx. }
  rewrite Hskip. unfold replay_cut, CDC_MIN_CHUNK, CDC_AVG_CHUNK, CDC_MAX_CHUNK.
  destruct (search MATCH_STRICT _ _ _) as [cut rest]. reflexivity.
Qed.

Lemma stitch_chunked fuel data pre r a b out :
  data = pre ++ r -> data = a ++ b -> zlen a <= zlen pre + CDC_MIN_CHUNK - 1 -> zlen data < 2 ^ 63 ->
  zlen r < Z.of_nat fuel * CDC_MIN_CHUNK ->
  exists last out' rest,
    stitch fuel data (zlen pre) (marks (zlen a) (hash_range a) b) out = Ok (last, out') /\
    stitch_tail data last out' = Ok (out ++ rest) /\ chunked (zlen pre) r rest.
Proof.
  revert pre r a b out. induction fuel as [|fuel IH]; intros pre r a b out E1 E2 Ha Hl Hf.
  { unfold CDC_MIN_CHUNK in Hf. zlen_pose; lia. }
  assert (Hd : zlen data = zlen pre + zlen r) by (rewrite E1, !zlen_app; lia).
  assert (Htail : stitch (S fuel) data (zlen pre) (marks (zlen a) (hash_range a) b) out = Ok (zlen pre, out) ->
            zlen r <= CDC_MAX_CHUNK -> (forall p q, r = p ++ q -> q <> [] -> cuts p = false) ->
            exists last out' rest,
              stitch (S fuel) data (zlen pre) (marks (zlen a) (hash_range a) b) out = Ok (last, out') /\
              stitch_tail data last out' = Ok (out ++ rest) /\ chunked (zlen pre) r rest).
  { intros Hst Hm Hc. destruct (tail_chunked pre r out) as (rest & T1 & T2); [lia | exact Hm | exact Hc |].
    rewrite <- E1 in T1. eauto 6. }
  destruct (Z.le_gt_cases (zlen r) CDC_MIN_CHUNK) as [Hshort|Hlong].
  - apply Htail; [| unfold CDC_MIN_CHUNK, CDC_MAX_CHUNK in *; lia |].
    + cbn [stitch]. destruct (zlen pre <? zlen data) eqn:El; [|reflexivity]. cbn [negb].
      rewrite size_sub_small by (zlen_pose; lia). now rewrite (proj2 (Z.leb_le _ _)) by lia.
    + intros p q -> Hq. apply cuts_short. rewrite zlen_app in Hshort. destruct q; [congruence|].
      rewrite zlen_cons in Hshort. zlen_pose; lia.
  - destruct (list_cut r (CDC_MIN_CHUNK - 1)) as (a0 & s & Er & Ha0); [unfold CDC_MIN_CHUNK in *; lia|].
    assert (Hs : zlen r = zlen a0 + zlen s) by now rewrite Er, zlen_app.
    rewrite (stitch_step fuel data pre a0 s a b out) in * by (first [now rewrite <- Er | assumption | lia]).
    assert (Hcut := replay_first_cut (zlen pre) (hash_range pre) a0 s (zlen_nonneg pre) (hash_range_range pre) Ha0
                      ltac:(lia) ltac:(lia)).
    rewrite <- Z.add_assoc, <- Hs, <- Hd, <- Er in Hcut. cbv zeta in *.
    assert (Hnext : forall p q, r = p ++ q -> cuts p = true -> (forall x y, p = x ++ y -> y <> [] -> cuts x = false) ->
              CDC_MIN_CHUNK <= zlen p <= CDC_MAX_CHUNK ->
              exists last out' rest,
                (x ← slice data (zlen pre + zlen p - 64) 64;
                 stitch fuel data (zlen pre + zlen p)
                   (marks (zlen pre + CDC_MIN_CHUNK - 1) (foldl roll (hash_range pre) a0) s)
                   (out ++ [{| offset := zlen pre; length := u32 (zlen p); hash := hash_range x |}])) = Ok (last, out') /\
                stitch_tail data last out' = Ok (out ++ rest) /\ chunked (zlen pre) r rest).
    { intros p q Ep Hp Hfirst Hpl. unfold CDC_MIN_CHUNK, CDC_MAX_CHUNK in Hpl.
      destruct (piece_hash pre p q) as (x & Hx & Hh); [lia|]. rewrite E1, Ep, Hx, bind_ok, <- Ep, <- E1.
      rewrite (chunk_of_eq (zlen pre) p _) by (auto; zlen_pose; lia).
      assert (Hlr : zlen r = zlen p + zlen q) by now rewrite Ep, zlen_app.
      destruct (IH (pre ++ p) q (pre ++ a0) s (out ++ [chunk_of (zlen pre) p])) as (last & out' & rest & R1 & R2 & R3).
      - now rewrite <- app_assoc, <- Ep.
      - now rewrite <- app_assoc, <- Er.
      - rewrite !zlen_app. unfold CDC_MIN_CHUNK in *. lia.
      - exact Hl.
      - unfold CDC_MIN_CHUNK in *. lia.
      - exists last, out', (chunk_of (zlen pre) p :: rest).
        replace (zlen pre + CDC_MIN_CHUNK - 1) with (zlen (pre ++ a0)) by (rewrite zlen_app; lia).
        replace (foldl roll (hash_range pre) a0) with (hash_range (pre ++ a0)) by (unfold hash_range; now rewrite foldl_app).
        rewrite zlen_app in R1 at 1. rewrite R1. split_and!; [reflexivity | now rewrite R2, <- app_assoc |].
        rewrite Ep. rewrite zlen_app in R3. now apply chunked_cut. }
    assert (P := zlen_nonneg pre).
    destruct Hcut as [(p & q & Ep & Hp & Hfirst & Hpl & Hcut)|[Hcut Hno]]; rewrite Hcut in *.
    + assert (Hlr : zlen r = zlen p + zlen q) by now rewrite Ep, zlen_app. assert (Q := zlen_nonneg q).
      rewrite (proj2 (Z.eqb_neq _ _)) by lia. cbn [negb]. unfold CDC_MIN_CHUNK in Hpl.
      rewrite (size_add_small (zlen pre + zlen p - 1)) by lia.
      replace (zlen pre + zlen p - 1 + 1) with (zlen pre + zlen p) by lia.
      rewrite !size_sub_small by lia. replace (zlen pre + zlen p - zlen pre) with (zlen p) by lia.
      now apply (Hnext p q).
    + rewrite Z.eqb_refl in *. cbn [negb] in *. destruct (Z.eqb_spec (Z.min (zlen data) (zlen pre + CDC_MAX_CHUNK)) (zlen data)) as [Hm|Hm].
      * apply Htail; [reflexivity | lia |]. intros p q Ep Hq. apply (Hno p q Ep).
        rewrite Ep, zlen_app in Hd. destruct q; [congruence|]. rewrite zlen_cons in Hd. zlen_pose; lia.
      * destruct (list_cut r CDC_MAX_CHUNK) as (p & q & Ep & Hp); [unfold CDC_MAX_CHUNK in *; lia|].
        unfold CDC_MAX_CHUNK in Hp. rewrite size_sub_small by (unfold CDC_MAX_CHUNK in *; lia).
        change CDC_MAX_CHUNK with (256 * 1024). rewrite <- Hp. apply (Hnext p q Ep).
        -- now apply cuts_max.
        -- intros x y -> Hy. rewrite <- app_assoc in Ep. apply (Hno x (y ++ q) Ep). rewrite zlen_app in Hp.
           destruct y; [congruence|]. rewrite zlen_cons in Hp. unfold CDC_MAX_CHUNK. zlen_pose; lia.
        -- unfold CDC_MIN_CHUNK, CDC_MAX_CHUNK. lia.
Qed.

(** *** The claims *)

(** The lengths of the chunks. *)
Lemma chunked_lengths off text out :
  chunked off text out ->
  foldr (fun c n => length c + n) 0 out = zlen text /\
  Forall (fun c => 0 < length c <= CDC_MAX_CHUNK) out /\
  Forall (fun c => CDC_MIN_CHUNK <= length c) (removelast out).
Proof.
  induction 1 as [off|off a Hne Ha|off a b out Hc Ha H (IH1 & IH2 & IH3)].
  - repeat split; constructor.
  - assert (Hu := uncut_short a Ha). cbn. split_and!; [lia | constructor; [|constructor] | constructor].
    cbn. destruct a; [congruence|]. rewrite zlen_cons in *. zlen_pose; lia.
  - assert (Hmin := cuts_bounds a Hc). unfold CDC_MIN_CHUNK in *.
    assert (Hmax : zlen a <= CDC_MAX_CHUNK).
    { destruct (Z.le_gt_cases (zlen a) CDC_MAX_CHUNK) as [H1|H1]; [exact H1|exfalso].
      destruct (list_cut a CDC_MAX_CHUNK) as (p & q & E & Hp); [unfold CDC_MAX_CHUNK in *; lia|].
      assert (Hq : q <> []) by (intros ->; rewrite app_nil_r in E; subst; lia).
      assert (Hcp := Ha p q E Hq). rewrite cuts_max in Hcp by exact Hp. discriminate. }
    cbn [foldr]. rewrite zlen_app, IH1. split_and!; [reflexivity | constructor; [cbn; lia | exact IH2] |].
    destruct out; [constructor|]. cbn. constructor; [cbn; lia | exact IH3].
Qed.

(** C40. Content-defined chunking is a function of the bytes alone.  However a
    text is cut into blocks, feeding the blocks and ending the stream gives
    the chunks of the one-shot chunker, and those are the specified ones:
    each chunk ends at the first length at which the rules allow a cut, its
    hash is the Gear hash of its bytes, the lengths add up to the text, no
    chunk is longer than the maximum and only the last may be shorter than
    the minimum. *)
Theorem stream_chunks_exact (blocks : list (list Z)) :
  exists out,
    feed_blocks CdcStreamChunker_init blocks [] = Ok out /\
    chunk (mjoin blocks) = Ok out /\
    (forall out', chunked 0 (mjoin blocks) out' <-> out' = out) /\
    foldr (fun c n => length c + n) 0 out = zlen (mjoin blocks) /\
    Forall (fun c => 0 < length c <= CDC_MAX_CHUNK) out /\
    Forall (fun c => CDC_MIN_CHUNK <= length c) (removelast out).
Proof.
  destruct (steps_from_start (mjoin blocks)) as (out & H1 & H2). exists out.
  rewrite feed_blocks_steps by apply counted_init. rewrite chunk_steps.
  split_and!; [exact H1 | exact H1 | | exact (proj1 (chunked_lengths _ _ _ H2)) | apply (chunked_lengths _ _ _ H2) ..].
  intros out'. split; [intros H; exact (chunked_unique _ _ _ _ H H2) | now intros ->].
Qed.

(** C14. The parallel chunker gives the chunks of the sequential one, offset
    for offset and hash for hash, for any text, any number of threads, any
    pool and any hardware: the slices find every candidate in spite of their
    short warm-up, the replay never loses one, and an overflowing candidate
    list falls back.  It uses that no two neighbouring positions match, which
    holds for the fixed Gear table. *)
Theorem chunk_parallel_exact (data : list Z) (threads : Z) (pool : option Z) (hardware : Z)
  (Hsize : zlen data < 2 ^ 63) :
  exists out diag, chunk data = Ok out /\ chunk_parallel data threads pool hardware = Ok (out, diag).
Proof.
  destruct (steps_from_start data) as (out & H1 & H2). rewrite <- chunk_steps in H1. exists out. rewrite H1.
  unfold chunk_parallel. rewrite H1. rewrite !bind_ok.
  destruct (Z.eqb_spec (zlen data) 0) as [H0|H0].
  { apply zlen_zero_nil in H0. subst data. inversion H2; subst; eauto; [congruence|].
    match goal with E : _ ++ _ = [] |- _ => apply app_eq_nil in E as [-> ->] end. discriminate. }
  destruct (_ || _); [eauto|]. set (t := if threads =? 0 then _ else threads).
  destruct (_ && _); [eauto|]. set (n := Z.min t _). destruct (Z.leb_spec n 1) as [Hn|Hn]; [eauto|].
  assert (Hmany : n * (2 * CDC_MAX_CHUNK) <= zlen data).
  { assert (n <= zlen data / (2 * CDC_MAX_CHUNK)) by (unfold n; lia). unfold CDC_MAX_CHUNK in *. dlia. }
  destruct (scan_all_marks data n ltac:(lia) ltac:(lia) Hmany (Z.to_nat n)) as (l & Hl & Hm); [lia|].
  rewrite Hl, bind_ok. destruct (existsb snd l) eqn:Eo; [eauto|].
  rewrite (Hm eq_refl data []); [|now rewrite app_nil_r | unfold slice_start; rewrite Z2Nat.id, Z.eqb_refl by lia; reflexivity].
  destruct (stitch_chunked (Z.to_nat (zlen data / CDC_MIN_CHUNK + 2)) data [] data [] data [])
    as (last & out' & rest & R1 & R2 & R3); [reflexivity | reflexivity | | lia | |].
  - change (zlen (@nil Z)) with 0. unfold CDC_MIN_CHUNK. lia.
  - assert (P := zlen_nonneg data). unfold CDC_MIN_CHUNK. dlia.
  - change (zlen (@nil Z)) with 0 in R1, R3. change (hash_range []) with 0 in R1. rewrite R1, bind_ok, R2, bind_ok.
    rewrite (chunked_unique _ _ _ _ R3 H2). cbn [app]. eauto.
Qed.

(** A mebibyte of a constant byte on two threads. *)
Theorem chunk_parallel_exact_witness :
  zlen (replicate (Z.to_nat (2 ^ 20)) 7) < 2 ^ 63 /\
  exists out diag, chunk (replicate (Z.to_nat (2 ^ 20)) 7) = Ok out /\
    chunk_parallel (replicate (Z.to_nat (2 ^ 20)) 7) 2 None 8 = Ok (out, diag).
Proof.
  assert (H : zlen (replicate (Z.to_nat (2 ^ 20)) 7) < 2 ^ 63) by (rewrite zlen_replicate, Z2Nat.id; lia).
  split; [exact H|]. apply (chunk_parallel_exact _ 2 None 8 H).
Defined.
