(* ===== verification/CdcPlanner.v ===== *)
(** The packing order of a batch
    ([src/compress/cdc_planner.cpp], [src/compress/cdc_planner.hpp]).

    Files that share enough chunk hashes are grouped greedily, a reference
    joins the group of its master, and the groups are emitted one after the
    other.  The order in which the hash map of the counts is walked is a
    parameter: the result does not depend on it. *)

From Stdlib Require Import ZArith Lia.
From stdpp Require Import base tactics list numbers sorting.
From S2P Require Import Prelude Arrays.

Local Open Scope Z_scope.
Local Open Scope size_scope.

(** ** The fingerprint cap *)

Definition FINGERPRINT_CAP : Z := 2000000.

(** The digits of [OPENRAR_CDC_INDEX_CAP]: the value, or nothing. *)
Fixpoint parse_cap (cap : Z) (p : list Z) (v : Z) : option Z :=
  match p with
  | [] => Some v
  | c :: p =>
      if (c <? 48) || (c >? 57) then None
      else if v >? cap then Some (cap + 1)
      else parse_cap cap p (u64 (u64 (v * 10) + (c - 48)))
  end.

(** [env] is the value of the variable, if it is set. *)
Definition cdc_fingerprint_cap (env : option (list Z)) : Z :=
  let cap := FINGERPRINT_CAP in
  match env with
  | Some (c :: p) =>
      match parse_cap cap (c :: p) 0 with
      | Some v => if (v >=? 1) && (v <? cap) then v else cap
      | None => cap
      end
  | _ => cap
  end.

(** ** Vectors *)

Definition vec_at {A} (l : list A) (i : Z) : res A :=
  if i <? 0 then Fault else match l !! Z.to_nat i with Some x => Ok x | None => Fault end.

Definition vec_set {A} (l : list A) (i : Z) (x : A) : res (list A) :=
  if (0 <=? i) && (i <? zlen l) then Ok (<[Z.to_nat i := x]> l) else Fault.

(** ** The index *)

Record HashEntry := { he_hash : Z; he_file : Z }.

Definition hash_entry_less (a b : HashEntry) : bool :=
  if negb (he_hash a =? he_hash b) then he_hash a <? he_hash b else he_file a <? he_file b.

Fixpoint insert_entry (e : HashEntry) (l : list HashEntry) : list HashEntry :=
  match l with
  | [] => [e]
  | x :: l' => if hash_entry_less x e then x :: insert_entry e l' else e :: l
  end.

(** [std::sort]: entries that compare equal are equal. *)
Definition sort_entries (l : list HashEntry) : list HashEntry := foldr insert_entry [] l.

Fixpoint index_of (i : Z) (hashes : list (list Z)) : list HashEntry :=
  match hashes with
  | [] => []
  | h :: hashes => map (fun x => {| he_hash := x; he_file := u32 i |}) h ++ index_of (i + 1) hashes
  end.

(** [std::lower_bound] on a sorted vector: what starts there. *)
Fixpoint lower_bound (probe : HashEntry) (l : list HashEntry) : list HashEntry :=
  match l with
  | [] => []
  | e :: l' => if hash_entry_less e probe then lower_bound probe l' else l
  end.

(** ** Shared counts: an association list for the hash map *)

Fixpoint bump (file : Z) (shared : list (Z * Z)) : list (Z * Z) :=
  match shared with
  | [] => [(file, 1)]
  | (k, c) :: shared => if k =? file then (k, u32 (c + 1)) :: shared else (k, c) :: bump file shared
  end.

Definition MAX_REPRESENTATIVES : Z := 8.

(** The walk over the equal range of one hash. *)
Fixpoint count_range (h i reps : Z) (it : list HashEntry) (shared : list (Z * Z)) : list (Z * Z) :=
  match it with
  | [] => shared
  | e :: it =>
      if negb (he_hash e =? h) then shared
      else if he_file e >=? i then shared
      else if reps >=? MAX_REPRESENTATIVES then shared
      else count_range h i (reps + 1) it (bump (he_file e) shared)
  end.

Fixpoint count_shared (index : list HashEntry) (i : Z) (hs : list Z) (shared : list (Z * Z)) : list (Z * Z) :=
  match hs with
  | [] => shared
  | h :: hs =>
      let lo := lower_bound {| he_hash := h; he_file := 0 |} index in
      count_shared index i hs (count_range h i 0 lo shared)
  end.

Definition better (best : Z * Z) (kv : Z * Z) : Z * Z :=
  if (kv.2 >? best.2) || ((kv.2 =? best.2) && (kv.1 <? best.1)) then kv else best.

(** ** plan_cdc_order *)

Section plan.
(** The order in which the entries of the hash map are visited. *)
Context (walk : list (Z * Z) -> list (Z * Z)).

Record Plan := { group_of : list Z; groups : list (list Z) }.

(** One step of the greedy grouping. *)
Definition place (hashes : list (list Z)) (index : list HashEntry) (affinity_permille i : Z) (p : Plan) : res Plan :=
  let n := zlen hashes in
  hi ← vec_at hashes i;
  let shared := count_shared index i hi [] in
  let '(best, best_count) := foldl better (n, 0) (walk shared) in
  joined ← (if best <? i then
              hb ← vec_at hashes best;
              let smaller := Z.min (zlen hi) (zlen hb) in
              mret ((smaller >? 0) && (u64 (best_count * 1000) >=? u64 (affinity_permille * smaller)))
            else mret false);
  if joined : bool then
    g ← vec_at (group_of p) best;
    go ← vec_set (group_of p) i g;
    members ← vec_at (groups p) g;
    gs ← vec_set (groups p) g (members ++ [i]);
    mret {| group_of := go; groups := gs |}
  else
    go ← vec_set (group_of p) i (zlen (groups p));
    mret {| group_of := go; groups := groups p ++ [[i]] |}.

(** [for (size_t i = 0; i < n; ++i)]: [k] indices are done. *)
Fixpoint place_all (hashes : list (list Z)) (index : list HashEntry) (affinity_permille : Z) (k : nat) : res Plan :=
  match k with
  | O => Ok {| group_of := replicate (length hashes) (zlen hashes); groups := [] |}
  | S k' => p ← place_all hashes index affinity_permille k'; place hashes index affinity_permille (Z.of_nat k') p
  end.

(** One step of the reference fixup. *)
Definition fix_reference (n : Z) (reference_of : list Z) (i : Z) (p : Plan) : res Plan :=
  if i >=? zlen reference_of then mret p
  else
    master ← vec_at reference_of i;
    if (master >=? i) || (master >=? n) then mret p
    else
      from ← vec_at (group_of p) i;
      to ← vec_at (group_of p) master;
      if from =? to then mret p
      else
        src ← vec_at (groups p) from;
        gs ← vec_set (groups p) from (filter (fun x => x <> i) src);
        dst ← vec_at gs to;
        gs ← vec_set gs to (dst ++ [i]);
        go ← vec_set (group_of p) i to;
        mret {| group_of := go; groups := gs |}.

Fixpoint fix_all (n : Z) (reference_of : list Z) (p : Plan) (k : nat) : res Plan :=
  match k with
  | O => Ok p
  | S k' => p ← fix_all n reference_of p k'; fix_reference n reference_of (Z.of_nat k') p
  end.

(** The members, written to the [n] places of the result. *)
Definition emit_order (n : Z) (gs : list (list Z)) : res (list Z) :=
  let order := mjoin gs in
  if zlen order <=? n then Ok (order ++ replicate (Z.to_nat (n - zlen order)) 0) else Fault.

Fixpoint not_identity (i : Z) (order : list Z) : bool :=
  match order with
  | [] => false
  | x :: order => if negb (x =? i) then true else not_identity (i + 1) order
  end.

Record CdcPlanResult := { order : list Z; reordered : bool }.

Definition plan_cdc_order (hashes : list (list Z)) (reference_of : list Z) (affinity_permille : Z) : res CdcPlanResult :=
  let n := zlen hashes in
  if n =? 0 then mret {| order := []; reordered := false |}
  else
    let index := sort_entries (index_of 0 hashes) in
    p ← place_all hashes index affinity_permille (length hashes);
    p ← (if zlen reference_of =? 0 then mret p
         else
           p ← fix_all n reference_of p (length hashes);
           mret {| group_of := group_of p; groups := map (merge_sort Z.le) (groups p) |});
    o ← emit_order n (groups p);
    mret {| order := o; reordered := not_identity 0 o |}.

End plan.

(** ** Vectors *)

Lemma vec_at_ok {A} (l : list A) i : 0 <= i < zlen l -> exists x, vec_at l i = Ok x /\ l !! Z.to_nat i = Some x.
Proof.
  intros H. unfold vec_at. rewrite (proj2 (Z.ltb_ge _ _)) by lia.
  destruct (lookup_lt_is_Some_2 l (Z.to_nat i)) as [x ->]; [unfold zlen in H; lia | eauto].
Qed.

Lemma vec_at_Some {A} (l : list A) i x : 0 <= i -> l !! Z.to_nat i = Some x -> vec_at l i = Ok x.
Proof. intros H E. unfold vec_at. now rewrite (proj2 (Z.ltb_ge _ _)), E by lia. Qed.

Lemma vec_set_ok {A} (l : list A) i x : 0 <= i < zlen l -> vec_set l i x = Ok (<[Z.to_nat i := x]> l).
Proof. intros H. unfold vec_set. now rewrite (proj2 (Z.leb_le _ _)), (proj2 (Z.ltb_lt _ _)) by lia. Qed.

Lemma zlen_vec {A} (l : list A) i x : zlen (<[i := x]> l) = zlen l.
Proof. unfold zlen. now rewrite length_insert. Qed.

(** ** The partition into groups *)

(** After [i] files: every file is in exactly one group, the one [group_of]
    names. *)
Record partition (n : Z) (i : Z) (p : Plan) : Prop := {
  pt_len : zlen (group_of p) = n;
  pt_perm : mjoin (groups p) ≡ₚ seqZ 0 i;
  pt_group : forall (g : nat) l x, groups p !! g = Some l -> x ∈ l -> group_of p !! Z.to_nat x = Some (Z.of_nat g)
}.

Lemma join_insert (gs : list (list Z)) g l l' :
  gs !! g = Some l -> exists a b, gs = a ++ l :: b /\ length a = g /\ <[g := l']> gs = a ++ l' :: b.
Proof.
  intros H. exists (take g gs), (drop (S g) gs). assert (Hg := lookup_lt_Some _ _ _ H).
  split_and!; [symmetry; now apply take_drop_middle | rewrite length_take; lia | now apply insert_take_drop].
Qed.

Lemma partition_member n i p x :
  partition n i p -> 0 <= x < i ->
  exists (g : nat) l, groups p !! g = Some l /\ x ∈ l /\ group_of p !! Z.to_nat x = Some (Z.of_nat g) /\ Z.of_nat g < zlen (groups p).
Proof.
  intros [H1 H2 H3] Hx. assert (Hin : x ∈ mjoin (groups p)) by (rewrite H2; apply elem_of_seqZ; lia).
  apply list_elem_of_join in Hin as (l & Hl & Hg). apply list_elem_of_lookup in Hg as [g Hg].
  exists g, l. split_and!; auto; [now apply (H3 g l)|]. apply lookup_lt_Some in Hg. unfold zlen. lia.
Qed.

Lemma seqZ_snoc m i : 0 <= i -> seqZ m (i + 1) = seqZ m i ++ [m + i].
Proof. intros H. rewrite seqZ_app by lia. reflexivity. Qed.

(** A new member of an existing group, or of a new one. *)
Lemma partition_join n i p g l :
  partition n i p -> 0 <= i < n -> groups p !! g = Some l ->
  partition n (i + 1) {| group_of := <[Z.to_nat i := Z.of_nat g]> (group_of p); groups := <[g := l ++ [i]]> (groups p) |}.
Proof.
  intros [H1 H2 H3] Hi Hg. destruct (join_insert (groups p) g l (l ++ [i]) Hg) as (a & b & Ea & La & Eb).
  split; cbn [group_of groups].
  - now rewrite zlen_vec.
  - rewrite Eb, seqZ_snoc by lia. rewrite <- H2, Ea, !join_app. cbn. rewrite <- !app_assoc.
    now rewrite (Permutation_app_comm (mjoin b) [i]).
  - intros g' l' x Hg' Hx.
    assert (Hcase : x = i /\ g' = g \/ exists l0, groups p !! g' = Some l0 /\ x ∈ l0).
    { destruct (decide (g' = g)) as [->|Hne].
      - rewrite list_lookup_insert_eq in Hg' by (now apply lookup_lt_Some in Hg). injection Hg' as <-.
        apply elem_of_app in Hx as [Hx|Hx]; [right; eauto|]. apply list_elem_of_singleton in Hx. now left.
      - rewrite list_lookup_insert_ne in Hg' by congruence. right; eauto. }
    destruct Hcase as [[-> ->]|(l0 & Hl0 & Hx0)].
    + apply list_lookup_insert_eq. unfold zlen in H1. lia.
    + assert (Hxi : x ∈ seqZ 0 i) by (rewrite <- H2; apply list_elem_of_join; eexists; split; [exact Hx0|]; eapply list_elem_of_lookup_2, Hl0).
      apply elem_of_seqZ in Hxi. rewrite list_lookup_insert_ne by lia. now apply (H3 g' l0).
Qed.

Lemma partition_open n i p :
  partition n i p -> 0 <= i < n ->
  partition n (i + 1) {| group_of := <[Z.to_nat i := zlen (groups p)]> (group_of p); groups := groups p ++ [[i]] |}.
Proof.
  intros [H1 H2 H3] Hi. split; cbn [group_of groups].
  - now rewrite zlen_vec.
  - rewrite join_app, seqZ_snoc, H2 by lia. reflexivity.
  - intros g l x Hg Hx. apply lookup_app_Some in Hg as [Hg|[Hge Hg]].
    + assert (Hxi : x ∈ seqZ 0 i) by (rewrite <- H2; apply list_elem_of_join; eexists; split; [exact Hx|]; eapply list_elem_of_lookup_2, Hg).
      apply elem_of_seqZ in Hxi. rewrite list_lookup_insert_ne by lia. now apply (H3 g l).
    + destruct (g - length (groups p))%nat as [|k] eqn:Ek; [|destruct k; discriminate]. injection Hg as <-.
      apply list_elem_of_singleton in Hx as ->. rewrite list_lookup_insert_eq by (unfold zlen in H1; lia). f_equal. unfold zlen. lia.
Qed.

Lemma partition_bound n i p (g : nat) x :
  partition n i p -> 0 <= x < i -> group_of p !! Z.to_nat x = Some (Z.of_nat g) ->
  exists l, groups p !! g = Some l /\ x ∈ l.
Proof.
  intros Hp Hx Hg. destruct (partition_member n i p x Hp Hx) as (g' & l & H1 & H2 & H3 & _).
  rewrite H3 in Hg. injection Hg as Hg. apply Nat2Z.inj in Hg as ->. eauto.
Qed.

(** ** The best partner *)

Lemma better_spec s a :
  better s a = a /\ (s.2 < a.2 \/ s.2 = a.2 /\ a.1 < s.1) \/ better s a = s /\ (a.2 < s.2 \/ a.2 = s.2 /\ s.1 <= a.1).
Proof. unfold better. destruct (_ || _) eqn:E; [left | right]; (split; [reflexivity | lia]). Qed.

Lemma better_comm s a b : better (better s a) b = better (better s b) a.
Proof.
  assert (Heq : forall x y : Z * Z, x.1 = y.1 -> x.2 = y.2 -> x = y) by (intros [] [] ? ?; cbn in *; congruence).
  destruct (better_spec s a) as [[-> H1]|[-> H1]]; destruct (better_spec s b) as [[-> H2]|[-> H2]].
  - destruct (better_spec a b) as [[-> H3]|[-> H3]]; destruct (better_spec b a) as [[-> H4]|[-> H4]]; auto; apply Heq; lia.
  - destruct (better_spec a b) as [[-> H3]|[-> H3]]; destruct (better_spec s a) as [[-> H4]|[-> H4]]; auto; apply Heq; lia.
  - destruct (better_spec b a) as [[-> H4]|[-> H4]]; auto; apply Heq; lia.
  - destruct (better_spec s a) as [[-> H4]|[-> H4]]; auto; apply Heq; lia.
Qed.

Lemma best_perm l l' s : l ≡ₚ l' -> foldl better s l = foldl better s l'.
Proof.
  intros H. revert s. induction H as [|x l l' H IH|x y l|l l' l'' H1 IH1 H2 IH2]; intros s; cbn [foldl]; auto.
  - now rewrite better_comm.
  - now rewrite IH1.
Qed.

Lemma bump_keys file l (P : Z -> Prop) : P file -> Forall (fun kv => P kv.1) l -> Forall (fun kv => P kv.1) (bump file l).
Proof.
  intros Hf. induction 1 as [|[k c] l Hk Hl IH]; cbn; [repeat constructor; exact Hf|].
  destruct (k =? file); constructor; auto.
Qed.

Lemma count_range_keys h i reps it l :
  Forall (fun e => 0 <= he_file e) it -> Forall (fun kv => 0 <= kv.1) l -> Forall (fun kv => 0 <= kv.1) (count_range h i reps it l).
Proof.
  intros H. revert reps l. induction H as [|e it He H IH]; intros reps l Hl; [exact Hl|]. cbn.
  destruct (negb _); [exact Hl|]. destruct (_ >=? i); [exact Hl|]. destruct (_ >=? _); [exact Hl|].
  apply IH, (bump_keys _ _ (fun k => 0 <= k)); assumption.
Qed.

Lemma lower_bound_forall P probe l : Forall P l -> Forall P (lower_bound probe l).
Proof. induction 1 as [|e l He H IH]; cbn; [constructor|]. destruct (hash_entry_less e probe); auto. Qed.

Lemma count_shared_keys index i hs l :
  Forall (fun e => 0 <= he_file e) index -> Forall (fun kv => 0 <= kv.1) l -> Forall (fun kv => 0 <= kv.1) (count_shared index i hs l).
Proof.
  intros Hi. revert l. induction hs as [|h hs IH]; intros l Hl; [exact Hl|]. cbn.
  apply IH, count_range_keys; [now apply lower_bound_forall | exact Hl].
Qed.

Lemma insert_entry_forall P e l : P e -> Forall P l -> Forall P (insert_entry e l).
Proof. intros He. induction 1 as [|x l Hx H IH]; cbn; [auto|]. destruct (hash_entry_less x e); auto. Qed.

Lemma sort_entries_forall P l : Forall P l -> Forall P (sort_entries l).
Proof. induction 1 as [|x l Hx H IH]; cbn; [constructor|]. now apply insert_entry_forall. Qed.

Lemma index_of_files i hashes : Forall (fun e => 0 <= he_file e) (index_of i hashes).
Proof.
  revert i. induction hashes as [|h hashes IH]; intros i; cbn [index_of]; [constructor|].
  apply Forall_app. split; [|apply IH]. apply List.Forall_map. induction h; constructor; auto.
  cbn. unfold u32. apply wrap_range. lia.
Qed.

Lemma best_key n l : 0 <= n -> Forall (fun kv : Z * Z => 0 <= kv.1) l -> forall c, 0 <= (foldl better (n, c) l).1.
Proof.
  intros Hn H c. assert (G : forall s, 0 <= s.1 -> 0 <= (foldl better s l).1); [|now apply G].
  induction H as [|kv l Hk H IH]; intros s Hs; [exact Hs|]. cbn. apply IH. unfold better. now destruct (_ || _).
Qed.

Section places.
Context (walk : list (Z * Z) -> list (Z * Z)) (Hwalk : forall l, walk l ≡ₚ l).
Context (hashes : list (list Z)) (index : list HashEntry) (affinity : Z).
Hypothesis (Hindex : Forall (fun e => 0 <= he_file e) index).

(** A file joins the group of an earlier one or opens a group; without hashes
    it opens one. *)
Lemma place_partition i p :
  partition (zlen hashes) i p -> 0 <= i < zlen hashes ->
  exists p', place walk hashes index affinity i p = Ok p' /\ partition (zlen hashes) (i + 1) p' /\
    (forall x, 0 <= x < i -> group_of p' !! Z.to_nat x = group_of p !! Z.to_nat x) /\
    zlen (groups p) <= zlen (groups p') /\
    (hashes !! Z.to_nat i = Some [] -> group_of p' !! Z.to_nat i = Some (zlen (groups p))).
Proof.
  intros Hp Hi. unfold place. destruct (vec_at_ok hashes i Hi) as (hi & -> & Ehi). rewrite bind_ok.
  destruct (foldl better _ _) as [best count] eqn:Eb.
  assert (Hbest : 0 <= best).
  { assert (G := best_key (zlen hashes) (count_shared index i hi []) (zlen_nonneg _)
                   (count_shared_keys index i hi [] Hindex (Forall_nil_2 _)) 0).
    rewrite (best_perm _ _ _ (Hwalk _)) in Eb. now rewrite Eb in G. }
  assert (Hlen := pt_len _ _ _ Hp).
  assert (Hopen : exists p', (go ← vec_set (group_of p) i (zlen (groups p));
            mret {| group_of := go; groups := groups p ++ [[i]] |}) = Ok p' /\ partition (zlen hashes) (i + 1) p' /\
            (forall x, 0 <= x < i -> group_of p' !! Z.to_nat x = group_of p !! Z.to_nat x) /\
            zlen (groups p) <= zlen (groups p') /\
            (hashes !! Z.to_nat i = Some [] -> group_of p' !! Z.to_nat i = Some (zlen (groups p)))).
  { rewrite vec_set_ok by lia. rewrite bind_ok. eexists. split; [reflexivity|]. split; [now apply partition_open|].
    cbn [group_of groups]. split_and!.
    - intros x Hx. rewrite list_lookup_insert_ne by lia. reflexivity.
    - rewrite zlen_app. change (zlen [[i]]) with 1. lia.
    - intros _. apply list_lookup_insert_eq. unfold zlen in *. lia. }
  destruct (Z.ltb_spec best i) as [Hb|Hb]; [|rewrite bind_ok; exact Hopen].
  destruct (vec_at_ok hashes best) as (hb & -> & _); [lia|]. rewrite !bind_ok. cbn [mret res_ret].
  destruct (_ && _) eqn:Ej; [|exact Hopen].
  destruct (partition_member _ _ _ best Hp) as (g & l & Hg & _ & Hgb & _); [lia|].
  rewrite (vec_at_Some _ best (Z.of_nat g) Hbest Hgb), bind_ok, vec_set_ok, bind_ok by lia.
  rewrite (vec_at_Some _ (Z.of_nat g) l) by (rewrite ?Nat2Z.id; auto; lia). rewrite bind_ok.
  assert (Hgl := lookup_lt_Some _ _ _ Hg). rewrite vec_set_ok by (unfold zlen; lia). rewrite bind_ok, Nat2Z.id.
  eexists. split; [reflexivity|]. split; [now apply partition_join|]. cbn [group_of groups]. split_and!.
  - intros x Hx. rewrite list_lookup_insert_ne by lia. reflexivity.
  - rewrite zlen_vec. lia.
  - intros E. rewrite E in Ehi. injection Ehi as <-. change (zlen (@nil Z)) with 0 in Ej. zlen_pose; lia.
Qed.

Lemma partition_start : partition (zlen hashes) 0 {| group_of := replicate (length hashes) (zlen hashes); groups := [] |}.
Proof. split; cbn; [apply zlen_replicate | reflexivity | discriminate]. Qed.

Lemma place_all_partition k :
  (k <= length hashes)%nat ->
  exists p, place_all walk hashes index affinity k = Ok p /\ partition (zlen hashes) (Z.of_nat k) p /\
    (forall i j gi gj, 0 <= i < j -> j < Z.of_nat k -> hashes !! Z.to_nat j = Some [] ->
       group_of p !! Z.to_nat i = Some gi -> group_of p !! Z.to_nat j = Some gj -> gi < gj).
Proof.
  induction k as [|k IH]; intros Hk.
  - eexists. split; [reflexivity|]. split; [apply partition_start | lia].
  - destruct IH as (p & H1 & H2 & H3); [lia|]. cbn [place_all]. rewrite H1, bind_ok.
    destruct (place_partition (Z.of_nat k) p H2) as (p' & P1 & P2 & P3 & P4 & P5); [unfold zlen; lia|].
    rewrite P1. exists p'. split; [reflexivity|]. replace (Z.of_nat (S k)) with (Z.of_nat k + 1) by lia.
    split; [exact P2|]. intros i j gi gj Hij Hj Hempty Hgi Hgj.
    rewrite P3 in Hgi by lia. destruct (Z.eq_dec j (Z.of_nat k)) as [->|Hne].
    + rewrite (P5 Hempty) in Hgj. injection Hgj as <-.
      destruct (partition_member _ _ _ i H2) as (g & l & _ & _ & G1 & G2); [lia|]. rewrite Hgi in G1. injection G1 as ->. exact G2.
    + rewrite P3 in Hgj by lia. apply (H3 i j); auto; lia.
Qed.

End places.

(** ** The reference fixup *)

Lemma filter_absent (x : Z) (l : list Z) : x ∉ l -> filter (fun y => y <> x) l = l.
Proof.
  induction l as [|z l IH]; intros H; [reflexivity|]. apply not_elem_of_cons in H as [H1 H2].
  rewrite filter_cons_True by congruence. now rewrite IH.
Qed.

Lemma partition_move n i p (from to : nat) x l l' :
  partition n i p -> 0 <= x < i -> i <= n -> from <> to -> groups p !! from = Some l -> x ∈ l -> groups p !! to = Some l' ->
  partition n i {| group_of := <[Z.to_nat x := Z.of_nat to]> (group_of p);
                   groups := <[to := l' ++ [x]]> (<[from := filter (fun y => y <> x) l]> (groups p)) |}.
Proof.
  intros [H1 H2 H3] Hx Hi Hne Hf Hxl Ht.
  assert (Hnodup : NoDup (mjoin (groups p))) by (rewrite H2; apply NoDup_seqZ).
  assert (Ht' : <[from := filter (fun y => y <> x) l]> (groups p) !! to = Some l') by (rewrite list_lookup_insert_ne; auto).
  split; cbn [group_of groups].
  - now rewrite zlen_vec.
  - rewrite <- H2. destruct (join_insert _ to l' (l' ++ [x]) Ht') as (a & b & Ea & _ & Eb).
    rewrite Eb, join_app. cbn. rewrite <- app_assoc.
    assert (G : mjoin (<[from := filter (fun y => y <> x) l]> (groups p)) ++ [x] ≡ₚ mjoin (groups p)).
    { destruct (join_insert _ from l (filter (fun y => y <> x) l) Hf) as (c & d & Ec & _ & Ed).
      rewrite Ed, Ec, !join_app. cbn. apply list_elem_of_split in Hxl as (l1 & l2 & ->).
      rewrite Ec, join_app in Hnodup. cbn in Hnodup. apply NoDup_app in Hnodup as (_ & _ & Hnodup).
      apply NoDup_app in Hnodup as (Hnodup & _ & _). apply NoDup_app in Hnodup as (_ & Hn1 & Hn2).
      apply NoDup_cons in Hn2 as [Hn2 _].
      assert (Hfil : filter (fun y => y <> x) (l1 ++ x :: l2) = l1 ++ l2).
      { rewrite filter_app, filter_cons_False by auto. f_equal; apply filter_absent; [|exact Hn2].
        intros Hy. apply (Hn1 x Hy). left. }
      rewrite Hfil, <- !app_assoc. apply Permutation_app_head. rewrite (app_assoc l2).
      rewrite (Permutation_app_comm (l2 ++ mjoin d) [x]). rewrite (Permutation_app_comm l1).
      cbn. rewrite (Permutation_app_comm l1). cbn. rewrite <- app_assoc.
      apply perm_skip. rewrite (app_assoc l2). reflexivity. }
    rewrite <- G, Ea, join_app. cbn. rewrite <- !app_assoc. apply Permutation_app_head, Permutation_app_head.
    apply Permutation_cons_append.
  - intros g l0 y Hg Hy.
    assert (Hcase : y = x /\ g = to \/ y <> x /\ exists l1, groups p !! g = Some l1 /\ y ∈ l1).
    { destruct (decide (g = to)) as [->|Hgt].
      - rewrite list_lookup_insert_eq in Hg by (now apply lookup_lt_Some in Ht'). injection Hg as <-.
        apply elem_of_app in Hy as [Hy|Hy]; [|apply list_elem_of_singleton in Hy; auto].
        right. split; [|eauto]. intros ->. assert (E1 := H3 from l x Hf Hxl). rewrite (H3 to l' x Ht Hy) in E1.
        injection E1 as E1. lia.
      - rewrite list_lookup_insert_ne in Hg by auto. right. destruct (decide (g = from)) as [->|Hgf].
        + rewrite list_lookup_insert_eq in Hg by (now apply lookup_lt_Some in Hf). injection Hg as <-.
          apply list_elem_of_filter in Hy as [Hy1 Hy2]. eauto.
        + rewrite list_lookup_insert_ne in Hg by auto. split; [|eauto]. intros ->.
          assert (E1 := H3 from l x Hf Hxl). rewrite (H3 g l0 x Hg Hy) in E1. injection E1 as E1. lia. }
    destruct Hcase as [[-> ->]|[Hyx (l1 & Hl1 & Hy1)]].
    + apply list_lookup_insert_eq. unfold zlen in H1. lia.
    + assert (Hyi : y ∈ seqZ 0 i) by (rewrite <- H2; apply list_elem_of_join; eexists; split; [exact Hy1|]; eapply list_elem_of_lookup_2, Hl1).
      apply elem_of_seqZ in Hyi. rewrite list_lookup_insert_ne by lia. now apply (H3 g l1).
Qed.

Section references.
Context (n : Z) (reference_of : list Z) (Hrefs : Forall (fun r => 0 <= r) reference_of).

(** [i] refers to the master [m]. *)
Definition refers (i m : Z) : Prop := 0 <= i < n /\ reference_of !! Z.to_nat i = Some m /\ 0 <= m < i.

Lemma fix_reference_spec i p :
  partition n n p -> 0 <= i < n ->
  exists p', fix_reference n reference_of i p = Ok p' /\ partition n n p' /\
    (forall x, 0 <= x -> x <> i -> group_of p' !! Z.to_nat x = group_of p !! Z.to_nat x) /\
    (forall m, refers i m -> group_of p' !! Z.to_nat i = group_of p !! Z.to_nat m).
Proof.
  intros Hp Hi. unfold fix_reference. destruct (Z.geb_spec i (zlen reference_of)) as [Hr|Hr].
  { exists p. split_and!; auto. intros m (_ & Hm & _). apply lookup_lt_Some in Hm. unfold zlen in Hr. lia. }
  destruct (vec_at_ok reference_of i) as (master & -> & Em); [lia|]. rewrite bind_ok.
  assert (Hm0 : 0 <= master) by (rewrite Forall_lookup in Hrefs; exact (Hrefs _ _ Em)).
  destruct (Z.geb_spec master i) as [Hmi|Hmi].
  { exists p. split_and!; auto. intros m (_ & Hm & Hlt). rewrite Em in Hm. injection Hm as <-. lia. }
  cbn [orb]. destruct (Z.geb_spec master n) as [Hmn|Hmn]; [lia|].
  destruct (partition_member _ _ _ i Hp) as (g & l & Hg & Hil & Hgi & Hgl); [lia|].
  destruct (partition_member _ _ _ master Hp) as (g' & l' & Hg' & _ & Hgm & Hgl'); [lia|].
  rewrite (vec_at_Some _ i (Z.of_nat g)), bind_ok by (auto; lia).
  rewrite (vec_at_Some _ master (Z.of_nat g')), bind_ok by (auto; lia).
  destruct (Z.eqb_spec (Z.of_nat g) (Z.of_nat g')) as [He|He].
  { exists p. split_and!; auto. intros m (_ & Hm & _). rewrite Em in Hm. injection Hm as <-. rewrite Hgi, Hgm. now f_equal. }
  rewrite (vec_at_Some _ (Z.of_nat g) l), bind_ok by (rewrite ?Nat2Z.id; auto; lia).
  assert (Hlen := pt_len _ _ _ Hp). rewrite (vec_set_ok (groups p)), bind_ok, Nat2Z.id by lia.
  rewrite (vec_at_Some _ (Z.of_nat g') l'), bind_ok by (rewrite ?Nat2Z.id, ?list_lookup_insert_ne; auto; lia).
  rewrite (vec_set_ok (<[_ := _]> (groups p))), bind_ok, Nat2Z.id by (rewrite zlen_vec; lia).
  rewrite vec_set_ok, bind_ok by lia.
  eexists. split; [reflexivity|]. split; [apply (partition_move n n p g g' i l l'); auto; lia|]. cbn [group_of]. split.
  - intros x Hx Hxi. rewrite list_lookup_insert_ne by lia. reflexivity.
  - intros m (_ & Hm & _). rewrite Em in Hm. injection Hm as <-.
    rewrite list_lookup_insert_eq by (assert (L := pt_len _ _ _ Hp); unfold zlen in L; lia). now rewrite Hgm.
Qed.

Lemma fix_all_spec p k :
  partition n n p -> Z.of_nat k <= n ->
  exists p', fix_all n reference_of p k = Ok p' /\ partition n n p' /\
    (forall i m, refers i m -> i < Z.of_nat k -> group_of p' !! Z.to_nat i = group_of p' !! Z.to_nat m).
Proof.
  intros Hp. induction k as [|k IH]; intros Hk.
  - exists p. split; [reflexivity|]. split; [exact Hp|]. intros i m [Hi _] Hk0. lia.
  - destruct IH as (p1 & H1 & H2 & H3); [lia|]. cbn [fix_all]. rewrite H1, bind_ok.
    destruct (fix_reference_spec (Z.of_nat k) p1 H2) as (p2 & F1 & F2 & F3 & F4); [lia|].
    exists p2. split; [exact F1|]. split; [exact F2|]. intros i m Hr Hik. assert (Hr' := Hr). destruct Hr' as (Hi & _ & Hm).
    destruct (Z.eq_dec i (Z.of_nat k)) as [->|Hne].
    + rewrite (F4 m Hr). symmetry. apply F3; lia.
    + rewrite !F3 by lia. apply H3; [exact Hr | lia].
Qed.

End references.

(** ** The emitted order *)

Definition before (x y : Z) (l : list Z) : Prop := exists a b c, l = a ++ x :: b ++ y :: c.

Lemma before_weaken x y a l b : before x y l -> before x y (a ++ l ++ b).
Proof.
  intros (u & v & w & ->). exists (a ++ u), v, (w ++ b). rewrite <- !app_assoc. cbn. rewrite <- ?app_assoc. cbn. rewrite <- ?app_assoc. reflexivity.
Qed.

Lemma sorted_before l x y : StronglySorted Z.le l -> x ∈ l -> y ∈ l -> x < y -> before x y l.
Proof.
  induction l as [|z l IH]; intros Hs Hx Hy Hlt; [inversion Hx|]. apply StronglySorted_inv in Hs as [Hs Hz].
  apply elem_of_cons in Hx as [->|Hx].
  - apply elem_of_cons in Hy as [->|Hy]; [lia|]. apply list_elem_of_split in Hy as (b & c & ->). now exists [], b, c.
  - apply elem_of_cons in Hy as [->|Hy].
    + rewrite Forall_forall in Hz. specialize (Hz x Hx). lia.
    + destruct (IH Hs Hx Hy Hlt) as (a & b & c & ->). now exists (z :: a), b, c.
Qed.

Lemma group_before gs (g : nat) l x y : gs !! g = Some l -> before x y l -> before x y (mjoin gs).
Proof.
  intros H Hb. apply list_elem_of_split_length in H as (a & b & -> & _). rewrite join_app. cbn. now apply before_weaken.
Qed.

Lemma groups_before gs (g g' : nat) l l' x y :
  gs !! g = Some l -> gs !! g' = Some l' -> (g < g')%nat -> x ∈ l -> y ∈ l' -> before x y (mjoin gs).
Proof.
  intros Hg Hg' Hlt Hx Hy. apply list_elem_of_split_length in Hg as (a & b & -> & ->).
  rewrite lookup_app_r in Hg' by lia. destruct (g' - length a)%nat as [|k] eqn:E; [lia|]. cbn in Hg'.
  apply list_elem_of_split_length in Hg' as (c & d & -> & _). rewrite join_app. cbn. rewrite join_app. cbn.
  apply list_elem_of_split in Hx as (l1 & l2 & ->). apply list_elem_of_split in Hy as (l3 & l4 & ->).
  exists (mjoin a ++ l1), (l2 ++ mjoin c ++ l3), (l4 ++ mjoin d). rewrite <- !app_assoc. cbn. rewrite <- ?app_assoc. cbn. rewrite <- ?app_assoc. reflexivity.
Qed.

Lemma perm_zlen n (l : list Z) : 0 <= n -> l ≡ₚ seqZ 0 n -> zlen l = n.
Proof. intros Hn H. unfold zlen. rewrite H, length_seqZ. lia. Qed.

Lemma emit_order_perm n gs : 0 <= n -> mjoin gs ≡ₚ seqZ 0 n -> emit_order n gs = Ok (mjoin gs).
Proof.
  intros Hn H. assert (L := perm_zlen n (mjoin gs) Hn H).
  unfold emit_order. rewrite L, Z.leb_refl, Z.sub_diag. cbn. now rewrite app_nil_r.
Qed.

Lemma not_identity_spec i l : not_identity i l = true <-> l <> seqZ i (zlen l).
Proof.
  revert i. induction l as [|x l IH]; intros i.
  - cbn. split; [discriminate | intros H; now contradiction H].
  - cbn [not_identity]. rewrite zlen_cons, seqZ_cons by (zlen_pose; lia).
    replace (Z.pred (1 + zlen l)) with (zlen l) by lia. change (Z.succ i) with (i + 1).
    destruct (Z.eqb_spec x i) as [->|H]; cbn [negb].
    + rewrite IH. split; intros H1 H2; apply H1; congruence.
    + split; [intros _ H2; congruence | auto].
Qed.

Lemma place_walk walk hashes index affinity i p :
  (forall l, walk l ≡ₚ l) -> place walk hashes index affinity i p = place (fun l => l) hashes index affinity i p.
Proof.
  intros H. unfold place. destruct (vec_at hashes i) as [hi| | |]; [|reflexivity..]. rewrite !bind_ok.
  now rewrite (best_perm _ _ _ (H _)).
Qed.

Lemma place_all_walk walk hashes index affinity k :
  (forall l, walk l ≡ₚ l) -> place_all walk hashes index affinity k = place_all (fun l => l) hashes index affinity k.
Proof.
  intros H. induction k as [|k IH]; [reflexivity|]. cbn [place_all]. rewrite IH.
  destruct (place_all (fun l => l) hashes index affinity k); [|reflexivity..]. rewrite !bind_ok. now apply place_walk.
Qed.

Lemma plan_walk walk hashes reference_of affinity :
  (forall l, walk l ≡ₚ l) -> plan_cdc_order walk hashes reference_of affinity = plan_cdc_order (fun l => l) hashes reference_of affinity.
Proof. intros H. unfold plan_cdc_order. now rewrite place_all_walk. Qed.

Lemma join_sorted (gs : list (list Z)) : mjoin (map (merge_sort Z.le) gs) ≡ₚ mjoin gs.
Proof. induction gs as [|l gs IH]; [reflexivity|]. cbn. now rewrite merge_sort_Permutation, IH. Qed.

Lemma partition_sort n p :
  partition n n p -> partition n n {| group_of := group_of p; groups := map (merge_sort Z.le) (groups p) |}.
Proof.
  intros [H1 H2 H3]. split; cbn [group_of groups]; [exact H1 | |].
  - now rewrite <- H2, join_sorted.
  - intros g l x Hg Hx. rewrite list_lookup_fmap in Hg. destruct (groups p !! g) as [l0|] eqn:E; [|discriminate].
    injection Hg as <-. rewrite merge_sort_Permutation in Hx. now apply (H3 g l0).
Qed.

(** C15. The planner always produces a packing order: a permutation of the
    files, flagged as reordered exactly when it differs from the original
    order, in which a reference comes after the master it names, and a file
    without fingerprints after all files before it when there are no
    references.  The result is the same whatever the order in which the hash
    map is walked. *)
Theorem plan_cdc_order_correct (walk : list (Z * Z) -> list (Z * Z)) (hashes : list (list Z)) (reference_of : list Z)
  (affinity : Z) (Hwalk : forall l, walk l ≡ₚ l) (Hrefs : Forall (fun r => 0 <= r) reference_of) :
  exists r,
    plan_cdc_order walk hashes reference_of affinity = Ok r /\
    order r ≡ₚ seqZ 0 (zlen hashes) /\
    (reordered r = true <-> order r <> seqZ 0 (zlen hashes)) /\
    (forall i m, refers (zlen hashes) reference_of i m -> before m i (order r)) /\
    (reference_of = [] -> forall i j, 0 <= i < j -> hashes !! Z.to_nat j = Some [] -> before i j (order r)) /\
    (forall walk', (forall l, walk' l ≡ₚ l) -> plan_cdc_order walk' hashes reference_of affinity = Ok r).
Proof.
  assert (Hr : exists r,
    plan_cdc_order walk hashes reference_of affinity = Ok r /\ order r ≡ₚ seqZ 0 (zlen hashes) /\
    (reordered r = true <-> order r <> seqZ 0 (zlen hashes)) /\
    (forall i m, refers (zlen hashes) reference_of i m -> before m i (order r)) /\
    (reference_of = [] -> forall i j, 0 <= i < j -> hashes !! Z.to_nat j = Some [] -> before i j (order r))).
  2: { destruct Hr as (r & H1 & H2 & H3 & H4 & H5). exists r. split_and!; auto.
       intros walk' Hw. rewrite plan_walk by exact Hw. rewrite <- H1. symmetry. now apply plan_walk. }
  unfold plan_cdc_order. destruct (Z.eqb_spec (zlen hashes) 0) as [H0|H0].
  { eexists. split; [reflexivity|]. apply zlen_zero_nil in H0. subst hashes. cbn [order reordered].
    split_and!; [reflexivity | split; [discriminate | intros H; now contradiction H] | intros i m [Hi _]; change (zlen (@nil (list Z))) with 0 in Hi; lia |].
    intros _ i j _ Hj. discriminate. }
  set (index := sort_entries (index_of 0 hashes)).
  assert (Hindex : Forall (fun e => 0 <= he_file e) index) by apply sort_entries_forall, index_of_files.
  destruct (place_all_partition walk Hwalk hashes index affinity Hindex (length hashes) ltac:(lia)) as (p & H1 & H2 & H3).
  rewrite H1, bind_ok. change (Z.of_nat (length hashes)) with (zlen hashes) in *. assert (P := zlen_nonneg hashes).
  assert (Hfin : forall gs, mjoin gs ≡ₚ seqZ 0 (zlen hashes) -> exists r,
            (o ← emit_order (zlen hashes) gs; mret {| order := o; reordered := not_identity 0 o |}) = Ok r /\
            order r = mjoin gs /\ (reordered r = true <-> order r <> seqZ 0 (zlen hashes))).
  { intros gs Hgs. rewrite emit_order_perm, bind_ok by auto. eexists. split; [reflexivity|]. split; [reflexivity|].
    cbn [order reordered]. rewrite not_identity_spec.
    replace (zlen (mjoin gs)) with (zlen hashes) by (now rewrite (perm_zlen (zlen hashes))). reflexivity. }
  destruct (Z.eqb_spec (zlen reference_of) 0) as [Hz|Hz].
  - apply zlen_zero_nil in Hz. subst reference_of. unfold mret at 1, res_ret at 1. rewrite bind_ok.
    destruct (Hfin (groups p) (pt_perm _ _ _ H2)) as (r & R1 & R2 & R3). exists r. rewrite R2 in *. split_and!.
    + exact R1.
    + apply (pt_perm _ _ _ H2).
    + exact R3.
    + intros i m (_ & Hm & _). discriminate.
    + intros _ i j Hij Hj. assert (Hjn := lookup_lt_Some _ _ _ Hj).
      destruct (partition_member _ _ _ i H2) as (g & l & Hg & Hil & Hgi & _); [unfold zlen; lia|].
      destruct (partition_member _ _ _ j H2) as (g' & l' & Hg' & Hjl & Hgj & _); [unfold zlen; lia|].
      assert (Hlt := H3 i j _ _ Hij ltac:(unfold zlen; lia) Hj Hgi Hgj).
      apply (groups_before _ g g' l l'); auto. lia.
  - destruct (fix_all_spec (zlen hashes) reference_of Hrefs p (length hashes) H2) as (p1 & F1 & F2 & F3); [unfold zlen; lia|].
    rewrite F1, bind_ok. unfold mret at 1, res_ret at 1. rewrite bind_ok.
    assert (F4 := partition_sort _ _ F2). destruct (Hfin _ (pt_perm _ _ _ F4)) as (r & R1 & R2 & R3).
    exists r. rewrite R2 in *. split_and!.
    + exact R1.
    + apply (pt_perm _ _ _ F4).
    + exact R3.
    + intros i m Hr. assert (Hr' := Hr). destruct Hr' as (Hi & _ & Hm).
      assert (Heq := F3 i m Hr ltac:(unfold zlen in Hi; lia)).
      destruct (partition_member _ _ _ i F4) as (g & l & Hg & Hil & Hgi & _); [lia|].
      cbn [group_of groups] in *. rewrite Hgi in Heq. symmetry in Heq.
      destruct (partition_bound _ _ _ g m F4) as (l2 & Hl2 & Hml); [lia | exact Heq |]. cbn [groups] in Hl2.
      rewrite Hg in Hl2. injection Hl2 as <-. apply (group_before _ g l); [exact Hg|].
      apply sorted_before; [|exact Hml | exact Hil | lia].
      rewrite list_lookup_fmap in Hg. destruct (groups p1 !! g) as [l0|]; [|discriminate]. injection Hg as <-.
      apply StronglySorted_merge_sort; apply _.
    + intros ->. now contradiction Hz.
Qed.

(** A file without fingerprints need not keep its place: a later file that
    joins an earlier group moves before it. *)
Lemma unfingerprinted_file_overtaken :
  plan_cdc_order id [[1]; []; [1]] [] 300 = Ok {| order := [0; 2; 1]; reordered := true |}.
Proof. vm_compute. reflexivity. Qed.

(** Five files, one a reference to a file of another group. *)
Theorem plan_cdc_order_correct_witness :
  Forall (fun r => 0 <= r) [100; 0; 100; 100; 3] /\
  exists r,
    plan_cdc_order reverse [[1; 2; 3]; [9; 8]; []; [1; 2; 7]; [8]] [100; 0; 100; 100; 3] 300 = Ok r /\
    order r = [0; 1; 3; 4; 2] /\ before 3 4 (order r).
Proof.
  assert (H : Forall (fun r => 0 <= r) [100; 0; 100; 100; 3]) by (repeat constructor; lia).
  split; [exact H|].
  destruct (plan_cdc_order_correct reverse [[1; 2; 3]; [9; 8]; []; [1; 2; 7]; [8]] [100; 0; 100; 100; 3] 300
              reverse_Permutation H) as (r & H1 & _ & _ & H4 & _).
  exists r. split; [exact H1|]. split; [|apply H4; vm_compute; intuition congruence].
  vm_compute in H1. injection H1 as <-. reflexivity.
Defined.

(** ** The cap *)

Fixpoint decimal (p : list Z) (v : Z) : Z := match p with [] => v | c :: p => decimal p (v * 10 + (c - 48)) end.

Lemma decimal_grows p v : Forall (fun c => 48 <= c <= 57) p -> 0 <= v -> v <= decimal p v.
Proof. intros H. revert v. induction H as [|c p Hc H IH]; intros v Hv; cbn; [lia|]. specialize (IH (v * 10 + (c - 48))). lia. Qed.

Lemma parse_cap_digits p v :
  Forall (fun c => 48 <= c <= 57) p -> 0 <= v <= 10 * FINGERPRINT_CAP + 19 ->
  exists w, parse_cap FINGERPRINT_CAP p v = Some w /\ (w = decimal p v \/ FINGERPRINT_CAP < w /\ FINGERPRINT_CAP < decimal p v).
Proof.
  intros H. revert v. induction H as [|c p Hc H IH]; intros v Hv; cbn [parse_cap decimal]; [eauto|].
  rewrite (proj2 (Z.ltb_ge c 48)), (Z.gtb_ltb c), (proj2 (Z.ltb_ge 57 c)) by lia. cbn [orb].
  assert (G := decimal_grows p (v * 10 + (c - 48)) H ltac:(lia)).
  destruct (Z.gtb_spec v FINGERPRINT_CAP) as [Hg|Hg].
  - eexists. split; [reflexivity|]. right. lia.
  - unfold FINGERPRINT_CAP in *. rewrite (wrap_small 64 (v * 10)) by lia. rewrite (wrap_small 64) by lia. apply IH. lia.
Qed.

(** The variable can only lower the cap: a decimal number below it counts,
    anything else is ignored. *)
Lemma cdc_fingerprint_cap_digits p :
  p <> [] -> Forall (fun c => 48 <= c <= 57) p ->
  cdc_fingerprint_cap (Some p) =
    if (1 <=? decimal p 0) && (decimal p 0 <? FINGERPRINT_CAP) then decimal p 0 else FINGERPRINT_CAP.
Proof.
  intros Hp H. destruct p as [|c p]; [congruence|]. unfold cdc_fingerprint_cap.
  destruct (parse_cap_digits (c :: p) 0 H) as (w & Hw & Hd); [unfold FINGERPRINT_CAP; lia|]. rewrite Hw, Z.geb_leb.
  destruct Hd as [->|[Hd1 Hd2]]; [reflexivity|].
  rewrite (proj2 (Z.ltb_ge w _)), (proj2 (Z.ltb_ge (decimal _ _) _)), !andb_false_r by lia. reflexivity.
Qed.

Lemma cdc_fingerprint_cap_range env : 1 <= cdc_fingerprint_cap env <= FINGERPRINT_CAP.
Proof.
  unfold cdc_fingerprint_cap. destruct env as [[|c p]|]; try (unfold FINGERPRINT_CAP; lia).
  destruct (parse_cap _ _ _) as [v|]; [|unfold FINGERPRINT_CAP; lia].
  destruct (_ && _) eqn:E; unfold FINGERPRINT_CAP in *; lia.
Qed.
