(* ===== verification/PathUtil.v ===== *)
(** Archive paths: [src/io/path_util.cpp].

    Strings are byte lists; indices into them are checked, so an out-of-range
    [s[i]] is a [Fault].  [isalpha] and [tolower] are those of the "C" locale.
    [is_lexically_contained] only calls [std::filesystem] and is not
    modelled. *)

From Stdlib Require Import ZArith Lia String.
From stdpp Require Import base tactics list numbers.
From S2P Require Import Prelude Bytes.

Local Open Scope Z_scope.

Definition c_slash : Z := 47.
Definition c_backslash : Z := 92.
Definition c_dot : Z := 46.
Definition c_space : Z := 32.
Definition c_colon : Z := 58.
Definition c_underscore : Z := 95.
Definition c_percent : Z := 37.
Definition c_star : Z := 42.
Definition c_question : Z := 63.

Definition isalpha (c : Z) : bool := ((65 <=? c) && (c <=? 90)) || ((97 <=? c) && (c <=? 122)).
Definition tolower (c : Z) : Z := if (65 <=? c) && (c <=? 90) then c + 32 else c.

Definition normalize_separators (path : list Z) (sep : Z) : list Z :=
  map (fun c => if (c =? c_slash) || (c =? c_backslash) then sep else c) path.

(** ** make_safe_component *)

Definition reserved_names : list (list Z) :=
  map str ["con"; "prn"; "aux"; "nul"; "com0"; "com1"; "com2"; "com3"; "com4"; "com5"; "com6"; "com7";
           "com8"; "com9"; "lpt0"; "lpt1"; "lpt2"; "lpt3"; "lpt4"; "lpt5"; "lpt6"; "lpt7"; "lpt8"; "lpt9";
           "conin$"; "conout$"; "clock$"]%string.

(** Pass 1: control characters and the characters Windows forbids. *)
Definition forbidden_char (c : Z) : bool :=
  (c <? 0x20) || (c =? 60) || (c =? 62) || (c =? 34) || (c =? 124) || (c =? c_question) || (c =? c_star) ||
  (c =? c_colon).

Definition harden_char (c : Z) : Z := if forbidden_char c then c_underscore else c.

(** Passes 2 and 3: [while (end > 0 && (item[end-1] == '.' || item[end-1] == ' '))]. *)
Fixpoint drop_trimmed (l : list Z) : list Z :=
  match l with
  | c :: l' => if (c =? c_dot) || (c =? c_space) then drop_trimmed l' else l
  | [] => []
  end.

Definition trim_end (item : list Z) : list Z := reverse (drop_trimmed (reverse item)).

(** [stem.resize(stem.find('.'))] *)
Fixpoint before_dot (l : list Z) : list Z :=
  match l with
  | [] => []
  | c :: l' => if c =? c_dot then [] else c :: before_dot l'
  end.

Definition stem_of (item : list Z) : list Z := map tolower (trim_end (before_dot item)).

Definition is_reserved (stem : list Z) : bool := existsb (str_eqb stem) reserved_names.

Definition make_safe_component (item : list Z) : list Z :=
  let item := trim_end (map harden_char item) in
  match item with
  | [] => [c_underscore]
  | _ => if is_reserved (stem_of item) then c_underscore :: item else item
  end.

(** ** UTF-8 scanning *)

(** The length announced by a lead byte; 0 for none. *)
Definition seq_len (lead : Z) : Z :=
  if lead <? 0x80 then 1
  else if Z.land lead 0xE0 =? 0xC0 then 2
  else if Z.land lead 0xF0 =? 0xE0 then 3
  else if Z.land lead 0xF8 =? 0xF0 then 4
  else 0.

Definition seq_bits (len lead : Z) : Z :=
  Z.land lead (if len =? 2 then 0x1F else if len =? 3 then 0x0F else 0x07).

Definition min_cp (len : Z) : Z :=
  if len =? 2 then 0x80 else if len =? 3 then 0x800 else if len =? 4 then 0x10000 else 0.

(** The continuation bytes of a sequence of [len] bytes at [i], and its value:
    no overlong form, no surrogate, nothing above U+10FFFF. *)
Definition sequence_ok (len : Z) (s : list Z) (i lead : Z) : res bool :=
  r ← utf8_continuation (Z.to_nat (len - 1)) s (i + 1) (seq_bits len lead);
  mret match r with
       | None => false
       | Some v => negb ((v <? min_cp len) || (v >? 0x10FFFF) || ((v >=? 0xD800) && (v <=? 0xDFFF)))
       end.

Fixpoint io_is_valid_utf8_loop (fuel : nat) (s : list Z) (i : Z) : res bool :=
  match fuel with
  | O => Fuel
  | S fuel' =>
      if i <? zlen s then
        lead ← byte_at s i;
        if lead <? 0x80 then io_is_valid_utf8_loop fuel' s (i + 1)
        else
          let len := seq_len lead in
          if len =? 0 then Ok false
          else if i + len >? zlen s then Ok false
          else
            ok ← sequence_ok len s i lead;
            if negb ok then Ok false else io_is_valid_utf8_loop fuel' s (i + len)
      else Ok true
  end.

Definition io_is_valid_utf8 (s : list Z) : res bool := io_is_valid_utf8_loop (S (length s)) s 0.

(** ** percent_encode_invalid_utf8 *)

(** ["0123456789ABCDEF"[d]] *)
Definition hex_upper (d : Z) : Z := nth (Z.to_nat d) (str "0123456789ABCDEF") 0.

Definition percent (b : Z) : list Z :=
  [c_percent; hex_upper (Z.land (Z.shiftr b 4) 0xF); hex_upper (Z.land b 0xF)].

(** [for (k = 0; k < esc; ++k)], reading [s[i + k]]. *)
Fixpoint percent_bytes (k : nat) (s : list Z) (i : Z) : res (list Z) :=
  match k with
  | O => Ok []
  | S k' => b ← byte_at s i; rest ← percent_bytes k' s (i + 1); mret (percent b ++ rest)
  end.

Fixpoint percent_encode_loop (fuel : nat) (s : list Z) (i : Z) (out : list Z) : res (list Z) :=
  match fuel with
  | O => Fuel
  | S fuel' =>
      if i <? zlen s then
        lead ← byte_at s i;
        let len := seq_len lead in
        ok ← (if lead <? 0x80 then Ok true
              else if (len >? 1) && (i + len <=? zlen s) then sequence_ok len s i lead
              else Ok false);
        let len := if len =? 0 then 1 else len in
        if (ok : bool) then
          p ← slice s i len;
          percent_encode_loop fuel' s (i + len) (out ++ p)
        else
          let avail := zlen s - i in
          let esc := if len <? avail then len else avail in
          p ← percent_bytes (Z.to_nat esc) s i;
          percent_encode_loop fuel' s (i + esc) (out ++ p)
      else Ok out
  end.

Definition percent_encode_invalid_utf8 (s : list Z) : res (list Z) :=
  percent_encode_loop (S (length s)) s 0 [].

(** ** sanitize_archive_path *)

(** [std::getline(ss, item, '/')] until it fails: the last item counts only
    when it is not empty. *)
Fixpoint getline_all (cur l : list Z) : list (list Z) :=
  match l with
  | [] => match cur with [] => [] | _ => [cur] end
  | c :: l' => if c =? c_slash then cur :: getline_all [] l' else getline_all (cur ++ [c]) l'
  end.

Definition strip_drive (norm : list Z) : list Z :=
  match norm with
  | a :: b :: rest => if isalpha a && (b =? c_colon) then rest else norm
  | _ => norm
  end.

Fixpoint strip_slashes (norm : list Z) : list Z :=
  match norm with
  | c :: l => if c =? c_slash then strip_slashes l else norm
  | [] => []
  end.

(** The loop over the components. *)
Fixpoint resolve_parts (items parts : list (list Z)) : res (list (list Z)) :=
  match items with
  | [] => Ok parts
  | item :: items' =>
      if str_eqb item [] || str_eqb item [c_dot] then resolve_parts items' parts
      else if str_eqb item [c_dot; c_dot] then resolve_parts items' (removelast parts)
      else
        e ← percent_encode_invalid_utf8 item;
        resolve_parts items' (parts ++ [make_safe_component e])
  end.

Fixpoint join (parts : list (list Z)) : list Z :=
  match parts with
  | [] => []
  | [p] => p
  | p :: parts' => p ++ c_slash :: join parts'
  end.

Definition sanitize_archive_path (path : list Z) : res (list Z) :=
  let norm := strip_slashes (strip_drive (normalize_separators path c_slash)) in
  match norm with
  | [] => Ok []
  | _ => parts ← resolve_parts (getline_all [] norm) []; mret (join parts)
  end.

(** ** format_archive_path *)

Inductive ExcludePathMode := EP_None | SkipWholePath | BasePath | SaveFullPathNoDrive | AbsPath.

(** [rfind(p, 0) == 0] *)
Fixpoint starts_with (p l : list Z) : bool :=
  match p, l with
  | [], _ => true
  | x :: p', y :: l' => (x =? y) && starts_with p' l'
  | _, [] => false
  end.

(** [substr(find_last_of('/') + 1)]; the whole string when there is none. *)
Fixpoint after_last_slash (cur l : list Z) : list Z :=
  match l with
  | [] => cur
  | c :: l' => if c =? c_slash then after_last_slash l' l' else after_last_slash cur l'
  end.

Definition strip_base (norm_full norm_base : list Z) : res (list Z) :=
  if negb (str_eqb norm_base []) && starts_with norm_base norm_full
  then Ok (strip_slashes (drop (length norm_base) norm_full))
  else sanitize_archive_path norm_full.

Definition format_archive_path (full_path base_path : list Z) (mode : ExcludePathMode) : res (list Z) :=
  let norm_full := normalize_separators full_path c_slash in
  let norm_base := normalize_separators base_path c_slash in
  match mode with
  | SkipWholePath => Ok (after_last_slash norm_full norm_full)
  | BasePath => strip_base norm_full norm_base
  | SaveFullPathNoDrive => sanitize_archive_path (strip_drive norm_full)
  | AbsPath => Ok norm_full
  | EP_None => strip_base norm_full norm_base
  end.

Example sanitize_ex1 : sanitize_archive_path (str "C:\..\a/./b/../con.txt . ") = Ok (str "a/_con.txt").
Proof. vm_compute. reflexivity. Qed.
Example sanitize_ex2 : sanitize_archive_path [47; 0xFF; 58; 46; 46; 47; 46; 46; 32] = Ok (str "%FF_/_").
Proof. vm_compute. reflexivity. Qed.
Example format_ex : format_archive_path (str "/a/foobar/x") (str "/a/foo") BasePath = Ok (str "bar/x").
Proof. vm_compute. reflexivity. Qed.

(** ** UTF-8 scanning: lemmas *)

Lemma seq_len_range c :
  is_byte c ->
  seq_len c = (if c <? 0x80 then 1 else if c <? 0xC0 then 0 else if c <? 0xE0 then 2
               else if c <? 0xF0 then 3 else if c <? 0xF8 then 4 else 0).
Proof.
  intros Hc. apply Z.eqb_eq.
  exact (byte_forall (fun c => seq_len c =? (if c <? 0x80 then 1 else if c <? 0xC0 then 0 else if c <? 0xE0 then 2
     else if c <? 0xF0 then 3 else if c <? 0xF8 then 4 else 0)) ltac:(vm_compute; reflexivity) c Hc).
Qed.

Lemma seq_bits_range c :
  is_byte c -> 0xC0 <= c < 0xF8 ->
  seq_bits (seq_len c) c = (if c <? 0xE0 then c - 0xC0 else if c <? 0xF0 then c - 0xE0 else c - 0xF0).
Proof.
  intros Hb Hc.
  assert (H : (c <? 0xC0) || (0xF8 <=? c) ||
    (seq_bits (seq_len c) c =? (if c <? 0xE0 then c - 0xC0 else if c <? 0xF0 then c - 0xE0 else c - 0xF0)) = true).
  { exact (byte_forall (fun c => (c <? 0xC0) || (0xF8 <=? c) ||
      (seq_bits (seq_len c) c =? (if c <? 0xE0 then c - 0xC0 else if c <? 0xF0 then c - 0xE0 else c - 0xF0)))
      ltac:(vm_compute; reflexivity) c Hb). }
  rewrite (proj2 (Z.ltb_ge c 0xC0)), (proj2 (Z.leb_gt 0xF8 c)) in H by lia. by apply Z.eqb_eq.
Qed.

(** The test of one sequence is [utf8_tail]. *)
Lemma sequence_ok_tail len s i c l1 :
  bytes s -> 0 <= i -> view s i = c :: l1 -> seq_len c = len -> 1 < len <= 4 -> i + len <= zlen s ->
  sequence_ok len s i c =
    Ok (match utf8_tail (len - 1) (seq_bits len c) (min_cp len) l1 with Some _ => true | None => false end).
Proof.
  intros Hs Hi Hv Hlen Hr Hfit.
  assert (Hsl : bytes (c :: l1)) by (rewrite <- Hv; auto with orar).
  apply Forall_cons_inv in Hsl as [Hc Hl1].
  assert (Hc0 : 0xC0 <= c < 0xF8).
  { rewrite seq_len_range in Hlen by done. unfold is_byte in Hc. revert Hlen.
    destruct (Z.ltb_spec c 0x80), (Z.ltb_spec c 0xC0), (Z.ltb_spec c 0xE0), (Z.ltb_spec c 0xF0), (Z.ltb_spec c 0xF8); lia. }
  assert (HL : zlen s = i + (1 + zlen l1)).
  { rewrite <- zlen_cons with (x := c). apply view_length; [|done]. split; [done|]. lia. }
  assert (Hb : 0 <= seq_bits len c < 32).
  { rewrite <- Hlen, seq_bits_range by done. destruct (Z.ltb_spec c 0xE0), (Z.ltb_spec c 0xF0); lia. }
  unfold sequence_ok, utf8_tail. fold (zlen l1). rewrite (proj2 (Z.ltb_ge (zlen l1) _)) by lia.
  set (t := take (Z.to_nat (len - 1)) l1).
  assert (Lt : zlen t = len - 1) by (apply zlen_take; lia).
  replace (Z.to_nat (len - 1)) with (length t) at 1 by (unfold zlen in Lt; lia).
  assert (Hb8 : seq_bits len c * 64 ^ (len - 1) + 64 ^ (len - 1) <= 2 ^ 26).
  { assert (len = 2 \/ len = 3 \/ len = 4) as [E|[E|E]] by lia; [rewrite E in *; lia|rewrite E in *; lia|].
    assert (seq_bits len c < 8); [|rewrite E in *; lia].
    rewrite <- Hlen, seq_bits_range by done. rewrite seq_len_range in Hlen by done. revert Hlen.
    destruct (Z.ltb_spec c 0x80), (Z.ltb_spec c 0xC0), (Z.ltb_spec c 0xE0), (Z.ltb_spec c 0xF0); lia. }
  rewrite (utf8_continuation_spec t s (i + 1) (seq_bits len c) (drop (Z.to_nat (len - 1)) l1));
    [|by apply Forall_take|lia| |lia|by rewrite Lt].
  2: { unfold t. rewrite take_drop. exact (view_step s i [c] l1 Hi Hv). }
  res_simpl. f_equal. destruct (forallb is_cont t); cbn [andb]; [|done].
  set (v := fold_left _ t _). rewrite Z.gtb_ltb, Z.geb_leb.
  destruct (Z.leb_spec (min_cp len) v), (Z.ltb_spec v (min_cp len)); try lia; cbn [orb andb negb]; try done.
  destruct (Z.leb_spec v 0x10FFFF), (Z.ltb_spec 0x10FFFF v); try lia; cbn [orb andb negb]; try done.
  by destruct (_ && _).
Qed.

Lemma utf8_tail_drop extra code mv l l' :
  utf8_tail extra code mv l = Some l' -> l' = drop (Z.to_nat extra) l /\ extra <= zlen l.
Proof.
  unfold utf8_tail. fold (zlen l). destruct (Z.ltb_spec (zlen l) extra); [done|].
  destruct (_ && _); [|done]. by intros [= <-].
Qed.

Lemma is_cont_range d : is_cont d = true -> 0x80 <= d < 0xC0.
Proof. unfold is_cont. intros [H1%Z.leb_le H2%Z.ltb_lt]%andb_true_iff. lia. Qed.

(** A well-formed character is exactly an announced, complete and accepted
    sequence. *)
Lemma utf8_next_seq s i c l1 :
  bytes s -> 0 <= i -> view s i = c :: l1 -> 0x80 <= c ->
  match utf8_next (c :: l1) with
  | Some l' => 1 < seq_len c /\ i + seq_len c <= zlen s /\ sequence_ok (seq_len c) s i c = Ok true /\
               l' = view s (i + seq_len c)
  | None => seq_len c <= 0 \/ zlen s < i + seq_len c \/ sequence_ok (seq_len c) s i c = Ok false
  end.
Proof.
  intros Hs Hi Hv Hc.
  assert (Hsl : bytes (c :: l1)) by (rewrite <- Hv; auto with orar).
  apply Forall_cons_inv in Hsl as [Hb Hl1]. unfold is_byte in Hb.
  assert (HL : zlen s = i + (1 + zlen l1)).
  { rewrite <- zlen_cons with (x := c). apply view_length; [|done]. split; [done|].
    apply Z.nlt_ge. intros Hgt. unfold view, zlen in *. rewrite drop_ge in Hv by lia. done. }
  pose proof (seq_len_range c Hb) as El. rewrite (proj2 (Z.ltb_ge c 0x80)) in El by lia.
  assert (Step : forall len lo,
    seq_len c = len -> 1 < len <= 4 -> seq_bits len c = c - lo ->
    match utf8_tail (len - 1) (c - lo) (min_cp len) l1 with
    | Some l' => 1 < seq_len c /\ i + seq_len c <= zlen s /\ sequence_ok (seq_len c) s i c = Ok true /\
                 l' = view s (i + seq_len c)
    | None => seq_len c <= 0 \/ zlen s < i + seq_len c \/ sequence_ok (seq_len c) s i c = Ok false
    end).
  { intros len lo E Hlen Ebits. rewrite E. destruct (Z.leb_spec (i + len) (zlen s)) as [Hfit|].
    - rewrite (sequence_ok_tail len s i c l1), Ebits by done.
      destruct (utf8_tail _ _ _ l1) as [l'|] eqn:Et; [|right; by right].
      apply utf8_tail_drop in Et as [-> _]. split; [lia|]. split; [done|]. split; [done|].
      symmetry. rewrite <- (take_drop (Z.to_nat (len - 1)) l1) in Hv.
      replace (i + len) with (i + zlen (c :: take (Z.to_nat (len - 1)) l1)) by (rewrite zlen_cons, zlen_take; lia).
      by apply view_step.
    - destruct (utf8_tail _ _ _ l1) as [l'|] eqn:Et; [|right; left; lia].
      apply utf8_tail_drop in Et as [_ ?]. lia. }
  pose proof (seq_bits_range c Hb) as Eb. cbn [utf8_next]. rewrite (proj2 (Z.ltb_ge c 0x80)) by lia.
  destruct (Z.ltb_spec c 0xC2).
  { destruct (Z.ltb_spec c 0xC0); [left; lia|].
    rewrite (proj2 (Z.ltb_lt c 0xE0)) in El, Eb by lia. specialize (Step 2 0xC0 El ltac:(lia)).
    rewrite El in Eb. specialize (Step (Eb ltac:(lia))).
    destruct (utf8_tail (2 - 1) (c - 0xC0) (min_cp 2) l1) as [l'|] eqn:Et; [exfalso|done].
    apply utf8_tail_some in Et as (t & _ & Lt & Hcont & Hmin & _); [|lia|done].
    destruct t as [|d [|]]; [done| |zlen_lia]. cbn in Hcont, Hmin. rewrite andb_true_r in Hcont.
    apply is_cont_range in Hcont. change (min_cp 2) with 0x80 in Hmin. lia. }
  destruct (Z.ltb_spec c 0xC0); [lia|].
  destruct (Z.ltb_spec c 0xE0); [apply (Step 2 0xC0); try lia; rewrite El in Eb; apply Eb; lia|].
  destruct (Z.ltb_spec c 0xF0); [apply (Step 3 0xE0); try lia; rewrite El in Eb; apply Eb; lia|].
  destruct (Z.ltb_spec c 0xF5).
  { rewrite (proj2 (Z.ltb_lt c 0xF8)) in El by lia. apply (Step 4 0xF0); try lia; rewrite El in Eb; apply Eb; lia. }
  destruct (Z.ltb_spec c 0xF8); [|left; lia].
  specialize (Step 4 0xF0 El ltac:(lia)). rewrite El in Eb. specialize (Step (Eb ltac:(lia))).
  destruct (utf8_tail (4 - 1) (c - 0xF0) (min_cp 4) l1) as [l'|] eqn:Et; [exfalso|done].
  apply utf8_tail_some in Et as (t & _ & Lt & Hcont & _ & Hs1 & _); [|lia|done].
  destruct t as [|d [|e [|f [|]]]]; try (zlen_lia). cbn [forallb fold_left] in Hcont, Hs1.
  apply andb_true_iff in Hcont as [Hd%is_cont_range [He%is_cont_range [Hf%is_cont_range _]%andb_true_iff]%andb_true_iff].
  lia.
Qed.

(** The outcome of [sequence_ok] when it is reached. *)
Lemma sequence_ok_total s i c l1 :
  bytes s -> 0 <= i -> view s i = c :: l1 -> 0x80 <= c -> 1 < seq_len c -> i + seq_len c <= zlen s ->
  sequence_ok (seq_len c) s i c = Ok (match utf8_next (c :: l1) with Some _ => true | None => false end).
Proof.
  intros Hs Hi Hv Hc Hl Hfit. pose proof (utf8_next_seq s i c l1 Hs Hi Hv Hc) as H.
  destruct (utf8_next (c :: l1)); [by destruct H as (_ & _ & -> & _)|].
  destruct H as [H|[H|H]]; [lia|lia|done].
Qed.

Lemma view_lt s i : 0 <= i -> i < zlen s -> exists c l1, view s i = c :: l1.
Proof.
  intros Hi Hl. destruct (view s i) as [|c l1] eqn:E; [|by exists c, l1].
  pose proof (zlen_view s i ltac:(lia)) as L. rewrite E in L. change (zlen (@nil Z)) with 0 in L. lia.
Qed.

Lemma utf8_next_ascii c l : c < 0x80 -> utf8_next (c :: l) = Some l.
Proof. intros H. cbn [utf8_next]. by rewrite (proj2 (Z.ltb_lt _ _)). Qed.

(** A whole string is text when its first character is and the rest is. *)
Lemma utf8_text_next l l' : bytes l -> utf8_next l = Some l' -> utf8_text l <-> utf8_text l'.
Proof.
  intros Hb E. destruct (utf8_next_sound l l' Hb E) as (cp & Hcp & ->). split; [|by apply utf8_text_cons].
  intros ([|cp' cps] & Hc & E'); cbn [map concat] in E'.
  { rewrite <- app_nil_r in E' at 1. apply (f_equal zlen) in E'. pose proof (utf8_encode_nonempty cp). zlen_lia. }
  apply Forall_cons_inv in Hc as [Hc1 Hc2]. exists cps. split; [done|].
  apply (f_equal utf8_next) in E'. rewrite !utf8_next_complete in E' by done. congruence.
Qed.

Lemma utf8_text_none l : l <> [] -> utf8_next l = None -> ~ utf8_text l.
Proof.
  intros Hne E ([|cp cps] & Hc & ->); [done|]. cbn [map concat] in E.
  apply Forall_cons_inv in Hc as [Hc1 Hc2]. by rewrite utf8_next_complete in E.
Qed.

Lemma io_is_valid_utf8_loop_spec fuel s i :
  bytes s -> 0 <= i <= zlen s -> zlen s - i < Z.of_nat fuel ->
  exists b, io_is_valid_utf8_loop fuel s i = Ok b /\ (b = true <-> utf8_text (view s i)).
Proof.
  intros Hs. revert i. induction fuel as [|fuel IH]; intros i Hi Hf; [lia|]. cbn [io_is_valid_utf8_loop].
  destruct (Z.ltb_spec i (zlen s)) as [Hlt|Hge].
  2:{ exists true. split; [done|]. split; [|done]. intros _. exists []. split; [done|].
      unfold view, zlen in *. by rewrite drop_ge by lia. }
  destruct (view_lt s i ltac:(lia) Hlt) as (c & l1 & Hv). rewrite (byte_at_view s i c l1) by (done || lia). res_simpl.
  assert (Hsl : bytes (c :: l1)) by (rewrite <- Hv; auto with orar). rewrite Hv.
  destruct (Z.ltb_spec c 0x80) as [Ha|Ha].
  { destruct (IH (i + 1)) as (b & -> & Hb); [lia..|]. exists b. split; [done|].
    rewrite Hb. pose proof (view_step s i [c] l1 ltac:(lia) Hv) as Ev. change (zlen [c]) with 1 in Ev. rewrite Ev.
    symmetry. apply utf8_text_next; [done|by apply utf8_next_ascii]. }
  pose proof (utf8_next_seq s i c l1 Hs ltac:(lia) Hv Ha) as Hn.
  destruct (utf8_next (c :: l1)) as [l'|] eqn:En.
  - destruct Hn as (H1 & H2 & E & ->). rewrite (proj2 (Z.eqb_neq _ _)) by lia.
    rewrite Z.gtb_ltb, (proj2 (Z.ltb_ge _ _)), E by lia. res_simpl. cbn [negb].
    destruct (IH (i + seq_len c)) as (b & -> & Hb); [lia..|]. exists b. split; [done|]. rewrite Hb. symmetry.
    by apply utf8_text_next.
  - assert (Hnt : ~ utf8_text (c :: l1)) by (by apply utf8_text_none). exists false. split; [|done].
    destruct (Z.eqb_spec (seq_len c) 0); [done|].
    destruct (Z.gtb_spec (i + seq_len c) (zlen s)); [done|].
    destruct Hn as [Hn|[Hn|E]]; [|lia|by rewrite E].
    exfalso. rewrite seq_len_range in * by (by apply Forall_cons_inv in Hsl as [? _]).
    repeat (destruct (_ <? _)); lia.
Qed.

(** ** Texts *)

Lemma utf8_text_app a b : utf8_text a -> utf8_text b -> utf8_text (a ++ b).
Proof.
  intros (x & Hx & ->) (y & Hy & ->). exists (x ++ y). split; [by apply Forall_app_2|].
  by rewrite map_app, concat_app.
Qed.

Lemma utf8_text_nil : utf8_text [].
Proof. by exists []. Qed.

Lemma utf8_text_ascii l : Forall (fun c => 0 <= c < 0x80) l -> utf8_text l.
Proof.
  induction 1 as [|c l Hc _ IH]; [apply utf8_text_nil|].
  change (c :: l) with ([c] ++ l). replace [c] with (utf8_encode c) by (unfold utf8_encode; by rewrite (proj2 (Z.ltb_lt _ _)) by lia).
  apply utf8_text_cons; [unfold scalar; lia|done].
Qed.

Lemma utf8_encode_text cp : scalar cp -> utf8_text (utf8_encode cp).
Proof. intros H. exists [cp]. split; [by constructor|]. cbn. by rewrite app_nil_r. Qed.

(** The alphabet of the escapes. *)
Definition escape_chars : list Z := str "%0123456789ABCDEF".

Lemma hex_upper_in d : 0 <= d < 16 -> In (hex_upper d) escape_chars.
Proof.
  intros H. assert (E : exists n, (n < 16)%nat /\ d = Z.of_nat n) by (exists (Z.to_nat d); lia).
  destruct E as (n & Hn & ->). unfold hex_upper. rewrite Nat2Z.id.
  do 16 (destruct n as [|n]; [vm_compute; tauto|]). lia.
Qed.

Lemma percent_escape b : Forall (fun c => In c escape_chars) (percent b).
Proof.
  assert (M : forall z, 0 <= Z.land z 0xF < 16) by (intros z; apply (land_range 4); lia).
  unfold percent. apply Forall_cons_2; [by left|]. apply Forall_cons_2; [apply hex_upper_in, M|].
  apply Forall_cons_2; [apply hex_upper_in, M|apply Forall_nil_2].
Qed.

Lemma escape_ascii l : Forall (fun c => In c escape_chars) l -> utf8_text l.
Proof.
  intros H. apply utf8_text_ascii. eapply List.Forall_impl; [|exact H]. intros c Hc.
  assert (A : Forall (fun c => 0 <= c < 0x80) escape_chars) by (repeat constructor; vm_compute; congruence).
  rewrite List.Forall_forall in A. by apply A.
Qed.

Lemma percent_bytes_spec k s i :
  0 <= i -> i + Z.of_nat k <= zlen s ->
  percent_bytes k s i = Ok (concat (map percent (take k (view s i)))).
Proof.
  revert i. induction k as [|k IH]; intros i Hi Hk; [done|]. cbn [percent_bytes].
  destruct (view_lt s i Hi ltac:(lia)) as (c & l1 & Hv). rewrite (byte_at_view s i c l1) by done. res_simpl.
  rewrite IH by lia. res_simpl. rewrite Hv. cbn [take map concat].
  pose proof (view_step s i [c] l1 Hi Hv) as Ev. change (zlen [c]) with 1 in Ev. by rewrite Ev.
Qed.

(** What the encoder guarantees of the piece [o] it appends for [v]. *)
Record encoded (v o : list Z) : Prop := {
  enc_text : utf8_text o;
  enc_id : utf8_text v -> o = v;
  enc_forall : forall P : Z -> Prop, Forall P escape_chars -> Forall P v -> Forall P o;
  enc_nonempty : v <> [] -> o <> []
}.

Lemma encoded_char cp l o :
  scalar cp -> encoded l o -> encoded (utf8_encode cp ++ l) (utf8_encode cp ++ o).
Proof.
  intros Hcp [H1 H2 H3 _]. split.
  - by apply utf8_text_cons.
  - intros Ht. rewrite H2; [done|].
    destruct Ht as ([|cp' cps] & Hc & E); cbn [map concat] in E.
    { apply (f_equal zlen) in E. pose proof (utf8_encode_nonempty cp). zlen_lia. }
    apply Forall_cons_inv in Hc as [Hc1 Hc2]. exists cps. split; [done|].
    apply (f_equal utf8_next) in E. rewrite !utf8_next_complete in E by done. congruence.
  - intros P HP Hv. apply Forall_app in Hv as [Hv1 Hv2]. apply Forall_app_2; [done|by apply H3].
  - intros _ E. apply (f_equal zlen) in E. pose proof (utf8_encode_nonempty cp). zlen_lia.
Qed.

Lemma encoded_escape v rest l o :
  ~ utf8_text (v ++ rest) -> l = v ++ rest -> v <> [] -> encoded rest o ->
  encoded l (concat (map percent v) ++ o).
Proof.
  intros Hn -> Hne [H1 H2 H3 _].
  assert (Hesc : Forall (fun c => In c escape_chars) (concat (map percent v))).
  { apply Forall_concat. rewrite Forall_map. apply Forall_true. apply percent_escape. }
  split.
  - apply utf8_text_app; [by apply escape_ascii|done].
  - done.
  - intros P HP Hv. apply Forall_app in Hv as [_ Hv2]. apply Forall_app_2; [|by apply H3].
    eapply List.Forall_impl; [|exact Hesc]. intros c Hc. rewrite List.Forall_forall in HP. by apply HP.
  - intros _. destruct v as [|x v]; [done|]. by cbn.
Qed.

Lemma encoded_nil : encoded [] [].
Proof. split; try done. apply utf8_text_nil. Qed.

Lemma percent_encode_loop_spec fuel s i out :
  bytes s -> 0 <= i <= zlen s -> zlen s - i < Z.of_nat fuel ->
  exists o, percent_encode_loop fuel s i out = Ok (out ++ o) /\ encoded (view s i) o.
Proof.
  intros Hs. revert i out. induction fuel as [|fuel IH]; intros i out Hi Hf; [lia|]. cbn [percent_encode_loop].
  destruct (Z.ltb_spec i (zlen s)) as [Hlt|Hge].
  2:{ exists []. rewrite app_nil_r. split; [done|]. unfold view, zlen in *. rewrite drop_ge by lia. apply encoded_nil. }
  destruct (view_lt s i ltac:(lia) Hlt) as (c & l1 & Hv). rewrite (byte_at_view s i c l1) by (done || lia). res_simpl.
  assert (Hsl : bytes (c :: l1)) by (rewrite <- Hv; auto with orar). rewrite Hv.
  assert (Hl : zlen s = i + zlen (c :: l1)) by (apply view_length; [lia|done]).
  pose proof (proj1 (Forall_cons_inv _ _ _ Hsl)) as Hc.
  (* a well-formed character is copied *)
  assert (Good : forall cp l', scalar cp -> c :: l1 = utf8_encode cp ++ l' -> zlen (utf8_encode cp) = seq_len c ->
    exists o, (p ← slice s i (seq_len c); percent_encode_loop fuel s (i + seq_len c) (out ++ p)) = Ok (out ++ o) /\
      encoded (c :: l1) o).
  { intros cp l' Hcp E EL. rewrite E in Hv. rewrite <- EL.
    rewrite (slice_view s i (utf8_encode cp) l') by (done || lia). res_simpl.
    pose proof (utf8_encode_nonempty cp). rewrite E, zlen_app in Hl. pose proof (zlen_nonneg l').
    destruct (IH (i + zlen (utf8_encode cp)) (out ++ utf8_encode cp)) as (o & -> & Ho); [lia..|].
    rewrite (view_step s i _ l') in Ho by (done || lia).
    exists (utf8_encode cp ++ o). rewrite app_assoc. split; [done|]. rewrite E. by apply encoded_char. }
  (* anything else is escaped, at least one byte *)
  assert (Bad : forall esc, 0 < esc <= zlen (c :: l1) -> ~ utf8_text (c :: l1) ->
    exists o, (p ← percent_bytes (Z.to_nat esc) s i; percent_encode_loop fuel s (i + esc) (out ++ p)) = Ok (out ++ o) /\
      encoded (c :: l1) o).
  { intros esc He Hn. rewrite percent_bytes_spec by lia. res_simpl. rewrite Hv.
    set (v := take (Z.to_nat esc) (c :: l1)). assert (Lv : zlen v = esc) by (apply zlen_take; lia).
    destruct (IH (i + esc) (out ++ concat (map percent v))) as (o & -> & Ho); [lia..|].
    exists (concat (map percent v) ++ o). rewrite app_assoc. split; [done|].
    assert (Ec : c :: l1 = v ++ drop (Z.to_nat esc) (c :: l1)) by (unfold v; by rewrite take_drop).
    rewrite <- Lv in Ho at 1. rewrite (view_step s i v (drop (Z.to_nat esc) (c :: l1))) in Ho by (lia || by rewrite Hv).
    apply (encoded_escape v (drop (Z.to_nat esc) (c :: l1))); [by rewrite <- Ec|done| |done].
    intros E. rewrite E in Lv. change (zlen (@nil Z)) with 0 in Lv. lia. }
  destruct (Z.ltb_spec c 0x80) as [Ha|Ha].
  { assert (E1 : seq_len c = 1) by (unfold seq_len; by rewrite (proj2 (Z.ltb_lt _ _))).
    res_simpl. rewrite (proj2 (Z.eqb_neq (seq_len c) 0)) by lia.
    assert (Eu : utf8_encode c = [c]) by (unfold utf8_encode; by rewrite (proj2 (Z.ltb_lt _ _))).
    apply (Good c l1); [unfold scalar, is_byte in *; lia|by rewrite Eu|by rewrite Eu, E1]. }
  pose proof (utf8_next_seq s i c l1 Hs ltac:(lia) Hv Ha) as Hn.
  assert (Hlen0 : seq_len c = 0 \/ 1 < seq_len c).
  { rewrite seq_len_range by done. rewrite (proj2 (Z.ltb_ge c 0x80)) by lia.
    repeat match goal with |- context [if ?b then _ else _] => destruct b end; lia. }
  destruct (utf8_next (c :: l1)) as [l'|] eqn:En.
  - destruct Hn as (H1 & H2 & E & El'). rewrite Z.gtb_ltb, (proj2 (Z.ltb_lt 1 (seq_len c))) by lia.
    rewrite (proj2 (Z.leb_le (i + seq_len c) (zlen s))) by lia. cbn [andb]. rewrite E. res_simpl. rewrite (proj2 (Z.eqb_neq (seq_len c) 0)) by lia.
    destruct (utf8_next_sound _ _ Hsl En) as (cp & Hcp & Ec). apply (Good cp l' Hcp Ec).
    rewrite Ec, zlen_app in Hl. rewrite El', zlen_view in Hl by lia. lia.
  - assert (Hnt : ~ utf8_text (c :: l1)) by (by apply utf8_text_none).
    assert (Eok : (if (seq_len c >? 1) && (i + seq_len c <=? zlen s) then sequence_ok (seq_len c) s i c else Ok false) = Ok false).
    { destruct (Z.gtb_spec (seq_len c) 1); cbn [andb]; [|done].
      destruct (Z.leb_spec (i + seq_len c) (zlen s)); [|done]. destruct Hn as [?|[?|E]]; [lia|lia|done]. }
    rewrite Eok. res_simpl. pose proof (zlen_nonneg l1). rewrite zlen_cons in *.
    destruct (Z.eqb_spec (seq_len c) 0) as [E0|];
      (match goal with |- context [if ?a <? ?b then ?x else ?y] => destruct (Z.ltb_spec a b) end);
      apply Bad; try done; lia.
Qed.

Lemma percent_encode_spec s :
  bytes s -> exists o, percent_encode_invalid_utf8 s = Ok o /\ encoded s o.
Proof.
  intros Hs. destruct (percent_encode_loop_spec (S (length s)) s 0 [] Hs) as (o & E & Ho);
    [zlen_lia|unfold zlen; lia|]. rewrite view_0 in Ho. by exists o.
Qed.

(** ** Trimming and hardening *)

Definition trimmable (c : Z) : bool := (c =? c_dot) || (c =? c_space).

Lemma trim_end_snoc l c : trim_end (l ++ [c]) = if trimmable c then trim_end l else l ++ [c].
Proof.
  unfold trim_end. rewrite reverse_snoc. cbn [drop_trimmed]. unfold trimmable.
  destruct (_ || _); [done|]. by rewrite reverse_cons, reverse_involutive.
Qed.

Lemma trim_end_idem l : trim_end (trim_end l) = trim_end l.
Proof.
  induction l as [|c l IH] using rev_ind; [done|]. rewrite trim_end_snoc.
  destruct (trimmable c) eqn:E; [done|]. by rewrite trim_end_snoc, E.
Qed.

Lemma trim_end_cons c l :
  trim_end (c :: l) = match trim_end l with [] => if trimmable c then [] else [c] | t => c :: t end.
Proof.
  induction l as [|d l IH] using rev_ind.
  - change [c] with ([] ++ [c]). by rewrite trim_end_snoc.
  - change (c :: l ++ [d]) with ((c :: l) ++ [d]). rewrite !trim_end_snoc.
    destruct (trimmable d); [done|]. by destruct l.
Qed.

Lemma trim_end_forall (P : Z -> Prop) l : Forall P l -> Forall P (trim_end l).
Proof.
  intros H. induction l as [|c l IH] using rev_ind; [done|]. rewrite trim_end_snoc.
  apply Forall_app in H as [H1 H2]. destruct (trimmable c); [auto|by apply Forall_app_2].
Qed.

Lemma encode_high cp : scalar cp -> 0x80 <= cp -> Forall (fun b => 0x80 <= b) (utf8_encode cp).
Proof.
  intros [Hs _] H. unfold utf8_encode. rewrite (proj2 (Z.ltb_ge _ _)) by lia.
  destruct (cp <? 0x800); [|destruct (cp <? 0x10000)]; repeat constructor; dlia.
Qed.

Lemma utf8_text_snoc l c : c < 0x80 -> utf8_text (l ++ [c]) -> utf8_text l.
Proof.
  intros Hc (cps & Hcps & E). destruct cps as [|cp0 cps0] eqn:Ecps; [by destruct l|].
  destruct (exists_last (l := cps)) as (cps' & cp & E'); [by rewrite Ecps|]. rewrite <- Ecps, E' in *. clear Ecps E' cps0 cp0 cps.
  apply Forall_app in Hcps as [Hcps Hcp]. apply Forall_cons_inv in Hcp as [Hcp _].
  rewrite map_app, concat_app in E. cbn [map concat] in E. rewrite app_nil_r in E.
  destruct (Z.ltb_spec cp 0x80) as [Hlt|Hge].
  - replace (utf8_encode cp) with [cp] in E by (unfold utf8_encode; by rewrite (proj2 (Z.ltb_lt _ _))).
    apply app_inj_tail in E as [-> _]. by exists cps'.
  - exfalso. pose proof (encode_high cp Hcp Hge) as HF.
    destruct (exists_last (l := utf8_encode cp)) as (e & b & Ee).
    { intros E0. pose proof (utf8_encode_nonempty cp) as H1. rewrite E0 in H1. by change (zlen (@nil Z)) with 0 in H1. }
    rewrite Ee in HF, E. rewrite app_assoc in E. apply app_inj_tail in E as [_ <-].
    apply Forall_app in HF as [_ HF]. apply Forall_cons_inv in HF as [HF _]. lia.
Qed.

Lemma trimmable_ascii c : trimmable c = true -> c < 0x80.
Proof.
  unfold trimmable, c_dot, c_space. intros [->%Z.eqb_eq | ->%Z.eqb_eq]%orb_true_iff; lia.
Qed.

Lemma trim_end_text l : utf8_text l -> utf8_text (trim_end l).
Proof.
  induction l as [|c l IH] using rev_ind; [done|]. rewrite trim_end_snoc. intros H.
  destruct (trimmable c) eqn:E; [|done]. apply IH. eapply utf8_text_snoc; [|exact H]. by apply trimmable_ascii.
Qed.

Lemma harden_high c : 0x80 <= c -> harden_char c = c.
Proof.
  intros H. unfold harden_char, forbidden_char, c_question, c_star, c_colon.
  rewrite (proj2 (Z.ltb_ge c 0x20)) by lia.
  rewrite !(proj2 (Z.eqb_neq c _)) by lia. done.
Qed.

Lemma harden_ascii c : 0 <= c < 0x80 -> 0 <= harden_char c < 0x80.
Proof. intros H. unfold harden_char. destruct (forbidden_char c); unfold c_underscore; lia. Qed.

Lemma harden_allowed c : forbidden_char (harden_char c) = false.
Proof. unfold harden_char. by destruct (forbidden_char c) eqn:E. Qed.

Lemma harden_id c : forbidden_char c = false -> harden_char c = c.
Proof. intros H. unfold harden_char. by rewrite H. Qed.

Lemma harden_text l : utf8_text l -> utf8_text (map harden_char l).
Proof.
  intros (cps & Hc & ->). induction Hc as [|cp cps Hcp _ IH]; [apply utf8_text_nil|].
  cbn [map concat]. rewrite map_app. apply utf8_text_app; [|done].
  destruct (Z.ltb_spec cp 0x80) as [Hlt|Hge].
  - replace (utf8_encode cp) with [cp] by (unfold utf8_encode; by rewrite (proj2 (Z.ltb_lt _ _))).
    apply utf8_text_ascii. repeat constructor; apply harden_ascii; unfold scalar in Hcp; lia.
  - replace (map harden_char (utf8_encode cp)) with (utf8_encode cp); [by apply utf8_encode_text|].
    symmetry. rewrite <- (List.map_id (utf8_encode cp)) at 2. apply map_ext_in. intros b Hb.
    pose proof (encode_high cp Hcp Hge) as HF. rewrite List.Forall_forall in HF. by apply harden_high, HF.
Qed.

(** ** Safe components *)

Definition component_char (c : Z) : Prop :=
  forbidden_char c = false /\ c <> c_slash /\ c <> c_backslash.

(** What a component of a sanitized path is: not empty, valid UTF-8, free of
    control and forbidden characters and of separators, without a trailing dot
    or space, and not a device name. *)
Record safe_component (c : list Z) : Prop := {
  sc_nonempty : c <> [];
  sc_text : utf8_text c;
  sc_chars : Forall component_char c;
  sc_trim : trim_end c = c;
  sc_device : is_reserved (stem_of c) = false
}.

Lemma is_reserved_underscore s : is_reserved (c_underscore :: s) = false.
Proof. reflexivity. Qed.

Lemma stem_underscore item : stem_of (c_underscore :: item) = c_underscore :: stem_of item.
Proof.
  unfold stem_of. cbn [before_dot]. change (c_underscore =? c_dot) with false. cbv iota.
  rewrite trim_end_cons. by destruct (trim_end (before_dot item)).
Qed.

Lemma underscore_safe item :
  safe_component item \/ (item <> [] /\ utf8_text item /\ Forall component_char item /\ trim_end item = item) ->
  safe_component (c_underscore :: item).
Proof.
  intros H. assert (G : item <> [] /\ utf8_text item /\ Forall component_char item /\ trim_end item = item)
    by (destruct H as [[]|H]; [done|exact H]). clear H. destruct G as (Hn & Ht & Hc & Htr). split.
  - done.
  - change (c_underscore :: item) with ([c_underscore] ++ item). apply utf8_text_app; [|done].
    apply utf8_text_ascii. repeat constructor; done.
  - constructor; [done|done].
  - rewrite trim_end_cons, Htr. by destruct item.
  - rewrite stem_underscore. apply is_reserved_underscore.
Qed.

Definition raw_char (c : Z) : Prop := is_byte c /\ c <> c_slash /\ c <> c_backslash.

Lemma make_safe_component_safe e :
  utf8_text e -> Forall (fun c => c <> c_slash /\ c <> c_backslash) e -> safe_component (make_safe_component e).
Proof.
  intros Ht Hc. unfold make_safe_component. cbv zeta.
  assert (H1 : utf8_text (trim_end (map harden_char e))) by (by apply trim_end_text, harden_text).
  assert (H2 : Forall component_char (trim_end (map harden_char e))).
  { apply trim_end_forall. rewrite Forall_map. eapply List.Forall_impl; [|exact Hc]. intros c [Hs Hb].
    split; [apply harden_allowed|]. unfold harden_char, c_slash, c_backslash, c_underscore in *.
    destruct (forbidden_char c); split; lia || done. }
  pose proof (trim_end_idem (map harden_char e)) as H3.
  destruct (trim_end (map harden_char e)) as [|c0 item] eqn:E.
  - split; [done|apply utf8_text_ascii; by repeat constructor|by repeat constructor|reflexivity|reflexivity].
  - destruct (is_reserved (stem_of (c0 :: item))) eqn:Er.
    + apply underscore_safe. right. by split_and!.
    + by split.
Qed.

Lemma make_safe_component_id c : safe_component c -> make_safe_component c = c.
Proof.
  intros [Hn Ht Hc Htr Hd]. unfold make_safe_component. cbv zeta.
  replace (map harden_char c) with c.
  - rewrite Htr. destruct c; [done|]. by rewrite Hd.
  - rewrite <- (List.map_id c) at 1. apply map_ext_in. intros x Hx. symmetry. apply harden_id.
    rewrite List.Forall_forall in Hc. by apply Hc.
Qed.

Lemma safe_not_dots c : safe_component c -> c <> [c_dot] /\ c <> [c_dot; c_dot].
Proof. intros [_ _ _ Htr _]. split; intros ->; by vm_compute in Htr. Qed.

(** ** Tokens *)

Lemma getline_all_forall (P : Z -> Prop) cur l :
  Forall P cur -> Forall (fun c => c <> c_slash -> P c) l -> Forall (Forall P) (getline_all cur l).
Proof.
  intros Hcur Hl. revert cur Hcur. induction Hl as [|c l Hc _ IH]; intros cur Hcur; cbn [getline_all].
  - destruct cur; [by apply Forall_nil_2|]. apply Forall_cons_2; [done|by apply Forall_nil_2].
  - destruct (Z.eqb_spec c c_slash) as [|Hne].
    + constructor; [done|]. by apply IH.
    + apply IH, Forall_app_2; [done|]. constructor; [auto|done].
Qed.

Lemma getline_all_component cur p l :
  Forall (fun c => c <> c_slash) p -> getline_all cur (p ++ c_slash :: l) = (cur ++ p) :: getline_all [] l.
Proof.
  intros H. revert cur. induction H as [|c p Hc _ IH]; intros cur; cbn [app getline_all].
  - by rewrite app_nil_r.
  - rewrite (proj2 (Z.eqb_neq c c_slash)) by done. by rewrite IH, <- app_assoc.
Qed.

Lemma getline_all_last cur p :
  Forall (fun c => c <> c_slash) p -> cur ++ p <> [] -> getline_all cur p = [cur ++ p].
Proof.
  intros H. revert cur. induction H as [|c p Hc _ IH]; intros cur Hne; cbn [getline_all].
  - rewrite app_nil_r in *. by destruct cur.
  - rewrite (proj2 (Z.eqb_neq c c_slash)) by done. rewrite IH, <- app_assoc; [done|].
    by destruct cur.
Qed.

Lemma getline_join parts :
  Forall (fun p => p <> [] /\ Forall (fun c => c <> c_slash) p) parts -> getline_all [] (join parts) = parts.
Proof.
  induction 1 as [|p parts [Hn Hp] Hps IH]; [done|]. destruct parts as [|q parts].
  - cbn [join]. by apply getline_all_last.
  - change (join (p :: q :: parts)) with (p ++ c_slash :: join (q :: parts)).
    by rewrite getline_all_component, IH.
Qed.

Lemma safe_no_slash c : safe_component c -> c <> [] /\ Forall (fun x => x <> c_slash) c.
Proof.
  intros [Hn _ Hc _ _]. split; [done|]. eapply List.Forall_impl; [|exact Hc]. by intros x (_ & ? & _).
Qed.

Lemma removelast_forall {A} (P : A -> Prop) l : Forall P l -> Forall P (removelast l).
Proof.
  induction 1 as [|x l Hx Hl IH]; [done|]. cbn [removelast]. destruct l; [done|by constructor].
Qed.

Lemma resolve_parts_safe items parts :
  Forall (Forall raw_char) items -> Forall safe_component parts ->
  exists parts', resolve_parts items parts = Ok parts' /\ Forall safe_component parts'.
Proof.
  intros Hi. revert parts. induction Hi as [|item items Hit _ IH]; intros parts Hp; [by exists parts|].
  cbn [resolve_parts]. destruct (_ || _); [by apply IH|].
  destruct (str_eqb item [c_dot; c_dot]); [by apply IH, removelast_forall|].
  assert (Hb : bytes item) by (eapply List.Forall_impl; [|exact Hit]; by intros c []).
  destruct (percent_encode_spec item Hb) as (e & -> & [Ht _ HF _]). res_simpl.
  apply IH, Forall_app_2; [done|]. constructor; [|done]. apply make_safe_component_safe; [done|].
  apply HF; [repeat constructor; done|]. eapply List.Forall_impl; [|exact Hit]. by intros c [].
Qed.

Lemma bytes_of_text s : utf8_text s -> bytes s.
Proof.
  intros (cps & Hc & ->). induction Hc as [|cp cps [Hs _] _ IH]; [done|]. cbn [map concat].
  apply Forall_app_2; [|done]. unfold utf8_encode, is_byte.
  destruct (Z.ltb_spec cp 0x80); [|destruct (Z.ltb_spec cp 0x800); [|destruct (Z.ltb_spec cp 0x10000)]];
    repeat constructor; dlia.
Qed.

Lemma resolve_parts_id items parts :
  Forall safe_component items -> resolve_parts items parts = Ok (parts ++ items).
Proof.
  intros H. revert parts. induction H as [|c items Hc _ IH]; intros parts; cbn [resolve_parts].
  - by rewrite app_nil_r.
  - destruct (safe_not_dots c Hc) as [H1 H2]. pose proof (sc_nonempty c Hc) as H0.
    destruct (str_eqb c []) eqn:E0; [by apply str_eqb_eq in E0|].
    destruct (str_eqb c [c_dot]) eqn:E1; [by apply str_eqb_eq in E1|].
    destruct (str_eqb c [c_dot; c_dot]) eqn:E2; [by apply str_eqb_eq in E2|]. cbn [orb].
    destruct (percent_encode_spec c (bytes_of_text c (sc_text c Hc))) as (e & -> & He). res_simpl.
    rewrite (enc_id _ _ He) by apply (sc_text c Hc). rewrite make_safe_component_id by done.
    by rewrite IH, <- app_assoc.
Qed.

Lemma normalize_id l : Forall (fun c => c <> c_backslash) l -> normalize_separators l c_slash = l.
Proof.
  induction 1 as [|c l Hc _ IH]; [done|]. unfold normalize_separators in *. cbn [map]. rewrite IH. f_equal.
  rewrite (proj2 (Z.eqb_neq c c_backslash)), orb_false_r by done. by destruct (Z.eqb_spec c c_slash).
Qed.

Lemma normalize_spec l : bytes l -> Forall (fun c => is_byte c /\ c <> c_backslash) (normalize_separators l c_slash).
Proof.
  intros H. unfold normalize_separators. rewrite Forall_map. eapply List.Forall_impl; [|exact H]. intros c Hc.
  destruct (Z.eqb_spec c c_slash), (Z.eqb_spec c c_backslash); cbn [orb]; split; try done; by unfold c_slash, is_byte.
Qed.

Lemma strip_drive_forall (P : Z -> Prop) l : Forall P l -> Forall P (strip_drive l).
Proof.
  intros H. destruct H as [|a l Ha H]; [by constructor|]. destruct H as [|b l Hb H]; [by repeat constructor|].
  cbn [strip_drive]. destruct (_ && _); [done|by repeat constructor].
Qed.

Lemma strip_slashes_forall (P : Z -> Prop) l : Forall P l -> Forall P (strip_slashes l).
Proof.
  induction 1 as [|c l Hc H IH]; [by constructor|]. cbn [strip_slashes]. destruct (_ =? _); [done|by constructor].
Qed.

Lemma strip_drive_id l : Forall (fun c => c <> c_colon) l -> strip_drive l = l.
Proof.
  intros H. destruct H as [|a l Ha H]; [done|]. destruct H as [|b l Hb H]; [done|].
  cbn [strip_drive]. by rewrite (proj2 (Z.eqb_neq b c_colon)), andb_false_r.
Qed.

Lemma join_forall (P : Z -> Prop) parts : P c_slash -> Forall (Forall P) parts -> Forall P (join parts).
Proof.
  intros Hs. induction 1 as [|p parts Hp H IH]; [constructor|]. destruct parts; [done|].
  change (join (p :: l :: parts)) with (p ++ c_slash :: join (l :: parts)).
  apply Forall_app_2; [done|]. by constructor.
Qed.

Lemma join_cons_head p parts : p <> [] -> exists c l l', p = c :: l /\ join (p :: parts) = c :: l'.
Proof. destruct p as [|c l]; [done|]. intros _. exists c, l. destruct parts; eexists; by cbn. Qed.

Lemma component_forbidden c : component_char c -> c <> c_colon /\ c <> c_backslash.
Proof.
  intros (Hf & _ & Hb). split; [|done]. intros ->. done.
Qed.

Lemma sanitize_safe_id parts :
  Forall safe_component parts -> sanitize_archive_path (join parts) = Ok (join parts).
Proof.
  intros H. unfold sanitize_archive_path.
  assert (HP : Forall (fun c => c <> c_colon /\ c <> c_backslash) (join parts)).
  { apply join_forall; [done|]. eapply List.Forall_impl; [|exact H]. intros p [_ _ Hc _ _].
    eapply List.Forall_impl; [|exact Hc]. apply component_forbidden. }
  rewrite normalize_id by (eapply List.Forall_impl; [|exact HP]; by intros c []).
  rewrite strip_drive_id by (eapply List.Forall_impl; [|exact HP]; by intros c []).
  destruct parts as [|p parts]; [done|].
  destruct (safe_no_slash p) as [Hne Hns]; [by inversion H|].
  destruct (join_cons_head p parts Hne) as (c & l & l' & Ep & Ej). rewrite Ej. cbn [strip_slashes].
  rewrite Ep in Hns. apply Forall_cons_inv in Hns as [Hc _]. rewrite (proj2 (Z.eqb_neq c c_slash)) by done.
  rewrite <- Ej, getline_join by (eapply List.Forall_impl; [|exact H]; apply safe_no_slash).
  by rewrite resolve_parts_id.
Qed.

Lemma sanitize_spec path :
  bytes path -> exists parts, sanitize_archive_path path = Ok (join parts) /\ Forall safe_component parts.
Proof.
  intros Hb. unfold sanitize_archive_path.
  assert (HN : Forall (fun c => is_byte c /\ c <> c_backslash)
    (strip_slashes (strip_drive (normalize_separators path c_slash))))
    by (by apply strip_slashes_forall, strip_drive_forall, normalize_spec).
  set (norm := strip_slashes _) in *. destruct norm as [|c l] eqn:En; [by exists []|]. rewrite <- En in *.
  destruct (resolve_parts_safe (getline_all [] norm) []) as (parts & -> & Hp); [|done|].
  - apply getline_all_forall; [done|]. eapply List.Forall_impl; [|exact HN]. intros x [Hx Hbs] Hs. by split_and!.
  - res_simpl. by exists parts.
Qed.

(** ** Properties *)

(** C21. Path sanitizing cannot escape: for every byte string the routine
    returns, without reading outside the string, the join of components each
    of which is non-empty, valid UTF-8, neither [.] nor [..], free of
    separators, drive colons, control and Windows-forbidden characters, without a
    trailing dot or space and not a DOS device name; so the result is relative
    and below the extraction root.  Sanitizing it again changes nothing. *)
Theorem sanitize_archive_path_contained (path : list Z) :
  bytes path ->
  exists parts, sanitize_archive_path path = Ok (join parts) /\
    Forall (fun p => safe_component p /\ p <> [c_dot] /\ p <> [c_dot; c_dot] /\
                     Forall (fun c => c <> c_slash /\ c <> c_backslash /\ c <> c_colon /\ 0x20 <= c) p) parts /\
    hd 0 (join parts) <> c_slash /\
    sanitize_archive_path (join parts) = Ok (join parts).
Proof.
  intros Hb. destruct (sanitize_spec path Hb) as (parts & E & Hp). exists parts. split; [done|]. split.
  - eapply List.Forall_impl; [|exact Hp]. intros p Hs. split; [done|].
    split; [by apply safe_not_dots|]. split; [by apply safe_not_dots|].
    eapply List.Forall_impl; [|apply (sc_chars p Hs)]. intros c Hc. destruct (component_forbidden c Hc) as [Hcol _].
    destruct Hc as (Hf & Hsl & Hbs). split_and!; try done.
    unfold forbidden_char in Hf. repeat (apply orb_false_iff in Hf as [Hf _]). by apply Z.ltb_ge.
  - split; [|by apply sanitize_safe_id]. destruct Hp as [|p parts Hs Hp]; [done|].
    destruct (safe_no_slash p Hs) as [Hne Hns]. destruct (join_cons_head p parts Hne) as (c & l & l' & -> & ->).
    cbn. by apply Forall_cons_inv in Hns as [? _].
Qed.

Lemma sanitize_archive_path_contained_witness :
  exists parts, sanitize_archive_path (str "..\../a/../../etc/./nul.txt. ") = Ok (join parts) /\
    join parts = str "etc/_nul.txt".
Proof.
  destruct (sanitize_archive_path_contained (str "..\../a/../../etc/./nul.txt. ")) as (parts & E & _).
  - bytes_const.
  - exists parts. split; [exact E|].
    assert (E2 : sanitize_archive_path (str "..\../a/../../etc/./nul.txt. ") = Ok (str "etc/_nul.txt"))
      by (vm_compute; reflexivity). congruence.
Defined.

(** Undecodable names: on every byte string the percent encoder returns
    without reading outside it, its result is valid UTF-8 (as both validators
    of the program agree), and it changes exactly the names that are not. *)
Theorem percent_encode_valid (s : list Z) :
  bytes s ->
  exists out, percent_encode_invalid_utf8 s = Ok out /\
    io_is_valid_utf8 out = Ok true /\ is_valid_utf8 out = Ok true /\
    (out = s <-> io_is_valid_utf8 s = Ok true) /\
    io_is_valid_utf8 s = is_valid_utf8 s.
Proof.
  intros Hb.
  assert (V : forall s, bytes s -> exists b, io_is_valid_utf8 s = Ok b /\ (b = true <-> utf8_text s)).
  { intros s' Hb'. apply (io_is_valid_utf8_loop_spec (S (length s')) s' 0); [done|zlen_lia|unfold zlen; lia]. }
  assert (Vt : forall s, bytes s -> io_is_valid_utf8 s = Ok true <-> utf8_text s).
  { intros s' Hb'. destruct (V s' Hb') as (b & -> & <-). split; [by intros [= ->]|by intros ->]. }
  destruct (percent_encode_spec s Hb) as (out & E & [Ht Hid _ _]). pose proof (bytes_of_text out Ht) as Hbo.
  exists out. split; [done|]. split; [by apply Vt|]. split; [by apply is_valid_utf8_iff|]. split.
  - rewrite Vt by done. split; [by intros <-|done].
  - destruct (V s Hb) as (b & -> & Hv). destruct (is_valid_utf8_total s Hb) as (b' & E').
    rewrite E'. f_equal. pose proof (is_valid_utf8_iff s Hb) as Hi. rewrite E' in Hi.
    destruct b, b'; try done; exfalso.
    + assert (Ok false = Ok true) by (by apply Hi, Hv). done.
    + assert (false = true) by (by apply Hv, Hi). done.
Qed.

Lemma percent_encode_valid_witness :
  exists out, percent_encode_invalid_utf8 [0x61; 0xE2; 0x82; 0x41; 0xF0] = Ok out /\
    is_valid_utf8 out = Ok true /\ out = str "a%E2%82%41%F0".
Proof.
  destruct (percent_encode_valid [0x61; 0xE2; 0x82; 0x41; 0xF0]) as (out & E & _ & V & _).
  - bytes_const.
  - exists out. split; [exact E|]. split; [exact V|]. vm_compute in E. by injection E as <-.
Defined.

(** The escaping is not reversible, against its comment: a name that
    holds a literal [%FF] is valid and kept, so it meets the escape of the
    undecodable byte 0xFF, and two distinct archive names sanitize to one
    path. *)
Theorem percent_encoding_collides :
  percent_encode_invalid_utf8 [0xFF] = percent_encode_invalid_utf8 (str "%FF") /\
  sanitize_archive_path [0xFF] = sanitize_archive_path (str "%FF") /\ [0xFF] <> str "%FF".
Proof. split; [|split]; [vm_compute; reflexivity..|discriminate]. Qed.
