(* ===== verification/Wildcard.v ===== *)
(** Wildcard masks: [wildcard_match] of [src/io/path_util.cpp].

    [p] and [t] are the suffixes of the pattern and the text the two indices
    point at; [star] holds the suffixes at [star_p + 1] and [star_t]. *)

From Stdlib Require Import ZArith Lia String.
From stdpp Require Import base tactics list numbers.
From S2P Require Import Prelude PathUtil.

Local Open Scope Z_scope.

Section wildcard.
Context (case_sensitive : bool).

Definition eq_char (a b : Z) : bool := if case_sensitive then a =? b else tolower a =? tolower b.

(** [while (p < pattern.size() && pattern[p] == '*') p++; return p == size;] *)
Fixpoint only_stars (p : list Z) : bool :=
  match p with
  | [] => true
  | c :: p' => if c =? c_star then only_stars p' else false
  end.

(** The last alternative of the body: back to the last star, one byte later. *)
Definition backtrack (star : option (list Z * list Z)) : option (list Z * list Z) :=
  match star with
  | Some (sp, _ :: st) => Some (sp, st)
  | _ => None
  end.

Fixpoint wildcard_loop (fuel : nat) (p t : list Z) (star : option (list Z * list Z)) : res bool :=
  match fuel with
  | O => Fuel
  | S fuel' =>
      match t with
      | [] => Ok (only_stars p)
      | d :: t' =>
          match p with
          | c :: p' =>
              if (c =? c_question) || eq_char c d then wildcard_loop fuel' p' t' star
              else if c =? c_star then wildcard_loop fuel' p' t (Some (p', t))
              else match backtrack star with
                   | Some (sp, st) => wildcard_loop fuel' sp st (Some (sp, st))
                   | None => Ok false
                   end
          | [] =>
              match backtrack star with
              | Some (sp, st) => wildcard_loop fuel' sp st (Some (sp, st))
              | None => Ok false
              end
          end
      end
  end.

Definition wildcard_fuel (pattern text : list Z) : nat :=
  S ((S (S (length text))) * S (length pattern) + length pattern).

Definition wildcard_match (pattern text : list Z) : res bool :=
  wildcard_loop (wildcard_fuel pattern text) pattern text None.

(** ** The reference: what a mask means *)

Inductive matches : list Z -> list Z -> Prop :=
| m_nil : matches [] []
| m_star p n t : (n <= length t)%nat -> matches p (drop n t) -> matches (c_star :: p) t
| m_char c p d t : c <> c_star -> c = c_question \/ eq_char c d = true -> matches p t -> matches (c :: p) (d :: t).

Lemma matches_star_inv p t : matches (c_star :: p) t -> exists n, (n <= length t)%nat /\ matches p (drop n t).
Proof. intros H. inversion H; subst; [by exists n|done]. Qed.

Lemma matches_char_inv c p t :
  c <> c_star -> matches (c :: p) t ->
  exists d t', t = d :: t' /\ (c = c_question \/ eq_char c d = true) /\ matches p t'.
Proof. intros Hc H. inversion H; subst; [done|]. by eexists _, _. Qed.

Lemma only_stars_matches p : only_stars p = true <-> matches p [].
Proof.
  induction p as [|c p IH]; cbn [only_stars]; [split; [constructor|done]|].
  destruct (Z.eqb_spec c c_star) as [->|Hc].
  - rewrite IH. split.
    + intros H. by apply (m_star p 0 []); [lia|].
    + intros (n & Hn & H)%matches_star_inv. by rewrite drop_nil in H.
  - split; [done|]. intros (d & t' & E & _)%matches_char_inv; [done|done].
Qed.

(** A star absorbs a longer prefix. *)
Lemma matches_star_drop p t k :
  (k <= length t)%nat -> matches (c_star :: p) (drop k t) -> matches (c_star :: p) t.
Proof.
  intros Hk (n & Hn & H)%matches_star_inv. rewrite length_drop in Hn. rewrite drop_drop in H.
  apply (m_star p (k + n) t); [lia|done].
Qed.

(** A segment without stars consumes exactly its length. *)
Lemma matches_segment seg p t :
  Forall (fun c => c <> c_star) seg -> matches (seg ++ p) t ->
  (length seg <= length t)%nat /\ matches p (drop (length seg) t).
Proof.
  intros H. revert t. induction H as [|c seg Hc _ IH]; intros t Hm; [split; [cbn; lia|done]|].
  cbn [app] in Hm. apply matches_char_inv in Hm as (d & t' & -> & _ & Hm); [|done].
  destruct (IH t' Hm) as [L M]. cbn [length drop]. split; [lia|done].
Qed.

(** [seg] has matched [tseg]. *)
Fixpoint seg_matches (seg tseg : list Z) : Prop :=
  match seg, tseg with
  | [], [] => True
  | c :: seg, d :: tseg => c <> c_star /\ (c = c_question \/ eq_char c d = true) /\ seg_matches seg tseg
  | _, _ => False
  end.

Lemma seg_matches_snoc seg tseg c d :
  seg_matches seg tseg -> c <> c_star -> c = c_question \/ eq_char c d = true ->
  seg_matches (seg ++ [c]) (tseg ++ [d]).
Proof.
  revert tseg. induction seg as [|x seg IH]; intros [|y tseg] H Hc Hcd; try done.
  destruct H as (H1 & H2 & H3). cbn. split_and!; auto.
Qed.

Lemma seg_matches_facts seg tseg :
  seg_matches seg tseg -> length seg = length tseg /\ Forall (fun c => c <> c_star) seg.
Proof.
  revert tseg. induction seg as [|x seg IH]; intros [|y tseg] H; try done.
  destruct H as (H1 & _ & H3). destruct (IH _ H3) as [L F]. split; [by cbn; rewrite L|by constructor].
Qed.

Lemma seg_matches_app seg tseg p t : seg_matches seg tseg -> matches p t -> matches (seg ++ p) (tseg ++ t).
Proof.
  revert tseg. induction seg as [|x seg IH]; intros [|y tseg] H Hm; try done.
  destruct H as (H1 & H2 & H3). cbn [app]. apply m_char; [done|done|by apply IH].
Qed.

(** The loop state: since the last star, a star-free segment has matched as
    many bytes of the text. *)
Definition star_inv (p t : list Z) (star : option (list Z * list Z)) : Prop :=
  match star with
  | None => True
  | Some (sp, st) => exists seg tseg, sp = seg ++ p /\ st = tseg ++ t /\ seg_matches seg tseg
  end.

(** The alternatives the loop still has: go on from here, or restart after the
    last star from a later byte. *)
Definition goal (p t : list Z) (star : option (list Z * list Z)) : Prop :=
  matches p t \/
  match star with
  | None => False
  | Some (sp, st) => exists k, (1 <= k <= length st)%nat /\ matches sp (drop k st)
  end.

Definition measure (B : nat) (text_len : nat) (p : list Z) (star : option (list Z * list Z)) : nat :=
  match star with
  | None => S text_len * S B + length p
  | Some (_, st) => length st * S B + length p
  end.

(** [text] holds no literal star. *)
Definition no_star (t : list Z) : Prop := Forall (fun d => d <> c_star) t.

Lemma eq_char_star d : d <> c_star -> eq_char c_star d = false.
Proof.
  unfold eq_char, c_star, tolower. intros H. destruct case_sensitive; apply Z.eqb_neq; [lia|].
  cbn. destruct ((65 <=? d) && (d <=? 90)) eqn:E; [apply andb_true_iff in E as [E1%Z.leb_le E2%Z.leb_le]; lia|lia].
Qed.

Lemma goal_backtrack p t star :
  t <> [] -> star_inv p t star -> ~ matches p t ->
  goal p t star <-> match backtrack star with Some (sp, st) => goal sp st (Some (sp, st)) | None => False end.
Proof.
  intros Ht Hinv Hn. unfold goal at 1. destruct star as [[sp st]|]; cbn [backtrack]; [|tauto].
  destruct Hinv as (seg & tseg & -> & Est & Hseg).
  destruct st as [|d st]; [by destruct tseg, t|]. unfold goal. split.
  - intros [?|(k & Hk & Hm)]; [done|]. destruct k as [|k]; [lia|]. cbn [drop length] in *.
    destruct k as [|k]; [by left|]. right. exists (S k). split; [lia|done].
  - intros [Hm|(k & Hk & Hm)]; right; [exists 1%nat|exists (S k)]; cbn [drop length]; (split; [lia|done]).
Qed.

Lemma wildcard_loop_spec B N fuel p t star :
  no_star t -> star_inv p t star -> (length p <= B)%nat ->
  match star with
  | Some (sp, st) => (length sp <= B)%nat /\ (length st <= N)%nat /\ no_star st
  | None => (length t <= N)%nat
  end ->
  (measure B N p star < fuel)%nat ->
  exists b, wildcard_loop fuel p t star = Ok b /\ (b = true <-> goal p t star).
Proof.
  revert p t star. induction fuel as [|fuel IH]; intros p t star Hns Hinv HB HN Hf; [lia|].
  cbn [wildcard_loop]. destruct t as [|d t'].
  - exists (only_stars p). split; [done|]. rewrite only_stars_matches. unfold goal. split; [by left|].
    intros [?|H]; [done|]. destruct star as [[sp st]|]; [|done].
    destruct Hinv as (seg & tseg & -> & -> & Hseg). destruct H as (k & Hk & Hm).
    destruct (seg_matches_facts _ _ Hseg) as [L F]. rewrite app_nil_r in Hk, Hm.
    apply matches_segment in Hm as [L' _]; [|done]. rewrite length_drop in L'. lia.
  - (* the common backtracking step *)
    assert (Back : ~ matches p (d :: t') ->
      exists b, match backtrack star with
        | Some (sp, st) => wildcard_loop fuel sp st (Some (sp, st))
        | None => Ok false end = Ok b /\ (b = true <-> goal p (d :: t') star)).
    { intros Hn. pose proof (goal_backtrack p (d :: t') star ltac:(done) Hinv Hn) as Hg.
      destruct star as [[sp st]|]; cbn [backtrack] in Hg |- *; [|exists false; by rewrite Hg].
      destruct Hinv as (seg & tseg & Esp & Est & Hseg). destruct HN as (HN1 & HN2 & HN3).
      destruct st as [|x st]; [exists false; by rewrite Hg|].
      apply Forall_cons_inv in HN3 as [_ HN3]. cbn [length measure] in *.
      destruct (IH sp st (Some (sp, st))) as (b & -> & Hb); [done|by exists [], []|done|by split_and!; [|lia|]|cbn [measure]; nia|].
      exists b. by rewrite Hg, Hb. }
    destruct p as [|c p']; [apply Back; by inversion 1|].
    apply Forall_cons_inv in Hns as [Hd Hns]. cbn [length] in HB.
    destruct ((c =? c_question) || eq_char c d) eqn:Ecd.
    + assert (Hcd : c = c_question \/ eq_char c d = true)
        by (apply orb_true_iff in Ecd as [E%Z.eqb_eq|E]; [by left|by right]).
      assert (Hc : c <> c_star) by (intros ->; destruct Hcd as [?|E]; [done|by rewrite eq_char_star in E]).
      destruct (IH p' t' star) as (b & -> & Hb); [done| |lia| |destruct star as [[sp st]|]; cbn [measure length] in *; lia|].
      * destruct star as [[sp st]|]; [|done]. destruct Hinv as (seg & tseg & -> & -> & Hseg).
        exists (seg ++ [c]), (tseg ++ [d]). rewrite <- !app_assoc. split; [done|]. split; [done|]. by apply seg_matches_snoc.
      * destruct star as [[sp st]|]; [done|]. cbn [length] in HN. lia.
      * exists b. split; [done|]. rewrite Hb. unfold goal.
        assert (E : matches p' t' <-> matches (c :: p') (d :: t')).
        { split; [by apply m_char|]. intros (d' & t2 & [= <- <-] & _ & Hm)%matches_char_inv; done. }
        by rewrite E.
    + apply orb_false_iff in Ecd as [Eq Ech]. destruct (Z.eqb_spec c c_star) as [->|Hc].
      * destruct (IH p' (d :: t') (Some (p', d :: t'))) as (b & -> & Hb); [by constructor|by exists [], []|lia| | |].
        { split; [lia|]. destruct star as [[sp st]|]; [|split; [done|by constructor]].
          destruct HN as (_ & HN2 & HN3). destruct Hinv as (seg & tseg & _ & -> & _). rewrite length_app in HN2.
          split; [lia|]. by constructor. }
        { destruct star as [[sp st]|]; cbn [measure length] in *; [|nia].
          destruct Hinv as (seg & tseg & _ & -> & _). rewrite length_app in Hf. cbn [length] in Hf. nia. }
        exists b. split; [done|]. rewrite Hb. clear Hb Back.
        assert (E : goal p' (d :: t') (Some (p', d :: t')) <-> matches (c_star :: p') (d :: t')).
        { unfold goal. split.
          - intros [Hm|(k & Hk & Hm)]; [apply (m_star _ 0)|apply (m_star _ k)]; (lia || done).
          - intros (n & Hn & Hm)%matches_star_inv. destruct n as [|n]; [by left|]. right. exists (S n).
            split; [lia|done]. }
        rewrite E. unfold goal. split; [by left|]. intros [?|H]; [done|].
        destruct star as [[sp st]|]; [|done]. destruct Hinv as (seg & tseg & -> & -> & Hseg).
        destruct H as (k & Hk & Hm). destruct (seg_matches_facts _ _ Hseg) as [L F].
        apply matches_segment in Hm as [L' Hm]; [|done]. rewrite drop_drop, L in Hm. rewrite length_drop in L'.
        rewrite Nat.add_comm, <- drop_drop, drop_app_length in Hm.
        apply (matches_star_drop p' (d :: t') k); [|done]. rewrite length_app in L', Hk. lia.
      * apply Back. intros (d' & t2 & [= <- <-] & Hor & _)%matches_char_inv; [|done].
        apply Z.eqb_neq in Eq. destruct Hor as [?|E]; [done|by rewrite E in Ech].
Qed.

(** C34. Masks: on a name without a literal star the iterative matcher with
    its single backtracking point terminates and decides exactly the meaning
    of the mask: [*] stands for any run of bytes, [?] for one byte, any other
    byte for itself (up to ASCII case when the host is case-insensitive). *)
Theorem wildcard_match_correct (pattern text : list Z) :
  no_star text ->
  exists b, wildcard_match pattern text = Ok b /\ (b = true <-> matches pattern text).
Proof.
  intros Hns. unfold wildcard_match, wildcard_fuel.
  destruct (wildcard_loop_spec (length pattern) (length text)
    (S ((S (S (length text))) * S (length pattern) + length pattern)) pattern text None) as (b & E & Hb);
    [done|done|lia|lia|cbn [measure]; lia|].
  exists b. split; [done|]. rewrite Hb. unfold goal. tauto.
Qed.
End wildcard.

Lemma wildcard_match_correct_witness :
  wildcard_match true (str "a*b?*d.txt") (str "aXXbYbZQd.txt") = Ok true /\
  matches true (str "a*b?*d.txt") (str "aXXbYbZQd.txt") /\
  wildcard_match false (str "*.TXT") (str "readme.txt") = Ok true.
Proof.
  destruct (wildcard_match_correct true (str "a*b?*d.txt") (str "aXXbYbZQd.txt")) as (b & E & Hb).
  - repeat constructor; discriminate.
  - assert (b = true) as -> by (vm_compute in E; congruence).
    split; [exact E|]. split; [by apply Hb|]. vm_compute. reflexivity.
Defined.

(** With a literal star in the name the matcher is wrong: the character
    comparison takes precedence over the star test, so a [*] of the mask that
    meets a [*] of the name is consumed as an ordinary character and the mask
    [*], which means every name, refuses ["*a"]. *)
Theorem wildcard_literal_star_refused :
  wildcard_match true (str "*") (str "*a") = Ok false /\ matches true (str "*") (str "*a").
Proof.
  split; [vm_compute; reflexivity|]. apply (m_star true [] 2); [cbn; lia|]. constructor.
Qed.
