(* ===== verification/ForeignReader.v ===== *)
(** The vocabulary of the foreign-archive readers: [src/archive/foreign_reader.cpp],
    [foreign_reader.hpp] and [extraction_limits.hpp].

    Format detection runs over any [ReadSource] that keeps its laws.  Name
    composition decodes, escapes and sanitizes the names of foreign members. *)

From Stdlib Require Import ZArith Lia String.
From stdpp Require Import base tactics list numbers.
From S2P Require Import Prelude Bytes Source PathUtil.

Local Open Scope Z_scope.

(** ** Limits *)

Definition UNLIMITED : Z := 2 ^ 64 - 1.

Record ExtractionLimits := {
  max_member_output_bytes : Z;
  max_total_output_bytes : Z;
  max_header_count : Z;
  max_header_bytes : Z
}.

Definition ExtractionLimits_default : ExtractionLimits :=
  {| max_member_output_bytes := UNLIMITED; max_total_output_bytes := UNLIMITED;
     max_header_count := UNLIMITED; max_header_bytes := UNLIMITED |}.

Definition member_limited (l : ExtractionLimits) : bool := negb (max_member_output_bytes l =? UNLIMITED).
Definition total_limited (l : ExtractionLimits) : bool := negb (max_total_output_bytes l =? UNLIMITED).
Definition hdr_count_limited (l : ExtractionLimits) : bool := negb (max_header_count l =? UNLIMITED).
Definition hdr_bytes_limited (l : ExtractionLimits) : bool := negb (max_header_bytes l =? UNLIMITED).

Record LimitState := { member_out : Z; total_out : Z; header_count : Z; header_bytes : Z }.

Definition LimitState_default : LimitState :=
  {| member_out := 0; total_out := 0; header_count := 0; header_bytes := 0 |}.

Record MtimeBounds := { mb_min : Z; mb_max : Z }.
Definition MtimeBounds_default : MtimeBounds := {| mb_min := 0; mb_max := 32503680000 |}.

Definition clamp_mtime (t : Z) (bounds : MtimeBounds) : Z :=
  if t <? mb_min bounds then mb_min bounds else if t >? mb_max bounds then mb_max bounds else t.

Definition mtime_out_of_bounds (t : Z) (bounds : MtimeBounds) : bool :=
  (t <? mb_min bounds) || (t >? mb_max bounds).

(** The returned flag and the state left behind. *)
Definition debit_total_bytes (bytes : Z) (limits : ExtractionLimits) (state : LimitState) : bool * LimitState :=
  if bytes >? UNLIMITED - total_out state then (false, state)
  else
    let state := {| member_out := member_out state; total_out := u64 (total_out state + bytes);
                    header_count := header_count state; header_bytes := header_bytes state |} in
    if total_limited limits && (total_out state >? max_total_output_bytes limits) then (false, state)
    else (true, state).

(** ** Vocabulary *)

Inductive SourceFormat := SF_None | Rar5 | LegacyRar | Zip | Gzip | Tar.

Inductive ForeignStatus :=
| FS_Ok | Unparseable | StructuralMismatch | Truncated | CrcMismatch | LimitExceeded | Aborted | IoError
| UnsupportedMethod | EncryptedRefused | SparseRefused | NameEmpty | NotOpened.

Definition foreign_status_string (s : ForeignStatus) : string :=
  (match s with
   | FS_Ok => "ok"
   | Unparseable => "unparseable archive"
   | StructuralMismatch => "structural integrity failure"
   | Truncated => "truncated member"
   | CrcMismatch => "payload checksum mismatch"
   | LimitExceeded => "resource limit exceeded"
   | Aborted => "aborted"
   | IoError => "io error"
   | UnsupportedMethod => "unsupported compression method"
   | EncryptedRefused => "encrypted entries refused"
   | SparseRefused => "sparse member refused"
   | NameEmpty => "name sanitizes to empty"
   | NotOpened => "archive not opened"
   end)%string.

Inductive ForeignType := FT_File | FT_Dir | FT_Symlink | FT_Hardlink | FT_Other.

Record ForeignEntry := {
  fe_name : list Z;
  fe_name_raw : list Z;
  fe_name_escaped : bool;
  fe_type : ForeignType;
  fe_link_target : list Z;
  fe_unpacked_size : Z;
  fe_crc32 : Z;
  fe_has_crc32 : bool;
  fe_dos_attrs : Z;
  fe_has_posix_mode : bool;
  fe_posix_mode : Z;
  fe_owner_name : list Z;
  fe_group_name : list Z;
  fe_has_owner_ids : bool;
  fe_owner_uid : Z;
  fe_owner_gid : Z;
  fe_mtime_sec : Z;
  fe_mtime_nsec : Z;
  fe_timestamp_clamped : bool;
  fe_ctime_sec : Z;
  fe_atime_sec : Z;
  fe_encrypted : bool;
  fe_method_name : list Z;
  fe_comment : list Z
}.

(** ** Detection *)

Definition ZIP_LFH_SIG : Z := 0x04034b50.
Definition ZIP_EOCD_SIG : Z := 0x06054b50.

(** Bytes [off .. off + n) of a fixed-size array. *)
Definition sub (l : list Z) (off n : nat) : list Z := take n (drop off l).

Definition le32 (p : list Z) : Z := le_val (take 4 p).

(** The checksum of a header block: its own field counts as spaces. *)
Definition tar_checksum (hdr : list Z) : Z :=
  fold_left (fun s '(i, b) => u32 (s + (if (148 <=? i) && (i <? 156) then 0x20 else b)))
    (combine (map Z.of_nat (seq 0 512)) hdr) 0.

(** The octal loop over [hdr[148..156)]: [None] is [return false]. *)
Fixpoint probe_octal (l : list Z) (stored : Z) (any_digit : bool) : option (Z * bool) :=
  match l with
  | [] => Some (stored, any_digit)
  | c :: l' =>
      if (c =? 32) || (c =? 0) then
        if any_digit then Some (stored, any_digit) else probe_octal l' stored any_digit
      else if (c <? 48) || (c >? 55) then None
      else probe_octal l' (u32 (u32 (stored * 8) + (c - 48))) true
  end.

Section detect.
Context {S : Type} `{ReadSource S}.

Definition read_exact (f : S) (offset n : Z) : option (list Z) * S :=
  let '(ok, f) := src_seek f offset Begin in
  if negb ok then (None, f)
  else
    let '(l, f) := src_read f n in
    (if zlen l =? n then Some l else None, f).

Definition src_size (f : S) : Z := zlen (src_contents f).

Definition probe_tar (f : S) : bool * S :=
  if src_size f <? 512 then (false, f)
  else
    let '(r, f) := read_exact f 0 512 in
    match r with
    | None => (false, f)
    | Some hdr =>
        match probe_octal (sub hdr 148 8) 0 false with
        | None => (false, f)
        | Some (stored, any_digit) => (any_digit && (stored =? tar_checksum hdr), f)
        end
    end.

(** [f] is the opened file. *)
Definition detect_foreign_format (f : S) : SourceFormat * S :=
  let fsize := src_size f in
  let got := Z.min fsize 8 in
  let '(r, f) := if got >=? 4 then read_exact f 0 got else (Some [], f) in
  match r with
  | None => (SF_None, f)
  | Some read =>
      let b8 := read ++ replicate (8 - length read) 0 in
      if (got >=? 8) && str_eqb b8 [0x52; 0x61; 0x72; 0x21; 0x1A; 0x07; 0x01; 0x00] then (Rar5, f)
      else if (got >=? 7) && str_eqb (take 7 b8) [0x52; 0x61; 0x72; 0x21; 0x1A; 0x07; 0x00] then (LegacyRar, f)
      else if (got >=? 4) && (le32 b8 =? ZIP_LFH_SIG) then (Zip, f)
      else
        let '(tail, f) := if fsize >=? 22 then read_exact f (fsize - 22) 22 else (None, f) in
        if match tail with
           | Some t => (le32 t =? ZIP_EOCD_SIG) && (nth 20 t 0 =? 0) && (nth 21 t 0 =? 0)
           | None => false
           end
        then (Zip, f)
        else if (got >=? 2) && (nth 0 b8 0 =? 0x1F) && (nth 1 b8 0 =? 0x8B) then (Gzip, f)
        else
          let '(tar, f) := probe_tar f in
          (if tar then Tar else SF_None, f)
  end.
End detect.

(** ** Reading at an offset *)

Section laws.
Context {S : Type} `{ReadSourceLaws S}.

Lemma read_exact_spec (f : S) off n :
  src_wf f -> 0 <= off < 2 ^ 63 -> 0 <= n ->
  exists f', read_exact f off n =
      (if off + n <=? zlen (src_contents f) then Some (take (Z.to_nat n) (view (src_contents f) off)) else None, f') /\
    src_wf f' /\ src_contents f' = src_contents f.
Proof.
  intros Hwf Ho Hn. unfold read_exact. pose proof (src_tell_range f Hwf) as [_ Hsz].
  pose proof (src_seek_state f off Begin Hwf ltac:(lia)) as Hs. cbv zeta in Hs.
  destruct (src_seek f off Begin) as [ok f1]. destruct Hs as (W1 & C1 & Hok & T1).
  destruct ok; cbn [negb].
  - assert (Hle : off <= zlen (src_contents f)) by (destruct Hok as [Hok _]; specialize (Hok eq_refl); lia).
    pose proof (src_read_bytes f1 n W1 Hn) as Eb. pose proof (src_read_state f1 n W1 Hn) as (W2 & C2 & _).
    destruct (src_read f1 n) as [l f2]. cbn [fst snd] in *. rewrite C1, T1, Z.add_0_l in Eb.
    exists f2. rewrite C2, C1. split; [|done]. f_equal. subst l. rewrite zlen_take_view by lia.
    destruct (Z.leb_spec (off + n) (zlen (src_contents f))).
    + rewrite (proj2 (Z.eqb_eq _ _)) by lia. done.
    + rewrite (proj2 (Z.eqb_neq _ _)) by lia. done.
  - exists f1. split; [|done]. destruct (Z.leb_spec (off + n) (zlen (src_contents f))); [|done].
    exfalso. assert (false = true); [|done]. apply Hok. lia.
Qed.
End laws.

(** ** Names *)

Definition utf8_sequence_len (s : list Z) (i : Z) : res Z :=
  c ← byte_at s i;
  if c <? 0x80 then mret 1
  else
    let len := seq_len c in
    if len =? 0 then mret 0
    else if i + len >? zlen s then mret 0
    else
      ok ← sequence_ok len s i c;
      mret (if (ok : bool) then len else 0).

Definition append_percent_encoded_byte (out : list Z) (b : Z) : list Z :=
  out ++ [c_percent; hex_upper (Z.shiftr b 4); hex_upper (Z.land b 0xF)].

Definition cp437_map : list Z :=
  [0xC7; 0xFC; 0xE9; 0xE2; 0xE4; 0xE0; 0xE5; 0xE7; 0xEA; 0xEB; 0xE8;
   0xEF; 0xEE; 0xEC; 0xC4; 0xC5; 0xC9; 0xE6; 0xC6; 0xF4; 0xF6; 0xF2;
   0xFB; 0xF9; 0xFF; 0xD6; 0xDC; 0xA2; 0xA3; 0xA5; 0x20A7; 0x192; 0xE1;
   0xED; 0xF3; 0xFA; 0xF1; 0xD1; 0xAA; 0xBA; 0xBF; 0x2310; 0xAC; 0xBD;
   0xBC; 0xA1; 0xAB; 0xBB; 0x2591; 0x2592; 0x2593; 0x2502; 0x2524; 0x2561; 0x2562;
   0x2556; 0x2555; 0x2563; 0x2551; 0x2557; 0x255D; 0x255C; 0x255B; 0x2510; 0x2514; 0x2534;
   0x252C; 0x251C; 0x2500; 0x253C; 0x255E; 0x255F; 0x255A; 0x2554; 0x2569; 0x2566; 0x2560;
   0x2550; 0x256C; 0x2567; 0x2568; 0x2564; 0x2565; 0x2559; 0x2558; 0x2552; 0x2553; 0x256B;
   0x256A; 0x2518; 0x250C; 0x2588; 0x2584; 0x258C; 0x2590; 0x2580; 0x3B1; 0xDF; 0x393;
   0x3C0; 0x3A3; 0x3C3; 0xB5; 0x3C4; 0x3A6; 0x398; 0x3A9; 0x3B4; 0x221E; 0x3C6;
   0x3B5; 0x2229; 0x2261; 0xB1; 0x2265; 0x2264; 0x2320; 0x2321; 0xF7; 0x2248; 0xB0;
   0x2219; 0xB7; 0x221A; 0x207F; 0xB2; 0x25A0; 0xA0].

Definition cp437_char (c : Z) : list Z :=
  let cp := if c <? 0x80 then c else nth (Z.to_nat (c - 0x80)) cp437_map 0 in
  if cp <? 0x80 then [cp]
  else if cp <? 0x800 then [Z.lor 0xC0 (Z.shiftr cp 6); Z.lor 0x80 (Z.land cp 0x3F)]
  else [Z.lor 0xE0 (Z.shiftr cp 12); Z.lor 0x80 (Z.land (Z.shiftr cp 6) 0x3F); Z.lor 0x80 (Z.land cp 0x3F)].

Definition cp437_to_utf8 (raw : list Z) : list Z := concat (map cp437_char raw).

Inductive ForeignNameEncoding := Enc_Utf8 | Enc_Cp437 | Enc_Raw.

(** The loop of steps 1 and 3: copy sequences, escape single bytes. *)
Fixpoint escape_loop (fuel : nat) (raw : list Z) (i : Z) (out : list Z) (escaped : bool) : res (list Z * bool) :=
  match fuel with
  | O => Fuel
  | S fuel' =>
      if i <? zlen raw then
        len ← utf8_sequence_len raw i;
        if len =? 0 then
          b ← byte_at raw i;
          escape_loop fuel' raw (i + 1) (append_percent_encoded_byte out b) true
        else
          p ← slice raw i len;
          escape_loop fuel' raw (i + len) (out ++ p) escaped
      else Ok (out, escaped)
  end.

Definition escape_invalid (raw : list Z) (escaped : bool) : res (list Z * bool) :=
  escape_loop (S (length raw)) raw 0 [] escaped.

Definition translate_foreign_name (raw : list Z) (enc : ForeignNameEncoding) : res (list Z * bool) :=
  '(decoded, escaped) ←
    match enc with
    | Enc_Cp437 => Ok (cp437_to_utf8 raw, false)
    | Enc_Utf8 => escape_invalid raw false
    | Enc_Raw => Ok (raw, false)
    end;
  let decoded := map (fun c => if c =? c_backslash then c_slash else c) decoded in
  '(validated, escaped) ← escape_invalid decoded escaped;
  name ← sanitize_archive_path validated;
  mret (name, escaped).

Example translate_ex : translate_foreign_name [0x2E; 0x2E; 0x5C; 0x61; 0xFF] Enc_Utf8 = Ok (str "a%FF", true).
Proof. vm_compute. reflexivity. Qed.

(** ** Name composition: lemmas *)

Lemma seq_len_nonneg c : is_byte c -> 0 <= seq_len c.
Proof.
  intros Hc. rewrite seq_len_range by done.
  repeat match goal with |- context [if ?b then _ else _] => destruct b end; lia.
Qed.

Lemma utf8_sequence_len_spec s i c l1 :
  bytes s -> 0 <= i -> view s i = c :: l1 ->
  utf8_sequence_len s i =
    Ok (match utf8_next (c :: l1) with Some l' => zlen (c :: l1) - zlen l' | None => 0 end).
Proof.
  intros Hs Hi Hv. unfold utf8_sequence_len. rewrite (byte_at_view s i c l1) by done. res_simpl.
  destruct (Z.ltb_spec c 0x80) as [Ha|Ha].
  { rewrite utf8_next_ascii by done. rewrite zlen_cons. unfold mret, res_ret. f_equal. lia. }
  assert (HL : zlen s = i + zlen (c :: l1)).
  { apply view_length; [|done]. split; [done|]. apply Z.nlt_ge. intros Hgt.
    unfold view, zlen in *. rewrite drop_ge in Hv by lia. done. }
  pose proof (utf8_next_seq s i c l1 Hs Hi Hv Ha) as Hn. destruct (utf8_next (c :: l1)) as [l'|].
  - destruct Hn as (H1 & H2 & E & ->). rewrite (proj2 (Z.eqb_neq _ _)) by lia.
    rewrite Z.gtb_ltb, (proj2 (Z.ltb_ge _ _)), E by lia. res_simpl. rewrite zlen_view by lia. f_equal. lia.
  - destruct (Z.eqb_spec (seq_len c) 0); [done|].
    destruct (Z.gtb_spec (i + seq_len c) (zlen s)); [done|].
    destruct Hn as [Hn|[Hn|E]]; [|lia|by rewrite E].
    assert (Hb : is_byte c) by (pose proof (bytes_view s i Hs) as Hbv; rewrite Hv in Hbv; by apply Forall_cons_inv in Hbv as [? _]).
    pose proof (seq_len_nonneg c Hb). lia.
Qed.

Lemma percent_append out b : is_byte b -> append_percent_encoded_byte out b = out ++ percent b.
Proof.
  intros Hb. unfold append_percent_encoded_byte, percent. do 3 f_equal.
  rewrite <- (Z.shiftr_land b (Z.shiftl 0xF 4) 4) || idtac. change 0xF with (Z.ones 4).
  rewrite Z.land_ones, Z.shiftr_div_pow2, Z.mod_small by (unfold is_byte in Hb; dlia || lia). done.
Qed.

Lemma escape_loop_spec fuel s i out esc :
  bytes s -> 0 <= i <= zlen s -> zlen s - i < Z.of_nat fuel ->
  exists o e, escape_loop fuel s i out esc = Ok (out ++ o, esc || e) /\ encoded (view s i) o /\ (e = true <-> ~ utf8_text (view s i)).
Proof.
  intros Hs. revert i out esc. induction fuel as [|fuel IH]; intros i out esc Hi Hf; [lia|]. cbn [escape_loop].
  destruct (Z.ltb_spec i (zlen s)) as [Hlt|Hge].
  2:{ exists [], false. rewrite app_nil_r, orb_false_r. split; [done|].
      assert (E : view s i = []) by (unfold view, zlen in *; by rewrite drop_ge by lia). rewrite E.
      split; [apply encoded_nil|]. split; [done|]. intros H. by destruct H; apply utf8_text_nil. }
  destruct (view_lt s i ltac:(lia) Hlt) as (c & l1 & Hv).
  assert (Hsl : bytes (c :: l1)) by (rewrite <- Hv; auto with orar).
  assert (Hl : zlen s = i + zlen (c :: l1)) by (apply view_length; [lia|done]).
  rewrite (utf8_sequence_len_spec s i c l1) by (done || lia). res_simpl.
  destruct (utf8_next (c :: l1)) as [l'|] eqn:En.
  - destruct (utf8_next_sound _ _ Hsl En) as (cp & Hcp & Ec).
    pose proof (utf8_encode_nonempty cp). pose proof (zlen_nonneg l').
    assert (EL : zlen (c :: l1) - zlen l' = zlen (utf8_encode cp)) by (rewrite Ec, zlen_app; lia).
    rewrite EL, (proj2 (Z.eqb_neq _ _)) by lia. rewrite Ec in Hv, Hl. rewrite zlen_app in Hl.
    rewrite (slice_view s i (utf8_encode cp) l') by (done || lia). res_simpl.
    destruct (IH (i + zlen (utf8_encode cp)) (out ++ utf8_encode cp) esc) as (o & e & -> & Ho & He); [lia..|].
    rewrite (view_step s i _ l') in Ho, He by (done || lia).
    exists (utf8_encode cp ++ o), e. rewrite app_assoc, Hv. split; [done|]. split; [by apply encoded_char|].
    rewrite He. rewrite <- Ec in *. by rewrite (utf8_text_next _ _ Hsl En).
  - cbn [Z.eqb]. rewrite (byte_at_view s i c l1) by (done || lia). res_simpl.
    destruct (IH (i + 1) (append_percent_encoded_byte out c) true) as (o & e & -> & Ho & He); [lia..|].
    pose proof (view_step s i [c] l1 ltac:(lia) Hv) as Ev. change (zlen [c]) with 1 in Ev. rewrite Ev in Ho.
    assert (Hnt : ~ utf8_text (c :: l1)) by (by apply utf8_text_none).
    exists (percent c ++ o), true. rewrite percent_append, app_assoc by (by apply Forall_cons_inv in Hsl as [? _]).
    rewrite orb_true_r, Hv. split; [done|]. split; [|done].
    replace (percent c ++ o) with (concat (map percent [c]) ++ o) by (cbn [map concat]; by rewrite app_nil_r).
    by apply (encoded_escape [c] l1).
Qed.

Lemma escape_invalid_spec s esc :
  bytes s -> exists o e, escape_invalid s esc = Ok (o, esc || e) /\ encoded s o /\ (e = true <-> ~ utf8_text s).
Proof.
  intros Hs. destruct (escape_loop_spec (S (length s)) s 0 [] esc Hs) as (o & e & E & Ho & He);
    [zlen_lia|unfold zlen; lia|]. rewrite view_0 in Ho, He. by exists o, e.
Qed.

(** Replacing ASCII by ASCII keeps the text and the non-text. *)
Lemma ascii_map_text f s :
  (forall c, 0 <= c < 0x80 -> 0 <= f c < 0x80) -> (forall c, 0x80 <= c -> f c = c) -> bytes s ->
  utf8_text (map f s) <-> utf8_text s.
Proof.
  intros Hlow Hhigh Hb. split.
  - intros (cps & Hc & E). revert s Hb E. induction Hc as [|cp cps Hcp _ IH]; intros s Hb E.
    { destruct s; [apply utf8_text_nil|done]. }
    cbn [map concat] in E. destruct (map_eq_app f s _ _ E) as (e & s' & -> & E1 & E2).
    apply Forall_app in Hb as [Hbe Hb]. apply utf8_text_app; [|by apply IH].
    destruct (Z.ltb_spec cp 0x80) as [Hlt|Hge].
    + replace (utf8_encode cp) with [cp] in E1 by (unfold utf8_encode; by rewrite (proj2 (Z.ltb_lt _ _))).
      destruct e as [|c [|]]; try done. injection E1 as E1. apply Forall_cons_inv in Hbe as [Hc _].
      apply utf8_text_ascii. repeat constructor; unfold is_byte in Hc; [lia|].
      destruct (Z.ltb_spec c 0x80); [done|]. rewrite Hhigh in E1 by done. lia.
    + pose proof (encode_high cp Hcp Hge) as HF. rewrite <- E1, Forall_map in HF.
      assert (Ee : map f e = e).
      { rewrite <- (List.map_id e) at 2. apply map_ext_in. intros c Hc.
        rewrite List.Forall_forall in HF, Hbe. specialize (HF c Hc). specialize (Hbe c Hc).
        destruct (Z.ltb_spec c 0x80) as [Hlt|]; [|by apply Hhigh].
        specialize (Hlow c). unfold is_byte in Hbe. cbn in HF. lia. }
      rewrite Ee in E1. rewrite E1. by apply utf8_encode_text.
  - intros (cps & Hc & ->). clear Hb. induction Hc as [|cp cps Hcp _ IH]; [apply utf8_text_nil|].
    cbn [map concat]. rewrite map_app. apply utf8_text_app; [|done].
    destruct (Z.ltb_spec cp 0x80) as [Hlt|Hge].
    + replace (utf8_encode cp) with [cp] by (unfold utf8_encode; by rewrite (proj2 (Z.ltb_lt _ _))).
      apply utf8_text_ascii. repeat constructor; apply Hlow; unfold scalar in Hcp; lia.
    + replace (map f (utf8_encode cp)) with (utf8_encode cp); [by apply utf8_encode_text|].
      symmetry. rewrite <- (List.map_id (utf8_encode cp)) at 2. apply map_ext_in. intros b Hb.
      pose proof (encode_high cp Hcp Hge) as HF. rewrite List.Forall_forall in HF. by apply Hhigh, HF.
Qed.

(** Every code-page byte is a character. *)
Lemma cp437_char_text c : is_byte c -> exists cp, scalar cp /\ cp437_char c = utf8_encode cp.
Proof.
  intros Hc. set (cp c := if c <? 0x80 then c else nth (Z.to_nat (c - 0x80)) cp437_map 0). exists (cp c).
  assert (H : (0 <=? cp c) && (cp c <? 0xD800) && str_eqb (cp437_char c) (utf8_encode (cp c)) = true).
  { exact (byte_forall (fun c => (0 <=? cp c) && (cp c <? 0xD800) && str_eqb (cp437_char c) (utf8_encode (cp c)))
      ltac:(vm_compute; reflexivity) c Hc). }
  apply andb_true_iff in H as [[H1%Z.leb_le H2%Z.ltb_lt]%andb_true_iff H3%str_eqb_eq].
  split; [unfold scalar; lia|done].
Qed.

Lemma cp437_text raw : bytes raw -> utf8_text (cp437_to_utf8 raw).
Proof.
  unfold cp437_to_utf8. induction 1 as [|c raw Hc _ IH]; [apply utf8_text_nil|]. cbn [map concat].
  destruct (cp437_char_text c Hc) as (cp & Hcp & ->). by apply utf8_text_cons.
Qed.

Lemma separators_text s :
  bytes s -> utf8_text (map (fun c => if c =? c_backslash then c_slash else c) s) <-> utf8_text s.
Proof.
  apply ascii_map_text; intros c Hc; unfold c_backslash, c_slash; destruct (Z.eqb_spec c 92); lia.
Qed.

Lemma separators_bytes s : bytes s -> bytes (map (fun c => if c =? c_backslash then c_slash else c) s).
Proof.
  intros H. rewrite Forall_map. eapply List.Forall_impl; [|exact H]. intros c Hc.
  destruct (c =? c_backslash); [by unfold c_slash|done].
Qed.

(** The decoding step: bytes, whether it is text, and the flag. *)
Lemma decode_step raw enc :
  bytes raw ->
  exists decoded e,
    match enc with
    | Enc_Cp437 => Ok (cp437_to_utf8 raw, false)
    | Enc_Utf8 => escape_invalid raw false
    | Enc_Raw => Ok (raw, false)
    end = Ok (decoded, e) /\ bytes decoded /\
    (enc <> Enc_Raw -> utf8_text decoded) /\
    (e = true <-> enc = Enc_Utf8 /\ ~ utf8_text raw) /\ (enc = Enc_Raw -> decoded = raw).
Proof.
  intros Hb. destruct enc.
  - destruct (escape_invalid_spec raw false Hb) as (o & e & -> & [Ht _ _ _] & He).
    exists o, e. split; [done|]. split; [by apply bytes_of_text|]. split; [done|]. split; [|done].
    rewrite He. tauto.
  - exists (cp437_to_utf8 raw), false. pose proof (cp437_text raw Hb). split; [done|].
    split; [by apply bytes_of_text|]. split; [done|]. split; [|done]. split; [done|]. by intros [? _].
  - exists raw, false. split; [done|]. split; [done|]. split; [done|]. split; [|done]. split; [done|]. by intros [? _].
Qed.

Lemma translate_foreign_name_spec (raw : list Z) (enc : ForeignNameEncoding) :
  bytes raw ->
  exists parts escaped,
    translate_foreign_name raw enc = Ok (join parts, escaped) /\
    Forall safe_component parts /\
    (escaped = true <-> enc <> Enc_Cp437 /\ ~ utf8_text raw).
Proof.
  intros Hb. unfold translate_foreign_name.
  destruct (decode_step raw enc Hb) as (decoded & e & -> & Hbd & Htd & He & Hraw). res_simpl. cbv beta iota.
  set (d := map _ decoded). assert (Hbd' : bytes d) by (by apply separators_bytes).
  destruct (escape_invalid_spec d e Hbd') as (o & e' & -> & [Ht _ _ _] & He'). res_simpl. cbv beta iota.
  destruct (sanitize_spec o (bytes_of_text o Ht)) as (parts & -> & Hp). res_simpl.
  exists parts, (e || e'). split; [done|]. split; [done|].
  rewrite orb_true_iff, He, He'. unfold d. rewrite (separators_text decoded Hbd). destruct enc.
  - specialize (Htd ltac:(done)). split; [intros [[_ ?]|?]; done|intros [_ ?]; by left].
  - specialize (Htd ltac:(done)). split; [intros [[? _]|?]; done|by intros [? _]].
  - rewrite (Hraw eq_refl). split; [intros [[? _]|?]; done|]. intros [_ ?]. by right.
Qed.

(** ** Properties *)

(** C35. Name composition is total and safe: for every byte string and every
    encoding the pipeline returns, without reading outside its strings, a
    relative path of safe components (so a traversal-shaped name never reaches
    an emitted archive), and the escape flag is raised exactly when a name
    that should be UTF-8, or is raw, is not valid UTF-8; code page 437 always
    decodes. *)
Theorem translate_foreign_name_safe (raw : list Z) (enc : ForeignNameEncoding) :
  bytes raw ->
  exists parts escaped,
    translate_foreign_name raw enc = Ok (join parts, escaped) /\
    Forall safe_component parts /\
    (escaped = true <-> enc <> Enc_Cp437 /\ ~ utf8_text raw).
Proof. apply translate_foreign_name_spec. Qed.

Lemma translate_foreign_name_safe_witness :
  exists parts escaped,
    translate_foreign_name [0x2F; 0x2E; 0x2E; 0x5C; 0x61; 0xFF; 0x2F; 0x6E; 0x75; 0x6C] Enc_Raw = Ok (join parts, escaped) /\
    join parts = str "a%FF/_nul" /\ escaped = true.
Proof.
  destruct (translate_foreign_name_safe [0x2F; 0x2E; 0x2E; 0x5C; 0x61; 0xFF; 0x2F; 0x6E; 0x75; 0x6C] Enc_Raw)
    as (parts & escaped & E & _).
  - bytes_const.
  - exists parts, escaped. split; [exact E|].
    assert (E2 : translate_foreign_name [0x2F; 0x2E; 0x2E; 0x5C; 0x61; 0xFF; 0x2F; 0x6E; 0x75; 0x6C] Enc_Raw =
      Ok (str "a%FF/_nul", true)) by (vm_compute; reflexivity).
    rewrite E in E2. split; congruence.
Defined.
