(* ===== verification/ForeignTar.v ===== *)
(** The TAR reader: [src/archive/foreign_tar.cpp].

    [open] walks the headers over any [ReadSource]; [decode] streams one
    member.  The environment is explicit: [cancelled n] answers the n-th poll
    of the hooks, [sink] sees every chunk handed out so far.  Diagnostic
    strings and progress calls are not modelled; opening the file has
    succeeded. *)

From Stdlib Require Import ZArith Lia String.
From stdpp Require Import base tactics list numbers sorting.
From S2P Require Import Prelude Bytes Source PathUtil ForeignReader.

Local Open Scope Z_scope.

Definition BLOCK : Z := 512.

(** ** Numbers *)

(** The base-256 loop after the first byte. *)
Fixpoint base256_loop (l : list Z) (v : Z) : option Z :=
  match l with
  | [] => Some v
  | b :: l' =>
      if v >? Z.shiftr (2 ^ 64 - 1) 8 then None
      else base256_loop l' (Z.lor (u64 (Z.shiftl v 8)) b)
  end.

Fixpoint octal_loop (l : list Z) (v : Z) (any : bool) : option Z :=
  match l with
  | [] => if any then Some v else None
  | c :: l' =>
      if (c =? c_space) || (c =? 0) then
        if any then Some v else octal_loop l' v any
      else if (c <? 48) || (c >? 55) then None
      else if v >? Z.shiftl 1 61 then None
      else octal_loop l' (u64 (u64 (v * 8) + (c - 48))) true
  end.

(** [None]: [false]; [out] is then untouched or 0, and only read on success. *)
Definition parse_tar_num (p : list Z) : option Z :=
  match p with
  | [] => None
  | p0 :: rest =>
      if negb (Z.land p0 0x80 =? 0) then base256_loop rest (Z.land p0 0x7F)
      else octal_loop p 0 false
  end.

(** A field that defaults to zero. *)
Definition num_or_zero (p : list Z) : Z := match parse_tar_num p with Some v => v | None => 0 end.

(** ** pax records *)

Definition digit (c : Z) : bool := (48 <=? c) && (c <=? 57).

(** [while (pos < n && p[pos] != ' ') ++pos;] *)
Fixpoint find_space (fuel : nat) (p : list Z) (pos : Z) : res Z :=
  match fuel with
  | O => Fuel
  | S fuel' =>
      if pos <? zlen p then
        c ← byte_at p pos;
        if c =? c_space then Ok pos else find_space fuel' p (pos + 1)
      else Ok pos
  end.

(** The decimal prefix; [None] is [return false]. *)
Fixpoint record_length (l : list Z) (total : Z) : option Z :=
  match l with
  | [] => Some total
  | c :: l' =>
      if negb (digit c) then None
      else if total >? Z.shiftl 1 40 then None
      else record_length l' (u64 (u64 (total * 10) + (c - 48)))
  end.

(** [std::find(p + pos, p + last, '=') - p].  The range must be valid:
    [pos <= last]; otherwise the search leaves the buffer. *)
Fixpoint find_eq (left : nat) (p : list Z) (pos : Z) : res Z :=
  match left with
  | O => Ok pos
  | S left' => c ← byte_at p pos; if c =? 61 then Ok pos else find_eq left' p (pos + 1)
  end.

Definition std_find (p : list Z) (pos last : Z) : res Z :=
  if pos >? last then Fault else find_eq (Z.to_nat (last - pos)) p pos.

Abbreviation pax_record := (list Z * list Z)%type.

Fixpoint pax_loop (fuel : nat) (p : list Z) (pos : Z) (out : list pax_record) : res (list pax_record) :=
  match fuel with
  | O => Fuel
  | S fuel' =>
      let n := zlen p in
      if pos <? n then
        c ← byte_at p pos;
        if negb (digit c) then Ok out
        else
          let start := pos in
          pos ← find_space (S (length p)) p pos;
          if pos >=? n then Fail
          else
            len_field ← slice p start (pos - start);
            match record_length len_field 0 with
            | None => Fail
            | Some total =>
                let pos := pos + 1 in
                if (total =? 0) || (total >? n - start) then Fail
                else
                  let rec_end := start + total in
                  eq ← std_find p pos rec_end;
                  if eq >=? rec_end then Fail
                  else
                  last ← byte_at p (rec_end - 1);
                  if negb (last =? 10) then Fail
                  else
                    key ← slice p pos (eq - pos);
                    value ← slice p (eq + 1) (rec_end - eq - 2);
                    pax_loop fuel' p rec_end (out ++ [(key, value)])
            end
      else Ok out
  end.

Definition parse_pax_records (p : list Z) : res (list pax_record) := pax_loop (S (length p)) p 0 [].

Fixpoint pax_decimal_loop (s : list Z) (v : Z) : option Z :=
  match s with
  | [] => Some v
  | c :: s' =>
      if negb (digit c) then None
      else
        let d := c - 48 in
        if v >? (2 ^ 64 - 1 - d) / 10 then None else pax_decimal_loop s' (v * 10 + d)
  end.

Definition parse_pax_decimal (s : list Z) : option Z :=
  match s with [] => None | _ => pax_decimal_loop s 0 end.

(** *** Times *)

(** The integer part: value, whether a digit was seen, and the rest.  [None]
    is the overflow guard. *)
Fixpoint time_int (s : list Z) (ipart : Z) (any : bool) : option (Z * bool * list Z) :=
  match s with
  | c :: s' =>
      if digit c then
        if ipart >? Z.shiftl 1 55 then None else time_int s' (u64 (u64 (ipart * 10) + (c - 48))) true
      else Some (ipart, any, s)
  | [] => Some (ipart, any, [])
  end.

Fixpoint time_frac (s : list Z) (frac frac_div : Z) : Z * Z :=
  match s with
  | c :: s' =>
      if digit c then
        if frac_div <? 1000000000 then time_frac s' (u64 (u64 (frac * 10) + (c - 48))) (u32 (frac_div * 10))
        else time_frac s' frac frac_div
      else (frac, frac_div)
  | [] => (frac, frac_div)
  end.

(** The flag, and what is left in [sec] and [nsec]: both are reset first. *)
Definition parse_pax_time (v : list Z) : bool * Z * Z :=
  let '(neg, rest) :=
    match v with
    | c :: r => if (c =? 45) || (c =? 43) then (c =? 45, r) else (false, v)
    | [] => (false, [])
    end in
  match time_int rest 0 false with
  | None => (false, 0, 0)
  | Some (ipart, any, rest) =>
      let '(frac, frac_div) :=
        match rest with
        | c :: r => if c =? c_dot then time_frac r 0 1 else (0, 1)
        | [] => (0, 1)
        end in
      if negb any then (false, 0, 0)
      else
        let sec := if neg then - ipart else ipart in
        (true, sec, frac * (1000000000 / frac_div))
  end.

(** ** Headers *)

Definition all_zero_block (hdr : list Z) : bool := forallb (fun b => b =? 0) hdr.

(** [std::string s(...); s.resize(s.find('\0'))] *)
Fixpoint cut_nul (l : list Z) : list Z :=
  match l with [] => [] | c :: l' => if c =? 0 then [] else c :: cut_nul l' end.

(** [hdr.data() + off], [n] bytes of the 512-byte block. *)
Definition fld (hdr : list Z) (off n : nat) : list Z := sub hdr off n.

Definition hdr_typeflag (hdr : list Z) : Z := nth 156 hdr 0.
Definition hdr_ustar (hdr : list Z) : bool := str_eqb (fld hdr 257 5) (str "ustar").

Definition hdr_prefix (hdr : list Z) : list Z :=
  if hdr_ustar hdr && negb (nth 345 hdr 0 =? 0) then fld hdr 345 155 else [].

(** ustar prefix + name. *)
Definition hdr_raw_name (hdr : list Z) : list Z :=
  let raw_name := cut_nul (fld hdr 0 100) in
  match hdr_prefix hdr with
  | [] => raw_name
  | prefix => cut_nul prefix ++ c_slash :: raw_name
  end.

Definition round_up (size : Z) : Z := u64 (u64 (u64 (size + BLOCK) - 1) / BLOCK * BLOCK).

(** What the pending pax records and the header make of a member before it is
    built: the overrides of the [for (kv : pending_pax)] loop. *)
Record PaxState := {
  px_path : list Z;
  px_link : list Z;
  px_size : option Z;
  px_uid : Z;
  px_have_uid : bool;
  px_gid : Z;
  px_have_gid : bool;
  px_uname : list Z;
  px_gname : list Z;
  px_mtime : Z * Z;
  px_atime : Z;
  px_ctime : Z;
  px_sparse : bool
}.

Definition PaxState_init (uname gname : list Z) : PaxState :=
  {| px_path := []; px_link := []; px_size := None; px_uid := 0; px_have_uid := false; px_gid := 0;
     px_have_gid := false; px_uname := uname; px_gname := gname; px_mtime := (0, 0); px_atime := 0;
     px_ctime := 0; px_sparse := false |}.

(** The decimal loop of [size], its guard [2^54]. *)
Fixpoint pax_size_loop (s : list Z) (v : Z) : option Z :=
  match s with
  | [] => Some v
  | c :: s' =>
      if negb (digit c) then None
      else if v >? Z.shiftl 1 54 then None
      else pax_size_loop s' (u64 (u64 (v * 10) + (c - 48)))
  end.

Definition pax_size (s : list Z) : option Z := match s with [] => None | _ => pax_size_loop s 0 end.

Definition set_size (st : PaxState) (v : Z) : PaxState :=
  {| px_path := px_path st; px_link := px_link st; px_size := Some v; px_uid := px_uid st;
     px_have_uid := px_have_uid st; px_gid := px_gid st; px_have_gid := px_have_gid st;
     px_uname := px_uname st; px_gname := px_gname st; px_mtime := px_mtime st; px_atime := px_atime st;
     px_ctime := px_ctime st; px_sparse := px_sparse st |}.

Definition set_names (st : PaxState) (path link uname gname : list Z) : PaxState :=
  {| px_path := path; px_link := link; px_size := px_size st; px_uid := px_uid st;
     px_have_uid := px_have_uid st; px_gid := px_gid st; px_have_gid := px_have_gid st;
     px_uname := uname; px_gname := gname; px_mtime := px_mtime st; px_atime := px_atime st;
     px_ctime := px_ctime st; px_sparse := px_sparse st |}.

(** [have = parse_pax_decimal(v, id)]: a bad record clears the flag and keeps
    the old number. *)
Definition set_ids (st : PaxState) (uid : Z * bool) (gid : Z * bool) : PaxState :=
  {| px_path := px_path st; px_link := px_link st; px_size := px_size st; px_uid := uid.1;
     px_have_uid := uid.2; px_gid := gid.1; px_have_gid := gid.2;
     px_uname := px_uname st; px_gname := px_gname st; px_mtime := px_mtime st; px_atime := px_atime st;
     px_ctime := px_ctime st; px_sparse := px_sparse st |}.

Definition set_times (st : PaxState) (mtime : Z * Z) (atime ctime : Z) (sparse : bool) : PaxState :=
  {| px_path := px_path st; px_link := px_link st; px_size := px_size st; px_uid := px_uid st;
     px_have_uid := px_have_uid st; px_gid := px_gid st; px_have_gid := px_have_gid st;
     px_uname := px_uname st; px_gname := px_gname st; px_mtime := mtime; px_atime := atime;
     px_ctime := ctime; px_sparse := sparse |}.

Definition pax_id (v : list Z) (old : Z) : Z * bool :=
  match parse_pax_decimal v with Some id => (id, true) | None => (old, false) end.

(** One record; [None] is [return Truncated].  [room] is [fsize - data_offset]. *)
Definition pax_step (room : Z) (st : PaxState) (kv : pax_record) : option PaxState :=
  let '(k, v) := kv in
  if str_eqb k (str "path") then Some (set_names st v (px_link st) (px_uname st) (px_gname st))
  else if str_eqb k (str "linkpath") then Some (set_names st (px_path st) v (px_uname st) (px_gname st))
  else if str_eqb k (str "size") then
    match pax_size v with
    | Some n => if n >? room then None else Some (set_size st n)
    | None => Some st
    end
  else if str_eqb k (str "uid") then Some (set_ids st (pax_id v (px_uid st)) (px_gid st, px_have_gid st))
  else if str_eqb k (str "gid") then Some (set_ids st (px_uid st, px_have_uid st) (pax_id v (px_gid st)))
  else if str_eqb k (str "uname") then Some (set_names st (px_path st) (px_link st) v (px_gname st))
  else if str_eqb k (str "gname") then Some (set_names st (px_path st) (px_link st) (px_uname st) v)
  else if str_eqb k (str "mtime") then
    let '(_, s, ns) := parse_pax_time v in Some (set_times st (s, ns) (px_atime st) (px_ctime st) (px_sparse st))
  else if str_eqb k (str "atime") then
    let '(_, s, _) := parse_pax_time v in Some (set_times st (px_mtime st) s (px_ctime st) (px_sparse st))
  else if str_eqb k (str "ctime") then
    let '(_, s, _) := parse_pax_time v in Some (set_times st (px_mtime st) (px_atime st) s (px_sparse st))
  else if starts_with (str "GNU.sparse.") k then
    Some (set_times st (px_mtime st) (px_atime st) (px_ctime st) true)
  else Some st.

Fixpoint pax_apply (room : Z) (st : PaxState) (recs : list pax_record) : option PaxState :=
  match recs with
  | [] => Some st
  | kv :: recs' => match pax_step room st kv with Some st => pax_apply room st recs' | None => None end
  end.

Record Member := { m_meta : ForeignEntry; m_data_offset : Z; m_size : Z }.

(** What earlier meta headers left for the next member. *)
Record Pending := { pending_long_name : list Z; pending_long_link : list Z; pending_pax : list pax_record }.
Definition no_pending : Pending := {| pending_long_name := []; pending_long_link := []; pending_pax := [] |}.

Definition or_else (a b : list Z) : list Z := match a with [] => b | _ => a end.

Definition binary_names (recs : list pax_record) : bool :=
  existsb (fun '(k, v) => str_eqb k (str "hdrcharset") && str_eqb v (str "BINARY")) recs.

Definition type_of_flag (t : Z) : ForeignType :=
  if (t =? 48) || (t =? 0) || (t =? 55) then FT_File
  else if t =? 53 then FT_Dir
  else if t =? 49 then FT_Hardlink
  else if t =? 50 then FT_Symlink
  else FT_Other.

(** [has_posix_mode] and [posix_mode]; octal constants in hex. *)
Definition posix_mode_of (mode typeflag : Z) : bool * Z :=
  if Z.land mode 0xF000 =? 0xF000 then (true, u32 mode)
  else if (typeflag =? 48) || (typeflag =? 53) || (typeflag =? 0) then
    if mode <=? 0xFFF then (true, Z.lor (u32 mode) (if typeflag =? 53 then 0x4000 else 0x8000)) else (false, 0)
  else (false, 0).

(** [static_cast<int64_t>] *)
Definition s64 (z : Z) : Z := if z <? 2 ^ 63 then z else z - 2 ^ 64.

(** The member a header describes; [Ok None] is [return Truncated]. *)
Definition build_member (hdr : list Z) (size data_offset fsize : Z) (pend : Pending) : res (option Member) :=
  let typeflag := hdr_typeflag hdr in
  match pax_apply (fsize - data_offset)
          (PaxState_init (cut_nul (fld hdr 265 32)) (cut_nul (fld hdr 297 32))) (pending_pax pend) with
  | None => Ok None
  | Some px =>
      let m_sz := match px_size px with Some v => v | None => size end in
      let effective := or_else (px_path px) (or_else (pending_long_name pend) (hdr_raw_name hdr)) in
      let effective_link := or_else (px_link px) (or_else (pending_long_link pend) (cut_nul (fld hdr 157 100))) in
      let enc := if binary_names (pending_pax pend) then Enc_Raw else Enc_Utf8 in
      '(name, escaped) ← translate_foreign_name effective enc;
      '(link, escaped) ← (if typeflag =? 50 then mret (effective_link, escaped)
                          else translate_foreign_name effective_link enc);
      let '(has_mode, mode) := posix_mode_of (num_or_zero (fld hdr 100 8)) typeflag in
      let mtime_sec :=
        if (fst (px_mtime px) =? 0) && (snd (px_mtime px) =? 0)
        then s64 (num_or_zero (fld hdr 136 12)) else fst (px_mtime px) in
      let clamped := mtime_out_of_bounds mtime_sec MtimeBounds_default in
      mret (Some {| m_meta := {|
        fe_name := name; fe_name_raw := effective; fe_name_escaped := escaped;
        fe_type := type_of_flag typeflag; fe_link_target := link; fe_unpacked_size := m_sz;
        fe_crc32 := 0; fe_has_crc32 := false; fe_dos_attrs := 0;
        fe_has_posix_mode := has_mode; fe_posix_mode := mode;
        fe_owner_name := px_uname px; fe_group_name := px_gname px; fe_has_owner_ids := true;
        fe_owner_uid := if px_have_uid px then px_uid px else num_or_zero (fld hdr 108 8);
        fe_owner_gid := if px_have_gid px then px_gid px else num_or_zero (fld hdr 116 8);
        fe_mtime_sec := if clamped then clamp_mtime mtime_sec MtimeBounds_default else mtime_sec;
        fe_mtime_nsec := snd (px_mtime px); fe_timestamp_clamped := clamped;
        fe_ctime_sec := px_ctime px; fe_atime_sec := px_atime px; fe_encrypted := false;
        fe_method_name := if px_sparse px then str "sparse" else []; fe_comment := [] |};
        m_data_offset := data_offset; m_size := m_sz |})
  end.

Section open.
Context {S : Type} `{ReadSource S} (cancelled : nat -> bool) (limits : ExtractionLimits).

Record TarState := {
  ts_file : S;
  ts_pending : Pending;
  ts_offset : Z;
  ts_zero_streak : Z;
  ts_entries : list Member;
  ts_polls : nat
}.

Inductive tar_result := Finished (status : ForeignStatus) | Continue.

(** The state at [offset = ...; continue;]. *)
Definition ts_next (st : TarState) (file : S) (pend : Pending) (offset zero : Z) (entries : list Member) : TarState :=
  {| ts_file := file; ts_pending := pend; ts_offset := offset; ts_zero_streak := zero;
     ts_entries := entries; ts_polls := Datatypes.S (ts_polls st) |}.

Definition finish (st : TarState) (file : S) (status : ForeignStatus) : res (tar_result * TarState) :=
  Ok (Finished status, ts_next st file (ts_pending st) (ts_offset st) (ts_zero_streak st) (ts_entries st)).

(** Meta headers: GNU long names and pax records. *)
Definition meta_header (st : TarState) (file : S) (typeflag size data_offset : Z) : res (tar_result * TarState) :=
  let '(r, file) := read_exact file data_offset size in
  let offset := u64 (data_offset + round_up size) in
  let pend := ts_pending st in
  match r with
  | None => finish st file IoError
  | Some buf =>
      if typeflag =? 76 then
        Ok (Continue, ts_next st file {| pending_long_name := cut_nul buf; pending_long_link := pending_long_link pend;
                                         pending_pax := pending_pax pend |} offset 0 (ts_entries st))
      else if typeflag =? 75 then
        Ok (Continue, ts_next st file {| pending_long_name := pending_long_name pend; pending_long_link := cut_nul buf;
                                         pending_pax := pending_pax pend |} offset 0 (ts_entries st))
      else
        match parse_pax_records buf with
        | Ok recs =>
            Ok (Continue, ts_next st file {| pending_long_name := pending_long_name pend;
                  pending_long_link := pending_long_link pend;
                  pending_pax := if typeflag =? 120 then recs else pending_pax pend |} offset 0 (ts_entries st))
        | Fail => finish st file Unparseable
        | Fault => Fault
        | Fuel => Fuel
        end
  end.

(** One pass over the loop body; the block at [offset] fits in the file. *)
Definition tar_step (st : TarState) : res (tar_result * TarState) :=
  let fsize := src_size (ts_file st) in
  let offset := ts_offset st in
  if cancelled (ts_polls st) then finish st (ts_file st) Aborted
  else
    let '(r, file) := read_exact (ts_file st) offset BLOCK in
    match r with
    | None => finish st file IoError
    | Some hdr =>
        if all_zero_block hdr then
          let zero := ts_zero_streak st + BLOCK in
          Ok (if zero >=? 2 * BLOCK then Finished FS_Ok else Continue,
              ts_next st file (ts_pending st) (offset + BLOCK) zero (ts_entries st))
        else
          match parse_tar_num (fld hdr 148 8) with
          | None => finish st file Unparseable
          | Some stored =>
              if negb (tar_checksum hdr =? stored) then finish st file Unparseable
              else
                match parse_tar_num (fld hdr 124 12) with
                | None => finish st file Unparseable
                | Some size =>
                    let data_offset := offset + BLOCK in
                    if size >? u64 (fsize - data_offset) then finish st file Truncated
                    else
                      let typeflag := hdr_typeflag hdr in
                      if (typeflag =? 76) || (typeflag =? 75) || (typeflag =? 120) || (typeflag =? 103) then
                        meta_header st file typeflag size data_offset
                      else
                        m ← build_member hdr size data_offset fsize (ts_pending st);
                        match m with
                        | None => finish st file Truncated
                        | Some m =>
                            let entries := ts_entries st ++ [m] in
                            let next := u64 (data_offset + round_up (m_size m)) in
                            Ok (if hdr_count_limited limits && (zlen entries >=? max_header_count limits)
                                then Finished LimitExceeded else Continue,
                                ts_next st file no_pending next 0 entries)
                        end
                end
          end
    end.

Fixpoint tar_loop (fuel : nat) (st : TarState) : res (ForeignStatus * TarState) :=
  match fuel with
  | O => Fuel
  | Datatypes.S fuel' =>
      if u64 (ts_offset st + BLOCK) <=? src_size (ts_file st) then
        r ← tar_step st;
        match r with
        | (Finished status, st) => Ok (status, st)
        | (Continue, st) => tar_loop fuel' st
        end
      else Ok (FS_Ok, st)
  end.

(** [open]: at most one pass per block of the file. *)
Definition tar_open (file : S) : res (ForeignStatus * TarState) :=
  let '(ok, file) := src_seek file 0 End_ in
  let st := {| ts_file := file; ts_pending := no_pending; ts_offset := 0; ts_zero_streak := 0;
               ts_entries := []; ts_polls := 0 |} in
  if negb ok then Ok (IoError, st)
  else tar_loop (Datatypes.S (Z.to_nat (src_size file / BLOCK))) st.
End open.

Arguments TarState S : clear implicits.

(** ** decode *)

Section decode.
Context {S : Type} `{ReadSource S} (cancelled : nat -> bool) (sink : list (list Z) -> list Z -> bool)
  (limits : ExtractionLimits).

(** Chunks of at most 64 KiB: the status, the chunks the sink accepted, the
    accumulated limit state and the file. *)
Fixpoint decode_loop (fuel : nat) (file : S) (left member_out : Z) (state : LimitState) (out : list (list Z))
    (polls : nat) : res (ForeignStatus * list (list Z) * LimitState * S) :=
  match fuel with
  | O => Fuel
  | Datatypes.S fuel' =>
      if left >? 0 then
        if cancelled polls then Ok (Aborted, out, state, file)
        else
          let take_ := Z.min left 65536 in
          let '(buf, file) := src_read file take_ in
          if negb (zlen buf =? take_) then Ok (Truncated, out, state, file)
          else
            let member_out := u64 (member_out + take_) in
            if member_limited limits && (member_out >? max_member_output_bytes limits)
            then Ok (LimitExceeded, out, state, file)
            else
              let '(ok, state) := debit_total_bytes take_ limits state in
              if negb ok then Ok (LimitExceeded, out, state, file)
              else if negb (sink out buf) then Ok (Aborted, out, state, file)
              else decode_loop fuel' file (left - take_) member_out state (out ++ [buf]) (Datatypes.S polls)
      else Ok (FS_Ok, out, state, file)
  end.

Definition tar_decode (entries : list Member) (index : nat) (file : S) (state : LimitState)
  : res (ForeignStatus * list (list Z) * LimitState * S) :=
  match entries !! index with
  | None => Ok (Unparseable, [], state, file)
  | Some m =>
      match fe_type (m_meta m) with
      | FT_Other => Ok (UnsupportedMethod, [], state, file)
      | _ =>
          if str_eqb (fe_method_name (m_meta m)) (str "sparse") then Ok (SparseRefused, [], state, file)
          else
            match fe_type (m_meta m) with
            | FT_File =>
                let '(ok, file) := src_seek file (m_data_offset m) Begin in
                if negb ok then Ok (IoError, [], state, file)
                else decode_loop (Datatypes.S (Z.to_nat (m_size m / 65536 + 1))) file (m_size m) 0 state [] 0
            | _ => Ok (FS_Ok, [], state, file)
            end
      end
  end.
End decode.

(** ** pax records: bounds *)

Lemma find_space_spec fuel p pos :
  0 <= pos <= zlen p -> zlen p - pos < Z.of_nat fuel ->
  exists q, find_space fuel p pos = Ok q /\ pos <= q <= zlen p /\
    (q < zlen p -> byte_at p q = Ok c_space).
Proof.
  revert pos. induction fuel as [|fuel IH]; intros pos Hp Hf; [lia|]. cbn [find_space].
  destruct (Z.ltb_spec pos (zlen p)) as [Hlt|]; [|exists pos; split; [done|lia]].
  destruct (view_lt p pos ltac:(lia) Hlt) as (c & l & Hv). rewrite (byte_at_view p pos c l) by (done || lia). res_simpl.
  destruct (Z.eqb_spec c c_space) as [->|].
  - exists pos. split; [done|]. split; [lia|]. intros _. by apply (byte_at_view p pos _ l); [lia|].
  - destruct (IH (pos + 1)) as (q & -> & Hq & Hs); [lia..|]. exists q. split; [done|]. split; [lia|done].
Qed.

Lemma find_eq_spec left p pos :
  0 <= pos -> pos + Z.of_nat left <= zlen p ->
  exists q, find_eq left p pos = Ok q /\ pos <= q <= pos + Z.of_nat left /\
    (q < pos + Z.of_nat left -> byte_at p q = Ok 61).
Proof.
  revert pos. induction left as [|left IH]; intros pos Hp Hl; [exists pos; split; [done|lia]|]. cbn [find_eq].
  destruct (view_lt p pos Hp ltac:(lia)) as (c & l & Hv). rewrite (byte_at_view p pos c l) by done. res_simpl.
  destruct (Z.eqb_spec c 61) as [->|].
  - exists pos. split; [done|]. split; [lia|]. intros _. by apply (byte_at_view p pos _ l).
  - destruct (IH (pos + 1)) as (q & -> & Hq & He); [lia..|]. exists q. split; [done|]. split; [lia|].
    intros Hlt. apply He. lia.
Qed.

Lemma slice_within m i n : 0 <= i -> 0 <= n -> i + n <= zlen m -> exists l, slice m i n = Ok l /\ zlen l = n.
Proof.
  intros Hi Hn Hl. unfold slice. rewrite !(proj2 (Z.leb_le _ _)) by lia. cbn [andb].
  eexists. split; [done|]. apply zlen_take. rewrite zlen_drop; lia.
Qed.

Lemma byte_at_ok m i : 0 <= i < zlen m -> exists b, byte_at m i = Ok b.
Proof.
  intros Hi. destruct (view_lt m i) as (c & l & Hv); [lia..|]. exists c. by apply (byte_at_view m i c l); [lia|].
Qed.

(** A record whose announced length does not even cover its own prefix. *)
Definition short_record (p : list Z) : Prop :=
  exists start pos total, 0 <= start < pos /\ pos < zlen p /\ byte_at p pos = Ok c_space /\
    (len_field ← slice p start (pos - start); mret (record_length len_field 0)) = Ok (Some total) /\
    0 < total <= pos - start.

Lemma record_length_range l t v : 0 <= t -> record_length l t = Some v -> 0 <= v.
Proof.
  revert t. induction l as [|c l IH]; intros t Ht; cbn [record_length]; [by intros [= <-]|].
  destruct (negb _); [done|]. destruct (_ >? _); [done|]. apply IH. apply (wrap_range 64). lia.
Qed.

Lemma pax_loop_spec fuel p pos out :
  0 <= pos <= zlen p -> zlen p - pos < Z.of_nat fuel ->
  pax_loop fuel p pos out <> Fuel /\ (pax_loop fuel p pos out = Fault -> short_record p).
Proof.
  revert pos out. induction fuel as [|fuel IH]; intros pos out Hp Hf; [lia|]. cbn [pax_loop]. cbv zeta.
  destruct (Z.ltb_spec pos (zlen p)) as [Hlt|]; [|done].
  destruct (byte_at_ok p pos ltac:(lia)) as (c & ->). res_simpl. destruct (digit c) eqn:Ed; cbn [negb]; [|done].
  destruct (find_space_spec (S (length p)) p pos) as (q & -> & Hq & Hsp); [lia|unfold zlen; lia|]. res_simpl.
  destruct (Z.geb_spec q (zlen p)); [done|].
  destruct (slice_within p pos (q - pos)) as (lf & Elf & _); [lia..|]. rewrite Elf. res_simpl.
  destruct (record_length lf 0) as [total|] eqn:Erl; [|done].
  pose proof (record_length_range lf 0 total ltac:(lia) Erl).
  destruct (Z.eqb_spec total 0); [done|]. destruct (Z.gtb_spec total (zlen p - pos)); [done|]. cbn [orb].
  unfold std_find. destruct (Z.gtb_spec (q + 1) (pos + total)) as [Hover|Hin].
  { split; [done|]. intros _. exists pos, q, total. split.
    - split; [lia|]. destruct (Z.eq_dec q pos) as [->|]; [|lia]. exfalso. unfold slice in Elf.
      rewrite !(proj2 (Z.leb_le _ _)), Z.sub_diag in Elf by lia. injection Elf as <-. by injection Erl as <-.
    - split; [lia|]. split; [apply Hsp; lia|]. split; [by rewrite Elf; res_simpl; rewrite Erl|lia]. }
  destruct (find_eq_spec (Z.to_nat (pos + total - (q + 1))) p (q + 1)) as (e & -> & He & Heq); [lia..|]. res_simpl.
  destruct (Z.geb_spec e (pos + total)); [done|].
  destruct (byte_at_ok p (pos + total - 1) ltac:(lia)) as (lst & El). rewrite El. res_simpl.
  destruct (Z.eqb_spec lst 10) as [E10|]; cbn [negb]; [|done].
  assert (e <> pos + total - 1) by (intros Ee; rewrite Ee in Heq; rewrite Heq in El by lia; congruence).
  destruct (slice_within p (q + 1) (e - (q + 1))) as (k & -> & _); [lia..|]. res_simpl.
  destruct (slice_within p (e + 1) (pos + total - e - 2)) as (v & -> & _); [lia..|]. res_simpl.
  apply IH; lia.
Qed.

Lemma parse_pax_records_spec p :
  parse_pax_records p <> Fuel /\ (parse_pax_records p = Fault -> short_record p).
Proof. apply pax_loop_spec; [zlen_lia|unfold zlen; lia]. Qed.

(** ** Numbers and fields *)

Lemma base256_range l v v' : bytes l -> 0 <= v < 2 ^ 64 -> base256_loop l v = Some v' -> 0 <= v' < 2 ^ 64.
Proof.
  intros Hl. revert v. induction Hl as [|b l Hb _ IH]; intros v Hv; cbn [base256_loop]; [by intros [= <-]|].
  destruct (_ >? _); [done|]. apply IH. apply lor_range; [lia|apply (wrap_range 64); lia|]. unfold is_byte in Hb. lia.
Qed.

Lemma octal_range l v any v' : 0 <= v < 2 ^ 64 -> octal_loop l v any = Some v' -> 0 <= v' < 2 ^ 64.
Proof.
  revert v any. induction l as [|c l IH]; intros v any Hv; cbn [octal_loop].
  - destruct any; [by intros [= <-]|done].
  - destruct (_ || _); [destruct any; [by intros [= <-]|by apply IH]|].
    destruct (_ || _); [done|]. destruct (_ >? _); [done|]. apply IH. apply (wrap_range 64). lia.
Qed.

Lemma parse_tar_num_range p v : bytes p -> parse_tar_num p = Some v -> 0 <= v < 2 ^ 64.
Proof.
  intros Hp. destruct Hp as [|p0 rest H0 Hr]; [done|]. cbn [parse_tar_num].
  destruct (negb _); [|by apply octal_range].
  apply base256_range; [done|]. pose proof (land_range 7 p0 0x7F ltac:(lia) ltac:(lia)). lia.
Qed.

Lemma sub_bytes l off n : bytes l -> bytes (sub l off n).
Proof. intros H. by apply Forall_take, Forall_drop. Qed.

Lemma cut_nul_forall (P : Z -> Prop) l : Forall P l -> Forall P (cut_nul l).
Proof.
  induction 1 as [|c l Hc _ IH]; [constructor|]. cbn [cut_nul]. destruct (c =? 0); [constructor|by constructor].
Qed.

Lemma hdr_raw_name_bytes hdr : bytes hdr -> bytes (hdr_raw_name hdr).
Proof.
  intros H. unfold hdr_raw_name. assert (Hn : bytes (cut_nul (fld hdr 0 100))) by (by apply cut_nul_forall, sub_bytes).
  assert (Hp : bytes (hdr_prefix hdr)) by (unfold hdr_prefix; destruct (_ && _); [by apply sub_bytes|constructor]).
  destruct (hdr_prefix hdr) as [|c l] eqn:E; [done|]. rewrite <- E in *.
  apply Forall_app_2; [by apply cut_nul_forall|]. constructor; [done|done].
Qed.

Lemma or_else_bytes a b : bytes a -> bytes b -> bytes (or_else a b).
Proof. by destruct a. Qed.

Lemma round_up_spec size : 0 <= size < 2 ^ 63 -> size <= round_up size < size + 512.
Proof.
  intros H. unfold round_up, BLOCK. rewrite (wrap_small 64 (size + 512)) by lia.
  rewrite (wrap_small 64 (size + 512 - 1)) by lia. rewrite wrap_small by dlia. dlia.
Qed.

(** ** The overrides *)

Definition pax_bytes (recs : list pax_record) : Prop := Forall (fun kv => bytes kv.1 /\ bytes kv.2) recs.

Record pax_ok (room : Z) (st : PaxState) : Prop := {
  po_path : bytes (px_path st);
  po_link : bytes (px_link st);
  po_size : forall v, px_size st = Some v -> 0 <= v <= room
}.

Lemma pax_size_range s v : pax_size s = Some v -> 0 <= v.
Proof.
  unfold pax_size. destruct s as [|c s]; [done|].
  assert (G : forall l t, 0 <= t -> pax_size_loop l t = Some v -> 0 <= v).
  { induction l as [|x l IH]; intros t Ht; cbn [pax_size_loop]; [by intros [= <-]|].
    destruct (negb _); [done|]. destruct (_ >? _); [done|]. apply IH. apply (wrap_range 64). lia. }
  by apply G.
Qed.

Lemma pax_step_ok room st kv st' :
  pax_ok room st -> bytes kv.2 -> pax_step room st kv = Some st' -> pax_ok room st'.
Proof.
  destruct kv as [k v]. intros [H1 H2 H3] Hv. unfold pax_step. cbn [snd] in Hv.
  repeat match goal with
  | |- context [if str_eqb k ?x then _ else _] => destruct (str_eqb k x)
  end.
  all: try (intros [= <-]; by split).
  - destruct (pax_size v) as [n|] eqn:En; [|intros [= <-]; by split].
    destruct (Z.gtb_spec n room); [done|]. intros [= <-]. split; [done..|]. intros w [= <-].
    pose proof (pax_size_range v n En). lia.
  - destruct (parse_pax_time v) as [[? ?] ?]. intros [= <-]; by split.
  - destruct (parse_pax_time v) as [[? ?] ?]. intros [= <-]; by split.
  - destruct (parse_pax_time v) as [[? ?] ?]. intros [= <-]; by split.
  - destruct (starts_with _ k); intros [= <-]; by split.
Qed.

Lemma pax_apply_ok room recs st st' :
  pax_ok room st -> pax_bytes recs -> pax_apply room st recs = Some st' -> pax_ok room st'.
Proof.
  intros Hst Hr. revert st Hst. induction Hr as [|kv recs [_ Hv] _ IH]; intros st Hst; cbn [pax_apply]; [by intros [= <-]|].
  destruct (pax_step room st kv) as [st1|] eqn:E; [|done]. apply IH. by eapply pax_step_ok.
Qed.

(** ** Members *)

(** What [open] guarantees of a member: its payload lies in the file, its name
    is safe, its times are clamped. *)
Record member_ok (fsize : Z) (m : Member) : Prop := {
  mo_extent : BLOCK <= m_data_offset m /\ 0 <= m_size m /\ m_data_offset m + m_size m <= fsize;
  mo_declared : fe_unpacked_size (m_meta m) = m_size m;
  mo_name : exists parts, fe_name (m_meta m) = join parts /\ Forall safe_component parts;
  mo_mtime : mb_min MtimeBounds_default <= fe_mtime_sec (m_meta m) <= mb_max MtimeBounds_default;
  mo_link : fe_type (m_meta m) <> FT_Symlink ->
    exists parts, fe_link_target (m_meta m) = join parts /\ Forall safe_component parts
}.

Definition pending_ok (p : Pending) : Prop :=
  bytes (pending_long_name p) /\ bytes (pending_long_link p) /\ pax_bytes (pending_pax p).

Lemma clamped_range t :
  let c := mtime_out_of_bounds t MtimeBounds_default in
  mb_min MtimeBounds_default <= (if c then clamp_mtime t MtimeBounds_default else t) <= mb_max MtimeBounds_default.
Proof.
  cbv zeta. unfold mtime_out_of_bounds, clamp_mtime. rewrite !Z.gtb_ltb.
  change (mb_min MtimeBounds_default) with 0. change (mb_max MtimeBounds_default) with 32503680000.
  destruct (Z.ltb_spec t 0), (Z.ltb_spec 32503680000 t); cbn [orb]; lia.
Qed.

Lemma build_member_spec hdr size data_offset fsize pend :
  bytes hdr -> pending_ok pend -> 0 <= size -> BLOCK <= data_offset -> data_offset + size <= fsize ->
  exists r, build_member hdr size data_offset fsize pend = Ok r /\
    forall m, r = Some m -> member_ok fsize m /\ m_data_offset m = data_offset.
Proof.
  intros Hh (Hpn & Hpl & Hpp) Hs Hd Hext. unfold build_member.
  destruct (pax_apply _ _ _) as [px|] eqn:Epx; [|by exists None].
  assert (Hpx : pax_ok (fsize - data_offset) px).
  { eapply pax_apply_ok; [|exact Hpp|exact Epx]. by split; [apply Forall_nil_2..|]. }
  destruct Hpx as [Hpath Hlink Hsz].
  set (effective := or_else _ _). set (link := or_else (px_link px) _).
  assert (He : bytes effective) by (apply or_else_bytes; [done|apply or_else_bytes; [done|by apply hdr_raw_name_bytes]]).
  assert (Hl : bytes link) by (apply or_else_bytes; [done|apply or_else_bytes; [done|by apply cut_nul_forall, sub_bytes]]).
  set (enc := if binary_names _ then _ else _).
  destruct (translate_foreign_name_spec effective enc He) as (parts & esc & -> & Hparts & _). res_simpl. cbv beta iota.
  set (lnk := if hdr_typeflag hdr =? 50 then _ else _).
  assert (Hlnk : exists l e, lnk = Ok (l, e) /\
    (hdr_typeflag hdr <> 50 -> exists parts, l = join parts /\ Forall safe_component parts)).
  { subst lnk. destruct (Z.eqb_spec (hdr_typeflag hdr) 50); [by eexists _, _|].
    destruct (translate_foreign_name_spec link enc Hl) as (lp & le & -> & Hlp & _).
    exists (join lp), le. split; [done|]. intros _. by exists lp. }
  destruct Hlnk as (l & e & -> & Hl2). res_simpl. cbv beta iota.
  destruct (posix_mode_of _ _) as [hm md]. eexists. split; [done|]. intros m [= <-]. split; [|done].
  split; cbn [m_meta m_data_offset m_size fe_unpacked_size fe_name fe_mtime_sec fe_type fe_link_target].
  - destruct (px_size px) as [v|] eqn:Ev; [|done]. specialize (Hsz v eq_refl). lia.
  - done.
  - by exists parts.
  - apply clamped_range.
  - intros Ht. apply Hl2. intros E. apply Ht. by rewrite E.
Qed.

(** ** The walk over the headers *)

Lemma slice_inv_bytes p i n l : bytes p -> slice p i n = Ok l -> bytes l.
Proof.
  unfold slice. destruct (_ && _); [|done]. intros H [= <-]. by apply Forall_take, Forall_drop.
Qed.

(** [Ok] of a bind is [Ok] of both parts. *)
Lemma bind_ok_inv {A B} (m : res A) (f : A -> res B) b : (m ≫= f) = Ok b -> exists a, m = Ok a /\ f a = Ok b.
Proof. destruct m as [a| | |]; [|done..]. intros H. by exists a. Qed.

Lemma pax_loop_bytes fuel p pos out recs :
  bytes p -> pax_bytes out -> pax_loop fuel p pos out = Ok recs -> pax_bytes recs.
Proof.
  intros Hp. revert pos out. induction fuel as [|fuel IH]; intros pos out Ho; [done|]. cbn [pax_loop]. cbv zeta.
  destruct (pos <? zlen p); [|by intros [= <-]]. intros (c & _ & H)%bind_ok_inv.
  destruct (negb (digit c)); [by injection H as <-|]. apply bind_ok_inv in H as (q & _ & H).
  destruct (q >=? zlen p); [done|]. apply bind_ok_inv in H as (lf & _ & H). destruct (record_length lf 0); [|done].
  destruct (_ || _); [done|]. apply bind_ok_inv in H as (e & _ & H). destruct (_ >=? _); [done|].
  apply bind_ok_inv in H as (lst & _ & H). destruct (negb _); [done|].
  apply bind_ok_inv in H as (k & Hk & H). apply bind_ok_inv in H as (v & Hv & H). revert H. apply IH.
  apply Forall_app_2; [done|]. constructor; [|constructor]. split; cbn; by eapply slice_inv_bytes.
Qed.

(** Members in the order of the headers: each payload ends before the next
    member's header block begins, the last before the current offset. *)
Definition before (a b : Member) : Prop := m_data_offset a + m_size a + BLOCK <= m_data_offset b.

Definition laid_out (entries : list Member) (offset : Z) : Prop :=
  StronglySorted before entries /\ Forall (fun m => m_data_offset m + m_size m <= offset) entries.

Lemma laid_out_mono entries a b : laid_out entries a -> a <= b -> laid_out entries b.
Proof.
  intros [H1 H2] Hab. split; [done|]. eapply List.Forall_impl; [|exact H2]. intros m Hm. cbn in *. lia.
Qed.

Lemma laid_out_snoc entries m offset offset' :
  laid_out entries offset -> m_data_offset m = offset + BLOCK -> m_data_offset m + m_size m <= offset' ->
  offset <= offset' -> laid_out (entries ++ [m]) offset'.
Proof.
  intros [H1 H2] Hm He Ho. split.
  - apply StronglySorted_app_2; [..|done|by repeat constructor].
    intros x y Hx Hy. apply list_elem_of_singleton in Hy as ->. rewrite List.Forall_forall in H2.
    apply list_elem_of_In in Hx. specialize (H2 x Hx). unfold before. cbn in H2. lia.
  - apply Forall_app_2; [|by constructor]. eapply List.Forall_impl; [|exact H2]. intros x Hx. cbn in *. lia.
Qed.

Section walk.
Context {S : Type} `{ReadSourceLaws S} (cancelled : nat -> bool) (limits : ExtractionLimits) (content : list Z).
Hypothesis content_bytes : bytes content.

Record tar_inv (st : TarState S) : Prop := {
  ti_wf : src_wf (ts_file st);
  ti_contents : src_contents (ts_file st) = content;
  ti_offset : 0 <= ts_offset st < zlen content + BLOCK;
  ti_pending : pending_ok (ts_pending st);
  ti_members : Forall (member_ok (zlen content)) (ts_entries st);
  ti_layout : laid_out (ts_entries st) (ts_offset st)
}.

Definition count_ok (entries : list Member) : Prop :=
  hdr_count_limited limits = true -> entries = [] \/ zlen entries < max_header_count limits.

(** A pass that did not fault: the invariant holds of the state it leaves, it
    has moved past at least one block if it goes on, and the member cap is not
    reached unless it says so. *)
Definition step_ok (st : TarState S) (r : tar_result) (st' : TarState S) : Prop :=
  tar_inv st' /\ (r = Continue -> ts_offset st + BLOCK <= ts_offset st') /\
  (r = Continue \/ r = Finished FS_Ok -> count_ok (ts_entries st')).

(** The fault: a pax record too short for its own prefix, at a payload. *)
Definition short_pax : Prop :=
  exists off n, 0 <= off /\ 0 <= n /\ off + n <= zlen content /\ short_record (take (Z.to_nat n) (view content off)).

Definition step_spec (st : TarState S) (r : res (tar_result * TarState S)) : Prop :=
  match r with
  | Ok (r, st') => step_ok st r st'
  | Fault => short_pax
  | _ => False
  end.

Lemma content_small file : src_wf file -> src_contents file = content -> zlen content < 2 ^ 63.
Proof. intros Hw <-. by apply src_tell_range. Qed.

Lemma finish_spec st file status :
  tar_inv st -> src_wf file -> src_contents file = content -> status <> FS_Ok -> step_spec st (finish st file status).
Proof.
  intros [] Hw Hc Hs. split; [by split|]. split; [done|]. intros [[=]|[=]]; done.
Qed.

Lemma next_spec st file pend offset zero :
  tar_inv st -> src_wf file -> src_contents file = content -> pending_ok pend -> count_ok (ts_entries st) ->
  ts_offset st + BLOCK <= offset < zlen content + BLOCK -> forall r,
  step_ok st r (ts_next st file pend offset zero (ts_entries st)).
Proof.
  intros [] Hw Hc Hp Hn Ho r. split; [|split; cbn; [lia|done]]. split; cbn; try done.
  - unfold BLOCK in *. lia.
  - eapply laid_out_mono; [done|]. unfold BLOCK in *. lia.
Qed.

Lemma payload_end size data_offset :
  0 <= size -> BLOCK <= data_offset -> data_offset + size <= zlen content -> zlen content < 2 ^ 63 ->
  data_offset + size <= u64 (data_offset + round_up size) < zlen content + BLOCK.
Proof.
  intros Hs Hd He Hsm. unfold BLOCK in *. pose proof (round_up_spec size ltac:(lia)). rewrite wrap_small by lia. lia.
Qed.

Lemma next_payload_spec st file pend size zero r :
  tar_inv st -> count_ok (ts_entries st) -> src_wf file -> src_contents file = content -> pending_ok pend ->
  0 <= size -> ts_offset st + BLOCK + size <= zlen content ->
  step_ok st r (ts_next st file pend (u64 (ts_offset st + BLOCK + round_up size)) zero (ts_entries st)).
Proof.
  intros Hi Hn Hw Hc Hp Hs He. pose proof (content_small file Hw Hc). pose proof (ti_offset st Hi).
  pose proof (payload_end size (ts_offset st + BLOCK) Hs ltac:(lia) He ltac:(done)) as Hend. apply next_spec; try done. lia.
Qed.

Lemma meta_header_spec st file typeflag size :
  tar_inv st -> count_ok (ts_entries st) -> src_wf file -> src_contents file = content ->
  0 <= size -> ts_offset st + BLOCK + size <= zlen content ->
  step_spec st (meta_header st file typeflag size (ts_offset st + BLOCK)).
Proof.
  intros Hi Hn Hw Hc Hs He. pose proof (content_small file Hw Hc) as Hsm. pose proof (ti_offset st Hi) as Ho.
  unfold meta_header. destruct (read_exact_spec file (ts_offset st + BLOCK) size Hw) as (f' & -> & Hw' & Hc');
    [unfold BLOCK in *; lia|done|].
  rewrite Hc in Hc'. rewrite Hc, (proj2 (Z.leb_le _ _)) by lia.
  set (buf := take _ _). assert (Hbuf : bytes buf) by (by apply Forall_take, Forall_drop).
  destruct (ti_pending st Hi) as (Hp1 & Hp2 & Hp3).
  destruct (typeflag =? 76); [apply next_payload_spec; try done; split; [by apply cut_nul_forall|done]|].
  destruct (typeflag =? 75); [apply next_payload_spec; try done; split; [done|split; [by apply cut_nul_forall|done]]|].
  destruct (parse_pax_records_spec buf) as [Hfuel Hfault].
  destruct (parse_pax_records buf) as [recs| | |] eqn:Er; [|by apply finish_spec| |done].
  - apply next_payload_spec; try done. split; [done|]. split; [done|]. cbn. destruct (typeflag =? 120); [|done].
    eapply pax_loop_bytes; [exact Hbuf| |exact Er]. constructor.
  - exists (ts_offset st + BLOCK), size. unfold BLOCK in *. split; [lia|]. split; [done|]. split; [lia|]. by apply Hfault.
Qed.

Lemma member_spec st file hdr size :
  tar_inv st -> src_wf file -> src_contents file = content -> bytes hdr ->
  0 <= size -> ts_offset st + BLOCK + size <= zlen content ->
  step_spec st
    (m ← build_member hdr size (ts_offset st + BLOCK) (zlen content) (ts_pending st);
     match m with
     | None => finish st file Truncated
     | Some m =>
         let entries := ts_entries st ++ [m] in
         let next := u64 (ts_offset st + BLOCK + round_up (m_size m)) in
         Ok (if hdr_count_limited limits && (zlen entries >=? max_header_count limits)
             then Finished LimitExceeded else Continue,
             ts_next st file no_pending next 0 entries)
     end).
Proof.
  intros Hi Hw Hc Hh Hs He. pose proof (content_small file Hw Hc) as Hsm. pose proof (ti_offset st Hi) as Ho.
  destruct (build_member_spec hdr size (ts_offset st + BLOCK) (zlen content) (ts_pending st))
    as (r & -> & Hr); [done|by apply ti_pending|done|lia|done|].
  res_simpl. destruct r as [m|]; [|by apply finish_spec]. destruct (Hr m eq_refl) as [Hm Hd]. cbv zeta.
  destruct (mo_extent _ m Hm) as (_ & Hm0 & Hext). rewrite Hd in Hext.
  pose proof (payload_end (m_size m) (ts_offset st + BLOCK) Hm0 ltac:(lia) Hext Hsm) as Hend. set (next := u64 _) in *.
  assert (Hnext : ts_offset st + BLOCK + m_size m <= next < zlen content + BLOCK) by lia.
  split; [split; cbn|split; cbn].
  - done.
  - done.
  - unfold BLOCK in *. lia.
  - split; [constructor|]. split; constructor.
  - apply Forall_app_2; [by apply ti_members|by constructor].
  - eapply laid_out_snoc; [by apply ti_layout|done|lia|unfold BLOCK in *; lia].
  - lia.
  - intros Hc' Hl. right. rewrite Hl in Hc'. cbn [andb] in Hc'.
    destruct (Z.geb_spec (zlen (ts_entries st ++ [m])) (max_header_count limits)); [|done].
    by destruct Hc' as [|].
Qed.

Lemma tar_step_spec st :
  tar_inv st -> count_ok (ts_entries st) -> ts_offset st + BLOCK <= zlen content ->
  step_spec st (tar_step cancelled limits st).
Proof.
  intros Hi Hn He. pose proof (ti_wf st Hi) as Hw. pose proof (ti_contents st Hi) as Hc.
  pose proof (content_small _ Hw Hc) as Hsm. pose proof (ti_offset st Hi) as Ho.
  unfold tar_step. destruct (cancelled _); [by apply finish_spec|].
  destruct (read_exact_spec (ts_file st) (ts_offset st) BLOCK Hw) as (f' & -> & Hw' & Hc');
    [unfold BLOCK in *; lia|done|].
  unfold src_size. rewrite Hc in Hc'. rewrite Hc, (proj2 (Z.leb_le _ _)) by lia.
  set (hdr := take _ _). assert (Hh : bytes hdr) by (by apply Forall_take, Forall_drop).
  destruct (all_zero_block hdr).
  { apply next_spec; try done; [by apply ti_pending|lia]. }
  destruct (parse_tar_num (fld hdr 148 8)); [|by apply finish_spec].
  destruct (negb _); [by apply finish_spec|].
  destruct (parse_tar_num (fld hdr 124 12)) as [size|] eqn:Es; [|by apply finish_spec].
  pose proof (parse_tar_num_range _ _ (sub_bytes hdr 124 12 Hh) Es) as Hs. cbv zeta.
  rewrite (wrap_small 64 (zlen content - _)) by lia.
  destruct (Z.gtb_spec size (zlen content - (ts_offset st + BLOCK))); [by apply finish_spec|].
  destruct (_ || _); [apply meta_header_spec; try done; lia|apply member_spec; try done; lia].
Qed.

Lemma tar_loop_spec fuel st :
  tar_inv st -> count_ok (ts_entries st) -> zlen content - ts_offset st < BLOCK * Z.of_nat fuel -> (1 <= fuel)%nat ->
  match tar_loop cancelled limits fuel st with
  | Ok (status, st') => tar_inv st' /\ (status = FS_Ok -> count_ok (ts_entries st'))
  | Fault => short_pax
  | _ => False
  end.
Proof.
  revert st. induction fuel as [|fuel IH]; intros st Hi Hn Hf H1; [lia|]. cbn [tar_loop].
  pose proof (content_small _ (ti_wf st Hi) (ti_contents st Hi)) as Hsm. pose proof (ti_offset st Hi) as Ho.
  unfold src_size. rewrite (ti_contents st Hi). unfold BLOCK in Ho, Hf. unfold BLOCK at 1. rewrite wrap_small by lia.
  destruct (Z.leb_spec (ts_offset st + 512) (zlen content)) as [Hle|]; [|by split].
  pose proof (tar_step_spec st Hi Hn Hle) as Hs. destruct (tar_step cancelled limits st) as [[r st']| | |]; [|done..].
  res_simpl. destruct Hs as (Hi' & Hgo & Hn'). destruct r as [status|].
  - split; [done|]. intros ->. apply Hn'. by right.
  - specialize (Hgo eq_refl). unfold BLOCK in Hgo. apply IH; [done|apply Hn'; by left|unfold BLOCK; lia|lia].
Qed.

Lemma tar_open_spec file :
  src_wf file -> src_contents file = content ->
  match tar_open cancelled limits file with
  | Ok (status, st) => tar_inv st /\ (status = FS_Ok -> count_ok (ts_entries st))
  | Fault => short_pax
  | _ => False
  end.
Proof.
  intros Hw Hc. pose proof (content_small file Hw Hc) as Hsm. unfold tar_open.
  pose proof (src_seek_state file 0 End_ Hw ltac:(lia)) as Hs. cbv zeta in Hs.
  destruct (src_seek file 0 End_) as [ok f]. destruct Hs as (Hw' & Hc' & _ & _). rewrite Hc in Hc'.
  assert (Hi : tar_inv {| ts_file := f; ts_pending := no_pending; ts_offset := 0; ts_zero_streak := 0;
    ts_entries := []; ts_polls := 0 |}).
  { pose proof (zlen_nonneg content). split; cbn; [done|done|unfold BLOCK; lia|repeat constructor..]. }
  destruct ok; cbn [negb]; [|by split]. unfold src_size. rewrite Hc'.
  apply tar_loop_spec; [done|by left| |lia]. cbn [ts_offset]. unfold BLOCK. pose proof (zlen_nonneg content). dlia.
Qed.
End walk.

(** ** Streaming one member *)

Section stream.
Context {S : Type} `{ReadSourceLaws S} (cancelled : nat -> bool) (sink : list (list Z) -> list Z -> bool)
  (limits : ExtractionLimits).

(** What streaming [left] bytes from [p] hands out: whole chunks that make up
    a prefix of the data, all of it on success, within both caps. *)
Record streamed (content : list Z) (p left member_out : Z) (state : LimitState)
    (status : ForeignStatus) (chunks : list (list Z)) (state' : LimitState) : Prop := {
  sd_chunks : Forall (fun c => 1 <= zlen c <= 65536) chunks;
  sd_prefix : exists rest, concat chunks ++ rest = take (Z.to_nat left) (view content p) /\
    (status = FS_Ok <-> rest = []);
  sd_status : status = FS_Ok \/ status = Aborted \/ status = LimitExceeded;
  sd_member : member_limited limits = true -> chunks <> [] ->
    member_out + zlen (concat chunks) <= max_member_output_bytes limits;
  sd_total : total_limited limits = true -> chunks <> [] ->
    total_out state + zlen (concat chunks) <= max_total_output_bytes limits;
  sd_state : status = FS_Ok -> total_out state' = total_out state + zlen (concat chunks);
  sd_free : (forall n, cancelled n = false) -> (forall o c, sink o c = true) ->
    member_limited limits = false -> total_limited limits = false ->
    total_out state + left <= UNLIMITED -> status = FS_Ok
}.

Lemma debit_spec n state :
  0 <= n -> 0 <= total_out state -> total_out state <= UNLIMITED ->
  exists b state', debit_total_bytes n limits state = (b, state') /\
    (b = true -> total_out state' = total_out state + n /\ total_out state + n <= UNLIMITED /\
      (total_limited limits = true -> total_out state + n <= max_total_output_bytes limits)) /\
    (total_limited limits = false -> total_out state + n <= UNLIMITED -> b = true).
Proof.
  intros Hn Hlo Hhi. unfold debit_total_bytes, UNLIMITED in *.
  destruct (Z.gtb_spec n (2 ^ 64 - 1 - total_out state)); [eexists _, _; split; [done|]; split; [done|lia]|].
  cbv zeta. cbn [total_out]. rewrite wrap_small by lia. destruct (total_limited limits); cbn [andb].
  - destruct (Z.gtb_spec (total_out state + n) (max_total_output_bytes limits)).
    + eexists _, _. split; [done|]. split; [done|done].
    + eexists _, _. split; [done|]. split; [|done]. intros _. cbn. split; [lia|]. split; lia.
  - eexists _, _. split; [done|]. split; [|done]. intros _. cbn. split; [lia|]. split; [lia|done].
Qed.

(** Nothing handed out. *)
Lemma streamed_nil content p left member_out state status state' :
  0 < left -> 0 <= p -> p + left <= zlen content -> status = Aborted \/ status = LimitExceeded ->
  ((forall n, cancelled n = false) -> (forall o c, sink o c = true) ->
    member_limited limits = false -> total_limited limits = false -> total_out state + left <= UNLIMITED -> False) ->
  streamed content p left member_out state status [] state'.
Proof.
  intros Hl Hp He Hs Hf. split; try done.
  - exists (take (Z.to_nat left) (view content p)). split; [done|]. split; [by destruct Hs as [-> | ->]|].
    intros E. apply (f_equal zlen) in E. rewrite zlen_take_view in E by lia. change (zlen (@nil Z)) with 0 in E. lia.
  - by right.
  - by destruct Hs as [-> | ->].
  - intros H1 H2 H3 H4 H5. by destruct Hf.
Qed.

Lemma take_view_split m p a b :
  0 <= p -> 0 <= a -> 0 <= b -> p + a <= zlen m ->
  take (Z.to_nat (a + b)) (view m p) = take (Z.to_nat a) (view m p) ++ take (Z.to_nat b) (view m (p + a)).
Proof.
  intros Hp Ha Hb Hl. unfold view. rewrite !Z2Nat.inj_add by lia. rewrite <- drop_drop.
  by rewrite take_take_drop.
Qed.

Lemma decode_loop_spec content fuel file left member_out state out polls :
  src_wf file -> src_contents file = content -> 0 <= left -> src_tell file + left <= zlen content ->
  0 <= member_out -> member_out + left < 2 ^ 63 -> 0 <= total_out state <= UNLIMITED ->
  left + 65536 <= 65536 * Z.of_nat fuel ->
  exists status chunks state' file',
    decode_loop cancelled sink limits fuel file left member_out state out polls =
      Ok (status, out ++ chunks, state', file') /\
    src_wf file' /\ src_contents file' = content /\
    streamed content (src_tell file) left member_out state status chunks state'.
Proof.
  revert file left member_out state out polls.
  induction fuel as [|fuel IH]; intros file left member_out state out polls Hw Hc Hl He Hm Hml Ht Hf; [lia|].
  pose proof (src_tell_range file Hw) as [Htr Hsm]. rewrite Hc in Htr, Hsm. cbn [decode_loop].
  destruct (Z.gtb_spec left 0) as [Hpos|].
  2:{ assert (left = 0) as -> by lia. exists FS_Ok, [], state, file. rewrite app_nil_r. split; [done|]. split; [done|].
      split; [done|]. split; try done; [by exists []|by left|]. intros _. change (zlen (concat (@nil (list Z)))) with 0. lia. }
  destruct (cancelled polls) eqn:Ecan.
  { exists Aborted, [], state, file. rewrite app_nil_r. split; [done|]. split; [done|]. split; [done|].
    apply streamed_nil; [lia..|by left|]. intros Hno. by rewrite Hno in Ecan. }
  cbv zeta. set (n := Z.min left 65536). assert (Hn : 0 < n <= left /\ n <= 65536 /\ (n = left \/ n = 65536)) by lia.
  pose proof (src_read_bytes file n Hw ltac:(lia)) as Eb. pose proof (src_read_state file n Hw ltac:(lia)) as (W2 & C2 & T2).
  destruct (src_read file n) as [l f2]. cbn [fst snd] in *. rewrite Hc in Eb, C2.
  assert (Hln : zlen l = n) by (subst l; rewrite zlen_take_view; lia).
  rewrite Hln, Z.eqb_refl. cbn [negb]. rewrite (wrap_small 64 (member_out + n)) by lia.
  destruct (member_limited limits && (member_out + n >? max_member_output_bytes limits)) eqn:Eml.
  { exists LimitExceeded, [], state, f2. rewrite app_nil_r. split; [done|]. split; [done|]. split; [done|].
    apply streamed_nil; [lia..|by right|]. intros _ _ Hno. by rewrite Hno in Eml. }
  destruct (debit_spec n state) as (b & st1 & -> & Hb1 & Hb2); [lia..|]. cbv beta iota.
  destruct b; cbn [negb].
  2:{ exists LimitExceeded, [], st1, f2. rewrite app_nil_r. split; [done|]. split; [done|]. split; [done|].
      apply streamed_nil; [lia..|by right|]. intros _ _ _ Hno Hu. enough (false = true) by done. apply Hb2; [done|lia]. }
  destruct (Hb1 eq_refl) as (Htot & Hov & Hlim). clear Hb1 Hb2.
  destruct (sink out l) eqn:Esink; cbn [negb].
  2:{ exists Aborted, [], st1, f2. rewrite app_nil_r. split; [done|]. split; [done|]. split; [done|].
      apply streamed_nil; [lia..|by left|]. intros _ Hno. by rewrite Hno in Esink. }
  destruct (IH f2 (left - n) (member_out + n) st1 (out ++ [l]) (Datatypes.S polls)) as (status & chunks & st2 & f3 & -> & W3 & C3 & [K1 K2 K3 K4 K5 K6 K7]);
    [done|done|lia..|].
  exists status, (l :: chunks), st2, f3. rewrite <- app_assoc. split; [done|]. split; [done|]. split; [done|].
  assert (HZ : zlen (concat (l :: chunks)) = n + zlen (concat chunks)) by (cbn [concat]; rewrite zlen_app; lia).
  assert (Hbound : forall (P : Prop) x M, (P -> chunks <> [] -> x + n + zlen (concat chunks) <= M) ->
    (P -> x + n <= M) -> P -> x + zlen (concat (l :: chunks)) <= M).
  { intros P x M H1 H2 HP. rewrite HZ. destruct chunks as [|c chunks]; [specialize (H2 HP); change (zlen (concat (@nil (list Z)))) with 0; lia|].
    specialize (H1 HP ltac:(done)). lia. }
  split.
  - constructor; [lia|done].
  - destruct K2 as (rest & Er & Hr). exists rest. split; [|done]. cbn [concat]. rewrite <- app_assoc, Er, T2, Hln.
    replace left with (n + (left - n)) at 2 by lia. rewrite take_view_split by lia. by rewrite Eb.
  - done.
  - intros HP _. revert HP. apply Hbound; [done|]. intros HP. rewrite HP in Eml. cbn [andb] in Eml.
    rewrite Z.gtb_ltb in Eml. apply Z.ltb_ge in Eml. lia.
  - intros HP _. revert HP. apply Hbound; [|done]. rewrite <- Htot. apply K5.
  - intros HP. rewrite HZ. rewrite (K6 HP). lia.
  - intros H1 H2 H3 H4 H5. apply K7; [done..|lia].
Qed.
End stream.

(** ** The identity test of detection and of [open] *)

(** On eight octal characters neither loop wraps, so they agree. *)
Lemma probe_octal_eq l v any :
  0 <= v -> v * 8 ^ zlen l + 8 ^ zlen l <= 2 ^ 32 ->
  match probe_octal l v any with
  | Some (s, true) => octal_loop l v any = Some s
  | _ => octal_loop l v any = None
  end.
Proof.
  revert v any. induction l as [|c l IH]; intros v any Hv Hb; cbn [probe_octal octal_loop]; [by destruct any|].
  rewrite zlen_cons, Z.pow_add_r in Hb by (zlen_lia). change (8 ^ 1) with 8 in Hb.
  assert (Hp : 1 <= 8 ^ zlen l) by (pose proof (Z.pow_pos_nonneg 8 (zlen l) ltac:(lia) (zlen_nonneg l)); lia).
  unfold c_space. destruct (_ || (c =? 0)).
  - destruct any; [done|]. apply IH; [done|]. nia.
  - destruct (Z.ltb_spec c 48); [done|]. destruct (Z.gtb_spec c 55); [done|]. cbn [orb].
    assert (Hv8 : v * 8 + 8 <= 2 ^ 32) by nia.
    rewrite Z.gtb_ltb, (proj2 (Z.ltb_ge _ _)) by (change (Z.shiftl 1 61) with (2 ^ 61); lia).
    rewrite (wrap_small 32 (v * 8)), (wrap_small 64 (v * 8)), !wrap_small by lia. apply IH; [lia|]. nia.
Qed.

Lemma zlen_sub l off n : Z.of_nat off + Z.of_nat n <= zlen l -> zlen (sub l off n) = Z.of_nat n.
Proof. unfold sub, zlen. intros Hl. rewrite length_take, length_drop. lia. Qed.

(** ** Properties *)

(** C22. Opening a TAR archive walks it safely and in order, for every byte
    content and every source that keeps its laws: the loop ends within one
    pass per block; the source is left intact; every listed member lies
    inside the file, has a traversal-free name and (unless it is a symlink)
    link target, and a clamped time; the payloads follow one another, each
    ending before the header of the next; and [Ok] means the header cap was
    not reached.  The one way out of the defined behaviour is a pax record
    shorter than its own length prefix. *)
Theorem tar_open_invariant {S : Type} `{ReadSourceLaws S} (cancelled : nat -> bool) (limits : ExtractionLimits)
    (file : S) :
  src_wf file -> bytes (src_contents file) ->
  match tar_open cancelled limits file with
  | Ok (status, st) =>
      tar_inv (src_contents file) st /\ (status = FS_Ok -> count_ok limits (ts_entries st))
  | Fault => short_pax (src_contents file)
  | Fail => False
  | Fuel => False
  end.
Proof. intros Hw Hb. exact (tar_open_spec cancelled limits (src_contents file) Hb file Hw eq_refl). Qed.

(** A one-member archive: [a.txt], five bytes, no terminator. *)
Definition sample_tar : list Z :=
  str "a.txt" ++ replicate 95 0 ++ str "0000644" ++ [0] ++ str "0000000" ++ [0] ++ str "0000000" ++ [0] ++
  str "00000000005" ++ [0] ++ str "00000000000" ++ [0] ++ str "005502" ++ [0; 32] ++ [48] ++ replicate 355 0 ++
  str "hello" ++ replicate 507 0.

(** What the examples look at. *)
Definition summary (r : res (ForeignStatus * TarState BufferStream)) :=
  match r with
  | Ok (s, st) => Some (s, map (fun m => (fe_name (m_meta m), fe_type (m_meta m), fe_method_name (m_meta m),
                                          m_data_offset m, m_size m)) (ts_entries st))
  | _ => None
  end.

Lemma sample_summary :
  summary (tar_open (fun _ => false) ExtractionLimits_default (bs_set sample_tar)) =
    Some (FS_Ok, [(str "a.txt", FT_File, [], 512, 5)]).
Proof. vm_compute. reflexivity. Qed.

Lemma sample_wf : src_wf (bs_set sample_tar) /\ bytes (src_contents (bs_set sample_tar)).
Proof. split; [split; [split|]; vm_compute; congruence|bytes_const]. Qed.

Lemma tar_open_invariant_witness :
  exists st, tar_open (fun _ => false) ExtractionLimits_default (bs_set sample_tar) = Ok (FS_Ok, st) /\
    zlen (ts_entries st) = 1 /\ tar_inv sample_tar st.
Proof.
  pose proof (tar_open_invariant (fun _ => false) ExtractionLimits_default (bs_set sample_tar)
    (proj1 sample_wf) (proj2 sample_wf)) as P.
  pose proof sample_summary as E. destruct (tar_open _ _ _) as [[s st]| | |]; [|discriminate E..].
  cbn [summary] in E. exists st. destruct P as [Hi _]. assert (s = FS_Ok) as -> by congruence.
  split; [reflexivity|]. split; [|exact Hi]. destruct (ts_entries st) as [|m [|]]; [discriminate E|reflexivity|discriminate E].
Defined.

(** C36. Streaming a member that [open] listed: whatever the cancellation and
    the sink do, the chunks handed out (1 byte to 64 KiB each) are a prefix of
    the member's bytes in the file, and all of them exactly when the status is
    [Ok]; the total stays within the member cap and, with what was already
    counted, within the total cap, before each chunk reaches the sink; and
    with no cap, no cancellation and a willing sink the member is delivered
    whole.  A listed member is never truncated.  This is for regular files that
    are not sparse; any other member delivers nothing and leaves the budget and
    the file alone, with the status of its kind. *)
Theorem tar_decode_bounds {S : Type} `{ReadSourceLaws S} (cancelled poll : nat -> bool)
    (sink : list (list Z) -> list Z -> bool) (limits limits' : ExtractionLimits)
    (file : S) (status0 : ForeignStatus) (st : TarState S) (index : nat) (m : Member) (state : LimitState) :
  src_wf file -> bytes (src_contents file) -> tar_open cancelled limits file = Ok (status0, st) ->
  ts_entries st !! index = Some m -> 0 <= total_out state <= UNLIMITED ->
  let kind := fe_type (m_meta m) in
  let sparse := str_eqb (fe_method_name (m_meta m)) (str "sparse") in
  exists status chunks state' file',
    tar_decode poll sink limits' (ts_entries st) index (ts_file st) state = Ok (status, chunks, state', file') /\
    (kind = FT_File -> sparse = false ->
       streamed poll sink limits' (src_contents file) (m_data_offset m) (m_size m) 0 state status chunks state') /\
    (kind <> FT_File \/ sparse = true -> chunks = [] /\ state' = state /\ file' = ts_file st) /\
    (kind = FT_Other -> status = UnsupportedMethod) /\
    (kind <> FT_Other -> sparse = true -> status = SparseRefused) /\
    (kind <> FT_Other -> kind <> FT_File -> sparse = false -> status = FS_Ok).
Proof.
  intros Hw Hb Ho Hm Hst. cbv zeta. pose proof (tar_open_spec cancelled limits (src_contents file) Hb file Hw eq_refl) as P.
  rewrite Ho in P. destruct P as [Hi _]. pose proof (content_small _ Hb _ (ti_wf _ _ Hi) (ti_contents _ _ Hi)) as Hsm.
  destruct (Forall_lookup_1 _ _ _ _ (ti_members _ _ Hi) Hm) as [Hext _ _ _ _]. unfold BLOCK in Hext.
  unfold tar_decode. rewrite Hm. destruct (fe_type (m_meta m)) eqn:Ht; destruct (str_eqb _ _) eqn:Esp;
    try (do 4 eexists; split; [reflexivity|]; split_and!; intuition congruence).
  pose proof (src_seek_state (ts_file st) (m_data_offset m) Begin (ti_wf _ _ Hi) ltac:(lia)) as Hs. cbv zeta in Hs.
  destruct (src_seek (ts_file st) _ Begin) as [ok f1]. destruct Hs as (W1 & C1 & Hok & T1).
  rewrite (ti_contents _ _ Hi) in *. assert (ok = true) as -> by (apply Hok; lia). cbn [negb].
  destruct (decode_loop_spec poll sink limits' (src_contents file) (Datatypes.S (Z.to_nat (m_size m / 65536 + 1))) f1
    (m_size m) 0 state [] 0) as (status & chunks & state' & f' & -> & _ & _ & Hd); [done|done|lia..|dlia|].
  rewrite T1, Z.add_0_l in Hd. exists status, chunks, state', f'. split; [reflexivity|].
  split; [by intros _ _|]. split; [by intros [?|?]|]. done.
Qed.

Lemma tar_decode_bounds_witness :
  exists st, tar_open (fun _ => false) ExtractionLimits_default (bs_set sample_tar) = Ok (FS_Ok, st) /\
    exists status chunks state' file',
      tar_decode (fun _ => false) (fun _ _ => true) ExtractionLimits_default (ts_entries st) 0 (ts_file st)
        LimitState_default = Ok (status, chunks, state', file') /\ status = FS_Ok /\ concat chunks = str "hello".
Proof.
  pose proof sample_summary as E.
  destruct (tar_open (fun _ => false) ExtractionLimits_default (bs_set sample_tar)) as [[s st]| | |] eqn:Eo; [|discriminate E..].
  cbn [summary] in E. exists st. assert (s = FS_Ok) as -> by congruence. split; [reflexivity|].
  destruct (ts_entries st) as [|m [|m2 es]] eqn:Em; [discriminate E| |discriminate E].
  cbn [map] in E. assert (Hc : fe_type (m_meta m) = FT_File /\ fe_method_name (m_meta m) = [] /\
    m_data_offset m = 512 /\ m_size m = 5) by (split_and!; congruence).
  destruct Hc as (Hf & Hsp & Hd & Hsz).
  destruct (tar_decode_bounds (fun _ => false) (fun _ => false) (fun _ _ => true) ExtractionLimits_default
    ExtractionLimits_default (bs_set sample_tar) FS_Ok st 0%nat m LimitState_default) as (status & chunks & state' & file' & E2 & Hstr & _).
  - exact (proj1 sample_wf).
  - exact (proj2 sample_wf).
  - exact Eo.
  - rewrite Em. reflexivity.
  - vm_compute. split; congruence.
  - specialize (Hstr Hf ltac:(rewrite Hsp; reflexivity)). rewrite Em in E2. exists status, chunks, state', file'. split; [exact E2|].
    assert (Hst : status = FS_Ok).
    { apply (sd_free _ _ _ _ _ _ _ _ _ _ _ Hstr); [reflexivity|reflexivity|vm_compute; reflexivity|vm_compute; reflexivity|].
      rewrite Hsz. vm_compute. congruence. }
    split; [exact Hst|]. destruct (sd_prefix _ _ _ _ _ _ _ _ _ _ _ Hstr) as (rest & Er & Hr).
    rewrite (proj1 Hr Hst), app_nil_r, Hd, Hsz in Er. rewrite Er. vm_compute. reflexivity.
Defined.

(** Detection and the reader agree on what a TAR header is: the probe
    accepts a file exactly when it holds a full block whose checksum field,
    read the way [open] reads numbers, is the block's checksum, for a field
    in octal form (the probe does not know the base-256 form). *)
Theorem probe_tar_agrees {S : Type} `{ReadSourceLaws S} (file : S) :
  src_wf file -> bytes (src_contents file) -> Z.land (nth 148 (src_contents file) 0) 0x80 = 0 ->
  fst (probe_tar file) = true <->
    BLOCK <= zlen (src_contents file) /\
    parse_tar_num (fld (take 512 (src_contents file)) 148 8) = Some (tar_checksum (take 512 (src_contents file))).
Proof.
  intros Hw Hb H80. pose proof (src_tell_range file Hw) as [_ Hsm]. unfold probe_tar, src_size, BLOCK.
  destruct (Z.ltb_spec (zlen (src_contents file)) 512); [split; [done|lia]|].
  destruct (read_exact_spec file 0 512 Hw) as (f' & -> & _); [lia..|]. rewrite (proj2 (Z.leb_le _ _)), view_0 by lia.
  change (Z.to_nat 512) with 512%nat. set (hdr := take 512 (src_contents file)). change (sub hdr 148 8) with (fld hdr 148 8).
  assert (Hl : zlen (fld hdr 148 8) = 8).
  { apply zlen_sub. subst hdr. change 512%nat with (Z.to_nat 512). rewrite zlen_take by lia. lia. }
  assert (Hp : parse_tar_num (fld hdr 148 8) = octal_loop (fld hdr 148 8) 0 false).
  { destruct (fld hdr 148 8) as [|p0 l] eqn:El; [done|]. cbn [parse_tar_num].
    assert (p0 = nth 148 (src_contents file) 0) as ->; [|by rewrite H80].
    assert (E0 : nth 0 (fld hdr 148 8) 0 = p0) by (by rewrite El). rewrite <- E0. subst hdr. unfold fld, sub.
    rewrite !nth_lookup, lookup_take_lt, lookup_drop, lookup_take_lt by lia. done. }
  rewrite Hp. pose proof (probe_octal_eq (fld hdr 148 8) 0 false ltac:(lia)) as Hq. rewrite Hl in Hq.
  specialize (Hq ltac:(vm_compute; congruence)).
  destruct (probe_octal _ _ _) as [[s [|]]|]; rewrite Hq; cbn [fst andb].
  - rewrite Z.eqb_eq. split; [intros ->; by split|]. intros [_ [= ->]]. done.
  - split; [done|by intros [_ ?]].
  - split; [done|by intros [_ ?]].
Qed.

Lemma probe_tar_agrees_witness :
  fst (probe_tar (bs_set sample_tar)) = true.
Proof.
  apply probe_tar_agrees.
  - split; [split|]; vm_compute; congruence.
  - bytes_const.
  - vm_compute. reflexivity.
  - split; [vm_compute; congruence|vm_compute; reflexivity].
Defined.

(** The defects the model shows, on concrete inputs. *)

(** A two-byte pax area whose length covers only its own digit: [std::find]
    is called with [last] before [first]. *)
Example pax_short_record_faults : parse_pax_records (str "1 ") = Fault.
Proof. vm_compute. reflexivity. Qed.

(** A regular-file type in the mode field does not count as a real type:
    only all four bits set do. *)
Example mode_with_type_bits_dropped : posix_mode_of 0x81A4 48 = (false, 0) /\ posix_mode_of 0x1A4 48 = (true, 0x81A4).
Proof. vm_compute. done. Qed.

(** The escape flag of the name is overwritten by the empty link target's. *)
Example name_escape_flag_lost :
  exists m, build_member ([97; 0xFF] ++ replicate 510 0) 0 512 512 no_pending = Ok (Some m) /\
    fe_name (m_meta m) = str "a%FF" /\ fe_name_escaped (m_meta m) = false.
Proof. vm_compute. by eexists. Qed.
