(* ===== verification/Filters.v ===== *)
(** The branch filters of [src/compress/filters50.cpp]: x86 CALL/JMP (E8) and
    ARM BL address translation, both directions, with the scalar code (eight
    bytes at a time, then bytewise) and the SSE2 code in front of it, and the
    filter detection.

    A filter rewrites a buffer in place; the model threads the buffer and the
    cursor, and every access is checked.  [E8.scan] and [Arm.scan] are the
    one-pass reference transforms the loops refine.  The NEON twins of the
    SSE2 loops are not modelled. *)

From Stdlib Require Import ZArith Lia String.
From stdpp Require Import base tactics list numbers.
From S2P Require Import Prelude Bytes.

Local Open Scope Z_scope.

Definition file_size_mask : Z := 0x01000000.

Inductive FilterType := Delta | E8_ | E8E9 | Arm_ | None_.

(** ** SSE2 byte compares

    [_mm_movemask_epi8] of a byte-wise test: bit [i] for byte [i]; and
    [__builtin_ctz]. *)

Fixpoint movemask (l : list bool) : Z :=
  match l with [] => 0 | b :: l' => (if b then 1 else 0) + 2 * movemask l' end.

Fixpoint ctz (fuel : nat) (mask : Z) : Z :=
  match fuel with
  | O => 0
  | S fuel' => if Z.testbit mask 0 then 0 else 1 + ctz fuel' (Z.shiftr mask 1)
  end.

(** ** E8/E9 *)

Module E8.

(** The opcode test, [cmp_byte2] being E9 or E8. *)
Definition is_op (include_e9 : bool) (b : Z) : bool := (b =? 0xE8) || (b =? (if include_e9 then 0xE9 else 0xE8)).

(** What each direction stores over the operand [addr]; [None]: nothing. *)
Definition apply_site (addr offset : Z) : option Z :=
  if has_flag addr 0x80000000 then
    if Z.land (u32 (addr + offset)) 0x80000000 =? 0 then Some (u32 (addr + file_size_mask)) else None
  else if has_flag (u32 (addr - file_size_mask)) 0x80000000 then Some (u32 (addr - offset))
  else None.

Definition encode_site (addr offset : Z) : option Z :=
  if has_flag addr 0x80000000 then
    if Z.land (u32 (addr + offset)) 0x80000000 =? 0 then Some (u32 (addr + offset)) else None
  else if addr <? file_size_mask then
    if u32 (addr + offset) >=? file_size_mask then Some (u32 (addr - file_size_mask))
    else Some (u32 (addr + offset))
  else None.

Section scalar.
Context (site : Z -> Z -> option Z) (include_e9 : bool) (file_off : Z).

(** One call site: the operand at [cur_pos]. *)
Definition at_site (data : list Z) (cur_pos : Z) : res (list Z) :=
  let offset := u32 (u32 cur_pos + file_off) mod file_size_mask in
  addr ← read_le32 data cur_pos;
  match site addr offset with Some v => write_le32 data cur_pos v | None => Ok data end.

(** [while (cur_pos < chunk_end)] of one eight-byte chunk. *)
Fixpoint chunk_loop (fuel : nat) (data : list Z) (cur_pos chunk_end : Z) : res (list Z * Z) :=
  match fuel with
  | O => Fuel
  | S fuel' =>
      if cur_pos <? chunk_end then
        cur_byte ← byte_at data cur_pos;
        let cur_pos := cur_pos + 1 in
        if is_op include_e9 cur_byte then
          data ← at_site data cur_pos;
          chunk_loop fuel' data (cur_pos + 4) chunk_end
        else chunk_loop fuel' data cur_pos chunk_end
      else Ok (data, cur_pos)
  end.

(** The SWAR test: some byte of the word may be an opcode. *)
Definition zero_bytes (v : Z) : Z :=
  Z.land (Z.land (u64 (v - 0x0101010101010101)) (u64 (Z.lnot v))) 0x8080808080808080.

Definition maybe_op (q : Z) : bool :=
  let v_e8 := Z.lxor q 0xE8E8E8E8E8E8E8E8 in
  let v_e9 := Z.lxor q (if include_e9 then 0xE9E9E9E9E9E9E9E9 else 0xE8E8E8E8E8E8E8E8) in
  negb (Z.lor (zero_bytes v_e8) (zero_bytes v_e9) =? 0).

(** [while (cur_pos + 11 < size)] *)
Fixpoint swar_loop (fuel : nat) (data : list Z) (cur_pos : Z) : res (list Z * Z) :=
  match fuel with
  | O => Fuel
  | S fuel' =>
      if (cur_pos +s 11) <? zlen data then
        q ← read_le64 data cur_pos;
        if negb (maybe_op q) then swar_loop fuel' data (cur_pos + 8)
        else
          '(data, cur_pos) ← chunk_loop 9 data cur_pos (cur_pos + 8);
          swar_loop fuel' data cur_pos
      else Ok (data, cur_pos)
  end.

(** [for (; cur_pos + 4 < size;)] *)
Fixpoint tail_loop (fuel : nat) (data : list Z) (cur_pos : Z) : res (list Z) :=
  match fuel with
  | O => Fuel
  | S fuel' =>
      if (cur_pos +s 4) <? zlen data then
        cur_byte ← byte_at data cur_pos;
        let cur_pos := cur_pos + 1 in
        if is_op include_e9 cur_byte then
          data ← at_site data cur_pos;
          tail_loop fuel' data (cur_pos + 4)
        else tail_loop fuel' data cur_pos
      else Ok data
  end.

(** [while (cur_pos + 19 < size)] of the SSE2 path. *)
Fixpoint sse2_loop (fuel : nat) (data : list Z) (cur_pos : Z) : res (list Z * Z) :=
  match fuel with
  | O => Fuel
  | S fuel' =>
      if (cur_pos +s 19) <? zlen data then
        v ← slice data cur_pos 16;
        let mask := movemask (map (is_op include_e9) v) in
        if mask =? 0 then sse2_loop fuel' data (cur_pos + 16)
        else
          let cur_pos := cur_pos + ctz 16 mask + 1 in
          data ← at_site data cur_pos;
          sse2_loop fuel' data (cur_pos + 4)
      else Ok (data, cur_pos)
  end.
End scalar.

Section whole.
Context (site : Z -> Z -> option Z).

Definition run_scalar (data : list Z) (file_offset : Z) (include_e9 : bool) : res (list Z) :=
  let file_off := u32 file_offset in
  '(data, cur_pos) ← swar_loop site include_e9 file_off (S (length data)) data 0;
  tail_loop site include_e9 file_off (S (length data)) data cur_pos.

(** The SSE2 path, then the scalar code on [data + cur_pos]. *)
Definition run_sse2 (data : list Z) (file_offset : Z) (include_e9 : bool) : res (list Z) :=
  '(data, cur_pos) ← sse2_loop site include_e9 (u32 file_offset) (S (length data)) data 0;
  rest ← run_scalar (view data cur_pos) (u64 (file_offset + cur_pos)) include_e9;
  mret (take (Z.to_nat cur_pos) data ++ rest).
End whole.

Definition apply_e8_scalar := run_scalar apply_site.
Definition apply_e8 := run_sse2 apply_site.
Definition encode_e8_scalar := run_scalar encode_site.
Definition encode_e8 := run_sse2 encode_site.

(** *** The reference transform *)

Definition operand (site : Z -> Z -> option Z) (off : Z) (a : list Z) : list Z :=
  match site (le_val a) (off mod file_size_mask) with Some v => le32_bytes v | None => a end.

(** One pass; [off] is the file offset of the head. *)
Fixpoint scan (site : Z -> Z -> option Z) (include_e9 : bool) (off : Z) (l : list Z) : list Z :=
  match l with
  | c :: l' =>
      match l' with
      | a0 :: a1 :: a2 :: a3 :: rest =>
          if is_op include_e9 c
          then c :: operand site (off + 1) [a0; a1; a2; a3] ++ scan site include_e9 (off + 5) rest
          else c :: scan site include_e9 (off + 1) l'
      | _ => l
      end
  | [] => []
  end.

End E8.

(** ** ARM BL *)

Module Arm.

Section scalar.
Context (op : Z -> Z -> Z) (file_off : Z).

(** One branch instruction at [cur_pos]: its 24-bit offset is rewritten. *)
Definition at_site (data : list Z) (cur_pos : Z) : res (list Z) :=
  b0 ← byte_at data cur_pos;
  b1 ← byte_at data (cur_pos + 1);
  b2 ← byte_at data (cur_pos + 2);
  let offset := Z.lor (Z.lor b0 (Z.shiftl b1 8)) (Z.shiftl b2 16) in
  let offset := u32 (op offset (u32 (file_off + u32 cur_pos) / 4)) in
  store data cur_pos [Z.land offset 0xFF; Z.land (Z.shiftr offset 8) 0xFF; Z.land (Z.shiftr offset 16) 0xFF].

(** [while (cur_pos + 7 < size)] *)
Fixpoint swar_loop (fuel : nat) (data : list Z) (cur_pos : Z) : res (list Z * Z) :=
  match fuel with
  | O => Fuel
  | S fuel' =>
      if (cur_pos +s 7) <? zlen data then
        q ← read_le64 data cur_pos;
        data ← (if u8 (Z.shiftr q 24) =? 0xEB then at_site data cur_pos else Ok data);
        data ← (if u8 (Z.shiftr q 56) =? 0xEB then at_site data (cur_pos + 4) else Ok data);
        swar_loop fuel' data (cur_pos + 8)
      else Ok (data, cur_pos)
  end.

(** [for (; cur_pos + 3 < size; cur_pos += 4)] *)
Fixpoint tail_loop (fuel : nat) (data : list Z) (cur_pos : Z) : res (list Z) :=
  match fuel with
  | O => Fuel
  | S fuel' =>
      if (cur_pos +s 3) <? zlen data then
        b ← byte_at data (cur_pos + 3);
        data ← (if b =? 0xEB then at_site data cur_pos else Ok data);
        tail_loop fuel' data (cur_pos + 4)
      else Ok data
  end.

(** [while (cur_pos + 18 < size)] of the SSE2 path. *)
Fixpoint sse2_loop (fuel : nat) (data : list Z) (cur_pos : Z) : res (list Z * Z) :=
  match fuel with
  | O => Fuel
  | S fuel' =>
      if (cur_pos +s 18) <? zlen data then
        v ← slice data (cur_pos + 3) 16;
        let mask := Z.land (movemask (map (fun b => b =? 0xEB) v)) 0x1111 in
        if mask =? 0 then sse2_loop fuel' data (cur_pos + 16)
        else
          let cur_pos := cur_pos + ctz 16 mask in
          data ← at_site data cur_pos;
          sse2_loop fuel' data (cur_pos + 4)
      else Ok (data, cur_pos)
  end.
End scalar.

Section whole.
Context (op : Z -> Z -> Z).

Definition run_scalar (data : list Z) (file_offset : Z) : res (list Z) :=
  let file_off := u32 file_offset in
  '(data, cur_pos) ← swar_loop op file_off (S (length data)) data 0;
  tail_loop op file_off (S (length data)) data cur_pos.

Definition run_sse2 (data : list Z) (file_offset : Z) : res (list Z) :=
  '(data, cur_pos) ← sse2_loop op (u32 file_offset) (S (length data)) data 0;
  rest ← run_scalar (view data cur_pos) (u64 (file_offset + cur_pos));
  mret (take (Z.to_nat cur_pos) data ++ rest).
End whole.

Definition apply_arm_scalar := run_scalar Z.sub.
Definition apply_arm := run_sse2 Z.sub.
Definition encode_arm_scalar := run_scalar Z.add.
Definition encode_arm := run_sse2 Z.add.

(** *** The reference transform *)

Definition operand (op : Z -> Z -> Z) (off : Z) (a : list Z) : list Z :=
  le_digits 3 (op (le_val a) (u32 off / 4)).

Fixpoint scan (op : Z -> Z -> Z) (off : Z) (l : list Z) : list Z :=
  match l with
  | b0 :: b1 :: b2 :: b3 :: rest =>
      (if b3 =? 0xEB then operand op off [b0; b1; b2] else [b0; b1; b2]) ++ b3 :: scan op (off + 4) rest
  | _ => l
  end.

End Arm.

(** ** Detection *)

Inductive FilterMode := Auto | DisableAll.

(** Overrides: 0 automatic, positive force, negative disable. *)
Record FilterConfig := {
  fc_mode : FilterMode;
  e8_override : Z;
  arm_override : Z;
  delta_override : Z;
  delta_channels : Z
}.

Definition FilterConfig_default : FilterConfig :=
  {| fc_mode := Auto; e8_override := 0; arm_override := 0; delta_override := 0; delta_channels := 0 |}.

(** [memcmp(data + off, s, n) == 0] and [data[off] == 'x' && ...]. *)
Definition bytes_are (data : list Z) (off : Z) (s : list Z) : res bool :=
  p ← slice data off (zlen s); mret (str_eqb p s).

Definition detect_pe (data : list Z) (config : FilterConfig) : res (option FilterType) :=
  let size := zlen data in
  if e8_override config >=? 0 then
    mz ← bytes_are data 0 (str "MZ");
    if (mz : bool) && (size >=? 128) then
      pe_off ← read_le32 data 0x3C;
      if u64 (pe_off + 6) <? size then
        pe ← bytes_are data pe_off [80; 69; 0; 0];
        if (pe : bool) then
          machine ← read_le16 data (pe_off + 4);
          if (arm_override config >=? 0) && ((machine =? 0x01C0) || (machine =? 0x01C2) || (machine =? 0x01C4))
          then mret (Some Arm_)
          else mret (Some E8_)
        else mret None
      else mret None
    else mret None
  else mret None.

Definition detect_elf (data : list Z) (config : FilterConfig) : res (option FilterType) :=
  if zlen data >=? 20 then
    elf ← bytes_are data 0 [0x7F; 69; 76; 70];
    if (elf : bool) then
      machine ← read_le16 data 0x12;
      if (e8_override config >=? 0) && ((machine =? 0x03) || (machine =? 0x3E)) then mret (Some E8_)
      else if (arm_override config >=? 0) && (machine =? 0x28) then mret (Some Arm_)
      else mret None
    else mret None
  else mret None.

Definition detect_macho (data : list Z) (config : FilterConfig) : res (option FilterType) :=
  if zlen data >=? 8 then
    magic ← read_le32 data 0;
    if (magic =? 0xFEEDFACE) || (magic =? 0xFEEDFACF) then
      cputype ← read_le32 data 4;
      if (e8_override config >=? 0) && ((cputype =? 7) || (cputype =? 0x01000007)) then mret (Some E8_)
      else if (arm_override config >=? 0) && (cputype =? 12) then mret (Some Arm_)
      else mret None
    else mret None
  else mret None.

(** [memchr]: the distance to the first [b]. *)
Fixpoint index_of (b : Z) (l : list Z) : option Z :=
  match l with
  | [] => None
  | c :: l' => if c =? b then Some 0 else match index_of b l' with Some k => Some (k + 1) | None => None end
  end.

Fixpoint call_loop (fuel : nat) (data : list Z) (i limit call_count : Z) : res bool :=
  match fuel with
  | O => Fuel
  | S fuel' =>
      if i <? limit then
        window ← slice data i (limit - i);
        match index_of 0xE8 window with
        | None => Ok false
        | Some k =>
            let i := i + k in
            addr ← read_le32 data (i + 1);
            if (addr <? 0x01000000) || (addr >=? 0xFF000000) then
              if call_count + 1 >=? 32 then Ok true else call_loop fuel' data (i + 5) limit (call_count + 1)
            else call_loop fuel' data (i + 1) limit call_count
        end
      else Ok false
  end.

Fixpoint arm_loop (fuel : nat) (data : list Z) (i scan_len arm_count : Z) : res Z :=
  match fuel with
  | O => Fuel
  | S fuel' =>
      if i + 3 <? scan_len then
        b ← byte_at data (i + 3);
        if b =? 0xEB then
          w ← read_le32 data i;
          let off := Z.land w 0x00FFFFFF in
          arm_loop fuel' data (i + 4) scan_len
            (if (off <? 0x00080000) || (off >=? 0x00F80000) then arm_count + 1 else arm_count)
        else arm_loop fuel' data (i + 4) scan_len arm_count
      else Ok arm_count
  end.

Definition scan_window (data : list Z) : Z := Z.min (zlen data) 65536.

Definition call_density (data : list Z) (config : FilterConfig) : res (option FilterType) :=
  let scan_len := scan_window data in
  if (e8_override config >=? 0) && (scan_len >=? 512) then
    hit ← call_loop (S (Z.to_nat scan_len)) data 0 (scan_len - 4) 0;
    mret (if (hit : bool) then Some E8_ else None)
  else mret None.

Definition arm_density (data : list Z) (config : FilterConfig) : res (option FilterType) :=
  let scan_len := scan_window data in
  if (arm_override config >=? 0) && (scan_len >=? 512) then
    arm_count ← arm_loop (S (Z.to_nat scan_len)) data 0 scan_len 0;
    mret (if (arm_count >=? 32) && (arm_count * 100 / (scan_len / 4) >=? 1) then Some Arm_ else None)
  else mret None.

(** The stride of a WAV header. *)
Definition wav_channels (data : list Z) (config : FilterConfig) : res (option Z) :=
  if (delta_override config >=? 0) && (zlen data >=? 44) then
    riff ← bytes_are data 0 (str "RIFF");
    fmt ← (if (riff : bool) then bytes_are data 8 (str "WAVEfmt ") else Ok false);
    if (fmt : bool) then
      ch ← read_le16 data 22;
      bps ← read_le16 data 34;
      let total_bits := u32 (ch * bps) in
      let stride := total_bits / 8 in
      mret (if (total_bits mod 8 =? 0) && (stride >=? 1) && (stride <=? 32) then Some (u8 stride) else None)
    else mret None
  else mret None.

(** Early returns in order. *)
Definition or_next {A} (r : res (option A)) (next : res (option A)) : res (option A) :=
  o ← r; match o with Some a => mret (Some a) | None => next end.

(** The type, and [out_channels]. *)
Definition detect_filter (data : list Z) (config : FilterConfig) : res (FilterType * Z) :=
  match fc_mode config with
  | DisableAll => Ok (None_, 1)
  | Auto =>
      if e8_override config >? 0 then Ok (E8_, 1)
      else if arm_override config >? 0 then Ok (Arm_, 1)
      else if delta_override config >? 0
      then Ok (Delta, if delta_channels config >? 0 then delta_channels config else 2)
      else if zlen data <? 64 then Ok (None_, 1)
      else
        t ← or_next (detect_pe data config) (or_next (detect_elf data config) (or_next (detect_macho data config)
          (or_next (call_density data config) (arm_density data config))));
        match t with
        | Some t => mret (t, 1)
        | None =>
            wav ← wav_channels data config;
            mret (match wav with Some stride => (Delta, stride) | None => (None_, 1) end)
        end
  end.

Example apply_e8_ex :
  E8.apply_e8 [0xE8; 0x10; 0; 0; 0; 0x90; 0xE8; 1; 2; 3] 0x100 false =
    Ok [0xE8; 0x0F; 0xFF; 0xFF; 0xFF; 0x90; 0xE8; 1; 2; 3].
Proof. vm_compute. reflexivity. Qed.

(** ** SSE2 masks *)

Lemma movemask_zero l : (movemask l =? 0) = negb (existsb id l).
Proof.
  assert (Hn : forall l, 0 <= movemask l) by (clear; intros l; induction l as [|[|] l IH]; cbn [movemask]; lia).
  induction l as [|b l IH]; [done|]. cbn [movemask existsb]. specialize (Hn l).
  destruct (Z.eqb_spec (movemask l) 0) as [E|E], b; cbn [id orb negb] in *; try rewrite <- IH.
  - rewrite E. done.
  - rewrite E. done.
  - apply Z.eqb_neq. lia.
  - apply Z.eqb_neq. lia.
Qed.

(** [ctz] finds the first set lane. *)
Lemma ctz_movemask fuel l :
  existsb id l = true -> (length l <= fuel)%nat ->
  exists a b, l = a ++ true :: b /\ Forall (fun x => x = false) a /\ ctz fuel (movemask l) = zlen a.
Proof.
  revert fuel. induction l as [|x l IH]; intros fuel He Hf; [done|]. destruct fuel as [|fuel]; [cbn in Hf; lia|].
  cbn [movemask ctz]. assert (Et : Z.testbit ((if x then 1 else 0) + 2 * movemask l) 0 = x).
  { rewrite Z.bit0_odd, Z.odd_add, Z.odd_mul. by destruct x. }
  rewrite Et. destruct x.
  - exists [], l. done.
  - cbn [existsb id orb] in He. destruct (IH fuel He ltac:(cbn in Hf; lia)) as (a & b & -> & Ha & Hc).
    exists (false :: a), b. split; [done|]. split; [by constructor|].
    replace (Z.shiftr _ 1) with (movemask (a ++ true :: b)); [rewrite Hc; zlen_lia|].
    rewrite Z.shiftr_div_pow2 by lia. rewrite Z.add_0_l, Z.mul_comm, Z.pow_1_r, Z.div_mul by lia. done.
Qed.

(** ** The SWAR test *)

Lemma le_val_lxor c l :
  bytes l -> is_byte c -> Z.lxor (le_val l) (le_val (replicate (length l) c)) = le_val (map (Z.lxor c) l).
Proof.
  intros Hl Hc. induction Hl as [|b l Hb _ IH]; [done|]. cbn [length replicate le_val map]. rewrite <- IH.
  set (x := le_val l). set (y := le_val _). unfold is_byte in *.
  pose proof (lxor_range 8 c b ltac:(lia) Hc Hb).
  assert (Hj : forall a z, 0 <= a < 256 -> a + 256 * z = Z.lor a (Z.shiftl z 8))
    by (intros a z Ha; rewrite lor_shiftl_add by lia; lia).
  rewrite !Hj by done.
  apply Z.bits_inj'. intros i Hi. rewrite Z.lxor_spec, !Z.lor_spec, Z.lxor_spec.
  destruct (Z.ltb_spec i 8).
  - rewrite !Z.shiftl_spec_low by lia. rewrite !orb_false_r. apply xorb_comm.
  - rewrite !Z.shiftl_spec, Z.lxor_spec by lia.
    rewrite (testbit_high 8 b i), (testbit_high 8 c i) by lia. done.
Qed.

(** A word whose lowest zero byte is byte [k] has bit [8k+7] of the test set. *)
Lemma zero_bytes_set l k :
  length l = 8%nat -> bytes l -> (k < 8)%nat -> nth k l 1 = 0 -> (forall j, (j < k)%nat -> nth j l 1 <> 0) ->
  Z.testbit (E8.zero_bytes (le_val l)) (8 * Z.of_nat k + 7) = true.
Proof.
  intros Hlen Hb Hk Hz Hnz.
  assert (E : Z.testbit (u64 (le_val l - 0x0101010101010101)) (8 * Z.of_nat k + 7) = true /\
              Z.testbit (u64 (Z.lnot (le_val l))) (8 * Z.of_nat k + 7) = true /\
              Z.testbit 0x8080808080808080 (8 * Z.of_nat k + 7) = true).
  { destruct l as [|b0 [|b1 [|b2 [|b3 [|b4 [|b5 [|b6 [|b7 [|]]]]]]]]]; try done.
    repeat (apply Forall_cons_inv in Hb as [? Hb]). unfold is_byte in *. clear Hb Hlen.
    assert (Hpre : forall j, (j < k)%nat -> 1 <= nth j [b0; b1; b2; b3; b4; b5; b6; b7] 1).
    { intros j Hj. specialize (Hnz j Hj). do 8 (destruct j as [|j]; [cbn in *; lia|]). lia. }
    clear Hnz. assert (Hcase : (k = 0 \/ k = 1 \/ k = 2 \/ k = 3 \/ k = 4 \/ k = 5 \/ k = 6 \/ k = 7)%nat) by lia.
    assert (Htest : forall x n, 0 <= n -> (x / 2 ^ n) mod 2 = 1 -> Z.testbit x n = true).
    { intros x n Hn Hx. apply Z.b2z_inj. by rewrite Z.testbit_spec'. }
    pose proof (fun j H => Hpre j H) as P0.
    unfold wrap, Z.lnot.
    destruct Hcase as [->|[->|[->|[->|[->|[->|[->| ->]]]]]]]; cbn [nth] in Hz;
      repeat match goal with |- context [8 * Z.of_nat ?k + 7] => let v := eval vm_compute in (8 * Z.of_nat k + 7) in change (8 * Z.of_nat k + 7) with v end;
      try (pose proof (P0 0%nat ltac:(lia)) as Q0; cbn in Q0); try (pose proof (P0 1%nat ltac:(lia)) as Q1; cbn in Q1);
      try (pose proof (P0 2%nat ltac:(lia)) as Q2; cbn in Q2); try (pose proof (P0 3%nat ltac:(lia)) as Q3; cbn in Q3);
      try (pose proof (P0 4%nat ltac:(lia)) as Q4; cbn in Q4); try (pose proof (P0 5%nat ltac:(lia)) as Q5; cbn in Q5);
      try (pose proof (P0 6%nat ltac:(lia)) as Q6; cbn in Q6);
      subst; (split; [|split; [|reflexivity]]); apply Htest; try lia; cbn [le_val]; clear P0 Hpre Htest;
      change (2 ^ 64) with 18446744073709551616; dlia. }
  destruct E as (E1 & E2 & E3). unfold E8.zero_bytes. by rewrite !Z.land_spec, E1, E2, E3.
Qed.

Lemma least_zero l : Exists (fun b => b = 0) l ->
  exists k, (k < length l)%nat /\ nth k l 1 = 0 /\ forall j, (j < k)%nat -> nth j l 1 <> 0.
Proof.
  induction l as [|b l IH]; [by inversion 1|]. intros H. destruct (Z.eq_dec b 0) as [->|Hb].
  - exists 0%nat. split; [cbn; lia|]. split; [done|]. lia.
  - inversion H; subst; [done|]. destruct IH as (k & Hk & Hz & Hn); [done|].
    exists (S k). split; [cbn; lia|]. split; [done|]. intros [|j] Hj; [done|]. apply Hn. lia.
Qed.

Lemma zero_bytes_sound l : length l = 8%nat -> bytes l -> E8.zero_bytes (le_val l) = 0 -> Forall (fun b => b <> 0) l.
Proof.
  intros Hlen Hb Hz. rewrite List.Forall_forall. intros b Hin ->.
  destruct (least_zero l) as (k & Hk & Hk0 & Hmin).
  { apply List.Exists_exists. by exists 0. }
  pose proof (zero_bytes_set l k Hlen Hb ltac:(lia) Hk0 Hmin) as Ht. by rewrite Hz, Z.bits_0 in Ht.
Qed.

Lemma maybe_op_sound e9 a :
  length a = 8%nat -> bytes a -> E8.maybe_op e9 (le_val a) = false -> Forall (fun b => E8.is_op e9 b = false) a.
Proof.
  intros Hlen Hb Hm. unfold E8.maybe_op in Hm. apply negb_false_iff, Z.eqb_eq, Z.lor_eq_0_iff in Hm as [H1 H2].
  assert (Hx : forall c, is_byte c -> E8.zero_bytes (Z.lxor (le_val a) (le_val (replicate 8 c))) = 0 ->
    Forall (fun b => b <> c) a).
  { intros c Hc H0. rewrite <- Hlen, le_val_lxor in H0 by done. apply zero_bytes_sound in H0.
    - rewrite List.Forall_forall in H0 |- *. intros b Hin ->. apply (H0 (Z.lxor c c)); [by apply in_map|apply Z.lxor_nilpotent].
    - by rewrite length_map.
    - rewrite Forall_map. eapply List.Forall_impl; [|exact Hb]. intros b Hbb. by apply (lxor_range 8). }
  pose proof (Hx 0xE8 ltac:(done) H1) as F1.
  assert (F2 : Forall (fun b => b <> (if e9 then 0xE9 else 0xE8)) a) by (apply Hx; by destruct e9).
  rewrite List.Forall_forall in *. intros b Hin. unfold E8.is_op.
  rewrite (proj2 (Z.eqb_neq _ _) (F1 b Hin)), (proj2 (Z.eqb_neq _ _) (F2 b Hin)). done.
Qed.

(** ** E8: the loops refine the scan *)

Section e8.
Context (site : Z -> Z -> option Z) (e9 : bool) (fo : Z).

Lemma operand_spec off a : zlen a = 4 -> bytes a -> zlen (E8.operand site off a) = 4 /\ bytes (E8.operand site off a).
Proof.
  intros Ha Hb. unfold E8.operand. destruct (site _ _); [|done]. split; [apply zlen_le32_bytes|apply le32_bytes_bytes].
Qed.

Lemma scan_op off c a rest :
  E8.is_op e9 c = true -> zlen a = 4 ->
  E8.scan site e9 off (c :: a ++ rest) = c :: E8.operand site (off + 1) a ++ E8.scan site e9 (off + 5) rest.
Proof.
  intros Hc Ha. destruct a as [|a0 [|a1 [|a2 [|a3 [|]]]]]; try zlen_lia. cbn [app E8.scan]. by rewrite Hc.
Qed.

Lemma scan_skip1 off c l :
  E8.is_op e9 c = false -> 4 <= zlen l -> E8.scan site e9 off (c :: l) = c :: E8.scan site e9 (off + 1) l.
Proof.
  intros Hc Hl. destruct l as [|a0 [|a1 [|a2 [|a3 l]]]]; try zlen_lia. cbn [E8.scan]. by rewrite Hc.
Qed.

Lemma scan_skip off p l :
  Forall (fun c => E8.is_op e9 c = false) p -> 4 <= zlen l ->
  E8.scan site e9 off (p ++ l) = p ++ E8.scan site e9 (off + zlen p) l.
Proof.
  intros Hp Hl. revert off. induction Hp as [|c p Hc Hp IH]; intros off.
  - cbn [app]. by rewrite zlen_nil, Z.add_0_r.
  - cbn [app]. rewrite scan_skip1 by (done || zlen_lia). rewrite IH. do 3 f_equal. zlen_lia.
Qed.

Lemma scan_short off l : zlen l <= 4 -> E8.scan site e9 off l = l.
Proof. intros Hl. destruct l as [|c [|a0 [|a1 [|a2 [|a3 l]]]]]; try done. zlen_lia. Qed.

(** [data] has been transformed before [cur] and scanning the rest gives the
    target. *)
Definition progress (target data : list Z) (cur : Z) : Prop :=
  bytes data /\ zlen data = zlen target /\
  exists p l, data = p ++ l /\ cur = zlen p /\ p ++ E8.scan site e9 (fo + cur) l = target.

Lemma progress_skip target data cur p a r :
  progress target data cur -> data = p ++ a ++ r -> zlen p = cur ->
  Forall (fun c => E8.is_op e9 c = false) a -> 4 <= zlen r -> progress target data (cur + zlen a).
Proof.
  intros (Hb & Hl & p' & l & Hd & Hc & Ht) Hd2 Hp Ha Hr. split; [done|]. split; [done|].
  exists (p ++ a), r. assert (Epl : p' = p /\ l = a ++ r).
  { apply (app_inj_1 p' p l (a ++ r)); [unfold zlen in *; lia|congruence]. }
  destruct Epl as [-> ->]. rewrite <- app_assoc. split; [done|]. split; [zlen_lia|].
  rewrite <- Ht, scan_skip by done. by rewrite app_assoc, Z.add_assoc.
Qed.

Lemma progress_site target data cur :
  0 <= fo < 2 ^ 64 -> zlen data < 2 ^ 63 -> progress target data cur -> cur + 4 < zlen data ->
  exists c, byte_at data cur = Ok c /\
    if E8.is_op e9 c
    then exists data', E8.at_site site (u32 fo) data (cur + 1) = Ok data' /\ progress target data' (cur + 5)
    else progress target data (cur + 1).
Proof.
  intros Hfo Hsm (Hb & Hl & p & l & Hd & Hc & Ht) Hlt.
  destruct (split_at l 0 1) as (n & c' & r & El & Hn & Hc1); [lia..|subst; zlen_lia|].
  apply zlen_zero_nil in Hn as ->. destruct c' as [|c [|]]; try zlen_lia. cbn [app] in El.
  exists c. split; [subst data l cur; apply byte_at_split|].
  assert (Hlr : 4 <= zlen r) by (subst; zlen_lia). clear Hc1. destruct (E8.is_op e9 c) eqn:Eop.
  - destruct (split_at r 0 4) as (n & a & r' & Er & Hn & Ha); [lia..|]. apply zlen_zero_nil in Hn as ->.
    cbn [app] in Er. subst r l.
    assert (Hda : data = (p ++ [c]) ++ a ++ r') by (by rewrite <- app_assoc).
    assert (Hpc : zlen (p ++ [c]) = cur + 1) by zlen_lia. pose proof (zlen_nonneg p).
    assert (Hba : bytes a) by (rewrite Hda in Hb; apply Forall_app in Hb as [_ Hb]; by apply Forall_app in Hb as [? _]).
    rewrite scan_op in Ht by done.
    assert (Ho : u32 (u32 (cur + 1) + u32 fo) mod file_size_mask = (fo + cur + 1) mod file_size_mask).
    { unfold wrap, file_size_mask. dlia. }
    destruct (operand_spec (fo + cur + 1) a Ha Hba) as [Ho4 Hob].
    exists ((p ++ [c]) ++ E8.operand site (fo + cur + 1) a ++ r'). split.
    + unfold E8.at_site. rewrite Hda, <- Hpc at 1. rewrite read_le32_split by (done || congruence). res_simpl.
      rewrite Ho. unfold E8.operand at 1. destruct (site _ _) as [v|]; [|by rewrite Hda].
      unfold write_le32. rewrite Hda, <- Hpc. apply store_split. by rewrite zlen_le32_bytes.
    + split.
      * rewrite Hda in Hb. apply Forall_app in Hb as [Hb1 Hb2]. apply Forall_app in Hb2 as [_ Hb2].
        apply Forall_app_2; [done|]. by apply Forall_app_2.
      * split; [rewrite <- Hl, Hda; zlen_lia|].
        exists (p ++ c :: E8.operand site (fo + cur + 1) a), r'. split; [by rewrite <- !app_assoc|].
        split; [zlen_lia|]. rewrite <- Ht, <- !app_assoc. cbn [app]. do 3 f_equal. f_equal. lia.
  - split; [done|]. split; [done|]. exists (p ++ [c]), r. subst data l. split; [by rewrite <- app_assoc|].
    split; [zlen_lia|]. rewrite <- Ht, scan_skip1 by done. rewrite <- app_assoc. cbn [app]. do 3 f_equal. lia.
Qed.

Lemma progress_end target data cur : progress target data cur -> zlen data <= cur + 4 -> data = target.
Proof.
  intros (Hb & Hl & p & l & Hd & Hc & Ht) He. rewrite scan_short in Ht; [congruence|subst; zlen_lia].
Qed.

Section loops.
Context (target : list Z).
Hypothesis Hfo : 0 <= fo < 2 ^ 64.
Hypothesis Hsmall : zlen target < 2 ^ 63.

Lemma progress_bounds data cur : progress target data cur -> 0 <= cur <= zlen data /\ zlen data = zlen target.
Proof. intros (_ & Hl & p & l & -> & -> & _). split; [zlen_lia|done]. Qed.

Lemma chunk_loop_spec fuel data cur chunk_end :
  progress target data cur -> chunk_end + 4 <= zlen data -> Z.max 0 (chunk_end - cur) < Z.of_nat fuel ->
  exists data' cur', E8.chunk_loop site e9 (u32 fo) fuel data cur chunk_end = Ok (data', cur') /\
    progress target data' cur' /\ chunk_end <= cur' /\ zlen data' = zlen data.
Proof.
  revert data cur. induction fuel as [|fuel IH]; intros data cur Hp He Hf.
  { lia. }
  cbn [E8.chunk_loop]. destruct (Z.ltb_spec cur chunk_end) as [Hlt|]; [|by exists data, cur].
  pose proof (progress_bounds data cur Hp) as [Hc Hlen].
  destruct (progress_site target data cur Hfo ltac:(lia) Hp ltac:(lia)) as (c & -> & Hop). res_simpl.
  destruct (E8.is_op e9 c).
  - destruct Hop as (data' & -> & Hp'). res_simpl. pose proof (progress_bounds data' _ Hp') as [_ Hlen'].
    destruct (IH data' (cur + 1 + 4)) as (d2 & c2 & E & H2 & H3 & H4); [|lia..|].
    { replace (cur + 1 + 4) with (cur + 5) by lia. done. }
    exists d2, c2. split; [exact E|]. split; [done|]. split; [done|lia].
  - apply IH; [done|lia..].
Qed.
(** A chunk without opcodes is skipped whole. *)
Lemma progress_slice data cur n :
  progress target data cur -> 0 <= n -> cur + n + 4 <= zlen data ->
  exists a, slice data cur n = Ok a /\ zlen a = n /\ bytes a /\
    (read_le64 data cur = Ok (le_val a) \/ n <> 8) /\
    (forall a1 c a2, a = a1 ++ c :: a2 -> byte_at data (cur + zlen a1) = Ok c) /\
    forall a1 a2, a = a1 ++ a2 -> Forall (fun c => E8.is_op e9 c = false) a1 -> progress target data (cur + zlen a1).
Proof.
  intros Hp Hn Hle. pose proof (progress_bounds data cur Hp) as [Hc _].
  destruct (split_at data cur n) as (p & a & r & Hd & Hpl & Hal); [lia..|].
  assert (Hb : bytes data) by (by destruct Hp). assert (Hba : bytes a).
  { rewrite Hd in Hb. apply Forall_app in Hb as [_ Hb]. by apply Forall_app in Hb as [? _]. }
  assert (Hv : view data cur = a ++ r) by (rewrite Hd, <- Hpl; by apply view_app).
  exists a. split; [rewrite <- Hal; apply (slice_view data cur a r); [lia|done]|].
  split; [done|]. split; [done|]. split.
  - destruct (Z.eq_dec n 8) as [->|]; [left|by right]. by apply (read_le64_view data cur a r); [|lia|..].
  - split.
    { intros a1 c a2 Ea. pose proof (zlen_nonneg a1). apply (byte_at_view data _ c (a2 ++ r)); [lia|].
      apply (view_step data cur a1); [lia|]. by rewrite Hv, Ea, <- app_assoc. }
    intros a1 a2 Ea Hf. eapply (progress_skip target data cur p a1 (a2 ++ r)); [done| |done|done|].
    + by rewrite Hd, Ea, <- app_assoc.
    + subst a. rewrite Hd, !zlen_app in Hle. rewrite !zlen_app in Hal. zlen_lia.
Qed.

Lemma swar_loop_spec fuel data cur :
  progress target data cur -> zlen data - cur < Z.of_nat fuel ->
  exists data' cur', E8.swar_loop site e9 (u32 fo) fuel data cur = Ok (data', cur') /\ progress target data' cur'.
Proof.
  revert data cur. induction fuel as [|fuel IH]; intros data cur Hp Hf;
    pose proof (progress_bounds data cur Hp) as [Hc Hlen]; [lia|].
  cbn [E8.swar_loop]. size_simpl. destruct (Z.ltb_spec (cur + 11) (zlen data)) as [Hlt|]; [|by exists data, cur].
  destruct (progress_slice data cur 8 Hp) as (a & _ & Ha & Hba & [-> |] & _ & Hskip); [lia..| |done]. res_simpl.
  destruct (E8.maybe_op e9 (le_val a)) eqn:Em; cbn [negb].
  - destruct (chunk_loop_spec 9 data cur (cur + 8)) as (d & c & -> & Hp' & Hc' & Hl'); [done|lia..|].
    res_simpl. cbv beta iota. apply IH; [done|lia].
  - apply IH; [|lia]. rewrite <- Ha. apply (Hskip a []); [by rewrite app_nil_r|].
    apply maybe_op_sound; [|done..]. unfold zlen in Ha. lia.
Qed.

Lemma tail_loop_spec fuel data cur :
  progress target data cur -> zlen data - cur < Z.of_nat fuel ->
  E8.tail_loop site e9 (u32 fo) fuel data cur = Ok target.
Proof.
  revert data cur. induction fuel as [|fuel IH]; intros data cur Hp Hf;
    pose proof (progress_bounds data cur Hp) as [Hc Hlen]; [lia|].
  cbn [E8.tail_loop]. size_simpl. destruct (Z.ltb_spec (cur + 4) (zlen data)) as [Hlt|].
  - destruct (progress_site target data cur Hfo ltac:(lia) Hp ltac:(lia)) as (c & -> & Hop). res_simpl.
    destruct (E8.is_op e9 c).
    + destruct Hop as (data' & -> & Hp'). res_simpl. pose proof (progress_bounds data' _ Hp') as [_ Hlen'].
      replace (cur + 1 + 4) with (cur + 5) by lia. apply IH; [done|lia].
    + apply IH; [done|lia].
  - by rewrite (progress_end target data cur Hp) by lia.
Qed.

Lemma sse2_loop_spec fuel data cur :
  progress target data cur -> zlen data - cur < Z.of_nat fuel ->
  exists data' cur', E8.sse2_loop site e9 (u32 fo) fuel data cur = Ok (data', cur') /\ progress target data' cur'.
Proof.
  revert data cur. induction fuel as [|fuel IH]; intros data cur Hp Hf;
    pose proof (progress_bounds data cur Hp) as [Hc Hlen]; [lia|].
  cbn [E8.sse2_loop]. size_simpl. destruct (Z.ltb_spec (cur + 19) (zlen data)) as [Hlt|]; [|by exists data, cur].
  destruct (progress_slice data cur 16 Hp) as (a & -> & Ha & Hba & _ & Hbyte & Hskip); [lia..|]. res_simpl.
  rewrite movemask_zero. destruct (existsb id (map (E8.is_op e9) a)) eqn:Ee; cbn [negb].
  - destruct (ctz_movemask 16 _ Ee) as (m1 & m2 & Em & Hm1 & Hctz); [rewrite length_map; unfold zlen in Ha; lia|].
    destruct (map_eq_app _ _ _ _ Em) as (a1 & a2 & -> & E1 & E2). destruct a2 as [|c a2]; [done|].
    injection E2 as Ec _. rewrite Hctz, <- E1, zlen_map. rewrite zlen_app, zlen_cons in Ha.
    pose proof (zlen_nonneg a2).
    assert (Hp1 : progress target data (cur + zlen a1)).
    { apply (Hskip a1 (c :: a2)); [done|]. rewrite <- E1, Forall_map in Hm1. exact Hm1. }
    destruct (progress_site target data (cur + zlen a1) Hfo ltac:(lia) Hp1 ltac:(lia)) as (c' & Ec' & Hop).
    rewrite (Hbyte a1 c a2 eq_refl) in Ec'. injection Ec' as <-.
    rewrite Ec in Hop. destruct Hop as (data' & -> & Hp'). res_simpl.
    pose proof (progress_bounds data' _ Hp') as [_ Hlen'].
    replace (cur + zlen a1 + 1 + 4) with (cur + zlen a1 + 5) by lia. apply IH; [done|zlen_lia].
  - apply IH; [|lia]. rewrite <- Ha. apply (Hskip a []); [by rewrite app_nil_r|].
    rewrite List.Forall_forall. intros x Hx. destruct (E8.is_op e9 x) eqn:Ex; [|done].
    exfalso. assert (He : existsb id (map (E8.is_op e9) a) = true); [|by rewrite Ee in He].
    apply existsb_exists. exists true. split; [|done]. rewrite in_map_iff. by exists x.
Qed.
End loops.
End e8.

Lemma scan_ok site e9 off l :
  bytes l -> zlen (E8.scan site e9 off l) = zlen l /\ bytes (E8.scan site e9 off l).
Proof.
  remember (length l) as n eqn:En. revert l En off. induction n as [n IH] using lt_wf_ind.
  intros l -> off Hb. destruct l as [|c l]; [done|]. pose proof Hb as Hb'. apply Forall_cons_inv in Hb as [Hc Hb].
  destruct (Z.ltb_spec (zlen l) 4) as [Hlt|Hge]; [by rewrite scan_short by zlen_lia|].
  destruct (E8.is_op e9 c) eqn:Eop.
  - destruct (split_at l 0 4) as (p & a & r & -> & Hp & Ha); [lia..|]. apply zlen_zero_nil in Hp as ->.
    cbn [app] in *. apply Forall_app in Hb as [Hba Hbr]. rewrite scan_op by done.
    destruct (operand_spec site (off + 1) a Ha Hba) as [Hz Hob].
    destruct (IH (length r)) with (l := r) (off := off + 5) as [Hzr Hrb]; [cbn [length]; rewrite length_app; lia|done|done|].
    split; [rewrite !zlen_cons, !zlen_app; lia|]. constructor; [done|by apply Forall_app_2].
  - rewrite scan_skip1 by done.
    destruct (IH (length l)) with (l := l) (off := off + 1) as [Hzr Hrb]; [cbn; lia|done|done|].
    split; [rewrite !zlen_cons; lia|by constructor].
Qed.

Lemma progress_start site e9 fo data :
  bytes data -> progress site e9 fo (E8.scan site e9 fo data) data 0 /\ zlen (E8.scan site e9 fo data) = zlen data.
Proof.
  intros Hb. destruct (scan_ok site e9 fo data Hb) as [Hz _]. split; [|done]. split; [done|]. split; [done|].
  exists [], data. by rewrite Z.add_0_r.
Qed.

Lemma run_scalar_spec site e9 fo data :
  bytes data -> zlen data < 2 ^ 63 -> 0 <= fo < 2 ^ 64 ->
  E8.run_scalar site data fo e9 = Ok (E8.scan site e9 fo data).
Proof.
  intros Hb Hl Hfo. destruct (progress_start site e9 fo data Hb) as [Hp Hz]. unfold E8.run_scalar. cbv zeta.
  destruct (swar_loop_spec site e9 fo (E8.scan site e9 fo data) Hfo ltac:(lia) (S (length data)) data 0 Hp) as (d & c & -> & Hp'); [unfold zlen; lia|].
  res_simpl. cbv beta iota. destruct (progress_bounds site e9 fo _ d c Hp') as [Hc Hlen].
  apply tail_loop_spec; [done|lia|done|]. unfold zlen in *. lia.
Qed.

(** Only the offset modulo the 16 MB cycle matters. *)
Lemma scan_mod site e9 l off off' :
  off mod file_size_mask = off' mod file_size_mask -> E8.scan site e9 off l = E8.scan site e9 off' l.
Proof.
  remember (length l) as n eqn:En. revert l En off off'. induction n as [n IH] using lt_wf_ind.
  intros l -> off off' Hm. destruct l as [|c l]; [done|].
  assert (Hk : forall k, (off + k) mod file_size_mask = (off' + k) mod file_size_mask).
  { intros k. rewrite <- (Z.add_mod_idemp_l off), <- (Z.add_mod_idemp_l off') by done. by rewrite Hm. }
  destruct (Z.ltb_spec (zlen l) 4) as [Hlt|Hge]; [rewrite !scan_short; [done|zlen_lia..]|].
  destruct (E8.is_op e9 c) eqn:Eop.
  - destruct (split_at l 0 4) as (p & a & r & -> & Hp & Ha); [lia..|]. apply zlen_zero_nil in Hp as ->. cbn [app] in *.
    rewrite !scan_op by done. unfold E8.operand. rewrite Hk. do 2 f_equal.
    apply (IH (length r)); [cbn [length]; rewrite length_app; lia|done|done].
  - rewrite !scan_skip1 by done. f_equal. apply (IH (length l)); [cbn; lia|done|done].
Qed.

Lemma run_sse2_spec site e9 fo data :
  bytes data -> zlen data < 2 ^ 63 -> 0 <= fo < 2 ^ 64 ->
  E8.run_sse2 site data fo e9 = Ok (E8.scan site e9 fo data).
Proof.
  intros Hb Hl Hfo. destruct (progress_start site e9 fo data Hb) as [Hp Hz]. unfold E8.run_sse2.
  destruct (sse2_loop_spec site e9 fo (E8.scan site e9 fo data) Hfo ltac:(lia) (S (length data)) data 0 Hp) as (d & c & -> & Hp'); [unfold zlen; lia|].
  res_simpl. cbv beta iota. destruct Hp' as (Hbd & Hld & p & l & -> & -> & Ht). rewrite view_app by done.
  assert (Hll : zlen l < 2 ^ 63) by zlen_lia. apply Forall_app in Hbd as [_ Hbl].
  rewrite run_scalar_spec; [|done|done|apply (wrap_range 64); lia]. res_simpl.
  rewrite (scan_mod site e9 l _ (fo + zlen p)) by (unfold wrap, file_size_mask; dlia).
  unfold zlen at 1. rewrite Nat2Z.id, take_app_length, Ht. done.
Qed.

(** The decoder undoes the encoder at a site. *)
Lemma has_high_bit z : 0 <= z < 2 ^ 32 -> has_flag z 0x80000000 = (2 ^ 31 <=? z).
Proof.
  intros Hz. change 0x80000000 with (2 ^ 31). rewrite has_flag_testbit by lia.
  rewrite Z.testbit_eqb by lia. apply eq_true_iff_eq. rewrite Z.eqb_eq, Z.leb_le. dlia.
Qed.

Lemma site_inverse addr offset v :
  0 <= addr < 2 ^ 32 -> 0 <= offset < file_size_mask ->
  (E8.encode_site addr offset = Some v -> 0 <= v < 2 ^ 32 /\ E8.apply_site v offset = Some addr) /\
  (E8.encode_site addr offset = None -> E8.apply_site addr offset = None).
Proof.
  intros Ha Ho. unfold E8.encode_site, E8.apply_site.
  assert (Hz : forall z, (Z.land (u32 z) 0x80000000 =? 0) = negb (has_flag (u32 z) 0x80000000))
    by (intros z; unfold has_flag; by rewrite negb_involutive).
  rewrite !Hz. pose proof (fun z => wrap_range 32 z ltac:(lia)) as Hr.
  rewrite !(has_high_bit (u32 _)) by apply Hr. rewrite (has_high_bit addr) by done.
  unfold file_size_mask in *. rewrite Z.geb_leb.
  destruct (Z.leb_spec (2 ^ 31) addr) as [H1|H1]; [|destruct (Z.ltb_spec addr 0x01000000) as [H2|H2]].
  - destruct (Z.leb_spec (2 ^ 31) (u32 (addr + offset))) as [H3|H3]; cbn [negb]; (split; [|done]); [done|].
    intros [= <-]. split; [apply Hr|]. rewrite has_high_bit by apply Hr. rewrite (proj2 (Z.leb_gt _ _)) by done.
    rewrite (proj2 (Z.leb_le (2 ^ 31) _)) by (unfold wrap in *; dlia). f_equal. unfold wrap in *. dlia.
  - split; [|by destruct (_ <=? _)]. destruct (Z.leb_spec 0x01000000 (u32 (addr + offset))) as [H3|H3]; intros [= <-];
      (split; [apply Hr|]); rewrite has_high_bit by apply Hr.
    + rewrite (proj2 (Z.leb_le (2 ^ 31) _)) by (unfold wrap in *; dlia).
      rewrite (proj2 (Z.leb_gt (2 ^ 31) _)) by (unfold wrap in *; dlia). cbn [negb]. f_equal. unfold wrap in *. dlia.
    + rewrite (proj2 (Z.leb_gt (2 ^ 31) (u32 (addr + offset)))) by (unfold wrap in *; dlia).
      rewrite (proj2 (Z.leb_le (2 ^ 31) _)) by (unfold wrap in *; dlia). f_equal. unfold wrap in *. dlia.
  - split; [done|]. intros _. rewrite (proj2 (Z.leb_gt (2 ^ 31) _)) by (unfold wrap in *; dlia). done.
Qed.

Lemma operand_inverse off a :
  zlen a = 4 -> bytes a -> E8.operand E8.apply_site off (E8.operand E8.encode_site off a) = a.
Proof.
  intros Ha Hb. unfold E8.operand at 2. pose proof (le_val_range a Hb) as Hr. rewrite Ha in Hr.
  assert (Hm : 0 <= off mod file_size_mask < file_size_mask) by (by apply Z.mod_pos_bound).
  assert (Hd : le32_bytes (le_val a) = a).
  { rewrite le32_bytes_digits. rewrite <- (le_digits_val a Hb) at 2. f_equal. unfold zlen in Ha. lia. }
  destruct (E8.encode_site (le_val a) (off mod file_size_mask)) as [v|] eqn:Ee; unfold E8.operand.
  - destruct (proj1 (site_inverse _ _ v Hr Hm) Ee) as [Hv Hs]. rewrite le_val_le32, Hs by done. done.
  - by rewrite (proj2 (site_inverse _ _ 0 Hr Hm) Ee).
Qed.

Lemma scan_roundtrip e9 off l :
  bytes l -> E8.scan E8.apply_site e9 off (E8.scan E8.encode_site e9 off l) = l.
Proof.
  remember (length l) as n eqn:En. revert l En off. induction n as [n IH] using lt_wf_ind.
  intros l -> off Hb. destruct l as [|c l]; [done|]. apply Forall_cons_inv in Hb as [Hc Hb].
  destruct (Z.ltb_spec (zlen l) 4) as [Hlt|Hge]; [rewrite (scan_short _ e9 off (c :: l)) by zlen_lia; apply scan_short; zlen_lia|].
  destruct (E8.is_op e9 c) eqn:Eop.
  - destruct (split_at l 0 4) as (p & a & r & -> & Hp & Ha); [lia..|]. apply zlen_zero_nil in Hp as ->. cbn [app] in *.
    apply Forall_app in Hb as [Hba Hbr]. rewrite scan_op by done.
    destruct (operand_spec E8.encode_site (off + 1) a Ha Hba) as [Ho4 _].
    rewrite scan_op, operand_inverse by done. do 2 f_equal.
    apply (IH (length r)); [cbn [length]; rewrite length_app; lia|done|done].
  - rewrite scan_skip1 by done. pose proof (proj2 (progress_start E8.encode_site e9 (off + 1) l Hb)) as Hz.
    rewrite scan_skip1 by (done || lia). f_equal. apply (IH (length l)); [cbn; lia|done|done].
Qed.

(** ** ARM: the loops refine the scan *)

Section arm.
Context (op : Z -> Z -> Z) (fo : Z).

Lemma at_site_split p b0 b1 b2 r :
  bytes [b0; b1; b2] -> 0 <= fo -> Arm.at_site op (u32 fo) (p ++ b0 :: b1 :: b2 :: r) (zlen p) =
    Ok (p ++ Arm.operand op (fo + zlen p) [b0; b1; b2] ++ r).
Proof.
  intros Hb Hfo. apply Forall_cons_inv in Hb as [H0 Hb]. apply Forall_cons_inv in Hb as [H1 Hb].
  apply Forall_cons_inv in Hb as [H2 _]. unfold is_byte in *. pose proof (zlen_nonneg p). unfold Arm.at_site.
  rewrite byte_at_split. res_simpl.
  rewrite (byte_at_view _ (zlen p + 1) b1 (b2 :: r)) by first [lia | apply (view_step _ _ [b0]); [lia|by apply view_app]]. res_simpl.
  rewrite (byte_at_view _ (zlen p + 2) b2 r) by first [lia | apply (view_step _ _ [b0; b1]); [lia|by apply view_app]]. res_simpl.
  rewrite (lor_shiftl_add 8), (lor_shiftl_add 16) by lia.
  assert (Eo : u32 (u32 fo + u32 (zlen p)) = u32 (fo + zlen p)) by (unfold wrap; by rewrite <- Zplus_mod).
  rewrite Eo. set (k := _ / 4). set (v := op _ k).
  assert (Ev : [Z.land (u32 v) 0xFF; Z.land (Z.shiftr (u32 v) 8) 0xFF; Z.land (Z.shiftr (u32 v) 16) 0xFF] = le_digits 3 v).
  { cbn [le_digits]. rewrite !land_ff_mod, !Z.shiftr_div_pow2 by lia. unfold wrap. f_equal; [dlia|]. f_equal; [dlia|]. f_equal. dlia. }
  rewrite Ev. change (p ++ b0 :: b1 :: b2 :: r) with (p ++ [b0; b1; b2] ++ r).
  rewrite store_split by (by rewrite zlen_le_digits). unfold Arm.operand.
  replace (le_val [b0; b1; b2]) with (b0 + b1 * 2 ^ 8 + b2 * 2 ^ 16) by (cbn [le_val]; lia). done.
Qed.

Definition aprogress (target data : list Z) (cur : Z) : Prop :=
  bytes data /\ zlen data = zlen target /\
  exists p l, data = p ++ l /\ cur = zlen p /\ p ++ Arm.scan op (fo + cur) l = target.

Lemma aprogress_word target p b0 b1 b2 b3 r :
  0 <= fo -> aprogress target (p ++ b0 :: b1 :: b2 :: b3 :: r) (zlen p) ->
  if b3 =? 0xEB
  then exists c0 c1 c2,
    Arm.at_site op (u32 fo) (p ++ b0 :: b1 :: b2 :: b3 :: r) (zlen p) = Ok (p ++ c0 :: c1 :: c2 :: b3 :: r) /\
    aprogress target (p ++ c0 :: c1 :: c2 :: b3 :: r) (zlen p + 4)
  else aprogress target (p ++ b0 :: b1 :: b2 :: b3 :: r) (zlen p + 4).
Proof.
  intros Hfo (Hb & Hl & p' & l & Hd & Hc & Ht).
  assert (Epl : p = p' /\ b0 :: b1 :: b2 :: b3 :: r = l).
  { apply (app_inj_1 p p'); [unfold zlen in Hc; lia|done]. }
  destruct Epl as [<- <-]. cbn [Arm.scan] in Ht. apply Forall_app in Hb as [Hbp Hb].
  apply Forall_cons_inv in Hb as [H0 Hb]. apply Forall_cons_inv in Hb as [H1 Hb]. apply Forall_cons_inv in Hb as [H2 Hb].
  apply Forall_cons_inv in Hb as [H3 Hb].
  assert (Hgo : forall c0 c1 c2, bytes [c0; c1; c2] -> p ++ [c0; c1; c2] ++ b3 :: Arm.scan op (fo + zlen p + 4) r = target ->
    aprogress target (p ++ c0 :: c1 :: c2 :: b3 :: r) (zlen p + 4)).
  { intros c0 c1 c2 Hbc Hc2. split; [|split].
    - apply Forall_app_2; [done|]. change (bytes ([c0; c1; c2] ++ b3 :: r)). apply Forall_app_2; [done|by constructor].
    - rewrite <- Hl. zlen_lia.
    - exists (p ++ [c0; c1; c2; b3]), r. rewrite <- app_assoc. split; [done|]. split; [zlen_lia|].
      rewrite <- Hc2, <- app_assoc, Z.add_assoc. done. }
  destruct (b3 =? 0xEB).
  - pose proof (le_digits_bytes 3 (op (le_val [b0; b1; b2]) (u32 (fo + zlen p) / 4))) as Hbo.
    destruct (Arm.operand op (fo + zlen p) [b0; b1; b2]) as [|c0 [|c1 [|c2 [|]]]] eqn:Eo; try done.
    exists c0, c1, c2. split.
    + rewrite at_site_split by (done || bytes_solve). by rewrite Eo.
    + apply Hgo; [|done]. unfold Arm.operand in Eo. by rewrite Eo in Hbo.
  - apply Hgo; [bytes_solve|done].
Qed.

Lemma aprogress_bounds target data cur : aprogress target data cur -> 0 <= cur <= zlen data /\ zlen data = zlen target.
Proof. intros (_ & Hl & p & l & -> & -> & _). split; [zlen_lia|done]. Qed.

Lemma ascan_short off l : zlen l < 4 -> Arm.scan op off l = l.
Proof. intros Hl. destruct l as [|b0 [|b1 [|b2 [|b3 r]]]]; try done. zlen_lia. Qed.

(** The bytes at the cursor, as many as asked for. *)
Lemma aprogress_split target data cur n :
  aprogress target data cur -> 0 <= n -> cur + n <= zlen data ->
  exists p a r, data = p ++ a ++ r /\ zlen p = cur /\ zlen a = n.
Proof. intros Hp Hn Hl. pose proof (aprogress_bounds _ _ _ Hp). apply split_at; lia. Qed.

Section loops.
Context (target : list Z).
Hypothesis Hfo : 0 <= fo < 2 ^ 64.
Hypothesis Hsmall : zlen target < 2 ^ 63.

Lemma read_le64_bytes p b0 b1 b2 b3 b4 b5 b6 b7 r :
  bytes (p ++ b0 :: b1 :: b2 :: b3 :: b4 :: b5 :: b6 :: b7 :: r) ->
  exists q, read_le64 (p ++ b0 :: b1 :: b2 :: b3 :: b4 :: b5 :: b6 :: b7 :: r) (zlen p) = Ok q /\
    u8 (Z.shiftr q 24) = b3 /\ u8 (Z.shiftr q 56) = b7.
Proof.
  intros Hb. exists (le_val [b0; b1; b2; b3; b4; b5; b6; b7]). split.
  - apply (read_le64_view _ _ _ r); [done|apply zlen_nonneg|by apply view_app|done].
  - apply Forall_app in Hb as [_ Hb]. do 8 (apply Forall_cons_inv in Hb as [? Hb]). unfold is_byte in *.
    rewrite !Z.shiftr_div_pow2 by lia. cbn [le_val]. unfold wrap. clear Hb. split; dlia.
Qed.

Lemma aswar_loop_spec fuel data cur :
  aprogress target data cur -> zlen data - cur < Z.of_nat fuel ->
  exists data' cur', Arm.swar_loop op (u32 fo) fuel data cur = Ok (data', cur') /\ aprogress target data' cur'.
Proof.
  revert data cur. induction fuel as [|fuel IH]; intros data cur Hp Hf;
    pose proof (aprogress_bounds target data cur Hp) as [Hc Hlen]; [lia|].
  cbn [Arm.swar_loop]. size_simpl. destruct (Z.ltb_spec (cur + 7) (zlen data)) as [Hlt|]; [|by exists data, cur].
  destruct (aprogress_split target data cur 8 Hp) as (p & a & r & -> & <- & Ha); [lia..|].
  destruct a as [|b0 [|b1 [|b2 [|b3 [|b4 [|b5 [|b6 [|b7 [|]]]]]]]]]; try zlen_lia. cbn [app] in *.
  destruct (read_le64_bytes p b0 b1 b2 b3 b4 b5 b6 b7 r ltac:(by destruct Hp)) as (q & -> & E3 & E7). res_simpl. rewrite E3, E7.
  pose proof (aprogress_word target p b0 b1 b2 b3 _ ltac:(lia) Hp) as Hw.
  assert (Hm : exists c0 c1 c2,
    (if b3 =? 0xEB then Arm.at_site op (u32 fo) (p ++ b0 :: b1 :: b2 :: b3 :: b4 :: b5 :: b6 :: b7 :: r) (zlen p)
     else Ok (p ++ b0 :: b1 :: b2 :: b3 :: b4 :: b5 :: b6 :: b7 :: r)) =
    Ok ((p ++ [c0; c1; c2; b3]) ++ b4 :: b5 :: b6 :: b7 :: r) /\
    aprogress target ((p ++ [c0; c1; c2; b3]) ++ b4 :: b5 :: b6 :: b7 :: r) (zlen (p ++ [c0; c1; c2; b3]))).
  { assert (Hz : forall c0 c1 c2, zlen (p ++ [c0; c1; c2; b3]) = zlen p + 4) by (intros; zlen_lia).
    destruct (b3 =? 0xEB).
    - destruct Hw as (c0 & c1 & c2 & -> & Hw). exists c0, c1, c2. rewrite Hz, <- app_assoc. done.
    - exists b0, b1, b2. rewrite Hz, <- app_assoc. done. }
  clear Hw. destruct Hm as (c0 & c1 & c2 & -> & Hp1). res_simpl.
  assert (Hz : zlen (p ++ [c0; c1; c2; b3]) = zlen p + 4) by zlen_lia.
  pose proof (aprogress_word target _ b4 b5 b6 b7 _ ltac:(lia) Hp1) as Hw. rewrite <- Hz.
  destruct (b7 =? 0xEB).
  - destruct Hw as (d0 & d1 & d2 & -> & Hw). res_simpl. replace (zlen p + 8) with (zlen (p ++ [c0; c1; c2; b3]) + 4) by lia.
    apply IH; [done|]. zlen_lia.
  - res_simpl. replace (zlen p + 8) with (zlen (p ++ [c0; c1; c2; b3]) + 4) by lia. apply IH; [done|]. zlen_lia.
Qed.

Lemma atail_loop_spec fuel data cur :
  aprogress target data cur -> zlen data - cur < Z.of_nat fuel ->
  Arm.tail_loop op (u32 fo) fuel data cur = Ok target.
Proof.
  revert data cur. induction fuel as [|fuel IH]; intros data cur Hp Hf;
    pose proof (aprogress_bounds target data cur Hp) as [Hc Hlen]; [lia|].
  cbn [Arm.tail_loop]. size_simpl. destruct (Z.ltb_spec (cur + 3) (zlen data)) as [Hlt|].
  - destruct (aprogress_split target data cur 4 Hp) as (p & a & r & -> & <- & Ha); [lia..|].
    destruct a as [|b0 [|b1 [|b2 [|b3 [|]]]]]; try zlen_lia. cbn [app] in *.
    assert (Hb3 : byte_at (p ++ b0 :: b1 :: b2 :: b3 :: r) (zlen p + 3) = Ok b3).
    { apply (byte_at_view _ _ b3 r); [lia|]. apply (view_step _ _ [b0; b1; b2]); [lia|by apply view_app]. }
    rewrite Hb3. res_simpl. pose proof (aprogress_word target p b0 b1 b2 b3 r ltac:(lia) Hp) as Hw.
    destruct (b3 =? 0xEB); [destruct Hw as (c0 & c1 & c2 & -> & Hw)|]; res_simpl; (apply IH; [done|zlen_lia]).
  - destruct Hp as (_ & _ & p & l & -> & -> & Ht). rewrite ascan_short in Ht by zlen_lia. by rewrite Ht.
Qed.

(** Four lanes of the sixteen count. *)
Lemma arm_mask e0 e1 e2 e3 e4 e5 e6 e7 e8 e9 e10 e11 e12 e13 e14 e15 :
  let mask := Z.land (movemask [e0; e1; e2; e3; e4; e5; e6; e7; e8; e9; e10; e11; e12; e13; e14; e15]) 0x1111 in
  (mask =? 0) = negb (e0 || e4 || e8 || e12) /\
  (e0 || e4 || e8 || e12 = true -> ctz 16 mask = if e0 then 0 else if e4 then 4 else if e8 then 8 else 12).
Proof.
  assert (Hl : forall b a k, Z.land (Z.b2z b + 2 * a) (Z.b2z k.1 + 2 * k.2) = Z.b2z (b && k.1) + 2 * Z.land a k.2).
  { intros b a [k1 k2]. cbn [fst snd]. apply Z.bits_inj'. intros i Hi. rewrite Z.land_spec.
    destruct (Z.eq_dec i 0) as [->|].
    - rewrite !(Z.add_comm (Z.b2z _)), !Z.testbit_0_r. done.
    - replace i with (Z.succ (Z.pred i)) by lia. rewrite !(Z.add_comm (Z.b2z _)), !Z.testbit_succ_r by lia. by rewrite Z.land_spec. }
  assert (Hm : forall b l, movemask (b :: l) = Z.b2z b + 2 * movemask l) by (by intros [|] l).
  cbv zeta.
  assert (E : Z.land (movemask [e0; e1; e2; e3; e4; e5; e6; e7; e8; e9; e10; e11; e12; e13; e14; e15]) 0x1111 =
    movemask [e0; false; false; false; e4; false; false; false; e8; false; false; false; e12; false; false; false]).
  { change 0x1111 with (movemask [true; false; false; false; true; false; false; false; true; false; false; false; true; false; false; false]).
    assert (Hb : forall a b, length a = length b -> Z.land (movemask a) (movemask b) = movemask (zip_with andb a b)).
    { induction a as [|x a IHa]; intros [|y b] Hab; try done. rewrite !Hm. rewrite (Hl x _ (y, movemask b)).
      cbn [fst snd zip_with]. rewrite Hm, IHa by (cbn in Hab; lia). done. }
    rewrite Hb by done. cbn [zip_with]. by rewrite !andb_true_r, !andb_false_r. }
  rewrite E. destruct e0, e4, e8, e12; vm_compute; done.
Qed.
Lemma asse2_loop_spec fuel data cur :
  aprogress target data cur -> zlen data - cur < Z.of_nat fuel ->
  exists data' cur', Arm.sse2_loop op (u32 fo) fuel data cur = Ok (data', cur') /\ aprogress target data' cur'.
Proof.
  revert data cur. induction fuel as [|fuel IH]; intros data cur Hp Hf;
    pose proof (aprogress_bounds target data cur Hp) as [Hc Hlen]; [lia|].
  cbn [Arm.sse2_loop]. size_simpl. destruct (Z.ltb_spec (cur + 18) (zlen data)) as [Hlt|]; [|by exists data, cur].
  destruct (aprogress_split target data cur 19 Hp) as (p & a & r & -> & <- & Ha); [lia..|].
  destruct a as [|w0 [|w1 [|w2 [|x0 [|x1 [|x2 [|x3 [|x4 [|x5 [|x6 [|x7 [|x8 [|x9 [|x10 [|x11 [|x12 [|x13 [|x14 [|x15 [|]]]]]]]]]]]]]]]]]]]];
    try zlen_lia. clear Ha. cbn [app] in *.
  assert (Hv : view (p ++ w0 :: w1 :: w2 :: x0 :: x1 :: x2 :: x3 :: x4 :: x5 :: x6 :: x7 :: x8 :: x9 :: x10 :: x11 :: x12 :: x13 :: x14 :: x15 :: r)
    (zlen p + 3) = [x0; x1; x2; x3; x4; x5; x6; x7; x8; x9; x10; x11; x12; x13; x14; x15] ++ r).
  { apply (view_step _ _ [w0; w1; w2]); [lia|by apply view_app]. }
  apply slice_view in Hv; [|zlen_lia].
  change (zlen [x0; x1; x2; x3; x4; x5; x6; x7; x8; x9; x10; x11; x12; x13; x14; x15]) with 16 in Hv.
  rewrite Hv. clear Hv. res_simpl. cbn [map].
  destruct (arm_mask (x0 =? 0xEB) (x1 =? 0xEB) (x2 =? 0xEB) (x3 =? 0xEB) (x4 =? 0xEB) (x5 =? 0xEB) (x6 =? 0xEB) (x7 =? 0xEB)
    (x8 =? 0xEB) (x9 =? 0xEB) (x10 =? 0xEB) (x11 =? 0xEB) (x12 =? 0xEB) (x13 =? 0xEB) (x14 =? 0xEB) (x15 =? 0xEB)) as [Hm Hctz].
  set (mask := Z.land _ _) in *. clearbody mask. rewrite Hm. clear Hm.
  (* The site at the first matching word, or the next word. *)
  assert (Hsite : forall p' b0 b1 b2 b3 r', aprogress target (p' ++ b0 :: b1 :: b2 :: b3 :: r') (zlen p') ->
    (b3 =? 0xEB) = true -> zlen p <= zlen p' ->
    exists data' cur', (data ← Arm.at_site op (u32 fo) (p' ++ b0 :: b1 :: b2 :: b3 :: r') (zlen p');
      Arm.sse2_loop op (u32 fo) fuel data (zlen p' + 4)) = Ok (data', cur') /\ aprogress target data' cur').
  { intros p' b0 b1 b2 b3 r' Hp' Eb Hpp. pose proof (aprogress_word target p' b0 b1 b2 b3 r' ltac:(lia) Hp') as Hw.
    rewrite Eb in Hw. destruct Hw as (c0 & c1 & c2 & -> & Hw). res_simpl.
    pose proof (aprogress_bounds _ _ _ Hw) as [_ Hlw]. apply IH; [done|]. lia. }
  assert (Hskip : forall p' b0 b1 b2 b3 r', (b3 =? 0xEB) = false ->
    aprogress target (p' ++ b0 :: b1 :: b2 :: b3 :: r') (zlen p') ->
    aprogress target ((p' ++ [b0; b1; b2; b3]) ++ r') (zlen (p' ++ [b0; b1; b2; b3]))).
  { intros p' b0 b1 b2 b3 r' Eb Hp'. pose proof (aprogress_word target p' b0 b1 b2 b3 r' ltac:(lia) Hp') as Hw.
    rewrite Eb in Hw. rewrite <- app_assoc. replace (zlen (p' ++ [b0; b1; b2; b3])) with (zlen p' + 4) by zlen_lia. done. }
  assert (Hz : forall (p' : list Z) b0 b1 b2 b3, zlen (p' ++ [b0; b1; b2; b3]) = zlen p' + 4) by (intros; zlen_lia).
  destruct (x0 =? 0xEB) eqn:E0.
  { cbn [orb negb] in *. rewrite Hctz, Z.add_0_r by done. apply Hsite; [done|done|lia]. }
  apply Hskip in Hp; [|done]. destruct (x4 =? 0xEB) eqn:E4.
  { cbn [orb negb] in *. rewrite Hctz by done.
    specialize (Hsite _ _ _ _ _ _ Hp E4). specialize (Hsite ltac:(rewrite !Hz; lia)). rewrite Hz, <- app_assoc in Hsite. exact Hsite. }
  apply Hskip in Hp; [|done]. destruct (x8 =? 0xEB) eqn:E8.
  { cbn [orb negb] in *. rewrite Hctz by done.
    specialize (Hsite _ _ _ _ _ _ Hp E8). specialize (Hsite ltac:(rewrite !Hz; lia)). rewrite !Hz, <- !app_assoc, <- !Z.add_assoc in Hsite.
    rewrite <- Z.add_assoc. exact Hsite. }
  apply Hskip in Hp; [|done]. destruct (x12 =? 0xEB) eqn:E12.
  { cbn [orb negb] in *. rewrite Hctz by done.
    specialize (Hsite _ _ _ _ _ _ Hp E12). specialize (Hsite ltac:(rewrite !Hz; lia)). rewrite !Hz, <- !app_assoc, <- !Z.add_assoc in Hsite.
    rewrite <- Z.add_assoc. exact Hsite. }
  apply Hskip in Hp; [|done]. cbn [orb negb]. rewrite !Hz, <- !app_assoc, <- !Z.add_assoc in Hp. apply IH; [exact Hp|].
  lia.
Qed.
End loops.
End arm.

Lemma ascan_ok op l off : zlen (Arm.scan op off l) = zlen l /\ (bytes l -> bytes (Arm.scan op off l)).
Proof.
  remember (length l) as n eqn:En. revert l En off. induction n as [n IH] using lt_wf_ind. intros l -> off.
  destruct l as [|b0 [|b1 [|b2 [|b3 r]]]]; try done. cbn [Arm.scan]. rewrite zlen_app, zlen_cons.
  destruct (IH (length r)) with (l := r) (off := off + 4) as [-> Hr]; [cbn; lia|done|]. split.
  - replace (zlen (if b3 =? 0xEB then _ else _)) with 3; [zlen_lia|].
    destruct (b3 =? 0xEB); [|done]. unfold Arm.operand. by rewrite zlen_le_digits.
  - intros Hb. change (bytes ([b0; b1; b2] ++ b3 :: r)) in Hb. apply Forall_app in Hb as [? [? ?]%Forall_cons_inv].
    apply Forall_app_2; [|constructor; auto]. destruct (b3 =? 0xEB); [apply le_digits_bytes|done].
Qed.

Lemma ascan_zlen op l off : zlen (Arm.scan op off l) = zlen l.
Proof. apply ascan_ok. Qed.

Lemma aprogress_start op fo data : bytes data -> aprogress op fo (Arm.scan op fo data) data 0.
Proof. intros Hb. split; [done|]. split; [by rewrite ascan_zlen|]. exists [], data. by rewrite Z.add_0_r. Qed.

Lemma arm_scalar_spec op fo data :
  bytes data -> zlen data < 2 ^ 63 -> 0 <= fo < 2 ^ 64 ->
  Arm.run_scalar op data fo = Ok (Arm.scan op fo data).
Proof.
  intros Hb Hl Hfo. pose proof (aprogress_start op fo data Hb) as Hp. pose proof (ascan_zlen op data fo) as Hz.
  unfold Arm.run_scalar. cbv zeta.
  destruct (aswar_loop_spec op fo (Arm.scan op fo data) Hfo ltac:(lia) (S (length data)) data 0 Hp) as (d & c & -> & Hp');
    [unfold zlen; lia|].
  res_simpl. cbv beta iota. destruct (aprogress_bounds op fo _ d c Hp') as [Hc Hlen].
  apply atail_loop_spec; [done|lia|done|]. unfold zlen in *. lia.
Qed.

Lemma ascan_mod op l off off' : u32 off = u32 off' -> Arm.scan op off l = Arm.scan op off' l.
Proof.
  remember (length l) as n eqn:En. revert l En off off'. induction n as [n IH] using lt_wf_ind. intros l -> off off' Hm.
  destruct l as [|b0 [|b1 [|b2 [|b3 r]]]]; try done. cbn [Arm.scan]. unfold Arm.operand. rewrite Hm. do 2 f_equal.
  apply (IH (length r)); [cbn; lia|done|]. unfold wrap in *.
  rewrite <- (Z.add_mod_idemp_l off), <- (Z.add_mod_idemp_l off') by done. by rewrite Hm.
Qed.

Lemma arm_sse2_spec op fo data :
  bytes data -> zlen data < 2 ^ 63 -> 0 <= fo < 2 ^ 64 ->
  Arm.run_sse2 op data fo = Ok (Arm.scan op fo data).
Proof.
  intros Hb Hl Hfo. pose proof (aprogress_start op fo data Hb) as Hp. pose proof (ascan_zlen op data fo) as Hz.
  unfold Arm.run_sse2.
  destruct (asse2_loop_spec op fo (Arm.scan op fo data) Hfo ltac:(lia) (S (length data)) data 0 Hp) as (d & c & -> & Hp');
    [unfold zlen; lia|].
  res_simpl. cbv beta iota. destruct Hp' as (Hbd & Hld & p & l & -> & -> & Ht). rewrite view_app by done.
  assert (Hll : zlen l < 2 ^ 63) by zlen_lia. apply Forall_app in Hbd as [_ Hbl].
  rewrite arm_scalar_spec; [|done|done|apply (wrap_range 64); lia]. res_simpl.
  rewrite (ascan_mod op l _ (fo + zlen p)) by (unfold wrap; dlia).
  unfold zlen at 1. rewrite Nat2Z.id, take_app_length, Ht. done.
Qed.

Lemma arm_operand_inverse off a :
  bytes a -> length a = 3%nat -> Arm.operand Z.sub off (Arm.operand Z.add off a) = a.
Proof.
  intros Hb Ha. unfold Arm.operand. rewrite le_val_digits. set (k := u32 off / 4).
  rewrite <- (le_digits_val a Hb) at 2. rewrite Ha. rewrite <- le_digits_mod, <- (le_digits_mod 3 (le_val a)). f_equal.
  change (256 ^ Z.of_nat 3) with 16777216. dlia.
Qed.

Lemma ascan_roundtrip off l : bytes l -> Arm.scan Z.sub off (Arm.scan Z.add off l) = l.
Proof.
  remember (length l) as n eqn:En. revert l En off. induction n as [n IH] using lt_wf_ind. intros l -> off Hb.
  destruct l as [|b0 [|b1 [|b2 [|b3 r]]]]; try done. cbn [Arm.scan].
  assert (Hb3 : bytes [b0; b1; b2] /\ bytes r).
  { change (bytes ([b0; b1; b2] ++ b3 :: r)) in Hb. apply Forall_app in Hb as [? Hb]. by apply Forall_cons_inv in Hb as [_ ?]. }
  assert (Hr : Arm.scan Z.sub (off + 4) (Arm.scan Z.add (off + 4) r) = r) by (apply (IH (length r)); [cbn; lia|done|by destruct Hb3]).
  destruct (b3 =? 0xEB) eqn:E3.
  - pose proof (arm_operand_inverse off [b0; b1; b2] ltac:(by destruct Hb3) eq_refl) as Hi.
    assert (Hl3 : zlen (Arm.operand Z.add off [b0; b1; b2]) = 3) by (unfold Arm.operand; by rewrite zlen_le_digits).
    destruct (Arm.operand Z.add off [b0; b1; b2]) as [|c0 [|c1 [|c2 [|]]]]; try zlen_lia.
    cbn [app Arm.scan]. rewrite E3, Hi, Hr. done.
  - cbn [app Arm.scan]. by rewrite E3, Hr.
Qed.

(** ** Properties *)

(** C23. The filter loops refine their reference: in either direction, for
    every buffer and file offset, the scalar code (eight bytes at a time
    behind a bit trick, then bytewise) and the SSE2 code (sixteen bytes at a
    time, then the scalar code on the rest) stay inside the buffer, terminate,
    and produce exactly the one-pass scan. *)
Theorem branch_filters_refine (data : list Z) (file_offset : Z) (include_e9 : bool) :
  bytes data -> zlen data < 2 ^ 63 -> 0 <= file_offset < 2 ^ 64 ->
  (E8.apply_e8_scalar data file_offset include_e9 = Ok (E8.scan E8.apply_site include_e9 file_offset data) /\
   E8.apply_e8 data file_offset include_e9 = Ok (E8.scan E8.apply_site include_e9 file_offset data) /\
   E8.encode_e8_scalar data file_offset include_e9 = Ok (E8.scan E8.encode_site include_e9 file_offset data) /\
   E8.encode_e8 data file_offset include_e9 = Ok (E8.scan E8.encode_site include_e9 file_offset data)) /\
  (Arm.apply_arm_scalar data file_offset = Ok (Arm.scan Z.sub file_offset data) /\
   Arm.apply_arm data file_offset = Ok (Arm.scan Z.sub file_offset data) /\
   Arm.encode_arm_scalar data file_offset = Ok (Arm.scan Z.add file_offset data) /\
   Arm.encode_arm data file_offset = Ok (Arm.scan Z.add file_offset data)).
Proof.
  intros Hb Hl Hfo. split; (split; [|split; [|split]]);
    first [by apply run_scalar_spec | by apply run_sse2_spec | by apply arm_scalar_spec | by apply arm_sse2_spec].
Qed.

Lemma branch_filters_refine_witness :
  let data := [0x90; 0xE8; 0; 1; 0; 0; 0xE9; 0xEB; 0x10; 0x20; 0x30; 0xEB; 0xE8; 0xFF; 0xFF; 0xFF; 0xFF; 0xC3; 0; 0; 0; 0] in
  bytes data /\ E8.apply_e8 data 64 true = Ok (E8.scan E8.apply_site true 64 data) /\
  Arm.encode_arm data 64 = Ok (Arm.scan Z.add 64 data).
Proof.
  cbv zeta. assert (Hb : bytes [0x90; 0xE8; 0; 1; 0; 0; 0xE9; 0xEB; 0x10; 0x20; 0x30; 0xEB; 0xE8; 0xFF; 0xFF; 0xFF; 0xFF; 0xC3; 0; 0; 0; 0])
    by bytes_const.
  pose proof (branch_filters_refine _ 64 true Hb ltac:(vm_compute; reflexivity) ltac:(lia)) as [He Ha].
  split; [exact Hb|]. split; [exact (proj1 (proj2 He))|exact (proj2 (proj2 (proj2 Ha)))].
Defined.

(** C24. The decoder undoes the encoder: translating branch targets to
    absolute form and back, at any file offset (the 16 MB cycle and the 32-bit
    wrap included), is the identity on every buffer; the length never changes. *)
Theorem branch_filters_roundtrip (data : list Z) (file_offset : Z) (include_e9 : bool) :
  bytes data -> zlen data < 2 ^ 63 -> 0 <= file_offset < 2 ^ 64 ->
  (exists enc, E8.encode_e8 data file_offset include_e9 = Ok enc /\ zlen enc = zlen data /\
    E8.apply_e8 enc file_offset include_e9 = Ok data) /\
  (exists enc, Arm.encode_arm data file_offset = Ok enc /\ zlen enc = zlen data /\
    Arm.apply_arm enc file_offset = Ok data).
Proof.
  intros Hb Hl Hfo. split.
  - destruct (scan_ok E8.encode_site include_e9 file_offset data Hb) as [Hz Hs].
    eexists. split; [by apply run_sse2_spec|]. split; [done|].
    unfold E8.apply_e8. rewrite run_sse2_spec by (done || lia). by rewrite scan_roundtrip.
  - destruct (ascan_ok Z.add data file_offset) as [Hz Hs].
    eexists. split; [by apply arm_sse2_spec|]. split; [done|].
    unfold Arm.apply_arm. rewrite arm_sse2_spec by (auto || lia). by rewrite ascan_roundtrip.
Qed.

Lemma branch_filters_roundtrip_witness :
  let data := [0x90; 0xE8; 0; 1; 0; 0; 0xE9; 0xEB; 0x10; 0x20; 0x30; 0xEB; 0xE8; 0xFF; 0xFF; 0xFF; 0xFF; 0xC3; 0; 0; 0; 0] in
  exists enc, E8.encode_e8 data 64 true = Ok enc /\ enc <> data /\ E8.apply_e8 enc 64 true = Ok data.
Proof.
  cbv zeta. assert (Hb : bytes [0x90; 0xE8; 0; 1; 0; 0; 0xE9; 0xEB; 0x10; 0x20; 0x30; 0xEB; 0xE8; 0xFF; 0xFF; 0xFF; 0xFF; 0xC3; 0; 0; 0; 0])
    by bytes_const.
  pose proof (branch_filters_roundtrip _ 64 true Hb ltac:(vm_compute; reflexivity) ltac:(lia)) as [(enc & He & _ & Ha) _].
  exists enc. split; [exact He|]. split; [|exact Ha]. intros ->. vm_compute in He. discriminate He.
Defined.

(** ** Detection *)

Lemma bytes_are_ok data off s : 0 <= off -> off + zlen s <= zlen data -> exists b, bytes_are data off s = Ok b.
Proof.
  intros Ho Hl. unfold bytes_are, slice. rewrite !(proj2 (Z.leb_le _ _)) by zlen_lia. by eexists.
Qed.

Lemma read_le16_ok data off : bytes data -> 0 <= off -> off + 2 <= zlen data -> exists v, read_le16 data off = Ok v /\ 0 <= v < 2 ^ 16.
Proof.
  intros Hb Ho Hl. destruct (split_at data off 2) as (p & a & r & -> & <- & Ha); [lia..|].
  exists (le_val a). split; [apply (read_le16_view _ _ a r); [done|lia|by apply view_app|done]|].
  apply Forall_app in Hb as [_ Hb]. apply Forall_app in Hb as [Hb _]. pose proof (le_val_range a Hb) as Hr. by rewrite Ha in Hr.
Qed.

Lemma read_le32_ok data off : bytes data -> 0 <= off -> off + 4 <= zlen data -> exists v, read_le32 data off = Ok v /\ 0 <= v < 2 ^ 32.
Proof.
  intros Hb Ho Hl. destruct (split_at data off 4) as (p & a & r & -> & <- & Ha); [lia..|].
  exists (le_val a). split; [by apply read_le32_split|].
  apply Forall_app in Hb as [_ Hb]. apply Forall_app in Hb as [Hb _]. pose proof (le_val_range a Hb) as Hr. by rewrite Ha in Hr.
Qed.

Section detect.
Context (data : list Z) (config : FilterConfig).
Hypothesis data_bytes : bytes data.
Hypothesis data_size : 64 <= zlen data < 2 ^ 63.

(** A stage returns a filter only if its override allows it. *)
Definition stage_ok (r : res (option FilterType)) : Prop :=
  exists o, r = Ok o /\ forall t, o = Some t -> (t = E8_ /\ 0 <= e8_override config) \/ (t = Arm_ /\ 0 <= arm_override config).

Lemma stage_none : stage_ok (mret None).
Proof. by exists None. Qed.

Lemma stage_e8 : 0 <= e8_override config -> stage_ok (mret (Some E8_)).
Proof. intros H. exists (Some E8_). split; [done|]. intros t [= <-]. by left. Qed.

Lemma stage_arm : 0 <= arm_override config -> stage_ok (mret (Some Arm_)).
Proof. intros H. exists (Some Arm_). split; [done|]. intros t [= <-]. by right. Qed.

Hint Resolve stage_none stage_e8 stage_arm : orar.

Lemma stage_next a b : stage_ok a -> stage_ok b -> stage_ok (or_next a b).
Proof. intros (o & -> & Ho) Hb. unfold or_next. res_simpl. destruct o as [t|]; [|done]. by exists (Some t). Qed.

Lemma allowed_guard x (b : bool) : (x >=? 0) && b = true -> 0 <= x /\ b = true.
Proof. rewrite andb_true_iff, Z.geb_leb, Z.leb_le. done. Qed.

Lemma detect_pe_ok : stage_ok (detect_pe data config).
Proof.
  unfold detect_pe. destruct (Z.geb_spec (e8_override config) 0) as [He|]; [|apply stage_none].
  destruct (bytes_are_ok data 0 (str "MZ")) as (mz & ->); [lia|assert (zlen (str "MZ") = 2) as -> by reflexivity; lia|]. res_simpl.
  destruct (Z.geb_spec (zlen data) 128); [|rewrite andb_false_r; apply stage_none].
  destruct mz; [|apply stage_none]. cbn [andb].
  destruct (read_le32_ok data 0x3C) as (pe & -> & Hpe); [done|lia..|]. res_simpl. rewrite wrap_small by lia.
  destruct (Z.ltb_spec (pe + 6) (zlen data)); [|apply stage_none].
  destruct (bytes_are_ok data pe [80; 69; 0; 0]) as (b & ->); [lia|zlen_lia|]. res_simpl.
  destruct b; [|apply stage_none]. destruct (read_le16_ok data (pe + 4)) as (m & -> & _); [done|lia..|]. res_simpl.
  destruct (_ && _) eqn:Ea; [apply allowed_guard in Ea as [Ha _]; by apply stage_arm|by apply stage_e8].
Qed.

(** The two machine tests of ELF and Mach-O. *)
Lemma machine_ok x y :
  stage_ok (if (e8_override config >=? 0) && x then mret (Some E8_)
            else if (arm_override config >=? 0) && y then mret (Some Arm_) else mret None).
Proof.
  destruct ((e8_override config >=? 0) && x) eqn:E; [apply allowed_guard in E as [? _]; by apply stage_e8|].
  destruct ((arm_override config >=? 0) && y) eqn:E2; [apply allowed_guard in E2 as [? _]; by apply stage_arm|apply stage_none].
Qed.

Lemma detect_elf_ok : stage_ok (detect_elf data config).
Proof.
  unfold detect_elf. rewrite Z.geb_leb, (proj2 (Z.leb_le _ _)) by lia.
  destruct (bytes_are_ok data 0 [0x7F; 69; 76; 70]) as (b & ->); [lia|zlen_lia|]. res_simpl.
  destruct b; [|apply stage_none]. destruct (read_le16_ok data 0x12) as (m & -> & _); [done|lia..|]. apply machine_ok.
Qed.

Lemma detect_macho_ok : stage_ok (detect_macho data config).
Proof.
  unfold detect_macho. rewrite Z.geb_leb, (proj2 (Z.leb_le _ _)) by lia.
  destruct (read_le32_ok data 0) as (m & -> & _); [done|lia..|]. res_simpl. destruct (_ || _); [|apply stage_none].
  destruct (read_le32_ok data 4) as (c & -> & _); [done|lia..|]. apply machine_ok.
Qed.

Lemma index_of_range b l k : index_of b l = Some k -> 0 <= k < zlen l.
Proof.
  revert k. induction l as [|c l IH]; intros k; [done|]. cbn [index_of]. destruct (c =? b).
  - intros [= <-]. zlen_lia.
  - destruct (index_of b l) as [j|]; [|done]. intros [= <-]. specialize (IH j eq_refl). zlen_lia.
Qed.

Lemma call_loop_ok fuel i limit n :
  0 <= i -> limit + 4 <= zlen data -> Z.max 0 (limit - i) < Z.of_nat fuel -> exists b, call_loop fuel data i limit n = Ok b.
Proof.
  revert i n. induction fuel as [|fuel IH]; intros i n Hi Hl Hf; [lia|]. cbn [call_loop].
  destruct (Z.ltb_spec i limit); [|by eexists].
  assert (Hs : exists l, slice data i (limit - i) = Ok l /\ zlen l = limit - i).
  { unfold slice. rewrite !(proj2 (Z.leb_le _ _)) by lia. eexists. split; [done|]. apply zlen_take. rewrite zlen_drop; lia. }
  destruct Hs as (w & -> & Hw). res_simpl. destruct (index_of 0xE8 w) as [k|] eqn:Ek; [|by eexists].
  apply index_of_range in Ek. destruct (read_le32_ok data (i + k + 1)) as (a & -> & _); [done|lia..|]. res_simpl.
  destruct (_ || _); [destruct (_ >=? _); [by eexists|]|]; apply IH; lia.
Qed.

Lemma arm_loop_ok fuel i len n :
  0 <= i -> len <= zlen data -> Z.max 0 (len - i) < Z.of_nat fuel -> exists c, arm_loop fuel data i len n = Ok c.
Proof.
  revert i n. induction fuel as [|fuel IH]; intros i n Hi Hl Hf; [lia|]. cbn [arm_loop].
  destruct (Z.ltb_spec (i + 3) len); [|by eexists].
  destruct (read_le32_ok data i) as (a & Ea & _); [done|lia..|].
  assert (Hb : exists b, byte_at data (i + 3) = Ok b).
  { unfold read_le32 in Ea. destruct (byte_at data i), (byte_at data (i + 1)), (byte_at data (i + 2)), (byte_at data (i + 3)); try done. by eexists. }
  destruct Hb as (b & ->). rewrite Ea. res_simpl. destruct (b =? 0xEB); apply IH; lia.
Qed.

Lemma density_ok : stage_ok (call_density data config) /\ stage_ok (arm_density data config).
Proof.
  unfold call_density, arm_density, scan_window. split.
  - destruct (_ && _) eqn:E; [|apply stage_none]. apply allowed_guard in E as [He Hl].
    rewrite Z.geb_leb in Hl. apply Z.leb_le in Hl.
    destruct (call_loop_ok (S (Z.to_nat (Z.min (zlen data) 65536))) 0 (Z.min (zlen data) 65536 - 4) 0) as (b & ->); [lia..|].
    res_simpl. destruct b; [by apply stage_e8|apply stage_none].
  - destruct (_ && _) eqn:E; [|apply stage_none]. apply allowed_guard in E as [He Hl].
    rewrite Z.geb_leb in Hl. apply Z.leb_le in Hl.
    destruct (arm_loop_ok (S (Z.to_nat (Z.min (zlen data) 65536))) 0 (Z.min (zlen data) 65536) 0) as (b & ->); [lia..|].
    res_simpl. destruct (_ && _); [by apply stage_arm|apply stage_none].
Qed.

Lemma wav_channels_ok :
  exists o, wav_channels data config = Ok o /\ forall n, o = Some n -> 1 <= n <= 32 /\ 0 <= delta_override config.
Proof.
  unfold wav_channels. destruct (_ && _) eqn:E; [|by exists None]. apply allowed_guard in E as [Hd _].
  destruct (bytes_are_ok data 0 (str "RIFF")) as (b & ->); [lia|assert (zlen (str "RIFF") = 4) as -> by reflexivity; lia|]. res_simpl.
  destruct b; [|by exists None].
  destruct (bytes_are_ok data 8 (str "WAVEfmt ")) as (b & ->); [lia|assert (zlen (str "WAVEfmt ") = 8) as -> by reflexivity; lia|]. res_simpl.
  destruct b; [|by exists None].
  destruct (read_le16_ok data 22) as (ch & -> & Hc); [done|lia..|]. res_simpl.
  destruct (read_le16_ok data 34) as (bps & -> & Hp); [done|lia..|]. res_simpl.
  eexists. split; [done|]. intros n. rewrite Z.geb_leb. destruct (_ && _) eqn:E; [|done]. intros [= <-].
  apply andb_true_iff in E as [[_ E1%Z.leb_le]%andb_true_iff E2%Z.leb_le]. rewrite wrap_small by lia. lia.
Qed.
End detect.

(** C37. Detection is memory-safe and respects the configuration: on every
    buffer, however its headers lie about offsets, it returns; disabled means
    no filter; a filter whose override is negative is never chosen unless
    another override forces it; the channel count of an automatic choice is
    between 1 and 32, so [apply_delta] accepts it.  A forced Delta filter takes
    the configured count (two when none is), which is accepted when it is at
    most 32, as the command line ensures; a larger one is passed through. *)
Theorem detect_filter_safe (data : list Z) (config : FilterConfig) :
  bytes data -> zlen data < 2 ^ 63 -> 0 <= delta_channels config < 256 ->
  exists t channels, detect_filter data config = Ok (t, channels) /\
    (fc_mode config = DisableAll -> t = None_) /\
    (e8_override config < 0 -> t <> E8_) /\ (arm_override config < 0 -> t <> Arm_) /\
    (delta_override config < 0 -> t <> Delta) /\ t <> E8E9 /\
    (delta_override config <= 0 -> 1 <= channels <= 32) /\
    (fc_mode config <> DisableAll -> e8_override config <= 0 -> arm_override config <= 0 -> 0 < delta_override config ->
       t = Delta /\ channels = (if 0 <? delta_channels config then delta_channels config else 2)) /\
    (delta_channels config <= 32 -> 1 <= channels <= 32) /\ 1 <= channels < 256.
Proof.
  intros Hb Hl Hd. unfold detect_filter. destruct (fc_mode config) eqn:Em; [|eexists _, _; split; [done|]; repeat split; try done; lia].
  destruct (Z.gtb_spec (e8_override config) 0); [eexists _, _; split; [done|]; repeat split; try done; lia|].
  destruct (Z.gtb_spec (arm_override config) 0); [eexists _, _; split; [done|]; repeat split; try done; lia|].
  destruct (Z.gtb_spec (delta_override config) 0).
  { eexists _, _. split; [done|]. rewrite Z.gtb_ltb. destruct (Z.ltb_spec 0 (delta_channels config)); repeat split; try done; lia. }
  destruct (Z.ltb_spec (zlen data) 64); [eexists _, _; split; [done|]; repeat split; try done; lia|].
  assert (Hs : 64 <= zlen data < 2 ^ 63) by lia. pose proof (density_ok data config Hb) as [Hd1 Hd2].
  pose proof (stage_next config _ _ (detect_pe_ok data config Hb Hs) (stage_next config _ _ (detect_elf_ok data config Hb Hs)
    (stage_next config _ _ (detect_macho_ok data config Hb Hs) (stage_next config _ _ Hd1 Hd2)))) as (o & -> & Ho).
  res_simpl. destruct o as [t|].
  - exists t, 1. split; [done|]. destruct (Ho t eq_refl) as [[-> He]|[-> Ha]]; repeat split; try done; lia.
  - destruct (wav_channels_ok data config Hb Hs) as (w & -> & Hw). res_simpl. destruct w as [n|].
    + destruct (Hw n eq_refl) as [Hn Hdo]. exists Delta, n. split; [done|]. repeat split; try done; lia.
    + exists None_, 1. split; [done|]. repeat split; try done; lia.
Qed.

Lemma detect_filter_safe_witness :
  exists t channels,
    detect_filter (str "MZ" ++ replicate 58 0 ++ [0xFF; 0xFF; 0xFF; 0xFF] ++ replicate 100 0) FilterConfig_default = Ok (t, channels) /\
    1 <= channels <= 32.
Proof.
  destruct (detect_filter_safe (str "MZ" ++ replicate 58 0 ++ [0xFF; 0xFF; 0xFF; 0xFF] ++ replicate 100 0) FilterConfig_default)
    as (t & ch & E & _ & _ & _ & _ & _ & Hc & _ & _).
  - bytes_const.
  - vm_compute. reflexivity.
  - vm_compute. split; congruence.
  - exists t, ch. split; [exact E|]. apply Hc. vm_compute. congruence.
Defined.
