(* ===== verification/Simd.v ===== *)
(** The SSE vector operations the x86 kernels of [src/compress/filters50.cpp]
    and [src/recovery/rs16.cpp] use, on vectors that are lists of sixteen
    bytes. *)

From Stdlib Require Import ZArith Lia.
From stdpp Require Import base tactics list numbers.
From S2P Require Import Prelude Bytes.

Local Open Scope Z_scope.

Definition v_zero : list Z := replicate 16 0.
Definition v_add (a b : list Z) : list Z := zip_with (fun x y => u8 (x + y)) a b.
Definition v_sub (a b : list Z) : list Z := zip_with (fun x y => u8 (x - y)) a b.
Definition v_or (a b : list Z) : list Z := zip_with Z.lor a b.

(** [_mm_slli_si128] and [_mm_srli_si128]: byte shifts. *)
Definition v_slli (a : list Z) (n : nat) : list Z := take 16 (replicate n 0 ++ a).
Definition v_srli (a : list Z) (n : nat) : list Z := drop n a ++ replicate n 0.

Fixpoint interleave (n : nat) (a b : list Z) : list Z :=
  match n with
  | O => []
  | S n' => take 1 a ++ take 1 b ++ interleave n' (drop 1 a) (drop 1 b)
  end.

Fixpoint interleave16 (n : nat) (a b : list Z) : list Z :=
  match n with
  | O => []
  | S n' => take 2 a ++ take 2 b ++ interleave16 n' (drop 2 a) (drop 2 b)
  end.

Definition unpacklo_epi8 (a b : list Z) : list Z := interleave 8 a b.
Definition unpackhi_epi8 (a b : list Z) : list Z := interleave 8 (drop 8 a) (drop 8 b).
Definition unpacklo_epi16 (a b : list Z) : list Z := interleave16 4 a b.
Definition unpackhi_epi16 (a b : list Z) : list Z := interleave16 4 (drop 8 a) (drop 8 b).

(** [_mm_xor_si128], [_mm_and_si128], [_mm_set1_epi8]. *)
Definition v_xor (a b : list Z) : list Z := zip_with Z.lxor a b.
Definition v_and (a b : list Z) : list Z := zip_with Z.land a b.
Definition v_set1 (x : Z) : list Z := replicate 16 x.

(** [_mm_shuffle_epi8]: a byte of the index vector with its top bit set gives
    zero, another selects by its low four bits. *)
Definition shuffle_epi8 (a idx : list Z) : list Z :=
  map (fun i => if Z.land i 0x80 =? 0 then nthZ a (Z.land i 15) else 0) idx.

(** [_mm_unpacklo_epi64] and [_mm_unpackhi_epi64]. *)
Definition unpacklo_epi64 (a b : list Z) : list Z := take 8 a ++ take 8 b.
Definition unpackhi_epi64 (a b : list Z) : list Z := drop 8 a ++ drop 8 b.

(** [_mm_srli_epi16]: shifts of the sixteen-bit lanes. *)
Fixpoint srli_epi16 (a : list Z) (n : Z) : list Z :=
  match a with
  | lo :: hi :: a' =>
      let w := Z.shiftr (Z.lor lo (Z.shiftl hi 8)) n in
      Z.land w 0xFF :: Z.shiftr w 8 :: srli_epi16 a' n
  | _ => []
  end.
