(* ===== verification/Delta.v ===== *)
(** The Delta filter of [src/compress/filters50.cpp]: channel decorrelation in
    both directions, with its scalar loops and SSE2 kernels for one, two and
    four channels.

    A buffer is a list of bytes; every access is checked.  [in_place] is
    [src == dest]: the one-channel code then reads the buffer it is writing,
    the multi-channel code goes through the scratch buffer, whose previous
    contents are arbitrary and whose allocation may fail.  [base[]] and
    [prev[]] are functions of the channel.  The NEON kernels are not
    modelled. *)

From Stdlib Require Import ZArith Lia.
From stdpp Require Import base tactics list numbers.
From S2P Require Import Prelude Bytes Simd.

Local Open Scope Z_scope.

(** ** SSE2 vectors *)

(** [_mm_shufflehi_epi16(t, 0xFF)] and [_mm_shuffle_epi32(t, 0xFF)]: the last
    word over the high half, the last double word everywhere. *)
Definition shufflehi_ff (t : list Z) : list Z := take 8 t ++ concat (replicate 4 (drop 14 t)).
Definition shuffle32_ff (t : list Z) : list Z := concat (replicate 4 (drop 12 t)).

Definition broadcast_last_byte (v : list Z) : list Z := shuffle32_ff (shufflehi_ff (unpackhi_epi8 v v)).

(** Sixteen-bit lanes [lo, hi]: the mask [0x00FF], the shift by 8, and the
    signed-saturating pack. *)
Fixpoint mask_lo (a : list Z) : list Z :=
  match a with lo :: _ :: a' => lo :: 0 :: mask_lo a' | _ => [] end.
Fixpoint srli_epi16_8 (a : list Z) : list Z :=
  match a with _ :: hi :: a' => hi :: 0 :: srli_epi16_8 a' | _ => [] end.
Fixpoint pack_lanes (a : list Z) : list Z :=
  match a with
  | lo :: hi :: a' => (if hi >=? 128 then 0 else if hi >? 0 then 255 else lo) :: pack_lanes a'
  | _ => []
  end.
Definition packus_epi16 (a b : list Z) : list Z := pack_lanes a ++ pack_lanes b.

Definition even_bytes (a b : list Z) : list Z := packus_epi16 (mask_lo a) (mask_lo b).
Definition odd_bytes (a b : list Z) : list Z := packus_epi16 (srli_epi16_8 a) (srli_epi16_8 b).

(** One run of a channel: the outputs, and the new carry. *)
Definition delta_decode16 (v carry : list Z) : list Z * list Z :=
  let x := v_sub v_zero v in
  let x := v_add x (v_slli x 1) in
  let x := v_add x (v_slli x 2) in
  let x := v_add x (v_slli x 4) in
  let x := v_add x (v_slli x 8) in
  let x := v_add x carry in
  (x, broadcast_last_byte x).

Definition delta_encode16 (cur last : list Z) : list Z * list Z :=
  let prev := v_or (v_slli cur 1) (v_srli last 15) in
  (v_sub prev cur, cur).

(** ** The planar layout *)

Definition delta_plane_base (full rem c : Z) : Z := c * full + (if c <? rem then c else rem).

(** [a[c] = v] *)
Definition upd (a : Z -> Z) (c v : Z) : Z -> Z := fun k => if k =? c then v else a k.

(** [prev[c] = r ? row[(r - 1) * channels + c] : 0] for every channel. *)
Fixpoint load_prev (cs : list Z) (row : list Z) (r channels : Z) (prev : Z -> Z) : res (Z -> Z) :=
  match cs with
  | [] => Ok prev
  | c :: cs' =>
      p ← (if r =? 0 then Ok 0 else byte_at row ((r - 1) * channels + c));
      load_prev cs' row r channels (upd prev c p)
  end.

Section layout.
Context (src : list Z) (channels full rem : Z).

Definition base (c : Z) : Z := delta_plane_base full rem c.

(** *** Decode: planar [src], interleaved [out] *)

Fixpoint decode_row (cs : list Z) (r : Z) (prev : Z -> Z) (out : list Z) : res ((Z -> Z) * list Z) :=
  match cs with
  | [] => Ok (prev, out)
  | c :: cs' =>
      b ← byte_at src (base c + r);
      let p := u8 (prev c - b) in
      out ← store out (r * channels + c) [p];
      decode_row cs' r (upd prev c p) out
  end.

Fixpoint decode_rows (fuel : nat) (r : Z) (prev : Z -> Z) (out : list Z) : res ((Z -> Z) * list Z) :=
  match fuel with
  | O => Fuel
  | S fuel' =>
      if r <? full then
        '(prev, out) ← decode_row (seqZ 0 channels) r prev out;
        decode_rows fuel' (r + 1) prev out
      else Ok (prev, out)
  end.

(** The partial last row. *)
Fixpoint decode_extra (cs : list Z) (prev : Z -> Z) (out : list Z) : res (list Z) :=
  match cs with
  | [] => Ok out
  | c :: cs' =>
      b ← byte_at src (base c + full);
      out ← store out (full * channels + c) [u8 (prev c - b)];
      decode_extra cs' prev out
  end.

Fixpoint decode_sse2_2 (fuel : nat) (r : Z) (c0 c1 out : list Z) : res (Z * list Z) :=
  match fuel with
  | O => Fuel
  | S fuel' =>
      if r + 16 <=? full then
        a ← slice src (base 0 + r) 16;
        let '(a, c0) := delta_decode16 a c0 in
        b ← slice src (base 1 + r) 16;
        let '(b, c1) := delta_decode16 b c1 in
        out ← store out (2 * r) (unpacklo_epi8 a b);
        out ← store out (2 * r + 16) (unpackhi_epi8 a b);
        decode_sse2_2 fuel' (r + 16) c0 c1 out
      else Ok (r, out)
  end.

Fixpoint decode_sse2_4 (fuel : nat) (r : Z) (c0 c1 c2 c3 out : list Z) : res (Z * list Z) :=
  match fuel with
  | O => Fuel
  | S fuel' =>
      if r + 16 <=? full then
        a ← slice src (base 0 + r) 16;
        let '(a, c0) := delta_decode16 a c0 in
        b ← slice src (base 1 + r) 16;
        let '(b, c1) := delta_decode16 b c1 in
        c ← slice src (base 2 + r) 16;
        let '(c, c2) := delta_decode16 c c2 in
        d ← slice src (base 3 + r) 16;
        let '(d, c3) := delta_decode16 d c3 in
        let ab_lo := unpacklo_epi8 a b in
        let ab_hi := unpackhi_epi8 a b in
        let cd_lo := unpacklo_epi8 c d in
        let cd_hi := unpackhi_epi8 c d in
        out ← store out (4 * r) (unpacklo_epi16 ab_lo cd_lo);
        out ← store out (4 * r + 16) (unpackhi_epi16 ab_lo cd_lo);
        out ← store out (4 * r + 32) (unpacklo_epi16 ab_hi cd_hi);
        out ← store out (4 * r + 48) (unpackhi_epi16 ab_hi cd_hi);
        decode_sse2_4 fuel' (r + 16) c0 c1 c2 c3 out
      else Ok (r, out)
  end.

(** *** Encode: interleaved [src], planar [out] *)

Fixpoint encode_row (cs : list Z) (r : Z) (prev : Z -> Z) (out : list Z) : res ((Z -> Z) * list Z) :=
  match cs with
  | [] => Ok (prev, out)
  | c :: cs' =>
      s ← byte_at src (r * channels + c);
      out ← store out (base c + r) [u8 (prev c - s)];
      encode_row cs' r (upd prev c s) out
  end.

Fixpoint encode_rows (fuel : nat) (r : Z) (prev : Z -> Z) (out : list Z) : res ((Z -> Z) * list Z) :=
  match fuel with
  | O => Fuel
  | S fuel' =>
      if r <? full then
        '(prev, out) ← encode_row (seqZ 0 channels) r prev out;
        encode_rows fuel' (r + 1) prev out
      else Ok (prev, out)
  end.

Fixpoint encode_extra (cs : list Z) (prev : Z -> Z) (out : list Z) : res (list Z) :=
  match cs with
  | [] => Ok out
  | c :: cs' =>
      s ← byte_at src (full * channels + c);
      out ← store out (base c + full) [u8 (prev c - s)];
      encode_extra cs' prev out
  end.

Fixpoint encode_sse2_2 (fuel : nat) (r : Z) (l0 l1 out : list Z) : res (Z * list Z) :=
  match fuel with
  | O => Fuel
  | S fuel' =>
      if r + 16 <=? full then
        v0 ← slice src (2 * r) 16;
        v1 ← slice src (2 * r + 16) 16;
        let '(x0, l0) := delta_encode16 (even_bytes v0 v1) l0 in
        out ← store out (base 0 + r) x0;
        let '(x1, l1) := delta_encode16 (odd_bytes v0 v1) l1 in
        out ← store out (base 1 + r) x1;
        encode_sse2_2 fuel' (r + 16) l0 l1 out
      else Ok (r, out)
  end.

Fixpoint encode_sse2_4 (fuel : nat) (r : Z) (l0 l1 l2 l3 out : list Z) : res (Z * list Z) :=
  match fuel with
  | O => Fuel
  | S fuel' =>
      if r + 16 <=? full then
        v0 ← slice src (4 * r) 16;
        v1 ← slice src (4 * r + 16) 16;
        v2 ← slice src (4 * r + 32) 16;
        v3 ← slice src (4 * r + 48) 16;
        let e01 := even_bytes v0 v1 in
        let o01 := odd_bytes v0 v1 in
        let e23 := even_bytes v2 v3 in
        let o23 := odd_bytes v2 v3 in
        let '(x0, l0) := delta_encode16 (even_bytes e01 e23) l0 in
        out ← store out (base 0 + r) x0;
        let '(x1, l1) := delta_encode16 (even_bytes o01 o23) l1 in
        out ← store out (base 1 + r) x1;
        let '(x2, l2) := delta_encode16 (odd_bytes e01 e23) l2 in
        out ← store out (base 2 + r) x2;
        let '(x3, l3) := delta_encode16 (odd_bytes o01 o23) l3 in
        out ← store out (base 3 + r) x3;
        encode_sse2_4 fuel' (r + 16) l0 l1 l2 l3 out
      else Ok (r, out)
  end.
End layout.

Definition no_prev : Z -> Z := fun _ => 0.

Definition delta_decode_multi (src out : list Z) (channels : Z) : res (list Z) :=
  let size := zlen src in
  let full := size / channels in
  let rem := size mod channels in
  let fuel := S (Z.to_nat full) in
  '(r, out) ←
    (if channels =? 2 then decode_sse2_2 src full rem fuel 0 v_zero v_zero out
     else if channels =? 4 then decode_sse2_4 src full rem fuel 0 v_zero v_zero v_zero v_zero out
     else Ok (0, out));
  prev ← load_prev (seqZ 0 channels) out r channels no_prev;
  '(prev, out) ← decode_rows src channels full rem fuel r prev out;
  decode_extra src channels full rem (seqZ 0 rem) prev out.

Definition delta_encode_multi (src out : list Z) (channels : Z) : res (list Z) :=
  let size := zlen src in
  let full := size / channels in
  let rem := size mod channels in
  let fuel := S (Z.to_nat full) in
  '(r, out) ←
    (if channels =? 2 then encode_sse2_2 src full rem fuel 0 v_zero v_zero out
     else if channels =? 4 then encode_sse2_4 src full rem fuel 0 v_zero v_zero v_zero v_zero out
     else Ok (0, out));
  prev ← load_prev (seqZ 0 channels) src r channels no_prev;
  '(prev, out) ← encode_rows src channels full rem fuel r prev out;
  encode_extra src channels full rem (seqZ 0 rem) prev out.

(** *** One channel, possibly in place *)

Section single.
Context (in_place : bool) (src : list Z).

(** What [src] shows while [dest] is being written. *)
Definition seen (dest : list Z) : list Z := if in_place then dest else src.

Fixpoint decode1_sse2 (fuel : nat) (pos : Z) (carry dest : list Z) : res (Z * list Z) :=
  match fuel with
  | O => Fuel
  | S fuel' =>
      if pos + 16 <=? zlen src then
        v ← slice (seen dest) pos 16;
        let '(x, carry) := delta_decode16 v carry in
        dest ← store dest pos x;
        decode1_sse2 fuel' (pos + 16) carry dest
      else Ok (pos, dest)
  end.

Fixpoint decode1_loop (fuel : nat) (pos prev : Z) (dest : list Z) : res (list Z) :=
  match fuel with
  | O => Fuel
  | S fuel' =>
      if pos <? zlen src then
        b ← byte_at (seen dest) pos;
        let prev := u8 (prev - b) in
        dest ← store dest pos [prev];
        decode1_loop fuel' (pos + 1) prev dest
      else Ok dest
  end.

(** [last] is the register the tail takes its previous byte from. *)
Fixpoint encode1_sse2 (fuel : nat) (pos : Z) (last dest : list Z) : res (Z * list Z * list Z) :=
  match fuel with
  | O => Fuel
  | S fuel' =>
      if pos + 16 <=? zlen src then
        cur ← slice (seen dest) pos 16;
        let '(x, last) := delta_encode16 cur last in
        dest ← store dest pos x;
        encode1_sse2 fuel' (pos + 16) last dest
      else Ok (pos, last, dest)
  end.

Fixpoint encode1_loop (fuel : nat) (pos prev : Z) (dest : list Z) : res (list Z) :=
  match fuel with
  | O => Fuel
  | S fuel' =>
      if pos <? zlen src then
        val ← byte_at (seen dest) pos;
        dest ← store dest pos [u8 (prev - val)];
        encode1_loop fuel' (pos + 1) val dest
      else Ok dest
  end.
End single.

(** [Fail] is [return false].  [scratch]: the per-thread buffer, [None] when
    it cannot be had. *)
Definition with_out (in_place : bool) (scratch : option (list Z)) (src dest : list Z)
    (multi : list Z -> res (list Z)) : res (list Z) :=
  if in_place then
    match scratch with
    | None => Fail
    | Some out =>
        out ← multi out;
        p ← slice out 0 (zlen src);
        store dest 0 p
    end
  else multi dest.

Definition apply_delta (in_place : bool) (scratch : option (list Z)) (src dest : list Z) (channels : Z) : res (list Z) :=
  if (channels =? 0) || (channels >? 32) || (zlen src =? 0) then Fail
  else if channels >? 1 then with_out in_place scratch src dest (fun out => delta_decode_multi src out channels)
  else
    '(pos, dest) ← decode1_sse2 in_place src (S (length src)) 0 v_zero dest;
    prev ← (if pos =? 0 then Ok 0 else byte_at dest (pos - 1));
    decode1_loop in_place src (S (length src)) pos prev dest.

Definition encode_delta (in_place : bool) (scratch : option (list Z)) (src dest : list Z) (channels : Z) : res (list Z) :=
  if (channels =? 0) || (channels >? 32) || (zlen src =? 0) then Fail
  else if channels >? 1 then with_out in_place scratch src dest (fun out => delta_encode_multi src out channels)
  else
    '(pos, last, dest) ← encode1_sse2 in_place src (S (length src)) 0 v_zero dest;
    let prev := if pos =? 0 then 0 else nth 0 (v_srli last 15) 0 in
    encode1_loop in_place src (S (length src)) pos prev dest.

Example encode_delta_ex :
  encode_delta false None [10; 20; 11; 22; 12] [0; 0; 0; 0; 0] 2 = Ok [246; 255; 255; 236; 254].
Proof. vm_compute. reflexivity. Qed.

Example apply_delta_ex :
  apply_delta true (Some (replicate 9 7)) [246; 255; 255; 236; 254] [246; 255; 255; 236; 254] 2 = Ok [10; 20; 11; 22; 12].
Proof. vm_compute. reflexivity. Qed.

(** ** The SSE2 kernels *)

(** A channel run decoded from the previous output [p]. *)
Fixpoint dchain (p : Z) (l : list Z) : list Z :=
  match l with [] => [] | b :: l' => let q := u8 (p - b) in q :: dchain q l' end.

Ltac lanes16 v :=
  destruct v as [|?x0 [|?x1 [|?x2 [|?x3 [|?x4 [|?x5 [|?x6 [|?x7 [|?x8 [|?x9 [|?x10 [|?x11 [|?x12 [|?x13 [|?x14
    [|?x15 [|]]]]]]]]]]]]]]]]]; try discriminate.

Lemma broadcast_spec v : length v = 16%nat -> broadcast_last_byte v = replicate 16 (nthZ v 15).
Proof. intros Hv. lanes16 v. reflexivity. Qed.

(** The wrap-around of a lane can wait until the end. *)
Lemma v_add_wrap a b : v_add (map (wrap 8) a) (map (wrap 8) b) = map (wrap 8) (zip_with Z.add a b).
Proof.
  unfold v_add. revert b. induction a as [|x a IH]; intros [|y b]; try done. cbn [map zip_with]. rewrite IH. f_equal.
  unfold wrap. by rewrite <- Zplus_mod.
Qed.

Lemma v_add_wrap_l a b : v_add (map (wrap 8) a) b = map (wrap 8) (zip_with Z.add a b).
Proof.
  unfold v_add. revert b. induction a as [|x a IH]; intros [|y b]; try done. cbn [map zip_with]. rewrite IH. f_equal.
  unfold wrap. by rewrite Zplus_mod_idemp_l.
Qed.

Lemma v_sub_wrap a b : v_sub a b = map (wrap 8) (zip_with Z.sub a b).
Proof. unfold v_sub. revert b. induction a as [|x a IH]; intros [|y b]; try done. cbn [map zip_with]. by rewrite IH. Qed.

Lemma v_slli_wrap a n : v_slli (map (wrap 8) a) n = map (wrap 8) (v_slli a n).
Proof.
  unfold v_slli. rewrite <- firstn_map, map_app. do 2 f_equal. induction n as [|n IH]; [done|]. cbn [replicate map]. by rewrite <- IH.
Qed.

Fixpoint rchain (p : Z) (l : list Z) : list Z :=
  match l with [] => [] | b :: l' => (p - b) :: rchain (p - b) l' end.

Lemma dchain_wrap p q l : wrap 8 p = wrap 8 q -> dchain p l = map (wrap 8) (rchain q l).
Proof.
  revert p q. induction l as [|b l IH]; intros p q Hp; [done|]. cbn [dchain rchain map]. cbv zeta.
  assert (E : u8 (p - b) = u8 (q - b)).
  { unfold wrap in *. rewrite <- (Zminus_mod_idemp_l p), <- (Zminus_mod_idemp_l q). by rewrite Hp. }
  rewrite E. f_equal. apply IH. unfold wrap. by rewrite Zmod_mod.
Qed.

Lemma delta_decode16_spec v p :
  length v = 16%nat ->
  delta_decode16 v (replicate 16 p) = (dchain p v, replicate 16 (nthZ (dchain p v) 15)).
Proof.
  intros Hv. unfold delta_decode16. cbv zeta.
  set (x := v_add _ (replicate 16 p)). assert (E : x = dchain p v).
  { subst x. rewrite v_sub_wrap. rewrite !v_slli_wrap, !v_add_wrap. rewrite !v_slli_wrap, !v_add_wrap.
    rewrite !v_slli_wrap, !v_add_wrap. rewrite !v_slli_wrap, !v_add_wrap, v_add_wrap_l.
    rewrite (dchain_wrap p p) by done. f_equal. lanes16 v. unfold v_slli, v_zero.
    cbn [replicate zip_with app take rchain]. repeat (apply (f_equal2 (@cons Z)); [lia|]). done. }
  rewrite E, broadcast_spec; [done|]. lanes16 v. done.
Qed.

(** The run of one channel encoded after the previous input [p]. *)
Fixpoint echain (p : Z) (l : list Z) : list Z :=
  match l with [] => [] | b :: l' => u8 (p - b) :: echain b l' end.

Lemma delta_encode16_spec v last p :
  length v = 16%nat -> length last = 16%nat -> nthZ last 15 = p ->
  delta_encode16 v last = (echain p v, v).
Proof.
  intros Hv Hl Hp. unfold delta_encode16. cbv zeta. f_equal. lanes16 v. lanes16 last. unfold nthZ in Hp. cbn in Hp. subst p.
  unfold v_sub, v_or, v_slli, v_srli. cbn [replicate app take drop zip_with echain]. by rewrite !Z.lor_0_r, Z.lor_0_l.
Qed.

(** *** Rows and columns *)

(** The interleaving of two and four channel runs is the list of their rows. *)
Definition rows (F : Z -> Z -> Z) (ch r n : Z) : list Z :=
  concat (map (fun i => map (fun c => F c i) (seqZ 0 ch)) (seqZ r n)).

Lemma seqZ16 r : seqZ r 16 = [r; 1 + r; 2 + r; 3 + r; 4 + r; 5 + r; 6 + r; 7 + r; 8 + r; 9 + r; 10 + r; 11 + r; 12 + r; 13 + r; 14 + r; 15 + r].
Proof. reflexivity. Qed.

Lemma rows2 F r :
  unpacklo_epi8 (map (F 0) (seqZ r 16)) (map (F 1) (seqZ r 16)) ++
  unpackhi_epi8 (map (F 0) (seqZ r 16)) (map (F 1) (seqZ r 16)) = rows F 2 r 16.
Proof. unfold rows. rewrite seqZ16. reflexivity. Qed.

Lemma rows4 F r :
  let a := map (F 0) (seqZ r 16) in let b := map (F 1) (seqZ r 16) in
  let c := map (F 2) (seqZ r 16) in let d := map (F 3) (seqZ r 16) in
  unpacklo_epi16 (unpacklo_epi8 a b) (unpacklo_epi8 c d) ++ unpackhi_epi16 (unpacklo_epi8 a b) (unpacklo_epi8 c d) ++
  unpacklo_epi16 (unpackhi_epi8 a b) (unpackhi_epi8 c d) ++ unpackhi_epi16 (unpackhi_epi8 a b) (unpackhi_epi8 c d) =
  rows F 4 r 16.
Proof. cbv zeta. unfold rows. rewrite seqZ16. reflexivity. Qed.

(** De-interleaving sixteen rows. *)
Lemma columns2 F r v0 v1 :
  zlen v0 = 16 -> v0 ++ v1 = rows F 2 r 16 ->
  even_bytes v0 v1 = map (F 0) (seqZ r 16) /\ odd_bytes v0 v1 = map (F 1) (seqZ r 16).
Proof.
  intros H0 E. rewrite <- rows2 in E.
  apply app_inj_1 in E as [-> ->]; [|unfold zlen in H0; rewrite seqZ16; cbn; lia].
  rewrite seqZ16. by split.
Qed.

Lemma columns4 F r v0 v1 v2 v3 :
  zlen v0 = 16 -> zlen v1 = 16 -> zlen v2 = 16 -> v0 ++ v1 ++ v2 ++ v3 = rows F 4 r 16 ->
  even_bytes (even_bytes v0 v1) (even_bytes v2 v3) = map (F 0) (seqZ r 16) /\
  even_bytes (odd_bytes v0 v1) (odd_bytes v2 v3) = map (F 1) (seqZ r 16) /\
  odd_bytes (even_bytes v0 v1) (even_bytes v2 v3) = map (F 2) (seqZ r 16) /\
  odd_bytes (odd_bytes v0 v1) (odd_bytes v2 v3) = map (F 3) (seqZ r 16).
Proof.
  intros H0 H1 H2 E. rewrite <- rows4 in E. cbv zeta in E. unfold zlen in *.
  apply app_inj_1 in E as [-> E]; [|rewrite seqZ16; cbn; lia].
  apply app_inj_1 in E as [-> E]; [|rewrite seqZ16; cbn; lia].
  apply app_inj_1 in E as [-> ->]; [|rewrite seqZ16; cbn; lia].
  rewrite seqZ16. by split_and!.
Qed.

Lemma zlen_seqZ r n : 0 <= n -> zlen (seqZ r n) = n.
Proof. intros Hn. unfold zlen. rewrite length_seqZ. lia. Qed.

Lemma nthZ_map_seqZ (f : Z -> Z) r n i : 0 <= i < n -> nthZ (map f (seqZ r n)) i = f (r + i).
Proof.
  intros Hi. unfold nthZ. rewrite (nth_lookup_Some _ _ 0 (f (r + i))); [done|]. rewrite list_lookup_fmap.
  rewrite lookup_seqZ_lt by lia. cbn. f_equal. f_equal. lia.
Qed.

Lemma rows_cons F ch r n : 0 < n -> rows F ch r n = map (fun c => F c r) (seqZ 0 ch) ++ rows F ch (r + 1) (n - 1).
Proof. intros Hn. unfold rows. rewrite (seqZ_cons r n) by lia. cbn [map concat]. do 3 f_equal; lia. Qed.

Lemma rows_spec F ch r n :
  0 < ch -> 0 <= n -> zlen (rows F ch r n) = n * ch /\
  forall k, 0 <= k < n * ch -> nthZ (rows F ch r n) k = F (k mod ch) (r + k / ch).
Proof.
  intros Hc Hn. remember (Z.to_nat n) as m eqn:Em. revert n r Hn Em. induction m as [|m IH]; intros n r Hn Em.
  { assert (n = 0) as -> by lia. split; [done|lia]. }
  rewrite rows_cons by lia. destruct (IH (n - 1) (r + 1)) as [Hl Hk]; [lia..|]. rewrite zlen_app, zlen_map, zlen_seqZ by lia.
  split; [nia|]. intros k Hkr. rewrite nthZ_app, zlen_map, zlen_seqZ by lia. destruct (Z.ltb_spec k ch).
  - rewrite nthZ_map_seqZ, Z.mod_small, Z.div_small by lia. f_equal; lia.
  - rewrite Hk by nia. f_equal.
    + rewrite <- (Z_mod_plus_full (k - ch) 1 ch). f_equal. lia.
    + replace k with (k - ch + 1 * ch) at 2 by lia. rewrite Z.div_add by lia. lia.
Qed.

(** ** Reference functions *)

(** Byte [r] of the channel whose plane starts at [b], decoded. *)
Fixpoint dval_nat (src : list Z) (b : Z) (r : nat) : Z :=
  match r with
  | O => u8 (0 - nthZ src b)
  | S r' => u8 (dval_nat src b r' - nthZ src (b + Z.of_nat r))
  end.

Definition dval (src : list Z) (b r : Z) : Z := dval_nat src b (Z.to_nat r).
Definition dprev (src : list Z) (b r : Z) : Z := if r =? 0 then 0 else dval src b (r - 1).

Lemma dval_step src b r : 0 <= r -> dval src b r = u8 (dprev src b r - nthZ src (b + r)).
Proof.
  intros Hr. unfold dprev. destruct (Z.eqb_spec r 0) as [->|]; [unfold dval; cbn; by rewrite Z.add_0_r|].
  unfold dval. replace (Z.to_nat r) with (S (Z.to_nat (r - 1))) by lia. cbn [dval_nat]. do 3 f_equal. lia.
Qed.

Lemma dprev_next src b r : 0 <= r -> dprev src b (r + 1) = dval src b r.
Proof. intros Hr. unfold dprev. rewrite (proj2 (Z.eqb_neq _ _)) by lia. f_equal. lia. Qed.

Lemma slice_seqZ m i n :
  0 <= i -> 0 <= n -> i + n <= zlen m -> slice m i n = Ok (map (fun k => nthZ m k) (seqZ i n)).
Proof.
  intros Hi Hn Hl. destruct (split_at m i n) as (p & a & r & -> & <- & <-); [lia..|].
  rewrite (slice_view _ _ a r) by (rewrite ?view_app by done; done || zlen_lia). f_equal.
  apply nthZ_ext; [by rewrite zlen_map, zlen_seqZ by lia|]. intros k Hk. rewrite nthZ_map_seqZ by lia.
  rewrite !nthZ_app by lia. rewrite (proj2 (Z.ltb_ge _ _)) by lia.
  replace (zlen p + k - zlen p) with k by lia. by rewrite (proj2 (Z.ltb_lt k _)) by lia.
Qed.

(** A run of a plane decodes to the reference values. *)
Lemma dchain_dval src b r n :
  0 <= r -> dchain (dprev src b r) (map (nthZ src) (seqZ (b + r) n)) = map (dval src b) (seqZ r n).
Proof.
  remember (Z.to_nat n) as m eqn:Em. revert n r Em. induction m as [|m IH]; intros n r Em Hr.
  { rewrite !seqZ_nil by lia. done. }
  rewrite (seqZ_cons (b + r)), (seqZ_cons r) by lia. cbn [map dchain]. cbv zeta. rewrite <- dval_step by done. f_equal.
  rewrite <- dprev_next by done. replace (Z.succ (b + r)) with (b + (r + 1)) by lia.
  replace (Z.succ r) with (r + 1) by lia. apply IH; lia.
Qed.

Lemma decode16_run src b r :
  0 <= r ->
  delta_decode16 (map (nthZ src) (seqZ (b + r) 16)) (replicate 16 (dprev src b r)) =
    (map (dval src b) (seqZ r 16), replicate 16 (dprev src b (r + 16))).
Proof.
  intros Hr. rewrite delta_decode16_spec by (by rewrite length_map, length_seqZ). rewrite dchain_dval by done.
  do 2 f_equal. rewrite nthZ_map_seqZ by lia. replace (r + 16) with (r + 15 + 1) by lia. by rewrite dprev_next by lia.
Qed.

(** Byte [r] of a channel of the interleaved [F], encoded. *)
Definition eprev (F : Z -> Z) (r : Z) : Z := if r =? 0 then 0 else F (r - 1).
Definition eval_ (F : Z -> Z) (r : Z) : Z := u8 (eprev F r - F r).

Lemma echain_eval F r n : 0 <= r -> echain (eprev F r) (map F (seqZ r n)) = map (eval_ F) (seqZ r n).
Proof.
  remember (Z.to_nat n) as m eqn:Em. revert n r Em. induction m as [|m IH]; intros n r Em Hr.
  { rewrite !seqZ_nil by lia. done. }
  rewrite (seqZ_cons r) by lia. cbn [map echain]. unfold eval_ at 1. f_equal.
  replace (F r) with (eprev F (Z.succ r)); [apply IH; lia|]. unfold eprev. rewrite (proj2 (Z.eqb_neq _ _)) by lia. f_equal. lia.
Qed.

(** The register of the encoder: its last byte is the previous input. *)
Definition lreg (F : Z -> Z) (r : Z) (last : list Z) : Prop := length last = 16%nat /\ nthZ last 15 = eprev F r.

Lemma lreg_zero F : lreg F 0 v_zero.
Proof. by split. Qed.

Lemma encode16_run F r last :
  0 <= r -> lreg F r last ->
  delta_encode16 (map F (seqZ r 16)) last = (map (eval_ F) (seqZ r 16), map F (seqZ r 16)) /\
  lreg F (r + 16) (map F (seqZ r 16)).
Proof.
  intros Hr [Hl Hp]. assert (H16 : length (map F (seqZ r 16)) = 16%nat) by (by rewrite length_map, length_seqZ). split.
  - rewrite (delta_encode16_spec _ last (eprev F r)) by done. by rewrite echain_eval.
  - split; [done|]. rewrite nthZ_map_seqZ by lia. unfold eprev. rewrite (proj2 (Z.eqb_neq _ _)) by lia. f_equal. lia.
Qed.

(** ** The layout *)

Lemma plane_bounds ch full rem c r :
  0 <= rem < ch -> 0 <= full -> 0 <= c < ch -> 0 <= r -> r < full \/ (r = full /\ c < rem) ->
  0 <= delta_plane_base full rem c + r < ch * full + rem /\ 0 <= r * ch + c < ch * full + rem.
Proof.
  intros Hm Hf Hc Hr Hrow. unfold delta_plane_base. destruct (Z.ltb_spec c rem).
  - assert (c * full + full <= ch * full) by nia. assert (r * ch + ch <= ch * full \/ r = full) by (destruct Hrow as [|[-> _]]; [left; nia|by right]).
    destruct Hrow as [|[-> ?]]; nia.
  - destruct Hrow as [|[-> ?]]; [|lia]. nia.
Qed.

(** Different cells of the planes are different bytes. *)
Lemma plane_inj ch full rem c r c' r' :
  0 <= rem < ch -> 0 <= full -> 0 <= c < ch -> 0 <= c' < ch -> 0 <= r -> 0 <= r' ->
  (r < full \/ (r = full /\ c < rem)) -> (r' < full \/ (r' = full /\ c' < rem)) ->
  delta_plane_base full rem c + r = delta_plane_base full rem c' + r' -> c = c' /\ r = r'.
Proof.
  intros Hm Hf Hc Hc' Hr Hr' Hrow Hrow' E.
  assert (Hlt : forall c c' r r', 0 <= c < ch -> 0 <= c' < ch -> 0 <= r -> 0 <= r' ->
    (r < full \/ (r = full /\ c < rem)) -> c < c' ->
    delta_plane_base full rem c + r < delta_plane_base full rem c' + r').
  { clear. intros c c' r r' Hc Hc' Hr Hr' Hrow Hlt. unfold delta_plane_base.
    assert (c * full + full <= c' * full) by nia. destruct (Z.ltb_spec c rem), (Z.ltb_spec c' rem); destruct Hrow as [|[? ?]]; lia. }
  destruct (Z.lt_trichotomy c c') as [H|[->|H]].
  - pose proof (Hlt c c' r r' Hc Hc' Hr Hr' Hrow H). lia.
  - split; [done|lia].
  - pose proof (Hlt c' c r' r Hc' Hc Hr' Hr Hrow' H). lia.
Qed.

Lemma row_index ch r c : 0 < ch -> 0 <= c < ch -> (r * ch + c) / ch = r /\ (r * ch + c) mod ch = c.
Proof.
  intros Hch Hc. split; [rewrite Z.add_comm, Z.div_add, Z.div_small by lia; lia|].
  by rewrite Z.add_comm, Z_mod_plus_full, Z.mod_small.
Qed.

(** ** Decode refines the reference *)

Section decode.
Context (src : list Z) (ch full rem size : Z).
Hypothesis Hch : 0 < ch.
Hypothesis Hfull : 0 <= full.
Hypothesis Hrem : 0 <= rem < ch.
Hypothesis Hsrc : zlen src = ch * full + rem.
Hypothesis Hsize : ch * full + rem <= size.

Definition dspec (i : Z) : Z := dval src (base full rem (i mod ch)) (i / ch).

(** The first [n] bytes are decoded. *)
Definition dinv (n : Z) (out : list Z) : Prop :=
  zlen out = size /\ forall i, 0 <= i < n -> nthZ out i = dspec i.

Lemma dspec_cell r c : 0 <= c < ch -> dspec (r * ch + c) = dval src (base full rem c) r.
Proof. intros Hc. unfold dspec. destruct (row_index ch r c Hch Hc) as [-> ->]. done. Qed.

Lemma dinv_store n out l :
  dinv n out -> 0 <= n -> n + zlen l <= size -> (forall k, 0 <= k < zlen l -> nthZ l k = dspec (n + k)) ->
  exists out', store out n l = Ok out' /\ dinv (n + zlen l) out'.
Proof.
  intros [Hz Hi] Hn Hl Hk. destruct (store_get out n l Hn ltac:(lia)) as (out' & -> & Hz' & Hget).
  exists out'. split; [done|]. split; [lia|]. intros i Hir. rewrite Hget by lia.
  destruct (Z.leb_spec n i), (Z.ltb_spec i (n + zlen l)); cbn [andb]; try lia.
  - rewrite Hk by lia. f_equal. lia.
  - apply Hi. lia.
Qed.

(** A step of a row. *)
Lemma dinv_cell r c out p :
  0 <= r -> 0 <= c < ch -> r < full \/ (r = full /\ c < rem) -> dinv (r * ch + c) out -> p = dprev src (base full rem c) r ->
  exists b out', byte_at src (base full rem c + r) = Ok b /\ u8 (p - b) = dval src (base full rem c) r /\
    store out (r * ch + c) [u8 (p - b)] = Ok out' /\ dinv (r * ch + (c + 1)) out'.
Proof.
  intros Hr Hc Hrow Hd ->. destruct (plane_bounds ch full rem c r) as [Hb Ho]; [done..|].
  exists (nthZ src (base full rem c + r)). rewrite byte_at_nthZ by (unfold base; lia).
  rewrite <- dval_step by done.
  destruct (dinv_store (r * ch + c) out [dval src (base full rem c) r] Hd) as (out' & E & Hd'); [lia|zlen_lia| |].
  { intros k Hk. assert (k = 0) as -> by zlen_lia. rewrite Z.add_0_r, dspec_cell by done. done. }
  exists out'. split; [done|]. split; [done|]. split; [exact E|].
  change (zlen [dval src (base full rem c) r]) with 1 in Hd'. by rewrite Z.add_assoc.
Qed.

Definition prev_ok (prev : Z -> Z) (r : Z) : Prop := forall c, 0 <= c < ch -> prev c = dprev src (base full rem c) r.

Lemma decode_row_spec k c0 r prev out :
  0 <= r < full -> 0 <= c0 -> Z.of_nat k = ch - c0 -> dinv (r * ch + c0) out ->
  (forall c, 0 <= c < ch -> prev c = if c <? c0 then dval src (base full rem c) r else dprev src (base full rem c) r) ->
  exists prev' out', decode_row src ch full rem (seqZ c0 (ch - c0)) r prev out = Ok (prev', out') /\
    dinv ((r + 1) * ch) out' /\ prev_ok prev' (r + 1).
Proof.
  intros Hr. revert c0 prev out. induction k as [|k IH]; intros c0 prev out Hc0 Hk Hd Hp.
  - rewrite seqZ_nil by lia. exists prev, out. split; [done|]. split.
    + replace ((r + 1) * ch) with (r * ch + c0) by lia. done.
    + intros c Hc. rewrite Hp, (proj2 (Z.ltb_lt c c0)), dprev_next by lia. done.
  - rewrite seqZ_cons by lia. cbn [decode_row].
    destruct (dinv_cell r c0 out (prev c0)) as (b & out' & -> & Eb & E & Hd'); [lia|lia|lia|done| |].
    { rewrite Hp, (proj2 (Z.ltb_ge c0 c0)) by lia. done. }
    res_simpl. cbv zeta. rewrite E. res_simpl. replace (Z.pred (ch - c0)) with (ch - (c0 + 1)) by lia.
    replace (Z.succ c0) with (c0 + 1) by lia. apply IH; [lia|lia|done|]. intros c Hc. unfold upd.
    destruct (Z.eqb_spec c c0) as [->|]; [by rewrite (proj2 (Z.ltb_lt _ _)) by lia|]. rewrite Hp by done.
    destruct (Z.ltb_spec c c0), (Z.ltb_spec c (c0 + 1)); try done; lia.
Qed.

Lemma decode_rows_spec fuel r prev out :
  0 <= r <= full -> full - r < Z.of_nat fuel -> dinv (r * ch) out -> prev_ok prev r ->
  exists prev' out', decode_rows src ch full rem fuel r prev out = Ok (prev', out') /\
    dinv (full * ch) out' /\ prev_ok prev' full.
Proof.
  revert r prev out. induction fuel as [|fuel IH]; intros r prev out Hr Hf Hd Hp; [lia|]. cbn [decode_rows].
  destruct (Z.ltb_spec r full).
  - destruct (decode_row_spec (Z.to_nat ch) 0 r prev out) as (p' & o' & E & Hd' & Hp'); [lia..| | |].
    + by rewrite Z.add_0_r.
    + intros c Hc. rewrite (proj2 (Z.ltb_ge _ _)) by lia. by apply Hp.
    + rewrite Z.sub_0_r in E. rewrite E. res_simpl. cbv beta iota. apply IH; [lia|lia|done|done].
  - assert (r = full) as -> by lia. by exists prev, out.
Qed.

Lemma decode_extra_spec k c0 prev out :
  0 <= c0 -> Z.of_nat k = rem - c0 -> dinv (full * ch + c0) out -> prev_ok prev full ->
  exists out', decode_extra src ch full rem (seqZ c0 (rem - c0)) prev out = Ok out' /\ dinv (ch * full + rem) out'.
Proof.
  revert c0 out. induction k as [|k IH]; intros c0 out Hc0 Hk Hd Hp.
  - rewrite seqZ_nil by lia. exists out. split; [done|]. replace (ch * full + rem) with (full * ch + c0) by lia. done.
  - rewrite seqZ_cons by lia. cbn [decode_extra].
    destruct (dinv_cell full c0 out (prev c0)) as (b & out' & -> & Eb & E & Hd'); [lia|lia|lia|done|apply Hp; lia|].
    res_simpl. rewrite E. res_simpl. replace (Z.pred (rem - c0)) with (rem - (c0 + 1)) by lia.
    replace (Z.succ c0) with (c0 + 1) by lia. apply IH; [lia|lia|done|done].
Qed.

Lemma load_prev_spec k c0 r out prev :
  0 <= r <= full -> 0 <= c0 -> Z.of_nat k = ch - c0 -> dinv (r * ch) out ->
  (forall c, 0 <= c < c0 -> prev c = dprev src (base full rem c) r) ->
  exists prev', load_prev (seqZ c0 (ch - c0)) out r ch prev = Ok prev' /\ prev_ok prev' r.
Proof.
  intros Hr. revert c0 prev. induction k as [|k IH]; intros c0 prev Hc0 Hk Hd Hp.
  - rewrite seqZ_nil by lia. exists prev. split; [done|]. intros c Hc. apply Hp. lia.
  - rewrite seqZ_cons by lia. cbn [load_prev].
    assert (E : (if r =? 0 then Ok 0 else byte_at out ((r - 1) * ch + c0)) = Ok (dprev src (base full rem c0) r)).
    { unfold dprev. destruct (Z.eqb_spec r 0); [done|]. destruct Hd as [Hz Hd].
      assert (0 <= (r - 1) * ch + c0 < r * ch) by nia.
      rewrite byte_at_nthZ, Hd, dspec_cell by nia. done. }
    rewrite E. res_simpl. replace (Z.pred (ch - c0)) with (ch - (c0 + 1)) by lia. replace (Z.succ c0) with (c0 + 1) by lia.
    apply IH; [lia|lia|done|]. intros c Hc. unfold upd. destruct (Z.eqb_spec c c0) as [->|]; [done|]. apply Hp. lia.
Qed.

(** Rows of reference values fill the next part of [out]. *)
Lemma rows_dspec r n k :
  0 <= r -> 0 <= n -> 0 <= k < n * ch ->
  nthZ (rows (fun c => dval src (base full rem c)) ch r n) k = dspec (r * ch + k).
Proof.
  intros Hr Hn Hk. destruct (rows_spec (fun c => dval src (base full rem c)) ch r n Hch Hn) as [_ ->]; [|done].
  unfold dspec. f_equal.
  - f_equal. by rewrite Z.add_comm, Z_mod_plus_full.
  - by rewrite Z.div_add_l by lia.
Qed.

Lemma dinv_rows r n out :
  0 <= r -> 0 <= n -> r + n <= full -> dinv (r * ch) out ->
  exists out', store out (r * ch) (rows (fun c => dval src (base full rem c)) ch r n) = Ok out' /\ dinv ((r + n) * ch) out'.
Proof.
  intros Hr Hn Hrn Hd. destruct (rows_spec (fun c => dval src (base full rem c)) ch r n Hch Hn) as [Hz _].
  destruct (dinv_store (r * ch) out (rows (fun c => dval src (base full rem c)) ch r n) Hd) as (out' & E & Hd').
  - nia.
  - nia.
  - rewrite Hz. intros k Hk. by apply rows_dspec.
  - exists out'. split; [exact E|]. rewrite Hz in Hd'. replace ((r + n) * ch) with (r * ch + n * ch) by lia. done.
Qed.

(** A run of channel [c]. *)
Lemma plane_run c r :
  0 <= c < ch -> 0 <= r -> r + 16 <= full ->
  slice src (base full rem c + r) 16 = Ok (map (nthZ src) (seqZ (base full rem c + r) 16)).
Proof.
  intros Hc Hr Hf. destruct (plane_bounds ch full rem c r) as [Hb _]; [done..|lia|].
  destruct (plane_bounds ch full rem c (r + 15)) as [Hb' _]; [done..|lia|lia|]. apply slice_seqZ; unfold base in *; lia.
Qed.
End decode.

Definition carry (src : list Z) (full rem c r : Z) : list Z := replicate 16 (dprev src (base full rem c) r).

Lemma carry_zero src full rem c : carry src full rem c 0 = v_zero.
Proof. done. Qed.

Lemma decode_sse2_2_spec src full rem size fuel r out :
  0 <= full -> 0 <= rem < 2 -> zlen src = 2 * full + rem -> 2 * full + rem <= size ->
  0 <= r <= full -> full - r < 16 * Z.of_nat fuel -> dinv src 2 full rem size (r * 2) out ->
  exists r' out', decode_sse2_2 src full rem fuel r (carry src full rem 0 r) (carry src full rem 1 r) out = Ok (r', out') /\
    0 <= r' <= full /\ dinv src 2 full rem size (r' * 2) out'.
Proof.
  intros Hfull Hrem Hsrc Hsize. revert r out. induction fuel as [|fuel IH]; intros r out Hr Hf Hd.
  { lia. }
  cbn [decode_sse2_2]. destruct (Z.leb_spec (r + 16) full) as [Hle|]; [|by exists r, out].
  rewrite (plane_run src 2 full rem) by lia. res_simpl. unfold carry at 1 2. rewrite decode16_run by lia. cbv beta iota.
  rewrite (plane_run src 2 full rem) by lia. res_simpl. rewrite decode16_run by lia. cbv beta iota.
  pose proof (rows2 (fun c => dval src (base full rem c)) r) as Er.
  set (lo := unpacklo_epi8 _ _) in *. set (hi := unpackhi_epi8 _ _) in *.
  assert (Hlo : zlen lo = 16) by (subst lo; rewrite seqZ16; reflexivity).
  assert (Hhi : zlen hi = 16) by (subst hi; rewrite seqZ16; reflexivity). clearbody lo hi.
  destruct (dinv_rows src 2 full rem size) with (r := r) (n := 16) (out := out) as (out' & E & Hd'); [lia..|done|].
  cbv beta in E. rewrite <- Er in E. rewrite <- store_seq, Hlo in E by (destruct Hd; lia).
  replace (2 * r) with (r * 2) by lia. unfold mbind, res_bind in E |- *.
  destruct (store out (r * 2) lo) as [o1| | |]; try discriminate. rewrite E.
  apply (IH (r + 16)); [lia|lia|done].
Qed.

Lemma decode_sse2_4_spec src full rem size fuel r out :
  0 <= full -> 0 <= rem < 4 -> zlen src = 4 * full + rem -> 4 * full + rem <= size ->
  0 <= r <= full -> full - r < 16 * Z.of_nat fuel -> dinv src 4 full rem size (r * 4) out ->
  exists r' out', decode_sse2_4 src full rem fuel r (carry src full rem 0 r) (carry src full rem 1 r)
      (carry src full rem 2 r) (carry src full rem 3 r) out = Ok (r', out') /\
    0 <= r' <= full /\ dinv src 4 full rem size (r' * 4) out'.
Proof.
  intros Hfull Hrem Hsrc Hsize. revert r out. induction fuel as [|fuel IH]; intros r out Hr Hf Hd; [lia|].
  cbn [decode_sse2_4]. destruct (Z.leb_spec (r + 16) full) as [Hle|]; [|by exists r, out].
  rewrite !(plane_run src 4 full rem) by lia. res_simpl. unfold carry at 1 2 3 4. rewrite !decode16_run by lia. cbv beta iota.
  pose proof (rows4 (fun c => dval src (base full rem c)) r) as Er. cbv zeta in Er |- *.
  set (x0 := unpacklo_epi16 (unpacklo_epi8 _ _) _) in *. set (x1 := unpackhi_epi16 (unpacklo_epi8 _ _) _) in *.
  set (x2 := unpacklo_epi16 (unpackhi_epi8 _ _) _) in *. set (x3 := unpackhi_epi16 (unpackhi_epi8 _ _) _) in *.
  assert (H0 : zlen x0 = 16) by (subst x0; rewrite seqZ16; reflexivity).
  assert (H1 : zlen x1 = 16) by (subst x1; rewrite seqZ16; reflexivity).
  assert (H2 : zlen x2 = 16) by (subst x2; rewrite seqZ16; reflexivity).
  assert (H3 : zlen x3 = 16) by (subst x3; rewrite seqZ16; reflexivity). clearbody x0 x1 x2 x3.
  destruct (dinv_rows src 4 full rem size) with (r := r) (n := 16) (out := out) as (out' & E & Hd'); [lia..|done|].
  cbv beta in E. rewrite <- Er in E. destruct Hd as [Hz _].
  rewrite <- store_seq, H0 in E by (rewrite ?zlen_app; lia).
  replace (4 * r) with (r * 4) by lia. unfold mbind, res_bind in E |- *.
  destruct (store out (r * 4) x0) as [o1| | |] eqn:E1; try discriminate. apply store_read in E1 as (_ & _ & Z1).
  rewrite <- store_seq, H1 in E by (rewrite ?zlen_app; lia). unfold mbind, res_bind in E.
  destruct (store o1 (r * 4 + 16) x1) as [o2| | |] eqn:E2; try discriminate. apply store_read in E2 as (_ & _ & Z2).
  rewrite <- store_seq, H2 in E by (rewrite ?zlen_app; lia). unfold mbind, res_bind in E.
  replace (r * 4 + 16 + 16) with (r * 4 + 32) in E by lia.
  destruct (store o2 (r * 4 + 32) x2) as [o3| | |]; try discriminate.
  replace (r * 4 + 32 + 16) with (r * 4 + 48) in E by lia. rewrite E.
  apply (IH (r + 16)); [lia|lia|done].
Qed.

(** The whole multi-channel decoder. *)
Lemma delta_decode_multi_spec src out ch :
  1 < ch -> zlen src <= zlen out ->
  exists out', delta_decode_multi src out ch = Ok out' /\
    dinv src ch (zlen src / ch) (zlen src mod ch) (zlen out) (zlen src) out'.
Proof.
  intros Hch Hout. unfold delta_decode_multi. cbv zeta. pose proof (zlen_nonneg src).
  set (full := zlen src / ch). set (rem := zlen src mod ch).
  assert (Hfull : 0 <= full) by (apply Z.div_pos; lia). assert (Hrem : 0 <= rem < ch) by (apply Z.mod_pos_bound; lia).
  assert (Hs : zlen src = ch * full + rem) by (apply Z.div_mod; lia). clearbody full rem.
  assert (Hd0 : dinv src ch full rem (zlen out) (0 * ch) out) by (split; [done|lia]).
  assert (Hk : exists r out1,
    (if ch =? 2 then decode_sse2_2 src full rem (S (Z.to_nat full)) 0 v_zero v_zero out
     else if ch =? 4 then decode_sse2_4 src full rem (S (Z.to_nat full)) 0 v_zero v_zero v_zero v_zero out
     else Ok (0, out)) = Ok (r, out1) /\ 0 <= r <= full /\ dinv src ch full rem (zlen out) (r * ch) out1).
  { destruct (Z.eqb_spec ch 2) as [->|]; [apply decode_sse2_2_spec; try done; lia|].
    destruct (Z.eqb_spec ch 4) as [->|]; [apply decode_sse2_4_spec; try done; lia|]. exists 0, out. done. }
  destruct Hk as (r & out1 & -> & Hr & Hd1). res_simpl. cbv beta iota.
  destruct (load_prev_spec src ch full rem (zlen out)) with (k := Z.to_nat ch) (c0 := 0) (r := r) (out := out1) (prev := no_prev)
    as (prev & E & Hp); [lia..|done|lia|]. rewrite Z.sub_0_r in E. rewrite E. res_simpl.
  destruct (decode_rows_spec src ch full rem (zlen out)) with (fuel := S (Z.to_nat full)) (r := r) (prev := prev) (out := out1)
    as (prev2 & out2 & -> & Hd2 & Hp2); [lia..|done|done|]. res_simpl. cbv beta iota.
  destruct (decode_extra_spec src ch full rem (zlen out)) with (k := Z.to_nat rem) (c0 := 0) (prev := prev2) (out := out2)
    as (out3 & E3 & Hd3); [lia..|by rewrite Z.add_0_r|done|]. rewrite Z.sub_0_r in E3. exists out3. split; [exact E3|].
  by rewrite Hs.
Qed.

(** ** Encode refines the reference *)

Section encode.
Context (src : list Z) (ch full rem size : Z).
Hypothesis Hch : 0 < ch.
Hypothesis Hfull : 0 <= full.
Hypothesis Hrem : 0 <= rem < ch.
Hypothesis Hsrc : zlen src = ch * full + rem.
Hypothesis Hsize : ch * full + rem <= size.

Definition chan (c r : Z) : Z := nthZ src (r * ch + c).

Definition cell (c r : Z) : Prop := 0 <= c < ch /\ 0 <= r /\ (r < full \/ (r = full /\ c < rem)).

(** The cells in [P] are encoded. *)
Definition einv (P : Z -> Z -> Prop) (out : list Z) : Prop :=
  zlen out = size /\ forall c r, cell c r -> P c r -> nthZ out (base full rem c + r) = eval_ (chan c) r.

Lemma einv_weaken (P Q : Z -> Z -> Prop) out :
  einv P out -> (forall c r, cell c r -> Q c r -> P c r) -> einv Q out.
Proof. intros [Hz He] HQ. split; [done|]. intros c r Hc Hq. apply He; [done|by apply HQ]. Qed.

Lemma einv_store P out c0 r n :
  einv P out -> 0 <= c0 < ch -> 0 <= r -> 1 <= n -> cell c0 (r + n - 1) ->
  exists out', store out (base full rem c0 + r) (map (eval_ (chan c0)) (seqZ r n)) = Ok out' /\
    einv (fun c r' => P c r' \/ (c = c0 /\ r <= r' < r + n)) out'.
Proof.
  intros [Hz He] Hc0 Hr Hn (_ & _ & Hlast).
  destruct (plane_bounds ch full rem c0 r) as [Hb _]; [done..|lia|].
  destruct (plane_bounds ch full rem c0 (r + n - 1)) as [Hb' _]; [done..|lia|done|].
  set (l := map _ _). assert (Hl : zlen l = n) by (subst l; by rewrite zlen_map, zlen_seqZ by lia).
  destruct (store_get out (base full rem c0 + r) l) as (out' & E & Hz' & Hget); [unfold base; lia|unfold base; lia|].
  exists out'. split; [exact E|]. split; [lia|]. intros c r' (Hc & Hr' & Hrow) HP.
  destruct (plane_bounds ch full rem c r') as [Hb2 _]; [done..|]. rewrite Hget by (unfold base; lia). rewrite Hl.
  destruct (Z.leb_spec (base full rem c0 + r) (base full rem c + r')), (Z.ltb_spec (base full rem c + r') (base full rem c0 + r + n)); cbn [andb].
  - unfold base in *.
    assert (Ec : c = c0 /\ r' = r + (delta_plane_base full rem c + r' - (delta_plane_base full rem c0 + r))).
    { apply (plane_inj ch full rem c r' c0); [done|done|done|done|done|lia|done|lia|lia]. }
    destruct Ec as [-> Er]. subst l. rewrite nthZ_map_seqZ by lia. f_equal. lia.
  - apply He; [done|]. destruct HP as [HP|[-> HP]]; [done|lia].
  - apply He; [done|]. destruct HP as [HP|[-> HP]]; [done|lia].
  - apply He; [done|]. destruct HP as [HP|[-> HP]]; [done|lia].
Qed.

Definition eprev_ok (prev : Z -> Z) (r : Z) : Prop := forall c, 0 <= c < ch -> prev c = eprev (chan c) r.

Lemma eprev_next F r : 0 <= r -> eprev F (r + 1) = F r.
Proof. intros Hr. unfold eprev. rewrite (proj2 (Z.eqb_neq _ _)) by lia. f_equal. lia. Qed.

(** One cell. *)
Lemma einv_cell P out c0 r p :
  einv P out -> cell c0 r -> p = eprev (chan c0) r ->
  byte_at src (r * ch + c0) = Ok (chan c0 r) /\
  exists out', store out (base full rem c0 + r) [u8 (p - chan c0 r)] = Ok out' /\
    einv (fun c r' => P c r' \/ (c = c0 /\ r' = r)) out'.
Proof.
  intros He Hcell ->. pose proof Hcell as (Hc & Hr & Hrow).
  destruct (plane_bounds ch full rem c0 r) as [_ Hb]; [done..|]. split; [apply byte_at_nthZ; lia|].
  destruct (einv_store P out c0 r 1 He Hc Hr ltac:(lia)) as (out' & E & He').
  { by replace (r + 1 - 1) with r by lia. }
  exists out'. split; [rewrite (seqZ_cons r 1), seqZ_nil in E by lia; exact E|].
  eapply einv_weaken; [exact He'|]. intros c r' _ [HP|[-> ->]]; [by left|right; split; [done|lia]].
Qed.

Lemma encode_row_spec k c0 r prev out :
  0 <= r < full -> 0 <= c0 -> Z.of_nat k = ch - c0 ->
  einv (fun c r' => r' < r \/ (r' = r /\ c < c0)) out ->
  (forall c, 0 <= c < ch -> prev c = if c <? c0 then chan c r else eprev (chan c) r) ->
  exists prev' out', encode_row src ch full rem (seqZ c0 (ch - c0)) r prev out = Ok (prev', out') /\
    einv (fun _ r' => r' < r + 1) out' /\ eprev_ok prev' (r + 1).
Proof.
  intros Hr. revert c0 prev out. induction k as [|k IH]; intros c0 prev out Hc0 Hk He Hp.
  - rewrite seqZ_nil by lia. exists prev, out. split; [done|]. split.
    + eapply einv_weaken; [exact He|]. intros c r' (Hc & _) Hlt. cbn in Hlt |- *. lia.
    + intros c Hc. rewrite Hp, (proj2 (Z.ltb_lt c c0)), eprev_next by lia. done.
  - rewrite seqZ_cons by lia. cbn [encode_row].
    destruct (einv_cell _ out c0 r (prev c0) He) as (-> & out' & E & He'); [split; [lia|split; [lia|by left; lia]]| |].
    { rewrite Hp, (proj2 (Z.ltb_ge c0 c0)) by lia. done. }
    res_simpl. rewrite E. res_simpl. replace (Z.pred (ch - c0)) with (ch - (c0 + 1)) by lia.
    replace (Z.succ c0) with (c0 + 1) by lia. apply IH; [lia|lia| |].
    + eapply einv_weaken; [exact He'|]. intros c r' _ Hor. cbn in Hor |- *. lia.
    + intros c Hc. unfold upd. destruct (Z.eqb_spec c c0) as [->|]; [by rewrite (proj2 (Z.ltb_lt _ _)) by lia|].
      rewrite Hp by done. destruct (Z.ltb_spec c c0), (Z.ltb_spec c (c0 + 1)); try done; lia.
Qed.

Lemma encode_rows_spec fuel r prev out :
  0 <= r <= full -> full - r < Z.of_nat fuel -> einv (fun _ r' => r' < r) out -> eprev_ok prev r ->
  exists prev' out', encode_rows src ch full rem fuel r prev out = Ok (prev', out') /\
    einv (fun _ r' => r' < full) out' /\ eprev_ok prev' full.
Proof.
  revert r prev out. induction fuel as [|fuel IH]; intros r prev out Hr Hf He Hp; [lia|]. cbn [encode_rows].
  destruct (Z.ltb_spec r full).
  - destruct (encode_row_spec (Z.to_nat ch) 0 r prev out) as (p' & o' & E & He' & Hp'); [lia..| | |].
    + eapply einv_weaken; [exact He|]. intros c r' (Hc & _) Hor. cbn in Hor |- *. lia.
    + intros c Hc. rewrite (proj2 (Z.ltb_ge _ _)) by lia. by apply Hp.
    + rewrite Z.sub_0_r in E. rewrite E. res_simpl. cbv beta iota. apply IH; [lia|lia|done|done].
  - assert (r = full) as -> by lia. by exists prev, out.
Qed.

Lemma encode_extra_spec k c0 prev out :
  0 <= c0 -> Z.of_nat k = rem - c0 -> einv (fun c r' => r' < full \/ c < c0) out -> eprev_ok prev full ->
  exists out', encode_extra src ch full rem (seqZ c0 (rem - c0)) prev out = Ok out' /\ einv (fun _ _ => True) out'.
Proof.
  revert c0 out. induction k as [|k IH]; intros c0 out Hc0 Hk He Hp.
  - rewrite seqZ_nil by lia. exists out. split; [done|]. eapply einv_weaken; [exact He|]. intros c r (_ & _ & Hrow) _. cbn. lia.
  - rewrite seqZ_cons by lia. cbn [encode_extra].
    destruct (einv_cell _ out c0 full (prev c0) He) as (-> & out' & E & He'); [split; [lia|split; [lia|right; lia]]|apply Hp; lia|].
    res_simpl. rewrite E. res_simpl. replace (Z.pred (rem - c0)) with (rem - (c0 + 1)) by lia.
    replace (Z.succ c0) with (c0 + 1) by lia. apply IH; [lia|lia| |done].
    eapply einv_weaken; [exact He'|]. intros c r (_ & _ & Hrow) Hor. cbn in Hor |- *. lia.
Qed.

Lemma eload_prev_spec k c0 r prev :
  0 <= r <= full -> 0 <= c0 -> Z.of_nat k = ch - c0 ->
  (forall c, 0 <= c < c0 -> prev c = eprev (chan c) r) ->
  exists prev', load_prev (seqZ c0 (ch - c0)) src r ch prev = Ok prev' /\ eprev_ok prev' r.
Proof.
  intros Hr. revert c0 prev. induction k as [|k IH]; intros c0 prev Hc0 Hk Hp.
  - rewrite seqZ_nil by lia. exists prev. split; [done|]. intros c Hc. apply Hp. lia.
  - rewrite seqZ_cons by lia. cbn [load_prev].
    assert (E : (if r =? 0 then Ok 0 else byte_at src ((r - 1) * ch + c0)) = Ok (eprev (chan c0) r)).
    { unfold eprev. destruct (Z.eqb_spec r 0); [done|].
      destruct (plane_bounds ch full rem c0 (r - 1)) as [_ Hb]; [done|done|lia|lia|lia|]. apply byte_at_nthZ. lia. }
    rewrite E. res_simpl. replace (Z.pred (ch - c0)) with (ch - (c0 + 1)) by lia. replace (Z.succ c0) with (c0 + 1) by lia.
    apply IH; [lia|lia|]. intros c Hc. unfold upd. destruct (Z.eqb_spec c c0) as [->|]; [done|]. apply Hp. lia.
Qed.

(** The sixteen rows read from [src]. *)
Lemma src_rows r :
  0 <= r -> r + 16 <= full -> map (nthZ src) (seqZ (r * ch) (16 * ch)) = rows chan ch r 16.
Proof.
  intros Hr Hf. destruct (rows_spec chan ch r 16 Hch ltac:(lia)) as [Hz Hn].
  apply nthZ_ext; [rewrite Hz, zlen_map, zlen_seqZ; lia|]. rewrite zlen_map, zlen_seqZ by lia. intros i Hi.
  rewrite nthZ_map_seqZ, Hn by lia. unfold chan. f_equal. pose proof (Z.div_mod i ch ltac:(lia)). lia.
Qed.

(** A run of channel [c] is stored. *)
Lemma einv_run P out c r :
  0 <= c < ch -> 0 <= r -> r + 16 <= full -> einv P out ->
  exists out', store out (base full rem c + r) (map (eval_ (chan c)) (seqZ r 16)) = Ok out' /\
    einv (fun c' r' => P c' r' \/ (c' = c /\ r <= r' < r + 16)) out'.
Proof. intros Hc Hr Hf He. apply einv_store; [done|done|done|lia|]. split; [done|]. split; lia. Qed.
End encode.

(** The reads of [16 * ch] bytes of rows, in sixteen-byte pieces. *)
Lemma map_seqZ_app (f : Z -> Z) a n m : 0 <= n -> 0 <= m -> map f (seqZ a n) ++ map f (seqZ (a + n) m) = map f (seqZ a (n + m)).
Proof. intros Hn Hm. by rewrite <- map_app, <- seqZ_app by lia. Qed.

Lemma zlen_map_seqZ (f : Z -> Z) a n : 0 <= n -> zlen (map f (seqZ a n)) = n.
Proof. intros Hn. by rewrite zlen_map, zlen_seqZ. Qed.

Lemma encode_sse2_2_spec src full rem size fuel r l0 l1 out :
  0 <= full -> 0 <= rem < 2 -> zlen src = 2 * full + rem -> 2 * full + rem <= size ->
  0 <= r <= full -> full - r < 16 * Z.of_nat fuel -> einv src 2 full rem size (fun _ r' => r' < r) out ->
  lreg (chan src 2 0) r l0 -> lreg (chan src 2 1) r l1 ->
  exists r' out', encode_sse2_2 src full rem fuel r l0 l1 out = Ok (r', out') /\
    0 <= r' <= full /\ einv src 2 full rem size (fun _ r'' => r'' < r') out'.
Proof.
  intros Hfull Hrem Hsrc Hsize. revert r l0 l1 out. induction fuel as [|fuel IH]; intros r l0 l1 out Hr Hf He Hl0 Hl1; [lia|].
  cbn [encode_sse2_2]. destruct (Z.leb_spec (r + 16) full) as [Hle|]; [|by exists r, out].
  replace (2 * r) with (r * 2) by lia. rewrite !slice_seqZ by lia. res_simpl.
  destruct (columns2 (chan src 2) r (map (fun k => nthZ src k) (seqZ (r * 2) 16)) (map (fun k => nthZ src k) (seqZ (r * 2 + 16) 16)))
    as [-> ->]; [by apply zlen_map_seqZ| |].
  { rewrite map_seqZ_app by lia. apply (src_rows src 2 full); lia. }
  destruct (encode16_run (chan src 2 0) r l0 ltac:(lia) Hl0) as [-> Hl0'].
  destruct (encode16_run (chan src 2 1) r l1 ltac:(lia) Hl1) as [-> Hl1']. cbv beta iota.
  destruct (einv_run src 2 full rem size) with (P := fun _ r' : Z => r' < r) (out := out) (c := 0) (r := r) as (o1 & -> & He1); [lia..|done|].
  res_simpl. edestruct (einv_run src 2 full rem size) with (out := o1) (c := 1) (r := r) as (o2 & -> & He2); [lia..|done|].
  res_simpl. apply IH; [lia|lia| |done|done].
  eapply einv_weaken; [exact He2|]. intros c r' (Hc & _) Hlt. cbn in Hlt |- *. lia.
Qed.

Lemma encode_sse2_4_spec src full rem size fuel r l0 l1 l2 l3 out :
  0 <= full -> 0 <= rem < 4 -> zlen src = 4 * full + rem -> 4 * full + rem <= size ->
  0 <= r <= full -> full - r < 16 * Z.of_nat fuel -> einv src 4 full rem size (fun _ r' => r' < r) out ->
  lreg (chan src 4 0) r l0 -> lreg (chan src 4 1) r l1 -> lreg (chan src 4 2) r l2 -> lreg (chan src 4 3) r l3 ->
  exists r' out', encode_sse2_4 src full rem fuel r l0 l1 l2 l3 out = Ok (r', out') /\
    0 <= r' <= full /\ einv src 4 full rem size (fun _ r'' => r'' < r') out'.
Proof.
  intros Hfull Hrem Hsrc Hsize. revert r l0 l1 l2 l3 out.
  induction fuel as [|fuel IH]; intros r l0 l1 l2 l3 out Hr Hf He Hl0 Hl1 Hl2 Hl3; [lia|].
  cbn [encode_sse2_4]. destruct (Z.leb_spec (r + 16) full) as [Hle|]; [|by exists r, out].
  replace (4 * r) with (r * 4) by lia. rewrite !slice_seqZ by lia. res_simpl. cbv zeta.
  destruct (columns4 (chan src 4) r (map (fun k => nthZ src k) (seqZ (r * 4) 16)) (map (fun k => nthZ src k) (seqZ (r * 4 + 16) 16))
    (map (fun k => nthZ src k) (seqZ (r * 4 + 32) 16)) (map (fun k => nthZ src k) (seqZ (r * 4 + 48) 16))) as (-> & -> & -> & ->);
    [by apply zlen_map_seqZ..| |].
  { replace (r * 4 + 48) with (r * 4 + 32 + 16) by lia. rewrite (map_seqZ_app _ (r * 4 + 32)) by lia.
    replace (r * 4 + 32) with (r * 4 + 16 + 16) by lia. rewrite (map_seqZ_app _ (r * 4 + 16)) by lia.
    rewrite map_seqZ_app by lia. apply (src_rows src 4 full); lia. }
  destruct (encode16_run (chan src 4 0) r l0 ltac:(lia) Hl0) as [-> Hl0'].
  destruct (encode16_run (chan src 4 1) r l1 ltac:(lia) Hl1) as [-> Hl1'].
  destruct (encode16_run (chan src 4 2) r l2 ltac:(lia) Hl2) as [-> Hl2'].
  destruct (encode16_run (chan src 4 3) r l3 ltac:(lia) Hl3) as [-> Hl3']. cbv beta iota.
  destruct (einv_run src 4 full rem size) with (P := fun _ r' : Z => r' < r) (out := out) (c := 0) (r := r) as (o1 & -> & He1); [lia..|done|].
  res_simpl. edestruct (einv_run src 4 full rem size) with (out := o1) (c := 1) (r := r) as (o2 & -> & He2); [lia..|done|].
  res_simpl. edestruct (einv_run src 4 full rem size) with (out := o2) (c := 2) (r := r) as (o3 & -> & He3); [lia..|done|].
  res_simpl. edestruct (einv_run src 4 full rem size) with (out := o3) (c := 3) (r := r) as (o4 & -> & He4); [lia..|done|].
  res_simpl. apply IH; [lia|lia| |done..].
  eapply einv_weaken; [exact He4|]. intros c r' (Hc & _) Hlt. cbn in Hlt |- *. lia.
Qed.

Lemma delta_encode_multi_spec src out ch :
  1 < ch -> zlen src <= zlen out ->
  exists out', delta_encode_multi src out ch = Ok out' /\
    einv src ch (zlen src / ch) (zlen src mod ch) (zlen out) (fun _ _ => True) out'.
Proof.
  intros Hch Hout. unfold delta_encode_multi. cbv zeta. pose proof (zlen_nonneg src).
  set (full := zlen src / ch). set (rem := zlen src mod ch).
  assert (Hfull : 0 <= full) by (apply Z.div_pos; lia). assert (Hrem : 0 <= rem < ch) by (apply Z.mod_pos_bound; lia).
  assert (Hs : zlen src = ch * full + rem) by (apply Z.div_mod; lia). clearbody full rem.
  assert (He0 : einv src ch full rem (zlen out) (fun _ r' => r' < 0) out) by (split; [done|]; intros c r (_ & ? & _) ?; lia).
  assert (Hk : exists r out1,
    (if ch =? 2 then encode_sse2_2 src full rem (S (Z.to_nat full)) 0 v_zero v_zero out
     else if ch =? 4 then encode_sse2_4 src full rem (S (Z.to_nat full)) 0 v_zero v_zero v_zero v_zero out
     else Ok (0, out)) = Ok (r, out1) /\ 0 <= r <= full /\ einv src ch full rem (zlen out) (fun _ r' => r' < r) out1).
  { destruct (Z.eqb_spec ch 2) as [->|]; [apply encode_sse2_2_spec; try done; lia|].
    destruct (Z.eqb_spec ch 4) as [->|]; [apply encode_sse2_4_spec; try done; lia|]. exists 0, out. done. }
  destruct Hk as (r & out1 & -> & Hr & He1). res_simpl. cbv beta iota.
  destruct (eload_prev_spec src ch full rem) with (k := Z.to_nat ch) (c0 := 0) (r := r) (prev := no_prev)
    as (prev & E & Hp); [lia..|]. rewrite Z.sub_0_r in E. rewrite E. res_simpl.
  destruct (encode_rows_spec src ch full rem (zlen out)) with (fuel := S (Z.to_nat full)) (r := r) (prev := prev) (out := out1)
    as (prev2 & out2 & -> & He2 & Hp2); [lia..|done|done|]. res_simpl. cbv beta iota.
  destruct (encode_extra_spec src ch full rem (zlen out)) with (k := Z.to_nat rem) (c0 := 0) (prev := prev2) (out := out2)
    as (out3 & E3 & He3); [lia..| |done|].
  { eapply einv_weaken; [exact He2|]. intros c r' (Hc & _) Hor. cbn in Hor |- *. lia. }
  rewrite Z.sub_0_r in E3. exists out3. split; [exact E3|done].
Qed.

(** ** One channel *)

Section single_spec.
Context (in_place : bool) (src : list Z) (F : Z -> Z).

(** [dest] holds [F] up to [pos] and, in place, the input after it. *)
Definition sinv (pos : Z) (dest : list Z) : Prop :=
  zlen dest = zlen src /\ (forall i, 0 <= i < pos -> nthZ dest i = F i) /\
  (in_place = true -> forall i, pos <= i < zlen src -> nthZ dest i = nthZ src i).

Lemma sinv_start dest : zlen dest = zlen src -> (in_place = true -> dest = src) -> sinv 0 dest.
Proof. intros Hz Hd. split; [done|]. split; [lia|]. intros Hi i _. by rewrite Hd. Qed.

Lemma sinv_seen pos n dest :
  sinv pos dest -> 0 <= pos -> 0 <= n -> pos + n <= zlen src ->
  slice (seen in_place src dest) pos n = Ok (map (nthZ src) (seqZ pos n)).
Proof.
  intros (Hz & _ & Hin) Hp Hn Hl. unfold seen. destruct in_place; [|by apply slice_seqZ].
  rewrite slice_seqZ by lia. f_equal. apply map_ext_in. intros i Hi%list_elem_of_In%elem_of_seqZ. apply Hin; [done|lia].
Qed.

Lemma sinv_byte pos dest :
  sinv pos dest -> 0 <= pos < zlen src -> byte_at (seen in_place src dest) pos = Ok (nthZ src pos).
Proof.
  intros (Hz & _ & Hin) Hp. unfold seen. destruct in_place; [|by apply byte_at_nthZ].
  rewrite byte_at_nthZ by lia. by rewrite Hin by (done || lia).
Qed.

Lemma sinv_store pos n dest :
  sinv pos dest -> 0 <= pos -> 0 <= n -> pos + n <= zlen src ->
  exists dest', store dest pos (map F (seqZ pos n)) = Ok dest' /\ sinv (pos + n) dest'.
Proof.
  intros (Hz & Hdone & Hin) Hp Hn Hl. assert (Hm : zlen (map F (seqZ pos n)) = n) by (by rewrite zlen_map, zlen_seqZ).
  destruct (store_get dest pos (map F (seqZ pos n)) Hp ltac:(lia)) as (dest' & E & Hz' & Hget).
  exists dest'. split; [done|]. rewrite Hm in Hget. split; [lia|]. split.
  - intros i Hi. rewrite Hget by lia. destruct (Z.leb_spec pos i), (Z.ltb_spec i (pos + n)); try lia; cbn [andb].
    + rewrite nthZ_map_seqZ by lia. f_equal. lia.
    + apply Hdone. lia.
  - intros Hip i Hi. rewrite Hget by lia. rewrite (proj2 (Z.ltb_ge i (pos + n))), andb_false_r by lia. apply Hin; [done|lia].
Qed.

Lemma sinv_store1 pos dest :
  sinv pos dest -> 0 <= pos < zlen src -> exists dest', store dest pos [F pos] = Ok dest' /\ sinv (pos + 1) dest'.
Proof.
  intros Hi Hp. destruct (sinv_store pos 1 dest Hi) as (dest' & E & Hi'); [lia..|]. exists dest'.
  rewrite (seqZ_cons pos 1), seqZ_nil in E by lia. by split.
Qed.
End single_spec.

Lemma decode1_sse2_spec in_place src fuel pos dest :
  0 <= pos <= zlen src -> zlen src - pos < Z.of_nat fuel -> sinv in_place src (dval src 0) pos dest ->
  exists pos' dest', decode1_sse2 in_place src fuel pos (replicate 16 (dprev src 0 pos)) dest = Ok (pos', dest') /\
    0 <= pos' <= zlen src /\ sinv in_place src (dval src 0) pos' dest'.
Proof.
  revert pos dest. induction fuel as [|fuel IH]; intros pos dest Hp Hf Hi; [lia|]. cbn [decode1_sse2].
  destruct (Z.leb_spec (pos + 16) (zlen src)); [|by exists pos, dest].
  rewrite (sinv_seen _ _ _ _ _ _ Hi) by lia. res_simpl. pose proof (decode16_run src 0 pos ltac:(lia)) as E.
  rewrite Z.add_0_l in E. rewrite E. cbv beta iota.
  destruct (sinv_store _ _ _ pos 16 dest Hi) as (dest' & -> & Hi'); [lia..|]. res_simpl. apply IH; [lia|lia|done].
Qed.

Lemma decode1_loop_spec in_place src fuel pos prev dest :
  0 <= pos <= zlen src -> zlen src - pos < Z.of_nat fuel -> sinv in_place src (dval src 0) pos dest ->
  prev = dprev src 0 pos ->
  exists dest', decode1_loop in_place src fuel pos prev dest = Ok dest' /\ sinv in_place src (dval src 0) (zlen src) dest'.
Proof.
  revert pos prev dest. induction fuel as [|fuel IH]; intros pos prev dest Hp Hf Hi Hpr; [lia|]. cbn [decode1_loop].
  destruct (Z.ltb_spec pos (zlen src)).
  - rewrite (sinv_byte _ _ _ _ _ Hi) by lia. res_simpl. cbv zeta.
    assert (Ev : u8 (prev - nthZ src pos) = dval src 0 pos) by (rewrite dval_step, Z.add_0_l by lia; by rewrite Hpr).
    rewrite Ev. destruct (sinv_store1 _ _ _ pos dest Hi) as (dest' & -> & Hi'); [lia|]. res_simpl.
    apply IH; [lia|lia|done|]. by rewrite dprev_next by lia.
  - assert (pos = zlen src) as -> by lia. by exists dest.
Qed.

Lemma encode1_sse2_spec in_place src fuel pos last dest :
  0 <= pos <= zlen src -> zlen src - pos < Z.of_nat fuel -> sinv in_place src (eval_ (nthZ src)) pos dest ->
  lreg (nthZ src) pos last ->
  exists pos' last' dest', encode1_sse2 in_place src fuel pos last dest = Ok (pos', last', dest') /\
    0 <= pos' <= zlen src /\ sinv in_place src (eval_ (nthZ src)) pos' dest' /\ lreg (nthZ src) pos' last'.
Proof.
  revert pos last dest. induction fuel as [|fuel IH]; intros pos last dest Hp Hf Hi Hl; [lia|]. cbn [encode1_sse2].
  destruct (Z.leb_spec (pos + 16) (zlen src)); [|by exists pos, last, dest].
  rewrite (sinv_seen _ _ _ _ _ _ Hi) by lia. res_simpl.
  destruct (encode16_run (nthZ src) pos last ltac:(lia) Hl) as [-> Hl']. cbv beta iota.
  destruct (sinv_store _ _ _ pos 16 dest Hi) as (dest' & -> & Hi'); [lia..|]. res_simpl. apply IH; [lia|lia|done|done].
Qed.

Lemma encode1_loop_spec in_place src fuel pos prev dest :
  0 <= pos <= zlen src -> zlen src - pos < Z.of_nat fuel -> sinv in_place src (eval_ (nthZ src)) pos dest ->
  prev = eprev (nthZ src) pos ->
  exists dest', encode1_loop in_place src fuel pos prev dest = Ok dest' /\ sinv in_place src (eval_ (nthZ src)) (zlen src) dest'.
Proof.
  revert pos prev dest. induction fuel as [|fuel IH]; intros pos prev dest Hp Hf Hi Hpr; [lia|]. cbn [encode1_loop].
  destruct (Z.ltb_spec pos (zlen src)).
  - rewrite (sinv_byte _ _ _ _ _ Hi) by lia. res_simpl. rewrite Hpr. change (u8 _) with (eval_ (nthZ src) pos).
    destruct (sinv_store1 _ _ _ pos dest Hi) as (dest' & -> & Hi'); [lia|]. res_simpl.
    apply IH; [lia|lia|done|]. unfold eprev. rewrite (proj2 (Z.eqb_neq _ _)) by lia. f_equal. lia.
  - assert (pos = zlen src) as -> by lia. by exists dest.
Qed.

(** ** The entry points *)

(** The decoded region: byte [i] belongs to channel [i mod channels], row
    [i / channels]. *)
Definition decoded (src : list Z) (channels : Z) : list Z :=
  map (fun i => dval src (delta_plane_base (zlen src / channels) (zlen src mod channels) (i mod channels)) (i / channels))
    (seqZ 0 (zlen src)).

(** The buffers a call is made with. *)
Definition buffers_ok (in_place : bool) (scratch : option (list Z)) (src dest : list Z) : Prop :=
  0 < zlen src /\ zlen dest = zlen src /\ (in_place = true -> dest = src) /\
  (forall out, scratch = Some out -> zlen src <= zlen out).

Definition no_scratch (in_place : bool) (scratch : option (list Z)) (channels : Z) : bool :=
  in_place && (channels >? 1) && match scratch with None => true | Some _ => false end.

(** The scratch detour changes nothing. *)
Lemma with_out_spec in_place scratch src dest channels multi (spec : list Z -> Prop) :
  buffers_ok in_place scratch src dest -> 1 < channels ->
  (forall out, zlen src <= zlen out -> exists out', multi out = Ok out' /\ zlen out' = zlen out /\
    spec (take (Z.to_nat (zlen src)) out')) ->
  if no_scratch in_place scratch channels then with_out in_place scratch src dest multi = Fail
  else exists dest', with_out in_place scratch src dest multi = Ok dest' /\ zlen dest' = zlen src /\ spec dest'.
Proof.
  intros (Hs & Hd & Hip & Hsc) Hch Hm. unfold no_scratch, with_out. rewrite Z.gtb_ltb, (proj2 (Z.ltb_lt _ _)) by lia.
  pose proof (zlen_nonneg src).
  destruct in_place; cbn [andb].
  - destruct scratch as [out|]; [|done]. specialize (Hsc out eq_refl). destruct (Hm out Hsc) as (out' & -> & Hz & Hspec). res_simpl.
    assert (Hsl : slice out' 0 (zlen src) = Ok (take (Z.to_nat (zlen src)) out')).
    { unfold slice. rewrite !(proj2 (Z.leb_le _ _)) by lia. done. }
    rewrite Hsl. res_simpl. assert (Ht : zlen (take (Z.to_nat (zlen src)) out') = zlen src) by (apply zlen_take; lia).
    exists (take (Z.to_nat (zlen src)) out'). split; [|by split].
    pose proof (store_split [] dest [] (take (Z.to_nat (zlen src)) out')) as Est. rewrite !app_nil_r in Est. apply Est. lia.
  - destruct (Hm dest ltac:(lia)) as (out' & -> & Hz & Hspec). exists out'. split; [done|]. split; [lia|].
    rewrite take_ge in Hspec by (unfold zlen in *; lia). done.
Qed.

Lemma single_base n i : delta_plane_base (n / 1) (n mod 1) (i mod 1) = 0 /\ i / 1 = i.
Proof. rewrite !Z.mod_1_r, !Z.div_1_r. by split. Qed.

Lemma apply_delta_spec in_place scratch src dest channels :
  1 <= channels <= 32 -> buffers_ok in_place scratch src dest ->
  apply_delta in_place scratch src dest channels =
    if no_scratch in_place scratch channels then Fail else Ok (decoded src channels).
Proof.
  intros Hch Hbuf. pose proof Hbuf as (Hs & Hd & Hip & _). unfold apply_delta.
  rewrite !(proj2 (Z.eqb_neq _ _)), Z.gtb_ltb, (proj2 (Z.ltb_ge _ _)) by lia. cbn [orb].
  assert (Hext : forall d, zlen d = zlen src -> (forall i, 0 <= i < zlen src -> nthZ d i = nthZ (decoded src channels) i) -> d = decoded src channels).
  { intros d Hz Hn. apply nthZ_ext; [unfold decoded; by rewrite zlen_map, zlen_seqZ by lia|]. intros i Hi. apply Hn. lia. }
  destruct (Z.gtb_spec channels 1) as [Hgt|Hle].
  - pose proof (with_out_spec in_place scratch src dest channels (fun out => delta_decode_multi src out channels)
      (fun d => forall i, 0 <= i < zlen src -> nthZ d i = nthZ (decoded src channels) i) Hbuf Hgt) as Hw.
    destruct (no_scratch _ _ _).
    + apply Hw. intros out Hout. destruct (delta_decode_multi_spec src out channels Hgt Hout) as (out' & E & Hz & Hn).
      exists out'. split; [exact E|]. split; [done|]. intros i Hi. rewrite nthZ_take by lia. rewrite Hn by lia.
      unfold decoded. by rewrite nthZ_map_seqZ by lia.
    + destruct Hw as (d & -> & Hz & Hn); [|by rewrite (Hext d)].
      intros out Hout. destruct (delta_decode_multi_spec src out channels Hgt Hout) as (out' & E & Hz & Hn).
      exists out'. split; [exact E|]. split; [done|]. intros i Hi. rewrite nthZ_take by lia. rewrite Hn by lia.
      unfold decoded. by rewrite nthZ_map_seqZ by lia.
  - assert (channels = 1) as -> by lia. unfold no_scratch. rewrite Z.gtb_ltb, (proj2 (Z.ltb_ge _ _)), andb_false_r by lia. cbn [andb].
    destruct (decode1_sse2_spec in_place src (S (length src)) 0 dest) as (pos & d1 & E & Hp & Hi1);
      [zlen_lia|unfold zlen; lia|by apply sinv_start|].
    change (replicate 16 (dprev src 0 0)) with v_zero in E. rewrite E. res_simpl. cbv beta iota.
    assert (Epv : (if pos =? 0 then Ok 0 else byte_at d1 (pos - 1)) = Ok (dprev src 0 pos)).
    { unfold dprev. destruct (Z.eqb_spec pos 0); [done|]. destruct Hi1 as (Hz1 & Hn1 & _). rewrite byte_at_nthZ by lia. by rewrite Hn1 by lia. }
    rewrite Epv. res_simpl.
    destruct (decode1_loop_spec in_place src (S (length src)) pos (dprev src 0 pos) d1) as (d2 & -> & Hz2 & Hn2 & _);
      [done|unfold zlen; lia|done|done|].
    rewrite (Hext d2 Hz2); [done|]. intros i Hi. rewrite Hn2 by done. unfold decoded. rewrite nthZ_map_seqZ, Z.add_0_l by lia.
    destruct (single_base (zlen src) i) as [-> ->]. done.
Qed.

(** The encoded region: every cell of every plane. *)
Definition encoded (src enc : list Z) (channels : Z) : Prop :=
  zlen enc = zlen src /\
  forall c r, cell channels (zlen src / channels) (zlen src mod channels) c r ->
    nthZ enc (delta_plane_base (zlen src / channels) (zlen src mod channels) c + r) = eval_ (chan src channels c) r.

Lemma encode_delta_spec in_place scratch src dest channels :
  1 <= channels <= 32 -> buffers_ok in_place scratch src dest ->
  if no_scratch in_place scratch channels then encode_delta in_place scratch src dest channels = Fail
  else exists enc, encode_delta in_place scratch src dest channels = Ok enc /\ encoded src enc channels.
Proof.
  intros Hch Hbuf. pose proof Hbuf as (Hs & Hd & Hip & _). unfold encode_delta.
  rewrite !(proj2 (Z.eqb_neq _ _)), Z.gtb_ltb, (proj2 (Z.ltb_ge _ _)) by lia. cbn [orb].
  destruct (Z.gtb_spec channels 1) as [Hgt|Hle].
  - pose proof (with_out_spec in_place scratch src dest channels (fun out => delta_encode_multi src out channels)
      (fun d => encoded src d channels) Hbuf Hgt) as Hw.
    assert (Hm : forall out, zlen src <= zlen out -> exists out', delta_encode_multi src out channels = Ok out' /\
      zlen out' = zlen out /\ encoded src (take (Z.to_nat (zlen src)) out') channels).
    { intros out Hout. destruct (delta_encode_multi_spec src out channels Hgt Hout) as (out' & E & Hz & Hn).
      exists out'. split; [exact E|]. split; [done|]. split; [apply zlen_take; lia|]. intros c r Hc. pose proof Hc as (Hc0 & Hr & Hrow).
      assert (Hs2 : zlen src = channels * (zlen src / channels) + zlen src mod channels) by (apply Z.div_mod; lia).
      destruct (plane_bounds channels (zlen src / channels) (zlen src mod channels) c r) as [Hb _];
        [apply Z.mod_pos_bound; lia|apply Z.div_pos; lia|done..|].
      rewrite nthZ_take by lia. by apply Hn. }
    specialize (Hw Hm). destruct (no_scratch _ _ _); [done|]. destruct Hw as (d & -> & _ & He). by exists d.
  - assert (channels = 1) as -> by lia. unfold no_scratch. rewrite Z.gtb_ltb, (proj2 (Z.ltb_ge _ _)), andb_false_r by lia. cbn [andb].
    destruct (encode1_sse2_spec in_place src (S (length src)) 0 v_zero dest) as (pos & last & d1 & -> & Hp & Hi1 & [Hll Hlp]);
      [zlen_lia|unfold zlen; lia|by apply sinv_start|apply lreg_zero|]. res_simpl. cbv beta iota zeta.
    assert (Epv : (if pos =? 0 then 0 else nth 0 (v_srli last 15) 0) = eprev (nthZ src) pos).
    { rewrite <- Hlp. destruct (Z.eqb_spec pos 0) as [->|]; [by rewrite Hlp|]. lanes16 last. done. }
    rewrite Epv. destruct (encode1_loop_spec in_place src (S (length src)) pos (eprev (nthZ src) pos) d1) as (d2 & -> & Hz2 & Hn2 & _);
      [done|unfold zlen; lia|done|done|].
    exists d2. split; [done|]. split; [done|]. intros c r (Hc & Hr & Hrow). assert (c = 0) as -> by lia.
    rewrite Z.mod_1_r, Z.div_1_r in Hrow |- *. unfold delta_plane_base. cbn [Z.mul Z.ltb Z.compare]. rewrite Z.add_0_l, Hn2 by lia.
    unfold eval_, eprev, chan. rewrite !Z.mul_1_r, !Z.add_0_r. done.
Qed.

(** The decoder undoes the encoder, channel by channel. *)
Lemma decoded_encoded src enc channels :
  1 <= channels -> bytes src -> encoded src enc channels -> decoded enc channels = src.
Proof.
  intros Hch Hb [Hz He]. pose proof (zlen_nonneg src).
  set (full := zlen src / channels) in *. set (rem := zlen src mod channels) in *.
  assert (Hs : zlen src = channels * full + rem) by (apply Z.div_mod; lia).
  assert (Hrem : 0 <= rem < channels) by (apply Z.mod_pos_bound; lia).
  assert (Hval : forall n c, cell channels full rem c (Z.of_nat n) ->
    dval enc (delta_plane_base full rem c) (Z.of_nat n) = chan src channels c (Z.of_nat n)).
  { induction n as [|n IH]; intros c Hc; rewrite dval_step by lia; rewrite He by done; unfold eval_, dprev, eprev.
    - change (Z.of_nat 0 =? 0) with true. cbv iota.
      assert (Hx : is_byte (chan src channels c (Z.of_nat 0))) by (by apply nthZ_byte). unfold is_byte in Hx. unfold wrap. dlia.
    - rewrite (proj2 (Z.eqb_neq _ _)) by lia. replace (Z.of_nat (S n) - 1) with (Z.of_nat n) by lia.
      rewrite IH by (destruct Hc as (? & ? & ?); split; [done|]; split; lia).
      assert (Hx : is_byte (chan src channels c (Z.of_nat (S n)))) by (by apply nthZ_byte). unfold is_byte in Hx.
      unfold wrap. dlia. }
  apply nthZ_ext; [unfold decoded; by rewrite zlen_map, zlen_seqZ by lia|]. unfold decoded. rewrite zlen_map, zlen_seqZ, Hz by lia.
  fold full rem. intros i Hi. rewrite nthZ_map_seqZ, Z.add_0_l by lia.
  assert (Hmod : 0 <= i mod channels < channels) by (apply Z.mod_pos_bound; lia).
  pose proof (Z.div_mod i channels ltac:(lia)) as Hdm. assert (Hdiv : 0 <= i / channels) by (apply Z.div_pos; lia).
  rewrite <- (Z2Nat.id (i / channels)) by done. rewrite Hval; [rewrite Z2Nat.id by done; unfold chan; f_equal; lia|].
  split; [done|]. rewrite Z2Nat.id by done. split; [done|]. assert (i / channels <= full) by nia. nia.
Qed.

(** ** Properties *)

(** C26. The decoder computes the reference filter: for every channel count
    from 1 to 32, on every buffer, in place or into another buffer, whatever
    the SSE2 kernels cover (1, 2 and 4 channels) and the scalar tails finish,
    each output byte is the previous byte of its channel minus the byte read
    from the channel's plane, and every access stays inside the buffers; other
    counts and empty buffers are refused, as is an in-place call without
    scratch. *)
Theorem apply_delta_reference (in_place : bool) (scratch : option (list Z)) (src dest : list Z) (channels : Z) :
  buffers_ok in_place scratch src dest ->
  (1 <= channels <= 32 ->
    apply_delta in_place scratch src dest channels =
      if no_scratch in_place scratch channels then Fail else Ok (decoded src channels)) /\
  (channels = 0 \/ 32 < channels -> apply_delta in_place scratch src dest channels = Fail).
Proof.
  intros Hb. split; [intros Hc; by apply apply_delta_spec|]. intros Hc. unfold apply_delta.
  destruct Hc as [->|Hc]; [done|]. rewrite Z.gtb_ltb, (proj2 (Z.ltb_lt _ _)), orb_true_r by done. done.
Qed.

Lemma apply_delta_reference_witness :
  let src := map (fun k => (k * k) mod 256) (seqZ 3 133) in
  exists out, apply_delta true (Some (replicate 200 0xAA)) src src 4 = Ok out /\ out = decoded src 4.
Proof.
  cbv zeta. set (src := map (fun k => (k * k) mod 256) (seqZ 3 133)).
  destruct (apply_delta_reference true (Some (replicate 200 0xAA)) src src 4) as [H _].
  - split; [vm_compute; reflexivity|]. split; [reflexivity|]. split; [reflexivity|].
    intros out Ho. assert (out = replicate 200 0xAA) as -> by congruence. vm_compute. discriminate.
  - exists (decoded src 4). split; [apply H; lia|reflexivity].
Defined.

(** C25. Delta round trip: what [encode_delta] writes, for any channel count
    from 1 to 32, [apply_delta] turns back into the input, each of the two in
    place or not and with any scratch contents, partial last rows included. *)
Theorem delta_roundtrip (in_place in_place' : bool) (scratch scratch' : option (list Z)) (src dest dest' : list Z) (channels : Z) :
  bytes src -> 1 <= channels <= 32 -> buffers_ok in_place scratch src dest ->
  no_scratch in_place scratch channels = false ->
  exists enc, encode_delta in_place scratch src dest channels = Ok enc /\ zlen enc = zlen src /\
    (buffers_ok in_place' scratch' enc dest' -> no_scratch in_place' scratch' channels = false ->
     apply_delta in_place' scratch' enc dest' channels = Ok src).
Proof.
  intros Hb Hc Hbuf Hs. pose proof (encode_delta_spec in_place scratch src dest channels Hc Hbuf) as He. rewrite Hs in He.
  destruct He as (enc & E & Henc). exists enc. split; [done|]. split; [by destruct Henc|]. intros Hbuf' Hs'.
  rewrite apply_delta_spec, Hs' by done. f_equal. apply decoded_encoded; [lia|done|done].
Qed.

Lemma delta_roundtrip_witness :
  let src := map (fun k => (k * k) mod 256) (seqZ 3 69) in
  exists enc, encode_delta false None src (replicate 69 0) 2 = Ok enc /\ enc <> src /\
    apply_delta false None enc src 2 = Ok src.
Proof.
  cbv zeta. set (src := map (fun k => (k * k) mod 256) (seqZ 3 69)).
  destruct (delta_roundtrip false false None None src (replicate 69 0) src 2) as (enc & E & Hl & Hd).
  - bytes_const.
  - lia.
  - split; [vm_compute; reflexivity|]. split; [reflexivity|]. split; [discriminate|discriminate].
  - reflexivity.
  - exists enc. split; [exact E|]. split; [intros ->; vm_compute in E; discriminate E|].
    apply Hd; [|reflexivity]. split; [rewrite Hl; vm_compute; reflexivity|]. split; [symmetry; exact Hl|]. split; discriminate.
Defined.
