(* ===== verification/BitReader.v ===== *)
(** The bit reader of the RAR 5.0 decoder
    ([src/compress/decompressor50.cpp], [BitReader]).

    [BitSource] is the interface the decoder is written against; [BitReader]
    is its implementation with a 64-bit accumulator refilled from staged bytes
    or from an input callback, and [Bits] its specification: a list of bits,
    zero-padded past its end.  The implementation's theorems discharge
    [BitSourceLaws]. *)

From Stdlib Require Import ZArith Lia.
From stdpp Require Import base tactics list numbers.
From S2P Require Import Prelude Bytes.

Local Open Scope Z_scope.

(** ** The interface *)

Class BitSource (R : Type) := {
  bits_remaining : R -> Z;
  truncated : R -> bool;
  bit_pos : R -> Z;
  peek_bits : R -> Z -> res (Z * R);
  get_bits : R -> Z -> res (Z * R);
  get_bits64 : R -> Z -> res (Z * R);
  consume_bits : R -> Z -> res R
}.

(** [align_byte] and [byte_pos] *)
Definition align_byte {R} `{BitSource R} (r : R) : res R :=
  let k := Z.land (bit_pos r) 7 in
  if negb (k =? 0) then consume_bits r (8 - k) else Ok r.

Definition byte_pos {R} `{BitSource R} (r : R) : Z := bit_pos r / 8.

(** ** The input callback

    [cb_read c max_size] is one call: the count the callback claims, the first
    [max_size] bytes of the staging buffer after the call, and its new state.
    It is code of the embedding, so nothing is assumed of the count beyond
    what [CallbackLaws] says of a callback that delivers a given stream. *)

Class InputCallback (C : Type) := { cb_read : C -> Z -> Z * list Z * C }.

Class CallbackLaws (C : Type) `{InputCallback C} := {
  cb_stream : C -> list Z -> Prop;
  cb_read_law : forall c rest m, cb_stream c rest -> bytes rest -> 0 < m <= zlen rest ->
    let '(n, buf, c') := cb_read c m in
    1 <= n /\ zlen buf = m /\
    exists rest', rest = take (Z.to_nat (Z.min n m)) buf ++ rest' /\ cb_stream c' rest'
}.

(** No callback: a reader over memory. *)
#[export] Instance no_callback : InputCallback Empty_set := {
  cb_read := fun (c : Empty_set) _ => match c with end
}.

#[export] Instance no_callback_laws : CallbackLaws Empty_set.
Proof. by refine {| cb_stream := fun (c : Empty_set) _ => match c with end |}; intros []. Defined.

(** ** The implementation *)

Record BitReader (C : Type) := {
  br_cb : option C;
  br_p : list Z;       (* the bytes from p_ to end_ *)
  br_acc : Z;
  br_n : Z;
  br_consumed : Z;
  br_size : Z;
  br_fetched : Z;
  br_truncated : bool
}.

Arguments br_cb {C} b.
Arguments br_p {C} b.
Arguments br_acc {C} b.
Arguments br_n {C} b.
Arguments br_consumed {C} b.
Arguments br_size {C} b.
Arguments br_fetched {C} b.
Arguments br_truncated {C} b.

Section reader.
Context {C : Type} `{InputCallback C}.

Definition BitReader_memory (data : list Z) : BitReader C :=
  {| br_cb := None; br_p := data; br_acc := 0; br_n := 0; br_consumed := 0;
     br_size := zlen data; br_fetched := zlen data; br_truncated := false |}.

Definition BitReader_callback (cb : C) (size : Z) : BitReader C :=
  {| br_cb := Some cb; br_p := []; br_acc := 0; br_n := 0; br_consumed := 0;
     br_size := size; br_fetched := 0; br_truncated := false |}.

Definition br_set (r : BitReader C) (p : list Z) (acc n consumed : Z) (tr : bool) : BitReader C :=
  {| br_cb := br_cb r; br_p := p; br_acc := acc; br_n := n; br_consumed := consumed;
     br_size := br_size r; br_fetched := br_fetched r; br_truncated := tr |}.

Definition fetch_chunk (r : BitReader C) : bool * BitReader C :=
  match br_cb r with
  | None => (false, r)
  | Some cb =>
      if br_fetched r >=? br_size r then (false, r)
      else
        let to_read := Z.min 65536 (br_size r - br_fetched r) in
        let '(n, buf, cb) := cb_read cb to_read in
        let n := Z.min n to_read in
        (negb (n =? 0),
         {| br_cb := Some cb; br_p := take (Z.to_nat n) buf; br_acc := br_acc r; br_n := br_n r;
            br_consumed := br_consumed r; br_size := br_size r;
            br_fetched := u64 (br_fetched r + n); br_truncated := br_truncated r |})
  end.

(** Move [k] staged bytes, the most significant first, into the accumulator. *)
Definition stage (r : BitReader C) (k v : Z) : BitReader C :=
  let acc := if k =? 8 then v else Z.lor (u64 (Z.shiftl (br_acc r) (8 * k))) v in
  br_set r (drop (Z.to_nat k) (br_p r)) acc (br_n r + 8 * k) (br_consumed r) (br_truncated r).

Fixpoint refill_loop (fuel : nat) (r : BitReader C) : res (BitReader C) :=
  match fuel with
  | O => Fuel
  | S fuel' =>
      let '(more, r) := if zlen (br_p r) =? 0 then fetch_chunk r else (true, r) in
      if negb more then Ok r
      else
        let k := Z.min ((64 - br_n r) / 8) (zlen (br_p r)) in
        if k =? 0 then Ok r
        else
          let v := be_val (take (Z.to_nat k) (br_p r) ++ replicate (Z.to_nat (8 - k)) 0) in
          let r := stage r k (Z.shiftr v (64 - 8 * k)) in
          if br_n r >=? 57 then Ok r else refill_loop fuel' r
  end.

Definition refill (r : BitReader C) : res (BitReader C) :=
  if br_n r >? 56 then Ok r
  else if zlen (br_p r) >=? 8 then
    let v := be_val (take 8 (br_p r)) in
    let k := Z.shiftr (64 - br_n r) 3 in
    Ok (stage r k (Z.shiftr v (64 - k * 8)))
  else refill_loop 8 r.

Definition br_bits_remaining (r : BitReader C) : Z :=
  u64 (u64 (zlen (br_p r) + u64 (br_size r - br_fetched r)) * 8 + br_n r).

Definition br_peek_bits (r : BitReader C) (count : Z) : res (Z * BitReader C) :=
  if count =? 0 then Ok (0, r)
  else
    let count := if count >? 32 then 32 else count in
    r ← (if br_n r <? count then refill r else Ok r);
    let take_ := Z.min count (br_n r) in
    if take_ =? count then mret (u32 (Z.shiftr (br_acc r) (br_n r - count)), r)
    else if take_ =? 0 then mret (0, r)
    else mret (u32 (Z.shiftl (u32 (Z.shiftr (br_acc r) (br_n r - take_))) (count - take_)), r).

Definition br_peek_bits64 (r : BitReader C) (count : Z) : res (Z * BitReader C) :=
  if count =? 0 then Ok (0, r)
  else
    let count := if count >? 64 then 64 else count in
    r ← (if br_n r <? count then refill r else Ok r);
    let take_ := Z.min count (br_n r) in
    if take_ =? count then mret (Z.shiftr (br_acc r) (br_n r - count), r)
    else
      let r := if (br_n r >=? 57) && (zlen (br_p r) =? 0) then snd (fetch_chunk r) else r in
      match br_p r with
      | next :: _ =>
          if br_n r >=? 57 then
            let extra := count - br_n r in
            mret (Z.lor (u64 (Z.shiftl (br_acc r) extra)) (Z.shiftr next (8 - extra)), r)
          else mret ((if take_ =? 0 then 0
                      else u64 (Z.shiftl (Z.shiftr (br_acc r) (br_n r - take_)) (count - take_))), r)
      | [] => mret ((if take_ =? 0 then 0
                     else u64 (Z.shiftl (Z.shiftr (br_acc r) (br_n r - take_)) (count - take_))), r)
      end.

(** [acc_ &= (n_ ? (1 << n_) - 1 : 0)] after dropping [count] bits. *)
Definition drop_bits (r : BitReader C) (count : Z) : BitReader C :=
  let n := br_n r - count in
  br_set r (br_p r) (Z.land (br_acc r) (if negb (n =? 0) then Z.shiftl 1 n - 1 else 0)) n
    (u64 (br_consumed r + count)) (br_truncated r).

Definition br_get_bits (r : BitReader C) (count : Z) : res (Z * BitReader C) :=
  if count =? 0 then Ok (0, r)
  else
    let count := if count >? 32 then 32 else count in
    r ← (if br_n r <? count then refill r else Ok r);
    if br_n r >=? count then
      mret (u32 (Z.shiftr (br_acc r) (br_n r - count)), drop_bits r count)
    else
      let take_ := br_n r in
      let val := if negb (take_ =? 0) then u32 (Z.shiftl (u32 (br_acc r)) (count - take_)) else 0 in
      mret (val, br_set r (br_p r) 0 0 (u64 (br_consumed r + take_)) true).

Fixpoint consume_loop (fuel : nat) (r : BitReader C) (count : Z) : res (BitReader C) :=
  match fuel with
  | O => Fuel
  | S fuel' =>
      if count >? 0 then
        r ← (if br_n r =? 0 then refill r else Ok r);
        if br_n r =? 0 then Ok (br_set r (br_p r) (br_acc r) (br_n r) (br_consumed r) true)
        else
          let take_ := Z.min count (br_n r) in
          consume_loop fuel' (drop_bits r take_) (count - take_)
      else Ok r
  end.

Definition br_consume_bits (r : BitReader C) (count : Z) : res (BitReader C) :=
  if count =? 0 then Ok r
  else if br_n r >=? count then Ok (drop_bits r count)
  else consume_loop (S (Z.to_nat count)) r count.

(** The recursive calls ask for at most 32 bits, which never recurse: depth 2. *)
Fixpoint get_bits64_rec (depth : nat) (r : BitReader C) (count : Z) : res (Z * BitReader C) :=
  match depth with
  | O => Fuel
  | S depth' =>
      if count =? 0 then Ok (0, r)
      else
        let count := if count >? 64 then 64 else count in
        r ← (if br_n r <? count then refill r else Ok r);
        if br_n r >=? count then
          let val := if count =? 64 then br_acc r
                     else Z.land (Z.shiftr (br_acc r) (br_n r - count)) (Z.shiftl 1 count - 1) in
          r ← br_consume_bits r count;
          mret (val, r)
        else if count >? 32 then
          '(high, r) ← get_bits64_rec depth' r (count - 32);
          '(low, r) ← get_bits64_rec depth' r 32;
          mret (Z.lor (u64 (Z.shiftl high 32)) low, r)
        else
          '(val, r) ← br_peek_bits64 r count;
          r ← br_consume_bits r count;
          mret (val, r)
  end.

Definition br_get_bits64 : BitReader C -> Z -> res (Z * BitReader C) := get_bits64_rec 2.
End reader.

#[export] Instance BitReader_source {C} `{InputCallback C} : BitSource (BitReader C) := {
  bits_remaining := br_bits_remaining;
  truncated := br_truncated;
  bit_pos := br_consumed;
  peek_bits := br_peek_bits;
  get_bits := br_get_bits;
  get_bits64 := br_get_bits64;
  consume_bits := br_consume_bits
}.

(** ** The specification: a list of bits *)

Definition bits_val (l : list bool) : Z := fold_left (fun a b => 2 * a + Z.b2z b) l 0.

Fixpoint zbits (n : nat) (z : Z) : list bool :=
  match n with O => [] | S n' => Z.testbit z (Z.of_nat n') :: zbits n' z end.

Definition bytes_bits (l : list Z) : list bool := concat (map (zbits 8) l).

Record Bits := { bt_bits : list bool; bt_pos : Z; bt_trunc : bool }.

Definition bits_of_bytes (data : list Z) : Bits :=
  {| bt_bits := bytes_bits data; bt_pos := 0; bt_trunc := false |}.

(** The next [n] bits, zero-padded. *)
Definition padded (n : Z) (l : list bool) : Z :=
  bits_val (take (Z.to_nat n) l ++ replicate (Z.to_nat (n - zlen l)) false).

Definition bt_consume (b : Bits) (n : Z) : Bits :=
  {| bt_bits := drop (Z.to_nat n) (bt_bits b);
     bt_pos := bt_pos b + Z.min n (zlen (bt_bits b));
     bt_trunc := bt_trunc b || (zlen (bt_bits b) <? n) |}.

#[export] Instance Bits_source : BitSource Bits := {
  bits_remaining b := zlen (bt_bits b);
  truncated := bt_trunc;
  bit_pos := bt_pos;
  peek_bits b n := Ok (padded (Z.min n 32) (bt_bits b), b);
  get_bits b n := Ok (padded (Z.min n 32) (bt_bits b), bt_consume b (Z.min n 32));
  get_bits64 b n := Ok (padded (Z.min n 64) (bt_bits b), bt_consume b (Z.min n 64));
  consume_bits b n := Ok (bt_consume b n)
}.

(** A routine over the source refines the same routine over the bits. *)
Definition refines {R A} (abs : R -> Bits -> Prop) (m : res (A * R)) (s : res (A * Bits)) : Prop :=
  match s with
  | Ok (a, b) => exists r, m = Ok (a, r) /\ abs r b
  | Fail => m = Fail
  | Fault => m = Fault
  | Fuel => m = Fuel
  end.

Class BitSourceLaws (R : Type) `{BitSource R} := {
  bits_abs : R -> Bits -> Prop;
  bits_remaining_law : forall r b, bits_abs r b -> bits_remaining r = bits_remaining b;
  truncated_law : forall r b, bits_abs r b -> truncated r = truncated b;
  bit_pos_law : forall r b, bits_abs r b -> bit_pos r = bit_pos b;
  peek_bits_law : forall r b n, bits_abs r b -> 0 <= n -> refines bits_abs (peek_bits r n) (peek_bits b n);
  get_bits_law : forall r b n, bits_abs r b -> 0 <= n -> refines bits_abs (get_bits r n) (get_bits b n);
  get_bits64_law : forall r b n, bits_abs r b -> 0 <= n -> refines bits_abs (get_bits64 r n) (get_bits64 b n);
  consume_bits_law : forall r b n, bits_abs r b -> 0 <= n ->
    exists r', consume_bits r n = Ok r' /\ bits_abs r' (bt_consume b n)
}.

(** ** Values of bit lists *)

Lemma bits_val_fold l a : fold_left (fun a b => 2 * a + Z.b2z b) l a = a * 2 ^ zlen l + bits_val l.
Proof.
  unfold bits_val. revert a. induction l as [|b l IH]; intros a; [cbn [fold_left]; rewrite zlen_nil; lia|].
  rewrite zlen_cons, Z.pow_add_r by zlen_lia. cbn [fold_left].
  rewrite (IH (2 * a + _)), (IH (2 * 0 + _)). lia.
Qed.

Lemma bits_val_app a b : bits_val (a ++ b) = bits_val a * 2 ^ zlen b + bits_val b.
Proof. unfold bits_val at 1. rewrite fold_left_app. apply bits_val_fold. Qed.

Lemma bits_val_cons x l : bits_val (x :: l) = Z.b2z x * 2 ^ zlen l + bits_val l.
Proof. apply (bits_val_app [x]). Qed.

Lemma bits_val_range l : 0 <= bits_val l < 2 ^ zlen l.
Proof.
  induction l as [|b l IH]; [change (0 <= 0 < 1); lia|]. rewrite bits_val_cons, zlen_cons, Z.pow_add_r by zlen_lia.
  destruct b; cbn [Z.b2z]; lia.
Qed.

Lemma bits_val_false n : bits_val (replicate n false) = 0.
Proof. induction n as [|n IH]; [done|]. cbn [replicate]. rewrite bits_val_cons, IH. done. Qed.

Lemma zlen_zbits n z : zlen (zbits n z) = Z.of_nat n.
Proof. induction n as [|n IH]; [done|]. cbn [zbits]. rewrite zlen_cons, IH. lia. Qed.

Lemma bits_val_zbits n z : bits_val (zbits n z) = z mod 2 ^ Z.of_nat n.
Proof.
  induction n as [|n IH]; [by rewrite Z.mod_1_r|]. cbn [zbits].
  rewrite bits_val_cons, IH, zlen_zbits. rewrite Nat2Z.inj_succ, <- Z.add_1_r.
  rewrite (Z.pow_add_r 2 (Z.of_nat n) 1) by lia. change (2 ^ 1) with 2.
  rewrite Z.rem_mul_r by lia. rewrite Z.testbit_spec' by lia. lia.
Qed.

Lemma bits_val_inj a b : zlen a = zlen b -> bits_val a = bits_val b -> a = b.
Proof.
  revert b. induction a as [|x a IH]; intros [|y b] L E; try (exfalso; zlen_lia); [done|].
  rewrite !zlen_cons in L. assert (L' : zlen a = zlen b) by lia. rewrite !bits_val_cons, L' in E.
  pose proof (bits_val_range a). pose proof (bits_val_range b). rewrite L' in *.
  assert (x = y /\ bits_val a = bits_val b) as [-> Ev] by (destruct x, y; cbn [Z.b2z] in E; split; try done; lia).
  f_equal. by apply IH.
Qed.

Lemma zbits_val l : zbits (length l) (bits_val l) = l.
Proof.
  apply bits_val_inj; [by rewrite zlen_zbits|]. rewrite bits_val_zbits. apply Z.mod_small, bits_val_range.
Qed.

(** *** Bits of bytes *)

Lemma bytes_bits_cons b l : bytes_bits (b :: l) = zbits 8 b ++ bytes_bits l.
Proof. done. Qed.

Lemma bytes_bits_app a b : bytes_bits (a ++ b) = bytes_bits a ++ bytes_bits b.
Proof. unfold bytes_bits. by rewrite map_app, concat_app. Qed.

Lemma zlen_bytes_bits l : zlen (bytes_bits l) = 8 * zlen l.
Proof.
  induction l as [|b l IH]; [done|]. rewrite bytes_bits_cons, zlen_app, zlen_zbits, zlen_cons, IH. lia.
Qed.

Lemma be_val_cons b l : be_val (b :: l) = b * 256 ^ zlen l + be_val l.
Proof.
  unfold be_val. rewrite reverse_cons, le_val_app, zlen_rev. cbn [le_val]. lia.
Qed.

Lemma be_val_app a b : be_val (a ++ b) = be_val a * 256 ^ zlen b + be_val b.
Proof. unfold be_val. rewrite reverse_app, le_val_app, zlen_rev. lia. Qed.

Lemma be_val_bits l : bytes l -> bits_val (bytes_bits l) = be_val l.
Proof.
  induction 1 as [|b l Hb _ IH]; [done|].
  rewrite bytes_bits_cons, bits_val_app, IH, be_val_cons, bits_val_zbits, zlen_bytes_bits.
  change (2 ^ Z.of_nat 8) with 256. rewrite Z.mod_small by done.
  rewrite Z.pow_mul_r by zlen_lia. done.
Qed.

(** *** Shifts and masks of a split accumulator *)

Lemma bits_val_shiftr a b : Z.shiftr (bits_val (a ++ b)) (zlen b) = bits_val a.
Proof.
  rewrite Z.shiftr_div_pow2 by zlen_lia. rewrite bits_val_app.
  symmetry. eapply Z.div_unique_pos; [apply bits_val_range|lia].
Qed.

Lemma bits_val_mod a b : bits_val (a ++ b) mod 2 ^ zlen b = bits_val b.
Proof.
  rewrite bits_val_app. symmetry. apply Z.mod_unique_pos with (bits_val a); [apply bits_val_range|]. lia.
Qed.

Lemma bits_val_mask a b :
  Z.land (bits_val (a ++ b)) (if negb (zlen b =? 0) then Z.shiftl 1 (zlen b) - 1 else 0) = bits_val b.
Proof.
  replace (if negb (zlen b =? 0) then Z.shiftl 1 (zlen b) - 1 else 0) with (Z.ones (zlen b)).
  - rewrite Z.land_ones by zlen_lia. apply bits_val_mod.
  - destruct (Z.eqb_spec (zlen b) 0) as [->|]; [done|]. cbn [negb].
    rewrite Z.ones_equiv, Z.shiftl_1_l. lia.
Qed.

Lemma bits_val_lor a b :
  zlen a + zlen b <= 64 -> Z.lor (u64 (Z.shiftl (bits_val a) (zlen b))) (bits_val b) = bits_val (a ++ b).
Proof.
  intros L. pose proof (bits_val_range a). pose proof (bits_val_range b).
  assert (2 ^ (zlen a + zlen b) <= 2 ^ 64) by (apply Z.pow_le_mono_r; lia).
  rewrite Z.pow_add_r in * by zlen_lia.
  rewrite wrap_small; [|rewrite Z.shiftl_mul_pow2 by zlen_lia; split; [apply Z.mul_nonneg_nonneg; lia|];
    apply Z.lt_le_trans with (2 ^ zlen a * 2 ^ zlen b); [apply Z.mul_lt_mono_pos_r; lia|lia]].
  rewrite lor_shiftl_add_l by (done || zlen_lia). rewrite bits_val_app. lia.
Qed.

Lemma padded_short n l : zlen l <= n -> padded n l = bits_val l * 2 ^ (n - zlen l).
Proof.
  intros H. unfold padded. rewrite take_ge by (unfold zlen in H; lia).
  rewrite bits_val_app, bits_val_false, zlen_replicate. rewrite Z2Nat.id by lia. lia.
Qed.

Lemma padded_full n a b : zlen a = n -> padded n (a ++ b) = bits_val a.
Proof.
  intros <-. unfold padded. rewrite zlen_app.
  replace (Z.to_nat (zlen a - (zlen a + zlen b))) with O by zlen_lia.
  unfold zlen. rewrite Nat2Z.id, take_app_length. by rewrite app_nil_r.
Qed.

Lemma padded_range n l : 0 <= n -> 0 <= padded n l < 2 ^ n.
Proof.
  intros Hn. unfold padded. pose proof (bits_val_range (take (Z.to_nat n) l ++ replicate (Z.to_nat (n - zlen l)) false)) as R.
  replace (zlen (take (Z.to_nat n) l ++ replicate (Z.to_nat (n - zlen l)) false)) with n in R; [done|].
  rewrite zlen_app, zlen_replicate. unfold zlen. rewrite length_take. lia.
Qed.

Lemma padded_0 l : padded 0 l = 0.
Proof. pose proof (padded_range 0 l ltac:(lia)). lia. Qed.

Lemma padded_add m n l :
  0 <= m -> 0 <= n -> padded (m + n) l = padded m l * 2 ^ n + padded n (drop (Z.to_nat m) l).
Proof.
  intros Hm Hn. unfold padded.
  assert (L : zlen (drop (Z.to_nat m) l) = Z.max 0 (zlen l - m)) by (unfold zlen; rewrite length_drop; lia).
  set (x := take (Z.to_nat m) l ++ _). set (y := take (Z.to_nat n) (drop _ l) ++ _).
  assert (Ly : zlen y = n).
  { subst y. rewrite zlen_app, zlen_replicate, L. unfold zlen. rewrite length_take, length_drop. lia. }
  replace (2 ^ n) with (2 ^ zlen y) by (by rewrite Ly). rewrite <- bits_val_app. f_equal. subst x y. rewrite L.
  replace (Z.to_nat (m + n)) with (Z.to_nat m + Z.to_nat n)%nat by lia.
  rewrite <- take_take_drop, <- app_assoc.
  destruct (Z.leb_spec m (zlen l)) as [Hl|Hl].
  - replace (Z.to_nat (m - zlen l)) with O by lia. cbn [replicate app]. rewrite <- app_assoc. cbn [app]. do 3 f_equal. lia.
  - rewrite (drop_ge l) by (unfold zlen in Hl; lia). rewrite take_nil, <- app_assoc. cbn [app].
    f_equal. rewrite <- replicate_add. f_equal. zlen_pose. lia.
Qed.

Lemma split_bits n (l : list bool) :
  0 <= n <= zlen l -> exists a b, l = a ++ b /\ zlen a = n.
Proof.
  intros H. exists (take (Z.to_nat n) l), (drop (Z.to_nat n) l).
  split; [by rewrite take_drop|by apply zlen_take].
Qed.

Lemma be_val_shiftr x y : bytes x -> bytes y -> Z.shiftr (be_val (x ++ y)) (8 * zlen y) = be_val x.
Proof.
  intros Hx Hy. rewrite <- !be_val_bits, bytes_bits_app, <- zlen_bytes_bits by bytes_solve.
  apply bits_val_shiftr.
Qed.

(** ** The implementation refines the specification *)

Section refinement.
Context {C : Type} `{CallbackLaws C}.
Implicit Types (r : BitReader C) (b : Bits).

Definition rest_of (cb : option C) (rest : list Z) : Prop :=
  match cb with None => rest = [] | Some c => cb_stream c rest end.

(** The accumulator holds the bits [a], the callback still has [rest]. *)
Record br_view r (a : list bool) (rest : list Z) b : Prop := {
  bv_acc : br_acc r = bits_val a;
  bv_n : br_n r = zlen a;
  bv_fits : zlen a <= 64;
  bv_staged : bytes (br_p r);
  bv_rest : bytes rest;
  bv_cb : rest_of (br_cb r) rest;
  bv_size : br_size r = br_fetched r + zlen rest;
  bv_fetched : 0 <= br_fetched r /\ br_size r < 2 ^ 61;
  bv_bits : bt_bits b = a ++ bytes_bits (br_p r ++ rest);
  bv_pos : br_consumed r = bt_pos b;
  bv_trunc : br_truncated r = bt_trunc b;
  bv_range : 0 <= bt_pos b /\ bt_pos b + zlen (bt_bits b) < 2 ^ 64
}.

Definition br_abs r b : Prop := exists a rest, br_view r a rest b.

Lemma bytes_view_nil r a b : br_view r a [] b -> br_p r = [] -> bt_bits b = a.
Proof. intros V E. rewrite (bv_bits _ _ _ _ V), E. apply app_nil_r. Qed.

Lemma fetch_chunk_end r a b : br_view r a [] b -> fetch_chunk r = (false, r).
Proof.
  intros V. unfold fetch_chunk. destruct (br_cb r) as [c|]; [|done].
  pose proof (bv_size _ _ _ _ V) as E. rewrite zlen_nil in E.
  rewrite Z.geb_leb, (proj2 (Z.leb_le _ _)) by lia. done.
Qed.

Lemma fetch_chunk_more r a rest b :
  br_view r a rest b -> br_p r = [] -> rest <> [] ->
  exists r' rest', fetch_chunk r = (true, r') /\ br_view r' a rest' b /\ br_p r' <> [].
Proof.
  intros V Ep Hr. pose proof (bv_size _ _ _ _ V) as Es. pose proof (bv_fetched _ _ _ _ V) as Hf.
  assert (Hl : 0 < zlen rest).
  { pose proof (zlen_nonneg rest). destruct (decide (zlen rest = 0)) as [E|]; [by apply zlen_zero_nil in E|lia]. }
  pose proof (bv_cb _ _ _ _ V) as Hc. unfold fetch_chunk. destruct (br_cb r) as [c|]; [|done].
  rewrite Z.geb_leb, (proj2 (Z.leb_gt _ _)) by lia.
  pose proof (cb_read_law c rest (Z.min 65536 (br_size r - br_fetched r)) Hc (bv_rest _ _ _ _ V) ltac:(lia)) as L.
  destruct (cb_read c _) as [[n buf] c']. destruct L as (Hn & Hb & rest' & E & Hc').
  set (m := Z.min n _) in *. assert (Hm : 1 <= m <= zlen buf) by lia.
  rewrite (proj2 (Z.eqb_neq m 0)) by lia.
  pose proof (zlen_take m buf ltac:(lia)) as Lt.
  assert (Er : zlen rest = m + zlen rest') by (rewrite E at 1; rewrite zlen_app; lia).
  pose proof (bv_rest _ _ _ _ V) as Br. rewrite E in Br. apply Forall_app in Br as [B1 B2].
  eexists _, rest'. split; [reflexivity|]. split.
  - destruct V. split; cbn [br_acc br_n br_p br_cb br_size br_fetched br_consumed br_truncated]; try done.
    + rewrite wrap_small by zlen_lia. lia.
    + rewrite wrap_small by zlen_lia. lia.
    + rewrite bv_bits0, Ep, E at 1. done.
  - cbn [br_p]. intros E0. rewrite E0, zlen_nil in Lt. lia.
Qed.

Lemma stage_view r a rest b x p :
  br_view r a rest b -> br_p r = x ++ p -> 1 <= zlen x -> zlen a + 8 * zlen x <= 64 ->
  br_view (stage r (zlen x) (be_val x)) (a ++ bytes_bits x) rest b.
Proof.
  intros V Ep Hx Hf. destruct V. rewrite Ep in *. apply Forall_app in bv_staged0 as [Bx Bp].
  assert (Ed : drop (Z.to_nat (zlen x)) (x ++ p) = p) by (unfold zlen; by rewrite Nat2Z.id, drop_app_length).
  unfold stage. rewrite <- (be_val_bits x Bx).
  split; cbn [br_set br_acc br_n br_p br_cb br_size br_fetched br_consumed br_truncated]; rewrite ?Ep, ?Ed; try done.
  - destruct (Z.eqb_spec (zlen x) 8) as [E|E].
    + replace a with (@nil bool); [done|]. symmetry. apply zlen_zero_nil. zlen_lia.
    + rewrite bv_acc0, <- zlen_bytes_bits. apply bits_val_lor. rewrite zlen_bytes_bits. lia.
  - rewrite zlen_app, zlen_bytes_bits. lia.
  - rewrite zlen_app, zlen_bytes_bits. lia.
  - rewrite bv_bits0, <- !app_assoc, bytes_bits_app. done.
Qed.

(** After a refill the accumulator is short only at the end of the input. *)
Definition filled r (a : list bool) (rest : list Z) : Prop := 57 <= zlen a \/ (br_p r = [] /\ rest = []).

Lemma refill_loop_view f r a rest b :
  br_view r a rest b -> zlen a <= 56 -> 57 <= zlen a + 8 * Z.of_nat f ->
  exists r' x rest', refill_loop f r = Ok r' /\ br_view r' (a ++ x) rest' b /\ filled r' (a ++ x) rest'.
Proof.
  revert r a rest. induction f as [|f IH]; intros r a rest V Ha Hf; [lia|].
  cbn [refill_loop].
  assert (Hstep : forall r1 rest1, br_view r1 a rest1 b -> br_p r1 <> [] ->
    exists r' x rest', (let k := Z.min ((64 - br_n r1) / 8) (zlen (br_p r1)) in
        if k =? 0 then Ok r1
        else
          let v := be_val (take (Z.to_nat k) (br_p r1) ++ replicate (Z.to_nat (8 - k)) 0) in
          let r := stage r1 k (Z.shiftr v (64 - 8 * k)) in
          if br_n r >=? 57 then Ok r else refill_loop f r) = Ok r' /\
      br_view r' (a ++ x) rest' b /\ filled r' (a ++ x) rest').
  { intros r1 rest1 V1 Hp. cbv zeta. set (k := Z.min _ _).
    assert (Hl : 1 <= zlen (br_p r1)).
    { destruct (br_p r1); [done|zlen_lia]. }
    assert (Hk : 1 <= k <= zlen (br_p r1) /\ zlen a + 8 * k <= 64).
    { subst k. rewrite (bv_n _ _ _ _ V1). dlia. }
    rewrite (proj2 (Z.eqb_neq k 0)) by lia. pose proof (zlen_nonneg a).
    pose proof (zlen_take k (br_p r1) ltac:(lia)) as Lt.
    pose proof (bytes_take (Z.to_nat k) _ (bv_staged _ _ _ _ V1)) as Bt.
    assert (Br : bytes (replicate (Z.to_nat (8 - k)) 0)) by (apply Forall_replicate; unfold is_byte; lia).
    replace (64 - 8 * k) with (8 * zlen (replicate (Z.to_nat (8 - k)) 0)) by (rewrite zlen_replicate; lia).
    rewrite be_val_shiftr by done.
    pose proof (stage_view r1 a rest1 b (take (Z.to_nat k) (br_p r1)) (drop (Z.to_nat k) (br_p r1)) V1) as V2.
    rewrite take_drop, Lt in V2. specialize (V2 eq_refl ltac:(lia) ltac:(lia)).
    set (r2 := stage _ _ _) in *. set (x := bytes_bits _) in *.
    assert (En : br_n r2 = zlen a + 8 * k).
    { rewrite (bv_n _ _ _ _ V2). subst x. rewrite zlen_app, zlen_bytes_bits. lia. }
    rewrite Z.geb_leb. destruct (Z.leb_spec 57 (br_n r2)).
    - eexists _, x, rest1. split; [reflexivity|]. split; [done|]. left. rewrite <- (bv_n _ _ _ _ V2). lia.
    - pose proof (bv_n _ _ _ _ V2) as En2.
      destruct (IH r2 _ rest1 V2 ltac:(lia) ltac:(lia)) as (r' & y & rest' & E & V' & F).
      exists r', (x ++ y), rest'. rewrite app_assoc. done. }
  destruct (Z.eqb_spec (zlen (br_p r)) 0) as [E0|E0].
  - apply zlen_zero_nil in E0. destruct (decide (rest = [])) as [->|Hr].
    + rewrite (fetch_chunk_end r a b) by done. cbn [negb]. exists r, [], [].
      rewrite app_nil_r. split; [done|]. split; [done|]. by right.
    + destruct (fetch_chunk_more r a rest b V E0 Hr) as (r1 & rest1 & E & V1 & Hp).
      rewrite E. cbn [negb]. by apply (Hstep r1 rest1).
  - cbn [negb]. apply (Hstep r rest V). intros E. by rewrite E in E0.
Qed.

Lemma refill_view r a rest b :
  br_view r a rest b ->
  exists r' x rest', refill r = Ok r' /\ br_view r' (a ++ x) rest' b /\ filled r' (a ++ x) rest'.
Proof.
  intros V. pose proof (bv_n _ _ _ _ V) as En. unfold refill. pose proof (zlen_nonneg a).
  rewrite Z.gtb_ltb. destruct (Z.ltb_spec 56 (br_n r)) as [Hn|Hn].
  { exists r, [], rest. rewrite app_nil_r. split; [done|]. split; [done|]. left. lia. }
  rewrite Z.geb_leb. destruct (Z.leb_spec 8 (zlen (br_p r))) as [Hp|Hp]; [|apply (refill_loop_view 8 r a rest b); [done|lia|lia]].
  rewrite Z.shiftr_div_pow2 by lia. change (2 ^ 3) with 8. cbv zeta. set (k := (64 - br_n r) / 8).
  assert (Hk : 1 <= k <= 8 /\ zlen a + 8 * k <= 64 /\ 57 <= zlen a + 8 * k) by (subst k; dlia).
  pose proof (zlen_take k (br_p r) ltac:(lia)) as Lt.
  pose proof (bv_staged _ _ _ _ V) as Bp.
  assert (E8 : take 8 (br_p r) = take (Z.to_nat k) (br_p r) ++ take (Z.to_nat (8 - k)) (drop (Z.to_nat k) (br_p r))).
  { rewrite take_take_drop. f_equal. lia. }
  assert (L8 : zlen (take (Z.to_nat (8 - k)) (drop (Z.to_nat k) (br_p r))) = 8 - k).
  { apply zlen_take. rewrite zlen_drop; lia. }
  replace (64 - k * 8) with (8 * zlen (take (Z.to_nat (8 - k)) (drop (Z.to_nat k) (br_p r)))) by (rewrite L8; lia).
  rewrite E8, be_val_shiftr by auto with orar.
  pose proof (stage_view r a rest b (take (Z.to_nat k) (br_p r)) (drop (Z.to_nat k) (br_p r)) V) as V2.
  rewrite take_drop, Lt in V2. specialize (V2 eq_refl ltac:(lia) ltac:(lia)).
  eexists _, _, rest. split; [reflexivity|]. split; [exact V2|]. left.
  rewrite zlen_app, zlen_bytes_bits, Lt. lia.
Qed.

(** [if (n_ < count) refill();] *)
Lemma refill_if_view r a rest b count :
  br_view r a rest b ->
  exists r' a' rest', (if br_n r <? count then refill r else Ok r) = Ok r' /\ br_view r' a' rest' b /\
    (Z.min count 57 <= zlen a' \/ bt_bits b = a').
Proof.
  intros V. pose proof (bv_n _ _ _ _ V) as En. destruct (Z.ltb_spec (br_n r) count) as [Hn|Hn].
  - destruct (refill_view r a rest b V) as (r' & x & rest' & E & V' & [F|[Ep ->]]);
      exists r', (a ++ x); [exists rest'|exists []]; (split; [done|]); (split; [done|]); [left; lia|right].
    by apply (bytes_view_nil r').
  - exists r, a, rest. split; [done|]. split; [done|]. left. lia.
Qed.

Lemma drop_bits_view r x y rest b :
  br_view r (x ++ y) rest b -> br_view (drop_bits r (zlen x)) y rest (bt_consume b (zlen x)).
Proof.
  intros V. destruct V.
  assert (En : br_n r - zlen x = zlen y) by (rewrite bv_n0, zlen_app; lia).
  assert (Ed : drop (Z.to_nat (zlen x)) (bt_bits b) = y ++ bytes_bits (br_p r ++ rest)).
  { rewrite bv_bits0, <- app_assoc. unfold zlen. by rewrite Nat2Z.id, drop_app_length. }
  assert (El : zlen (bt_bits b) = zlen x + zlen (drop (Z.to_nat (zlen x)) (bt_bits b))).
  { rewrite Ed, bv_bits0, !zlen_app. lia. }
  pose proof (zlen_nonneg x). pose proof (zlen_nonneg (drop (Z.to_nat (zlen x)) (bt_bits b))).
  unfold drop_bits. rewrite En.
  split; cbn [br_set br_acc br_n br_p br_cb br_size br_fetched br_consumed br_truncated bt_consume bt_bits bt_pos bt_trunc]; try done.
  - rewrite bv_acc0. apply bits_val_mask.
  - rewrite zlen_app in bv_fits0. lia.
  - rewrite Z.min_l by lia. rewrite bv_pos0. apply wrap_small. lia.
  - rewrite bv_trunc0. rewrite (proj2 (Z.ltb_ge _ _)) by lia. by rewrite orb_false_r.
  - lia.
Qed.

Lemma bt_consume_0 b : bt_consume b 0 = b.
Proof.
  destruct b as [l p t]. unfold bt_consume. cbn [bt_bits bt_pos bt_trunc]. pose proof (zlen_nonneg l).
  rewrite Z.min_l, Z.add_0_r, (proj2 (Z.ltb_ge _ _)), orb_false_r by lia. done.
Qed.

(** The accumulator runs dry: everything that was left is consumed. *)
Lemma exhaust_view r a rest b count :
  br_view r a rest b -> bt_bits b = a -> zlen a < count ->
  br_view (br_set r (br_p r) 0 0 (u64 (br_consumed r + zlen a)) true) [] rest (bt_consume b count).
Proof.
  intros V F Hc. pose proof (zlen_nonneg a). destruct V. rewrite F in *.
  assert (bytes_bits (br_p r ++ rest) = []) as Ee.
  { apply (f_equal zlen) in bv_bits0. rewrite zlen_app in bv_bits0. apply zlen_zero_nil. lia. }
  assert (drop (Z.to_nat count) a = []) as Ed by (apply drop_ge; unfold zlen in *; lia).
  split; cbn [br_set br_acc br_n br_p br_cb br_size br_fetched br_consumed br_truncated bt_consume bt_bits bt_pos bt_trunc];
    rewrite ?F, ?Ed, ?Ee; try done.
  - rewrite Z.min_r, bv_pos0 by lia. apply wrap_small. lia.
  - rewrite (proj2 (Z.ltb_lt _ _)) by lia. by rewrite orb_true_r.
  - rewrite Z.min_r by lia. zlen_lia.
Qed.

Lemma pow_le m n : m <= n -> 2 ^ m <= 2 ^ n.
Proof. apply Z.pow_le_mono_r. lia. Qed.

Lemma bits_val_u w a : zlen a <= w -> wrap w (bits_val a) = bits_val a.
Proof. intros L. apply wrap_small. pose proof (bits_val_range a). pose proof (pow_le _ _ L). lia. Qed.

Lemma padded_shiftl w count a :
  zlen a <= count <= w -> wrap w (Z.shiftl (bits_val a) (count - zlen a)) = padded count a.
Proof.
  intros L. rewrite padded_short, Z.shiftl_mul_pow2 by lia. apply wrap_small.
  pose proof (padded_range count a ltac:(zlen_lia)) as R. rewrite padded_short in R by lia.
  pose proof (pow_le count w ltac:(lia)). lia.
Qed.

Lemma bits_val_shiftr_n n x y : n = zlen y -> Z.shiftr (bits_val (x ++ y)) n = bits_val x.
Proof. intros ->. apply bits_val_shiftr. Qed.

Lemma get_bits_view r b count :
  br_abs r b -> 0 <= count <= 32 -> refines br_abs (br_get_bits r count) (get_bits b count).
Proof.
  intros (a & rest & V) Hc. cbn [get_bits Bits_source refines]. rewrite Z.min_l by lia. unfold br_get_bits.
  destruct (Z.eqb_spec count 0) as [->|Hz]; [exists r; rewrite bt_consume_0, padded_0; split; [done|by exists a, rest]|].
  rewrite (Z.gtb_ltb count), (proj2 (Z.ltb_ge _ _)) by lia.
  destruct (refill_if_view r a rest b count V) as (r' & a' & rest' & E & V' & F).
  rewrite E. res_simpl. rewrite Z.geb_leb, (bv_n _ _ _ _ V'), (bv_acc _ _ _ _ V').
  destruct (Z.leb_spec count (zlen a')) as [Hle|Hgt].
  - destruct (split_bits count a' ltac:(lia)) as (x & y & -> & <-).
    eexists. split; [|exists y, rest'; by apply drop_bits_view].
    rewrite (bits_val_shiftr_n _ x y) by (rewrite zlen_app; lia).
    by rewrite (bv_bits _ _ _ _ V'), <- app_assoc, padded_full, bits_val_u by lia.
  - destruct F as [F|F]; [lia|]. rewrite F.
    eexists. split; [f_equal; f_equal|exists [], rest'; by apply exhaust_view].
    destruct (Z.eqb_spec (zlen a') 0) as [Ez|Ez]; cbn [negb].
    + apply zlen_zero_nil in Ez as ->. by rewrite padded_short by zlen_lia.
    + rewrite (bits_val_u 32 a') by lia. apply padded_shiftl. lia.
Qed.

Lemma peek_bits_view r b count :
  br_abs r b -> 0 <= count <= 32 -> refines br_abs (br_peek_bits r count) (peek_bits b count).
Proof.
  intros (a & rest & V) Hc. cbn [peek_bits Bits_source refines]. rewrite Z.min_l by lia. unfold br_peek_bits.
  destruct (Z.eqb_spec count 0) as [->|Hz]; [exists r; rewrite padded_0; split; [done|by exists a, rest]|].
  rewrite (Z.gtb_ltb count), (proj2 (Z.ltb_ge _ _)) by lia.
  destruct (refill_if_view r a rest b count V) as (r' & a' & rest' & E & V' & F).
  rewrite E. res_simpl. rewrite (bv_n _ _ _ _ V'), (bv_acc _ _ _ _ V').
  exists r'. split; [|by exists a', rest'].
  destruct (Z.leb_spec count (zlen a')) as [Hle|Hgt].
  - rewrite Z.min_l, Z.eqb_refl by lia. destruct (split_bits count a' ltac:(lia)) as (x & y & -> & <-).
    rewrite (bits_val_shiftr_n _ x y) by (rewrite zlen_app; lia).
    by rewrite (bv_bits _ _ _ _ V'), <- app_assoc, padded_full, bits_val_u by lia.
  - destruct F as [F|F]; [lia|]. rewrite F, Z.min_r, (proj2 (Z.eqb_neq _ _)), Z.sub_diag by lia.
    destruct (Z.eqb_spec (zlen a') 0) as [Ez|Ez].
    + apply zlen_zero_nil in Ez as ->. by rewrite padded_short by zlen_lia.
    + rewrite Z.shiftr_0_r, (bits_val_u 32 a') by lia. by rewrite padded_shiftl by (zlen_pose; lia).
Qed.

Lemma bt_consume_twice b m n :
  0 <= m -> 0 <= n -> bt_consume (bt_consume b m) n = bt_consume b (m + n).
Proof.
  intros Hm Hn. destruct b as [l p t]. unfold bt_consume. cbn [bt_bits bt_pos bt_trunc].
  assert (L : zlen (drop (Z.to_nat m) l) = Z.max 0 (zlen l - m)) by (unfold zlen; rewrite length_drop; lia).
  f_equal.
  - rewrite drop_drop. f_equal. lia.
  - rewrite L. zlen_lia.
  - rewrite L, <- orb_assoc. f_equal. zlen_pose.
    destruct (Z.ltb_spec (zlen l) m), (Z.ltb_spec (zlen l) (m + n)), (Z.ltb_spec (Z.max 0 (zlen l - m)) n); (done || lia).
Qed.

Lemma consume_loop_view f r b count :
  br_abs r b -> 0 <= count < Z.of_nat f ->
  exists r', consume_loop f r count = Ok r' /\ br_abs r' (bt_consume b count).
Proof.
  revert r b count. induction f as [|f IH]; intros r b count HA Hf; [lia|]. cbn [consume_loop].
  rewrite Z.gtb_ltb. destruct (Z.ltb_spec 0 count) as [Hc|Hc];
    [|exists r; replace count with 0 by lia; by rewrite bt_consume_0].
  assert (HR : exists r1 a1 rest1, (if br_n r =? 0 then refill r else Ok r) = Ok r1 /\ br_view r1 a1 rest1 b /\
             (a1 = [] -> bt_bits b = [])).
  { destruct HA as (a & rest & V). pose proof (bv_n _ _ _ _ V) as En. destruct (Z.eqb_spec (br_n r) 0) as [E0|E0].
    - destruct (refill_view r a rest b V) as (r1 & x & rest1 & E & V1 & [F|[Ep ->]]);
        exists r1, (a ++ x); [exists rest1|exists []]; (split; [done|]); (split; [done|]); intros Ea.
      + rewrite Ea, zlen_nil in F. lia.
      + rewrite <- Ea. by apply (bytes_view_nil r1).
    - exists r, a, rest. split; [done|]. split; [done|]. intros ->. by rewrite zlen_nil in En. }
  destruct HR as (r1 & a1 & rest1 & E & V1 & Hnil). rewrite E. res_simpl. rewrite (bv_n _ _ _ _ V1).
  destruct (Z.eqb_spec (zlen a1) 0) as [Ez|Ez].
  - apply zlen_zero_nil in Ez. specialize (Hnil Ez). subst a1. eexists. split; [reflexivity|].
    exists [], rest1. pose proof (exhaust_view r1 [] rest1 b count V1 Hnil ltac:(done)) as V2.
    destruct V1, V2. cbn [br_set br_acc br_n br_p br_cb br_size br_fetched br_consumed br_truncated] in *.
    split; cbn [br_set br_acc br_n br_p br_cb br_size br_fetched br_consumed br_truncated]; try done.
    rewrite <- bv_pos1, zlen_nil, Z.add_0_r. symmetry. apply wrap_small. pose proof (zlen_nonneg (bt_bits b)). lia.
  - pose proof (zlen_nonneg a1). destruct (split_bits (Z.min count (zlen a1)) a1 ltac:(lia)) as (x & y & Ea & Lx).
    rewrite <- Lx. assert (V1' : br_view r1 (x ++ y) rest1 b) by (by rewrite <- Ea). apply drop_bits_view in V1'.
    destruct (IH _ _ (count - zlen x) (ex_intro _ y (ex_intro _ rest1 V1')) ltac:(lia)) as (r' & E' & V').
    exists r'. rewrite bt_consume_twice in V' by lia. replace (zlen x + (count - zlen x)) with count in V' by lia. done.
Qed.

Lemma consume_bits_view r b count :
  br_abs r b -> 0 <= count -> exists r', br_consume_bits r count = Ok r' /\ br_abs r' (bt_consume b count).
Proof.
  intros HA Hc. unfold br_consume_bits. destruct (Z.eqb_spec count 0) as [->|Hz].
  { exists r. by rewrite bt_consume_0. }
  rewrite Z.geb_leb. destruct (Z.leb_spec count (br_n r)) as [Hn|Hn]; [|apply consume_loop_view; [done|lia]].
  destruct HA as (a & rest & V). rewrite (bv_n _ _ _ _ V) in Hn.
  destruct (split_bits count a ltac:(lia)) as (x & y & -> & <-).
  eexists. split; [reflexivity|]. exists y, rest. by apply drop_bits_view.
Qed.

(** The splice of [peek_bits64]: the short accumulator and the top of the next
    unread byte. *)
Lemma splice_next a next k l :
  is_byte next -> 1 <= k <= 7 -> zlen a + k <= 64 ->
  Z.lor (u64 (Z.shiftl (bits_val a) k)) (Z.shiftr next (8 - k)) = padded (zlen a + k) (a ++ zbits 8 next ++ l).
Proof.
  intros Hb Hk Ha.
  destruct (split_bits k (zbits 8 next)) as (x & y & E & Lx); [rewrite zlen_zbits; lia|].
  assert (Ey : zlen y = 8 - k).
  { apply (f_equal zlen) in E. rewrite zlen_app, zlen_zbits in E. lia. }
  assert (En : next = bits_val (x ++ y)) by (rewrite <- E, bits_val_zbits; symmetry; by apply Z.mod_small).
  rewrite En at 1. rewrite (bits_val_shiftr_n _ x y) by lia. rewrite <- Lx, bits_val_lor by lia.
  rewrite E, <- app_assoc, app_assoc, padded_full; [done|]. by rewrite zlen_app.
Qed.

Lemma peek_bits64_view r b count :
  br_abs r b -> 0 <= count <= 64 ->
  exists r', br_peek_bits64 r count = Ok (padded count (bt_bits b), r') /\ br_abs r' b.
Proof.
  intros (a & rest & V) Hc. unfold br_peek_bits64.
  destruct (Z.eqb_spec count 0) as [->|Hz]; [exists r; rewrite padded_0; split; [done|by exists a, rest]|].
  rewrite (Z.gtb_ltb count), (proj2 (Z.ltb_ge _ _)) by lia.
  destruct (refill_if_view r a rest b count V) as (r' & a' & rest' & E & V' & F).
  rewrite E. res_simpl. rewrite (bv_n _ _ _ _ V'). pose proof (zlen_nonneg a').
  destruct (Z.leb_spec count (zlen a')) as [Hle|Hgt].
  { rewrite (bv_acc _ _ _ _ V'). rewrite Z.min_l, Z.eqb_refl by lia. exists r'. split; [|by exists a', rest'].
    destruct (split_bits count a' ltac:(lia)) as (x & y & -> & <-).
    rewrite (bits_val_shiftr_n _ x y) by (rewrite zlen_app; lia).
    by rewrite (bv_bits _ _ _ _ V'), <- app_assoc, padded_full. }
  rewrite Z.min_r, (proj2 (Z.eqb_neq (zlen a') count)) by lia.
  assert (Hend : bt_bits b = a' ->
     (if zlen a' =? 0 then 0 else u64 (Z.shiftl (bits_val a') (count - zlen a'))) = padded count (bt_bits b)).
  { intros ->. destruct (Z.eqb_spec (zlen a') 0) as [Ez|Ez]; [|apply padded_shiftl; lia].
    apply zlen_zero_nil in Ez as ->. by rewrite padded_short by zlen_lia. }
  assert (HN : exists r2 rest2, (if (zlen a' >=? 57) && (zlen (br_p r') =? 0) then snd (fetch_chunk r') else r') = r2 /\
     br_view r2 a' rest2 b /\ (57 <= zlen a' -> br_p r2 = [] -> bt_bits b = a')).
  { rewrite Z.geb_leb. destruct (Z.leb_spec 57 (zlen a')); cbn [andb]; [|exists r', rest'; split; [done|]; split; [done|lia]].
    destruct (Z.eqb_spec (zlen (br_p r')) 0) as [Ep|Ep].
    - apply zlen_zero_nil in Ep. destruct (decide (rest' = [])) as [->|Hr].
      + exists r', []. rewrite (fetch_chunk_end r' a' b V'). split; [done|]. split; [done|].
        intros _ _. by apply (bytes_view_nil r').
      + destruct (fetch_chunk_more r' a' rest' b V' Ep Hr) as (r2 & rest2 & E2 & V2 & Hp).
        rewrite E2. exists r2, rest2. done.
    - exists r', rest'. split; [done|]. split; [done|]. intros _ Ep'. by rewrite Ep' in Ep. }
  destruct HN as (r2 & rest2 & E2 & V2 & Hnil). cbv zeta.
  rewrite E2, (bv_acc _ _ _ _ V2), (bv_n _ _ _ _ V2), Z.sub_diag, Z.shiftr_0_r.
  exists r2. split; [|by exists a', rest2].
  destruct (br_p r2) as [|next p] eqn:Ep; [by rewrite Hend by (destruct F; [apply Hnil; (done || lia)|done])|].
  rewrite Z.geb_leb. destruct (Z.leb_spec 57 (zlen a')); [|destruct F as [F|F]; [lia|by rewrite Hend]].
  pose proof (bv_staged _ _ _ _ V2) as Bp. rewrite Ep in Bp. apply Forall_cons_inv in Bp as [Bn _].
  rewrite (bv_bits _ _ _ _ V2), Ep. cbn [app]. rewrite bytes_bits_cons.
  rewrite (splice_next a' next (count - zlen a') (bytes_bits (p ++ rest2))) by (done || lia).
  by replace (zlen a' + (count - zlen a')) with count by lia.
Qed.

Lemma padded_split m n l :
  0 <= m -> 0 <= n -> m + n <= 64 ->
  Z.lor (u64 (Z.shiftl (padded m l) n)) (padded n (drop (Z.to_nat m) l)) = padded (m + n) l.
Proof.
  intros Hm Hn Hmn. rewrite padded_add by done.
  pose proof (padded_range m l Hm). pose proof (padded_range n (drop (Z.to_nat m) l) Hn).
  pose proof (pow_le (m + n) 64 Hmn) as P. rewrite Z.pow_add_r in P by done.
  rewrite wrap_small.
  - rewrite lor_shiftl_add_l by done. lia.
  - rewrite Z.shiftl_mul_pow2 by done. nia.
Qed.

Lemma get_bits64_rec_view d r b count :
  br_abs r b -> 0 <= count <= 64 -> count <= 32 \/ (2 <= d)%nat -> (1 <= d)%nat ->
  exists r', get_bits64_rec d r count = Ok (padded count (bt_bits b), r') /\ br_abs r' (bt_consume b count).
Proof.
  revert r b count. induction d as [|d IH]; intros r b count HA Hc Hd Hd1; [lia|]. cbn [get_bits64_rec].
  destruct (Z.eqb_spec count 0) as [->|Hz]; [exists r; by rewrite padded_0, bt_consume_0|].
  rewrite (Z.gtb_ltb count 64), (proj2 (Z.ltb_ge _ _)) by lia.
  destruct HA as (a & rest & V).
  destruct (refill_if_view r a rest b count V) as (r' & a' & rest' & E & V' & F).
  rewrite E. res_simpl. rewrite Z.geb_leb, (bv_n _ _ _ _ V').
  assert (HA : br_abs r' b) by (by exists a', rest').
  destruct (Z.leb_spec count (zlen a')) as [Hle|Hgt].
  - destruct (consume_bits_view r' b count HA ltac:(lia)) as (r2 & E2 & A2). rewrite E2. res_simpl.
    exists r2. split; [|done]. f_equal. f_equal. pose proof (bv_fits _ _ _ _ V').
    rewrite (bv_bits _ _ _ _ V'), (bv_acc _ _ _ _ V'). destruct (split_bits count a' ltac:(lia)) as (x & y & -> & <-).
    rewrite <- app_assoc, padded_full by done. rewrite zlen_app in *. pose proof (zlen_nonneg y).
    destruct (Z.eqb_spec (zlen x) 64) as [E64|E64].
    + assert (y = []) as -> by (apply zlen_zero_nil; lia). by rewrite app_nil_r.
    + rewrite (bits_val_shiftr_n _ x y) by lia. rewrite Z.shiftl_1_l, Z.sub_1_r, <- Z.ones_equiv.
      rewrite Z.land_ones by lia. apply Z.mod_small, bits_val_range.
  - rewrite Z.gtb_ltb. destruct (Z.ltb_spec 32 count) as [H32|H32].
    + destruct (IH r' b (count - 32) HA ltac:(lia) ltac:(lia) ltac:(lia)) as (r2 & E2 & A2). rewrite E2. res_simpl.
      destruct (IH r2 _ 32 A2 ltac:(lia) ltac:(lia) ltac:(lia)) as (r3 & E3 & A3). rewrite E3. res_simpl.
      exists r3. rewrite bt_consume_twice in A3 by lia. replace (count - 32 + 32) with count in A3 by lia.
      split; [|done]. do 2 f_equal. cbn [bt_consume bt_bits]. rewrite padded_split by lia. f_equal. lia.
    + destruct (peek_bits64_view r' b count HA Hc) as (r2 & E2 & A2). rewrite E2. res_simpl.
      destruct (consume_bits_view r2 b count A2 ltac:(lia)) as (r3 & E3 & A3). rewrite E3. res_simpl. by exists r3.
Qed.

Lemma br_peek_bits_clamp r n : 0 <= n -> br_peek_bits r n = br_peek_bits r (Z.min n 32).
Proof.
  intros Hn. destruct (Z.le_gt_cases n 32); [by rewrite Z.min_l|]. rewrite Z.min_r by lia.
  unfold br_peek_bits. rewrite (proj2 (Z.eqb_neq n 0)), (Z.gtb_ltb n 32), (proj2 (Z.ltb_lt 32 n)) by lia. done.
Qed.

Lemma br_get_bits_clamp r n : 0 <= n -> br_get_bits r n = br_get_bits r (Z.min n 32).
Proof.
  intros Hn. destruct (Z.le_gt_cases n 32); [by rewrite Z.min_l|]. rewrite Z.min_r by lia.
  unfold br_get_bits. rewrite (proj2 (Z.eqb_neq n 0)), (Z.gtb_ltb n 32), (proj2 (Z.ltb_lt 32 n)) by lia. done.
Qed.

Lemma br_get_bits64_clamp r n : 0 <= n -> br_get_bits64 r n = br_get_bits64 r (Z.min n 64).
Proof.
  intros Hn. destruct (Z.le_gt_cases n 64); [by rewrite Z.min_l|]. rewrite Z.min_r by lia.
  unfold br_get_bits64. cbn [get_bits64_rec].
  rewrite (proj2 (Z.eqb_neq n 0)), (Z.gtb_ltb n 64), (proj2 (Z.ltb_lt 64 n)) by lia. done.
Qed.

Lemma br_bits_remaining_view r b : br_abs r b -> br_bits_remaining r = zlen (bt_bits b).
Proof.
  intros (a & rest & V). destruct V. unfold br_bits_remaining.
  assert (L : zlen (bt_bits b) = zlen a + 8 * (zlen (br_p r) + zlen rest)).
  { by rewrite bv_bits0, zlen_app, zlen_bytes_bits, zlen_app. }
  rewrite bv_n0, bv_size0.
  replace (br_fetched r + zlen rest - br_fetched r) with (zlen rest) by lia.
  zlen_pose. rewrite (wrap_small 64 (zlen rest)), (wrap_small 64 (zlen (br_p r) + zlen rest)) by lia.
  rewrite wrap_small by lia. lia.
Qed.

#[export] Instance BitReader_laws : BitSourceLaws (BitReader C).
Proof.
  refine {| bits_abs := br_abs |}.
  - intros r b. apply br_bits_remaining_view.
  - intros r b (a & rest & V). apply (bv_trunc _ _ _ _ V).
  - intros r b (a & rest & V). apply (bv_pos _ _ _ _ V).
  - intros r b n HA Hn. cbn [peek_bits BitReader_source Bits_source].
    rewrite br_peek_bits_clamp by done. pose proof (peek_bits_view r b (Z.min n 32) HA ltac:(lia)) as P.
    cbn [peek_bits Bits_source] in P. by rewrite (Z.min_l (Z.min n 32) 32) in P by lia.
  - intros r b n HA Hn. cbn [get_bits BitReader_source Bits_source].
    rewrite br_get_bits_clamp by done. pose proof (get_bits_view r b (Z.min n 32) HA ltac:(lia)) as P.
    cbn [get_bits Bits_source] in P. by rewrite (Z.min_l (Z.min n 32) 32) in P by lia.
  - intros r b n HA Hn. cbn [get_bits64 BitReader_source Bits_source].
    rewrite br_get_bits64_clamp by done. unfold br_get_bits64.
    apply (get_bits64_rec_view 2 r b (Z.min n 64) HA); lia.
  - intros r b n HA Hn. by apply consume_bits_view.
Defined.

Lemma BitReader_memory_abs data :
  bytes data -> zlen data < 2 ^ 60 -> bits_abs (BitReader_memory data) (bits_of_bytes data).
Proof.
  intros Hd Hl. exists [], []. zlen_pose.
  split; cbn [BitReader_memory br_acc br_n br_p br_cb br_size br_fetched br_consumed br_truncated bits_of_bytes bt_bits bt_pos bt_trunc];
    try done; rewrite ?zlen_nil, ?app_nil_r; try (done || lia).
  rewrite zlen_bytes_bits. lia.
Qed.

Lemma BitReader_callback_abs c data :
  bytes data -> zlen data < 2 ^ 60 -> cb_stream c data ->
  bits_abs (BitReader_callback c (zlen data)) (bits_of_bytes data).
Proof.
  intros Hd Hl Hc. exists [], data. zlen_pose.
  split; cbn [BitReader_callback br_acc br_n br_p br_cb br_size br_fetched br_consumed br_truncated bits_of_bytes bt_bits bt_pos bt_trunc];
    try done; rewrite ?zlen_nil; try lia.
  rewrite zlen_bytes_bits. lia.
Qed.
End refinement.

(** A specification refines itself. *)
#[export] Instance Bits_laws : BitSourceLaws Bits.
Proof. refine {| bits_abs := eq |}; try (by intros r b ->); intros r b n -> Hn; by eexists. Defined.

(** ** Sequences of reads *)

Inductive bit_op := PeekBits (n : Z) | GetBits (n : Z) | GetBits64 (n : Z) | ConsumeBits (n : Z) | AlignByte.

Definition bit_op_ok (o : bit_op) : Prop :=
  match o with PeekBits n | GetBits n | GetBits64 n | ConsumeBits n => 0 <= n | AlignByte => True end.

Definition bit_step {R} `{BitSource R} (r : R) (o : bit_op) : res (Z * R) :=
  match o with
  | PeekBits n => peek_bits r n
  | GetBits n => get_bits r n
  | GetBits64 n => get_bits64 r n
  | ConsumeBits n => r ← consume_bits r n; mret (0, r)
  | AlignByte => r ← align_byte r; mret (0, r)
  end.

(** What a client of the reader sees: each value, then what is left, where it
    is, and whether padding was read. *)
Fixpoint bit_trace {R} `{BitSource R} (r : R) (ops : list bit_op) : res (list Z * (Z * Z * bool)) :=
  match ops with
  | [] => Ok ([], (bits_remaining r, bit_pos r, truncated r))
  | o :: ops' =>
      '(v, r) ← bit_step r o;
      '(vs, e) ← bit_trace r ops';
      mret (v :: vs, e)
  end.

Section laws.
Context {R : Type} `{BitSourceLaws R}.

Lemma align_byte_law (r : R) b :
  bits_abs r b -> exists r' b', align_byte r = Ok r' /\ align_byte b = Ok b' /\ bits_abs r' b'.
Proof.
  intros HA. unfold align_byte. rewrite (bit_pos_law r b HA). cbv zeta.
  assert (Hk : 0 <= Z.land (bit_pos b) 7 < 2 ^ 3) by (apply land_range; lia).
  destruct (negb _); [|by eauto].
  assert (H8 : 0 <= 8 - Z.land (bit_pos b) 7) by lia.
  destruct (consume_bits_law r b _ HA H8) as (r' & E & A). eauto 6.
Qed.

Lemma bit_step_law (r : R) b o :
  bits_abs r b -> bit_op_ok o ->
  exists v r' b', bit_step r o = Ok (v, r') /\ bit_step b o = Ok (v, b') /\ bits_abs r' b'.
Proof.
  intros HA Ho. destruct o as [n|n|n|n|]; cbn [bit_step bit_op_ok] in *.
  - destruct (peek_bits_law r b n HA Ho) as (r' & E & A). eauto 6.
  - destruct (get_bits_law r b n HA Ho) as (r' & E & A). eauto 6.
  - destruct (get_bits64_law r b n HA Ho) as (r' & E & A). eauto 6.
  - destruct (consume_bits_law r b n HA Ho) as (r' & E & A). rewrite E. res_simpl. eauto 6.
  - destruct (align_byte_law r b HA) as (r' & b' & E & Eb & A). rewrite E, Eb. res_simpl. eauto 6.
Qed.

Lemma bit_trace_law (r : R) b ops :
  bits_abs r b -> Forall bit_op_ok ops -> bit_trace r ops = bit_trace b ops /\ exists t, bit_trace b ops = Ok t.
Proof.
  intros HA Ho. revert r b HA. induction Ho as [|o ops Ho _ IH]; intros r b HA; cbn [bit_trace].
  - rewrite (bits_remaining_law r b HA), (bit_pos_law r b HA), (truncated_law r b HA). eauto.
  - destruct (bit_step_law r b o HA Ho) as (v & r' & b' & E & Eb & A). rewrite E, Eb. res_simpl.
    destruct (IH r' b' A) as (E' & t & Et). rewrite E', Et. destruct t as [vs e]. eauto.
Qed.
End laws.

(** A callback that hands out its bytes in pieces of the listed sizes (then as
    much as is asked for), and over-reports when a piece fills the buffer. *)
Record PieceCallback := { pc_rest : list Z; pc_sizes : list Z }.

#[export] Instance PieceCallback_callback : InputCallback PieceCallback := {
  cb_read c m :=
    let k := Z.max 1 (Z.min m (match pc_sizes c with [] => m | s :: _ => s end)) in
    (if k =? m then m + 7 else k,
     take (Z.to_nat m) (pc_rest c ++ replicate (Z.to_nat m) 0),
     {| pc_rest := drop (Z.to_nat k) (pc_rest c); pc_sizes := tail (pc_sizes c) |})
}.

#[export] Instance PieceCallback_laws : CallbackLaws PieceCallback.
Proof.
  refine {| cb_stream := fun c rest => pc_rest c = rest |}.
  intros c rest m <- _ Hm. cbn [cb_read PieceCallback_callback]. set (k := Z.max 1 _).
  assert (Hk : 1 <= k <= m) by lia. split; [destruct (k =? m); lia|].
  rewrite take_app_le by (unfold zlen in Hm; lia). split; [by apply zlen_take; lia|].
  exists (drop (Z.to_nat k) (pc_rest c)). split; [|done].
  replace (Z.min (if k =? m then m + 7 else k) m) with k by (destruct (Z.eqb_spec k m); lia).
  rewrite take_take, Nat.min_l by lia. by rewrite take_drop.
Defined.

(** C12. A bit reader over memory and one over any callback that delivers the
    same bytes, however it cuts them and even if it over-reports, show a client
    exactly what the list of the bits shows: the same values for every sequence
    of peeks, reads (up to 64 bits), skips and alignments, the same position
    and number of bits left, zero padding past the end, and the truncation flag
    exactly when padding was consumed; every operation terminates. *)
Theorem bit_reader_exact (C : Type) `{CallbackLaws C} (c : C) (data : list Z) (ops : list bit_op) :
  bytes data -> zlen data < 2 ^ 60 -> cb_stream c data -> Forall bit_op_ok ops ->
  exists t, bit_trace (bits_of_bytes data) ops = Ok t /\
    bit_trace (BitReader_memory (C := C) data) ops = Ok t /\
    bit_trace (BitReader_callback c (zlen data)) ops = Ok t.
Proof.
  intros Hd Hl Hc Ho.
  destruct (bit_trace_law _ _ ops (BitReader_memory_abs (C := C) data Hd Hl) Ho) as (E1 & t & Et).
  destruct (bit_trace_law _ _ ops (BitReader_callback_abs c data Hd Hl Hc) Ho) as (E2 & _).
  exists t. by rewrite E1, E2.
Qed.

Lemma bit_reader_exact_witness :
  let data := [0xA5; 0x01; 0xFF; 0x80; 0x13; 0x37; 0xC0; 0x0F; 0x55; 0xAA] in
  let ops := [GetBits 3; PeekBits 32; GetBits64 61; AlignByte; ConsumeBits 5; GetBits 4; GetBits 9] in
  (exists t, bit_trace (bits_of_bytes data) ops = Ok t /\
    bit_trace (BitReader_memory (C := PieceCallback) data) ops = Ok t /\
    bit_trace (BitReader_callback {| pc_rest := data; pc_sizes := [2; 1; 4] |} (zlen data)) ops = Ok t) /\
  bit_trace (bits_of_bytes data) [GetBits 4; ConsumeBits 72; GetBits 8] = Ok ([0xA; 0; 0xA0], (0, 80, true)).
Proof.
  split; [|vm_compute; reflexivity].
  apply (bit_reader_exact PieceCallback); [bytes_const|vm_compute; reflexivity|reflexivity|].
  repeat constructor; vm_compute; discriminate.
Defined.
