(* ===== verification/Huffman.v ===== *)
(** Canonical prefix codes: the table-driven decoder
    ([src/compress/decompressor50.cpp], [HuffmanDecoder]) and the code
    assignment of the encoder ([src/compress/compressor50.cpp],
    [HuffmanBuilder::build_codes]).

    The decoder is defined over any [BitSource] and every table access is
    checked.  [upto] is the Kraft sum of the code lengths up to a length,
    [first_code] and [rank] give the canonical code. *)

From Stdlib Require Import ZArith Lia.
From stdpp Require Import base tactics list numbers.
From S2P Require Import Prelude Loops Bytes Arrays BitReader.

Local Open Scope Z_scope.

Definition MAX_SYMBOLS : Z := 306.
Definition MAX_CODE_BITS : Z := 15.
Definition QUICK_BITS : Z := 10.
Definition QUICK_SIZE : Z := Z.shiftl 1 QUICK_BITS.

Record HuffmanDecoder := {
  hd_quick : list Z;
  hd_len : list Z;
  hd_pos : list Z;
  hd_num : list Z;
  hd_max_num : Z
}.

Definition HuffmanDecoder_init : HuffmanDecoder :=
  {| hd_quick := replicate (Z.to_nat QUICK_SIZE) 0; hd_len := replicate 16 0; hd_pos := replicate 16 0;
     hd_num := replicate 306 0; hd_max_num := 0 |}.

(** ** Building the tables *)

(** [len_cnt]: how many symbols have each length; lengths are at most 15 here. *)
Fixpoint count_lengths (lens cnt : list Z) : list Z :=
  match lens with
  | [] => cnt
  | l :: lens' =>
      let k := Z.land l 0xF in
      count_lengths lens' (setZ cnt k (u32 (nthZ cnt k + 1)))
  end.

Definition length_counts (lens : list Z) : list Z := setZ (count_lengths lens (replicate 16 0)) 0 0.

(** [for (i = 16 - k; i < 16; ++i)]: false as soon as the code is
    over-complete, with the tables as they are then. *)
Fixpoint build_levels (k : nat) (cnt : list Z) (upper : Z) (dlen dpos : list Z) : bool * list Z * list Z :=
  match k with
  | O => (true, dlen, dpos)
  | S k' =>
      let i := 16 - Z.of_nat k in
      let upper := u32 (upper + nthZ cnt i) in
      if upper >? Z.shiftl 1 i then (false, dlen, dpos)
      else
        let dlen := setZ dlen i (u32 (Z.shiftl upper (16 - i))) in
        let dpos := setZ dpos i (u32 (nthZ dpos (i - 1) + nthZ cnt (i - 1))) in
        build_levels k' cnt (u32 (Z.shiftl upper 1)) dlen dpos
  end.

(** [decode_num_[copy_pos[l]++] = i] *)
Fixpoint place_symbols (lens : list Z) (i : Z) (copy_pos num : list Z) : res (list Z) :=
  match lens with
  | [] => Ok num
  | l :: lens' =>
      let l := Z.land l 0xF in
      if negb (l =? 0) then
        num ← store num (nthZ copy_pos l) [u16 i];
        place_symbols lens' (i + 1) (setZ copy_pos l (u32 (nthZ copy_pos l + 1))) num
      else place_symbols lens' (i + 1) copy_pos num
  end.

(** [while (cur_len < 16 && bitfield >= decode_len_[cur_len]) ++cur_len], from
    [cur_len = 16 - k]. *)
Fixpoint advance_len (k : nat) (bitfield : Z) (dlen : list Z) : nat :=
  match k with
  | O => O
  | S k' => if bitfield >=? nthZ dlen (16 - Z.of_nat k) then advance_len k' bitfield dlen else k
  end.

Definition quick_entry (h : HuffmanDecoder) (cur_len bitfield : Z) : res Z :=
  if cur_len >? QUICK_BITS then Ok 0
  else
    let len_cap := if cur_len >=? 16 then 15 else cur_len in
    dl ← byte_at (hd_len h) (len_cap - 1);
    let dist := Z.shiftr (u32 (bitfield - dl)) (16 - len_cap) in
    dp ← byte_at (hd_pos h) len_cap;
    let pos := u32 (dp + dist) in
    symbol ← (if pos <? hd_max_num h then byte_at (hd_num h) pos else Ok 0);
    mret (Z.lor (Z.shiftl len_cap 16) symbol).

Fixpoint build_quick (codes : nat) (code : Z) (k : nat) (h : HuffmanDecoder) : res (list Z) :=
  match codes with
  | O => Ok []
  | S codes' =>
      let bitfield := Z.shiftl code (16 - QUICK_BITS) in
      let k := advance_len k bitfield (hd_len h) in
      e ← quick_entry h (16 - Z.of_nat k) bitfield;
      t ← build_quick codes' (code + 1) k h;
      mret (e :: t)
  end.

(** [build(bit_lengths, count)] with [lens] the [count] bytes. *)
Definition build (h : HuffmanDecoder) (lens : list Z) : res (bool * HuffmanDecoder) :=
  if zlen lens >? MAX_SYMBOLS then Ok (false, h)
  else if existsb (fun l => l >? MAX_CODE_BITS) lens then Ok (false, h)
  else
    let cnt := length_counts lens in
    let '(ok, dlen, dpos) := build_levels 15 cnt 0 (replicate 16 0) (replicate 16 0) in
    let h := {| hd_quick := replicate (Z.to_nat QUICK_SIZE) 0; hd_len := dlen; hd_pos := dpos;
                hd_num := replicate 306 0; hd_max_num := zlen lens |} in
    if negb ok then Ok (false, h)
    else
      num ← place_symbols lens 0 dpos (replicate 306 0);
      let h := {| hd_quick := hd_quick h; hd_len := dlen; hd_pos := dpos; hd_num := num;
                  hd_max_num := zlen lens |} in
      quick ← build_quick (Z.to_nat QUICK_SIZE) 0 15 h;
      mret (true, {| hd_quick := quick; hd_len := dlen; hd_pos := dpos; hd_num := num;
                     hd_max_num := zlen lens |}).

(** ** Decoding *)

(** [for (i = QUICK_BITS + 1; i < 15; ++i) if (bitfield < decode_len_[i])] *)
Fixpoint slow_loop (h : HuffmanDecoder) (bitfield : Z) (l : list Z) : Z :=
  match l with
  | [] => 15
  | i :: l' => if bitfield <? nthZ (hd_len h) i then i else slow_loop h bitfield l'
  end.

Definition slow_bits (h : HuffmanDecoder) (bitfield : Z) : Z := slow_loop h bitfield (seqZ (QUICK_BITS + 1) 4).

Definition decode {R} `{BitSource R} (h : HuffmanDecoder) (r : R) : res (Z * R) :=
  '(peek, r) ← peek_bits r QUICK_BITS;
  e ← byte_at (hd_quick h) peek;
  let len := Z.shiftr e 16 in
  if negb (len =? 0) then
    r ← consume_bits r len;
    mret (Z.land e 0xFFFF, r)
  else
    '(p, r) ← peek_bits r 15;
    let bitfield := Z.land (u32 (Z.shiftl p 1)) 0xFFFE in
    let bits := slow_bits h bitfield in
    r ← consume_bits r bits;
    dl ← byte_at (hd_len h) (bits - 1);
    let dist := Z.shiftr (u32 (bitfield - dl)) (16 - bits) in
    dp ← byte_at (hd_pos h) bits;
    let pos := u32 (dp + dist) in
    let pos := if pos >=? hd_max_num h then 0 else pos in
    s ← byte_at (hd_num h) pos;
    mret (s, r).

(** ** The encoder's code assignment *)

Fixpoint count_codes (lens bl : list Z) : list Z :=
  match lens with
  | [] => bl
  | l :: lens' =>
      let k := Z.land l 0xF in
      count_codes lens' (if negb (k =? 0) then setZ bl k (u32 (nthZ bl k + 1)) else bl)
  end.

Fixpoint next_codes (k : nat) (bl : list Z) (code : Z) (next : list Z) : list Z :=
  match k with
  | O => next
  | S k' =>
      let bits := 16 - Z.of_nat k in
      let code := u32 (Z.shiftl (u32 (code + nthZ bl (bits - 1))) 1) in
      next_codes k' bl code (setZ next bits code)
  end.

Fixpoint assign_codes (lens next : list Z) : list Z :=
  match lens with
  | [] => []
  | l :: lens' =>
      let l := Z.land l 0xF in
      if negb (l =? 0) then nthZ next l :: assign_codes lens' (setZ next l (u32 (nthZ next l + 1)))
      else 0 :: assign_codes lens' next
  end.

Definition build_codes (lens : list Z) : list Z :=
  assign_codes lens (next_codes 15 (count_codes lens (replicate 16 0)) 0 (replicate 16 0)).

(** ** Specification: the canonical code *)

(** How many of the symbols have length [l]. *)
Definition cnt (lens : list Z) (l : Z) : Z := zlen (filter (fun x => x = l) lens).

(** [upto lens j]: the codes of length at most [j], counted in units of length [j]. *)
Fixpoint upto_n (lens : list Z) (j : nat) : Z :=
  match j with O => 0 | S j' => 2 * upto_n lens j' + cnt lens (Z.of_nat j) end.
Definition upto (lens : list Z) (j : Z) : Z := upto_n lens (Z.to_nat j).

Definition first_code (lens : list Z) (l : Z) : Z := 2 * upto lens (l - 1).

(** Symbols of shorter length, and symbols before [s] of the same length. *)
Definition below (lens : list Z) (l : Z) : Z := zlen (filter (fun x => 0 < x < l) lens).

Definition rank (lens : list Z) (s : Z) : Z := cnt (take (Z.to_nat s) lens) (nthZ lens s).

(** Its place when the symbols are sorted by length, then by value. *)
Definition place (lens : list Z) (s : Z) : Z := below lens (nthZ lens s) + rank lens s.

Definition code_of (lens : list Z) (s : Z) : Z := first_code lens (nthZ lens s) + rank lens s.

Definition lens_ok (lens : list Z) : Prop := zlen lens <= MAX_SYMBOLS /\ Forall (fun l => 0 <= l <= MAX_CODE_BITS) lens.

(** The code is not over-complete. *)
Definition kraft (lens : list Z) : Prop := upto lens 15 <= 2 ^ 15.

Definition coded (lens : list Z) (s : Z) : Prop := 0 <= s < zlen lens /\ 0 < nthZ lens s.

Definition code_bits (lens : list Z) (s : Z) : list bool := zbits (Z.to_nat (nthZ lens s)) (code_of lens s).

(** ** Counting *)

Lemma cnt_app a b l : cnt (a ++ b) l = cnt a l + cnt b l.
Proof. unfold cnt. by rewrite list.filter_app, zlen_app. Qed.

Lemma cnt_cons x a l : cnt (x :: a) l = (if decide (x = l) then 1 else 0) + cnt a l.
Proof. unfold cnt. rewrite list.filter_cons. destruct (decide (x = l)); rewrite ?zlen_cons; lia. Qed.

Lemma cnt_nonneg a l : 0 <= cnt a l.
Proof. apply zlen_nonneg. Qed.

Lemma cnt_le a l : cnt a l <= zlen a.
Proof. unfold cnt, zlen. pose proof (list.length_filter (fun x => x = l) a). lia. Qed.

Lemma below_cons x a l : below (x :: a) l = (if decide (0 < x < l) then 1 else 0) + below a l.
Proof. unfold below. rewrite list.filter_cons. destruct (decide (0 < x < l)); rewrite ?zlen_cons; lia. Qed.

Lemma below_nonneg a l : 0 <= below a l.
Proof. apply zlen_nonneg. Qed.

Lemma below_step a l : 0 < l -> below a (l + 1) = below a l + cnt a l.
Proof.
  intros Hl. induction a as [|x a IH]; [done|]. rewrite !below_cons, cnt_cons, IH.
  destruct (decide (0 < x < l + 1)), (decide (0 < x < l)), (decide (x = l)); lia.
Qed.

Lemma below_1 a : below a 1 = 0.
Proof. induction a as [|x a IH]; [done|]. rewrite below_cons, IH. destruct (decide _); lia. Qed.

Lemma below_le a l : below a l <= zlen a.
Proof. unfold below, zlen. pose proof (list.length_filter (fun x => 0 < x < l) a). lia. Qed.

Lemma below_mono a l m : l <= m -> below a l <= below a m.
Proof.
  intros Hl. induction a as [|x a IH]; [done|]. rewrite !below_cons.
  destruct (decide (0 < x < l)), (decide (0 < x < m)); lia.
Qed.

Lemma take_nthZ (lens : list Z) s :
  0 <= s < zlen lens -> take (Z.to_nat (s + 1)) lens = take (Z.to_nat s) lens ++ [nthZ lens s].
Proof.
  intros Hs. replace (Z.to_nat (s + 1)) with (S (Z.to_nat s)) by lia.
  destruct (lookup_lt_is_Some_2 lens (Z.to_nat s)) as [x Hx]; [unfold zlen in Hs; lia|].
  rewrite (take_S_r _ _ x) by done. unfold nthZ. by rewrite (nth_lookup_Some _ _ 0 x).
Qed.

Lemma cnt_take_mono lens m n l : m <= n -> cnt (take (Z.to_nat m) lens) l <= cnt (take (Z.to_nat n) lens) l.
Proof.
  intros Hm. rewrite <- (take_drop (Z.to_nat m) (take (Z.to_nat n) lens)), take_take, Nat.min_l by lia.
  rewrite cnt_app. pose proof (cnt_nonneg (drop (Z.to_nat m) (take (Z.to_nat n) lens)) l). lia.
Qed.

Lemma cnt_take_step lens s :
  0 <= s < zlen lens -> cnt (take (Z.to_nat (s + 1)) lens) (nthZ lens s) = rank lens s + 1.
Proof.
  intros Hs. rewrite take_nthZ, cnt_app, cnt_cons by done. unfold rank. destruct (decide _); [|done].
  change (cnt [] (nthZ lens s)) with 0. lia.
Qed.

Lemma code_rank_lt lens s : 0 <= s < zlen lens -> rank lens s < cnt lens (nthZ lens s).
Proof.
  intros Hs. pose proof (cnt_take_step lens s Hs).
  pose proof (cnt_take_mono lens (s + 1) (zlen lens) (nthZ lens s) ltac:(lia)) as M.
  rewrite (take_ge lens (Z.to_nat (zlen lens))) in M by (unfold zlen; lia). lia.
Qed.

Lemma rank_nonneg lens s : 0 <= rank lens s.
Proof. apply cnt_nonneg. Qed.

Lemma code_rank_mono lens s t :
  0 <= s < t -> t < zlen lens -> nthZ lens s = nthZ lens t -> rank lens s < rank lens t.
Proof.
  intros Hs Ht E. pose proof (cnt_take_step lens s ltac:(lia)).
  pose proof (cnt_take_mono lens (s + 1) t (nthZ lens s) ltac:(lia)). unfold rank at 2. rewrite <- E. lia.
Qed.

Lemma place_range lens s :
  coded lens s -> below lens (nthZ lens s) <= place lens s < below lens (nthZ lens s + 1).
Proof.
  intros [Hs Hl]. unfold place. rewrite below_step by done.
  pose proof (code_rank_lt lens s Hs). pose proof (rank_nonneg lens s). lia.
Qed.

Lemma place_inj lens s t : coded lens s -> coded lens t -> place lens s = place lens t -> s = t.
Proof.
  intros Hs Ht E. pose proof (place_range lens s Hs) as Rs. pose proof (place_range lens t Ht) as Rt.
  destruct Hs as [Hs Hls], Ht as [Ht Hlt].
  destruct (Z.lt_trichotomy (nthZ lens s) (nthZ lens t)) as [L|[L|L]].
  - pose proof (below_mono lens (nthZ lens s + 1) (nthZ lens t) ltac:(lia)). lia.
  - unfold place in E. rewrite L in E.
    destruct (Z.lt_trichotomy s t) as [C|[C|C]]; [|done|];
      [pose proof (code_rank_mono lens s t ltac:(lia) ltac:(lia) ltac:(lia))|
       pose proof (code_rank_mono lens t s ltac:(lia) ltac:(lia) ltac:(lia))]; lia.
  - pose proof (below_mono lens (nthZ lens t + 1) (nthZ lens s) ltac:(lia)). lia.
Qed.

Lemma place_bound lens s : coded lens s -> 0 <= place lens s < zlen lens.
Proof.
  intros Hs. pose proof (place_range lens s Hs). pose proof (below_nonneg lens (nthZ lens s)).
  pose proof (below_le lens (nthZ lens s + 1)). lia.
Qed.

(** *** Kraft sums *)

Lemma upto_step lens j : 0 <= j -> upto lens (j + 1) = 2 * upto lens j + cnt lens (j + 1).
Proof.
  intros Hj. unfold upto. replace (Z.to_nat (j + 1)) with (S (Z.to_nat j)) by lia. cbn [upto_n].
  replace (Z.of_nat (S (Z.to_nat j))) with (j + 1) by lia. done.
Qed.

Lemma upto_0 lens : upto lens 0 = 0.
Proof. done. Qed.

Lemma upto_nonneg lens j : 0 <= upto lens j.
Proof.
  unfold upto. induction (Z.to_nat j) as [|n IH]; [done|]. cbn [upto_n].
  pose proof (cnt_nonneg lens (Z.of_nat (S n))). lia.
Qed.

(** [decode_len_[j]] *)
Definition limit (lens : list Z) (j : Z) : Z := upto lens j * 2 ^ (16 - j).

Lemma limit_nonneg lens j : j <= 16 -> 0 <= limit lens j.
Proof. intros Hj. apply Z.mul_nonneg_nonneg; [apply upto_nonneg|]. apply Z.pow_nonneg. lia. Qed.

Lemma limit_step lens j : 0 <= j < 16 -> limit lens (j + 1) = limit lens j + cnt lens (j + 1) * 2 ^ (15 - j).
Proof.
  intros Hj. unfold limit. rewrite upto_step by lia. replace (16 - (j + 1)) with (15 - j) by lia.
  replace (16 - j) with (1 + (15 - j)) by lia. rewrite Z.pow_add_r by lia. lia.
Qed.

Lemma limit_mono lens i j : 0 <= i <= j -> j <= 16 -> limit lens i <= limit lens j.
Proof.
  intros Hi Hj. apply (Loops.range_ind (fun j => limit lens i <= limit lens j) i j); [lia|done|].
  intros k Hk IH. rewrite limit_step by lia. pose proof (cnt_nonneg lens (k + 1)).
  assert (0 < 2 ^ (15 - k)) by (apply Z.pow_pos_nonneg; lia). nia.
Qed.

Lemma limit_15 lens : limit lens 15 = upto lens 15 * 2.
Proof. done. Qed.

Lemma kraft_iff lens : kraft lens <-> forall j, 0 <= j <= 15 -> upto lens j <= 2 ^ j.
Proof.
  unfold kraft. split; intros Hk; [|apply Hk; lia]. intros j Hj.
  pose proof (limit_mono lens j 15 ltac:(lia) ltac:(lia)) as M. rewrite limit_15 in M. unfold limit in M.
  generalize dependent (upto lens 15). intros u Hu M.
  assert (E : 2 ^ j * 2 ^ (16 - j) = 2 ^ 15 * 2) by (rewrite <- Z.pow_add_r by lia; replace (j + (16 - j)) with 16 by lia; done).
  assert (P : 0 < 2 ^ (16 - j)) by (apply Z.pow_pos_nonneg; lia).
  apply (Zmult_le_reg_r _ _ (2 ^ (16 - j))); lia.
Qed.

Lemma first_code_limit lens l : 1 <= l <= 16 -> first_code lens l * 2 ^ (16 - l) = limit lens (l - 1).
Proof.
  intros Hl. unfold first_code, limit. replace (16 - (l - 1)) with (1 + (16 - l)) by lia.
  rewrite Z.pow_add_r by lia. lia.
Qed.

Lemma code_of_range lens s :
  coded lens s -> first_code lens (nthZ lens s) <= code_of lens s < upto lens (nthZ lens s).
Proof.
  intros [Hs Hl]. unfold code_of, first_code. pose proof (code_rank_lt lens s Hs). pose proof (rank_nonneg lens s).
  pose proof (upto_step lens (nthZ lens s - 1) ltac:(lia)) as E.
  replace (nthZ lens s - 1 + 1) with (nthZ lens s) in E by lia. lia.
Qed.

(** ** The tables *)

Lemma land_15 l : 0 <= l <= 15 -> Z.land l 0xF = l.
Proof. intros Hl. change 0xF with (Z.ones 4). rewrite Z.land_ones by lia. apply Z.mod_small. lia. Qed.

Lemma lens_cons x lens : Forall (fun l => 0 <= l <= 15) (x :: lens) -> 0 <= x <= 15 /\ Forall (fun l => 0 <= l <= 15) lens.
Proof. intros F. by inversion F. Qed.

Lemma count_lengths_spec lens c :
  Forall (fun l => 0 <= l <= 15) lens -> zlen c = 16 ->
  (forall j, 0 <= j < 16 -> 0 <= nthZ c j /\ nthZ c j + zlen lens < 2 ^ 32) ->
  zlen (count_lengths lens c) = 16 /\
  forall j, 0 <= j < 16 -> nthZ (count_lengths lens c) j = nthZ c j + cnt lens j.
Proof.
  revert c. induction lens as [|x lens IH]; intros c Hl Hc Hn; [split; [done|]; intros; cbn [count_lengths]; change (cnt [] j) with 0; lia|].
  apply lens_cons in Hl as [Hx Hl]. cbn [count_lengths]. rewrite land_15 by done. rewrite zlen_cons in Hn.
  pose proof (zlen_nonneg lens). pose proof (Hn x ltac:(lia)).
  rewrite (wrap_small 32) by lia.
  destruct (IH (setZ c x (nthZ c x + 1)) Hl) as [L E].
  - by rewrite zlen_setZ.
  - intros j Hj. specialize (Hn j Hj). rewrite nthZ_setZ by lia. destruct (Z.eqb_spec j x) as [->|]; lia.
  - split; [done|]. intros j Hj. rewrite E, cnt_cons, nthZ_setZ by lia.
    destruct (Z.eqb_spec j x), (decide (x = j)); subst; (lia || done).
Qed.

Lemma length_counts_spec lens j :
  lens_ok lens -> 0 <= j < 16 -> nthZ (length_counts lens) j = if j =? 0 then 0 else cnt lens j.
Proof.
  intros [Hn Hl] Hj. unfold length_counts, MAX_SYMBOLS in *.
  destruct (count_lengths_spec lens (replicate 16 0) Hl) as [L E]; [done| |].
  - intros k Hk. rewrite nthZ_replicate_0. pose proof (zlen_nonneg lens). lia.
  - rewrite nthZ_setZ by lia. destruct (Z.eqb_spec j 0); [done|]. by rewrite E, nthZ_replicate_0 by lia.
Qed.

(** What the loop over the lengths leaves for the first [i] of them. *)
Definition levels (lens : list Z) (i : Z) (dlen dpos : list Z) : Prop :=
  zlen dlen = 16 /\ zlen dpos = 16 /\
  (forall j, 0 <= j < i -> nthZ dlen j = limit lens j) /\
  (forall j, 1 <= j < i -> nthZ dpos j = below lens j) /\ nthZ dpos 0 = 0.

Lemma upto_small lens j : lens_ok lens -> 0 <= j <= 14 -> upto lens j <= 2 ^ j -> upto lens (j + 1) < 2 ^ 16.
Proof.
  intros [Hn _] Hj Hu. rewrite upto_step by lia. pose proof (cnt_le lens (j + 1)). unfold MAX_SYMBOLS in *.
  pose proof (pow_le j 14 ltac:(lia)). lia.
Qed.

Lemma build_levels_spec lens k upper dlen dpos :
  lens_ok lens -> (k <= 15)%nat -> upper = 2 * upto lens (15 - Z.of_nat k) ->
  (forall j, 0 <= j < 16 - Z.of_nat k -> upto lens j <= 2 ^ j) ->
  levels lens (16 - Z.of_nat k) dlen dpos ->
  let '(ok, dlen', dpos') := build_levels k (length_counts lens) upper dlen dpos in
  (ok = true <-> kraft lens) /\ zlen dlen' = 16 /\ zlen dpos' = 16 /\ (ok = true -> levels lens 16 dlen' dpos').
Proof.
  intros Hok. revert upper dlen dpos. induction k as [|k IH]; intros upper dlen dpos Hk Hu Hacc HL.
  { cbn [build_levels]. split; [split; [|done]; intros _; apply (Hacc 15); lia|]. split; [apply HL|]. split; [apply HL|done]. }
  cbn [build_levels]. set (i := 16 - Z.of_nat (S k)) in *.
  assert (Hi : 1 <= i <= 15) by lia. replace (15 - Z.of_nat (S k)) with (i - 1) in Hu by lia.
  assert (Eu : upper + nthZ (length_counts lens) i = upto lens i).
  { rewrite length_counts_spec, (proj2 (Z.eqb_neq i 0)) by (done || lia). pose proof (upto_step lens (i - 1) ltac:(lia)) as U.
    replace (i - 1 + 1) with i in U by lia. lia. }
  pose proof (upto_small lens (i - 1) Hok ltac:(lia) (Hacc (i - 1) ltac:(lia))) as Hs.
  replace (i - 1 + 1) with i in Hs by lia. pose proof (upto_nonneg lens i) as Hnn.
  rewrite Eu, (wrap_small 32 (upto lens i)) by lia. rewrite Z.gtb_ltb, Z.shiftl_1_l.
  destruct HL as (L1 & L2 & HD & HP & H0).
  destruct (Z.ltb_spec (2 ^ i) (upto lens i)) as [Hgt|Hle].
  { split; [split; [done|]|done]. intros K. pose proof (proj1 (kraft_iff lens) K i ltac:(lia)). lia. }
  assert (Hl : upto lens i * 2 ^ (16 - i) <= 2 ^ 16).
  { replace 16 with (i + (16 - i)) at 2 by lia. rewrite Z.pow_add_r by lia. apply Z.mul_le_mono_nonneg_r; [|done].
    apply Z.pow_nonneg. lia. }
  assert (0 <= upto lens i * 2 ^ (16 - i)) by (apply Z.mul_nonneg_nonneg; [done|]; apply Z.pow_nonneg; lia).
  rewrite !Z.shiftl_mul_pow2, Z.pow_1_r by lia. rewrite !(wrap_small 32 (_ * _)) by lia.
  assert (Ep : u32 (nthZ dpos (i - 1) + nthZ (length_counts lens) (i - 1)) = below lens i).
  { rewrite length_counts_spec by (done || lia). pose proof (below_le lens i). destruct Hok as [Hn _]. unfold MAX_SYMBOLS in Hn.
    pose proof (below_nonneg lens i). destruct (Z.eqb_spec (i - 1) 0) as [E0|E0].
    - rewrite E0, H0. replace i with 1 by lia. by rewrite below_1.
    - rewrite HP by lia. pose proof (below_step lens (i - 1) ltac:(lia)) as B. replace (i - 1 + 1) with i in B by lia.
      rewrite <- B. apply wrap_small. lia. }
  rewrite Ep. assert (Ei : 16 - Z.of_nat k = i + 1) by lia.
  apply IH; [lia|rewrite Z.mul_comm; do 2 f_equal; lia| |].
  - intros j Hj. destruct (Z.eq_dec j i) as [->|]; [done|]. apply Hacc. lia.
  - rewrite Ei. split; [by rewrite zlen_setZ|]. split; [by rewrite zlen_setZ|].
    split; [|split]; [intros j Hj; rewrite nthZ_setZ by lia..|by rewrite nthZ_setZ_ne by lia].
    + destruct (Z.eqb_spec j i) as [->|]; [done|]. apply HD. lia.
    + destruct (Z.eqb_spec j i) as [->|]; [done|]. apply HP. lia.
Qed.

Definition numbered (lens : list Z) (i : Z) (num : list Z) : Prop :=
  zlen num = 306 /\
  (forall s, coded lens s -> s < i -> nthZ num (place lens s) = s) /\
  (forall p, 0 <= p < 306 -> nthZ num p = 0 \/ 0 <= nthZ num p < i).

Lemma nthZ_middle (a : list Z) x b : nthZ (a ++ x :: b) (zlen a) = x.
Proof. unfold nthZ, zlen. by rewrite Nat2Z.id, nth_middle. Qed.

Lemma place_symbols_spec pre lens copy_pos num :
  lens_ok (pre ++ lens) -> zlen copy_pos = 16 ->
  (forall l, 1 <= l <= 15 -> nthZ copy_pos l = below (pre ++ lens) l + cnt pre l) ->
  numbered (pre ++ lens) (zlen pre) num ->
  exists num', place_symbols lens (zlen pre) copy_pos num = Ok num' /\
    numbered (pre ++ lens) (zlen (pre ++ lens)) num'.
Proof.
  revert pre copy_pos num. induction lens as [|x lens IH]; intros pre copy_pos num Hok Hc HP HN.
  { exists num. rewrite app_nil_r in *. done. }
  assert (E : pre ++ x :: lens = (pre ++ [x]) ++ lens) by (by rewrite <- app_assoc).
  assert (Lp : zlen (pre ++ [x]) = zlen pre + 1) by (rewrite zlen_app; done).
  pose proof (nthZ_middle pre x lens) as Ex. cbn [place_symbols].
  destruct Hok as [Hn Hl]. assert (Hx : 0 <= x <= 15).
  { apply Forall_app in Hl as [_ Hl]. by inversion Hl. }
  assert (Hi : 0 <= zlen pre < zlen (pre ++ x :: lens)) by (rewrite zlen_app, zlen_cons; zlen_lia).
  rewrite land_15 by done. replace (zlen pre + 1) with (zlen (pre ++ [x])) by (rewrite zlen_app; done).
  destruct HN as (N1 & N2 & N3). destruct (Z.eqb_spec x 0) as [->|Hx0]; cbn [negb].
  - rewrite E in *. apply IH; [done|done| |].
    + intros l Hl'. rewrite HP, cnt_app, cnt_cons by done. destruct (decide (0 = l)); [lia|]. change (cnt [] l) with 0. lia.
    + split; [done|]. rewrite Lp. split.
      * intros s Hs Hlt. apply N2; [done|]. destruct Hs as [_ Hs]. destruct (Z.eq_dec s (zlen pre)) as [->|]; [lia|lia].
      * intros p Hp. destruct (N3 p Hp); [by left|right; lia].
  - assert (Hcod : coded (pre ++ x :: lens) (zlen pre)) by (split; [done|lia]).
    assert (Er : rank (pre ++ x :: lens) (zlen pre) = cnt pre x).
    { unfold rank. rewrite Ex. unfold zlen. by rewrite Nat2Z.id, take_app_length. }
    assert (Epl : nthZ copy_pos x = place (pre ++ x :: lens) (zlen pre)).
    { unfold place. rewrite Er, Ex. apply HP. lia. }
    pose proof (place_bound _ _ Hcod) as Hpb. unfold MAX_SYMBOLS in Hn.
    rewrite Epl, store_one by lia. res_simpl. rewrite (wrap_small 16 (zlen pre)) by lia.
    rewrite (wrap_small 32 (place _ _ + 1)) by lia.
    rewrite E in *. apply IH; [done|by rewrite zlen_setZ| |].
    + intros l Hl'. rewrite nthZ_setZ, cnt_app, cnt_cons by lia. change (cnt [] l) with 0.
      destruct (Z.eqb_spec l x) as [->|Hne].
      * destruct (decide (x = x)); [|done]. rewrite <- Epl, HP by lia. lia.
      * destruct (decide (x = l)); [lia|]. rewrite HP by lia. lia.
    + split; [by rewrite zlen_setZ|]. rewrite Lp. split.
      * intros s Hs Hlt. pose proof (place_bound _ _ Hs). rewrite nthZ_setZ by lia.
        destruct (Z.eqb_spec (place ((pre ++ [x]) ++ lens) s) (place ((pre ++ [x]) ++ lens) (zlen pre))) as [Ep|Ep].
        -- symmetry. by apply (place_inj _ _ _ Hs Hcod).
        -- apply N2; [done|]. destruct (Z.eq_dec s (zlen pre)) as [->|]; [done|lia].
      * intros p Hp. rewrite nthZ_setZ by lia. destruct (Z.eqb_spec p (place ((pre ++ [x]) ++ lens) (zlen pre))); [right; lia|].
        destruct (N3 p Hp); [by left|right; lia].
Qed.

(** *** The quick table *)

(** The first length whose limit exceeds [v]; 16 if there is none. *)
Definition find_len (dlen : list Z) (v : Z) : Z := 16 - Z.of_nat (advance_len 15 v dlen).

Lemma advance_len_spec k v dlen :
  let k' := advance_len k v dlen in
  (k' <= k)%nat /\ (forall j, 16 - Z.of_nat k <= j < 16 - Z.of_nat k' -> nthZ dlen j <= v) /\
  ((k' > 0)%nat -> v < nthZ dlen (16 - Z.of_nat k')).
Proof.
  induction k as [|k IH]; cbn [advance_len]; [split; [lia|]; split; intros; lia|].
  rewrite Z.geb_leb. destruct (Z.leb_spec (nthZ dlen (16 - Z.of_nat (S k))) v) as [Hle|Hgt].
  - cbv zeta in IH. destruct IH as (I1 & I2 & I3). cbv zeta. split; [lia|]. split; [|done].
    intros j Hj. destruct (Z.eq_dec j (16 - Z.of_nat (S k))) as [->|]; [done|]. apply I2. lia.
  - cbv zeta. split; [lia|]. split; [intros; lia|done].
Qed.

(** Starting later changes nothing when everything skipped is below. *)
Lemma advance_len_start k v dlen :
  (k <= 15)%nat -> (forall j, 1 <= j < 16 - Z.of_nat k -> nthZ dlen j <= v) -> advance_len k v dlen = advance_len 15 v dlen.
Proof.
  intros Hk Hs. destruct (advance_len_spec k v dlen) as (A1 & A2 & A3). destruct (advance_len_spec 15 v dlen) as (B1 & B2 & B3).
  set (a := advance_len k v dlen) in *. set (b := advance_len 15 v dlen) in *.
  destruct (Nat.lt_trichotomy a b) as [L|[L|L]]; [|done|]; exfalso.
  - specialize (B3 ltac:(lia)). destruct (Z_lt_le_dec (16 - Z.of_nat b) (16 - Z.of_nat k)).
    + specialize (Hs (16 - Z.of_nat b) ltac:(lia)). lia.
    + specialize (A2 (16 - Z.of_nat b) ltac:(lia)). lia.
  - specialize (A3 ltac:(lia)). specialize (B2 (16 - Z.of_nat a) ltac:(lia)). lia.
Qed.

Lemma build_quick_spec h codes code k :
  (k <= 15)%nat -> (forall j, 1 <= j < 16 - Z.of_nat k -> nthZ (hd_len h) j <= Z.shiftl code 6) ->
  0 <= code ->
  forall t, build_quick codes code k h = Ok t ->
    zlen t = Z.of_nat codes /\
    forall c, code <= c < code + Z.of_nat codes ->
      quick_entry h (find_len (hd_len h) (Z.shiftl c 6)) (Z.shiftl c 6) = Ok (nthZ t (c - code)).
Proof.
  revert code k. induction codes as [|codes IH]; intros code k Hk Hs Hc t; cbn [build_quick].
  { intros [= <-]. split; [done|]. intros c Hcc. lia. }
  change (16 - QUICK_BITS) with 6. set (v := Z.shiftl code 6) in *.
  pose proof (advance_len_start k v (hd_len h) Hk Hs) as Ea. rewrite Ea.
  destruct (advance_len_spec 15 v (hd_len h)) as (B1 & B2 & _). set (k1 := advance_len 15 v (hd_len h)) in *.
  destruct (quick_entry h (16 - Z.of_nat k1) v) as [e| | |] eqn:Ee; try done. res_simpl.
  destruct (build_quick codes (code + 1) k1 h) as [t'| | |] eqn:Et; try done. cbn. intros [= <-].
  destruct (IH (code + 1) k1 ltac:(lia)) with (t := t') as [L E]; [|lia|done|].
  { intros j Hj. specialize (B2 j ltac:(lia)). rewrite Z.shiftl_mul_pow2 by lia. subst v. rewrite Z.shiftl_mul_pow2 in B2 by lia. lia. }
  split; [rewrite zlen_cons; lia|]. intros c Hcc. destruct (Z.eq_dec c code) as [->|Hne].
  - rewrite Z.sub_diag. unfold find_len. exact Ee.
  - rewrite E by lia. f_equal. unfold nthZ. replace (Z.to_nat (c - code)) with (S (Z.to_nat (c - (code + 1)))) by lia. done.
Qed.

(** *** Lookup of a left-aligned value *)

(** The position among the sorted symbols of the code that starts [v]. *)
Definition slot_of (lens : list Z) (L v : Z) : Z := below lens L + (v - limit lens (L - 1)) / 2 ^ (16 - L).

Section lookup.
Context (lens : list Z) (dlen : list Z).
Hypothesis HD : forall j, 0 <= j < 16 -> nthZ dlen j = limit lens j.

Lemma find_len_spec v :
  0 <= v ->
  let L := find_len dlen v in
  1 <= L <= 16 /\ limit lens (L - 1) <= v /\ (L <= 15 -> v < limit lens L).
Proof.
  intros Hv. cbv zeta. unfold find_len. destruct (advance_len_spec 15 v dlen) as (B1 & B2 & B3).
  set (k := advance_len 15 v dlen) in *. split; [lia|]. split.
  - destruct (Z.eq_dec (16 - Z.of_nat k) 1) as [->|Hne]; [done|]. rewrite <- HD by lia. apply B2. lia.
  - intros HL. rewrite <- HD by lia. apply B3. lia.
Qed.

Lemma find_len_unique v l :
  0 <= v -> 1 <= l <= 15 -> limit lens (l - 1) <= v < limit lens l -> find_len dlen v = l.
Proof.
  intros Hv Hl Hb. destruct (find_len_spec v Hv) as (F1 & F2 & F3). set (L := find_len dlen v) in *.
  destruct (Z.lt_trichotomy L l) as [C|[C|C]]; [|done|].
  - pose proof (limit_mono lens L (l - 1) ltac:(lia) ltac:(lia)). specialize (F3 ltac:(lia)). lia.
  - pose proof (limit_mono lens l (L - 1) ltac:(lia) ltac:(lia)). lia.
Qed.

Lemma slot_of_range v L :
  1 <= L <= 15 -> limit lens (L - 1) <= v < limit lens L -> 0 <= slot_of lens L v < below lens (L + 1).
Proof.
  intros HL Hv. unfold slot_of. pose proof (limit_step lens (L - 1) ltac:(lia)) as E.
  replace (L - 1 + 1) with L in E by lia. replace (15 - (L - 1)) with (16 - L) in E by lia.
  assert (P : 0 < 2 ^ (16 - L)) by (apply Z.pow_pos_nonneg; lia).
  rewrite below_step by lia. pose proof (below_nonneg lens L).
  pose proof (Z.div_pos (v - limit lens (L - 1)) (2 ^ (16 - L)) ltac:(lia) P).
  pose proof (Z.div_lt_upper_bound (v - limit lens (L - 1)) (2 ^ (16 - L)) (cnt lens L) P ltac:(lia)). lia.
Qed.
End lookup.

Record built (lens : list Z) (h : HuffmanDecoder) : Prop := {
  bl_ok : lens_ok lens;
  bl_kraft : kraft lens;
  bl_levels : levels lens 16 (hd_len h) (hd_pos h);
  bl_num : numbered lens (zlen lens) (hd_num h);
  bl_max : hd_max_num h = zlen lens;
  bl_quick_len : zlen (hd_quick h) = QUICK_SIZE;
  bl_quick : forall c, 0 <= c < QUICK_SIZE ->
    let v := Z.shiftl c 6 in
    let L := find_len (hd_len h) v in
    nthZ (hd_quick h) c = if L >? QUICK_BITS then 0 else Z.lor (Z.shiftl L 16) (nthZ (hd_num h) (slot_of lens L v))
}.

Lemma quick_entry_ok lens h v :
  lens_ok lens -> levels lens 16 (hd_len h) (hd_pos h) -> numbered lens (zlen lens) (hd_num h) ->
  hd_max_num h = zlen lens -> 0 <= v < 2 ^ 16 ->
  let L := find_len (hd_len h) v in
  quick_entry h L v = Ok (if L >? QUICK_BITS then 0 else Z.lor (Z.shiftl L 16) (nthZ (hd_num h) (slot_of lens L v))).
Proof.
  intros [Hn _] (L1 & L2 & HD & HP & _) (N1 & _) Hm Hv. cbv zeta. unfold quick_entry.
  destruct (find_len_spec lens (hd_len h) HD v ltac:(lia)) as (F1 & F2 & F3).
  set (L := find_len (hd_len h) v) in *. unfold MAX_SYMBOLS in Hn.
  rewrite (Z.gtb_ltb L). destruct (Z.ltb_spec QUICK_BITS L) as [Hgt|Hle]; [done|]. unfold QUICK_BITS in Hle.
  rewrite (Z.geb_leb L), (proj2 (Z.leb_gt 16 L)) by lia. specialize (F3 ltac:(lia)).
  rewrite !byte_at_nthZ by lia. res_simpl. rewrite HD, HP by lia.
  pose proof (slot_of_range lens v L ltac:(lia) ltac:(lia)) as S. unfold slot_of in *. pose proof (below_le lens (L + 1)).
  pose proof (limit_nonneg lens (L - 1) ltac:(lia)).
  rewrite (wrap_small 32 (v - limit lens (L - 1))), Z.shiftr_div_pow2 by lia. rewrite (wrap_small 32 (_ + _)) by lia.
  rewrite Hm, (proj2 (Z.ltb_lt _ _)), byte_at_nthZ by lia. done.
Qed.

Lemma build_quick_total h codes code k :
  (k <= 15)%nat -> (forall c, code <= c < code + Z.of_nat codes -> exists e,
     quick_entry h (find_len (hd_len h) (Z.shiftl c 6)) (Z.shiftl c 6) = Ok e) ->
  (forall j, 1 <= j < 16 - Z.of_nat k -> nthZ (hd_len h) j <= Z.shiftl code 6) -> 0 <= code ->
  exists t, build_quick codes code k h = Ok t.
Proof.
  revert code k. induction codes as [|codes IH]; intros code k Hk He Hs Hc; cbn [build_quick]; [by eexists|].
  change (16 - QUICK_BITS) with 6. set (v := Z.shiftl code 6) in *.
  rewrite (advance_len_start k v (hd_len h) Hk Hs). destruct (He code ltac:(lia)) as (e & Ee).
  unfold find_len in Ee. fold v in Ee. rewrite Ee. res_simpl.
  destruct (advance_len_spec 15 v (hd_len h)) as (B1 & B2 & _). set (k1 := advance_len 15 v (hd_len h)) in *.
  destruct (IH (code + 1) k1 ltac:(lia)) as [t Et]; [intros c Hcc; apply He; lia| |lia|rewrite Et; by eexists].
  intros j Hj. specialize (B2 j ltac:(lia)). subst v. rewrite Z.shiftl_mul_pow2 in * by lia. lia.
Qed.

Definition quick_ok (lens : list Z) (h : HuffmanDecoder) (quick : list Z) : Prop :=
  zlen quick = QUICK_SIZE /\
  forall c, 0 <= c < QUICK_SIZE ->
    let v := Z.shiftl c 6 in
    let L := find_len (hd_len h) v in
    nthZ quick c = if L >? QUICK_BITS then 0 else Z.lor (Z.shiftl L 16) (nthZ (hd_num h) (slot_of lens L v)).

Lemma quick_table lens h :
  lens_ok lens -> levels lens 16 (hd_len h) (hd_pos h) -> numbered lens (zlen lens) (hd_num h) ->
  hd_max_num h = zlen lens ->
  exists quick, build_quick (Z.to_nat QUICK_SIZE) 0 15 h = Ok quick /\ quick_ok lens h quick.
Proof.
  intros Hok HL HN Hm.
  assert (HE : forall c, 0 <= c < QUICK_SIZE -> quick_entry h (find_len (hd_len h) (Z.shiftl c 6)) (Z.shiftl c 6) =
     Ok (let L := find_len (hd_len h) (Z.shiftl c 6) in
         if L >? QUICK_BITS then 0 else Z.lor (Z.shiftl L 16) (nthZ (hd_num h) (slot_of lens L (Z.shiftl c 6))))).
  { intros c Hc. apply (quick_entry_ok lens h); [done..|]. rewrite Z.shiftl_mul_pow2 by lia.
    change QUICK_SIZE with 1024 in Hc. lia. }
  assert (EN : Z.of_nat (Z.to_nat QUICK_SIZE) = QUICK_SIZE) by (apply Z2Nat.id; unfold QUICK_SIZE; apply Z.shiftl_nonneg; lia).
  destruct (build_quick_total h (Z.to_nat QUICK_SIZE) 0 15) as [t Et];
    [lia|rewrite EN; intros c Hc; eexists; by apply HE|intros; lia|lia|].
  exists t. split; [done|]. destruct (build_quick_spec h (Z.to_nat QUICK_SIZE) 0 15) with (t := t) as [Lt Q];
    [lia|intros; lia|lia|done|]. rewrite EN in *.
  split; [done|]. intros c Hc. cbv zeta. specialize (Q c Hc). rewrite HE, Z.sub_0_r in Q by done. by injection Q.
Qed.

Lemma no_long_length lens : lens_ok lens -> existsb (fun l => l >? MAX_CODE_BITS) lens = false.
Proof.
  intros [_ Hl]. apply not_true_is_false. intros E. apply existsb_exists in E as (x & Hx & Hgt).
  rewrite List.Forall_forall in Hl. specialize (Hl x Hx). lia.
Qed.

Lemma initial_levels lens : levels lens 1 (replicate 16 0) (replicate 16 0).
Proof.
  split; [done|]. split; [done|]. split; [|split]; intros; rewrite ?nthZ_replicate_0; [|lia|done].
  by replace j with 0 by lia.
Qed.

Lemma initial_numbered lens : numbered lens 0 (replicate 306 0).
Proof.
  split; [by rewrite zlen_replicate|]. split; [|intros; left; apply nthZ_replicate_0]. intros s [Hs _] Hlt. lia.
Qed.

Lemma place_all lens dlen dpos :
  lens_ok lens -> levels lens 16 dlen dpos ->
  exists num, place_symbols lens 0 dpos (replicate 306 0) = Ok num /\ numbered lens (zlen lens) num.
Proof.
  intros Hok (_ & L2 & _ & HP & _). apply (place_symbols_spec [] lens dpos (replicate 306 0) Hok L2).
  - intros l Hl'. cbn [app]. rewrite HP by lia. change (cnt [] l) with 0. lia.
  - apply initial_numbered.
Qed.

(** [build] accepts exactly the codes that are not over-complete. *)
Lemma build_spec h lens :
  lens_ok lens ->
  exists ok h', build h lens = Ok (ok, h') /\ (ok = true <-> kraft lens) /\ (ok = true -> built lens h').
Proof.
  intros Hok. pose proof Hok as [Hn Hl]. unfold build. rewrite Z.gtb_ltb, (proj2 (Z.ltb_ge _ _)) by done.
  rewrite no_long_length by done.
  pose proof (build_levels_spec lens 15 0 (replicate 16 0) (replicate 16 0) Hok) as BL.
  destruct (build_levels _ _ _ _ _) as [[ok dlen] dpos].
  destruct BL as (K & L1 & L2 & HL); [lia|done|intros j Hj; by replace j with 0 by lia|apply initial_levels|].
  destruct ok; cbn [negb]; [|by eexists _, _].
  specialize (HL eq_refl). pose proof HL as (_ & _ & HD & HP & HP0).
  destruct (place_all lens dlen dpos Hok HL) as (num & En & Hnum).
  rewrite En, bind_ok. cbn [hd_quick].
  set (hq := {| hd_quick := _; hd_len := dlen; hd_pos := dpos; hd_num := num; hd_max_num := zlen lens |}).
  destruct (quick_table lens hq Hok HL Hnum eq_refl) as (quick & Eq & Lq & Q).
  rewrite Eq, bind_ok. eexists _, _. split; [reflexivity|]. split; [tauto|]. intros _. by split; [| apply K| | | | |].
Qed.

(** ** Decoding *)

(** The next 15 bits, left-aligned to 16. *)
Definition window15 (b : Bits) : Z := 2 * padded 15 (bt_bits b).

Lemma window15_range b : 0 <= window15 b < 2 ^ 16.
Proof. unfold window15. pose proof (padded_range 15 (bt_bits b) ltac:(lia)). lia. Qed.

Lemma padded_10 b : padded 10 (bt_bits b) = window15 b / 64.
Proof.
  unfold window15. change 15 with (10 + 5). rewrite padded_add by lia.
  pose proof (padded_range 5 (drop (Z.to_nat 10) (bt_bits b)) ltac:(lia)).
  replace (2 * (padded 10 (bt_bits b) * 2 ^ 5 + padded 5 (drop (Z.to_nat 10) (bt_bits b))))
    with (padded 10 (bt_bits b) * 64 + 2 * padded 5 (drop (Z.to_nat 10) (bt_bits b))) by lia.
  rewrite Z.div_add_l by lia. rewrite Z.div_small by lia. lia.
Qed.

Lemma limit_multiple lens j : 0 <= j <= 10 -> exists k, limit lens j = 64 * k.
Proof.
  intros Hj. exists (upto lens j * 2 ^ (10 - j)). unfold limit.
  replace (16 - j) with (6 + (10 - j)) by lia. rewrite Z.pow_add_r by lia. lia.
Qed.

Section decoding.
Context (lens : list Z) (h : HuffmanDecoder).
Hypothesis HB : built lens h.

Lemma hd_limits j : 0 <= j < 16 -> nthZ (hd_len h) j = limit lens j.
Proof. apply (bl_levels lens h HB). Qed.

(** Ten bits decide the codes of at most ten bits. *)
Lemma find_len_short v :
  0 <= v < 2 ^ 16 ->
  let v10 := 64 * (v / 64) in
  let L := find_len (hd_len h) v10 in
  if L <=? 10 then find_len (hd_len h) v = L /\ slot_of lens L v = slot_of lens L v10
  else 10 < find_len (hd_len h) v.
Proof.
  intros Hv. cbv zeta. set (v10 := 64 * (v / 64)).
  assert (Hq : v10 <= v < v10 + 64) by (subst v10; dlia). assert (0 <= v10) by (subst v10; dlia).
  destruct (find_len_spec lens (hd_len h) hd_limits v10 ltac:(lia)) as (F1 & F2 & F3).
  set (L := find_len (hd_len h) v10) in *. destruct (Z.leb_spec L 10) as [HL|HL].
  - specialize (F3 ltac:(lia)). destruct (limit_multiple lens L ltac:(lia)) as [k Hk].
    destruct (limit_multiple lens (L - 1) ltac:(lia)) as [m Hm].
    assert (v < limit lens L) by (subst v10; lia).
    split; [apply (find_len_unique lens _ hd_limits); lia|].
    unfold slot_of. f_equal. rewrite Hm. replace (16 - L) with (6 + (10 - L)) by lia.
    rewrite Z.pow_add_r by lia. change (2 ^ 6) with 64. assert (0 < 2 ^ (10 - L)) by (apply Z.pow_pos_nonneg; lia).
    rewrite <- !Z.div_div by lia. f_equal.
    replace (v - 64 * m) with (v + (- m) * 64) by lia. replace (v10 - 64 * m) with (v10 + (- m) * 64) by lia.
    rewrite !Z.div_add by lia. f_equal. subst v10. rewrite (Z.mul_comm 64), Z.div_mul by lia. done.
  - destruct (find_len_spec lens (hd_len h) hd_limits v ltac:(lia)) as (G1 & G2 & G3).
    destruct (Z.le_gt_cases (find_len (hd_len h) v) 10) as [C|]; [|done].
    specialize (G3 ltac:(lia)). pose proof (limit_mono lens (find_len (hd_len h) v) (L - 1) ltac:(lia) ltac:(lia)). lia.
Qed.

Lemma slow_bits_spec v :
  0 <= v -> 10 < find_len (hd_len h) v -> slow_bits h v = Z.min 15 (find_len (hd_len h) v).
Proof.
  intros Hv Hgt. destruct (find_len_spec lens (hd_len h) hd_limits v Hv) as (F1 & F2 & F3).
  set (L := find_len (hd_len h) v) in *. unfold slow_bits.
  change (seqZ (QUICK_BITS + 1) 4) with [11; 12; 13; 14]. cbn [slow_loop]. rewrite !hd_limits by lia.
  assert (Hlow : forall i, 11 <= i < L -> i <= 14 -> (v <? limit lens i) = false).
  { intros i Hi Hi'. apply Z.ltb_ge. pose proof (limit_mono lens i (L - 1) ltac:(lia) ltac:(lia)). lia. }
  destruct (Z.le_gt_cases L 14) as [C|C].
  - specialize (F3 ltac:(lia)). assert (HL : L = 11 \/ L = 12 \/ L = 13 \/ L = 14) by lia.
    destruct HL as [-> | [-> | [-> | -> ]]]; repeat rewrite Hlow by lia; by rewrite (proj2 (Z.ltb_lt _ _)) by lia.
  - rewrite !Hlow by lia. lia.
Qed.

(** The symbol a left-aligned value decodes to: the one sorted at [slot_of] the
    length found, the first if the code is not assigned. *)
Definition symbol_at (L v : Z) : Z :=
  let p := slot_of lens L v in nthZ (hd_num h) (if p >=? zlen lens then 0 else p).

Lemma symbol_at_range L v :
  1 <= L -> limit lens (L - 1) <= v -> 0 <= symbol_at L v < Z.max 1 (zlen lens).
Proof.
  intros HL Hv. unfold symbol_at. destruct (bl_num lens h HB) as (_ & _ & N3). pose proof (bl_ok lens h HB) as [Hn _].
  unfold MAX_SYMBOLS in Hn. pose proof (zlen_nonneg lens).
  assert (S : 0 <= slot_of lens L v).
  { unfold slot_of. pose proof (below_nonneg lens L). destruct (Z.le_gt_cases L 16) as [H16|H16].
    - pose proof (Z.div_pos (v - limit lens (L - 1)) (2 ^ (16 - L)) ltac:(lia) ltac:(apply Z.pow_pos_nonneg; lia)). lia.
    - rewrite (Z.pow_neg_r 2 (16 - L)), Z.div_0_r by lia. lia. }
  rewrite Z.geb_leb. set (p := if zlen lens <=? slot_of lens L v then 0 else slot_of lens L v).
  assert (Hp : 0 <= p < 306) by (subst p; destruct (Z.leb_spec (zlen lens) (slot_of lens L v)); lia).
  destruct (N3 p Hp) as [->|]; lia.
Qed.

Lemma window15_masked b : Z.land (u32 (Z.shiftl (padded 15 (bt_bits b)) 1)) 0xFFFE = window15 b.
Proof.
  pose proof (window15_range b) as Hv. rewrite Z.shiftl_mul_pow2, Z.mul_comm by lia.
  change (2 ^ 1 * padded 15 (bt_bits b)) with (window15 b).
  rewrite wrap_small by lia. apply Z.bits_inj'. intros i Hi. rewrite Z.land_spec.
  destruct (Z.eq_dec i 0) as [->|]; [unfold window15; by rewrite Z.testbit_even_0|].
  destruct (Z.lt_ge_cases i 16) as [Hi16|Hi16]; [|by rewrite (testbit_high 16 (window15 b)) by lia].
  replace (Z.testbit 65534 i) with true; [by rewrite andb_true_r|].
  change 65534 with (2 * Z.ones 15). replace i with (Z.succ (i - 1)) by lia.
  rewrite Z.testbit_even_succ by lia. by rewrite Z.ones_spec_low by lia.
Qed.

(** The quick table and the slow path together. *)
Lemma decode_exact b :
  let v := window15 b in
  let L := Z.min 15 (find_len (hd_len h) v) in
  decode h b = Ok (symbol_at L v, bt_consume b L).
Proof.
  cbv zeta. pose proof HB as [[Hn Hl] _ (L1 & L2 & HD & HP & _) (N1 & _ & N3) Hm Lq Q].
  unfold MAX_SYMBOLS in Hn. pose proof (window15_range b) as Hv.
  pose proof (find_len_short (window15 b) Hv) as Short. cbv zeta in Short.
  unfold decode. cbn [peek_bits consume_bits Bits_source]. res_simpl.
  change (Z.min QUICK_BITS 32) with 10. change (Z.min 15 32) with 15.
  rewrite window15_masked, padded_10. set (v := window15 b) in *. unfold QUICK_SIZE, QUICK_BITS in *. change (Z.shiftl 1 10) with 1024 in *.
  rewrite (byte_at_nthZ (hd_quick h)) by (rewrite Lq; dlia). res_simpl.
  specialize (Q (v / 64) ltac:(dlia)). cbv zeta in Q. rewrite Z.shiftl_mul_pow2 in Q by lia.
  change (2 ^ 6) with 64 in Q. rewrite (Z.mul_comm _ 64) in Q. rewrite Q.
  destruct (find_len_spec lens (hd_len h) HD v ltac:(lia)) as (F1 & F2 & F3).
  set (L10 := find_len (hd_len h) (64 * (v / 64))) in *. set (L := find_len (hd_len h) v) in *.
  rewrite Z.gtb_ltb. destruct (Z.leb_spec L10 10) as [C|C].
  - destruct Short as [El Es]. rewrite (proj2 (Z.ltb_ge 10 L10)), (Z.min_r 15 L) by lia. rewrite <- El in *. rewrite <- Es.
    pose proof (slot_of_range lens v L ltac:(lia) ltac:(lia)) as S. pose proof (below_le lens (L + 1)) as SB.
    unfold symbol_at. rewrite Z.geb_leb, (proj2 (Z.leb_gt _ _)) by lia. set (s := nthZ (hd_num h) _).
    assert (Hs : 0 <= s < 2 ^ 16) by (subst s; destruct (N3 (slot_of lens L v) ltac:(lia)) as [->|]; lia).
    rewrite Z.lor_comm, lor_shiftl_add, Z.shiftr_div_pow2, Z.div_add, Z.div_small, Z.add_0_l by lia.
    rewrite (proj2 (Z.eqb_neq L 0)) by lia. cbn [negb]. do 2 f_equal.
    change 0xFFFF with (Z.ones 16). rewrite Z.land_ones, Z.mod_add, Z.mod_small by lia. done.
  - rewrite (proj2 (Z.ltb_lt 10 L10)) by lia. change (Z.shiftr 0 16 =? 0) with true. cbn [negb].
    rewrite slow_bits_spec by lia. fold L. set (n := Z.min 15 L). assert (Hln : limit lens (n - 1) <= v).
    { pose proof (limit_mono lens (n - 1) (L - 1) ltac:(lia) ltac:(lia)). lia. }
    rewrite !byte_at_nthZ by lia. res_simpl. rewrite HD, HP by lia. pose proof (limit_nonneg lens (n - 1) ltac:(lia)).
    rewrite (wrap_small 32 (v - _)), Z.shiftr_div_pow2 by lia.
    assert (Hd : 0 <= (v - limit lens (n - 1)) / 2 ^ (16 - n) < 2 ^ 16).
    { assert (0 < 2 ^ (16 - n)) by (apply Z.pow_pos_nonneg; lia).
      split; [apply Z.div_pos; lia|]. apply Z.div_lt_upper_bound; [lia|nia]. }
    pose proof (below_le lens n). pose proof (below_nonneg lens n).
    rewrite (wrap_small 32 (_ + _)) by lia. unfold symbol_at, slot_of. rewrite Hm, byte_at_nthZ; [done|].
    rewrite Z.geb_leb. destruct (Z.leb_spec (zlen lens) (below lens n + (v - limit lens (n - 1)) / 2 ^ (16 - n))); lia.
Qed.

(** Whatever the bits, some symbol is decoded and at least one bit consumed. *)
Lemma decode_total b :
  exists s n, decode h b = Ok (s, bt_consume b n) /\ 1 <= n <= 15 /\ 0 <= s < Z.max 1 (zlen lens).
Proof.
  pose proof (decode_exact b) as E. cbv zeta in E. pose proof (window15_range b) as Hv.
  destruct (find_len_spec lens (hd_len h) hd_limits (window15 b) ltac:(lia)) as (F1 & F2 & F3).
  set (L := find_len _ _) in *. eexists _, _. split; [exact E|]. split; [lia|]. apply symbol_at_range; [lia|].
  pose proof (limit_mono lens (Z.min 15 L - 1) (L - 1) ltac:(lia) ltac:(lia)). lia.
Qed.

(** The window of a stream that starts with the code of a symbol. *)
Lemma window15_code b s rest :
  coded lens s -> bt_bits b = code_bits lens s ++ rest ->
  let l := nthZ lens s in
  code_of lens s * 2 ^ (16 - l) <= window15 b < (code_of lens s + 1) * 2 ^ (16 - l).
Proof.
  intros Hs Eb. cbv zeta. pose proof (code_of_range lens s Hs) as Hc. destruct Hs as [Hs Hl].
  pose proof (bl_ok lens h HB) as [_ HL]. pose proof (proj1 (kraft_iff lens) (bl_kraft lens h HB)) as HK.
  assert (Hl15 : nthZ lens s <= 15).
  { rewrite List.Forall_forall in HL. destruct (HL (nthZ lens s)) as [_ H15]; [|exact H15].
    unfold nthZ. apply nth_In. unfold zlen in Hs. lia. }
  set (l := nthZ lens s) in *. specialize (HK l ltac:(lia)).
  unfold window15. replace 15 with (l + (15 - l)) by lia. rewrite padded_add by lia.
  assert (Ep : padded l (bt_bits b) = code_of lens s).
  { rewrite Eb, padded_full by (unfold code_bits; rewrite zlen_zbits; fold l; lia).
    unfold code_bits. fold l. rewrite bits_val_zbits, Z2Nat.id by lia. apply Z.mod_small.
    unfold first_code in Hc. pose proof (upto_nonneg lens (l - 1)). lia. }
  rewrite Ep. pose proof (padded_range (15 - l) (drop (Z.to_nat l) (bt_bits b)) ltac:(lia)).
  replace (16 - l) with (1 + (15 - l)) by lia. rewrite Z.pow_add_r by lia. lia.
Qed.

(** Decoding the code of a symbol gives the symbol. *)
Lemma decode_code b s rest :
  coded lens s -> bt_bits b = code_bits lens s ++ rest ->
  decode h b = Ok (s, bt_consume b (nthZ lens s)).
Proof.
  intros Hs Eb. pose proof (window15_code b s rest Hs Eb) as W. cbv zeta in W.
  pose proof (decode_exact b) as E. cbv zeta in E. rewrite E. clear E.
  pose proof (code_of_range lens s Hs) as Hc. pose proof (window15_range b) as Hv. set (v := window15 b) in *.
  pose proof (bl_ok lens h HB) as [_ HL]. destruct (bl_num lens h HB) as (_ & N2 & _).
  pose proof (place_bound lens s Hs) as Hpb. pose proof (N2 s Hs ltac:(destruct Hs; lia)) as Hp.
  assert (Hl : 1 <= nthZ lens s <= 15).
  { destruct Hs as [Hs Hl]. rewrite List.Forall_forall in HL. destruct (HL (nthZ lens s)) as [_ H15]; [|unfold MAX_CODE_BITS in H15; lia].
    unfold nthZ. apply nth_In. unfold zlen in Hs. lia. }
  set (l := nthZ lens s) in *. assert (P : 0 < 2 ^ (16 - l)) by (apply Z.pow_pos_nonneg; lia).
  assert (EF : find_len (hd_len h) v = l).
  { apply (find_len_unique lens _ hd_limits); [lia..|]. rewrite <- first_code_limit by lia. unfold limit. nia. }
  rewrite EF, (Z.min_r 15 l) by lia. do 2 f_equal. unfold symbol_at, slot_of.
  replace ((v - limit lens (l - 1)) / 2 ^ (16 - l)) with (rank lens s).
  - replace (below lens l + rank lens s) with (place lens s) by done.
    by rewrite Z.geb_leb, (proj2 (Z.leb_gt _ _)) by lia.
  - rewrite <- first_code_limit by lia. unfold code_of in W. fold l in W.
    apply (Z.div_unique_pos _ _ _ (v - first_code lens l * 2 ^ (16 - l) - 2 ^ (16 - l) * rank lens s)); lia.
Qed.
End decoding.

(** ** The encoder assigns the canonical code *)

Lemma count_codes_spec lens bl :
  Forall (fun l => 0 <= l <= 15) lens -> zlen bl = 16 ->
  (forall j, 0 <= j < 16 -> 0 <= nthZ bl j /\ nthZ bl j + zlen lens < 2 ^ 32) ->
  zlen (count_codes lens bl) = 16 /\
  forall j, 0 <= j < 16 -> nthZ (count_codes lens bl) j = nthZ bl j + if j =? 0 then 0 else cnt lens j.
Proof.
  revert bl. induction lens as [|x lens IH]; intros bl Hl Hc Hn.
  { split; [done|]. intros j Hj. cbn [count_codes]. change (cnt [] j) with 0. destruct (j =? 0); lia. }
  apply lens_cons in Hl as [Hx Hl]. cbn [count_codes]. rewrite land_15 by done. rewrite zlen_cons in Hn.
  pose proof (zlen_nonneg lens). pose proof (Hn x ltac:(lia)). rewrite (wrap_small 32) by lia.
  set (bl' := if negb (x =? 0) then setZ bl x (nthZ bl x + 1) else bl).
  assert (Hb : zlen bl' = 16 /\ forall j, 0 <= j < 16 -> nthZ bl' j = nthZ bl j + if j =? 0 then 0 else if decide (x = j) then 1 else 0).
  { subst bl'. destruct (Z.eqb_spec x 0) as [->|Hx0]; cbn [negb].
    - split; [done|]. intros j Hj. destruct (Z.eqb_spec j 0), (decide (0 = j)); lia.
    - rewrite zlen_setZ. split; [done|]. intros j Hj. rewrite nthZ_setZ by lia.
      destruct (Z.eqb_spec j x), (Z.eqb_spec j 0), (decide (x = j)); subst; lia. }
  destruct Hb as [Lb Eb]. destruct (IH bl' Hl Lb) as [L E].
  - intros j Hj. rewrite Eb by done. specialize (Hn j Hj). destruct (j =? 0), (decide (x = j)); lia.
  - split; [done|]. intros j Hj. rewrite E, Eb, cnt_cons by done. destruct (j =? 0); lia.
Qed.

Lemma next_codes_spec lens bl k code next :
  lens_ok lens -> kraft lens -> (k <= 15)%nat -> zlen next = 16 ->
  (forall j, 0 <= j < 16 -> nthZ bl j = if j =? 0 then 0 else cnt lens j) ->
  code + nthZ bl (15 - Z.of_nat k) = upto lens (15 - Z.of_nat k) ->
  (forall j, 1 <= j < 16 - Z.of_nat k -> nthZ next j = first_code lens j) ->
  let r := next_codes k bl code next in
  zlen r = 16 /\ forall j, 1 <= j < 16 -> nthZ r j = first_code lens j.
Proof.
  intros Hok HK. revert code next. induction k as [|k IH]; intros code next Hk Ln Hbl Hcode Hnext; cbn [next_codes].
  { split; [done|]. intros j Hj. apply Hnext. lia. }
  set (i := 16 - Z.of_nat (S k)). assert (Hi : 1 <= i <= 15) by lia.
  replace (15 - Z.of_nat (S k)) with (i - 1) in Hcode by lia. rewrite Hcode.
  pose proof (proj1 (kraft_iff lens) HK (i - 1) ltac:(lia)). pose proof (upto_nonneg lens (i - 1)).
  pose proof (pow_le (i - 1) 14 ltac:(lia)). rewrite (wrap_small 32 (upto _ _)), Z.shiftl_mul_pow2 by lia.
  change (2 ^ 1) with 2. rewrite (wrap_small 32), Z.mul_comm by lia.
  change (2 * upto lens (i - 1)) with (first_code lens i).
  apply IH; [lia|by rewrite zlen_setZ|done| |].
  - replace (15 - Z.of_nat k) with i by lia. rewrite Hbl, (proj2 (Z.eqb_neq i 0)) by lia.
    unfold first_code. pose proof (upto_step lens (i - 1) ltac:(lia)) as U. replace (i - 1 + 1) with i in U by lia. lia.
  - intros j Hj. rewrite nthZ_setZ by lia. destruct (Z.eqb_spec j i) as [->|]; [done|]. apply Hnext. lia.
Qed.

Lemma assign_codes_spec pre lens next :
  lens_ok (pre ++ lens) -> kraft (pre ++ lens) -> zlen next = 16 ->
  (forall l, 1 <= l < 16 -> nthZ next l = first_code (pre ++ lens) l + cnt pre l) ->
  zlen (assign_codes lens next) = zlen lens /\
  forall s, zlen pre <= s < zlen (pre ++ lens) ->
    nthZ (assign_codes lens next) (s - zlen pre) =
    if nthZ (pre ++ lens) s =? 0 then 0 else code_of (pre ++ lens) s.
Proof.
  intros Hok HK. revert pre Hok HK next. induction lens as [|x lens IH]; intros pre Hok HK next Hc HN.
  { split; [done|]. intros s Hs. rewrite zlen_app, zlen_nil in Hs. lia. }
  assert (E : pre ++ x :: lens = (pre ++ [x]) ++ lens) by (by rewrite <- app_assoc).
  assert (Lp : zlen (pre ++ [x]) = zlen pre + 1) by (rewrite zlen_app; done).
  pose proof (nthZ_middle pre x lens) as Ex. cbn [assign_codes].
  assert (Hx : 0 <= x <= 15).
  { destruct Hok as [_ Hl]. apply Forall_app in Hl as [_ Hl]. by inversion Hl. }
  rewrite land_15 by done.
  set (v := if x =? 0 then 0 else nthZ next x).
  set (next' := if x =? 0 then next else setZ next x (u32 (nthZ next x + 1))).
  replace (if negb (x =? 0) then nthZ next x :: assign_codes lens (setZ next x (u32 (nthZ next x + 1)))
           else 0 :: assign_codes lens next) with (v :: assign_codes lens next') by (subst v next'; by destruct (x =? 0)).
  assert (Hcode : v = if nthZ (pre ++ x :: lens) (zlen pre) =? 0 then 0 else code_of (pre ++ x :: lens) (zlen pre)).
  { rewrite Ex. subst v. destruct (Z.eqb_spec x 0) as [|Hx0]; [done|]. rewrite HN by lia.
    unfold code_of, rank. rewrite Ex. f_equal. unfold zlen. by rewrite Nat2Z.id, take_app_length. }
  assert (Hnext : zlen next' = 16 /\ forall l, 1 <= l < 16 -> nthZ next' l = first_code (pre ++ x :: lens) l + cnt (pre ++ [x]) l).
  { subst next'. destruct (Z.eqb_spec x 0) as [->|Hx0].
    - split; [done|]. intros l Hl. rewrite HN, cnt_app, cnt_cons by done. change (cnt [] l) with 0. destruct (decide (0 = l)); lia.
    - rewrite zlen_setZ. split; [done|]. intros l Hl. rewrite nthZ_setZ, cnt_app, cnt_cons by lia. change (cnt [] l) with 0.
      destruct (Z.eqb_spec l x) as [->|]; [|destruct (decide (x = l)); [lia|rewrite HN by lia; lia]].
      destruct (decide (x = x)); [|done]. rewrite HN by lia. rewrite wrap_small; [lia|].
      assert (C : coded (pre ++ x :: lens) (zlen pre)).
      { split; [rewrite zlen_app, zlen_cons; zlen_lia|rewrite Ex; lia]. }
      pose proof (code_of_range _ _ C) as R. unfold code_of, rank in R. rewrite Ex in R.
      replace (take (Z.to_nat (zlen pre)) (pre ++ x :: lens)) with pre in R by (unfold zlen; by rewrite Nat2Z.id, take_app_length).
      pose proof (proj1 (kraft_iff _) HK x ltac:(lia)). pose proof (pow_le x 15 ltac:(lia)).
      unfold first_code in *. pose proof (upto_nonneg (pre ++ x :: lens) (x - 1)). lia. }
  destruct Hnext as [Ln En]. rewrite E in *. destruct (IH (pre ++ [x]) Hok HK next' Ln En) as [L EA].
  split; [rewrite !zlen_cons; lia|]. intros s Hs. destruct (Z.eq_dec s (zlen pre)) as [->|Hne].
  - rewrite Z.sub_diag. exact Hcode.
  - rewrite <- EA by lia. rewrite Lp. unfold nthZ. replace (Z.to_nat (s - zlen pre)) with (S (Z.to_nat (s - (zlen pre + 1)))) by lia. done.
Qed.

Lemma build_codes_spec lens :
  lens_ok lens -> kraft lens ->
  zlen (build_codes lens) = zlen lens /\
  forall s, 0 <= s < zlen lens -> nthZ (build_codes lens) s = if nthZ lens s =? 0 then 0 else code_of lens s.
Proof.
  intros Hok HK. pose proof Hok as [Hn Hl]. unfold MAX_SYMBOLS in Hn.
  destruct (count_codes_spec lens (replicate 16 0) Hl) as [Lb Eb]; [done| |].
  { intros j Hj. rewrite nthZ_replicate_0. pose proof (zlen_nonneg lens). lia. }
  destruct (next_codes_spec lens (count_codes lens (replicate 16 0)) 15 0 (replicate 16 0)) as [Ln En]; try done; try lia.
  { intros j Hj. rewrite Eb, nthZ_replicate_0 by done. done. }
  { rewrite Eb by lia. rewrite nthZ_replicate_0. done. }
  destruct (assign_codes_spec [] lens (next_codes 15 (count_codes lens (replicate 16 0)) 0 (replicate 16 0)) Hok HK Ln) as [LA EA].
  { intros l Hl'. rewrite En by done. change (cnt [] l) with 0. cbn [app]. lia. }
  split; [exact LA|]. intros s Hs. specialize (EA s Hs). change (zlen []) with 0 in EA. by rewrite Z.sub_0_r in EA.
Qed.

(** ** Decoding over any source *)

Lemma refines_bind {R A B} (abs : R -> Bits -> Prop) (m : res (A * R)) (s : res (A * Bits)) f g :
  refines abs m s -> (forall a r b, abs r b -> refines abs (f (a, r)) (g (a, b))) ->
  refines (A := B) abs (m ≫= f) (s ≫= g).
Proof.
  intros Hm Hf. destruct s as [[a b]| | |]; cbn in Hm; [destruct Hm as (r & -> & HA)|subst m; done..].
  by apply Hf.
Qed.

Lemma refines_pure {R A B} (abs : R -> Bits -> Prop) (m : res A) (f : A -> res (B * R)) (g : A -> res (B * Bits)) :
  (forall a, refines abs (f a) (g a)) -> refines abs (m ≫= f) (m ≫= g).
Proof. intros Hf. destruct m; try done. apply Hf. Qed.

Lemma refines_ret {R A} (abs : R -> Bits -> Prop) (a : A) r b : abs r b -> refines abs (mret (a, r)) (mret (a, b)).
Proof. intros HA. by exists r. Qed.

Section sources.
Context {R : Type} `{BitSourceLaws R}.

Lemma refines_consume {A} (r : R) b n (f : R -> res (A * R)) (g : Bits -> res (A * Bits)) :
  bits_abs r b -> 0 <= n -> (forall r b, bits_abs r b -> refines bits_abs (f r) (g b)) ->
  refines bits_abs (consume_bits r n ≫= f) (consume_bits b n ≫= g).
Proof.
  intros HA Hn Hf. destruct (consume_bits_law r b n HA Hn) as (r' & E & HA'). rewrite E. by apply Hf.
Qed.

Lemma slow_loop_nonneg h v l : Forall (fun i => 0 <= i) l -> 0 <= slow_loop h v l.
Proof. induction 1; cbn [slow_loop]; [done|]. by destruct (_ <? _). Qed.

Lemma quick_len_nonneg h p e : Forall (fun e => 0 <= e) (hd_quick h) -> byte_at (hd_quick h) p = Ok e -> 0 <= Z.shiftr e 16.
Proof.
  intros HF E. apply Z.shiftr_nonneg. unfold byte_at in E. destruct (p <? 0); [done|].
  destruct (hd_quick h !! Z.to_nat p) as [x|] eqn:Ex; [|done]. injection E as <-.
  rewrite Forall_lookup in HF. by apply (HF _ _ Ex).
Qed.

Lemma decode_refines h (r : R) b :
  Forall (fun e => 0 <= e) (hd_quick h) -> bits_abs r b -> refines bits_abs (decode h r) (decode h b).
Proof.
  intros HQ HA. unfold decode. apply refines_bind; [by apply peek_bits_law|]. clear r b HA. intros p r b HA.
  destruct (byte_at (hd_quick h) p) as [e| | |] eqn:Ee; try done. rewrite !bind_ok.
  pose proof (quick_len_nonneg h p e HQ Ee) as Hlen. destruct (negb _).
  { apply refines_consume; [done|done|]. intros. by apply refines_ret. }
  apply refines_bind; [by apply peek_bits_law|]. clear r b HA. intros q r b HA.
  apply refines_consume; [done|by apply slow_loop_nonneg; repeat constructor|]. clear r b HA. intros r b HA.
  do 3 (apply refines_pure; intros ?). by apply refines_ret.
Qed.
End sources.

Lemma built_quick_nonneg lens h : built lens h -> Forall (fun e => 0 <= e) (hd_quick h).
Proof.
  intros HB. pose proof (bl_quick lens h HB) as Q. destruct (bl_num lens h HB) as (N1 & _ & N3). cbv zeta in Q.
  destruct (bl_levels lens h HB) as (_ & _ & HD & _). pose proof (bl_quick_len lens h HB) as Lq.
  apply Forall_lookup. intros i e Hi. pose proof (lookup_lt_Some _ _ _ Hi) as Hlt.
  assert (Hc : 0 <= Z.of_nat i < QUICK_SIZE) by (rewrite <- Lq; unfold zlen; lia).
  specialize (Q _ Hc). unfold nthZ in Q at 1. rewrite Nat2Z.id, (nth_lookup_Some _ _ 0 e Hi) in Q. rewrite Q.
  assert (Hv : 0 <= Z.shiftl (Z.of_nat i) 6) by (apply Z.shiftl_nonneg; lia).
  destruct (find_len_spec lens (hd_len h) HD _ Hv) as (F1 & F2 & F3).
  set (L := find_len _ _) in *. rewrite Z.gtb_ltb. destruct (Z.ltb_spec QUICK_BITS L) as [|Hle]; [done|].
  unfold QUICK_BITS in Hle. pose proof (slot_of_range lens _ L ltac:(lia) ltac:(split; [done|apply F3; lia])) as S.
  pose proof (below_le lens (L + 1)). destruct (bl_ok lens h HB) as [Hn _]. unfold MAX_SYMBOLS in Hn.
  apply Z.lor_nonneg. split; [apply Z.shiftl_nonneg; lia|]. destruct (N3 (slot_of lens L (Z.shiftl (Z.of_nat i) 6)) ltac:(lia)); lia.
Qed.

(** ** Sequences of symbols *)

Fixpoint decode_symbols {R} `{BitSource R} (n : nat) (h : HuffmanDecoder) (r : R) : res (list Z * R) :=
  match n with
  | O => Ok ([], r)
  | S n' =>
      '(s, r) ← decode h r;
      '(l, r) ← decode_symbols n' h r;
      mret (s :: l, r)
  end.

(** The bits the encoder writes for a symbol, from its own code table. *)
Definition encoded (lens : list Z) (s : Z) : list bool :=
  zbits (Z.to_nat (nthZ lens s)) (nthZ (build_codes lens) s).

Lemma encoded_code lens s : lens_ok lens -> kraft lens -> coded lens s -> encoded lens s = code_bits lens s.
Proof.
  intros Hok HK [Hs Hl]. unfold encoded. destruct (build_codes_spec lens Hok HK) as [_ E].
  rewrite E by done. by rewrite (proj2 (Z.eqb_neq _ _)) by lia.
Qed.

Lemma bt_consume_app b x rest :
  bt_bits b = x ++ rest -> bt_consume b (zlen x) = {| bt_bits := rest; bt_pos := bt_pos b + zlen x; bt_trunc := bt_trunc b |}.
Proof.
  intros E. unfold bt_consume. rewrite E. zlen_pose. rewrite zlen_app, Z.min_l, (proj2 (Z.ltb_ge _ _)), orb_false_r by zlen_lia.
  f_equal. unfold zlen. by rewrite Nat2Z.id, drop_app_length.
Qed.

Lemma zlen_code_bits lens s : coded lens s -> zlen (code_bits lens s) = nthZ lens s.
Proof. intros [_ Hl]. unfold code_bits. rewrite zlen_zbits. lia. Qed.

Lemma decode_symbols_bits lens h syms b rest :
  built lens h -> Forall (coded lens) syms -> bt_bits b = concat (map (code_bits lens) syms) ++ rest ->
  decode_symbols (length syms) h b =
  Ok (syms, {| bt_bits := rest; bt_pos := bt_pos b + zlen (concat (map (code_bits lens) syms)); bt_trunc := bt_trunc b |}).
Proof.
  intros HB HF. revert b. induction HF as [|s syms Hs _ IH]; intros b Eb; cbn [length decode_symbols map concat] in *.
  - destruct b as [l p t]. cbn in *. subst l. by rewrite Z.add_0_r.
  - rewrite <- app_assoc in Eb. rewrite (decode_code lens h HB b s _ Hs Eb), bind_ok.
    rewrite <- (zlen_code_bits lens s Hs), (bt_consume_app b _ _ Eb).
    rewrite (IH {| bt_bits := _; bt_pos := _; bt_trunc := _ |} eq_refl), bind_ok. cbn [bt_pos bt_trunc].
    rewrite zlen_app. do 3 f_equal. lia.
Qed.

Lemma decode_symbols_refines {R} `{BitSourceLaws R} n h (r : R) b :
  Forall (fun e => 0 <= e) (hd_quick h) -> bits_abs r b ->
  refines bits_abs (decode_symbols n h r) (decode_symbols n h b).
Proof.
  intros HQ. revert r b. induction n as [|n IH]; intros r b HA; cbn [decode_symbols]; [by exists r|].
  apply refines_bind; [by apply decode_refines|]. clear r b HA. intros s r b HA.
  apply refines_bind; [by apply IH|]. clear r b HA. intros l r b HA. by apply refines_ret.
Qed.

(** C10. The decoder's tables are accepted exactly when the code lengths satisfy
    Kraft's inequality.  Then, over any bit source, decoding the concatenated
    codes the encoder assigns to any symbols gives the symbols back and stops
    right behind them, whichever mix of quick-table and slow-path lookups that
    takes; and on arbitrary bits a lookup never leaves the tables, consumes 1
    to 15 bits and yields a symbol of the alphabet. *)
Theorem prefix_code_roundtrip (R : Type) `{BitSourceLaws R} (h0 : HuffmanDecoder) (lens : list Z) :
  lens_ok lens ->
  exists ok h, build h0 lens = Ok (ok, h) /\ (ok = true <-> kraft lens) /\
  (ok = true ->
   (forall (r : R) b syms rest, bits_abs r b -> Forall (coded lens) syms ->
      bt_bits b = concat (map (encoded lens) syms) ++ rest ->
      exists r' b', decode_symbols (length syms) h r = Ok (syms, r') /\ bits_abs r' b' /\
        bt_bits b' = rest /\ bt_trunc b' = bt_trunc b) /\
   (forall (r : R) b, bits_abs r b -> exists s r' n, decode h r = Ok (s, r') /\
      bits_abs r' (bt_consume b n) /\ 1 <= n <= 15 /\ 0 <= s < Z.max 1 (zlen lens))).
Proof.
  intros Hok. destruct (build_spec h0 lens Hok) as (ok & h & E & K & HB).
  exists ok, h. split; [done|]. split; [done|]. intros Eok. specialize (HB Eok).
  pose proof (built_quick_nonneg lens h HB) as HQ. split.
  - intros r b syms rest HA HF Eb.
    assert (Em : map (encoded lens) syms = map (code_bits lens) syms).
    { apply List.map_ext_in. intros s Hs. rewrite List.Forall_forall in HF. apply encoded_code; [done|by apply K|by apply HF]. }
    rewrite Em in Eb. pose proof (decode_symbols_refines (length syms) h r b HQ HA) as RF.
    rewrite (decode_symbols_bits lens h syms b rest HB HF Eb) in RF. destruct RF as (r' & E' & HA').
    eexists r', _. split; [exact E'|]. split; [exact HA'|]. done.
  - intros r b HA. destruct (decode_total lens h HB b) as (s & n & E' & Hn & Hs).
    pose proof (decode_refines h r b HQ HA) as RF. rewrite E' in RF. destruct RF as (r' & Er & HA').
    by exists s, r', n.
Qed.

Lemma prefix_code_roundtrip_witness :
  let lens := [2; 0; 3; 1; 12; 12; 4] in
  (exists ok h, build HuffmanDecoder_init lens = Ok (ok, h) /\ (ok = true <-> kraft lens) /\
  (ok = true ->
   (forall (r : BitReader Empty_set) b syms rest, bits_abs r b -> Forall (coded lens) syms ->
      bt_bits b = concat (map (encoded lens) syms) ++ rest ->
      exists r' b', decode_symbols (length syms) h r = Ok (syms, r') /\ bits_abs r' b' /\
        bt_bits b' = rest /\ bt_trunc b' = bt_trunc b) /\
   (forall (r : BitReader Empty_set) b, bits_abs r b -> exists s r' n, decode h r = Ok (s, r') /\
      bits_abs r' (bt_consume b n) /\ 1 <= n <= 15 /\ 0 <= s < Z.max 1 (zlen lens)))) /\
  match build HuffmanDecoder_init lens with
  | Ok (true, h) => match decode_symbols 7 h (BitReader_memory (C := Empty_set) [0x5B; 0xBC; 0x07; 0xC0; 0x00]) with
                    | Ok (l, _) => l | _ => [] end
  | _ => [] end = [3; 0; 2; 6; 5; 4; 3].
Proof.
  cbv zeta. split.
  - apply (prefix_code_roundtrip (BitReader Empty_set) HuffmanDecoder_init [2; 0; 3; 1; 12; 12; 4]).
    split; [unfold MAX_SYMBOLS; vm_compute; discriminate|].
    repeat constructor; unfold MAX_CODE_BITS; discriminate.
  - vm_compute. reflexivity.
Defined.
