(* ===== verification/BuildLengths.v ===== *)
(** Code lengths from symbol frequencies
    ([src/compress/compressor50.cpp], [HuffmanBuilder::build_lengths]).

    The Huffman tree is built with two queues over an array of nodes, its
    depths are collected with an explicit stack, and lengths above the limit
    are repaired on the counts per length.  [btree] is the tree the array
    holds, [lsum] the Kraft sum of a table of counts. *)

From Stdlib Require Import ZArith Lia Permutation.
From stdpp Require Import base tactics list numbers sorting.
From S2P Require Import Prelude Loops Bytes Arrays BitReader Huffman.

Local Open Scope Z_scope.

Record TreeNode := { tn_weight : Z; tn_left : Z; tn_right : Z; tn_symbol : Z }.

Definition MAX_STACK_SYMS : Z := 512.

(** An element of the array [tree]; indexing past its end is a fault. *)
Definition node_at (tree : list TreeNode) (i : Z) : res TreeNode :=
  if i <? 0 then Fault else match tree !! Z.to_nat i with Some n => Ok n | None => Fault end.

(** In the comparators, which only see indices of nodes. *)
Definition weight_of (tree : list TreeNode) (i : Z) : Z :=
  match tree !! Z.to_nat i with Some n => tn_weight n | None => 0 end.
Definition symbol_of (tree : list TreeNode) (i : Z) : Z :=
  match tree !! Z.to_nat i with Some n => tn_symbol n | None => 0 end.

(** [std::sort] with the strict order [before]. *)
Definition sort_by (before : Z -> Z -> bool) (l : list Z) : list Z :=
  merge_sort (fun a b => Is_true (negb (before b a))) l.

Section builder.
(** The width of an index, a depth and a count, and how many entries the stack
    has room for: 16 bits and 1024 entries in arrays on the stack, 32 bits and
    no bound in vectors. *)
Context (w : Z) (room : Z -> bool).
Abbreviation uw := (wrap w).

(** ** The tree *)

Fixpoint leaf_nodes (freq : list Z) (i : Z) (tree : list TreeNode) (q1 : list Z) : list TreeNode * list Z :=
  match freq with
  | [] => (tree, q1)
  | f :: freq' =>
      if negb (f =? 0) then
        leaf_nodes freq' (i + 1) (tree ++ [{| tn_weight := f; tn_left := -1; tn_right := -1; tn_symbol := i |}])
          (q1 ++ [uw (zlen tree)])
      else leaf_nodes freq' (i + 1) tree q1
  end.

Definition lighter (tree : list TreeNode) (a b : Z) : bool :=
  if negb (weight_of tree a =? weight_of tree b) then weight_of tree a <? weight_of tree b
  else symbol_of tree a <? symbol_of tree b.

(** [q1] and [q2] from [i1] and [i2] on. *)
Definition get_min (tree : list TreeNode) (q1 q2 : list Z) : res (Z * list Z * list Z) :=
  match q1, q2 with
  | a :: q1', [] => Ok (a, q1', [])
  | a :: q1', b :: q2' =>
      x ← node_at tree a;
      y ← node_at tree b;
      mret (if tn_weight x <=? tn_weight y then (a, q1', q2) else (b, q1, q2'))
  | [], b :: q2' => Ok (b, [], q2')
  | [], [] => Fault
  end.

Fixpoint merge_loop (fuel : nat) (tree : list TreeNode) (q1 q2 : list Z) : res (list TreeNode) :=
  match fuel with
  | O => Fuel
  | S fuel' =>
      if zlen q1 + zlen q2 >? 1 then
        '(left_, q1, q2) ← get_min tree q1 q2;
        '(right_, q1, q2) ← get_min tree q1 q2;
        x ← node_at tree left_;
        y ← node_at tree right_;
        let node := {| tn_weight := u64 (tn_weight x + tn_weight y); tn_left := left_; tn_right := right_; tn_symbol := -1 |} in
        merge_loop fuel' (tree ++ [node]) q1 (q2 ++ [uw (zlen tree)])
      else Ok tree
  end.

(** ** The depths *)

Fixpoint depth_loop (fuel : nat) (tree : list TreeNode) (stack : list (Z * Z)) (depths : list Z) (max_depth : Z) : res (list Z * Z) :=
  match fuel with
  | O => Fuel
  | S fuel' =>
      match stack with
      | [] => Ok (depths, max_depth)
      | (node_idx, d) :: stack =>
          n ← node_at tree node_idx;
          if negb (tn_symbol n =? -1) then
            depths ← store depths (tn_symbol n) [d];
            depth_loop fuel' tree stack depths (if d >? max_depth then d else max_depth)
          else
            let stack := (uw (tn_left n), uw (d + 1)) :: (uw (tn_right n), uw (d + 1)) :: stack in
            if room (zlen stack) then depth_loop fuel' tree stack depths max_depth else Fault
      end
  end.

(** ** The limit *)

Fixpoint count_depths (depths bl : list Z) : list Z :=
  match depths with
  | [] => bl
  | d :: depths' => count_depths depths' (if d >? 0 then setZ bl d (uw (nthZ bl d + 1)) else bl)
  end.

(** Everything deeper than the limit moves to the limit. *)
Definition clamp_counts (max_bits max_depth : Z) (bl : list Z) : list Z :=
  let '(overflow, bl) :=
    for_range (max_bits + 1) (max_depth + 1) (fun d '(overflow, bl) => (u32 (overflow + nthZ bl d), setZ bl d 0)) (0, bl) in
  setZ bl max_bits (uw (nthZ bl max_bits + overflow)).

Definition kraft_sum (max_bits : Z) (bl : list Z) : Z :=
  for_range 1 (max_bits + 1) (fun d sum => u32 (sum + u32 (Z.shiftl (nthZ bl d) (max_bits - d)))) 0.

(** [while (d > 0 && bl_count[d] == 0) d--;] *)
Fixpoint last_used (d : nat) (bl : list Z) : nat :=
  match d with
  | O => O
  | S d' => if nthZ bl (Z.of_nat d) =? 0 then last_used d' bl else d
  end.

Fixpoint kraft_loop (fuel : nat) (max_bits limit : Z) (bl : list Z) (sum : Z) : res (list Z) :=
  match fuel with
  | O => Fuel
  | S fuel' =>
      if sum >? limit then
        let d := Z.of_nat (last_used (Z.to_nat (max_bits - 1)) bl) in
        if (d =? 0) || (nthZ bl max_bits =? 0) then Ok bl
        else
          let bl := setZ bl d (uw (nthZ bl d - 1)) in
          let bl := setZ bl (d + 1) (uw (nthZ bl (d + 1) + 2)) in
          let bl := setZ bl max_bits (uw (nthZ bl max_bits - 1)) in
          kraft_loop fuel' max_bits limit bl (u32 (sum - 1))
      else Ok bl
  end.

(** The indices from [i] on with a depth. *)
Fixpoint deep_symbols (depths : list Z) (i : Z) : list Z :=
  match depths with
  | [] => []
  | d :: depths' => if d >? 0 then uw i :: deep_symbols depths' (i + 1) else deep_symbols depths' (i + 1)
  end.

Definition likelier (freq : list Z) (a b : Z) : bool :=
  if negb (nthZ freq a =? nthZ freq b) then nthZ freq a >? nthZ freq b else a <? b.

(** [for (i = 0; i < bl_count[bits]; ++i)], with the symbols not yet reached. *)
Fixpoint assign_run (n : nat) (bits : Z) (syms depths : list Z) : list Z * list Z :=
  match n, syms with
  | S n', s :: syms' => assign_run n' bits syms' (setZ depths s (uw bits))
  | _, _ => (syms, depths)
  end.

Definition assign_depths (max_bits : Z) (bl syms depths : list Z) : list Z :=
  snd (for_range 1 (max_bits + 1) (fun bits '(syms, depths) => assign_run (Z.to_nat (nthZ bl bits)) bits syms depths) (syms, depths)).

Definition limit_depths (freq depths : list Z) (max_bits max_depth bl_size : Z) : res (list Z) :=
  let bl := clamp_counts max_bits max_depth (count_depths depths (replicate (Z.to_nat bl_size) 0)) in
  let sum := kraft_sum max_bits bl in
  bl ← kraft_loop (S (Z.to_nat sum)) max_bits (Z.shiftl 1 max_bits) bl sum;
  mret (assign_depths max_bits bl (sort_by (likelier freq) (deep_symbols depths 0)) depths).

(** Two or more used symbols. *)
Definition tree_lengths (freq : list Z) (max_bits : Z) (bl_size : Z -> Z) : res (list Z) :=
  let '(tree, q1) := leaf_nodes freq 0 [] [] in
  tree ← merge_loop (length q1) tree (sort_by (lighter tree) q1) [];
  let root := uw (zlen tree - 1) in
  '(depths, max_depth) ← depth_loop (S (length tree)) tree [(root, 0)] (replicate (length freq) 0) 0;
  depths ← (if max_depth >? max_bits then limit_depths freq depths max_bits max_depth (bl_size max_depth) else Ok depths);
  mret (map u8 depths).
End builder.

(** At most 512 symbols: everything in arrays on the stack. *)
Definition stack_lengths (freq : list Z) (max_bits : Z) : res (list Z) :=
  tree_lengths 16 (fun n => n <=? 2 * MAX_STACK_SYMS) freq max_bits (fun _ => MAX_STACK_SYMS + 1).

(** More: in vectors. *)
Definition vector_lengths (freq : list Z) (max_bits : Z) : res (list Z) :=
  tree_lengths 32 (fun _ => true) freq max_bits (fun max_depth => max_depth + 1).

Definition used_symbols (freq : list Z) : Z := zlen (filter (fun f => f <> 0) freq).

(** [build_lengths(freq, size, max_bits, lengths)] with [freq] the [size]
    frequencies; the lengths written. *)
Definition build_lengths (freq : list Z) (max_bits : Z) : res (list Z) :=
  let used := used_symbols freq in
  if used =? 0 then Ok (map (fun _ => 0) freq)
  else if used =? 1 then Ok (map (fun f => if negb (f =? 0) then 1 else 0) freq)
  else if zlen freq <=? MAX_STACK_SYMS then stack_lengths freq max_bits
  else vector_lengths freq max_bits.

Example build_lengths_sample : build_lengths [5; 0; 1; 1; 9; 0; 30; 2] 15 = Ok [3; 0; 5; 5; 2; 0; 1; 4].
Proof. vm_compute. reflexivity. Qed.
Example build_lengths_limited : build_lengths [1; 1; 2; 4; 8; 16; 32; 64] 4 = Ok [4; 4; 4; 4; 4; 4; 3; 1].
Proof. vm_compute. reflexivity. Qed.

(** ** Sums over a list *)

Definition zsum (f : Z -> Z) (l : list Z) : Z := fold_right (fun x a => f x + a) 0 l.

Lemma zsum_cons f x l : zsum f (x :: l) = f x + zsum f l.
Proof. done. Qed.

Lemma zsum_app f a b : zsum f (a ++ b) = zsum f a + zsum f b.
Proof. induction a as [|x a IH]; [done|]. cbn [app]. rewrite !zsum_cons, IH. lia. Qed.

Lemma zsum_perm f a b : a ≡ₚ b -> zsum f a = zsum f b.
Proof. induction 1; rewrite ?zsum_cons; lia. Qed.

Lemma zsum_ext f g l : Forall (fun x => f x = g x) l -> zsum f l = zsum g l.
Proof. induction 1 as [|x l E _ IH]; [done|]. by rewrite !zsum_cons, E, IH. Qed.

Lemma zsum_replicate f n : f 0 = 0 -> zsum f (replicate n 0) = 0.
Proof. intros E. induction n as [|n IH]; [done|]. cbn [replicate]. by rewrite zsum_cons, E, IH. Qed.

Lemma zsum_setZ f l i v : 0 <= i < zlen l -> zsum f (setZ l i v) + f (nthZ l i) = zsum f l + f v.
Proof.
  intros Hi. destruct (lookup_lt_is_Some_2 l (Z.to_nat i)) as [x Hx]; [unfold zlen in Hi; lia|].
  unfold setZ, nthZ. rewrite (nth_lookup_Some _ _ 0 x Hx).
  rewrite insert_take_drop by (by eapply lookup_lt_Some). rewrite <- (take_drop_middle l (Z.to_nat i) x Hx) at 3.
  rewrite !zsum_app, !zsum_cons. lia.
Qed.

Lemma zsum_mono f g l : Forall (fun x => f x <= g x) l -> zsum f l <= zsum g l.
Proof. induction 1 as [|x l E _ IH]; [done|]. rewrite !zsum_cons. lia. Qed.

Lemma zsum_mul f c l : zsum (fun x => c * f x) l = c * zsum f l.
Proof. induction l as [|x l IH]; [cbn; lia|]. rewrite !zsum_cons, IH. lia. Qed.

Lemma zsum_add f g l : zsum (fun x => f x + g x) l = zsum f l + zsum g l.
Proof. induction l as [|x l IH]; [done|]. rewrite !zsum_cons, IH. lia. Qed.

Definition is_len (d x : Z) : Z := if decide (x = d) then 1 else 0.

Lemma cnt_zsum lens d : cnt lens d = zsum (is_len d) lens.
Proof. induction lens as [|x lens IH]; [done|]. by rewrite cnt_cons, zsum_cons, IH. Qed.

(** What a length contributes, in units of [2 ^ -D]. *)
Definition share (D x : Z) : Z := if (1 <=? x) && (x <=? D) then 2 ^ (D - x) else 0.

Lemma upto_cons x lens j : 0 <= j -> upto (x :: lens) j = share j x + upto lens j.
Proof.
  intros Hj. apply (Loops.range_ind (fun j => upto (x :: lens) j = share j x + upto lens j) 0 j); [lia| |].
  - unfold share. rewrite !upto_0. destruct (Z.leb_spec 1 x), (Z.leb_spec x 0); cbn [andb]; lia.
  - intros i Hi IH. rewrite !upto_step by lia. rewrite IH, cnt_cons. unfold share.
    destruct (Z.leb_spec 1 x), (Z.leb_spec x i), (Z.leb_spec x (i + 1)), (decide (x = i + 1)); cbn [andb]; try lia.
    + replace (i + 1 - x) with (1 + (i - x)) by lia. rewrite Z.pow_add_r by lia. lia.
    + replace (i + 1 - x) with 0 by lia. lia.
Qed.

Lemma upto_zsum lens j : 0 <= j -> upto lens j = zsum (share j) lens.
Proof.
  intros Hj. induction lens as [|x lens IH]; [|by rewrite upto_cons, zsum_cons, IH].
  apply (Loops.range_ind (fun j => upto [] j = zsum (share j) []) 0 j); [lia|done|].
  intros i Hi E. rewrite upto_step, E by lia. done.
Qed.

Lemma share_range D x : 0 <= share D x.
Proof. unfold share. destruct (_ && _); [apply Z.pow_nonneg|]; lia. Qed.

(** Lengths of at most [M] with a Kraft sum of at most one make a code. *)
Lemma kraft_of_upto lens M : 0 <= M <= 15 -> Forall (fun l => 0 <= l <= M) lens -> upto lens M <= 2 ^ M -> kraft lens.
Proof.
  intros HM HF Hu. unfold kraft.
  assert (E : upto lens 15 = upto lens M * 2 ^ (15 - M)).
  { rewrite !upto_zsum by lia. rewrite Z.mul_comm, <- zsum_mul. apply zsum_ext. eapply Forall_impl; [exact HF|].
    intros x Hx. cbn in Hx. unfold share. destruct (Z.leb_spec 1 x); [|cbn [andb]; lia].
    rewrite !(proj2 (Z.leb_le _ _)) by lia. cbn [andb]. rewrite <- Z.pow_add_r by lia. f_equal. lia. }
  rewrite E. replace 15 with (M + (15 - M)) at 2 by lia. rewrite Z.pow_add_r by lia.
  apply Z.mul_le_mono_nonneg_r; [apply Z.pow_nonneg; lia|done].
Qed.

(** ** Writing one value per index *)

Fixpoint assign_all (syms vals depths : list Z) : list Z :=
  match syms, vals with
  | s :: syms', v :: vals' => assign_all syms' vals' (setZ depths s v)
  | _, _ => depths
  end.

Lemma zlen_assign_all syms vals depths : zlen (assign_all syms vals depths) = zlen depths.
Proof.
  revert vals depths. induction syms as [|s syms IH]; intros [|v vals] depths; try done.
  cbn [assign_all]. by rewrite IH, zlen_setZ.
Qed.

Lemma assign_all_app s1 s2 v1 v2 depths :
  length s1 = length v1 -> assign_all (s1 ++ s2) (v1 ++ v2) depths = assign_all s2 v2 (assign_all s1 v1 depths).
Proof.
  revert v1 depths. induction s1 as [|s s1 IH]; intros [|v v1] depths E; try done. cbn [app assign_all]. apply IH. by injection E.
Qed.

Lemma nthZ_assign_other syms vals depths i :
  i ∉ syms -> 0 <= i -> Forall (fun s => 0 <= s) syms -> nthZ (assign_all syms vals depths) i = nthZ depths i.
Proof.
  revert vals depths. induction syms as [|s syms IH]; intros [|v vals] depths Hn Hi HF; try done. cbn [assign_all].
  apply not_elem_of_cons in Hn as [Hne Hn]. apply Forall_cons_inv in HF as [Hs HF].
  rewrite IH by done. by apply nthZ_setZ_ne.
Qed.

Lemma nthZ_assign_in (P : Z -> Prop) syms vals depths i :
  i ∈ syms -> length syms = length vals -> Forall P vals -> Forall (fun s => 0 <= s < zlen depths) syms ->
  P (nthZ (assign_all syms vals depths) i).
Proof.
  revert vals depths. induction syms as [|s syms IH]; intros [|v vals] depths Hin E HP HF; try done; [by apply not_elem_of_nil in Hin|].
  cbn [assign_all]. apply Forall_cons_inv in HF as [Hs HF]. apply Forall_cons_inv in HP as [Hv HP].
  assert (HF' : Forall (fun s' => 0 <= s' < zlen (setZ depths s v)) syms) by (by rewrite zlen_setZ).
  destruct (decide (i ∈ syms)) as [Hi|Hi]; [apply IH; [done|by injection E|done|done]|].
  apply elem_of_cons in Hin as [->|]; [|done].
  rewrite nthZ_assign_other; [by rewrite nthZ_setZ_eq|done|lia|].
  eapply Forall_impl; [exact HF|]. cbn. intros. lia.
Qed.

Lemma zsum_assign_all f syms vals depths :
  NoDup syms -> length syms = length vals -> Forall (fun s => 0 <= s < zlen depths) syms ->
  zsum f (assign_all syms vals depths) + zsum (fun s => f (nthZ depths s)) syms = zsum f depths + zsum f vals.
Proof.
  revert vals depths. induction syms as [|s syms IH]; intros [|v vals] depths HN E HF; try done. cbn [assign_all].
  apply NoDup_cons in HN as [Hni HN]. apply Forall_cons_inv in HF as [Hs HF]. rewrite !zsum_cons.
  specialize (IH vals (setZ depths s v) HN ltac:(by injection E)). rewrite zlen_setZ in IH. specialize (IH HF).
  pose proof (zsum_setZ f depths s v Hs).
  rewrite (zsum_ext (fun s' => f (nthZ (setZ depths s v) s')) (fun s' => f (nthZ depths s'))) in IH; [lia|].
  apply Forall_forall. intros x Hx. rewrite Forall_forall in HF. specialize (HF x Hx).
  rewrite nthZ_setZ_ne; [done|lia|lia|]. by intros ->.
Qed.

(** ** The tree in the array *)

Inductive btree := Leaf (s : Z) | Node (l r : btree).

Fixpoint leaves (t : btree) : list Z := match t with Leaf s => [s] | Node l r => leaves l ++ leaves r end.

Fixpoint depths_of (t : btree) (d : Z) : list Z :=
  match t with Leaf _ => [d] | Node l r => depths_of l (d + 1) ++ depths_of r (d + 1) end.

Fixpoint size_of (t : btree) : nat := match t with Leaf _ => 1 | Node l r => S (size_of l + size_of r) end.

Fixpoint is_tree (tree : list TreeNode) (t : btree) (n : Z) : Prop :=
  0 <= n /\ exists x, tree !! Z.to_nat n = Some x /\
  match t with
  | Leaf s => tn_symbol x = s /\ 0 <= s
  | Node l r => tn_symbol x = -1 /\ is_tree tree l (tn_left x) /\ is_tree tree r (tn_right x)
  end.

Lemma is_tree_app tree t n more : is_tree tree t n -> is_tree (tree ++ more) t n.
Proof.
  revert n. induction t as [s|l IHl r IHr]; intros n; cbn [is_tree]; intros (Hn & x & E & H); split; try done;
    exists x; (split; [by apply lookup_app_l_Some|]); [done|]. destruct H as (Hs & Hl & Hr). split_and!; auto.
Qed.

Lemma is_tree_range tree t n : is_tree tree t n -> 0 <= n < zlen tree.
Proof. destruct t; intros (Hn & x & E & _); apply lookup_lt_Some in E; unfold zlen; lia. Qed.

Lemma is_tree_node tree t n : is_tree tree t n -> exists x, node_at tree n = Ok x.
Proof. destruct t; intros (Hn & x & E & _); unfold node_at; rewrite (proj2 (Z.ltb_ge _ _)), E by lia; eauto. Qed.

Lemma leaves_pos t : (1 <= length (leaves t))%nat.
Proof. induction t; cbn [leaves]; rewrite ?length_app; cbn; lia. Qed.

Lemma length_depths_of t d : length (depths_of t d) = length (leaves t).
Proof. revert d. induction t; intros d; cbn [leaves depths_of]; rewrite ?length_app; auto. Qed.

Lemma size_of_leaves t : (size_of t + 1 = 2 * length (leaves t))%nat.
Proof. induction t; cbn [leaves size_of]; rewrite ?length_app; cbn [length]; lia. Qed.

Lemma depths_of_range t d : Forall (fun x => d <= x < d + zlen (leaves t)) (depths_of t d).
Proof.
  revert d. induction t as [s|l IHl r IHr]; intros d; cbn [leaves depths_of].
  - apply Forall_cons_2; [change (zlen [s]) with 1; lia|apply Forall_nil_2].
  - rewrite zlen_app. pose proof (leaves_pos l). pose proof (leaves_pos r).
    apply Forall_app_2; (eapply Forall_impl; [first [apply IHl|apply IHr]|]); cbn; intros x Hx; unfold zlen in *; lia.
Qed.

(** Below an inner node every depth is positive. *)
Lemma depths_of_pos t : (2 <= length (leaves t))%nat -> Forall (fun x => 1 <= x) (depths_of t 0).
Proof.
  destruct t as [s|l r]; cbn [leaves depths_of length]; [lia|]. intros _.
  apply Forall_app_2; (eapply Forall_impl; [apply depths_of_range|]); cbn; lia.
Qed.

(** The Kraft sum of a full tree is one. *)
Lemma tree_shares t d D :
  1 <= d -> Forall (fun x => x <= D) (depths_of t d) -> zsum (share D) (depths_of t d) = 2 ^ (D - d).
Proof.
  revert d. induction t as [s|l IHl r IHr]; intros d Hd HF; cbn [depths_of] in *.
  - apply Forall_cons_inv in HF as [HF _]. rewrite zsum_cons. unfold share.
    rewrite !(proj2 (Z.leb_le _ _)) by lia. cbn. lia.
  - apply Forall_app in HF as [Hl Hr]. rewrite zsum_app, IHl, IHr by (done || lia).
    assert (d + 1 <= D).
    { pose proof (depths_of_range l (d + 1)) as R. pose proof (leaves_pos l). pose proof (length_depths_of l (d + 1)).
      destruct (depths_of l (d + 1)) as [|x xs]; [cbn in *; lia|]. apply Forall_cons_inv in R as [R _].
      apply Forall_cons_inv in Hl as [Hl _]. lia. }
    replace (D - d) with (1 + (D - (d + 1))) by lia. rewrite Z.pow_add_r by lia. lia.
Qed.

Lemma full_tree_shares t D :
  (2 <= length (leaves t))%nat -> Forall (fun x => x <= D) (depths_of t 0) -> zsum (share D) (depths_of t 0) = 2 ^ D.
Proof.
  destruct t as [s|l r]; cbn [leaves depths_of length]; [lia|]. intros _ HF. apply Forall_app in HF as [Hl Hr].
  rewrite zsum_app, !tree_shares by (done || lia). assert (1 <= D).
  { pose proof (depths_of_range l (0 + 1)) as R. pose proof (leaves_pos l). pose proof (length_depths_of l (0 + 1)).
    destruct (depths_of l (0 + 1)) as [|x xs]; [cbn in *; lia|]. apply Forall_cons_inv in R as [R _].
    apply Forall_cons_inv in Hl as [Hl _]. lia. }
  replace D with (1 + (D - 1)) at 3 by lia. rewrite Z.pow_add_r by lia. change (0 + 1) with 1. lia.
Qed.

(** *** Merging *)

(** The nodes [q] are the roots of trees whose leaves are the symbols [S]. *)
Definition forest (tree : list TreeNode) (q S : list Z) : Prop :=
  exists F : list (Z * btree), q ≡ₚ map fst F /\ Forall (fun p => is_tree tree (snd p) (fst p)) F /\
    concat (map (fun p => leaves (snd p)) F) ≡ₚ S.

Lemma forest_perm tree q q' S : q ≡ₚ q' -> forest tree q S -> forest tree q' S.
Proof. intros Hq (F & E & H). exists F. split; [by rewrite <- Hq|done]. Qed.

Lemma forest_pick tree a q S : forest tree (a :: q) S -> exists t S', is_tree tree t a /\ forest tree q S' /\ leaves t ++ S' ≡ₚ S.
Proof.
  intros (F & E & HF & HS). apply Permutation_sym, Permutation_sym, Permutation_map_inv in E as (F' & E & HP).
  destruct F' as [|[b t] F']; [done|]. cbn in E. injection E as -> ->.
  rewrite HP in HF. apply Forall_cons_inv in HF as [Ht HF]. exists t, (concat (map (fun p => leaves (snd p)) F')).
  split; [done|]. split; [by exists F'|]. rewrite <- HS. rewrite HP. done.
Qed.

Lemma forest_node tree a b q S x :
  forest tree (a :: b :: q) S -> tn_left x = a -> tn_right x = b -> tn_symbol x = -1 ->
  forest (tree ++ [x]) (zlen tree :: q) S.
Proof.
  intros HF El Er Es. apply forest_pick in HF as (t1 & S1 & T1 & HF & P1). apply forest_pick in HF as (t2 & S2 & T2 & HF & P2).
  destruct HF as (F & E & HF & HS). exists ((zlen tree, Node t1 t2) :: F). cbn [map fst snd concat leaves].
  split; [by rewrite <- E|]. split.
  - apply Forall_cons_2.
    + cbn [fst snd is_tree]. split; [apply zlen_nonneg|]. exists x. split.
      * unfold zlen. rewrite Nat2Z.id. by apply list_lookup_middle.
      * rewrite El, Er. split_and!; [done|by apply is_tree_app..].
    + eapply Forall_impl; [exact HF|]. intros p. apply is_tree_app.
  - by rewrite HS, <- app_assoc, P2.
Qed.

Lemma forest_range tree q S : forest tree q S -> Forall (fun n => 0 <= n < zlen tree) q.
Proof.
  intros (F & -> & HF & _). apply Forall_map. eapply Forall_impl; [exact HF|]. intros p. apply is_tree_range.
Qed.

Lemma forest_node_at tree q S n : forest tree q S -> n ∈ q -> exists x, node_at tree n = Ok x.
Proof.
  intros (F & E & HF & _) Hn. rewrite E in Hn. apply list_elem_of_fmap in Hn as (p & -> & Hp).
  rewrite Forall_forall in HF. by apply (is_tree_node _ _ _ (HF p Hp)).
Qed.

Lemma get_min_spec tree q1 q2 S :
  forest tree (q1 ++ q2) S -> q1 ++ q2 <> [] ->
  exists a q1' q2', get_min tree q1 q2 = Ok (a, q1', q2') /\ q1 ++ q2 ≡ₚ a :: q1' ++ q2'.
Proof.
  intros HF Hne. destruct q1 as [|a q1], q2 as [|b q2]; try done; cbn [get_min].
  - by exists b, [], q2.
  - by exists a, q1, [].
  - destruct (forest_node_at _ _ _ a HF) as [x Hx]; [by left|].
    destruct (forest_node_at _ _ _ b HF) as [y Hy]; [right; apply elem_of_app; right; by left|]. rewrite Hx, bind_ok, Hy, bind_ok.
    destruct (tn_weight x <=? tn_weight y).
    + by exists a, q1, (b :: q2).
    + exists b, (a :: q1), q2. split; [done|]. by rewrite <- Permutation_middle.
Qed.

Section sized.
Context (w : Z) (room : Z -> bool) (Hw : 0 <= w).

Lemma merge_loop_spec fuel tree q1 q2 S :
  forest tree (q1 ++ q2) S -> (length (q1 ++ q2) <= fuel)%nat -> zlen tree - 1 ∈ q1 ++ q2 ->
  zlen tree + zlen (q1 ++ q2) <= 2 ^ w ->
  exists tree' t, merge_loop w fuel tree q1 q2 = Ok tree' /\ is_tree tree' t (zlen tree' - 1) /\ leaves t ≡ₚ S /\
    zlen tree' + 1 = zlen tree + zlen (q1 ++ q2).
Proof.
  revert tree q1 q2. induction fuel as [|fuel IH]; intros tree q1 q2 HF Hf Hlast Hb.
  { destruct (q1 ++ q2); [by apply not_elem_of_nil in Hlast|cbn in *; lia]. }
  cbn [merge_loop]. rewrite <- zlen_app, Z.gtb_ltb. destruct (Z.ltb_spec 1 (zlen (q1 ++ q2))) as [Hgt|Hle].
  - destruct (get_min_spec _ _ _ _ HF) as (a & r1 & r2 & E1 & P1); [intros E; rewrite E, zlen_nil in Hgt; lia|].
    rewrite E1, bind_ok. pose proof (forest_perm _ _ _ _ P1 HF) as HF1.
    assert (L1 : zlen (q1 ++ q2) = 1 + zlen (r1 ++ r2)) by (unfold zlen; rewrite P1; cbn [length]; lia).
    pose proof (forest_pick _ _ _ _ HF1) as (ta & S1 & Ta & HF1' & _).
    destruct (get_min_spec _ _ _ _ HF1') as (b & s1 & s2 & E2 & P2); [intros E; rewrite E, zlen_nil in L1; lia|].
    rewrite E2, bind_ok. pose proof (forest_pick _ _ _ _ (forest_perm _ _ _ _ P2 HF1')) as (tb & S2 & Tb & _ & _).
    assert (L2 : zlen (r1 ++ r2) = 1 + zlen (s1 ++ s2)) by (unfold zlen; rewrite P2; cbn [length]; lia).
    destruct (is_tree_node _ _ _ Ta) as [x Hx]. destruct (is_tree_node _ _ _ Tb) as [y Hy].
    rewrite Hx, bind_ok, Hy, bind_ok. cbv zeta.
    zlen_pose. rewrite (wrap_small w (zlen tree)) by lia.
    set (node := {| tn_weight := _; tn_left := a; tn_right := b; tn_symbol := -1 |}).
    assert (HP : zlen tree :: s1 ++ s2 ≡ₚ s1 ++ s2 ++ [zlen tree]) by (rewrite app_assoc; apply Permutation_cons_append).
    destruct (IH (tree ++ [node]) s1 (s2 ++ [zlen tree])) as (tree' & t & E & T & P & L).
    + eapply forest_perm; [exact HP|]. by eapply forest_node; [eapply forest_perm; [|exact HF1]; by rewrite P2|..].
    + rewrite <- HP. cbn [length]. unfold zlen in *. lia.
    + rewrite zlen_app. change (zlen [node]) with 1. replace (zlen tree + 1 - 1) with (zlen tree) by lia. rewrite <- HP. by left.
    + rewrite app_assoc, !zlen_app in *. change (zlen [node]) with 1. change (zlen [zlen tree]) with 1. lia.
    + exists tree', t. split; [exact E|]. split; [done|]. split; [done|].
      rewrite app_assoc, !zlen_app in *. change (zlen [node]) with 1 in L. change (zlen [zlen tree]) with 1 in L. lia.
  - destruct (q1 ++ q2) as [|n [|m q]] eqn:Eq; [by apply not_elem_of_nil in Hlast| |rewrite !zlen_cons in Hle; zlen_pose; lia].
    apply list_elem_of_singleton in Hlast as <-. apply forest_pick in HF as (t & S' & T & (F & E & _ & HS) & P).
    exists tree, t. split; [done|]. split; [done|]. change (zlen [zlen tree - 1]) with 1. split; [|done].
    apply Permutation_nil, map_eq_nil in E as ->. apply Permutation_nil in HS as ->. by rewrite app_nil_r in P.
Qed.

(** *** Depths *)

Lemma depth_loop_tree t tree n d fuel stack depths m :
  is_tree tree t n -> zlen tree <= 2 ^ w -> Forall (fun s => s < zlen depths) (leaves t) -> 0 <= d -> d + zlen (leaves t) <= 2 ^ w ->
  (forall k, k <= zlen stack + zlen (leaves t) -> room k = true) ->
  depth_loop w room (size_of t + fuel) tree ((n, d) :: stack) depths m =
  depth_loop w room fuel tree stack (assign_all (leaves t) (depths_of t d) depths) (fold_left Z.max (depths_of t d) m).
Proof.
  revert n d fuel stack depths m. induction t as [s|l IHl r IHr]; intros n d fuel stack depths m HT Ht HF Hd Hb Hroom.
  - destruct HT as (Hn & x & Ex & Es & Hs). cbn [size_of Nat.add depth_loop]. unfold node_at.
    rewrite (proj2 (Z.ltb_ge _ _)), Ex, bind_ok by lia. subst s. rewrite (proj2 (Z.eqb_neq _ _)) by lia. cbn [negb].
    cbn [leaves] in HF. apply Forall_cons_inv in HF as [HF _].
    rewrite store_one, bind_ok by lia. cbn [leaves depths_of assign_all fold_left]. f_equal.
    rewrite Z.gtb_ltb. destruct (Z.ltb_spec m d); lia.
  - destruct HT as (Hn & x & Ex & Es & Hl & Hr). cbn [size_of Nat.add depth_loop]. unfold node_at.
    rewrite (proj2 (Z.ltb_ge _ _)), Ex, bind_ok by lia. rewrite Es. cbn [Z.eqb negb]. cbv zeta.
    pose proof (is_tree_range _ _ _ Hl). pose proof (is_tree_range _ _ _ Hr).
    cbn [leaves] in *. rewrite zlen_app in *. pose proof (leaves_pos l). pose proof (leaves_pos r). apply Forall_app in HF as [HFl HFr].
    rewrite !(wrap_small w) by (unfold zlen in *; lia). rewrite Hroom by (rewrite !zlen_cons; unfold zlen in *; lia).
    rewrite <- Nat.add_assoc. rewrite IHl; [|done|done|done|lia|unfold zlen in *; lia|].
    + rewrite IHr; [|done|done|by rewrite zlen_assign_all|lia|unfold zlen in *; lia|intros k Hk; apply Hroom; zlen_pose; lia].
      cbn [depths_of]. rewrite assign_all_app, fold_left_app by (by rewrite length_depths_of). done.
    + intros k Hk. apply Hroom. rewrite zlen_cons in Hk. unfold zlen in *. lia.
Qed.
End sized.

Lemma zsum_zero l : zsum (fun _ => 0) l = 0.
Proof. induction l as [|x l IH]; [done|exact IH]. Qed.

(** *** The leaves *)

(** The indices from [i] on whose value is not 0. *)
Fixpoint nonzero (l : list Z) (i : Z) : list Z :=
  match l with [] => [] | x :: l' => if x =? 0 then nonzero l' (i + 1) else i :: nonzero l' (i + 1) end.

Lemma nonzero_elem l i k : k ∈ nonzero l i <-> i <= k < i + zlen l /\ nthZ l (k - i) <> 0.
Proof.
  revert i. induction l as [|x l IH]; intros i; cbn [nonzero].
  { split; [intros H; by apply not_elem_of_nil in H|]. rewrite zlen_nil. lia. }
  assert (E : k ∈ nonzero l (i + 1) <-> i < k < i + zlen (x :: l) /\ nthZ (x :: l) (k - i) <> 0).
  { rewrite IH, zlen_cons. split; intros [Hk Hx]; (split; [lia|]); revert Hx; unfold nthZ;
      replace (Z.to_nat (k - i)) with (S (Z.to_nat (k - (i + 1)))) by lia; done. }
  destruct (Z.eqb_spec x 0) as [->|Hx]; rewrite ?elem_of_cons, E.
  - split; [intros [Hk Hn]; split; [lia|done]|]. intros [Hk Hn]. split; [|done].
    destruct (Z.eq_dec k i) as [->|]; [|lia]. by rewrite Z.sub_diag in Hn.
  - rewrite zlen_cons. zlen_pose. split.
    + intros [->|[Hk Hn]]; [rewrite Z.sub_diag; split; [lia|done]|split; [lia|done]].
    + intros [Hk Hn]. destruct (Z.eq_dec k i) as [->|]; [by left|right; split; [lia|done]].
Qed.

Lemma nonzero_nodup l i : NoDup (nonzero l i).
Proof.
  revert i. induction l as [|x l IH]; intros i; cbn [nonzero]; [apply NoDup_nil_2|].
  destruct (x =? 0); [done|]. apply NoDup_cons. split; [|done]. rewrite nonzero_elem. lia.
Qed.

Lemma zlen_nonzero l i : zlen (nonzero l i) = zlen (filter (fun x => x <> 0) l).
Proof.
  revert i. induction l as [|x l IH]; intros i; cbn [nonzero]; [done|]. rewrite list.filter_cons.
  destruct (Z.eqb_spec x 0), (decide (x <> 0)); try done; rewrite ?zlen_cons, IH; done.
Qed.

(** Summing over the nonzero positions. *)
Lemma zsum_nonzero f l i : f 0 = 0 -> zsum (fun k => f (nthZ l (k - i))) (nonzero l i) = zsum f l.
Proof.
  intros E. revert i. induction l as [|x l IH]; intros i; cbn [nonzero]; [done|]. rewrite zsum_cons.
  assert (EI : zsum (fun k => f (nthZ (x :: l) (k - i))) (nonzero l (i + 1)) = zsum f l).
  { rewrite <- (IH (i + 1)). apply zsum_ext, Forall_forall. intros k Hk. apply nonzero_elem in Hk. f_equal. unfold nthZ.
    replace (Z.to_nat (k - i)) with (S (Z.to_nat (k - (i + 1)))) by lia. done. }
  destruct (Z.eqb_spec x 0) as [->|Hx]; [rewrite EI; lia|]. rewrite zsum_cons, EI, Z.sub_diag. done.
Qed.

Lemma nonzero_size l : Forall (fun s => 0 <= s < zlen l) (nonzero l 0).
Proof. apply Forall_forall. intros k Hk. apply nonzero_elem in Hk. lia. Qed.

Lemma sort_by_perm before l : sort_by before l ≡ₚ l.
Proof. apply merge_sort_Permutation. Qed.

Section sized.
Context (w : Z) (room : Z -> bool) (Hw : 8 <= w).

Lemma leaf_nodes_spec freq i tree q1 S :
  forest tree q1 S -> q1 = seqZ 0 (zlen tree) -> 0 <= i -> zlen tree + zlen freq <= 2 ^ w ->
  let '(tree', q1') := leaf_nodes w freq i tree q1 in
  forest tree' q1' (S ++ nonzero freq i) /\ q1' = seqZ 0 (zlen tree') /\ zlen tree' = zlen tree + zlen (nonzero freq i).
Proof.
  revert i tree q1 S. induction freq as [|f freq IH]; intros i tree q1 S HF Hq Hi Hb; cbn [leaf_nodes nonzero].
  { rewrite app_nil_r. split_and!; [done|done|by rewrite zlen_nil, Z.add_0_r]. }
  rewrite zlen_cons in Hb. destruct (Z.eqb_spec f 0) as [->|Hf]; cbn [negb]; [apply IH; (done || lia)|].
  zlen_pose. rewrite wrap_small by lia. set (x := {| tn_weight := f; tn_left := _; tn_right := _; tn_symbol := i |}).
  assert (HF' : forest (tree ++ [x]) (q1 ++ [zlen tree]) (S ++ [i])).
  { destruct HF as (F & E & HF & HS). exists (F ++ [(zlen tree, Leaf i)]). rewrite !map_app, concat_app. cbn [map fst snd concat leaves app].
    split; [by rewrite E|]. split; [|by rewrite HS].
    apply Forall_app_2; [eapply Forall_impl; [exact HF|]; intros p; apply is_tree_app|]. apply Forall_cons_2; [|apply Forall_nil_2].
    cbn [fst snd is_tree]. split; [apply zlen_nonneg|]. exists x. split; [|done].
    unfold zlen. rewrite Nat2Z.id. by apply list_lookup_middle. }
  specialize (IH (i + 1) (tree ++ [x]) (q1 ++ [zlen tree]) (S ++ [i]) HF'). rewrite zlen_app in IH. change (zlen [x]) with 1 in IH.
  destruct (leaf_nodes w freq (i + 1) (tree ++ [x]) (q1 ++ [zlen tree])) as [tree' q1'].
  destruct IH as (I1 & I2 & I3); [|lia|lia|].
  - rewrite Hq, seqZ_app by lia. by rewrite Z.add_0_l.
  - rewrite <- app_assoc in I1. split_and!; [done|done|]. rewrite zlen_cons. lia.
Qed.

(** The depths the tree gives the symbols of [freq]. *)
Record tree_depths (freq depths : list Z) (max_depth : Z) : Prop := {
  td_len : zlen depths = zlen freq;
  td_range : Forall (fun d => 0 <= d <= max_depth) depths;
  td_used : forall i, 0 <= i < zlen freq -> nthZ depths i <> 0 <-> nthZ freq i <> 0;
  td_full : zsum (share max_depth) depths = 2 ^ max_depth;
  td_max : 1 <= max_depth < zlen freq
}.

Lemma fold_max_spec l m : m <= fold_left Z.max l m /\ Forall (fun x => x <= fold_left Z.max l m) l /\ (fold_left Z.max l m = m \/ fold_left Z.max l m ∈ l).
Proof.
  revert m. induction l as [|x l IH]; intros m; cbn [fold_left]; [split_and!; [lia|apply Forall_nil_2|by left]|].
  destruct (IH (Z.max m x)) as (I1 & I2 & I3). split; [lia|]. split; [apply Forall_cons_2; [lia|done]|].
  rewrite elem_of_cons. destruct I3 as [I3|I3]; [|by right; right]. rewrite I3. lia.
Qed.

Lemma seqZ_last n : 1 <= n -> n - 1 ∈ seqZ 0 n.
Proof. intros Hn. apply elem_of_seqZ. lia. Qed.

Lemma tree_depths_spec freq tree q1 :
  leaf_nodes w freq 0 [] [] = (tree, q1) ->
  2 <= zlen (nonzero freq 0) -> 2 * zlen freq <= 2 ^ w -> (forall k, k <= zlen freq -> room k = true) ->
  exists tree' depths max_depth,
    merge_loop w (length q1) tree (sort_by (lighter tree) q1) [] = Ok tree' /\
    depth_loop w room (S (length tree')) tree' [(wrap w (zlen tree' - 1), 0)] (replicate (length freq) 0) 0 = Ok (depths, max_depth) /\
    tree_depths freq depths max_depth.
Proof.
  intros El Hu Hb Hroom.
  assert (Hle : zlen (nonzero freq 0) <= zlen freq).
  { rewrite zlen_nonzero. unfold zlen. pose proof (list.length_filter (fun x => x <> 0) freq). lia. }
  pose proof (leaf_nodes_spec freq 0 [] [] []) as LS. rewrite El in LS. destruct LS as (HF & Hq & Ht); [by exists []|done|lia|rewrite zlen_nil; lia|].
  rewrite zlen_nil, Z.add_0_l in Ht. cbn [app] in HF.
  assert (Lq : zlen q1 = zlen tree) by (rewrite Hq; unfold zlen; rewrite length_seqZ; lia).
  pose proof (sort_by_perm (lighter tree) q1) as HP.
  assert (Lp : length (sort_by (lighter tree) q1) = length q1) by (by rewrite HP).
  destruct (merge_loop_spec w ltac:(lia) (length q1) tree (sort_by (lighter tree) q1) [] (nonzero freq 0)) as (tree' & t & E & T & P & L).
  { rewrite app_nil_r. by eapply forest_perm. }
  { by rewrite app_nil_r, Lp. }
  { rewrite app_nil_r, HP, Hq. apply seqZ_last. lia. }
  { rewrite app_nil_r. unfold zlen at 2. rewrite Lp. fold (zlen q1). lia. }
  rewrite app_nil_r in L. unfold zlen at 3 in L. rewrite Lp in L. fold (zlen q1) in L.
  assert (Ls : zlen (leaves t) = zlen (nonzero freq 0)) by (unfold zlen; by rewrite P).
  assert (Hl2 : (2 <= length (leaves t))%nat) by (unfold zlen in *; lia).
  assert (HS : Forall (fun s => 0 <= s < zlen freq) (leaves t)) by (rewrite P; apply nonzero_size).
  exists tree', (assign_all (leaves t) (depths_of t 0) (replicate (length freq) 0)), (fold_left Z.max (depths_of t 0) 0).
  split; [exact E|].
  assert (Lz : zlen (replicate (length freq) 0) = zlen freq) by (unfold zlen; by rewrite length_replicate).
  pose proof (size_of_leaves t) as Sz. rewrite (wrap_small w) by lia.
  replace (S (length tree')) with (size_of t + (S (length tree') - size_of t))%nat by (unfold zlen in *; lia).
  split.
  { rewrite (depth_loop_tree w room); [|lia|done|lia| |lia|lia|].
    2: { rewrite Lz. eapply Forall_impl; [exact HS|]. cbn. lia. }
    2: { intros k Hk. apply Hroom. rewrite zlen_nil in Hk. lia. }
    destruct (S (length tree') - size_of t)%nat as [|k] eqn:Ek; [unfold zlen in *; lia|]. done. }
  set (m := fold_left Z.max (depths_of t 0) 0).
  destruct (fold_max_spec (depths_of t 0) 0) as (M1 & M2 & M3). fold m in M1, M2, M3.
  pose proof (depths_of_range t 0) as DR. pose proof (depths_of_pos t Hl2) as DP. pose proof (length_depths_of t 0) as LD.
  assert (Hm : 1 <= m < zlen freq).
  { rewrite Forall_forall in DR, DP. destruct M3 as [M3|M3].
    - destruct (depths_of t 0) as [|d ds] eqn:Ed; [cbn in LD; lia|]. apply Forall_cons_inv in M2 as [M2 _]. specialize (DP d ltac:(by left)). lia.
    - specialize (DR m M3). specialize (DP m M3). lia. }
  assert (HN : NoDup (leaves t)) by (rewrite P; apply nonzero_nodup).
  assert (HB : Forall (fun x => 1 <= x <= m) (depths_of t 0)) by (by apply Forall_and).
  split.
  - by rewrite zlen_assign_all.
  - apply Forall_lookup. intros i d Hi.
    assert (Ed : nthZ (assign_all (leaves t) (depths_of t 0) (replicate (length freq) 0)) (Z.of_nat i) = d).
    { unfold nthZ. rewrite Nat2Z.id. by apply nth_lookup_Some. }
    rewrite <- Ed. destruct (decide (Z.of_nat i ∈ leaves t)) as [Hin|Hin].
    + apply (nthZ_assign_in (fun x => 0 <= x <= m)); [done|by rewrite LD| |by rewrite Lz].
      eapply Forall_impl; [exact HB|]. cbn. lia.
    + rewrite nthZ_assign_other, nthZ_replicate_0; [lia|done|lia|]. eapply Forall_impl; [exact HS|]. cbn. lia.
  - intros i Hi. assert (Hiff : i ∈ leaves t <-> nthZ freq i <> 0).
    { rewrite P, nonzero_elem, Z.sub_0_r. split; [by intros [_ ?]|]. intros ?. split; [lia|done]. }
    rewrite <- Hiff. split.
    + intros Hn. destruct (decide (i ∈ leaves t)) as [|Hin]; [done|]. exfalso. apply Hn.
      rewrite nthZ_assign_other, nthZ_replicate_0; [done|done|lia|]. eapply Forall_impl; [exact HS|]. cbn. lia.
    + intros Hin. apply (nthZ_assign_in (fun x => x <> 0)); [done|by rewrite LD| |by rewrite Lz].
      eapply Forall_impl; [exact HB|]. cbn. lia.
  - pose proof (zsum_assign_all (share m) (leaves t) (depths_of t 0) (replicate (length freq) 0) HN) as Z.
    rewrite LD, Lz in Z. specialize (Z eq_refl HS). rewrite zsum_replicate in Z by done.
    rewrite (full_tree_shares t m Hl2 M2) in Z.
    rewrite (zsum_ext (fun s => share m (nthZ (replicate (length freq) 0) s)) (fun _ => 0)) in Z; [|apply Forall_forall; intros s _; cbn beta; by rewrite nthZ_replicate_0].
    rewrite zsum_zero in Z. lia.
  - done.
Qed.
End sized.

(** ** The limit *)

(** A weighted sum over the counts of the lengths 1 to [n]. *)
Fixpoint lsum (f : Z -> Z) (bl : list Z) (n : nat) : Z :=
  match n with O => 0 | S n' => lsum f bl n' + f (Z.of_nat n) * nthZ bl (Z.of_nat n) end.

Definition counts_ok (bl : list Z) (n : nat) : Prop := Z.of_nat n < zlen bl /\ forall k, 1 <= k <= Z.of_nat n -> 0 <= nthZ bl k.

Lemma counts_ok_less bl n m : counts_ok bl n -> (m <= n)%nat -> counts_ok bl m.
Proof. intros [H1 H2] Hm. split; [lia|]. intros k Hk. apply H2. lia. Qed.

Lemma lsum_setZ f bl n d v :
  1 <= d <= Z.of_nat n -> d < zlen bl -> lsum f (setZ bl d v) n = lsum f bl n + f d * (v - nthZ bl d).
Proof.
  intros Hd Hl. assert (E : forall m, Z.of_nat m < d -> lsum f (setZ bl d v) m = lsum f bl m).
  { induction m as [|m IH]; intros Hm; [done|]. cbn [lsum]. rewrite nthZ_setZ_ne, IH by lia. done. }
  induction n as [|n IH]; [lia|]. cbn [lsum]. destruct (Z.eq_dec d (Z.of_nat (S n))) as [->|Hne].
  - rewrite nthZ_setZ_eq, E by lia. lia.
  - rewrite nthZ_setZ_ne, IH by lia. lia.
Qed.

Lemma lsum_nonneg f bl n : counts_ok bl n -> (forall k, 0 <= f k) -> 0 <= lsum f bl n.
Proof.
  intros HC Hf. induction n as [|n IH]; [done|]. cbn [lsum]. specialize (IH (counts_ok_less bl (S n) n HC ltac:(lia))).
  pose proof (proj2 HC (Z.of_nat (S n)) ltac:(lia)). pose proof (Hf (Z.of_nat (S n))). nia.
Qed.

Lemma lsum_entry f bl n k : counts_ok bl n -> (forall k, 0 <= f k) -> 1 <= k <= Z.of_nat n -> f k * nthZ bl k <= lsum f bl n.
Proof.
  intros HC Hf Hk. induction n as [|n IH]; [lia|]. cbn [lsum].
  pose proof (lsum_nonneg f bl n (counts_ok_less bl (S n) n HC ltac:(lia)) Hf).
  destruct (Z.eq_dec k (Z.of_nat (S n))) as [->|]; [lia|].
  specialize (IH (counts_ok_less bl (S n) n HC ltac:(lia)) ltac:(lia)).
  pose proof (proj2 HC (Z.of_nat (S n)) ltac:(lia)). pose proof (Hf (Z.of_nat (S n))). nia.
Qed.

Lemma lsum_mono f bl m n : counts_ok bl n -> (forall k, 0 <= f k) -> (m <= n)%nat -> lsum f bl m <= lsum f bl n.
Proof.
  intros HC Hf Hm. induction Hm as [|n Hm IH]; [done|]. cbn [lsum]. specialize (IH (counts_ok_less bl (S n) n HC ltac:(lia))).
  pose proof (proj2 HC (Z.of_nat (S n)) ltac:(lia)). pose proof (Hf (Z.of_nat (S n))). nia.
Qed.

Lemma lsum_cnt f bl n C :
  (forall k, 1 <= k <= Z.of_nat n -> nthZ bl k = cnt C k) ->
  lsum f bl n = zsum (fun x => if (1 <=? x) && (x <=? Z.of_nat n) then f x else 0) C.
Proof.
  intros HC. induction n as [|n IH]; cbn [lsum].
  - rewrite (zsum_ext _ (fun _ => 0)), zsum_zero; [done|]. apply Forall_forall. intros x _.
    destruct (Z.leb_spec 1 x), (Z.leb_spec x (Z.of_nat 0)); cbn [andb]; lia.
  - rewrite IH by (intros; apply HC; lia). rewrite HC, cnt_zsum, <- zsum_mul, <- zsum_add by lia.
    apply zsum_ext, Forall_forall. intros x _. unfold is_len.
    destruct (Z.leb_spec 1 x), (Z.leb_spec x (Z.of_nat n)), (Z.leb_spec x (Z.of_nat (S n))), (decide (x = Z.of_nat (S n))) as [->|]; cbn [andb]; lia.
Qed.

(** [n] times each length, in order. *)
Fixpoint run_list (bl : list Z) (n : nat) : list Z :=
  match n with O => [] | S n' => run_list bl n' ++ replicate (Z.to_nat (nthZ bl (Z.of_nat n))) (Z.of_nat n) end.

Lemma zsum_same f n v : zsum f (replicate n v) = Z.of_nat n * f v.
Proof. induction n as [|n IH]; [done|]. cbn [replicate]. rewrite zsum_cons, IH. lia. Qed.

Lemma zsum_run_list f bl n : counts_ok bl n -> zsum f (run_list bl n) = lsum f bl n.
Proof.
  intros HC. induction n as [|n IH]; [done|]. cbn [run_list lsum]. rewrite zsum_app, IH by (apply (counts_ok_less _ (S n)); [done|lia]).
  rewrite zsum_same. pose proof (proj2 HC (Z.of_nat (S n)) ltac:(lia)). rewrite Z2Nat.id by done. lia.
Qed.

Lemma zlen_run_list bl n : counts_ok bl n -> zlen (run_list bl n) = lsum (fun _ => 1) bl n.
Proof.
  intros HC. induction n as [|n IH]; [done|]. cbn [run_list lsum]. rewrite zlen_app, IH by (apply (counts_ok_less _ (S n)); [done|lia]).
  pose proof (proj2 HC (Z.of_nat (S n)) ltac:(lia)). unfold zlen. rewrite length_replicate. lia.
Qed.

Lemma run_list_range bl n : Forall (fun x => 1 <= x <= Z.of_nat n) (run_list bl n).
Proof.
  induction n as [|n IH]; cbn [run_list]; [apply Forall_nil_2|]. apply Forall_app_2.
  - eapply Forall_impl; [exact IH|]. cbn. lia.
  - apply Forall_replicate. lia.
Qed.

Lemma last_used_spec d bl :
  (last_used d bl <= d)%nat /\ (forall k, Z.of_nat (last_used d bl) < k <= Z.of_nat d -> nthZ bl k = 0) /\
  ((0 < last_used d bl)%nat -> nthZ bl (Z.of_nat (last_used d bl)) <> 0).
Proof.
  induction d as [|d IH]; cbn [last_used]; [split_and!; [lia|lia|lia]|].
  destruct (Z.eqb_spec (nthZ bl (Z.of_nat (S d))) 0) as [E|E]; [|split_and!; [lia|lia|done]].
  destruct IH as (I1 & I2 & I3). split_and!; [lia| |done]. intros k Hk.
  destruct (Z.eq_dec k (Z.of_nat (S d))) as [->|]; [done|]. apply I2. lia.
Qed.

Lemma lsum_only_last f bl n : (forall k, 1 <= k <= Z.of_nat n -> nthZ bl k = 0) -> lsum f bl n = 0.
Proof. intros HZ. induction n as [|n IH]; [done|]. cbn [lsum]. rewrite IH, HZ by (lia || (intros; apply HZ; lia)). lia. Qed.

Section limit.
Context (w : Z) (Hw : 8 <= w) (max_bits : Z) (HM : 1 <= max_bits <= 15).
Let M := Z.to_nat max_bits.
Let pw := share max_bits.

Lemma count_depths_spec depths bl :
  Forall (fun d => 0 <= d < zlen bl) depths ->
  (forall j, 1 <= j < zlen bl -> 0 <= nthZ bl j /\ nthZ bl j + zlen depths < 2 ^ w) ->
  zlen (count_depths w depths bl) = zlen bl /\
  forall j, 1 <= j < zlen bl -> nthZ (count_depths w depths bl) j = nthZ bl j + cnt depths j.
Proof.
  revert bl. induction depths as [|d depths IH]; intros bl HF Hb; cbn [count_depths].
  { split; [done|]. intros j Hj. change (cnt [] j) with 0. lia. }
  apply Forall_cons_inv in HF as [Hd HF]. rewrite zlen_cons in Hb. zlen_pose.
  assert (EZ : zlen (if d >? 0 then setZ bl d (wrap w (nthZ bl d + 1)) else bl) = zlen bl) by (destruct (d >? 0); by rewrite ?zlen_setZ).
  assert (EN : forall j, 1 <= j < zlen bl -> nthZ (if d >? 0 then setZ bl d (wrap w (nthZ bl d + 1)) else bl) j = nthZ bl j + is_len j d).
  { intros j Hj. rewrite Z.gtb_ltb. unfold is_len. destruct (Z.ltb_spec 0 d), (decide (d = j)) as [->|]; try lia.
    - rewrite nthZ_setZ_eq by lia. apply wrap_small. specialize (Hb j Hj). lia.
    - rewrite nthZ_setZ_ne by lia. lia. }
  destruct (IH _ ltac:(by rewrite EZ)) as [IL IE].
  { rewrite EZ. intros j Hj. rewrite EN by done. specialize (Hb j Hj). unfold is_len. destruct (decide _); lia. }
  rewrite EZ in *. split; [done|]. intros j Hj. rewrite IE, EN, cnt_cons by done. unfold is_len. lia.
Qed.

Lemma clamp_counts_spec depths max_depth bl :
  max_bits < max_depth -> max_depth < zlen bl -> Forall (fun d => 0 <= d <= max_depth) depths ->
  (forall j, 1 <= j < zlen bl -> nthZ bl j = cnt depths j) -> zlen depths < 2 ^ w -> w <= 32 ->
  let out := clamp_counts w max_bits max_depth bl in
  zlen out = zlen bl /\ forall j, 1 <= j <= max_bits -> nthZ out j = cnt (map (Z.min max_bits) depths) j.
Proof.
  intros Hm Hl HF Hb Hz Hw32. cbv zeta. unfold clamp_counts.
  set (over := fun d => zsum (fun x => if (max_bits <? x) && (x <? d) then 1 else 0) depths).
  assert (HO : forall d, 0 <= over d <= zlen depths).
  { intros d. unfold over. clear. induction depths as [|x l IH]; [done|]. rewrite zsum_cons, zlen_cons. destruct (_ && _); lia. }
  assert (HI : exists bl', for_range (max_bits + 1) (max_depth + 1) (fun d '(overflow, bl) => (u32 (overflow + nthZ bl d), setZ bl d 0)) (0, bl) = (over (max_depth + 1), bl') /\
     zlen bl' = zlen bl /\ forall j, 1 <= j <= max_bits -> nthZ bl' j = cnt depths j).
  { set (P := fun (d : Z) (s : Z * list Z) => fst s = over d /\ zlen (snd s) = zlen bl /\
       forall j, 1 <= j <= max_bits \/ d <= j < zlen bl -> nthZ (snd s) j = cnt depths j).
    pose proof (for_range_ind P (fun d '(overflow, bl) => (u32 (overflow + nthZ bl d), setZ bl d 0)) (max_bits + 1) (max_depth + 1) (0, bl)) as FI.
    destruct (for_range (max_bits + 1) (max_depth + 1) _ (0, bl)) as [o bl']. destruct FI as (F1 & F2 & F3); [lia| | |].
    - split; [|split; [done|intros j Hj; apply Hb; lia]]. cbn [fst]. unfold over.
      rewrite (zsum_ext _ (fun _ => 0)), zsum_zero; [done|]. apply Forall_forall. intros x _.
      destruct (Z.ltb_spec max_bits x), (Z.ltb_spec x (max_bits + 1)); cbn [andb]; lia.
    - intros d [o1 b1] Hd (P1 & P2 & P3). cbn [fst snd] in *. split; [|split]; cbn [fst snd].
      + rewrite P1, P3 by lia. assert (E : over d + cnt depths d = over (d + 1)).
        { unfold over. rewrite cnt_zsum, <- zsum_add. apply zsum_ext, Forall_forall. intros x _. unfold is_len.
          destruct (Z.ltb_spec max_bits x), (Z.ltb_spec x d), (Z.ltb_spec x (d + 1)), (decide (x = d)); cbn [andb]; lia. }
        rewrite E. apply wrap_small. specialize (HO (d + 1)). pose proof (pow_le w 32 Hw32). lia.
      + by rewrite zlen_setZ.
      + intros j Hj. rewrite nthZ_setZ_ne by lia. apply P3. lia.
    - exists bl'. cbn [fst snd] in *. rewrite F1. split; [done|]. split; [done|]. intros j Hj. apply F3. by left. }
  destruct HI as (bl' & E & L & HN). rewrite E. split; [by rewrite zlen_setZ|].
  assert (EC : forall j, 1 <= j <= max_bits -> cnt (map (Z.min max_bits) depths) j = cnt depths j + (if j =? max_bits then over (max_depth + 1) else 0)).
  { intros j Hj. rewrite !cnt_zsum. unfold over. clear - HF Hm Hj. induction HF as [|x l Hx _ IH]; cbn [map]; rewrite ?zsum_cons.
    - destruct (j =? max_bits); done.
    - rewrite IH. unfold is_len. rewrite (proj2 (Z.ltb_lt x (max_depth + 1))), andb_true_r by lia.
      destruct (Z.eqb_spec j max_bits), (Z.ltb_spec max_bits x), (decide (Z.min max_bits x = j)), (decide (x = j)); lia. }
  intros j Hj. rewrite nthZ_setZ, EC by lia. destruct (Z.eqb_spec j max_bits) as [->|]; [|rewrite HN by lia; lia].
  rewrite HN by lia. apply wrap_small. pose proof (EC max_bits ltac:(lia)) as Em. rewrite Z.eqb_refl in Em.
  rewrite <- Em. pose proof (cnt_nonneg (map (Z.min max_bits) depths) max_bits). pose proof (cnt_le (map (Z.min max_bits) depths) max_bits).
  rewrite zlen_map in *. lia.
Qed.

Lemma pw_nonneg k : 0 <= pw k.
Proof. apply share_range. Qed.

Lemma kraft_sum_spec bl : counts_ok bl M -> lsum pw bl M < 2 ^ 32 -> kraft_sum max_bits bl = lsum pw bl M.
Proof.
  intros HC Hs. unfold kraft_sum. replace (lsum pw bl M) with (lsum pw bl (Z.to_nat (max_bits + 1 - 1))) by (do 2 f_equal; lia).
  apply (for_range_ind (fun d s => s = lsum pw bl (Z.to_nat (d - 1)))); [lia|done|].
  intros d s Hd ->. replace (Z.to_nat (d + 1 - 1)) with (S (Z.to_nat (d - 1))) by lia. cbn [lsum].
  replace (Z.of_nat (S (Z.to_nat (d - 1)))) with d by lia.
  pose proof (lsum_mono pw bl (S (Z.to_nat (d - 1))) M HC pw_nonneg ltac:(subst M; lia)) as MM. cbn [lsum] in MM.
  replace (Z.of_nat (S (Z.to_nat (d - 1)))) with d in MM by lia.
  pose proof (lsum_nonneg pw bl (Z.to_nat (d - 1)) (counts_ok_less bl M (Z.to_nat (d - 1)) HC ltac:(subst M; lia)) pw_nonneg).
  pose proof (proj2 HC d ltac:(subst M; lia)). pose proof (pw_nonneg d).
  assert (Ep : pw d = 2 ^ (max_bits - d)) by (unfold pw, share; by rewrite !(proj2 (Z.leb_le _ _)) by lia).
  rewrite Z.shiftl_mul_pow2, <- Ep, (wrap_small 32 (nthZ bl d * pw d)) by nia. rewrite wrap_small by nia. lia.
Qed.

(** The repair keeps the number of symbols and ends with a Kraft sum of one. *)
Record repairing (n : Z) (bl : list Z) (sum : Z) : Prop := {
  rp_ok : counts_ok bl M;
  rp_count : lsum (fun _ => 1) bl M = n;
  rp_sum : lsum pw bl M = sum;
  rp_low : 2 ^ max_bits <= sum;
  rp_spare : sum = 2 ^ max_bits \/ sum - 2 ^ max_bits < nthZ bl max_bits
}.

Lemma repairing_entry n bl sum k : repairing n bl sum -> 1 <= k <= max_bits -> 0 <= nthZ bl k <= n.
Proof.
  intros [HC <- _ _ _] Hk. split; [apply HC; subst M; lia|].
  pose proof (lsum_entry (fun _ => 1) bl M k HC ltac:(intros; lia) ltac:(subst M; lia)) as E. cbn beta in E. lia.
Qed.

Lemma repair_step n bl sum d :
  repairing n bl sum -> n + 2 < 2 ^ w -> 2 ^ max_bits < sum -> 1 <= d < max_bits -> nthZ bl d <> 0 ->
  let bl1 := setZ bl d (wrap w (nthZ bl d - 1)) in
  let bl2 := setZ bl1 (d + 1) (wrap w (nthZ bl1 (d + 1) + 2)) in
  repairing n (setZ bl2 max_bits (wrap w (nthZ bl2 max_bits - 1))) (sum - 1).
Proof.
  intros HR Hn Hs Hd Hnz. pose proof (repairing_entry _ _ _ d HR ltac:(lia)) as Rd.
  pose proof (repairing_entry _ _ _ (d + 1) HR ltac:(lia)) as Rd1. pose proof (repairing_entry _ _ _ max_bits HR ltac:(lia)) as Rm.
  destruct HR as [[HL HC] HN HS HLo HSp]. destruct HSp as [HSp|HSp]; [lia|]. cbv zeta.
  rewrite (wrap_small w (nthZ bl d - 1)) by lia. set (bl1 := setZ bl d (nthZ bl d - 1)).
  assert (E1 : nthZ bl1 (d + 1) = nthZ bl (d + 1)) by (apply nthZ_setZ_ne; lia).
  rewrite E1, (wrap_small w (nthZ bl (d + 1) + 2)) by lia. set (bl2 := setZ bl1 (d + 1) (nthZ bl (d + 1) + 2)).
  assert (L1 : zlen bl1 = zlen bl) by apply zlen_setZ. assert (L2 : zlen bl2 = zlen bl) by (unfold bl2; by rewrite zlen_setZ).
  assert (HLM : max_bits < zlen bl) by (subst M; lia).
  assert (E2 : nthZ bl2 max_bits = nthZ bl max_bits + (if d + 1 =? max_bits then 2 else 0)).
  { unfold bl2. rewrite nthZ_setZ by lia. rewrite Z.eqb_sym. destruct (Z.eqb_spec (d + 1) max_bits) as [E|E]; [by rewrite <- E|].
    unfold bl1. rewrite nthZ_setZ_ne by lia. lia. }
  assert (Hx : 1 <= nthZ bl2 max_bits < 2 ^ w) by (rewrite E2; destruct (Z.eqb_spec (d + 1) max_bits) as [E|]; [rewrite E in *|]; lia).
  rewrite (wrap_small w (nthZ bl2 max_bits - 1)) by lia.
  assert (ES : forall f, lsum f (setZ bl2 max_bits (nthZ bl2 max_bits - 1)) M = lsum f bl M - f d + 2 * f (d + 1) - f max_bits).
  { intros f. rewrite lsum_setZ by (subst M; lia). unfold bl2 at 1. rewrite lsum_setZ by (subst M; lia). rewrite E1.
    unfold bl1 at 1. rewrite lsum_setZ by (subst M; lia). lia. }
  assert (EP : pw d = 2 * pw (d + 1) /\ pw max_bits = 1).
  { unfold pw, share. rewrite !(proj2 (Z.leb_le _ _)) by lia. cbn [andb]. rewrite Z.sub_diag. split; [|done].
    replace (max_bits - d) with (1 + (max_bits - (d + 1))) by lia. rewrite Z.pow_add_r by lia. done. }
  split.
  - split; [by rewrite zlen_setZ, L2|]. intros k Hk. specialize (HC k Hk).
    rewrite nthZ_setZ by (subst M; lia). destruct (Z.eqb_spec k max_bits) as [->|]; [lia|].
    unfold bl2. rewrite nthZ_setZ by (subst M; lia). destruct (k =? d + 1); [lia|].
    unfold bl1. rewrite nthZ_setZ by (subst M; lia). destruct (Z.eqb_spec k d) as [->|]; lia.
  - rewrite ES. lia.
  - rewrite ES. lia.
  - lia.
  - right. rewrite nthZ_setZ_eq by lia. destruct (d + 1 =? max_bits); lia.
Qed.

Lemma kraft_loop_spec fuel n bl sum :
  repairing n bl sum -> n <= 2 ^ max_bits -> n + 2 < 2 ^ w -> sum < 2 ^ 32 -> sum - 2 ^ max_bits < Z.of_nat fuel ->
  exists bl', kraft_loop w fuel max_bits (2 ^ max_bits) bl sum = Ok bl' /\ repairing n bl' (2 ^ max_bits).
Proof.
  revert bl sum. induction fuel as [|fuel IH]; intros bl sum HR Hn Hnw Hs Hf; [pose proof (rp_low _ _ _ HR); lia|].
  cbn [kraft_loop]. rewrite Z.gtb_ltb. destruct (Z.ltb_spec (2 ^ max_bits) sum) as [Hgt|Hle].
  - destruct (last_used_spec (Z.to_nat (max_bits - 1)) bl) as (D1 & D2 & D3). set (d := last_used (Z.to_nat (max_bits - 1)) bl) in *.
    cbv zeta. destruct (rp_spare _ _ _ HR) as [Hsp|Hsp]; [lia|]. rewrite (proj2 (Z.eqb_neq (nthZ bl max_bits) 0)), orb_false_r by lia.
    destruct (Z.eqb_spec (Z.of_nat d) 0) as [E0|Hd].
    { exfalso. destruct HR as [HC HN HS _ _]. assert (EM : M = S (Z.to_nat (max_bits - 1))) by (unfold M; lia).
      rewrite EM in HN, HS. cbn [lsum] in HN, HS. rewrite lsum_only_last in HN, HS by (intros; apply D2; lia).
      rewrite <- EM in HN, HS. replace (Z.of_nat M) with max_bits in * by (unfold M; lia).
      assert (pw max_bits = 1) by (unfold pw, share; rewrite !(proj2 (Z.leb_le _ _)), Z.sub_diag by lia; done). lia. }
    pose proof (rp_low _ _ _ HR) as Hlo. pose proof (pow_le 0 max_bits ltac:(lia)) as P0. change (2 ^ 0) with 1 in P0.
    rewrite (wrap_small 32 (sum - 1)) by lia. apply IH; [|done|done|lia|lia].
    apply repair_step; [done|done|done|lia|apply D3; lia].
  - exists bl. split; [done|]. pose proof (rp_low _ _ _ HR). by replace (2 ^ max_bits) with sum by lia.
Qed.

(** *** Handing out the lengths *)

Lemma assign_run_spec n bits syms depths :
  0 <= bits < 2 ^ w ->
  assign_run w n bits syms depths = (drop n syms, assign_all (take n syms) (replicate n bits) depths).
Proof.
  intros Hb. revert syms depths. induction n as [|n IH]; intros [|s syms] depths; try done.
  cbn [assign_run drop take replicate assign_all]. rewrite (wrap_small w bits) by done. apply IH.
Qed.

Lemma run_list_S bl k :
  run_list bl (S k) = run_list bl k ++ replicate (Z.to_nat (nthZ bl (Z.of_nat (S k)))) (Z.of_nat (S k)).
Proof. done. Qed.

Lemma length_run_list_le bl m n : (m <= n)%nat -> (length (run_list bl m) <= length (run_list bl n))%nat.
Proof. induction 1 as [|n Hm IH]; [done|]. rewrite run_list_S, length_app. lia. Qed.

Lemma assign_depths_spec bl syms depths :
  length (run_list bl M) = length syms ->
  assign_depths w max_bits bl syms depths = assign_all syms (run_list bl M) depths.
Proof.
  intros HL. unfold assign_depths.
  set (P := fun (d : Z) (s : list Z * list Z) => let r := run_list bl (Z.to_nat (d - 1)) in
       s = (drop (length r) syms, assign_all (take (length r) syms) r depths)).
  pose proof (for_range_ind P (fun bits '(syms, depths) => assign_run w (Z.to_nat (nthZ bl bits)) bits syms depths) 1 (max_bits + 1) (syms, depths)) as FI.
  assert (E : P (max_bits + 1) (for_range 1 (max_bits + 1) (fun bits '(syms, depths) => assign_run w (Z.to_nat (nthZ bl bits)) bits syms depths) (syms, depths))).
  { apply FI; [lia|done|]. intros d [s1 d1] Hd HP. unfold P in HP |- *. injection HP as -> ->.
    pose proof (pow_le 8 w Hw). rewrite assign_run_spec by lia.
    replace (Z.to_nat (d + 1 - 1)) with (S (Z.to_nat (d - 1))) by lia. rewrite run_list_S, length_app, length_replicate.
    replace (Z.of_nat (S (Z.to_nat (d - 1)))) with d by lia. set (r := run_list bl (Z.to_nat (d - 1))). set (n := Z.to_nat (nthZ bl d)).
    assert (Hr : (length r <= length syms)%nat).
    { rewrite <- HL. apply length_run_list_le. unfold M. lia. }
    rewrite drop_drop. f_equal. rewrite <- assign_all_app by (rewrite length_take; lia). f_equal.
    by rewrite take_take_drop. }
  unfold P in E. rewrite E. cbn [snd]. replace (Z.to_nat (max_bits + 1 - 1)) with M by (unfold M; lia).
  by rewrite HL, take_ge.
Qed.

Lemma deep_symbols_nonzero depths i :
  Forall (fun d => 0 <= d) depths -> 0 <= i -> i + zlen depths <= 2 ^ w -> deep_symbols w depths i = nonzero depths i.
Proof.
  intros HF. revert i. induction HF as [|d depths Hd _ IH]; intros i Hi Hb; [done|]. cbn [deep_symbols nonzero]. rewrite zlen_cons in Hb. zlen_pose.
  rewrite IH, wrap_small by lia. rewrite Z.gtb_ltb. destruct (Z.ltb_spec 0 d), (Z.eqb_spec d 0); (done || lia).
Qed.

(** Clamping moves at most the spare of the limit. *)
Lemma clamped_share depths m :
  max_bits < m -> Forall (fun d => 0 <= d <= m) depths ->
  let over := zsum (fun x => if max_bits <? x then 1 else 0) depths in
  2 ^ (m - max_bits) * zsum pw (map (Z.min max_bits) depths) + over <= zsum (share m) depths + 2 ^ (m - max_bits) * over /\
  zsum (share m) depths <= 2 ^ (m - max_bits) * zsum pw (map (Z.min max_bits) depths) /\
  over <= cnt (map (Z.min max_bits) depths) max_bits.
Proof.
  intros Hm HF. cbv zeta. rewrite cnt_zsum. induction HF as [|x l Hx _ IH]; [unfold zsum; cbn [fold_right map]; lia|]. cbn [map]. rewrite !zsum_cons.
  assert (E : share m x = 2 ^ (m - max_bits) * pw (Z.min max_bits x) /\ (max_bits <? x) = false \/
              1 <= share m x /\ share m x <= 2 ^ (m - max_bits) /\ pw (Z.min max_bits x) = 1 /\ (max_bits <? x) = true /\ is_len max_bits (Z.min max_bits x) = 1).
  { unfold pw, share. destruct (Z.ltb_spec max_bits x) as [Hlt|Hge].
    - right. rewrite Z.min_l, !(proj2 (Z.leb_le _ _)), Z.sub_diag by lia. cbn [andb]. pose proof (Z.pow_pos_nonneg 2 (m - x) ltac:(lia) ltac:(lia)).
      split_and!; [lia|apply pow_le; lia|done|done|]. unfold is_len. by destruct (decide _).
    - left. split; [|done]. rewrite Z.min_r by lia. destruct (Z.leb_spec 1 x); cbn [andb]; [|lia].
      rewrite !(proj2 (Z.leb_le _ _)), <- Z.pow_add_r by lia. f_equal. lia. }
  assert (0 <= is_len max_bits (Z.min max_bits x)) by (unfold is_len; destruct (decide _); lia).
  destruct E as [[-> ->]|(E1 & E2 & -> & -> & ->)]; lia.
Qed.

(** What the builder promises of the depths it writes out. *)
Record lengths_ok (freq lens : list Z) : Prop := {
  lo_len : zlen lens = zlen freq;
  lo_range : Forall (fun d => 0 <= d <= max_bits) lens;
  lo_used : forall i, 0 <= i < zlen freq -> nthZ lens i <> 0 <-> nthZ freq i <> 0;
  lo_full : zsum pw lens = 2 ^ max_bits
}.

Lemma assigned_lengths freq depths m bl syms :
  tree_depths freq depths m -> repairing (zlen syms) bl (2 ^ max_bits) -> syms ≡ₚ nonzero depths 0 ->
  lengths_ok freq (assign_all syms (run_list bl M) depths).
Proof.
  intros HT HR HP. destruct HR as [HC HN HS _ _].
  assert (EL : length syms = length (run_list bl M)).
  { pose proof (zlen_run_list bl M HC) as E. rewrite HN in E. unfold zlen in E. lia. }
  assert (Hnd : NoDup syms) by (rewrite HP; apply nonzero_nodup).
  assert (Hin : Forall (fun s => 0 <= s < zlen depths) syms) by (rewrite HP; apply nonzero_size).
  assert (Hrun : Forall (fun x => 1 <= x <= max_bits) (run_list bl M)).
  { eapply Forall_impl; [apply run_list_range|]. cbn. unfold M. lia. }
  assert (Hother : forall i, 0 <= i < zlen freq -> i ∉ syms -> nthZ (assign_all syms (run_list bl M) depths) i = 0 /\ nthZ depths i = 0).
  { intros i Hi Hn. assert (E0 : nthZ depths i = 0).
    { destruct (Z.eq_dec (nthZ depths i) 0) as [|Hne]; [done|]. exfalso. apply Hn. rewrite HP, nonzero_elem, (td_len _ _ _ HT), Z.sub_0_r. lia. }
    rewrite nthZ_assign_other; [done|done|lia|]. eapply Forall_impl; [exact Hin|]. cbn. lia. }
  split.
  - rewrite zlen_assign_all. apply (td_len _ _ _ HT).
  - apply Forall_lookup. intros i d Hi. pose proof (lookup_lt_Some _ _ _ Hi) as Hlt.
    assert (Ed : nthZ (assign_all syms (run_list bl M) depths) (Z.of_nat i) = d) by (unfold nthZ; rewrite Nat2Z.id; by apply nth_lookup_Some).
    rewrite <- Ed. destruct (decide (Z.of_nat i ∈ syms)) as [Hs|Hs].
    + apply (nthZ_assign_in (fun x => 0 <= x <= max_bits)); [done|done| |done]. eapply Forall_impl; [exact Hrun|]. cbn. lia.
    + destruct (Hother (Z.of_nat i)) as [-> _]; [|done|lia]. rewrite <- (td_len _ _ _ HT), <- (zlen_assign_all syms (run_list bl M)). unfold zlen. lia.
  - intros i Hi. rewrite <- (td_used _ _ _ HT i Hi). destruct (decide (i ∈ syms)) as [Hs|Hs].
    + split; intros _.
      * rewrite HP, nonzero_elem, Z.sub_0_r in Hs. apply Hs.
      * apply (nthZ_assign_in (fun x => x <> 0)); [done|done| |done]. eapply Forall_impl; [exact Hrun|]. cbn. lia.
    + destruct (Hother i Hi Hs) as [-> ->]. done.
  - pose proof (zsum_assign_all pw syms (run_list bl M) depths Hnd EL Hin) as Z.
    rewrite zsum_run_list, HS in Z by done. pose proof (zsum_nonzero pw depths 0 eq_refl) as Z0.
    rewrite (zsum_perm _ _ _ HP) in Z.
    rewrite (zsum_ext _ (fun s => pw (nthZ depths s))) in Z0; [lia|].
    apply Forall_forall. intros s _. cbn beta. by rewrite Z.sub_0_r.
Qed.

Lemma limit_depths_spec freq depths m bl_size :
  tree_depths freq depths m -> max_bits < m -> m < bl_size -> zlen freq <= 2 ^ max_bits -> zlen freq + 2 < 2 ^ w -> w <= 32 ->
  exists out, limit_depths w freq depths max_bits m bl_size = Ok out /\ lengths_ok freq out.
Proof.
  intros HT Hm Hbl Hn Hnw Hw32. destruct HT as [HL HR HU HF Hmax] eqn:EHT. clear EHT.
  set (C := map (Z.min max_bits) depths). unfold limit_depths.
  assert (Lz : zlen (replicate (Z.to_nat bl_size) 0) = bl_size) by (unfold zlen; rewrite length_replicate; lia).
  destruct (count_depths_spec depths (replicate (Z.to_nat bl_size) 0)) as [CL CE].
  { rewrite Lz. eapply Forall_impl; [exact HR|]. cbn. lia. }
  { intros j _. rewrite nthZ_replicate_0. zlen_pose. lia. }
  set (bl0 := count_depths w depths _) in *. rewrite Lz in *.
  destruct (clamp_counts_spec depths m bl0) as [KL KE]; try done; try lia.
  { intros j Hj. rewrite CE, nthZ_replicate_0; lia. }
  set (bl1 := clamp_counts w max_bits m bl0) in *. fold C in KE.
  assert (HC : counts_ok bl1 M).
  { split; [unfold M; lia|]. intros k Hk. rewrite KE by (unfold M in Hk; lia). apply cnt_nonneg. }
  assert (EC : forall f, lsum f bl1 M = zsum (fun x => if 1 <=? x then f x else 0) C).
  { intros f. rewrite (lsum_cnt f bl1 M C) by (intros; apply KE; unfold M in *; lia).
    unfold C. apply zsum_ext, Forall_map, Forall_forall. intros x _. cbn beta.
    rewrite (proj2 (Z.leb_le (Z.min max_bits x) (Z.of_nat M))), andb_true_r by (unfold M; lia). done. }
  assert (ES : lsum pw bl1 M = zsum pw C).
  { rewrite EC. apply zsum_ext, Forall_forall. intros x _. unfold pw, share. by destruct (1 <=? x). }
  pose proof (clamped_share depths m Hm HR) as (S1 & S2 & S3). fold C in S1, S2, S3. rewrite HF in S1, S2.
  set (over := zsum (fun x => if max_bits <? x then 1 else 0) depths) in *.
  assert (EP : 2 ^ m = 2 ^ (m - max_bits) * 2 ^ max_bits) by (rewrite <- Z.pow_add_r by lia; f_equal; lia).
  pose proof (Z.pow_pos_nonneg 2 (m - max_bits) ltac:(lia) ltac:(lia)) as Pp.
  assert (Hsum : zsum pw C < 2 ^ 32).
  { assert (zsum pw C <= zsum (fun _ => 2 ^ max_bits) C).
    { apply zsum_mono, Forall_forall. intros x _. unfold pw, share. destruct (Z.leb_spec 1 x), (Z.leb_spec x max_bits); cbn [andb]; try lia. apply pow_le. lia. }
    assert (E : forall l, zsum (fun _ => 2 ^ max_bits) l = zlen l * 2 ^ max_bits).
    { intros l. induction l as [|x l IH]; [done|]. rewrite zsum_cons, zlen_cons, IH. lia. }
    rewrite E in *. unfold C in *. rewrite zlen_map, HL in *. pose proof (pow_le max_bits 15 ltac:(lia)). nia. }
  assert (Hcount : lsum (fun _ => 1) bl1 M = zlen (nonzero depths 0)).
  { rewrite EC. cbn beta.
    rewrite zlen_nonzero. unfold C. clear - HR HM. induction HR as [|x l Hx _ IH]; [done|]. cbn [map]. rewrite zsum_cons, IH, list.filter_cons.
    destruct (Z.leb_spec 1 (Z.min max_bits x)), (decide (x <> 0)); rewrite ?zlen_cons; lia. }
  assert (Hnz : zlen (nonzero depths 0) <= zlen freq).
  { rewrite zlen_nonzero, <- HL. unfold zlen. pose proof (list.length_filter (fun x => x <> 0) depths). lia. }
  assert (RP : repairing (zlen (nonzero depths 0)) bl1 (zsum pw C)).
  { split; [done|done|done|nia|]. rewrite KE by lia. destruct (Z.eq_dec over 0) as [E0|E0]; [left; nia|right].
    assert (0 < over).
    { assert (0 <= over); [|lia]. unfold over. clear. induction depths as [|x l IH]; [done|]. rewrite zsum_cons. destruct (max_bits <? x); lia. }
    nia. }
  rewrite (kraft_sum_spec bl1 HC) by lia. rewrite ES, Z.shiftl_1_l.
  destruct (kraft_loop_spec (S (Z.to_nat (zsum pw C))) _ bl1 _ RP) as (bl2 & E & RP2); [lia|lia|done|pose proof (pow_le 0 max_bits ltac:(lia)); lia|].
  rewrite E, bind_ok. eexists. split; [reflexivity|].
  rewrite deep_symbols_nonzero; [|eapply Forall_impl; [exact HR|]; cbn; lia|lia|lia].
  pose proof (sort_by_perm (likelier freq) (nonzero depths 0)) as HP.
  assert (EZ : zlen (sort_by (likelier freq) (nonzero depths 0)) = zlen (nonzero depths 0)) by (unfold zlen; by rewrite HP).
  rewrite assign_depths_spec.
  - apply (assigned_lengths freq depths m); [done| |done]. by rewrite EZ.
  - pose proof (zlen_run_list bl2 M (rp_ok _ _ _ RP2)) as E2. rewrite (rp_count _ _ _ RP2), <- EZ in E2. unfold zlen in E2. lia.
Qed.

(** Two or more symbols are used: a complete code. *)
Lemma tree_lengths_spec room freq bl_size :
  2 <= zlen (nonzero freq 0) -> zlen freq <= 2 ^ max_bits -> 2 * zlen freq + 2 < 2 ^ w -> w <= 32 ->
  (forall k, k <= zlen freq -> room k = true) -> (forall m, m < zlen freq -> m < bl_size m) ->
  exists lens, tree_lengths w room freq max_bits bl_size = Ok lens /\ lengths_ok freq lens.
Proof.
  intros Hu Hn Hnw Hw32 Hroom Hbl. unfold tree_lengths. destruct (leaf_nodes w freq 0 [] []) as [tree q1] eqn:El.
  zlen_pose. destruct (tree_depths_spec w room Hw freq tree q1 El Hu ltac:(lia) Hroom) as (tree' & depths & m & E1 & E2 & HT).
  rewrite E1, bind_ok. cbv zeta. rewrite E2, bind_ok.
  assert (HU8 : forall lens, lengths_ok freq lens -> map u8 lens = lens).
  { intros lens HO. pose proof (lo_range _ _ HO) as HR. clear - HR HM. induction HR as [|x l Hx _ IH]; [done|]. cbn [map]. rewrite IH, wrap_small by lia. done. }
  rewrite Z.gtb_ltb. destruct (Z.ltb_spec max_bits m) as [Hlt|Hle].
  - destruct (limit_depths_spec freq depths m (bl_size m) HT Hlt) as (out & E & HO); [apply Hbl; apply (td_max _ _ _ HT)|done|lia|done|].
    rewrite E, bind_ok. exists out. split; [|done]. by rewrite HU8.
  - rewrite bind_ok. assert (HO : lengths_ok freq depths).
    { destruct HT as [HL HR HU HF Hmax]. split; [done| |done|].
      - eapply Forall_impl; [exact HR|]. cbn. lia.
      - assert (E : zsum pw depths = 2 ^ (max_bits - m) * zsum (share m) depths).
        { rewrite <- zsum_mul. apply zsum_ext. eapply Forall_impl; [exact HR|]. intros x Hx. cbn beta in Hx. unfold pw, share.
          rewrite (proj2 (Z.leb_le x max_bits)), (proj2 (Z.leb_le x m)), !andb_true_r by lia. destruct (1 <=? x); [|lia]. rewrite <- Z.pow_add_r by lia. f_equal. lia. }
        rewrite E, HF, <- Z.pow_add_r by lia. f_equal. lia. }
    exists depths. split; [|done]. by rewrite HU8.
Qed.
End limit.

(** ** What the lengths are good for *)

(** At most [max_bits] each, a code for exactly the used symbols, and a Kraft
    sum of at most one, equal to one when two symbols or more are used. *)
Record good_lengths (freq : list Z) (max_bits : Z) (lens : list Z) : Prop := {
  gl_len : zlen lens = zlen freq;
  gl_range : Forall (fun l => 0 <= l <= max_bits) lens;
  gl_used : forall i, 0 <= i < zlen freq -> nthZ lens i <> 0 <-> nthZ freq i <> 0;
  gl_kraft : upto lens max_bits <= 2 ^ max_bits;
  gl_full : 2 <= used_symbols freq -> upto lens max_bits = 2 ^ max_bits
}.

Lemma zsum_share_ones freq max_bits :
  1 <= max_bits ->
  zsum (share max_bits) (map (fun f => if negb (f =? 0) then 1 else 0) freq) = used_symbols freq * 2 ^ (max_bits - 1).
Proof.
  intros HM. unfold used_symbols. induction freq as [|f freq IH]; [done|]. cbn [map]. rewrite zsum_cons, IH, list.filter_cons.
  destruct (Z.eqb_spec f 0) as [->|Hf]; cbn [negb].
  - destruct (decide (0 <> 0)); [done|]. cbn [share Z.leb andb]. done.
  - destruct (decide (f <> 0)); [|done]. rewrite zlen_cons. unfold share. rewrite !(proj2 (Z.leb_le _ _)) by lia. cbn [andb]. lia.
Qed.

Lemma few_symbols freq max_bits :
  1 <= max_bits <= 15 -> used_symbols freq <= 1 ->
  good_lengths freq max_bits (map (fun f => if negb (f =? 0) then 1 else 0) freq).
Proof.
  intros HM Hu. split; [by rewrite zlen_map| | | |lia].
  - apply Forall_map, Forall_forall. intros f _. cbn. destruct (negb _); lia.
  - intros i Hi. assert (E : nthZ (map (fun f => if negb (f =? 0) then 1 else 0) freq) i = if negb (nthZ freq i =? 0) then 1 else 0)
      by exact (map_nth (fun f => if negb (f =? 0) then 1 else 0) freq 0 (Z.to_nat i)).
    rewrite E. destruct (Z.eqb_spec (nthZ freq i) 0); cbn [negb]; lia.
  - rewrite upto_zsum, zsum_share_ones by lia. replace max_bits with (1 + (max_bits - 1)) at 2 by lia. rewrite Z.pow_add_r by lia.
    pose proof (Z.pow_nonneg 2 (max_bits - 1) ltac:(lia)). nia.
Qed.

Lemma lengths_ok_good freq max_bits lens : 1 <= max_bits <= 15 -> lengths_ok max_bits freq lens -> good_lengths freq max_bits lens.
Proof. intros HM [HL HR HU HF]. split; try done; rewrite upto_zsum, HF by lia; done. Qed.

Lemma build_lengths_good freq max_bits :
  1 <= max_bits <= 15 -> zlen freq <= 2 ^ max_bits -> exists lens, build_lengths freq max_bits = Ok lens /\ good_lengths freq max_bits lens.
Proof.
  intros HM Hn. unfold build_lengths. cbv zeta.
  assert (Hu : 0 <= used_symbols freq) by apply zlen_nonneg. pose proof (pow_le max_bits 15 ltac:(lia)) as P15.
  destruct (Z.eqb_spec (used_symbols freq) 0) as [E0|E0].
  { eexists. split; [reflexivity|].
    assert (E : map (fun _ => 0) freq = map (fun f => if negb (f =? 0) then 1 else 0) freq).
    { unfold used_symbols in E0. clear - E0. induction freq as [|f freq IH]; [done|]. cbn [map]. rewrite list.filter_cons in E0.
      destruct (decide (f <> 0)) as [|Hf]; [rewrite zlen_cons in E0; zlen_pose; lia|]. rewrite IH by done.
      by destruct (Z.eqb_spec f 0). }
    rewrite E. apply few_symbols; lia. }
  destruct (Z.eqb_spec (used_symbols freq) 1) as [E1|E1].
  { eexists. split; [reflexivity|]. apply few_symbols; lia. }
  assert (H2 : 2 <= zlen (nonzero freq 0)) by (rewrite zlen_nonzero; fold (used_symbols freq); lia).
  unfold MAX_STACK_SYMS. destruct (Z.leb_spec (zlen freq) 512) as [Hs|Hs].
  - destruct (tree_lengths_spec 16 ltac:(lia) max_bits HM (fun n => n <=? 2 * MAX_STACK_SYMS) freq (fun _ => MAX_STACK_SYMS + 1)) as (lens & E & HO);
      [done|done|lia|lia|intros k Hk; apply Z.leb_le; unfold MAX_STACK_SYMS; lia|intros m Hm; unfold MAX_STACK_SYMS; lia|].
    exists lens. split; [exact E|by apply lengths_ok_good].
  - destruct (tree_lengths_spec 32 ltac:(lia) max_bits HM (fun _ => true) freq (fun m => m + 1)) as (lens & E & HO);
      [done|done|lia|lia|done|intros; lia|].
    exists lens. split; [exact E|by apply lengths_ok_good].
Qed.

(** The lengths of an alphabet of the format make a code the decoder accepts. *)
Lemma good_lengths_code freq max_bits lens :
  1 <= max_bits <= 15 -> good_lengths freq max_bits lens -> zlen freq <= MAX_SYMBOLS ->
  lens_ok lens /\ kraft lens /\ forall s, 0 <= s < zlen freq -> nthZ freq s <> 0 -> coded lens s.
Proof.
  intros HM [HL HR HU HK _] Hn. split_and!.
  - split; [by rewrite HL|]. eapply Forall_impl; [exact HR|]. unfold MAX_CODE_BITS. cbn. lia.
  - apply (kraft_of_upto lens max_bits); [lia|done|done].
  - intros s Hs Hf. split; [by rewrite HL|]. apply HU in Hf; [|done]. rewrite Forall_lookup in HR.
    destruct (lookup_lt_is_Some_2 lens (Z.to_nat s)) as [x Hx]; [unfold zlen in *; lia|].
    specialize (HR _ _ Hx). unfold nthZ in *. rewrite (nth_lookup_Some _ _ 0 x Hx) in *. lia.
Qed.

(** C16. For any symbol frequencies (up to [2 ^ max_bits] symbols, [max_bits] at
    most 15) the length builder stays within its arrays and its stack,
    terminates, and gives exactly the used symbols a length of 1 to [max_bits]
    with a Kraft sum of at most one, and of exactly one as soon as two symbols
    are used, however deep the Huffman tree was and however much the limiter
    had to repair; for the alphabets of the format the decoder accepts those
    lengths and decodes the code of every used symbol to that symbol. *)
Theorem build_lengths_prefix_code (freq : list Z) (max_bits : Z) (h0 : HuffmanDecoder) :
  1 <= max_bits <= 15 -> zlen freq <= 2 ^ max_bits ->
  exists lens, build_lengths freq max_bits = Ok lens /\
    zlen lens = zlen freq /\ Forall (fun l => 0 <= l <= max_bits) lens /\
    (forall i, 0 <= i < zlen freq -> nthZ lens i <> 0 <-> nthZ freq i <> 0) /\
    upto lens max_bits <= 2 ^ max_bits /\ (2 <= used_symbols freq -> upto lens max_bits = 2 ^ max_bits) /\
    (zlen freq <= MAX_SYMBOLS -> exists h, build h0 lens = Ok (true, h) /\
       forall s b rest, 0 <= s < zlen freq -> nthZ freq s <> 0 -> bt_bits b = encoded lens s ++ rest ->
         exists b', decode h b = Ok (s, b') /\ bt_bits b' = rest).
Proof.
  intros HM Hn. destruct (build_lengths_good freq max_bits HM Hn) as (lens & E & G). exists lens.
  pose proof G as [HL HR HU HK HF]. split_and!; try done. intros Hm.
  destruct (good_lengths_code freq max_bits lens HM G Hm) as (Hok & K & HC).
  destruct (build_spec h0 lens Hok) as (ok & h & Eb & HKb & HB). destruct ok; [|by apply HKb in K].
  exists h. split; [done|]. intros s b rest Hs Hf Ebits. specialize (HB eq_refl). pose proof (HC s Hs Hf) as Hc.
  rewrite encoded_code in Ebits by done. rewrite (decode_code lens h HB b s rest Hc Ebits). eexists. split; [reflexivity|].
  by rewrite <- (zlen_code_bits lens s Hc), (bt_consume_app b _ _ Ebits).
Qed.

(** Frequencies doubling from one symbol to the next, against a limit of 4 bits. *)
Lemma build_lengths_prefix_code_witness :
  let freq := [1; 1; 2; 4; 8; 0; 16; 32; 64] in
  (exists lens, build_lengths freq 4 = Ok lens /\
    zlen lens = zlen freq /\ Forall (fun l => 0 <= l <= 4) lens /\
    (forall i, 0 <= i < zlen freq -> nthZ lens i <> 0 <-> nthZ freq i <> 0) /\
    upto lens 4 <= 2 ^ 4 /\ (2 <= used_symbols freq -> upto lens 4 = 2 ^ 4) /\
    (zlen freq <= MAX_SYMBOLS -> exists h, build HuffmanDecoder_init lens = Ok (true, h) /\
       forall s b rest, 0 <= s < zlen freq -> nthZ freq s <> 0 -> bt_bits b = encoded lens s ++ rest ->
         exists b', decode h b = Ok (s, b') /\ bt_bits b' = rest)) /\
  build_lengths freq 4 = Ok [4; 4; 4; 4; 4; 0; 4; 3; 1] /\ upto [4; 4; 4; 4; 4; 0; 4; 3; 1] 4 = 16.
Proof.
  split; [|split; vm_compute; reflexivity].
  apply (build_lengths_prefix_code [1; 1; 2; 4; 8; 0; 16; 32; 64] 4 HuffmanDecoder_init); vm_compute; first [done|by split].
Defined.
