(* ===== verification/InflateBits.v ===== *)
(** The bit reader of the DEFLATE decoder
    ([src/compress/inflate.cpp], [Inflate::refill_input] to
    [Inflate::align_byte]).

    Bits are read from the least significant end of each byte.  The input
    callback is a parameter: [ByteInput] is one call, [ByteInputLaws] names
    the bytes a callback delivers until its first short read.  [holds] relates
    a reader to the list of the bits left, and every operation of the reader
    is an operation on that list. *)

From Stdlib Require Import ZArith Lia.
From stdpp Require Import base tactics list numbers.
From S2P Require Import Prelude Bytes Arrays.

Local Open Scope Z_scope.
Local Open Scope size_scope.

(** ** The input callback *)

Class ByteInput (I : Type) := { in_read : I -> Z -> list Z * I }.

(** A read of fewer bytes than asked for is the end of the input. *)
Class ByteInputLaws (I : Type) `{ByteInput I} := {
  in_wf : I -> Prop;
  in_content : I -> list Z;
  in_content_bytes : forall i, in_wf i -> bytes (in_content i);
  in_read_law : forall i n, in_wf i -> 0 < n ->
    in_wf (in_read i n).2 /\ zlen (in_read i n).1 <= n /\
    in_content i = (in_read i n).1 ++ (if zlen (in_read i n).1 <? n then [] else in_content (in_read i n).2)
}.

Definition IN_CHUNK : Z := 65536.

Record Reader (I : Type) := {
  input_fn_ : option I;
  in_buf_ : list Z;          (* what the last read delivered: in_buf_[0 .. in_end_) *)
  in_pos_ : Z;
  in_eof_ : bool;
  bit_acc_ : Z;
  bit_count_ : Z;
  real_bits_ : Z;
  consumed_bits_ : Z;
  truncated_ : bool;
  total_in_ : Z
}.

Arguments input_fn_ {I} r.
Arguments in_buf_ {I} r.
Arguments in_pos_ {I} r.
Arguments in_eof_ {I} r.
Arguments bit_acc_ {I} r.
Arguments bit_count_ {I} r.
Arguments real_bits_ {I} r.
Arguments consumed_bits_ {I} r.
Arguments truncated_ {I} r.
Arguments total_in_ {I} r.

Section reader.
Context {I : Type} `{ByteInput I}.

Definition in_end_ (r : Reader I) : Z := zlen (in_buf_ r).

(** [reset()], with the callback of the next stream. *)
Definition Reader_reset (i : option I) : Reader I :=
  {| input_fn_ := i; in_buf_ := []; in_pos_ := 0; in_eof_ := false; bit_acc_ := 0; bit_count_ := 0; real_bits_ := 0;
     consumed_bits_ := 0; truncated_ := false; total_in_ := 0 |}.

Definition set_bits (r : Reader I) (pos acc n real consumed : Z) : Reader I :=
  {| input_fn_ := input_fn_ r; in_buf_ := in_buf_ r; in_pos_ := pos; in_eof_ := in_eof_ r; bit_acc_ := acc;
     bit_count_ := n; real_bits_ := real; consumed_bits_ := consumed; truncated_ := truncated_ r; total_in_ := total_in_ r |}.

Definition set_truncated (r : Reader I) : Reader I :=
  {| input_fn_ := input_fn_ r; in_buf_ := in_buf_ r; in_pos_ := in_pos_ r; in_eof_ := in_eof_ r; bit_acc_ := bit_acc_ r;
     bit_count_ := bit_count_ r; real_bits_ := real_bits_ r; consumed_bits_ := consumed_bits_ r; truncated_ := true;
     total_in_ := total_in_ r |}.

Definition refill_input (r : Reader I) : bool * Reader I :=
  match input_fn_ r with
  | None => (false, r)
  | Some i =>
      if in_eof_ r then (false, r)
      else
        let '(x, i) := in_read i IN_CHUNK in
        (zlen x >? 0,
         {| input_fn_ := Some i; in_buf_ := x; in_pos_ := 0;
            in_eof_ := if zlen x <? IN_CHUNK then true else in_eof_ r; bit_acc_ := bit_acc_ r; bit_count_ := bit_count_ r;
            real_bits_ := real_bits_ r; consumed_bits_ := consumed_bits_ r; truncated_ := truncated_ r;
            total_in_ := total_in_ r +s zlen x |})
  end.

(** A shift of a 64-bit word by its width or more is undefined. *)
Definition shl64 (x n : Z) : res Z := if n <? 64 then Ok (u64 (Z.shiftl x n)) else Fault.

Definition pull_acc_byte (r : Reader I) : res (bool * Reader I) :=
  let '(ok, r) := if in_pos_ r >=? in_end_ r then refill_input r else (true, r) in
  if negb ok then Ok (false, r)
  else
    b ← byte_at (in_buf_ r) (in_pos_ r);
    x ← shl64 b (bit_count_ r);
    mret (true, set_bits r (in_pos_ r + 1) (Z.lor (bit_acc_ r) x) (u32 (bit_count_ r + 8)) (u32 (real_bits_ r + 8))
                  (consumed_bits_ r)).

(** The eight-byte load shared by [ensure_bits] and [peek_zero_fill]. *)
Definition load_word (r : Reader I) : res (Reader I) :=
  v ← read_le64 (in_buf_ r) (in_pos_ r);
  let n := Z.shiftr (64 - bit_count_ r) 3 in
  acc ← (if n =? 8 then mret v
         else
           m ← shl64 1 (n * 8);
           x ← shl64 (Z.land v (m -s 1)) (bit_count_ r);
           mret (Z.lor (bit_acc_ r) x));
  mret (set_bits r (in_pos_ r + n) acc (u32 (bit_count_ r + n * 8)) (u32 (real_bits_ r + n * 8)) (consumed_bits_ r)).

Definition word_ready (r : Reader I) : bool := (in_end_ r -s in_pos_ r >=? 8) && (bit_count_ r <=? 56).

(** [while (real_bits_ < count) if (!pull_acc_byte()) return false;] *)
Fixpoint ensure_loop (fuel : nat) (count : Z) (r : Reader I) : res (bool * Reader I) :=
  match fuel with
  | O => Fuel
  | S fuel' =>
      if real_bits_ r <? count then
        '(ok, r) ← pull_acc_byte r;
        if negb ok then Ok (false, r) else ensure_loop fuel' count r
      else Ok (true, r)
  end.

Definition ensure_bits (count : Z) (r : Reader I) : res (bool * Reader I) :=
  if real_bits_ r >=? count then Ok (true, r)
  else
    r ← (if word_ready r then load_word r else mret r);
    if real_bits_ r >=? count then Ok (true, r) else ensure_loop (S (Z.to_nat count)) count r.

(** [while (bit_count_ < count) if (!pull_acc_byte()) break;] *)
Fixpoint peek_loop (fuel : nat) (count : Z) (r : Reader I) : res (Reader I) :=
  match fuel with
  | O => Fuel
  | S fuel' =>
      if bit_count_ r <? count then
        '(ok, r) ← pull_acc_byte r;
        if negb ok then Ok r else peek_loop fuel' count r
      else Ok r
  end.

Definition peek_zero_fill (count : Z) (r : Reader I) : res (Z * Reader I) :=
  r ← (if (bit_count_ r <? count) && word_ready r then load_word r else mret r);
  r ← peek_loop (S (Z.to_nat count)) count r;
  if bit_count_ r >=? count
  then m ← shl64 1 count; mret (u32 (Z.land (bit_acc_ r) (m -s 1)), r)
  else mret (u32 (bit_acc_ r), r).

Definition consume (count : Z) (r : Reader I) : Reader I :=
  set_bits r (in_pos_ r) (Z.shiftr (bit_acc_ r) count) (u32 (bit_count_ r - count)) (u32 (real_bits_ r - count))
    (consumed_bits_ r +s count).

Definition get_bits (count : Z) (r : Reader I) : res (Z * Reader I) :=
  '(ok, r) ← ensure_bits count r;
  if negb ok then mret (0, set_truncated r)
  else
    m ← shl64 1 count;
    mret (u32 (Z.land (bit_acc_ r) (m -s 1)), consume count r).

Definition align_byte (r : Reader I) : res (Reader I) :=
  let rem := (8 - consumed_bits_ r mod 8) mod 8 in
  if rem =? 0 then Ok r
  else
    '(ok, r) ← ensure_bits rem r;
    if negb ok then mret (set_truncated r) else mret (consume rem r).

End reader.

(** ** Bits, the least significant first *)

Fixpoint lval (l : list bool) : Z := match l with [] => 0 | b :: l => Z.b2z b + 2 * lval l end.

Definition byte_bits (b : Z) : list bool := map (fun i => Z.testbit b (Z.of_nat i)) (seq 0 8).

Definition bits_of (l : list Z) : list bool := mjoin (map byte_bits l).

Lemma lval_app a b : lval (a ++ b) = lval a + 2 ^ zlen a * lval b.
Proof.
  induction a as [|x a IH]; [cbn [app lval]; change (zlen (@nil bool)) with 0; lia|].
  cbn [app lval]. rewrite IH, zlen_cons, Z.pow_add_r by (zlen_pose; lia). change (2 ^ 1) with 2. lia.
Qed.

Lemma lval_range l : 0 <= lval l < 2 ^ zlen l.
Proof.
  induction l as [|x l IH]; [change (zlen (@nil bool)) with 0; cbn; lia|]. cbn [lval]. rewrite zlen_cons, Z.pow_add_r by (zlen_pose; lia).
  change (2 ^ 1) with 2. destruct x; cbn [Z.b2z]; lia.
Qed.

Lemma byte_bits_val b : is_byte b -> lval (byte_bits b) = b.
Proof.
  intros Hb. apply Z.eqb_eq. revert b Hb. apply byte_forall. vm_compute. reflexivity.
Qed.

Lemma zlen_byte_bits b : zlen (byte_bits b) = 8.
Proof. reflexivity. Qed.

Lemma bits_of_cons b l : bits_of (b :: l) = byte_bits b ++ bits_of l.
Proof. reflexivity. Qed.

Lemma bits_of_app a b : bits_of (a ++ b) = bits_of a ++ bits_of b.
Proof. unfold bits_of. now rewrite map_app, join_app. Qed.

Lemma zlen_bits_of l : zlen (bits_of l) = 8 * zlen l.
Proof. induction l as [|b l IH]; [reflexivity|]. rewrite bits_of_cons, zlen_app, zlen_byte_bits, zlen_cons, IH. lia. Qed.

Lemma bits_of_val l : bytes l -> lval (bits_of l) = le_val l.
Proof.
  induction 1 as [|b l Hb Hl IH]; [reflexivity|]. rewrite bits_of_cons, lval_app, byte_bits_val, zlen_byte_bits, IH by exact Hb.
  reflexivity.
Qed.

Lemma lval_land_ones l n : 0 <= n -> Z.land (lval l) (Z.ones n) = lval (take (Z.to_nat n) l).
Proof.
  intros Hn. rewrite Z.land_ones by lia. destruct (Z.le_gt_cases n (zlen l)) as [H|H].
  - rewrite <- (take_drop (Z.to_nat n) l) at 1. rewrite lval_app, zlen_take by (zlen_pose; lia).
    rewrite (Z.mul_comm (2 ^ n)), Z_mod_plus_full. apply Z.mod_small.
    assert (R := lval_range (take (Z.to_nat n) l)). now rewrite zlen_take in R by (zlen_pose; lia).
  - rewrite take_ge by (unfold zlen in H; lia). apply Z.mod_small. assert (R := lval_range l).
    assert (2 ^ zlen l <= 2 ^ n) by (apply Z.pow_le_mono_r; lia). lia.
Qed.

Lemma lval_shiftr l n : 0 <= n <= zlen l -> Z.shiftr (lval l) n = lval (drop (Z.to_nat n) l).
Proof.
  intros H. rewrite Z.shiftr_div_pow2 by lia. rewrite <- (take_drop (Z.to_nat n) l) at 1.
  rewrite lval_app, zlen_take by lia. rewrite Z.mul_comm, Z.div_add by (apply Z.pow_nonzero; lia).
  rewrite Z.div_small; [lia|]. assert (R := lval_range (take (Z.to_nat n) l)). now rewrite zlen_take in R by lia.
Qed.

(** Bits appended above an accumulator. *)
Lemma lval_append l m : zlen l + zlen m <= 64 -> Z.lor (lval l) (u64 (Z.shiftl (lval m) (zlen l))) = lval (l ++ m).
Proof.
  intros H. assert (R1 := lval_range l). assert (R2 := lval_range m).
  rewrite wrap_small; [|rewrite Z.shiftl_mul_pow2 by (zlen_pose; lia)].
  - rewrite lor_shiftl_add by (zlen_pose; lia). rewrite lval_app. lia.
  - assert (lval m * 2 ^ zlen l < 2 ^ 64); [|zlen_pose; nia].
    apply Z.lt_le_trans with (2 ^ zlen m * 2 ^ zlen l); [apply Z.mul_lt_mono_pos_r; [apply Z.pow_pos_nonneg; zlen_pose; lia | lia]|].
    rewrite <- Z.pow_add_r by (zlen_pose; lia). apply Z.pow_le_mono_r; [lia | lia].
Qed.

(** ** What a reader holds *)

Section exact.
Context {I : Type} `{ByteInputLaws I}.

(** The bytes that no read has taken yet. *)
Definition rest_bytes (r : Reader I) : list Z :=
  view (in_buf_ r) (in_pos_ r) ++
  match input_fn_ r with Some i => if in_eof_ r then [] else in_content i | None => [] end.

(** [r] is in a sound state and [bs] are the bits left. *)
Record holds (r : Reader I) (bs : list bool) : Prop := {
  ho_pos : 0 <= in_pos_ r <= in_end_ r;
  ho_bytes : bytes (in_buf_ r);
  ho_real : real_bits_ r = bit_count_ r;
  ho_count : 0 <= bit_count_ r <= 64;
  ho_aligned : (consumed_bits_ r + bit_count_ r) mod 8 = 0;
  ho_consumed : 0 <= consumed_bits_ r < 2 ^ 64;
  ho_size : in_end_ r <= IN_CHUNK;
  ho_input : forall i, input_fn_ r = Some i -> in_wf i;
  ho_bits : exists acc, zlen acc = bit_count_ r /\ bit_acc_ r = lval acc /\ bs = acc ++ bits_of (rest_bytes r)
}.

(** What the operations leave alone. *)
Definition same_flags (r r' : Reader I) : Prop :=
  consumed_bits_ r' = consumed_bits_ r /\ truncated_ r' = truncated_ r.

Lemma same_refl r : same_flags r r.
Proof. split; reflexivity. Qed.

Lemma same_trans r r' r'' : same_flags r r' -> same_flags r' r'' -> same_flags r r''.
Proof. intros [H1 H2] [H3 H4]. split; congruence. Qed.

Lemma view_all (l : list Z) i : zlen l <= i -> view l i = [].
Proof. intros Hl. unfold view. apply drop_ge. unfold zlen in Hl. lia. Qed.

(** A refill: more bytes, or the end of the input. *)
Lemma refill_holds r bs :
  holds r bs -> in_end_ r <= in_pos_ r ->
  let '(ok, r') := refill_input r in
  holds r' bs /\ same_flags r r' /\ bit_count_ r' = bit_count_ r /\ bit_acc_ r' = bit_acc_ r /\
  (ok = true -> in_pos_ r' < in_end_ r') /\ (ok = false -> rest_bytes r' = []).
Proof.
  intros Hr He. assert (Hr' := Hr). destruct Hr' as [P1 P2 P3 P4 P5 P5' P6 Pw (acc & A1 & A2 & A3)]. unfold refill_input.
  assert (Hv : view (in_buf_ r) (in_pos_ r) = []) by (apply view_all; exact He).
  destruct (input_fn_ r) as [i|] eqn:Ei.
  - destruct (in_eof_ r) eqn:Ee.
    + split_and!; auto; [apply same_refl | discriminate |].
      intros _. unfold rest_bytes. now rewrite Hv, Ei, Ee.
    + destruct (in_read_law i IN_CHUNK) as (L0 & L1 & L2); [now apply Pw | unfold IN_CHUNK; lia|].
      destruct (in_read i IN_CHUNK) as [x i'] eqn:Er. cbn [fst snd] in *.
      assert (Hb := in_content_bytes i (Pw i eq_refl)). rewrite L2 in Hb. apply Forall_app in Hb as [Hb _].
      assert (Hrest : rest_bytes r = x ++ (if zlen x <? IN_CHUNK then [] else in_content i'))
        by (unfold rest_bytes; rewrite Hv, Ei, Ee; exact L2).
      split_and!; cbn; auto.
      * split; cbn; auto; [unfold in_end_; cbn; zlen_pose; lia | now intros ? [= <-] |].
        exists acc. split_and!; auto. rewrite A3, Hrest. do 2 f_equal. unfold rest_bytes; cbn. rewrite view_0.
        f_equal. destruct (zlen x <? IN_CHUNK); reflexivity.
      * split; reflexivity.
      * unfold in_end_; cbn. intros Hx. lia.
      * intros Hx. assert (x = []) as -> by (apply zlen_zero_nil; zlen_pose; lia). unfold rest_bytes. cbn. reflexivity.
  - split_and!; auto; [apply same_refl | discriminate |].
    intros _. unfold rest_bytes. now rewrite Hv, Ei.
Qed.

Lemma view_head (l : list Z) i : 0 <= i < zlen l -> exists b, byte_at l i = Ok b /\ view l i = b :: view l (i + 1).
Proof.
  intros Hi. destruct (lookup_lt_is_Some_2 l (Z.to_nat i)) as [b Hb]; [unfold zlen in Hi; lia|].
  exists b. unfold byte_at, view. rewrite (proj2 (Z.ltb_ge _ _)), Hb by lia. split; [reflexivity|].
  replace (Z.to_nat (i + 1)) with (S (Z.to_nat i)) by lia. now apply drop_S.
Qed.

Lemma holds_count r bs : holds r bs -> bit_count_ r <= zlen bs /\ zlen bs = bit_count_ r + 8 * zlen (rest_bytes r).
Proof. intros [_ _ _ _ _ _ _ _ (acc & A1 & _ & ->)]. rewrite zlen_app, zlen_bits_of. zlen_pose. lia. Qed.

Lemma pull_holds r bs :
  holds r bs -> bit_count_ r <= 56 ->
  exists ok r', pull_acc_byte r = Ok (ok, r') /\ holds r' bs /\ same_flags r r' /\
    (ok = true -> bit_count_ r' = bit_count_ r + 8) /\
    (ok = false -> bit_count_ r' = bit_count_ r /\ rest_bytes r' = []).
Proof.
  intros Hr Hn. unfold pull_acc_byte.
  assert (Hstart : exists ok r1, (if in_pos_ r >=? in_end_ r then refill_input r else (true, r)) = (ok, r1) /\
            holds r1 bs /\ same_flags r r1 /\ bit_count_ r1 = bit_count_ r /\ bit_acc_ r1 = bit_acc_ r /\
            (ok = true -> in_pos_ r1 < in_end_ r1) /\ (ok = false -> rest_bytes r1 = [])).
  { destruct (Z.geb_spec (in_pos_ r) (in_end_ r)) as [He|He].
    - assert (G := refill_holds r bs Hr He). destruct (refill_input r) as [ok r1]. exists ok, r1. auto.
    - exists true, r. split_and!; auto; [apply same_refl | discriminate]. }
  destruct Hstart as (ok & r1 & -> & H1 & Hf & Hc & Ha & Ht & He). destruct ok; cbn [negb].
  - specialize (Ht eq_refl). destruct H1 as [P1 P2 P3 P4 P5 P5' P6 Pw (acc & A1 & A2 & A3)].
    destruct (view_head (in_buf_ r1) (in_pos_ r1)) as (b & Hb & Hv); [unfold in_end_ in *; lia|].
    rewrite Hb, bind_ok. unfold shl64. rewrite (proj2 (Z.ltb_lt _ _)) by lia. rewrite bind_ok.
    assert (Hbyte : is_byte b).
    { assert (Hx := bytes_view (in_buf_ r1) (in_pos_ r1) P2). rewrite Hv in Hx. now apply Forall_inv in Hx. }
    eexists true, _. split; [reflexivity|]. rewrite Hc in *.
    split; [|split; [destruct Hf; split; assumption | split; [intros _; cbn; rewrite wrap_small by lia; reflexivity | discriminate]]].
    split; cbn; auto.
    + unfold in_end_ in *. cbn [in_buf_ set_bits]. lia.
    + rewrite P3. reflexivity.
    + rewrite wrap_small by lia. lia.
    + rewrite wrap_small by lia. rewrite Z.add_assoc, <- (Z.mul_1_l 8) at 1. rewrite Z_mod_plus_full. exact P5.
    + exists (acc ++ byte_bits b). rewrite wrap_small by lia. rewrite zlen_app, zlen_byte_bits. split_and!; [lia| |].
      * rewrite A2, <- (byte_bits_val b Hbyte) at 1. rewrite <- A1. apply lval_append. rewrite zlen_byte_bits. lia.
      * rewrite A3. unfold rest_bytes. cbn. rewrite Hv. cbn [app]. rewrite bits_of_cons, <- app_assoc. reflexivity.
  - exists false, r1. split_and!; auto. discriminate.
Qed.

Lemma bits_take_view (l : list Z) i n : 0 <= i -> 0 <= n -> view l i = take (Z.to_nat n) (view l i) ++ view l (i + n).
Proof.
  intros Hi Hn. unfold view. rewrite <- (take_drop (Z.to_nat n) (drop (Z.to_nat i) l)) at 1. f_equal.
  rewrite drop_drop. f_equal. lia.
Qed.

Lemma load_holds r bs :
  holds r bs -> word_ready r = true ->
  exists r', load_word r = Ok r' /\ holds r' bs /\ same_flags r r' /\ 57 <= bit_count_ r' <= 64.
Proof.
  intros [P1 P2 P3 P4 P5 P5' P6 Pw (acc & A1 & A2 & A3)] Hw. unfold word_ready in Hw.
  unfold IN_CHUNK in P6. rewrite size_sub_small in Hw by lia. apply andb_true_iff in Hw as [W1 W2].
  unfold load_word. set (n := Z.shiftr (64 - bit_count_ r) 3).
  assert (Hn : n = (64 - bit_count_ r) / 8) by (unfold n; rewrite Z.shiftr_div_pow2 by lia; reflexivity).
  assert (Hnb : 1 <= n <= 8 /\ 57 <= bit_count_ r + n * 8 <= 64) by (rewrite Hn; dlia). clearbody n.
  set (w := take 8 (view (in_buf_ r) (in_pos_ r))).
  assert (Hvl : zlen (view (in_buf_ r) (in_pos_ r)) = in_end_ r - in_pos_ r) by (apply zlen_view; exact P1).
  assert (Hw8 : zlen w = 8) by (unfold w; change 8%nat with (Z.to_nat 8); apply zlen_take; lia).
  rewrite (read_le64_view _ _ w (drop 8 (view (in_buf_ r) (in_pos_ r)))) by (auto; try lia; symmetry; apply take_drop).
  rewrite bind_ok.
  assert (Hbw : bytes w) by (apply bytes_take, bytes_view, P2).
  set (x := take (Z.to_nat n) (view (in_buf_ r) (in_pos_ r))).
  assert (Hxl : zlen x = n) by (apply zlen_take; lia).
  assert (Hx : x = take (Z.to_nat n) w) by (unfold x, w; rewrite take_take; f_equal; lia).
  assert (Hbx : bytes x) by (apply bytes_take, bytes_view, P2).
  assert (Hacc : (if n =? 8 then mret (le_val w)
                  else m ← shl64 1 (n * 8); x ← shl64 (Z.land (le_val w) (m -s 1)) (bit_count_ r); mret (Z.lor (bit_acc_ r) x)) =
                 Ok (lval (acc ++ bits_of x))).
  { destruct (Z.eqb_spec n 8) as [E|E].
    - assert (acc = []) as -> by (apply zlen_zero_nil; zlen_pose; lia).
      rewrite Hx, E, take_ge by (unfold zlen in Hw8; lia). cbn [app]. now rewrite bits_of_val.
    - unfold shl64. rewrite !(proj2 (Z.ltb_lt _ 64)) by lia. rewrite !bind_ok.
      assert (Hp : 0 <= n * 8 <= 56) by lia.
      assert (Hm : (u64 (Z.shiftl 1 (n * 8)) -s 1) = Z.ones (n * 8)).
      { assert (2 ^ (n * 8) <= 2 ^ 56) by (apply Z.pow_le_mono_r; lia).
        assert (0 < 2 ^ (n * 8)) by (apply Z.pow_pos_nonneg; lia).
        rewrite Z.shiftl_1_l, (wrap_small 64) by lia. rewrite size_sub_small by lia. rewrite Z.ones_equiv. lia. }
      rewrite Hm, <- bits_of_val, lval_land_ones by (auto; lia).
      replace (take (Z.to_nat (n * 8)) (bits_of w)) with (bits_of x).
      + unfold mret, res_ret. f_equal. rewrite A2, <- A1. apply lval_append. rewrite zlen_bits_of. lia.
      + rewrite Hx. rewrite <- (take_drop (Z.to_nat n) w) at 2. rewrite bits_of_app, take_app_length'; [reflexivity|].
        assert (L := zlen_bits_of (take (Z.to_nat n) w)). rewrite <- Hx, Hxl in L. rewrite <- Hx. unfold zlen in L. lia. }
  rewrite Hacc, bind_ok. eexists. split; [reflexivity|]. split; [|split; [split; reflexivity|]].
  2: { cbn. rewrite wrap_small by lia. lia. }
  split; cbn; auto.
  - unfold in_end_ in *. cbn [in_buf_ set_bits]. lia.
  - now rewrite P3.
  - rewrite wrap_small by lia. lia.
  - rewrite wrap_small by lia. rewrite Z.add_assoc, Z_mod_plus_full. exact P5.
  - exists (acc ++ bits_of x). rewrite wrap_small by lia. rewrite zlen_app, zlen_bits_of. split_and!; [lia | reflexivity |].
    rewrite A3, <- app_assoc. f_equal. unfold rest_bytes. cbn.
    rewrite (bits_take_view (in_buf_ r) (in_pos_ r) n) at 1 by lia. fold x. now rewrite <- app_assoc, bits_of_app.
Qed.

Lemma holds_real r bs : holds r bs -> real_bits_ r = bit_count_ r /\ 0 <= bit_count_ r <= zlen bs.
Proof. intros Hr. destruct (holds_count r bs Hr). destruct Hr. auto with lia. Qed.

(** When no byte is left the accumulator holds everything. *)
Lemma holds_drained r bs : holds r bs -> rest_bytes r = [] -> zlen bs = bit_count_ r.
Proof. intros Hr He. destruct (holds_count r bs Hr) as [_ E]. rewrite He in E. change (zlen (@nil Z)) with 0 in E. lia. Qed.

Lemma ensure_loop_holds fuel count r bs :
  holds r bs -> 0 <= count <= 57 -> count - bit_count_ r <= 8 * Z.of_nat fuel ->
  exists r', ensure_loop (S fuel) count r = Ok (count <=? zlen bs, r') /\ holds r' bs /\ same_flags r r' /\
    (count <= zlen bs -> count <= bit_count_ r').
Proof.
  revert r. induction fuel as [|fuel IH]; intros r Hr Hc Hf; destruct (holds_real r bs Hr) as [E1 E2];
    cbn [ensure_loop]; rewrite E1; destruct (Z.ltb_spec (bit_count_ r) count) as [Hl|Hl]; try lia.
  1, 3: exists r; rewrite (proj2 (Z.leb_le _ _)) by lia; split_and!; auto; apply same_refl.
  destruct (pull_holds r bs Hr) as (ok & r1 & -> & H1 & Hs & Ht & He); [lia|]. rewrite bind_ok.
  destruct ok; cbn [negb].
  - specialize (Ht eq_refl). destruct (IH r1 H1 Hc) as (r2 & H2 & H3 & H4 & H5); [lia|].
    exists r2. split_and!; auto. eapply same_trans; eassumption.
  - destruct (He eq_refl) as [Hb Hr1]. assert (Hd := holds_drained r1 bs H1 Hr1).
    exists r1. rewrite (proj2 (Z.leb_gt _ _)) by lia. split_and!; auto. lia.
Qed.

Lemma load_opt c r bs :
  holds r bs ->
  exists r', (if c && word_ready r then load_word r else mret r) = Ok r' /\ holds r' bs /\ same_flags r r'.
Proof.
  intros Hr. destruct c; cbn [andb]; [|exists r; split_and!; auto; apply same_refl].
  destruct (word_ready r) eqn:Hw; [|exists r; split_and!; auto; apply same_refl].
  destruct (load_holds r bs Hr Hw) as (r' & H1 & H2 & H3 & _). eauto.
Qed.

Lemma ensure_holds count r bs :
  holds r bs -> 0 <= count <= 57 ->
  exists r', ensure_bits count r = Ok (count <=? zlen bs, r') /\ holds r' bs /\ same_flags r r' /\
    (count <= zlen bs -> count <= bit_count_ r').
Proof.
  intros Hr Hc. destruct (holds_real r bs Hr) as [E1 E2]. unfold ensure_bits. rewrite E1.
  destruct (Z.geb_spec (bit_count_ r) count) as [Hl|Hl].
  { exists r. rewrite (proj2 (Z.leb_le _ _)) by lia. split_and!; auto. apply same_refl. }
  destruct (load_opt true r bs Hr) as (r1 & H1 & H2 & H3). cbn [andb] in H1. rewrite H1, bind_ok.
  destruct (holds_real r1 bs H2) as [F1 F2]. rewrite F1.
  destruct (Z.geb_spec (bit_count_ r1) count) as [Hl1|Hl1].
  { exists r1. rewrite (proj2 (Z.leb_le _ _)) by lia. split_and!; auto. }
  destruct (ensure_loop_holds (Z.to_nat count) count r1 bs H2 Hc) as (r2 & G1 & G2 & G3 & G4); [lia|].
  exists r2. split_and!; auto. eapply same_trans; eassumption.
Qed.

Lemma peek_loop_holds fuel count r bs :
  holds r bs -> 0 <= count <= 57 -> count - bit_count_ r <= 8 * Z.of_nat fuel ->
  exists r', peek_loop (S fuel) count r = Ok r' /\ holds r' bs /\ same_flags r r' /\
    (count <= bit_count_ r' \/ bit_count_ r' = zlen bs).
Proof.
  revert r. induction fuel as [|fuel IH]; intros r Hr Hc Hf; destruct (holds_real r bs Hr) as [E1 E2];
    cbn [peek_loop]; destruct (Z.ltb_spec (bit_count_ r) count) as [Hl|Hl]; try lia.
  1, 3: exists r; split_and!; auto; apply same_refl.
  destruct (pull_holds r bs Hr) as (ok & r1 & -> & H1 & Hs & Ht & He); [lia|]. rewrite bind_ok.
  destruct ok; cbn [negb].
  - specialize (Ht eq_refl). destruct (IH r1 H1 Hc) as (r2 & H2 & H3 & H4 & H5); [lia|].
    exists r2. split_and!; auto. eapply same_trans; eassumption.
  - destruct (He eq_refl) as [Hb Hr1]. assert (Hd := holds_drained r1 bs H1 Hr1). exists r1. split_and!; auto.
Qed.

Lemma mask_ones count : 0 <= count <= 57 -> (u64 (Z.shiftl 1 count) -s 1) = Z.ones count.
Proof.
  intros Hc. assert (2 ^ count <= 2 ^ 57) by (apply Z.pow_le_mono_r; lia).
  assert (0 < 2 ^ count) by (apply Z.pow_pos_nonneg; lia).
  rewrite Z.shiftl_1_l, (wrap_small 64) by lia. rewrite size_sub_small by lia. rewrite Z.ones_equiv. lia.
Qed.

Lemma lval_take_small (l : list bool) count : 0 <= count <= 32 -> u32 (lval (take (Z.to_nat count) l)) = lval (take (Z.to_nat count) l).
Proof.
  intros Hc. apply wrap_small. assert (R := lval_range (take (Z.to_nat count) l)).
  assert (L : zlen (take (Z.to_nat count) l) <= count) by (unfold zlen; rewrite length_take; lia).
  assert (2 ^ zlen (take (Z.to_nat count) l) <= 2 ^ 32) by (apply Z.pow_le_mono_r; lia). lia.
Qed.

(** The bits at the front of the accumulator are the bits left. *)
Lemma acc_mask r bs count :
  holds r bs -> 0 <= count -> count <= bit_count_ r -> Z.land (bit_acc_ r) (Z.ones count) = lval (take (Z.to_nat count) bs).
Proof.
  intros [_ _ _ _ _ _ _ _ (acc & A1 & A2 & ->)] Hc Hl. rewrite A2, lval_land_ones by lia. f_equal.
  rewrite take_app_le; [reflexivity | unfold zlen in A1; lia].
Qed.

Lemma peek_holds count r bs :
  holds r bs -> 0 <= count <= 32 ->
  exists r', peek_zero_fill count r = Ok (lval (take (Z.to_nat count) bs), r') /\ holds r' bs /\ same_flags r r' /\
    Z.min count (zlen bs) <= bit_count_ r'.
Proof.
  intros Hr Hc. destruct (load_opt (bit_count_ r <? count) r bs Hr) as (r1 & H1 & H2 & H3).
  unfold peek_zero_fill. rewrite H1, bind_ok.
  assert (Hb := holds_real r1 bs H2). destruct Hb as [_ Hb].
  destruct (peek_loop_holds (Z.to_nat count) count r1 bs H2) as (r2 & G1 & G2 & G3 & G4); [lia | lia |].
  rewrite G1, bind_ok. destruct (holds_real r2 bs G2) as [_ Hb2].
  destruct (Z.geb_spec (bit_count_ r2) count) as [Hl|Hl].
  - unfold shl64. rewrite (proj2 (Z.ltb_lt _ _)) by lia. rewrite bind_ok, mask_ones by lia.
    rewrite (acc_mask r2 bs) by (auto; lia). rewrite lval_take_small by lia.
    exists r2. split_and!; auto; [eapply same_trans; eassumption | lia].
  - destruct G4 as [G4|G4]; [lia|]. exists r2. split_and!; auto; [|eapply same_trans; eassumption | lia].
    destruct G2 as [_ _ _ _ _ _ _ _ (acc & A1 & A2 & A3)].
    assert (Hrest : bits_of (rest_bytes r2) = []).
    { apply zlen_zero_nil. rewrite A3, zlen_app in G4. lia. }
    rewrite Hrest, app_nil_r in A3. subst acc. unfold mret, res_ret. rewrite A2.
    rewrite take_ge by (unfold zlen in *; lia). f_equal. f_equal.
    rewrite <- (take_ge bs (Z.to_nat count)) by (unfold zlen in *; lia). now apply lval_take_small.
Qed.

Lemma consume_holds n r bs :
  holds r bs -> 0 <= n <= bit_count_ r -> holds (consume n r) (drop (Z.to_nat n) bs).
Proof.
  intros [P1 P2 P3 P4 P5 P5' P6 Pw (acc & A1 & A2 & A3)] Hn. unfold consume. split; cbn; auto.
  - now rewrite P3.
  - rewrite wrap_small by lia. lia.
  - rewrite wrap_small by lia. unfold size_add, u64, wrap.
    rewrite <- P5. replace (consumed_bits_ r + bit_count_ r) with (consumed_bits_ r + n + (bit_count_ r - n)) by lia.
    assert (Hm := Z.mod_mod_divide (consumed_bits_ r + n) (2 ^ 64) 8 ltac:(exists (2 ^ 61); reflexivity)).
    rewrite <- Zplus_mod_idemp_l, Hm, Zplus_mod_idemp_l. reflexivity.
  - apply wrap_range. lia.
  - exists (drop (Z.to_nat n) acc). rewrite wrap_small by lia. rewrite zlen_drop by lia. split_and!; [lia | |].
    + rewrite A2. apply lval_shiftr. lia.
    + rewrite A3, drop_app_le by (unfold zlen in A1; lia). reflexivity.
Qed.

(** [get_bits]: the bits, or the truncation flag. *)
Lemma get_bits_holds n r bs :
  holds r bs -> 0 <= n <= 32 ->
  exists r', get_bits n r = Ok (if n <=? zlen bs then lval (take (Z.to_nat n) bs) else 0, r') /\
    (n <= zlen bs -> holds r' (drop (Z.to_nat n) bs) /\ consumed_bits_ r' = consumed_bits_ r +s n /\ truncated_ r' = truncated_ r) /\
    (zlen bs < n -> holds r' bs /\ consumed_bits_ r' = consumed_bits_ r /\ truncated_ r' = true).
Proof.
  intros Hr Hn. destruct (ensure_holds n r bs Hr) as (r1 & H1 & H2 & [H3 H4] & H5); [lia|].
  unfold get_bits. rewrite H1, bind_ok. destruct (Z.leb_spec n (zlen bs)) as [Hl|Hl]; cbn [negb].
  - specialize (H5 Hl). unfold shl64. rewrite (proj2 (Z.ltb_lt _ _)) by lia. rewrite bind_ok, mask_ones by lia.
    rewrite (acc_mask r1 bs) by (auto; lia). rewrite lval_take_small by lia.
    eexists. split; [reflexivity|]. split; [|lia]. intros _. split; [apply consume_holds; auto; lia|]. cbn. now rewrite H3.
  - eexists. split; [reflexivity|]. split; [lia|]. intros _. cbn. split; [|auto].
    destruct H2 as [P1 P2 P3 P4 P5 P5' P6 Pw P7]. now split.
Qed.

(** [align_byte] never runs out of bits: it drops those of the byte begun. *)
Lemma align_holds r bs :
  holds r bs ->
  exists r', align_byte r = Ok r' /\ holds r' (drop (Z.to_nat (zlen bs mod 8)) bs) /\
    consumed_bits_ r' = consumed_bits_ r +s (zlen bs mod 8) /\ truncated_ r' = truncated_ r.
Proof.
  intros Hr. assert (Hrem : (8 - consumed_bits_ r mod 8) mod 8 = zlen bs mod 8).
  { destruct (holds_count r bs Hr) as [_ E]. destruct Hr as [_ _ _ _ P5 _ _ _ _]. rewrite E. dlia. }
  unfold align_byte. rewrite Hrem. assert (Hm := Z.mod_pos_bound (zlen bs) 8 ltac:(lia)).
  assert (Hle : zlen bs mod 8 <= zlen bs) by (apply Z.mod_le; zlen_pose; lia).
  destruct (Z.eqb_spec (zlen bs mod 8) 0) as [E|E].
  - rewrite E. exists r. split; [reflexivity|]. split; [exact Hr|]. split; [|reflexivity].
    destruct Hr as [_ _ _ _ _ P _ _]. unfold size_add. rewrite Z.add_0_r. symmetry. now apply wrap_small.
  - destruct (ensure_holds (zlen bs mod 8) r bs Hr) as (r1 & H1 & H2 & [H3 H4] & H5); [lia|].
    rewrite H1, bind_ok. rewrite (proj2 (Z.leb_le _ _)) by lia. cbn [negb]. eexists. split; [reflexivity|].
    specialize (H5 Hle). split; [apply consume_holds; auto; lia|]. cbn. now rewrite H3.
Qed.

Lemma reset_holds i : in_wf i -> holds (Reader_reset (Some i)) (bits_of (in_content i)).
Proof.
  intros Hi. split; cbn; try lia; [change (0 <= 0 <= 0); lia | constructor | reflexivity | change (0 <= IN_CHUNK); unfold IN_CHUNK; lia | now intros ? [= <-] |].
  exists []. split_and!; reflexivity.
Qed.

End exact.
