(* ===== verification/InflateTable.v ===== *)
(** The Huffman tables of the DEFLATE decoder
    ([src/compress/inflate.cpp], [Inflate::HuffmanTable] and
    [Inflate::next_symbol]).

    A table is built from code lengths; symbols are resolved through a root
    table over nine zero-filled bits and, for longer codes, by the canonical
    ranges.  [resolve] is the specification over the canonical codes of
    [Huffman]: the symbol whose code the bits start with. *)

From Stdlib Require Import ZArith Lia.
From stdpp Require Import base tactics list numbers.
From S2P Require Import Prelude Bytes Arrays BitReader Huffman InflateBits.

Local Open Scope Z_scope.

Module HuffmanTable.

Definition ROOT_BITS : Z := 9.
Definition ROOT_SIZE : Z := Z.shiftl 1 ROOT_BITS.
Definition MAX_BITS : Z := 15.
Definition MAX_SYMBOLS : Z := 288.

Record HuffmanTable := {
  counts : list Z;
  symbols : list Z;
  first_code : list Z;
  first_index : list Z;
  complete : bool;
  root : list Z
}.

Definition HuffmanTable_init : HuffmanTable :=
  {| counts := replicate 16 0; symbols := replicate 288 0; first_code := replicate 16 0; first_index := replicate 16 0;
     complete := false; root := replicate (Z.to_nat ROOT_SIZE) 0 |}.

Definition reverse_bits (value nbits : Z) : Z :=
  foldl (fun out i => Z.lor (u32 (Z.shiftl out 1)) (Z.land (Z.shiftr value i) 1)) 0 (seqZ 0 nbits).

(** The first loop: the counts and the Kraft sum, or nothing when a length is
    too large. *)
Fixpoint count_loop (lens counts : list Z) (sum : Z) : option (list Z * Z) :=
  match lens with
  | [] => Some (counts, sum)
  | l :: lens =>
      if l >? MAX_BITS then None
      else
        let counts := setZ counts l (u16 (nthZ counts l + 1)) in
        count_loop lens counts (if l >? 0 then u32 (sum + Z.shiftl 1 (MAX_BITS - l)) else sum)
  end.

(** [for (len = 1; len <= MAX_BITS; ++len)]: [k] lengths are left. *)
Fixpoint canon_loop (k : nat) (counts : list Z) (code idx : Z) (fc fi : list Z) : list Z * list Z :=
  match k with
  | O => (fc, fi)
  | S k' =>
      let len := 16 - Z.of_nat k in
      canon_loop k' counts (u32 (Z.shiftl (u32 (code + nthZ counts len)) 1)) (u16 (idx + nthZ counts len))
        (setZ fc len code) (setZ fi len idx)
  end.

(** [symbols[next[lengths[sym]]++] = sym] *)
Fixpoint symbols_loop (lens : list Z) (sym : Z) (next symbols : list Z) : res (list Z) :=
  match lens with
  | [] => Ok symbols
  | l :: lens =>
      if l >? 0 then
        symbols ← store symbols (nthZ next l) [u16 sym];
        symbols_loop lens (sym + 1) (setZ next l (u16 (nthZ next l + 1))) symbols
      else symbols_loop lens (sym + 1) next symbols
  end.

(** [for (r_idx = rev; r_idx < ROOT_SIZE; r_idx += step) root[r_idx] = entry] *)
Fixpoint fill_root (fuel : nat) (r_idx step entry : Z) (root : list Z) : res (list Z) :=
  match fuel with
  | O => Fuel
  | S fuel' =>
      if r_idx <? ROOT_SIZE then
        root ← store root r_idx [entry];
        fill_root fuel' (u32 (r_idx + step)) step entry root
      else Ok root
  end.

Fixpoint root_loop (lens : list Z) (sym : Z) (next_code root : list Z) : res (list Z) :=
  match lens with
  | [] => Ok root
  | len :: lens =>
      if (len =? 0) || (len >? ROOT_BITS) then root_loop lens (sym + 1) next_code root
      else
        let rev := reverse_bits (nthZ next_code len) len in
        root ← fill_root (S (Z.to_nat ROOT_SIZE)) rev (Z.shiftl 1 len) (Z.lor (Z.shiftl len 16) sym) root;
        root_loop lens (sym + 1) (setZ next_code len (u32 (nthZ next_code len + 1))) root
  end.

(** [None] is [return false]; the table is not used then. *)
Definition build (lens : list Z) (allow_incomplete : bool) : res (option HuffmanTable) :=
  if zlen lens >? MAX_SYMBOLS then Ok None
  else
    match count_loop lens (replicate 16 0) 0 with
    | None => Ok None
    | Some (counts, sum) =>
        if sum >? Z.shiftl 1 MAX_BITS then Ok None
        else
          let complete := sum =? Z.shiftl 1 MAX_BITS in
          if negb complete && negb allow_incomplete then Ok None
          else
            let '(fc, fi) := canon_loop 15 counts 0 0 (replicate 16 0) (replicate 16 0) in
            symbols ← symbols_loop lens 0 fi (replicate 288 0);
            root ← root_loop lens 0 fc (replicate (Z.to_nat ROOT_SIZE) 0);
            mret (Some {| counts := counts; symbols := symbols; first_code := fc; first_index := fi;
                          complete := complete; root := root |})
    end.

(** [decode_canonical], from length [16 - k] on. *)
Fixpoint canonical_loop (k : nat) (t : HuffmanTable) (peek15 code : Z) : res Z :=
  match k with
  | O => Ok 0
  | S k' =>
      let len := 16 - Z.of_nat k in
      let code := Z.lor (u32 (Z.shiftl code 1)) (Z.land (Z.shiftr peek15 (len - 1)) 1) in
      if (code >=? nthZ (first_code t) len) && (u32 (code - nthZ (first_code t) len) <? nthZ (counts t) len) then
        s ← byte_at (symbols t) (nthZ (first_index t) len + (code - nthZ (first_code t) len));
        mret (Z.lor (Z.shiftl len 16) s)
      else canonical_loop k' t peek15 code
  end.

Definition decode_canonical (t : HuffmanTable) (peek15 : Z) : res Z := canonical_loop 15 t peek15 0.

End HuffmanTable.

(** The two lookups that [next_symbol] and [read_dynamic_tables] share: the
    entry of the root table or of the canonical ranges, 0 if there is none. *)
Definition lookup_entry {I} `{ByteInput I} (t : HuffmanTable.HuffmanTable) (r : Reader I) : res (Z * Reader I) :=
  '(peek, r) ← peek_zero_fill HuffmanTable.ROOT_BITS r;
  entry ← byte_at (HuffmanTable.root t) peek;
  if Z.shiftr entry 16 =? 0 then
    '(p, r) ← peek_zero_fill HuffmanTable.MAX_BITS r;
    e ← HuffmanTable.decode_canonical t p;
    mret (e, r)
  else mret (entry, r).

(** [next_symbol]: [None] is [return false]. *)
Definition next_symbol {I} `{ByteInput I} (t : HuffmanTable.HuffmanTable) (r : Reader I) : res (option Z * Reader I) :=
  '(entry, r) ← lookup_entry t r;
  if entry =? 0 then mret (None, r)
  else
    let len := Z.shiftr entry 16 in
    if len >? real_bits_ r then mret (None, set_truncated r)
    else mret (Some (Z.land entry 0xFFFF), consume len r).

(** ** Specification *)

Fixpoint prefixb (p l : list bool) : bool :=
  match p, l with
  | [], _ => true
  | x :: p, y :: l => Bool.eqb x y && prefixb p l
  | _ :: _, [] => false
  end.

(** The bits continue with zeros. *)
Definition extended (bs : list bool) : list bool := bs ++ replicate 15 false.

Definition starts_with (lens : list Z) (bs : list bool) (s : Z) : bool :=
  (0 <? nthZ lens s) && prefixb (code_bits lens s) (extended bs).

Fixpoint find_symbol (f : Z -> bool) (l : list Z) : option Z :=
  match l with [] => None | s :: l => if f s then Some s else find_symbol f l end.

(** The symbol whose code the bits, continued with zeros, start with. *)
Definition resolve (lens : list Z) (bs : list bool) : option Z :=
  find_symbol (starts_with lens bs) (seqZ 0 (zlen lens)).

(** ** Building *)

Definition lens288 (lens : list Z) : Prop := zlen lens <= 288 /\ Forall (fun l => 0 <= l <= 15) lens.

Lemma lens288_ok lens : lens288 lens -> lens_ok lens.
Proof. intros [H1 H2]. split; [unfold MAX_SYMBOLS; lia | exact H2]. Qed.

(** The Kraft sum in units of the longest code. *)
Fixpoint ksum (lens : list Z) : Z :=
  match lens with [] => 0 | l :: lens => (if l >? 0 then 2 ^ (15 - l) else 0) + ksum lens end.

Lemma ksum_range lens : Forall (fun l => 0 <= l <= 15) lens -> 0 <= ksum lens <= zlen lens * 2 ^ 14.
Proof.
  induction 1 as [|l lens Hl H IH]; [change (zlen (@nil Z)) with 0; cbn; lia|]. cbn [ksum]. rewrite zlen_cons.
  destruct (Z.gtb_spec l 0) as [Hp|Hp]; [|lia].
  assert (0 < 2 ^ (15 - l) <= 2 ^ 14) by (split; [apply Z.pow_pos_nonneg; lia | apply Z.pow_le_mono_r; lia]). lia.
Qed.

Lemma upto_one_more l lens j :
  0 <= j -> upto (l :: lens) j = upto lens j + (if (0 <? l) && (l <=? j) then 2 ^ (j - l) else 0).
Proof.
  intros Hj. apply (Loops.range_ind (fun j => upto (l :: lens) j = upto lens j + (if (0 <? l) && (l <=? j) then 2 ^ (j - l) else 0)) 0 j); [lia | |].
  - rewrite !upto_0. destruct (Z.ltb_spec 0 l), (Z.leb_spec l 0); cbn [andb]; lia.
  - intros k Hk IH. rewrite !upto_step, IH, cnt_cons by lia.
    destruct (decide (l = k + 1)) as [->|Hne].
    + rewrite (proj2 (Z.ltb_lt 0 _)), (proj2 (Z.leb_gt _ k)), (proj2 (Z.leb_le _ (k + 1))) by lia. cbn [andb].
      rewrite Z.sub_diag. lia.
    + destruct (Z.ltb_spec 0 l), (Z.leb_spec l k), (Z.leb_spec l (k + 1)); cbn [andb]; try lia.
      replace (k + 1 - l) with (1 + (k - l)) by lia. rewrite Z.pow_add_r by lia. lia.
Qed.

Lemma upto_ksum lens : Forall (fun l => 0 <= l <= 15) lens -> upto lens 15 = ksum lens.
Proof.
  induction 1 as [|l lens Hl H IH]; [reflexivity|]. rewrite upto_one_more, IH by lia. cbn [ksum].
  rewrite (proj2 (Z.leb_le l 15)), andb_true_r by lia. destruct (Z.ltb_spec 0 l), (Z.gtb_spec l 0); lia.
Qed.

Lemma count_loop_spec lens c sum :
  Forall (fun l => 0 <= l <= 15) lens -> zlen c = 16 -> (forall j, 0 <= j < 16 -> 0 <= nthZ c j /\ nthZ c j + zlen lens < 2 ^ 16) ->
  0 <= sum -> sum + zlen lens * 2 ^ 14 < 2 ^ 32 ->
  exists c', HuffmanTable.count_loop lens c sum = Some (c', sum + ksum lens) /\ zlen c' = 16 /\
    forall j, 0 <= j < 16 -> nthZ c' j = nthZ c j + cnt lens j.
Proof.
  intros F. revert c sum. induction F as [|l lens Hl F IH]; intros c sum Hc Hn Hs Hsum.
  - exists c. cbn. rewrite Z.add_0_r. split_and!; auto. intros j Hj. change (cnt [] j) with 0. lia.
  - cbn [HuffmanTable.count_loop ksum]. rewrite zlen_cons in *. assert (P := zlen_nonneg lens).
    unfold HuffmanTable.MAX_BITS. rewrite Z.gtb_ltb, (proj2 (Z.ltb_ge _ _)) by lia. assert (Hnl := Hn l ltac:(lia)).
    rewrite (wrap_small 16) by lia.
    assert (Hadd : (if l >? 0 then u32 (sum + Z.shiftl 1 (15 - l)) else sum) = sum + (if l >? 0 then 2 ^ (15 - l) else 0)).
    { destruct (Z.gtb_spec l 0) as [Hp|Hp]; [|lia]. rewrite Z.shiftl_1_l. apply wrap_small.
      assert (0 < 2 ^ (15 - l) <= 2 ^ 14) by (split; [apply Z.pow_pos_nonneg; lia | apply Z.pow_le_mono_r; lia]). lia. }
    assert (Hle : 0 <= (if l >? 0 then 2 ^ (15 - l) else 0) <= 2 ^ 14).
    { destruct (Z.gtb_spec l 0); [|lia]. split; [apply Z.pow_nonneg; lia | apply Z.pow_le_mono_r; lia]. }
    rewrite Hadd. destruct (IH (setZ c l (nthZ c l + 1)) (sum + (if l >? 0 then 2 ^ (15 - l) else 0))) as (c' & H1 & H2 & H3);
      [now rewrite zlen_setZ | | lia | lia |].
    + intros j Hj. specialize (Hn j Hj). rewrite nthZ_setZ by lia. destruct (Z.eqb_spec j l) as [->|]; lia.
    + exists c'. split_and!; [rewrite H1; do 2 f_equal; lia | exact H2 |]. intros j Hj.
      rewrite H3, nthZ_setZ, cnt_cons by lia. destruct (Z.eqb_spec j l), (decide (l = j)); subst; try congruence; lia.
Qed.

Lemma count_loop_long lens c sum :
  Forall (fun l => 0 <= l) lens -> ~ Forall (fun l => l <= 15) lens -> HuffmanTable.count_loop lens c sum = None.
Proof.
  intros F. revert c sum. induction F as [|l lens Hl F IH]; intros c sum Hn; [exfalso; apply Hn; constructor|].
  cbn. unfold HuffmanTable.MAX_BITS. destruct (Z.gtb_spec l 15) as [H|H]; [reflexivity|]. apply IH. intros G. apply Hn. now constructor.
Qed.

Lemma canon_loop_spec lens c k code idx fc fi :
  lens288 lens -> kraft lens -> zlen c = 16 -> (forall j, 1 <= j < 16 -> nthZ c j = cnt lens j) -> (k <= 15)%nat ->
  let len := 16 - Z.of_nat k in
  code = first_code lens len -> idx = below lens len -> zlen fc = 16 -> zlen fi = 16 ->
  (forall j, 1 <= j < len -> nthZ fc j = first_code lens j /\ nthZ fi j = below lens j) ->
  let '(fc', fi') := HuffmanTable.canon_loop k c code idx fc fi in
  zlen fc' = 16 /\ zlen fi' = 16 /\ forall j, 1 <= j < 16 -> nthZ fc' j = first_code lens j /\ nthZ fi' j = below lens j.
Proof.
  intros [Hn Hl] Hk Hc Hcnt. revert code idx fc fi. induction k as [|k IH]; intros code idx fc fi Hk15 len Ec Ei Lc Li Hd.
  - cbn. split_and!; auto.
  - cbn [HuffmanTable.canon_loop]. change (16 - Z.of_nat (S k)) with len. assert (Hlen : 1 <= len <= 15) by (unfold len; lia).
    rewrite Hcnt by lia. assert (Eup : code + cnt lens len = upto lens len).
    { rewrite Ec. unfold first_code. assert (U := upto_step lens (len - 1) ltac:(lia)). replace (len - 1 + 1) with len in U by lia. lia. }
    assert (Hu := proj1 (kraft_iff lens) Hk len ltac:(lia)). assert (Hp : 2 ^ len <= 2 ^ 15) by (apply Z.pow_le_mono_r; lia).
    assert (Hnn := upto_nonneg lens len). assert (Hbs := below_step lens len ltac:(lia)).
    assert (Hbl := below_le lens (len + 1)). assert (Hbn := below_nonneg lens (len + 1)).
    rewrite Eup, (wrap_small 32 (upto lens len)) by lia. rewrite Z.shiftl_mul_pow2, Z.pow_1_r, (wrap_small 32) by lia.
    rewrite (wrap_small 16) by lia. apply IH; rewrite ?zlen_setZ; auto; try lia.
    + replace (16 - Z.of_nat k) with (len + 1) by (unfold len; lia). unfold first_code. replace (len + 1 - 1) with len by lia. lia.
    + replace (16 - Z.of_nat k) with (len + 1) by (unfold len; lia). lia.
    + intros j Hj. rewrite !nthZ_setZ by lia. destruct (Z.eqb_spec j len) as [->|Hne]; [split; congruence|].
      apply Hd. unfold len in *. lia.
Qed.

(** The symbols sorted by length, then by value. *)
Lemma symbols_loop_spec pre lens next syms :
  lens288 (pre ++ lens) -> zlen next = 16 -> zlen syms = 288 ->
  (forall l, 1 <= l <= 15 -> nthZ next l = below (pre ++ lens) l + cnt pre l) ->
  (forall s, coded (pre ++ lens) s -> s < zlen pre -> nthZ syms (place (pre ++ lens) s) = s) ->
  exists syms', HuffmanTable.symbols_loop lens (zlen pre) next syms = Ok syms' /\ zlen syms' = 288 /\
    forall s, coded (pre ++ lens) s -> nthZ syms' (place (pre ++ lens) s) = s.
Proof.
  revert pre next syms. induction lens as [|x lens IH]; intros pre next syms Hok Hc Hs HP HN.
  { exists syms. split_and!; auto. intros s Hcs. apply HN; [exact Hcs|]. destruct Hcs as [Hcs _]. rewrite app_nil_r in Hcs. lia. }
  assert (E : pre ++ x :: lens = (pre ++ [x]) ++ lens) by (now rewrite <- app_assoc).
  assert (Lp : zlen (pre ++ [x]) = zlen pre + 1) by (rewrite zlen_app; reflexivity).
  assert (Ex := nthZ_middle pre x lens). cbn [HuffmanTable.symbols_loop].
  destruct Hok as [Hn Hl]. assert (Hx : 0 <= x <= 15) by (apply Forall_app in Hl as [_ Hl]; now inversion Hl).
  assert (Hi : 0 <= zlen pre < zlen (pre ++ x :: lens)) by (rewrite zlen_app, zlen_cons; zlen_pose; lia).
  rewrite <- Lp. destruct (Z.gtb_spec x 0) as [Hx0|Hx0].
  - assert (Hcod : coded (pre ++ x :: lens) (zlen pre)) by (split; [exact Hi | lia]).
    assert (Er : rank (pre ++ x :: lens) (zlen pre) = cnt pre x).
    { unfold rank. rewrite Ex. unfold zlen. now rewrite Nat2Z.id, take_app_length. }
    assert (Epl : nthZ next x = place (pre ++ x :: lens) (zlen pre)) by (unfold place; rewrite Er, Ex; apply HP; lia).
    assert (Hpb := place_bound _ _ Hcod).
    rewrite Epl, store_one by lia. rewrite bind_ok. rewrite (wrap_small 16 (zlen pre)), (wrap_small 16 (place _ _ + 1)) by lia.
    rewrite E in *. apply IH; [split; assumption | now rewrite zlen_setZ | now rewrite zlen_setZ | |].
    + intros l Hl'. rewrite nthZ_setZ, cnt_app, cnt_cons by lia. change (cnt [] l) with 0.
      destruct (Z.eqb_spec l x) as [->|Hne].
      * destruct (decide (x = x)); [|congruence]. rewrite <- Epl, HP by lia. lia.
      * destruct (decide (x = l)); [lia|]. rewrite HP by lia. lia.
    + intros s Hs' Hlt. assert (Hpb' := place_bound _ _ Hs'). rewrite nthZ_setZ by lia.
      destruct (Z.eqb_spec (place ((pre ++ [x]) ++ lens) s) (place ((pre ++ [x]) ++ lens) (zlen pre))) as [Ep|Ep].
      * symmetry. now apply (place_inj _ _ _ Hs' Hcod).
      * apply HN; [exact Hs'|]. destruct (Z.eq_dec s (zlen pre)) as [->|]; [congruence | lia].
  - assert (x = 0) as -> by lia. rewrite E in *. apply IH; [split; assumption | assumption | assumption | |].
    + intros l Hl'. rewrite HP, cnt_app, cnt_cons by lia. destruct (decide (0 = l)); [lia|]. change (cnt [] l) with 0. lia.
    + intros s Hs' Hlt. apply HN; [exact Hs'|]. destruct Hs' as [_ Hs']. destruct (Z.eq_dec s (zlen pre)) as [->|]; [rewrite Ex in Hs'; lia | lia].
Qed.

(** ** Prefixes *)

Lemma prefixb_spec p l : prefixb p l = true <-> exists q, l = p ++ q.
Proof.
  revert l. induction p as [|x p IH]; intros l; cbn; [split; eauto|].
  destruct l as [|y l]; [split; [discriminate | intros [q E]; discriminate]|].
  rewrite andb_true_iff, Bool.eqb_true_iff, IH. split.
  - intros [-> [q ->]]. now exists q.
  - intros [q E]. injection E as -> E. eauto.
Qed.

Lemma prefixb_take p l : zlen p <= zlen l -> (prefixb p l = true <-> take (Z.to_nat (zlen p)) l = p).
Proof.
  intros Hl. rewrite prefixb_spec. split.
  - intros [q ->]. unfold zlen. now rewrite Nat2Z.id, take_app_length.
  - intros E. exists (drop (Z.to_nat (zlen p)) l). rewrite <- E at 1. symmetry. apply take_drop.
Qed.

Lemma lval_inj a b : zlen a = zlen b -> lval a = lval b -> a = b.
Proof.
  revert b. induction a as [|x a IH]; intros [|y b] L E; try (exfalso; rewrite ?zlen_cons in L; change (zlen (@nil bool)) with 0 in L; zlen_pose; lia); [reflexivity|].
  rewrite !zlen_cons in L. cbn [lval] in E.
  assert (x = y /\ lval a = lval b) as [-> Ev] by (destruct x, y; cbn [Z.b2z] in E; split; try reflexivity; lia).
  f_equal. apply IH; [lia | exact Ev].
Qed.

Lemma lval_mod a n : 0 <= n -> lval a mod 2 ^ n = lval (take (Z.to_nat n) a).
Proof. intros H. rewrite <- lval_land_ones, Z.land_ones by lia. reflexivity. Qed.

Lemma lval_false n : lval (replicate n false) = 0.
Proof. induction n as [|n IH]; [reflexivity|]. cbn. now rewrite IH. Qed.

(** Zero-filled bits are the extended ones. *)
Lemma lval_take_extended n bs : 0 <= n <= 15 -> lval (take (Z.to_nat n) bs) = lval (take (Z.to_nat n) (extended bs)).
Proof.
  intros Hn. unfold extended. rewrite take_app, lval_app, take_replicate, lval_false. lia.
Qed.

Lemma zlen_extended_bits bs : zlen (extended bs) = zlen bs + 15.
Proof. unfold extended. rewrite zlen_app, zlen_replicate. reflexivity. Qed.

Lemma reverse_bits_spec v n : 0 <= n <= 15 -> HuffmanTable.reverse_bits v n = lval (zbits (Z.to_nat n) v).
Proof.
  intros Hn. unfold HuffmanTable.reverse_bits.
  apply (Loops.range_ind (fun n => foldl (fun out i => Z.lor (u32 (Z.shiftl out 1)) (Z.land (Z.shiftr v i) 1)) 0 (seqZ 0 n) =
           lval (zbits (Z.to_nat n) v)) 0 n); [lia | reflexivity |].
  intros k Hk IH. rewrite seqZ_app, foldl_app, IH by lia. change (seqZ (0 + k) 1) with [k]. cbn [foldl].
  replace (Z.to_nat (k + 1)) with (S (Z.to_nat k)) by lia. cbn [zbits lval]. rewrite Z2Nat.id by lia.
  assert (R := lval_range (zbits (Z.to_nat k) v)). rewrite zlen_zbits, Z2Nat.id in R by lia.
  assert (2 ^ k <= 2 ^ 15) by (apply Z.pow_le_mono_r; lia).
  rewrite Z.shiftl_mul_pow2, Z.pow_1_r, wrap_small by lia.
  change 1 with (Z.ones 1) at 1. rewrite land_ones_mod, Z.shiftr_div_pow2 by lia. change (2 ^ 1) with 2.
  rewrite <- Z.testbit_spec' by lia. rewrite Z.lor_comm, <- (Z.pow_1_r 2) at 1. rewrite <- Z.shiftl_mul_pow2 by lia.
  rewrite lor_shiftl_add by (destruct (Z.testbit v k); cbn; lia). change (2 ^ 1) with 2. lia.
Qed.

Section codes.
Context (lens : list Z) (Hlens : lens288 lens) (Hkraft : kraft lens).

Lemma length_range s : 0 <= s < zlen lens -> 0 <= nthZ lens s <= 15.
Proof.
  intros Hs. destruct Hlens as [_ HL]. rewrite List.Forall_forall in HL. apply HL. apply nth_In. unfold zlen in Hs. lia.
Qed.

Lemma coded_length s : coded lens s -> 1 <= nthZ lens s <= 15.
Proof. intros [Hs Hl]. assert (R := length_range s Hs). lia. Qed.

Lemma coded_code s : coded lens s -> 0 <= code_of lens s < 2 ^ nthZ lens s.
Proof.
  intros Hs. assert (L := coded_length s Hs). assert (R := code_of_range lens s Hs).
  assert (K := proj1 (kraft_iff lens) Hkraft (nthZ lens s) ltac:(lia)).
  assert (0 <= first_code lens (nthZ lens s)); [|lia]. unfold first_code. assert (U := upto_nonneg lens (nthZ lens s - 1)). lia.
Qed.

Lemma code_bits_length s : coded lens s -> zlen (code_bits lens s) = nthZ lens s.
Proof. intros Hs. assert (L := coded_length s Hs). unfold code_bits. rewrite zlen_zbits. lia. Qed.

Lemma code_bits_val s : coded lens s -> bits_val (code_bits lens s) = code_of lens s.
Proof.
  intros Hs. assert (L := coded_length s Hs). unfold code_bits. rewrite bits_val_zbits, Z2Nat.id by lia.
  apply Z.mod_small, coded_code, Hs.
Qed.

(** A code is a prefix iff it is the value of the first bits. *)
Lemma code_prefix s w :
  coded lens s -> nthZ lens s <= zlen w ->
  (prefixb (code_bits lens s) w = true <-> bits_val (take (Z.to_nat (nthZ lens s)) w) = code_of lens s).
Proof.
  intros Hs Hw. assert (L := coded_length s Hs). rewrite prefixb_take by (rewrite code_bits_length by exact Hs; lia).
  rewrite code_bits_length, <- code_bits_val by exact Hs. split; [now intros ->|].
  intros E. apply bits_val_inj; [rewrite zlen_take, code_bits_length by (auto; lia); reflexivity | exact E].
Qed.

Lemma upto_shift j d : 0 <= j -> 0 <= d -> upto lens j * 2 ^ d <= upto lens (j + d).
Proof.
  intros Hj Hd. apply (Loops.range_ind (fun d => upto lens j * 2 ^ d <= upto lens (j + d)) 0 d); [lia | |].
  - rewrite Z.add_0_r. lia.
  - intros k Hk IH. replace (j + (k + 1)) with (j + k + 1) by lia. rewrite upto_step, Z.pow_add_r by lia.
    assert (C := cnt_nonneg lens (j + k + 1)). change (2 ^ 1) with 2. lia.
Qed.

Lemma code_shorter s t :
  coded lens s -> coded lens t -> nthZ lens s <= nthZ lens t ->
  code_of lens t / 2 ^ (nthZ lens t - nthZ lens s) = code_of lens s -> s = t.
Proof.
  intros Hs Ht Hl E. assert (Ls := coded_length s Hs). assert (Rs := code_of_range lens s Hs). assert (Rt := code_of_range lens t Ht).
  destruct (Z.eq_dec (nthZ lens s) (nthZ lens t)) as [El|Hne].
  - rewrite El, Z.sub_diag, Z.div_1_r in E. unfold code_of in E. rewrite El in E.
    apply (place_inj lens s t Hs Ht). unfold place. rewrite El. lia.
  - exfalso. set (d := nthZ lens t - nthZ lens s) in *.
    assert (U := upto_shift (nthZ lens s) (d - 1) ltac:(lia) ltac:(lia)).
    unfold first_code in Rt. replace (nthZ lens t - 1) with (nthZ lens s + (d - 1)) in Rt by lia.
    assert (H : upto lens (nthZ lens s) <= code_of lens t / 2 ^ d); [|lia].
    apply Z.div_le_lower_bound; [apply Z.pow_pos_nonneg; lia|].
    replace (2 ^ d) with (2 * 2 ^ (d - 1)) by (rewrite <- Z.pow_succ_r by lia; f_equal; lia). lia.
Qed.

Lemma bits_val_take w a b : 0 <= a <= b -> b <= zlen w -> bits_val (take (Z.to_nat b) w) / 2 ^ (b - a) = bits_val (take (Z.to_nat a) w).
Proof.
  intros Ha Hb. rewrite <- (take_drop (Z.to_nat a) (take (Z.to_nat b) w)), take_take, Nat.min_l, bits_val_app by lia.
  assert (L : zlen (drop (Z.to_nat a) (take (Z.to_nat b) w)) = b - a) by (rewrite zlen_drop, zlen_take; rewrite ?zlen_take; lia).
  rewrite L, Z.div_add_l by (apply Z.pow_nonzero; lia). rewrite Z.div_small; [lia|]. rewrite <- L. apply bits_val_range.
Qed.

(** The code is prefix-free. *)
Lemma prefix_free s t w :
  coded lens s -> coded lens t -> nthZ lens s <= zlen w -> nthZ lens t <= zlen w ->
  prefixb (code_bits lens s) w = true -> prefixb (code_bits lens t) w = true -> s = t.
Proof.
  intros Hs Ht Lws Lwt Ps Pt. apply code_prefix in Ps; [|assumption..]. apply code_prefix in Pt; [|assumption..].
  assert (Ls := coded_length s Hs). assert (Lt := coded_length t Ht).
  destruct (Z.le_ge_cases (nthZ lens s) (nthZ lens t)) as [Hl|Hl].
  - apply code_shorter; auto. rewrite <- Ps, <- Pt. apply bits_val_take; lia.
  - symmetry. apply code_shorter; auto. rewrite <- Ps, <- Pt. apply bits_val_take; lia.
Qed.

Lemma exists_rank l k : 0 <= k < cnt lens l -> exists s, 0 <= s < zlen lens /\ nthZ lens s = l /\ rank lens s = k.
Proof.
  clear Hlens Hkraft. induction lens as [|x a IH] using rev_ind; intros Hk; [change (cnt [] l) with 0 in Hk; lia|].
  rewrite cnt_app, cnt_cons in Hk. change (cnt [] l) with 0 in Hk. destruct (Z.lt_ge_cases k (cnt a l)) as [H|H].
  - destruct IH as (s & H1 & H2 & H3); [lia|]. exists s. rewrite zlen_app.
    assert (E : nthZ (a ++ [x]) s = nthZ a s) by (unfold nthZ; apply app_nth1; unfold zlen in H1; lia).
    split_and!; [lia | change (zlen [x]) with 1; lia | congruence |].
    unfold rank in *. rewrite E, take_app_le by (unfold zlen in H1; lia). exact H3.
  - destruct (decide (x = l)) as [->|]; [|lia]. exists (zlen a). rewrite zlen_app.
    assert (E := nthZ_middle a l []). split_and!; [apply zlen_nonneg | change (zlen [l]) with 1; lia | exact E |].
    unfold rank. rewrite E. unfold zlen. rewrite Nat2Z.id, take_app_length. lia.
Qed.

Lemma resolve_some bs s : resolve lens bs = Some s -> coded lens s /\ prefixb (code_bits lens s) (extended bs) = true.
Proof.
  unfold resolve. assert (G : forall l, find_symbol (starts_with lens bs) l = Some s -> s ∈ l /\ starts_with lens bs s = true).
  { induction l as [|x l IH]; cbn; [discriminate|]. destruct (starts_with lens bs x) eqn:E.
    - intros [= <-]. split; [left | exact E].
    - intros Hl. destruct (IH Hl). split; [now right | assumption]. }
  intros Hf. destruct (G _ Hf) as [H1 H2]. apply elem_of_seqZ in H1. unfold starts_with in H2. apply andb_true_iff in H2 as [H2 H3].
  split; [split; lia | exact H3].
Qed.

Lemma resolve_unique bs s : coded lens s -> prefixb (code_bits lens s) (extended bs) = true -> resolve lens bs = Some s.
Proof.
  intros Hs Hp. destruct (resolve lens bs) as [t|] eqn:E.
  - destruct (resolve_some bs t E) as [Ht Hpt]. f_equal. assert (Ls := coded_length s Hs). assert (Lt := coded_length t Ht).
    apply (prefix_free t s (extended bs)); auto; rewrite zlen_extended_bits; zlen_pose; lia.
  - exfalso. unfold resolve in E. assert (Hin : s ∈ seqZ 0 (zlen lens)) by (apply elem_of_seqZ; destruct Hs; lia).
    revert E Hin. generalize (seqZ 0 (zlen lens)). induction l as [|x l IH]; cbn; intros E Hin; [inversion Hin|].
    destruct (starts_with lens bs x) eqn:Ex; [discriminate|]. apply elem_of_cons in Hin as [<-|Hin]; [|now apply IH].
    unfold starts_with in Ex. rewrite Hp, andb_true_r in Ex. destruct Hs. lia.
Qed.

Lemma resolve_none bs : (forall s, coded lens s -> prefixb (code_bits lens s) (extended bs) = false) -> resolve lens bs = None.
Proof.
  intros H. destruct (resolve lens bs) as [s|] eqn:E; [|reflexivity]. destruct (resolve_some bs s E) as [H1 H2].
  rewrite H in H2 by exact H1. discriminate.
Qed.

(** *** The canonical ranges *)

Definition entry_of (s : Z) : Z := Z.lor (Z.shiftl (nthZ lens s) 16) s.

Lemma entry_fields s : coded lens s -> Z.shiftr (entry_of s) 16 = nthZ lens s /\ Z.land (entry_of s) 0xFFFF = s /\ entry_of s <> 0.
Proof.
  intros Hs. assert (L := coded_length s Hs). destruct Hs as [Hs _]. destruct Hlens as [Hn _]. unfold entry_of.
  rewrite lor_shiftl_add_l by lia. rewrite Z.shiftr_div_pow2 by lia. change 0xFFFF with (Z.ones 16). rewrite Z.land_ones by lia.
  split_and!; [| |change (2 ^ 16) with 65536; lia].
  - rewrite Z.add_comm, Z.div_add_l by lia. rewrite Z.div_small; lia.
  - rewrite Z_mod_plus_full. apply Z.mod_small. lia.
Qed.

Record table_ok (t : HuffmanTable.HuffmanTable) : Prop := {
  tk_counts : forall j, 0 <= j < 16 -> nthZ (HuffmanTable.counts t) j = cnt lens j;
  tk_code : forall j, 1 <= j < 16 -> nthZ (HuffmanTable.first_code t) j = first_code lens j;
  tk_index : forall j, 1 <= j < 16 -> nthZ (HuffmanTable.first_index t) j = below lens j;
  tk_symbols : zlen (HuffmanTable.symbols t) = 288 /\ forall s, coded lens s -> nthZ (HuffmanTable.symbols t) (place lens s) = s;
  tk_root : zlen (HuffmanTable.root t) = 512 /\ forall w, zlen w = 9 ->
    (forall s, coded lens s -> nthZ lens s <= 9 -> prefixb (code_bits lens s) w = true -> nthZ (HuffmanTable.root t) (lval w) = entry_of s) /\
    ((forall s, coded lens s -> nthZ lens s <= 9 -> prefixb (code_bits lens s) w = false) -> nthZ (HuffmanTable.root t) (lval w) = 0);
  tk_complete : HuffmanTable.complete t = (upto lens 15 =? 2 ^ 15)
}.

Lemma nthZ_byte_at (l : list Z) i : 0 <= i < zlen l -> byte_at l i = Ok (nthZ l i).
Proof.
  intros Hi. unfold byte_at, nthZ. rewrite (proj2 (Z.ltb_ge _ _)) by lia.
  destruct (lookup_lt_is_Some_2 l (Z.to_nat i)) as [x Hx]; [unfold zlen in Hi; lia|]. rewrite Hx. f_equal.
  symmetry. now apply nth_lookup_Some.
Qed.

Lemma lval_bit w i : 0 <= i < zlen w -> Z.land (Z.shiftr (lval w) i) 1 = Z.b2z (nth (Z.to_nat i) w false).
Proof.
  intros Hi. rewrite lval_shiftr by lia. destruct (drop (Z.to_nat i) w) as [|b q] eqn:E.
  - apply (f_equal zlen) in E. rewrite zlen_drop in E by lia. change (zlen (@nil bool)) with 0 in E. lia.
  - change 1 with (Z.ones 1). rewrite lval_land_ones by lia. change (Z.to_nat 1) with 1%nat.
    change (take 1 (b :: q)) with [b]. cbn [lval]. rewrite Z.mul_0_r, Z.add_0_r. f_equal.
    rewrite <- (take_drop (Z.to_nat i) w), E. rewrite app_nth2; rewrite length_take; unfold zlen in Hi; [|lia].
    rewrite Nat.min_l by lia. now rewrite Nat.sub_diag.
Qed.

Lemma take_next {A} (d : A) (w : list A) i : 0 <= i < zlen w -> take (Z.to_nat (i + 1)) w = take (Z.to_nat i) w ++ [nth (Z.to_nat i) w d].
Proof.
  intros Hi. replace (Z.to_nat (i + 1)) with (S (Z.to_nat i)) by lia.
  destruct (lookup_lt_is_Some_2 w (Z.to_nat i)) as [x Hx]; [unfold zlen in Hi; lia|].
  rewrite (take_S_r _ _ x) by exact Hx. now rewrite (nth_lookup_Some _ _ d x).
Qed.

Lemma bits_val_one b : bits_val [b] = Z.b2z b.
Proof. now destruct b. Qed.

(** The walk over the lengths finds the symbol whose code the bits start
    with, or nothing. *)
Lemma canonical_loop_spec t w k :
  table_ok t -> zlen w = 15 -> (k <= 15)%nat ->
  (forall s, coded lens s -> nthZ lens s <= 15 - Z.of_nat k -> prefixb (code_bits lens s) w = false) ->
  exists e, HuffmanTable.canonical_loop k t (lval w) (bits_val (take (Z.to_nat (15 - Z.of_nat k)) w)) = Ok e /\
    ((exists s, coded lens s /\ prefixb (code_bits lens s) w = true /\ e = entry_of s) \/
     (forall s, coded lens s -> prefixb (code_bits lens s) w = false) /\ e = 0).
Proof.
  intros Ht Hw. induction k as [|k IH]; intros Hk Hno.
  - exists 0. split; [reflexivity|]. right. split; [|reflexivity]. intros s Hs. apply Hno; [exact Hs|].
    assert (L := coded_length s Hs). lia.
  - cbn [HuffmanTable.canonical_loop]. set (len := 16 - Z.of_nat (S k)). assert (Hlen : 1 <= len <= 15) by (unfold len; lia).
    replace (15 - Z.of_nat (S k)) with (len - 1) in * by lia. rewrite lval_bit by lia.
    assert (R := bits_val_range (take (Z.to_nat (len - 1)) w)). rewrite zlen_take in R by lia.
    assert (2 ^ (len - 1) <= 2 ^ 14) by (apply Z.pow_le_mono_r; lia).
    assert (Ecode : Z.lor (u32 (Z.shiftl (bits_val (take (Z.to_nat (len - 1)) w)) 1)) (Z.b2z (nth (Z.to_nat (len - 1)) w false)) =
                    bits_val (take (Z.to_nat len) w)).
    { rewrite wrap_small by (rewrite Z.shiftl_mul_pow2, Z.pow_1_r by lia; lia).
      rewrite lor_shiftl_add_l by (destruct (nth (Z.to_nat (len - 1)) w false); cbn; lia).
      replace len with (len - 1 + 1) at 3 by lia. rewrite (take_next false w (len - 1)) by lia. rewrite bits_val_app.
      rewrite bits_val_one. change (zlen [nth (Z.to_nat (len - 1)) w false]) with 1.
      lia. }
    rewrite Ecode. set (code := bits_val (take (Z.to_nat len) w)).
    assert (Rc := bits_val_range (take (Z.to_nat len) w)). fold code in Rc. rewrite zlen_take in Rc by lia.
    assert (2 ^ len <= 2 ^ 15) by (apply Z.pow_le_mono_r; lia).
    rewrite (tk_code t Ht), (tk_counts t Ht) by lia.
    assert (Hfc : 0 <= first_code lens len) by (unfold first_code; assert (U := upto_nonneg lens (len - 1)); lia).
    assert (Hcl := cnt_le lens len). destruct Hlens as [Hn _].
    assert (Hnext : (code < first_code lens len \/ first_code lens len + cnt lens len <= code) ->
      exists e, HuffmanTable.canonical_loop k t (lval w) code = Ok e /\
        ((exists s, coded lens s /\ prefixb (code_bits lens s) w = true /\ e = entry_of s) \/
         (forall s, coded lens s -> prefixb (code_bits lens s) w = false) /\ e = 0)).
    { intros Hout. replace (15 - Z.of_nat k) with len in IH by (unfold len; lia). apply IH; [lia|].
      intros s Hs Hsl. destruct (Z.eq_dec (nthZ lens s) len) as [El|Hne]; [|apply Hno; [exact Hs | lia]].
      destruct (prefixb (code_bits lens s) w) eqn:Ep; [|reflexivity]. exfalso.
      apply code_prefix in Ep; [|exact Hs | lia]. rewrite El in Ep. fold code in Ep.
      assert (Rs := code_of_range lens s Hs). rewrite El in Rs. assert (U := upto_step lens (len - 1) ltac:(lia)).
      replace (len - 1 + 1) with len in U by lia. unfold first_code in *. lia. }
    destruct (Z.geb_spec code (first_code lens len)) as [Hge|Hlt]; cbn [andb].
    1: rewrite (wrap_small 32 (code - _)) by lia; destruct (Z.ltb_spec (code - first_code lens len) (cnt lens len)) as [Hr|Hr].
    + destruct (exists_rank len (code - first_code lens len)) as (s & S1 & S2 & S3); [lia|].
      assert (Hs : coded lens s) by (split; lia).
      assert (Hcs : code_of lens s = code) by (unfold code_of; rewrite S2, S3; lia).
      rewrite (tk_index t Ht) by lia.
      assert (Hpl : below lens len + (code - first_code lens len) = place lens s) by (unfold place; rewrite S2, S3; lia).
      assert (Hpb := place_bound lens s Hs). destruct (tk_symbols t Ht) as [Y1 Y2].
      rewrite Hpl, nthZ_byte_at, Y2, bind_ok by (auto; lia). eexists. split; [reflexivity|]. left. exists s. split_and!; auto.
      * apply code_prefix; [exact Hs | lia |]. rewrite S2. symmetry. exact Hcs.
      * unfold entry_of. now rewrite S2.
    + apply Hnext. lia.
    + apply Hnext. lia.
Qed.

End codes.

(** *** The root table *)

Lemma fill_root_spec fuel r0 step rev entry root :
  2 <= step <= 512 -> 0 <= r0 -> r0 < 512 + step -> r0 mod step = rev -> 0 < Z.of_nat fuel -> 512 - r0 < Z.of_nat fuel -> zlen root = 512 ->
  exists root', HuffmanTable.fill_root fuel r0 step entry root = Ok root' /\ zlen root' = 512 /\
    forall r, 0 <= r < 512 -> nthZ root' r = if (r0 <=? r) && (r mod step =? rev) then entry else nthZ root r.
Proof.
  intros Hstep. revert r0 root. induction fuel as [|fuel IH]; intros r0 root H0 H1 Hm Hpos Hf Hl.
  - exfalso. lia.
  - cbn [HuffmanTable.fill_root]. change HuffmanTable.ROOT_SIZE with 512. destruct (Z.ltb_spec r0 512) as [Hr|Hr].
    + rewrite store_one, bind_ok by lia. rewrite wrap_small by lia.
      destruct (IH (r0 + step) (setZ root r0 entry)) as (root' & G1 & G2 & G3); [lia | lia | | lia | lia | now rewrite zlen_setZ |].
      { rewrite <- (Z.mul_1_l step) at 1. rewrite Z_mod_plus_full. exact Hm. }
      exists root'. split_and!; auto. intros r Hrr. rewrite G3 by lia. rewrite nthZ_setZ by lia.
      destruct (Z.eqb_spec r r0) as [->|Hne].
      * rewrite Hm, Z.eqb_refl. rewrite (proj2 (Z.leb_le r0 r0)), (proj2 (Z.leb_gt (r0 + step) r0)) by lia. reflexivity.
      * destruct (Z.eqb_spec (r mod step) rev) as [E|E]; [|now rewrite !andb_false_r].
        rewrite !andb_true_r. destruct (Z.leb_spec (r0 + step) r), (Z.leb_spec r0 r); try reflexivity; try lia.
        exfalso. rewrite <- Hm in E. assert (D := Z.div_mod r step ltac:(lia)). assert (D0 := Z.div_mod r0 step ltac:(lia)).
        rewrite E in D. assert (r / step = r0 / step); nia.
    + exists root. split_and!; auto. intros r Hrr. now rewrite (proj2 (Z.leb_gt _ _)) by lia.
Qed.

Section roots.
Context (lens : list Z) (Hlens : lens288 lens) (Hkraft : kraft lens).

(** The root table after the symbols below [i]. *)
Definition root_part (i : Z) (root : list Z) : Prop :=
  zlen root = 512 /\ forall w, zlen w = 9 ->
    (forall s, coded lens s -> s < i -> nthZ lens s <= 9 -> prefixb (code_bits lens s) w = true -> nthZ root (lval w) = entry_of lens s) /\
    ((forall s, coded lens s -> s < i -> nthZ lens s <= 9 -> prefixb (code_bits lens s) w = false) -> nthZ root (lval w) = 0).

Lemma root_part_skip i root :
  (coded lens i -> 9 < nthZ lens i) -> root_part i root -> root_part (i + 1) root.
Proof.
  intros Hi [H1 H2]. split; [exact H1|]. intros w Hw. destruct (H2 w Hw) as [A B]. split.
  - intros s Hs Hlt Hl Hp. apply A; auto. destruct (Z.eq_dec s i) as [->|]; [specialize (Hi Hs); lia | lia].
  - intros Hno. apply B. intros s Hs Hlt Hl. apply Hno; auto. lia.
Qed.

Lemma prefix_lval s w :
  coded lens s -> nthZ lens s <= zlen w ->
  (prefixb (code_bits lens s) w = true <-> lval w mod 2 ^ nthZ lens s = lval (code_bits lens s)).
Proof.
  intros Hs Hw. assert (L := coded_length lens Hlens s Hs). assert (Lc := code_bits_length lens Hlens s Hs).
  rewrite prefixb_take, Lc, lval_mod by lia. split; [now intros ->|].
  intros E. apply lval_inj; [rewrite zlen_take; lia | exact E].
Qed.

Lemma root_loop_spec pre rest next root :
  lens = pre ++ rest -> zlen next = 16 -> (forall l, 1 <= l <= 9 -> nthZ next l = Huffman.first_code lens l + cnt pre l) ->
  root_part (zlen pre) root ->
  exists root', HuffmanTable.root_loop rest (zlen pre) next root = Ok root' /\ root_part (zlen lens) root'.
Proof.
  revert pre next root. induction rest as [|x rest IH]; intros pre next root E Hc HP HR.
  { exists root. rewrite app_nil_r in E. subst pre. auto. }
  assert (E1 : lens = (pre ++ [x]) ++ rest) by (now rewrite <- app_assoc).
  assert (Lp : zlen (pre ++ [x]) = zlen pre + 1) by (rewrite zlen_app; reflexivity).
  assert (Ex : nthZ lens (zlen pre) = x) by (rewrite E; apply nthZ_middle).
  assert (Hi : 0 <= zlen pre < zlen lens) by (rewrite E, zlen_app, zlen_cons; zlen_pose; lia).
  assert (Hx := length_range lens Hlens (zlen pre) Hi). rewrite Ex in Hx.
  cbn [HuffmanTable.root_loop]. rewrite <- Lp. unfold HuffmanTable.ROOT_BITS.
  assert (Hcnt : forall l, cnt (pre ++ [x]) l = cnt pre l + (if decide (x = l) then 1 else 0)).
  { intros l. rewrite cnt_app, cnt_cons. change (cnt [] l) with 0. lia. }
  destruct (Z.eqb_spec x 0) as [Hx0|Hx0]; cbn [orb].
  { apply IH; auto.
    - intros l Hl. rewrite HP, Hcnt by lia. destruct (decide (x = l)); lia.
    - rewrite Lp. apply root_part_skip; [|exact HR]. intros [_ Hs]. rewrite Ex in Hs. lia. }
  assert (Hcod : coded lens (zlen pre)) by (split; [exact Hi | rewrite Ex; lia]).
  assert (Er : rank lens (zlen pre) = cnt pre x).
  { unfold rank. rewrite Ex, E. unfold zlen. now rewrite Nat2Z.id, take_app_length. }
  rewrite Z.gtb_ltb. destruct (Z.ltb_spec 9 x) as [Hx9|Hx9].
  { apply IH; auto.
    - intros l Hl. rewrite HP, Hcnt by lia. destruct (decide (x = l)); lia.
    - rewrite Lp. apply root_part_skip; [|exact HR]. intros _. now rewrite Ex. }
  assert (Ecode : nthZ next x = code_of lens (zlen pre)) by (unfold code_of; rewrite Er, Ex; apply HP; lia).
  assert (Hcr := coded_code lens Hlens Hkraft (zlen pre) Hcod). rewrite Ex in Hcr.
  assert (H15 : 2 ^ x <= 2 ^ 9) by (apply Z.pow_le_mono_r; lia).
  assert (H2x : 2 ^ 1 <= 2 ^ x) by (apply Z.pow_le_mono_r; lia). change (2 ^ 1) with 2 in H2x. change (2 ^ 9) with 512 in H15.
  rewrite Ecode, reverse_bits_spec by lia.
  assert (Erev : zbits (Z.to_nat x) (code_of lens (zlen pre)) = code_bits lens (zlen pre)) by (unfold code_bits; now rewrite Ex).
  rewrite Erev. assert (Hlv := lval_range (code_bits lens (zlen pre))).
  rewrite (code_bits_length lens Hlens) in Hlv by exact Hcod. rewrite Ex in Hlv.
  destruct HR as [R1 R2]. rewrite Z.shiftl_1_l.
  destruct (fill_root_spec (S (Z.to_nat HuffmanTable.ROOT_SIZE)) (lval (code_bits lens (zlen pre))) (2 ^ x)
              (lval (code_bits lens (zlen pre))) (Z.lor (Z.shiftl x 16) (zlen pre)) root) as (root' & G1 & G2 & G3);
    [lia | lia | lia | apply Z.mod_small; lia | lia | change HuffmanTable.ROOT_SIZE with 512; lia | exact R1 |].
  rewrite G1, bind_ok. rewrite (wrap_small 32) by lia.
  assert (Een : Z.lor (Z.shiftl x 16) (zlen pre) = entry_of lens (zlen pre)) by (unfold entry_of; now rewrite Ex).
  apply IH; [exact E1 | now rewrite zlen_setZ | |].
  - intros l Hl. rewrite nthZ_setZ, Hcnt by lia. destruct (Z.eqb_spec l x) as [->|Hne].
    + destruct (decide (x = x)); [|congruence]. rewrite <- Ecode, HP by lia. lia.
    + destruct (decide (x = l)); [lia|]. rewrite HP by lia. lia.
  - split; [exact G2|]. rewrite Lp. intros w Hw. destruct (R2 w Hw) as [A B].
    assert (Rw := lval_range w). rewrite Hw in Rw. change (2 ^ 9) with 512 in Rw.
    assert (Hpre := prefix_lval (zlen pre) w Hcod ltac:(lia)). rewrite Ex in Hpre.
    assert (Hval : nthZ root' (lval w) = if prefixb (code_bits lens (zlen pre)) w then entry_of lens (zlen pre) else nthZ root (lval w)).
    { rewrite G3, Een by lia. destruct (prefixb (code_bits lens (zlen pre)) w) eqn:Ep.
      - apply proj1 in Hpre. specialize (Hpre eq_refl). rewrite Hpre, Z.eqb_refl, andb_true_r.
        rewrite (proj2 (Z.leb_le _ _)); [reflexivity|]. rewrite <- Hpre. apply Z.mod_le; lia.
      - destruct (Z.eqb_spec (lval w mod 2 ^ x) (lval (code_bits lens (zlen pre)))) as [Em|Em]; [|now rewrite andb_false_r].
        apply Hpre in Em. congruence. }
    rewrite Hval. split.
    + intros s Hs Hlt Hl Hp. destruct (prefixb (code_bits lens (zlen pre)) w) eqn:Ep.
      * f_equal. apply (prefix_free lens Hlens Hkraft (zlen pre) s w); auto; lia.
      * apply A; auto. destruct (Z.eq_dec s (zlen pre)) as [->|]; [congruence | lia].
    + intros Hno. rewrite (Hno (zlen pre)) by (auto; lia). apply B. intros s Hs Hlt Hl. apply Hno; auto. lia.
Qed.

Lemma table_build_spec allow :
  exists o, HuffmanTable.build lens allow = Ok o /\
    match o with
    | Some t => table_ok lens t /\ (upto lens 15 = 2 ^ 15 \/ allow = true)
    | None => upto lens 15 <> 2 ^ 15 /\ allow = false
    end.
Proof.
  destruct Hlens as [Hn HL]. unfold HuffmanTable.build, HuffmanTable.MAX_SYMBOLS.
  rewrite Z.gtb_ltb, (proj2 (Z.ltb_ge _ _)) by lia. assert (P := zlen_nonneg lens).
  destruct (count_loop_spec lens (replicate 16 0) 0 HL) as (c & C1 & C2 & C3); [reflexivity | | lia | lia |].
  { intros j Hj. rewrite nthZ_replicate_0. lia. }
  rewrite C1, Z.add_0_l, <- upto_ksum by exact HL. change (Z.shiftl 1 HuffmanTable.MAX_BITS) with (2 ^ 15).
  assert (K := Hkraft). unfold kraft in K. rewrite Z.gtb_ltb, (proj2 (Z.ltb_ge _ _)) by lia.
  destruct (negb (upto lens 15 =? 2 ^ 15) && negb allow) eqn:Ea.
  { exists None. split; [reflexivity|]. apply andb_true_iff in Ea as [E1 E2]. apply negb_true_iff in E1, E2. split; [lia | exact E2]. }
  assert (Hc : forall j, 1 <= j < 16 -> nthZ c j = cnt lens j) by (intros j Hj; rewrite C3, nthZ_replicate_0 by lia; lia).
  assert (HC := canon_loop_spec lens c 15 0 0 (replicate 16 0) (replicate 16 0) Hlens Hkraft C2 Hc ltac:(lia)).
  cbv zeta in HC. change (16 - Z.of_nat 15) with 1 in HC.
  specialize (HC eq_refl ltac:(now rewrite below_1) eq_refl eq_refl ltac:(lia)).
  destruct (HuffmanTable.canon_loop 15 c 0 0 (replicate 16 0) (replicate 16 0)) as [fc fi]. destruct HC as (F1 & F2 & F3).
  destruct (symbols_loop_spec [] lens fi (replicate 288 0) Hlens F2 eq_refl) as (syms & S1 & S2 & S3).
  { intros l Hl. destruct (F3 l) as [_ ->]; [lia|]. change (cnt [] l) with 0. cbn [app]. lia. }
  { intros s [Hs _] Hlt. change (zlen (@nil Z)) with 0 in Hlt. lia. }
  change (zlen (@nil Z)) with 0 in S1. rewrite S1, bind_ok.
  destruct (root_loop_spec [] lens fc (replicate (Z.to_nat HuffmanTable.ROOT_SIZE) 0)) as (root & R1 & R2); [reflexivity | exact F1 | | |].
  { intros l Hl. destruct (F3 l) as [-> _]; [lia|]. change (cnt [] l) with 0. lia. }
  { split; [reflexivity|]. intros w Hw. split; [intros s [Hs _] Hlt; change (zlen (@nil Z)) with 0 in Hlt; lia|].
    intros _. apply nthZ_replicate_0. }
  change (zlen (@nil Z)) with 0 in R1. rewrite R1, bind_ok. eexists. split; [reflexivity|]. cbn beta iota. split.
  - split; cbn [HuffmanTable.counts HuffmanTable.first_code HuffmanTable.first_index HuffmanTable.symbols HuffmanTable.root HuffmanTable.complete].
    + intros j Hj. rewrite C3, nthZ_replicate_0 by lia. lia.
    + intros j Hj. now apply F3.
    + intros j Hj. now apply F3.
    + split; [exact S2 | exact S3].
    + destruct R2 as [R2 R3]. split; [exact R2|]. intros w Hw. destruct (R3 w Hw) as [A B]. split.
      * intros s Hs. apply A; [exact Hs|]. destruct Hs. lia.
      * intros Hno. apply B. intros s Hs _. now apply Hno.
    + reflexivity.
  - destruct (Z.eqb_spec (upto lens 15) (2 ^ 15)) as [E|E]; [now left|]. right. destruct allow; [reflexivity|]. discriminate.
Qed.

End roots.

(** A set of lengths that is refused. *)
Lemma build_refused lens allow :
  Forall (fun l => 0 <= l) lens -> ~ (lens288 lens /\ kraft lens) -> HuffmanTable.build lens allow = Ok None.
Proof.
  intros H0 Hn. unfold HuffmanTable.build, HuffmanTable.MAX_SYMBOLS. destruct (Z.gtb_spec (zlen lens) 288) as [Hl|Hl]; [reflexivity|].
  destruct (decide (Forall (fun l => l <= 15) lens)) as [H15|H15]; [|now rewrite count_loop_long].
  assert (HL : Forall (fun l => 0 <= l <= 15) lens) by (apply Forall_and; assumption).
  assert (P := zlen_nonneg lens).
  destruct (count_loop_spec lens (replicate 16 0) 0 HL) as (c & C1 & C2 & C3); [reflexivity | | lia | lia |].
  { intros j Hj. rewrite nthZ_replicate_0. lia. }
  rewrite C1, Z.add_0_l, <- upto_ksum by exact HL. change (Z.shiftl 1 HuffmanTable.MAX_BITS) with (2 ^ 15).
  destruct (Z.gtb_spec (upto lens 15) (2 ^ 15)) as [Hk|Hk]; [reflexivity|]. exfalso. apply Hn. split; [split; [lia | exact HL]|].
  unfold kraft. lia.
Qed.

(** ** Symbols from a reader *)

Section symbols.
Context {I : Type} `{ByteInputLaws I}.
Context (lens : list Z) (Hlens : lens288 lens) (Hkraft : kraft lens) (t : HuffmanTable.HuffmanTable) (Htab : table_ok lens t).

Lemma root_entry bs :
  (exists s, resolve lens bs = Some s /\ nthZ lens s <= 9 /\ nthZ (HuffmanTable.root t) (lval (take 9 bs)) = entry_of lens s) \/
  nthZ (HuffmanTable.root t) (lval (take 9 bs)) = 0.
Proof.
  change 9%nat with (Z.to_nat 9). rewrite lval_take_extended by lia. set (w := take (Z.to_nat 9) (extended bs)).
  assert (Hw : zlen w = 9) by (apply zlen_take; rewrite zlen_extended_bits; zlen_pose; lia).
  destruct (tk_root lens t Htab) as [_ R]. destruct (R w Hw) as [A B].
  destruct (decide (Exists (fun s => nthZ lens s <= 9 /\ 0 < nthZ lens s /\ prefixb (code_bits lens s) w = true) (seqZ 0 (zlen lens)))) as [Hex|Hex].
  - apply Exists_exists in Hex as (s & Hin & Hl & Hpos & Hp). apply list_elem_of_In, elem_of_seqZ in Hin.
    assert (Hs : coded lens s) by (split; lia). left. exists s. split_and!; [|exact Hl | now apply A].
    apply resolve_unique; auto. apply prefixb_spec in Hp as [q Hq]. apply prefixb_spec.
    exists (q ++ drop (Z.to_nat 9) (extended bs)). rewrite app_assoc, <- Hq. symmetry. apply take_drop.
  - right. apply B. intros s Hs Hl. destruct (prefixb (code_bits lens s) w) eqn:Ep; [|reflexivity]. exfalso. apply Hex.
    apply Exists_exists. exists s. destruct Hs as [Hs Hpos]. split; [apply list_elem_of_In, elem_of_seqZ; lia | auto].
Qed.

Lemma decode_canonical_spec bs :
  exists e, HuffmanTable.decode_canonical t (lval (take 15 bs)) = Ok e /\
    ((exists s, resolve lens bs = Some s /\ e = entry_of lens s) \/ resolve lens bs = None /\ e = 0).
Proof.
  change 15%nat with (Z.to_nat 15). rewrite lval_take_extended by lia. set (w := take (Z.to_nat 15) (extended bs)).
  assert (Hw : zlen w = 15) by (apply zlen_take; rewrite zlen_extended_bits; zlen_pose; lia).
  assert (Hpre : forall s, coded lens s -> prefixb (code_bits lens s) w = prefixb (code_bits lens s) (extended bs)).
  { intros s Hs. apply eq_true_iff_eq. assert (L := coded_length lens Hlens s Hs).
    rewrite !prefixb_take by (rewrite (code_bits_length lens Hlens s Hs), ?zlen_extended_bits; zlen_pose; lia).
    rewrite (code_bits_length lens Hlens s Hs). unfold w. rewrite take_take, Nat.min_l by lia. reflexivity. }
  destruct (canonical_loop_spec lens Hlens Hkraft t w 15 Htab Hw ltac:(lia)) as (e & He & Hr).
  { intros s Hs Hl. assert (L := coded_length lens Hlens s Hs). lia. }
  exists e. split; [exact He|]. destruct Hr as [(s & Hs & Hp & ->)|[Hno ->]].
  - left. exists s. split; [|reflexivity]. apply resolve_unique; auto. now rewrite <- Hpre.
  - right. split; [|reflexivity]. apply resolve_none. intros s Hs. rewrite <- Hpre by exact Hs. now apply Hno.
Qed.

(** The entry found is that of the resolved symbol, and its bits are in the
    accumulator as far as there are any. *)
Lemma lookup_entry_holds r bs :
  holds r bs ->
  exists e r', lookup_entry t r = Ok (e, r') /\ holds r' bs /\ same_flags r r' /\
    match resolve lens bs with
    | Some s => e = entry_of lens s /\ Z.min (nthZ lens s) (zlen bs) <= bit_count_ r'
    | None => e = 0
    end.
Proof.
  intros Hr. unfold lookup_entry, HuffmanTable.ROOT_BITS, HuffmanTable.MAX_BITS.
  destruct (peek_holds 9 r bs Hr) as (r1 & P1 & P2 & P3 & P4); [lia|]. rewrite P1, bind_ok.
  assert (Hrange := lval_range (take (Z.to_nat 9) bs)).
  assert (Hlen9 : zlen (take (Z.to_nat 9) bs) <= 9) by (unfold zlen; rewrite length_take; lia).
  assert (Hp9 : 2 ^ zlen (take (Z.to_nat 9) bs) <= 2 ^ 9) by (apply Z.pow_le_mono_r; lia). change (2 ^ 9) with 512 in Hp9.
  destruct (tk_root lens t Htab) as [R1 _]. rewrite nthZ_byte_at, bind_ok by lia.
  change (Z.to_nat 9) with 9%nat. destruct (root_entry bs) as [(s & Es & Hl & He)|He]; rewrite He.
  - destruct (resolve_some lens bs s Es) as [Hs _]. destruct (entry_fields lens Hlens s Hs) as (E1 & E2 & E3).
    assert (L := coded_length lens Hlens s Hs). rewrite E1, (proj2 (Z.eqb_neq _ 0)) by lia.
    exists (entry_of lens s), r1. rewrite Es. split_and!; auto. lia.
  - change (Z.shiftr 0 16 =? 0) with true. cbn iota.
    destruct (peek_holds 15 r1 bs P2) as (r2 & T1 & T2 & T3 & T4); [lia|]. rewrite T1, bind_ok. change (Z.to_nat 15) with 15%nat.
    assert (Hsame := same_trans r r1 r2 P3 T3).
    destruct (decode_canonical_spec bs) as (e & He2 & Hres). rewrite He2, bind_ok. exists e, r2.
    destruct Hres as [(s & Es & ->)|[En ->]]; [rewrite Es | rewrite En]; split_and!; auto.
    destruct (resolve_some lens bs s Es) as [Hs _]. assert (L := coded_length lens Hlens s Hs). lia.
Qed.

(** A symbol is the resolved one, consumed; it is refused when its code runs
    past the last bit, and nothing is consumed when no code matches. *)
Lemma next_symbol_holds r bs :
  holds r bs ->
  exists o r', next_symbol t r = Ok (o, r') /\
    match resolve lens bs with
    | Some s =>
        let l := nthZ lens s in
        if l <=? zlen bs
        then o = Some s /\ holds r' (drop (Z.to_nat l) bs) /\ consumed_bits_ r' = consumed_bits_ r +s l /\ truncated_ r' = truncated_ r
        else o = None /\ holds r' bs /\ consumed_bits_ r' = consumed_bits_ r /\ truncated_ r' = true
    | None => o = None /\ holds r' bs /\ same_flags r r'
    end.
Proof.
  intros Hr. unfold next_symbol. destruct (lookup_entry_holds r bs Hr) as (e & r2 & L1 & Hr2 & Hf & L2).
  rewrite L1, bind_ok. destruct (resolve lens bs) as [s|] eqn:Es.
  - destruct L2 as [-> Hav]. destruct (resolve_some lens bs s Es) as [Hs _].
    destruct (entry_fields lens Hlens s Hs) as (E1 & E2 & E3). assert (L := coded_length lens Hlens s Hs).
    destruct (holds_real r2 bs Hr2) as [Q1 Q2]. destruct Hf as [Hf1 Hf2].
    rewrite (proj2 (Z.eqb_neq _ 0)) by exact E3. cbv zeta. rewrite E1, E2, Q1.
    destruct (Z.gtb_spec (nthZ lens s) (bit_count_ r2)) as [Hg|Hg].
    + rewrite (proj2 (Z.leb_gt _ _)) by lia. eexists None, _. split; [reflexivity|]. cbn.
      destruct Hr2. split_and!; auto. now split.
    + rewrite (proj2 (Z.leb_le _ _)) by lia. eexists (Some s), _. split; [reflexivity|]. split; [reflexivity|].
      split; [apply consume_holds; auto; lia|]. cbn. now rewrite Hf1.
  - subst e. change (0 =? 0) with true. cbn iota. exists None, r2. auto.
Qed.

End symbols.
