(* ===== verification/Inflate.v ===== *)
(** The DEFLATE decoder of the foreign readers
    ([src/compress/inflate.cpp], [src/compress/inflate.hpp]).

    The output goes through one buffer that holds the 32 KiB of history and
    the chunk in progress; matches are copied within it, in doubling steps
    when they overlap, and the chunk is flushed to a sink under a cap.  The
    sink and the input are callbacks of the embedding. *)

From Stdlib Require Import ZArith Lia.
From stdpp Require Import base tactics list numbers.
From S2P Require Import Prelude Bytes Arrays BitReader Huffman InflateBits InflateTable.

Local Open Scope Z_scope.
Local Open Scope size_scope.

Inductive InflateError :=
| InflateOk | TruncatedInput | BadBlockType | BadStoredLen | BadCodeLengths | BadHuffmanCode | OversubscribedCode
| BadLiteralCode | DistanceTooFar | OutputCapExceeded | SinkFailed.

#[export] Instance InflateError_eq : EqDecision InflateError.
Proof. intros x y. unfold Decision. decide equality. Defined.

(** The sink: whether it accepts a chunk, and its new state. *)
Class OutputSink (K : Type) := { sink_write : K -> list Z -> bool * K }.

(** The default cap. *)
Definition UNLIMITED : Z := 2 ^ 64 - 1.

Definition WINDOW_SIZE : Z := 32768.
Definition OUT_CHUNK : Z := 65536.

(** (base, extra bits) of the length codes 257..285 and the distance codes. *)
Definition LENGTH_TABLE : list (Z * Z) :=
  [(3, 0); (4, 0); (5, 0); (6, 0); (7, 0); (8, 0); (9, 0); (10, 0); (11, 1); (13, 1);
   (15, 1); (17, 1); (19, 2); (23, 2); (27, 2); (31, 2); (35, 3); (43, 3); (51, 3); (59, 3);
   (67, 4); (83, 4); (99, 4); (115, 4); (131, 5); (163, 5); (195, 5); (227, 5); (258, 0)].

Definition DIST_TABLE : list (Z * Z) :=
  [(1, 0); (2, 0); (3, 0); (4, 0); (5, 1); (7, 1); (9, 2); (13, 2); (17, 3); (25, 3); (33, 4); (49, 4);
   (65, 5); (97, 5); (129, 6); (193, 6); (257, 7); (385, 7); (513, 8); (769, 8); (1025, 9); (1537, 9);
   (2049, 10); (3073, 10); (4097, 11); (6145, 11); (8193, 12); (12289, 12); (16385, 13); (24577, 13)].

Definition CODE_LENGTH_ORDER : list Z := [16; 17; 18; 0; 8; 7; 9; 6; 10; 5; 11; 4; 12; 3; 13; 2; 14; 1; 15].

Definition table_at (l : list (Z * Z)) (i : Z) : res (Z * Z) :=
  if i <? 0 then Fault else match l !! Z.to_nat i with Some e => Ok e | None => Fault end.

(** ** Output *)

Record Output (K : Type) := {
  buf_ : list Z;          (* WINDOW_SIZE + OUT_CHUNK bytes *)
  out_len_ : Z;
  window_fill_ : Z;
  total_out_ : Z;
  max_out_ : Z;
  sink_ : option K
}.

Arguments buf_ {K} o.
Arguments out_len_ {K} o.
Arguments window_fill_ {K} o.
Arguments total_out_ {K} o.
Arguments max_out_ {K} o.
Arguments sink_ {K} o.

Section output.
Context {K : Type} `{OutputSink K}.

(** [reset()]; the buffer keeps what earlier streams left in it. *)
Definition Output_reset (buf : list Z) (max_out : Z) (sink : option K) : Output K :=
  {| buf_ := buf; out_len_ := 0; window_fill_ := 0; total_out_ := 0; max_out_ := max_out; sink_ := sink |}.

Definition set_out (o : Output K) (buf : list Z) (len fill : Z) : Output K :=
  {| buf_ := buf; out_len_ := len; window_fill_ := fill; total_out_ := total_out_ o; max_out_ := max_out_ o; sink_ := sink_ o |}.

(** [!sink_ || sink_(chunk, n)], and [total_out_ += n] behind it. *)
Definition to_sink (o : Output K) (x : list Z) : bool * Output K :=
  match sink_ o with
  | None => (true, {| buf_ := buf_ o; out_len_ := out_len_ o; window_fill_ := window_fill_ o;
                      total_out_ := total_out_ o +s zlen x; max_out_ := max_out_ o; sink_ := None |})
  | Some k =>
      let '(ok, k) := sink_write k x in
      (ok, {| buf_ := buf_ o; out_len_ := out_len_ o; window_fill_ := window_fill_ o;
              total_out_ := if ok then total_out_ o +s zlen x else total_out_ o; max_out_ := max_out_ o; sink_ := Some k |})
  end.

Definition flush_output (o : Output K) : res (InflateError * Output K) :=
  if out_len_ o =? 0 then mret (InflateOk, o)
  else if (total_out_ o +s out_len_ o) >? max_out_ o then
    let room := max_out_ o -s total_out_ o in
    let take := if room <? out_len_ o then room else out_len_ o in
    if take >? 0 then
      x ← slice (buf_ o) WINDOW_SIZE take;
      let '(ok, o) := to_sink o x in
      if negb ok then mret (SinkFailed, o) else mret (OutputCapExceeded, o)
    else mret (OutputCapExceeded, o)
  else
    x ← slice (buf_ o) WINDOW_SIZE (out_len_ o);
    let '(ok, o) := to_sink o x in
    if negb ok then mret (SinkFailed, o)
    else
      w ← slice (buf_ o) (out_len_ o) WINDOW_SIZE;
      b ← store (buf_ o) 0 w;
      mret (InflateOk, set_out o b 0 (window_fill_ o)).

Definition flush_if_full (o : Output K) : res (InflateError * Output K) :=
  if out_len_ o =? OUT_CHUNK then flush_output o else mret (InflateOk, o).

Fixpoint emit_loop (fuel : nat) (data : list Z) (o : Output K) : res (InflateError * Output K) :=
  match fuel with
  | O => Fuel
  | S fuel' =>
      if zlen data >? 0 then
        let chunk := Z.min (zlen data) (OUT_CHUNK -s out_len_ o) in
        x ← slice data 0 chunk;
        b ← store (buf_ o) (WINDOW_SIZE + out_len_ o) x;
        let o := set_out o b (out_len_ o + chunk) (Z.min WINDOW_SIZE (window_fill_ o + chunk)) in
        '(err, o) ← flush_if_full o;
        if decide (err = InflateOk) then emit_loop fuel' (view data chunk) o else mret (err, o)
      else mret (InflateOk, o)
  end.

Definition emit (data : list Z) (o : Output K) : res (InflateError * Output K) :=
  emit_loop (S (length data)) data o.

Definition emit_literal (b : Z) (o : Output K) : res (InflateError * Output K) :=
  buf ← store (buf_ o) (WINDOW_SIZE + out_len_ o) [b];
  flush_if_full (set_out o buf (out_len_ o + 1)
                   (if window_fill_ o <? WINDOW_SIZE then window_fill_ o + 1 else window_fill_ o)).

(** [memcpy] within the buffer is undefined when the ranges overlap. *)
Definition memcpy_within (l : list Z) (dst src n : Z) : res (list Z) :=
  if (0 <? n) && (dst <? src + n) && (src <? dst + n) then Fault
  else x ← slice l src n; store l dst x.

(** [while (left > 0)]: [src .. d) is periodic. *)
Fixpoint double_copy (fuel : nat) (l : list Z) (src d left : Z) : res (list Z) :=
  match fuel with
  | O => Fuel
  | S fuel' =>
      if left >? 0 then
        let n := Z.min (d - src) left in
        l ← memcpy_within l d src n;
        double_copy fuel' l src (d + n) (left - n)
      else Ok l
  end.

Definition copy_chunk (l : list Z) (dst dist chunk : Z) : res (list Z) :=
  let src := dst - dist in
  if dist >=? chunk then memcpy_within l dst src chunk
  else if dist =? 1 then
    b ← byte_at l src;
    store l dst (replicate (Z.to_nat chunk) b)
  else double_copy (S (Z.to_nat chunk)) l src dst chunk.

Fixpoint copy_loop (fuel : nat) (dist len : Z) (o : Output K) : res (InflateError * Output K) :=
  match fuel with
  | O => Fuel
  | S fuel' =>
      if len >? 0 then
        let chunk := Z.min len (OUT_CHUNK -s out_len_ o) in
        b ← copy_chunk (buf_ o) (WINDOW_SIZE + out_len_ o) dist chunk;
        let o := set_out o b (out_len_ o + chunk) (Z.min WINDOW_SIZE (window_fill_ o + chunk)) in
        '(err, o) ← flush_if_full o;
        if decide (err = InflateOk) then copy_loop fuel' dist (len - chunk) o else mret (err, o)
      else mret (InflateOk, o)
  end.

Definition window_copy (dist len : Z) (o : Output K) : res (InflateError * Output K) :=
  if (dist =? 0) || (dist >? window_fill_ o) then mret (DistanceTooFar, o)
  else copy_loop (S (Z.to_nat len)) dist len o.

End output.

(** ** Tables *)

Definition Tables : Type := HuffmanTable.HuffmanTable * HuffmanTable.HuffmanTable.

Definition fixed_lengths : list Z := replicate 144 8 ++ replicate 112 9 ++ replicate 24 7 ++ replicate 8 8.
Definition fixed_dist_lengths : list Z := replicate 32 5.

(** [None] in the result is an error; [fixed] caches the tables of a stream. *)
Definition build_fixed_tables (fixed : option Tables) : res (option Tables) :=
  match fixed with
  | Some t => mret (Some t)
  | None =>
      l ← HuffmanTable.build fixed_lengths false;
      match l with
      | None => mret None
      | Some l =>
          d ← HuffmanTable.build fixed_dist_lengths false;
          match d with None => mret None | Some d => mret (Some (l, d)) end
      end
  end.

Section tables.
Context {I : Type} `{ByteInput I}.

(** [clen_lengths[CODE_LENGTH_ORDER[i]] = get_bits(3)] for the orders left *)
Fixpoint read_clens (order : list Z) (clens : list Z) (r : Reader I) : res (option (list Z) * Reader I) :=
  match order with
  | [] => mret (Some clens, r)
  | i :: order =>
      '(v, r) ← get_bits 3 r;
      clens ← store clens i [u8 v];
      if truncated_ r then mret (None, r) else read_clens order clens r
  end.

(** [while (idx < total)] *)
Fixpoint read_lengths (fuel : nat) (clen : HuffmanTable.HuffmanTable) (total idx prev : Z) (all : list Z) (r : Reader I) :
    res (option (list Z) * Reader I) :=
  match fuel with
  | O => Fuel
  | S fuel' =>
      if idx <? total then
        '(entry, r) ← lookup_entry clen r;
        if entry =? 0 then mret (None, r)
        else
          let len := Z.shiftr entry 16 in
          if len >? real_bits_ r then mret (None, r)
          else
            let r := consume len r in
            let sym := Z.land entry 0xFFFF in
            if sym <? 16 then
              all ← store all idx [u8 sym];
              read_lengths fuel' clen total (idx + 1) sym all r
            else if sym =? 16 then
              if idx =? 0 then mret (None, r)
              else
                '(v, r) ← get_bits 2 r;
                let rep := 3 + v in
                if truncated_ r then mret (None, r)
                else if idx + rep >? total then mret (None, r)
                else
                  all ← store all idx (replicate (Z.to_nat rep) (u8 prev));
                  read_lengths fuel' clen total (idx + rep) prev all r
            else
              '(v, r) ← get_bits (if sym =? 17 then 3 else 7) r;
              let rep := (if sym =? 17 then 3 else 11) + v in
              if truncated_ r then mret (None, r)
              else if idx + rep >? total then mret (None, r)
              else read_lengths fuel' clen total (idx + rep) 0 all r
      else mret (Some all, r)
  end.

(** The incomplete codes that are let through. *)
Definition litlen_accepted (t : HuffmanTable.HuffmanTable) (hlit : Z) (all : list Z) : bool :=
  if HuffmanTable.complete t then true
  else if negb (nthZ (HuffmanTable.counts t) 1 =? 1) then false
  else if (hlit <=? 256) || negb (nthZ all 256 =? 1) then false
  else forallb (fun l => nthZ (HuffmanTable.counts t) l =? 0) (seqZ 2 14).

Definition dist_accepted (t : HuffmanTable.HuffmanTable) : bool :=
  if HuffmanTable.complete t then true
  else
    let single_len1 := nthZ (HuffmanTable.counts t) 1 =? 1 in
    let all_zero := forallb (fun l => nthZ (HuffmanTable.counts t) l =? 0) (seqZ 1 15) in
    single_len1 || all_zero.

(** The two tables of a dynamic block from the lengths read. *)
Definition build_alphabets (hlit hdist : Z) (all : list Z) : res (option Tables) :=
  x ← slice all 0 hlit;
  litlen ← HuffmanTable.build x true;
  match litlen with
  | None => mret None
  | Some litlen =>
      y ← slice all hlit hdist;
      dist ← HuffmanTable.build y true;
      match dist with
      | None => mret None
      | Some dist => if litlen_accepted litlen hlit all && dist_accepted dist then mret (Some (litlen, dist)) else mret None
      end
  end.

Definition read_dynamic_tables (r : Reader I) : res (option Tables * Reader I) :=
  '(v, r) ← get_bits 5 r;
  let hlit := v + 257 in
  if truncated_ r then mret (None, r) else
  '(v, r) ← get_bits 5 r;
  let hdist := v + 1 in
  if truncated_ r then mret (None, r) else
  '(v, r) ← get_bits 4 r;
  let hclen := v + 4 in
  if truncated_ r then mret (None, r) else
  if (hlit >? 286) || (hdist >? 30) then mret (None, r) else
  '(clens, r) ← read_clens (take (Z.to_nat hclen) CODE_LENGTH_ORDER) (replicate 19 0) r;
  match clens with
  | None => mret (None, r)
  | Some clens =>
      clen ← HuffmanTable.build clens false;
      match clen with
      | None => mret (None, r)
      | Some clen =>
          let total := hlit + hdist in
          '(all, r) ← read_lengths (S (Z.to_nat total)) clen total 0 0 (replicate (286 + 30) 0) r;
          match all with
          | None => mret (None, r)
          | Some all =>
              t ← build_alphabets hlit hdist all;
              mret (t, r)
          end
      end
  end.

End tables.

(** ** decode *)

Section decode.
Context {I K : Type} `{ByteInput I} `{OutputSink K}.

Fixpoint decode_block_body (fuel : nat) (t : Tables) (r : Reader I) (o : Output K) :
    res (InflateError * Reader I * Output K) :=
  match fuel with
  | O => Fuel
  | S fuel' =>
      '(sym, r) ← next_symbol t.1 r;
      match sym with
      | None => mret (if truncated_ r then TruncatedInput else BadHuffmanCode, r, o)
      | Some sym =>
          if sym <? 256 then
            '(err, o) ← emit_literal (u8 sym) o;
            if decide (err = InflateOk) then decode_block_body fuel' t r o else mret (err, r, o)
          else if sym =? 256 then mret (InflateOk, r, o)
          else if sym <=? 285 then
            '(base, extra) ← table_at LENGTH_TABLE (sym - 257);
            '(v, r) ← (if negb (extra =? 0) then get_bits extra r else mret (0, r));
            let mlen := base + v in
            if truncated_ r then mret (TruncatedInput, r, o) else
            '(dsym, r) ← next_symbol t.2 r;
            match dsym with
            | None => mret (if truncated_ r then TruncatedInput else BadHuffmanCode, r, o)
            | Some dsym =>
                if dsym >? 29 then mret (BadLiteralCode, r, o)
                else
                  '(base, extra) ← table_at DIST_TABLE dsym;
                  '(v, r) ← (if negb (extra =? 0) then get_bits extra r else mret (0, r));
                  let dist := base + v in
                  if truncated_ r then mret (TruncatedInput, r, o) else
                  '(err, o) ← window_copy dist mlen o;
                  if decide (err = InflateOk) then decode_block_body fuel' t r o else mret (err, r, o)
            end
          else mret (BadLiteralCode, r, o)
      end
  end.

(** [while (left > 0 && real_bits_ >= 8)] *)
Fixpoint drain_loop (fuel : nat) (left : Z) (r : Reader I) (o : Output K) : res (InflateError * Z * Reader I * Output K) :=
  match fuel with
  | O => Fuel
  | S fuel' =>
      if (left >? 0) && (real_bits_ r >=? 8) then
        '(v, r) ← get_bits 8 r;
        '(err, o) ← emit_literal (u8 v) o;
        if decide (err = InflateOk) then drain_loop fuel' (left - 1) r o else mret (err, left, r, o)
      else mret (InflateOk, left, r, o)
  end.

(** [in_pos_ += n; consumed_bits_ += n * 8] *)
Definition skip_input (n : Z) (r : Reader I) : Reader I :=
  set_bits r (in_pos_ r + n) (bit_acc_ r) (bit_count_ r) (real_bits_ r) (consumed_bits_ r +s n * 8).

(** [while (left > 0)]: straight from the staging buffer. *)
Fixpoint stored_loop (fuel : nat) (left : Z) (r : Reader I) (o : Output K) : res (InflateError * Reader I * Output K) :=
  match fuel with
  | O => Fuel
  | S fuel' =>
      if left >? 0 then
        let '(ok, r) := if in_pos_ r >=? in_end_ r then refill_input r else (true, r) in
        if negb ok then mret (TruncatedInput, r, o)
        else
          let n := Z.min left (in_end_ r - in_pos_ r) in
          x ← slice (in_buf_ r) (in_pos_ r) n;
          '(err, o) ← emit x o;
          if decide (err = InflateOk) then stored_loop fuel' (left - n) (skip_input n r) o else mret (err, r, o)
      else mret (InflateOk, r, o)
  end.

Definition decode_stored (r : Reader I) (o : Output K) : res (InflateError * Reader I * Output K) :=
  r ← align_byte r;
  if truncated_ r then mret (TruncatedInput, r, o) else
  '(len, r) ← get_bits 16 r;
  '(nlen, r) ← get_bits 16 r;
  if truncated_ r then mret (TruncatedInput, r, o)
  else if negb (Z.lxor len 0xFFFF =? nlen) then mret (BadStoredLen, r, o)
  else
    '(err, todo, r, o) ← drain_loop (S (Z.to_nat len)) len r o;
    if decide (err = InflateOk) then
      if (todo >? 0) && negb (bit_count_ r =? 0) then mret (TruncatedInput, r, o)
      else stored_loop (S (Z.to_nat todo)) todo r o
    else mret (err, r, o).

(** [for (;;)]: one block per turn. *)
Fixpoint decode_loop (fuel : nat) (fixed : option Tables) (r : Reader I) (o : Output K) :
    res (InflateError * Reader I * Output K) :=
  match fuel with
  | O => Fuel
  | S fuel' =>
      '(bfinal, r) ← get_bits 1 r;
      if truncated_ r then mret (TruncatedInput, r, o) else
      '(btype, r) ← get_bits 2 r;
      if truncated_ r then mret (TruncatedInput, r, o) else
      '(err, fixed, r, o) ←
        (if btype =? 0 then
           '(err, r, o) ← decode_stored r o; mret (err, fixed, r, o)
         else if btype =? 1 then
           t ← build_fixed_tables fixed;
           match t with
           | None => mret (OversubscribedCode, fixed, r, o)
           | Some t => '(err, r, o) ← decode_block_body fuel' t r o; mret (err, Some t, r, o)
           end
         else if btype =? 2 then
           '(t, r) ← read_dynamic_tables r;
           match t with
           | None => mret (if truncated_ r then TruncatedInput else BadCodeLengths, fixed, r, o)
           | Some t => '(err, r, o) ← decode_block_body fuel' t r o; mret (err, fixed, r, o)
           end
         else mret (BadBlockType, fixed, r, o));
      if decide (err = InflateOk) then
        if negb (bfinal =? 0) then '(err, o) ← flush_output o; mret (err, r, o)
        else decode_loop fuel' fixed r o
      else mret (err, r, o)
  end.

(** A decoder with buffer [buf] and cap [max_out] on one stream. *)
Definition decode (fuel : nat) (buf : list Z) (max_out : Z) (input : I) (sink : option K) :
    res (InflateError * Reader I * Output K) :=
  decode_loop fuel None (Reader_reset (Some input)) (Output_reset buf max_out sink).

End decode.
