(* ===== verification/InflateSpec.v ===== *)
(** DEFLATE as a function on bits, and the output buffer of the decoder
    against it.

    [Reference] is the format of RFC 1951 with the limits the decoder adds: a
    list of bits, the whole output as history, matches copied byte by byte, a
    cap on what is delivered.  [same_step] says that an output operation of
    [Inflate] delivers what the operation of [Reference] delivers and leaves
    the buffer holding the end of the history. *)

From Stdlib Require Import ZArith Lia.
From stdpp Require Import base tactics list numbers.
From S2P Require Import Prelude Bytes Arrays BitReader Huffman InflateBits InflateTable Inflate.

Local Open Scope Z_scope.
Local Open Scope size_scope.

(** ** The reference *)

Module Reference.

(** Everything produced so far, how much of it is not delivered yet, and the
    sink. *)
Record Out (K : Type) := { hist : list Z; pending : Z; total : Z; cap : Z; sink : option K }.

Arguments hist {K} o.
Arguments pending {K} o.
Arguments total {K} o.
Arguments cap {K} o.
Arguments sink {K} o.

Section out.
Context {K : Type} `{OutputSink K}.

Definition start (cap : Z) (sink : option K) : Out K :=
  {| hist := []; pending := 0; total := 0; cap := cap; sink := sink |}.

Definition deliver (x : list Z) (s : Out K) : bool * Out K :=
  match sink s with
  | None => (true, {| hist := hist s; pending := pending s; total := total s +s zlen x; cap := cap s; sink := None |})
  | Some k =>
      let '(ok, k) := sink_write k x in
      (ok, {| hist := hist s; pending := pending s; total := if ok then total s +s zlen x else total s; cap := cap s; sink := Some k |})
  end.

Definition undelivered (s : Out K) : list Z := drop (Z.to_nat (zlen (hist s) - pending s)) (hist s).

(** Deliver what is pending, up to the cap. *)
Definition flush (s : Out K) : InflateError * Out K :=
  if pending s =? 0 then (InflateOk, s)
  else if (total s +s pending s) >? cap s then
    let n := Z.min (cap s -s total s) (pending s) in
    if n >? 0 then
      let '(ok, s) := deliver (take (Z.to_nat n) (undelivered s)) s in
      (if ok then OutputCapExceeded else SinkFailed, s)
    else (OutputCapExceeded, s)
  else
    let '(ok, s) := deliver (undelivered s) s in
    if ok then (InflateOk, {| hist := hist s; pending := 0; total := total s; cap := cap s; sink := sink s |})
    else (SinkFailed, s).

Definition push (x : list Z) (s : Out K) : Out K :=
  {| hist := hist s ++ x; pending := pending s + zlen x; total := total s; cap := cap s; sink := sink s |}.

Definition flush_full (s : Out K) : InflateError * Out K :=
  if pending s =? OUT_CHUNK then flush s else (InflateOk, s).

Definition put_byte (b : Z) (s : Out K) : InflateError * Out K := flush_full (push [b] s).

Fixpoint put_bytes (l : list Z) (s : Out K) : InflateError * Out K :=
  match l with
  | [] => (InflateOk, s)
  | b :: l => let '(e, s) := put_byte b s in if decide (e = InflateOk) then put_bytes l s else (e, s)
  end.

End out.

(** The bytes a match adds to a history, one at a time. *)
Fixpoint lz (n : nat) (dist : Z) (h : list Z) : list Z :=
  match n with
  | O => []
  | S n' => let b := nthZ h (zlen h - dist) in b :: lz n' dist (h ++ [b])
  end.

Definition copy {K} `{OutputSink K} (dist len : Z) (s : Out K) : InflateError * Out K :=
  if (dist =? 0) || (dist >? Z.min WINDOW_SIZE (zlen (hist s))) then (DistanceTooFar, s)
  else put_bytes (lz (Z.to_nat len) dist (hist s)) s.

(** Bits, or nothing at the end of the input. *)
Definition get (n : Z) (bs : list bool) : option (Z * list bool) :=
  if n <=? zlen bs then Some (lval (take (Z.to_nat n) bs), drop (Z.to_nat n) bs) else None.

Inductive Symbol := Sym (s : Z) (bs : list bool) | NoCode | Cut.

Definition symbol (lens : list Z) (bs : list bool) : Symbol :=
  match resolve lens bs with
  | Some s => if nthZ lens s <=? zlen bs then Sym s (drop (Z.to_nat (nthZ lens s)) bs) else Cut
  | None => NoCode
  end.

(** A value with extra bits. *)
Definition extra_value (table : list (Z * Z)) (i : Z) (bs : list bool) : option (Z * list bool) :=
  match table !! Z.to_nat i with
  | Some (base, extra) => match get extra bs with Some (v, bs) => Some (base + v, bs) | None => None end
  | None => None
  end.

Section body.
Context {K : Type} `{OutputSink K}.

Fixpoint body (fuel : nat) (ll dl : list Z) (bs : list bool) (s : Out K) : res (InflateError * list bool * Out K) :=
  match fuel with
  | O => Fuel
  | S fuel' =>
      match symbol ll bs with
      | NoCode => Ok (BadHuffmanCode, bs, s)
      | Cut => Ok (TruncatedInput, bs, s)
      | Sym sym bs =>
          if sym <? 256 then
            let '(e, s) := put_byte sym s in
            if decide (e = InflateOk) then body fuel' ll dl bs s else Ok (e, bs, s)
          else if sym =? 256 then Ok (InflateOk, bs, s)
          else if sym <=? 285 then
            match extra_value LENGTH_TABLE (sym - 257) bs with
            | None => Ok (TruncatedInput, bs, s)
            | Some (len, bs) =>
                match symbol dl bs with
                | NoCode => Ok (BadHuffmanCode, bs, s)
                | Cut => Ok (TruncatedInput, bs, s)
                | Sym dsym bs =>
                    if dsym >? 29 then Ok (BadLiteralCode, bs, s)
                    else
                      match extra_value DIST_TABLE dsym bs with
                      | None => Ok (TruncatedInput, bs, s)
                      | Some (dist, bs) =>
                          let '(e, s) := copy dist len s in
                          if decide (e = InflateOk) then body fuel' ll dl bs s else Ok (e, bs, s)
                      end
                end
            end
          else Ok (BadLiteralCode, bs, s)
      end
  end.

(** Whole bytes of a stored block, as far as there are any. *)
Fixpoint stored (n : nat) (bs : list bool) (s : Out K) : InflateError * list bool * Out K :=
  match n with
  | O => (InflateOk, bs, s)
  | S n' =>
      match get 8 bs with
      | None => (TruncatedInput, bs, s)
      | Some (b, bs') => let '(e, s) := put_byte b s in if decide (e = InflateOk) then stored n' bs' s else (e, bs', s)
      end
  end.

End body.

(** The code lengths of the code-length alphabet, three bits each. *)
Fixpoint clens (order lens : list Z) (bs : list bool) : option (list Z * list bool) :=
  match order with
  | [] => Some (lens, bs)
  | i :: order => match get 3 bs with Some (v, bs) => clens order (setZ lens i v) bs | None => None end
  end.

(** The run-length coded lengths: [acc] are those known, an error says
    whether the bits ran out. *)
Fixpoint lengths (fuel : nat) (cl : list Z) (n : Z) (acc : list Z) (bs : list bool) : res (list Z + InflateError) * list bool :=
  match fuel with
  | O => (Fuel, bs)
  | S fuel' =>
      if zlen acc <? n then
        match symbol cl bs with
        | Sym sym bs =>
            if sym <? 16 then lengths fuel' cl n (acc ++ [sym]) bs
            else if (sym =? 16) && (zlen acc =? 0) then (Ok (inr BadCodeLengths), bs)
            else
              let '(width, least, v) :=
                if sym =? 16 then (2, 3, nthZ acc (zlen acc - 1)) else if sym =? 17 then (3, 3, 0) else (7, 11, 0) in
              match get width bs with
              | None => (Ok (inr TruncatedInput), bs)
              | Some (k, bs) =>
                  if zlen acc + (least + k) >? n then (Ok (inr BadCodeLengths), bs)
                  else lengths fuel' cl n (acc ++ replicate (Z.to_nat (least + k)) v) bs
              end
        | _ => (Ok (inr BadCodeLengths), bs)
        end
      else (Ok (inl acc), bs)
  end.

Definition is_complete (lens : list Z) : bool := upto lens 15 =? 2 ^ 15.

Definition lit_accepted (lens : list Z) : bool :=
  is_complete lens ||
  ((cnt lens 1 =? 1) && (256 <? zlen lens) && (nthZ lens 256 =? 1) && forallb (fun l => cnt lens l =? 0) (seqZ 2 14)).

Definition dist_accepted (lens : list Z) : bool :=
  is_complete lens || (cnt lens 1 =? 1) || forallb (fun l => cnt lens l =? 0) (seqZ 1 15).

(** The two code-length lists of a dynamic block. *)
Definition dynamic (bs : list bool) : res ((list Z * list Z) + InflateError) * list bool :=
  match get 5 bs with
  | None => (Ok (inr TruncatedInput), bs)
  | Some (a, bs) =>
  match get 5 bs with
  | None => (Ok (inr TruncatedInput), bs)
  | Some (b, bs) =>
  match get 4 bs with
  | None => (Ok (inr TruncatedInput), bs)
  | Some (c, bs) =>
      let hlit := a + 257 in
      let hdist := b + 1 in
      if (hlit >? 286) || (hdist >? 30) then (Ok (inr BadCodeLengths), bs)
      else
        match clens (take (Z.to_nat (c + 4)) CODE_LENGTH_ORDER) (replicate 19 0) bs with
        | None => (Ok (inr TruncatedInput), bs)
        | Some (cl, bs) =>
            if negb (is_complete cl) then (Ok (inr BadCodeLengths), bs)
            else
              let '(r, bs) := lengths (S (Z.to_nat (hlit + hdist))) cl (hlit + hdist) [] bs in
              (r ← r;
               match r with
               | inr e => mret (inr e)
               | inl all =>
                   let ll := take (Z.to_nat hlit) all in
                   let dl := drop (Z.to_nat hlit) all in
                   if (upto ll 15 <=? 2 ^ 15) && (upto dl 15 <=? 2 ^ 15) && lit_accepted ll && dist_accepted dl
                   then mret (inl (ll, dl)) else mret (inr BadCodeLengths)
               end, bs)
        end
  end
  end
  end.

Definition stored_block {K} `{OutputSink K} (bs : list bool) (s : Out K) : InflateError * list bool * Out K :=
  let bs := drop (Z.to_nat (zlen bs mod 8)) bs in
  match get 16 bs with
  | None => (TruncatedInput, bs, s)
  | Some (len, bs) =>
      match get 16 bs with
      | None => (TruncatedInput, bs, s)
      | Some (nlen, bs) =>
          if negb (Z.lxor len 0xFFFF =? nlen) then (BadStoredLen, bs, s) else stored (Z.to_nat len) bs s
      end
  end.

(** Blocks up to the one marked final. *)
Fixpoint blocks {K} `{OutputSink K} (fuel : nat) (bs : list bool) (s : Out K) : res (InflateError * list bool * Out K) :=
  match fuel with
  | O => Fuel
  | S fuel' =>
      match get 1 bs with
      | None => Ok (TruncatedInput, bs, s)
      | Some (final, bs) =>
          match get 2 bs with
          | None => Ok (TruncatedInput, bs, s)
          | Some (btype, bs) =>
              '(e, bs, s) ←
                (if btype =? 0 then Ok (stored_block bs s)
                 else if btype =? 1 then body fuel' fixed_lengths fixed_dist_lengths bs s
                 else if btype =? 2 then
                   let '(r, bs) := dynamic bs in
                   r ← r;
                   match r with
                   | inr e => Ok (e, bs, s)
                   | inl (ll, dl) => body fuel' ll dl bs s
                   end
                 else Ok (BadBlockType, bs, s));
              if decide (e = InflateOk) then
                if negb (final =? 0) then let '(e, s) := flush s in Ok (e, bs, s) else blocks fuel' bs s
              else Ok (e, bs, s)
          end
      end
  end.

(** A stream of bytes. *)
Definition inflate {K} `{OutputSink K} (fuel : nat) (cap : Z) (sink : option K) (data : list Z) : res (InflateError * list bool * Out K) :=
  blocks fuel (bits_of data) (start cap sink).

End Reference.

(** ** The output buffer *)

Import Reference.

Lemma lz_length n dist h : zlen (lz n dist h) = Z.of_nat n.
Proof. revert h. induction n as [|n IH]; intros h; [reflexivity|]. cbn [lz]. rewrite zlen_cons, IH. lia. Qed.

Lemma lz_app m n dist h : lz (m + n) dist h = lz m dist h ++ lz n dist (h ++ lz m dist h).
Proof.
  revert h. induction m as [|m IH]; intros h; cbn [lz Nat.add app]; [now rewrite app_nil_r|].
  rewrite IH. cbn [app]. do 2 f_equal. now rewrite <- app_assoc.
Qed.

Lemma nthZ_past (a b : list Z) i : zlen a <= i -> nthZ (a ++ b) i = nthZ b (i - zlen a).
Proof.
  intros H. unfold nthZ. rewrite app_nth2 by (unfold zlen in H; lia). f_equal. unfold zlen. lia.
Qed.

(** Only the last [dist] bytes matter. *)
Lemma lz_tail n dist a h : 0 < dist <= zlen h -> lz n dist (a ++ h) = lz n dist h.
Proof.
  revert h. induction n as [|n IH]; intros h Hd; [reflexivity|]. cbn [lz].
  assert (E : nthZ (a ++ h) (zlen (a ++ h) - dist) = nthZ h (zlen h - dist)).
  { rewrite zlen_app, nthZ_past by lia. f_equal. lia. }
  rewrite E, <- app_assoc, IH by (rewrite zlen_app; change (zlen [nthZ h (zlen h - dist)]) with 1; lia). reflexivity.
Qed.

(** A match no longer than its distance repeats the bytes it refers to. *)
Lemma lz_short n p : Z.of_nat n <= zlen p -> lz n (zlen p) p = take n p.
Proof.
  intros H. assert (G : forall m a, (length a + m = n)%nat -> (n <= length p)%nat ->
    take (length a) p = a -> lz m (zlen p) (p ++ a) = take m (drop (length a) p)).
  { induction m as [|m IH]; intros a Hm Hn Ha; [reflexivity|]. cbn [lz].
    rewrite zlen_app. replace (zlen p + zlen a - zlen p) with (zlen a) by lia.
    destruct (lookup_lt_is_Some_2 p (length a)) as [b Hb]; [lia|].
    assert (Eb : nthZ (p ++ a) (zlen a) = b).
    { unfold nthZ, zlen. rewrite Nat2Z.id, app_nth1 by lia. now apply nth_lookup_Some. }
    rewrite Eb, (drop_S p b (length a)) by exact Hb. cbn [take]. f_equal. rewrite <- app_assoc, (IH (a ++ [b])).
    - rewrite length_app. cbn [length]. now replace (length a + 1)%nat with (S (length a)) by lia.
    - rewrite length_app. cbn [length]. lia.
    - exact Hn.
    - rewrite length_app. cbn [length]. replace (length a + 1)%nat with (S (length a)) by lia.
      now rewrite (take_S_r p (length a) b), Ha by exact Hb. }
  specialize (G n [] ltac:(cbn; lia) ltac:(unfold zlen in H; lia) eq_refl). now rewrite app_nil_r in G.
Qed.

(** A whole period of a match is the bytes it refers to. *)
Lemma lz_period p : lz (length p) (zlen p) p = p.
Proof. rewrite lz_short by (unfold zlen; lia). now apply take_ge. Qed.

(** Whole periods in place, the next bytes repeat from the start of the run. *)
Lemma lz_periods p m n :
  0 < zlen p -> (n <= length p + m * length p)%nat ->
  lz n (zlen p) (p ++ lz (m * length p) (zlen p) p) = take n (p ++ lz (m * length p) (zlen p) p).
Proof.
  intros Hp Hn.
  assert (G : forall k, lz (length p + k) (zlen p) p = p ++ lz k (zlen p) p).
  { intros k. rewrite lz_app, lz_period. f_equal. apply lz_tail. lia. }
  assert (E : forall j, lz n (zlen p) (p ++ lz (j * length p) (zlen p) p) = lz n (zlen p) p).
  { induction j as [|j IH]; [cbn [Nat.mul lz]; now rewrite app_nil_r|].
    cbn [Nat.mul]. rewrite G, app_assoc. rewrite <- (app_assoc p p). rewrite lz_tail by zlen_lia. exact IH. }
  rewrite E. rewrite <- G. replace (length p + m * length p)%nat with (n + (length p + m * length p - n))%nat by lia.
  rewrite lz_app. symmetry. apply take_app_length'. apply Nat2Z.inj. apply lz_length || (symmetry; apply lz_length).
Qed.

Lemma store_at a x b y i : i = zlen a -> zlen y = zlen x -> store (a ++ x ++ b) i y = Ok (a ++ y ++ b).
Proof. intros -> H. now apply store_split. Qed.

Lemma slice_at a x b i n : i = zlen a -> n = zlen x -> slice (a ++ x ++ b) i n = Ok x.
Proof. intros -> ->. apply (slice_view _ _ _ b); [zlen_lia | now apply view_app]. Qed.

Lemma memcpy_within_at a x m y b dst src n z :
  src = zlen a -> dst = zlen a + zlen x + zlen m -> n = zlen x -> zlen y = zlen x ->
  z = a ++ x ++ m ++ y ++ b -> memcpy_within z dst src n = Ok (a ++ x ++ m ++ x ++ b).
Proof.
  intros -> -> -> Hy ->. unfold memcpy_within. assert (P := zlen_nonneg m). assert (Px := zlen_nonneg x).
  destruct ((0 <? zlen x) && _ && _) eqn:E.
  { apply andb_true_iff in E as [E E2]. apply andb_true_iff in E as [E0 E1]. lia. }
  rewrite (slice_at a x) by reflexivity. rewrite bind_ok.
  replace (a ++ x ++ m ++ y ++ b) with ((a ++ x ++ m) ++ y ++ b) by (now rewrite <- !app_assoc).
  rewrite store_at by (rewrite ?zlen_app; lia). now rewrite <- !app_assoc.
Qed.

(** The doubling: [k] whole periods are in place. *)
Lemma double_copy_spec fuel a p m y b z :
  0 < zlen p -> z = a ++ p ++ lz (m * length p) (zlen p) p ++ y ++ b ->
  zlen y < Z.of_nat fuel ->
  double_copy fuel z (zlen a) (zlen a + zlen p + Z.of_nat (m * length p)) (zlen y) =
  Ok (a ++ p ++ lz (m * length p + length y) (zlen p) p ++ b).
Proof.
  revert m y z. induction fuel as [|fuel IH]; intros m y z Hp -> Hf; [zlen_pose; lia|]. cbn [double_copy].
  destruct (Z.gtb_spec (zlen y) 0) as [Hy|Hy].
  2: { assert (y = []) as -> by (apply zlen_zero_nil; zlen_pose; lia). now rewrite Nat.add_0_r. }
  set (k := (m * length p)%nat). set (R := p ++ lz k (zlen p) p).
  assert (HR : zlen R = zlen p + Z.of_nat k) by (unfold R; rewrite zlen_app, lz_length; lia).
  replace (zlen a + zlen p + Z.of_nat k - zlen a) with (zlen R) by lia.
  assert (HRapp : forall q, R ++ q = p ++ lz k (zlen p) p ++ q) by (intros q; unfold R; now rewrite <- app_assoc).
  set (n := Z.min (zlen R) (zlen y)).
  assert (Hn : 0 < n <= zlen y /\ n <= zlen R) by (unfold n; zlen_pose; lia).
  assert (Enext : take (Z.to_nat n) R = lz (Z.to_nat n) (zlen p) R).
  { symmetry. apply lz_periods; [exact Hp|]. fold k. unfold zlen in HR, Hn. lia. }
  assert (Hcopy : memcpy_within (a ++ p ++ lz k (zlen p) p ++ y ++ b) (zlen a + zlen p + Z.of_nat k) (zlen a) n =
                  Ok (a ++ R ++ lz (Z.to_nat n) (zlen p) R ++ drop (Z.to_nat n) y ++ b)).
  { rewrite <- Enext.
    rewrite (memcpy_within_at a (take (Z.to_nat n) R) (drop (Z.to_nat n) R) (take (Z.to_nat n) y) (drop (Z.to_nat n) y ++ b)).
    - rewrite (app_assoc (take _ R) (drop _ R)), take_drop. reflexivity.
    - reflexivity.
    - rewrite zlen_take, zlen_drop by lia. lia.
    - rewrite zlen_take by lia. reflexivity.
    - rewrite !zlen_take by lia. reflexivity.
    - rewrite (app_assoc (take (Z.to_nat n) y)), take_drop, (app_assoc (take (Z.to_nat n) R)), take_drop.
      unfold R. now rewrite <- !app_assoc. }
  rewrite Hcopy, bind_ok.
  assert (Hly : zlen (drop (Z.to_nat n) y) = zlen y - n) by (apply zlen_drop; lia).
  destruct (Z.eq_dec n (zlen y)) as [En|En].
  - (* the last step *)
    rewrite En, Z.sub_diag. destruct fuel as [|fuel]; [lia|]. cbn [double_copy]. change (0 >? 0) with false. cbn iota.
    rewrite En in Hly. rewrite (zlen_zero_nil (drop _ y)) by lia. cbn [app]. unfold R.
    fold k. rewrite lz_app. fold R. replace (Z.to_nat (zlen y)) with (length y) by (unfold zlen; lia).
    rewrite HRapp, <- !app_assoc. reflexivity.
  - assert (En' : n = zlen R) by (unfold n in *; lia).
    assert (Ek : ((1 + m + m) * length p = k + Z.to_nat n)%nat) by (rewrite En', HR; unfold k, zlen; lia).
    assert (Er : R ++ lz (Z.to_nat n) (zlen p) R = p ++ lz ((1 + m + m) * length p) (zlen p) p)
      by (rewrite Ek, lz_app; fold R; apply HRapp).
    assert (Hd := IH (1 + m + m)%nat (drop (Z.to_nat n) y) (a ++ R ++ lz (Z.to_nat n) (zlen p) R ++ drop (Z.to_nat n) y ++ b) Hp).
    rewrite Hly in Hd. replace (zlen a + zlen p + Z.of_nat ((1 + m + m) * length p)) with (zlen a + zlen p + Z.of_nat k + n) in Hd by lia.
    rewrite Hd by (lia || (rewrite (app_assoc R), Er, <- !app_assoc; reflexivity)).
    replace ((1 + m + m) * length p + length (drop (Z.to_nat n) y))%nat with (k + length y)%nat; [reflexivity|].
    rewrite Ek, length_drop. unfold zlen in *. lia.
Qed.

Lemma copy_chunk_spec pre th y post dist z :
  z = pre ++ th ++ y ++ post -> 0 < dist <= zlen th ->
  copy_chunk z (zlen pre + zlen th) dist (zlen y) = Ok (pre ++ th ++ lz (length y) dist th ++ post).
Proof.
  intros -> Hd. destruct (list_cut th (zlen th - dist)) as (u & p & -> & Hu); [lia|].
  rewrite zlen_app in *. assert (Hp : zlen p = dist) by lia. subst dist. rewrite lz_tail by lia.
  unfold copy_chunk. destruct (Z.geb_spec (zlen p) (zlen y)) as [Hc|Hc].
  - rewrite lz_short by (change (Z.of_nat (length y)) with (zlen y); lia).
    rewrite (memcpy_within_at (pre ++ u) (take (length y) p) (drop (length y) p) y post).
    + rewrite <- !app_assoc. do 3 f_equal. rewrite (app_assoc (take _ p) (drop _ p)), take_drop. reflexivity.
    + rewrite zlen_app. lia.
    + rewrite zlen_app. unfold zlen in *. rewrite length_take, length_drop. lia.
    + unfold zlen in *. rewrite length_take. lia.
    + unfold zlen in *. rewrite length_take. lia.
    + rewrite <- !app_assoc. do 2 f_equal. rewrite (app_assoc (take _ p) (drop _ p)), take_drop. reflexivity.
  - destruct (Z.eqb_spec (zlen p) 1) as [H1|H1].
    + destruct p as [|b [|c p]]; [change (zlen (@nil Z)) with 0 in H1; lia | | rewrite !zlen_cons in H1; zlen_pose; lia].
      assert (Hb : byte_at (pre ++ (u ++ [b]) ++ y ++ post) (zlen pre + (zlen u + zlen [b]) - zlen [b]) = Ok b).
      { apply (byte_at_view _ _ b (y ++ post)); [zlen_pose; lia|].
        replace (zlen pre + (zlen u + zlen [b]) - zlen [b]) with (zlen (pre ++ u)) by (rewrite zlen_app; lia).
        rewrite <- app_assoc, app_assoc. now apply view_app. }
      rewrite Hb, bind_ok. rewrite Nat2Z.id || idtac.
      assert (Hl : lz (length y) (zlen [b]) [b] = replicate (length y) b).
      { generalize (length y). intros n. assert (G : forall h, lz n 1 (h ++ [b]) = replicate n b).
        { induction n as [|n IH]; intros h; [reflexivity|]. cbn [lz replicate].
          assert (E : nthZ (h ++ [b]) (zlen (h ++ [b]) - 1) = b).
          { rewrite zlen_app. change (zlen [b]) with 1. replace (zlen h + 1 - 1) with (zlen h) by lia. apply nthZ_middle. }
          rewrite E, IH. reflexivity. }
        exact (G []). }
      rewrite Hl. replace (Z.to_nat (zlen y)) with (length y) by (unfold zlen; lia).
      replace (pre ++ (u ++ [b]) ++ y ++ post) with ((pre ++ u ++ [b]) ++ y ++ post) by (now rewrite <- !app_assoc).
      rewrite store_at; [now rewrite <- !app_assoc | rewrite !zlen_app; lia | rewrite zlen_replicate; reflexivity].
    + assert (Hdc := double_copy_spec (S (Z.to_nat (zlen y))) (pre ++ u) p 0 y post (pre ++ (u ++ p) ++ y ++ post) ltac:(lia)).
      cbn [Nat.mul lz app Nat.add] in Hdc. rewrite zlen_app in Hdc.
      replace (zlen pre + (zlen u + zlen p) - zlen p) with (zlen pre + zlen u) by lia.
      replace (zlen pre + (zlen u + zlen p)) with (zlen pre + zlen u + zlen p + Z.of_nat 0) by lia.
      rewrite Hdc by (now rewrite <- !app_assoc || lia). now rewrite <- !app_assoc.
Qed.

Section output_rel.
Context {K : Type} `{OutputSink K}.

(** What is delivered is the same in any case. *)
Record delivered (o : Output K) (s : Out K) : Prop := {
  dv_total : total_out_ o = total s;
  dv_cap : max_out_ o = cap s;
  dv_sink : sink_ o = sink s
}.

(** The buffer holds the end of the history up to the write position. *)
Record out_rel (o : Output K) (s : Out K) : Prop := {
  or_delivered : delivered o s;
  or_size : zlen (buf_ o) = WINDOW_SIZE + OUT_CHUNK;
  or_len : out_len_ o = pending s;
  or_pending : 0 <= pending s <= OUT_CHUNK /\ pending s <= zlen (hist s);
  or_fill : window_fill_ o = Z.min WINDOW_SIZE (zlen (hist s));
  or_buf : exists pre th post h0, buf_ o = pre ++ th ++ post /\ zlen pre + zlen th = WINDOW_SIZE + pending s /\
             zlen th = Z.min (zlen (hist s)) (WINDOW_SIZE + pending s) /\ hist s = h0 ++ th
}.

(** Between two operations the chunk is not full. *)
Definition ready (o : Output K) (s : Out K) : Prop := out_rel o s /\ pending s < OUT_CHUNK.

(** An operation of the decoder that does what one of the reference does. *)
Definition same_step (m : res (InflateError * Output K)) (x : InflateError * Out K) : Prop :=
  exists o', m = Ok (x.1, o') /\ delivered o' x.2 /\ (x.1 = InflateOk -> ready o' x.2).

Lemma to_sink_same o s x :
  delivered o s ->
  exists ok o' s', to_sink o x = (ok, o') /\ deliver x s = (ok, s') /\ delivered o' s' /\
    buf_ o' = buf_ o /\ out_len_ o' = out_len_ o /\ window_fill_ o' = window_fill_ o /\ hist s' = hist s /\ pending s' = pending s.
Proof.
  intros [D1 D2 D3]. unfold to_sink, deliver. rewrite D3. destruct (sink s) as [k|].
  - destruct (sink_write k x) as [ok k']. eexists ok, _, _. split_and!; try reflexivity.
    split; cbn; auto. now rewrite D1.
  - eexists true, _, _. split_and!; try reflexivity. split; cbn; auto. now rewrite D1.
Qed.

Lemma out_rel_push o s x pre th post post' h0 :
  out_rel o s -> buf_ o = pre ++ th ++ post -> zlen pre + zlen th = WINDOW_SIZE + pending s ->
  zlen th = Z.min (zlen (hist s)) (WINDOW_SIZE + pending s) -> hist s = h0 ++ th ->
  zlen x + zlen post' = zlen post -> pending s + zlen x <= OUT_CHUNK ->
  out_rel (set_out o (pre ++ th ++ x ++ post') (out_len_ o + zlen x) (Z.min WINDOW_SIZE (window_fill_ o + zlen x))) (push x s).
Proof.
  intros [[D1 D2 D3] S1 S2 [S3 S3'] S4 _] Eb Epre Eth Eh Hx Hfit. assert (Px := zlen_nonneg x).
  split; cbn [push hist pending total cap sink set_out buf_ out_len_ window_fill_ total_out_ max_out_ sink_].
  - now split.
  - rewrite Eb in S1. rewrite !zlen_app in *. lia.
  - lia.
  - rewrite zlen_app. lia.
  - rewrite S4, zlen_app. lia.
  - exists pre, (th ++ x), post', h0. rewrite !zlen_app. split_and!; [now rewrite <- app_assoc | lia | lia | now rewrite Eh, <- app_assoc].
Qed.

Lemma flush_same o s : out_rel o s -> pending s <= OUT_CHUNK -> 
  exists o', flush_output o = Ok ((flush s).1, o') /\ delivered o' (flush s).2 /\
    ((flush s).1 = InflateOk -> out_rel o' (flush s).2 /\ pending (flush s).2 = 0).
Proof.
  intros Hr _. assert (Hr' := Hr). destruct Hr' as [Hd S1 S2 [S3 S3'] S4 (pre & th & post & h0 & Eb & Epre & Eth & Eh)].
  unfold flush_output, flush. rewrite S2. destruct (Z.eqb_spec (pending s) 0) as [E0|E0].
  { exists o. cbn. auto. }
  destruct (list_cut th (zlen th - pending s)) as (t1 & t2 & Et & Ht1); [unfold WINDOW_SIZE in *; zlen_pose; lia|].
  assert (Ht2 : zlen t2 = pending s) by (rewrite Et, zlen_app in Ht1; lia).
  assert (Hund : undelivered s = t2).
  { unfold undelivered. rewrite Eh, Et, app_assoc. rewrite drop_app_length'; [reflexivity|].
    rewrite !zlen_app in *. unfold zlen in *. rewrite length_app. lia. }
  assert (Hslice : forall n, 0 <= n <= pending s -> slice (buf_ o) WINDOW_SIZE n = Ok (take (Z.to_nat n) t2)).
  { intros n Hn. rewrite Eb, Et. replace (pre ++ (t1 ++ t2) ++ post) with ((pre ++ t1) ++ take (Z.to_nat n) t2 ++ drop (Z.to_nat n) t2 ++ post).
    - apply slice_at; [rewrite zlen_app; rewrite Et, zlen_app in Epre; lia | rewrite zlen_take; lia].
    - rewrite (app_assoc (take _ t2)), take_drop, <- !app_assoc. reflexivity. }
  destruct Hd as [D1 D2 D3]. rewrite D1, D2. destruct (_ >? cap s).
  - replace (if cap s -s total s <? pending s then cap s -s total s else pending s) with (Z.min (cap s -s total s) (pending s))
      by (destruct (Z.ltb_spec (cap s -s total s) (pending s)); lia).
    destruct (Z.gtb_spec (Z.min (cap s -s total s) (pending s)) 0) as [Hn|Hn].
    + rewrite Hslice, bind_ok by lia. rewrite Hund.
      destruct (to_sink_same o s (take (Z.to_nat (Z.min (cap s -s total s) (pending s))) t2)) as (ok & o' & s' & T1 & T2 & T3 & _); [now split|].
      rewrite T1, T2. exists o'. destruct ok; cbn; (split; [reflexivity|]); (split; [exact T3 | discriminate]).
    + exists o. cbn. split; [reflexivity|]. split; [now split | discriminate].
  - rewrite Hslice, bind_ok by lia. rewrite take_ge by (unfold zlen in Ht2; lia). rewrite Hund.
    destruct (to_sink_same o s t2) as (ok & o' & s' & T1 & T2 & T3 & T4 & T5 & T6 & T7 & T8); [now split|].
    rewrite T1, T2. destruct ok; cbn [negb].
    2: { exists o'. cbn. split; [reflexivity|]. split; [exact T3 | discriminate]. }
    rewrite T4, T5, S2. destruct (list_cut (pre ++ th) (pending s)) as (d & w & Ed & Hdl); [rewrite zlen_app; unfold WINDOW_SIZE in *; lia|].
    assert (Hw : zlen w = WINDOW_SIZE) by (apply (f_equal zlen) in Ed; rewrite !zlen_app in Ed; lia).
    assert (Ebuf : buf_ o = d ++ w ++ post) by (rewrite Eb, app_assoc, Ed, <- app_assoc; reflexivity).
    rewrite Ebuf, (slice_at d w post), bind_ok by lia.
    destruct (list_cut (d ++ w ++ post) WINDOW_SIZE) as (f & g & Ef & Hf).
    { rewrite <- Ebuf, S1. unfold WINDOW_SIZE, OUT_CHUNK. lia. }
    rewrite Ef. assert (Hst : store (f ++ g) 0 w = Ok (w ++ g)) by (apply (store_at [] f g w 0); [reflexivity | lia]).
    rewrite Hst, bind_ok. eexists. split; [reflexivity|]. destruct T3 as [U1 U2 U3].
    cbn [fst snd]. split; [now split|]. intros _. split; [|reflexivity].
    split; cbn [set_out hist pending total cap sink buf_ out_len_ window_fill_ total_out_ max_out_ sink_].
    + now split.
    + rewrite <- S1, Ebuf, Ef, !zlen_app. lia.
    + reflexivity.
    + unfold OUT_CHUNK. zlen_pose; lia.
    + now rewrite T6, T7.
    + rewrite T7. destruct (Z.le_gt_cases WINDOW_SIZE (zlen th)) as [Hwt|Hwt].
      * destruct (list_cut th (zlen th - WINDOW_SIZE)) as (v1 & v2 & Ev & Hv); [unfold WINDOW_SIZE in *; lia|].
        assert (w = v2) as ->.
        { rewrite Ev, app_assoc in Ed. apply app_inj_2 in Ed as [_ Ed]; [now symmetry|].
          rewrite Ev, zlen_app in Hv. unfold zlen in *. lia. }
        exists [], v2, g, (h0 ++ v1). cbn [app]. change (zlen (@nil Z)) with 0.
        assert (zlen th <= zlen (hist s)) by lia.
        split_and!; [reflexivity | lia | lia | rewrite Eh, Ev, <- app_assoc; reflexivity].
      * assert (Hall : zlen th = zlen (hist s)) by (unfold WINDOW_SIZE in *; lia).
        assert (Hh0 : h0 = []) by (apply zlen_zero_nil; rewrite Eh, zlen_app in Hall; lia).
        destruct (list_cut w (WINDOW_SIZE - zlen th)) as (v1 & v2 & Ev & Hv); [zlen_pose; lia|].
        assert (v2 = th) as ->.
        { rewrite Ev, app_assoc in Ed. apply app_inj_2 in Ed as [_ Ed]; [now symmetry|].
          rewrite Ev, zlen_app in Hw. unfold zlen in *. lia. }
        exists v1, th, g, []. rewrite Ev, Hh0 in *. split_and!; [now rewrite <- app_assoc | lia | lia | exact Eh].
Qed.

Lemma flush_if_full_same o s : out_rel o s -> same_step (flush_if_full o) (flush_full s).
Proof.
  intros Hr. unfold flush_if_full, flush_full. rewrite (or_len o s Hr). destruct (or_pending o s Hr) as [Hp _].
  destruct (Z.eqb_spec (pending s) OUT_CHUNK) as [E|E].
  - destruct (flush_same o s Hr) as (o' & F1 & F2 & F3); [lia|]. exists o'. split_and!; auto.
    intros He. destruct (F3 He) as [F4 F5]. split; [exact F4|]. unfold OUT_CHUNK. lia.
  - exists o. split_and!; [reflexivity | apply (or_delivered o s Hr) |]. intros _. split; [exact Hr | cbn [snd]; lia].
Qed.

(** *** Bytes in bulk *)

Lemma flush_full_hist s : hist (flush_full s).2 = hist s.
Proof.
  unfold flush_full. destruct (_ =? _); [|reflexivity]. unfold flush.
  assert (G : forall x, hist (deliver x s).2 = hist s).
  { intros x. unfold deliver. destruct (sink s) as [k|]; [|reflexivity]. now destruct (sink_write k x). }
  destruct (_ =? 0); [reflexivity|]. destruct (_ >? cap s).
  - destruct (_ >? 0); [|reflexivity]. specialize (G (take (Z.to_nat (Z.min (cap s -s total s) (pending s))) (undelivered s))).
    destruct (deliver _ s) as [ok s']. exact G.
  - specialize (G (undelivered s)). destruct (deliver _ s) as [[] s']; exact G.
Qed.

Lemma put_bytes_cons b l s :
  put_bytes (b :: l) s = let '(e, s) := put_byte b s in if decide (e = InflateOk) then put_bytes l s else (e, s).
Proof. reflexivity. Qed.

Lemma put_bytes_app x y s :
  put_bytes (x ++ y) s = let '(e, s) := put_bytes x s in if decide (e = InflateOk) then put_bytes y s else (e, s).
Proof.
  revert s. induction x as [|b x IH]; intros s; [reflexivity|]. cbn [app]. rewrite !put_bytes_cons.
  destruct (put_byte b s) as [e s']. destruct (decide (e = InflateOk)) as [He|He]; [apply IH|].
  destruct (decide (e = InflateOk)); [contradiction | reflexivity].
Qed.

(** A piece that fits the chunk is flushed at most once, at its end. *)
Lemma put_bytes_bulk x s :
  x <> [] -> pending s + zlen x <= OUT_CHUNK -> put_bytes x s = flush_full (push x s).
Proof.
  revert s. induction x as [|b x IH]; intros s Hne Hfit; [congruence|]. rewrite zlen_cons in Hfit. rewrite put_bytes_cons.
  destruct x as [|c x].
  - unfold put_byte. destruct (flush_full (push [b] s)) as [e s']. cbn [put_bytes]. destruct (decide (e = InflateOk)) as [->|]; reflexivity.
  - rewrite zlen_cons in Hfit. unfold put_byte, flush_full at 1. cbn [push pending]. change (zlen [b]) with 1.
    rewrite (proj2 (Z.eqb_neq _ _)) by (zlen_pose; lia). destruct (decide (InflateOk = InflateOk)); [|congruence].
    rewrite IH; [|discriminate | cbn [push pending]; change (zlen [b]) with 1; rewrite zlen_cons; lia].
    f_equal. unfold push. cbn [hist pending total cap sink]. f_equal; [now rewrite <- app_assoc|].
    rewrite !zlen_cons. change (zlen (@nil Z)) with 0. lia.
Qed.

(** Writing a piece that fits behind the position and flushing when full. *)
Lemma write_piece_same o s x y post pre th h0 :
  ready o s -> buf_ o = pre ++ th ++ y ++ post -> zlen pre + zlen th = WINDOW_SIZE + pending s ->
  zlen th = Z.min (zlen (hist s)) (WINDOW_SIZE + pending s) -> hist s = h0 ++ th ->
  zlen y = zlen x -> x <> [] -> pending s + zlen x <= OUT_CHUNK ->
  same_step (flush_if_full (set_out o (pre ++ th ++ x ++ post) (out_len_ o + zlen x) (Z.min WINDOW_SIZE (window_fill_ o + zlen x))))
            (put_bytes x s).
Proof.
  intros [Hr _] Eb Epre Eth Eh Hy Hx Hfit. rewrite put_bytes_bulk by assumption. apply flush_if_full_same.
  apply (out_rel_push o s x pre th (y ++ post) post h0); auto. rewrite zlen_app. lia.
Qed.

(** The room behind the position. *)
Lemma ready_room o s n :
  ready o s -> 0 <= n -> pending s + n <= OUT_CHUNK ->
  exists pre th y post h0, buf_ o = pre ++ th ++ y ++ post /\ zlen y = n /\ zlen pre + zlen th = WINDOW_SIZE + pending s /\
    zlen th = Z.min (zlen (hist s)) (WINDOW_SIZE + pending s) /\ hist s = h0 ++ th /\ out_len_ o = pending s.
Proof.
  intros [[_ S1 S2 _ _ (pre & th & post & h0 & Eb & Epre & Eth & Eh)] _] Hn Hfit.
  destruct (list_cut post n) as (y & post' & -> & Hy).
  { rewrite Eb, !zlen_app in S1. lia. }
  exists pre, th, y, post', h0. auto 10.
Qed.

Lemma emit_literal_same b o s : ready o s -> same_step (emit_literal b o) (put_byte b s).
Proof.
  intros Hr. assert (Hr' := Hr). destruct Hr' as [Hrel Hlt].
  destruct (ready_room o s 1 Hr) as (pre & th & y & post & h0 & Eb & Hy & Epre & Eth & Eh & El); [lia | lia |].
  unfold emit_literal. rewrite Eb, El. rewrite (app_assoc pre), <- Epre.
  rewrite store_at by (rewrite ?zlen_app; auto). rewrite bind_ok, <- app_assoc.
  assert (G := write_piece_same o s [b] y post pre th h0 Hr Eb Epre Eth Eh Hy ltac:(discriminate)).
  change (zlen [b]) with 1 in G. rewrite El in G.
  replace (if window_fill_ o <? WINDOW_SIZE then window_fill_ o + 1 else window_fill_ o) with (Z.min WINDOW_SIZE (window_fill_ o + 1)).
  - replace (put_byte b s) with (put_bytes [b] s); [apply G; lia|].
    rewrite put_bytes_cons. destruct (put_byte b s) as [e s']. cbn [put_bytes]. destruct (decide (e = InflateOk)) as [->|]; reflexivity.
  - assert (F := or_fill o s Hrel). destruct (Z.ltb_spec (window_fill_ o) WINDOW_SIZE); lia.
Qed.

Lemma emit_same data o s : ready o s -> same_step (emit data o) (put_bytes data s).
Proof.
  unfold emit. assert (G : forall fuel data o s, (length data < fuel)%nat -> ready o s -> same_step (emit_loop fuel data o) (put_bytes data s)).
  2: { intros Hr. apply G; [lia | exact Hr]. }
  clear data o s. induction fuel as [|fuel IH]; intros data o s Hf Hr; [lia|]. cbn [emit_loop].
  destruct (Z.gtb_spec (zlen data) 0) as [Hd|Hd].
  2: { rewrite (zlen_zero_nil data) by (zlen_pose; lia). exists o. cbn. destruct Hr as [Hr1 Hr2].
       split_and!; [reflexivity | apply (or_delivered o s Hr1) |]. intros _. now split. }
  assert (Hr' := Hr). destruct Hr' as [Hrel Hlt]. destruct (or_pending o s Hrel) as [Hp _]. rewrite (or_len o s Hrel).
  rewrite size_sub_small by (unfold OUT_CHUNK in *; lia). set (n := Z.min (zlen data) (OUT_CHUNK - pending s)).
  assert (Hn : 0 < n <= zlen data /\ pending s + n <= OUT_CHUNK) by (unfold n; lia).
  destruct (list_cut data n) as (x & rest & -> & Hx); [lia|].
  assert (Hsl : slice (x ++ rest) 0 n = Ok x) by exact (slice_at [] x rest 0 n eq_refl (eq_sym Hx)). rewrite Hsl, bind_ok.
  destruct (ready_room o s n Hr) as (pre & th & y & post & h0 & Eb & Hy & Epre & Eth & Eh & El); [lia | lia |].
  rewrite Eb. rewrite (app_assoc pre), <- Epre. rewrite store_at by (rewrite ?zlen_app; lia). rewrite bind_ok, <- app_assoc.
  assert (Hxne : x <> []) by (intros ->; change (zlen (@nil Z)) with 0 in Hx; lia).
  assert (P := write_piece_same o s x y post pre th h0 Hr Eb Epre Eth Eh ltac:(lia) Hxne ltac:(lia)).
  rewrite Hx, El in P. destruct P as (o1 & P1 & P2 & P3). rewrite P1, bind_ok. rewrite put_bytes_app.
  destruct (put_bytes x s) as [e s1]. cbn [fst snd] in *. destruct (decide (e = InflateOk)) as [He|He].
  - replace (view (x ++ rest) n) with rest by (symmetry; apply view_app; auto).
    apply IH; [rewrite length_app in Hf; destruct x; [congruence|]; cbn in Hf; lia | auto].
  - exists o1. split_and!; auto; contradiction.
Qed.

Lemma put_bytes_hist x s : (put_bytes x s).1 = InflateOk -> hist (put_bytes x s).2 = hist s ++ x.
Proof.
  revert s. induction x as [|b x IH]; intros s; [intros _; cbn; now rewrite app_nil_r|]. rewrite put_bytes_cons.
  unfold put_byte. assert (Hh := flush_full_hist (push [b] s)). destruct (flush_full (push [b] s)) as [e s1]. cbn [snd push hist] in Hh.
  destruct (decide (e = InflateOk)) as [He|He]; [|cbn; contradiction]. intros E. rewrite IH by exact E. rewrite Hh, <- app_assoc. reflexivity.
Qed.

Lemma copy_loop_same fuel dist len o s :
  ready o s -> 0 <= len < Z.of_nat fuel -> 0 < dist <= Z.min WINDOW_SIZE (zlen (hist s)) ->
  same_step (copy_loop fuel dist len o) (put_bytes (lz (Z.to_nat len) dist (hist s)) s).
Proof.
  revert len o s. induction fuel as [|fuel IH]; intros len o s Hr Hl Hd; [lia|]. cbn [copy_loop].
  destruct (Z.gtb_spec len 0) as [H0|H0].
  2: { assert (len = 0) as -> by lia. exists o. cbn. destruct Hr as [Hr1 Hr2].
       split_and!; [reflexivity | apply (or_delivered o s Hr1) |]. intros _. now split. }
  assert (Hr' := Hr). destruct Hr' as [Hrel Hlt]. destruct (or_pending o s Hrel) as [Hp _]. rewrite (or_len o s Hrel).
  rewrite size_sub_small by (unfold OUT_CHUNK in *; lia). set (n := Z.min len (OUT_CHUNK - pending s)).
  assert (Hn : 0 < n <= len /\ pending s + n <= OUT_CHUNK) by (unfold n; lia).
  destruct (ready_room o s n Hr) as (pre & th & y & post & h0 & Eb & Hy & Epre & Eth & Eh & El); [lia | lia |].
  assert (Hdt : 0 < dist <= zlen th) by (rewrite Eth; unfold WINDOW_SIZE in *; lia).
  rewrite <- Epre. rewrite <- Hy at 1. rewrite (copy_chunk_spec pre th y post dist _ Eb Hdt), bind_ok.
  set (x := lz (length y) dist th). assert (Hxl : zlen x = zlen y) by (unfold x; rewrite lz_length; reflexivity).
  assert (Hx : x = lz (Z.to_nat n) dist (hist s)).
  { unfold x. rewrite Eh, lz_tail by exact Hdt. f_equal. unfold zlen in Hy. lia. }
  assert (Hxne : x <> []) by (intros E; rewrite E in Hxl; change (zlen (@nil Z)) with 0 in Hxl; lia).
  assert (P := write_piece_same o s x y post pre th h0 Hr Eb Epre Eth Eh ltac:(lia) Hxne ltac:(lia)).
  rewrite Hxl, Hy, El in P. destruct P as (o1 & P1 & P2 & P3). rewrite P1, bind_ok.
  replace (Z.to_nat len) with (Z.to_nat n + Z.to_nat (len - n))%nat by lia. rewrite lz_app, put_bytes_app, <- Hx.
  assert (Hh := put_bytes_hist x s). destruct (put_bytes x s) as [e s1]. cbn [fst snd] in *.
  destruct (decide (e = InflateOk)) as [He|He].
  - rewrite <- (Hh He). apply IH; [auto | lia |]. rewrite (Hh He), zlen_app. zlen_pose; lia.
  - exists o1. split_and!; auto; contradiction.
Qed.

Lemma window_copy_same dist len o s : ready o s -> 0 <= dist -> 0 <= len -> same_step (window_copy dist len o) (copy dist len s).
Proof.
  intros Hr Hd Hl. unfold window_copy, copy. assert (Hr' := Hr). destruct Hr' as [Hrel Hlt]. rewrite (or_fill o s Hrel).
  destruct (Z.eqb_spec dist 0) as [E|E]; cbn [orb];
    [|destruct (Z.gtb_spec dist (Z.min WINDOW_SIZE (zlen (hist s)))) as [Hg|Hg]].
  1, 2: exists o; cbn; split_and!; [reflexivity | apply (or_delivered o s Hrel) | discriminate].
  apply copy_loop_same; auto; lia.
Qed.

Lemma start_ready buf cap sink : zlen buf = WINDOW_SIZE + OUT_CHUNK -> ready (Output_reset buf cap sink) (start cap sink).
Proof.
  intros Hb. split; [|unfold OUT_CHUNK; cbn; lia]. split; cbn; auto.
  - now split.
  - unfold OUT_CHUNK. change (zlen (@nil Z)) with 0. lia.
  - destruct (list_cut buf WINDOW_SIZE) as (a & b & -> & Ha); [rewrite Hb; unfold WINDOW_SIZE, OUT_CHUNK; lia|].
    exists a, [], b, []. change (zlen (@nil Z)) with 0. unfold WINDOW_SIZE in *. split_and!; [reflexivity | lia | lia | reflexivity].
Qed.

End output_rel.
