(* ===== verification/InflateExact.v ===== *)
(** The DEFLATE decoder does exactly what [Reference] does
    ([src/compress/inflate.cpp], [Inflate::decode]).

    [at_bits] relates a reader to the bits left and to the count of the bits
    consumed; [block_sim] relates a run of the decoder to one of the
    reference. *)

From Stdlib Require Import ZArith Lia.
From stdpp Require Import base tactics list numbers.
From S2P Require Import Prelude Bytes Arrays BitReader Huffman InflateBits InflateTable Inflate InflateSpec.
Import Reference.

Local Open Scope Z_scope.
Local Open Scope size_scope.

Section input.
Context {I : Type} `{ByteInputLaws I}.

(** [r] has consumed all but [bs] of a stream of [n] bits, and never ran out. *)
Record at_bits (n : Z) (r : Reader I) (bs : list bool) : Prop := {
  ab_holds : holds r bs;
  ab_consumed : consumed_bits_ r = u64 (n - zlen bs);
  ab_truncated : truncated_ r = false
}.

Lemma consumed_step n (bs : list bool) k :
  0 <= k <= zlen bs -> (u64 (n - zlen bs) +s k) = u64 (n - zlen (drop (Z.to_nat k) bs)).
Proof.
  intros Hk. rewrite zlen_drop by exact Hk. unfold size_add, u64, wrap. rewrite Zplus_mod_idemp_l. f_equal. lia.
Qed.

Lemma get_same n r bs k :
  at_bits n r bs -> 0 <= k <= 32 ->
  exists v r', get_bits k r = Ok (v, r') /\
    match get k bs with
    | Some (w, bs') => v = w /\ at_bits n r' bs'
    | None => truncated_ r' = true
    end.
Proof.
  intros [Hh Hc Ht] Hk. destruct (get_bits_holds k r bs Hh Hk) as (r' & G1 & G2 & G3). rewrite G1.
  eexists _, r'. split; [reflexivity|]. unfold get. destruct (Z.leb_spec k (zlen bs)) as [Hl|Hl].
  - destruct (G2 Hl) as (A & B & C). split; [reflexivity|]. split; [exact A | | congruence].
    rewrite B, Hc. apply consumed_step. lia.
  - now destruct (G3 Hl) as (_ & _ & C).
Qed.

Lemma get_length k bs v bs' : get k bs = Some (v, bs') -> 0 <= k -> zlen bs' = zlen bs - k /\ 0 <= v < 2 ^ k.
Proof.
  unfold get. destruct (Z.leb_spec k (zlen bs)) as [Hl|Hl]; [|discriminate]. intros [= <- <-] Hk. split; [apply zlen_drop; lia|].
  assert (R := lval_range (take (Z.to_nat k) bs)). now rewrite zlen_take in R by lia.
Qed.

(** A table and the lengths it was built from. *)
Record table_for (t : HuffmanTable.HuffmanTable) (lens : list Z) : Prop := {
  tf_lens : lens288 lens;
  tf_kraft : kraft lens;
  tf_table : table_ok lens t
}.

Lemma symbol_same n t lens r bs :
  table_for t lens -> at_bits n r bs ->
  exists o r', next_symbol t r = Ok (o, r') /\
    match symbol lens bs with
    | Sym s bs' => o = Some s /\ at_bits n r' bs'
    | Cut => o = None /\ truncated_ r' = true
    | NoCode => o = None /\ truncated_ r' = false
    end.
Proof.
  intros [T1 T2 T3] [Hh Hc Ht]. destruct (next_symbol_holds lens T1 T2 t T3 r bs Hh) as (o & r' & N1 & N2).
  exists o, r'. split; [exact N1|]. unfold symbol. destruct (resolve lens bs) as [s|] eqn:Es.
  - cbv zeta in N2. destruct (resolve_some lens bs s Es) as [Hs _]. assert (L := coded_length lens T1 s Hs).
    destruct (Z.leb_spec (nthZ lens s) (zlen bs)) as [Hl|Hl].
    + destruct N2 as (A & B & C & D). split; [exact A|]. split; [exact B | | congruence]. rewrite C, Hc. apply consumed_step. lia.
    + now destruct N2 as (A & _ & _ & D).
  - destruct N2 as (A & _ & _ & D). split; congruence.
Qed.

Lemma symbol_range lens bs s bs' :
  lens288 lens -> symbol lens bs = Sym s bs' -> coded lens s /\ zlen bs' < zlen bs.
Proof.
  intros HL. unfold symbol. destruct (resolve lens bs) as [t|] eqn:Es; [|discriminate].
  destruct (resolve_some lens bs t Es) as [Hs _]. assert (L := coded_length lens HL t Hs).
  destruct (Z.leb_spec (nthZ lens t) (zlen bs)) as [Hl|Hl]; [|discriminate]. intros [= <- <-].
  split; [exact Hs|]. rewrite zlen_drop by lia. lia.
Qed.

End input.

(** ** Extra bits *)

Definition table_fine (l : list (Z * Z)) : Prop := Forall (fun e => 0 <= e.1 /\ 0 <= e.2 <= 13) l.

Lemma length_table_fine : table_fine LENGTH_TABLE.
Proof. repeat constructor; cbn; lia. Qed.

Lemma dist_table_fine : table_fine DIST_TABLE.
Proof. repeat constructor; cbn; lia. Qed.

Lemma extra_same {I} `{ByteInputLaws I} n table i r bs :
  at_bits n r bs -> table_fine table -> 0 <= i < zlen table ->
  exists base extra v r', table_at table i = Ok (base, extra) /\
    (if negb (extra =? 0) then get_bits extra r else mret (0, r)) = Ok (v, r') /\
    match extra_value table i bs with
    | Some (w, bs') => base + v = w /\ 0 <= w /\ at_bits n r' bs' /\ zlen bs' <= zlen bs
    | None => truncated_ r' = true
    end.
Proof.
  intros Hr Hf Hi. unfold table_at, extra_value. rewrite (proj2 (Z.ltb_ge _ _)) by lia.
  destruct (lookup_lt_is_Some_2 table (Z.to_nat i)) as [[base extra] He]; [unfold zlen in Hi; lia|]. rewrite He.
  assert (Hfe : 0 <= base /\ 0 <= extra <= 13).
  { unfold table_fine in Hf. rewrite List.Forall_forall in Hf. apply (Hf (base, extra)). apply list_elem_of_In. eapply list_elem_of_lookup_2, He. }
  destruct (Z.eqb_spec extra 0) as [->|Hne]; cbn [negb].
  - exists base, 0, 0, r. split_and!; try reflexivity. unfold get. rewrite (proj2 (Z.leb_le _ _)) by (zlen_pose; lia).
    change (Z.to_nat 0) with O. rewrite take_0, drop_0. cbn [lval]. split_and!; [reflexivity | lia | exact Hr | lia].
  - destruct (get_same n r bs extra Hr) as (v & r' & G1 & G2); [lia|]. exists base, extra, v, r'. split_and!; [reflexivity | now rewrite (proj2 (Z.eqb_neq _ _) Hne) |].
    destruct (get extra bs) as [[w bs']|] eqn:Eg; [|exact G2]. destruct G2 as [-> G2]. apply get_length in Eg; [|lia].
    split_and!; [reflexivity | lia | exact G2 | lia].
Qed.

(** ** Blocks *)

Section blocks.
Context {I K : Type} `{ByteInputLaws I} `{OutputSink K}.

(** A run of the decoder and a run of the reference. *)
Definition block_sim (n : Z) (m : res (InflateError * Reader I * Output K)) (x : res (InflateError * list bool * Out K)) : Prop :=
  match x with
  | Ok (e, bs, s) => exists r o, m = Ok (e, r, o) /\ delivered o s /\ (e = InflateOk -> at_bits n r bs /\ ready o s)
  | Fuel => m = Fuel
  | _ => False
  end.

Lemma sim_error n e r o bs s : ready o s -> e <> InflateOk -> block_sim n (mret (e, r, o)) (Ok (e, bs, s)).
Proof. intros [Hr _] He. exists r, o. split_and!; [reflexivity | apply (or_delivered o s Hr) | contradiction]. Qed.

(** An output step in the middle of a block. *)
Lemma sim_step n m x (k : Output K -> res (InflateError * Reader I * Output K)) (k' : Out K -> res (InflateError * list bool * Out K)) r bs :
  same_step m x -> (forall o s, ready o s -> block_sim n (k o) (k' s)) ->
  block_sim n ('(e, o) ← m; if decide (e = InflateOk) then k o else mret (e, r, o))
    (let '(e, s) := x in if decide (e = InflateOk) then k' s else Ok (e, bs, s)).
Proof.
  intros (o & E1 & E2 & E3) Hk. rewrite E1, bind_ok. destruct x as [e s]. cbn [fst snd] in *.
  destruct (decide (e = InflateOk)) as [He|He]; [apply Hk; auto|]. exists r, o. split_and!; [reflexivity | exact E2 | contradiction].
Qed.

Lemma body_same n t1 t2 ll dl fuel r bs o s :
  table_for t1 ll -> table_for t2 dl -> at_bits n r bs -> ready o s ->
  block_sim n (decode_block_body fuel (t1, t2) r o) (body fuel ll dl bs s).
Proof.
  intros T1 T2. revert r bs o s. induction fuel as [|fuel IH]; intros r bs o s Hr Ho; [reflexivity|].
  cbn [decode_block_body body fst snd]. destruct (symbol_same n t1 ll r bs T1 Hr) as (x & r1 & N1 & N2). rewrite N1, bind_ok.
  destruct (symbol ll bs) as [sym bs1| |] eqn:Es; [|destruct N2 as [-> ->]; now apply sim_error..].
  destruct N2 as [-> Hr1]. destruct (symbol_range ll bs sym bs1 (tf_lens _ _ T1) Es) as [[Hsym _] _].
  destruct (Z.ltb_spec sym 256) as [H256|H256].
  { replace (u8 sym) with sym by (symmetry; apply wrap_small; lia).
    apply sim_step; [now apply emit_literal_same|]. intros o1 s1 Ho1. now apply IH. }
  destruct (Z.eqb_spec sym 256) as [E256|E256].
  { exists r1, o. destruct Ho as [Ho1 Ho2]. split_and!; [reflexivity | apply (or_delivered o s Ho1) |]. intros _. now split. }
  destruct (Z.leb_spec sym 285) as [H285|H285]; [|now apply sim_error].
  destruct (extra_same n LENGTH_TABLE (sym - 257) r1 bs1 Hr1 length_table_fine) as (base & extra & v & r2 & X1 & X2 & X3);
    [change (zlen LENGTH_TABLE) with 29; lia|]. rewrite X1, bind_ok, X2, bind_ok. cbv zeta.
  destruct (extra_value LENGTH_TABLE (sym - 257) bs1) as [[len bs2]|]; [|rewrite X3; now apply sim_error].
  destruct X3 as (<- & Hlen & Hr2 & _). rewrite (ab_truncated _ _ _ Hr2).
  destruct (symbol_same n t2 dl r2 bs2 T2 Hr2) as (y & r3 & M1 & M2). rewrite M1, bind_ok.
  destruct (symbol dl bs2) as [dsym bs3| |] eqn:Ed; [|destruct M2 as [-> ->]; now apply sim_error..].
  destruct M2 as [-> Hr3]. destruct (symbol_range dl bs2 dsym bs3 (tf_lens _ _ T2) Ed) as [[Hdsym _] _].
  destruct (Z.gtb_spec dsym 29) as [H29|H29]; [now apply sim_error|].
  destruct (extra_same n DIST_TABLE dsym r3 bs3 Hr3 dist_table_fine) as (base2 & extra2 & v2 & r4 & Y1 & Y2 & Y3);
    [change (zlen DIST_TABLE) with 30; lia|]. rewrite Y1, bind_ok, Y2, bind_ok. cbv zeta.
  destruct (extra_value DIST_TABLE dsym bs3) as [[dist bs4]|]; [|rewrite Y3; now apply sim_error].
  destruct Y3 as (<- & Hdist & Hr4 & _). rewrite (ab_truncated _ _ _ Hr4).
  apply sim_step; [apply window_copy_same; auto; lia|]. intros o1 s1 Ho1. now apply IH.
Qed.

End blocks.

(** ** The tables of a block *)

Section tables.
Context {I : Type} `{ByteInputLaws I}.

(** An error is a truncation when the reader ran out, and a bad table
    otherwise. *)
Definition table_error (r : Reader I) : InflateError := if truncated_ r then TruncatedInput else BadCodeLengths.

Lemma build_same lens allow :
  lens288 lens ->
  exists o, HuffmanTable.build lens allow = Ok o /\
    match o with
    | Some t => table_for t lens /\ is_complete lens || allow && (upto lens 15 <=? 2 ^ 15) = true
    | None => is_complete lens || allow && (upto lens 15 <=? 2 ^ 15) = false
    end.
Proof.
  intros HL. unfold is_complete. destruct (Z.leb_spec (upto lens 15) (2 ^ 15)) as [Hk|Hk].
  - destruct (table_build_spec lens HL Hk allow) as ([t|] & B1 & B2); eexists; (split; [exact B1|]).
    + destruct B2 as [B2 B3]. split; [now split|]. rewrite andb_true_r. apply orb_true_iff. destruct B3 as [B3|B3]; [left; lia | now right].
    + destruct B2 as [B2 ->]. rewrite orb_false_r. lia.
  - exists None. split; [|rewrite andb_false_r; lia]. apply build_refused.
    + destruct HL as [_ HL]. eapply Forall_impl; [|exact HL]; cbn; lia.
    + intros [_ K]. unfold kraft in K. lia.
Qed.

Lemma entry_same n t lens r bs :
  table_for t lens -> at_bits n r bs ->
  exists e r', lookup_entry t r = Ok (e, r') /\ truncated_ r' = false /\
    match symbol lens bs with
    | Sym s bs' => (e =? 0) = false /\ (Z.shiftr e 16 >? real_bits_ r') = false /\ Z.land e 0xFFFF = s /\
                   at_bits n (consume (Z.shiftr e 16) r') bs'
    | Cut => (e =? 0) = false /\ (Z.shiftr e 16 >? real_bits_ r') = true
    | NoCode => e = 0
    end.
Proof.
  intros [T1 T2 T3] [Hh Hc Ht]. destruct (lookup_entry_holds lens T1 T2 t T3 r bs Hh) as (e & r' & E1 & E2 & [E3 E4] & E5).
  exists e, r'. split; [exact E1|]. split; [congruence|]. unfold symbol. destruct (resolve lens bs) as [s|] eqn:Es; [|exact E5].
  destruct E5 as [-> E5]. destruct (resolve_some lens bs s Es) as [Hs _]. destruct (entry_fields lens T1 s Hs) as (F1 & F2 & F3).
  assert (L := coded_length lens T1 s Hs). destruct (holds_real r' bs E2) as [R1 R2].
  apply Z.eqb_neq in F3. rewrite F1, F2, R1. destruct (Z.leb_spec (nthZ lens s) (zlen bs)) as [Hl|Hl].
  - split_and!; [exact F3 | lia | reflexivity |]. split; [apply consume_holds; [exact E2 | lia] | | cbn; congruence].
    cbn. rewrite E3, Hc. apply consumed_step. lia.
  - split; [exact F3 | lia].
Qed.

Lemma clens_same n order lens r bs :
  at_bits n r bs -> zlen lens = 19 -> Forall (fun i => 0 <= i < 19) order -> Forall (fun l => 0 <= l <= 15) lens ->
  exists o r', read_clens order lens r = Ok (o, r') /\
    match clens order lens bs with
    | Some (l, bs') => o = Some l /\ at_bits n r' bs' /\ zlen l = 19 /\ Forall (fun l => 0 <= l <= 15) l
    | None => o = None /\ truncated_ r' = true
    end.
Proof.
  revert lens r bs. induction order as [|i order IH]; intros lens r bs Hr Hl Ho HL; cbn [read_clens clens].
  { exists (Some lens), r. auto. }
  assert (Hi := Forall_inv Ho). apply Forall_inv_tail in Ho. cbn beta in Hi. destruct (get_same n r bs 3 Hr) as (v & r' & G1 & G2); [lia|]. rewrite G1, bind_ok.
  rewrite store_one, bind_ok by lia. destruct (get 3 bs) as [[w bs']|] eqn:Eg; [|rewrite G2; eauto].
  destruct G2 as [-> Hr']. destruct (get_length _ _ _ _ Eg) as [_ Hw]; [lia|]. change (2 ^ 3) with 8 in Hw.
  rewrite (ab_truncated _ _ _ Hr'). replace (u8 w) with w by (symmetry; apply wrap_small; lia).
  apply IH; auto; [now rewrite zlen_setZ|]. apply Forall_insert; [exact HL | lia].
Qed.

Definition zeros (n : Z) : list Z := replicate (Z.to_nat n) 0.

Lemma store_zeros (acc x : list Z) n :
  zlen x <= n -> store (acc ++ zeros n) (zlen acc) x = Ok ((acc ++ x) ++ zeros (n - zlen x)).
Proof.
  intros Hx. assert (P := zlen_nonneg x). unfold zeros. replace (Z.to_nat n) with (Z.to_nat (zlen x) + Z.to_nat (n - zlen x))%nat by lia.
  rewrite replicate_add, store_at; [now rewrite <- app_assoc | reflexivity | rewrite zlen_replicate; lia].
Qed.

Lemma skip_zeros (acc : list Z) k n :
  0 <= k <= n -> acc ++ zeros n = (acc ++ replicate (Z.to_nat k) 0) ++ zeros (n - k).
Proof.
  intros Hk. unfold zeros. rewrite <- app_assoc, <- replicate_add. do 2 f_equal. lia.
Qed.

Lemma last_value (acc : list Z) k v : 0 < k -> nthZ (acc ++ replicate (Z.to_nat k) v) (zlen (acc ++ replicate (Z.to_nat k) v) - 1) = v.
Proof.
  intros Hk. rewrite zlen_app, zlen_replicate, nthZ_past by lia. apply nthZ_replicate. lia.
Qed.

(** The lengths known so far are at the front of the array, zeros behind. *)
Lemma lengths_same n t cl fuel total acc r bs prev :
  table_for t cl -> zlen cl = 19 -> at_bits n r bs -> zlen acc <= total <= 316 ->
  total - zlen acc < Z.of_nat fuel -> Forall (fun l => 0 <= l <= 15) acc -> 0 <= prev <= 15 ->
  (zlen acc = 0 \/ nthZ acc (zlen acc - 1) = prev) ->
  exists o r', read_lengths fuel t total (zlen acc) prev (acc ++ zeros (316 - zlen acc)) r = Ok (o, r') /\
    match lengths fuel cl total acc bs with
    | (Ok (inl all), bs') => o = Some (all ++ zeros (316 - total)) /\ at_bits n r' bs' /\ zlen all = total /\ Forall (fun l => 0 <= l <= 15) all
    | (Ok (inr e), _) => o = None /\ e = table_error r'
    | _ => False
    end.
Proof.
  intros HT Hcl. revert acc r bs prev. induction fuel as [|fuel IH]; intros acc r bs prev Hr Htot Hf HA Hp Hlast; [lia|].
  assert (P := zlen_nonneg acc). cbn [read_lengths lengths]. destruct (Z.ltb_spec (zlen acc) total) as [Hlt|Hge].
  2: { exists (Some (acc ++ zeros (316 - zlen acc))), r. assert (zlen acc = total) as <- by lia. auto. }
  assert (NEXT : forall r1 bs1 k v, at_bits n r1 bs1 -> 0 < k -> zlen acc + k <= total -> 0 <= v <= 15 ->
    exists o r', read_lengths fuel t total (zlen acc + k) v ((acc ++ replicate (Z.to_nat k) v) ++ zeros (316 - zlen acc - k)) r1 = Ok (o, r') /\
      match lengths fuel cl total (acc ++ replicate (Z.to_nat k) v) bs1 with
      | (Ok (inl all), bs') => o = Some (all ++ zeros (316 - total)) /\ at_bits n r' bs' /\ zlen all = total /\ Forall (fun l => 0 <= l <= 15) all
      | (Ok (inr e), _) => o = None /\ e = table_error r'
      | _ => False
      end).
  { intros r1 bs1 k v Hr1 Hk Hfit Hv. assert (EL : zlen (acc ++ replicate (Z.to_nat k) v) = zlen acc + k) by (rewrite zlen_app, zlen_replicate; lia).
    rewrite <- EL. replace (316 - zlen acc - k) with (316 - zlen (acc ++ replicate (Z.to_nat k) v)) by lia.
    apply IH; rewrite ?EL; auto; [lia | lia | |].
    - apply Forall_app_2; [exact HA|]. now apply Forall_replicate.
    - right. rewrite <- EL. now apply last_value. }
  clear IH. destruct (entry_same n t cl r bs HT Hr) as (e & r1 & E1 & E2 & E3). rewrite E1, bind_ok.
  assert (Eerr : BadCodeLengths = table_error r1) by (unfold table_error; now rewrite E2).
  destruct (symbol cl bs) as [sym bs1| |] eqn:Es.
  2: { subst e. rewrite Z.eqb_refl. eauto. }
  2: { destruct E3 as [E3 E4]. rewrite E3. cbv zeta. rewrite E4. eauto. }
  destruct E3 as (E3 & E4 & E5 & Hr1). rewrite E3. cbv zeta. rewrite E4, E5.
  destruct (symbol_range cl bs sym bs1 (tf_lens _ _ HT) Es) as [[Hsym _] _]. rewrite Hcl in Hsym.
  assert (Eerr1 : BadCodeLengths = table_error (consume (Z.shiftr e 16) r1)) by (unfold table_error; now rewrite (ab_truncated _ _ _ Hr1)).
  set (r2 := consume (Z.shiftr e 16) r1) in *. clearbody r2.
  destruct (Z.ltb_spec sym 16) as [H16|H16].
  { replace (u8 sym) with sym by (symmetry; apply wrap_small; lia). rewrite store_zeros, bind_ok by (change (zlen [sym]) with 1; lia).
    change (zlen [sym]) with 1. apply (NEXT r2 bs1 1 sym); auto; lia. }
  destruct (Z.eqb_spec sym 16) as [E16|E16]; cbn [andb].
  - destruct (Z.eqb_spec (zlen acc) 0) as [E0|E0]; [eauto|].
    destruct (get_same n r2 bs1 2 Hr1) as (v & r3 & G1 & G2); [lia|]. rewrite G1, bind_ok. cbv zeta.
    destruct (get 2 bs1) as [[w bs2]|] eqn:Eg.
    2: { rewrite G2. eexists _, _. split; [reflexivity|]. split; [reflexivity|]. unfold table_error. now rewrite G2. }
    destruct G2 as [-> Hr3]. destruct (get_length _ _ _ _ Eg) as [_ Hw]; [lia|]. rewrite (ab_truncated _ _ _ Hr3).
    destruct (Z.gtb_spec (zlen acc + (3 + w)) total) as [Hg|Hg].
    { eexists _, _. split; [reflexivity|]. split; [reflexivity|]. unfold table_error. now rewrite (ab_truncated _ _ _ Hr3). }
    replace (u8 prev) with prev by (symmetry; apply wrap_small; lia).
    rewrite store_zeros, bind_ok by (rewrite zlen_replicate; lia). rewrite zlen_replicate, Z2Nat.id by lia.
    destruct Hlast as [Hlast|Hlast]; [lia|]. rewrite Hlast. apply (NEXT r3 bs2); auto; lia.
  - assert (STEP : forall width least, 0 <= width <= 7 -> 3 <= least ->
      exists o r', ('(v, r) ← get_bits width r2;
        let rep := least + v in
        if truncated_ r then mret (None, r)
        else if zlen acc + rep >? total then mret (None, r)
        else read_lengths fuel t total (zlen acc + rep) 0 (acc ++ zeros (316 - zlen acc)) r) = Ok (o, r') /\
      match
        match get width bs1 with
        | None => (Ok (inr TruncatedInput), bs1)
        | Some (k, bs2) =>
            if zlen acc + (least + k) >? total then (Ok (inr BadCodeLengths), bs2)
            else lengths fuel cl total (acc ++ replicate (Z.to_nat (least + k)) 0) bs2
        end
      with
      | (Ok (inl all), bs') => o = Some (all ++ zeros (316 - total)) /\ at_bits n r' bs' /\ zlen all = total /\ Forall (fun l => 0 <= l <= 15) all
      | (Ok (inr e), _) => o = None /\ e = table_error r'
      | _ => False
      end).
    { intros width least Hwd Hle. destruct (get_same n r2 bs1 width Hr1) as (v & r3 & G1 & G2); [lia|]. rewrite G1, bind_ok. cbv zeta.
      destruct (get width bs1) as [[w bs2]|] eqn:Eg.
      2: { rewrite G2. eexists _, _. split; [reflexivity|]. split; [reflexivity|]. unfold table_error. now rewrite G2. }
      destruct G2 as [-> Hr3]. destruct (get_length _ _ _ _ Eg) as [_ Hw]; [lia|]. rewrite (ab_truncated _ _ _ Hr3).
      destruct (Z.gtb_spec (zlen acc + (least + w)) total) as [Hg|Hg].
      { eexists _, _. split; [reflexivity|]. split; [reflexivity|]. unfold table_error. now rewrite (ab_truncated _ _ _ Hr3). }
      rewrite (skip_zeros acc (least + w)) by lia. apply NEXT; auto; lia. }
    destruct (sym =? 17); apply STEP; lia.
Qed.

(** *** The acceptance of incomplete codes *)

Lemma accepted_counts t lens l :
  table_ok lens t -> forallb (fun j => nthZ (HuffmanTable.counts t) j =? 0) (seqZ l (16 - l)) = forallb (fun j => cnt lens j =? 0) (seqZ l (16 - l)) \/ l < 0.
Proof.
  intros T. destruct (Z.lt_ge_cases l 0) as [Hl|Hl]; [now right|]. left. apply eq_true_iff_eq. rewrite !forallb_forall.
  assert (G : forall j, In j (seqZ l (16 - l)) -> nthZ (HuffmanTable.counts t) j = cnt lens j).
  { intros j Hj. apply list_elem_of_In, elem_of_seqZ in Hj. apply (tk_counts _ _ T). lia. }
  split; intros Hf j Hj; specialize (Hf j Hj); rewrite (G j Hj) in *; exact Hf.
Qed.

Lemma litlen_accepted_same t ll all :
  table_ok ll t -> (256 < zlen ll -> nthZ all 256 = nthZ ll 256) ->
  litlen_accepted t (zlen ll) all = Reference.lit_accepted ll.
Proof.
  intros T Hall. unfold litlen_accepted, Reference.lit_accepted, is_complete. rewrite (tk_complete _ _ T), (tk_counts _ _ T) by lia.
  destruct (upto ll 15 =? 2 ^ 15); [reflexivity|]. cbn [orb]. destruct (Z.eqb_spec (cnt ll 1) 1) as [E|E]; cbn [negb andb]; [|reflexivity].
  rewrite Z.leb_antisym. destruct (Z.ltb_spec 256 (zlen ll)) as [H256|H256]; cbn [negb orb andb]; [|reflexivity]. rewrite Hall by exact H256.
  destruct (nthZ ll 256 =? 1); cbn [negb andb]; [|reflexivity]. destruct (accepted_counts t ll 2 T) as [G|]; [exact G | lia].
Qed.

Lemma dist_accepted_same t dl : table_ok dl t -> Inflate.dist_accepted t = Reference.dist_accepted dl.
Proof.
  intros T. unfold Inflate.dist_accepted, Reference.dist_accepted, is_complete. rewrite (tk_complete _ _ T), (tk_counts _ _ T) by lia.
  destruct (upto dl 15 =? 2 ^ 15); [reflexivity|]. cbn [orb]. f_equal. destruct (accepted_counts t dl 1 T) as [G|]; [exact G | lia].
Qed.

Lemma order_fine k : Forall (fun i => 0 <= i < 19) (take k CODE_LENGTH_ORDER).
Proof. apply Forall_take. repeat constructor; lia. Qed.

Lemma complete_kraft l : is_complete l = true -> (upto l 15 <=? 2 ^ 15) = true.
Proof. unfold is_complete. lia. Qed.

Lemma build_alphabets_same hlit hdist all :
  257 <= hlit <= 286 -> 0 <= hdist <= 30 -> zlen all = hlit + hdist -> Forall (fun l => 0 <= l <= 15) all ->
  let ll := take (Z.to_nat hlit) all in
  let dl := drop (Z.to_nat hlit) all in
  exists o, build_alphabets hlit hdist (all ++ zeros (316 - (hlit + hdist))) = Ok o /\
    if (upto ll 15 <=? 2 ^ 15) && (upto dl 15 <=? 2 ^ 15) && Reference.lit_accepted ll && Reference.dist_accepted dl
    then exists t1 t2, o = Some (t1, t2) /\ table_for t1 ll /\ table_for t2 dl
    else o = None.
Proof.
  intros Hl Hd Hall HA ll dl.
  assert (El : zlen ll = hlit) by (apply zlen_take; lia). assert (Ed : zlen dl = hdist) by (unfold dl; rewrite zlen_drop; lia).
  assert (E : all = ll ++ dl) by (symmetry; apply take_drop). assert (HA' := HA). rewrite E in HA'. apply Forall_app in HA' as [HLl HLd].
  assert (Hll : lens288 ll) by (split; [lia | exact HLl]). assert (Hdl : lens288 dl) by (split; [lia | exact HLd]).
  unfold build_alphabets. rewrite E, <- app_assoc.
  assert (S1 : slice (ll ++ dl ++ zeros (316 - (hlit + hdist))) 0 hlit = Ok ll) by (apply (slice_at [] ll); [reflexivity | lia]).
  rewrite S1, bind_ok. destruct (build_same ll true Hll) as (o1 & B1 & B2). rewrite B1, bind_ok.
  assert (Hc : forall l, is_complete l || true && (upto l 15 <=? 2 ^ 15) = (upto l 15 <=? 2 ^ 15)).
  { intros l. destruct (is_complete l) eqn:Ec; [now rewrite complete_kraft | reflexivity]. }
  rewrite Hc in B2. destruct o1 as [t1|]; [|rewrite B2; cbn; eauto]. destruct B2 as [T1 K1]. rewrite K1. cbn [andb].
  rewrite slice_at, bind_ok by lia. destruct (build_same dl true Hdl) as (o2 & B3 & B4). rewrite Hc in B4. rewrite B3, bind_ok. destruct o2 as [t2|]; [|rewrite B4; cbn; eauto]. destruct B4 as [T2 K2]. rewrite K2. cbn [andb].
  assert (A1 : litlen_accepted t1 hlit (ll ++ dl ++ zeros (316 - (hlit + hdist))) = Reference.lit_accepted ll).
  { rewrite <- El. apply litlen_accepted_same; [apply (tf_table _ _ T1)|]. intros Hgt. unfold nthZ. apply app_nth1. unfold zlen in Hgt. lia. }
  rewrite A1, (dist_accepted_same t2 dl (tf_table _ _ T2)).
  destruct (Reference.lit_accepted ll && Reference.dist_accepted dl); eauto 10.
Qed.

Lemma dynamic_same n r bs :
  at_bits n r bs ->
  exists o r', read_dynamic_tables r = Ok (o, r') /\
    match dynamic bs with
    | (Ok (inl (ll, dl)), bs') => exists t1 t2, o = Some (t1, t2) /\ table_for t1 ll /\ table_for t2 dl /\ at_bits n r' bs'
    | (Ok (inr e), _) => o = None /\ e = table_error r'
    | _ => False
    end.
Proof.
  intros Hr. unfold read_dynamic_tables, dynamic.
  assert (CUT : forall r', truncated_ r' = true -> exists (o : option Tables) r'', mret (None, r') = Ok (o, r'') /\ o = None /\ TruncatedInput = table_error r'').
  { intros r' Ht. exists None, r'. unfold table_error. now rewrite Ht. }
  assert (BAD : forall r' bs', at_bits n r' bs' -> exists (o : option Tables) r'', mret (None, r') = Ok (o, r'') /\ o = None /\ BadCodeLengths = table_error r'').
  { intros r' bs' Ht. exists None, r'. unfold table_error. now rewrite (ab_truncated _ _ _ Ht). }
  destruct (get_same n r bs 5 Hr) as (a & r1 & A1 & A2); [lia|]. rewrite A1, bind_ok. cbv zeta.
  destruct (get 5 bs) as [[w1 bs1]|] eqn:E1; [|rewrite A2; now apply CUT]. destruct A2 as [-> H1]. rewrite (ab_truncated _ _ _ H1).
  destruct (get_same n r1 bs1 5 H1) as (b & r2 & B1 & B2); [lia|]. rewrite B1, bind_ok.
  destruct (get 5 bs1) as [[w2 bs2]|] eqn:E2; [|rewrite B2; now apply CUT]. destruct B2 as [-> H2]. rewrite (ab_truncated _ _ _ H2).
  destruct (get_same n r2 bs2 4 H2) as (c & r3 & C1 & C2); [lia|]. rewrite C1, bind_ok.
  destruct (get 4 bs2) as [[w3 bs3]|] eqn:E3; [|rewrite C2; now apply CUT]. destruct C2 as [-> H3]. rewrite (ab_truncated _ _ _ H3).
  apply get_length in E1, E2, E3; [|lia..]. change (2 ^ 5) with 32 in *. change (2 ^ 4) with 16 in *.
  destruct (_ || _) eqn:Eb; [now apply (BAD r3 bs3)|]. apply orb_false_iff in Eb as [Eb1 Eb2].
  assert (Hh : 257 <= w1 + 257 <= 286 /\ 1 <= w2 + 1 <= 30) by lia. clear Eb1 Eb2.
  set (hlit := w1 + 257) in *. set (hdist := w2 + 1) in *. clearbody hlit hdist.
  destruct (clens_same n (take (Z.to_nat (w3 + 4)) CODE_LENGTH_ORDER) (replicate 19 0) r3 bs3 H3 eq_refl (order_fine _)) as (o & r4 & D1 & D2).
  { apply Forall_replicate. lia. }
  rewrite D1, bind_ok. destruct (clens _ _ bs3) as [[cl bs4]|]; [|destruct D2 as [-> D2]; now apply CUT].
  destruct D2 as (-> & H4 & Hcl & HCL). destruct (build_same cl false) as (o & F1 & F2); [split; [lia | exact HCL]|].
  rewrite F1, bind_ok. cbn [andb] in F2. rewrite orb_false_r in F2.
  destruct o as [t|]; [destruct F2 as [T F2] |]; rewrite F2; cbn [negb]; [|now apply (BAD r4 bs4)].
  assert (L := lengths_same n t cl (S (Z.to_nat (hlit + hdist))) (hlit + hdist) [] r4 bs4 0 T Hcl H4).
  change (zlen (@nil Z)) with 0 in L. destruct L as (o & r5 & L1 & L2); [lia | lia | constructor | lia | now left |].
  cbn [app] in L1. change (zeros (316 - 0)) with (replicate (286 + 30) 0) in L1. rewrite L1, bind_ok.
  destruct (lengths _ cl _ [] bs4) as [[[all|e]| | |] bs5]; try contradiction.
  2: { destruct L2 as [-> ->]. exists None, r5. cbn. auto. }
  destruct L2 as (-> & H5 & Hall & HA). destruct (build_alphabets_same hlit hdist all) as (o & M1 & M2); [lia | lia | exact Hall | exact HA |].
  cbv zeta in M2. rewrite M1, bind_ok. exists o, r5. split; [reflexivity|]. rewrite bind_ok. destruct (_ && _ && _ && _).
  - destruct M2 as (t1 & t2 & -> & T1 & T2). cbn. exists t1, t2. auto.
  - split; [exact M2|]. unfold table_error. now rewrite (ab_truncated _ _ _ H5).
Qed.

End tables.
