(* ===== verification/InflateRefine.v ===== *)
(** The DEFLATE decoder implements [Reference]
    ([src/compress/inflate.cpp], [Inflate::decode]): stored blocks, the block
    loop, termination, and the limit on the output. *)

From Stdlib Require Import ZArith Lia String.
From stdpp Require Import base tactics list numbers.
From S2P Require Import Prelude Bytes Arrays BitReader Huffman InflateBits InflateTable Inflate InflateSpec InflateExact.
Import Reference.

Local Open Scope Z_scope.
Local Open Scope size_scope.

(** ** Stored blocks *)

Section stored.
Context {I K : Type} `{ByteInputLaws I} `{OutputSink K}.

(** Whole bytes of the stream, in bulk. *)
Lemma get_byte b bs : is_byte b -> get 8 (byte_bits b ++ bs) = Some (b, bs).
Proof.
  intros Hb. unfold get. rewrite (proj2 (Z.leb_le _ _)) by (rewrite zlen_app, zlen_byte_bits; zlen_pose; lia).
  change (Z.to_nat 8) with (length (byte_bits b)). now rewrite take_app_length, drop_app_length, byte_bits_val.
Qed.

Lemma stored_bytes x m bs (s : Out K) :
  bytes x ->
  exists bs', stored (length x + m) (bits_of x ++ bs) s =
    (let '(e, s) := put_bytes x s in if decide (e = InflateOk) then stored m bs s else (e, bs', s)).
Proof.
  revert s. induction x as [|b x IH]; intros s Hx.
  { exists []. reflexivity. }
  assert (Hb := Forall_inv Hx). apply Forall_inv_tail in Hx. cbn beta in Hb.
  cbn [length Nat.add stored]. rewrite bits_of_cons, <- app_assoc, get_byte by exact Hb. rewrite put_bytes_cons.
  destruct (put_byte b s) as [e s1]. destruct (decide (e = InflateOk)) as [He|He].
  - apply IH, Hx.
  - exists (bits_of x ++ bs). destruct (decide (e = InflateOk)); [contradiction | reflexivity].
Qed.

Lemma whole_bytes r bs : holds r bs -> zlen bs mod 8 = 0 -> bit_count_ r mod 8 = 0.
Proof. intros Hr Hm. destruct (holds_count r bs Hr) as [_ E]. rewrite E in Hm. clear - Hm. dlia. Qed.

Lemma drop_whole (bs : list bool) k : 0 <= 8 * k <= zlen bs -> zlen bs mod 8 = 0 -> zlen (drop (Z.to_nat (8 * k)) bs) mod 8 = 0.
Proof. intros Hk Hm. rewrite zlen_drop by lia. clear - Hm. dlia. Qed.

(** The bytes in the accumulator. *)
Lemma drain_same n fuel left r bs o s :
  at_bits n r bs -> ready o s -> zlen bs mod 8 = 0 -> 0 <= left < Z.of_nat fuel ->
  exists e left' r' o', drain_loop fuel left r o = Ok (e, left', r', o') /\
    if decide (e = InflateOk)
    then exists bs' s', stored (Z.to_nat left) bs s = stored (Z.to_nat left') bs' s' /\ 0 <= left' /\
           at_bits n r' bs' /\ ready o' s' /\ (0 < left' -> bit_count_ r' = 0)
    else exists bs' s', stored (Z.to_nat left) bs s = (e, bs', s') /\ delivered o' s'.
Proof.
  revert left r bs o s. induction fuel as [|fuel IH]; intros left r bs o s Hr Ho Hm Hf; [lia|]. cbn [drain_loop].
  destruct (holds_real r bs (ab_holds _ _ _ Hr)) as [E1 E2]. rewrite E1.
  assert (Hw := whole_bytes r bs (ab_holds _ _ _ Hr) Hm).
  destruct (Z.gtb_spec left 0) as [Hl|Hl]; [destruct (Z.geb_spec (bit_count_ r) 8) as [H8|H8]|]; cbn [andb].
  2, 3: exists InflateOk, left, r, o; (split; [reflexivity|]); (destruct (decide (InflateOk = InflateOk)); [|congruence]);
    exists bs, s; split_and!; auto; try lia; intros _; clear - Hw H8 E2; dlia.
  destruct (get_same n r bs 8 Hr) as (v & r1 & G1 & G2); [lia|]. rewrite G1, bind_ok.
  replace (Z.to_nat left) with (S (Z.to_nat (left - 1))) by lia. cbn [stored].
  destruct (get 8 bs) as [[w bs1]|] eqn:Eg.
  2: { exfalso. unfold get in Eg. rewrite (proj2 (Z.leb_le _ _)) in Eg by lia. discriminate. }
  destruct G2 as [-> Hr1]. destruct (get_length _ _ _ _ Eg) as [Hl1 Hw1]; [lia|]. change (2 ^ 8) with 256 in Hw1.
  replace (u8 w) with w by (symmetry; apply wrap_small; lia).
  destruct (emit_literal_same w o s Ho) as (o1 & P1 & P2 & P3). rewrite P1, bind_ok.
  destruct (put_byte w s) as [e s1]. cbn [fst snd] in *. destruct (decide (e = InflateOk)) as [He|He].
  - assert (Hm1 : zlen bs1 mod 8 = 0) by (rewrite Hl1; clear - Hm; dlia).
    destruct (IH (left - 1) r1 bs1 o1 s1 Hr1 (P3 He) Hm1) as (e2 & l2 & r2 & o2 & I1 & I2); [lia|]. exists e2, l2, r2, o2. auto.
  - exists e, left, r1, o1. split; [reflexivity|]. destruct (decide (e = InflateOk)); [contradiction|]. eauto.
Qed.

(** The bytes behind the accumulator. *)
Lemma skip_holds r x :
  holds r (bits_of (rest_bytes r)) -> bit_count_ r = 0 -> 0 <= zlen x -> view (in_buf_ r) (in_pos_ r) = x ++ view (in_buf_ r) (in_pos_ r + zlen x) ->
  zlen x <= in_end_ r - in_pos_ r ->
  rest_bytes r = x ++ rest_bytes (skip_input (zlen x) r) /\ holds (skip_input (zlen x) r) (bits_of (rest_bytes (skip_input (zlen x) r))).
Proof.
  intros [P1 P2 P3 P4 P5 P5' P6 Pw (acc & A1 & A2 & A3)] Hz Hx Hv Hfit.
  assert (E : rest_bytes r = x ++ rest_bytes (skip_input (zlen x) r)) by (unfold rest_bytes; cbn; rewrite Hv at 1; now rewrite <- app_assoc).
  split; [exact E|]. assert (Hacc : acc = []) by (apply zlen_zero_nil; lia). subst acc.
  split; unfold in_end_ in *; cbn; auto; try lia.
  - unfold size_add, u64, wrap. assert (Hmm := Z.mod_mod_divide (consumed_bits_ r + zlen x * 8) (2 ^ 64) 8 ltac:(exists (2 ^ 61); reflexivity)).
    rewrite Hz in *. rewrite Z.add_0_r in *. rewrite Hmm. clear - P5. dlia.
  - apply wrap_range. lia.
  - exists []. split_and!; auto.
Qed.

Lemma stored_loop_same n fuel left r o s :
  at_bits n r (bits_of (rest_bytes r)) -> ready o s -> bit_count_ r = 0 -> 0 <= left < Z.of_nat fuel ->
  block_sim n (stored_loop fuel left r o) (Ok (stored (Z.to_nat left) (bits_of (rest_bytes r)) s)).
Proof.
  revert left r o s. induction fuel as [|fuel IH]; intros left r o s Hr Ho Hz Hf; [lia|]. cbn [stored_loop].
  destruct (Z.gtb_spec left 0) as [Hl|Hl].
  2: { replace (Z.to_nat left) with O by lia. exists r, o. destruct Ho as [Ho1 Ho2].
       split_and!; [reflexivity | apply (or_delivered o s Ho1) |]. intros _. now split. }
  assert (FILL : exists ok r1, (if in_pos_ r >=? in_end_ r then refill_input r else (true, r)) = (ok, r1) /\
            at_bits n r1 (bits_of (rest_bytes r)) /\ bit_count_ r1 = 0 /\ bits_of (rest_bytes r1) = bits_of (rest_bytes r) /\
            (ok = true -> in_pos_ r1 < in_end_ r1) /\ (ok = false -> bits_of (rest_bytes r) = [])).
  { destruct (Z.geb_spec (in_pos_ r) (in_end_ r)) as [He|He]; [|exists true, r; split_and!; auto; discriminate].
    destruct Hr as [Hh Hc Ht]. assert (G := refill_holds r _ Hh He). destruct (refill_input r) as [ok r1].
    destruct G as (G1 & [G2 G2'] & G3 & _ & G4 & G5). exists ok, r1.
    assert (Erest : bits_of (rest_bytes r1) = bits_of (rest_bytes r)).
    { destruct G1 as [_ Hby _ _ _ _ _ _ (acc & A1 & A2 & A3)]. assert (acc = []) as -> by (apply zlen_zero_nil; lia). now symmetry. }
    split_and!; auto; [split; [exact G1 | congruence | congruence] | congruence | intros E; rewrite <- Erest, G5 by exact E; reflexivity]. }
  destruct FILL as (ok & r1 & -> & Hat & Hz1 & Er & Hok & Hno). destruct ok; cbn [negb].
  2: { rewrite Hno by reflexivity. replace (Z.to_nat left) with (S (Z.to_nat (left - 1))) by lia. cbn [stored].
       now apply sim_error. }
  specialize (Hok eq_refl). rewrite <- Er in *. clear Hno Hr Hz Er r.
  set (k := Z.min left (in_end_ r1 - in_pos_ r1)). assert (Hk : 0 < k <= left /\ k <= in_end_ r1 - in_pos_ r1) by lia.
  assert (Hh := ab_holds _ _ _ Hat). assert (Hpos := ho_pos _ _ Hh). assert (Hby := ho_bytes _ _ Hh).
  destruct (list_cut (in_buf_ r1) (in_pos_ r1)) as (p & q & Ep & Hp); [unfold in_end_ in *; lia|].
  destruct (list_cut q k) as (x & y & -> & S2); [unfold in_end_ in *; rewrite Ep, zlen_app in *; lia|].
  rewrite Ep, slice_at, bind_ok by lia. assert (Hx : bytes x).
  { rewrite Ep in Hby. apply Forall_app in Hby as [_ Hby]. now apply Forall_app in Hby as [Hby _]. }
  assert (S3 : view (in_buf_ r1) (in_pos_ r1) = x ++ view (in_buf_ r1) (in_pos_ r1 + zlen x)).
  { rewrite Ep, view_app by lia. f_equal. symmetry. rewrite app_assoc. apply view_app. rewrite zlen_app. lia. }
  destruct (emit_same x o s Ho) as (o1 & P1 & P2 & P3). rewrite P1, bind_ok.
  destruct (skip_holds r1 x Hh Hz1 (zlen_nonneg x)) as [Er2 Hh2]; [exact S3 | lia |]. rewrite S2 in *.
  replace (Z.to_nat left) with (length x + Z.to_nat (left - k))%nat by (unfold zlen in S2; lia).
  rewrite Er2, bits_of_app.
  destruct (stored_bytes x (Z.to_nat (left - k)) (bits_of (rest_bytes (skip_input k r1))) s Hx) as (bs' & ->).
  destruct (put_bytes x s) as [e s1]. cbn [fst snd] in *. destruct (decide (e = InflateOk)) as [He|He].
  - apply IH; [|auto | exact Hz1 | lia]. destruct Hat as [_ Hc Ht]. split; [exact Hh2 | | exact Ht].
    cbn. rewrite Hc, Er2, bits_of_app, zlen_app, !zlen_bits_of, S2. unfold size_add, u64, wrap. rewrite Zplus_mod_idemp_l. f_equal. lia.
  - exists r1, o1. split_and!; [reflexivity | exact P2 | contradiction].
Qed.

Lemma decode_stored_same n r bs o s :
  at_bits n r bs -> ready o s -> block_sim n (decode_stored r o) (Ok (stored_block bs s)).
Proof.
  intros [Hh Hc Ht] Ho. destruct (align_holds r bs Hh) as (r1 & A1 & A2 & A3 & A4).
  unfold decode_stored, stored_block. rewrite A1, bind_ok, A4, Ht. set (bs1 := drop (Z.to_nat (zlen bs mod 8)) bs) in *.
  assert (Hle : 0 <= zlen bs mod 8 <= zlen bs).
  { split; [apply Z.mod_pos_bound; lia | apply Z.mod_le; [zlen_pose|]; lia]. }
  assert (Hat1 : at_bits n r1 bs1) by (split; [exact A2 | rewrite A3, Hc; now apply consumed_step | congruence]).
  assert (Hm1 : zlen bs1 mod 8 = 0) by (unfold bs1; rewrite zlen_drop by lia; clear; dlia). clearbody bs1.
  destruct (get_same n r1 bs1 16 Hat1) as (v & r2 & G1 & G2); [lia|]. rewrite G1, bind_ok.
  destruct (get 16 bs1) as [[len bs2]|] eqn:E1.
  2: { destruct (get_bits_holds 16 r1 bs1 A2) as (r2' & B1 & _ & B3); [lia|]. rewrite G1 in B1. injection B1 as -> <-.
       unfold get in E1. destruct (Z.leb_spec 16 (zlen bs1)) as [|Hlt]; [discriminate|]. destruct (B3 Hlt) as (B4 & _ & _).
       destruct (get_bits_holds 16 r2 bs1 B4) as (r3 & C1 & _ & C3); [lia|]. destruct (C3 Hlt) as (_ & _ & C4).
       rewrite C1, bind_ok, C4. now apply sim_error. }
  destruct G2 as [-> Hat2]. destruct (get_same n r2 bs2 16 Hat2) as (v & r3 & F1 & F2); [lia|]. rewrite F1, bind_ok.
  destruct (get 16 bs2) as [[nlen bs3]|] eqn:E2; [|rewrite F2; now apply sim_error]. destruct F2 as [-> Hat3].
  rewrite (ab_truncated _ _ _ Hat3). apply get_length in E1, E2; [|lia..].
  destruct (negb (Z.lxor len 0xFFFF =? nlen)); [now apply sim_error|].
  assert (Hm3 : zlen bs3 mod 8 = 0) by (clear - E1 E2 Hm1; dlia).
  destruct (drain_same n (S (Z.to_nat len)) len r3 bs3 o s Hat3 Ho Hm3) as (e & l & r4 & o4 & D1 & D2); [lia|]. rewrite D1, bind_ok.
  destruct (decide (e = InflateOk)) as [He|He].
  - destruct D2 as (bs4 & s4 & -> & Hl & Hat4 & Ho4 & Hz). destruct (Z.gtb_spec l 0) as [Hl0|Hl0]; cbn [andb].
    + rewrite Hz by lia. cbn [Z.eqb negb]. assert (Er : bs4 = bits_of (rest_bytes r4)).
      { destruct Hat4 as [[_ _ _ _ _ _ _ _ (acc & Q1 & _ & ->)] _ _]. assert (acc = []) as -> by (apply zlen_zero_nil; rewrite Q1; apply Hz; lia). reflexivity. }
      rewrite Er. apply stored_loop_same; [now rewrite <- Er | exact Ho4 | apply Hz; lia | lia].
    + assert (l = 0) as -> by lia. exists r4, o4. destruct Ho4 as [Ho5 Ho6]. split_and!; [reflexivity | apply (or_delivered _ _ Ho5) |]. intros _. now split.
  - destruct D2 as (bs4 & s4 & -> & D3). exists r4, o4. split_and!; [reflexivity | exact D3 | contradiction].
Qed.

End stored.

(** ** Blocks *)

Lemma fixed_lit_fine : lens288 fixed_lengths /\ kraft fixed_lengths /\ is_complete fixed_lengths = true.
Proof.
  split_and!; [split; [vm_compute; congruence|] | vm_compute; congruence | vm_compute; reflexivity].
  repeat apply Forall_app_2; apply Forall_replicate; lia.
Qed.

Lemma fixed_dist_fine : lens288 fixed_dist_lengths /\ kraft fixed_dist_lengths /\ is_complete fixed_dist_lengths = true.
Proof.
  split_and!; [split; [vm_compute; congruence|] | vm_compute; congruence | vm_compute; reflexivity].
  apply Forall_replicate; lia.
Qed.

(** The cache of the fixed tables. *)
Definition fixed_fine (fixed : option Tables) : Prop :=
  match fixed with Some (a, b) => table_for a fixed_lengths /\ table_for b fixed_dist_lengths | None => True end.

Lemma build_fixed_same fixed :
  fixed_fine fixed ->
  exists t1 t2, build_fixed_tables fixed = Ok (Some (t1, t2)) /\ table_for t1 fixed_lengths /\ table_for t2 fixed_dist_lengths.
Proof.
  destruct fixed as [[a b]|]; [intros [Ha Hb]; exists a, b; auto|]. intros _. unfold build_fixed_tables.
  destruct fixed_lit_fine as (L1 & _ & L3). destruct fixed_dist_fine as (D1 & _ & D3).
  destruct (build_same fixed_lengths false L1) as (o1 & B1 & B2). rewrite L3 in B2. destruct o1 as [t1|]; [|discriminate].
  destruct (build_same fixed_dist_lengths false D1) as (o2 & B3 & B4). rewrite D3 in B4. destruct o2 as [t2|]; [|discriminate].
  rewrite B1, bind_ok, B3, bind_ok. exists t1, t2. split; [reflexivity|]. split; [apply B2 | apply B4].
Qed.

Section loop.
Context {I K : Type} `{ByteInputLaws I} `{OutputSink K}.

(** [block_sim] with the cache of the fixed tables. *)
Definition cached_sim (n : Z) (m : res (InflateError * option Tables * Reader I * Output K)) (x : res (InflateError * list bool * Out K)) : Prop :=
  match x with
  | Ok (e, bs, s) => exists fixed r o, m = Ok (e, fixed, r, o) /\ fixed_fine fixed /\ delivered o s /\ (e = InflateOk -> at_bits n r bs /\ ready o s)
  | Fuel => m = Fuel
  | _ => False
  end.

(** One block, and what follows it. *)
Lemma sim_block n (m : res (InflateError * option Tables * Reader I * Output K)) (x : res (InflateError * list bool * Out K))
    (k : option Tables -> Reader I -> Output K -> res (InflateError * Reader I * Output K)) (k' : list bool -> Out K -> res (InflateError * list bool * Out K)) :
  cached_sim n m x ->
  (forall fixed r bs o s, fixed_fine fixed -> at_bits n r bs -> ready o s -> block_sim n (k fixed r o) (k' bs s)) ->
  block_sim n ('(e, fixed, r, o) ← m; if decide (e = InflateOk) then k fixed r o else mret (e, r, o))
    ('(e, bs, s) ← x; if decide (e = InflateOk) then k' bs s else Ok (e, bs, s)).
Proof.
  unfold cached_sim. intros Hx Hk. destruct x as [[[e bs] s]| | |]; [|contradiction.. | rewrite Hx; reflexivity].
  destruct Hx as (fixed & r & o & -> & Hf & Hd & Hok). rewrite !bind_ok. destruct (decide (e = InflateOk)) as [He|He].
  - destruct (Hok He). now apply Hk.
  - exists r, o. split_and!; [reflexivity | exact Hd | contradiction].
Qed.

(** A block run gives the cache back. *)
Lemma sim_cached n (m : res (InflateError * Reader I * Output K)) (x : res (InflateError * list bool * Out K)) fixed :
  block_sim n m x -> fixed_fine fixed ->
  cached_sim n ('(e, r, o) ← m; mret (e, fixed, r, o)) x.
Proof.
  unfold block_sim, cached_sim. destruct x as [[[e bs] s]| | |]; [|contradiction.. | now intros ->].
  intros (r & o & -> & Hd & Hok) Hf. exists fixed, r, o. rewrite bind_ok. auto.
Qed.

Lemma decode_loop_same n fuel fixed r bs o s :
  fixed_fine fixed -> at_bits n r bs -> ready o s -> block_sim n (decode_loop fuel fixed r o) (blocks fuel bs s).
Proof.
  revert fixed r bs o s. induction fuel as [|fuel IH]; intros fixed r bs o s Hf Hr Ho; [reflexivity|]. cbn [decode_loop blocks].
  destruct (get_same n r bs 1 Hr) as (final & r1 & A1 & A2); [lia|]. rewrite A1, bind_ok.
  destruct (get 1 bs) as [[final' bs1]|]; [|rewrite A2; now apply sim_error]. destruct A2 as [-> Hr1]. rewrite (ab_truncated _ _ _ Hr1).
  destruct (get_same n r1 bs1 2 Hr1) as (btype & r2 & B1 & B2); [lia|]. rewrite B1, bind_ok.
  destruct (get 2 bs1) as [[btype' bs2]|]; [|rewrite B2; now apply sim_error]. destruct B2 as [-> Hr2]. rewrite (ab_truncated _ _ _ Hr2).
  apply sim_block.
  - destruct (btype' =? 0); [apply sim_cached; [now apply decode_stored_same | exact Hf]|].
    destruct (btype' =? 1).
    { destruct (build_fixed_same fixed Hf) as (t1 & t2 & -> & T1 & T2). rewrite bind_ok.
      apply sim_cached; [now apply body_same | now split]. }
    destruct (btype' =? 2).
    { destruct (dynamic_same n r2 bs2 Hr2) as (t & r3 & D1 & D2). rewrite D1, bind_ok.
      destruct (dynamic bs2) as [[[[ll dl]|e]| | |] bs3]; try contradiction.
      - destruct D2 as (t1 & t2 & -> & T1 & T2 & Hr3). rewrite bind_ok. apply sim_cached; [now apply body_same | exact Hf].
      - destruct D2 as [-> ->]. rewrite bind_ok. exists fixed, r3, o. split_and!; [reflexivity | exact Hf | apply Ho |].
        unfold table_error. destruct (truncated_ r3); discriminate. }
    exists fixed, r2, o. split_and!; [reflexivity | exact Hf | apply Ho | discriminate].
  - intros fixed' r3 bs3 o3 s3 Hf3 Hr3 Ho3. destruct (negb (final' =? 0)); [|now apply IH].
    destruct Ho3 as [Ho3 Hp3]. destruct (flush_same o3 s3 Ho3) as (o4 & F1 & F2 & F3); [lia|]. rewrite F1, bind_ok.
    destruct (flush s3) as [e s4]. cbn [fst snd] in *. exists r3, o4. split_and!; [reflexivity | exact F2 |].
    intros He. destruct (F3 He) as [F4 F5]. split; [exact Hr3|]. split; [exact F4 | rewrite F5; reflexivity].
Qed.

End loop.

(** ** Termination *)

Lemma symbol_shrinks lens bs s bs' : symbol lens bs = Sym s bs' -> (length bs' < length bs)%nat.
Proof.
  unfold symbol. destruct (resolve lens bs) as [t|] eqn:Es; [|discriminate]. destruct (resolve_some lens bs t Es) as [[Ht Hs] _].
  destruct (Z.leb_spec (nthZ lens t) (zlen bs)) as [Hl|Hl]; [|discriminate]. intros [= <- <-]. rewrite length_drop. unfold zlen in Hl. lia.
Qed.

Lemma get_shrinks k bs v bs' : 0 <= k -> get k bs = Some (v, bs') -> (length bs' + Z.to_nat k = length bs)%nat.
Proof. intros Hk Hg. apply get_length in Hg as [Hg _]; [|exact Hk]. unfold zlen in Hg. lia. Qed.

Lemma extra_shrinks table i bs v bs' : table_fine table -> extra_value table i bs = Some (v, bs') -> (length bs' <= length bs)%nat.
Proof.
  unfold extra_value. intros Hf. destruct (table !! Z.to_nat i) as [[base extra]|] eqn:E; [|discriminate].
  assert (He : 0 <= extra).
  { unfold table_fine in Hf. rewrite List.Forall_forall in Hf. apply (Hf (base, extra)). apply list_elem_of_In. eapply list_elem_of_lookup_2, E. }
  destruct (get extra bs) as [[w bs1]|] eqn:Eg; [|discriminate]. intros [= _ <-]. apply get_shrinks in Eg; lia.
Qed.

Section terminates.
Context {K : Type} `{OutputSink K}.

Lemma body_total fuel ll dl bs (s : Out K) :
  (length bs < fuel)%nat -> exists e bs' s', body fuel ll dl bs s = Ok (e, bs', s') /\ (length bs' <= length bs)%nat.
Proof.
  revert bs s. induction fuel as [|fuel IH]; intros bs s Hf; [lia|]. cbn [body].
  destruct (symbol ll bs) as [sym bs1| |] eqn:Es; [apply symbol_shrinks in Es | eauto 10..].
  assert (NEXT : forall bs' s', (length bs' <= length bs1)%nat ->
    exists e b x, body fuel ll dl bs' s' = Ok (e, b, x) /\ (length b <= length bs)%nat).
  { intros bs' s' Hl. destruct (IH bs' s') as (e & b & x & E1 & E2); [lia|]. exists e, b, x. split; [exact E1 | lia]. }
  assert (STOP : forall (e : InflateError) bs' (s' : Out K), (length bs' <= length bs1)%nat ->
    exists e' (b : list bool) (x : Out K), Ok (e, bs', s') = Ok (e', b, x) /\ (length b <= length bs)%nat).
  { intros e bs' s' Hl. exists e, bs', s'. split; [reflexivity | lia]. }
  destruct (sym <? 256); [destruct (put_byte sym s) as [e s1]; destruct (decide (e = InflateOk)); auto|].
  destruct (sym =? 256); [auto|]. destruct (sym <=? 285); [|auto].
  destruct (extra_value LENGTH_TABLE (sym - 257) bs1) as [[len bs2]|] eqn:E2; [apply extra_shrinks in E2; [|apply length_table_fine] | auto].
  destruct (symbol dl bs2) as [dsym bs3| |] eqn:E3; [apply symbol_shrinks in E3 | apply STOP; lia..].
  destruct (dsym >? 29); [apply STOP; lia|].
  destruct (extra_value DIST_TABLE dsym bs3) as [[dist bs4]|] eqn:E4; [apply extra_shrinks in E4; [|apply dist_table_fine] | apply STOP; lia].
  destruct (copy dist len s) as [e s1]. destruct (decide (e = InflateOk)); [apply NEXT | apply STOP]; lia.
Qed.

Lemma stored_shrinks m bs (s : Out K) : (length (stored m bs s).1.2 <= length bs)%nat.
Proof.
  revert bs s. induction m as [|m IH]; intros bs s; [cbn; lia|]. cbn [stored].
  destruct (get 8 bs) as [[b bs1]|] eqn:E; [|cbn; lia]. apply get_shrinks in E; [|lia].
  destruct (put_byte b s) as [e s1]. destruct (decide (e = InflateOk)); [|cbn; lia]. specialize (IH bs1 s1). lia.
Qed.

Lemma stored_block_shrinks bs (s : Out K) : (length (stored_block bs s).1.2 <= length bs)%nat.
Proof.
  unfold stored_block. set (bs0 := drop _ bs). assert (L0 : (length bs0 <= length bs)%nat) by (unfold bs0; rewrite length_drop; lia). clearbody bs0.
  destruct (get 16 bs0) as [[v bs1]|] eqn:E1; [|exact L0]. apply get_shrinks in E1; [|lia].
  destruct (get 16 bs1) as [[w bs2]|] eqn:E2; [|cbn; lia]. apply get_shrinks in E2; [|lia].
  destruct (negb _); [cbn; lia|]. assert (L := stored_shrinks (Z.to_nat v) bs2 s). lia.
Qed.

Lemma clens_shrinks order lens bs l bs' : clens order lens bs = Some (l, bs') -> (length bs' <= length bs)%nat.
Proof.
  revert lens bs. induction order as [|i order IH]; intros lens bs; cbn [clens]; [intros [= _ <-]; lia|].
  destruct (get 3 bs) as [[v bs1]|] eqn:E; [|discriminate]. apply get_shrinks in E; [|lia]. intros Hc. apply IH in Hc. lia.
Qed.

Lemma lengths_total fuel cl n acc bs :
  zlen acc <= n -> n - zlen acc < Z.of_nat fuel ->
  exists o bs', lengths fuel cl n acc bs = (Ok o, bs') /\ (length bs' <= length bs)%nat.
Proof.
  revert acc bs. induction fuel as [|fuel IH]; intros acc bs Ha Hf; [lia|]. cbn [lengths].
  destruct (Z.ltb_spec (zlen acc) n) as [Hl|Hl]; [|eauto].
  destruct (symbol cl bs) as [sym bs1| |] eqn:Es; [apply symbol_shrinks in Es | eauto..].
  assert (NEXT : forall bs' k v, (length bs' <= length bs1)%nat -> 0 < k -> zlen acc + k <= n ->
    exists o b, lengths fuel cl n (acc ++ replicate (Z.to_nat k) v) bs' = (Ok o, b) /\ (length b <= length bs)%nat).
  { intros bs' k v Hb Hk Hfit. assert (El : zlen (acc ++ replicate (Z.to_nat k) v) = zlen acc + k) by (rewrite zlen_app, zlen_replicate; lia).
    destruct (IH (acc ++ replicate (Z.to_nat k) v) bs') as (o & b & E1 & E2); [lia | lia |]. exists o, b. split; [exact E1 | lia]. }
  destruct (sym <? 16); [apply (NEXT bs1 1 sym); lia|].
  destruct (_ && _); [eexists _, _; split; [reflexivity | lia]|].
  assert (STEP : forall width least v, 0 <= width -> 3 <= least ->
    exists o bs', match get width bs1 with
      | None => (Ok (inr TruncatedInput), bs1)
      | Some (k, bs2) =>
          if zlen acc + (least + k) >? n then (Ok (inr BadCodeLengths), bs2)
          else lengths fuel cl n (acc ++ replicate (Z.to_nat (least + k)) v) bs2
      end = (Ok o, bs') /\ (length bs' <= length bs)%nat).
  { intros width least v Hw Hle. destruct (get width bs1) as [[k bs2]|] eqn:E; [|eexists _, _; split; [reflexivity | lia]].
    assert (Hk := E). apply get_length in Hk as [_ Hk]; [|exact Hw]. apply get_shrinks in E; [|exact Hw].
    destruct (Z.gtb_spec (zlen acc + (least + k)) n); [eexists _, _; split; [reflexivity | lia] | apply NEXT; lia]. }
  destruct (sym =? 16); [apply STEP; lia|]. destruct (sym =? 17); apply STEP; lia.
Qed.

Lemma dynamic_total bs : exists o bs', dynamic bs = (Ok o, bs') /\ (length bs' <= length bs)%nat.
Proof.
  unfold dynamic.
  destruct (get 5 bs) as [[a bs1]|] eqn:E1; [assert (R1 := E1); apply get_length in R1 as [_ R1]; [apply get_shrinks in E1|] | eauto]; [|lia..].
  destruct (get 5 bs1) as [[b bs2]|] eqn:E2; [assert (R2 := E2); apply get_length in R2 as [_ R2]; [apply get_shrinks in E2|] | eexists _, _; split; [reflexivity | lia]]; [|lia..].
  destruct (get 4 bs2) as [[c bs3]|] eqn:E3; [apply get_shrinks in E3; [|lia] | eexists _, _; split; [reflexivity | lia]].
  destruct (_ || _); [eexists _, _; split; [reflexivity | lia]|].
  destruct (clens _ _ bs3) as [[cl bs4]|] eqn:E4; [apply clens_shrinks in E4 | eexists _, _; split; [reflexivity | lia]].
  destruct (negb _); [eexists _, _; split; [reflexivity | lia]|].
  destruct (lengths_total (S (Z.to_nat (a + 257 + (b + 1)))) cl (a + 257 + (b + 1)) [] bs4) as (o & bs5 & E5 & E6);
    [change (zlen (@nil Z)) with 0; lia..|]. rewrite E5. cbn [mbind res_bind].
  destruct o as [all|e]; [destruct (_ && _)|]; eexists _, _; (split; [reflexivity | lia]).
Qed.

Lemma blocks_total fuel bs (s : Out K) :
  (length bs < fuel)%nat -> exists e bs' s', blocks fuel bs s = Ok (e, bs', s') /\ (length bs' <= length bs)%nat.
Proof.
  revert bs s. induction fuel as [|fuel IH]; intros bs s Hf; [lia|]. cbn [blocks].
  destruct (get 1 bs) as [[final bs1]|] eqn:E1; [apply get_shrinks in E1; [|lia] | eauto 10].
  destruct (get 2 bs1) as [[btype bs2]|] eqn:E2; [apply get_shrinks in E2; [|lia] | eexists _, _, _; split; [reflexivity | lia]].
  set (x := if btype =? 0 then _ else _).
  assert (Hx : exists e bs' s', x = Ok (e, bs', s') /\ (length bs' <= length bs2)%nat).
  { unfold x. destruct (btype =? 0).
    { assert (L := stored_block_shrinks bs2 s). destruct (stored_block bs2 s) as [[e bs'] s']. exists e, bs', s'. auto. }
    destruct (btype =? 1); [apply body_total; lia|]. destruct (btype =? 2); [|eexists _, _, _; split; [reflexivity | lia]].
    destruct (dynamic_total bs2) as (o & bs3 & -> & L). rewrite bind_ok. destruct o as [[ll dl]|e]; [|eauto 10].
    destruct (body_total fuel ll dl bs3 s) as (e & b & s' & B1 & B2); [lia|]. exists e, b, s'. split; [exact B1 | lia]. }
  destruct Hx as (e & bs3 & s3 & -> & L). rewrite bind_ok. destruct (decide (e = InflateOk)); [|eexists _, _, _; split; [reflexivity | lia]].
  destruct (negb _); [destruct (flush s3) as [e4 s4]; eexists _, _, _; split; [reflexivity | lia]|].
  destruct (IH bs3 s3) as (e4 & b4 & s4 & B1 & B2); [lia|]. exists e4, b4, s4. split; [exact B1 | lia].
Qed.

(** Fuel above the number of bits makes no difference. *)
Lemma body_fuel f1 f2 ll dl bs (s : Out K) :
  (length bs < f1)%nat -> (length bs < f2)%nat -> body f1 ll dl bs s = body f2 ll dl bs s.
Proof.
  revert f2 bs s. induction f1 as [|f1 IH]; intros [|f2] bs s H1 H2; [lia..|]. cbn [body].
  destruct (symbol ll bs) as [sym bs1| |] eqn:Es; [apply symbol_shrinks in Es | reflexivity..].
  destruct (sym <? 256); [destruct (put_byte sym s) as [e s1]; destruct (decide (e = InflateOk)); [apply IH; lia | reflexivity]|].
  destruct (sym =? 256); [reflexivity|]. destruct (sym <=? 285); [|reflexivity].
  destruct (extra_value LENGTH_TABLE (sym - 257) bs1) as [[len bs2]|] eqn:E2; [apply extra_shrinks in E2; [|apply length_table_fine] | reflexivity].
  destruct (symbol dl bs2) as [dsym bs3| |] eqn:E3; [apply symbol_shrinks in E3 | reflexivity..].
  destruct (dsym >? 29); [reflexivity|].
  destruct (extra_value DIST_TABLE dsym bs3) as [[dist bs4]|] eqn:E4; [apply extra_shrinks in E4; [|apply dist_table_fine] | reflexivity].
  destruct (copy dist len s) as [e s1]. destruct (decide (e = InflateOk)); [apply IH; lia | reflexivity].
Qed.

Lemma blocks_fuel f1 f2 bs (s : Out K) :
  (length bs < f1)%nat -> (length bs < f2)%nat -> blocks f1 bs s = blocks f2 bs s.
Proof.
  revert f2 bs s. induction f1 as [|f1 IH]; intros [|f2] bs s H1 H2; [lia..|]. cbn [blocks].
  destruct (get 1 bs) as [[final bs1]|] eqn:E1; [apply get_shrinks in E1; [|lia] | reflexivity].
  destruct (get 2 bs1) as [[btype bs2]|] eqn:E2; [apply get_shrinks in E2; [|lia] | reflexivity].
  set (x := if btype =? 0 then _ else _). set (y := if btype =? 0 then Ok (stored_block bs2 s) else _).
  assert (Hxy : x = y /\ forall e bs' s', x = Ok (e, bs', s') -> (length bs' <= length bs2)%nat).
  { unfold x, y. destruct (btype =? 0).
    { split; [reflexivity|]. intros e bs' s' [= E]. assert (L := stored_block_shrinks bs2 s). rewrite E in L. exact L. }
    assert (BODY : forall ll dl bs3, (length bs3 <= length bs2)%nat -> body f1 ll dl bs3 s = body f2 ll dl bs3 s /\
      forall e bs' s', body f1 ll dl bs3 s = Ok (e, bs', s') -> (length bs' <= length bs2)%nat).
    { intros ll dl bs3 L. split; [apply body_fuel; lia|]. intros e bs' s' E.
      destruct (body_total f1 ll dl bs3 s) as (e1 & b & s1 & B1 & B2); [lia|]. rewrite B1 in E. injection E as _ <- _. lia. }
    destruct (btype =? 1); [apply BODY; lia|]. destruct (btype =? 2); [|split; [reflexivity|]; intros e bs' s' [= _ <- _]; lia].
    destruct (dynamic_total bs2) as (o & bs3 & -> & L). rewrite !bind_ok. destruct o as [[ll dl]|e]; [now apply BODY|].
    split; [reflexivity|]. intros e' bs' s' [= _ <- _]. lia. }
  clearbody x y. destruct Hxy as [<- Hl]. destruct x as [[[e bs3] s3]| | |]; [|reflexivity..]. specialize (Hl e bs3 s3 eq_refl).
  rewrite !bind_ok. destruct (decide (e = InflateOk)); [|reflexivity]. destruct (negb _); [reflexivity|]. apply IH; lia.
Qed.

End terminates.

(** ** The decoder *)

(** A sink that keeps everything. *)
#[export] Instance collect : OutputSink (list Z) := { sink_write k x := (true, k ++ x) }.

(** A callback that reads from a list of bytes. *)
#[export] Instance from_list : ByteInput (list Z) :=
  { in_read l n := (map u8 (take (Z.to_nat n) l), drop (Z.to_nat n) l) }.

#[export] Instance from_list_laws : ByteInputLaws (list Z).
Proof.
  refine {| in_wf := fun _ => True; in_content := map u8 |}.
  - intros l _. apply Forall_forall. intros b Hb. apply in_map_iff in Hb as (x & <- & _). apply wrap_range. lia.
  - intros l n _ Hn. cbn [in_read from_list fst snd]. assert (L : zlen (map u8 (take (Z.to_nat n) l)) = Z.min n (zlen l)).
    { unfold zlen. rewrite length_map, length_take. lia. }
    rewrite L. split; [exact Logic.I|]. split; [lia|]. destruct (Z.ltb_spec (Z.min n (zlen l)) n) as [Hs|Hs].
    + now rewrite app_nil_r, take_ge by (unfold zlen in Hs; lia).
    + rewrite <- map_app. now rewrite take_drop.
Defined.

(** A stream of zlib, fixed codes: "hello hello hello hello!". *)
Definition hello_stream : list Z := [203; 72; 205; 201; 201; 87; 200; 64; 39; 21; 1].

(** What the reference says of a run: the bytes delivered, the sink, and on
    success the bits consumed and a callback still in order. *)
Definition agrees {I K : Type} `{ByteInputLaws I} (data : list Z) (e : InflateError) (r : Reader I) (o : Output K) (bs : list bool) (s : Out K) : Prop :=
  total_out_ o = total s /\ sink_ o = sink s /\
  (e = InflateOk -> truncated_ r = false /\ consumed_bits_ r = u64 (8 * zlen data - zlen bs) /\ forall i, input_fn_ r = Some i -> in_wf i).

Lemma decode_agrees {I K : Type} `{ByteInputLaws I} `{OutputSink K} fuel buf limit (input : I) (k : option K) :
  zlen buf = WINDOW_SIZE + OUT_CHUNK -> in_wf input -> 8 * zlen (in_content input) < Z.of_nat fuel ->
  exists e r o bs s,
    decode fuel buf limit input k = Ok (e, r, o) /\ Reference.inflate fuel limit k (in_content input) = Ok (e, bs, s) /\
    agrees (in_content input) e r o bs s.
Proof.
  intros Hb Hi Hf. unfold Reference.inflate, decode, agrees. set (data := in_content input) in *.
  destruct (blocks_total fuel (bits_of data) (start limit k)) as (e & bs & s & E & _).
  { assert (L := zlen_bits_of data). unfold zlen in L, Hf. lia. }
  assert (Hat : at_bits (8 * zlen data) (Reader_reset (Some input)) (bits_of data)).
  { split; [now apply reset_holds | | reflexivity]. rewrite zlen_bits_of, Z.sub_diag. reflexivity. }
  assert (S := decode_loop_same (8 * zlen data) fuel None _ _ _ _ Logic.I Hat (start_ready buf limit k Hb)).
  rewrite E in S. destruct S as (r & o & D & [D1 D2 D3] & Hok). exists e, r, o, bs, s. split_and!; auto.
  intros He. destruct (Hok He) as [[Hh Hc Ht] _]. split_and!; auto. apply (ho_input _ _ Hh).
Qed.

(** C3. On every input, in chunks of any size the callback chooses, the
    decoder returns, and it returns what the reference for the DEFLATE format
    returns on the same bytes: the same outcome, the same number of bytes
    delivered and the same sink, and on success it has consumed exactly the
    bits of the stream and never ran past them.  Fuel above the number of bits
    is always enough. *)
Theorem inflate_refines {I K : Type} `{ByteInputLaws I} `{OutputSink K} fuel buf limit (input : I) (k : option K) :
  zlen buf = WINDOW_SIZE + OUT_CHUNK -> in_wf input ->
  8 * zlen (in_content input) < Z.of_nat fuel ->
  exists e r o bs s,
    decode fuel buf limit input k = Ok (e, r, o) /\
    Reference.inflate fuel limit k (in_content input) = Ok (e, bs, s) /\
    agrees (in_content input) e r o bs s.
Proof. apply decode_agrees. Qed.

Lemma inflate_refines_witness :
  let data := hello_stream in
  let buf := replicate (Z.to_nat (WINDOW_SIZE + OUT_CHUNK)) 0 in
  (exists bs s, Reference.inflate 89 1000 (Some []) data = Ok (InflateOk, bs, s) /\ sink s = Some (str "hello hello hello hello!"%string)) /\
  exists e r o bs s,
    decode 89 buf 1000 data (Some []) = Ok (e, r, o) /\ Reference.inflate 89 1000 (Some []) (in_content data) = Ok (e, bs, s) /\
    agrees (in_content data) e r o bs s.
Proof.
  split; [eexists _, _; vm_compute; split; reflexivity|].
  apply (inflate_refines (I := list Z) 89 (replicate (Z.to_nat (WINDOW_SIZE + OUT_CHUNK)) 0) 1000 hello_stream (Some [])).
  - apply zlen_replicate.
  - exact Logic.I.
  - reflexivity.
Defined.
