(* ===== verification/InflateSink.v ===== *)
(** What the DEFLATE decoder hands to its sink
    ([src/compress/inflate.cpp], [Inflate::flush_output] and its callers).

    [keeps] carries an invariant of the output through a whole run.  It gives
    the bound of the cap, and the pieces a sink receives; [deflated] is the
    data of a stream on its own, whatever the sink does. *)

From Stdlib Require Import ZArith Lia String.
From stdpp Require Import base tactics list numbers.
From S2P Require Import Prelude Bytes Arrays BitReader Huffman InflateBits InflateTable Inflate InflateSpec InflateExact InflateRefine.
Import Reference.

Local Open Scope Z_scope.
Local Open Scope size_scope.

(** ** Invariants of a run *)

(** A failure of the output, not of the stream. *)
Definition sink_error (e : InflateError) : Prop := e = SinkFailed \/ e = OutputCapExceeded.

Lemma lengths_error fuel cl n acc bs e bs' :
  lengths fuel cl n acc bs = (Ok (inr e), bs') -> e = TruncatedInput \/ e = BadCodeLengths.
Proof.
  revert acc bs. induction fuel as [|fuel IH]; intros acc bs; [discriminate|]. cbn [lengths].
  destruct (_ <? n); [|discriminate]. destruct (symbol cl bs) as [sym bs1| |]; [|intros [= <- _]; now right..].
  destruct (sym <? 16); [apply IH|]. destruct (_ && _); [intros [= <- _]; now right|].
  destruct (if sym =? 16 then _ else _) as [[width least] v]. destruct (get width bs1) as [[k bs2]|]; [|intros [= <- _]; now left].
  destruct (_ >? n); [intros [= <- _]; now right | apply IH].
Qed.

Lemma dynamic_error bs e bs' : dynamic bs = (Ok (inr e), bs') -> e = TruncatedInput \/ e = BadCodeLengths.
Proof.
  unfold dynamic. destruct (get 5 bs) as [[a bs1]|]; [|intros [= <- _]; now left].
  destruct (get 5 bs1) as [[b bs2]|]; [|intros [= <- _]; now left]. destruct (get 4 bs2) as [[c bs3]|]; [|intros [= <- _]; now left].
  destruct (_ || _); [intros [= <- _]; now right|]. destruct (clens _ _ bs3) as [[cl bs4]|]; [|intros [= <- _]; now left].
  destruct (negb _); [intros [= <- _]; now right|]. destruct (lengths _ cl _ [] bs4) as [r bs5] eqn:E.
  destruct r as [[all|e1]| | |]; cbn [mbind res_bind]; try discriminate.
  - destruct (_ && _); [discriminate | intros [= <- _]; now right].
  - intros [= <- _]. now apply lengths_error in E.
Qed.

Lemma symbol_coded lens bs s bs' : symbol lens bs = Sym s bs' -> 0 <= s.
Proof.
  unfold symbol. destruct (resolve lens bs) as [t|] eqn:E; [|discriminate]. destruct (resolve_some lens bs t E) as [[Ht _] _].
  destruct (_ <=? _); [|discriminate]. intros [= <- _]. lia.
Qed.

Section keeps.
Context {K : Type} `{OutputSink K} (Inv : Out K -> Prop) (Fin : InflateError -> Out K -> Prop) (good : Z -> Prop).
Context (Hbyte : forall b, is_byte b -> good b).
Context (Hcopy : forall n dist s, Inv s -> Forall good (lz n dist (hist s))).
Context (Hput : forall b s, good b -> Inv s -> Fin (put_byte b s).1 (put_byte b s).2).
Context (Hgo : forall s, Fin InflateOk s -> Inv s).
Context (Hstop : forall e s, Inv s -> ~ sink_error e -> Fin e s).

Lemma put_bytes_keeps x s : Forall good x -> Inv s -> Fin (put_bytes x s).1 (put_bytes x s).2.
Proof.
  intros Hx. revert s. induction Hx as [|b x Hb Hx IH]; intros s Hs; [apply Hstop; [exact Hs | intros [|]; discriminate]|]. rewrite put_bytes_cons.
  assert (P := Hput b s Hb Hs). destruct (put_byte b s) as [e s1]. cbn [fst snd] in P.
  destruct (decide (e = InflateOk)) as [->|He]; [apply IH; now apply Hgo | exact P].
Qed.

Lemma copy_keeps dist len s : Inv s -> Fin (copy dist len s).1 (copy dist len s).2.
Proof. intros Hs. unfold copy. destruct (_ || _); [apply Hstop; [exact Hs | intros [|]; discriminate] | apply put_bytes_keeps; auto]. Qed.

Lemma body_keeps fuel ll dl bs s e bs' s' :
  Inv s -> body fuel ll dl bs s = Ok (e, bs', s') -> Fin e s'.
Proof.
  revert bs s. induction fuel as [|fuel IH]; intros bs s Hs; [discriminate|]. cbn [body].
  assert (STOP : forall x b, ~ sink_error x -> Ok (x, b, s) = Ok (e, bs', s') -> Fin e s').
  { intros x b Hx [= <- _ <-]. now apply Hstop. }
  assert (STEP : forall (p : InflateError * Out K) b, Fin p.1 p.2 ->
    (let '(e, s) := p in if decide (e = InflateOk) then body fuel ll dl b s else Ok (e, b, s)) = Ok (e, bs', s') -> Fin e s').
  { intros [e1 s1] b Hp. cbn [fst snd] in Hp. destruct (decide (e1 = InflateOk)) as [->|He].
    - apply IH. now apply Hgo.
    - intros [= <- _ <-]. exact Hp. }
  destruct (symbol ll bs) as [sym bs1| |] eqn:Es; [|apply STOP; intros [|]; discriminate..].
  destruct (Z.ltb_spec sym 256) as [H256|_]; [apply STEP; apply Hput; [apply Hbyte; split; [now apply (symbol_coded _ _ _ _ Es) | exact H256] | exact Hs]|].
  destruct (sym =? 256); [apply STOP; intros [|]; discriminate|]. destruct (sym <=? 285); [|apply STOP; intros [|]; discriminate].
  destruct (extra_value LENGTH_TABLE _ bs1) as [[len bs2]|]; [|apply STOP; intros [|]; discriminate].
  destruct (symbol dl bs2) as [dsym bs3| |]; [|apply STOP; intros [|]; discriminate..].
  destruct (dsym >? 29); [apply STOP; intros [|]; discriminate|].
  destruct (extra_value DIST_TABLE dsym bs3) as [[dist bs4]|]; [|apply STOP; intros [|]; discriminate].
  apply STEP. now apply copy_keeps.
Qed.

Lemma stored_keeps m bs s : Inv s -> Fin (stored m bs s).1.1 (stored m bs s).2.
Proof.
  revert bs s. induction m as [|m IH]; intros bs s Hs; [apply Hstop; [exact Hs | intros [|]; discriminate]|]. cbn [stored].
  destruct (get 8 bs) as [[b bs1]|] eqn:Eg; [|apply Hstop; [exact Hs | intros [|]; discriminate]].
  apply get_length in Eg as [_ Eg]; [|lia]. assert (P := Hput b s (Hbyte b Eg) Hs).
  destruct (put_byte b s) as [e s1]. cbn [fst snd] in P. destruct (decide (e = InflateOk)) as [->|He]; [apply IH; now apply Hgo | exact P].
Qed.

Lemma stored_block_keeps bs s : Inv s -> Fin (stored_block bs s).1.1 (stored_block bs s).2.
Proof.
  intros Hs. assert (STOP : forall x, ~ sink_error x -> Fin x s) by auto.
  unfold stored_block. destruct (get 16 _) as [[v bs1]|]; [|apply STOP; intros [|]; discriminate].
  destruct (get 16 bs1) as [[w bs2]|]; [|apply STOP; intros [|]; discriminate].
  destruct (negb _); [apply STOP; intros [|]; discriminate | now apply stored_keeps].
Qed.

(** A run ends in a state of the invariant: in an error, or flushed. *)
Lemma blocks_keeps fuel bs s e bs' s' :
  Inv s -> blocks fuel bs s = Ok (e, bs', s') ->
  (e <> InflateOk /\ Fin e s') \/ exists s0, Inv s0 /\ flush s0 = (e, s').
Proof.
  revert bs s. induction fuel as [|fuel IH]; intros bs s Hs; [discriminate|]. cbn [blocks].
  assert (STOP : forall x b, x <> InflateOk -> ~ sink_error x -> Ok (x, b, s) = Ok (e, bs', s') ->
    (e <> InflateOk /\ Fin e s') \/ exists s0, Inv s0 /\ flush s0 = (e, s')).
  { intros x b H0 H1 [= <- _ <-]. auto. }
  destruct (get 1 bs) as [[final bs1]|]; [|apply STOP; [|intros [|]]; discriminate].
  destruct (get 2 bs1) as [[btype bs2]|]; [|apply STOP; [|intros [|]]; discriminate].
  set (x := if btype =? 0 then _ else _).
  assert (Hx : forall e1 b1 s1, x = Ok (e1, b1, s1) -> Fin e1 s1).
  { intros e1 b1 s1. unfold x. destruct (btype =? 0).
    { assert (P := stored_block_keeps bs2 s Hs). destruct (stored_block bs2 s) as [[e2 b2] s2]. intros [= <- _ <-]. exact P. }
    destruct (btype =? 1); [now apply body_keeps|]. destruct (btype =? 2).
    - destruct (dynamic bs2) as [[[[ll dl]|e2]| | |] bs3] eqn:Ed; try discriminate; rewrite bind_ok; [now apply body_keeps|].
      intros [= <- _ <-]. apply dynamic_error in Ed. apply Hstop; [exact Hs|]. destruct Ed; subst; intros [|]; discriminate.
    - intros [= <- _ <-]. apply Hstop; [exact Hs | intros [|]; discriminate]. }
  clearbody x. destruct x as [[[e1 b1] s1]| | |]; try discriminate. specialize (Hx e1 b1 s1 eq_refl). rewrite bind_ok.
  destruct (decide (e1 = InflateOk)) as [->|He]; [|intros [= <- _ <-]; auto].
  assert (Hs1 := Hgo s1 Hx). destruct (negb (final =? 0)); [|now apply IH].
  destruct (flush s1) as [e2 s2] eqn:Ef. intros [= <- _ <-]. right. eauto.
Qed.

End keeps.

Lemma all_true {A} (l : list A) : Forall (fun _ => True) l.
Proof. induction l; constructor; auto. Qed.

(** The data of a stream are bytes. *)
Lemma lz_bytes n dist h : bytes h -> bytes (lz n dist h).
Proof.
  revert h. induction n as [|n IH]; intros h Hh; [constructor|]. cbn [lz].
  assert (Hb : is_byte (nthZ h (zlen h - dist))).
  { unfold nthZ. destruct (nth_in_or_default (Z.to_nat (zlen h - dist)) h 0) as [Hin| ->]; [|unfold is_byte; lia].
    rewrite List.Forall_forall in Hh. now apply Hh. }
  constructor; [exact Hb|]. apply IH. apply Forall_app_2; [exact Hh | now constructor].
Qed.

Lemma flush_hist {K} `{OutputSink K} (s : Out K) : hist (flush s).2 = hist s.
Proof.
  unfold flush. destruct (pending s =? 0); [reflexivity|]. assert (G : forall x, hist (deliver x s).2 = hist s).
  { intros x. unfold deliver. destruct (sink s) as [k|]; [|reflexivity]. now destruct (sink_write k x). }
  destruct (_ >? _); [destruct (_ >? 0); [|reflexivity]|].
  - specialize (G (take (Z.to_nat (Z.min (cap s -s total s) (pending s))) (undelivered s))). now destruct (deliver _ s) as [ok s'].
  - specialize (G (undelivered s)). destruct (deliver _ s) as [[] s']; exact G.
Qed.

Lemma blocks_bytes {K} `{OutputSink K} fuel bs (s : Out K) e bs' s' :
  bytes (hist s) -> blocks fuel bs s = Ok (e, bs', s') -> bytes (hist s').
Proof.
  intros Hs Hb. destruct (blocks_keeps (fun s => bytes (hist s)) (fun _ s => bytes (hist s)) is_byte (fun b Hb => Hb)
    (fun n dist s Hs => lz_bytes n dist _ Hs)) with fuel bs s e bs' s' as [[_ F]|(s0 & H0 & Hf)]; auto.
  - intros b s1 Hb1 Hs1. unfold put_byte. rewrite flush_full_hist. cbn. apply Forall_app_2; [exact Hs1 | now constructor].
  - assert (E := flush_hist s0). rewrite Hf in E. cbn in E. now rewrite E.
Qed.

(** The history only grows. *)
Section grows.
Context {K : Type} `{OutputSink K} (h : list Z).

Definition from_history (s : Out K) : Prop := h `prefix_of` hist s.

Lemma put_byte_from (b : Z) s : True -> from_history s -> from_history (put_byte b s).2.
Proof. intros _ Hs. unfold from_history, put_byte. rewrite flush_full_hist. cbn. now apply prefix_app_r. Qed.

Lemma put_bytes_from x s : from_history s -> from_history (put_bytes x s).2.
Proof.
  apply (put_bytes_keeps from_history (fun _ => from_history) (fun _ => True) put_byte_from); auto. apply all_true.
Qed.

Lemma body_from fuel ll dl bs s e bs' s' : from_history s -> body fuel ll dl bs s = Ok (e, bs', s') -> from_history s'.
Proof.
  apply (body_keeps from_history (fun _ => from_history) (fun _ => True)); auto using put_byte_from. intros n dist s1 _. apply all_true.
Qed.

Lemma stored_from m bs s : from_history s -> from_history (stored m bs s).2.
Proof.
  apply (stored_keeps from_history (fun _ => from_history) (fun _ => True)); auto using put_byte_from.
Qed.

Lemma blocks_from fuel bs s e bs' s' : from_history s -> blocks fuel bs s = Ok (e, bs', s') -> from_history s'.
Proof.
  intros Hs Hb. destruct (blocks_keeps from_history (fun _ => from_history) (fun _ => True)) with fuel bs s e bs' s' as [[_ F]|(s0 & H0 & Hf)];
    auto using put_byte_from. { intros n dist s1 _. apply all_true. }
  assert (E := flush_hist s0). rewrite Hf in E. unfold from_history in *. cbn in E. now rewrite E.
Qed.

End grows.

(** ** The cap *)

(** [d] is what the sink has of the history [h]. *)
Record sent (limit : Z) (d : list Z) (s : Out (list Z)) : Prop := {
  se_sink : sink s = Some d;
  se_total : total s = zlen d;
  se_cap : cap s = limit;
  se_fits : zlen d <= limit;
  se_prefix : d `prefix_of` hist s
}.

(** Between two operations the rest of the history is pending. *)
Record sending (limit : Z) (s : Out (list Z)) : Prop := {
  sg_sent : exists d u, sent limit d s /\ hist s = d ++ u /\ zlen u = pending s;
  sg_room : 0 <= pending s < OUT_CHUNK
}.

(** The outcome of an operation. *)
Definition outcome (limit : Z) (e : InflateError) (s : Out (list Z)) : Prop :=
  exists d, sent limit d s /\ e <> SinkFailed /\ (e = InflateOk -> sending limit s) /\
    (e = OutputCapExceeded -> zlen d = limit /\ limit < zlen (hist s)).

Section capped.
Context (limit : Z) (Hlimit : 0 <= limit < 2 ^ 64 - OUT_CHUNK).

Lemma flush_outcome d u s :
  sent limit d s -> hist s = d ++ u -> zlen u = pending s -> pending s <= OUT_CHUNK ->
  outcome limit (flush s).1 (flush s).2 /\ ((flush s).1 = InflateOk -> pending (flush s).2 = 0).
Proof.
  intros [S1 S2 S3 S4 S5] Hh Hu Hp. assert (P := zlen_nonneg u). assert (Pd := zlen_nonneg d). unfold flush.
  destruct (Z.eqb_spec (pending s) 0) as [E0|E0].
  { cbn. split; [|auto]. exists d. split; [now split|]. split; [discriminate|]. split; [|discriminate]. intros _.
    split; [exists d, u; split; [now split | auto] | unfold OUT_CHUNK; lia]. }
  unfold OUT_CHUNK in Hlimit, Hp. rewrite S2, S3. rewrite size_add_small by lia. rewrite size_sub_small by lia.
  assert (Hund : undelivered s = u).
  { unfold undelivered. rewrite Hh. apply drop_app_length'. rewrite zlen_app. unfold zlen in *. lia. }
  unfold deliver. rewrite S1, Hund, S2. cbn [sink_write collect].
  destruct (Z.gtb_spec (zlen d + pending s) limit) as [Hc|Hc].
  - destruct (Z.gtb_spec (Z.min (limit - zlen d) (pending s)) 0) as [Hn|Hn]; cbn [fst snd].
    + split; [|discriminate]. set (x := take (Z.to_nat (Z.min (limit - zlen d) (pending s))) u).
      assert (Hx : zlen x = limit - zlen d) by (unfold x; rewrite zlen_take by lia; lia).
      exists (d ++ x). assert (Hs : zlen (d ++ x) = limit) by (rewrite zlen_app; lia). split.
      * split; cbn; auto; [rewrite size_add_small by lia; now rewrite zlen_app | lia |].
        rewrite Hh. apply prefix_app. exists (drop (Z.to_nat (Z.min (limit - zlen d) (pending s))) u). symmetry. apply take_drop.
      * split_and!; try discriminate. intros _. cbn. split; [exact Hs | rewrite Hh, zlen_app; lia].
    + split; [|discriminate]. exists d. split; [now split|]. split_and!; try discriminate. intros _. rewrite Hh, zlen_app. lia.
  - cbn [fst snd pending]. split; [|auto]. exists (d ++ u). split.
    + split; cbn; auto; [rewrite size_add_small by lia; now rewrite zlen_app | rewrite zlen_app; lia | now rewrite Hh].
    + split_and!; try discriminate. intros _. split; [|cbn; unfold OUT_CHUNK; lia].
      exists (d ++ u), []. split; [|split; [cbn; now rewrite app_nil_r | reflexivity]].
      split; cbn; auto; [rewrite size_add_small by lia; now rewrite zlen_app | rewrite zlen_app; lia | now rewrite Hh].
Qed.

Lemma put_byte_outcome b s : sending limit s -> outcome limit (put_byte b s).1 (put_byte b s).2.
Proof.
  intros [(d & u & Hs & Hh & Hu) Hr]. unfold put_byte, flush_full.
  assert (Hs' : sent limit d (push [b] s)).
  { destruct Hs as [S1 S2 S3 S4 S5]. split; cbn; auto. apply prefix_app_r, S5. }
  assert (Hh' : hist (push [b] s) = d ++ (u ++ [b])) by (cbn; rewrite Hh; now rewrite <- app_assoc).
  assert (Hp : pending (push [b] s) = pending s + 1) by reflexivity.
  assert (Hu' : zlen (u ++ [b]) = pending (push [b] s)) by (rewrite zlen_app, Hp; change (zlen [b]) with 1; lia).
  destruct (Z.eqb_spec (pending (push [b] s)) OUT_CHUNK) as [E|E].
  - apply (flush_outcome d (u ++ [b])); auto. lia.
  - exists d. split; [exact Hs'|]. split_and!; try discriminate. intros _. split; [eauto 10|]. cbn [fst snd]. lia.
Qed.

Lemma outcome_stop e s : sending limit s -> ~ sink_error e -> outcome limit e s.
Proof.
  intros Hs He. destruct (sg_sent _ _ Hs) as (d & u & Hd & _). exists d. split; [exact Hd|].
  unfold sink_error in He. split; [auto|]. split; [auto|]. intros ->. exfalso. auto.
Qed.

Lemma outcome_go s : outcome limit InflateOk s -> sending limit s.
Proof. intros (d & _ & _ & P & _). auto. Qed.

Lemma blocks_outcome fuel bs s e bs' s' :
  sending limit s -> blocks fuel bs s = Ok (e, bs', s') -> outcome limit e s' /\ (e = InflateOk -> pending s' = 0).
Proof.
  intros Hs Hb. destruct (blocks_keeps _ _ (fun _ => True) (fun _ _ => Logic.I) (fun n dist s _ => all_true (lz n dist (hist s))) (fun b s _ => put_byte_outcome b s) outcome_go outcome_stop fuel bs s e bs' s' Hs Hb) as [[He Ho]|(s0 & H0 & Hf)].
  - split; [exact Ho | contradiction].
  - destruct (sg_sent _ _ H0) as (d & u & Hd & Hh & Hu). destruct (flush_outcome d u s0 Hd Hh Hu) as [F1 F2]; [destruct H0; lia|].
    rewrite Hf in F1, F2. auto.
Qed.

End capped.

(** C13. No stream makes the decoder deliver more than the cap: what the sink
    has received is a prefix of the decoded data, counted by [total_out_] and
    never longer than the cap; on success it is all of the data, and when the
    cap is reported exceeded it is exactly the first [cap] bytes of data that
    goes on. *)
Theorem inflate_capped {I : Type} `{ByteInputLaws I} fuel buf limit (input : I) :
  zlen buf = WINDOW_SIZE + OUT_CHUNK -> in_wf input -> 0 <= limit < 2 ^ 64 - OUT_CHUNK ->
  8 * zlen (in_content input) < Z.of_nat fuel ->
  exists e r o bs s got,
    decode fuel buf limit input (Some []) = Ok (e, r, o) /\
    Reference.inflate fuel limit (Some []) (in_content input) = Ok (e, bs, s) /\
    sink_ o = Some got /\ sent limit got s /\ total_out_ o = zlen got /\ zlen got <= limit /\
    (e = InflateOk -> got = hist s) /\
    (e = OutputCapExceeded -> zlen got = limit /\ limit < zlen (hist s)).
Proof.
  intros Hb Hi Hl Hf. destruct (decode_agrees fuel buf limit input (Some []) Hb Hi Hf) as (e & r & o & bs & s & D & E & A1 & A2 & _).
  assert (Hst : sending limit (start limit (Some []))).
  { split; [|unfold OUT_CHUNK; cbn; lia]. exists [], []. split; [|auto]. split; cbn; auto; first [apply prefix_nil | change (zlen (@nil Z)) with 0; lia]. }
  destruct (blocks_outcome limit Hl fuel _ _ e bs s Hst E) as [(d & Hd & _ & Hgo & Hcap) Hp].
  exists e, r, o, bs, s, d. destruct Hd as [S1 S2 S3 S4 S5]. split_and!; auto; try congruence; [now split|].
  intros He. destruct (sg_sent _ _ (Hgo He)) as (d' & u & [T1 _ _ _ _] & Hh & Hu). rewrite (Hp He) in Hu.
  rewrite Hh, (zlen_zero_nil u Hu), app_nil_r. congruence.
Qed.

Lemma inflate_capped_witness :
  let data := hello_stream in
  let buf := replicate (Z.to_nat (WINDOW_SIZE + OUT_CHUNK)) 0 in
  (exists bs s, Reference.inflate 89 10 (Some []) data = Ok (OutputCapExceeded, bs, s) /\ sink s = Some (str "hello hell"%string)) /\
  exists e r o bs s got,
    decode 89 buf 10 data (Some []) = Ok (e, r, o) /\ Reference.inflate 89 10 (Some []) (in_content data) = Ok (e, bs, s) /\
    sink_ o = Some got /\ sent 10 got s /\ total_out_ o = zlen got /\ zlen got <= 10 /\
    (e = InflateOk -> got = hist s) /\ (e = OutputCapExceeded -> zlen got = 10 /\ 10 < zlen (hist s)).
Proof.
  split; [eexists _, _; vm_compute; split; reflexivity|].
  apply (inflate_capped (I := list Z) 89 (replicate (Z.to_nat (WINDOW_SIZE + OUT_CHUNK)) 0) 10 hello_stream).
  - apply zlen_replicate.
  - exact Logic.I.
  - unfold OUT_CHUNK. lia.
  - reflexivity.
Defined.

(** ** The data of a stream, whatever the sink does *)

(** The outputs of two runs that have produced the same data; the second has
    no sink and no limit. *)
Record same_data {K} (s : Out K) (s0 : Out (list Z)) : Prop := {
  sd_hist : hist s0 = hist s;
  sd_pending : pending s0 = pending s;
  sd_sink : sink s0 = None;
  sd_cap : cap s0 = UNLIMITED
}.

(** The reference without a sink never fails to deliver. *)
Lemma flush_free {K} `{OutputSink K} (s0 : Out K) : sink s0 = None -> cap s0 = UNLIMITED ->
  exists s1, flush s0 = (InflateOk, s1) /\ hist s1 = hist s0 /\ pending s1 = 0 /\ sink s1 = None /\ cap s1 = UNLIMITED.
Proof.
  intros Hs Hc. unfold flush. destruct (Z.eqb_spec (pending s0) 0) as [E|E]; [exists s0; auto|].
  assert (R := wrap_range 64 (total s0 + pending s0) ltac:(lia)). rewrite Hc. unfold UNLIMITED.
  destruct (Z.gtb_spec (total s0 +s pending s0) (2 ^ 64 - 1)) as [G|_]; [unfold size_add in G; lia|].
  unfold deliver. rewrite Hs. eexists. split; [reflexivity|]. auto.
Qed.

Section independent.
Context {K : Type} `{OutputSink K}.

(** The other run has the same data, or goes on from where the sink refused. *)
Definition follows (x : InflateError * Out K) (y : InflateError * Out (list Z)) : Prop :=
  (sink_error x.1 /\ hist x.2 `prefix_of` hist y.2) \/ (x.1 = y.1 /\ same_data x.2 y.2).

Lemma flush_data s : (flush s).1 = InflateOk -> pending (flush s).2 = 0.
Proof.
  unfold flush. destruct (Z.eqb_spec (pending s) 0) as [E|E]; [auto|]. destruct (_ >? _).
  - destruct (_ >? 0); [|discriminate]. unfold deliver. destruct (sink s) as [k|]; [|discriminate].
    destruct (sink_write k _) as [[] k']; discriminate.
  - unfold deliver. destruct (sink s) as [k|]; [|auto]. destruct (sink_write k _) as [[] k']; [auto | discriminate].
Qed.

Lemma flush_errors s : (flush s).1 <> InflateOk -> sink_error (flush s).1.
Proof.
  unfold flush, sink_error. destruct (pending s =? 0); [contradiction|]. destruct (_ >? _).
  - destruct (_ >? 0); [|auto]. destruct (deliver _ s) as [[] s']; auto.
  - destruct (deliver _ s) as [[] s']; cbn; [contradiction | auto].
Qed.

Lemma flush_follows s s0 : same_data s s0 -> follows (flush s) (flush s0).
Proof.
  intros [D1 D2 D3 D4]. destruct (flush_free s0 D3 D4) as (s1 & E & F1 & F2 & F3 & F4). rewrite E.
  destruct (decide ((flush s).1 = InflateOk)) as [He|He].
  - right. split; [exact He|]. split; cbn; rewrite ?flush_hist, ?flush_data by exact He; congruence.
  - left. split; [now apply flush_errors|]. cbn. rewrite flush_hist, F1, D1. reflexivity.
Qed.

Lemma put_byte_follows b s s0 : same_data s s0 -> follows (put_byte b s) (put_byte b s0).
Proof.
  intros [D1 D2 D3 D4]. unfold put_byte, flush_full. assert (D : same_data (push [b] s) (push [b] s0)).
  { split; cbn; congruence. }
  rewrite (sd_pending _ _ D). destruct (_ =? OUT_CHUNK); [now apply flush_follows | now right].
Qed.

Lemma error_not_ok e : sink_error e -> e <> InflateOk.
Proof. now intros [-> | ->]. Qed.

Lemma put_bytes_follows x s s0 : same_data s s0 -> follows (put_bytes x s) (put_bytes x s0).
Proof.
  revert s s0. induction x as [|b x IH]; intros s s0 D; [now right|]. rewrite !put_bytes_cons.
  assert (P := put_byte_follows b s s0 D). destruct (put_byte b s) as [e s1], (put_byte b s0) as [e0 s2].
  destruct P as [[P1 P2]|[P1 P2]]; cbn [fst snd] in *.
  - destruct (decide (e = InflateOk)) as [He|_]; [now apply error_not_ok in P1|]. left. split; [exact P1|]. cbn [snd].
    destruct (decide (e0 = InflateOk)); [now apply put_bytes_from | exact P2].
  - subst e0. destruct (decide (e = InflateOk)); [now apply IH | now right].
Qed.

Lemma copy_follows dist len s s0 : same_data s s0 -> follows (copy dist len s) (copy dist len s0).
Proof.
  intros D. unfold copy. rewrite (sd_hist _ _ D). destruct (_ || _); [now right | now apply put_bytes_follows].
Qed.

(** Runs on bits. *)
Definition follows_bits (x : res (InflateError * list bool * Out K)) (y : res (InflateError * list bool * Out (list Z))) : Prop :=
  match x, y with
  | Ok (e, bs, s), Ok (e0, bs0, s0) => (sink_error e /\ hist s `prefix_of` hist s0) \/ (e = e0 /\ bs = bs0 /\ same_data s s0)
  | Ok (e, _, _), _ => sink_error e
  | Fuel, Fuel => True
  | _, _ => False
  end.

Lemma follows_stop e bs s s0 : same_data s s0 -> follows_bits (Ok (e, bs, s)) (Ok (e, bs, s0)).
Proof. right. auto. Qed.

(** A refusal is final, and the other run only adds to its history. *)
Lemma follows_refused e bs s (y : res (InflateError * list bool * Out (list Z))) :
  sink_error e -> (forall e0 bs0 s0, y = Ok (e0, bs0, s0) -> hist s `prefix_of` hist s0) -> follows_bits (Ok (e, bs, s)) y.
Proof.
  intros He Hy. unfold follows_bits. destruct y as [[[e0 bs0] s0]| | |]; auto. left. split; [exact He | now apply (Hy e0 bs0)].
Qed.

Lemma follows_step (p : InflateError * Out K) (q : InflateError * Out (list Z)) bs
    (k : Out K -> res (InflateError * list bool * Out K)) (k0 : Out (list Z) -> res (InflateError * list bool * Out (list Z))) :
  follows p q -> (forall s s0, same_data s s0 -> follows_bits (k s) (k0 s0)) ->
  (forall h s0 e bs' s1, from_history h s0 -> k0 s0 = Ok (e, bs', s1) -> from_history h s1) ->
  follows_bits (let '(e, s) := p in if decide (e = InflateOk) then k s else Ok (e, bs, s))
    (let '(e, s) := q in if decide (e = InflateOk) then k0 s else Ok (e, bs, s)).
Proof.
  destruct p as [e s], q as [e0 s0]. intros [[P1 P2]|[P1 P2]] Hk Hg; cbn [fst snd] in *.
  - destruct (decide (e = InflateOk)) as [He|_]; [now apply error_not_ok in P1|]. apply follows_refused; [exact P1|].
    intros e1 bs1 s1. destruct (decide (e0 = InflateOk)); [now apply Hg | now intros [= _ _ <-]].
  - subst e0. destruct (decide (e = InflateOk)); [now apply Hk | now apply follows_stop].
Qed.

Lemma body_follows fuel ll dl bs s s0 : same_data s s0 -> follows_bits (body fuel ll dl bs s) (body fuel ll dl bs s0).
Proof.
  revert bs s s0. induction fuel as [|fuel IH]; intros bs s s0 D; [exact Logic.I|]. cbn [body].
  destruct (symbol ll bs) as [sym bs1| |]; [|now apply follows_stop..].
  destruct (sym <? 256).
  { apply follows_step; [now apply put_byte_follows | intros s1 s2 D1; now apply IH | intros h s1 e b s2; apply body_from]. }
  destruct (sym =? 256); [now apply follows_stop|]. destruct (sym <=? 285); [|now apply follows_stop].
  destruct (extra_value LENGTH_TABLE _ bs1) as [[len bs2]|]; [|now apply follows_stop].
  destruct (symbol dl bs2) as [dsym bs3| |]; [|now apply follows_stop..].
  destruct (dsym >? 29); [now apply follows_stop|].
  destruct (extra_value DIST_TABLE dsym bs3) as [[dist bs4]|]; [|now apply follows_stop].
  apply follows_step; [now apply copy_follows | intros s1 s2 D1; now apply IH | intros h s1 e b s2; apply body_from].
Qed.

Lemma stored_follows m bs s s0 : same_data s s0 -> follows_bits (Ok (stored m bs s)) (Ok (stored m bs s0)).
Proof.
  revert bs s s0. induction m as [|m IH]; intros bs s s0 D; [now apply follows_stop|]. cbn [stored].
  destruct (get 8 bs) as [[b bs1]|]; [|now apply follows_stop]. assert (P := put_byte_follows b s s0 D).
  destruct (put_byte b s) as [e s1], (put_byte b s0) as [e0 s2]. destruct P as [[P1 P2]|[P1 P2]]; cbn [fst snd] in *.
  - destruct (decide (e = InflateOk)) as [He|_]; [now apply error_not_ok in P1|]. apply follows_refused; [exact P1|].
    intros e1 b1 s3. destruct (decide (e0 = InflateOk)); [|now intros [= _ _ <-]]. intros [= E].
    assert (F := stored_from (hist s1) m bs1 s2 P2). now rewrite E in F.
  - subst e0. destruct (decide (e = InflateOk)); [now apply IH | now apply follows_stop].
Qed.

Lemma stored_block_follows bs s s0 : same_data s s0 -> follows_bits (Ok (stored_block bs s)) (Ok (stored_block bs s0)).
Proof.
  intros D. unfold stored_block. destruct (get 16 _) as [[v bs1]|]; [|now apply follows_stop].
  destruct (get 16 bs1) as [[w bs2]|]; [|now apply follows_stop]. destruct (negb _); [now apply follows_stop | now apply stored_follows].
Qed.

Lemma blocks_follows fuel bs s s0 : same_data s s0 -> follows_bits (blocks fuel bs s) (blocks fuel bs s0).
Proof.
  revert bs s s0. induction fuel as [|fuel IH]; intros bs s s0 D; [exact Logic.I|]. cbn [blocks].
  destruct (get 1 bs) as [[final bs1]|]; [|now apply follows_stop]. destruct (get 2 bs1) as [[btype bs2]|]; [|now apply follows_stop].
  set (x := if btype =? 0 then Ok (stored_block bs2 s) else _). set (y := if btype =? 0 then Ok (stored_block bs2 s0) else _).
  assert (Hxy : follows_bits x y).
  { unfold x, y. destruct (btype =? 0); [now apply stored_block_follows|]. destruct (btype =? 1); [now apply body_follows|].
    destruct (btype =? 2); [|now apply follows_stop]. destruct (dynamic_total bs2) as (o & bs3 & -> & _). rewrite !bind_ok.
    destruct o as [[ll dl]|e]; [now apply body_follows | now apply follows_stop]. }
  clearbody x y. unfold follows_bits in Hxy. destruct x as [[[e b] s1]| | |]; [|contradiction.. | destruct y; try contradiction; exact Logic.I].
  rewrite bind_ok. destruct y as [[[e0 b0] s2]| | |].
  - rewrite bind_ok. destruct Hxy as [[Hx Hpre]|(<- & <- & D1)].
    + destruct (decide (e = InflateOk)) as [He|_]; [now apply error_not_ok in Hx|]. apply follows_refused; [exact Hx|].
      intros e1 b1 s3. destruct (decide (e0 = InflateOk)); [|now intros [= _ _ <-]]. destruct (negb (final =? 0)).
      * assert (Hf := flush_hist s2). destruct (flush s2) as [e4 s4]. intros [= _ _ <-]. cbn in Hf. now rewrite Hf.
      * now apply (blocks_from (hist s1)).
    + destruct (decide (e = InflateOk)); [|now apply follows_stop]. destruct (negb (final =? 0)); [|now apply IH].
      assert (F := flush_follows s1 s2 D1). destruct (flush s1) as [e1 s3], (flush s2) as [e2 s4].
      destruct F as [F|[F1 F2]]; cbn [fst snd] in *; [now left | subst; now apply follows_stop].
  - destruct (decide (e = InflateOk)) as [He|_]; [now apply error_not_ok in Hxy | exact Hxy].
  - destruct (decide (e = InflateOk)) as [He|_]; [now apply error_not_ok in Hxy | exact Hxy].
  - destruct (decide (e = InflateOk)) as [He|_]; [now apply error_not_ok in Hxy | exact Hxy].
Qed.

End independent.

(** The data of a stream and the number of bytes it takes. *)
Definition deflated (data : list Z) : option (list Z * Z) :=
  match Reference.inflate (S (length (bits_of data))) UNLIMITED (None : option (list Z)) data with
  | Ok (InflateOk, bs, s) => Some (hist s, (8 * zlen data - zlen bs + 7) / 8)
  | _ => None
  end.

Lemma deflated_bytes data d used : deflated data = Some (d, used) -> bytes d.
Proof.
  unfold deflated, Reference.inflate. destruct (blocks _ _ _) as [[[e bs] s]| | |] eqn:E; try discriminate.
  destruct e; try discriminate. intros [= <- _]. apply blocks_bytes in E; [exact E | constructor].
Qed.

(** ** The pieces a sink receives *)

Section pieces.
Context {K : Type} `{OutputSink K}.

(** One call per piece, up to the first that is refused. *)
Fixpoint feed_sink (k : K) (pieces : list (list Z)) : bool * K :=
  match pieces with
  | [] => (true, k)
  | x :: pieces => let '(ok, k) := sink_write k x in if ok then feed_sink k pieces else (false, k)
  end.

Lemma feed_sink_snoc k pieces x k1 :
  feed_sink k pieces = (true, k1) -> feed_sink k (pieces ++ [x]) = sink_write k1 x.
Proof.
  revert k. induction pieces as [|y pieces IH]; intros k; cbn [feed_sink app].
  - intros [= <-]. now destruct (sink_write k x) as [[] k2].
  - destruct (sink_write k y) as [[] k2]; [apply IH | discriminate].
Qed.

Definition pieces_fine (pieces : list (list Z)) : Prop := Forall (fun x => 0 < zlen x <= OUT_CHUNK) pieces.

(** The sink has accepted all but the pending bytes. *)
Definition fed (k0 : K) (s : Out K) : Prop :=
  exists pieces u k, feed_sink k0 pieces = (true, k) /\ pieces_fine pieces /\ sink s = Some k /\ cap s = UNLIMITED /\
    hist s = concat pieces ++ u /\ zlen u = pending s /\ pending s < OUT_CHUNK.

Definition refused (k0 : K) (s : Out K) : Prop :=
  exists pieces k, feed_sink k0 pieces = (false, k) /\ pieces_fine pieces /\ sink s = Some k /\ concat pieces `prefix_of` hist s.

Definition fed_outcome (k0 : K) (e : InflateError) (s : Out K) : Prop :=
  (e = SinkFailed /\ refused k0 s) \/ (~ sink_error e /\ fed k0 s).

Lemma flush_fed k0 pieces u k s :
  feed_sink k0 pieces = (true, k) -> pieces_fine pieces -> sink s = Some k -> cap s = UNLIMITED ->
  hist s = concat pieces ++ u -> zlen u = pending s -> pending s <= OUT_CHUNK ->
  fed_outcome k0 (flush s).1 (flush s).2 /\ ((flush s).1 = InflateOk -> pending (flush s).2 = 0).
Proof.
  intros F1 F2 F3 F4 F5 F6 F7. unfold flush. destruct (Z.eqb_spec (pending s) 0) as [E|E].
  { split; [|auto]. right. split; [intros [|]; discriminate|]. exists pieces, u, k. cbn [fst snd].
    split_and!; auto. rewrite E. reflexivity. }
  assert (R := wrap_range 64 (total s + pending s) ltac:(lia)). rewrite F4. unfold UNLIMITED.
  destruct (Z.gtb_spec (total s +s pending s) (2 ^ 64 - 1)) as [G|_]; [unfold size_add in G; lia|].
  assert (Hund : undelivered s = u).
  { unfold undelivered. rewrite F5. apply drop_app_length'. rewrite zlen_app. unfold zlen in *. lia. }
  unfold deliver. rewrite F3, Hund. assert (S := feed_sink_snoc k0 pieces u k F1).
  assert (Hu : 0 < zlen u) by (zlen_pose; lia).
  assert (F2' : pieces_fine (pieces ++ [u])) by (apply Forall_app_2; [exact F2 | constructor; [lia | constructor]]).
  destruct (sink_write k u) as [[] k']; cbn [fst snd].
  - split; [|auto]. right. split; [intros [|]; discriminate|]. exists (pieces ++ [u]), [], k'. cbn [sink cap hist pending].
    rewrite concat_app. cbn [concat]. rewrite !app_nil_r. split_and!; auto. reflexivity.
  - split; [|discriminate]. left. split; [reflexivity|]. exists (pieces ++ [u]), k'. cbn [sink hist].
    rewrite concat_app. cbn [concat]. rewrite app_nil_r, F5. auto.
Qed.

Lemma put_byte_fed k0 b s : fed k0 s -> fed_outcome k0 (put_byte b s).1 (put_byte b s).2.
Proof.
  intros (pieces & u & k & F1 & F2 & F3 & F4 & F5 & F6 & F7). unfold put_byte, flush_full.
  assert (G5 : hist (push [b] s) = concat pieces ++ (u ++ [b])) by (cbn; rewrite F5; now rewrite <- app_assoc).
  assert (G6 : zlen (u ++ [b]) = pending (push [b] s)) by (rewrite zlen_app; cbn [push pending]; change (zlen [b]) with 1; lia).
  assert (G7 : pending (push [b] s) = pending s + 1) by reflexivity.
  destruct (Z.eqb_spec (pending (push [b] s)) OUT_CHUNK) as [E|E].
  - apply (flush_fed k0 pieces (u ++ [b]) k); auto. lia.
  - right. split; [intros [|]; discriminate|]. exists pieces, (u ++ [b]), k. cbn [fst snd]. split_and!; auto. lia.
Qed.

Lemma fed_start k0 : fed k0 (start UNLIMITED (Some k0)).
Proof. exists [], [], k0. split_and!; try reflexivity. constructor. Qed.

(** A run on a sink without a cap. *)
Lemma blocks_fed fuel bs k0 e bs' s :
  blocks fuel bs (start UNLIMITED (Some k0)) = Ok (e, bs', s) ->
  fed_outcome k0 e s /\ (e = InflateOk -> pending s = 0).
Proof.
  intros Hb. assert (Hgo : forall s, fed_outcome k0 InflateOk s -> fed k0 s).
  { intros s1 [[E _]|[_ F]]; [discriminate | exact F]. }
  assert (Hstop : forall e s, fed k0 s -> ~ sink_error e -> fed_outcome k0 e s) by (right; auto).
  destruct (blocks_keeps (fed k0) (fed_outcome k0) (fun _ => True) (fun _ _ => Logic.I) (fun n dist s _ => all_true (lz n dist (hist s)))
      (fun b s _ => put_byte_fed k0 b s) Hgo Hstop fuel bs _ e bs' s (fed_start k0) Hb) as [[He Ho]|(s0 & H0 & Hf)].
  - split; [exact Ho | contradiction].
  - destruct H0 as (pieces & u & k & F1 & F2 & F3 & F4 & F5 & F6 & F7).
    destruct (flush_fed k0 pieces u k s0) as [G1 G2]; auto; [lia|]. rewrite Hf in G1, G2. auto.
Qed.

End pieces.

(** The decoder on a sink without a cap: the sink refuses a piece, or it has
    received the data of the stream piece by piece; the outcome of the stream
    itself does not depend on the sink. *)
Lemma decode_stream {I K : Type} `{ByteInputLaws I} `{OutputSink K} fuel buf (input : I) (k0 : K) :
  let data := in_content input in
  zlen buf = WINDOW_SIZE + OUT_CHUNK -> in_wf input -> 8 * zlen data < Z.of_nat fuel ->
  exists e r o k pieces,
    decode fuel buf UNLIMITED input (Some k0) = Ok (e, r, o) /\ sink_ o = Some k /\ pieces_fine pieces /\
    ((e = SinkFailed /\ feed_sink k0 pieces = (false, k) /\
      match deflated data with Some (d, _) => concat pieces `prefix_of` d | None => True end) \/
     (feed_sink k0 pieces = (true, k) /\ ~ sink_error e /\
      match deflated data with
      | Some (d, used) => e = InflateOk /\ concat pieces = d /\ 0 <= used <= zlen data /\
                          (forall i, input_fn_ r = Some i -> in_wf i) /\
                          (8 * zlen data + 8 < 2 ^ 64 -> (consumed_bits_ r +s 7) / 8 = used)
      | None => e <> InflateOk
      end)).
Proof.
  intros data Hb Hi Hf. destruct (decode_agrees fuel buf UNLIMITED input (Some k0) Hb Hi Hf) as (e & r & o & bs & s & D & E & A1 & A2 & A3).
  fold data in D, E, A3. assert (L := zlen_bits_of data).
  destruct (blocks_fed fuel (bits_of data) k0 e bs s E) as [Hfed Hp].
  assert (D0 : same_data (start UNLIMITED (Some k0)) (start UNLIMITED (None : option (list Z)))) by (split; reflexivity).
  assert (Hfol := blocks_follows fuel (bits_of data) _ _ D0). unfold Reference.inflate in E. rewrite E in Hfol.
  rewrite (blocks_fuel fuel (S (length (bits_of data)))) in Hfol by (unfold zlen in L, Hf; lia).
  fold (Reference.inflate (S (length (bits_of data))) UNLIMITED (None : option (list Z)) data) in Hfol. unfold deflated.
  destruct Hfed as [[-> (pieces & k & R1 & R2 & R3 & R4)]|[Hns (pieces & u & k & F1 & F2 & F3 & F4 & F5 & F6 & F7)]].
  - exists SinkFailed, r, o, k, pieces. split_and!; auto; [congruence|]. left. split_and!; auto. unfold follows_bits in Hfol.
    destruct (Reference.inflate (S (length (bits_of data))) UNLIMITED None data) as [[[e0 bs0] s0]| | |]; [|exact Logic.I..].
    destruct Hfol as [[_ Hpre]|(<- & _)]; [|exact Logic.I]. destruct e0; auto. now transitivity (hist s).
  - exists e, r, o, k, pieces. split; [exact D|]. split; [congruence|]. split; [exact F2|]. right. split; [exact F1|]. split; [exact Hns|].
    unfold follows_bits in Hfol.
    destruct (Reference.inflate (S (length (bits_of data))) UNLIMITED None data) as [[[e0 bs0] s0]| | |]; [|contradiction..].
    destruct Hfol as [[Hfol _]|(<- & <- & D1)]; [contradiction|]. destruct (decide (e = InflateOk)) as [->|He].
    + assert (Hu : u = []) by (apply zlen_zero_nil; rewrite F6; auto).
      assert (Hbs : zlen bs <= zlen (bits_of data)).
      { destruct (blocks_total fuel (bits_of data) (start UNLIMITED (Some k0))) as (e1 & b1 & s1 & B1 & B2); [unfold zlen in L, Hf; lia|].
        rewrite B1 in E. injection E as _ <- _. unfold zlen. lia. }
      split; [reflexivity|]. rewrite (sd_hist _ _ D1), F5, Hu, app_nil_r. split; [reflexivity|].
      assert (P := zlen_nonneg bs). split; [clear - P Hbs L; clearbody data; dlia|].
      destruct (A3 eq_refl) as (_ & -> & Hwf). split; [exact Hwf|]. intros Hsmall. rewrite (wrap_small 64) by lia.
      rewrite size_add_small by lia. reflexivity.
    + destruct e; congruence.
Qed.
