(* ===== verification/ForeignGzip.v ===== *)
(** The GZIP reader: [src/archive/foreign_gzip.cpp].

    The file is any [ReadSource]; the DEFLATE decoder reads from it through
    the callback of [Inflate] and hands its chunks to [capped_sink], which
    keeps the checksum and the limits.  The specification of a list of bytes and
    the theorem that the reader implements it are in [GzipExact]. *)

From Stdlib Require Import ZArith Lia String.
From stdpp Require Import base tactics list numbers.
From S2P Require Import Prelude Bytes Crc Source ForeignReader InflateBits InflateTable Inflate InflateSpec InflateExact InflateRefine InflateSink.

Local Open Scope Z_scope.
Local Open Scope size_scope.

Definition le16_at (l : list Z) (i : nat) : Z := Z.lor (nth i l 0) (Z.shiftl (nth (S i) l 0) 8).

Definition le32_at (l : list Z) (i : nat) : Z :=
  Z.lor (Z.lor (Z.lor (nth i l 0) (u32 (Z.shiftl (nth (i + 1) l 0) 8))) (u32 (Z.shiftl (nth (i + 2) l 0) 16)))
    (u32 (Z.shiftl (nth (i + 3) l 0) 24)).

(** ** Member headers *)

Definition MAX_GZIP_HEADER_FIELD : Z := 64 * 1024.

(** [CHUNK] of [read_until_nul] *)
Definition FIELD_CHUNK : Z := 4096.

(** The index of the first zero byte. *)
Fixpoint find_nul (l : list Z) : option nat :=
  match l with
  | [] => None
  | c :: l => if c =? 0 then Some O else match find_nul l with Some k => Some (S k) | None => None end
  end.

Section header.
Context {S : Type} `{ReadSource S}.

(** [out = nullptr] is [None]; [None] in the result is [return false]. *)
Fixpoint read_until_nul (fuel : nat) (f : S) (pos fsize : Z) (out : option (list Z)) : res (option (Z * option (list Z)) * S) :=
  match fuel with
  | O => Fuel
  | Datatypes.S fuel' =>
      if pos <? fsize then
        let want := Z.min FIELD_CHUNK (fsize - pos) in
        let '(r, f) := read_exact f pos want in
        match r with
        | None => mret (None, f)
        | Some buf =>
            match find_nul buf with
            | Some k => mret (Some (pos + Z.of_nat k + 1, match out with Some o => Some (o ++ take k buf) | None => None end), f)
            | None =>
                match out with
                | Some o =>
                    let o := o ++ buf in
                    if zlen o >? MAX_GZIP_HEADER_FIELD then mret (None, f) else read_until_nul fuel' f (pos + want) fsize (Some o)
                | None => read_until_nul fuel' f (pos + want) fsize None
                end
            end
        end
      else mret (None, f)
  end.

Definition field_fuel (pos fsize : Z) : nat := Datatypes.S (Z.to_nat (fsize - pos)).

Record MemberHeader := { mh_fname : list Z; mh_fcomment : bool; mh_data_start : Z }.

(** The FEXTRA field: the position behind it. *)
Definition skip_extra (flg : Z) (f : S) (pos fsize : Z) : option Z * S :=
  if negb (Z.land flg 0x04 =? 0) then
    if pos + 2 >? fsize then (None, f)
    else
      let '(r, f) := read_exact f pos 2 in
      match r with
      | None => (None, f)
      | Some xl =>
          let pos := pos + (2 + le16_at xl 0) in
          if pos >? fsize then (None, f) else (Some pos, f)
      end
  else (Some pos, f).

(** The FHCRC field over the header that starts at [offset]. *)
Definition check_hcrc (addr flg : Z) (f : S) (offset pos fsize : Z) : option Z * S :=
  if negb (Z.land flg 0x02 =? 0) then
    if pos + 2 >? fsize then (None, f)
    else
      let '(r, f) := read_exact f pos 2 in
      match r with
      | None => (None, f)
      | Some hc =>
          let '(r, f) := read_exact f offset (pos - offset) in
          match r with
          | None => (None, f)
          | Some hdr =>
              let crc := Crc32_get (Crc32_update addr hdr Crc32_init) in
              if negb (Z.land crc 0xFFFF =? le16_at hc 0) then (None, f) else (Some (pos + 2), f)
          end
      end
  else (Some pos, f).

(** [fname] and [fcomment] are the caller's variables; [addr] is the address
    of the header buffer. *)
Definition parse_member_header (addr : Z) (f : S) (offset fsize : Z) (fname : list Z) (fcomment : bool) : res (option MemberHeader * S) :=
  if offset + 10 >? fsize then mret (None, f)
  else
    let '(r, f) := read_exact f offset 10 in
    match r with
    | None => mret (None, f)
    | Some h =>
        if negb (nth 0 h 0 =? 0x1F) || negb (nth 1 h 0 =? 0x8B) || negb (nth 2 h 0 =? 8) then mret (None, f)
        else if negb (Z.land (nth 3 h 0) 0xE0 =? 0) then mret (None, f)
        else
          let flg := nth 3 h 0 in
          let '(r, f) := skip_extra flg f (offset + 10) fsize in
          match r with
          | None => mret (None, f)
          | Some pos =>
              '(r, f) ← (if negb (Z.land flg 0x08 =? 0) then read_until_nul (field_fuel pos fsize) f pos fsize (Some [])
                         else mret (Some (pos, Some fname), f));
              match r with
              | None => mret (None, f)
              | Some (pos, name) =>
                  '(r, f) ← (if negb (Z.land flg 0x10 =? 0) then read_until_nul (field_fuel pos fsize) f pos fsize None
                             else mret (Some (pos, None), f));
                  match r with
                  | None => mret (None, f)
                  | Some (pos, _) =>
                      let '(r, f) := check_hcrc addr flg f offset pos fsize in
                      match r with
                      | None => mret (None, f)
                      | Some pos =>
                          mret (Some {| mh_fname := match name with Some n => n | None => fname end;
                                        mh_fcomment := negb (Z.land flg 0x10 =? 0) || fcomment; mh_data_start := pos |}, f)
                      end
                  end
              end
          end
    end.

End header.

(** ** open *)

Definition ends_with (l suffix : list Z) : bool :=
  (zlen suffix <=? zlen l) && str_eqb (drop (length l - length suffix) l) suffix.

(** [path.filename()] without [.gz], or with [.tgz] replaced by [.tar]. *)
Definition source_stem (filename : list Z) : list Z :=
  if (zlen filename >? 3) && ends_with filename (str ".gz") then take (length filename - 3) filename
  else if (zlen filename >? 4) && ends_with filename (str ".tgz") then take (length filename - 4) filename ++ str ".tar"
  else filename.

Record GzipReader (S : Type) := { gz_entry : ForeignEntry; gz_file : S; gz_opened : bool }.

Arguments gz_entry {S} g.
Arguments gz_file {S} g.
Arguments gz_opened {S} g.

Definition gz_entry_of (name raw : list Z) (escaped : bool) (comment : list Z) (unpacked : Z) : ForeignEntry :=
  {| fe_name := name; fe_name_raw := raw; fe_name_escaped := escaped; fe_type := FT_File; fe_link_target := [];
     fe_unpacked_size := unpacked; fe_crc32 := 0; fe_has_crc32 := false; fe_dos_attrs := 0; fe_has_posix_mode := false;
     fe_posix_mode := 0; fe_owner_name := []; fe_group_name := []; fe_has_owner_ids := false; fe_owner_uid := 0;
     fe_owner_gid := 0; fe_mtime_sec := 0; fe_mtime_nsec := 0; fe_timestamp_clamped := false; fe_ctime_sec := 0;
     fe_atime_sec := 0; fe_encrypted := false; fe_method_name := str "deflate"; fe_comment := comment |}.

Section gzip.
Context {S : Type} `{ReadSource S}.

(** On a fresh reader; [file] is the opened file, [None] when that failed. *)
Definition gz_open (addr : Z) (filename : list Z) (file : option S) : res (ForeignStatus * option (GzipReader S)) :=
  match file with
  | None => mret (IoError, None)
  | Some f =>
      let '(ok, f) := src_seek f 0 End_ in
      if negb ok then mret (IoError, None)
      else
        let fsize := src_tell f in
        '(r, f) ← parse_member_header addr f 0 fsize [] false;
        match r with
        | None => mret (Unparseable, None)
        | Some h =>
            let raw := match mh_fname h with [] => source_stem filename | name => name end in
            '(name, escaped) ← translate_foreign_name raw Enc_Utf8;
            mret (FS_Ok, Some {| gz_entry := gz_entry_of name raw escaped
                                               (if mh_fcomment h then str "gzip header comment present" else []) 0;
                                 gz_file := f; gz_opened := true |})
        end
  end.

(** ** decode *)

(** The file is the input callback of the decoder. *)
#[export] Instance file_input : ByteInput S := { in_read f n := src_read f n }.

Context (cancelled : nat -> bool) (sink : list (list Z) -> list Z -> bool) (limits : ExtractionLimits) (addr : Z).

(** What [capped_sink] keeps: the checksum and the count of the member, the
    budget of the caller, the chunks the caller's sink accepted, the polls. *)
Record GzSink := {
  gs_crc : Z;
  gs_member_out : Z;
  gs_state : LimitState;
  gs_out : list (list Z);
  gs_polls : nat
}.

Definition capped_sink (k : GzSink) (data : list Z) : bool * GzSink :=
  let size := zlen data in
  if size >? (2 ^ 64 - 1) - gs_member_out k then (false, k)
  else
    let member_out := u64 (gs_member_out k + size) in
    let k := {| gs_crc := gs_crc k; gs_member_out := member_out; gs_state := gs_state k; gs_out := gs_out k; gs_polls := gs_polls k |} in
    if member_limited limits && (member_out >? max_member_output_bytes limits) then (false, k)
    else
      let '(ok, state) := debit_total_bytes size limits (gs_state k) in
      let k := {| gs_crc := gs_crc k; gs_member_out := member_out; gs_state := state; gs_out := gs_out k; gs_polls := gs_polls k |} in
      if negb ok then (false, k)
      else
        let crc := Crc32_update addr data (gs_crc k) in
        let stop := cancelled (gs_polls k) in
        let k := {| gs_crc := crc; gs_member_out := member_out; gs_state := state; gs_out := gs_out k;
                    gs_polls := Datatypes.S (gs_polls k) |} in
        if stop then (false, k)
        else if negb (sink (gs_out k) data) then (false, k)
        else (true, {| gs_crc := crc; gs_member_out := member_out; gs_state := state; gs_out := gs_out k ++ [data];
                       gs_polls := gs_polls k |}).

#[export] Instance gz_sink : OutputSink GzSink := { sink_write := capped_sink }.

(** The chunks delivered, the budget, the polls and the file, behind a status. *)
Record GzOut := { go_status : ForeignStatus; go_out : list (list Z); go_state : LimitState; go_logical : Z; go_file : S }.

Definition gz_finish (status : ForeignStatus) (k : GzSink) (logical : Z) (f : S) : GzOut :=
  {| go_status := status; go_out := gs_out k; go_state := gs_state k; go_logical := logical; go_file := f |}.

(** The buffer of a new decoder. *)
Definition inflate_buffer : list Z := replicate (Z.to_nat (WINDOW_SIZE + OUT_CHUNK)) 0.

Inductive gz_result := GzDone (o : GzOut) | GzNext (offset : Z) (count : Z) (logical : Z) (k : GzSink) (f : S).

(** One member, up to the look at what follows it. *)
Definition gz_member (fsize offset count logical : Z) (k : GzSink) (f : S) : res gz_result :=
  if cancelled (gs_polls k) then mret (GzDone (gz_finish Aborted k logical f))
  else
    let k := {| gs_crc := Crc32_init; gs_member_out := 0; gs_state := gs_state k; gs_out := gs_out k;
                gs_polls := Datatypes.S (gs_polls k) |} in
    '(r, f) ← parse_member_header addr f offset fsize [] false;
    match r with
    | None => mret (GzDone (gz_finish Unparseable k logical f))
    | Some h =>
        let count := u64 (count + 1) in
        if hdr_count_limited limits && (count >? max_header_count limits) then mret (GzDone (gz_finish LimitExceeded k logical f))
        else
          let '(ok, f) := src_seek f (mh_data_start h) Begin in
          if negb ok then mret (GzDone (gz_finish IoError k logical f))
          else
            '(err, inf, o) ← decode (Datatypes.S (Z.to_nat (8 * fsize))) inflate_buffer Inflate.UNLIMITED f (Some k);
            let f := match input_fn_ inf with Some f => f | None => f end in
            let k := match sink_ o with Some k => k | None => k end in
            match err with
            | OutputCapExceeded | SinkFailed => mret (GzDone (gz_finish LimitExceeded k logical f))
            | InflateOk =>
                let trailer_at := mh_data_start h +s ((consumed_bits_ inf +s 7) / 8) in
                let '(r, f) := if trailer_at +s 8 >? fsize then (None, f) else read_exact f trailer_at 8 in
                match r with
                | None => mret (GzDone (gz_finish Truncated k logical f))
                | Some trailer =>
                    if negb (Crc32_get (gs_crc k) =? le32_at trailer 0) then mret (GzDone (gz_finish CrcMismatch k logical f))
                    else if negb (u32 (gs_member_out k) =? le32_at trailer 4) then mret (GzDone (gz_finish CrcMismatch k logical f))
                    else mret (GzNext (trailer_at +s 8) count (logical +s gs_member_out k) k f)
                end
            | _ => mret (GzDone (gz_finish Truncated k logical f))
            end
    end.

(** [for (;;)] *)
Fixpoint gz_loop (fuel : nat) (fsize offset count logical : Z) (k : GzSink) (f : S) : res GzOut :=
  match fuel with
  | O => Fuel
  | Datatypes.S fuel' =>
      r ← gz_member fsize offset count logical k f;
      match r with
      | GzDone o => mret o
      | GzNext offset count logical k f =>
          if offset +s 10 >? fsize then mret (gz_finish FS_Ok k logical f)
          else
            let '(r, f) := read_exact f offset 2 in
            match r with
            | None => mret (gz_finish IoError k logical f)
            | Some probe =>
                if negb (nth 0 probe 0 =? 0x1F) || negb (nth 1 probe 0 =? 0x8B) then mret (gz_finish FS_Ok k logical f)
                else gz_loop fuel' fsize offset count logical k f
            end
      end
  end.

(** The status and the reader afterwards; [entry_.unpacked_size] is set on success. *)
Definition gz_decode (fuel : nat) (g : GzipReader S) (state : LimitState) : res (GzOut * GzipReader S) :=
  let k := {| gs_crc := Crc32_init; gs_member_out := 0; gs_state := state; gs_out := []; gs_polls := 0 |} in
  if negb (gz_opened g) then mret (gz_finish NotOpened k 0 (gz_file g), g)
  else
    let '(ok, f) := src_seek (gz_file g) 0 End_ in
    if negb ok then mret (gz_finish IoError k 0 f, g)
    else
      o ← gz_loop fuel (src_tell f) 0 0 0 k f;
      let e := gz_entry g in
      mret (o, {| gz_entry := match go_status o with
                              | FS_Ok => gz_entry_of (fe_name e) (fe_name_raw e) (fe_name_escaped e) (fe_comment e) (go_logical o)
                              | _ => e
                              end;
                  gz_file := go_file o; gz_opened := true |}).

End gzip.
