(* ===== verification/GzipExact.v ===== *)
(** The GZIP reader decodes what RFC 1952 says ([src/archive/foreign_gzip.cpp]).

    [gunzip] reads the members of a list of bytes.  The theorem relates
    [gz_decode] to it over any source, for any limits, sink and cancellation. *)

From Stdlib Require Import ZArith Lia String.
From stdpp Require Import base tactics list numbers.
From S2P Require Import Prelude Bytes Arrays Crc Source ForeignReader BitReader Huffman InflateBits InflateTable Inflate InflateSpec InflateExact InflateRefine InflateSink ForeignGzip.

Local Open Scope Z_scope.
Local Open Scope size_scope.

(** ** The specification *)

Definition opt_bind {A B} (o : option A) (f : A -> option B) : option B := match o with Some a => f a | None => None end.

Definition flag (flg mask : Z) : bool := negb (Z.land flg mask =? 0).

(** Each field: the position behind it in the bytes of the member. *)
Definition extra_end (l : list Z) (pos : Z) : option Z :=
  if pos + 2 <=? zlen l then
    let p := pos + (2 + le16_at (view l pos) 0) in if p <=? zlen l then Some p else None
  else None.

(** A name is found within the first 17 chunks of 4096 bytes. *)
Definition name_end (l : list Z) (pos : Z) : option (Z * list Z) :=
  match find_nul (view l pos) with
  | Some k => if Z.of_nat k <? 17 * FIELD_CHUNK then Some (pos + Z.of_nat k + 1, take k (view l pos)) else None
  | None => None
  end.

Definition comment_end (l : list Z) (pos : Z) : option Z :=
  match find_nul (view l pos) with Some k => Some (pos + Z.of_nat k + 1) | None => None end.

Definition hcrc_end (l : list Z) (pos : Z) : option Z :=
  if pos + 2 <=? zlen l then
    if Z.land (crc32 0 (take (Z.to_nat pos) l) 0) 0xFFFF =? le16_at (view l pos) 0 then Some (pos + 2) else None
  else None.

(** The header at the front of [l]. *)
Definition gz_header (l : list Z) : option MemberHeader :=
  if zlen l <? 10 then None
  else
    let flg := nth 3 l 0 in
    if (nth 0 l 0 =? 0x1F) && (nth 1 l 0 =? 0x8B) && (nth 2 l 0 =? 8) && (Z.land flg 0xE0 =? 0) then
      opt_bind (if flag flg 0x04 then extra_end l 10 else Some 10) (fun pos =>
      opt_bind (if flag flg 0x08 then name_end l pos else Some (pos, [])) (fun '(pos, name) =>
      opt_bind (if flag flg 0x10 then comment_end l pos else Some pos) (fun pos =>
      opt_bind (if flag flg 0x02 then hcrc_end l pos else Some pos) (fun pos =>
      Some {| mh_fname := name; mh_fcomment := flag flg 0x10; mh_data_start := pos |}))))
    else None.

(** One member at the front of [l]: its payload and its length, or what is
    wrong with it. *)
Definition one_member (l : list Z) : ForeignStatus + (list Z * Z) :=
  match gz_header l with
  | None => inl Unparseable
  | Some h =>
      match deflated (view l (mh_data_start h)) with
      | None => inl Truncated
      | Some (d, used) =>
          let t := mh_data_start h + used in
          let trailer := view l t in
          if zlen trailer <? 8 then inl Truncated
          else if (crc32 0 d 0 =? le32_at trailer 0) && (zlen d mod 2 ^ 32 =? le32_at trailer 4) then inr (d, t + 8)
          else inl CrcMismatch
      end
  end.

(** Whether another member follows. *)
Definition member_follows (l : list Z) : bool := (10 <=? zlen l) && (nth 0 l 0 =? 0x1F) && (nth 1 l 0 =? 0x8B).

(** The status and the payloads of the members in front of the end or of the
    first fault. *)
Fixpoint gunzip (fuel : nat) (l : list Z) : res (ForeignStatus * list (list Z)) :=
  match fuel with
  | O => Fuel
  | S fuel' =>
      match one_member l with
      | inl st => mret (st, [])
      | inr (d, n) =>
          if member_follows (view l n) then '(st, ds) ← gunzip fuel' (view l n); mret (st, d :: ds)
          else mret (FS_Ok, [d])
      end
  end.

(** ** Headers *)

Section header.
Context {S : Type} `{ReadSourceLaws S}.

(** A file with contents [c] in a sound state. *)
Definition holds_file (c : list Z) (f : S) : Prop := src_wf f /\ src_contents f = c.

Lemma file_size c f : holds_file c f -> zlen c < 2 ^ 63.
Proof. intros [W <-]. now destruct (src_tell_range f W). Qed.

Lemma read_file c f off n :
  holds_file c f -> 0 <= off < 2 ^ 63 -> 0 <= n ->
  exists f', read_exact f off n = (if off + n <=? zlen c then Some (take (Z.to_nat n) (view c off)) else None, f') /\ holds_file c f'.
Proof.
  intros [W <-] Ho Hn. destruct (read_exact_spec f off n W Ho Hn) as (f' & E & W' & C'). exists f'. split; [exact E | now split].
Qed.

Lemma find_nul_app a b :
  find_nul (a ++ b) = match find_nul a with Some k => Some k | None => match find_nul b with Some k => Some (length a + k)%nat | None => None end end.
Proof.
  induction a as [|x a IH]; cbn [app find_nul length Nat.add]; [now destruct (find_nul b)|]. destruct (x =? 0); [reflexivity|].
  rewrite IH. destruct (find_nul a); [reflexivity|]. now destruct (find_nul b).
Qed.

Lemma find_nul_lt l k : find_nul l = Some k -> (k < length l)%nat.
Proof.
  revert k. induction l as [|x l IH]; intros k; cbn [find_nul length]; [discriminate|]. destruct (x =? 0); [intros [= <-]; lia|].
  destruct (find_nul l) as [j|]; [|discriminate]. intros [= <-]. specialize (IH j eq_refl). lia.
Qed.

(** What a field scan returns. *)
Definition scan_result (c : list Z) (pos : Z) (out : option (list Z)) : option (Z * option (list Z)) :=
  match find_nul (view c pos) with
  | Some k =>
      match out with
      | None => Some (pos + Z.of_nat k + 1, None)
      | Some o => if zlen o + Z.of_nat k <? 17 * FIELD_CHUNK then Some (pos + Z.of_nat k + 1, Some (o ++ take k (view c pos))) else None
      end
  | None => None
  end.

Lemma read_until_nul_exact fuel c f pos out :
  holds_file c f -> 0 <= pos <= zlen c -> zlen c - pos < Z.of_nat fuel ->
  (forall o, out = Some o -> exists j, zlen o = j * FIELD_CHUNK /\ 0 <= j <= 16) ->
  exists f', read_until_nul fuel f pos (zlen c) out = Ok (scan_result c pos out, f') /\ holds_file c f'.
Proof.
  intros Hf. assert (Hsz := file_size c f Hf). revert f pos out Hf. induction fuel as [|fuel IH]; intros f pos out Hf Hp Hfuel Ho; [lia|].
  cbn [read_until_nul]. unfold scan_result. destruct (Z.ltb_spec pos (zlen c)) as [Hlt|Hge].
  2: { exists f. replace (view c pos) with (@nil Z) by (symmetry; apply view_all; lia). cbn. auto. }
  set (want := Z.min FIELD_CHUNK (zlen c - pos)). assert (Hw : 0 < want <= FIELD_CHUNK /\ pos + want <= zlen c /\ (want = FIELD_CHUNK \/ pos + want = zlen c)) by (unfold want, FIELD_CHUNK in *; lia).
  destruct (read_file c f pos want Hf) as (f1 & R1 & Hf1); [lia | lia |]. rewrite R1, (proj2 (Z.leb_le _ _)) by lia.
  assert (Ev : view c pos = take (Z.to_nat want) (view c pos) ++ view c (pos + want)) by (apply bits_take_view; lia).
  set (buf := take (Z.to_nat want) (view c pos)) in *.
  assert (Lb : zlen buf = want) by (unfold buf; rewrite zlen_take; [reflexivity | rewrite zlen_view; lia]).
  rewrite Ev, find_nul_app. destruct (find_nul buf) as [k|] eqn:Ek.
  - apply find_nul_lt in Ek. exists f1. split; [|exact Hf1]. f_equal. f_equal. destruct out as [o|]; [|reflexivity].
    destruct (Ho o eq_refl) as (j & Hj & Hj16). rewrite take_app_le by lia.
    rewrite (proj2 (Z.ltb_lt _ _)); [reflexivity|]. unfold zlen in Lb. unfold FIELD_CHUNK in *. lia.
  - assert (NEXT : forall out', (forall o, out' = Some o -> want = FIELD_CHUNK -> exists j, zlen o = j * FIELD_CHUNK /\ 0 <= j <= 16) ->
      exists f', read_until_nul fuel f1 (pos + want) (zlen c) out' = Ok (scan_result c (pos + want) out', f') /\ holds_file c f').
    { intros out' Ho'. destruct (Z.eq_dec want FIELD_CHUNK) as [Ew|Ew]; [apply IH; auto; lia|].
      destruct fuel as [|fuel]; [lia|]. cbn [read_until_nul]. rewrite (proj2 (Z.ltb_ge _ _)) by lia. exists f1. split; [|exact Hf1].
      unfold scan_result. now rewrite view_all by lia. }
    destruct out as [o|].
    + destruct (Ho o eq_refl) as (j & Hj & Hj16). rewrite zlen_app, Lb. unfold MAX_GZIP_HEADER_FIELD.
      destruct (Z.gtb_spec (zlen o + want) (64 * 1024)) as [Hg|Hg].
      * exists f1. split; [|exact Hf1]. destruct (find_nul (view c (pos + want))) as [k|] eqn:Ek2; [|reflexivity].
        rewrite (proj2 (Z.ltb_ge _ _)); [reflexivity|]. apply find_nul_lt in Ek2. unfold zlen in Lb.
        assert (zlen (view c (pos + want)) = zlen c - (pos + want)) by (rewrite zlen_view; lia). unfold zlen in *. unfold FIELD_CHUNK in *. lia.
      * destruct (NEXT (Some (o ++ buf))) as (f2 & N1 & N2).
        { intros o' [= <-] Ew. rewrite zlen_app, Lb. exists (j + 1). unfold FIELD_CHUNK in *. lia. }
        exists f2. rewrite N1. split; [|exact N2]. f_equal. f_equal. unfold scan_result. destruct (find_nul (view c (pos + want))) as [k|]; [|reflexivity].
        rewrite zlen_app, Lb. replace (zlen o + want + Z.of_nat k) with (zlen o + Z.of_nat (length buf + k)) by (unfold zlen in Lb; lia).
        replace (pos + want + Z.of_nat k + 1) with (pos + Z.of_nat (length buf + k) + 1) by (unfold zlen in Lb; lia).
        destruct (_ <? _); [|reflexivity]. rewrite take_app_add. now rewrite <- app_assoc.
    + destruct (NEXT None) as (f2 & N1 & N2); [discriminate|]. exists f2. rewrite N1. split; [|exact N2]. f_equal. f_equal.
      unfold scan_result. destruct (find_nul (view c (pos + want))) as [k|]; [|reflexivity]. do 2 f_equal. unfold zlen in Lb. lia.
Qed.

Lemma view_view (l : list Z) i j : 0 <= i -> 0 <= j -> view (view l i) j = view l (i + j).
Proof. intros Hi Hj. unfold view. rewrite drop_drop. f_equal. lia. Qed.

(** The fields of the member at [offset]. *)
Section fields.
Context (addr : Z) (c : list Z) (offset : Z) (Hc : bytes c) (Hoff : 0 <= offset <= zlen c).

Let l : list Z := view c offset.

Lemma member_length : zlen l = zlen c - offset.
Proof. unfold l. rewrite zlen_view; lia. Qed.

Lemma member_view p : 0 <= p -> view c (offset + p) = view l p.
Proof. intros Hp. unfold l. rewrite view_view by lia. reflexivity. Qed.

Definition shift (o : option Z) : option Z := match o with Some p => Some (offset + p) | None => None end.

(** The two bytes at a position. *)
Lemma read_two f p :
  holds_file c f -> 0 <= p <= zlen l ->
  exists f', read_exact f (offset + p) 2 = (if p + 2 <=? zlen l then Some (take 2 (view l p)) else None, f') /\ holds_file c f'.
Proof.
  intros Hf Hp. assert (Hsz := file_size c f Hf). assert (Hl := member_length).
  destruct (read_file c f (offset + p) 2 Hf) as (f' & R & Hf'); [lia | lia |]. exists f'. rewrite R, member_view by lia. split; [|exact Hf'].
  replace (offset + p + 2 <=? zlen c) with (p + 2 <=? zlen l) by (destruct (Z.leb_spec (p + 2) (zlen l)); lia). reflexivity.
Qed.

Lemma le16_take x : le16_at (take 2 x) 0 = le16_at x 0.
Proof. now destruct x as [|a [|b x]]. Qed.

Lemma skip_extra_exact flg f p :
  holds_file c f -> 0 <= p <= zlen l ->
  exists f', skip_extra flg f (offset + p) (zlen c) = (shift (if flag flg 0x04 then extra_end l p else Some p), f') /\ holds_file c f'.
Proof.
  intros Hf Hp. unfold skip_extra. fold (flag flg 4). destruct (flag flg 4); [|now exists f]. assert (Hl := member_length).
  unfold extra_end. rewrite Z.gtb_ltb. destruct (Z.ltb_spec (zlen c) (offset + p + 2)) as [Hs|Hs].
  { rewrite (proj2 (Z.leb_gt _ _)) by lia. now exists f. }
  destruct (read_two f p Hf Hp) as (f1 & R & Hf1). exists f1. rewrite R, (proj2 (Z.leb_le _ _)) by lia. rewrite le16_take. split; [|exact Hf1].
  rewrite Z.gtb_ltb. set (n := le16_at (view l p) 0). destruct (Z.ltb_spec (zlen c) (offset + p + (2 + n))) as [Hn|Hn].
  - rewrite (proj2 (Z.leb_gt _ _)) by lia. reflexivity.
  - rewrite (proj2 (Z.leb_le _ _)) by lia. cbn [shift]. do 2 f_equal. lia.
Qed.

Lemma check_hcrc_exact flg f p :
  holds_file c f -> 0 <= p <= zlen l ->
  exists f', check_hcrc addr flg f offset (offset + p) (zlen c) = (shift (if flag flg 0x02 then hcrc_end l p else Some p), f') /\ holds_file c f'.
Proof.
  intros Hf Hp. assert (Hsz := file_size c f Hf). unfold check_hcrc. fold (flag flg 2). destruct (flag flg 2); [|now exists f]. assert (Hl := member_length).
  unfold hcrc_end. rewrite Z.gtb_ltb. destruct (Z.ltb_spec (zlen c) (offset + p + 2)) as [Hs|Hs].
  { rewrite (proj2 (Z.leb_gt _ _)) by lia. now exists f. }
  destruct (read_two f p Hf Hp) as (f1 & R & Hf1). rewrite R, (proj2 (Z.leb_le _ _)) by lia. rewrite le16_take.
  destruct (read_file c f1 offset (offset + p - offset) Hf1) as (f2 & R2 & Hf2); [lia | lia |]. rewrite R2, (proj2 (Z.leb_le _ _)) by lia. fold l.
  exists f2. split; [|exact Hf2]. unfold Crc32_get, Crc32_update, Crc32_init. replace (offset + p - offset) with p by lia.
  rewrite crc32_addr by (apply Forall_take, bytes_view; exact Hc).
  destruct (_ =? _); cbn [negb shift]; [do 2 f_equal; lia | reflexivity].
Qed.

Lemma extra_end_range p q : 0 <= p -> bytes l -> extra_end l p = Some q -> p <= q <= zlen l.
Proof.
  intros Hp Hb. unfold extra_end. destruct (_ <=? _); [|discriminate]. set (n := le16_at (view l p) 0).
  assert (Hn : 0 <= n).
  { unfold n, le16_at. apply Z.lor_nonneg. split; [|apply Z.shiftl_nonneg].
    - destruct (nth_in_or_default 0 (view l p) 0) as [Hi| ->]; [|lia]. assert (B := bytes_view l p Hb). rewrite List.Forall_forall in B. apply B in Hi. unfold is_byte in Hi. lia.
    - destruct (nth_in_or_default 1 (view l p) 0) as [Hi| ->]; [|lia]. assert (B := bytes_view l p Hb). rewrite List.Forall_forall in B. apply B in Hi. unfold is_byte in Hi. lia. }
  destruct (Z.leb_spec (p + (2 + n)) (zlen l)); [|discriminate]. intros [= <-]. lia.
Qed.

Lemma nul_range p k : 0 <= p <= zlen l -> find_nul (view l p) = Some k -> p + Z.of_nat k + 1 <= zlen l.
Proof. intros Hp Hk. apply find_nul_lt in Hk. assert (L : zlen (view l p) = zlen l - p) by (rewrite zlen_view; lia). unfold zlen in *. lia. Qed.

Lemma scan_name f p :
  holds_file c f -> 0 <= p <= zlen l ->
  exists f', read_until_nul (field_fuel (offset + p) (zlen c)) f (offset + p) (zlen c) (Some []) =
    Ok (match name_end l p with Some (q, n) => Some (offset + q, Some n) | None => None end, f') /\ holds_file c f' /\
    (forall q n, name_end l p = Some (q, n) -> p <= q <= zlen l).
Proof.
  intros Hf Hp. assert (Hl := member_length). destruct (read_until_nul_exact (field_fuel (offset + p) (zlen c)) c f (offset + p) (Some []) Hf) as (f' & R & Hf').
  - lia.
  - unfold field_fuel. lia.
  - intros o [= <-]. exists 0. split; [reflexivity | lia].
  - exists f'. rewrite R. split_and!; auto.
    + f_equal. f_equal. unfold scan_result, name_end. rewrite member_view by lia. destruct (find_nul (view l p)) as [k|]; [|reflexivity].
      change (zlen (@nil Z)) with 0. rewrite Z.add_0_l. replace (offset + p + Z.of_nat k + 1) with (offset + (p + Z.of_nat k + 1)) by lia. now destruct (_ <? _).
    + intros q n. unfold name_end. destruct (find_nul (view l p)) as [k|] eqn:Ek; [|discriminate]. assert (K := nul_range p k Hp Ek).
      destruct (_ <? _); [|discriminate]. intros [= <- _]. lia.
Qed.

Lemma scan_comment f p :
  holds_file c f -> 0 <= p <= zlen l ->
  exists f', read_until_nul (field_fuel (offset + p) (zlen c)) f (offset + p) (zlen c) None =
    Ok (match comment_end l p with Some q => Some (offset + q, None) | None => None end, f') /\ holds_file c f' /\
    (forall q, comment_end l p = Some q -> p <= q <= zlen l).
Proof.
  intros Hf Hp. assert (Hl := member_length). destruct (read_until_nul_exact (field_fuel (offset + p) (zlen c)) c f (offset + p) None Hf) as (f' & R & Hf').
  - lia.
  - unfold field_fuel. lia.
  - discriminate.
  - exists f'. rewrite R. split_and!; auto.
    + f_equal. f_equal. unfold scan_result, comment_end. rewrite member_view by lia. destruct (find_nul (view l p)) as [k|]; [|reflexivity].
      now replace (offset + p + Z.of_nat k + 1) with (offset + (p + Z.of_nat k + 1)) by lia.
    + intros q. unfold comment_end. destruct (find_nul (view l p)) as [k|] eqn:Ek; [|discriminate]. assert (K := nul_range p k Hp Ek).
      intros [= <-]. lia.
Qed.

(** The whole header; [fname] and [fcomment] hold what earlier members left. *)
Lemma parse_member_header_exact f fname fc :
  holds_file c f ->
  exists f', parse_member_header addr f offset (zlen c) fname fc =
    Ok (match gz_header l with
        | Some h => Some {| mh_fname := if flag (nth 3 l 0) 0x08 then mh_fname h else fname;
                            mh_fcomment := mh_fcomment h || fc; mh_data_start := offset + mh_data_start h |}
        | None => None
        end, f') /\ holds_file c f' /\ (forall h, gz_header l = Some h -> 10 <= mh_data_start h <= zlen l).
Proof.
  intros Hf. assert (Hsz := file_size c f Hf). assert (Hl := member_length). assert (Hb : bytes l) by (apply bytes_view; exact Hc).
  unfold parse_member_header, gz_header. rewrite Z.gtb_ltb.
  destruct (Z.ltb_spec (zlen c) (offset + 10)) as [Hs|Hs]; [rewrite (proj2 (Z.ltb_lt (zlen l) 10)) by lia; exists f; split_and!; auto; discriminate|].
  rewrite (proj2 (Z.ltb_ge (zlen l) 10)) by lia.
  destruct (read_file c f offset 10 Hf) as (f1 & R1 & Hf1); [lia | lia |]. rewrite R1, (proj2 (Z.leb_le _ _)) by lia. fold l.
  assert (Hn : forall i, (i < 10)%nat -> nth i (take (Z.to_nat 10) l) 0 = nth i l 0).
  { intros i Hi. rewrite <- (take_drop (Z.to_nat 10) l) at 2. rewrite app_nth1; [reflexivity|]. rewrite length_take. unfold zlen in Hl, Hs. lia. }
  rewrite !Hn by lia. clear Hn.
  destruct (nth 0 l 0 =? 0x1F); cbn [negb orb andb]; [|exists f1; split_and!; auto; discriminate].
  destruct (nth 1 l 0 =? 0x8B); cbn [negb orb andb]; [|exists f1; split_and!; auto; discriminate].
  destruct (nth 2 l 0 =? 8); cbn [negb orb andb]; [|exists f1; split_and!; auto; discriminate].
  destruct (Z.land (nth 3 l 0) 0xE0 =? 0); cbn [negb]; [|exists f1; split_and!; auto; discriminate].
  set (flg := nth 3 l 0). cbv zeta.
  destruct (skip_extra_exact flg f1 10 Hf1) as (f2 & R2 & Hf2); [lia|]. rewrite R2.
  assert (Rg : forall p, (if flag flg 4 then extra_end l 10 else Some 10) = Some p -> 10 <= p <= zlen l).
  { intros p. destruct (flag flg 4); [apply extra_end_range; [lia | exact Hb] | intros [= <-]; lia]. }
  destruct (if flag flg 4 then extra_end l 10 else Some 10) as [p1|]; cbn [shift opt_bind]; [|exists f2; split_and!; auto; discriminate].
  specialize (Rg p1 eq_refl).
  fold (flag flg 8) (flag flg 16).
  assert (SN : exists f3, (if flag flg 8 then read_until_nul (field_fuel (offset + p1) (zlen c)) f2 (offset + p1) (zlen c) (Some [])
      else mret (Some (offset + p1, Some fname), f2)) =
      Ok (match (if flag flg 8 then name_end l p1 else Some (p1, [])) with Some (q, n) => Some (offset + q, Some (if flag flg 8 then n else fname)) | None => None end, f3) /\
      holds_file c f3 /\ (forall q n, (if flag flg 8 then name_end l p1 else Some (p1, [])) = Some (q, n) -> p1 <= q <= zlen l)).
  { destruct (flag flg 8).
    - destruct (scan_name f2 p1 Hf2) as (f3 & S1 & S2 & S3); [lia|]. exists f3. auto.
    - exists f2. split_and!; auto. intros q n [= <- _]. lia. }
  destruct SN as (f3 & S1 & Hf3 & Rq). rewrite S1, bind_ok. clear S1.
  destruct (if flag flg 8 then name_end l p1 else Some (p1, [])) as [[p2 n]|]; cbn [opt_bind]; [|exists f3; split_and!; auto; discriminate].
  specialize (Rq p2 n eq_refl).
  assert (SC : exists f4, (if flag flg 16 then read_until_nul (field_fuel (offset + p2) (zlen c)) f3 (offset + p2) (zlen c) None
      else mret (Some (offset + p2, None), f3)) =
      Ok (match (if flag flg 16 then comment_end l p2 else Some p2) with Some q => Some (offset + q, None) | None => None end, f4) /\
      holds_file c f4 /\ (forall q, (if flag flg 16 then comment_end l p2 else Some p2) = Some q -> p2 <= q <= zlen l)).
  { destruct (flag flg 16).
    - destruct (scan_comment f3 p2 Hf3) as (f4 & S1 & S2 & S3); [lia|]. exists f4. auto.
    - exists f3. split_and!; auto. intros q [= <-]. lia. }
  destruct SC as (f4 & S1 & Hf4 & Rc). rewrite S1, bind_ok. clear S1.
  destruct (if flag flg 16 then comment_end l p2 else Some p2) as [p3|]; cbn [opt_bind]; [|exists f4; split_and!; auto; discriminate].
  specialize (Rc p3 eq_refl).
  destruct (check_hcrc_exact flg f4 p3 Hf4) as (f5 & S1 & Hf5); [lia|]. rewrite S1.
  assert (Rh : forall q, (if flag flg 2 then hcrc_end l p3 else Some p3) = Some q -> p3 <= q <= zlen l).
  { intros q. destruct (flag flg 2); [|intros [= <-]; lia]. unfold hcrc_end. destruct (Z.leb_spec (p3 + 2) (zlen l)); [|discriminate].
    destruct (_ =? _); [|discriminate]. intros [= <-]. lia. }
  destruct (if flag flg 2 then hcrc_end l p3 else Some p3) as [p4|]; cbn [shift opt_bind]; [|exists f5; split_and!; auto; discriminate].
  specialize (Rh p4 eq_refl). exists f5. split; [|split; [exact Hf5 | intros h [= <-]; cbn; lia]].
  reflexivity.
Qed.

End fields.

(** ** The sink of a member *)

Section sink.
Context (cancelled : nat -> bool) (sink : list (list Z) -> list Z -> bool) (limits : ExtractionLimits) (addr : Z).

Existing Instance gz_sink.

Local Instance the_sink : OutputSink GzSink := gz_sink cancelled sink limits addr.

Lemma crc32_nil c : 0 <= c < 2 ^ 32 -> crc32 0 [] c = c.
Proof. intros Hc. rewrite crc32_ref by constructor. now apply not32_invol. Qed.

(** What a sequence of accepted pieces does to the sink. *)
Record accepted (k k' : GzSink) (pieces : list (list Z)) : Prop := {
  ac_crc : gs_crc k' = crc32 0 (concat pieces) (gs_crc k);
  ac_member : gs_member_out k' = gs_member_out k + zlen (concat pieces);
  ac_total : total_out (gs_state k') = total_out (gs_state k) + zlen (concat pieces);
  ac_range : gs_member_out k' < 2 ^ 64 /\ total_out (gs_state k') < 2 ^ 64;
  ac_out : gs_out k' = gs_out k ++ pieces;
  ac_limits : pieces <> [] ->
    (member_limited limits = true -> gs_member_out k' <= max_member_output_bytes limits) /\
    (total_limited limits = true -> total_out (gs_state k') <= max_total_output_bytes limits)
}.

Definition in_range (k : GzSink) : Prop :=
  0 <= gs_member_out k < 2 ^ 64 /\ 0 <= total_out (gs_state k) < 2 ^ 64 /\ 0 <= gs_crc k < 2 ^ 32.

Lemma capped_accepts k x k' : capped_sink cancelled sink limits addr k x = (true, k') -> bytes x -> in_range k -> accepted k k' [x].
Proof.
  unfold capped_sink, debit_total_bytes. intros E Hx (R1 & R2 & R3). assert (P := zlen_nonneg x).
  destruct (Z.gtb_spec (zlen x) (2 ^ 64 - 1 - gs_member_out k)) as [G|G]; [discriminate|]. rewrite (wrap_small 64) in E by lia.
  cbn [gs_crc gs_member_out gs_state gs_out gs_polls] in E.
  destruct (member_limited limits && _) eqn:Em; [discriminate|].
  destruct (Z.gtb_spec (zlen x) (ForeignReader.UNLIMITED - total_out (gs_state k))) as [G2|G2]; [discriminate|]. unfold ForeignReader.UNLIMITED in G2.
  cbn [total_out] in E. rewrite (wrap_small 64) in E by lia.
  destruct (total_limited limits && _) eqn:Et; [discriminate|]. cbn [negb] in E. destruct (cancelled _); [discriminate|].
  destruct (negb _); [discriminate|]. injection E as <-.
  split; cbn [gs_crc gs_member_out gs_state gs_out total_out concat]; rewrite ?app_nil_r; try lia; try reflexivity.
  - unfold Crc32_update. now apply crc32_addr.
  - intros _. split; intros L; [rewrite L in Em | rewrite L in Et]; cbn [andb] in *; lia.
Qed.

Lemma accepted_trans k k1 k2 a b :
  bytes (concat a) -> bytes (concat b) -> a <> [] -> accepted k k1 a -> accepted k1 k2 b -> accepted k k2 (a ++ b).
Proof.
  intros Ha Hb Hne [A1 A2 A3 A4 A5 A6] [B1 B2 B3 B4 B5 B6]. split; rewrite ?concat_app, ?zlen_app.
  - rewrite B1, A1. now apply crc32_app.
  - lia.
  - lia.
  - exact B4.
  - rewrite B5, A5. now rewrite <- app_assoc.
  - intros _. destruct b as [|x b].
    + cbn [concat] in *. change (zlen (@nil Z)) with 0 in *. specialize (A6 Hne). rewrite B2, B3, !Z.add_0_r. exact A6.
    + apply B6. discriminate.
Qed.

Lemma feed_accepts pieces k k' :
  feed_sink k pieces = (true, k') -> bytes (concat pieces) -> in_range k -> accepted k k' pieces.
Proof.
  revert k. induction pieces as [|x pieces IH]; intros k E Hb Hk; cbn [feed_sink] in E.
  - injection E as <-. destruct Hk as (R1 & R2 & R3). cbn [concat].
    split; cbn [concat]; change (zlen (@nil Z)) with 0; rewrite ?app_nil_r; try lia; try reflexivity; [symmetry; now apply crc32_nil | contradiction].
  - cbn [concat] in Hb. apply Forall_app in Hb as [Hx Hb]. cbn [sink_write the_sink gz_sink] in E.
    destruct (capped_sink cancelled sink limits addr k x) as [[] k1] eqn:Es; [|discriminate].
    assert (A := capped_accepts k x k1 Es Hx Hk).
    assert (Hx1 : bytes (concat [x])) by (cbn [concat]; now rewrite app_nil_r).
    apply (accepted_trans k k1 k' [x] pieces Hx1 Hb ltac:(discriminate) A). apply IH; [exact E | exact Hb |].
    destruct A as [A1 A2 A3 A4 _ _]. destruct Hk as (R1 & R2 & R3). assert (P := zlen_nonneg (concat [x])).
    unfold in_range. rewrite A1, A2, A3. assert (Cr := crc32_range 0 (concat [x]) (gs_crc k)). lia.
Qed.

End sink.

End header.

(** ** One member *)

Section member.
Context {S : Type} `{ReadSourceLaws S}.
Context (c : list Z) (Hc : bytes c) (Hsize : zlen c < 2 ^ 60).
Context (cancelled : nat -> bool) (sink : list (list Z) -> list Z -> bool) (limits : ExtractionLimits) (addr : Z).

Local Instance sink_here : OutputSink GzSink := gz_sink cancelled sink limits addr.

(** The file as the input of the decoder. *)
Lemma file_read f n : holds_file c f -> 0 < n ->
  holds_file c (src_read f n).2 /\ zlen (src_read f n).1 <= n /\
  view c (src_tell f) = (src_read f n).1 ++ (if zlen (src_read f n).1 <? n then [] else view c (src_tell (src_read f n).2)).
Proof.
  intros [W <-] Hn. assert (R := src_read_bytes f n W ltac:(lia)). destruct (src_read_state f n W ltac:(lia)) as (W' & C' & T').
  destruct (src_tell_range f W) as [Ht _]. destruct (src_read f n) as [x f']. cbn [fst snd] in *.
  assert (L : zlen x = Z.min n (zlen (src_contents f) - src_tell f)) by (rewrite R; apply zlen_take_view; lia).
  split; [now split|]. split; [lia|]. rewrite T'. destruct (Z.ltb_spec (zlen x) n) as [Hs|Hs].
  - rewrite app_nil_r, R, take_ge; [reflexivity|]. assert (V : zlen (view (src_contents f) (src_tell f)) = zlen (src_contents f) - src_tell f) by (rewrite zlen_view; lia).
    unfold zlen in *. lia.
  - assert (En : zlen x = n) by lia. rewrite En, R. apply bits_take_view; lia.
Qed.

Local Instance file_laws : ByteInputLaws S.
Proof.
  refine {| in_wf := holds_file c; in_content f := view c (src_tell f) |}.
  - intros f _. now apply bytes_view.
  - intros f n Hf Hn. exact (file_read f n Hf Hn).
Defined.

Lemma seek_file f off :
  holds_file c f -> 0 <= off <= zlen c -> exists f', src_seek f off Begin = (true, f') /\ holds_file c f' /\ src_tell f' = off.
Proof.
  intros [W <-] Ho. assert (R := src_seek_state f off Begin W ltac:(lia)). cbv zeta in R.
  destruct (src_seek f off Begin) as [ok f']. destruct R as (W' & C' & Hok & Ht). assert (ok = true) as -> by (apply Hok; lia).
  exists f'. split_and!; [reflexivity | now split | lia].
Qed.

(** Nothing interferes: no cancellation, no limit, a sink that takes all. *)
Definition quiet : Prop :=
  (forall n, cancelled n = false) /\ (forall out x, sink out x = true) /\
  member_limited limits = false /\ total_limited limits = false /\ hdr_count_limited limits = false.

Lemma quiet_feed pieces k ok k' :
  quiet -> in_range k -> gs_member_out k + zlen (concat pieces) < 2 ^ 64 -> total_out (gs_state k) + zlen (concat pieces) < 2 ^ 64 ->
  feed_sink k pieces = (ok, k') -> ok = true.
Proof.
  intros (Q1 & Q2 & Q3 & Q4 & Q5). revert k. induction pieces as [|x pieces IH]; intros k Hk Hm Ht; cbn [feed_sink]; [now intros [= <- _]|].
  cbn [concat] in Hm, Ht. rewrite zlen_app in Hm, Ht. assert (P := zlen_nonneg x). assert (P2 := zlen_nonneg (concat pieces)).
  cbn [sink_write sink_here gz_sink]. unfold capped_sink, debit_total_bytes. destruct Hk as (R1 & R2 & R3).
  destruct (Z.gtb_spec (zlen x) (2 ^ 64 - 1 - gs_member_out k)) as [G|_]; [lia|].
  cbn [gs_crc gs_member_out gs_state gs_out gs_polls]. rewrite Q3, Q4. cbn [andb].
  destruct (Z.gtb_spec (zlen x) (ForeignReader.UNLIMITED - total_out (gs_state k))) as [G|_]; [unfold ForeignReader.UNLIMITED in G; lia|].
  cbn [negb]. rewrite Q1, Q2. cbn [negb]. apply IH; cbn [gs_crc gs_member_out gs_state gs_out gs_polls total_out]; rewrite ?(wrap_small 64) by lia; [|lia..].
  unfold in_range. cbn [gs_crc gs_member_out gs_state gs_out gs_polls total_out]. rewrite ?(wrap_small 64) by lia. unfold Crc32_update.
  assert (Cr := crc32_range addr x (gs_crc k)). lia.
Qed.

(** What a member leaves behind for the next one. *)
Record moved (k k' : GzSink) (d : list Z) : Prop := {
  mv_pieces : exists pieces, concat pieces = d /\ gs_out k' = gs_out k ++ pieces;
  mv_total : total_out (gs_state k') = total_out (gs_state k) + zlen d;
  mv_range : in_range k';
  mv_limits : d <> [] ->
    (member_limited limits = true -> zlen d <= max_member_output_bytes limits) /\
    (total_limited limits = true -> total_out (gs_state k') <= max_total_output_bytes limits)
}.

Definition stopped (st : ForeignStatus) : Prop := st = Aborted \/ st = LimitExceeded.

(** How a member may end the run. *)
Definition fault_of (k : GzSink) (x : ForeignStatus + (list Z * Z)) (st : ForeignStatus) : Prop :=
  match x with
  | inl st' => stopped st \/ st = st'
  | inr (d, n) => stopped st /\ (quiet -> total_out (gs_state k) + zlen d < 2 ^ 64 -> False)
  end.

Lemma fault_stop k x st : stopped st -> (quiet -> False) -> fault_of k x st.
Proof. intros Hs Hq. destruct x as [st'|[d n]]; cbn; auto. Qed.

(** The decoder on the rest of the file. *)
Lemma member_stream f k p :
  holds_file c f -> src_tell f = p -> 0 <= p <= zlen c -> in_range k ->
  exists e r o k' pieces,
    decode (Datatypes.S (Z.to_nat (8 * zlen c))) inflate_buffer Inflate.UNLIMITED f (Some k) = Ok (e, r, o) /\
    sink_ o = Some k' /\
    ((e = SinkFailed /\ feed_sink k pieces = (false, k') /\
      match deflated (view c p) with Some (d, _) => concat pieces `prefix_of` d | None => True end) \/
     (~ sink_error e /\
      match deflated (view c p) with
      | Some (d, used) => e = InflateOk /\ accepted limits k k' pieces /\ concat pieces = d /\ 0 <= used <= zlen c - p /\
                          (forall g, input_fn_ r = Some g -> holds_file c g) /\ (consumed_bits_ r +s 7) / 8 = used
      | None => e <> InflateOk
      end)).
Proof.
  intros Hf Ht Hp Hk. assert (V : zlen (view c p) = zlen c - p) by (rewrite zlen_view; lia).
  destruct (decode_stream (I := S) (K := GzSink) (Datatypes.S (Z.to_nat (8 * zlen c))) inflate_buffer f k) as (e & r & o & k' & pieces & D & S1 & S2 & S3).
  - apply zlen_replicate.
  - exact Hf.
  - cbn [in_content file_laws]. rewrite Ht, V. lia.
  - cbn [in_content in_wf file_laws] in S3. rewrite Ht in S3. exists e, r, o, k', pieces. split; [exact D|]. split; [exact S1|].
    destruct S3 as [S3|(S3 & S4 & S5)]; [now left|]. right. split; [exact S4|].
    destruct (deflated (view c p)) as [[d used]|] eqn:Ed; [|exact S5]. destruct S5 as (T1 & T2 & T3 & T4 & T5). rewrite V in *. split_and!; auto; try lia.
    apply (feed_accepts cancelled sink limits addr); [exact S3 | rewrite T2; now apply (deflated_bytes _ _ _ Ed) | exact Hk].
Qed.

Lemma gz_member_exact f k offset count logical :
  holds_file c f -> in_range k -> 0 <= offset <= zlen c ->
  exists r, gz_member cancelled sink limits addr (zlen c) offset count logical k f = Ok r /\
    match r with
    | GzDone o => fault_of k (one_member (view c offset)) (go_status o)
    | GzNext offset' count' logical' k' f' =>
        exists d n, one_member (view c offset) = inr (d, n) /\ offset' = offset + n /\ 18 <= n <= zlen c - offset /\ holds_file c f' /\
          moved k k' d /\ count' = u64 (count + 1) /\ logical' = logical +s zlen d /\
          (hdr_count_limited limits = true -> count' <= max_header_count limits)
    end.
Proof.
  intros Hf Hk Ho. unfold gz_member, one_member. set (l := view c offset).
  assert (Hl : zlen l = zlen c - offset) by (unfold l; rewrite zlen_view; lia).
  destruct (cancelled (gs_polls k)) eqn:Ec.
  { eexists. split; [reflexivity|]. apply fault_stop; [now left|]. intros (Q & _). rewrite Q in Ec. discriminate. }
  set (k1 := {| gs_crc := Crc32_init; gs_member_out := 0; gs_state := gs_state k; gs_out := gs_out k; gs_polls := _ |}).
  assert (Hk1 : in_range k1) by (destruct Hk as (_ & R2 & _); unfold in_range, k1, Crc32_init; cbn; lia).
  destruct (parse_member_header_exact addr c offset Hc Ho f [] false Hf) as (f1 & P1 & Hf1 & Hst). rewrite P1, bind_ok. fold l in Hst |- *.
  destruct (gz_header l) as [h|]; [|eexists; split; [reflexivity | now right]]. specialize (Hst h eq_refl). cbn [mh_data_start].
  set (cnt := u64 (count + 1)).
  destruct (hdr_count_limited limits && (cnt >? max_header_count limits)) eqn:Eh.
  { eexists. split; [reflexivity|]. apply fault_stop; [now right|]. intros (_ & _ & _ & _ & Q). now rewrite Q in Eh. }
  destruct (seek_file f1 (offset + mh_data_start h) Hf1) as (f2 & S1 & Hf2 & Ht2); [lia|]. rewrite S1. cbn [negb].
  destruct (member_stream f2 k1 (offset + mh_data_start h) Hf2 Ht2) as (e & r & o & k' & pieces & D & D1 & D2); [lia | exact Hk1 |].
  change (gz_sink cancelled sink limits addr) with sink_here. rewrite D, bind_ok. cbv zeta. rewrite D1.
  replace (view c (offset + mh_data_start h)) with (view l (mh_data_start h)) in D2 by (unfold l; apply view_view; lia).
  destruct D2 as [(-> & D2 & D3)|(Hns & D2)].
  { eexists. split; [reflexivity|]. destruct (deflated (view l (mh_data_start h))) as [[d used]|]; [|cbn [fault_of]; left; now right].
    assert (Hst2 : quiet -> total_out (gs_state k) + zlen d < 2 ^ 64 -> False).
    { intros Q Hfit. assert (Hd : zlen (concat pieces) <= zlen d) by (apply prefix_length in D3; unfold zlen; lia).
      assert (E : false = true); [|discriminate]. destruct Hk as (_ & R2 & _). assert (P := zlen_nonneg d).
      apply (quiet_feed pieces k1 false k' Q Hk1); [cbn; lia | cbn; lia | exact D2]. }
    cbv zeta. destruct (zlen _ <? 8); [cbn [fault_of]; left; now right|].
    match goal with |- context [if ?b then inr _ else _] => destruct b end; cbn [fault_of]; [split; [now right | exact Hst2] | left; now right]. }
  destruct (deflated (view l (mh_data_start h))) as [[d used]|] eqn:Ed.
  2: { destruct e; try (exfalso; apply Hns; unfold sink_error; auto; fail); try congruence; eexists; (split; [reflexivity | now right]). }
  destruct D2 as (-> & Hacc & Hd & Hu & Hg & Hused). rewrite Hused. cbv zeta.
  rewrite (size_add_small (offset + mh_data_start h)) by lia. set (t := offset + mh_data_start h + used).
  rewrite (size_add_small t 8) by lia.
  set (f3 := match input_fn_ r with Some g => g | None => f2 end).
  assert (Hf3 : holds_file c f3) by (unfold f3; destruct (input_fn_ r); auto).
  assert (Ev : view c t = view l (mh_data_start h + used)) by (unfold l, t; rewrite view_view by lia; f_equal; lia).
  assert (Vl : zlen (view c t) = zlen c - t) by (rewrite zlen_view; lia). rewrite <- Ev.
  destruct (read_file c f3 t 8 Hf3) as (f4 & R4 & Hf4); [lia | lia |].
  rewrite Z.gtb_ltb. destruct (Z.ltb_spec (zlen c) (t + 8)) as [Hs|Hs].
  { rewrite (proj2 (Z.ltb_lt (zlen (view c t)) 8)) by lia. eexists. split; [reflexivity | now right]. }
  rewrite (proj2 (Z.ltb_ge (zlen (view c t)) 8)) by lia. rewrite R4, (proj2 (Z.leb_le _ _)) by lia.
  assert (Htr : forall i, (i <= 4)%nat -> le32_at (take (Z.to_nat 8) (view c t)) i = le32_at (view c t) i).
  { intros i Hi. unfold le32_at. assert (N : forall j, (j < 8)%nat -> nth j (take (Z.to_nat 8) (view c t)) 0 = nth j (view c t) 0).
    { intros j Hj. rewrite <- (take_drop (Z.to_nat 8) (view c t)) at 2. rewrite app_nth1; [reflexivity|]. rewrite length_take. unfold zlen in Vl, Hs. lia. }
    now rewrite !N by lia. }
  rewrite !Htr by lia. assert (Hacc' := Hacc). destruct Hacc' as [A1 A2 A3 A4 A5 A6]. rewrite Hd in *. unfold Crc32_get. rewrite A1.
  change (gs_crc k1) with 0 in *. change (gs_member_out k1) with 0 in *. change (gs_state k1) with (gs_state k) in *. change (gs_out k1) with (gs_out k) in *. destruct (crc32 0 d 0 =? le32_at (view c t) 0); cbn [negb andb].
  2: { eexists. split; [reflexivity | now right]. }
  rewrite Z.add_0_l in A2. rewrite A2. unfold wrap. destruct (zlen d mod 2 ^ 32 =? le32_at (view c t) 4); cbn [negb].
  2: { eexists. split; [reflexivity | now right]. }
  eexists. split; [reflexivity|]. exists d, (mh_data_start h + used + 8). split_and!; auto; try lia.
  - split.
    + exists pieces. auto.
    + lia.
    + destruct Hk as (_ & R2 & _). assert (P := zlen_nonneg d). unfold in_range. rewrite A1. assert (Cr := crc32_range 0 d 0). lia.
    + intros Hne. rewrite A2 in A6. apply A6. intros ->. apply Hne. now rewrite <- Hd.
  - intros L. rewrite L in Eh. cbn [andb] in Eh. lia.
Qed.

End member.

(** ** All members *)

Lemma deflated_used data d used : deflated data = Some (d, used) -> 0 <= used <= zlen data.
Proof.
  unfold deflated, Reference.inflate. destruct (blocks_total (Datatypes.S (length (bits_of data))) (bits_of data) (Reference.start Inflate.UNLIMITED (None : option (list Z))))
    as (e & bs & s & -> & L); [lia|].
  destruct e; try discriminate. intros [= _ <-]. assert (B := zlen_bits_of data). unfold zlen in *. clear - L B. dlia.
Qed.

Lemma gz_header_range l h : bytes l -> zlen l < 2 ^ 63 -> gz_header l = Some h -> 10 <= mh_data_start h <= zlen l.
Proof.
  intros Hl Hs Hh. assert (P := zlen_nonneg l). assert (W : holds_file l {| bs_data := l; bs_pos := 0 |}).
  { split; [split; cbn; lia | reflexivity]. }
  destruct (parse_member_header_exact 0 l 0 Hl ltac:(lia) _ [] false W) as (f & _ & _ & R). rewrite view_0 in R. now apply R.
Qed.

Lemma one_member_length l d n : bytes l -> zlen l < 2 ^ 63 -> one_member l = inr (d, n) -> 18 <= n <= zlen l.
Proof.
  intros Hl Hs. unfold one_member. destruct (gz_header l) as [h|] eqn:Eh; [|discriminate]. apply gz_header_range in Eh; [|assumption..].
  destruct (deflated (view l (mh_data_start h))) as [[x used]|] eqn:Ed; [|discriminate]. apply deflated_used in Ed. cbv zeta.
  rewrite zlen_view in Ed by lia. rewrite zlen_view by lia.
  destruct (Z.ltb_spec (zlen l - (mh_data_start h + used)) 8) as [Hx|Hx]; [discriminate|].
  match goal with |- context [if ?b then inr _ else _] => destruct b; [|discriminate] end. intros [= _ <-]. lia.
Qed.

Lemma gunzip_total fuel l : bytes l -> zlen l < 2 ^ 63 -> zlen l < Z.of_nat fuel -> exists st ds, gunzip fuel l = Ok (st, ds).
Proof.
  revert l. induction fuel as [|fuel IH]; intros l Hl Hs Hf; [zlen_pose; lia|]. cbn [gunzip].
  destruct (one_member l) as [st|[d n]] eqn:E; [unfold mret, res_ret; eauto|]. apply one_member_length in E; [|assumption..].
  destruct (member_follows (view l n)); [|unfold mret, res_ret; eauto].
  destruct (IH (view l n)) as (st & ds & ->); [now apply bytes_view | rewrite zlen_view; lia.. |]. rewrite bind_ok. unfold mret, res_ret. eauto.
Qed.

Section loop.
Context {S : Type} `{ReadSourceLaws S}.
Context (c : list Z) (Hc : bytes c) (Hsize : zlen c < 2 ^ 60).
Context (cancelled : nat -> bool) (sink : list (list Z) -> list Z -> bool) (limits : ExtractionLimits) (addr : Z).

(** A run that went through: the payloads delivered and counted, within the
    limits. *)
Record delivered_all (k : GzSink) (count logical : Z) (ds : list (list Z)) (o : GzOut) : Prop := {
  da_file : holds_file c (go_file o);
  da_out : exists pieces, concat pieces = concat ds /\ go_out o = gs_out k ++ pieces;
  da_total : total_out (go_state o) = total_out (gs_state k) + zlen (concat ds) /\ total_out (go_state o) < 2 ^ 64;
  da_logical : go_logical o = u64 (logical + zlen (concat ds));
  da_members : member_limited limits = true -> Forall (fun d => d = [] \/ zlen d <= max_member_output_bytes limits) ds;
  da_limit : total_limited limits = true -> concat ds = [] \/ total_out (go_state o) <= max_total_output_bytes limits;
  da_count : hdr_count_limited limits = true -> count + zlen ds <= max_header_count limits
}.

Lemma gz_loop_exact fuel f k offset count logical :
  holds_file c f -> in_range k -> 0 <= offset <= zlen c -> 0 <= count <= offset -> zlen c - offset < Z.of_nat fuel ->
  exists o st ds, gz_loop cancelled sink limits addr fuel (zlen c) offset count logical k f = Ok o /\
    gunzip fuel (view c offset) = Ok (st, ds) /\
    (stopped (go_status o) \/ go_status o = st) /\
    (go_status o = FS_Ok -> delivered_all k count logical ds o) /\
    (quiet cancelled sink limits -> st = FS_Ok -> total_out (gs_state k) + zlen (concat ds) < 2 ^ 64 -> go_status o = FS_Ok).
Proof.
  revert f k offset count logical. induction fuel as [|fuel IH]; intros f k offset count logical Hf Hk Ho Hcnt Hfuel; [lia|].
  set (l := view c offset). assert (Hl : zlen l = zlen c - offset) by (unfold l; rewrite zlen_view; lia).
  assert (Hb : bytes l) by now apply bytes_view. cbn [gz_loop].
  destruct (gz_member_exact c Hc Hsize cancelled sink limits addr f k offset count logical Hf Hk Ho) as (r & M1 & M2).
  rewrite M1, bind_ok. fold l in M2. destruct r as [o|offset' count' logical' k' f'].
  - destruct (gunzip_total (Datatypes.S fuel) l Hb) as (st & ds & G); [lia | lia |]. exists o, st, ds. split; [reflexivity|]. split; [exact G|].
    cbn [gunzip] in G. destruct (one_member l) as [st'|[d n]] eqn:E; cbn [fault_of] in M2.
    + injection G as <- <-. assert (Hne : st' <> FS_Ok).
      { clear - E. unfold one_member in E. destruct (gz_header l); [|injection E as <-; discriminate].
        destruct (deflated _) as [[d used]|]; [|injection E as <-; discriminate]. cbv zeta in E. destruct (zlen _ <? 8); [injection E as <-; discriminate|].
        match type of E with context [if ?b then inr _ else _] => destruct b; [discriminate|] end. injection E as <-. discriminate. }
      split; [exact M2|]. split; [|contradiction]. intros He. destruct M2 as [[M2|M2]|M2]; congruence.
    + destruct M2 as [M2 M3]. split; [now left|]. split; [intros He; destruct M2; congruence|]. intros Q _ Hfit. exfalso. apply M3; [exact Q|].
      destruct (member_follows (view l n)).
      * destruct (gunzip fuel (view l n)) as [[st2 ds2]| | |]; try discriminate. injection G as _ <-. cbn [concat] in Hfit. rewrite zlen_app in Hfit. zlen_pose. lia.
      * injection G as _ <-. cbn [concat] in Hfit. now rewrite app_nil_r in Hfit.
  - destruct M2 as (d & n & E & -> & Hn & Hf' & [(pieces & Hp1 & Hp2) Htot Hr' Hlim] & -> & -> & Hhdr).
    cbn [gunzip]. rewrite E. set (rest := view l n). assert (Erest : view c (offset + n) = rest) by (unfold rest, l; rewrite view_view by lia; reflexivity).
    assert (Hrl : zlen rest = zlen c - (offset + n)) by (rewrite <- Erest, zlen_view; lia).
    assert (Hcnt' : u64 (count + 1) = count + 1) by (apply wrap_small; lia). rewrite Hcnt' in *.
    rewrite (size_add_small (offset + n) 10) by lia. unfold member_follows.
    assert (LAST : forall f'', holds_file c f'' -> delivered_all k count logical [d] (gz_finish FS_Ok k' (logical +s zlen d) f'')).
    { intros f'' Hf''. destruct Hr' as (_ & Hr' & _). split; cbn [gz_finish go_file go_out go_state go_logical concat]; rewrite ?app_nil_r; auto.
      - eauto.
      - lia.
      - intros L. constructor; [|constructor]. destruct (decide (d = [])) as [->|Hne]; [now left | right; now apply Hlim].
      - intros L. destruct (decide (d = [])) as [->|Hne]; [now left | right; now apply Hlim]. }
    rewrite Z.gtb_ltb. destruct (Z.ltb_spec (zlen c) (offset + n + 10)) as [Hs|Hs].
    { rewrite (proj2 (Z.leb_gt 10 (zlen rest))) by lia. eexists _, _, _. split; [reflexivity|]. split; [reflexivity|].
      split; [now right|]. split; [intros _; now apply LAST | auto]. }
    rewrite (proj2 (Z.leb_le 10 (zlen rest))) by lia. destruct (read_file c f' (offset + n) 2 Hf') as (f2 & R & Hf2); [lia | lia |].
    rewrite R, (proj2 (Z.leb_le _ _)) by lia. rewrite Erest.
    assert (N : forall i, (i < 2)%nat -> nth i (take (Z.to_nat 2) rest) 0 = nth i rest 0).
    { intros i Hi. rewrite <- (take_drop (Z.to_nat 2) rest) at 2. rewrite app_nth1; [reflexivity|]. rewrite length_take. unfold zlen in Hrl, Hs. lia. }
    rewrite !N by lia.
    destruct ((nth 0 rest 0 =? 0x1F) && (nth 1 rest 0 =? 0x8B)) eqn:Em.
    2: { replace (negb (nth 0 rest 0 =? 0x1F) || negb (nth 1 rest 0 =? 0x8B)) with true by (destruct (_ =? 0x1F), (_ =? 0x8B); now try discriminate).
         cbn [andb]. rewrite Em. eexists _, _, _. split; [reflexivity|]. split; [reflexivity|]. split; [now right|]. split; [intros _; now apply LAST | auto]. }
    replace (negb (nth 0 rest 0 =? 0x1F) || negb (nth 1 rest 0 =? 0x8B)) with false by (destruct (_ =? 0x1F), (_ =? 0x8B); now try discriminate).
    cbn [andb]. rewrite Em.
    destruct (IH f2 k' (offset + n) (count + 1) (logical +s zlen d) Hf2 Hr') as (o & st & ds & I1 & I2 & I3 & I4 & I5); [lia | lia | lia |].
    rewrite I1. rewrite Erest in I2. rewrite I2, bind_ok. exists o, st, (d :: ds). split; [reflexivity|]. split; [reflexivity|]. split; [exact I3|].
    cbn [concat]. rewrite zlen_app. split.
    + intros He. destruct (I4 He) as [J1 (p2 & J2 & J2') J3 J4 J5 J6 J7]. assert (P := zlen_nonneg (concat ds)). split; cbn [concat]; rewrite ?zlen_app; auto.
      * exists (pieces ++ p2). rewrite concat_app, Hp1, J2, J2', Hp2. split; [reflexivity|]. now rewrite <- app_assoc.
      * lia.
      * rewrite J4. unfold size_add, u64, wrap. rewrite Zplus_mod_idemp_l. f_equal. lia.
      * intros L. constructor; [|now apply J5]. destruct (decide (d = [])) as [->|Hne]; [now left | right; now apply Hlim].
      * intros L. destruct (J6 L) as [J|J]; [|now right]. rewrite J in J3 |- *. rewrite app_nil_r. change (zlen (@nil Z)) with 0 in J3.
        destruct (decide (d = [])) as [->|Hne]; [now left | right]. replace (total_out (go_state o)) with (total_out (gs_state k')) by lia. now apply Hlim.
      * intros L. specialize (J7 L). rewrite zlen_cons. lia.
    + intros Q Hst Hfit. apply I5; auto. lia.
Qed.

End loop.

(** ** The reader *)

(** Two members, the first with a name, and three bytes behind them. *)
Definition hello_gz : list Z :=
  [31; 139; 8; 8; 0; 0; 0; 0; 0; 3; 97; 46; 116; 120; 116; 0] ++ hello_stream ++ [64; 113; 229; 167; 24; 0; 0; 0] ++
  [31; 139; 8; 0; 0; 0; 0; 0; 2; 255] ++ hello_stream ++ [64; 113; 229; 167; 24; 0; 0; 0] ++ [120; 121; 122].

(** C11. Decoding a GZIP file always ends.  Unless a limit, the sink or a
    cancellation stopped it, the status is that of the specification: the
    members in sequence, each with a valid header, one DEFLATE stream, and its
    CRC-32 and length behind it.  On success the pieces the sink accepted are
    exactly the payloads of all members, the budget and the recorded size grew
    by their length, and every limit held; and when nothing interferes a
    well-formed file does succeed. *)
Theorem gz_decode_exact {S : Type} `{ReadSourceLaws S} (cancelled : nat -> bool) (sink : list (list Z) -> list Z -> bool)
    (limits : ExtractionLimits) (addr : Z) (g : GzipReader S) (state : LimitState) (fuel : nat) :
  let c := src_contents (gz_file g) in
  bytes c -> zlen c < 2 ^ 60 -> src_wf (gz_file g) -> gz_opened g = true -> 0 <= total_out state < 2 ^ 64 -> zlen c < Z.of_nat fuel ->
  exists o g' st ds,
    gz_decode cancelled sink limits addr fuel g state = Ok (o, g') /\ gunzip fuel c = Ok (st, ds) /\
    (stopped (go_status o) \/ go_status o = st) /\
    (go_status o = FS_Ok ->
      concat (go_out o) = concat ds /\ total_out (go_state o) = total_out state + zlen (concat ds) /\
      fe_unpacked_size (gz_entry g') = zlen (concat ds) /\
      (member_limited limits = true -> Forall (fun d => d = [] \/ zlen d <= max_member_output_bytes limits) ds) /\
      (total_limited limits = true -> concat ds = [] \/ total_out (go_state o) <= max_total_output_bytes limits) /\
      (hdr_count_limited limits = true -> zlen ds <= max_header_count limits)) /\
    (quiet cancelled sink limits -> st = FS_Ok -> total_out state + zlen (concat ds) < 2 ^ 64 -> go_status o = FS_Ok).
Proof.
  intros c Hc Hsize Hwf Hopen Htot Hfuel. unfold gz_decode. rewrite Hopen. cbn [negb].
  assert (R := src_seek_state (gz_file g) 0 End_ Hwf ltac:(lia)). cbv zeta in R. fold c in R.
  destruct (src_seek (gz_file g) 0 End_) as [ok f]. destruct R as (W & C & Hok & Ht). assert (P := zlen_nonneg c).
  assert (ok = true) as -> by (apply Hok; lia). cbn [negb]. rewrite Ht, Z.add_0_r.
  set (k := {| gs_crc := Crc32_init; gs_member_out := 0; gs_state := state; gs_out := []; gs_polls := 0 |}).
  assert (Hk : in_range k) by (unfold in_range, k, Crc32_init; cbn; lia).
  destruct (gz_loop_exact c Hc Hsize cancelled sink limits addr fuel f k 0 0 0) as (o & st & ds & L1 & L2 & L3 & L4 & L5);
    [now split | exact Hk | lia | lia | lia |].
  rewrite L1, bind_ok. rewrite view_0 in L2. eexists o, _, st, ds. split; [reflexivity|]. split; [exact L2|]. split; [exact L3|].
  split; [|exact L5]. intros He. destruct (L4 He) as [J1 (p & J2 & J2') [J3 J3'] J4 J5 J6 J7]. cbn [k gs_out gs_state app] in *.
  rewrite He. cbn [gz_entry gz_entry_of fe_unpacked_size]. rewrite J2', J4. assert (P2 := zlen_nonneg (concat ds)).
  split_and!; auto. rewrite Z.add_0_l. apply wrap_small. lia.
Qed.

Lemma gz_decode_exact_witness :
  let f := {| bs_data := hello_gz; bs_pos := 0 |} in
  let g := {| gz_entry := gz_entry_of [] [] false [] 0; gz_file := f; gz_opened := true |} in
  let text := str "hello hello hello hello!"%string in
  gunzip 80 hello_gz = Ok (FS_Ok, [text; text]) /\
  exists o g' st ds,
    gz_decode (fun _ => false) (fun _ _ => true) ExtractionLimits_default 0 80 g LimitState_default = Ok (o, g') /\
    gunzip 80 (src_contents (gz_file g)) = Ok (st, ds) /\ (stopped (go_status o) \/ go_status o = st) /\
    (go_status o = FS_Ok ->
      concat (go_out o) = concat ds /\ total_out (go_state o) = total_out LimitState_default + zlen (concat ds) /\
      fe_unpacked_size (gz_entry g') = zlen (concat ds) /\
      (member_limited ExtractionLimits_default = true -> Forall (fun d => d = [] \/ zlen d <= max_member_output_bytes ExtractionLimits_default) ds) /\
      (total_limited ExtractionLimits_default = true -> concat ds = [] \/ total_out (go_state o) <= max_total_output_bytes ExtractionLimits_default) /\
      (hdr_count_limited ExtractionLimits_default = true -> zlen ds <= max_header_count ExtractionLimits_default)) /\
    (quiet (fun _ => false) (fun _ _ => true) ExtractionLimits_default -> st = FS_Ok ->
      total_out LimitState_default + zlen (concat ds) < 2 ^ 64 -> go_status o = FS_Ok).
Proof.
  intros f g text. split; [vm_compute; reflexivity|].
  apply (gz_decode_exact (S := BufferStream) (fun _ => false) (fun _ _ => true) ExtractionLimits_default 0 g LimitState_default 80).
  - bytes_const.
  - reflexivity.
  - split; [split; [discriminate | vm_compute; discriminate] | reflexivity].
  - reflexivity.
  - split; [discriminate | reflexivity].
  - reflexivity.
Defined.
