(* ===== verification/BitOutput.v ===== *)
(** The bit writer of the RAR 5.0 encoder
    ([src/compress/compressor50.hpp], [BitOutput]), writing to memory.

    Fields gather in a 64-bit accumulator, most significant bit first, and
    leave it as 32-bit big-endian words.  [out_bits] is the list of bits written
    so far; every operation appends to it. *)

From Stdlib Require Import ZArith Lia.
From stdpp Require Import base tactics list numbers.
From S2P Require Import Prelude Bytes BitReader.

Local Open Scope Z_scope.

(** The bytes committed to the target, and the accumulator. *)
Record BitOutput := { bo_mem : list Z; bo_acc : Z; bo_acc_bits : Z; bo_block_bits : Z }.

(** [reset_for_block(&mem)] with [mem] cleared. *)
Definition reset_for_block : BitOutput := {| bo_mem := []; bo_acc := 0; bo_acc_bits := 0; bo_block_bits := 0 |}.

Definition put_bits (o : BitOutput) (value num_bits : Z) : BitOutput :=
  if num_bits =? 0 then o
  else
    let block_bits := u64 (bo_block_bits o + num_bits) in
    let acc := Z.lor (u64 (Z.shiftl (bo_acc o) num_bits))
                     (if num_bits >=? 32 then value else Z.land value (Z.shiftl 1 num_bits - 1)) in
    let acc_bits := bo_acc_bits o + num_bits in
    if acc_bits >=? 32 then
      let val := u32 (Z.shiftr acc (acc_bits - 32)) in
      let acc_bits := acc_bits - 32 in
      {| bo_mem := bo_mem o ++ be32_bytes val;
         bo_acc := Z.land acc (if negb (acc_bits =? 0) then Z.shiftl 1 acc_bits - 1 else 0);
         bo_acc_bits := acc_bits; bo_block_bits := block_bits |}
    else {| bo_mem := bo_mem o; bo_acc := acc; bo_acc_bits := acc_bits; bo_block_bits := block_bits |}.

Definition put_bits64 (o : BitOutput) (value num_bits : Z) : BitOutput :=
  if num_bits <=? 32 then put_bits o (u32 value) num_bits
  else put_bits (put_bits o (u32 (Z.shiftr value 32)) (num_bits - 32)) (Z.land value 0xFFFFFFFF) 32.

(** [while (acc_bits_ >= 8)]: at most three whole bytes are pending. *)
Fixpoint align_bytes (fuel : nat) (acc acc_bits : Z) (mem : list Z) : list Z * Z :=
  match fuel with
  | O => (mem, acc_bits)
  | S fuel' =>
      if acc_bits >=? 8 then align_bytes fuel' acc (acc_bits - 8) (mem ++ [u8 (Z.shiftr acc (acc_bits - 8))])
      else (mem, acc_bits)
  end.

Definition align_output (o : BitOutput) : BitOutput :=
  let '(mem, acc_bits) := align_bytes 8 (bo_acc o) (bo_acc_bits o) (bo_mem o) in
  {| bo_mem := if acc_bits >? 0 then mem ++ [u8 (u64 (Z.shiftl (bo_acc o) (8 - acc_bits)))] else mem;
     bo_acc := 0; bo_acc_bits := 0; bo_block_bits := bo_block_bits o |}.

(** [finish_block_data]: in memory there is nothing left to flush. *)
Definition finish_block_data (o : BitOutput) : BitOutput := align_output o.

(** ** The bits of a field *)

Lemma zbits_ext n x y : (forall i, 0 <= i < Z.of_nat n -> Z.testbit x i = Z.testbit y i) -> zbits n x = zbits n y.
Proof.
  induction n as [|n IH]; intros E; [done|]. cbn [zbits]. rewrite E by lia. f_equal. apply IH. intros i Hi. apply E. lia.
Qed.

Lemma zbits_app a b x : zbits (a + b) x = zbits a (Z.shiftr x (Z.of_nat b)) ++ zbits b x.
Proof.
  induction a as [|a IH]; [done|]. cbn [Nat.add zbits app]. rewrite IH, Z.shiftr_spec by lia. do 2 f_equal. lia.
Qed.

(** The field [n] wide of [x]. *)
Definition field (n x : Z) : list bool := zbits (Z.to_nat n) x.

Lemma zlen_field n x : 0 <= n -> zlen (field n x) = n.
Proof. intros Hn. unfold field. rewrite zlen_zbits. lia. Qed.

Lemma field_0 x : field 0 x = [].
Proof. done. Qed.

Lemma field_ext n x y : (forall i, 0 <= i < n -> Z.testbit x i = Z.testbit y i) -> field n x = field n y.
Proof. intros E. apply zbits_ext. intros i Hi. apply E. lia. Qed.

Lemma field_split a b x : 0 <= a -> 0 <= b -> field (a + b) x = field a (Z.shiftr x b) ++ field b x.
Proof. intros Ha Hb. unfold field. rewrite Z2Nat.inj_add, zbits_app by lia. by rewrite Z2Nat.id. Qed.

(** Two fields packed in one word. *)
Lemma field_lor a b x y :
  0 <= a -> 0 <= b -> 0 <= y < 2 ^ b -> field (a + b) (Z.lor (Z.shiftl x b) y) = field a x ++ field b y.
Proof.
  intros Ha Hb Hy. rewrite field_split by done. f_equal; apply field_ext; intros i Hi.
  - rewrite Z.shiftr_spec, Z.lor_spec, Z.shiftl_spec, (testbit_high b y) by lia. rewrite orb_false_r. f_equal. lia.
  - rewrite Z.lor_spec, Z.shiftl_spec_low by lia. done.
Qed.

Lemma field_wrap n w x : n <= w -> field n (wrap w x) = field n x.
Proof.
  intros Hn. apply field_ext. intros i Hi. unfold wrap. by rewrite Z.mod_pow2_bits_low by lia.
Qed.

Lemma field_land_ones n x : 0 <= n -> field n (Z.land x (Z.ones n)) = field n x.
Proof.
  intros Hn. apply field_ext. intros i Hi. rewrite Z.land_spec, Z.ones_spec_low by lia. by rewrite andb_true_r.
Qed.

Lemma field_val n x : 0 <= n -> 0 <= x < 2 ^ n -> bits_val (field n x) = x.
Proof. intros Hn Hx. unfold field. rewrite bits_val_zbits, Z2Nat.id by done. by apply Z.mod_small. Qed.

Lemma be32_bits v : bytes_bits (be32_bytes v) = field 32 v.
Proof.
  change 32 with (8 + (8 + (8 + 8))). rewrite !field_split by lia. unfold bytes_bits, be32_bytes. cbn [map concat].
  rewrite app_nil_r. do 3 (f_equal; [apply (field_ext 8); intros i Hi; rewrite ?Z.shiftr_spec by lia;
    change 0xFF with (Z.ones 8); rewrite ?Z.land_spec, ?Z.ones_spec_low, ?andb_true_r, ?Z.shiftr_spec by lia; f_equal; lia|]).
  apply (field_ext 8). intros i Hi. change 0xFF with (Z.ones 8). rewrite Z.land_spec, Z.ones_spec_low by lia. by rewrite andb_true_r.
Qed.

(** ** What is written *)

Definition out_bits (o : BitOutput) : list bool := bytes_bits (bo_mem o) ++ field (bo_acc_bits o) (bo_acc o).

Record out_ok (o : BitOutput) : Prop := {
  oo_bytes : bytes (bo_mem o);
  oo_bits : 0 <= bo_acc_bits o < 32;
  oo_acc : 0 <= bo_acc o < 2 ^ bo_acc_bits o;
  oo_count : bo_block_bits o = zlen (out_bits o)
}.

Lemma zlen_out_bits o : out_ok o -> zlen (out_bits o) = 8 * zlen (bo_mem o) + bo_acc_bits o.
Proof. intros [_ H _ _]. unfold out_bits. rewrite zlen_app, zlen_bytes_bits, zlen_field by lia. done. Qed.

Lemma reset_for_block_ok : out_ok reset_for_block.
Proof. by split. Qed.

Lemma masked_value n v : 0 <= n <= 32 -> 0 <= v < 2 ^ 32 ->
  let m := if n >=? 32 then v else Z.land v (Z.shiftl 1 n - 1) in 0 <= m < 2 ^ n /\ field n m = field n v.
Proof.
  intros Hn Hv. cbv zeta. rewrite Z.geb_leb. destruct (Z.leb_spec 32 n).
  - replace n with 32 by lia. done.
  - rewrite Z.shiftl_1_l, Z.sub_1_r, <- Z.ones_equiv. split; [|apply field_land_ones; lia].
    rewrite Z.land_ones by lia. apply Z.mod_pos_bound, Z.pow_pos_nonneg; lia.
Qed.

Lemma put_bits_spec o value n :
  out_ok o -> 0 <= n <= 32 -> 0 <= value < 2 ^ 32 -> zlen (out_bits o) + n < 2 ^ 64 ->
  out_ok (put_bits o value n) /\ out_bits (put_bits o value n) = out_bits o ++ field n value.
Proof.
  intros HO Hn Hv Hl. unfold put_bits. destruct (Z.eqb_spec n 0) as [->|Hz]; [by rewrite field_0, app_nil_r|].
  destruct (masked_value n value Hn Hv) as [Mr Mf]. cbv zeta in *. set (m := if n >=? 32 then value else _) in *.
  pose proof HO as [HB Hbits Ha HC]. set (k := bo_acc_bits o) in *.
  assert (Hacc : 0 <= bo_acc o * 2 ^ n < 2 ^ (k + n)).
  { rewrite Z.pow_add_r by lia. assert (0 < 2 ^ n) by (apply Z.pow_pos_nonneg; lia). nia. }
  pose proof (pow_le (k + n) 64 ltac:(lia)) as P.
  rewrite (wrap_small 64 (Z.shiftl _ _)) by (rewrite Z.shiftl_mul_pow2; lia).
  set (acc := Z.lor (Z.shiftl (bo_acc o) n) m).
  assert (EF : field (k + n) acc = field k (bo_acc o) ++ field n value) by (unfold acc; by rewrite field_lor, Mf by lia).
  assert (Hr : 0 <= acc < 2 ^ (k + n)).
  { unfold acc. rewrite lor_shiftl_add_l by lia. rewrite Z.pow_add_r in * by lia. nia. }
  pose proof (zlen_nonneg (out_bits o)). rewrite HC, (wrap_small 64 (zlen _ + n)) by lia.
  rewrite Z.geb_leb. destruct (Z.leb_spec 32 (k + n)) as [H32|H32].
  - set (k' := k + n - 32).
    assert (EB : bytes_bits (be32_bytes (u32 (Z.shiftr acc k'))) ++ field k' (Z.land acc (if negb (k' =? 0) then Z.shiftl 1 k' - 1 else 0)) = field (k + n) acc).
    { rewrite be32_bits, field_wrap by lia. replace (k + n) with (32 + k') by (unfold k'; lia).
      rewrite (field_split 32 k' acc) by (unfold k'; lia). f_equal.
      destruct (Z.eqb_spec k' 0) as [E0|]; cbn [negb]; [by rewrite E0|].
      rewrite Z.shiftl_1_l, Z.sub_1_r, <- Z.ones_equiv. apply field_land_ones. unfold k'. lia. }
    assert (EO : out_bits {| bo_mem := bo_mem o ++ be32_bytes (u32 (Z.shiftr acc k'));
        bo_acc := Z.land acc (if negb (k' =? 0) then Z.shiftl 1 k' - 1 else 0); bo_acc_bits := k'; bo_block_bits := zlen (out_bits o) + n |}
      = out_bits o ++ field n value).
    { unfold out_bits. cbn [bo_mem bo_acc bo_acc_bits]. rewrite bytes_bits_app, <- app_assoc, EB, EF. by rewrite app_assoc. }
    split; [|exact EO]. split; cbn [bo_mem bo_acc bo_acc_bits bo_block_bits].
    + apply Forall_app_2; [done|]. rewrite be32_bytes_rev. apply Forall_reverse, le32_bytes_bytes.
    + unfold k'. lia.
    + destruct (Z.eqb_spec k' 0) as [E0|]; cbn [negb]; [by rewrite E0, Z.land_0_r|].
      rewrite Z.shiftl_1_l, Z.sub_1_r, <- Z.ones_equiv, Z.land_ones by (unfold k'; lia). apply Z.mod_pos_bound, Z.pow_pos_nonneg; unfold k'; lia.
    + rewrite EO, zlen_app, zlen_field by lia. done.
  - assert (EO : out_bits {| bo_mem := bo_mem o; bo_acc := acc; bo_acc_bits := k + n; bo_block_bits := zlen (out_bits o) + n |} = out_bits o ++ field n value).
    { unfold out_bits. cbn [bo_mem bo_acc bo_acc_bits]. by rewrite EF, app_assoc. }
    split; [|exact EO]. split; cbn [bo_mem bo_acc bo_acc_bits bo_block_bits]; [done|lia|done|].
    rewrite EO, zlen_app, zlen_field by lia. done.
Qed.

Lemma put_bits64_spec o value n :
  out_ok o -> 0 <= n <= 64 -> 0 <= value < 2 ^ 64 -> zlen (out_bits o) + n < 2 ^ 64 ->
  out_ok (put_bits64 o value n) /\ out_bits (put_bits64 o value n) = out_bits o ++ field n value.
Proof.
  intros HO Hn Hv Hl. unfold put_bits64. destruct (Z.leb_spec n 32) as [H32|H32].
  - destruct (put_bits_spec o (u32 value) n HO ltac:(lia)) as [K E]; [apply wrap_range; lia|lia|].
    split; [done|]. by rewrite E, field_wrap.
  - destruct (put_bits_spec o (u32 (Z.shiftr value 32)) (n - 32) HO ltac:(lia)) as [K E]; [apply wrap_range; lia|lia|].
    destruct (put_bits_spec _ (Z.land value 0xFFFFFFFF) 32 K ltac:(lia)) as [K2 E2].
    { change 0xFFFFFFFF with (Z.ones 32). rewrite Z.land_ones by lia. by apply Z.mod_pos_bound. }
    { rewrite E, zlen_app, zlen_field by lia. lia. }
    split; [done|]. rewrite E2, E, <- app_assoc. f_equal. change 0xFFFFFFFF with (Z.ones 32).
    rewrite field_wrap, field_land_ones, <- field_split by lia. f_equal. lia.
Qed.

Lemma align_bytes_spec fuel acc k mem :
  0 <= k < 8 * Z.of_nat fuel ->
  exists more k', align_bytes fuel acc k mem = (mem ++ more, k') /\ 0 <= k' < 8 /\ bytes more /\
    bytes_bits more ++ field k' acc = field k acc.
Proof.
  revert k mem. induction fuel as [|fuel IH]; intros k mem Hk; [lia|]. cbn [align_bytes].
  rewrite Z.geb_leb. destruct (Z.leb_spec 8 k).
  - destruct (IH (k - 8) (mem ++ [u8 (Z.shiftr acc (k - 8))])) as (more & k' & E & Hk' & Hb & EB); [lia|].
    exists (u8 (Z.shiftr acc (k - 8)) :: more), k'. rewrite E, <- app_assoc. split; [done|]. split; [done|]. split.
    + apply Forall_cons_2; [|done]. apply (wrap_range 8). lia.
    + rewrite bytes_bits_cons, <- app_assoc, EB. replace k with (8 + (k - 8)) at 3 by lia. rewrite (field_split 8) by lia. f_equal.
      by apply (field_wrap 8 8).
  - exists [], k. rewrite app_nil_r. split; [done|]. split; [lia|]. split; [apply Forall_nil_2|done].
Qed.

(** The last byte is padded with zeros; the block's bit count is not changed. *)
Lemma finish_block_data_spec o :
  out_ok o ->
  bytes (bo_mem (finish_block_data o)) /\ bo_block_bits (finish_block_data o) = zlen (out_bits o) /\
  exists pad, bytes_bits (bo_mem (finish_block_data o)) = out_bits o ++ replicate pad false /\ (pad < 8)%nat.
Proof.
  intros [HB Hk Ha HC]. unfold finish_block_data, align_output.
  destruct (align_bytes_spec 8 (bo_acc o) (bo_acc_bits o) (bo_mem o)) as (more & k & E & Hk' & Hb & EB); [lia|].
  rewrite E. cbn [bo_mem bo_block_bits]. rewrite Z.gtb_ltb. unfold out_bits. rewrite <- EB. destruct (Z.ltb_spec 0 k) as [Hp|Hp].
  - split; [|split; [by rewrite HC; unfold out_bits; rewrite EB|]].
    + apply Forall_app_2; [by apply Forall_app_2|]. apply Forall_cons_2; [|apply Forall_nil_2]. apply (wrap_range 8). lia.
    + exists (Z.to_nat (8 - k)). split; [|lia]. rewrite !bytes_bits_app, <- !app_assoc. do 2 f_equal.
      unfold bytes_bits. cbn [map concat]. rewrite app_nil_r. change (zbits 8) with (field 8). rewrite !field_wrap by lia.
      replace 8 with (k + (8 - k)) at 1 by lia. rewrite field_split by lia. f_equal.
      * apply field_ext. intros i Hi. rewrite Z.shiftr_spec, Z.shiftl_spec by lia. f_equal. lia.
      * rewrite (field_ext _ _ 0).
        -- unfold field. generalize (Z.to_nat (8 - k)). intros n. induction n as [|n IH]; [done|]. cbn [zbits replicate].
           by rewrite IH, Z.bits_0.
        -- intros i Hi. rewrite Z.shiftl_spec_low, Z.bits_0 by lia. done.
  - replace k with 0 by lia. rewrite field_0, !app_nil_r.
    split; [by apply Forall_app_2|]. split; [rewrite HC; unfold out_bits; rewrite <- EB; replace k with 0 by lia; by rewrite field_0, app_nil_r|].
    exists 0%nat. split; [|lia]. by rewrite bytes_bits_app, app_nil_r.
Qed.
