(* ===== verification/Encoder.v ===== *)
(** The RAR 5.0 block encoder
    ([src/compress/compressor50.cpp], [Compressor50]): tokens, frequencies, code
    tables and blocks, into memory.

    The choice of the tokens is the parser's; here a token is recorded
    ([add_literal], [add_match], [add_rep], [add_last_len], [add_filter]) and a
    block of recorded tokens is written ([write_block]). *)

From Stdlib Require Import ZArith Lia.
From stdpp Require Import base tactics list numbers.
From S2P Require Import Prelude Loops Bytes Arrays BitReader Huffman BuildLengths BitOutput.

Local Open Scope Z_scope.

Definition NC : Z := 306.
Definition DCB : Z := 64.
Definition DCX : Z := 80.
Definition LDC : Z := 16.
Definition RC : Z := 44.
Definition BC : Z := 20.
Definition TABLE_SIZE : Z := NC + DCB + LDC + RC.
Definition TABLE_SIZEX : Z := NC + DCX + LDC + RC.
Definition MIN_MATCH : Z := 2.
Definition MAX_LZ_MATCH : Z := 0x1001.

(** ** Tokens *)

Record Compressor50Token := { tk_dist_extra : Z; tk_len_extra : Z; tk_packed : Z }.

Definition Token_Literal : Z := 0.
Definition Token_Match : Z := 1.
Definition Token_Rep0 : Z := 2.
Definition Token_LastLen : Z := 6.

Definition Token_init : Compressor50Token := {| tk_dist_extra := 0; tk_len_extra := 0; tk_packed := 0 |}.

Definition set_packed (t : Compressor50Token) (packed : Z) : Compressor50Token :=
  {| tk_dist_extra := tk_dist_extra t; tk_len_extra := tk_len_extra t; tk_packed := u16 packed |}.

Definition get_type (t : Compressor50Token) : Z := Z.land (tk_packed t) 7.
Definition set_type (t : Compressor50Token) (ty : Z) : Compressor50Token :=
  set_packed t (Z.lor (Z.land (tk_packed t) (Z.lnot 7)) ty).

Definition get_len_slot (t : Compressor50Token) : Z := u8 (Z.land (Z.shiftr (tk_packed t) 3) 0x3F).
Definition set_len_slot (t : Compressor50Token) (s : Z) : Compressor50Token :=
  set_packed t (Z.lor (Z.land (tk_packed t) (Z.lnot (Z.shiftl 0x3F 3))) (Z.shiftl s 3)).

Definition get_dist_slot (t : Compressor50Token) : Z := u8 (Z.land (Z.shiftr (tk_packed t) 9) 0x7F).
Definition set_dist_slot (t : Compressor50Token) (s : Z) : Compressor50Token :=
  set_packed t (Z.lor (Z.land (tk_packed t) 0x01FF) (Z.shiftl s 9)).

Definition set_len_extra (t : Compressor50Token) (n : Z) : Compressor50Token :=
  {| tk_dist_extra := tk_dist_extra t; tk_len_extra := u16 n; tk_packed := tk_packed t |}.
Definition set_dist_extra (t : Compressor50Token) (n : Z) : Compressor50Token :=
  {| tk_dist_extra := n; tk_len_extra := tk_len_extra t; tk_packed := tk_packed t |}.

Definition get_len_bits (t : Compressor50Token) : Z :=
  let s := get_len_slot t in if s <? 8 then 0 else u8 (s / 4 - 1).
Definition get_dist_bits (t : Compressor50Token) : Z :=
  let s := get_dist_slot t in if s <? 4 then 0 else u8 (s / 2 - 1).

Record FilterToken := { ft_block_start : Z; ft_block_length : Z; ft_type : Z; ft_channels : Z }.

(** *** Slots *)

Definition length_increment (distance : Z) : Z :=
  if distance >? 0x100 then if distance >? 0x2000 then if distance >? 0x40000 then 3 else 2 else 1 else 0.

(** [for (s = 8; s < 44; s++)]: slot, extra and bits of [v]. *)
Fixpoint find_slot (k : nat) (v : Z) : Z * Z * Z :=
  match k with
  | O => (0, 0, 0)
  | S k' =>
      let s := 44 - Z.of_nat k in
      let lb := s / 4 - 1 in
      let base := Z.shiftl (Z.lor 4 (Z.land s 3)) lb in
      if v <? base + Z.shiftl 1 lb then (s, v - base, lb) else find_slot k' v
  end.

(** [LENGTH_SLOT_TABLE.entries[v]]; the last of the [MAX_LZ_MATCH] entries is
    never initialised beyond its zeros. *)
Definition length_slot_entry (v : Z) : Z * Z * Z :=
  if v <? 8 then (v, 0, 0) else if v <? MAX_LZ_MATCH - 1 then find_slot 36 v else (0, 0, 0).

Definition length_to_slot (length : Z) : res (Z * Z * Z) :=
  let v := if length >=? 2 then length - 2 else 0 in
  if v <? MAX_LZ_MATCH then Ok (length_slot_entry v) else Fault.

(** Slot, extra and raw bits of a distance. *)
Definition distance_to_slot (distance : Z) : Z * Z * Z :=
  let distance := if distance =? 0 then 1 else distance in
  if distance <=? 4 then (distance - 1, 0, 0)
  else
    let dbits := Z.log2 (distance - 1) - 1 in
    let bit := Z.land (u32 (Z.shiftr (distance - 1) dbits)) 1 in
    let slot := (dbits + 1) * 2 + bit in
    let base := u64 (Z.shiftl (Z.lor 2 bit) dbits) in
    (slot, u64 (distance - (base + 1)), dbits).

(** ** The state *)

Record Encoder := {
  en_token_seq : list Z;
  en_lit_bytes : list Z;
  en_match_tokens : list Compressor50Token;
  en_filter_tokens : list FilterToken;
  en_freq_ld : list Z;
  en_freq_dd : list Z;
  en_freq_ldd : list Z;
  en_freq_rd : list Z;
  en_old_dist : list Z;
  en_last_length : Z;
  en_input_since_block : Z;
  en_packed_total : Z;
  en_mem_out : list Z
}.

Definition no_old_dist : list Z := replicate 4 (2 ^ 64 - 1).

(** What a session starts from: [reset_state], [reset_old_dist], [init_freq]. *)
Definition Encoder_init : Encoder :=
  {| en_token_seq := []; en_lit_bytes := []; en_match_tokens := []; en_filter_tokens := [];
     en_freq_ld := replicate 306 0; en_freq_dd := replicate 80 0; en_freq_ldd := replicate 16 0; en_freq_rd := replicate 44 0;
     en_old_dist := no_old_dist; en_last_length := 0; en_input_since_block := 0; en_packed_total := 0; en_mem_out := [] |}.

Definition set_tokens (seq lits : list Z) (matches : list Compressor50Token) (filters : list FilterToken) (e : Encoder) : Encoder :=
  {| en_token_seq := seq; en_lit_bytes := lits; en_match_tokens := matches; en_filter_tokens := filters;
     en_freq_ld := en_freq_ld e; en_freq_dd := en_freq_dd e; en_freq_ldd := en_freq_ldd e; en_freq_rd := en_freq_rd e;
     en_old_dist := en_old_dist e; en_last_length := en_last_length e; en_input_since_block := en_input_since_block e;
     en_packed_total := en_packed_total e; en_mem_out := en_mem_out e |}.

Definition set_freqs (ld dd ldd rd : list Z) (e : Encoder) : Encoder :=
  {| en_token_seq := en_token_seq e; en_lit_bytes := en_lit_bytes e; en_match_tokens := en_match_tokens e; en_filter_tokens := en_filter_tokens e;
     en_freq_ld := ld; en_freq_dd := dd; en_freq_ldd := ldd; en_freq_rd := rd;
     en_old_dist := en_old_dist e; en_last_length := en_last_length e; en_input_since_block := en_input_since_block e;
     en_packed_total := en_packed_total e; en_mem_out := en_mem_out e |}.

Definition set_last (old_dist : list Z) (last_length : Z) (e : Encoder) : Encoder :=
  {| en_token_seq := en_token_seq e; en_lit_bytes := en_lit_bytes e; en_match_tokens := en_match_tokens e; en_filter_tokens := en_filter_tokens e;
     en_freq_ld := en_freq_ld e; en_freq_dd := en_freq_dd e; en_freq_ldd := en_freq_ldd e; en_freq_rd := en_freq_rd e;
     en_old_dist := old_dist; en_last_length := last_length; en_input_since_block := en_input_since_block e;
     en_packed_total := en_packed_total e; en_mem_out := en_mem_out e |}.

Definition set_output (packed_total : Z) (mem_out : list Z) (e : Encoder) : Encoder :=
  {| en_token_seq := en_token_seq e; en_lit_bytes := en_lit_bytes e; en_match_tokens := en_match_tokens e; en_filter_tokens := en_filter_tokens e;
     en_freq_ld := en_freq_ld e; en_freq_dd := en_freq_dd e; en_freq_ldd := en_freq_ldd e; en_freq_rd := en_freq_rd e;
     en_old_dist := en_old_dist e; en_last_length := en_last_length e; en_input_since_block := en_input_since_block e;
     en_packed_total := packed_total; en_mem_out := mem_out |}.

(** [input_since_block_ += n] *)
Definition count_input (n : Z) (e : Encoder) : Encoder :=
  {| en_token_seq := en_token_seq e; en_lit_bytes := en_lit_bytes e; en_match_tokens := en_match_tokens e; en_filter_tokens := en_filter_tokens e;
     en_freq_ld := en_freq_ld e; en_freq_dd := en_freq_dd e; en_freq_ldd := en_freq_ldd e; en_freq_rd := en_freq_rd e;
     en_old_dist := en_old_dist e; en_last_length := en_last_length e; en_input_since_block := u64 (en_input_since_block e + n);
     en_packed_total := en_packed_total e; en_mem_out := en_mem_out e |}.

(** Clearing the tokens, [input_since_block_ = 0] and [init_freq()]. *)
Definition clear_block (e : Encoder) : Encoder :=
  {| en_token_seq := []; en_lit_bytes := []; en_match_tokens := []; en_filter_tokens := [];
     en_freq_ld := replicate 306 0; en_freq_dd := replicate 80 0; en_freq_ldd := replicate 16 0; en_freq_rd := replicate 44 0;
     en_old_dist := en_old_dist e; en_last_length := en_last_length e; en_input_since_block := 0;
     en_packed_total := en_packed_total e; en_mem_out := en_mem_out e |}.

(** ** Recording tokens *)

(** [if (freq[i] < 0xfffe) freq[i]++;] *)
Definition bump (freq : list Z) (i : Z) : list Z := if nthZ freq i <? 0xfffe then setZ freq i (nthZ freq i + 1) else freq.

Definition push_literal (b : Z) (e : Encoder) : Encoder :=
  set_tokens (en_token_seq e ++ [0]) (en_lit_bytes e ++ [b]) (en_match_tokens e) (en_filter_tokens e) e.
Definition push_match (t : Compressor50Token) (e : Encoder) : Encoder :=
  set_tokens (en_token_seq e ++ [1]) (en_lit_bytes e) (en_match_tokens e ++ [t]) (en_filter_tokens e) e.
Definition push_filter (t : FilterToken) (e : Encoder) : Encoder :=
  set_tokens (en_token_seq e ++ [2]) (en_lit_bytes e) (en_match_tokens e) (en_filter_tokens e ++ [t]) e.

Definition add_literal (b : Z) (e : Encoder) : Encoder :=
  let e := push_literal b e in
  set_freqs (bump (en_freq_ld e) b) (en_freq_dd e) (en_freq_ldd e) (en_freq_rd e) e.

Definition insert_old_dist (distance : Z) (l : list Z) : list Z := [distance; nthZ l 0; nthZ l 1; nthZ l 2].

(** Returns the number of bytes the token covers; 0: nothing was recorded. *)
Definition add_match (length distance : Z) (e : Encoder) : res (Z * Encoder) :=
  let inc := length_increment distance in
  if length <? inc + 2 then Ok (0, e)
  else
    let base := u32 (length - inc) in
    let base := if base >? MAX_LZ_MATCH then MAX_LZ_MATCH else base in
    '(len_slot, len_extra, _) ← length_to_slot base;
    let '(dist_slot, dist_extra, raw_bits) := distance_to_slot distance in
    let ldd := if raw_bits >=? 4 then bump (en_freq_ldd e) (Z.land dist_extra 0xf) else en_freq_ldd e in
    let e := set_freqs (bump (en_freq_ld e) (262 + len_slot)) (bump (en_freq_dd e) dist_slot) ldd (en_freq_rd e) e in
    let tok := set_dist_extra (set_dist_slot (set_len_extra (set_len_slot (set_type Token_init Token_Match) (u8 len_slot)) len_extra) (u8 dist_slot)) dist_extra in
    let e := push_match tok e in
    let e := set_last (insert_old_dist distance (en_old_dist e)) (base + inc) e in
    mret (base + inc, e).

Definition add_rep (index length : Z) (e : Encoder) : res Encoder :=
  '(len_slot, len_extra, _) ← length_to_slot (u32 length);
  let e := set_freqs (bump (en_freq_ld e) (258 + index)) (en_freq_dd e) (en_freq_ldd e) (bump (en_freq_rd e) len_slot) e in
  let tok := set_len_extra (set_len_slot (set_type Token_init (Token_Rep0 + index)) (u8 len_slot)) len_extra in
  let e := push_match tok e in
  let l := en_old_dist e in
  let l' := nthZ l index :: take (Z.to_nat index) l ++ drop (S (Z.to_nat index)) l in
  mret (set_last l' length e).

Definition add_last_len (e : Encoder) : Encoder :=
  let tok := set_type Token_init Token_LastLen in
  let e := set_freqs (bump (en_freq_ld e) 257) (en_freq_dd e) (en_freq_ldd e) (en_freq_rd e) e in
  push_match tok e.

Definition add_filter (ft : FilterToken) (e : Encoder) : Encoder :=
  let e := push_filter ft e in
  set_freqs (setZ (en_freq_ld e) 256 (u32 (nthZ (en_freq_ld e) 256 + 1))) (en_freq_dd e) (en_freq_ldd e) (en_freq_rd e) e.

Definition need_flush (e : Encoder) : bool :=
  (zlen (en_token_seq e) >=? 32768) || (en_input_since_block e >=? 0x80000).

(** ** Code tables *)

Record Tables := {
  tb_len_ld : list Z; tb_len_dd : list Z; tb_len_ldd : list Z; tb_len_rd : list Z;
  tb_code_ld : list Z; tb_code_dd : list Z; tb_code_ldd : list Z; tb_code_rd : list Z
}.

(** [make_tables], always for the 430-entry table; [update_price_model] only
    feeds the parser. *)
Definition make_tables (e : Encoder) : res Tables :=
  ld ← build_lengths (en_freq_ld e) 15;
  dd ← build_lengths (take (Z.to_nat DCB) (en_freq_dd e)) 15;
  ldd ← build_lengths (en_freq_ldd e) 15;
  rd ← build_lengths (en_freq_rd e) 15;
  mret {| tb_len_ld := ld; tb_len_dd := dd; tb_len_ldd := ldd; tb_len_rd := rd;
          tb_code_ld := build_codes ld; tb_code_dd := build_codes dd; tb_code_ldd := build_codes ldd; tb_code_rd := build_codes rd |}.

Definition table_bits (t : Tables) : list Z := tb_len_ld t ++ tb_len_dd t ++ tb_len_ldd t ++ tb_len_rd t.

Record TableItem := { ti_sym : Z; ti_extra : Z; ti_bits : Z }.

(** [while (i + r < table_size && table_bits[i + r] == v) r++;] *)
Fixpoint run_of (v : Z) (l : list Z) : Z :=
  match l with [] => 0 | x :: l' => if x =? v then 1 + run_of v l' else 0 end.

Definition plain_item (v : Z) : TableItem := {| ti_sym := v; ti_extra := 0; ti_bits := 0 |}.

(** From the entry after [prev] on. *)
Fixpoint make_table_items (fuel : nat) (prev : option Z) (bits : list Z) : res (list TableItem) :=
  match fuel with
  | O => Fuel
  | S fuel' =>
      match bits with
      | [] => Ok []
      | v :: bits' =>
          let r := run_of v bits in
          let chunk := if r >=? 11 then Z.min r 138 else r in
          let repeat := if v =? 0 then r >=? 3
                        else match prev with Some p => (p =? v) && (r >=? 3) | None => false end in
          if repeat then
            let short := if v =? 0 then 18 else 16 in
            let item := if chunk >=? 11 then {| ti_sym := short + 1; ti_extra := u8 (chunk - 11); ti_bits := 7 |}
                        else {| ti_sym := short; ti_extra := u8 (chunk - 3); ti_bits := 3 |} in
            items ← make_table_items fuel' (Some v) (drop (Z.to_nat chunk) bits);
            mret (item :: items)
          else
            items ← make_table_items fuel' (Some v) bits';
            mret (plain_item v :: items)
      end
  end.

(** [freq_bd_[items[i].sym]++] *)
Definition item_freqs (items : list TableItem) : list Z :=
  fold_left (fun freq it => setZ freq (ti_sym it) (u32 (nthZ freq (ti_sym it) + 1))) items (replicate 20 0).

(** [while (i + run < BC && len_bd_[i + run] == 0 && run < 17) run++;] *)
Fixpoint zero_run (k : nat) (l : list Z) : Z :=
  match k, l with S k', x :: l' => if x =? 0 then 1 + zero_run k' l' else 0 | _, _ => 0 end.

(** The lengths of the table code, 4 bits each with an escape for runs of zeros. *)
Fixpoint emit_bitlens (fuel : nat) (lens : list Z) (o : BitOutput) : res BitOutput :=
  match fuel with
  | O => Fuel
  | S fuel' =>
      match lens with
      | [] => Ok o
      | l :: lens' =>
          if l =? 15 then emit_bitlens fuel' lens' (put_bits (put_bits o 15 4) 0 4)
          else if l =? 0 then
            let run := zero_run 17 lens in
            if run >=? 3 then emit_bitlens fuel' (drop (Z.to_nat run) lens) (put_bits (put_bits o 15 4) (run - 2) 4)
            else emit_bitlens fuel' lens' (put_bits o 0 4)
          else emit_bitlens fuel' lens' (put_bits o l 4)
      end
  end.

Definition emit_item (codes lens : list Z) (o : BitOutput) (it : TableItem) : BitOutput :=
  put_bits (put_bits o (nthZ codes (ti_sym it)) (nthZ lens (ti_sym it))) (ti_extra it) (ti_bits it).

Definition emit_table (bits : list Z) (o : BitOutput) : res BitOutput :=
  items ← make_table_items (S (length bits)) None bits;
  lens ← build_lengths (item_freqs items) 15;
  let codes := build_codes lens in
  o ← emit_bitlens 21 lens o;
  mret (fold_left (emit_item codes lens) items o).

(** ** Emitting tokens *)

Definition emit_filter_data (o : BitOutput) (val : Z) : BitOutput :=
  let byte_cnt := if val >? 0xFFFFFF then 4 else if val >? 0xFFFF then 3 else if val >? 0xFF then 2 else 1 in
  let o := put_bits o (byte_cnt - 1) 2 in
  for_range 0 byte_cnt (fun i o => put_bits o (Z.land (Z.shiftr val (i * 8)) 0xFF) 8) o.

Definition emit_filter (t : Tables) (ft : FilterToken) (o : BitOutput) : BitOutput :=
  let o := put_bits o (nthZ (tb_code_ld t) 256) (nthZ (tb_len_ld t) 256) in
  let o := emit_filter_data o (ft_block_start ft) in
  let o := emit_filter_data o (ft_block_length ft) in
  let o := put_bits o (ft_type ft) 3 in
  if ft_type ft =? 0 then put_bits o (ft_channels ft - 1) 5 else o.

Definition emit_distance (t : Tables) (tok : Compressor50Token) (o : BitOutput) : BitOutput :=
  let dist_slot := get_dist_slot tok in
  let dist_code := nthZ (tb_code_dd t) dist_slot in
  let dist_len := nthZ (tb_len_dd t) dist_slot in
  let d_bits := get_dist_bits tok in
  if d_bits >=? 4 then
    let o :=
      if d_bits >? 4 then
        let extra_high := Z.shiftr (tk_dist_extra tok) 4 in
        let extra_high_len := d_bits - 4 in
        let v := Z.lor (u64 (Z.shiftl dist_code extra_high_len)) extra_high in
        if dist_len + extra_high_len <=? 32 then put_bits o (u32 v) (dist_len + extra_high_len)
        else put_bits64 o v (dist_len + extra_high_len)
      else put_bits o dist_code dist_len in
    let extra_low := u32 (Z.land (tk_dist_extra tok) 0xf) in
    put_bits o (nthZ (tb_code_ldd t) extra_low) (nthZ (tb_len_ldd t) extra_low)
  else put_bits o (u32 (Z.lor (u32 (Z.shiftl dist_code d_bits)) (tk_dist_extra tok))) (dist_len + d_bits).

(** A code and the extra bits of a length. *)
Definition emit_length (codes lens : list Z) (sym : Z) (tok : Compressor50Token) (o : BitOutput) : BitOutput :=
  let l_bits := get_len_bits tok in
  put_bits o (Z.lor (u32 (Z.shiftl (nthZ codes sym) l_bits)) (tk_len_extra tok)) (nthZ lens sym + l_bits).

Definition emit_match_token (t : Tables) (tok : Compressor50Token) (o : BitOutput) : BitOutput :=
  if get_type tok =? Token_LastLen then put_bits o (nthZ (tb_code_ld t) 257) (nthZ (tb_len_ld t) 257)
  else if get_type tok =? Token_Match then
    let o := emit_length (tb_code_ld t) (tb_len_ld t) (262 + get_len_slot tok) tok o in
    emit_distance t tok o
  else
    let sym := 258 + (get_type tok - Token_Rep0) in
    let o := put_bits o (nthZ (tb_code_ld t) sym) (nthZ (tb_len_ld t) sym) in
    emit_length (tb_code_rd t) (tb_len_rd t) (get_len_slot tok) tok o.

(** Reading past one of the token lists is a fault. *)
Fixpoint emit_tokens (t : Tables) (seq lits : list Z) (matches : list Compressor50Token) (filters : list FilterToken) (o : BitOutput) : res BitOutput :=
  match seq with
  | [] => Ok o
  | s :: seq' =>
      if s =? 0 then
        match lits with
        | b :: lits' => emit_tokens t seq' lits' matches filters (put_bits o (nthZ (tb_code_ld t) b) (nthZ (tb_len_ld t) b))
        | [] => Fault
        end
      else if s =? 2 then
        match filters with
        | ft :: filters' => emit_tokens t seq' lits matches filters' (emit_filter t ft o)
        | [] => Fault
        end
      else
        match matches with
        | tok :: matches' => emit_tokens t seq' lits matches' filters (emit_match_token t tok o)
        | [] => Fault
        end
  end.

(** ** Blocks *)

Definition block_header (last_block : bool) (data_size block_bit_size : Z) : list Z :=
  let byte_count := if data_size <? 0x100 then 1 else if data_size <? 0x10000 then 2 else 3 in
  let flags := u8 (Z.lor (Z.lor (Z.lor 0x80 (if last_block then 0x40 else 0)) (Z.shiftl (byte_count - 1) 3)) (block_bit_size - 1)) in
  let check_sum := u8 (Z.lxor (Z.lxor (Z.lxor (Z.lxor 0x5a flags) data_size) (Z.shiftr data_size 8)) (Z.shiftr data_size 16)) in
  take (Z.to_nat (2 + byte_count)) [flags; check_sum; u8 data_size; u8 (Z.shiftr data_size 8); u8 (Z.shiftr data_size 16)].

(** The three bytes of a last block without data. *)
Definition empty_last_block : list Z :=
  let flags := Z.lor 0x80 0x40 in [flags; u8 (Z.lxor 0x5A flags); 0].

(** The table description and the tokens, aligned. *)
Definition block_data (e : Encoder) : res BitOutput :=
  t ← make_tables e;
  o ← emit_table (table_bits t) reset_for_block;
  o ← emit_tokens t (en_token_seq e) (en_lit_bytes e) (en_match_tokens e) (en_filter_tokens e) o;
  mret (finish_block_data o).

Definition append_output (l : list Z) (e : Encoder) : Encoder :=
  set_output (u64 (en_packed_total e + zlen l)) (en_mem_out e ++ l) e.

Definition write_block (last_block : bool) (e : Encoder) : res (bool * Encoder) :=
  o ← block_data e;
  let data_size := zlen (bo_mem o) in
  if data_size =? 0 then
    if negb last_block then mret (true, clear_block e)
    else mret (true, clear_block (append_output empty_last_block e))
  else if data_size >=? 0x1000000 then mret (false, clear_block e)
  else
    let bits := u32 (u64 (bo_block_bits o - (data_size - 1) * 8)) in
    let bits := if bits <? 1 then 1 else bits in
    let bits := if bits >? 8 then 8 else bits in
    mret (true, clear_block (append_output (block_header last_block data_size bits ++ bo_mem o) e)).

(** "ab", a match of 4 two back, the same match again, "a". *)
Example write_block_sample :
  (let e := add_literal 98 (add_literal 97 Encoder_init) in
   '(n, e) ← add_match 4 2 e;
   let e := add_literal 97 (add_last_len e) in
   '(ok, e) ← write_block true e;
   mret (n, ok, en_mem_out e, en_packed_total e)) =
  Ok (4, true, [199; 145; 12; 3; 47; 211; 21; 106; 127; 9; 187; 135; 243; 120; 232], 15).
Proof. vm_compute. reflexivity. Qed.

(** ** Slots *)

Definition length_of_slot (slot extra bits : Z) : Z :=
  if slot <? 8 then 2 + slot else 2 + Z.shiftl (Z.lor 4 (Z.land slot 3)) bits + extra.

Definition length_slot_ok (length : Z) : bool :=
  let '(slot, extra, bits) := length_slot_entry (length - 2) in
  (0 <=? slot) && (slot <? 44) && (bits =? if slot <? 8 then 0 else slot / 4 - 1) && (0 <=? bits) && (bits <? 10) &&
  (0 <=? extra) && (extra <? 2 ^ bits) && (length_of_slot slot extra bits =? length).

Lemma length_slots : forallb (fun l => length_slot_ok (2 + l)) (seqZ 0 4096) = true.
Proof. vm_compute. reflexivity. Qed.

(** The slot, the extra bits and their number, and what they stand for. *)
Lemma length_to_slot_spec length :
  2 <= length <= MAX_LZ_MATCH ->
  exists slot extra bits, length_to_slot length = Ok (slot, extra, bits) /\
    0 <= slot < 44 /\ bits = (if slot <? 8 then 0 else slot / 4 - 1) /\ 0 <= bits < 10 /\ 0 <= extra < 2 ^ bits /\
    length_of_slot slot extra bits = length.
Proof.
  unfold MAX_LZ_MATCH. intros Hl. unfold length_to_slot, MAX_LZ_MATCH. rewrite Z.geb_leb, (proj2 (Z.leb_le _ _)), (proj2 (Z.ltb_lt _ _)) by lia.
  pose proof length_slots as HA. rewrite forallb_forall in HA. specialize (HA (length - 2)).
  assert (HI : In (length - 2) (seqZ 0 4096)) by (apply list_elem_of_In, elem_of_seqZ; lia).
  specialize (HA HI). unfold length_slot_ok in HA. replace (2 + (length - 2) - 2) with (length - 2) in HA by lia.
  destruct (length_slot_entry (length - 2)) as [[slot extra] bits]. exists slot, extra, bits. split; [done|].
  rewrite !andb_true_iff, !Z.leb_le, !Z.ltb_lt, !Z.eqb_eq in HA. destruct HA as (((((((A1 & A2) & A3) & A4) & A5) & A6) & A7) & A8).
  split_and!; (done || lia).
Qed.

Definition distance_of_slot (slot extra bits : Z) : Z :=
  if slot <? 4 then 1 + slot else 1 + Z.shiftl (Z.lor 2 (Z.land slot 1)) bits + extra.

Lemma distance_to_slot_spec distance :
  1 <= distance <= 2 ^ 32 ->
  exists slot extra bits, distance_to_slot distance = (slot, extra, bits) /\
    0 <= slot < 64 /\ bits = (if slot <? 4 then 0 else slot / 2 - 1) /\ 0 <= bits < 31 /\ 0 <= extra < 2 ^ bits /\
    distance_of_slot slot extra bits = distance.
Proof.
  intros Hd. unfold distance_to_slot. rewrite (proj2 (Z.eqb_neq distance 0)) by lia.
  destruct (Z.leb_spec distance 4) as [H4|H4].
  { exists (distance - 1), 0, 0. split; [done|]. unfold distance_of_slot. rewrite !(proj2 (Z.ltb_lt (distance - 1) 4)) by lia. lia. }
  cbv zeta. set (n := distance - 1). set (L := Z.log2 n).
  assert (HL : 2 <= L <= 31).
  { split; [change 2 with (Z.log2 4)|change 31 with (Z.log2 (2 ^ 32 - 1))]; apply Z.log2_le_mono; lia. }
  destruct (Z.log2_spec n ltac:(lia)) as [Hlo Hhi]. fold L in Hlo, Hhi. rewrite <- Z.add_1_r, Z.pow_add_r in Hhi by lia.
  set (k := L - 1). assert (EL : 2 ^ L = 2 * 2 ^ k) by (unfold k; replace L with (1 + (L - 1)) at 1 by lia; rewrite Z.pow_add_r by lia; done).
  assert (P : 0 < 2 ^ k) by (apply Z.pow_pos_nonneg; lia).
  set (q := Z.shiftr n k). assert (Eq : n = 2 ^ k * q + n mod 2 ^ k) by (unfold q; rewrite Z.shiftr_div_pow2 by lia; apply Z.div_mod; lia).
  pose proof (Z.mod_pos_bound n (2 ^ k) P) as Hm. assert (Hq : q = 2 \/ q = 3) by nia.
  assert (Eb : Z.lor 2 (Z.land (u32 q) 1) = q) by (by destruct Hq as [-> | ->]).
  set (b := Z.land (u32 q) 1) in *. assert (Hb : q = 2 + b /\ 0 <= b <= 1) by (subst b; destruct Hq as [-> | ->]; split; done).
  pose proof (pow_le k 30 ltac:(lia)) as P30.
  rewrite Eb, Z.shiftl_mul_pow2, (wrap_small 64 (q * 2 ^ k)) by nia. rewrite (wrap_small 64) by lia.
  replace (k + 1) with L by lia. exists (L * 2 + b), (distance - (q * 2 ^ k + 1)), k. split; [done|].
  unfold distance_of_slot. rewrite !(proj2 (Z.ltb_ge (L * 2 + b) 4)) by lia.
  assert (E2 : (L * 2 + b) / 2 = L) by dlia. assert (E1 : Z.land (L * 2 + b) 1 = b).
  { change 1 with (Z.ones 1). rewrite Z.land_ones by lia. change (2 ^ 1) with 2. dlia. }
  rewrite E2, E1, Z.shiftl_mul_pow2, Eb by lia. split_and!; try lia.
Qed.

(** *** Packed tokens *)

Definition match_token_of (ty ls le ds de : Z) : Compressor50Token :=
  set_dist_extra (set_dist_slot (set_len_extra (set_len_slot (set_type Token_init ty) (u8 ls)) le) (u8 ds)) de.

Definition packed_ok (ty ls ds : Z) : bool :=
  let t := match_token_of ty ls 0 ds 0 in
  (get_type t =? ty) && (get_len_slot t =? ls) && (get_dist_slot t =? ds).

Lemma packed_tokens :
  forallb (fun ty => forallb (fun ls => forallb (fun ds => packed_ok ty ls ds) (seqZ 0 64)) (seqZ 0 44)) (seqZ 0 7) = true.
Proof. vm_compute. reflexivity. Qed.

Lemma match_token_fields ty ls le ds de :
  0 <= ty < 7 -> 0 <= ls < 44 -> 0 <= ds < 64 -> 0 <= le < 2 ^ 16 ->
  let t := match_token_of ty ls le ds de in
  get_type t = ty /\ get_len_slot t = ls /\ get_dist_slot t = ds /\ tk_len_extra t = le /\ tk_dist_extra t = de /\
  get_len_bits t = (if ls <? 8 then 0 else ls / 4 - 1) /\ get_dist_bits t = (if ds <? 4 then 0 else ds / 2 - 1).
Proof.
  intros Ht Hl Hd He. pose proof packed_tokens as HA.
  rewrite forallb_forall in HA. specialize (HA ty ltac:(apply list_elem_of_In, elem_of_seqZ; lia)).
  rewrite forallb_forall in HA. specialize (HA ls ltac:(apply list_elem_of_In, elem_of_seqZ; lia)).
  rewrite forallb_forall in HA. specialize (HA ds ltac:(apply list_elem_of_In, elem_of_seqZ; lia)).
  unfold packed_ok in HA. rewrite !andb_true_iff, !Z.eqb_eq in HA. destruct HA as ((A1 & A2) & A3). cbv zeta.
  assert (G1 : get_type (match_token_of ty ls le ds de) = ty) by exact A1.
  assert (G2 : get_len_slot (match_token_of ty ls le ds de) = ls) by exact A2.
  assert (G3 : get_dist_slot (match_token_of ty ls le ds de) = ds) by exact A3.
  unfold get_len_bits, get_dist_bits. rewrite G1, G2, G3. split_and!; try done.
  - cbn. by apply wrap_small.
  - destruct (Z.ltb_spec ls 8); [done|]. apply wrap_small. dlia.
  - destruct (Z.ltb_spec ds 4); [done|]. apply wrap_small. dlia.
Qed.

(** ** What is written *)

(** From [o] to [o'] the bits [x] are appended, room permitting. *)
Definition writes (o o' : BitOutput) (x : list bool) : Prop :=
  out_ok o -> zlen (out_bits o) + zlen x < 2 ^ 64 -> out_ok o' /\ out_bits o' = out_bits o ++ x.

Lemma writes_nil o : writes o o [].
Proof. intros HO _. by rewrite app_nil_r. Qed.

Lemma writes_trans o1 o2 o3 x y : writes o1 o2 x -> writes o2 o3 y -> writes o1 o3 (x ++ y).
Proof.
  intros H12 H23 HO Hl. rewrite zlen_app in Hl. zlen_pose. destruct (H12 HO ltac:(lia)) as [HO2 E2].
  destruct (H23 HO2) as [HO3 E3]; [rewrite E2, zlen_app; lia|]. split; [done|]. by rewrite E3, E2, app_assoc.
Qed.

Lemma put_bits_writes o v n : 0 <= n <= 32 -> 0 <= v < 2 ^ 32 -> writes o (put_bits o v n) (field n v).
Proof. intros Hn Hv HO Hl. rewrite zlen_field in Hl by lia. by apply put_bits_spec. Qed.

Lemma put_bits64_writes o v n : 0 <= n <= 64 -> 0 <= v < 2 ^ 64 -> writes o (put_bits64 o v n) (field n v).
Proof. intros Hn Hv HO Hl. rewrite zlen_field in Hl by lia. by apply put_bits64_spec. Qed.

(** A code the encoder can use. *)
Record code_good (lens : list Z) : Prop := { cg_ok : lens_ok lens; cg_kraft : kraft lens }.

Section code.
Context (lens : list Z) (HG : code_good lens).

Lemma coded_len s : coded lens s -> 1 <= nthZ lens s <= 15.
Proof.
  intros [Hs Hp]. split; [lia|]. destruct (cg_ok _ HG) as [_ HL]. rewrite Forall_lookup in HL.
  destruct (lookup_lt_is_Some_2 lens (Z.to_nat s)) as [x Hx]; [unfold zlen in Hs; lia|].
  specialize (HL _ _ Hx). unfold nthZ. rewrite (nth_lookup_Some _ _ 0 x Hx). unfold MAX_CODE_BITS in HL. lia.
Qed.

Lemma code_range s : coded lens s -> 0 <= nthZ (build_codes lens) s < 2 ^ nthZ lens s.
Proof.
  intros Hc. pose proof (coded_len s Hc) as Hl. destruct (build_codes_spec lens (cg_ok _ HG) (cg_kraft _ HG)) as [_ E].
  rewrite E by apply Hc. rewrite (proj2 (Z.eqb_neq _ _)) by lia. pose proof (code_of_range lens s Hc) as R.
  pose proof (upto_nonneg lens (nthZ lens s - 1)). pose proof (proj1 (kraft_iff lens) (cg_kraft _ HG) (nthZ lens s) ltac:(lia)).
  unfold first_code in R. lia.
Qed.

Lemma zlen_encoded s : coded lens s -> zlen (encoded lens s) = nthZ lens s.
Proof. intros Hc. pose proof (coded_len s Hc). unfold encoded. rewrite zlen_zbits. lia. Qed.

Lemma put_code_writes o s : coded lens s -> writes o (put_bits o (nthZ (build_codes lens) s) (nthZ lens s)) (encoded lens s).
Proof.
  intros Hc. pose proof (coded_len s Hc) as Hl. pose proof (code_range s Hc). pose proof (pow_le (nthZ lens s) 15 ltac:(lia)).
  apply put_bits_writes; lia.
Qed.

(** A code and extra bits packed in one field. *)
Lemma code_extra s n extra :
  coded lens s -> 0 <= n <= 48 -> 0 <= extra < 2 ^ n ->
  0 <= Z.lor (Z.shiftl (nthZ (build_codes lens) s) n) extra < 2 ^ (nthZ lens s + n) /\
  field (nthZ lens s + n) (Z.lor (Z.shiftl (nthZ (build_codes lens) s) n) extra) = encoded lens s ++ field n extra.
Proof.
  intros Hc Hn He. pose proof (coded_len s Hc). pose proof (code_range s Hc). split; [|apply field_lor; lia].
  rewrite lor_shiftl_add_l, Z.pow_add_r by lia. nia.
Qed.

Lemma emit_length_writes tok s extra bits o :
  coded lens s -> get_len_bits tok = bits -> tk_len_extra tok = extra -> 0 <= bits < 10 -> 0 <= extra < 2 ^ bits ->
  writes o (emit_length (build_codes lens) lens s tok o) (encoded lens s ++ field bits extra).
Proof.
  intros Hc Eb Ee Hb He. unfold emit_length. rewrite Eb, Ee. pose proof (coded_len s Hc). pose proof (code_range s Hc) as R.
  destruct (code_extra s bits extra Hc ltac:(lia) He) as [Hr <-].
  pose proof (pow_le (nthZ lens s + bits) 24 ltac:(lia)) as P. rewrite Z.pow_add_r in P by lia.
  assert (0 < 2 ^ bits) by (apply Z.pow_pos_nonneg; lia).
  rewrite (wrap_small 32) by (rewrite Z.shiftl_mul_pow2 by lia; nia).
  apply put_bits_writes; [lia|]. rewrite Z.pow_add_r in Hr by lia. lia.
Qed.
End code.

Record tables_good (t : Tables) : Prop := {
  tg_ld : code_good (tb_len_ld t); tg_dd : code_good (tb_len_dd t); tg_ldd : code_good (tb_len_ldd t); tg_rd : code_good (tb_len_rd t);
  tg_code_ld : tb_code_ld t = build_codes (tb_len_ld t); tg_code_dd : tb_code_dd t = build_codes (tb_len_dd t);
  tg_code_ldd : tb_code_ldd t = build_codes (tb_len_ldd t); tg_code_rd : tb_code_rd t = build_codes (tb_len_rd t)
}.

Section tables.
Context (t : Tables) (HT : tables_good t).

(** The bits of a distance: slot, extra and raw bits. *)
Definition distance_bits (slot extra bits : Z) : list bool :=
  encoded (tb_len_dd t) slot ++
  if bits >=? 4 then field (bits - 4) (Z.shiftr extra 4) ++ encoded (tb_len_ldd t) (Z.land extra 0xf) else field bits extra.

Lemma emit_distance_writes tok slot extra bits o :
  coded (tb_len_dd t) slot -> (4 <= bits -> coded (tb_len_ldd t) (Z.land extra 0xf)) ->
  get_dist_slot tok = slot -> get_dist_bits tok = bits -> tk_dist_extra tok = extra -> 0 <= bits < 31 -> 0 <= extra < 2 ^ bits ->
  writes o (emit_distance t tok o) (distance_bits slot extra bits).
Proof.
  intros Hc Hl Es Eb Ee Hb He. unfold emit_distance, distance_bits. rewrite Es, Eb, Ee, (tg_code_dd _ HT), (tg_code_ldd _ HT).
  pose proof (coded_len _ (tg_dd _ HT) slot Hc) as Hlen. pose proof (code_range _ (tg_dd _ HT) slot Hc) as Hcode.
  set (len := nthZ (tb_len_dd t) slot) in *. set (code := nthZ (build_codes (tb_len_dd t)) slot) in *.
  rewrite Z.geb_leb. destruct (Z.leb_spec 4 bits) as [H4|H4].
  - specialize (Hl H4). assert (E0 : Z.land extra 0xf = extra mod 2 ^ 4) by (change 0xf with (Z.ones 4); by rewrite Z.land_ones by lia).
    pose proof (Z.mod_pos_bound extra (2 ^ 4) ltac:(lia)) as Hm. rewrite <- E0 in Hm.
    rewrite (wrap_small 32 (Z.land extra 0xf)) by lia. rewrite app_assoc.
    eapply writes_trans; [|by apply put_code_writes; [apply HT|]].
    assert (Hh : 0 <= Z.shiftr extra 4 < 2 ^ (bits - 4)).
    { rewrite Z.shiftr_div_pow2 by lia. split; [apply Z.div_pos; lia|]. apply Z.div_lt_upper_bound; [lia|].
      rewrite <- Z.pow_add_r by lia. replace (4 + (bits - 4)) with bits by lia. lia. }
    rewrite Z.gtb_ltb. destruct (Z.ltb_spec 4 bits) as [H5|H5].
    + destruct (code_extra _ (tg_dd _ HT) slot (bits - 4) (Z.shiftr extra 4) Hc ltac:(lia) Hh) as [Hr EF]. fold code len in Hr, EF.
      pose proof (pow_le (len + (bits - 4)) 48 ltac:(lia)) as P. rewrite <- EF.
      assert (P0 : 0 < 2 ^ (bits - 4)) by (apply Z.pow_pos_nonneg; lia). rewrite Z.pow_add_r in P by lia.
      rewrite (wrap_small 64 (Z.shiftl code (bits - 4))) by (rewrite Z.shiftl_mul_pow2 by lia; nia).
      rewrite Z.pow_add_r in Hr by lia. destruct (Z.leb_spec (len + (bits - 4)) 32) as [H32|H32].
      * rewrite wrap_small; [apply put_bits_writes; [lia|]|];
          (pose proof (pow_le (len + (bits - 4)) 32 ltac:(lia)) as P2; rewrite Z.pow_add_r in P2 by lia; lia).
      * apply put_bits64_writes; lia.
    + replace (bits - 4) with 0 by lia. rewrite field_0, app_nil_r. by apply put_code_writes; [apply HT|].
  - destruct (code_extra _ (tg_dd _ HT) slot bits extra Hc ltac:(lia) He) as [Hr <-]. fold code len in Hr |- *.
    pose proof (pow_le (len + bits) 18 ltac:(lia)) as P. rewrite Z.pow_add_r in P, Hr by lia.
    assert (0 < 2 ^ bits) by (apply Z.pow_pos_nonneg; lia).
    rewrite (wrap_small 32 (Z.shiftl code bits)) by (rewrite Z.shiftl_mul_pow2 by lia; nia).
    rewrite wrap_small by lia. apply put_bits_writes; lia.
Qed.

(** *** Filter tokens *)

Definition filter_bytes (val : Z) : Z := if val >? 0xFFFFFF then 4 else if val >? 0xFFFF then 3 else if val >? 0xFF then 2 else 1.

(** The low [n] bytes of [val], from the [i]th. *)
Fixpoint data_bits (n : nat) (i val : Z) : list bool :=
  match n with O => [] | S n' => field 8 (Z.land (Z.shiftr val (i * 8)) 0xFF) ++ data_bits n' (i + 1) val end.

Definition filter_data_bits (val : Z) : list bool :=
  field 2 (filter_bytes val - 1) ++ data_bits (Z.to_nat (filter_bytes val)) 0 val.

Lemma emit_bytes_writes n i val o :
  writes o (for_n n i (fun i o => put_bits o (Z.land (Z.shiftr val (i * 8)) 0xFF) 8) o) (data_bits n i val).
Proof.
  revert i o. induction n as [|n IH]; intros i o; cbn [for_n data_bits]; [apply writes_nil|].
  eapply writes_trans; [|apply IH]. apply put_bits_writes; [lia|]. pose proof (land_range 8 (Z.shiftr val (i * 8)) 0xFF ltac:(lia)). lia.
Qed.

Lemma emit_filter_data_writes o val : writes o (emit_filter_data o val) (filter_data_bits val).
Proof.
  unfold emit_filter_data, filter_data_bits. fold (filter_bytes val). cbv zeta.
  assert (1 <= filter_bytes val <= 4) by (unfold filter_bytes; repeat case_match; lia).
  eapply writes_trans; [apply put_bits_writes; lia|]. unfold for_range. rewrite Z.sub_0_r. apply emit_bytes_writes.
Qed.

Definition filter_bits (ft : FilterToken) : list bool :=
  encoded (tb_len_ld t) 256 ++ filter_data_bits (ft_block_start ft) ++ filter_data_bits (ft_block_length ft) ++
  field 3 (ft_type ft) ++ (if ft_type ft =? 0 then field 5 (ft_channels ft - 1) else []).

Lemma emit_filter_writes o ft :
  coded (tb_len_ld t) 256 -> 0 <= ft_type ft < 8 -> 1 <= ft_channels ft <= 32 -> writes o (emit_filter t ft o) (filter_bits ft).
Proof.
  intros Hc Hty Hch. unfold emit_filter, filter_bits. rewrite (tg_code_ld _ HT). cbv zeta.
  eapply writes_trans; [by apply put_code_writes; [apply HT|]|]. eapply writes_trans; [apply emit_filter_data_writes|].
  eapply writes_trans; [apply emit_filter_data_writes|]. 
  destruct (ft_type ft =? 0).
  - eapply writes_trans; apply put_bits_writes; lia.
  - rewrite app_nil_r. apply put_bits_writes; lia.
Qed.
End tables.

(** ** Recorded tokens *)

(** A token of the block, and how the three lists and the order hold it. *)
Inductive Tok := TLiteral (b : Z) | TMatch (tok : Compressor50Token) | TFilter (ft : FilterToken).

Definition tok_seq (k : Tok) : Z := match k with TLiteral _ => 0 | TMatch _ => 1 | TFilter _ => 2 end.
Definition tok_lits (k : Tok) : list Z := match k with TLiteral b => [b] | _ => [] end.
Definition tok_matches (k : Tok) : list Compressor50Token := match k with TMatch t => [t] | _ => [] end.
Definition tok_filters (k : Tok) : list FilterToken := match k with TFilter f => [f] | _ => [] end.

Record holds_tokens (e : Encoder) (toks : list Tok) : Prop := {
  ht_seq : en_token_seq e = map tok_seq toks;
  ht_lits : en_lit_bytes e = concat (map tok_lits toks);
  ht_matches : en_match_tokens e = concat (map tok_matches toks);
  ht_filters : en_filter_tokens e = concat (map tok_filters toks)
}.

(** The symbols a token needs of each alphabet, and the ranges of its fields. *)
Definition tok_uses (P_ld P_dd P_ldd P_rd : Z -> Prop) (k : Tok) : Prop :=
  match k with
  | TLiteral b => 0 <= b < 256 /\ P_ld b
  | TFilter f => P_ld 256 /\ 0 <= ft_type f < 8 /\ 1 <= ft_channels f <= 32
  | TMatch tok =>
      let lb := get_len_bits tok in
      let db := get_dist_bits tok in
      if get_type tok =? Token_LastLen then P_ld 257
      else
        0 <= get_len_slot tok < 44 /\ 0 <= lb < 10 /\ 0 <= tk_len_extra tok < 2 ^ lb /\
        if get_type tok =? Token_Match then
          P_ld (262 + get_len_slot tok) /\ P_dd (get_dist_slot tok) /\ 0 <= db < 31 /\ 0 <= tk_dist_extra tok < 2 ^ db /\
          (4 <= db -> P_ldd (Z.land (tk_dist_extra tok) 0xf))
        else 2 <= get_type tok < 6 /\ P_ld (258 + (get_type tok - Token_Rep0)) /\ P_rd (get_len_slot tok)
  end.

Lemma tok_uses_impl (P1 P2 P3 P4 Q1 Q2 Q3 Q4 : Z -> Prop) k :
  (forall s, P1 s -> Q1 s) -> (forall s, P2 s -> Q2 s) -> (forall s, P3 s -> Q3 s) -> (forall s, P4 s -> Q4 s) ->
  tok_uses P1 P2 P3 P4 k -> tok_uses Q1 Q2 Q3 Q4 k.
Proof.
  intros H1 H2 H3 H4. destruct k as [b|tok|f]; cbn [tok_uses]; [intuition|..|intuition].
  cbv zeta. destruct (_ =? _); [auto|]. intros (A & B & C & D). split; [done|]. split; [done|]. split; [done|].
  destruct (_ =? _); [destruct D as (D1 & D2 & D3 & D4 & D5); split_and!; auto; intuition|destruct D as (D1 & D2 & D3); split_and!; auto; lia].
Qed.

Definition usable (t : Tables) : Tok -> Prop :=
  tok_uses (coded (tb_len_ld t)) (coded (tb_len_dd t)) (coded (tb_len_ldd t)) (coded (tb_len_rd t)).

Definition match_bits (t : Tables) (tok : Compressor50Token) : list bool :=
  if get_type tok =? Token_LastLen then encoded (tb_len_ld t) 257
  else if get_type tok =? Token_Match then
    encoded (tb_len_ld t) (262 + get_len_slot tok) ++ field (get_len_bits tok) (tk_len_extra tok) ++
    distance_bits t (get_dist_slot tok) (tk_dist_extra tok) (get_dist_bits tok)
  else
    encoded (tb_len_ld t) (258 + (get_type tok - Token_Rep0)) ++
    encoded (tb_len_rd t) (get_len_slot tok) ++ field (get_len_bits tok) (tk_len_extra tok).

Definition tok_bits (t : Tables) (k : Tok) : list bool :=
  match k with
  | TLiteral b => encoded (tb_len_ld t) b
  | TMatch tok => match_bits t tok
  | TFilter f => filter_bits t f
  end.

Lemma emit_match_token_writes t tok o :
  tables_good t -> usable t (TMatch tok) -> writes o (emit_match_token t tok o) (match_bits t tok).
Proof.
  intros HT HU. unfold usable in HU. cbn [tok_uses] in HU. unfold emit_match_token, match_bits. cbv zeta in *.
  rewrite (tg_code_ld _ HT), (tg_code_rd _ HT).
  destruct (get_type tok =? Token_LastLen); [by apply put_code_writes; [apply HT|]|].
  destruct HU as (H1 & H2 & H3 & HU). destruct (get_type tok =? Token_Match).
  - destruct HU as (U1 & U2 & U3 & U4 & U5). rewrite app_assoc. eapply writes_trans.
    + by apply emit_length_writes; [apply HT|..].
    + by apply emit_distance_writes.
  - destruct HU as (U1 & U2 & U3). eapply writes_trans; [by apply put_code_writes; [apply HT|]|].
    by apply emit_length_writes; [apply HT|..].
Qed.

Lemma emit_tokens_writes t toks :
  tables_good t -> Forall (usable t) toks ->
  forall o, exists o', emit_tokens t (map tok_seq toks) (concat (map tok_lits toks)) (concat (map tok_matches toks)) (concat (map tok_filters toks)) o = Ok o' /\
    writes o o' (concat (map (tok_bits t) toks)).
Proof.
  intros HT HF. induction HF as [|k toks Hk HF IH]; intros o; [by exists o; split; [|apply writes_nil]|].
  assert (HS : forall o1, writes o o1 (tok_bits t k) -> exists o',
     emit_tokens t (map tok_seq toks) (concat (map tok_lits toks)) (concat (map tok_matches toks)) (concat (map tok_filters toks)) o1 = Ok o' /\
     writes o o' (concat (map (tok_bits t) (k :: toks)))).
  { intros o1 H1. destruct (IH o1) as (o' & E & W). exists o'. split; [exact E|]. cbn [map concat]. by eapply writes_trans. }
  destruct k as [b|tok|f]; cbn [map concat tok_seq tok_lits tok_matches tok_filters app emit_tokens Z.eqb]; apply HS.
  - rewrite (tg_code_ld _ HT). apply put_code_writes; [apply HT|apply Hk].
  - by apply emit_match_token_writes.
  - destruct Hk as (H1 & H2 & H3). by apply emit_filter_writes.
Qed.

(** *** Frequencies *)

Definition counted (freq : list Z) (n s : Z) : Prop := 0 <= s < n /\ nthZ freq s <> 0.

Definition freqs_ok (freq : list Z) : Prop := Forall (fun f => 0 <= f) freq.

Lemma freqs_nonneg freq i : freqs_ok freq -> 0 <= nthZ freq i.
Proof.
  intros HF. unfold nthZ. destruct (nth_in_or_default (Z.to_nat i) freq 0) as [Hin|E0]; [|by rewrite E0].
  by apply (proj1 (List.Forall_forall _ _) HF).
Qed.

Lemma bump_ok freq i : freqs_ok freq -> freqs_ok (bump freq i).
Proof.
  intros HF. unfold bump. destruct (_ <? _); [|done]. apply Forall_insert; [done|]. pose proof (freqs_nonneg freq i HF). lia.
Qed.

Lemma zlen_bump freq i : zlen (bump freq i) = zlen freq.
Proof. unfold bump. destruct (_ <? _); [apply zlen_setZ|done]. Qed.

Lemma bump_counts freq i n : freqs_ok freq -> 0 <= i < n -> n <= zlen freq -> counted (bump freq i) n i.
Proof.
  intros HF Hi Hn. split; [done|]. pose proof (freqs_nonneg freq i HF). unfold bump.
  destruct (Z.ltb_spec (nthZ freq i) 0xfffe); [rewrite nthZ_setZ_eq by lia; lia|lia].
Qed.

Lemma bump_mono freq i n s : freqs_ok freq -> 0 <= i < zlen freq -> counted freq n s -> counted (bump freq i) n s.
Proof.
  intros HF Hi [Hs Hc]. split; [done|]. pose proof (freqs_nonneg freq i HF). unfold bump. destruct (_ <? _); [|done].
  rewrite nthZ_setZ by lia. destruct (s =? i); [lia|done].
Qed.

(** Every recorded token is counted. *)
Record recording (e : Encoder) (toks : list Tok) : Prop := {
  rc_tokens : holds_tokens e toks;
  rc_len_ld : zlen (en_freq_ld e) = 306; rc_len_dd : zlen (en_freq_dd e) = 80;
  rc_len_ldd : zlen (en_freq_ldd e) = 16; rc_len_rd : zlen (en_freq_rd e) = 44;
  rc_ld : freqs_ok (en_freq_ld e); rc_dd : freqs_ok (en_freq_dd e); rc_ldd : freqs_ok (en_freq_ldd e); rc_rd : freqs_ok (en_freq_rd e);
  rc_counted : Forall (tok_uses (counted (en_freq_ld e) 306) (counted (en_freq_dd e) 64) (counted (en_freq_ldd e) 16) (counted (en_freq_rd e) 44)) toks
}.

Lemma good_lengths_good freq lens :
  good_lengths freq 15 lens -> zlen freq <= MAX_SYMBOLS -> code_good lens /\ forall s, counted freq (zlen freq) s -> coded lens s.
Proof.
  intros HG Hn. destruct (good_lengths_code freq 15 lens ltac:(lia) HG Hn) as (H1 & H2 & H3). split; [by split|].
  intros s [Hs Hf]. by apply H3.
Qed.

Lemma counted_take freq n s : n <= zlen freq -> counted freq n s -> counted (take (Z.to_nat n) freq) n s.
Proof. intros Hn [Hs Hc]. split; [done|]. by rewrite nthZ_take by lia. Qed.

Lemma make_tables_spec e toks :
  recording e toks ->
  exists t, make_tables e = Ok t /\ tables_good t /\ Forall (usable t) toks /\
    zlen (tb_len_ld t) = 306 /\ zlen (tb_len_dd t) = 64 /\ zlen (tb_len_ldd t) = 16 /\ zlen (tb_len_rd t) = 44.
Proof.
  intros HR. pose proof HR as [HT L1 L2 L3 L4 F1 F2 F3 F4 HC]. unfold make_tables.
  assert (Ld : zlen (take (Z.to_nat DCB) (en_freq_dd e)) = 64) by (apply zlen_take; unfold DCB; lia).
  destruct (build_lengths_good (en_freq_ld e) 15 ltac:(lia) ltac:(lia)) as (ld & E1 & G1).
  destruct (build_lengths_good (take (Z.to_nat DCB) (en_freq_dd e)) 15 ltac:(lia) ltac:(lia)) as (dd & E2 & G2).
  destruct (build_lengths_good (en_freq_ldd e) 15 ltac:(lia) ltac:(lia)) as (ldd & E3 & G3).
  destruct (build_lengths_good (en_freq_rd e) 15 ltac:(lia) ltac:(lia)) as (rd & E4 & G4).
  rewrite E1, bind_ok, E2, bind_ok, E3, bind_ok, E4, bind_ok. eexists. split; [reflexivity|].
  destruct (good_lengths_good _ _ G1) as [C1 U1]; [unfold MAX_SYMBOLS; lia|]. destruct (good_lengths_good _ _ G2) as [C2 U2]; [unfold MAX_SYMBOLS; lia|].
  destruct (good_lengths_good _ _ G3) as [C3 U3]; [unfold MAX_SYMBOLS; lia|]. destruct (good_lengths_good _ _ G4) as [C4 U4]; [unfold MAX_SYMBOLS; lia|].
  rewrite L1 in U1. rewrite Ld in U2. rewrite L3 in U3. rewrite L4 in U4.
  split; [by split|]. split.
  - eapply List.Forall_impl; [|exact HC]. intros k. unfold usable. cbn [tb_len_ld tb_len_dd tb_len_ldd tb_len_rd]. apply tok_uses_impl; try done.
    intros s Hs. apply U2. apply (counted_take _ 64); [lia|done].
  - cbn [tb_len_ld tb_len_dd tb_len_ldd tb_len_rd]. rewrite (gl_len _ _ _ G1), (gl_len _ _ _ G2), (gl_len _ _ _ G3), (gl_len _ _ _ G4). lia.
Qed.
