(* ===== verification/LzWindow.v ===== *)
(** The sliding window of the RAR 5.0 decoder
    ([src/compress/decompressor50.cpp], [WindowBuffer] and the window half of
    [Decompressor50::ApplyEngine]).

    The storage is a list of bytes that grows in place; whether a growth
    succeeds and what fresh memory holds are parameters, as the allocator
    decides them.  Every copy is checked: an access outside the storage is
    [Fault], and so is a [memcpy] between overlapping ranges.

    [ring] relates an engine to the history of bytes written to it; the
    specification of a match is a byte-by-byte copy at the end of that
    history. *)

From Stdlib Require Import ZArith Lia.
From stdpp Require Import base tactics list numbers.
From S2P Require Import Prelude Loops Bytes Arrays.

Local Open Scope Z_scope.

(** ** The environment: virtual memory and the heap *)

Class Memory := {
  vm_reserve : Z -> bool;              (* mmap of that many bytes *)
  vm_commit : Z -> Z -> bool;          (* mprotect of a range *)
  vec_resize : Z -> bool;              (* vector::resize *)
  fresh_byte : Z -> Z                  (* what memory never written holds *)
}.

Class MemoryLaws `{Memory} := { fresh_is_byte : forall i, is_byte (fresh_byte i) }.

(** Every request for memory is granted. *)
Definition memory_grants `{Memory} : Prop :=
  (forall n, vm_reserve n = true) /\ (forall a n, vm_commit a n = true) /\ (forall n, vec_resize n = true).

Definition WINDOW_VM_THRESHOLD : Z := Z.shiftl 64 20.
Definition WINDOW_COMMIT_GRANULE : Z := Z.shiftl 1 20.
Definition INITIAL_WINDOW : Z := 256 * 1024.

(** ** WindowBuffer *)

Record WindowBuffer := {
  wb_bytes : list Z;       (* base_[0 .. size_) *)
  wb_reserved : Z;
  wb_committed : Z;
  wb_vm : bool
}.

Definition wb_size (w : WindowBuffer) : Z := zlen (wb_bytes w).

Definition wb_release : WindowBuffer :=
  {| wb_bytes := []; wb_reserved := 0; wb_committed := 0; wb_vm := false |}.

Definition wb_set (w : WindowBuffer) (l : list Z) : WindowBuffer :=
  {| wb_bytes := l; wb_reserved := wb_reserved w; wb_committed := wb_committed w; wb_vm := wb_vm w |}.

Section window.
Context `{Memory}.

Definition wb_init (max_bytes : Z) : bool * WindowBuffer :=
  if max_bytes >? WINDOW_VM_THRESHOLD then
    if vm_reserve max_bytes
    then (true, {| wb_bytes := []; wb_reserved := max_bytes; wb_committed := 0; wb_vm := true |})
    else (false, wb_release)
  else (true, wb_release).

(** The bytes already there stay; the rest is whatever the memory holds. *)
Definition extend (l : list Z) (n : Z) : list Z := l ++ map fresh_byte (seqZ (zlen l) (n - zlen l)).

Definition wb_grow_to (w : WindowBuffer) (n : Z) : bool * WindowBuffer :=
  if n <=? wb_size w then (true, w)
  else if negb (wb_vm w) then
    if vec_resize n then (true, wb_set w (extend (wb_bytes w) n)) else (false, w)
  else if n >? wb_reserved w then (false, w)
  else if n >? wb_committed w then
    let target := (n + WINDOW_COMMIT_GRANULE - 1) / WINDOW_COMMIT_GRANULE * WINDOW_COMMIT_GRANULE in
    let target := if target >? wb_reserved w then wb_reserved w else target in
    if vm_commit (wb_committed w) (target - wb_committed w)
    then (true, {| wb_bytes := extend (wb_bytes w) n; wb_reserved := wb_reserved w;
                   wb_committed := target; wb_vm := true |})
    else (false, w)
  else (true, wb_set w (extend (wb_bytes w) n)).

(** ** The engine's window *)

Record Window := {
  win_size : Z;
  win_mask : Z;
  win_pow2 : bool;
  win_buf : WindowBuffer;
  win_cap : Z;
  win_pos : Z;
  first_win_done : bool;
  window_ready : bool
}.

Definition win_init (size : Z) : Window :=
  let size := Z.max size 0x10000 in
  {| win_size := size; win_mask := size - 1; win_pow2 := Z.land size (size - 1) =? 0;
     win_buf := wb_release; win_cap := 0; win_pos := 0; first_win_done := false; window_ready := false |}.

Definition wrap_up (e : Window) (pos : Z) : Z :=
  if win_pow2 e then Z.land pos (win_mask e)
  else if pos >=? win_size e then pos - win_size e else pos.

Definition set_buf (e : Window) (b : WindowBuffer) (cap : Z) (ready : bool) : Window :=
  {| win_size := win_size e; win_mask := win_mask e; win_pow2 := win_pow2 e; win_buf := b; win_cap := cap;
     win_pos := win_pos e; first_win_done := first_win_done e; window_ready := ready |}.

Definition set_pos (e : Window) (pos : Z) (first : bool) : Window :=
  {| win_size := win_size e; win_mask := win_mask e; win_pow2 := win_pow2 e; win_buf := win_buf e;
     win_cap := win_cap e; win_pos := pos; first_win_done := first; window_ready := window_ready e |}.

Definition set_bytes (e : Window) (l : list Z) : Window :=
  set_buf e (wb_set (win_buf e) l) (win_cap e) (window_ready e).

Definition win_bytes (e : Window) : list Z := wb_bytes (win_buf e).

Definition ensure_window_alloc (e : Window) : bool * Window :=
  if window_ready e || (win_size e =? 0) then (true, e)
  else
    let '(ok, b) := wb_init (win_size e) in
    let '(ok, b) := if ok then wb_grow_to b (Z.min (win_size e) INITIAL_WINDOW) else (false, b) in
    if negb ok then (false, set_buf e wb_release 0 (window_ready e))
    else (true, set_buf e b (wb_size b) true).

Definition grow (e : Window) (n : Z) : bool * Window :=
  if win_cap e =? win_size e then (true, e)
  else
    let need := if n >=? win_size e - win_pos e then win_size e else win_pos e + n in
    if need <=? win_cap e then (true, e)
    else
      let next := if win_cap e >? win_size e / 2 then win_size e else Z.max (win_cap e * 2) need in
      let next := if next >? win_size e then win_size e else next in
      let '(ok, b) := wb_grow_to (win_buf e) next in
      if negb ok then (false, set_buf e b (win_cap e) (window_ready e))
      else (true, set_buf e b (wb_size b) (window_ready e)).

Definition reserve (e : Window) (n : Z) : bool * Window :=
  if (win_cap e =? win_size e) || (n <=? win_cap e - win_pos e) then (true, e) else grow e n.

Definition reset_window (e : Window) : Window := set_pos e 0 false.

(** [win_pos_ = wrap_up(win_pos_ + n); if (win_pos_ == 0) first_win_done_ = true;] *)
Definition advance (e : Window) (n : Z) : Window :=
  let pos := wrap_up e (win_pos e + n) in
  set_pos e pos (if pos =? 0 then true else first_win_done e).

Definition write_literal (e : Window) (slot : Z) : res (bool * Window) :=
  let '(ok, e) := if win_pos e >=? win_cap e then grow e 1 else (true, e) in
  if negb ok then Ok (false, e)
  else
    l ← store (win_bytes e) (win_pos e) [u8 slot];
    mret (true, advance (set_bytes e l) 1).

(** [memcpy] within the window is undefined when the ranges overlap. *)
Definition memcpy_self (l : list Z) (dst src n : Z) : res (list Z) :=
  if (0 <? n) && (dst <? src + n) && (src <? dst + n) then Fault
  else x ← slice l src n; store l dst x.

Definition memmove_self (l : list Z) (dst src n : Z) : res (list Z) :=
  x ← slice l src n; store l dst x.

(** The zero fill of a reference past the written data. *)
Fixpoint zero_fill (fuel : nat) (e : Window) (rem : Z) : res Window :=
  match fuel with
  | O => Fuel
  | S fuel' =>
      if rem >? 0 then
        let chunk := Z.min rem (win_size e - win_pos e) in
        l ← store (win_bytes e) (win_pos e) (replicate (Z.to_nat chunk) 0);
        zero_fill fuel' (advance (set_bytes e l) chunk) (rem - chunk)
      else Ok e
  end.

(** The doubling of a short period: [done] bytes of the run are in place. *)
Fixpoint double_run (fuel : nat) (size pos : Z) (l : list Z) (done remaining : Z) : res (list Z * Z) :=
  match fuel with
  | O => Fuel
  | S fuel' =>
      if remaining >? 0 then
        let step := Z.min done remaining in
        let step := if step >? size - (pos + done) then size - (pos + done) else step in
        if step =? 0 then Ok (l, done)
        else
          l ← memmove_self l (pos + done) pos step;
          double_run fuel' size pos l (done + step) (remaining - step)
      else Ok (l, done)
  end.

Fixpoint copy_loop (fuel : nat) (e : Window) (src distance length : Z) : res Window :=
  match fuel with
  | O => Fuel
  | S fuel' =>
      if length >? 0 then
        let pos := win_pos e in
        let chunk := length in
        let chunk := if chunk >? win_size e - pos then win_size e - pos else chunk in
        let chunk := if chunk >? win_size e - src then win_size e - src else chunk in
        let gap_now := if src <? pos then pos - src else src - pos in
        let chunk := if chunk >? gap_now then gap_now else chunk in
        l ← memcpy_self (win_bytes e) pos src chunk;
        '(l, chunk) ← (if (chunk <? length) && (chunk >=? distance)
                       then double_run (S (Z.to_nat length)) (win_size e) pos l chunk (length - chunk)
                       else Ok (l, chunk));
        let e' := advance (set_bytes e l) chunk in
        copy_loop fuel' e' (wrap_up e (src + chunk)) distance (length - chunk)
      else Ok e
  end.

(** The copy, once the storage holds the positions it writes. *)
Definition copy_reserved (e : Window) (distance length : Z) : res Window :=
  let src := wrap_up e (win_pos e + win_size e - distance) in
  if (distance >? win_pos e) && negb (first_win_done e) then
    zero_fill (S (Z.to_nat length)) e length
  else if src =? win_pos e then Ok (advance e length)
  else if (distance =? 1) && (win_pos e + length <=? win_size e) then
    c ← byte_at (win_bytes e) src;
    l ← store (win_bytes e) (win_pos e) (replicate (Z.to_nat length) c);
    mret (advance (set_bytes e l) length)
  else
    let gap := if src <? win_pos e then win_pos e - src else src - win_pos e in
    if (src + length <=? win_size e) && (win_pos e + length <=? win_size e) && (gap >=? length) then
      l ← memcpy_self (win_bytes e) (win_pos e) src length;
      mret (advance (set_bytes e l) length)
    else copy_loop (S (Z.to_nat length)) e src distance length.

Definition copy_match (e : Window) (distance length : Z) : res (bool * Window) :=
  if (distance =? 0) || (distance >? win_size e) then Ok (true, e)
  else
    let '(ok, e) := reserve e length in
    if negb ok then Ok (false, e)
    else e ← copy_reserved e distance length; mret (true, e).
(** What the flush reads: [window_[circ_start ..]], at most [n] bytes and at
    most up to the end of the ring, and [window_[0 .. n)]. *)
Definition window_run (e : Window) (back n : Z) : res (list Z) :=
  let circ_start := (win_pos e + win_size e - back) mod win_size e in
  slice (win_bytes e) circ_start (Z.min n (win_size e - circ_start)).

Definition window_start (e : Window) (n : Z) : res (list Z) := slice (win_bytes e) 0 n.
End window.

(** ** The interface the decoder is written against *)

Class Dictionary (W : Type) := {
  dict_size : W -> Z;
  dict_alloc : W -> bool * W;
  dict_reset : W -> W;
  dict_literal : W -> Z -> res (bool * W);
  dict_match : W -> Z -> Z -> res (bool * W);
  dict_run : W -> Z -> Z -> res (list Z);
  dict_start : W -> Z -> res (list Z)
}.

Definition flush_cadence {W} `{Dictionary W} (w : W) : Z := Z.min 65536 (dict_size w / 2).

#[export] Instance Window_dictionary `{Memory} : Dictionary Window := {
  dict_size := win_size;
  dict_alloc := ensure_window_alloc;
  dict_reset := reset_window;
  dict_literal := write_literal;
  dict_match := copy_match;
  dict_run := window_run;
  dict_start := window_start
}.

(** ** Specification: the history of bytes written *)

(** Append one byte at a time, [d] back. *)
Fixpoint lz_copy (n : nat) (d : Z) (hist : list Z) : list Z :=
  match n with
  | O => hist
  | S n' => lz_copy n' d (hist ++ [nthZ hist (zlen hist - d)])
  end.

(** A reference past the first byte of the history reads zeros. *)
Definition lz_match (d length : Z) (hist : list Z) : list Z :=
  if zlen hist <? d then hist ++ replicate (Z.to_nat length) 0 else lz_copy (Z.to_nat length) d hist.

Record History := { h_size : Z; h_ready : bool; h_bytes : list Z }.

Definition h_set (h : History) (l : list Z) : History :=
  {| h_size := h_size h; h_ready := h_ready h; h_bytes := l |}.

(** Memory never runs out here; an operation outside its contract is [Fault]. *)
#[export] Instance History_dictionary : Dictionary History := {
  dict_size := h_size;
  dict_alloc h := (true, {| h_size := h_size h; h_ready := true; h_bytes := h_bytes h |});
  dict_reset h := h_set h [];
  dict_literal h slot := if h_ready h then Ok (true, h_set h (h_bytes h ++ [u8 slot])) else Fault;
  dict_match h d length :=
    if h_ready h && (1 <=? d) && (d <=? h_size h) && (1 <=? length) && (length <=? h_size h)
    then Ok (true, h_set h (lz_match d length (h_bytes h)))
    else Fault;
  dict_run h back n :=
    let back := if back =? 0 then h_size h else back in
    if h_ready h && (1 <=? n) && (n <=? back) && (back <=? h_size h)
    then slice (h_bytes h) (zlen (h_bytes h) - back) n
    else Fault;
  dict_start h n := Fault
}.

(** ** Sequences of operations *)

Inductive dict_op := OpReset | OpLiteral (slot : Z) | OpMatch (distance length : Z).

Definition dict_op_ok (size : Z) (o : dict_op) : Prop :=
  match o with
  | OpMatch d n => 1 <= d <= size /\ 1 <= n <= size
  | _ => True
  end.

Definition dict_step {W} `{Dictionary W} (w : W) (o : dict_op) : res (bool * W) :=
  match o with
  | OpReset => Ok (true, dict_reset w)
  | OpLiteral slot => dict_literal w slot
  | OpMatch d n => dict_match w d n
  end.

(** Stops at the first operation that finds no memory; counts those done. *)
Fixpoint dict_steps {W} `{Dictionary W} (w : W) (ops : list dict_op) : res (nat * W) :=
  match ops with
  | [] => Ok (O, w)
  | o :: ops' =>
      '(ok, w) ← dict_step w o;
      if negb ok then Ok (O, w) else '(n, w) ← dict_steps w ops'; mret (S n, w)
  end.

Definition replay_op (hist : list Z) (o : dict_op) : list Z :=
  match o with
  | OpReset => []
  | OpLiteral slot => hist ++ [u8 slot]
  | OpMatch d n => lz_match d n hist
  end.

Definition replay (ops : list dict_op) : list Z := fold_left replay_op ops [].

(** The last [n] bytes written, read the way the flush reads them. *)
Definition dict_region {W} `{Dictionary W} (w : W) (back len : Z) : res (list Z) :=
  head ← dict_run w back len;
  if zlen head <? len then
    tail ← dict_start w (len - zlen head);
    mret (head ++ tail)
  else mret head.

Class DictionaryLaws (W : Type) `{Dictionary W} := {
  dict_abs : W -> History -> Prop;
  dict_grants : Prop;
  dict_range_law : forall w h, dict_abs w h -> 65536 <= h_size h < 2 ^ 62 /\ bytes (h_bytes h);
  dict_size_law : forall w h, dict_abs w h -> dict_size w = h_size h;
  dict_alloc_law : forall w h, dict_abs w h ->
    let '(ok, w') := dict_alloc w in
    dict_abs w' (if ok : bool then {| h_size := h_size h; h_ready := true; h_bytes := h_bytes h |} else h) /\
    (dict_grants -> ok = true);
  dict_reset_law : forall w h, dict_abs w h -> dict_abs (dict_reset w) (h_set h []);
  dict_literal_law : forall w h slot h', dict_abs w h -> dict_literal h slot = Ok (true, h') ->
    exists ok w', dict_literal w slot = Ok (ok, w') /\ dict_abs w' (if ok : bool then h' else h) /\
      (dict_grants -> ok = true);
  dict_match_law : forall w h d length h', dict_abs w h -> dict_match h d length = Ok (true, h') ->
    exists ok w', dict_match w d length = Ok (ok, w') /\ dict_abs w' (if ok : bool then h' else h) /\
      (dict_grants -> ok = true);
  (* a run of the history is read in at most two pieces *)
  dict_run_law : forall w h back n x, dict_abs w h -> dict_run h back n = Ok x -> 0 <= back < h_size h ->
    exists y z, dict_run w back n = Ok y /\ x = y ++ z /\ 1 <= zlen y /\
      (z = [] \/ dict_start w (zlen z) = Ok z)
}.

(** ** Positions modulo the window *)

Lemma mod_neq m a b : 0 < b - a < m -> a mod m <> b mod m.
Proof.
  intros Hab E. pose proof (Z.div_mod a m ltac:(lia)). pose proof (Z.div_mod b m ltac:(lia)).
  assert (m * (b / m - a / m) = b - a) by lia. assert (b / m - a / m = 0 \/ 1 <= b / m - a / m \/ b / m - a / m <= -1) by lia.
  nia.
Qed.

Lemma mod_shift m p k : 0 < m -> 0 <= k -> p mod m + k < m -> (p + k) mod m = p mod m + k.
Proof.
  intros Hm Hk Hlt. pose proof (Z.mod_pos_bound p m Hm). rewrite <- (Z.mod_small (p mod m + k) m) by lia.
  by rewrite Zplus_mod_idemp_l.
Qed.

Lemma mod_once m p : 0 < m -> 0 <= p < 2 * m -> p mod m = if p >=? m then p - m else p.
Proof.
  intros Hm Hp. rewrite Z.geb_leb. destruct (Z.leb_spec m p); [|apply Z.mod_small; lia].
  symmetry. apply (Z.mod_unique_pos _ _ 1); lia.
Qed.

(** ** The ring and its history *)

Section ring.
Context `{MemoryLaws}.
Implicit Types (e : Window) (hist new : list Z).

Record ring e hist : Prop := {
  rg_size : 65536 <= win_size e < 2 ^ 62;
  rg_mask : win_mask e = win_size e - 1;
  rg_pow2 : win_pow2 e = (Z.land (win_size e) (win_size e - 1) =? 0);
  rg_cap : win_cap e = zlen (win_bytes e);
  rg_le : win_cap e <= win_size e;
  rg_used : Z.min (zlen hist) (win_size e) <= win_cap e;
  rg_pos : win_pos e = zlen hist mod win_size e;
  rg_first : first_win_done e = (win_size e <=? zlen hist);
  rg_bytes : bytes (win_bytes e) /\ bytes hist;
  rg_content : forall k, 0 <= k -> zlen hist - win_size e <= k < zlen hist ->
    nthZ (win_bytes e) (k mod win_size e) = nthZ hist k;
  rg_storage : window_ready e = true /\ 0 < win_cap e /\
    (wb_vm (win_buf e) = true -> wb_reserved (win_buf e) = win_size e /\ win_cap e <= wb_committed (win_buf e))
}.

Lemma wrap_up_mod e hist p : ring e hist -> 0 <= p < 2 * win_size e -> wrap_up e p = p mod win_size e.
Proof.
  intros R Hp. destruct R. unfold wrap_up. rewrite rg_pow3. destruct (Z.eqb_spec (Z.land (win_size e) (win_size e - 1)) 0) as [E|E].
  - pose proof (land_pred_pow2 (win_size e) ltac:(lia) E) as P. rewrite rg_mask0. rewrite P.
    pose proof (Z.log2_nonneg (win_size e)). rewrite Z.sub_1_r, <- Z.ones_equiv. apply Z.land_ones. lia.
  - symmetry. apply mod_once; lia.
Qed.

Lemma ring_pos_range e hist : ring e hist -> 0 <= win_pos e < win_size e.
Proof. intros R. rewrite (rg_pos e hist R). apply Z.mod_pos_bound. destruct R. lia. Qed.

Lemma ring_unwrapped e hist : ring e hist -> win_cap e < win_size e -> zlen hist <= win_cap e /\ win_pos e = zlen hist.
Proof.
  intros R Hc. destruct R. rewrite rg_pos0. split; [lia|]. apply Z.mod_small. zlen_lia.
Qed.

(** Writing at the cursor, up to the end of the ring. *)
Lemma ring_write e hist new :
  ring e hist -> bytes new -> 1 <= zlen new -> win_pos e + zlen new <= win_cap e ->
  exists l, store (win_bytes e) (win_pos e) new = Ok l /\
    ring (advance (set_bytes e l) (zlen new)) (hist ++ new).
Proof.
  intros R Hb Hn Hc. pose proof (ring_pos_range e hist R) as Hp.
  destruct (store_get (win_bytes e) (win_pos e) new) as (l & E & Ll & HL);
    [lia|rewrite <- (rg_cap e hist R); done|]. exists l. split; [done|].
  pose proof (rg_size e hist R) as Hs. pose proof (rg_le e hist R) as Hle. pose proof (zlen_nonneg hist) as Hh.
  assert (Ep : wrap_up (set_bytes e l) (win_pos e + zlen new) = (zlen hist + zlen new) mod win_size e).
  { change (wrap_up (set_bytes e l)) with (wrap_up e). rewrite (wrap_up_mod e hist) by (done || lia).
    rewrite (rg_pos e hist R). apply Zplus_mod_idemp_l. }
  unfold advance. change (win_pos (set_bytes e l)) with (win_pos e). rewrite Ep.
  assert (Bl : bytes l) by (apply (store_bytes (win_bytes e) (win_pos e) new l); [apply (proj1 (rg_bytes e hist R))|done|done]).
  pose proof (rg_pos e hist R) as Epos.
  assert (Hfirst : (if (zlen hist + zlen new) mod win_size e =? 0 then true else first_win_done e) =
     (win_size e <=? zlen hist + zlen new)).
  { rewrite (rg_first e hist R). destruct (Z.eqb_spec ((zlen hist + zlen new) mod win_size e) 0) as [E0|E0].
    - symmetry. apply Z.leb_le. destruct (Z.le_gt_cases (win_size e) (zlen hist + zlen new)); [done|].
      rewrite Z.mod_small in E0 by lia. lia.
    - destruct (Z.leb_spec (win_size e) (zlen hist)), (Z.leb_spec (win_size e) (zlen hist + zlen new)); try done; [lia|].
      exfalso. rewrite Z.mod_small in Epos by lia. replace (zlen hist + zlen new) with (win_size e) in E0 by lia.
      by rewrite Z.mod_same in E0 by lia. }
  destruct R as [R1 R2 R3 R4 R5 R6 R7 R8 [R9 R9'] R10 [R11 [R12 R13]]].
  split; cbn [set_pos set_bytes set_buf win_size win_mask win_pow2 win_buf win_cap win_pos first_win_done window_ready
              win_bytes wb_set wb_bytes wb_vm wb_reserved wb_committed]; rewrite ?zlen_app; try done.
  - unfold win_bytes. cbn [set_pos set_bytes set_buf win_buf wb_set wb_bytes]. by rewrite Ll.
  - destruct (Z.le_gt_cases (win_size e) (zlen hist)); [lia|]. rewrite Z.mod_small in R7 by lia. lia.
  - split; [done|by apply Forall_app_2].
  - intros k Hk Hr. change (win_bytes (set_pos _ _ _)) with l. pose proof (Z.mod_pos_bound k (win_size e) ltac:(lia)).
    rewrite HL, nthZ_app by lia. destruct (Z.ltb_spec k (zlen hist)) as [Hold|Hnew].
    + rewrite R10 by lia.
      destruct (Z.leb_spec (win_pos e) (k mod win_size e)), (Z.ltb_spec (k mod win_size e) (win_pos e + zlen new)); try done.
      exfalso. apply (mod_neq (win_size e) k (zlen hist + (k mod win_size e - win_pos e))); [lia|].
      rewrite mod_shift by lia. lia.
    + replace (k mod win_size e) with (win_pos e + (k - zlen hist)).
      * rewrite (proj2 (Z.leb_le _ _)), (proj2 (Z.ltb_lt _ _)) by lia. cbn [andb]. f_equal. lia.
      * replace k with (zlen hist + (k - zlen hist)) at 2 by lia. rewrite mod_shift by lia. lia.
Qed.

(** *** Growth *)

Lemma zlen_extend l n : zlen l <= n -> zlen (extend l n) = n.
Proof.
  intros Hn. unfold extend. rewrite zlen_app, zlen_map. unfold zlen at 2. rewrite length_seqZ.
  pose proof (zlen_nonneg l). lia.
Qed.

Lemma nthZ_extend l n i : 0 <= i < zlen l -> nthZ (extend l n) i = nthZ l i.
Proof. intros Hi. unfold extend. rewrite nthZ_app, (proj2 (Z.ltb_lt _ _)) by lia. done. Qed.

Lemma bytes_extend l n : bytes l -> bytes (extend l n).
Proof.
  intros Hl. apply Forall_app_2; [done|]. apply List.Forall_forall. intros x Hx.
  apply in_map_iff in Hx as (i & <- & _). apply fresh_is_byte.
Qed.

(** A successful growth: the storage is extended to exactly the bytes asked for. *)
Lemma wb_grow_to_spec w n :
  (wb_vm w = true -> n <= wb_reserved w /\ wb_size w <= wb_committed w) ->
  let '(ok, w') := wb_grow_to w n in
  wb_vm w' = wb_vm w /\ wb_reserved w' = wb_reserved w /\
  if ok then wb_bytes w' = (if n <=? wb_size w then wb_bytes w else extend (wb_bytes w) n) /\
             (wb_vm w = true -> wb_size w' <= wb_committed w')
  else w' = w.
Proof.
  intros Hv. unfold wb_grow_to. destruct (Z.leb_spec n (wb_size w)) as [Hn|Hn].
  { split; [done|]. split; [done|]. split; [done|]. intros Hvm. by apply Hv. }
  destruct (wb_vm w) eqn:Evm; cbn [negb].
  - destruct (Hv eq_refl) as [Hr Hc]. rewrite !Z.gtb_ltb, (proj2 (Z.ltb_ge (wb_reserved w) n)) by lia.
    destruct (Z.ltb_spec (wb_committed w) n) as [Hcn|Hcn].
    + destruct (vm_commit _ _); [|done]. cbn [wb_vm wb_reserved wb_bytes wb_committed].
      split; [done|]. split; [done|]. split; [done|]. intros _. unfold wb_size. cbn [wb_bytes].
      rewrite zlen_extend by (unfold wb_size in Hn; lia). unfold WINDOW_COMMIT_GRANULE.
      change (Z.shiftl 1 20) with 1048576. destruct (Z.ltb_spec (wb_reserved w) ((n + 1048576 - 1) / 1048576 * 1048576)); [lia|dlia].
    + cbn [wb_set wb_vm wb_reserved wb_bytes wb_committed]. split; [done|]. split; [done|]. split; [done|]. intros _.
      unfold wb_size. cbn [wb_set wb_bytes]. rewrite zlen_extend by (unfold wb_size in Hn; lia). lia.
  - destruct (vec_resize n); [|done]. cbn [wb_set wb_vm wb_reserved wb_bytes]. done.
Qed.

Lemma ring_extend e hist b :
  ring e hist -> win_cap e < win_size e -> win_cap e <= wb_size b <= win_size e ->
  wb_bytes b = (if wb_size b <=? win_cap e then win_bytes e else extend (win_bytes e) (wb_size b)) ->
  (wb_vm b = true -> wb_reserved b = win_size e /\ wb_size b <= wb_committed b) ->
  ring (set_buf e b (wb_size b) (window_ready e)) hist.
Proof.
  intros R Hlt Hb Eb Hvm. destruct (ring_unwrapped e hist R Hlt) as [Hh Hp]. destruct R.
  split; cbn [set_buf win_size win_mask win_pow2 win_buf win_cap win_pos first_win_done window_ready win_bytes]; try done; try lia.
  - unfold win_bytes at 1. cbn [set_buf win_buf]. rewrite Eb. destruct (wb_size b <=? win_cap e); [apply rg_bytes0|].
    split; [by apply bytes_extend, rg_bytes0|apply rg_bytes0].
  - intros k Hk Hr. rewrite <- rg_content0 by done. unfold win_bytes at 1. cbn [set_buf win_buf]. rewrite Eb.
    destruct (wb_size b <=? win_cap e); [done|]. apply nthZ_extend. rewrite Z.mod_small by lia. rewrite <- rg_cap0. lia.
  - split; [apply rg_storage0|]. split; [lia|done].
Qed.

Lemma ring_grow e hist n :
  ring e hist -> 1 <= n ->
  let '(ok, e') := grow e n in
  ring e' hist /\ win_size e' = win_size e /\ win_pos e' = win_pos e /\
  (ok = true -> win_cap e' = win_size e \/ win_pos e + n <= win_cap e').
Proof.
  intros R Hn. unfold grow. destruct (Z.eqb_spec (win_cap e) (win_size e)) as [Ec|Ec]; [by auto|].
  assert (Hlt : win_cap e < win_size e) by (pose proof (rg_le e hist R); lia).
  pose proof (ring_pos_range e hist R) as Hp. set (need := if n >=? win_size e - win_pos e then _ else _).
  assert (Hneed : need <= win_size e /\ (need = win_size e \/ need = win_pos e + n)).
  { subst need. rewrite Z.geb_leb. destruct (Z.leb_spec (win_size e - win_pos e) n); lia. }
  destruct (Z.leb_spec need (win_cap e)) as [Hle|Hgt]; [split; [done|]; split; [done|]; split; [done|]; lia|].
  set (next0 := if win_cap e >? win_size e / 2 then _ else _). set (next := if next0 >? win_size e then win_size e else next0).
  assert (Hnext : need <= next <= win_size e).
  { subst next next0. rewrite !Z.gtb_ltb. destruct (Z.ltb_spec (win_size e / 2) (win_cap e)).
    - rewrite Z.ltb_irrefl. lia.
    - destruct (Z.ltb_spec (win_size e) (Z.max (win_cap e * 2) need)); lia. }
  pose proof (rg_cap e hist R) as Ecap. fold (wb_size (win_buf e)) in Ecap.
  pose proof (wb_grow_to_spec (win_buf e) next) as G. destruct (wb_grow_to (win_buf e) next) as [ok b].
  destruct (rg_storage e hist R) as (_ & _ & Hvm).
  destruct G as (G1 & G2 & G3); [intros V; specialize (Hvm V); unfold win_bytes, wb_size in *; lia|].
  change (zlen (win_bytes e)) with (wb_size (win_buf e)) in Ecap.
  destruct ok; cbn [negb].
  - destruct G3 as [G3 G4]. rewrite (proj2 (Z.leb_gt next _)) in G3 by lia.
    assert (Sb : wb_size b = next) by (unfold wb_size; rewrite G3; apply zlen_extend; unfold wb_size in Ecap; lia).
    split; [|split; [done|split; [done|intros _; cbn [set_buf win_cap]; lia]]].
    apply ring_extend; [done|done|lia| |].
    + rewrite (proj2 (Z.leb_gt _ _)) by lia. by rewrite G3, Sb.
    + intros V. rewrite G1 in V. split; [rewrite G2; by apply Hvm|by apply G4].
  - subst b. split; [|done]. destruct e. apply R.
Qed.

Lemma ring_reserve e hist n :
  ring e hist -> 1 <= n ->
  let '(ok, e') := reserve e n in
  ring e' hist /\ win_size e' = win_size e /\ win_pos e' = win_pos e /\
  (ok = true -> win_cap e' = win_size e \/ win_pos e + n <= win_cap e').
Proof.
  intros R Hn. unfold reserve. destruct (Z.eqb_spec (win_cap e) (win_size e)); cbn [orb]; [by auto|].
  destruct (Z.leb_spec n (win_cap e - win_pos e)); [|by apply ring_grow]. split; [done|]. split; [done|]. split; [done|]. lia.
Qed.

(** With memory granted, growth succeeds. *)
Lemma wb_grow_to_grants w n :
  memory_grants -> (wb_vm w = true -> n <= wb_reserved w) -> (wb_grow_to w n).1 = true.
Proof.
  intros (M1 & M2 & M3) Hv. unfold wb_grow_to. destruct (_ <=? _); [done|]. destruct (wb_vm w) eqn:V; cbn [negb].
  - rewrite Z.gtb_ltb, (proj2 (Z.ltb_ge _ _)) by (by apply Hv). destruct (_ >? _); [|done]. by rewrite M2.
  - by rewrite M3.
Qed.

Lemma reserve_grants e hist n : ring e hist -> memory_grants -> (reserve e n).1 = true /\ (grow e n).1 = true.
Proof.
  intros R M. assert (G : (grow e n).1 = true).
  { unfold grow. destruct (win_cap e =? win_size e); [done|]. destruct (_ <=? win_cap e); [done|].
    set (next := if _ >? win_size e then win_size e else _).
    pose proof (wb_grow_to_grants (win_buf e) next M) as W. destruct (wb_grow_to (win_buf e) next) as [ok b].
    cbn [fst] in W. rewrite W; [done|]. intros V. destruct (rg_storage e hist R) as (_ & _ & S). destruct (S V) as [-> _].
    subst next. rewrite Z.gtb_ltb. destruct (Z.ltb_spec (win_size e) (if win_cap e >? win_size e / 2 then win_size e else Z.max (win_cap e * 2) (if n >=? win_size e - win_pos e then win_size e else win_pos e + n))); lia. }
  split; [|done]. unfold reserve. by destruct (_ || _).
Qed.

Lemma ring_reset e hist : ring e hist -> ring (reset_window e) [].
Proof.
  intros R. destruct R. split; cbn [reset_window set_pos win_size win_mask win_pow2 win_buf win_cap win_pos first_win_done window_ready]; try done.
  - rewrite zlen_nil. lia.
  - rewrite zlen_nil. symmetry. apply Z.leb_gt. lia.
  - split; [apply rg_bytes0|constructor].
  - intros k Hk Hr. rewrite zlen_nil in Hr. lia.
Qed.

(** The first allocation. *)
Lemma ensure_window_alloc_spec size :
  size < 2 ^ 62 ->
  let '(ok, e) := ensure_window_alloc (win_init size) in
  win_size e = Z.max size 0x10000 /\ (ok = true -> ring e []) /\ (ok = false -> e = win_init size).
Proof.
  intros Hs. unfold ensure_window_alloc. cbn [win_init window_ready win_size orb].
  set (s := Z.max size 65536). rewrite (proj2 (Z.eqb_neq s 0)) by lia.
  destruct (wb_init s) as [ok b] eqn:Ei. destruct ok; cbn [negb]; [|done].
  assert (Hb : wb_bytes b = [] /\ (wb_vm b = true -> wb_reserved b = s /\ wb_committed b = 0)).
  { unfold wb_init in Ei. destruct (s >? WINDOW_VM_THRESHOLD); [destruct (vm_reserve s); [|discriminate]|]; by injection Ei as <-. }
  destruct Hb as [Hb Hvm]. pose proof (wb_grow_to_spec b (Z.min s INITIAL_WINDOW)) as G.
  destruct (wb_grow_to b (Z.min s INITIAL_WINDOW)) as [ok b']. assert (Sb : wb_size b = 0) by (unfold wb_size; by rewrite Hb).
  unfold INITIAL_WINDOW in *. destruct G as (G1 & G2 & G3); [intros V; destruct (Hvm V); lia|].
  destruct ok; cbn [negb]; [|done]. split; [done|]. split; [|done]. intros _.
  destruct G3 as [G3 G4]. rewrite (proj2 (Z.leb_gt _ _)) in G3 by lia. rewrite Hb in G3.
  assert (Sb' : wb_size b' = Z.min s (256 * 1024)) by (unfold wb_size; rewrite G3; apply zlen_extend; rewrite zlen_nil; lia).
  split; cbn [set_buf win_init win_size win_mask win_pow2 win_buf win_cap win_pos first_win_done window_ready]; try done; try lia.
  - rewrite zlen_nil. lia.
  - symmetry. apply Z.leb_gt. rewrite zlen_nil. fold s. lia.
  - split; [|constructor]. unfold win_bytes. cbn [set_buf win_buf]. rewrite G3. by apply bytes_extend.
  - intros k Hk Hr. rewrite zlen_nil in Hr. lia.
  - split; [done|]. split; [lia|]. intros V. rewrite G1 in V. destruct (Hvm V) as [V1 V2].
    split; [fold s; congruence|]. by apply G4.
Qed.

Lemma alloc_grants size : memory_grants -> (ensure_window_alloc (win_init size)).1 = true.
Proof.
  intros M. unfold ensure_window_alloc. cbn [win_init window_ready win_size orb]. destruct (Z.max size 65536 =? 0); [done|].
  set (s := Z.max size 65536).
  assert (Hi : exists b, wb_init s = (true, b) /\ (wb_vm b = true -> wb_reserved b = s)).
  { unfold wb_init. destruct (_ >? _); [|by exists wb_release]. rewrite (proj1 M). by eexists. }
  destruct Hi as (b & -> & Hr). pose proof (wb_grow_to_grants b (Z.min s INITIAL_WINDOW) M) as G.
  destruct (wb_grow_to b _) as [ok b']. cbn [fst] in G. rewrite G; [done|]. intros V. rewrite (Hr V). lia.
Qed.

(** *** Literals *)

Lemma write_literal_spec e hist slot :
  ring e hist ->
  exists ok e', write_literal e slot = Ok (ok, e') /\ win_size e' = win_size e /\
    ring e' (if ok : bool then hist ++ [u8 slot] else hist) /\ (memory_grants -> ok = true).
Proof.
  intros R. unfold write_literal. pose proof (ring_pos_range e hist R) as Hp.
  assert (HG : let '(ok, e1) := if win_pos e >=? win_cap e then grow e 1 else (true, e) in
     ring e1 hist /\ win_size e1 = win_size e /\ win_pos e1 = win_pos e /\ (ok = true -> win_pos e1 + 1 <= win_cap e1) /\
     (memory_grants -> ok = true)).
  { rewrite Z.geb_leb. destruct (Z.leb_spec (win_cap e) (win_pos e)).
    - pose proof (ring_grow e hist 1 R ltac:(lia)) as G. pose proof (fun M => proj2 (reserve_grants e hist 1 R M)) as GM.
      destruct (grow e 1) as [ok e1]. destruct G as (G1 & G2 & G3 & G4).
      split; [done|]. split; [done|]. split; [done|]. split; [|done]. intros E. specialize (G4 E). lia.
    - split; [done|]. split; [done|]. split; [done|]. split; [lia|done]. }
  destruct (if win_pos e >=? win_cap e then grow e 1 else (true, e)) as [ok e1].
  destruct HG as (R1 & Hs & Hpos & Hcap & HM). destruct ok; cbn [negb]; [|by exists false, e1].
  assert (Hb : bytes [u8 slot]) by (apply Forall_cons_2; [by apply (wrap_range 8)|constructor]).
  destruct (ring_write e1 hist [u8 slot] R1 Hb) as (l & E & R2); [done|by apply Hcap|].
  rewrite E, bind_ok. by exists true, (advance (set_bytes e1 l) 1).
Qed.

(** *** Matches *)

(** [new] continues [hist] with period [d]. *)
Definition lz_tail hist (d : Z) new : Prop :=
  forall i, 0 <= i < zlen new -> nthZ (hist ++ new) (zlen hist + i) = nthZ (hist ++ new) (zlen hist + i - d).

Lemma nthZ_app_l a b i : 0 <= i < zlen a -> nthZ (a ++ b) i = nthZ a i.
Proof. intros Hi. rewrite nthZ_app, (proj2 (Z.ltb_lt _ _)) by lia. done. Qed.

Lemma nthZ_app_r a b i : 0 <= i -> nthZ (a ++ b) (zlen a + i) = nthZ b i.
Proof. intros Hi. rewrite nthZ_app, (proj2 (Z.ltb_ge _ _)) by zlen_lia. f_equal. lia. Qed.

Lemma lz_tail_app hist d n1 n2 : lz_tail hist d n1 -> lz_tail (hist ++ n1) d n2 -> 1 <= d <= zlen hist -> lz_tail hist d (n1 ++ n2).
Proof.
  intros H1 H2 Hd i Hi. rewrite zlen_app in Hi. rewrite app_assoc.
  destruct (Z.lt_ge_cases i (zlen n1)) as [Hl|Hg].
  - rewrite !(nthZ_app_l (hist ++ n1)) by zlen_lia. apply H1. lia.
  - specialize (H2 (i - zlen n1) ltac:(lia)). rewrite zlen_app in H2.
    replace (zlen hist + zlen n1 + (i - zlen n1)) with (zlen hist + i) in H2 by lia. done.
Qed.

Lemma lz_tail_short hist d new :
  (forall i, 0 <= i < zlen new -> nthZ new i = nthZ hist (zlen hist - d + i)) -> zlen new <= d <= zlen hist -> lz_tail hist d new.
Proof.
  intros Hn Hd i Hi. rewrite nthZ_app_r by lia. rewrite (nthZ_app_l hist) by lia. rewrite Hn by done. f_equal. lia.
Qed.

Lemma lz_tail_period hist d new j t :
  lz_tail hist d new -> 1 <= d <= zlen hist -> 0 <= j -> 0 <= t -> j + t * d < zlen new -> nthZ new (j + t * d) = nthZ new j.
Proof.
  intros HT Hd Hj Ht. revert Ht. apply (natlike_ind (fun t => j + t * d < zlen new -> nthZ new (j + t * d) = nthZ new j));
    [intros _; f_equal; lia|]. intros u Hu IH Hlt. rewrite <- IH by nia.
  specialize (HT (j + Z.succ u * d) ltac:(nia)). rewrite nthZ_app_r in HT by nia. rewrite HT.
  replace (zlen hist + (j + Z.succ u * d) - d) with (zlen hist + (j + u * d)) by lia. apply nthZ_app_r. nia.
Qed.

(** Repeating a prefix behind a whole number of periods keeps the period. *)
Lemma lz_tail_repeat hist d new x q :
  lz_tail hist d new -> 1 <= d <= zlen hist -> zlen new = q * d -> 1 <= q -> zlen x <= zlen new ->
  (forall j, 0 <= j < zlen x -> nthZ x j = nthZ new j) -> lz_tail hist d (new ++ x).
Proof.
  intros HT Hd Hq Hq1 Hx HX. apply lz_tail_app; [done| |done]. intros j Hj. rewrite zlen_app.
  rewrite <- zlen_app, nthZ_app_r by lia. rewrite HX by done.
  destruct (Z.lt_ge_cases j d) as [Hjd|Hjd].
  - rewrite (nthZ_app_l (hist ++ new)) by (rewrite zlen_app; nia).
    rewrite zlen_app. replace (zlen hist + zlen new + j - d) with (zlen hist + (j + (q - 1) * d)) by nia.
    rewrite nthZ_app_r by nia. symmetry. apply (lz_tail_period hist); [done|done|lia|lia|nia].
  - replace (zlen (hist ++ new) + j - d) with (zlen (hist ++ new) + (j - d)) by lia.
    rewrite nthZ_app_r, HX by lia. pose proof (lz_tail_period hist d new (j - d) 1 HT Hd) as P.
    replace (j - d + 1 * d) with j in P by lia. apply P; lia.
Qed.

Lemma store_app w pos a b l :
  store w pos a = Ok l -> 0 <= pos -> pos + zlen a + zlen b <= zlen w ->
  exists l', store l (pos + zlen a) b = Ok l' /\ store w pos (a ++ b) = Ok l'.
Proof.
  intros E Hp Hb. pose proof (store_seq w pos a b Hp Hb) as S. rewrite E, bind_ok in S.
  destruct (store_read w pos a l E) as (_ & _ & Ll).
  destruct (store_get l (pos + zlen a) b) as (l' & E' & _); [zlen_lia|lia|]. exists l'. by rewrite <- S.
Qed.

Lemma double_run_spec f w pos size hist d new l total :
  store w pos new = Ok l -> lz_tail hist d new -> 1 <= d <= zlen hist -> 0 <= pos -> 1 <= zlen new <= total ->
  pos + zlen new <= size -> size <= zlen w \/ pos + total <= zlen w ->
  (exists q, 1 <= q /\ zlen new = q * d) \/ zlen new = total \/ pos + zlen new = size ->
  total - zlen new < Z.of_nat f ->
  exists l' x, double_run f size pos l (zlen new) (total - zlen new) = Ok (l', zlen (new ++ x)) /\
    store w pos (new ++ x) = Ok l' /\ lz_tail hist d (new ++ x) /\ zlen (new ++ x) <= total /\ pos + zlen (new ++ x) <= size /\
    (bytes new -> bytes x).
Proof.
  revert new l. induction f as [|f IH]; intros new l E HT Hd Hp Hn Hs Hw HQ Hf; [lia|]. cbn [double_run].
  assert (Hstop : exists l' x, Ok (l, zlen new) = Ok (l', zlen (new ++ x)) /\
    store w pos (new ++ x) = Ok l' /\ lz_tail hist d (new ++ x) /\ zlen (new ++ x) <= total /\ pos + zlen (new ++ x) <= size /\
    (bytes new -> bytes x)).
  { exists l, []. rewrite app_nil_r. repeat split; try done; lia. }
  rewrite Z.gtb_ltb. destruct (Z.ltb_spec 0 (total - zlen new)) as [Hr|Hr]; [|done].
  rewrite Z.gtb_ltb. set (step := if size - (pos + zlen new) <? Z.min (zlen new) (total - zlen new) then _ else _).
  assert (Hstep : step = Z.min (size - (pos + zlen new)) (Z.min (zlen new) (total - zlen new))).
  { subst step. destruct (Z.ltb_spec (size - (pos + zlen new)) (Z.min (zlen new) (total - zlen new))); lia. }
  clearbody step. destruct (Z.eqb_spec step 0) as [E0|E0]; [done|]. destruct HQ as [(q & Hq & Eq)|[|]]; [|lia|lia].
  set (x := take (Z.to_nat step) new). assert (Lx : zlen x = step) by (apply zlen_take; lia).
  destruct (store_read w pos new l E) as (_ & V & Ll).
  assert (Es : slice l pos step = Ok x).
  { rewrite <- Lx. apply (slice_view l pos x (drop (Z.to_nat step) new ++ view w (pos + zlen new))); [lia|].
    rewrite V, app_assoc. subst x. by rewrite take_drop. }
  unfold memmove_self. rewrite Es, bind_ok.
  destruct (store_app w pos new x l E Hp) as (l' & E1 & E2); [lia|]. rewrite E1, bind_ok.
  assert (HT' : lz_tail hist d (new ++ x)).
  { apply (lz_tail_repeat hist d new x q); try done; [lia|]. intros j Hj. subst x. apply nthZ_take. lia. }
  replace (zlen new + step) with (zlen (new ++ x)) by (rewrite zlen_app; lia).
  replace (total - zlen new - step) with (total - zlen (new ++ x)) by (rewrite zlen_app; lia).
  destruct (IH (new ++ x) l') as (l2 & y & A1 & A2 & A3 & A4 & A5 & A6); try done; try (rewrite zlen_app; lia).
  { rewrite !zlen_app. destruct (Z.eq_dec step (zlen new)) as [Ez|Ez]; [left; exists (2 * q); lia|right; lia]. }
  exists l2, (x ++ y). rewrite app_assoc. split; [done|]. split; [done|]. split; [done|]. split; [done|]. split; [done|].
  intros Hb. apply Forall_app_2; [by apply bytes_take|apply A6]. apply Forall_app_2; [done|by apply bytes_take].
Qed.

(** The bytes of the window from a position within the history. *)
Lemma ring_slice e hist src n start :
  ring e hist -> 0 <= start -> zlen hist - win_size e <= start -> 0 <= n -> start + n <= zlen hist ->
  src = start mod win_size e -> src + n <= win_size e -> src + n <= win_cap e ->
  exists x, slice (win_bytes e) src n = Ok x /\ zlen x = n /\ bytes x /\
    forall i, 0 <= i < n -> nthZ x i = nthZ hist (start + i).
Proof.
  intros R Hst Hlo Hn Hhi Es Hw Hc. pose proof (rg_size e hist R) as Hs.
  pose proof (Z.mod_pos_bound start (win_size e) ltac:(lia)) as Hm. rewrite <- Es in Hm.
  exists (take (Z.to_nat n) (view (win_bytes e) src)). unfold slice. rewrite <- (rg_cap e hist R).
  rewrite !(proj2 (Z.leb_le _ _)) by lia. cbn [andb]. split; [done|]. split.
  { apply zlen_take. rewrite zlen_view; rewrite <- ?(rg_cap e hist R); lia. }
  split; [apply bytes_take, bytes_view, (proj1 (rg_bytes e hist R))|]. intros i Hi.
  rewrite nthZ_take, nthZ_view by lia. rewrite <- (rg_content e hist R) by lia. f_equal.
  rewrite mod_shift by lia. by rewrite Es.
Qed.

(** [memcpy] of [n] bytes [d] back, the ranges apart: the history grows by them. *)
Lemma copy_chunk e hist d n :
  ring e hist -> 1 <= d < win_size e -> d <= zlen hist ->
  let src := (zlen hist - d) mod win_size e in
  let pos := win_pos e in
  1 <= n -> n <= win_size e - pos -> n <= win_size e - src ->
  n <= (if src <? pos then pos - src else src - pos) -> pos + n <= win_cap e ->
  exists x l, memcpy_self (win_bytes e) pos src n = Ok l /\ store (win_bytes e) pos x = Ok l /\ zlen x = n /\
    bytes x /\ lz_tail hist d x /\ n <= d /\ (src > pos -> n <= d - pos).
Proof.
  intros R Hd Hdh. cbv zeta. intros Hn Hpos Hsrc Hgap Hcap. pose proof (rg_size e hist R) as Hs.
  pose proof (ring_pos_range e hist R) as Hp. pose proof (rg_pos e hist R) as Epos.
  set (src := (zlen hist - d) mod win_size e) in *. set (pos := win_pos e) in *.
  pose proof (Z.mod_pos_bound (zlen hist - d) (win_size e) ltac:(lia)) as Hm. fold src in Hm.
  (* where the source lies *)
  assert (Hrel : src = pos - d \/ src = pos + win_size e - d).
  { subst src. replace (zlen hist - d) with ((zlen hist + win_size e - d) + (-1) * win_size e) by lia.
    rewrite Z.mod_add by lia. rewrite <- (Z.add_sub_assoc (zlen hist)), <- Zplus_mod_idemp_l, <- Epos.
    rewrite mod_once by lia. rewrite Z.geb_leb. destruct (Z.leb_spec (win_size e) (pos + (win_size e - d))); lia. }
  assert (Hnd : n <= d /\ (src > pos -> n <= d - pos)).
  { destruct (Z.ltb_spec src pos); lia. }
  assert (Hsc : src + n <= win_cap e).
  { destruct (Z.ltb_spec src pos); [lia|]. destruct (Z.eq_dec (win_cap e) (win_size e)); [lia|].
    pose proof (rg_le e hist R). destruct (ring_unwrapped e hist R ltac:(lia)) as [Hu1 Hu2]. fold pos in Hu2. lia. }
  destruct (ring_slice e hist src n (zlen hist - d)) as (x & Ex & Lx & Bx & Nx); try done; try lia.
  exists x. unfold memcpy_self. rewrite Ex, bind_ok.
  destruct (store_get (win_bytes e) pos x) as (l & El & _); [lia|rewrite <- (rg_cap e hist R), Lx; lia|].
  exists l. split; [|split; [done|split; [done|split; [done|split; [|done]]]]].
  - destruct (Z.ltb_spec 0 n), (Z.ltb_spec pos (src + n)), (Z.ltb_spec src (pos + n)); cbn [andb]; try done.
    destruct (Z.ltb_spec src pos); lia.
  - apply lz_tail_short; [rewrite Lx; intros i Hi; apply Nx; lia|lia].
Qed.

Lemma zero_fill_spec f e hist rem :
  ring e hist -> 0 <= rem -> (win_cap e = win_size e \/ win_pos e + rem <= win_cap e) -> rem < Z.of_nat f ->
  exists e', zero_fill f e rem = Ok e' /\ win_size e' = win_size e /\ ring e' (hist ++ replicate (Z.to_nat rem) 0).
Proof.
  revert e hist rem. induction f as [|f IH]; intros e hist rem R Hrem Hcap Hf; [lia|]. cbn [zero_fill].
  rewrite Z.gtb_ltb. destruct (Z.ltb_spec 0 rem) as [Hpos|]; [|exists e; replace rem with 0 by lia; by rewrite app_nil_r].
  pose proof (ring_pos_range e hist R) as Hp. pose proof (rg_le e hist R). set (chunk := Z.min rem (win_size e - win_pos e)).
  assert (Hb : bytes (replicate (Z.to_nat chunk) 0)) by (apply Forall_replicate; unfold is_byte; lia).
  assert (Lz : zlen (replicate (Z.to_nat chunk) 0) = chunk) by (rewrite zlen_replicate; lia).
  destruct (ring_write e hist _ R Hb) as (l & E & R'); [lia|lia|]. rewrite E, bind_ok. rewrite Lz in R'.
  destruct (IH _ _ (rem - chunk) R' ltac:(lia)) as (e' & E' & Hs' & R2); [|lia|].
  { change (win_cap (advance (set_bytes e l) chunk)) with (win_cap e). change (win_size (advance (set_bytes e l) chunk)) with (win_size e).
    destruct Hcap; [by left|]. destruct (Z.eq_dec rem chunk); [|lia].
    pose proof (ring_pos_range _ _ R') as Hp'. pose proof (rg_used _ _ R') as U. pose proof (rg_pos _ _ R') as Q.
    change (win_cap (advance (set_bytes e l) chunk)) with (win_cap e) in U.
    change (win_size (advance (set_bytes e l) chunk)) with (win_size e) in *.
    destruct (Z.eq_dec (win_cap e) (win_size e)); [by left|right].
    rewrite Z.mod_small in Q by zlen_lia. zlen_lia. }
  exists e'. split; [done|]. split; [by rewrite Hs'|].
  rewrite <- app_assoc, <- replicate_add in R2. by replace (Z.to_nat chunk + Z.to_nat (rem - chunk))%nat with (Z.to_nat rem) in R2 by lia.
Qed.

Lemma src_step e hist d n :
  ring e hist -> 1 <= d <= zlen hist -> 0 <= n < win_size e + 1 ->
  wrap_up e ((zlen hist - d) mod win_size e + n) = (zlen hist + n - d) mod win_size e.
Proof.
  intros R Hd Hn. pose proof (rg_size e hist R). pose proof (Z.mod_pos_bound (zlen hist - d) (win_size e) ltac:(lia)).
  rewrite (wrap_up_mod e hist) by (done || lia). rewrite Zplus_mod_idemp_l. f_equal. lia.
Qed.

Lemma min_if a b : (if b <? a then b else a) = Z.min a b.
Proof. destruct (Z.ltb_spec b a); lia. Qed.

Lemma copy_loop_spec f e hist d length :
  ring e hist -> 1 <= d < win_size e -> d <= zlen hist -> 0 <= length ->
  (win_cap e = win_size e \/ win_pos e + length <= win_cap e) -> length < Z.of_nat f ->
  exists e' new, copy_loop f e ((zlen hist - d) mod win_size e) d length = Ok e' /\ win_size e' = win_size e /\
    ring e' (hist ++ new) /\ zlen new = length /\ lz_tail hist d new.
Proof.
  revert e hist length. induction f as [|f IH]; intros e hist length R Hd Hdh Hlen Hcap Hf; [lia|]. cbn [copy_loop].
  rewrite Z.gtb_ltb. destruct (Z.ltb_spec 0 length) as [Hpos|].
  2: { exists e, []. rewrite app_nil_r. split; [done|]. split; [done|]. split; [done|].
       split; [change (zlen (@nil Z)) with 0; lia|intros i Hi; change (zlen (@nil Z)) with 0 in Hi; lia]. }
  pose proof (rg_size e hist R) as Hs. pose proof (ring_pos_range e hist R) as Hp. pose proof (rg_pos e hist R) as Epos.
  pose proof (rg_le e hist R) as Hle. set (src := (zlen hist - d) mod win_size e) in *.
  pose proof (Z.mod_pos_bound (zlen hist - d) (win_size e) ltac:(lia)) as Hm. fold src in Hm.
  set (gap := if src <? win_pos e then win_pos e - src else src - win_pos e).
  assert (Hne : src <> win_pos e).
  { rewrite Epos. subst src. apply mod_neq. lia. }
  assert (Hgap : 1 <= gap) by (subst gap; destruct (Z.ltb_spec src (win_pos e)); lia).
  rewrite !Z.gtb_ltb.
  rewrite !min_if. set (chunk := Z.min (Z.min (Z.min length _) _) gap).
  assert (Hchunk : chunk = Z.min gap (Z.min (win_size e - src) (Z.min (win_size e - win_pos e) length))) by (subst chunk; lia).
  clearbody chunk. destruct (copy_chunk e hist d chunk R Hd Hdh) as (x & l & E1 & E2 & Lx & Bx & Tx & Hcd & Hcp);
    fold src; fold gap; try lia. fold src in E1. rewrite E1, bind_ok.
  assert (HX : exists l' y, (if (chunk <? length) && (chunk >=? d)
       then double_run (S (Z.to_nat length)) (win_size e) (win_pos e) l chunk (length - chunk) else Ok (l, chunk)) = Ok (l', zlen (x ++ y)) /\
     store (win_bytes e) (win_pos e) (x ++ y) = Ok l' /\ lz_tail hist d (x ++ y) /\ zlen (x ++ y) <= length /\
     win_pos e + zlen (x ++ y) <= win_size e /\ bytes (x ++ y)).
  { destruct ((chunk <? length) && (chunk >=? d)) eqn:Eb.
    - apply andb_true_iff in Eb as [B1 B2]. apply Z.ltb_lt in B1. rewrite Z.geb_leb in B2. apply Z.leb_le in B2.
      rewrite <- Lx. destruct (double_run_spec (S (Z.to_nat length)) (win_bytes e) (win_pos e) (win_size e) hist d x l length E2 Tx)
        as (l' & y & D1 & D2 & D3 & D4 & D5 & D6); try lia.
      { rewrite <- (rg_cap e hist R). lia. }
      { left. exists 1. lia. }
      exists l', y. split; [done|]. split; [done|]. split; [done|]. split; [done|]. split; [done|]. apply Forall_app_2; auto.
    - exists l, []. rewrite app_nil_r, Lx. split; [done|]. split; [done|]. split; [done|]. split; [lia|]. split; [lia|done]. }
  destruct HX as (l' & y & EX & EY & HT & HL1 & HL2 & HB). rewrite EX, bind_ok. clear EX E1.
  assert (Lxy : 1 <= zlen (x ++ y)) by (rewrite zlen_app; zlen_lia).
  destruct (ring_write e hist (x ++ y) R HB Lxy) as (l2 & E3 & R3); [lia|].
  rewrite EY in E3. injection E3 as <-.
  pose proof (src_step e hist d (zlen (x ++ y)) R ltac:(lia) ltac:(lia)) as ES. fold src in ES.
  set (e1 := advance (set_bytes e l') (zlen (x ++ y))) in *.
  assert (Es1 : win_size e1 = win_size e) by done.
  destruct (IH e1 (hist ++ x ++ y) (length - zlen (x ++ y)) R3) as (e' & z & I1 & I2 & I3 & I4 & I5);
    rewrite ?Es1; try lia; try (rewrite zlen_app; zlen_lia).
  { change (win_cap e1) with (win_cap e). destruct (Z.eq_dec (win_cap e) (win_size e)); [by left|right].
    pose proof (rg_used _ _ R3) as U. pose proof (rg_pos _ _ R3) as Q. change (win_cap e1) with (win_cap e) in U. rewrite Es1 in *.
    destruct (ring_unwrapped e hist R ltac:(lia)) as [Hu1 Hu2].
    rewrite Z.mod_small in Q by zlen_lia. zlen_lia. }
  rewrite zlen_app, Es1 in I1. rewrite ES. rewrite I1. exists e', ((x ++ y) ++ z). split; [done|].
  split; [by rewrite I2|]. split; [by rewrite app_assoc|].
  split; [rewrite zlen_app; lia|]. apply lz_tail_app; [done|done|lia].
Qed.

Lemma lz_tail_cons hist d x new :
  lz_tail hist d (x :: new) -> 1 <= d <= zlen hist -> x = nthZ hist (zlen hist - d) /\ lz_tail (hist ++ [x]) d new.
Proof.
  intros HT Hd. split.
  - specialize (HT 0 ltac:(rewrite zlen_cons; zlen_lia)). rewrite nthZ_app_r in HT by lia.
    rewrite nthZ_app_l in HT by lia. rewrite Z.add_0_r in HT. done.
  - intros i Hi. specialize (HT (i + 1) ltac:(rewrite zlen_cons; zlen_lia)). rewrite <- app_assoc. cbn [app].
    rewrite zlen_app, zlen_cons. change (zlen (@nil Z)) with 0.
    replace (zlen hist + (1 + 0) + i) with (zlen hist + (i + 1)) by lia. done.
Qed.

Lemma lz_copy_unique n d hist new :
  lz_tail hist d new -> 1 <= d <= zlen hist -> length new = n -> hist ++ new = lz_copy n d hist.
Proof.
  revert hist new. induction n as [|n IH]; intros hist new HT Hd Hn; cbn [lz_copy].
  - destruct new; [apply app_nil_r|done].
  - destruct new as [|x new]; [done|]. destruct (lz_tail_cons hist d x new HT Hd) as [Ex HT']. rewrite <- Ex.
    rewrite <- (IH (hist ++ [x]) new HT').
    + by rewrite <- app_assoc.
    + rewrite zlen_app. zlen_lia.
    + by injection Hn.
Qed.

Lemma lz_match_tail hist d new :
  lz_tail hist d new -> 1 <= d <= zlen hist -> hist ++ new = lz_match d (zlen new) hist.
Proof.
  intros HT Hd. unfold lz_match. rewrite (proj2 (Z.ltb_ge _ _)) by lia. apply lz_copy_unique; [done|done|].
  unfold zlen. by rewrite Nat2Z.id.
Qed.

Lemma ring_advance_full e hist n :
  ring e hist -> 1 <= n <= win_size e -> win_size e <= zlen hist ->
  exists new, zlen new = n /\ lz_tail hist (win_size e) new /\ ring (advance e n) (hist ++ new).
Proof.
  intros R Hn Hh. pose proof (rg_size e hist R) as Hs.
  set (new := take (Z.to_nat n) (view hist (zlen hist - win_size e))).
  assert (Ln : zlen new = n) by (apply zlen_take; rewrite zlen_view; lia).
  assert (Nn : forall i, 0 <= i < n -> nthZ new i = nthZ hist (zlen hist - win_size e + i)).
  { intros i Hi. subst new. rewrite nthZ_take by lia. apply nthZ_view; lia. }
  exists new. split; [done|]. split; [apply lz_tail_short; rewrite Ln; [done|lia]|].
  pose proof (ring_pos_range e hist R) as Hp. pose proof (rg_pos e hist R) as Epos. unfold advance.
  rewrite (wrap_up_mod e hist) by (done || lia). rewrite Epos, Zplus_mod_idemp_l.
  pose proof (rg_used e hist R). pose proof (rg_le e hist R).
  assert (Ef : first_win_done e = true) by (rewrite (rg_first e hist R); by apply Z.leb_le).
  destruct R as [R1 R2 R3 R4 R5 R6 R7 R8 [R9 R9'] R10 R11].
  split; cbn [set_pos win_size win_mask win_pow2 win_buf win_cap win_pos first_win_done window_ready win_bytes];
    rewrite ?zlen_app, ?Ln; try done; try lia.
  - rewrite Ef. symmetry. rewrite (proj2 (Z.leb_le (win_size e) _)) by lia. by case_match.
  - split; [done|]. apply Forall_app_2; [done|]. subst new. by apply bytes_take, bytes_view.
  - intros k Hk Hr. change (win_bytes (set_pos _ _ _)) with (win_bytes e). destruct (Z.lt_ge_cases k (zlen hist)).
    + rewrite nthZ_app_l by lia. apply R10; lia.
    + replace k with (zlen hist + (k - zlen hist)) at 2 by lia. rewrite nthZ_app_r, Nn by lia.
      rewrite <- R10 by lia. f_equal. replace (zlen hist - win_size e + (k - zlen hist)) with (k + (-1) * win_size e) by lia.
      by rewrite Z.mod_add by lia.
Qed.

(** Every path through the window appends the reference's bytes. *)
Lemma copy_reserved_spec e hist d length :
  ring e hist -> 1 <= d <= win_size e -> 1 <= length <= win_size e ->
  (win_cap e = win_size e \/ win_pos e + length <= win_cap e) ->
  exists e', copy_reserved e d length = Ok e' /\ win_size e' = win_size e /\ ring e' (lz_match d length hist).
Proof.
  intros R Hd Hl Hcap. unfold copy_reserved.
  pose proof (rg_size e hist R) as Hs. pose proof (ring_pos_range e hist R) as Hp. pose proof (rg_pos e hist R) as Epos.
  assert (Esrc : wrap_up e (win_pos e + win_size e - d) = (zlen hist - d) mod win_size e).
  { rewrite (wrap_up_mod e hist) by (done || lia).
    replace (win_pos e + win_size e - d) with ((win_pos e - d) + 1 * win_size e) by lia. rewrite Z.mod_add by lia.
    rewrite Epos. apply Zminus_mod_idemp_l. }
  rewrite Esrc. cbv zeta. set (src := (zlen hist - d) mod win_size e).
  assert (Hz : (d >? win_pos e) && negb (first_win_done e) = (zlen hist <? d)).
  { rewrite (rg_first e hist R), Z.gtb_ltb. destruct (Z.leb_spec (win_size e) (zlen hist)); cbn [negb].
    - rewrite andb_false_r. symmetry. apply Z.ltb_ge. lia.
    - rewrite andb_true_r, Epos, Z.mod_small by zlen_lia. done. }
  rewrite Hz. unfold lz_match. destruct (Z.ltb_spec (zlen hist) d) as [Hfar|Hnear].
  { destruct (zero_fill_spec (S (Z.to_nat length)) e hist length R) as (e' & E & Es & R'); [lia|done|lia|].
    by exists e'. }
  change (lz_copy (Z.to_nat length) d hist) with (lz_copy (Z.to_nat length) d hist).
  assert (Hfin : forall new e', zlen new = length -> lz_tail hist d new -> ring e' (hist ++ new) ->
            ring e' (lz_copy (Z.to_nat length) d hist)).
  { intros new e' Ln HT R'. rewrite <- (lz_copy_unique _ d hist new HT); [done|lia|]. rewrite <- Ln. unfold zlen. lia. }
  destruct (Z.eqb_spec src (win_pos e)) as [Eself|Eself].
  { assert (Edw : d = win_size e).
    { destruct (Z.eq_dec d (win_size e)); [done|]. exfalso. apply (mod_neq (win_size e) (zlen hist - d) (zlen hist)); [lia|].
      rewrite <- Epos. exact Eself. }
    subst d. destruct (ring_advance_full e hist length R ltac:(lia) ltac:(lia)) as (new & Ln & HT & R').
    exists (advance e length). split; [done|]. split; [done|]. by apply (Hfin new). }
  assert (Hdw : d < win_size e).
  { destruct (Z.eq_dec d (win_size e)) as [->|]; [|lia]. exfalso. apply Eself. subst src.
    replace (zlen hist - win_size e) with (zlen hist + (-1) * win_size e) by lia. rewrite Z.mod_add by lia. done. }
  pose proof (Z.mod_pos_bound (zlen hist - d) (win_size e) ltac:(lia)) as Hm. fold src in Hm.
  destruct ((d =? 1) && (win_pos e + length <=? win_size e)) eqn:E1.
  { apply andb_true_iff in E1 as [Ed Ele]. apply Z.eqb_eq in Ed. apply Z.leb_le in Ele. subst d.
    destruct (ring_slice e hist src 1 (zlen hist - 1) R) as (x & Ex & Lx & Bx & Nx); try done; try lia.
    { destruct (Z.eq_dec (win_cap e) (win_size e)) as [->|]; [lia|]. pose proof (rg_le e hist R).
      destruct (ring_unwrapped e hist R ltac:(lia)). subst src. rewrite Z.mod_small by lia. lia. }
    assert (Eb : byte_at (win_bytes e) src = Ok (nthZ hist (zlen hist - 1))).
    { rewrite byte_at_nthZ; [by rewrite <- (rg_content e hist R) by lia|].
      unfold slice in Ex. destruct ((0 <=? src) && (0 <=? 1) && (src + 1 <=? zlen (win_bytes e))) eqn:B; [|done].
      apply andb_true_iff in B as [_ B]. apply Z.leb_le in B. lia. }
    rewrite Eb, bind_ok. set (c := nthZ hist (zlen hist - 1)). set (new := replicate (Z.to_nat length) c).
    assert (Ln : zlen new = length) by (subst new; rewrite zlen_replicate; lia).
    assert (Bn : bytes new) by (apply Forall_replicate; apply nthZ_byte, (proj2 (rg_bytes e hist R))).
    destruct (ring_write e hist new R Bn) as (l & E & R'); [lia|rewrite Ln; lia|].
    rewrite E, bind_ok. rewrite Ln in R'. eexists. split; [reflexivity|]. split; [done|]. apply (Hfin new); [done| |done].
    intros i Hi. rewrite nthZ_app_r by lia. subst new. rewrite nthZ_replicate by lia.
    destruct (Z.eq_dec i 0) as [->|]; [rewrite nthZ_app_l by lia; by rewrite Z.add_0_r|].
    replace (zlen hist + i - 1) with (zlen hist + (i - 1)) by lia. by rewrite nthZ_app_r, nthZ_replicate by lia. }
  match goal with |- context [if ?b then _ else _] => destruct b eqn:E2 end.
  - apply andb_true_iff in E2 as [E2 E3]. apply andb_true_iff in E2 as [E2 E4]. apply Z.leb_le in E2, E4.
    rewrite Z.geb_leb in E3. apply Z.leb_le in E3.
    destruct (copy_chunk e hist d length R ltac:(lia) Hnear) as (x & l & C1 & C2 & Lx & Bx & Tx & _);
      fold src; try lia; try done. fold src in C1. rewrite C1, bind_ok.
    destruct (ring_write e hist x R Bx) as (l2 & C3 & R'); [lia|lia|]. rewrite C2 in C3. injection C3 as <-. rewrite Lx in R'.
    eexists. split; [reflexivity|]. split; [done|]. by apply (Hfin x).
  - destruct (copy_loop_spec (S (Z.to_nat length)) e hist d length R ltac:(lia) Hnear) as (e' & new & C & Cs & R' & Ln & HT);
      [lia|done|lia|]. fold src in C. rewrite C. exists e'. split; [done|]. split; [done|]. by apply (Hfin new).
Qed.

(** A match either runs out of memory, with the history unchanged, or appends
    the reference's bytes. *)
Lemma copy_match_spec e hist d length :
  ring e hist -> 1 <= d <= win_size e -> 1 <= length <= win_size e ->
  exists ok e', copy_match e d length = Ok (ok, e') /\ win_size e' = win_size e /\
    ring e' (if ok : bool then lz_match d length hist else hist) /\ (memory_grants -> ok = true).
Proof.
  intros R Hd Hl. unfold copy_match.
  rewrite (proj2 (Z.eqb_neq d 0)), (Z.gtb_ltb d), (proj2 (Z.ltb_ge _ _)) by lia. cbn [orb].
  pose proof (ring_reserve e hist length R ltac:(lia)) as HR. pose proof (fun M => proj1 (reserve_grants e hist length R M)) as HM.
  destruct (reserve e length) as [ok e1].
  destruct HR as (R1 & Hs & Hpos & Hcap). destruct ok; cbn [negb]; [|by exists false, e1].
  specialize (Hcap eq_refl). rewrite <- Hs in Hd, Hl.
  destruct (copy_reserved_spec e1 hist d length R1 Hd Hl) as (e' & E & Es & R'); [by rewrite Hpos, Hs|].
  rewrite E, bind_ok. exists true, e'. split; [done|]. split; [congruence|]. by split.
Qed.

(** ** The window implements the interface *)

Definition window_abs e (h : History) : Prop :=
  h_size h = win_size e /\ 65536 <= h_size h < 2 ^ 62 /\ bytes (h_bytes h) /\
  if h_ready h then ring e (h_bytes h) else h_bytes h = [] /\ exists size, e = win_init size.

Lemma window_alloc_law e h : window_abs e h ->
  let '(ok, e') := ensure_window_alloc e in
  window_abs e' (if ok : bool then {| h_size := h_size h; h_ready := true; h_bytes := h_bytes h |} else h) /\
  (memory_grants -> ok = true).
Proof.
  intros (Es & Hs & Hb & HR). destruct h as [s [] hist]; cbn [h_size h_bytes h_ready] in *.
  - unfold ensure_window_alloc. rewrite (proj1 (rg_storage e hist HR)). cbn [orb]. by split_and!.
  - destruct HR as [-> [size ->]]. pose proof (ensure_window_alloc_spec size) as A. cbn [win_init win_size] in Es.
    pose proof (alloc_grants size) as AG.
    destruct (ensure_window_alloc (win_init size)) as [ok e']. destruct A as (A1 & A2 & A3); [lia|]. split; [|done]. destruct ok.
    + split; [cbn [h_size]; congruence|]. split; [done|]. split; [done|]. by apply A2.
    + rewrite (A3 eq_refl). split; [done|]. split; [done|]. split; [done|]. split; [done|]. by exists size.
Qed.

Lemma window_reset_law e h : window_abs e h -> window_abs (reset_window e) (h_set h []).
Proof.
  intros (Es & Hs & Hb & HR). split; [done|]. split; [done|]. split; [constructor|]. cbn [h_set h_ready h_bytes].
  destruct (h_ready h); [by apply (ring_reset _ (h_bytes h))|]. destruct HR as [_ [size ->]]. split; [done|]. by exists size.
Qed.

Lemma window_step e h e' (ok : bool) l :
  window_abs e h -> h_ready h = true -> win_size e' = win_size e -> ring e' (if ok then l else h_bytes h) ->
  window_abs e' (if ok then h_set h l else h).
Proof.
  intros (Es & Hs & Hb & HR) Hr He' R'. destruct ok.
  - split; [cbn [h_set h_size]; congruence|]. split; [done|]. split; [apply (rg_bytes _ _ R')|]. cbn [h_set h_ready]. by rewrite Hr.
  - split; [congruence|]. split; [done|]. split; [done|]. by rewrite Hr.
Qed.

Lemma window_literal_law e h slot h' :
  window_abs e h -> dict_literal h slot = Ok (true, h') ->
  exists ok e', write_literal e slot = Ok (ok, e') /\ window_abs e' (if ok : bool then h' else h) /\ (memory_grants -> ok = true).
Proof.
  intros A E. cbn in E. destruct (h_ready h) eqn:Hr; [|done]. injection E as <-. pose proof A as (_ & _ & _ & R). rewrite Hr in R.
  destruct (write_literal_spec e (h_bytes h) slot R) as (ok & e' & E & Es & R' & M). exists ok, e'. split; [done|].
  split; [by apply (window_step e)|done].
Qed.

Lemma window_match_law e h d length h' :
  window_abs e h -> dict_match h d length = Ok (true, h') ->
  exists ok e', copy_match e d length = Ok (ok, e') /\ window_abs e' (if ok : bool then h' else h) /\ (memory_grants -> ok = true).
Proof.
  intros A E. cbn in E. destruct (h_ready h) eqn:Hr; [|done]. cbn [andb] in E.
  destruct (Z.leb_spec 1 d), (Z.leb_spec d (h_size h)), (Z.leb_spec 1 length), (Z.leb_spec length (h_size h)); cbn [andb] in E; try done.
  injection E as <-. pose proof A as (Es & _ & _ & R). rewrite Hr in R.
  destruct (copy_match_spec e (h_bytes h) d length R) as (ok & e' & E & Es' & R' & M); [lia|lia|]. exists ok, e'. split; [done|].
  split; [by apply (window_step e)|done].
Qed.

Lemma ring_run e hist b n :
  ring e hist -> 1 <= n <= b -> b <= win_size e -> b <= zlen hist ->
  let circ := (zlen hist - b) mod win_size e in
  let n1 := Z.min n (win_size e - circ) in
  exists y z, slice (win_bytes e) circ n1 = Ok y /\ take (Z.to_nat n) (view hist (zlen hist - b)) = y ++ z /\
    1 <= zlen y /\ (z = [] \/ slice (win_bytes e) 0 (zlen z) = Ok z).
Proof.
  intros R Hn Hb Hh. pose proof (rg_size e hist R) as Hs. cbv zeta. set (circ := (zlen hist - b) mod win_size e).
  set (n1 := Z.min n (win_size e - circ)). pose proof (Z.mod_pos_bound (zlen hist - b) (win_size e) ltac:(lia)) as Hm. fold circ in Hm.
  set (start := zlen hist - b) in *. pose proof (rg_le e hist R) as Hle. pose proof (rg_used e hist R) as Hu.
  assert (Hcap : win_cap e = win_size e \/ (zlen hist <= win_cap e /\ circ = start)).
  { destruct (Z.eq_dec (win_cap e) (win_size e)); [by left|right]. destruct (ring_unwrapped e hist R ltac:(lia)).
    split; [done|]. subst circ. apply Z.mod_small. lia. }
  destruct (ring_slice e hist circ n1 start R) as (y & Ey & Ly & By & Ny); try done; try lia.
  assert (Ny' : y = take (Z.to_nat n1) (view hist start)).
  { apply nthZ_ext; [rewrite Ly; symmetry; apply zlen_take; rewrite zlen_view; lia|]. intros i Hi. rewrite Ly in Hi.
    rewrite Ny, nthZ_take, nthZ_view by lia. done. }
  exists y, (take (Z.to_nat (n - n1)) (view hist (start + n1))). split; [done|]. split; [|split; [lia|]].
  { rewrite Ny'. unfold view. replace (Z.to_nat n) with (Z.to_nat n1 + Z.to_nat (n - n1))%nat by lia.
    replace (Z.to_nat (start + n1)) with (Z.to_nat start + Z.to_nat n1)%nat by lia.
    by rewrite <- take_take_drop, drop_drop. }
  destruct (Z.eq_dec n1 n) as [->|Hn1]; [left; by rewrite Z.sub_diag|right].
  assert (Ec : circ + n1 = win_size e) by lia.
  assert (Lz : zlen (take (Z.to_nat (n - n1)) (view hist (start + n1))) = n - n1).
  { apply zlen_take. rewrite zlen_view; lia. }
  rewrite Lz. assert (E0 : 0 = (start + n1) mod win_size e).
  { rewrite <- Zplus_mod_idemp_l. fold circ. rewrite Ec. symmetry. apply Z.mod_same. lia. }
  destruct (ring_slice e hist 0 (n - n1) (start + n1) R) as (z & Ez & Lz' & Bz & Nz); try done; try lia.
  rewrite Ez. f_equal. apply nthZ_ext; [by rewrite Lz'|]. intros i Hi. rewrite Lz' in Hi.
  rewrite Nz, nthZ_take, nthZ_view by lia. done.
Qed.

Lemma window_run_law e h back n x :
  window_abs e h -> dict_run h back n = Ok x -> 0 <= back < h_size h ->
  exists y z, window_run e back n = Ok y /\ x = y ++ z /\ 1 <= zlen y /\ (z = [] \/ window_start e (zlen z) = Ok z).
Proof.
  intros (Es & Hs & Hb & R) E Hback. cbn in E. destruct (h_ready h); [|done]. cbn [andb] in E.
  set (b := if back =? 0 then h_size h else back) in *.
  destruct (Z.leb_spec 1 n), (Z.leb_spec n b), (Z.leb_spec b (h_size h)); cbn [andb] in E; try done.
  unfold slice in E. destruct (Z.leb_spec 0 (zlen (h_bytes h) - b)); [|done].
  cbn [andb] in E. case_match; [|done]. injection E as <-.
  assert (Ep : (win_pos e + win_size e - back) mod win_size e = (zlen (h_bytes h) - b) mod win_size e).
  { rewrite (rg_pos e _ R). rewrite <- Z.add_sub_assoc, Zplus_mod_idemp_l. subst b. rewrite <- Es.
    destruct (Z.eqb_spec back 0) as [->|].
    - replace (zlen (h_bytes h) + (h_size h - 0)) with (zlen (h_bytes h) - h_size h + 2 * h_size h) by lia. apply Z.mod_add. lia.
    - replace (zlen (h_bytes h) + (h_size h - back)) with (zlen (h_bytes h) - back + 1 * h_size h) by lia. apply Z.mod_add. lia. }
  unfold window_run, window_start. rewrite Ep. apply ring_run; [done|lia|lia|lia].
Qed.
End ring.

#[export] Instance Window_laws `{MemoryLaws} : DictionaryLaws Window := {
  dict_abs := window_abs;
  dict_grants := memory_grants;
  dict_range_law _ _ A := conj (proj1 (proj2 A)) (proj1 (proj2 (proj2 A)));
  dict_size_law _ _ A := eq_sym (proj1 A);
  dict_alloc_law := window_alloc_law;
  dict_reset_law := window_reset_law;
  dict_literal_law := window_literal_law;
  dict_match_law := window_match_law;
  dict_run_law := window_run_law
}.

(** ** Over any implementation *)

Section dictionary.
Context {W : Type} `{DictionaryLaws W}.

Lemma dict_region_law (w : W) h back n x :
  dict_abs w h -> dict_run h back n = Ok x -> 0 <= back < h_size h -> dict_region w back n = Ok x.
Proof.
  intros A E Hb. destruct (dict_run_law w h back n x A E Hb) as (y & z & E1 & -> & Hy & Hz).
  assert (Ln : zlen (y ++ z) = n).
  { cbn in E. case_match; [|done]. unfold slice in E. case_match eqn:B; [|done]. injection E as <-.
    rewrite !andb_true_iff, !Z.leb_le in B. apply zlen_take. rewrite zlen_drop; lia. }
  rewrite zlen_app in Ln. unfold dict_region. rewrite E1, bind_ok. destruct Hz as [-> | Hz].
  - change (zlen (@nil Z)) with 0 in Ln. rewrite (proj2 (Z.ltb_ge _ _)) by lia. by rewrite app_nil_r.
  - destruct (Z.ltb_spec (zlen y) n).
    + replace (n - zlen y) with (zlen z) by lia. by rewrite Hz, bind_ok.
    + rewrite (zlen_zero_nil z) by (zlen_pose; lia). by rewrite app_nil_r.
Qed.

Lemma dict_step_law (w : W) h o :
  dict_abs w h -> h_ready h = true -> dict_op_ok (h_size h) o ->
  exists ok w', dict_step w o = Ok (ok, w') /\ (dict_grants -> ok = true) /\
    dict_abs w' (if ok : bool then h_set h (replay_op (h_bytes h) o) else h).
Proof.
  intros A Hr Ho. destruct o as [|slot|d n]; cbn [dict_step replay_op dict_op_ok] in *.
  - exists true, (dict_reset w). split; [done|]. split; [done|]. by apply dict_reset_law.
  - destruct (dict_literal_law w h slot (h_set h (h_bytes h ++ [u8 slot])) A) as (ok & w' & E & A' & G); [cbn; by rewrite Hr|].
    by exists ok, w'.
  - destruct (dict_match_law w h d n (h_set h (lz_match d n (h_bytes h))) A) as (ok & w' & E & A' & G); [|by exists ok, w'].
    cbn. rewrite Hr, !(proj2 (Z.leb_le _ _)) by lia. done.
Qed.

Lemma dict_steps_law ops (w : W) h :
  dict_abs w h -> h_ready h = true -> Forall (dict_op_ok (h_size h)) ops ->
  exists n w', dict_steps w ops = Ok (n, w') /\ (n <= length ops)%nat /\ (dict_grants -> n = length ops) /\
    dict_abs w' (h_set h (fold_left replay_op (take n ops) (h_bytes h))).
Proof.
  intros A Hr HF. revert w h A Hr HF. induction ops as [|o ops IH]; intros w h A Hr HF; cbn [dict_steps].
  - exists O, w. split; [done|]. split; [done|]. split; [done|]. by destruct h.
  - inversion_clear HF as [|? ? Ho HF']. destruct (dict_step_law w h o A Hr Ho) as (ok & w' & E & G & A').
    rewrite E, bind_ok. destruct ok; cbn [negb].
    + destruct (IH w' _ A' Hr HF') as (n & w2 & E2 & Hn & G2 & A2). rewrite E2, bind_ok. exists (S n), w2.
      split; [done|]. split; [cbn [length]; lia|]. split; [|done]. intros g. cbn [length]. by rewrite (G2 g).
    + exists O, w'. split; [done|]. split; [lia|]. split; [intros g; by specialize (G g)|]. by destruct h.
Qed.
End dictionary.

(** C9. The sliding window is the byte-by-byte LZ history: after any sequence
    of literals, matches (overlapping, wrapping round the ring, reaching past
    the first byte written) and resets, with the window growing in place on
    demand over memory of unknown contents, the last bytes read back from the
    ring are those of the reference; no copy leaves the allocated storage or
    overlaps where it must not.  Only a refused request for memory stops the
    sequence, and it leaves the history of the operations before it. *)
Theorem window_replays_history `{MemoryLaws} (size : Z) (ops : list dict_op) :
  size < 2 ^ 62 -> Forall (dict_op_ok (Z.max size 0x10000)) ops ->
  exists ok w0, ensure_window_alloc (win_init size) = (ok, w0) /\ (memory_grants -> ok = true) /\
  (ok = true ->
   exists n w, dict_steps w0 ops = Ok (n, w) /\ (memory_grants -> n = length ops) /\
   let hist := replay (take n ops) in
   forall m, 1 <= m -> m <= Z.max size 0x10000 -> m <= zlen hist ->
     dict_region w (m mod Z.max size 0x10000) m = Ok (view hist (zlen hist - m))).
Proof.
  intros Hs HF. set (h0 := {| h_size := Z.max size 65536; h_ready := false; h_bytes := [] |}).
  assert (A0 : window_abs (win_init size) h0).
  { split; [done|]. split; [cbn [h0 h_size]; lia|]. split; [constructor|]. split; [done|]. by exists size. }
  pose proof (window_alloc_law _ _ A0) as AL. destruct (ensure_window_alloc (win_init size)) as [ok w0].
  destruct AL as [A1 G]. exists ok, w0. split; [done|]. split; [done|]. intros ->.
  assert (A1' : dict_abs w0 {| h_size := Z.max size 65536; h_ready := true; h_bytes := [] |}) by exact A1.
  destruct (dict_steps_law ops w0 _ A1' eq_refl HF) as (n & w & E & Hn & G' & A2).
  exists n, w. split; [done|]. split; [done|]. cbn [h_set h_bytes h_size h_ready h0] in *. intros m H1 H2 H3. fold (replay (take n ops)) in *.
  apply (dict_region_law w _ _ m _ A2); [|cbn [h_set h_size]; apply Z.mod_pos_bound; lia].
  cbn [dict_run History_dictionary h_set h_ready h_size h_bytes andb].
  assert (Eb : (if m mod Z.max size 65536 =? 0 then Z.max size 65536 else m mod Z.max size 65536) = m).
  { destruct (Z.eq_dec m (Z.max size 65536)) as [->|]; [by rewrite Z.mod_same by lia|].
    rewrite Z.mod_small by lia. by rewrite (proj2 (Z.eqb_neq _ _)) by lia. }
  rewrite Eb, !(proj2 (Z.leb_le _ _)) by lia. cbn [andb]. unfold slice.
  rewrite !(proj2 (Z.leb_le _ _)) by lia. cbn [andb]. f_equal. apply take_ge.
  pose proof (zlen_view (replay (take n ops)) (zlen (replay (take n ops)) - m) ltac:(lia)) as L. unfold view, zlen in *. lia.
Qed.

(** Memory that is always granted and holds a recognisable pattern. *)
Definition pattern_memory : Memory :=
  {| vm_reserve := fun _ => true; vm_commit := fun _ _ => true; vec_resize := fun _ => true; fresh_byte := fun i => i mod 251 |}.

Lemma pattern_memory_laws : @MemoryLaws pattern_memory.
Proof. constructor. intros i. unfold is_byte. cbn. pose proof (Z.mod_pos_bound i 251). lia. Defined.

Lemma window_replays_history_witness :
  let ops := [OpLiteral 97; OpLiteral 98; OpLiteral 99; OpMatch 3 8; OpMatch 1 5; OpMatch 40 3; OpLiteral 100] in
  view (replay ops) (zlen (replay ops) - 6) = [98; 98; 0; 0; 0; 100] /\
  exists ok w0, @ensure_window_alloc pattern_memory (win_init 70000) = (ok, w0) /\ (@memory_grants pattern_memory -> ok = true) /\
  (ok = true ->
   exists n w, @dict_steps _ (@Window_dictionary pattern_memory) w0 ops = Ok (n, w) /\
   (@memory_grants pattern_memory -> n = length ops) /\
   let hist := replay (take n ops) in
   forall m, 1 <= m -> m <= Z.max 70000 0x10000 -> m <= zlen hist ->
     @dict_region _ (@Window_dictionary pattern_memory) w (m mod Z.max 70000 0x10000) m = Ok (view hist (zlen hist - m))).
Proof.
  split; [vm_compute; reflexivity|].
  apply (@window_replays_history pattern_memory pattern_memory_laws 70000); [lia|].
  repeat first [apply Forall_cons_2; [cbn; lia|]|apply Forall_nil_2].
Defined.
