(* ===== verification/StateFail.v ===== *)
(** Computations over a mutable object that may return [false].

    The C++ methods of the decoder mutate their object and return [false] on
    bad input; what they have changed by then stays changed.  [M S A] is that
    shape: the outcome is a value or a failure, with the state either way, or
    one of the faults of [res].  [sim] relates a computation to the same one
    over an abstract state; it composes along the code, so that a refinement
    is proved operation by operation. *)

From Stdlib Require Import ZArith Lia.
From stdpp Require Import base tactics list numbers.
From S2P Require Import Prelude Arrays.

Local Open Scope Z_scope.

Definition M (S A : Type) : Type := S -> res (option A * S).

#[export] Instance M_ret S : MRet (M S) := fun A a s => Ok (Some a, s).
#[export] Instance M_bind S : MBind (M S) := fun A B f m s =>
  match m s with
  | Ok (Some a, s') => f a s'
  | Ok (None, s') => Ok (None, s')
  | Fail => Fail
  | Fault => Fault
  | Fuel => Fuel
  end.

Section operations.
Context {S : Type}.

(** [return false] *)
Definition stop {A} : M S A := fun s => Ok (None, s).

Definition guard (b : bool) : M S unit := if b then mret tt else stop.

Definition gets {A} (f : S -> A) : M S A := fun s => Ok (Some (f s), s).

Definition modify (f : S -> S) : M S unit := fun s => Ok (Some tt, f s).

(** A loop that has used up the bound of the model. *)
Definition out_of_fuel {A} : M S A := fun _ => Fuel.

(** A call that does not touch the state; its [Fail] is a [return false]. *)
Definition lift {A} (r : res A) : M S A := fun s =>
  match r with
  | Ok a => Ok (Some a, s)
  | Fail => Ok (None, s)
  | Fault => Fault
  | Fuel => Fuel
  end.

(** A method call on a part of the state. *)
Definition zoom {T A} (get : S -> T) (put : S -> T -> S) (m : M T A) : M S A := fun s =>
  match m (get s) with
  | Ok (o, t) => Ok (o, put s t)
  | Fail => Fail
  | Fault => Fault
  | Fuel => Fuel
  end.

(** A call on a part of the state that cannot return [false]. *)
Definition call {T A} (get : S -> T) (put : S -> T -> S) (m : T -> res (A * T)) : M S A :=
  zoom get put (fun t => match m t with
                         | Ok (a, t) => Ok (Some a, t)
                         | Fail => Fail
                         | Fault => Fault
                         | Fuel => Fuel
                         end).
End operations.

(** ** Running *)

Section running.
Context {S : Type}.
Implicit Types (s : S).

Lemma M_bind_some {A B} (m : M S A) (f : A -> M S B) s a s' : m s = Ok (Some a, s') -> (m ≫= f) s = f a s'.
Proof. intros E. unfold mbind, M_bind. by rewrite E. Qed.

Lemma M_bind_none {A B} (m : M S A) (f : A -> M S B) s s' : m s = Ok (None, s') -> (m ≫= f) s = Ok (None, s').
Proof. intros E. unfold mbind, M_bind. by rewrite E. Qed.

Lemma M_gets {A B} (g : S -> A) (f : A -> M S B) s : (gets g ≫= f) s = f (g s) s.
Proof. done. Qed.

Lemma M_modify {B} (g : S -> S) (f : unit -> M S B) s : (modify g ≫= f) s = f tt (g s).
Proof. done. Qed.

Lemma M_guard {B} b (f : unit -> M S B) s : (guard b ≫= f) s = if b then f tt s else Ok (None, s).
Proof. by destruct b. Qed.

Lemma M_lift {A B} (r : res A) (f : A -> M S B) s a : r = Ok a -> (lift r ≫= f) s = f a s.
Proof. by intros ->. Qed.

Lemma M_bind_assoc {A B C} (m : M S A) (f : A -> M S B) (g : B -> M S C) s :
  ((m ≫= f) ≫= g) s = (m ≫= (fun a => f a ≫= g)) s.
Proof. unfold mbind, M_bind. by destruct (m s) as [[[] ?]| | |]. Qed.
End running.

(** ** Postconditions

    [mwp m Q s]: from [s] the computation neither faults nor runs out of fuel,
    and its outcome and final state satisfy [Q]. *)

Definition mwp {S A} (m : M S A) (Q : option A -> S -> Prop) (s : S) : Prop :=
  match m s with Ok (o, s') => Q o s' | _ => False end.

(** On success [Q]; failure is allowed from anywhere [F] holds. *)
Definition msafe {S A} (m : M S A) (F : S -> Prop) (Q : A -> S -> Prop) (s : S) : Prop :=
  mwp m (fun o s' => match o with Some a => Q a s' | None => F s' end) s.

Section safe.
Context {S : Type} (F : S -> Prop).
Implicit Types (s : S).

Lemma msafe_ret {A} (a : A) Q s : Q a s -> msafe (mret a) F Q s.
Proof. done. Qed.

Lemma msafe_stop {A} (Q : A -> S -> Prop) s : F s -> msafe stop F Q s.
Proof. done. Qed.

Lemma msafe_bind {A B} (m : M S A) (f : A -> M S B) Q s :
  msafe m F (fun a => msafe (f a) F Q) s -> msafe (m ≫= f) F Q s.
Proof. unfold msafe, mwp, mbind, M_bind. destruct (m s) as [[[a|] s']| | |]; done. Qed.

Lemma msafe_mono {A} (m : M S A) (P Q : A -> S -> Prop) s :
  msafe m F P s -> (forall a s', P a s' -> Q a s') -> msafe m F Q s.
Proof. unfold msafe, mwp. intros H HPQ. destruct (m s) as [[[a|] s']| | |]; try done. by apply HPQ. Qed.

Lemma msafe_gets {A} (g : S -> A) Q s : Q (g s) s -> msafe (gets g) F Q s.
Proof. done. Qed.

Lemma msafe_modify (g : S -> S) Q s : Q tt (g s) -> msafe (modify g) F Q s.
Proof. done. Qed.

Lemma msafe_guard b Q s : F s -> (b = true -> Q tt s) -> msafe (guard b) F Q s.
Proof. intros HF HQ. destruct b; [by apply HQ|done]. Qed.

Lemma msafe_lift {A} (r : res A) Q s : F s -> wp r (fun a => Q a s) -> msafe (lift r) F Q s.
Proof. intros HF HQ. by destruct r. Qed.

Lemma msafe_call {T A} (get : S -> T) put (m : T -> res (A * T)) Q s :
  (exists a t, m (get s) = Ok (a, t) /\ Q a (put s t)) -> msafe (call get put m) F Q s.
Proof. intros (a & t & E & HQ). unfold msafe, mwp, call, zoom. by rewrite E. Qed.
End safe.

(** ** Simulation *)

Section sim.
Context {S1 S2 : Type} (Rel : S1 -> S2 -> Prop) (Stop : S1 -> Prop).

(** Where the abstract computation has an outcome, the concrete one has the
    same with related states, unless it stops for a reason of its own. *)
Definition sim_at {A} (m1 : M S1 A) (m2 : M S2 A) (s1 : S1) (s2 : S2) : Prop :=
  match m2 s2 with
  | Ok (o, s2') => exists o1 s1', m1 s1 = Ok (o1, s1') /\ ((o1 = o /\ Rel s1' s2') \/ (o1 = None /\ Stop s1'))
  | _ => True
  end.

Definition sim {A} (m1 : M S1 A) (m2 : M S2 A) : Prop := forall s1 s2, Rel s1 s2 -> sim_at m1 m2 s1 s2.

Lemma sim_bind {A B} (m1 : M S1 A) (m2 : M S2 A) (f1 : A -> M S1 B) (f2 : A -> M S2 B) :
  sim m1 m2 -> (forall a, sim (f1 a) (f2 a)) -> sim (m1 ≫= f1) (m2 ≫= f2).
Proof.
  intros Hm Hf s1 s2 HR. specialize (Hm s1 s2 HR). unfold sim_at, mbind, M_bind in *.
  destruct (m2 s2) as [[[a|] s2']| | |]; try done; destruct Hm as (o1 & s1' & E & [[-> HR']|[-> HS]]); rewrite E.
  - by apply Hf.
  - destruct (f2 a s2') as [[o s]| | |]; [|done..]. exists None, s1'. split; [done|by right].
  - exists None, s1'. split; [done|by left].
  - exists None, s1'. split; [done|by right].
Qed.

(** Every value the computation returns satisfies [P]. *)
Definition returns {S A} (P : A -> Prop) (m : M S A) : Prop := forall s a s', m s = Ok (Some a, s') -> P a.

Lemma sim_bind_returns {A B} (P : A -> Prop) (m1 : M S1 A) (m2 : M S2 A) (f1 : A -> M S1 B) (f2 : A -> M S2 B) :
  returns P m2 -> sim m1 m2 -> (forall a, P a -> sim (f1 a) (f2 a)) -> sim (m1 ≫= f1) (m2 ≫= f2).
Proof.
  intros HP Hm Hf s1 s2 HR. specialize (Hm s1 s2 HR). specialize (HP s2). unfold sim_at, mbind, M_bind in *.
  destruct (m2 s2) as [[[a|] s2']| | |] eqn:E2; try done; destruct Hm as (o1 & s1' & E & [[-> HR']|[-> HS]]); rewrite E.
  - by apply Hf; [apply (HP a s2')|].
  - destruct (f2 a s2') as [[o s]| | |]; [|done..]. exists None, s1'. split; [done|by right].
  - exists None, s1'. split; [done|by left].
  - exists None, s1'. split; [done|by right].
Qed.

Lemma sim_ret {A} (a : A) : sim (mret a) (mret a).
Proof. intros s1 s2 HR. exists (Some a), s1. split; [done|by left]. Qed.

Lemma sim_stop {A} : sim (A := A) stop stop.
Proof. intros s1 s2 HR. exists None, s1. split; [done|by left]. Qed.

Lemma sim_guard b : sim (guard b) (guard b).
Proof. destruct b; [apply sim_ret|apply sim_stop]. Qed.

Lemma sim_gets {A} (g1 : S1 -> A) (g2 : S2 -> A) : (forall s1 s2, Rel s1 s2 -> g1 s1 = g2 s2) -> sim (gets g1) (gets g2).
Proof. intros Hg s1 s2 HR. exists (Some (g1 s1)), s1. split; [done|left]. split; [by rewrite (Hg s1 s2)|done]. Qed.

Lemma sim_modify (g1 : S1 -> S1) (g2 : S2 -> S2) :
  (forall s1 s2, Rel s1 s2 -> Rel (g1 s1) (g2 s2)) -> sim (modify g1) (modify g2).
Proof. intros Hg s1 s2 HR. exists (Some tt), (g1 s1). split; [done|left]. split; [done|by apply Hg]. Qed.

Lemma sim_lift {A} (r : res A) : sim (lift r) (lift r).
Proof.
  intros s1 s2 HR. destruct r; try done; [by exists (Some a), s1; split; [|left]|by exists None, s1; split; [|left]].
Qed.

Lemma sim_out_of_fuel {A} (m1 : M S1 A) : sim m1 out_of_fuel.
Proof. by intros s1 s2 HR. Qed.

Lemma sim_if {A} (b : bool) (m1 n1 : M S1 A) (m2 n2 : M S2 A) :
  sim m1 m2 -> sim n1 n2 -> sim (if b then m1 else n1) (if b then m2 else n2).
Proof. by destruct b. Qed.
End sim.

Section returns.
Context {S : Type}.

Lemma returns_ret {A} (P : A -> Prop) (a : A) : P a -> returns (S := S) P (mret a).
Proof. by intros HP s a' s' [= <- <-]. Qed.

Lemma returns_bind {A B} (P : B -> Prop) (m : M S A) (f : A -> M S B) : (forall a, returns P (f a)) -> returns P (m ≫= f).
Proof.
  intros Hf s b s' E. unfold mbind, M_bind in E. destruct (m s) as [[[a|] s1]| | |]; try done. by apply (Hf a s1 b s').
Qed.

Lemma returns_bind_value {A B} (P : A -> Prop) (Q : B -> Prop) (m : M S A) (f : A -> M S B) :
  returns P m -> (forall a, P a -> returns Q (f a)) -> returns Q (m ≫= f).
Proof.
  intros Hm Hf s b s' E. unfold mbind, M_bind in E. destruct (m s) as [[[a|] s1]| | |] eqn:Em; try done.
  by apply (Hf a (Hm _ _ _ Em) s1 b s').
Qed.

Lemma returns_if {A} (P : A -> Prop) (b : bool) (m n : M S A) : returns P m -> returns P n -> returns P (if b then m else n).
Proof. by destruct b. Qed.
End returns.

(** A method of a part simulates, given how the parts lie in the wholes. *)
Lemma sim_zoom {S1 S2 T1 T2 A} (Rel : S1 -> S2 -> Prop) Stop (RelT : T1 -> T2 -> Prop) (StopT : T1 -> Prop)
    (get1 : S1 -> T1) put1 (get2 : S2 -> T2) put2 (m1 : M T1 A) (m2 : M T2 A) :
  (forall s1 s2, Rel s1 s2 -> RelT (get1 s1) (get2 s2)) ->
  (forall s1 s2 t1 t2, Rel s1 s2 -> RelT t1 t2 -> Rel (put1 s1 t1) (put2 s2 t2)) ->
  (forall s1 s2 t1, Rel s1 s2 -> StopT t1 -> Stop (put1 s1 t1)) ->
  sim RelT StopT m1 m2 -> sim Rel Stop (zoom get1 put1 m1) (zoom get2 put2 m2).
Proof.
  intros Hg Hp Hs Hm s1 s2 HR. specialize (Hm _ _ (Hg _ _ HR)). unfold sim_at, zoom in *.
  destruct (m2 (get2 s2)) as [[o t2]| | |]; try done. destruct Hm as (o1 & t1 & E & HC). rewrite E.
  exists o1, (put1 s1 t1). split; [done|]. destruct HC as [[-> HT]|[-> HS]]; [left; split; [done|by apply Hp]|right; split; [done|by apply (Hs s1 s2)]].
Qed.

(** The syntax-directed part of a simulation proof. *)
Ltac sim_step :=
  first
    [ apply sim_ret | apply sim_stop | apply sim_guard | apply sim_lift | apply sim_out_of_fuel
    | apply sim_bind; [|intros ?] | apply sim_if ].
Ltac sim_steps := repeat sim_step.
