(* ===== verification/ApplyEngine.v ===== *)
(** The apply engine of the RAR 5.0 decoder: filter queue and flush
    ([src/compress/decompressor50.cpp], [Decompressor50::ApplyEngine]).

    The engine is defined over any [Dictionary].  The output callback is a
    parameter: it sees the chunks already delivered and the next one, and may
    refuse; a refusal fails the decode.  [engine_rel] relates the engine over
    the window to the engine over the plain history, which emits the same
    bytes, cut into chunks at other places. *)

From Stdlib Require Import ZArith Lia.
From stdpp Require Import base tactics list numbers.
From S2P Require Import Prelude Bytes Arrays Filters Delta LzWindow StateFail.

Local Open Scope Z_scope.

Record FilterEntry := {
  fe_type : Z;
  fe_channels : Z;
  fe_block_start : Z;
  fe_file_offset : Z;
  fe_block_length : Z
}.

Definition SIZE_MAX : Z := 2 ^ 64 - 1.

(** [None]: a null callback. *)
Definition OutputCallback : Type := option (list (list Z) -> list Z -> bool).

Record ApplyEngine (W : Type) := {
  ae_win : W;
  ae_filters : list FilterEntry;
  ae_head : nat;
  ae_flushed : Z;
  ae_sent : list (list Z)        (* what the callback has been given *)
}.

Arguments ae_win {W} a.
Arguments ae_filters {W} a.
Arguments ae_head {W} a.
Arguments ae_flushed {W} a.
Arguments ae_sent {W} a.

Section setters.
Context {W : Type}.
Implicit Types (e : ApplyEngine W).

Definition set_win e (w : W) : ApplyEngine W :=
  {| ae_win := w; ae_filters := ae_filters e; ae_head := ae_head e; ae_flushed := ae_flushed e; ae_sent := ae_sent e |}.

Definition set_queue (fs : list FilterEntry) (head : nat) e : ApplyEngine W :=
  {| ae_win := ae_win e; ae_filters := fs; ae_head := head; ae_flushed := ae_flushed e; ae_sent := ae_sent e |}.

Definition set_flushed (n : Z) e : ApplyEngine W :=
  {| ae_win := ae_win e; ae_filters := ae_filters e; ae_head := ae_head e; ae_flushed := n; ae_sent := ae_sent e |}.

Definition set_sent (l : list (list Z)) e : ApplyEngine W :=
  {| ae_win := ae_win e; ae_filters := ae_filters e; ae_head := ae_head e; ae_flushed := ae_flushed e; ae_sent := l |}.
End setters.

(** [if (cb && !cb(p, n)) return false;] *)
Definition emit {W} (cb : OutputCallback) (chunk : list Z) : M (ApplyEngine W) unit := fun e =>
  match cb with
  | None => Ok (Some tt, e)
  | Some accepts =>
      let e' := set_sent (ae_sent e ++ [chunk]) e in
      Ok (if accepts (ae_sent e) chunk then Some tt else None, e')
  end.

(** The inverse transform of a region; types 4 to 7 are undefined and emit the
    raw bytes.  The scratch buffer is overwritten, whatever it held. *)
Definition apply_filter (f : FilterEntry) (raw : list Z) : res (list Z) :=
  let type := fe_type f in
  if type =? 0 then
    let scratch := replicate (length raw) 0 in
    match Delta.apply_delta false None raw scratch (fe_channels f) with
    | Fail => Ok scratch
    | r => r
    end
  else if type =? 1 then E8.apply_e8 raw (fe_file_offset f) false
  else if type =? 2 then E8.apply_e8 raw (fe_file_offset f) true
  else if type =? 3 then Arm.apply_arm raw (fe_file_offset f)
  else Ok raw.

Section engine.
Context {W : Type} `{Dictionary W} (cb : OutputCallback).
Implicit Types (e : ApplyEngine W).

Definition win_size_of e : Z := dict_size (ae_win e).

(** Reading the window. *)
Definition read_window {A} (f : W -> res A) : M (ApplyEngine W) A := fun e => lift (f (ae_win e)) e.

Definition begin_call : M (ApplyEngine W) unit := modify (set_flushed 0).

(** [while (last_flushed_ < target)] *)
Fixpoint flush_loop (fuel : nat) (target total_written : Z) : M (ApplyEngine W) unit :=
  match fuel with
  | O => out_of_fuel
  | S fuel' =>
      last_flushed ← gets ae_flushed;
      if last_flushed <? target then
        win_size ← gets win_size_of;
        let chunk := target -s last_flushed in
        let back := (total_written -s last_flushed) mod win_size in
        bytes ← read_window (fun w => dict_run w back chunk);
        _ ← guard (negb (zlen bytes =? 0));
        _ ← emit cb bytes;
        _ ← modify (set_flushed (last_flushed +s zlen bytes));
        flush_loop fuel' target total_written
      else mret tt
  end.

Definition flush_plain_up_to (target total_written dest_size : Z) : M (ApplyEngine W) unit :=
  last_flushed ← gets ae_flushed;
  win_size ← gets win_size_of;
  _ ← guard (negb (last_flushed >? total_written));
  _ ← guard (negb ((total_written -s last_flushed) >? win_size));
  let target := if target >? dest_size then dest_size else target in
  let target := if target >? total_written then total_written else target in
  flush_loop (S (Z.to_nat (target - last_flushed))) target total_written.

Definition region_complete (f : FilterEntry) (abs_pos : Z) : bool :=
  (fe_block_start f <=? abs_pos) && (fe_block_length f <=? (abs_pos -s fe_block_start f)).

Definition local_region_start (base_at_entry : Z) (f : FilterEntry) : Z :=
  if fe_block_start f >? base_at_entry then fe_block_start f -s base_at_entry else 0.

Definition has_completed_filter e (base_at_entry total_written : Z) : bool :=
  match ae_filters e !! ae_head e with
  | None => false
  | Some f => region_complete f (u64 (base_at_entry + total_written))
  end.

(** A region that is complete: flush what precedes it, transform a copy of its
    bytes and deliver it; the window keeps the raw bytes. *)
Definition flush_region (base_at_entry total_written dest_size : Z) (f : FilterEntry) : M (ApplyEngine W) unit :=
  let abs_pos := u64 (base_at_entry + total_written) in
  let region_local := local_region_start base_at_entry f in
  last_flushed ← gets ae_flushed;
  _ ← (if last_flushed <? region_local then flush_plain_up_to region_local total_written dest_size else mret tt);
  let len := fe_block_length f in
  let prior := if fe_block_start f <? base_at_entry then base_at_entry -s fe_block_start f else 0 in
  _ ← guard (negb (prior >? len));
  if len >? 0 then
    win_size ← gets win_size_of;
    _ ← guard (negb ((abs_pos -s fe_block_start f) >=? win_size));
    let back := (abs_pos -s fe_block_start f) mod win_size in
    raw ← read_window (fun w => dict_region w back len);
    out ← lift (apply_filter f raw);
    last_flushed ← gets ae_flushed;
    _ ← (if negb (dest_size =? SIZE_MAX) then
           _ ← guard (prior =? 0);
           guard (negb ((last_flushed >? dest_size) || (len >? (dest_size -s last_flushed))))
         else mret tt);
    _ ← emit cb out;
    modify (set_flushed (last_flushed +s (len -s prior)))
  else mret tt.

(** [while (filters_head_ < filters_.size())] over the regions from the head on. *)
Fixpoint flush_regions (flush_all : bool) (base_at_entry total_written dest_size : Z) (fs : list FilterEntry) : M (ApplyEngine W) unit :=
  match fs with
  | [] => mret tt
  | f :: fs' =>
      let next :=
        _ ← modify (fun e => set_queue (ae_filters e) (S (ae_head e)) e);
        flush_regions flush_all base_at_entry total_written dest_size fs' in
      if region_complete f (u64 (base_at_entry + total_written)) then
        _ ← flush_region base_at_entry total_written dest_size f; next
      else if flush_all then
        _ ← guard (fe_block_length f =? 0); next
      else mret tt
  end.

Definition safe_limit (flush_all : bool) (base_at_entry total_written : Z) (fs : list FilterEntry) : Z :=
  if flush_all then total_written
  else fold_left (fun limit f => let region_local := local_region_start base_at_entry f in
                                 if region_local <? limit then region_local else limit) fs total_written.

Definition flush_pending (flush_all : bool) (base_at_entry total_written dest_size : Z) : M (ApplyEngine W) unit :=
  pending ← gets (fun e => drop (ae_head e) (ae_filters e));
  _ ← flush_regions flush_all base_at_entry total_written dest_size pending;
  _ ← modify (fun e => set_queue (drop (ae_head e) (ae_filters e)) 0 e);
  fs ← gets ae_filters;
  flush_plain_up_to (safe_limit flush_all base_at_entry total_written fs) total_written dest_size.
End engine.

(** ** The engine over the window refines the engine over the history *)

Definition accept_all (cb : OutputCallback) : OutputCallback :=
  match cb with None => None | Some _ => Some (fun _ _ => true) end.

(** The callback refused the last chunk it was given. *)
Definition refused (cb : OutputCallback) (sent : list (list Z)) : Prop :=
  exists accepts pre c, cb = Some accepts /\ sent = pre ++ [c] /\ accepts pre c = false.

Lemma size_add_range a b : 0 <= a +s b < 2 ^ 64.
Proof. by apply (wrap_range 64). Qed.

Lemma size_sub_range a b : 0 <= a -s b < 2 ^ 64.
Proof. by apply (wrap_range 64). Qed.

Lemma history_run_cases h back n : (exists x, dict_run h back n = Ok x) \/ dict_run h back n = Fault.
Proof. cbn. unfold slice. repeat case_match; eauto. Qed.

(** A run of the history, cut in two. *)
Lemma history_run_split h k n y z :
  h_size h < 2 ^ 62 -> dict_run h (k mod h_size h) n = Ok (y ++ z) -> 1 <= n <= k -> k <= h_size h -> 1 <= zlen y -> 1 <= zlen z ->
  dict_run h ((k - zlen y) mod h_size h) (n - zlen y) = Ok z.
Proof.
  intros Hs E Hn Hk Hy Hz. cbn in *. assert (Hb : (if k mod h_size h =? 0 then h_size h else k mod h_size h) = k).
  { destruct (Z.eq_dec k (h_size h)) as [->|]; [by rewrite Z.mod_same by lia|].
    rewrite Z.mod_small by lia. by rewrite (proj2 (Z.eqb_neq _ _)) by lia. }
  rewrite Hb in E. clear Hb. destruct (h_ready h); [|done]. cbn [andb] in *.
  rewrite !(proj2 (Z.leb_le _ _)) in E by lia. cbn [andb] in E. unfold slice in *.
  destruct ((0 <=? zlen (h_bytes h) - k) && (0 <=? n) && (zlen (h_bytes h) - k + n <=? zlen (h_bytes h))) eqn:B; [|done].
  injection E as E. rewrite !andb_true_iff, !Z.leb_le in B.
  assert (Ln : zlen y + zlen z = n) by (rewrite <- zlen_app, <- E; apply zlen_take; rewrite zlen_drop; lia).
  rewrite Z.mod_small, (proj2 (Z.eqb_neq _ _)), !(proj2 (Z.leb_le _ _)) by lia. cbn [andb]. f_equal.
  replace (Z.to_nat (zlen (h_bytes h) - (k - zlen y))) with (Z.to_nat (zlen (h_bytes h) - k) + length y)%nat by (unfold zlen in *; lia).
  rewrite <- drop_drop, <- (drop_app_length y z), <- E, skipn_firstn_comm. f_equal. unfold zlen. lia.
Qed.

Section refinement.
Context {W : Type} `{DictionaryLaws W} (cb : OutputCallback) (size : Z).
Implicit Types (e : ApplyEngine W) (s : ApplyEngine History).

Record engine_rel e s : Prop := {
  er_win : dict_abs (ae_win e) (ae_win s);
  er_size : h_size (ae_win s) = size;
  er_filters : ae_filters e = ae_filters s;
  er_head : ae_head e = ae_head s;
  er_flushed : ae_flushed e = ae_flushed s;
  er_range : 0 <= ae_flushed s < 2 ^ 64;
  er_sent : concat (ae_sent e) = concat (ae_sent s)
}.

Definition engine_stop e : Prop := refused cb (ae_sent e).

Abbreviation esim := (sim engine_rel engine_stop).

Lemma esim_set_flushed n : 0 <= n < 2 ^ 64 -> esim (modify (set_flushed n)) (modify (set_flushed n)).
Proof. intros Hn. apply sim_modify. intros e s []. by split. Qed.

Lemma esim_flushed {A} (k1 : Z -> M (ApplyEngine W) A) (k2 : Z -> M (ApplyEngine History) A) :
  (forall n, 0 <= n < 2 ^ 64 -> esim (k1 n) (k2 n)) -> esim (gets ae_flushed ≫= k1) (gets ae_flushed ≫= k2).
Proof.
  intros Hk e s R. unfold sim_at. rewrite !M_gets, (er_flushed e s R). by apply Hk; [apply (er_range e s R)|].
Qed.

Lemma esim_win_size {A} (k1 : Z -> M (ApplyEngine W) A) (k2 : Z -> M (ApplyEngine History) A) :
  (65536 <= size < 2 ^ 62 -> esim (k1 size) (k2 size)) -> esim (gets win_size_of ≫= k1) (gets win_size_of ≫= k2).
Proof.
  intros Hk e s R. unfold sim_at. rewrite !M_gets. unfold win_size_of. rewrite (dict_size_law _ _ (er_win e s R)).
  cbn [dict_size History_dictionary]. rewrite (er_size e s R). apply Hk; [|done]. rewrite <- (er_size e s R).
  apply (dict_range_law _ _ (er_win e s R)).
Qed.

Lemma esim_emit chunk : esim (emit cb chunk) (emit (accept_all cb) chunk).
Proof.
  intros e s R. unfold sim_at, emit, engine_stop. destruct cb as [accepts|]; cbn [accept_all].
  - eexists _, _. split; [reflexivity|]. destruct (accepts (ae_sent e) chunk) eqn:Ea.
    + left. split; [done|]. destruct R. split; try done. cbn [set_sent ae_sent]. by rewrite !concat_app, er_sent0.
    + right. split; [done|]. by exists accepts, (ae_sent e), chunk.
  - exists (Some tt), e. split; [done|]. by left.
Qed.

Lemma esim_region back len :
  0 <= back < size -> esim (read_window (fun w => dict_region w back len)) (read_window (fun w => dict_region w back len)).
Proof.
  intros Hb e s R. unfold sim_at, read_window. destruct (dict_run (ae_win s) back len) as [x| | |] eqn:E;
    [| | |].
  - assert (Hx : zlen x = len).
    { cbn in E. case_match; [|done]. unfold slice in E. case_match eqn:B; [|done]. injection E as <-.
      rewrite !andb_true_iff, !Z.leb_le in B. apply zlen_take. rewrite zlen_drop; lia. }
    unfold dict_region at 1. rewrite E, bind_ok, Hx, Z.ltb_irrefl. exists (Some x), e. split; [|by left].
    rewrite (dict_region_law _ _ _ _ _ (er_win e s R) E); [done|]. by rewrite (er_size e s R).
  - by destruct (history_run_cases (ae_win s) back len) as [[x Ex]|Ex]; rewrite Ex in E.
  - by unfold dict_region at 1; rewrite E.
  - by unfold dict_region at 1; rewrite E.
Qed.

(** The run of the history goes out in pieces. *)
Lemma flush_pieces f e s target total_written x :
  engine_rel e s -> ae_flushed s < target <= total_written -> total_written < 2 ^ 64 -> total_written - ae_flushed s <= size ->
  dict_run (ae_win s) ((total_written - ae_flushed s) mod size) (target - ae_flushed s) = Ok x ->
  target - ae_flushed s < Z.of_nat f ->
  exists o e', flush_loop cb f target total_written e = Ok (o, e') /\
    ((o = Some tt /\ engine_rel e' (set_flushed target (match cb with None => s | Some _ => set_sent (ae_sent s ++ [x]) s end))) \/
     (o = None /\ engine_stop e')).
Proof.
  revert e s x. induction f as [|f IH]; intros e s x R Ht Hb Hs E Hf; [lia|]. cbn [flush_loop].
  pose proof (er_range e s R) as Hr. rewrite M_gets, (er_flushed e s R), (proj2 (Z.ltb_lt _ _)) by lia.
  rewrite M_gets. unfold win_size_of at 1. rewrite (dict_size_law _ _ (er_win e s R)). cbn [dict_size History_dictionary].
  pose proof (er_size e s R) as Es. rewrite Es. rewrite !size_sub_small by lia. rewrite <- Es in E |- *.
  pose proof (dict_range_law _ _ (er_win e s R)) as [Hsz _]. rewrite Es in Hsz.
  destruct (dict_run_law _ _ _ _ _ (er_win e s R) E) as (y & z & E1 & -> & Hy & Hz); [apply Z.mod_pos_bound; lia|].
  rewrite (M_bind_some _ _ e y e) by (unfold read_window; by rewrite E1). rewrite M_guard, (proj2 (Z.eqb_neq _ _)) by lia. cbn [negb].
  assert (Hyz : zlen y + zlen z = target - ae_flushed s).
  { cbn in E. case_match; [|done]. unfold slice in E. case_match eqn:B; [|done]. injection E as E.
    rewrite !andb_true_iff, !Z.leb_le in B. rewrite <- zlen_app, <- E. apply zlen_take. rewrite zlen_drop; lia. }
  pose proof (esim_emit y e s R) as HE. unfold sim_at in HE.
  destruct (emit (accept_all cb) y s) as [[o s1]| | |] eqn:Eem; [|by destruct cb..].
  destruct HE as (o1 & e1 & E2 & [[-> R1]|[-> HS]]).
  2: { rewrite (M_bind_none _ _ _ _ E2). exists None, e1. split; [done|by right]. }
  assert (Hs1 : o = Some tt /\ s1 = (match cb with None => s | Some _ => set_sent (ae_sent s ++ [y]) s end)).
  { unfold emit in Eem. destruct cb; cbn [accept_all] in Eem; by injection Eem as <- <-. }
  destruct Hs1 as [-> ->]. rewrite (M_bind_some _ _ _ _ _ E2), M_modify. rewrite size_add_small by (zlen_pose; lia).
  set (s2 := set_flushed (ae_flushed s + zlen y) (match cb with None => s | Some _ => set_sent (ae_sent s ++ [y]) s end)).
  assert (R2 : engine_rel (set_flushed (ae_flushed s + zlen y) e1) s2).
  { destruct R1. subst s2. split; try done. cbn [set_flushed ae_flushed]. zlen_pose. lia. }
  assert (Hfin : forall e', engine_rel e' (set_flushed target (match cb with None => s2 | Some _ => set_sent (ae_sent s2 ++ [z]) s2 end)) ->
     engine_rel e' (set_flushed target (match cb with None => s | Some _ => set_sent (ae_sent s ++ [y ++ z]) s end))).
  { intros e' R'. destruct R'. subst s2. destruct cb; cbn [set_flushed set_sent ae_win ae_filters ae_head ae_flushed ae_sent] in *; split; try done.
    cbn [ae_sent] in *. rewrite er_sent0, !concat_app. cbn [set_flushed set_sent ae_sent]. rewrite concat_app. cbn [concat]. by rewrite !app_nil_r, <- app_assoc. }
  destruct (Z.eq_dec (zlen z) 0) as [Ez|Ez].
  - apply zlen_zero_nil in Ez as ->. change (zlen (@nil Z)) with 0 in Hyz. destruct f as [|f]; [lia|].
    cbn [flush_loop]. rewrite M_gets. cbn [set_flushed ae_flushed]. rewrite (proj2 (Z.ltb_ge _ _)) by lia.
    eexists _, _. split; [reflexivity|]. left. split; [done|]. apply Hfin. subst s2. destruct R2.
    destruct cb; cbn [set_flushed set_sent ae_win ae_filters ae_head ae_flushed ae_sent] in *; split; cbn [set_flushed ae_flushed ae_sent]; try done; try lia.
    rewrite er_sent0. cbn [set_sent ae_sent]. rewrite (concat_app _ [[]]). cbn [concat]. by rewrite !app_nil_r.
  - zlen_pose. assert (Ew : ae_win s2 = ae_win s) by (subst s2; by destruct cb).
    assert (Ef : ae_flushed s2 = ae_flushed s + zlen y) by done.
    destruct (IH _ s2 z R2) as (o & e' & E3 & HC); rewrite ?Ef, ?Ew; try lia.
    { replace (target - (ae_flushed s + zlen y)) with (target - ae_flushed s - zlen y) by lia.
      replace (total_written - (ae_flushed s + zlen y)) with (total_written - ae_flushed s - zlen y) by lia.
      rewrite <- Es. apply history_run_split; try done; lia. }
    exists o, e'. split; [done|]. destruct HC as [[-> HR]|HC]; [left; split; [done|by apply Hfin]|by right].
Qed.

Lemma flush_one n s target total_written x :
  0 <= ae_flushed s < target -> target <= total_written -> total_written < 2 ^ 64 -> h_size (ae_win s) = size ->
  dict_run (ae_win s) ((total_written - ae_flushed s) mod size) (target - ae_flushed s) = Ok x ->
  flush_loop (accept_all cb) (S (S n)) target total_written s =
  Ok (Some tt, set_flushed target (match cb with None => s | Some _ => set_sent (ae_sent s ++ [x]) s end)).
Proof.
  intros Hf Ht Hb Es E.
  assert (Hx : zlen x = target - ae_flushed s).
  { cbn in E. case_match; [|done]. unfold slice in E. case_match eqn:B; [|done]. injection E as <-.
    rewrite !andb_true_iff, !Z.leb_le in B. apply zlen_take. rewrite zlen_drop; lia. }
  cbn [flush_loop]. rewrite M_gets, (proj2 (Z.ltb_lt _ _)) by lia. rewrite M_gets.
  change (win_size_of s) with (h_size (ae_win s)). rewrite Es, !size_sub_small by lia.
  rewrite (M_bind_some _ _ s x s) by (unfold read_window; by rewrite E). rewrite M_guard, (proj2 (Z.eqb_neq _ _)) by lia. cbn [negb].
  rewrite (M_bind_some _ _ s tt (match cb with None => s | Some _ => set_sent (ae_sent s ++ [x]) s end)) by (by destruct cb).
  rewrite M_modify, M_gets, size_add_small, Hx by lia. replace (ae_flushed s + (target - ae_flushed s)) with target by lia.
  cbn [set_flushed ae_flushed]. by rewrite Z.ltb_irrefl.
Qed.

Lemma esim_flush_plain target total_written dest_size :
  0 <= total_written < 2 ^ 64 ->
  esim (flush_plain_up_to cb target total_written dest_size) (flush_plain_up_to (accept_all cb) target total_written dest_size).
Proof.
  intros Hb e s R. unfold sim_at, flush_plain_up_to. rewrite !M_gets, (er_flushed e s R).
  assert (Ew : win_size_of e = size /\ win_size_of s = size).
  { unfold win_size_of. rewrite (dict_size_law _ _ (er_win e s R)). split; apply (er_size e s R). }
  destruct Ew as [-> ->]. rewrite !M_guard. pose proof (er_range e s R) as Hr.
  assert (Hno : exists (o1 : option unit) (s1' : ApplyEngine W), Ok (@None unit, e) = Ok (o1, s1') /\ ((o1 = None /\ engine_rel s1' s) \/ (o1 = None /\ engine_stop s1')))
    by (exists None, e; split; [done|by left]).
  rewrite !Z.gtb_ltb. destruct (Z.ltb_spec total_written (ae_flushed s)); cbn [negb]; [exact Hno|].
  rewrite size_sub_small by lia. destruct (Z.ltb_spec size (total_written - ae_flushed s)); cbn [negb]; [exact Hno|].
  set (t1 := if dest_size <? target then dest_size else target). set (t := if total_written <? t1 then total_written else t1).
  assert (Ht : t <= total_written) by (subst t; destruct (Z.ltb_spec total_written t1); lia). clearbody t.
  destruct (Z.ltb_spec (ae_flushed s) t) as [Hlt|Hge].
  - destruct (history_run_cases (ae_win s) ((total_written - ae_flushed s) mod size) (t - ae_flushed s)) as [[x Ex]|Ex].
    + replace (Z.to_nat (t - ae_flushed s)) with (S (Z.to_nat (t - ae_flushed s - 1))) by lia.
      rewrite (flush_one _ s t total_written x); [|lia|lia|lia|apply (er_size e s R)|done].
      destruct (flush_pieces (S (S (Z.to_nat (t - ae_flushed s - 1)))) e s t total_written x R) as (o & e' & E & HC);
        try done; try lia. rewrite E. exists o, e'. done.
    + cbn [flush_loop]. rewrite M_gets, (proj2 (Z.ltb_lt _ _)) by lia. rewrite M_gets.
      change (win_size_of s) with (h_size (ae_win s)). rewrite (er_size e s R), !size_sub_small by lia. unfold mbind at 1, M_bind at 1, read_window at 1.
      by rewrite Ex.
  - cbn [flush_loop]. rewrite !M_gets, (er_flushed e s R), (proj2 (Z.ltb_ge _ _)) by lia. exists (Some tt), e. split; [done|by left].
Qed.

Lemma esim_flush_region base total_written dest_size f :
  0 <= total_written < 2 ^ 64 ->
  esim (flush_region cb base total_written dest_size f) (flush_region (accept_all cb) base total_written dest_size f).
Proof.
  intros Hb. unfold flush_region. apply esim_flushed. intros last Hlast. apply sim_bind; [|intros _].
  { apply sim_if; [by apply esim_flush_plain|apply sim_ret]. }
  apply sim_bind; [apply sim_guard|intros _]. apply sim_if; [|apply sim_ret].
  apply esim_win_size. intros Hsz. apply sim_bind; [apply sim_guard|intros _].
  apply sim_bind; [apply esim_region; apply Z.mod_pos_bound; lia|intros raw].
  apply sim_bind; [apply sim_lift|intros out]. apply esim_flushed. intros last2 Hlast2.
  apply sim_bind; [sim_steps|intros _]. apply sim_bind; [apply esim_emit|intros _].
  apply esim_set_flushed, size_add_range.
Qed.

Lemma esim_queue (f : forall V, ApplyEngine V -> list FilterEntry * nat) :
  (forall e s, engine_rel e s -> f W e = f History s) ->
  esim (modify (fun e => set_queue (f W e).1 (f W e).2 e)) (modify (fun s => set_queue (f History s).1 (f History s).2 s)).
Proof. intros Hf. apply sim_modify. intros e s R. rewrite (Hf e s R). destruct R. by split. Qed.

Lemma esim_flush_regions flush_all base total_written dest_size fs :
  0 <= total_written < 2 ^ 64 ->
  esim (flush_regions cb flush_all base total_written dest_size fs) (flush_regions (accept_all cb) flush_all base total_written dest_size fs).
Proof.
  intros Hb. induction fs as [|f fs IH]; cbn [flush_regions]; [apply sim_ret|].
  assert (Hnext : esim (_ ← modify (fun e => set_queue (ae_filters e) (S (ae_head e)) e); flush_regions cb flush_all base total_written dest_size fs)
    (_ ← modify (fun s => set_queue (ae_filters s) (S (ae_head s)) s); flush_regions (accept_all cb) flush_all base total_written dest_size fs)).
  { apply sim_bind; [|by intros _]. apply (esim_queue (fun V x => (ae_filters x, S (ae_head x)))). intros e s []. congruence. }
  apply sim_if; [|apply sim_if; [|apply sim_ret]]; (apply sim_bind; [|by intros _]); [by apply esim_flush_region|apply sim_guard].
Qed.

Lemma esim_flush_pending flush_all base total_written dest_size :
  0 <= total_written < 2 ^ 64 ->
  esim (flush_pending cb flush_all base total_written dest_size) (flush_pending (accept_all cb) flush_all base total_written dest_size).
Proof.
  intros Hb. unfold flush_pending. apply sim_bind; [apply sim_gets; intros e s []; congruence|intros pending].
  apply sim_bind; [by apply esim_flush_regions|intros _]. apply sim_bind.
  { apply (esim_queue (fun V x => (drop (ae_head x) (ae_filters x), O))). intros e s []. congruence. }
  intros _. apply sim_bind; [apply sim_gets; intros e s []; congruence|intros fs]. by apply esim_flush_plain.
Qed.
End refinement.

(** ** The engine over the history does not fault *)

Definition filter_ok (f : FilterEntry) : Prop :=
  1 <= fe_channels f <= 32 /\ 0 <= fe_block_length f < 2 ^ 32 /\ 0 <= fe_block_start f < 2 ^ 64 /\ 0 <= fe_file_offset f < 2 ^ 64.

Lemma apply_filter_ok f raw : filter_ok f -> bytes raw -> 1 <= zlen raw < 2 ^ 63 -> exists out, apply_filter f raw = Ok out.
Proof.
  intros (Hc & _ & _ & Ho) Hb Hn. unfold apply_filter. destruct (fe_type f =? 0).
  { rewrite Delta.apply_delta_spec; [|done|].
    - unfold Delta.no_scratch. cbn [andb]. by eexists.
    - split; [lia|]. split; [rewrite zlen_replicate; unfold zlen; lia|]. split; [done|]. intros out [=]. }
  destruct (fe_type f =? 1); [unfold E8.apply_e8; rewrite run_sse2_spec by (done || lia); by eexists|].
  destruct (fe_type f =? 2); [unfold E8.apply_e8; rewrite run_sse2_spec by (done || lia); by eexists|].
  destruct (fe_type f =? 3); [unfold Arm.apply_arm; rewrite arm_sse2_spec by (done || lia); by eexists|]. by eexists.
Qed.

(** What a flush needs: the call's output lies in the history. *)
Record flushable (base total : Z) (s : ApplyEngine History) : Prop := {
  fl_ready : h_ready (ae_win s) = true;
  fl_size : 65536 <= h_size (ae_win s) < 2 ^ 62;
  fl_bytes : bytes (h_bytes (ae_win s));
  fl_total : 0 <= total < 2 ^ 64 /\ total <= zlen (h_bytes (ae_win s));
  fl_abs : u64 (base + total) <= zlen (h_bytes (ae_win s));
  fl_flushed : 0 <= ae_flushed s < 2 ^ 64;
  fl_filters : Forall filter_ok (ae_filters s)
}.

(** A flush moves only the queue, the cursor and the output. *)
Definition same_window (s s' : ApplyEngine History) : Prop := ae_win s' = ae_win s.

Section safety.
Context (cb : OutputCallback) (base total dest_size : Z).
Implicit Types (s : ApplyEngine History).

Abbreviation any := (fun _ : ApplyEngine History => True).

Lemma emit_safe chunk (Q : unit -> ApplyEngine History -> Prop) s :
  (forall sent, Q tt (set_sent sent s)) -> (cb = None -> Q tt s) -> msafe (emit cb chunk) any Q s.
Proof.
  intros HQ HN. unfold msafe, mwp, emit. destruct cb as [accepts|]; [|by apply HN]. by destruct (accepts _ _).
Qed.

Lemma read_safe {A} (f : History -> res A) a (Q : A -> ApplyEngine History -> Prop) s :
  f (ae_win s) = Ok a -> Q a s -> msafe (read_window f) any Q s.
Proof. intros E HQ. unfold msafe, mwp, read_window. by rewrite E. Qed.

Lemma history_run_ok (h : History) k n :
  h_ready h = true -> 65536 <= h_size h -> 1 <= n <= k -> k <= h_size h -> k <= zlen (h_bytes h) ->
  exists x, dict_run h (k mod h_size h) n = Ok x /\ zlen x = n /\ x = take (Z.to_nat n) (view (h_bytes h) (zlen (h_bytes h) - k)).
Proof.
  intros Hr Hs Hn Hk Hh. cbn. rewrite Hr. cbn [andb].
  assert (Hb : (if k mod h_size h =? 0 then h_size h else k mod h_size h) = k).
  { destruct (Z.eq_dec k (h_size h)) as [->|]; [by rewrite Z.mod_same by lia|].
    rewrite Z.mod_small by lia. by rewrite (proj2 (Z.eqb_neq _ _)) by lia. }
  rewrite Hb, !(proj2 (Z.leb_le _ _)) by lia. cbn [andb]. unfold slice. rewrite !(proj2 (Z.leb_le _ _)) by lia. cbn [andb].
  eexists. split; [reflexivity|]. split; [|done]. apply zlen_take. rewrite zlen_drop; lia.
Qed.

Lemma flushable_set_flushed n s : flushable base total s -> 0 <= n < 2 ^ 64 -> flushable base total (set_flushed n s).
Proof. intros [] Hn. by split. Qed.

Lemma flushable_set_sent l s : flushable base total s -> flushable base total (set_sent l s).
Proof. intros []. by split. Qed.

Lemma flushable_set_queue fs head s : flushable base total s -> Forall filter_ok fs -> flushable base total (set_queue fs head s).
Proof. intros [] HF. by split. Qed.

Definition after_flush s (s' : ApplyEngine History) : Prop :=
  flushable base total s' /\ ae_win s' = ae_win s /\ ae_filters s' = ae_filters s /\ ae_head s' = ae_head s.

Lemma after_flush_trans s1 s2 s3 : after_flush s1 s2 -> after_flush s2 s3 -> after_flush s1 s3.
Proof. intros (A1 & A2 & A3 & A4) (B1 & B2 & B3 & B4). split; [done|]. split; [congruence|]. split; congruence. Qed.

Lemma flush_loop_safe n target s :
  flushable base total s -> target <= total -> total - ae_flushed s <= h_size (ae_win s) -> Z.max 0 (target - ae_flushed s) < Z.of_nat n ->
  msafe (flush_loop cb n target total) any (fun _ => after_flush s) s.
Proof.
  revert s. induction n as [|n IH]; intros s F Ht Hs Hn; [lia|].
  - cbn [flush_loop]. apply msafe_bind, msafe_gets. destruct (Z.ltb_spec (ae_flushed s) target) as [Hlt|Hge].
    2: { apply msafe_ret. by split_and!. }
    apply msafe_bind, msafe_gets. change (win_size_of s) with (h_size (ae_win s)).
    pose proof F as [F1 F2 F3 [F4 F4'] F5 F6 F7]. rewrite !size_sub_small by lia.
    destruct (history_run_ok (ae_win s) (total - ae_flushed s) (target - ae_flushed s)) as (x & Ex & Lx & _); try done; try lia.
    apply msafe_bind, (read_safe _ x); [done|]. rewrite Lx.
    apply msafe_bind, msafe_guard; [done|]. intros _. apply msafe_bind. apply emit_safe.
    + intros sent. apply msafe_bind, msafe_modify. rewrite size_add_small by lia.
      eapply msafe_mono; [apply IH|intros ? s'; apply after_flush_trans].
      * apply flushable_set_flushed; [by apply flushable_set_sent|lia].
      * lia.
      * cbn. lia.
      * cbn. lia.
      * split; [apply flushable_set_flushed; [by apply flushable_set_sent|lia]|done].
    + intros _. apply msafe_bind, msafe_modify. rewrite size_add_small by lia.
      eapply msafe_mono; [apply IH|intros ? s'; apply after_flush_trans].
      * apply flushable_set_flushed; [done|lia].
      * lia.
      * cbn. lia.
      * cbn. lia.
      * split; [apply flushable_set_flushed; [done|lia]|done].
Qed.

Lemma flush_plain_safe target s :
  flushable base total s -> msafe (flush_plain_up_to cb target total dest_size) any (fun _ => after_flush s) s.
Proof.
  intros F. unfold flush_plain_up_to. apply msafe_bind, msafe_gets. apply msafe_bind, msafe_gets.
  change (win_size_of s) with (h_size (ae_win s)). pose proof (fl_total _ _ _ F). pose proof (fl_flushed _ _ _ F).
  apply msafe_bind, msafe_guard; [done|]. rewrite Z.gtb_ltb. intros H1%negb_true_iff%Z.ltb_ge.
  rewrite size_sub_small by lia. apply msafe_bind, msafe_guard; [done|]. rewrite Z.gtb_ltb. intros H2%negb_true_iff%Z.ltb_ge.
  apply flush_loop_safe; [done| |done|lia]. rewrite !Z.gtb_ltb.
  destruct (Z.ltb_spec total (if dest_size <? target then dest_size else target)); lia.
Qed.

Lemma flush_region_safe f s :
  flushable base total s -> filter_ok f -> region_complete f (u64 (base + total)) = true ->
  msafe (flush_region cb base total dest_size f) any (fun _ => after_flush s) s.
Proof.
  intros F Hf Hc. unfold flush_region. apply msafe_bind, msafe_gets. apply msafe_bind.
  eapply (msafe_mono _ _ (fun _ => after_flush s)).
  { destruct (_ <? _); [by apply flush_plain_safe|]. apply msafe_ret. by split_and!. }
  intros ? s1 A. pose proof A as (F1 & Ew & Ef & Eh). apply msafe_bind, msafe_guard; [done|]. intros _.
  destruct (fe_block_length f >? 0) eqn:El; [|by apply msafe_ret]. rewrite Z.gtb_ltb in El. apply Z.ltb_lt in El.
  apply msafe_bind, msafe_gets. change (win_size_of s1) with (h_size (ae_win s1)). apply msafe_bind, msafe_guard; [done|].
  rewrite Z.geb_leb. intros Hlt%negb_true_iff%Z.leb_gt.
  unfold region_complete in Hc. apply andb_true_iff in Hc as [C1 C2]. apply Z.leb_le in C1, C2.
  pose proof Hf as (_ & Hlen & Hst & _). pose proof (wrap_range 64 (base + total) ltac:(lia)) as Hw.
  pose proof F1 as [G1 G2 G3 G4 G5 G6 G7].
  assert (Esub : u64 (base + total) -s fe_block_start f = u64 (base + total) - fe_block_start f) by (apply size_sub_small; lia).
  rewrite Esub in C2, Hlt. rewrite Esub.
  destruct (history_run_ok (ae_win s1) (u64 (base + total) - fe_block_start f) (fe_block_length f)) as (x & Ex & Lx & Dx); try done; try lia.
  apply msafe_bind, (read_safe _ x); [unfold dict_region; by rewrite Ex, bind_ok, Lx, Z.ltb_irrefl|].
  destruct (apply_filter_ok f x) as (out & Eo); [done|subst x; by apply bytes_take, bytes_view|lia|].
  apply msafe_bind, msafe_lift; [done|]. rewrite Eo. apply wp_ok. apply msafe_bind, msafe_gets.
  assert (Hend : forall s2, after_flush s s2 -> msafe (_ ← emit cb out; modify (set_flushed (ae_flushed s1 +s (fe_block_length f -s
            (if fe_block_start f <? base then base -s fe_block_start f else 0))))) any (fun _ => after_flush s) s2).
  { intros s2 A2. apply msafe_bind. pose proof A2 as (B1 & B2 & B3 & B4).
    apply emit_safe; intros; apply msafe_modify; (split; [apply flushable_set_flushed; [try apply flushable_set_sent; done|apply size_add_range]|done]). }
  apply msafe_bind. destruct (negb (dest_size =? SIZE_MAX)).
  - apply msafe_bind, msafe_guard; [done|]. intros _. apply msafe_guard; [done|]. intros _. by apply Hend.
  - apply msafe_ret. by apply Hend.
Qed.

Lemma flush_regions_safe flush_all fs s :
  flushable base total s -> Forall filter_ok fs ->
  msafe (flush_regions cb flush_all base total dest_size fs) any
    (fun _ s' => flushable base total s' /\ ae_win s' = ae_win s /\ ae_filters s' = ae_filters s) s.
Proof.
  intros F HF. revert s F. induction HF as [|f fs Hf HF IH]; intros s F; cbn [flush_regions]; [apply msafe_ret; by split_and!|].
  assert (Hnext : forall s1, after_flush s s1 -> msafe (_ ← modify (fun e => set_queue (ae_filters e) (S (ae_head e)) e);
       flush_regions cb flush_all base total dest_size fs) any
       (fun _ s' => flushable base total s' /\ ae_win s' = ae_win s /\ ae_filters s' = ae_filters s) s1).
  { intros s1 (A1 & A2 & A3 & A4). apply msafe_bind, msafe_modify. eapply msafe_mono; [apply IH|].
    - apply flushable_set_queue; [done|]. apply (fl_filters _ _ _ A1).
    - intros ? s' (B1 & B2 & B3). split; [done|]. split; [rewrite B2; exact A2|rewrite B3; exact A3]. }
  destruct (region_complete f (u64 (base + total))) eqn:Ec.
  - apply msafe_bind. eapply msafe_mono; [by apply flush_region_safe|]. intros ? s1 A. by apply Hnext.
  - destruct flush_all; [|apply msafe_ret; by split_and!].
    apply msafe_bind, msafe_guard; [done|]. intros _. apply Hnext. by split_and!.
Qed.

Lemma flush_pending_safe flush_all s :
  flushable base total s ->
  msafe (flush_pending cb flush_all base total dest_size) any
    (fun _ s' => flushable base total s' /\ ae_win s' = ae_win s /\ ae_head s' = O /\
       exists k, ae_filters s' = drop k (ae_filters s)) s.
Proof.
  intros F. unfold flush_pending. apply msafe_bind, msafe_gets. apply msafe_bind.
  eapply msafe_mono; [apply flush_regions_safe; [done|apply Forall_drop, (fl_filters _ _ _ F)]|].
  intros ? s1 (F1 & Ew & Ef). apply msafe_bind, msafe_modify. apply msafe_bind, msafe_gets.
  eapply msafe_mono; [apply flush_plain_safe; apply flushable_set_queue; [done|apply Forall_drop, (fl_filters _ _ _ F1)]|].
  intros ? s' (B1 & B2 & B3 & B4). split; [done|]. split; [rewrite B2; exact Ew|]. split; [done|].
  exists (ae_head s1). rewrite B3. cbn. by rewrite Ef.
Qed.
End safety.
