(* ===== verification/Decoder.v ===== *)
(** The RAR 5.0 block decoder
    ([src/compress/decompressor50.cpp], [Decompressor50]).

    The decoder is defined over any [BitSource] and any [Dictionary]: block
    headers, code tables, the token loop, the filter tokens and the flush
    cadence.  A method that returns [false] keeps what it changed ([StateFail]).
    The lemmas relate a decoder reading a real stream into the real window to
    the same decoder over a list of bits and the plain history: [rsim] is a
    simulation, established operation by operation. *)

From Stdlib Require Import ZArith Lia.
From stdpp Require Import base tactics list numbers.
From S2P Require Import Prelude Loops Bytes Arrays BitReader Huffman LzWindow StateFail ApplyEngine.

Local Open Scope Z_scope.

Inductive DecompressErrorCode := ErrOk | DictionaryTooLarge | AllocationFailed | InvalidInput | LimitExceeded.

Definition ALLOC_LIMIT : Z := 64 * 1024 * 1024 * 1024.
Definition DEFAULT_WIN_SIZE : Z := 0x200000.

Record BlockHeader := {
  bh_block_size : Z;
  bh_block_bit_size : Z;
  bh_block_start : Z;
  bh_header_size : Z;
  bh_last_block_in_file : bool;
  bh_table_present : bool
}.

Definition BlockHeader_init : BlockHeader :=
  {| bh_block_size := -1; bh_block_bit_size := 0; bh_block_start := 0; bh_header_size := 0;
     bh_last_block_in_file := false; bh_table_present := false |}.

(** The decoder without its engine. *)
Record Core := {
  c_old_dist : list Z;
  c_last_length : Z;
  c_ld : HuffmanDecoder;
  c_dd : HuffmanDecoder;
  c_ldd : HuffmanDecoder;
  c_rd : HuffmanDecoder;
  c_bd : HuffmanDecoder;
  c_tables_ready : bool;
  c_table : list Z;
  c_table_size : Z;
  c_extra_dist : bool;
  c_file_base : Z;
  c_member_start : Z;
  c_last_error : DecompressErrorCode
}.

Definition set_reps (old_dist : list Z) (last_length : Z) (c : Core) : Core :=
  {| c_old_dist := old_dist; c_last_length := last_length; c_ld := c_ld c; c_dd := c_dd c; c_ldd := c_ldd c;
     c_rd := c_rd c; c_bd := c_bd c; c_tables_ready := c_tables_ready c; c_table := c_table c;
     c_table_size := c_table_size c; c_extra_dist := c_extra_dist c; c_file_base := c_file_base c;
     c_member_start := c_member_start c; c_last_error := c_last_error c |}.

Definition set_codes (ld dd ldd rd bd : HuffmanDecoder) (c : Core) : Core :=
  {| c_old_dist := c_old_dist c; c_last_length := c_last_length c; c_ld := ld; c_dd := dd; c_ldd := ldd;
     c_rd := rd; c_bd := bd; c_tables_ready := c_tables_ready c; c_table := c_table c;
     c_table_size := c_table_size c; c_extra_dist := c_extra_dist c; c_file_base := c_file_base c;
     c_member_start := c_member_start c; c_last_error := c_last_error c |}.

Definition set_table (table : list Z) (ready : bool) (c : Core) : Core :=
  {| c_old_dist := c_old_dist c; c_last_length := c_last_length c; c_ld := c_ld c; c_dd := c_dd c; c_ldd := c_ldd c;
     c_rd := c_rd c; c_bd := c_bd c; c_tables_ready := ready; c_table := table;
     c_table_size := c_table_size c; c_extra_dist := c_extra_dist c; c_file_base := c_file_base c;
     c_member_start := c_member_start c; c_last_error := c_last_error c |}.

Definition set_flavor (extra_dist : bool) (c : Core) : Core :=
  {| c_old_dist := c_old_dist c; c_last_length := c_last_length c; c_ld := c_ld c; c_dd := c_dd c; c_ldd := c_ldd c;
     c_rd := c_rd c; c_bd := c_bd c; c_tables_ready := c_tables_ready c; c_table := c_table c;
     c_table_size := if extra_dist then 446 else 430; c_extra_dist := extra_dist; c_file_base := c_file_base c;
     c_member_start := c_member_start c; c_last_error := c_last_error c |}.

Definition set_bases (file_base member_start : Z) (c : Core) : Core :=
  {| c_old_dist := c_old_dist c; c_last_length := c_last_length c; c_ld := c_ld c; c_dd := c_dd c; c_ldd := c_ldd c;
     c_rd := c_rd c; c_bd := c_bd c; c_tables_ready := c_tables_ready c; c_table := c_table c;
     c_table_size := c_table_size c; c_extra_dist := c_extra_dist c; c_file_base := file_base;
     c_member_start := member_start; c_last_error := c_last_error c |}.

Definition set_error (err : DecompressErrorCode) (c : Core) : Core :=
  {| c_old_dist := c_old_dist c; c_last_length := c_last_length c; c_ld := c_ld c; c_dd := c_dd c; c_ldd := c_ldd c;
     c_rd := c_rd c; c_bd := c_bd c; c_tables_ready := c_tables_ready c; c_table := c_table c;
     c_table_size := c_table_size c; c_extra_dist := c_extra_dist c; c_file_base := c_file_base c;
     c_member_start := c_member_start c; c_last_error := err |}.

(** Nothing set yet: every repeat distance is the sentinel. *)
Definition no_dist : list Z := replicate 4 SIZE_MAX.

(** The decoder during a call: the object, the reader and the current header. *)
Record Run (R W : Type) := {
  rn_reader : R;
  rn_engine : ApplyEngine W;
  rn_core : Core;
  rn_header : BlockHeader
}.

Arguments rn_reader {R W} r.
Arguments rn_engine {R W} r.
Arguments rn_core {R W} r.
Arguments rn_header {R W} r.

Record Decompressor50 (W : Type) := { dc_engine : ApplyEngine W; dc_core : Core }.

Arguments dc_engine {W} d.
Arguments dc_core {W} d.

(** [Decompressor50(win_size, extra_dist, alloc_win)], the window given. *)
Definition Decompressor50_init {W} (window : W) (declared_win : Z) (extra_dist : bool) : Decompressor50 W :=
  {| dc_engine := {| ae_win := window; ae_filters := []; ae_head := 0; ae_flushed := 0; ae_sent := [] |};
     dc_core := {| c_old_dist := no_dist; c_last_length := 0; c_ld := HuffmanDecoder_init; c_dd := HuffmanDecoder_init;
                   c_ldd := HuffmanDecoder_init; c_rd := HuffmanDecoder_init; c_bd := HuffmanDecoder_init;
                   c_tables_ready := false; c_table := replicate 446 0; c_table_size := if extra_dist then 446 else 430;
                   c_extra_dist := extra_dist; c_file_base := 0; c_member_start := 0;
                   c_last_error := if declared_win >? ALLOC_LIMIT then DictionaryTooLarge else ErrOk |} |}.

Definition set_extra_dist (extra_dist : bool) (c : Core) : Core :=
  if Bool.eqb extra_dist (c_extra_dist c) then c
  else set_table (replicate 446 0) false (set_flavor extra_dist c).

Section decoder.
Context {R W : Type} `{BitSource R} `{Dictionary W}.
Implicit Types (s : Run R W).

Definition set_reader s (r : R) : Run R W :=
  {| rn_reader := r; rn_engine := rn_engine s; rn_core := rn_core s; rn_header := rn_header s |}.
Definition set_engine s (e : ApplyEngine W) : Run R W :=
  {| rn_reader := rn_reader s; rn_engine := e; rn_core := rn_core s; rn_header := rn_header s |}.
Definition set_core (f : Core -> Core) s : Run R W :=
  {| rn_reader := rn_reader s; rn_engine := rn_engine s; rn_core := f (rn_core s); rn_header := rn_header s |}.
Definition set_header (f : BlockHeader -> BlockHeader) s : Run R W :=
  {| rn_reader := rn_reader s; rn_engine := rn_engine s; rn_core := rn_core s; rn_header := f (rn_header s) |}.

(** ** The reader *)

Definition remaining : M (Run R W) Z := gets (fun s => bits_remaining (rn_reader s)).
Definition cur_bit : M (Run R W) Z := gets (fun s => bit_pos (rn_reader s)).
Definition is_truncated : M (Run R W) bool := gets (fun s => truncated (rn_reader s)).
Definition take_bits (n : Z) : M (Run R W) Z := call rn_reader set_reader (fun r => get_bits r n).
Definition take_bits64 (n : Z) : M (Run R W) Z := call rn_reader set_reader (fun r => get_bits64 r n).
Definition align : M (Run R W) unit := call rn_reader set_reader (fun r => r ← align_byte r; mret (tt, r)).
Definition symbol (code : Core -> HuffmanDecoder) : M (Run R W) Z := fun s =>
  call rn_reader set_reader (fun r => decode (code (rn_core s)) r) s.

(** [if (reader.bits_remaining() < n) return false;] *)
Definition need (n : Z) : M (Run R W) unit := left ← remaining; guard (negb (left <? n)).

(** [val |= get_bits(8) << (i * 8)] for [count] bytes, each checked. *)
Fixpoint take_bytes (count : nat) (i val : Z) : M (Run R W) Z :=
  match count with
  | O => mret val
  | S count' =>
      _ ← need 8;
      b ← take_bits 8;
      take_bytes count' (i + 1) (Z.lor val (u32 (Z.shiftl b (i * 8))))
  end.

(** ** Block headers *)

Definition upd_header (size bit_size start header_size : Z) (last table : bool) : M (Run R W) unit :=
  modify (set_header (fun _ => {| bh_block_size := size; bh_block_bit_size := bit_size; bh_block_start := start;
                                  bh_header_size := header_size; bh_last_block_in_file := last; bh_table_present := table |})).

Definition read_block_header : M (Run R W) unit :=
  h ← gets rn_header;
  let last := bh_last_block_in_file h in
  let table := bh_table_present h in
  _ ← upd_header (bh_block_size h) (bh_block_bit_size h) (bh_block_start h) 0 last table;
  _ ← need 16;
  _ ← align;
  _ ← need 8;
  flags ← take_bits 8;
  let byte_cnt := Z.land (Z.shiftr flags 3) 3 + 1 in
  _ ← guard (negb (byte_cnt =? 4));
  let bit_size := Z.land flags 7 + 1 in
  _ ← upd_header (bh_block_size h) bit_size (bh_block_start h) (2 + byte_cnt) last table;
  _ ← need 8;
  saved ← take_bits 8;
  block_size ← take_bytes (Z.to_nat byte_cnt) 0 0;
  _ ← upd_header block_size bit_size (bh_block_start h) (2 + byte_cnt) last table;
  let chk := Z.land (Z.lxor (Z.lxor (Z.lxor (Z.lxor 0x5A flags) block_size) (Z.shiftr block_size 8)) (Z.shiftr block_size 16)) 0xFF in
  _ ← guard (chk =? saved);
  pos ← cur_bit;
  upd_header block_size bit_size (pos / 8) (2 + byte_cnt) (has_flag flags 0x40) (has_flag flags 0x80).

(** ** Code tables *)

(** The twenty lengths of the table code. *)
Fixpoint read_bitlen (fuel : nat) (bitlen : list Z) : M (Run R W) (list Z) :=
  match fuel with
  | O => out_of_fuel
  | S fuel' =>
      if zlen bitlen <? 20 then
        _ ← need 4;
        len ← take_bits 4;
        if len =? 15 then
          _ ← need 4;
          zc ← take_bits 4;
          if zc =? 0 then read_bitlen fuel' (bitlen ++ [15])
          else read_bitlen fuel' (bitlen ++ replicate (Z.to_nat (Z.min (zc + 2) (20 - zlen bitlen))) 0)
        else read_bitlen fuel' (bitlen ++ [len])
      else mret bitlen
  end.

(** [count] entries from [pos] on. *)
Fixpoint fill_table (count : nat) (table : list Z) (pos v : Z) : list Z :=
  match count with
  | O => table
  | S count' => fill_table count' (setZ table pos v) (pos + 1) v
  end.

Definition run_length (short : bool) : M (Run R W) Z :=
  if short then _ ← need 3; n ← take_bits 3; mret (n + 3)
  else _ ← need 7; n ← take_bits 7; mret (n + 11).

Fixpoint read_lengths (fuel : nat) (pos : Z) : M (Run R W) unit :=
  match fuel with
  | O => out_of_fuel
  | S fuel' =>
      c ← gets rn_core;
      let table_size := c_table_size c in
      let put v n :=
        let n := Z.min n (table_size - pos) in
        _ ← modify (set_core (fun c => set_table (fill_table (Z.to_nat n) (c_table c) pos v) (c_tables_ready c) c));
        read_lengths fuel' (pos + n) in
      if pos <? table_size then
        _ ← need 1;
        num ← symbol c_bd;
        if num <? 16 then put (u8 num) 1
        else if num <? 18 then
          n ← run_length (num =? 16);
          _ ← guard (negb (pos =? 0));
          put (nthZ (c_table c) (pos - 1)) n
        else
          n ← run_length (num =? 18);
          put 0 n
      else mret tt
  end.

(** [if (!x_decoder_.build(lens, count)) return false;] *)
Definition build_code (get : Core -> HuffmanDecoder) (put : HuffmanDecoder -> Core -> Core) (lens : list Z) : M (Run R W) unit :=
  c ← gets rn_core;
  '(ok, h) ← lift (build (get c) lens);
  _ ← modify (set_core (put h));
  guard ok.

Definition put_ld (h : HuffmanDecoder) (c : Core) : Core := set_codes h (c_dd c) (c_ldd c) (c_rd c) (c_bd c) c.
Definition put_dd (h : HuffmanDecoder) (c : Core) : Core := set_codes (c_ld c) h (c_ldd c) (c_rd c) (c_bd c) c.
Definition put_ldd (h : HuffmanDecoder) (c : Core) : Core := set_codes (c_ld c) (c_dd c) h (c_rd c) (c_bd c) c.
Definition put_rd (h : HuffmanDecoder) (c : Core) : Core := set_codes (c_ld c) (c_dd c) (c_ldd c) h (c_bd c) c.
Definition put_bd (h : HuffmanDecoder) (c : Core) : Core := set_codes (c_ld c) (c_dd c) (c_ldd c) (c_rd c) h c.

(** [table_ + from .. table_ + from + count] *)
Definition part (table : list Z) (from count : Z) : list Z := take (Z.to_nat count) (drop (Z.to_nat from) table).

Definition read_tables : M (Run R W) unit :=
  h ← gets rn_header;
  if negb (bh_table_present h) then mret tt
  else if bh_block_size h =? 0 then mret tt
  else
    bitlen ← read_bitlen 21 [];
    _ ← build_code c_bd put_bd bitlen;
    c ← gets rn_core;
    _ ← read_lengths (S (Z.to_nat (c_table_size c))) 0;
    c ← gets rn_core;
    let cur_dc := if c_extra_dist c then 80 else 64 in
    _ ← build_code c_ld put_ld (part (c_table c) 0 306);
    _ ← build_code c_dd put_dd (part (c_table c) 306 cur_dc);
    _ ← build_code c_ldd put_ldd (part (c_table c) (306 + cur_dc) 16);
    _ ← build_code c_rd put_rd (part (c_table c) (306 + cur_dc + 16) 44);
    modify (set_core (fun c => set_table (c_table c) true c)).

(** ** Tokens *)

(** [slot_to_length]: the length code of a slot, at most 4097. *)
Definition slot_to_length (slot : Z) : M (Run R W) Z :=
  if slot <? 8 then mret (2 + slot)
  else
    let l_bits := slot / 4 - 1 in
    let length := u32 (2 + Z.shiftl (Z.lor 4 (Z.land slot 3)) l_bits) in
    if l_bits >? 0 then extra ← take_bits l_bits; mret (u32 (length + extra))
    else mret length.

(** 0: truncated input. *)
Definition decode_match_distance (dist_slot : Z) : M (Run R W) Z :=
  if dist_slot <? 4 then mret (1 + dist_slot)
  else
    let d_bits := dist_slot / 2 - 1 in
    let distance := u64 (1 + Z.shiftl (Z.lor 2 (Z.land dist_slot 1)) d_bits) in
    if d_bits >=? 4 then
      let low distance :=
        left ← remaining;
        if left <? 1 then mret 0 else v ← symbol c_ldd; mret (u64 (distance + v)) in
      if d_bits >? 4 then
        let n := d_bits - 4 in
        left ← remaining;
        if left <? n then mret 0
        else
          extra ← (if d_bits >? 36 then take_bits64 n else take_bits n);
          low (u64 (distance + u64 (Z.shiftl extra 4)))
      else low distance
    else
      left ← remaining;
      if left <? d_bits then mret 0 else v ← take_bits d_bits; mret (u64 (distance + v)).

Definition engine {A} (f : ApplyEngine W -> A) : M (Run R W) A := gets (fun s => f (rn_engine s)).

Definition core (f : Core -> Core) : M (Run R W) unit := modify (set_core f).

(** [if (!engine_...) return window_alloc_failed();] *)
Definition window_op (op : W -> res (bool * W)) : M (Run R W) unit :=
  ok ← call rn_engine set_engine (fun e => '(ok, w) ← op (ae_win e); mret (ok, set_win e w));
  if ok : bool then mret tt else _ ← core (set_error AllocationFailed); stop.

(** The parameters of the call. *)
Context (cb : OutputCallback) (dest_size base_at_entry : Z) (single_block : bool).

Definition flush (flush_all : bool) (total_written : Z) : M (Run R W) unit :=
  zoom rn_engine set_engine (flush_pending cb flush_all base_at_entry total_written dest_size).

Definition cadence (total_written : Z) : M (Run R W) unit :=
  last_flushed ← engine ae_flushed;
  every ← engine (fun e => flush_cadence (ae_win e));
  completed ← engine (fun e => has_completed_filter e base_at_entry total_written);
  if ((total_written -s last_flushed) <? every) && negb completed then mret tt
  else flush false total_written.

(** A filter parameter: 1 to 4 bytes.  A failure of the first read fails the
    decode after the second, which reads on to no effect. *)
Definition read_filter_data : M (Run R W) Z :=
  _ ← need 2;
  byte_cnt ← take_bits 2;
  take_bytes (Z.to_nat (byte_cnt + 1)) 0 0.

(** The checks a region must pass before it is queued. *)
Definition queue_filter (type channels f_start f_len total_written filters_total_len : Z) : M (Run R W) Z :=
  c ← gets rn_core;
  win_size ← engine win_size_of;
  filters ← engine ae_filters;
  head ← engine ae_head;
  let rel_start := u64 (total_written + f_start) in
  _ ← guard (negb (rel_start <? f_start) && negb (base_at_entry >? (SIZE_MAX -s rel_start)));
  let block_start := u64 (base_at_entry + rel_start) in
  _ ← guard (negb (block_start >? SIZE_MAX));
  _ ← guard (negb (base_at_entry <? c_member_start c));
  let fe := {| fe_type := type; fe_channels := channels; fe_block_start := block_start;
               fe_file_offset := block_start -s c_member_start c; fe_block_length := f_len |} in
  _ ← guard (negb (f_len >? win_size));
  _ ← guard (negb (filters_total_len >? (SIZE_MAX -s f_len)));
  let filters_total_len := filters_total_len +s f_len in
  _ ← guard (negb (negb (dest_size =? SIZE_MAX) && (dest_size <=? (SIZE_MAX -s win_size)) &&
                   (filters_total_len >? (dest_size +s win_size))));
  _ ← match list.last filters with
      | None => mret tt
      | Some prev =>
          guard (negb ((block_start <? fe_block_start prev) || ((block_start -s fe_block_start prev) <? fe_block_length prev)))
      end;
  _ ← guard (negb (zlen filters - Z.of_nat head >=? 65536));
  _ ← modify (fun s => set_engine s (set_queue (filters ++ [fe]) head (rn_engine s)));
  mret filters_total_len.

Definition filter_token (total_written filters_total_len : Z) : M (Run R W) Z :=
  f_start ← read_filter_data;
  f_len ← read_filter_data;
  let f_len := if f_len >? 0x400000 then 0 else f_len in
  _ ← need 3;
  f_type ← take_bits 3;
  f_ch ← (if f_type =? 0 then _ ← need 5; n ← take_bits 5; mret (n + 1) else mret 1);
  queue_filter f_type f_ch f_start f_len total_written filters_total_len.

(** The copy of a match, cut at the end of the output, and the flush after it. *)
Definition copy_token (distance len total_written : Z) : M (Run R W) Z :=
  let len := if len >? (dest_size -s total_written) then u32 (dest_size -s total_written) else len in
  _ ← window_op (fun w => dict_match w distance len);
  let total_written := total_written +s len in
  _ ← cadence total_written;
  mret total_written.

(** A repeat distance that can be used. *)
Definition good_dist (distance win_size : Z) : bool :=
  negb ((distance =? SIZE_MAX) || (distance =? 0) || (distance >? win_size)).

(** Slot 257: the last match again. *)
Definition repeat_token (total_written : Z) : M (Run R W) Z :=
  c ← gets rn_core;
  win_size ← engine win_size_of;
  if negb (c_last_length c =? 0) then
    let distance := nthZ (c_old_dist c) 0 in
    _ ← guard (good_dist distance win_size);
    copy_token distance (u32 (c_last_length c)) total_written
  else mret total_written.

Definition push_dist (l : list Z) (distance : Z) : list Z := [distance; nthZ l 0; nthZ l 1; nthZ l 2].

(** Slots 262 and up: a match with its length and distance. *)
Definition match_token (slot total_written : Z) : M (Run R W) Z :=
  len ← slot_to_length (slot - 262);
  _ ← need 1;
  dist_slot ← symbol c_dd;
  c ← gets rn_core;
  _ ← guard (negb (dist_slot >=? (if c_extra_dist c then 80 else 64)));
  distance ← decode_match_distance dist_slot;
  win_size ← engine win_size_of;
  _ ← guard (negb ((distance =? 0) || (distance >? win_size)));
  tr ← is_truncated;
  _ ← guard (negb tr);
  let len := if distance >? 0x100 then
               let len := len + 1 in
               if distance >? 0x2000 then let len := len + 1 in if distance >? 0x40000 then len + 1 else len else len
             else len in
  _ ← core (fun c => set_reps (push_dist (c_old_dist c) distance) len c);
  copy_token distance len total_written.

(** [for (i = dist_num; i > 0; --i) old_dist[i] = old_dist[i - 1]; old_dist[0] = distance] *)
Definition move_front (l : list Z) (dist_num : Z) : list Z :=
  nthZ l dist_num :: take (Z.to_nat dist_num) l ++ drop (S (Z.to_nat dist_num)) l.

(** Slots 258 to 261: one of the last four distances. *)
Definition rep_token (slot total_written : Z) : M (Run R W) Z :=
  let dist_num := slot - 258 in
  c ← gets rn_core;
  win_size ← engine win_size_of;
  let distance := nthZ (c_old_dist c) dist_num in
  _ ← guard (good_dist distance win_size);
  _ ← core (fun c => set_reps (move_front (c_old_dist c) dist_num) (c_last_length c) c);
  _ ← need 1;
  len_slot ← symbol c_rd;
  len ← slot_to_length len_slot;
  tr ← is_truncated;
  _ ← guard (negb tr);
  _ ← core (fun c => set_reps (c_old_dist c) len c);
  copy_token distance len total_written.

(** One symbol of the main code; the new output position and filter budget. *)
Definition token (total_written filters_total_len : Z) : M (Run R W) (Z * Z) :=
  slot ← symbol c_ld;
  tr ← is_truncated;
  _ ← guard (negb tr);
  if slot <? 256 then
    _ ← window_op (fun w => dict_literal w slot);
    let total_written := total_written +s 1 in
    _ ← cadence total_written;
    mret (total_written, filters_total_len)
  else if slot =? 256 then
    n ← filter_token total_written filters_total_len; mret (total_written, n)
  else if slot =? 257 then
    t ← repeat_token total_written; mret (t, filters_total_len)
  else if slot >=? 262 then
    t ← match_token slot total_written; mret (t, filters_total_len)
  else
    t ← rep_token slot total_written; mret (t, filters_total_len).

(** ** The block loop *)

Definition block_end_bit (h : BlockHeader) : Z :=
  if bh_block_size h <=? 0 then u64 (bh_block_start h * 8)
  else u64 (u64 (bh_block_start h + bh_block_size h - 1) * 8 + bh_block_bit_size h).

(** A call whose failure is only noted. *)
Definition attempt (m : M (Run R W) unit) : M (Run R W) bool := fun s =>
  match m s with
  | Ok (Some _, s') => Ok (Some true, s')
  | Ok (None, s') => Ok (Some false, s')
  | Fail => Fail
  | Fault => Fault
  | Fuel => Fuel
  end.

(** [if (!header.table_present && !tables_ready_) return false;] *)
Definition check_tables : M (Run R W) unit :=
  h ← gets rn_header;
  c ← gets rn_core;
  guard (bh_table_present h || c_tables_ready c).

(** At the end of a block: [None] leaves the loop, otherwise the end of the next. *)
Definition next_block (strict : bool) : M (Run R W) (option Z) :=
  h ← gets rn_header;
  if single_block then mret None
  else if bh_last_block_in_file h then mret None
  else
    ok ← attempt read_block_header;
    if negb ok then mret None
    else
      _ ← read_tables;
      _ ← (if strict then check_tables else mret tt);
      h ← gets rn_header;
      mret (Some (block_end_bit h)).

Definition overran_block (end_bit bit : Z) : M (Run R W) unit :=
  h ← gets rn_header;
  guard (negb ((bh_block_size h >? 0) && (bit >? end_bit))).

(** [while (total_written < dest_size)]; returns the output position and the
    end of the block in force. *)
Fixpoint token_loop (fuel : nat) (total_written end_bit filters_total_len : Z) : M (Run R W) (Z * Z) :=
  match fuel with
  | O => out_of_fuel
  | S fuel' =>
      let next strict :=
        b ← next_block strict;
        match b with
        | None => mret (total_written, end_bit)
        | Some end_bit => token_loop fuel' total_written end_bit filters_total_len
        end in
      if total_written <? dest_size then
        bit ← cur_bit;
        if bit >=? end_bit then
          _ ← overran_block end_bit bit; next true
        else
          left ← remaining;
          if left <? 1 then next false
          else
            '(total_written, filters_total_len) ← token total_written filters_total_len;
            token_loop fuel' total_written end_bit filters_total_len
      else mret (total_written, end_bit)
  end.

(** From the first block header to the final flush. *)
Definition decode_blocks : M (Run R W) (Z * bool) :=
  _ ← modify (set_header (fun _ => BlockHeader_init));
  _ ← read_block_header;
  _ ← read_tables;
  _ ← check_tables;
  h ← gets rn_header;
  let end_bit := block_end_bit h in
  _ ← zoom rn_engine set_engine begin_call;
  bit ← cur_bit;
  _ ← overran_block end_bit bit;
  left ← remaining;
  '(total_written, end_bit) ← token_loop (S (Z.to_nat left)) 0 end_bit 0;
  bit ← cur_bit;
  _ ← overran_block end_bit bit;
  h ← gets rn_header;
  let last := bh_last_block_in_file h in
  _ ← flush (negb single_block || last) total_written;
  _ ← guard (negb (negb single_block && (total_written <? dest_size) && negb last));
  c ← gets rn_core;
  _ ← core (set_bases (u64 (base_at_entry + total_written)) (c_member_start c));
  mret (total_written, last).
End decoder.

(** ** The calls *)

Section calls.
Context {R W : Type} `{BitSource R} `{Dictionary W} (cb : OutputCallback).

(** Returns the bytes written and whether the last block ended the stream. *)
Definition decompress_internal (dest_size : Z) (solid single_block : bool) : M (Run R W) (Z * bool) :=
  c ← gets rn_core;
  _ ← guard (match c_last_error c with ErrOk => true | _ => false end);
  _ ← window_op (fun w => Ok (dict_alloc w));
  _ ← (if negb single_block || negb solid
       then modify (fun s => set_engine s (set_queue [] 0 (rn_engine s))) else mret tt);
  let base_at_entry := if solid then c_file_base c else 0 in
  _ ← (if negb solid then
         _ ← modify (fun s => set_engine s (set_win (rn_engine s) (dict_reset (ae_win (rn_engine s)))));
         core (fun c => set_table (replicate 446 0) false (set_reps no_dist 0 (set_bases 0 0 c)))
       else if negb single_block then core (fun c => set_bases (c_file_base c) base_at_entry c)
       else mret tt);
  if dest_size =? 0 then mret (0, false)
  else decode_blocks cb dest_size base_at_entry single_block.

(** A call on the decoder object with a reader of its own. *)
Definition with_reader {A} (r : R) (m : M (Run R W) A) : M (Decompressor50 W) A := fun d =>
  let s := {| rn_reader := r; rn_engine := dc_engine d; rn_core := dc_core d; rn_header := BlockHeader_init |} in
  match m s with
  | Ok (o, s') => Ok (o, {| dc_engine := rn_engine s'; dc_core := rn_core s' |})
  | Fail => Fail
  | Fault => Fault
  | Fuel => Fuel
  end.

(** [decompress], over the reader made from [src] or from a callback, and
    [decompress_block]. *)
Definition decompress (r : R) (src_size dest_size : Z) (solid : bool) : M (Decompressor50 W) (Z * bool) :=
  if (src_size =? 0) || (dest_size =? 0) then mret (0, false)
  else with_reader r (decompress_internal dest_size solid false).

Definition decompress_block (r : R) (src_size : Z) (solid : bool) : M (Decompressor50 W) (Z * bool) :=
  if src_size =? 0 then mret (0, false)
  else with_reader r (decompress_internal SIZE_MAX solid true).
End calls.

(** ** The decoder over a reader and a window refines the one over bits and history *)

Definition code_ok (h : HuffmanDecoder) : Prop := Forall (fun e => 0 <= e) (hd_quick h).

Definition core_ok (c : Core) : Prop :=
  code_ok (c_ld c) /\ code_ok (c_dd c) /\ code_ok (c_ldd c) /\ code_ok (c_rd c) /\ code_ok (c_bd c).

Lemma advance_len_le k v dlen : (advance_len k v dlen <= k)%nat.
Proof. induction k as [|k IH]; cbn [advance_len]; [done|]. destruct (_ >=? _); lia. Qed.

Lemma place_symbols_nonneg lens i pos num num' :
  place_symbols lens i pos num = Ok num' -> Forall (fun e => 0 <= e) num -> Forall (fun e => 0 <= e) num'.
Proof.
  revert i pos num. induction lens as [|l lens IH]; intros i pos num E HF; cbn [place_symbols] in E; [by injection E as <-|].
  destruct (negb _); [|by apply (IH _ _ _ E)].
  destruct (store num (nthZ pos (Z.land l 0xF)) [u16 i]) as [n1| | |] eqn:Es; try done. rewrite bind_ok in E.
  apply (IH _ _ _ E). unfold store in Es. case_match; [|done]. injection Es as <-.
  apply Forall_app_2; [by apply Forall_take|].
  apply Forall_cons_2; [by apply (wrap_range 16)|by apply Forall_drop].
Qed.

Lemma build_quick_nonneg codes code k h q :
  (k <= 15)%nat -> Forall (fun e => 0 <= e) (hd_num h) -> build_quick codes code k h = Ok q -> Forall (fun e => 0 <= e) q.
Proof.
  intros Hk HF. revert code k q Hk. induction codes as [|codes IH]; intros code k q Hk E; cbn [build_quick] in E; [injection E as <-; constructor|].
  set (k' := advance_len k (Z.shiftl code (16 - QUICK_BITS)) (hd_len h)) in *.
  assert (Hk' : (k' <= 15)%nat) by (pose proof (advance_len_le k (Z.shiftl code (16 - QUICK_BITS)) (hd_len h)); lia).
  destruct (quick_entry h _ _) as [e| | |] eqn:Ee; try done. rewrite bind_ok in E.
  destruct (build_quick codes (code + 1) k' h) as [t| | |] eqn:Et; try done. rewrite bind_ok in E. injection E as <-.
  apply Forall_cons_2; [|by apply (IH _ _ _ Hk' Et)]. unfold quick_entry in Ee. destruct (_ >? _); [by injection Ee as <-|].
  destruct (byte_at (hd_len h) _) as [dl| | |]; try done. rewrite bind_ok in Ee.
  destruct (byte_at (hd_pos h) _) as [dp| | |]; try done. rewrite bind_ok in Ee.
  set (pos := u32 _) in *. destruct (if pos <? hd_max_num h then byte_at (hd_num h) pos else Ok 0) as [sy| | |] eqn:Es; try done.
  rewrite bind_ok in Ee. injection Ee as <-. apply Z.lor_nonneg. split.
  { apply Z.shiftl_nonneg. clear -Hk'. destruct (16 - Z.of_nat k' >=? 16); lia. }
 
  case_match; [|by injection Es as <-]. unfold byte_at in Es. case_match; [done|].
  destruct (hd_num h !! Z.to_nat pos) eqn:El; [|done]. injection Es as <-. rewrite Forall_lookup in HF. by apply (HF _ _ El).
Qed.

Lemma build_code_ok h lens ok h' : code_ok h -> build h lens = Ok (ok, h') -> code_ok h'.
Proof.
  intros Hh. unfold build. generalize (Z.to_nat QUICK_SIZE). intros qs E. destruct (_ >? _); [by injection E as <- <-|]. destruct (existsb _ _); [by injection E as <- <-|].
  destruct (build_levels 15 _ 0 _ _) as [[ok' dlen] dpos]. destruct ok'; cbn [negb] in E.
  2: { injection E as <- <-. unfold code_ok. cbn [hd_quick]. by apply Forall_replicate. }
  cbn [hd_quick] in E. destruct (place_symbols lens 0 dpos (replicate 306 0)) as [num| | |] eqn:Ep; try done. rewrite bind_ok in E.
  match type of E with (?m ≫= _) = _ => destruct m as [q| | |] eqn:Eq; try done end. rewrite bind_ok in E. injection E as <- <-.
  unfold code_ok. cbn [hd_quick]. refine (build_quick_nonneg _ _ 15 _ q ltac:(lia) _ Eq). cbn [hd_num].
  apply (place_symbols_nonneg _ _ _ _ _ Ep). by apply Forall_replicate.
Qed.

Section refinement.
Context {R W : Type} `{BitSourceLaws R} `{DictionaryLaws W} (size : Z).
Implicit Types (s : Run R W) (t : Run Bits History).

Record run_rel s t : Prop := {
  rr_reader : bits_abs (rn_reader s) (rn_reader t);
  rr_engine : engine_rel size (rn_engine s) (rn_engine t);
  rr_core : rn_core s = rn_core t;
  rr_header : rn_header s = rn_header t;
  rr_ok : core_ok (rn_core t)
}.

Section reading.
Context (Stop : Run R W -> Prop).

Abbreviation rsim := (sim run_rel Stop).

Lemma rsim_gets_core {A} (k1 : Core -> M (Run R W) A) (k2 : Core -> M (Run Bits History) A) :
  (forall c, core_ok c -> rsim (k1 c) (k2 c)) -> rsim (gets rn_core ≫= k1) (gets rn_core ≫= k2).
Proof. intros Hk s t HR. unfold sim_at. rewrite !M_gets, (rr_core s t HR). by apply Hk; [apply (rr_ok s t HR)|]. Qed.

Lemma rsim_gets_header : rsim (gets rn_header) (gets rn_header).
Proof. apply sim_gets. by intros s t []. Qed.

Lemma rsim_remaining : rsim remaining remaining.
Proof. apply sim_gets. intros s t HR. apply (bits_remaining_law _ _ (rr_reader s t HR)). Qed.

Lemma rsim_cur_bit : rsim cur_bit cur_bit.
Proof. apply sim_gets. intros s t HR. apply (bit_pos_law _ _ (rr_reader s t HR)). Qed.

Lemma rsim_truncated : rsim is_truncated is_truncated.
Proof. apply sim_gets. intros s t HR. apply (truncated_law _ _ (rr_reader s t HR)). Qed.

Lemma rsim_reader {A} (f : R -> res (A * R)) (g : Bits -> res (A * Bits)) :
  (forall r b, bits_abs r b -> refines bits_abs (f r) (g b)) ->
  rsim (call rn_reader set_reader f) (call rn_reader set_reader g).
Proof.
  intros Hf s t HR. pose proof (Hf _ _ (rr_reader s t HR)) as RF. unfold sim_at, call, zoom.
  destruct (g (rn_reader t)) as [[a b]| | |] eqn:Eg; try done. destruct RF as (r & -> & HA).
  exists (Some a), (set_reader s r). split; [done|left]. split; [done|]. destruct HR. by split.
Qed.

Lemma rsim_take_bits n : 0 <= n -> rsim (take_bits n) (take_bits n).
Proof. intros Hn. apply rsim_reader. intros r b HA. by apply get_bits_law. Qed.

Lemma rsim_take_bits64 n : 0 <= n -> rsim (take_bits64 n) (take_bits64 n).
Proof. intros Hn. apply rsim_reader. intros r b HA. by apply get_bits64_law. Qed.

Lemma rsim_align : rsim align align.
Proof.
  apply rsim_reader. intros r b HA. destruct (align_byte_law r b HA) as (r' & b' & E1 & E2 & HA').
  rewrite E1, E2. by exists r'.
Qed.

Lemma rsim_symbol code : (forall c, core_ok c -> code_ok (code c)) -> rsim (symbol code) (symbol code).
Proof.
  intros Hc s t HR. apply (rsim_reader (decode (code (rn_core s))) (decode (code (rn_core t)))); [|done].
  intros r b HA. rewrite (rr_core s t HR). apply decode_refines; [apply Hc, (rr_ok s t HR)|done].
Qed.

Lemma rsim_set_core f : (forall c, core_ok c -> core_ok (f c)) -> rsim (modify (set_core f)) (modify (set_core f)).
Proof. intros Hf. apply sim_modify. intros s t []. split; try done; cbn; [congruence|by apply Hf]. Qed.

Lemma rsim_set_header f : rsim (modify (set_header f)) (modify (set_header f)).
Proof. apply sim_modify. intros s t []. split; try done; cbn. congruence. Qed.

Lemma rsim_engine {A} (f : ApplyEngine W -> A) (g : ApplyEngine History -> A) :
  (forall e e', engine_rel size e e' -> f e = g e') -> rsim (engine f) (engine g).
Proof. intros Hf. apply sim_gets. intros s t HR. apply Hf, (rr_engine s t HR). Qed.


(** One step of a simulation proof over [Run]. *)
Ltac rsim_one :=
  first
    [ apply sim_ret | apply sim_stop | apply sim_guard | apply sim_lift | apply sim_out_of_fuel
    | apply rsim_remaining | apply rsim_cur_bit | apply rsim_truncated | apply rsim_gets_header | apply rsim_align
    | apply rsim_set_header
    | apply rsim_take_bits; lia
    | apply rsim_gets_core; intros ? ?
    | apply sim_bind; [|intros ?] ].
Ltac rsim_go := repeat rsim_one.

Lemma rsim_need n : rsim (need n) (need n).
Proof. unfold need. rsim_go. Qed.

Lemma rsim_take_bytes k i v : rsim (take_bytes k i v) (take_bytes k i v).
Proof. revert i v. induction k as [|k IH]; intros i v; cbn [take_bytes]; [apply sim_ret|]. apply sim_bind; [apply rsim_need|intros _]. rsim_go. apply IH. Qed.

Lemma rsim_read_block_header : rsim read_block_header read_block_header.
Proof. unfold read_block_header, upd_header. repeat first [apply rsim_need | apply rsim_take_bytes | rsim_one]. Qed.

Lemma rsim_read_bitlen f l : rsim (read_bitlen f l) (read_bitlen f l).
Proof.
  revert l. induction f as [|f IH]; intros l; cbn [read_bitlen]; [apply sim_out_of_fuel|].
  repeat first [apply rsim_need | rsim_one | apply sim_if | apply IH].
Qed.

Lemma rsim_run_length b : rsim (run_length b) (run_length b).
Proof. unfold run_length. repeat first [apply rsim_need | rsim_one | apply sim_if]. Qed.

Lemma core_ok_table table ready c : core_ok c -> core_ok (set_table table ready c).
Proof. done. Qed.

Lemma rsim_read_lengths f pos : rsim (read_lengths f pos) (read_lengths f pos).
Proof.
  revert pos. induction f as [|f IH]; intros pos; cbn [read_lengths]; [apply sim_out_of_fuel|].
  apply rsim_gets_core. intros c Hc.
  assert (Hput : forall v n, rsim
    (_ ← modify (set_core (fun c => set_table (fill_table (Z.to_nat n) (c_table c) pos v) (c_tables_ready c) c)); read_lengths f (pos + n))
    (_ ← modify (set_core (fun c => set_table (fill_table (Z.to_nat n) (c_table c) pos v) (c_tables_ready c) c)); read_lengths f (pos + n))).
  { intros v n. apply sim_bind; [apply rsim_set_core; intros; by apply core_ok_table|intros _; apply IH]. }
  repeat first [apply rsim_need | apply Hput | apply rsim_run_length
               | apply rsim_symbol; intros d (D1 & D2 & D3 & D4 & D5); assumption | rsim_one | apply sim_if].
Qed.

Lemma rsim_build_code get put lens :
  (forall c, core_ok c -> code_ok (get c)) -> (forall c h, core_ok c -> code_ok h -> core_ok (put h c)) ->
  rsim (build_code get put lens) (build_code get put lens).
Proof.
  intros Hg Hp. unfold build_code. apply rsim_gets_core. intros c Hc.
  apply (sim_bind_returns _ _ (fun p => code_ok p.2)); [|apply sim_lift|].
  - intros t [ok h] t' E. unfold lift in E. destruct (build (get c) lens) as [[ok' h']| | |] eqn:Eb; try done.
    injection E as <- <- <-. by apply (build_code_ok _ _ _ _ (Hg c Hc) Eb).
  - intros [ok h] Hh. apply sim_bind; [apply rsim_set_core; intros d Hd; by apply Hp|intros _; apply sim_guard].
Qed.

Lemma rsim_read_tables : rsim read_tables read_tables.
Proof.
  unfold read_tables. apply sim_bind; [apply rsim_gets_header|intros h]. do 2 (apply sim_if; [apply sim_ret|]).
  apply sim_bind; [apply rsim_read_bitlen|intros bl].
  assert (HB : forall lens, rsim (build_code c_ld put_ld lens) (build_code c_ld put_ld lens) /\
     rsim (build_code c_dd put_dd lens) (build_code c_dd put_dd lens) /\ rsim (build_code c_ldd put_ldd lens) (build_code c_ldd put_ldd lens) /\
     rsim (build_code c_rd put_rd lens) (build_code c_rd put_rd lens) /\ rsim (build_code c_bd put_bd lens) (build_code c_bd put_bd lens)).
  { intros lens. split_and!; apply rsim_build_code; intros c; try (intros (D1 & D2 & D3 & D4 & D5); assumption);
      intros h' (D1 & D2 & D3 & D4 & D5) Hh; split_and!; assumption. }
  apply sim_bind; [apply HB|intros _]. apply rsim_gets_core. intros c Hc. apply sim_bind; [apply rsim_read_lengths|intros _].
  apply rsim_gets_core. intros c' Hc'. do 4 (apply sim_bind; [apply HB|intros _]). apply rsim_set_core. intros d Hd. by apply core_ok_table.
Qed.

Lemma rsim_slot_to_length slot : rsim (slot_to_length slot) (slot_to_length slot).
Proof.
  unfold slot_to_length. apply sim_if; [apply sim_ret|]. cbv zeta. destruct (slot / 4 - 1 >? 0) eqn:E; [|apply sim_ret].
  rewrite Z.gtb_ltb in E. apply Z.ltb_lt in E. rsim_go.
Qed.

Lemma rsim_match_distance ds : rsim (decode_match_distance ds) (decode_match_distance ds).
Proof.
  unfold decode_match_distance. destruct (Z.ltb_spec ds 4) as [|Hds]; [apply sim_ret|]. cbv zeta.
  assert (Hd : 1 <= ds / 2 - 1) by dlia. set (d := ds / 2 - 1) in *. clearbody d.
  set (dist := u64 (1 + _)). clearbody dist.
  assert (Hlow : forall x, rsim (left ← remaining; if left <? 1 then mret 0 else v ← symbol c_ldd; mret (u64 (x + v)))
                                (left ← remaining; if left <? 1 then mret 0 else v ← symbol c_ldd; mret (u64 (x + v)))).
  { intros x. apply sim_bind; [apply rsim_remaining|intros left]. apply sim_if; [apply sim_ret|].
    apply sim_bind; [apply rsim_symbol; intros c (D1 & D2 & D3 & D4 & D5); assumption|intros v; apply sim_ret]. }
  apply sim_if.
  - rewrite Z.gtb_ltb. destruct (Z.ltb_spec 4 d); [|apply Hlow].
    apply sim_bind; [apply rsim_remaining|intros left]. apply sim_if; [apply sim_ret|].
    apply sim_bind; [|intros x; apply Hlow]. apply sim_if; [apply rsim_take_bits64; lia|apply rsim_take_bits; lia].
  - apply sim_bind; [apply rsim_remaining|intros left]. apply sim_if; [apply sim_ret|]. rsim_go.
Qed.

Lemma rsim_core f : (forall c, core_ok c -> core_ok (f c)) -> rsim (core f) (core f).
Proof. apply rsim_set_core. Qed.
End reading.

Section decoding.
Context (cb : OutputCallback).

(** The reasons of its own the real decoder has to stop. *)
Definition decoder_stop (e : ApplyEngine W) (c : Core) : Prop :=
  engine_stop cb e \/ (c_last_error c = AllocationFailed /\ ~ dict_grants).

Definition run_stop s : Prop := decoder_stop (rn_engine s) (rn_core s).

Abbreviation rsim := (sim run_rel run_stop).

Lemma rsim_flush dest base flush_all total :
  0 <= total < 2 ^ 64 -> rsim (flush cb dest base flush_all total) (flush (accept_all cb) dest base flush_all total).
Proof.
  intros Ht. apply (sim_zoom _ _ (engine_rel size) (engine_stop cb)).
  - intros s t HR. apply (rr_engine s t HR).
  - intros s t e1 e2 [] HE. by split.
  - intros s t e1 HR HS. by left.
  - by apply esim_flush_pending.
Qed.

Lemma rsim_window_op (op1 : W -> res (bool * W)) (op2 : History -> res (bool * History)) :
  (forall w h r, dict_abs w h -> op2 h = Ok r -> exists h' ok w', r = (true, h') /\ h_size h' = h_size h /\ op1 w = Ok (ok, w') /\
     dict_abs w' (if ok : bool then h' else h) /\ (dict_grants -> ok = true)) ->
  rsim (window_op op1) (window_op op2).
Proof.
  intros Hop s t HR. unfold sim_at, window_op.
  destruct (op2 (ae_win (rn_engine t))) as [r| | |] eqn:E2;
    [|by unfold mbind, M_bind, call, zoom; rewrite E2..].
  destruct (Hop _ _ r (er_win _ _ _ (rr_engine s t HR)) E2) as (h' & ok & w' & -> & Hs & E1 & HA & HG).
  rewrite (M_bind_some _ _ t true (set_engine t (set_win (rn_engine t) h')))
    by (unfold call, zoom; by rewrite E2).
  rewrite (M_bind_some _ _ s ok (set_engine s (set_win (rn_engine s) w'))) by (unfold call, zoom; by rewrite E1).
  destruct ok.
  - exists (Some tt), (set_engine s (set_win (rn_engine s) w')). split; [done|left]. split; [done|].
    destruct HR as [Q1 Q2 Q3 Q4 Q5]. split; try done. destruct Q2. split; try done. cbn. congruence.
  - eexists _, _. split; [reflexivity|]. right. split; [done|]. right. split; [done|]. intros G. by specialize (HG G).
Qed.

Lemma rsim_literal slot : rsim (window_op (fun w => dict_literal w slot)) (window_op (fun h => dict_literal h slot)).
Proof.
  apply rsim_window_op. intros w h r HA E. cbn in E. destruct (h_ready h) eqn:Hr; [|done]. injection E as <-.
  destruct (dict_literal_law w h slot (h_set h (h_bytes h ++ [u8 slot])) HA) as (ok & w' & E1 & A & G); [cbn; by rewrite Hr|].
  exists (h_set h (h_bytes h ++ [u8 slot])), ok, w'. by split_and!.
Qed.

Lemma rsim_match d n : rsim (window_op (fun w => dict_match w d n)) (window_op (fun h => dict_match h d n)).
Proof.
  apply rsim_window_op. intros w h r HA E. cbn in E.
  destruct (h_ready h && _ && _ && _ && _) eqn:Hc; [|done]. injection E as <-.
  destruct (dict_match_law w h d n (h_set h (lz_match d n (h_bytes h))) HA) as (ok & w' & E1 & A & G); [cbn; by rewrite Hc|].
  exists (h_set h (lz_match d n (h_bytes h))), ok, w'. by split_and!.
Qed.

Lemma rsim_alloc : rsim (window_op (fun w => Ok (dict_alloc w))) (window_op (fun h => Ok (dict_alloc h))).
Proof.
  apply rsim_window_op. intros w h r HA E. injection E as <-. pose proof (dict_alloc_law w h HA) as AL.
  destruct (dict_alloc w) as [ok w']. destruct AL as [A G]. eexists _, ok, w'. by split_and!.
Qed.

Section params.
Context (dest_size base : Z) (single_block : bool).

Lemma rsim_cadence total :
  0 <= total < 2 ^ 64 -> rsim (cadence cb dest_size base total) (cadence (accept_all cb) dest_size base total).
Proof.
  intros Ht. unfold cadence.
  apply sim_bind; [apply rsim_engine; intros e e' []; congruence|intros last].
  apply sim_bind; [apply rsim_engine; intros e e' HE; unfold flush_cadence; by rewrite (dict_size_law _ _ (er_win _ _ _ HE))|intros every].
  apply sim_bind; [apply rsim_engine; intros e e' HE; unfold has_completed_filter; by rewrite (er_filters _ _ _ HE), (er_head _ _ _ HE)|intros completed].
  apply sim_if; [apply sim_ret|by apply rsim_flush].
Qed.

Lemma rsim_copy_token d len total :
  rsim (copy_token cb dest_size base d len total) (copy_token (accept_all cb) dest_size base d len total).
Proof.
  unfold copy_token. cbv zeta. apply sim_bind; [apply rsim_match|intros _].
  apply sim_bind; [apply rsim_cadence, size_add_range|intros _]. apply sim_ret.
Qed.

Lemma rsim_win_size : rsim (engine win_size_of) (engine win_size_of).
Proof. apply rsim_engine. intros e e' HE. unfold win_size_of. apply (dict_size_law _ _ (er_win _ _ _ HE)). Qed.

Lemma rsim_queue_filter ty ch fs fl total budget :
  rsim (queue_filter dest_size base ty ch fs fl total budget) (queue_filter dest_size base ty ch fs fl total budget).
Proof.
  unfold queue_filter. apply rsim_gets_core. intros c Hc. apply sim_bind; [apply rsim_win_size|intros ws].
  apply sim_bind; [apply rsim_engine; intros e e' []; congruence|intros filters].
  apply sim_bind; [apply rsim_engine; intros e e' []; congruence|intros head]. cbv zeta.
  do 6 (apply sim_bind; [apply sim_guard|intros _]).
  apply sim_bind; [destruct (list.last filters); [apply sim_guard|apply sim_ret]|intros _]. apply sim_bind; [apply sim_guard|intros _].
  apply sim_bind; [|intros _; apply sim_ret]. apply sim_modify. intros s t []. split; try done. destruct rr_engine0. by split.
Qed.

Lemma rsim_read_filter_data : rsim read_filter_data read_filter_data.
Proof. unfold read_filter_data. repeat first [apply rsim_need | apply rsim_take_bytes | apply rsim_take_bits; lia | sim_step]. Qed.

Lemma rsim_filter_token total budget :
  rsim (filter_token dest_size base total budget) (filter_token dest_size base total budget).
Proof.
  unfold filter_token. do 2 (apply sim_bind; [apply rsim_read_filter_data|intros ?]). cbv zeta.
  apply sim_bind; [apply rsim_need|intros _]. apply sim_bind; [by apply rsim_take_bits|intros ty].
  apply sim_bind; [|intros ch; apply rsim_queue_filter]. apply sim_if; [|apply sim_ret].
  apply sim_bind; [apply rsim_need|intros _]. apply sim_bind; [by apply rsim_take_bits|intros n; apply sim_ret].
Qed.

Lemma rsim_repeat_token total :
  rsim (repeat_token cb dest_size base total) (repeat_token (accept_all cb) dest_size base total).
Proof.
  unfold repeat_token. apply rsim_gets_core. intros c Hc. apply sim_bind; [apply rsim_win_size|intros ws].
  apply sim_if; [|apply sim_ret]. cbv zeta. apply sim_bind; [apply sim_guard|intros _]. apply rsim_copy_token.
Qed.

Lemma rsim_match_token slot total :
  rsim (match_token cb dest_size base slot total) (match_token (accept_all cb) dest_size base slot total).
Proof.
  unfold match_token. apply sim_bind; [apply rsim_slot_to_length|intros len]. apply sim_bind; [apply rsim_need|intros _].
  apply sim_bind; [apply rsim_symbol; intros c (D1 & D2 & D3 & D4 & D5); assumption|intros ds].
  apply rsim_gets_core. intros c Hc. apply sim_bind; [apply sim_guard|intros _].
  apply sim_bind; [apply rsim_match_distance|intros d]. apply sim_bind; [apply rsim_win_size|intros ws].
  apply sim_bind; [apply sim_guard|intros _]. apply sim_bind; [apply rsim_truncated|intros tr].
  apply sim_bind; [apply sim_guard|intros _]. cbv zeta. apply sim_bind; [by apply rsim_core|intros _]. apply rsim_copy_token.
Qed.

Lemma rsim_rep_token slot total :
  rsim (rep_token cb dest_size base slot total) (rep_token (accept_all cb) dest_size base slot total).
Proof.
  unfold rep_token. cbv zeta. apply rsim_gets_core. intros c Hc. apply sim_bind; [apply rsim_win_size|intros ws].
  apply sim_bind; [apply sim_guard|intros _]. apply sim_bind; [by apply rsim_core|intros _]. apply sim_bind; [apply rsim_need|intros _].
  apply sim_bind; [apply rsim_symbol; intros d (D1 & D2 & D3 & D4 & D5); assumption|intros ls].
  apply sim_bind; [apply rsim_slot_to_length|intros len]. apply sim_bind; [apply rsim_truncated|intros tr].
  apply sim_bind; [apply sim_guard|intros _]. apply sim_bind; [by apply rsim_core|intros _]. apply rsim_copy_token.
Qed.

Lemma rsim_token total budget :
  rsim (token cb dest_size base total budget) (token (accept_all cb) dest_size base total budget).
Proof.
  unfold token. apply sim_bind; [apply rsim_symbol; intros c (D1 & D2 & D3 & D4 & D5); assumption|intros slot].
  apply sim_bind; [apply rsim_truncated|intros tr]. apply sim_bind; [apply sim_guard|intros _].
  apply sim_if; [|apply sim_if; [|apply sim_if; [|apply sim_if]]]; (apply sim_bind; [|intros ?; try apply sim_ret]).
  - apply rsim_literal.
  - cbv zeta. apply sim_bind; [apply rsim_cadence, size_add_range|intros _; apply sim_ret].
  - apply rsim_filter_token.
  - apply rsim_repeat_token.
  - apply rsim_match_token.
  - apply rsim_rep_token.
Qed.

(** A noted failure is the same failure: reading a header never stops for
    reasons of the window or the callback. *)
Lemma rsim_attempt (m1 : M (Run R W) unit) (m2 : M (Run Bits History) unit) :
  sim run_rel (fun _ => False) m1 m2 -> rsim (attempt m1) (attempt m2).
Proof.
  intros Hm s t HR. specialize (Hm s t HR). unfold sim_at, attempt in *. destruct (m2 t) as [[o t']| | |]; [|done..].
  destruct Hm as (o1 & s' & -> & [[-> HR']|[_ []]]).
  destruct o; [exists (Some true), s'|exists (Some false), s']; (split; [done|by left]).
Qed.
End params.

Lemma rsim_next_block single strict : rsim (next_block single strict) (next_block single strict).
Proof.
  unfold next_block. apply sim_bind; [apply rsim_gets_header|intros h]. do 2 (apply sim_if; [apply sim_ret|]).
  apply sim_bind; [apply rsim_attempt, rsim_read_block_header|intros ok]. apply sim_if; [apply sim_ret|].
  apply sim_bind; [apply rsim_read_tables|intros _]. apply sim_bind.
  - apply sim_if; [|apply sim_ret]. unfold check_tables. apply sim_bind; [apply rsim_gets_header|intros h'].
    apply rsim_gets_core. intros c Hc. apply sim_guard.
  - intros _. apply sim_bind; [apply rsim_gets_header|intros h']. apply sim_ret.
Qed.

Lemma rsim_overran end_bit bit : rsim (overran_block end_bit bit) (overran_block end_bit bit).
Proof. unfold overran_block. apply sim_bind; [apply rsim_gets_header|intros h]. apply sim_guard. Qed.

Lemma copy_token_returns {R' W'} `{BitSource R'} `{Dictionary W'} cb' dest base d len total :
  returns (fun x : Z => 0 <= x < 2 ^ 64) (copy_token (R := R') (W := W') cb' dest base d len total).
Proof. unfold copy_token. do 2 (apply returns_bind; intros _). apply returns_ret, size_add_range. Qed.

Lemma token_returns {R' W'} `{BitSource R'} `{Dictionary W'} cb' dest base total budget :
  0 <= total < 2 ^ 64 -> returns (fun p => 0 <= p.1 < 2 ^ 64) (token (R := R') (W := W') cb' dest base total budget).
Proof.
  intros Ht. unfold token. apply returns_bind; intros slot. apply returns_bind; intros tr. apply returns_bind; intros _.
  repeat apply returns_if.
  - apply returns_bind; intros _. cbv zeta. apply returns_bind; intros _. apply returns_ret, size_add_range.
  - apply returns_bind; intros n. by apply returns_ret.
  - apply (returns_bind_value (fun x : Z => 0 <= x < 2 ^ 64)); [|intros t Ht'; by apply returns_ret].
    unfold repeat_token. do 2 (apply returns_bind; intros ?). apply returns_if; [|by apply returns_ret].
    cbv zeta. apply returns_bind; intros _. apply copy_token_returns.
  - apply (returns_bind_value (fun x : Z => 0 <= x < 2 ^ 64)); [|intros t Ht'; by apply returns_ret].
    unfold match_token. do 11 (apply returns_bind; intros ?). apply copy_token_returns.
  - apply (returns_bind_value (fun x : Z => 0 <= x < 2 ^ 64)); [|intros t Ht'; by apply returns_ret].
    unfold rep_token. cbv zeta. do 10 (apply returns_bind; intros ?). apply copy_token_returns.
Qed.

Lemma rsim_token_loop dest base single f total end_bit budget :
  0 <= total < 2 ^ 64 ->
  rsim (token_loop cb dest base single f total end_bit budget) (token_loop (accept_all cb) dest base single f total end_bit budget).
Proof.
  revert total end_bit budget. induction f as [|f IH]; intros total end_bit budget Ht; cbn [token_loop]; [apply sim_out_of_fuel|].
  assert (Hnext : forall strict, rsim
    (b ← next_block single strict; match b with None => mret (total, end_bit) | Some end_bit => token_loop cb dest base single f total end_bit budget end)
    (b ← next_block single strict; match b with None => mret (total, end_bit) | Some end_bit => token_loop (accept_all cb) dest base single f total end_bit budget end)).
  { intros strict. apply sim_bind; [apply rsim_next_block|]. intros [b|]; [by apply IH|apply sim_ret]. }
  apply sim_if; [|apply sim_ret]. apply sim_bind; [apply rsim_cur_bit|intros bit]. apply sim_if.
  - apply sim_bind; [apply rsim_overran|intros _; apply Hnext].
  - apply sim_bind; [apply rsim_remaining|intros left]. apply sim_if; [apply Hnext|].
    apply (sim_bind_returns _ _ (fun p => 0 <= p.1 < 2 ^ 64)); [by apply token_returns|apply rsim_token|].
    intros [t b] Hp. by apply IH.
Qed.

Lemma token_loop_returns {R' W'} `{BitSource R'} `{Dictionary W'} cb' dest base single f total end_bit budget :
  0 <= total < 2 ^ 64 ->
  returns (fun p => 0 <= p.1 < 2 ^ 64) (token_loop (R := R') (W := W') cb' dest base single f total end_bit budget).
Proof.
  revert total end_bit budget. induction f as [|f IH]; intros total end_bit budget Ht; cbn [token_loop]; [by intros ? ? ? ?|].
  apply returns_if; [|by apply returns_ret]. apply returns_bind; intros bit. apply returns_if.
  - apply returns_bind; intros _. apply returns_bind; intros [b|]; [by apply IH|by apply returns_ret].
  - apply returns_bind; intros left. apply returns_if.
    + apply returns_bind; intros [b|]; [by apply IH|by apply returns_ret].
    + apply (returns_bind_value (fun p => 0 <= p.1 < 2 ^ 64)); [by apply token_returns|]. intros [t b] Hp. by apply IH.
Qed.

Lemma rsim_decode_blocks dest base single :
  rsim (decode_blocks cb dest base single) (decode_blocks (accept_all cb) dest base single).
Proof.
  unfold decode_blocks. apply sim_bind; [apply rsim_set_header|intros _]. apply sim_bind; [apply rsim_read_block_header|intros _].
  apply sim_bind; [apply rsim_read_tables|intros _]. apply sim_bind.
  { unfold check_tables. apply sim_bind; [apply rsim_gets_header|intros h]. apply rsim_gets_core. intros c Hc. apply sim_guard. }
  intros _. apply sim_bind; [apply rsim_gets_header|intros h]. cbv zeta. apply sim_bind.
  { apply (sim_zoom _ _ (engine_rel size) (engine_stop cb)).
    - intros s t HR. apply (rr_engine s t HR).
    - intros s t e1 e2 [] HE. by split.
    - intros s t e1 HR HS. by left.
    - by apply esim_set_flushed. }
  intros _. apply sim_bind; [apply rsim_cur_bit|intros bit]. apply sim_bind; [apply rsim_overran|intros _].
  apply sim_bind; [apply rsim_remaining|intros left].
  apply (sim_bind_returns _ _ (fun p => 0 <= p.1 < 2 ^ 64)); [by apply token_loop_returns|by apply rsim_token_loop|].
  intros [total end_bit'] Hp. apply sim_bind; [apply rsim_cur_bit|intros bit']. apply sim_bind; [apply rsim_overran|intros _].
  apply sim_bind; [apply rsim_gets_header|intros h']. apply sim_bind; [by apply rsim_flush|intros _].
  apply sim_bind; [apply sim_guard|intros _]. apply rsim_gets_core. intros c Hc.
  apply sim_bind; [by apply rsim_core|intros _]. apply sim_ret.
Qed.

Lemma rsim_decompress_internal dest solid single :
  rsim (decompress_internal cb dest solid single) (decompress_internal (accept_all cb) dest solid single).
Proof.
  unfold decompress_internal. apply rsim_gets_core. intros c Hc. apply sim_bind; [apply sim_guard|intros _].
  apply sim_bind; [apply rsim_alloc|intros _]. apply sim_bind.
  { apply sim_if; [|apply sim_ret]. apply sim_modify. intros s t []. split; try done. destruct rr_engine0. by split. }
  intros _. cbv zeta. apply sim_bind.
  { apply sim_if; [|apply sim_if; [by apply rsim_core|apply sim_ret]]. apply sim_bind; [|intros _; by apply rsim_core].
    apply sim_modify. intros s t []. split; try done. destruct rr_engine0. split; try done. by apply dict_reset_law. }
  intros _. apply sim_if; [apply sim_ret|apply rsim_decode_blocks].
Qed.

(** The object between calls. *)
Record object_rel (d : Decompressor50 W) (d' : Decompressor50 History) : Prop := {
  or_engine : engine_rel size (dc_engine d) (dc_engine d');
  or_core : dc_core d = dc_core d';
  or_ok : core_ok (dc_core d')
}.

Definition object_stop (d : Decompressor50 W) : Prop := decoder_stop (dc_engine d) (dc_core d).

Lemma osim_with_reader {A} (r : R) (b : Bits) (m1 : M (Run R W) A) (m2 : M (Run Bits History) A) :
  bits_abs r b -> rsim m1 m2 -> sim object_rel object_stop (with_reader r m1) (with_reader b m2).
Proof.
  intros HA Hm d d' [O1 O2 O3]. unfold sim_at, with_reader.
  specialize (Hm {| rn_reader := r; rn_engine := dc_engine d; rn_core := dc_core d; rn_header := BlockHeader_init |}
                 {| rn_reader := b; rn_engine := dc_engine d'; rn_core := dc_core d'; rn_header := BlockHeader_init |}).
  unfold sim_at in Hm. destruct (m2 _) as [[o t']| | |]; [|done..].
  destruct Hm as (o1 & s' & E & HC); [by split|]. rewrite E. eexists _, _. split; [reflexivity|].
  destruct HC as [[-> []]|[-> HS]]; [left|by right]. split; [done|]. by split.
Qed.
End decoding.
End refinement.
