(* ===== verification/DecoderSafety.v ===== *)
(** The RAR 5.0 block decoder on any input: safety, termination and refinement
    ([src/compress/decompressor50.cpp]).

    Over a list of bits and the plain history the decoder never leaves its
    tables and always terminates ([..._safe]); with the simulation of
    [Decoder] this carries over to the real reader and window, for sequences
    of calls on one object. *)

From Stdlib Require Import ZArith Lia.
From stdpp Require Import base tactics list numbers.
From S2P Require Import Prelude Loops Bytes Arrays BitReader Huffman LzWindow StateFail ApplyEngine Decoder.

Local Open Scope Z_scope.

(** ** The decoder over bits and history: safety and termination *)

Section reads.
Implicit Types (t : Run Bits History).

(** Only the reader (at least [k] bits) moves; in [hreads], also the header. *)
Definition hreads (k : Z) t (t' : Run Bits History) : Prop :=
  rn_engine t' = rn_engine t /\ rn_core t' = rn_core t /\
  exists n, k <= n /\ rn_reader t' = bt_consume (rn_reader t) n.

Definition reads (k : Z) t (t' : Run Bits History) : Prop := hreads k t t' /\ rn_header t' = rn_header t.

Lemma hreads_trans j k t1 t2 t3 : 0 <= j -> 0 <= k -> hreads j t1 t2 -> hreads k t2 t3 -> hreads (j + k) t1 t3.
Proof.
  intros Hj Hk (A1 & A2 & m & A3 & A4) (B1 & B2 & n & B3 & B4). split; [congruence|]. split; [congruence|].
  exists (m + n). split; [lia|]. rewrite B4, A4. apply bt_consume_twice; lia.
Qed.

Lemma hreads_weaken j k t t' : j <= k -> hreads k t t' -> hreads j t t'.
Proof. intros Hj (A1 & A2 & n & A3 & A4). split; [done|]. split; [done|]. exists n. split; [lia|done]. Qed.

Lemma hreads_refl t : hreads 0 t t.
Proof. split; [done|]. split; [done|]. exists 0. split; [done|]. by rewrite bt_consume_0. Qed.

Lemma hreads_one k t t1 t2 : 0 <= k -> hreads k t t1 -> hreads 0 t1 t2 -> hreads k t t2.
Proof. intros Hk A B. rewrite <- (Z.add_0_r k). by apply (hreads_trans k 0 t t1 t2). Qed.

Lemma hreads_header f t : hreads 0 t (set_header f t).
Proof. split; [done|]. split; [done|]. exists 0. split; [done|]. cbn. by rewrite bt_consume_0. Qed.

Lemma reads_h k t t' : reads k t t' -> hreads k t t'.
Proof. by intros [A _]. Qed.

Lemma reads_trans j k t1 t2 t3 : 0 <= j -> 0 <= k -> reads j t1 t2 -> reads k t2 t3 -> reads (j + k) t1 t3.
Proof. intros Hj Hk [A1 A2] [B1 B2]. split; [by apply (hreads_trans _ _ t1 t2)|congruence]. Qed.

Lemma reads_weaken j k t t' : j <= k -> reads k t t' -> reads j t t'.
Proof. intros Hj [A1 A2]. split; [by apply (hreads_weaken j k)|done]. Qed.

Lemma reads_refl t : reads 0 t t.
Proof. split; [apply hreads_refl|done]. Qed.

Lemma reads_one k t t1 t2 : 0 <= k -> reads k t t1 -> reads 0 t1 t2 -> reads k t t2.
Proof. intros Hk A B. rewrite <- (Z.add_0_r k). by apply (reads_trans k 0 t t1 t2). Qed.

Lemma reads_intro k n t r : k <= n -> r = bt_consume (rn_reader t) n -> reads k t (set_reader t r).
Proof. intros Hn ->. split; [|done]. split; [done|]. split; [done|]. by exists n. Qed.

Lemma reads_engine k t t' : reads k t t' -> rn_engine t' = rn_engine t.
Proof. by intros [[] _]. Qed.

Lemma reads_core k t t' : reads k t t' -> rn_core t' = rn_core t.
Proof. by intros [(_ & A & _) _]. Qed.

Definition bits_left t : Z := zlen (bt_bits (rn_reader t)).

Lemma hreads_left k t t' : 0 <= k -> hreads k t t' -> bits_left t' <= Z.max 0 (bits_left t - k).
Proof.
  intros Hk (_ & _ & n & Hn & E). unfold bits_left. rewrite E. cbn [bt_consume bt_bits].
  unfold zlen. rewrite length_drop. lia.
Qed.

Context (F : Run Bits History -> Prop).

Lemma take_bits_safe n (Q : Z -> Run Bits History -> Prop) t :
  0 <= n <= 32 -> (forall v t', 0 <= v < 2 ^ n -> reads n t t' -> Q v t') -> msafe (take_bits n) F Q t.
Proof.
  intros Hn HQ. apply msafe_call. cbn [get_bits Bits_source]. rewrite Z.min_l by lia. eexists _, _. split; [reflexivity|].
  apply HQ; [apply padded_range; lia|]. by apply (reads_intro n n).
Qed.

Lemma take_bits64_safe n (Q : Z -> Run Bits History -> Prop) t :
  0 <= n <= 64 -> (forall v t', 0 <= v < 2 ^ n -> reads n t t' -> Q v t') -> msafe (take_bits64 n) F Q t.
Proof.
  intros Hn HQ. apply msafe_call. cbn [get_bits64 Bits_source]. rewrite Z.min_l by lia. eexists _, _. split; [reflexivity|].
  apply HQ; [apply padded_range; lia|]. by apply (reads_intro n n).
Qed.

Lemma align_safe (Q : unit -> Run Bits History -> Prop) t :
  (forall t', reads 0 t t' -> Q tt t') -> msafe align F Q t.
Proof.
  intros HQ. apply msafe_call. unfold align_byte. cbn [bit_pos Bits_source consume_bits]. cbv zeta.
  set (k := Z.land (bt_pos (rn_reader t)) 7). assert (Hk : 0 <= k < 2 ^ 3) by (apply land_range; lia).
  destruct (negb (k =? 0)).
  - eexists _, _. split; [reflexivity|]. apply HQ. by apply (reads_intro 0 (8 - k)); [lia|].
  - eexists _, _. split; [reflexivity|]. apply HQ. apply (reads_intro 0 0); [done|]. by rewrite bt_consume_0.
Qed.

Lemma need_safe n (Q : unit -> Run Bits History -> Prop) t : F t -> (n <= bits_left t -> Q tt t) -> msafe (need n) F Q t.
Proof.
  intros HF HQ. apply msafe_bind, msafe_gets. apply msafe_guard; [done|]. intros Hb%negb_true_iff%Z.ltb_ge. by apply HQ.
Qed.

Lemma symbol_safe code lens (Q : Z -> Run Bits History -> Prop) t :
  built lens (code (rn_core t)) -> (forall v t', 0 <= v < Z.max 1 (zlen lens) -> reads 1 t t' -> Q v t') -> msafe (symbol code) F Q t.
Proof.
  intros HB HQ. destruct (decode_total lens _ HB (rn_reader t)) as (v & n & E & Hn & Hv).
  apply (msafe_call F rn_reader set_reader (decode (code (rn_core t)))). exists v, (bt_consume (rn_reader t) n). split; [exact E|].
  apply HQ; [done|]. by apply (reads_intro 1 n); [lia|].
Qed.

Lemma take_bytes_safe k i v (Q : Z -> Run Bits History -> Prop) t :
  (forall t', reads 0 t t' -> F t') -> 0 <= v < 2 ^ 32 ->
  (forall w t', 0 <= w < 2 ^ 32 -> reads (8 * Z.of_nat k) t t' -> Q w t') -> msafe (take_bytes k i v) F Q t.
Proof.
  revert i v Q t. induction k as [|k IH]; intros i v Q t HF Hv HQ; cbn [take_bytes].
  - apply msafe_ret, HQ; [done|]. apply reads_refl.
  - apply msafe_bind, need_safe; [apply HF, reads_refl|]. intros _. apply msafe_bind, take_bits_safe; [lia|]. intros b t1 Hb R1.
    apply IH.
    + intros t' R'. apply HF. apply (reads_weaken 0 8); [lia|]. by apply (reads_one 8 t t1).
    + apply lor_range; [lia|done|]. by apply (wrap_range 32).
    + intros w t' Hw R'. apply HQ; [done|]. replace (8 * Z.of_nat (S k)) with (8 + 8 * Z.of_nat k) by lia.
      apply (reads_trans _ _ t t1); [lia|lia|done|done].
Qed.
End reads.

(** *** Headers and tables *)

Section tables.
Implicit Types (t : Run Bits History).

Definition keeps t (t' : Run Bits History) : Prop := rn_engine t' = rn_engine t /\ rn_core t' = rn_core t.

Lemma hreads_keeps k t t' : hreads k t t' -> keeps t t'.
Proof. by intros (A1 & A2 & _). Qed.

Lemma upd_header_safe F a b c d e f (Q : unit -> Run Bits History -> Prop) t :
  (forall t', hreads 0 t t' -> rn_reader t' = rn_reader t -> rn_header t' =
     {| bh_block_size := a; bh_block_bit_size := b; bh_block_start := c; bh_header_size := d; bh_last_block_in_file := e; bh_table_present := f |} ->
     Q tt t') -> msafe (upd_header a b c d e f) F Q t.
Proof. intros HQ. apply msafe_modify, HQ; [apply hreads_header|done..]. Qed.

(** A header read: it was there, and says where its block starts. *)
Definition header_read t (t' : Run Bits History) : Prop :=
  hreads 16 t t' /\ 16 <= bits_left t /\ 0 <= bh_block_size (rn_header t') /\
  bh_block_start (rn_header t') = bt_pos (rn_reader t') / 8.

Lemma read_block_header_safe t : msafe read_block_header (keeps t) (fun _ => header_read t) t.
Proof.
  unfold read_block_header. apply msafe_bind, msafe_gets. cbv zeta.
  apply msafe_bind, upd_header_safe. intros t1 R1 Er1 _. assert (K1 := hreads_keeps _ _ _ R1).
  apply msafe_bind, need_safe; [done|]. unfold bits_left at 1. rewrite Er1. intros H16. apply msafe_bind, align_safe. intros t2 R2%reads_h.
  assert (R02 := hreads_one 0 t t1 t2 ltac:(lia) R1 R2). apply msafe_bind, need_safe; [by apply (hreads_keeps 0)|]. intros _.
  apply msafe_bind, take_bits_safe; [lia|]. intros flags t3 Hf R3%reads_h.
  assert (R03 := hreads_trans 0 8 t t2 t3 ltac:(lia) ltac:(lia) R02 R3). cbn [Z.add] in R03. apply msafe_bind, msafe_guard; [by apply (hreads_keeps 8)|]. intros _.
  apply msafe_bind, upd_header_safe. intros t4 R4 _ _. assert (R04 := hreads_one 8 t t3 t4 ltac:(lia) R03 R4).
  apply msafe_bind, need_safe; [by apply (hreads_keeps 8)|]. intros _.
  apply msafe_bind, take_bits_safe; [lia|]. intros saved t5 Hs R5%reads_h. assert (R05 := hreads_trans 8 8 t t4 t5 ltac:(lia) ltac:(lia) R04 R5).
  apply msafe_bind, take_bytes_safe; [|lia|].
  { intros t' R'%reads_h. apply (hreads_keeps 16). by apply (hreads_one 16 t t5). }
  intros size t6 Hz R6%reads_h. assert (R06 : hreads 16 t t6) by (apply (hreads_one 16 t t5); [lia|done|apply (hreads_weaken 0 _ _ _) in R6; [done|lia]]).
  apply msafe_bind, upd_header_safe. intros t7 R7 _ _. assert (R07 := hreads_one 16 t t6 t7 ltac:(lia) R06 R7).
  apply msafe_bind, msafe_guard; [by apply (hreads_keeps 16)|]. intros _. apply msafe_bind, msafe_gets.
  apply upd_header_safe. intros t8 R8 Er8 Eh8. split; [by apply (hreads_one 16 t t7)|]. split; [done|]. rewrite Eh8, Er8. cbn. split; [lia|done].
Qed.

Lemma attempt_safe (m : M (Run Bits History) unit) (P : Run Bits History -> Prop) Q F t :
  msafe m P Q t -> msafe (attempt m) F (fun ok t' => if ok : bool then Q tt t' else P t') t.
Proof. unfold msafe, mwp, attempt. destruct (m t) as [[[[]|] t']| | |]; done. Qed.

(** What the state holds between tokens, besides the engine. *)
Definition codes_ok (c : Core) : Prop := exists l1 l2 l3 l4,
  built l1 (c_ld c) /\ zlen l1 = 306 /\ built l2 (c_dd c) /\ zlen l2 = (if c_extra_dist c then 80 else 64) /\
  built l3 (c_ldd c) /\ zlen l3 = 16 /\ built l4 (c_rd c) /\ zlen l4 = 44.

Record core_inv (c : Core) : Prop := {
  ci_table : zlen (c_table c) = 446 /\ Forall (fun l => 0 <= l <= 15) (c_table c);
  ci_size : c_table_size c = if c_extra_dist c then 446 else 430;
  ci_codes : c_tables_ready c = true -> codes_ok c;
  ci_dist : zlen (c_old_dist c) = 4 /\ Forall (fun d => 0 <= d) (c_old_dist c);
  ci_length : 0 <= c_last_length c <= 4100;
  ci_bases : 0 <= c_file_base c < 2 ^ 64 /\ 0 <= c_member_start c < 2 ^ 64
}.

Abbreviation any := (fun _ : Run Bits History => True).

Lemma read_bitlen_safe f l t :
  zlen l <= 20 -> Forall (fun x => 0 <= x <= 15) l -> 20 - zlen l < Z.of_nat f ->
  msafe (read_bitlen f l) any (fun r t' => reads 0 t t' /\ zlen r = 20 /\ Forall (fun x => 0 <= x <= 15) r) t.
Proof.
  revert l t. induction f as [|f IH]; intros l t Hl HF Hf; [lia|]. cbn [read_bitlen].
  destruct (Z.ltb_spec (zlen l) 20) as [Hlt|]; [|apply msafe_ret; split; [apply reads_refl|]; split; [lia|done]].
  apply msafe_bind, need_safe; [done|]. intros _. apply msafe_bind, take_bits_safe; [lia|]. intros len t1 Hlen R1.
  apply (reads_weaken 0) in R1; [|lia].
  assert (Hnext : forall x t2, reads 0 t t2 -> 1 <= zlen x -> zlen l + zlen x <= 20 -> Forall (fun x => 0 <= x <= 15) x ->
    msafe (read_bitlen f (l ++ x)) any (fun r t' => reads 0 t t' /\ zlen r = 20 /\ Forall (fun x => 0 <= x <= 15) r) t2).
  { intros x t2 R2 Hx Hx' HX. eapply msafe_mono; [apply IH; [rewrite zlen_app; lia|by apply Forall_app_2|rewrite zlen_app; lia]|].
    intros r t' (R' & HR). split; [by apply (reads_one 0 t t2)|done]. }
  destruct (Z.eqb_spec len 15) as [->|].
  - apply msafe_bind, need_safe; [done|]. intros _. apply msafe_bind, take_bits_safe; [lia|]. intros zc t2 Hz R2.
    apply (reads_weaken 0) in R2; [|lia]. pose proof (reads_one 0 t t1 t2 ltac:(lia) R1 R2) as R3.
    destruct (zc =? 0).
    + apply Hnext; [done|done|zlen_lia|]. apply Forall_cons_2; [lia|constructor].
    + apply Hnext; [done|rewrite zlen_replicate; lia|rewrite zlen_replicate; lia|]. apply Forall_replicate. lia.
  - apply Hnext; [done|done|zlen_lia|]. apply Forall_cons_2; [lia|constructor].
Qed.

Lemma fill_table_ok n table pos v :
  0 <= pos -> pos + Z.of_nat n <= zlen table -> 0 <= v <= 15 ->
  Forall (fun l => 0 <= l <= 15) table ->
  zlen (fill_table n table pos v) = zlen table /\ Forall (fun l => 0 <= l <= 15) (fill_table n table pos v).
Proof.
  revert table pos. induction n as [|n IH]; intros table pos Hp Hn Hv HF; cbn [fill_table]; [done|].
  destruct (IH (setZ table pos v) (pos + 1)) as [I1 I2]; [lia|rewrite zlen_setZ; lia|done| |].
  - unfold setZ. by apply Forall_insert.
  - split; [by rewrite I1, zlen_setZ|done].
Qed.

(** Tables move; repeat distances, bases and flavour do not. *)
Definition same_rest (c c' : Core) : Prop :=
  c_old_dist c' = c_old_dist c /\ c_last_length c' = c_last_length c /\ c_extra_dist c' = c_extra_dist c /\
  c_table_size c' = c_table_size c /\ c_file_base c' = c_file_base c /\ c_member_start c' = c_member_start c /\
  c_last_error c' = c_last_error c.

Definition table_ok (table : list Z) : Prop := zlen table = 446 /\ Forall (fun l => 0 <= l <= 15) table.

(** The engine stays; the reader and the tables move. *)
Definition retabled t (t' : Run Bits History) : Prop :=
  rn_engine t' = rn_engine t /\ (exists n, 0 <= n /\ rn_reader t' = bt_consume (rn_reader t) n) /\
  same_rest (rn_core t) (rn_core t') /\ rn_header t' = rn_header t.

Lemma same_rest_refl c : same_rest c c.
Proof. by split_and!. Qed.

Lemma retabled_trans t1 t2 t3 : retabled t1 t2 -> retabled t2 t3 -> retabled t1 t3.
Proof.
  intros (A1 & (m & A2 & A3) & A4 & A5) (B1 & (n & B2 & B3) & B4 & B5). split; [congruence|]. split; [|split; [|congruence]].
  - exists (m + n). split; [lia|]. rewrite B3, A3. apply bt_consume_twice; lia.
  - destruct A4 as (?&?&?&?&?&?&?), B4 as (?&?&?&?&?&?&?). split_and!; congruence.
Qed.

Lemma reads_retabled k t t' : 0 <= k -> reads k t t' -> retabled t t'.
Proof. intros Hk [(A1 & A2 & n & A3 & A4) A5]. split; [done|]. split; [exists n; split; [lia|done]|]. split; [|done]. rewrite A2. apply same_rest_refl. Qed.

Lemma set_core_retabled f t : same_rest (rn_core t) (f (rn_core t)) -> retabled t (set_core f t).
Proof. intros HS. split; [done|]. split; [|by split]. exists 0. split; [done|]. cbn. by rewrite bt_consume_0. Qed.

Lemma run_length_safe b (Q : Z -> Run Bits History -> Prop) t :
  (forall n t', 3 <= n -> reads 0 t t' -> Q n t') -> msafe (run_length b) any Q t.
Proof.
  intros HQ. unfold run_length. destruct b; (apply msafe_bind, need_safe; [done|]; intros _; apply msafe_bind, take_bits_safe; [lia|];
    intros n t1 Hn R; apply msafe_ret, HQ; [lia|by apply (reads_weaken 0) in R; [|lia]]).
Qed.

Lemma read_lengths_safe f pos t l5 :
  built l5 (c_bd (rn_core t)) -> zlen l5 = 20 -> table_ok (c_table (rn_core t)) ->
  0 <= pos <= c_table_size (rn_core t) -> c_table_size (rn_core t) <= 446 -> c_table_size (rn_core t) - pos < Z.of_nat f ->
  msafe (read_lengths f pos) any
    (fun _ t' => retabled t t' /\ exists table, table_ok table /\ rn_core t' = set_table table (c_tables_ready (rn_core t)) (rn_core t)) t.
Proof.
  revert pos t. induction f as [|f IH]; intros pos t HB HL HT Hpos Hsize Hf; [lia|]. cbn [read_lengths].
  apply msafe_bind, msafe_gets. set (size := c_table_size (rn_core t)) in *.
  destruct (Z.ltb_spec pos size) as [Hlt|].
  2: { apply msafe_ret. split; [apply (reads_retabled 0); [lia|apply reads_refl]|]. exists (c_table (rn_core t)). split; [done|].
       by destruct (rn_core t). }
  assert (Hput : forall v n t1, reads 0 t t1 -> 0 <= v <= 15 -> 1 <= n ->
    msafe (_ ← modify (set_core (fun c => set_table (fill_table (Z.to_nat (Z.min n (size - pos))) (c_table c) pos v) (c_tables_ready c) c));
           read_lengths f (pos + Z.min n (size - pos))) any
    (fun _ t' => retabled t t' /\ exists table, table_ok table /\ rn_core t' = set_table table (c_tables_ready (rn_core t)) (rn_core t)) t1).
  { intros v n t1 R1 Hv Hn. apply msafe_bind, msafe_modify. assert (Ec := reads_core _ _ _ R1).
    set (table := fill_table (Z.to_nat (Z.min n (size - pos))) (c_table (rn_core t1)) pos v).
    assert (HT' : table_ok table).
    { subst table. rewrite Ec. destruct HT as [HT1 HT2].
      destruct (fill_table_ok (Z.to_nat (Z.min n (size - pos))) (c_table (rn_core t)) pos v) as [I1 I2]; try done; try lia.
      split; [by rewrite I1|done]. }
    set (t2 := set_core _ t1). assert (Ec2 : rn_core t2 = set_table table (c_tables_ready (rn_core t)) (rn_core t)).
    { subst t2 table. cbn [set_core rn_core]. by rewrite Ec. }
    eapply msafe_mono; [apply IH|].
    - by rewrite Ec2.
    - done.
    - by rewrite Ec2.
    - rewrite Ec2. cbn. fold size. lia.
    - rewrite Ec2. done.
    - rewrite Ec2. cbn. fold size. lia.
    - intros ? t' [RT (tb & Htb & Etb)]. split.
      + apply (retabled_trans _ t2); [|done]. apply (retabled_trans _ t1); [by apply (reads_retabled 0)|].
        subst t2. apply set_core_retabled. by split_and!.
      + exists tb. split; [done|]. rewrite Etb, Ec2. done. }
  apply msafe_bind, need_safe; [done|]. intros _. apply msafe_bind, (symbol_safe _ _ l5); [done|]. intros num t1 Hnum R1.
  apply (reads_weaken 0) in R1; [|lia]. destruct (Z.ltb_spec num 16).
  { apply Hput; [done| |lia]. rewrite (wrap_small 8) by lia. lia. }
  assert (Hr : forall b (k : Z -> M (Run Bits History) unit), (forall n t2, 3 <= n -> reads 0 t t2 ->
     msafe (k n) any (fun _ t' => retabled t t' /\ exists table, table_ok table /\ rn_core t' = set_table table (c_tables_ready (rn_core t)) (rn_core t)) t2) ->
     msafe (n ← run_length b; k n) any (fun _ t' => retabled t t' /\ exists table, table_ok table /\ rn_core t' = set_table table (c_tables_ready (rn_core t)) (rn_core t)) t1).
  { intros b k Hk. apply msafe_bind, run_length_safe. intros n t2 Hn R2. apply Hk; [done|]. by apply (reads_one 0 t t1). }
  destruct (num <? 18); apply Hr; intros n t2 Hn R2.
  - apply msafe_bind, msafe_guard; [done|]. intros Hp%negb_true_iff%Z.eqb_neq. apply Hput; [done| |lia].
    destruct HT as [_ HT]. unfold nthZ. rewrite nth_lookup. destruct (c_table (rn_core t) !! Z.to_nat (pos - 1)) as [x|] eqn:Ex; cbn; [|lia].
    rewrite Forall_lookup in HT. apply (HT _ _ Ex).
  - apply Hput; [done|lia|lia].
Qed.

Lemma build_code_safe get put lens (Q : unit -> Run Bits History -> Prop) t :
  lens_ok lens -> (forall h, built lens h -> Q tt (set_core (put h) t)) -> msafe (build_code get put lens) any Q t.
Proof.
  intros HL HQ. unfold build_code. apply msafe_bind, msafe_gets.
  destruct (build_spec (get (rn_core t)) lens HL) as (ok & h & E & _ & HB). apply msafe_bind, msafe_lift; [done|]. rewrite E. apply wp_ok.
  apply msafe_bind, msafe_modify. apply msafe_guard; [done|]. intros ->. by apply HQ, HB.
Qed.

Lemma part_ok table from count :
  table_ok table -> 0 <= from -> 0 <= count -> from + count <= 446 -> count <= 306 ->
  lens_ok (part table from count) /\ zlen (part table from count) = count.
Proof.
  intros [T1 T2] Hf Hc Hs Hm. assert (L : zlen (part table from count) = count).
  { unfold part. apply zlen_take. rewrite zlen_drop; lia. }
  split; [|done]. split; [rewrite L; unfold MAX_SYMBOLS; lia|]. unfold part. by apply Forall_take, Forall_drop.
Qed.

Lemma read_tables_safe t :
  core_inv (rn_core t) ->
  msafe read_tables any (fun _ t' => retabled t t' /\ core_inv (rn_core t') /\ rn_header t' = rn_header t /\
    (if bh_table_present (rn_header t) && negb (bh_block_size (rn_header t) =? 0) then c_tables_ready (rn_core t') = true else t' = t)) t.
Proof.
  intros HI. unfold read_tables. apply msafe_bind, msafe_gets.
  assert (Hskip : retabled t t) by (apply (reads_retabled 0); [lia|apply reads_refl]).
  destruct (bh_table_present (rn_header t)); cbn [negb andb]; [|by apply msafe_ret].
  destruct (bh_block_size (rn_header t) =? 0); cbn [negb]; [by apply msafe_ret|].
  apply msafe_bind. eapply msafe_mono; [apply read_bitlen_safe; [done|constructor|done]|]. intros bl t1 (R1 & Lb & Fb).
  assert (Ec1 := reads_core _ _ _ R1).
  apply msafe_bind, build_code_safe; [split; [rewrite Lb; unfold MAX_SYMBOLS; lia|done]|]. intros h5 B5.
  apply msafe_bind, msafe_gets. set (t2 := set_core (put_bd h5) t1).
  assert (Ec2 : rn_core t2 = put_bd h5 (rn_core t)) by (subst t2; cbn [set_core rn_core]; by rewrite Ec1).
  assert (RT2 : retabled t t2).
  { apply (retabled_trans _ t1); [by apply (reads_retabled 0)|]. apply set_core_retabled. by split_and!. }
  clearbody t2. destruct HI as [I1 I2 I3 I4 I5 I6].
  assert (Hsz : c_table_size (rn_core t2) = if c_extra_dist (rn_core t) then 446 else 430) by (by rewrite Ec2).
  assert (Hsz' : 0 <= c_table_size (rn_core t2) <= 446) by (rewrite Hsz; destruct (c_extra_dist _); lia).
  apply msafe_bind. eapply msafe_mono; [apply (read_lengths_safe _ _ _ bl); try rewrite Ec2; try done; try (rewrite Ec2 in Hsz'; lia)|].
  intros ? t3 (RT3 & table & HT & Ec3). rewrite Ec2 in Ec3. apply msafe_bind, msafe_gets. cbv zeta.
  set (dc := if c_extra_dist (rn_core t3) then 80 else 64).
  assert (Hdc : 64 <= dc <= 80) by (subst dc; destruct (c_extra_dist (rn_core t3)); lia).
  assert (Et3 : c_table (rn_core t3) = table) by (by rewrite Ec3). rewrite Et3.
  destruct (part_ok table 0 306 HT) as [P1 L1]; [lia..|]. destruct (part_ok table 306 dc HT) as [P2 L2]; [lia..|].
  destruct (part_ok table (306 + dc) 16 HT) as [P3 L3]; [lia..|]. destruct (part_ok table (306 + dc + 16) 44 HT) as [P4 L4]; [lia..|].
  apply msafe_bind, build_code_safe; [done|]. intros h1 B1. apply msafe_bind, build_code_safe; [done|]. intros h2 B2.
  apply msafe_bind, build_code_safe; [done|]. intros h3 B3. apply msafe_bind, build_code_safe; [done|]. intros h4 B4.
  assert (RT : retabled t t3) by (by apply (retabled_trans _ t2)).
  apply msafe_modify. split; [|split; [|split; [apply RT|done]]].
  - apply (retabled_trans _ t3); [done|].
    split; [done|]. split; [exists 0; split; [done|]; cbn; by rewrite bt_consume_0|by split_and!].
  - cbn [set_core rn_core]. rewrite Ec3. split; try done. intros _.
    exists (part table 0 306), (part table 306 dc), (part table (306 + dc) 16), (part table (306 + dc + 16) 44).
    split_and!; try done. rewrite L2. subst dc. by rewrite Ec3.
Qed.
End tables.

(** *** Tokens *)

Section token_safety.
Context (cb : OutputCallback) (dest_size base : Z).
Hypothesis dest_range : 0 <= dest_size <= SIZE_MAX.
Hypothesis base_range : 0 <= base < 2 ^ 64.
Implicit Types (t : Run Bits History).

Abbreviation any := (fun _ : Run Bits History => True).

Record inv (total : Z) t : Prop := {
  iv_engine : flushable base total (rn_engine t);
  iv_core : core_inv (rn_core t);
  iv_ready : c_tables_ready (rn_core t) = true;
  iv_total : total <= dest_size
}.

Lemma reads_inv k total t t' : reads k t t' -> inv total t -> inv total t'.
Proof. intros [(A1 & A2 & _) _] []. split; rewrite ?A1, ?A2; done. Qed.

Lemma msafe_zoom {A} (m : M (ApplyEngine History) A) (Q : A -> Run Bits History -> Prop) t :
  msafe m (fun _ => True) (fun a e => Q a (set_engine t e)) (rn_engine t) -> msafe (zoom rn_engine set_engine m) any Q t.
Proof. unfold msafe, mwp, zoom. by destruct (m (rn_engine t)) as [[[a|] e]| | |]. Qed.

(** The engine's part of the step, and nothing else. *)
Definition engine_only t (t' : Run Bits History) : Prop := rn_reader t' = rn_reader t /\ rn_core t' = rn_core t.

Lemma flush_safe flush_all total t :
  inv total t -> msafe (flush cb dest_size base flush_all total) any (fun _ t' => inv total t' /\ engine_only t t') t.
Proof.
  intros [F C Rd T]. apply msafe_zoom. eapply msafe_mono; [by apply flush_pending_safe|]. intros ? e (F' & _). split; [|done]. by split.
Qed.

Lemma cadence_safe total t :
  inv total t -> msafe (cadence cb dest_size base total) any (fun _ t' => inv total t' /\ engine_only t t') t.
Proof.
  intros I. unfold cadence. do 3 apply msafe_bind, msafe_gets. destruct (_ && _); [by apply msafe_ret|by apply flush_safe].
Qed.

Lemma u64_add_le x n : 0 <= n -> u64 (x + n) <= u64 x + n.
Proof.
  intros Hn. pose proof (Z.mod_pos_bound x (2 ^ 64) ltac:(lia)). unfold wrap. rewrite <- Zplus_mod_idemp_l. apply Z.mod_le; lia.
Qed.

(** The history grows with the output position. *)
Lemma inv_grow total n t new :
  inv total t -> 0 <= n -> total + n <= dest_size -> bytes new -> zlen new = n ->
  inv (total + n) (set_engine t (set_win (rn_engine t) (h_set (ae_win (rn_engine t)) (h_bytes (ae_win (rn_engine t)) ++ new)))).
Proof.
  intros [F C Rd T] Hn Ht Hb Ln. split; try done. destruct F as [F1 F2 F3 [F4 F5] F6 F7 F8]. unfold SIZE_MAX in *.
  split; cbn [set_engine rn_engine set_win ae_win h_set h_ready h_size h_bytes ae_flushed ae_filters]; try done.
  - by apply Forall_app_2.
  - rewrite zlen_app. lia.
  - rewrite zlen_app, Z.add_assoc. pose proof (u64_add_le (base + total) n Hn). lia.
Qed.

Lemma literal_safe slot total (Q : unit -> Run Bits History -> Prop) t :
  inv total t -> total < dest_size -> (forall t', inv (total + 1) t' -> engine_only t t' -> Q tt t') ->
  msafe (window_op (fun w => dict_literal w slot)) any Q t.
Proof.
  intros I Ht HQ. unfold window_op. apply msafe_bind, msafe_call. cbn [dict_literal History_dictionary].
  rewrite (fl_ready _ _ _ (iv_engine _ _ I)). eexists _, _. split; [reflexivity|]. apply msafe_ret, HQ; [|done].
  apply inv_grow; [done|lia|lia| |done]. apply Forall_cons_2; [by apply (wrap_range 8)|constructor].
Qed.

Lemma lz_match_app d n hist : bytes hist -> exists new, lz_match d n hist = hist ++ new /\ bytes new /\ zlen new = Z.max 0 n.
Proof.
  intros Hb. unfold lz_match. destruct (zlen hist <? d).
  - exists (replicate (Z.to_nat n) 0). split; [done|]. split; [apply Forall_replicate; unfold is_byte; lia|]. rewrite zlen_replicate. lia.
  - replace (Z.max 0 n) with (Z.of_nat (Z.to_nat n)) by lia. revert hist Hb. induction (Z.to_nat n) as [|k IH]; intros hist Hb; cbn [lz_copy].
    + exists []. by rewrite app_nil_r.
    + set (x := nthZ hist (zlen hist - d)). assert (Hx : is_byte x) by (by apply nthZ_byte).
      destruct (IH (hist ++ [x])) as (new & E & Bn & Ln); [by apply Forall_app_2; [|apply Forall_cons_2]|].
      exists (x :: new). rewrite E, <- app_assoc. split; [done|]. split; [by apply Forall_cons_2|]. rewrite zlen_cons. lia.
Qed.

Lemma copy_token_safe d len total t :
  inv total t -> total < dest_size -> 1 <= d <= h_size (ae_win (rn_engine t)) -> 1 <= len <= 4100 ->
  msafe (copy_token cb dest_size base d len total) any
    (fun total' t' => inv total' t' /\ engine_only t t') t.
Proof.
  intros I Ht Hd Hl. unfold copy_token. pose proof I as [F C Rd T]. pose proof (fl_total _ _ _ F) as [Htr _]. unfold SIZE_MAX in *.
  rewrite size_sub_small by lia. cbv zeta. set (len' := if len >? dest_size - total then u32 (dest_size - total) else len).
  assert (Hlen : 1 <= len' <= 4100 /\ total + len' <= dest_size).
  { subst len'. rewrite Z.gtb_ltb. destruct (Z.ltb_spec (dest_size - total) len); [rewrite (wrap_small 32) by lia|]; lia. }
  clearbody len'. unfold window_op. apply msafe_bind, msafe_bind, msafe_call. cbn [dict_match History_dictionary].
  pose proof (fl_size _ _ _ F) as Hs.
  rewrite (fl_ready _ _ _ F), !(proj2 (Z.leb_le _ _)) by lia. cbn [andb]. eexists _, _. split; [reflexivity|].
  apply msafe_ret. destruct (lz_match_app d len' (h_bytes (ae_win (rn_engine t)))) as (new & E & Bn & Ln); [apply (fl_bytes _ _ _ F)|].
  rewrite E. pose proof (inv_grow total len' t new I ltac:(lia) ltac:(lia) Bn ltac:(lia)) as I'. rewrite size_add_small by lia.
  apply msafe_bind. eapply msafe_mono; [by apply cadence_safe|]. intros ? t' [I2 E2]. apply msafe_ret. split; [done|]. exact E2.
Qed.

Lemma slot_to_length_safe slot (Q : Z -> Run Bits History -> Prop) t :
  0 <= slot <= 43 -> (forall len t', 2 <= len <= 4097 -> reads 0 t t' -> Q len t') -> msafe (slot_to_length slot) any Q t.
Proof.
  intros Hs HQ. unfold slot_to_length. destruct (Z.ltb_spec slot 8); [apply msafe_ret, HQ; [lia|apply reads_refl]|]. cbv zeta.
  assert (Hl : 1 <= slot / 4 - 1 <= 9) by dlia. set (l := slot / 4 - 1) in *.
  assert (H3 : 4 <= Z.lor 4 (Z.land slot 3) <= 7).
  { assert (R3 : 0 <= Z.land slot 3 < 2 ^ 2) by (apply land_range; lia). assert (C : Z.land slot 3 = 0 \/ Z.land slot 3 = 1 \/ Z.land slot 3 = 2 \/ Z.land slot 3 = 3) by lia.
    by destruct C as [-> | [-> | [-> | ->]]]. }
  rewrite Z.shiftl_mul_pow2 by lia. assert (Hp : 2 ^ 1 <= 2 ^ l <= 2 ^ 9) by (split; apply Z.pow_le_mono_r; lia).
  rewrite (wrap_small 32 (2 + _)) by nia. rewrite Z.gtb_ltb, (proj2 (Z.ltb_lt _ _)) by lia.
  apply msafe_bind, take_bits_safe; [lia|]. intros x t1 Hx R1. apply msafe_ret, HQ; [|by apply (reads_weaken 0 l); [lia|]].
  rewrite wrap_small by nia. nia.
Qed.

Lemma match_distance_safe ds l3 (Q : Z -> Run Bits History -> Prop) t :
  built l3 (c_ldd (rn_core t)) -> 0 <= ds < 80 -> (forall d t', 0 <= d -> reads 0 t t' -> Q d t') ->
  msafe (decode_match_distance ds) any Q t.
Proof.
  intros HB Hds HQ. unfold decode_match_distance. destruct (Z.ltb_spec ds 4); [apply msafe_ret, HQ; [lia|apply reads_refl]|]. cbv zeta.
  assert (Hd : 1 <= ds / 2 - 1 <= 38) by dlia. set (d := ds / 2 - 1) in *. set (dist := u64 (1 + _)). clearbody dist.
  assert (Hlow : forall x t1, reads 0 t t1 -> msafe (left ← remaining; if left <? 1 then mret 0 else v ← symbol c_ldd; mret (u64 (x + v))) any Q t1).
  { intros x t1 R1. apply msafe_bind, msafe_gets. destruct (_ <? 1); [by apply msafe_ret, HQ|].
    assert (Ec := reads_core _ _ _ R1). apply msafe_bind, (symbol_safe _ _ l3); [by rewrite Ec|]. intros v t2 Hv R2.
    apply msafe_ret, HQ; [by apply (wrap_range 64)|]. apply (reads_one 0 t t1); [lia|done|]. by apply (reads_weaken 0 1); [lia|]. }
  rewrite Z.geb_leb, Z.gtb_ltb. destruct (Z.leb_spec 4 d).
  - destruct (Z.ltb_spec 4 d); [|apply Hlow, reads_refl]. apply msafe_bind, msafe_gets.
    destruct (_ <? d - 4); [apply msafe_ret, HQ; [lia|apply reads_refl]|]. apply msafe_bind.
    rewrite Z.gtb_ltb. assert (Hx : forall t1, reads (d - 4) t t1 -> reads 0 t t1) by (intros t1 R1; by apply (reads_weaken 0 (d - 4)); [lia|]).
    destruct (Z.ltb_spec 36 d); [apply take_bits64_safe|apply take_bits_safe]; try lia; intros v t1 Hv R1; by apply Hlow, Hx.
  - apply msafe_bind, msafe_gets. destruct (_ <? d); [apply msafe_ret, HQ; [lia|apply reads_refl]|].
    apply msafe_bind, take_bits_safe; [lia|]. intros v t1 Hv R1. apply msafe_ret, HQ; [by apply (wrap_range 64)|]. by apply (reads_weaken 0 d); [lia|].
Qed.

(** A token: what it leaves, and that it read at least one bit. *)
Definition token_done (k : Z) t (total' : Z) (t' : Run Bits History) : Prop :=
  inv total' t' /\ exists n, k <= n /\ rn_reader t' = bt_consume (rn_reader t) n.

Lemma token_done_reads k t t1 total' t' :
  0 <= k -> reads k t t1 -> token_done 0 t1 total' t' -> token_done k t total' t'.
Proof.
  intros Hk [(_ & _ & m & Hm & E1) _] (I & n & Hn & E2). split; [done|]. exists (m + n). split; [lia|].
  rewrite E2, E1. apply bt_consume_twice; lia.
Qed.

Lemma engine_only_done total' t t' : inv total' t' -> engine_only t t' -> token_done 0 t total' t'.
Proof. intros I [E _]. split; [done|]. exists 0. split; [done|]. by rewrite bt_consume_0. Qed.

Lemma filter_token_safe total budget t :
  inv total t -> msafe (filter_token dest_size base total budget) any (fun _ => token_done 0 t total) t.
Proof.
  intros I. unfold filter_token.
  assert (Hread : forall (Q : Z -> Run Bits History -> Prop) t1, reads 0 t t1 ->
     (forall v t2, 0 <= v < 2 ^ 32 -> reads 0 t t2 -> Q v t2) -> msafe read_filter_data any Q t1).
  { intros Q t1 R1 HQ. unfold read_filter_data. apply msafe_bind, need_safe; [done|]. intros _.
    apply msafe_bind, take_bits_safe; [lia|]. intros c t2 Hc R2. apply take_bytes_safe; [done|lia|]. intros w t3 Hw R3.
    apply HQ; [done|]. apply (reads_one 0 t t1); [lia|done|]. apply (reads_one 0 t1 t2); [lia|by apply (reads_weaken 0 2)|].
    apply (reads_weaken 0) in R3; [done|lia]. }
  apply msafe_bind, Hread; [apply reads_refl|]. intros f_start t1 Hfs R1. apply msafe_bind, Hread; [done|]. intros f_len0 t2 Hfl R2. cbv zeta.
  set (f_len := if f_len0 >? 0x400000 then 0 else f_len0). assert (Hlen : 0 <= f_len < 2 ^ 32) by (subst f_len; case_match; lia). clearbody f_len.
  apply msafe_bind, need_safe; [done|]. intros _. apply msafe_bind, take_bits_safe; [lia|]. intros ty t3 Hty R3.
  assert (R03 : reads 0 t t3) by (apply (reads_one 0 t t2); [lia|done|by apply (reads_weaken 0 3)]).
  apply msafe_bind. apply (msafe_mono _ _ (fun ch t4 => 1 <= ch <= 32 /\ reads 0 t t4)).
  { destruct (ty =? 0); [|apply msafe_ret; split; [lia|done]]. apply msafe_bind, need_safe; [done|]. intros _.
    apply msafe_bind, take_bits_safe; [lia|]. intros n t4 Hn R4. apply msafe_ret. split; [lia|].
    apply (reads_one 0 t t3); [lia|done|by apply (reads_weaken 0 5)]. }
  intros ch t4 [Hch R4]. unfold queue_filter. do 4 apply msafe_bind, msafe_gets. cbv zeta.
  do 6 (apply msafe_bind, msafe_guard; [done|]; intros _).
  assert (I4 := reads_inv 0 total t t4 R4 I). apply msafe_bind.
  apply (msafe_mono _ _ (fun _ t5 => t5 = t4)).
  { destruct (list.last _); [apply msafe_guard; [done|by intros _]|by apply msafe_ret]. }
  intros ? t5 ->. apply msafe_bind, msafe_guard; [done|]. intros _. apply msafe_bind, msafe_modify, msafe_ret.
  apply (token_done_reads 0 t t4); [lia|done|]. apply engine_only_done; [|done]. destruct I4 as [F C Rd T].
  split; try done. apply flushable_set_queue; [done|]. apply Forall_app_2; [apply (fl_filters _ _ _ F)|].
  apply Forall_cons_2; [|constructor]. split; [done|]. split; [done|]. split; [by apply (wrap_range 64)|apply size_sub_range].
Qed.

Lemma repeat_token_safe total t :
  inv total t -> total < dest_size -> msafe (repeat_token cb dest_size base total) any (fun total' t' => token_done 0 t total' t') t.
Proof.
  intros I Ht. unfold repeat_token. apply msafe_bind, msafe_gets. apply msafe_bind, msafe_gets.
  destruct (Z.eqb_spec (c_last_length (rn_core t)) 0) as [|Hl]; cbn [negb]; [apply msafe_ret; by apply engine_only_done|]. cbv zeta.
  apply msafe_bind, msafe_guard; [done|]. unfold good_dist. rewrite negb_true_iff, !orb_false_iff.
  intros [[_ G1%Z.eqb_neq] G2]. rewrite Z.gtb_ltb in G2. apply Z.ltb_ge in G2. pose proof (ci_length _ (iv_core _ _ I)).
  rewrite (wrap_small 32) by lia. eapply msafe_mono; [apply copy_token_safe; try done; [|lia]|].
  - pose proof (ci_dist _ (iv_core _ _ I)) as [D1 D2]. split; [|exact G2].
    assert (0 <= nthZ (c_old_dist (rn_core t)) 0); [|lia]. unfold nthZ. rewrite nth_lookup.
    destruct (c_old_dist (rn_core t) !! Z.to_nat 0) as [x|] eqn:Ex; cbn; [|lia]. rewrite Forall_lookup in D2. apply (D2 _ _ Ex).
  - intros total' t' [I' E']. by apply engine_only_done.
Qed.

Lemma nthZ_nonneg (l : list Z) i : Forall (fun d => 0 <= d) l -> 0 <= nthZ l i.
Proof.
  intros HF. unfold nthZ. rewrite nth_lookup. destruct (l !! Z.to_nat i) as [x|] eqn:Ex; cbn; [|lia].
  rewrite Forall_lookup in HF. apply (HF _ _ Ex).
Qed.

Lemma set_reps_inv old last total t :
  inv total t -> zlen old = 4 -> Forall (fun d => 0 <= d) old -> 0 <= last <= 4100 -> inv total (set_core (set_reps old last) t).
Proof. intros [F C Rd T] Ho HF Hl. split; try done. destruct C. by split. Qed.

Lemma core_safe f (Q : unit -> Run Bits History -> Prop) t : Q tt (set_core f t) -> msafe (core f) any Q t.
Proof. apply msafe_modify. Qed.

Lemma set_core_done f t t' total' : token_done 0 (set_core f t) total' t' -> token_done 0 t total' t'.
Proof. done. Qed.

Lemma match_token_safe slot total t :
  inv total t -> total < dest_size -> 262 <= slot <= 305 ->
  msafe (match_token cb dest_size base slot total) any (fun total' t' => token_done 0 t total' t') t.
Proof.
  intros I Ht Hslot. unfold match_token. pose proof (ci_codes _ (iv_core _ _ I) (iv_ready _ _ I)) as (l1 & l2 & l3 & l4 & B1 & L1 & B2 & L2 & B3 & L3 & B4 & L4).
  apply msafe_bind, slot_to_length_safe; [lia|]. intros len t1 Hlen R1. assert (Ec1 := reads_core _ _ _ R1).
  apply msafe_bind, need_safe; [done|]. intros _. apply msafe_bind, (symbol_safe _ _ l2); [by rewrite Ec1|]. intros ds t2 Hds R2.
  assert (R02 : reads 0 t t2) by (apply (reads_one 0 t t1); [lia|done|by apply (reads_weaken 0 1)]). assert (Ee2 := reads_engine _ _ _ R02). assert (Ec2 := reads_core _ _ _ R02).
  apply msafe_bind, msafe_gets, msafe_bind, msafe_guard; [done|]. rewrite Z.geb_leb. intros Hds2%negb_true_iff%Z.leb_gt.
  apply msafe_bind, (match_distance_safe _ l3); [by rewrite Ec2| |].
  { split; [lia|]. destruct (c_extra_dist (rn_core t2)); lia. }
  intros d t3 Hd R3. assert (R03 : reads 0 t t3) by (by apply (reads_one 0 t t2)). assert (Ee3 := reads_engine _ _ _ R03). assert (Ec3 := reads_core _ _ _ R03).
  apply msafe_bind, msafe_gets, msafe_bind, msafe_guard; [done|]. rewrite negb_true_iff, orb_false_iff. intros [G1%Z.eqb_neq G2].
  rewrite Z.gtb_ltb in G2. apply Z.ltb_ge in G2. apply msafe_bind, msafe_gets, msafe_bind, msafe_guard; [done|]. intros _.
  set (len' := if d >? 256 then _ else len). assert (Hlen' : 2 <= len' <= 4100) by (subst len'; cbv zeta; repeat case_match; lia).
  clearbody len'. cbv zeta. pose proof (reads_inv 0 total t t3 R03 I) as I3. apply msafe_bind, core_safe.
  assert (I4 : inv total (set_core (fun c => set_reps (push_dist (c_old_dist c) d) len' c) t3)).
  { apply (set_reps_inv (push_dist (c_old_dist (rn_core t3)) d) len'); [done|done| |lia]. pose proof (ci_dist _ (iv_core _ _ I3)) as [_ D2].
    repeat (apply Forall_cons_2; [first [lia|by apply nthZ_nonneg]|]). constructor. }
  eapply msafe_mono; [apply copy_token_safe; [exact I4|done| |lia]|].
  - split; [lia|exact G2].
  - intros total' t' [I' E']. apply (token_done_reads 0 t t3); [lia|done|]. by apply set_core_done with (f := fun c => set_reps (push_dist (c_old_dist c) d) len' c), engine_only_done.
Qed.

Lemma rep_token_safe slot total t :
  inv total t -> total < dest_size -> 258 <= slot <= 261 ->
  msafe (rep_token cb dest_size base slot total) any (fun total' t' => token_done 0 t total' t') t.
Proof.
  intros I Ht Hslot. unfold rep_token. cbv zeta. pose proof (ci_codes _ (iv_core _ _ I) (iv_ready _ _ I)) as (l1 & l2 & l3 & l4 & B1 & L1 & B2 & L2 & B3 & L3 & B4 & L4).
  apply msafe_bind, msafe_gets, msafe_bind, msafe_gets, msafe_bind, msafe_guard; [done|]. unfold good_dist. rewrite negb_true_iff, !orb_false_iff.
  intros [[_ G1%Z.eqb_neq] G2]. rewrite Z.gtb_ltb in G2. apply Z.ltb_ge in G2. pose proof (ci_dist _ (iv_core _ _ I)) as [D1 D2].
  set (d := nthZ (c_old_dist (rn_core t)) (slot - 258)) in *. assert (Hd : 0 <= d) by (by apply nthZ_nonneg).
  apply msafe_bind, core_safe. set (t1 := set_core _ t).
  assert (I1 : inv total t1).
  { apply (set_reps_inv (move_front (c_old_dist (rn_core t)) (slot - 258)) (c_last_length (rn_core t))); [done| | |apply (ci_length _ (iv_core _ _ I))].
    - unfold move_front. rewrite zlen_cons, zlen_app. unfold zlen in *. rewrite length_take, length_drop. lia.
    - unfold move_front. apply Forall_cons_2; [done|]. apply Forall_app_2; [by apply Forall_take|by apply Forall_drop]. }
  apply msafe_bind, need_safe; [done|]. intros _. apply msafe_bind, (symbol_safe _ _ l4); [done|]. intros ls t2 Hls R2.
  apply msafe_bind, slot_to_length_safe; [lia|]. intros len t3 Hlen R3.
  assert (R13 : reads 0 t1 t3) by (apply (reads_one 0 t1 t2); [lia|by apply (reads_weaken 0 1)|done]). assert (Ee3 := reads_engine _ _ _ R13).
  apply msafe_bind, msafe_gets, msafe_bind, msafe_guard; [done|]. intros _. pose proof (reads_inv 0 total t1 t3 R13 I1) as I3.
  apply msafe_bind, core_safe. set (t4 := set_core _ t3).
  assert (I4 : inv total t4).
  { apply (set_reps_inv (c_old_dist (rn_core t3)) len); [done|apply (ci_dist _ (iv_core _ _ I3))..|lia]. }
  eapply msafe_mono; [apply copy_token_safe; [exact I4|done| |lia]|].
  - subst t4. cbn [set_core rn_engine]. rewrite Ee3. split; [lia|exact G2].
  - intros total' t' [I' E']. apply set_core_done with (f := fun c => set_reps (move_front (c_old_dist c) (slot - 258)) (c_last_length c) c).
    apply (token_done_reads 0 _ t3); [lia|exact R13|]. by apply set_core_done with (f := fun c => set_reps (c_old_dist c) len c), engine_only_done.
Qed.

Lemma token_safe total budget t :
  inv total t -> total < dest_size ->
  msafe (token cb dest_size base total budget) any (fun p t' => token_done 1 t p.1 t') t.
Proof.
  intros I Ht. unfold token. pose proof (ci_codes _ (iv_core _ _ I) (iv_ready _ _ I)) as (l1 & l2 & l3 & l4 & B1 & L1 & _).
  apply msafe_bind, (symbol_safe _ _ l1); [done|]. intros slot t1 Hslot R1. apply msafe_bind, msafe_gets, msafe_bind, msafe_guard; [done|]. intros _.
  pose proof (reads_inv 1 total t t1 R1 I) as I1.
  assert (Hdone : forall total' t', token_done 0 t1 total' t' -> token_done 1 t total' t') by (intros total' t'; by apply token_done_reads).
  destruct (Z.ltb_spec slot 256).
  { apply msafe_bind, (literal_safe _ total); [done|done|]. intros t2 I2 E2. cbv zeta.
    pose proof (fl_total _ _ _ (iv_engine _ _ I1)). unfold SIZE_MAX in *. rewrite size_add_small by lia.
    apply msafe_bind. eapply msafe_mono; [by apply cadence_safe|]. intros ? t3 [I3 E3]. apply msafe_ret, Hdone, engine_only_done; [done|].
    destruct E2, E3. split; congruence. }
  destruct (Z.eqb_spec slot 256).
  { apply msafe_bind. eapply msafe_mono; [by apply filter_token_safe|]. intros x t2 D. by apply msafe_ret, Hdone. }
  destruct (Z.eqb_spec slot 257).
  { apply msafe_bind. eapply msafe_mono; [by apply repeat_token_safe|]. intros x t2 D. by apply msafe_ret, Hdone. }
  rewrite Z.geb_leb. destruct (Z.leb_spec 262 slot).
  { apply msafe_bind. eapply msafe_mono; [apply match_token_safe; [done|done|lia]|]. intros x t2 D. by apply msafe_ret, Hdone. }
  apply msafe_bind. eapply msafe_mono; [apply rep_token_safe; [done|done|lia]|]. intros x t2 D. by apply msafe_ret, Hdone.
Qed.

(** *** The block loop *)

Record linv (total end_bit : Z) t : Prop := {
  li_engine : flushable base total (rn_engine t);
  li_core : core_inv (rn_core t);
  li_total : total <= dest_size;
  li_pos : 0 <= bt_pos (rn_reader t);
  li_ready : bt_pos (rn_reader t) < end_bit -> c_tables_ready (rn_core t) = true
}.

Lemma consume_pos b n : 0 <= n -> bt_pos b <= bt_pos (bt_consume b n).
Proof. intros Hn. cbn. zlen_pose. lia. Qed.

Lemma consume_left b n : 0 <= n -> zlen (bt_bits (bt_consume b n)) <= zlen (bt_bits b).
Proof. intros Hn. cbn. unfold zlen. rewrite length_drop. lia. Qed.

(** After a header and its tables, tokens are only decoded with tables. *)
Lemma tables_step strict t :
  core_inv (rn_core t) -> 0 <= bt_pos (rn_reader t) -> 0 <= bh_block_size (rn_header t) ->
  bh_block_start (rn_header t) = bt_pos (rn_reader t) / 8 ->
  msafe (_ ← read_tables; _ ← (if strict : bool then check_tables else mret tt); h ← gets rn_header; mret (block_end_bit h)) any
    (fun e t' => rn_engine t' = rn_engine t /\ core_inv (rn_core t') /\ bt_pos (rn_reader t) <= bt_pos (rn_reader t') /\
       bits_left t' <= bits_left t /\ (strict = true -> bt_pos (rn_reader t') < e -> c_tables_ready (rn_core t') = true)) t.
Proof.
  intros C Hp Hsz Hst. apply msafe_bind. eapply msafe_mono; [by apply read_tables_safe|].
  intros ? t' (RT & C' & Eh & HR). destruct RT as (Ee & (n & Hn & Er) & _). apply msafe_bind.
  assert (Hpost : forall e, (strict = true -> bt_pos (rn_reader t') < e -> c_tables_ready (rn_core t') = true) ->
    rn_engine t' = rn_engine t /\ core_inv (rn_core t') /\ bt_pos (rn_reader t) <= bt_pos (rn_reader t') /\
       bits_left t' <= bits_left t /\ (strict = true -> bt_pos (rn_reader t') < e -> c_tables_ready (rn_core t') = true)).
  { intros e He. split; [done|]. split; [done|]. unfold bits_left. rewrite Er. split; [by apply consume_pos|]. split; [by apply consume_left|by rewrite <- Er]. }
  destruct strict.
  - unfold check_tables. apply msafe_bind, msafe_gets, msafe_bind, msafe_gets, msafe_guard; [done|]. intros G.
    apply msafe_bind, msafe_gets, msafe_ret, Hpost. intros _ Hlt. rewrite Eh in *.
    destruct (bh_table_present (rn_header t)) eqn:Ep; cbn [andb orb] in *; [|done].
    destruct (Z.eqb_spec (bh_block_size (rn_header t)) 0) as [E0|]; cbn [negb] in HR; [|done]. subst t'. exfalso.
    unfold block_end_bit in Hlt. rewrite (proj2 (Z.leb_le _ _)), Hst in Hlt by lia.
    assert (u64 (bt_pos (rn_reader t) / 8 * 8) <= bt_pos (rn_reader t) / 8 * 8) by (apply Z.mod_le; [dlia|lia]). dlia.
  - apply msafe_ret, msafe_bind, msafe_gets, msafe_ret, Hpost. done.
Qed.

Lemma next_block_safe single strict total end_bit t :
  linv total end_bit t ->
  msafe (next_block single strict) any
    (fun o t' => flushable base total (rn_engine t') /\ core_inv (rn_core t') /\
       match o with
       | None => True
       | Some e => bits_left t' < bits_left t /\ 16 <= bits_left t /\ 0 <= bt_pos (rn_reader t') /\
                   (strict = true -> bt_pos (rn_reader t') < e -> c_tables_ready (rn_core t') = true)
       end) t.
Proof.
  intros [F C T P Rd]. unfold next_block. apply msafe_bind, msafe_gets. destruct single; [by apply msafe_ret|].
  destruct (bh_last_block_in_file _); [by apply msafe_ret|]. apply msafe_bind.
  eapply msafe_mono; [apply attempt_safe, read_block_header_safe|]. intros ok t1 H1. destruct ok; cbn [negb].
  2: { destruct H1 as [E1 E2]. apply msafe_ret. by rewrite E1, E2. }
  destruct H1 as (R1 & H16 & Hsz & Hst). pose proof R1 as (E1 & E2 & n & Hn & Er).
  pose proof (hreads_left 16 t t1 ltac:(lia) R1) as L1. pose proof (consume_pos (rn_reader t) n ltac:(lia)) as P1. rewrite <- Er in P1.
  assert (Hstep := tables_step strict t1). rewrite E1, E2 in Hstep. specialize (Hstep C ltac:(lia) Hsz Hst).
  assert (Hw : forall (Q : option Z -> Run Bits History -> Prop),
    msafe (_ ← read_tables; _ ← (if strict then check_tables else mret tt); h ← gets rn_header; mret (block_end_bit h)) any (fun e => Q (Some e)) t1 ->
    msafe (_ ← read_tables; _ ← (if strict then check_tables else mret tt); h ← gets rn_header; mret (Some (block_end_bit h))) any Q t1).
  { intros Q. unfold msafe, mwp, mbind, M_bind. destruct (read_tables t1) as [[[[]|] s1]| | |]; try done.
    destruct ((if strict then check_tables else mret tt) s1) as [[[[]|] s2]| | |]; done. }
  apply Hw. eapply msafe_mono; [exact Hstep|]. intros e t2 (Ee & C2 & P2 & L2 & Rd2). split; [by rewrite Ee|]. split; [done|].
  split; [lia|]. split; [done|]. split; [lia|done].
Qed.

Lemma overran_safe e bit (Q : unit -> Run Bits History -> Prop) t : Q tt t -> msafe (overran_block e bit) any Q t.
Proof. intros HQ. apply msafe_bind, msafe_gets, msafe_guard; done. Qed.

Lemma token_loop_safe single f total end_bit budget t :
  linv total end_bit t -> bits_left t < Z.of_nat f ->
  msafe (token_loop cb dest_size base single f total end_bit budget) any
    (fun p t' => flushable base p.1 (rn_engine t') /\ core_inv (rn_core t') /\ p.1 <= dest_size) t.
Proof.
  revert total end_bit budget t. induction f as [|f IH]; intros total end_bit budget t I Hf; [unfold bits_left in Hf; zlen_pose; lia|].
  cbn [token_loop]. pose proof I as [F C T P Rd]. pose proof (zlen_nonneg (bt_bits (rn_reader t))) as Hnn. fold (bits_left t) in Hnn.
  destruct (Z.ltb_spec total dest_size) as [Hlt|]; [|by apply msafe_ret].
  assert (Hnext : forall strict, (strict = false -> bits_left t < 1) -> msafe
    (b ← next_block single strict; match b with None => mret (total, end_bit) | Some end_bit => token_loop cb dest_size base single f total end_bit budget end) any
    (fun p t' => flushable base p.1 (rn_engine t') /\ core_inv (rn_core t') /\ p.1 <= dest_size) t).
  { intros strict Hstr. apply msafe_bind. eapply msafe_mono; [by apply (next_block_safe _ _ total end_bit)|].
    intros [e|] t' (F' & C' & HS); [|by apply msafe_ret]. destruct HS as (L' & L16 & P' & Rd'). apply IH; [|lia]. split; try done.
    destruct strict; [by apply Rd'|]. specialize (Hstr eq_refl). lia. }
  apply msafe_bind, msafe_gets. rewrite Z.geb_leb. cbn [bit_pos Bits_source]. destruct (Z.leb_spec end_bit (bt_pos (rn_reader t))) as [|Hbit].
  - apply msafe_bind, overran_safe. by apply Hnext.
  - apply msafe_bind, msafe_gets. cbn [bits_remaining Bits_source]. fold (bits_left t).
    destruct (Z.ltb_spec (bits_left t) 1); [by apply Hnext|]. apply msafe_bind.
    eapply msafe_mono; [apply token_safe; [|done]|].
    + split; try done. by apply Rd.
    + intros [total' budget'] t' ([F' C' Rd' T'] & n & Hn & Er). cbn [fst] in *. apply IH.
      * split; try done. rewrite Er. pose proof (consume_pos (rn_reader t) n). lia.
      * unfold bits_left in *. rewrite Er. cbn [bt_consume bt_bits]. unfold zlen in *. rewrite length_drop. lia.
Qed.

Lemma decode_blocks_safe single t :
  flushable base 0 (rn_engine t) -> core_inv (rn_core t) -> 0 <= bt_pos (rn_reader t) ->
  msafe (decode_blocks cb dest_size base single) any
    (fun _ t' => core_inv (rn_core t') /\ c_file_base (rn_core t') <= zlen (h_bytes (ae_win (rn_engine t'))) /\
       exists total, flushable base total (rn_engine t')) t.
Proof.
  intros F C P. unfold decode_blocks. apply msafe_bind, msafe_modify. set (t0 := set_header _ t). apply msafe_bind.
  apply (msafe_mono _ _ (fun _ => header_read t0)).
  { pose proof (read_block_header_safe t0) as HS. unfold msafe, mwp in *. by destruct (read_block_header t0) as [[[] ?]| | |]. }
  intros ? t1 (R1 & H16 & Hsz & Hst). pose proof R1 as (E1 & E2 & n & Hn & Er).
  pose proof (consume_pos (rn_reader t) n ltac:(lia)) as P1. change (rn_reader t) with (rn_reader t0) in P1 at 2. rewrite <- Er in P1.
  assert (Hstep := tables_step true t1). rewrite E1, E2 in Hstep. specialize (Hstep C ltac:(lia) Hsz Hst).
  assert (Hw : forall (A : Type) (k : Z -> M (Run Bits History) A) (Q : A -> Run Bits History -> Prop),
    msafe (_ ← read_tables; _ ← check_tables; h ← gets rn_header; mret (block_end_bit h)) any (fun e => msafe (k e) any Q) t1 ->
    msafe (_ ← read_tables; _ ← check_tables; h ← gets rn_header; k (block_end_bit h)) any Q t1).
  { intros A k Q. unfold msafe, mwp, mbind, M_bind. destruct (read_tables t1) as [[[[]|] s1]| | |]; try done.
    destruct (check_tables s1) as [[[[]|] s2]| | |]; done. }
  apply (Hw _ (fun end_bit => _ ← zoom rn_engine set_engine begin_call; bit ← cur_bit; _ ← overran_block end_bit bit; left ← remaining;
    '(total_written, end_bit) ← token_loop cb dest_size base single (S (Z.to_nat left)) 0 end_bit 0; bit ← cur_bit;
    _ ← overran_block end_bit bit; h ← gets rn_header; let last := bh_last_block_in_file h in
    _ ← flush cb dest_size base (negb single || last) total_written;
    _ ← guard (negb (negb single && (total_written <? dest_size) && negb last)); c ← gets rn_core;
    _ ← core (set_bases (u64 (base + total_written)) (c_member_start c)); mret (total_written, last))).
  eapply msafe_mono; [exact Hstep|]. clear Hw Hstep. intros e t2 (Ee & C2 & P2 & L2 & Rd2).
  apply msafe_bind, msafe_zoom, msafe_modify. apply msafe_bind, msafe_gets, msafe_bind, overran_safe, msafe_bind, msafe_gets.
  apply msafe_bind. eapply msafe_mono; [apply token_loop_safe|].
  - split; cbn [set_engine rn_engine rn_core rn_reader]; try done; try lia; [|by apply Rd2]. rewrite Ee. cbn. by apply flushable_set_flushed.
  - cbn [bits_remaining Bits_source]. unfold bits_left. cbn [set_engine rn_reader]. zlen_pose. lia.
  - intros [total e'] t3 (F3 & C3 & T3). cbn [fst] in *. apply msafe_bind, msafe_gets, msafe_bind, overran_safe, msafe_bind, msafe_gets.
    cbv zeta. apply msafe_bind. unfold flush. apply msafe_zoom. eapply msafe_mono; [by apply flush_pending_safe|]. intros ? e4 (F4 & Ew & _).
    apply msafe_bind, msafe_guard; [done|]. intros _. apply msafe_bind, msafe_gets, msafe_bind, core_safe, msafe_ret.
    cbn [set_core set_engine rn_core rn_engine]. split; [|split].
    + destruct C3 as [I1 I2 I3 I4 I5 [I6 I7]]. split; try done. split; [by apply (wrap_range 64)|done].
    + apply (fl_abs _ _ _ F4).
    + by exists total.
Qed.
End token_safety.

(** *** Whole calls *)

Section call_safety.
Context (cb : OutputCallback).

(** The object between calls. *)
Record object_ok (d : Decompressor50 History) : Prop := {
  ob_size : 65536 <= h_size (ae_win (dc_engine d)) < 2 ^ 62;
  ob_bytes : bytes (h_bytes (ae_win (dc_engine d)));
  ob_flushed : 0 <= ae_flushed (dc_engine d) < 2 ^ 64;
  ob_filters : Forall filter_ok (ae_filters (dc_engine d));
  ob_core : core_inv (dc_core d);
  ob_base : c_file_base (dc_core d) <= zlen (h_bytes (ae_win (dc_engine d)))
}.

Definition object_of (t : Run Bits History) : Decompressor50 History := {| dc_engine := rn_engine t; dc_core := rn_core t |}.

Abbreviation any := (fun _ : Run Bits History => True).

Lemma core_inv_reset c : core_inv c -> core_inv (set_table (replicate 446 0) false (set_reps no_dist 0 (set_bases 0 0 c))).
Proof.
  intros [I1 I2 I3 I4 I5 I6]. split; try done.
  - split; [done|]. cbn [set_table c_table]. apply Forall_replicate. lia.
  - split; [done|]. cbn [set_table set_reps c_old_dist no_dist]. unfold no_dist. apply Forall_replicate. unfold SIZE_MAX. lia.
Qed.

Lemma core_inv_bases c member : core_inv c -> 0 <= member < 2 ^ 64 -> core_inv (set_bases (c_file_base c) member c).
Proof. intros [I1 I2 I3 I4 I5 [I6 I7]] Hm. by split. Qed.

Lemma object_ok_flushable (d : Decompressor50 History) :
  object_ok d -> h_ready (ae_win (dc_engine d)) = true -> flushable (c_file_base (dc_core d)) 0 (dc_engine d).
Proof.
  intros [O1 O2 O3 O4 O5 O6] Hr. pose proof (ci_bases _ O5) as [B _]. zlen_pose. split; try done.
  rewrite Z.add_0_r, wrap_small by lia. lia.
Qed.

Lemma decompress_internal_safe dest_size solid single t :
  0 <= dest_size <= SIZE_MAX -> object_ok (object_of t) -> 0 <= bt_pos (rn_reader t) ->
  msafe (decompress_internal cb dest_size solid single) any (fun _ t' => object_ok (object_of t')) t.
Proof.
  intros Hd O Hp. unfold decompress_internal. apply msafe_bind, msafe_gets, msafe_bind, msafe_guard; [done|]. intros _.
  apply msafe_bind. unfold window_op. apply msafe_bind, msafe_call. cbn [dict_alloc History_dictionary].
  eexists _, _. split; [reflexivity|]. apply msafe_ret.
  set (t1 := set_engine t _).
  assert (O1 : object_ok (object_of t1)) by (destruct O; by split).
  assert (Hr : h_ready (ae_win (rn_engine t1)) = true) by done. assert (Ec : rn_core t1 = rn_core t) by done.
  assert (Er : rn_reader t1 = rn_reader t) by done. clearbody t1. apply msafe_bind.
  apply (msafe_mono _ _ (fun _ t2 => object_ok (object_of t2) /\ h_ready (ae_win (rn_engine t2)) = true /\ rn_core t2 = rn_core t /\ rn_reader t2 = rn_reader t)).
  { destruct (_ || _); [apply msafe_modify|by apply msafe_ret]. split; [destruct O1; by split|]. by split. }
  intros ? t2 (O2 & Hr2 & Ec2 & Er2). cbv zeta. apply msafe_bind.
  apply (msafe_mono _ _ (fun _ t3 => object_ok (object_of t3) /\ h_ready (ae_win (rn_engine t3)) = true /\ rn_reader t3 = rn_reader t /\
     (if solid then c_file_base (rn_core t) else 0) = c_file_base (rn_core t3))).
  { destruct solid; cbn [negb].
    - destruct single; cbn [negb]; [apply msafe_ret; by rewrite Ec2|]. apply core_safe. cbn. split; [|by rewrite Ec2].
      pose proof O2 as [A1 A2 A3 A4 A5 A6]. split; try done. cbn [object_of set_core dc_core rn_core].
      rewrite <- Ec2. apply core_inv_bases; [done|apply (ci_bases _ A5)].
    - apply msafe_bind, msafe_modify, core_safe. cbn. split; [|done]. pose proof O2 as [A1 A2 A3 A4 A5 A6]. split; try done.
      by apply core_inv_reset. }
  intros ? t3 (O3 & Hr3 & Er3 & Eb). destruct (dest_size =? 0); [by apply msafe_ret|]. rewrite Eb.
  pose proof (ci_bases _ (ob_core _ O3)) as [B3 _].
  eapply msafe_mono; [apply decode_blocks_safe; try done|].
  - by apply (object_ok_flushable (object_of t3)).
  - apply (ob_core _ O3).
  - by rewrite Er3.
  - intros [n last] t' (C' & Hb & total & F'). destruct F'. by split.
Qed.

Lemma with_reader_safe {A} (m : M (Run Bits History) A) b d (Q : A -> Decompressor50 History -> Prop) :
  msafe m any (fun a t' => Q a (object_of t'))
    {| rn_reader := b; rn_engine := dc_engine d; rn_core := dc_core d; rn_header := BlockHeader_init |} ->
  msafe (with_reader b m) (fun _ => True) Q d.
Proof. unfold msafe, mwp, with_reader. by destruct (m _) as [[[a|] t']| | |]. Qed.
End call_safety.

(** ** Sequences of calls *)

(** One call on the decoder object: the packed bytes, one block or the whole
    stream, how much output is wanted, and whether the dictionary carries over. *)
Record decode_call := { dl_data : list Z; dl_block : bool; dl_dest : Z; dl_solid : bool }.

Definition do_call {R W} `{BitSource R} `{Dictionary W} (mk : list Z -> R) (cb : OutputCallback) (c : decode_call) : M (Decompressor50 W) (Z * bool) :=
  let r := mk (dl_data c) in
  if dl_block c then decompress_block cb r (zlen (dl_data c)) (dl_solid c)
  else decompress cb r (zlen (dl_data c)) (dl_dest c) (dl_solid c).

(** Calls up to the first that returns [false]. *)
Fixpoint do_calls {R W} `{BitSource R} `{Dictionary W} (mk : list Z -> R) (cb : OutputCallback) (cs : list decode_call) :
    M (Decompressor50 W) (list (Z * bool)) :=
  match cs with
  | [] => mret []
  | c :: cs' => x ← do_call mk cb c; l ← do_calls mk cb cs'; mret (x :: l)
  end.

Definition call_ok (c : decode_call) : Prop :=
  bytes (dl_data c) /\ zlen (dl_data c) < 2 ^ 60 /\ 0 <= dl_dest c <= SIZE_MAX.

(** The decoder over bits and history. *)
Definition reference_decoder (size declared_win : Z) (extra_dist : bool) : Decompressor50 History :=
  Decompressor50_init {| h_size := Z.max size 0x10000; h_ready := false; h_bytes := [] |} declared_win extra_dist.

Lemma do_call_safe cb c d :
  call_ok c -> object_ok d -> msafe (do_call bits_of_bytes cb c) (fun _ => True) (fun _ => object_ok) d.
Proof.
  intros (Hb & Hz & Hd) O. destruct d as [e k]. unfold do_call, decompress_block, decompress. cbv zeta.
  destruct (dl_block c); (case_match; [by apply msafe_ret|]); apply with_reader_safe, decompress_internal_safe;
    try done; try (unfold SIZE_MAX; lia); cbn [bits_of_bytes bt_pos rn_reader]; try lia.
Qed.

Lemma do_calls_safe cb cs d :
  Forall call_ok cs -> object_ok d -> msafe (do_calls bits_of_bytes cb cs) (fun _ => True) (fun _ => object_ok) d.
Proof.
  intros HF. revert d. induction HF as [|c cs Hc HF IH]; intros d O; cbn [do_calls]; [by apply msafe_ret|].
  apply msafe_bind. eapply msafe_mono; [by apply do_call_safe|]. intros x d1 O1. apply msafe_bind.
  eapply msafe_mono; [by apply IH|]. intros l d2 O2. by apply msafe_ret.
Qed.

Lemma do_call_sim {R W} `{BitSourceLaws R} `{DictionaryLaws W} (mk : list Z -> R) cb size c :
  (forall data, bytes data -> zlen data < 2 ^ 60 -> bits_abs (mk data) (bits_of_bytes data)) -> call_ok c ->
  sim (object_rel size) (object_stop cb) (do_call mk cb c) (do_call bits_of_bytes (accept_all cb) c).
Proof.
  intros Hmk (Hb & Hz & Hd). unfold do_call, decompress_block, decompress. cbv zeta. apply sim_if; (apply sim_if; [apply sim_ret|]);
    (apply osim_with_reader; [by apply Hmk|apply rsim_decompress_internal]).
Qed.

Lemma do_calls_sim {R W} `{BitSourceLaws R} `{DictionaryLaws W} (mk : list Z -> R) cb size cs :
  (forall data, bytes data -> zlen data < 2 ^ 60 -> bits_abs (mk data) (bits_of_bytes data)) -> Forall call_ok cs ->
  sim (object_rel size) (object_stop cb) (do_calls mk cb cs) (do_calls bits_of_bytes (accept_all cb) cs).
Proof.
  intros Hmk HF. induction HF as [|c cs Hc HF IH]; cbn [do_calls]; [apply sim_ret|].
  apply sim_bind; [by apply do_call_sim|intros x; apply sim_bind; [exact IH|intros l; apply sim_ret]].
Qed.

Lemma HuffmanDecoder_init_ok : code_ok HuffmanDecoder_init.
Proof. unfold code_ok, HuffmanDecoder_init. cbn [hd_quick]. by apply Forall_replicate. Qed.

(** A new decoder over the window and one over the plain history. *)
Lemma reference_rel `{MemoryLaws} size declared_win extra_dist :
  size < 2 ^ 62 ->
  object_rel (W := Window) (Z.max size 65536) (Decompressor50_init (win_init size) declared_win extra_dist) (reference_decoder size declared_win extra_dist).
Proof.
  intros Hs. split; [|done|].
  - split; try done. split; [done|]. cbn [reference_decoder Decompressor50_init dc_engine ae_win h_size h_bytes h_ready].
    split; [lia|]. split; [constructor|]. split; [done|]. by exists size.
  - cbn [reference_decoder Decompressor50_init dc_core]. split_and!; apply HuffmanDecoder_init_ok.
Qed.

Lemma reference_ok size declared_win extra_dist :
  size < 2 ^ 62 -> object_ok (reference_decoder size declared_win extra_dist).
Proof.
  intros Hs. split; cbn [reference_decoder Decompressor50_init dc_engine dc_core ae_win ae_flushed ae_filters h_size h_bytes c_file_base]; try done; try lia.
  split; cbn [c_table c_table_size c_tables_ready c_old_dist c_last_length c_file_base c_member_start c_extra_dist]; try done.
  - split; [done|]. apply Forall_replicate. lia.
  - split; [done|]. unfold no_dist. apply Forall_replicate. unfold SIZE_MAX. lia.
Qed.

(** C2. The decoder on any input: for every sequence of calls (whole streams
    and single blocks, solid or not, any output limit, any bytes at all), over
    any bit source that delivers the bytes and the real sliding window, the
    decoder terminates without leaving a table, a buffer or the window, and it
    returns, emits and reports exactly what the reference decoder over the list
    of bits and the plain history does, the chunks cut elsewhere.  The only
    other outcome is a failure because the output callback refused the last
    chunk, or because memory for the window was refused, and then the decoder
    says so. *)
Theorem decoder_refines_reference (R : Type) `{BitSourceLaws R} `{MemoryLaws} (mk : list Z -> R) (cb : OutputCallback)
    (size declared_win : Z) (extra_dist : bool) (calls : list decode_call) :
  (forall data, bytes data -> zlen data < 2 ^ 60 -> bits_abs (mk data) (bits_of_bytes data)) -> size < 2 ^ 62 -> Forall call_ok calls ->
  exists o d o' d',
    do_calls mk cb calls (Decompressor50_init (win_init size) declared_win extra_dist) = Ok (o, d) /\
    do_calls bits_of_bytes (accept_all cb) calls (reference_decoder size declared_win extra_dist) = Ok (o', d') /\
    ((o = o' /\ concat (ae_sent (dc_engine d)) = concat (ae_sent (dc_engine d')) /\ c_last_error (dc_core d) = c_last_error (dc_core d')) \/
     (o = None /\ (refused cb (ae_sent (dc_engine d)) \/ (c_last_error (dc_core d) = AllocationFailed /\ ~ memory_grants)))).
Proof.
  intros Hmk Hs HF.
  pose proof (do_calls_safe (accept_all cb) calls _ HF (reference_ok size declared_win extra_dist Hs)) as SF.
  pose proof (reference_rel size declared_win extra_dist Hs) as HR.
  pose proof (do_calls_sim mk cb (Z.max size 65536) calls Hmk HF _ _ HR) as SM. unfold sim_at in SM. unfold msafe, mwp in SF.
  destruct (do_calls bits_of_bytes (accept_all cb) calls (reference_decoder size declared_win extra_dist)) as [[o' d']| | |]; try done.
  destruct SM as (o & d & E & HC). exists o, d, o', d'. split; [exact E|]. split; [done|].
  destruct HC as [[-> HR']|[-> HS]]; [left|right].
  - split; [done|]. split; [apply (er_sent _ _ _ (or_engine _ _ _ HR'))|]. by rewrite (or_core _ _ _ HR').
  - split; [done|]. destruct HS as [HS|HS]; [by left|by right].
Qed.

(** "ab", a match of 4 two back, the same match again, "a"; then a truncated block. *)
Definition sample_stream : list Z := [196; 147; 13; 2; 47; 210; 46; 178; 255; 241; 44; 220; 240; 123; 199; 192].
Definition sample_calls : list decode_call :=
  [{| dl_data := sample_stream; dl_block := false; dl_dest := 11; dl_solid := false |};
   {| dl_data := take 9 sample_stream; dl_block := true; dl_dest := 0; dl_solid := true |}].

Lemma decoder_refines_reference_witness :
  let cb := Some (fun (_ : list (list Z)) (_ : list Z) => true) in
  (exists d, do_calls bits_of_bytes cb (take 1 sample_calls) (reference_decoder 70000 70000 false) = Ok (Some [(11, true)], d) /\
     ae_sent (dc_engine d) = [[97; 98; 97; 98; 97; 98; 97; 98; 97; 98; 97]]) /\
  exists o d o' d',
    @do_calls (BitReader Empty_set) Window _ (@Window_dictionary pattern_memory) BitReader_memory cb sample_calls
      (Decompressor50_init (win_init 70000) 70000 false) = Ok (o, d) /\
    do_calls bits_of_bytes (accept_all cb) sample_calls (reference_decoder 70000 70000 false) = Ok (o', d') /\
    ((o = o' /\ concat (ae_sent (dc_engine d)) = concat (ae_sent (dc_engine d')) /\ c_last_error (dc_core d) = c_last_error (dc_core d')) \/
     (o = None /\ (refused cb (ae_sent (dc_engine d)) \/ (c_last_error (dc_core d) = AllocationFailed /\ ~ @memory_grants pattern_memory)))).
Proof.
  split; [eexists; split; vm_compute; reflexivity|].
  apply (@decoder_refines_reference (BitReader Empty_set) _ _ pattern_memory pattern_memory_laws BitReader_memory); [|lia|].
  - apply BitReader_memory_abs.
  - repeat first [apply Forall_cons_2; [split; [|split; [vm_compute; reflexivity|cbn; unfold SIZE_MAX; lia]]|]|apply Forall_nil_2];
      repeat first [apply Forall_cons_2; [unfold is_byte; lia|]|apply Forall_nil_2].
Defined.
