(* ===== verification/TokenRoundtrip.v ===== *)
(** The decoder reads back the tokens of the encoder.

    [Op] is a token as the parser asks for it, [op_step] its effect on the
    history and on the repeat distances the encoder and the decoder both keep.
    [record_ops_spec]: recording operations leaves the tokens of a block and
    counts their symbols.  [token_back]: the decoder, over the list of bits and
    the history, reads each token whole and does what the operation does. *)

From Stdlib Require Import ZArith Lia.
From stdpp Require Import base tactics list numbers.
From S2P Require Import Prelude Loops Bytes Arrays BitReader Huffman BuildLengths BitOutput Encoder LzWindow StateFail ApplyEngine Decoder DecoderSafety.

Local Open Scope Z_scope.

(** ** Operations *)

Inductive Op := OpLit (b : Z) | OpMat (length distance : Z) | OpRep (index length : Z) | OpLast.

(** The history and what both sides remember of the last matches. *)
Record Lz := { z_hist : list Z; z_dist : list Z; z_len : Z }.

Definition Lz_init : Lz := {| z_hist := []; z_dist := no_dist; z_len := 0 |}.

(** The bytes a match token covers: longer ones are cut. *)
Definition match_span (length distance : Z) : Z :=
  Z.min (length - length_increment distance) MAX_LZ_MATCH + length_increment distance.

Definition op_step (z : Lz) (o : Op) : Lz :=
  match o with
  | OpLit b => {| z_hist := z_hist z ++ [b]; z_dist := z_dist z; z_len := z_len z |}
  | OpMat length distance =>
      let n := match_span length distance in
      {| z_hist := lz_match distance n (z_hist z); z_dist := push_dist (z_dist z) distance; z_len := n |}
  | OpRep index length =>
      {| z_hist := lz_match (nthZ (z_dist z) index) length (z_hist z); z_dist := move_front (z_dist z) index; z_len := length |}
  | OpLast => {| z_hist := lz_match (nthZ (z_dist z) 0) (z_len z) (z_hist z); z_dist := z_dist z; z_len := z_len z |}
  end.

(** What an operation may ask for: distances in the window and within the 64
    slots of the 430-entry table, lengths that have a slot, a repeat distance
    that has been set. *)
Definition op_ok (win : Z) (z : Lz) (o : Op) : bool :=
  match o with
  | OpLit b => (0 <=? b) && (b <? 256)
  | OpMat length distance =>
      (1 <=? distance) && (distance <=? Z.min win (2 ^ 32)) && (length_increment distance + 2 <=? length) && (length <? 2 ^ 32)
  | OpRep index length =>
      (0 <=? index) && (index <? 4) && (2 <=? length) && (length <=? MAX_LZ_MATCH) && good_dist (nthZ (z_dist z) index) win
  | OpLast => negb (z_len z =? 0) && good_dist (nthZ (z_dist z) 0) win
  end.

Fixpoint ops_ok (win : Z) (z : Lz) (ops : list Op) : bool :=
  match ops with [] => true | o :: ops' => op_ok win z o && ops_ok win (op_step z o) ops' end.

Definition run_ops (z : Lz) (ops : list Op) : Lz := fold_left op_step ops z.

Definition record_op (o : Op) (e : Encoder) : res Encoder :=
  match o with
  | OpLit b => Ok (add_literal b e)
  | OpMat length distance => '(_, e) ← add_match length distance e; mret e
  | OpRep index length => add_rep index length e
  | OpLast => Ok (add_last_len e)
  end.

Fixpoint record_ops (ops : list Op) (e : Encoder) : res Encoder :=
  match ops with [] => Ok e | o :: ops' => e ← record_op o e; record_ops ops' e end.

(** Every block in turn, the last one marked; [false]: a block was too large. *)
Fixpoint encode_blocks (blocks : list (list Op)) (e : Encoder) : res (bool * Encoder) :=
  match blocks with
  | [] => Ok (true, e)
  | ops :: blocks' =>
      e ← record_ops ops e;
      '(ok, e) ← write_block (match blocks' with [] => true | _ => false end) e;
      if negb ok then Ok (false, e) else encode_blocks blocks' e
  end.

(** ** Recording *)

(** The repeat state is that of the history; lengths stay within a match. *)
Record lz_ok (z : Lz) : Prop := {
  lk_hist : bytes (z_hist z);
  lk_dist : zlen (z_dist z) = 4 /\ Forall (fun d => 0 <= d < 2 ^ 64) (z_dist z);
  lk_len : 0 <= z_len z <= 4100
}.

Lemma length_increment_range d : 0 <= length_increment d <= 3.
Proof. unfold length_increment. repeat case_match; lia. Qed.

Lemma match_span_range length d : length_increment d + 2 <= length -> 2 <= match_span length d <= 4100.
Proof. intros H. pose proof (length_increment_range d). unfold match_span, MAX_LZ_MATCH. lia. Qed.

Lemma Lz_init_ok : lz_ok Lz_init.
Proof.
  split; cbn [Lz_init z_hist z_dist z_len]; [apply Forall_nil_2| |lia]. split; [done|]. apply Forall_replicate. unfold SIZE_MAX. lia.
Qed.

Lemma nthZ_dist_range z i : lz_ok z -> 0 <= nthZ (z_dist z) i < 2 ^ 64.
Proof.
  intros [_ [_ HF] _]. unfold nthZ. destruct (nth_in_or_default (Z.to_nat i) (z_dist z) 0) as [Hin|E0]; [|by rewrite E0].
  by apply (proj1 (List.Forall_forall _ _) HF).
Qed.

(** A history only grows, by the bytes of the operation. *)
Definition op_span (z : Lz) (o : Op) : Z :=
  match o with OpLit _ => 1 | OpMat l d => match_span l d | OpRep _ l => l | OpLast => z_len z end.

Lemma op_step_ok win z o :
  lz_ok z -> op_ok win z o = true ->
  lz_ok (op_step z o) /\ 1 <= op_span z o <= 4100 /\
  exists new, z_hist (op_step z o) = z_hist z ++ new /\ bytes new /\ zlen new = op_span z o.
Proof.
  intros HZ HO. pose proof HZ as [HB [HD HF] HL].
  assert (HP : forall i, 0 <= nthZ (z_dist z) i < 2 ^ 64) by (intros i; by apply nthZ_dist_range).
  destruct o as [b|l d|i l|]; cbn [op_ok op_step op_span z_hist] in *; rewrite ?andb_true_iff, ?Z.leb_le, ?Z.ltb_lt in HO.
  - assert (Hb : bytes [b]) by (apply Forall_cons_2; [unfold is_byte; lia|apply Forall_nil_2]). split; [|split; [lia|by exists [b]]].
    split; [by apply Forall_app_2|done|done].
  - destruct HO as (((H1 & H2) & H3) & H4). pose proof (match_span_range l d H3).
    destruct (lz_match_app d (match_span l d) (z_hist z) HB) as (new & E & Bn & Ln). rewrite Z.max_r in Ln by lia.
    split; [|split; [lia|by exists new]]. split; cbn [z_hist z_dist z_len].
    + rewrite E. by apply Forall_app_2.
    + split; [done|]. unfold push_dist. repeat (apply Forall_cons_2; [try apply HP; lia|]). apply Forall_nil_2.
    + lia.
  - destruct HO as ((((H1 & H2) & H3) & H4) & H5). unfold MAX_LZ_MATCH in H4.
    destruct (lz_match_app (nthZ (z_dist z) i) l (z_hist z) HB) as (new & E & Bn & Ln). rewrite Z.max_r in Ln by lia.
    split; [|split; [lia|by exists new]]. split; cbn [z_hist z_dist z_len].
    + rewrite E. by apply Forall_app_2.
    + unfold move_front. split; [|apply Forall_cons_2; [apply HP|apply Forall_app_2; [by apply Forall_take|by apply Forall_drop]]].
      rewrite zlen_cons, zlen_app. unfold zlen in *. rewrite length_take, length_drop. lia.
    + lia.
  - destruct HO as (H1 & H2). destruct (Z.eqb_spec (z_len z) 0) as [|Hz]; [done|].
    destruct (lz_match_app (nthZ (z_dist z) 0) (z_len z) (z_hist z) HB) as (new & E & Bn & Ln). rewrite Z.max_r in Ln by lia.
    split; [|split; [lia|by exists new]]. split; cbn [z_hist z_dist z_len]; [|done|done]. rewrite E. by apply Forall_app_2.
Qed.

(** *** The token of an operation *)

Definition rep_token_of (ty ls le : Z) : Compressor50Token := set_len_extra (set_len_slot (set_type Token_init ty) (u8 ls)) le.

Definition op_tok (o : Op) : Tok :=
  match o with
  | OpLit b => TLiteral b
  | OpMat length distance =>
      let '(ls, le, _) := length_slot_entry (Z.min (length - length_increment distance) MAX_LZ_MATCH - 2) in
      let '(ds, de, _) := distance_to_slot distance in
      TMatch (match_token_of Token_Match ls le ds de)
  | OpRep index length =>
      let '(ls, le, _) := length_slot_entry (length - 2) in TMatch (rep_token_of (Token_Rep0 + index) ls le)
  | OpLast => TMatch (set_type Token_init Token_LastLen)
  end.

Definition rep_packed_ok (ty ls : Z) : bool := let t := rep_token_of ty ls 0 in (get_type t =? ty) && (get_len_slot t =? ls).

Lemma rep_tokens : forallb (fun ty => forallb (fun ls => rep_packed_ok ty ls) (seqZ 0 44)) (seqZ 2 4) = true.
Proof. vm_compute. reflexivity. Qed.

Lemma rep_token_fields ty ls le :
  2 <= ty < 6 -> 0 <= ls < 44 -> 0 <= le < 2 ^ 16 ->
  let t := rep_token_of ty ls le in
  get_type t = ty /\ get_len_slot t = ls /\ tk_len_extra t = le /\ get_len_bits t = (if ls <? 8 then 0 else ls / 4 - 1).
Proof.
  intros Ht Hl He. pose proof rep_tokens as HA.
  rewrite forallb_forall in HA. specialize (HA ty ltac:(apply list_elem_of_In, elem_of_seqZ; lia)).
  rewrite forallb_forall in HA. specialize (HA ls ltac:(apply list_elem_of_In, elem_of_seqZ; lia)).
  unfold rep_packed_ok in HA. rewrite andb_true_iff, !Z.eqb_eq in HA. destruct HA as (A1 & A2). cbv zeta.
  assert (G1 : get_type (rep_token_of ty ls le) = ty) by exact A1.
  assert (G2 : get_len_slot (rep_token_of ty ls le) = ls) by exact A2.
  unfold get_len_bits. rewrite G1, G2. split_and!; try done.
  - cbn. by apply wrap_small.
  - destruct (Z.ltb_spec ls 8); [done|]. apply wrap_small. dlia.
Qed.

(** What a match operation looks like as a token. *)
Lemma op_tok_match length d :
  1 <= d <= 2 ^ 32 -> length_increment d + 2 <= length ->
  exists ls le lb ds de db,
    op_tok (OpMat length d) = TMatch (match_token_of Token_Match ls le ds de) /\
    length_to_slot (Z.min (length - length_increment d) MAX_LZ_MATCH) = Ok (ls, le, lb) /\ distance_to_slot d = (ds, de, db) /\
    (0 <= ls < 44 /\ lb = (if ls <? 8 then 0 else ls / 4 - 1) /\ 0 <= lb < 10 /\ 0 <= le < 2 ^ lb /\
     length_of_slot ls le lb = Z.min (length - length_increment d) MAX_LZ_MATCH) /\
    (0 <= ds < 64 /\ db = (if ds <? 4 then 0 else ds / 2 - 1) /\ 0 <= db < 31 /\ 0 <= de < 2 ^ db /\ distance_of_slot ds de db = d).
Proof.
  intros Hd Hl. set (base := Z.min (length - length_increment d) MAX_LZ_MATCH).
  assert (Hb : 2 <= base <= MAX_LZ_MATCH) by (unfold base, MAX_LZ_MATCH; lia).
  destruct (length_to_slot_spec base Hb) as (ls & le & lb & E1 & A). destruct (distance_to_slot_spec d Hd) as (ds & de & db & E2 & B).
  exists ls, le, lb, ds, de, db. split_and!; try done; try apply A; try apply B.
  cbn [op_tok]. fold base. unfold length_to_slot in E1. rewrite Z.geb_leb, (proj2 (Z.leb_le _ _)) in E1 by lia.
  destruct (_ <? _) in E1; [|done]. injection E1 as ->. by rewrite E2.
Qed.

Lemma op_tok_rep i length :
  2 <= length <= MAX_LZ_MATCH ->
  exists ls le lb, op_tok (OpRep i length) = TMatch (rep_token_of (Token_Rep0 + i) ls le) /\ length_to_slot length = Ok (ls, le, lb) /\
    0 <= ls < 44 /\ lb = (if ls <? 8 then 0 else ls / 4 - 1) /\ 0 <= lb < 10 /\ 0 <= le < 2 ^ lb /\ length_of_slot ls le lb = length.
Proof.
  intros Hb. destruct (length_to_slot_spec length Hb) as (ls & le & lb & E1 & A). exists ls, le, lb. split_and!; try done; try apply A.
  cbn [op_tok]. unfold length_to_slot in E1. rewrite Z.geb_leb, (proj2 (Z.leb_le _ _)) in E1 by lia.
  destruct (_ <? _) in E1; [|done]. by injection E1 as ->.
Qed.

Lemma push_holds toks k e e' :
  holds_tokens e toks ->
  en_token_seq e' = en_token_seq e ++ [tok_seq k] -> en_lit_bytes e' = en_lit_bytes e ++ tok_lits k ->
  en_match_tokens e' = en_match_tokens e ++ tok_matches k -> en_filter_tokens e' = en_filter_tokens e ++ tok_filters k ->
  holds_tokens e' (toks ++ [k]).
Proof.
  intros [H1 H2 H3 H4] E1 E2 E3 E4. split; rewrite ?map_app, ?concat_app; cbn [map concat]; rewrite ?app_nil_r; congruence.
Qed.

Ltac held e := apply (push_holds _ _ e); [done|cbn; by rewrite ?app_nil_r..].

(** The new frequencies count the new token and whatever the old ones did. *)
Lemma recording_push toks k e e' ld dd ldd rd :
  recording e toks -> holds_tokens e' (toks ++ [k]) ->
  (en_freq_ld e' = ld /\ zlen ld = 306 /\ freqs_ok ld /\ forall s, counted (en_freq_ld e) 306 s -> counted ld 306 s) ->
  (en_freq_dd e' = dd /\ zlen dd = 80 /\ freqs_ok dd /\ forall s, counted (en_freq_dd e) 64 s -> counted dd 64 s) ->
  (en_freq_ldd e' = ldd /\ zlen ldd = 16 /\ freqs_ok ldd /\ forall s, counted (en_freq_ldd e) 16 s -> counted ldd 16 s) ->
  (en_freq_rd e' = rd /\ zlen rd = 44 /\ freqs_ok rd /\ forall s, counted (en_freq_rd e) 44 s -> counted rd 44 s) ->
  tok_uses (counted ld 306) (counted dd 64) (counted ldd 16) (counted rd 44) k -> recording e' (toks ++ [k]).
Proof.
  intros HR HT (<- & L1 & F1 & M1) (<- & L2 & F2 & M2) (<- & L3 & F3 & M3) (<- & L4 & F4 & M4) HK.
  split; try done. apply Forall_app_2; [|by apply Forall_cons_2; [|apply Forall_nil_2]].
  eapply List.Forall_impl; [|apply (rc_counted _ _ HR)]. intros x. by apply tok_uses_impl.
Qed.

Lemma bump_part freq i n m :
  zlen freq = m -> freqs_ok freq -> 0 <= i < m ->
  bump freq i = bump freq i /\ zlen (bump freq i) = m /\ freqs_ok (bump freq i) /\ forall s, counted freq n s -> counted (bump freq i) n s.
Proof.
  intros L F Hi. split; [done|]. split; [by rewrite zlen_bump|]. split; [by apply bump_ok|]. intros s. apply bump_mono; [done|lia].
Qed.

Lemma same_part freq n m : zlen freq = m -> freqs_ok freq -> freq = freq /\ zlen freq = m /\ freqs_ok freq /\ forall s, counted freq n s -> counted freq n s.
Proof. done. Qed.

(** The encoder's shadow of the repeat state. *)
Definition shadows (e : Encoder) (z : Lz) : Prop := en_old_dist e = z_dist z /\ en_last_length e = z_len z.

Definition same_output (e e' : Encoder) : Prop := en_mem_out e' = en_mem_out e /\ en_packed_total e' = en_packed_total e.

Definition recorded (o : Op) (z : Lz) (toks : list Tok) (e : Encoder) : Prop :=
  exists e', record_op o e = Ok e' /\ recording e' (toks ++ [op_tok o]) /\ shadows e' (op_step z o) /\ same_output e e'.

Lemma record_literal b z toks e : recording e toks -> shadows e z -> 0 <= b < 256 -> recorded (OpLit b) z toks e.
Proof.
  intros HR HS Hb. pose proof HR as [HT L1 L2 L3 L4 F1 F2 F3 F4 HC]. eexists. split; [reflexivity|]. split; [|split; [done|done]].
  eapply (recording_push toks _ e); [done|held e|apply (bump_part _ b); (done || lia)|by apply same_part..|].
  split; [done|]. apply (bump_counts (en_freq_ld e)); (done || lia).
Qed.

Lemma record_last z toks e : recording e toks -> shadows e z -> recorded OpLast z toks e.
Proof.
  intros HR HS. pose proof HR as [HT L1 L2 L3 L4 F1 F2 F3 F4 HC]. eexists. split; [reflexivity|]. split; [|split; [done|done]].
  eapply (recording_push toks _ e); [done|held e|apply (bump_part _ 257); (done || lia)|by apply same_part..|].
  cbn [op_tok tok_uses]. apply (bump_counts (en_freq_ld e)); (done || lia).
Qed.

Lemma record_match win l d z toks e :
  recording e toks -> shadows e z -> op_ok win z (OpMat l d) = true -> recorded (OpMat l d) z toks e.
Proof.
  intros HR [S1 S2] HO. pose proof HR as [HT L1 L2 L3 L4 F1 F2 F3 F4 HC].
  cbn [op_ok] in HO. rewrite !andb_true_iff, !Z.leb_le, !Z.ltb_lt in HO. destruct HO as (((H1 & H2) & H3) & H4).
  destruct (op_tok_match l d ltac:(lia) H3) as (ls & le & lb & ds & de & db & EK & EL & ED & (A1 & A2 & A3 & A4 & A5) & (B1 & B2 & B3 & B4 & B5)).
  unfold recorded. cbn [record_op]. unfold add_match. rewrite (proj2 (Z.ltb_ge _ _)) by lia. cbv zeta.
  pose proof (length_increment_range d). rewrite (wrap_small 32 (l - _)) by lia.
  assert (EB : (if l - length_increment d >? MAX_LZ_MATCH then MAX_LZ_MATCH else l - length_increment d) = Z.min (l - length_increment d) MAX_LZ_MATCH).
  { rewrite Z.gtb_ltb. destruct (Z.ltb_spec MAX_LZ_MATCH (l - length_increment d)); lia. }
  rewrite EB, EL, bind_ok, ED, bind_ok. eexists. split; [reflexivity|]. rewrite EK.
  change (set_dist_extra (set_dist_slot (set_len_extra (set_len_slot (set_type Token_init Token_Match) (u8 ls)) le) (u8 ds)) de) with (match_token_of Token_Match ls le ds de).
  pose proof (pow_le lb 15 ltac:(lia)) as P15.
  destruct (match_token_fields Token_Match ls le ds de) as (G1 & G2 & G3 & G4 & G5 & G6 & G7); [unfold Token_Match; lia|lia|lia|lia|].
  assert (Hlow : 0 <= Z.land de 0xf < 16) by (change 0xf with (Z.ones 4); rewrite Z.land_ones by lia; apply Z.mod_pos_bound; lia).
  set (ldd := if db >=? 4 then bump (en_freq_ldd e) (Z.land de 0xf) else en_freq_ldd e).
  split; [|split; [|done]].
  - eapply (recording_push toks _ e _ _ _ ldd); [done|held e|apply (bump_part _ (262 + ls)); (done || lia)|apply (bump_part _ ds); (done || lia)| |by apply same_part|].
    + unfold ldd. destruct (db >=? 4); [split; [reflexivity|]; apply (bump_part _ (Z.land de 0xf)); (done || lia)|by apply same_part].
    + cbn [tok_uses]. cbv zeta. rewrite G1, G2, G3, G4, G5, G6, G7, <- A2, <- B2. cbn [Token_Match Token_LastLen Z.eqb Pos.eqb].
      split_and!; try lia; [apply (bump_counts (en_freq_ld e)); (done || lia)|apply (bump_counts (en_freq_dd e)); (done || lia)|]. intros H4'. unfold ldd.
      rewrite Z.geb_leb, (proj2 (Z.leb_le _ _)) by done. apply (bump_counts (en_freq_ldd e)); (done || lia).
  - split; cbn [op_step z_dist z_len set_last en_old_dist en_last_length]; [unfold insert_old_dist, push_dist; by rewrite <- S1|done].
Qed.

Lemma record_rep win i l z toks e :
  recording e toks -> shadows e z -> op_ok win z (OpRep i l) = true -> recorded (OpRep i l) z toks e.
Proof.
  intros HR [S1 S2] HO. pose proof HR as [HT L1 L2 L3 L4 F1 F2 F3 F4 HC].
  cbn [op_ok] in HO. rewrite !andb_true_iff, !Z.leb_le, !Z.ltb_lt in HO. destruct HO as ((((H1 & H2) & H3) & H4) & H5).
  destruct (op_tok_rep i l ltac:(lia)) as (ls & le & lb & EK & EL & A1 & A2 & A3 & A4 & A5).
  unfold recorded. cbn [record_op]. unfold add_rep. rewrite (wrap_small 32 l) by (unfold MAX_LZ_MATCH in H4; lia). rewrite EL, bind_ok. cbv zeta.
  eexists. split; [reflexivity|]. rewrite EK.
  change (set_len_extra (set_len_slot (set_type Token_init (Token_Rep0 + i)) (u8 ls)) le) with (rep_token_of (Token_Rep0 + i) ls le).
  pose proof (pow_le lb 15 ltac:(lia)) as P15.
  destruct (rep_token_fields (Token_Rep0 + i) ls le) as (G1 & G2 & G3 & G4); [unfold Token_Rep0; lia|lia|lia|].
  split; [|split; [|done]].
  - eapply (recording_push toks _ e); [done|held e|apply (bump_part _ (258 + i)); (done || lia)|by apply same_part|by apply same_part|apply (bump_part _ ls); (done || lia)|].
    cbn [tok_uses]. cbv zeta. rewrite G1, G2, G3, G4, <- A2. unfold Token_Rep0, Token_LastLen, Token_Match.
    rewrite !(proj2 (Z.eqb_neq (2 + i) _)) by lia. replace (258 + (2 + i - 2)) with (258 + i) by lia.
    split_and!; try lia; [apply (bump_counts (en_freq_ld e))|apply (bump_counts (en_freq_rd e))]; (done || lia).
  - split; cbn [op_step z_dist z_len set_last en_old_dist en_last_length]; [|done]. unfold move_front. by rewrite <- S1.
Qed.

Lemma record_op_spec win o z toks e :
  recording e toks -> shadows e z -> op_ok win z o = true -> recorded o z toks e.
Proof.
  intros HR HS HO. destruct o as [b|l d|i l|]; [|by apply (record_match win)|by apply (record_rep win)|by apply record_last].
  apply record_literal; [done|done|]. cbn [op_ok] in HO. rewrite andb_true_iff, Z.leb_le, Z.ltb_lt in HO. lia.
Qed.

Lemma record_ops_spec win ops z toks e :
  recording e toks -> shadows e z -> lz_ok z -> ops_ok win z ops = true ->
  exists e', record_ops ops e = Ok e' /\ recording e' (toks ++ map op_tok ops) /\ shadows e' (run_ops z ops) /\ same_output e e' /\ lz_ok (run_ops z ops).
Proof.
  revert z toks e. induction ops as [|o ops IH]; intros z toks e HR HS HZ HO; cbn [ops_ok record_ops map run_ops fold_left] in *.
  - exists e. rewrite app_nil_r. done.
  - apply andb_true_iff in HO as [HO1 HO2]. destruct (record_op_spec win o z toks e HR HS HO1) as (e1 & E1 & R1 & S1 & M1 & M2).
    destruct (op_step_ok win z o HZ HO1) as (HZ1 & _). rewrite E1, bind_ok.
    destruct (IH _ _ _ R1 S1 HZ1 HO2) as (e2 & E2 & R2 & S2 & [M3 M4] & HZ2). exists e2. rewrite <- app_assoc in R2.
    split; [done|]. split; [done|]. split; [done|]. split; [|done]. split; congruence.
Qed.

(** ** Reading fields back *)

(** The decoder in front of the bits [rest], at the absolute position [pos]. *)
Definition rs (rest : list bool) (pos : Z) (e : ApplyEngine History) (c : Core) (h : BlockHeader) : Run Bits History :=
  {| rn_reader := {| bt_bits := rest; bt_pos := pos; bt_trunc := false |}; rn_engine := e; rn_core := c; rn_header := h |}.

Section reading.
Implicit Types (e : ApplyEngine History) (c : Core) (h : BlockHeader).

Lemma consume_front x rest pos :
  bt_consume {| bt_bits := x ++ rest; bt_pos := pos; bt_trunc := false |} (zlen x) = {| bt_bits := rest; bt_pos := pos + zlen x; bt_trunc := false |}.
Proof. by apply bt_consume_app. Qed.

Lemma padded_field n v rest : 0 <= n -> 0 <= v < 2 ^ n -> padded n (field n v ++ rest) = v.
Proof. intros Hn Hv. rewrite padded_full by (by apply zlen_field). by apply field_val. Qed.

Lemma read_field n v rest pos e c h :
  0 <= n <= 32 -> 0 <= v < 2 ^ n -> take_bits n (rs (field n v ++ rest) pos e c h) = Ok (Some v, rs rest (pos + n) e c h).
Proof.
  intros Hn Hv. unfold take_bits, call, zoom, rs. cbn [rn_reader get_bits Bits_source bt_bits].
  rewrite Z.min_l, padded_field by lia. pose proof (consume_front (field n v) rest pos) as E. rewrite zlen_field in E by lia. by rewrite E.
Qed.

Lemma read_field64 n v rest pos e c h :
  0 <= n <= 64 -> 0 <= v < 2 ^ n -> take_bits64 n (rs (field n v ++ rest) pos e c h) = Ok (Some v, rs rest (pos + n) e c h).
Proof.
  intros Hn Hv. unfold take_bits64, call, zoom, rs. cbn [rn_reader get_bits64 Bits_source bt_bits].
  rewrite Z.min_l, padded_field by lia. pose proof (consume_front (field n v) rest pos) as E. rewrite zlen_field in E by lia. by rewrite E.
Qed.

Lemma read_symbol (code : Core -> HuffmanDecoder) lens s rest pos e c h :
  built lens (code c) -> coded lens s ->
  symbol code (rs (encoded lens s ++ rest) pos e c h) = Ok (Some s, rs rest (pos + zlen (encoded lens s)) e c h).
Proof.
  intros HB Hc. unfold symbol, call, zoom, rs. cbn [rn_reader rn_core].
  assert (EC : encoded lens s = code_bits lens s) by (apply encoded_code; [apply HB|apply HB|done]).
  rewrite (decode_code lens (code c) HB _ s rest Hc) by (by rewrite EC).
  rewrite EC, <- (zlen_code_bits lens s Hc), consume_front. done.
Qed.

Lemma read_need n x pos e c h : n <= zlen x -> need n (rs x pos e c h) = Ok (Some tt, rs x pos e c h).
Proof. intros Hn. unfold need, remaining. rewrite M_gets. cbn. by rewrite (proj2 (Z.ltb_ge _ _)) by lia. Qed.

Lemma read_remaining x pos e c h : remaining (rs x pos e c h) = Ok (Some (zlen x), rs x pos e c h).
Proof. done. Qed.

Lemma read_truncated x pos e c h : is_truncated (rs x pos e c h) = Ok (Some false, rs x pos e c h).
Proof. done. Qed.

Lemma read_pos x pos e c h : cur_bit (rs x pos e c h) = Ok (Some pos, rs x pos e c h).
Proof. done. Qed.

Lemma read_core x pos e c h : gets rn_core (rs x pos e c h) = Ok (Some c, rs x pos e c h).
Proof. done. Qed.

Lemma read_header x pos e c h : gets rn_header (rs x pos e c h) = Ok (Some h, rs x pos e c h).
Proof. done. Qed.

Lemma write_core f x pos e c h : modify (set_core f) (rs x pos e c h) = Ok (Some tt, rs x pos e (f c) h).
Proof. done. Qed.

Lemma length_slot_back slot extra bits rest pos e c h :
  0 <= slot < 44 -> bits = (if slot <? 8 then 0 else slot / 4 - 1) -> 0 <= extra < 2 ^ bits -> length_of_slot slot extra bits < 2 ^ 32 ->
  slot_to_length slot (rs (field bits extra ++ rest) pos e c h) = Ok (Some (length_of_slot slot extra bits), rs rest (pos + bits) e c h).
Proof.
  intros Hs Hb He Hr. unfold slot_to_length, length_of_slot in *. destruct (Z.ltb_spec slot 8).
  - subst bits. rewrite field_0, Z.add_0_r. done.
  - cbv zeta. assert (1 <= bits <= 9) by (subst bits; dlia). rewrite <- Hb, Z.gtb_ltb, (proj2 (Z.ltb_lt _ _)) by lia.
    rewrite (M_bind_some _ _ _ _ _ (read_field bits extra rest pos e c h ltac:(lia) He)).
    assert (0 <= Z.shiftl (Z.lor 4 (Z.land slot 3)) bits).
    { apply Z.shiftl_nonneg, Z.lor_nonneg. split; [lia|]. apply Z.land_nonneg. by right. }
    rewrite (wrap_small 32 (2 + _)) by lia. by rewrite wrap_small by lia.
Qed.

Lemma distance_back ldd slot extra bits rest pos e c h :
  built ldd (c_ldd c) -> 0 <= slot < 64 -> bits = (if slot <? 4 then 0 else slot / 2 - 1) -> 0 <= extra < 2 ^ bits ->
  (4 <= bits -> coded ldd (Z.land extra 0xf)) ->
  let x := if bits >=? 4 then field (bits - 4) (Z.shiftr extra 4) ++ encoded ldd (Z.land extra 0xf) else field bits extra in
  decode_match_distance slot (rs (x ++ rest) pos e c h) = Ok (Some (distance_of_slot slot extra bits), rs rest (pos + zlen x) e c h).
Proof.
  intros HB Hs Hb He Hl. cbv zeta. unfold decode_match_distance, distance_of_slot. destruct (Z.ltb_spec slot 4).
  { subst bits. change (0 >=? 4) with false. cbv iota. rewrite field_0. change (zlen []) with 0. by rewrite Z.add_0_r. }
  cbv zeta. assert (1 <= bits <= 30) by (subst bits; dlia). rewrite <- Hb.
  set (q := Z.lor 2 (Z.land slot 1)). assert (Hq : 2 <= q <= 3).
  { unfold q. change 1 with (Z.ones 1). rewrite Z.land_ones by lia. pose proof (Z.mod_pos_bound slot (2 ^ 1) ltac:(lia)) as M.
    assert (C : slot mod 2 ^ 1 = 0 \/ slot mod 2 ^ 1 = 1) by lia. by destruct C as [-> | ->]. }
  pose proof (pow_le bits 30 ltac:(lia)) as P. rewrite Z.shiftl_mul_pow2 by lia.
  rewrite (wrap_small 64 (1 + _)) by nia. rewrite Z.geb_leb, Z.gtb_ltb. destruct (Z.leb_spec 4 bits) as [H4|H4].
  - specialize (Hl H4). assert (E0 : Z.land extra 0xf = extra mod 2 ^ 4) by (change 0xf with (Z.ones 4); by rewrite Z.land_ones by lia).
    pose proof (Z.mod_pos_bound extra (2 ^ 4) ltac:(lia)) as Hm. rewrite <- E0 in Hm.
    assert (Hh : 0 <= Z.shiftr extra 4 < 2 ^ (bits - 4)).
    { rewrite Z.shiftr_div_pow2 by lia. split; [apply Z.div_pos; lia|]. apply Z.div_lt_upper_bound; [lia|].
      rewrite <- Z.pow_add_r by lia. replace (4 + (bits - 4)) with bits by lia. lia. }
    assert (Hsum : Z.shiftl (Z.shiftr extra 4) 4 + Z.land extra 0xf = extra).
    { rewrite E0, Z.shiftl_mul_pow2, Z.shiftr_div_pow2 by lia. pose proof (Z.div_mod extra (2 ^ 4) ltac:(lia)). lia. }
    assert (Hsl : 0 <= Z.shiftl (Z.shiftr extra 4) 4) by (apply Z.shiftl_nonneg; lia).
    assert (Len : 1 <= zlen (encoded ldd (Z.land extra 0xf))).
    { destruct Hl as [_ Hl]. unfold encoded. rewrite zlen_zbits. lia. }
    assert (HLow : forall y p, 0 <= y -> y + Z.land extra 0xf < 2 ^ 64 ->
       (left ← remaining; if left <? 1 then mret 0 else v ← symbol c_ldd; mret (u64 (y + v)))
         (rs (encoded ldd (Z.land extra 0xf) ++ rest) p e c h) =
       Ok (Some (y + Z.land extra 0xf), rs rest (p + zlen (encoded ldd (Z.land extra 0xf))) e c h)).
    { intros y p Hy1 Hy2. rewrite (M_bind_some _ _ _ _ _ (read_remaining _ _ _ _ _)). rewrite zlen_app. zlen_pose.
      rewrite (proj2 (Z.ltb_ge _ _)) by lia. rewrite (M_bind_some _ _ _ _ _ (read_symbol c_ldd ldd _ _ _ _ _ _ HB Hl)).
      by rewrite wrap_small by lia. }
    destruct (Z.ltb_spec 4 bits) as [H5|H5].
    + rewrite <- app_assoc, (M_bind_some _ _ _ _ _ (read_remaining _ _ _ _ _)). rewrite !zlen_app, zlen_field by lia. zlen_pose.
      rewrite (proj2 (Z.ltb_ge _ _)) by lia. rewrite Z.gtb_ltb, (proj2 (Z.ltb_ge 36 bits)) by lia.
      rewrite (M_bind_some _ _ _ _ _ (read_field (bits - 4) _ _ pos e c h ltac:(lia) Hh)).
      rewrite (wrap_small 64 (Z.shiftl _ 4)) by lia. rewrite (wrap_small 64 (_ + _)) by nia. rewrite HLow by nia.
      do 3 f_equal; lia.
    + replace (bits - 4) with 0 in * by lia. change (2 ^ 0) with 1 in Hh. rewrite field_0. cbn [app]. rewrite HLow by nia. do 3 f_equal.
      assert (Z.shiftr extra 4 = 0) by lia. replace (Z.shiftr extra 4) with 0 in Hsum by lia. rewrite Z.shiftl_0_l in Hsum. lia.
  - rewrite (M_bind_some _ _ _ _ _ (read_remaining _ _ _ _ _)). rewrite zlen_app, zlen_field by lia. zlen_pose.
    rewrite (proj2 (Z.ltb_ge _ _)) by lia. rewrite (M_bind_some _ _ _ _ _ (read_field bits extra rest pos e c h ltac:(lia) He)).
    rewrite wrap_small by nia. done.
Qed.
End reading.

(** ** Output without filters *)

Definition take_all : OutputCallback := Some (fun _ _ => true).

(** [made] has been decoded on top of [prior] in this call; what is flushed of it
    has been delivered after [sent]. *)
Record plain (size : Z) (prior sent made : list Z) (e : ApplyEngine History) : Prop := {
  pl_filters : ae_filters e = [];
  pl_head : ae_head e = O;
  pl_ready : h_ready (ae_win e) = true;
  pl_size : h_size (ae_win e) = size;
  pl_bytes : h_bytes (ae_win e) = prior ++ made;
  pl_flushed : 0 <= ae_flushed e <= zlen made;
  pl_window : zlen made - ae_flushed e <= size;
  pl_sent : concat (ae_sent e) = sent ++ take (Z.to_nat (ae_flushed e)) made
}.

Section output.
Context (size dest base : Z) (prior sent : list Z).
Hypothesis size_range : 65536 <= size < 2 ^ 62.
Hypothesis dest_range : dest < 2 ^ 62.

Lemma history_run e made :
  plain size prior sent made e -> ae_flushed e < zlen made -> zlen made < 2 ^ 62 ->
  dict_run (ae_win e) ((zlen made -s ae_flushed e) mod h_size (ae_win e)) (zlen made -s ae_flushed e) = Ok (drop (Z.to_nat (ae_flushed e)) made).
Proof.
  intros [P1 P2 P3 P4 P5 P6 P7 P8] Hlt Hm. rewrite size_sub_small by lia. rewrite P4. set (k := zlen made - ae_flushed e) in *.
  cbn [dict_run History_dictionary]. rewrite P3, P4, P5. cbn [andb].
  assert (Eb : (if k mod size =? 0 then size else k mod size) = k).
  { destruct (Z.eq_dec k size) as [->|]; [by rewrite Z.mod_same by lia|]. rewrite Z.mod_small by lia. by rewrite (proj2 (Z.eqb_neq _ _)) by lia. }
  rewrite Eb, !(proj2 (Z.leb_le _ _)) by lia. cbn [andb]. rewrite zlen_app. unfold slice.
  zlen_pose. rewrite zlen_app, !(proj2 (Z.leb_le _ _)) by lia. cbn [andb]. f_equal.
  replace (zlen prior + zlen made - k) with (zlen prior + ae_flushed e) by lia.
  rewrite Z2Nat.inj_add by lia. unfold zlen at 1. rewrite Nat2Z.id, <- drop_drop, drop_app_length.
  apply take_ge. rewrite length_drop. unfold zlen in *. lia.
Qed.

Lemma flush_plain e made flush_all :
  plain size prior sent made e -> zlen made <= dest ->
  exists e', flush_pending take_all flush_all base (zlen made) dest e = Ok (Some tt, e') /\ plain size prior sent made e' /\ ae_flushed e' = zlen made.
Proof.
  intros HP Hd. pose proof HP as [P1 P2 P3 P4 P5 P6 P7 P8]. unfold flush_pending. rewrite M_gets, P1, P2. cbn [drop].
  assert (E1 : flush_regions take_all flush_all base (zlen made) dest [] e = Ok (Some tt, e)) by done.
  rewrite (M_bind_some _ _ _ _ _ E1), M_modify, P1, drop_nil, M_gets.
  set (e1 := set_queue [] 0 e). assert (HP1 : plain size prior sent made e1) by (by split). 
  assert (El : safe_limit flush_all base (zlen made) [] = zlen made) by (by destruct flush_all).
  change (ae_filters e1) with (@nil FilterEntry). rewrite El.
  unfold flush_plain_up_to. rewrite M_gets, M_gets, !M_guard. change (ae_flushed e1) with (ae_flushed e). unfold win_size_of.
  change (dict_size (ae_win e1)) with (h_size (ae_win e)). rewrite Z.gtb_ltb, (proj2 (Z.ltb_ge _ _)) by lia. cbn [negb].
  rewrite size_sub_small, P4, Z.gtb_ltb, (proj2 (Z.ltb_ge _ _)) by lia. cbn [negb]. cbv zeta.
  rewrite !Z.gtb_ltb, !(proj2 (Z.ltb_ge dest (zlen made))), !Z.ltb_irrefl by lia.
  destruct (Z.eq_dec (ae_flushed e) (zlen made)) as [Ef|Ef].
  { exists e1. cbn [flush_loop]. rewrite M_gets. change (ae_flushed e1) with (ae_flushed e). rewrite Ef, Z.ltb_irrefl. done. }
  destruct (Z.to_nat (zlen made - ae_flushed e)) as [|k] eqn:Ek; [lia|]. set (fuel := S k).
  cbn [flush_loop]. rewrite M_gets. change (ae_flushed e1) with (ae_flushed e). rewrite (proj2 (Z.ltb_lt _ _)) by lia. rewrite M_gets. cbv zeta.
  unfold win_size_of. change (dict_size (ae_win e1)) with (h_size (ae_win e)).
  pose proof (history_run e made HP ltac:(lia) ltac:(lia)) as HR. set (new := drop (Z.to_nat (ae_flushed e)) made) in *.
  assert (Ln : zlen new = zlen made - ae_flushed e) by (unfold new; rewrite zlen_drop; lia).
  rewrite (M_bind_some _ _ e1 new e1) by (unfold read_window; change (ae_win e1) with (ae_win e); by rewrite HR).
  rewrite M_guard, (proj2 (Z.eqb_neq _ _)) by lia. cbn [negb].
  set (e2 := set_sent (ae_sent e1 ++ [new]) e1). rewrite (M_bind_some _ _ e1 tt e2) by done. rewrite M_modify.
  rewrite Ln, size_add_small by lia. replace (ae_flushed e + (zlen made - ae_flushed e)) with (zlen made) by lia.
  set (e3 := set_flushed (zlen made) e2). exists e3. split; [|split; [|done]].
  - cbn [fuel flush_loop]. unfold fuel. cbn [flush_loop]. rewrite M_gets. change (ae_flushed e3) with (zlen made). by rewrite Z.ltb_irrefl.
  - split; cbn [e3 e2 set_flushed set_sent ae_filters ae_head ae_win ae_flushed ae_sent]; try done; try lia.
    change (ae_sent e1) with (ae_sent e). rewrite concat_app, P8. cbn [concat]. rewrite app_nil_r, <- app_assoc. f_equal.
    unfold new. rewrite take_drop, take_ge; [done|]. unfold zlen. lia.
Qed.

Lemma cadence_plain made rest pos e c h :
  plain size prior sent made e -> zlen made <= dest ->
  exists e', cadence take_all dest base (zlen made) (rs rest pos e c h) = Ok (Some tt, rs rest pos e' c h) /\
    plain size prior sent made e' /\ zlen made - ae_flushed e' <= size / 2.
Proof.
  intros HP Hd. pose proof HP as [P1 P2 P3 P4 P5 P6 P7 P8]. unfold cadence. unfold engine. rewrite !M_gets. cbn [rs rn_engine].
  unfold has_completed_filter. rewrite P1, P2. cbn [lookup list_lookup negb]. rewrite andb_true_r.
  rewrite size_sub_small by (pose proof (zlen_nonneg made); lia).
  destruct (Z.ltb_spec (zlen made - ae_flushed e) (flush_cadence (ae_win e))) as [Hlt|Hge].
  - exists e. split; [done|]. split; [done|]. unfold flush_cadence in Hlt. change (dict_size (ae_win e)) with (h_size (ae_win e)) in Hlt. rewrite P4 in Hlt. lia.
  - destruct (flush_plain e made false HP Hd) as (e' & E & HP' & Ef). exists e'. split; [|split; [done|]]; [|rewrite Ef; dlia].
    unfold flush, zoom. change (rn_engine (rs rest pos e c h)) with e. by rewrite E.
Qed.
(** *** One token *)

(** The engine and the repeat state after the operations that lead to [z]. *)
Record follows (z : Lz) (made : list Z) (e : ApplyEngine History) (c : Core) : Prop := {
  fw_plain : plain size prior sent made e;
  fw_hist : z_hist z = prior ++ made;
  fw_pending : zlen made - ae_flushed e <= size / 2;
  fw_dist : c_old_dist c = z_dist z;
  fw_len : c_last_length c = z_len z
}.

(** The codes of the decoder are those of the encoder's tables. *)
Record codes_of (t : Tables) (c : Core) : Prop := {
  co_ld : built (tb_len_ld t) (c_ld c); co_dd : built (tb_len_dd t) (c_dd c);
  co_ldd : built (tb_len_ldd t) (c_ldd c); co_rd : built (tb_len_rd t) (c_rd c);
  co_extra : c_extra_dist c = false
}.

Lemma codes_of_reps t c l n : codes_of t c -> codes_of t (set_reps l n c).
Proof. intros []. by split. Qed.

Lemma plain_grow made new e :
  plain size prior sent made e -> zlen made - ae_flushed e <= size / 2 -> zlen new <= 4100 ->
  plain size prior sent (made ++ new) (set_win e (h_set (ae_win e) (h_bytes (ae_win e) ++ new))).
Proof.
  intros [P1 P2 P3 P4 P5 P6 P7 P8] Hp Hn. zlen_pose. split; cbn [set_win ae_filters ae_head ae_win ae_flushed ae_sent h_set h_ready h_size h_bytes]; try done.
  - by rewrite P5, app_assoc.
  - rewrite zlen_app. lia.
  - rewrite zlen_app. assert (size / 2 + 4100 <= size) by dlia. lia.
  - rewrite P8, take_app_le; [done|]. unfold zlen in P6. lia.
Qed.

Lemma literal_copied b z made rest pos e c h :
  follows z made e c -> 0 <= b < 256 ->
  exists e', window_op (fun w => dict_literal w b) (rs rest pos e c h) = Ok (Some tt, rs rest pos e' c h) /\ plain size prior sent (made ++ [b]) e'.
Proof.
  intros [HP _ Hpend _ _] Hb. eexists. split; [|by apply (plain_grow made [b])].
  unfold window_op, call, zoom, mbind, M_bind. cbn [rs rn_engine]. cbn [dict_literal History_dictionary].
  rewrite (pl_ready _ _ _ _ _ HP). cbn. by rewrite (wrap_small 8 b) by lia.
Qed.

Lemma copy_plain d len made new rest pos e c h :
  plain size prior sent made e -> zlen made - ae_flushed e <= size / 2 -> 1 <= d <= size -> 1 <= len <= 4100 -> zlen new = len ->
  lz_match d len (prior ++ made) = (prior ++ made) ++ new -> zlen made + len <= dest ->
  exists e', copy_token take_all dest base d len (zlen made) (rs rest pos e c h) = Ok (Some (zlen made + len), rs rest pos e' c h) /\
    plain size prior sent (made ++ new) e' /\ zlen (made ++ new) - ae_flushed e' <= size / 2.
Proof.
  intros HP Hpend Hd Hl Ln EN Hdest. zlen_pose. unfold copy_token. rewrite size_sub_small by lia. rewrite Z.gtb_ltb, (proj2 (Z.ltb_ge _ _)) by lia. cbv zeta.
  set (e1 := set_win e (h_set (ae_win e) (h_bytes (ae_win e) ++ new))).
  pose proof (plain_grow made new e HP Hpend ltac:(lia)) as HP1. fold e1 in HP1.
  rewrite (M_bind_some _ _ _ tt (rs rest pos e1 c h)).
  2: { unfold window_op, call, zoom, mbind, M_bind. cbn [rs rn_engine]. cbn [dict_match History_dictionary].
       rewrite (pl_ready _ _ _ _ _ HP), (pl_size _ _ _ _ _ HP), (pl_bytes _ _ _ _ _ HP), !(proj2 (Z.leb_le _ _)) by lia.
       cbn. rewrite EN. unfold e1. by rewrite (pl_bytes _ _ _ _ _ HP). }
  rewrite size_add_small by lia. assert (Em : zlen made + len = zlen (made ++ new)) by (rewrite zlen_app; lia). rewrite Em in Hdest |- *.
  destruct (cadence_plain (made ++ new) rest pos e1 c h HP1 Hdest) as (e' & E & HP' & Hp'). exists e'.
  rewrite (M_bind_some _ _ _ _ _ E). done.
Qed.

Lemma follows_grow z o made new e' c' :
  z_hist z = prior ++ made -> z_hist (op_step z o) = z_hist z ++ new ->
  plain size prior sent (made ++ new) e' -> zlen (made ++ new) - ae_flushed e' <= size / 2 ->
  c_old_dist c' = z_dist (op_step z o) -> c_last_length c' = z_len (op_step z o) -> follows (op_step z o) (made ++ new) e' c'.
Proof. intros Hh Hs HP Hp Hd Hl. split; try done. by rewrite Hs, Hh, app_assoc. Qed.

Lemma slot_symbol t s rest pos e c h {A} (f : Z -> M (Run Bits History) A) :
  codes_of t c -> coded (tb_len_ld t) s ->
  (slot ← symbol c_ld; tr ← is_truncated; _ ← guard (negb tr); f slot) (rs (encoded (tb_len_ld t) s ++ rest) pos e c h) =
  f s (rs rest (pos + zlen (encoded (tb_len_ld t) s)) e c h).
Proof.
  intros HC Hs. rewrite (M_bind_some _ _ _ _ _ (read_symbol c_ld _ _ _ _ _ _ _ (co_ld _ _ HC) Hs)). done.
Qed.

Lemma literal_back t b z made rest pos e c h budget :
  follows z made e c -> codes_of t c -> 0 <= b < 256 -> coded (tb_len_ld t) b -> zlen made < dest ->
  exists e' made', token take_all dest base (zlen made) budget (rs (encoded (tb_len_ld t) b ++ rest) pos e c h) =
    Ok (Some (zlen made', budget), rs rest (pos + zlen (encoded (tb_len_ld t) b)) e' c h) /\
    follows (op_step z (OpLit b)) made' e' c /\ zlen made' = zlen made + 1.
Proof.
  intros HF HC Hb Hc Hd. unfold token. rewrite (slot_symbol t) by done. rewrite (proj2 (Z.ltb_lt b 256)) by lia.
  destruct (literal_copied b z made rest (pos + zlen (encoded (tb_len_ld t) b)) e c h HF Hb) as (e1 & E1 & HP1).
  rewrite (M_bind_some _ _ _ _ _ E1). cbv zeta. zlen_pose. rewrite size_add_small by lia.
  assert (Em : zlen made + 1 = zlen (made ++ [b])) by (rewrite zlen_app; done). rewrite Em.
  destruct (cadence_plain (made ++ [b]) rest (pos + zlen (encoded (tb_len_ld t) b)) e1 c h HP1) as (e2 & E2 & HP2 & Hp2); [lia|].
  rewrite (M_bind_some _ _ _ _ _ E2). exists e2, (made ++ [b]). split; [done|]. split; [|done].
  destruct HF. by apply follows_grow.
Qed.

(** The copy at the end of a match token, whichever it is. *)
Lemma op_copied z o d len made rest pos e c h :
  lz_ok z -> op_ok size z o = true -> plain size prior sent made e -> z_hist z = prior ++ made -> zlen made - ae_flushed e <= size / 2 ->
  z_hist (op_step z o) = lz_match d len (z_hist z) -> op_span z o = len -> 1 <= d <= size -> zlen made + len <= dest ->
  c_old_dist c = z_dist (op_step z o) -> c_last_length c = z_len (op_step z o) ->
  exists e' made', copy_token take_all dest base d len (zlen made) (rs rest pos e c h) = Ok (Some (zlen made'), rs rest pos e' c h) /\
    follows (op_step z o) made' e' c /\ zlen made' = zlen made + op_span z o.
Proof.
  intros HZ HO HP Hh Hpend Hs Hspan Hd Hdest Hcd Hcl. destruct (op_step_ok size z o HZ HO) as (_ & Hr & new & E & Bn & Ln).
  rewrite Hs, Hh in E. rewrite Hspan in Hr, Ln |- *.
  destruct (copy_plain d len made new rest pos e c h HP Hpend Hd Hr Ln E Hdest) as (e' & E' & HP' & Hp').
  assert (Em : zlen made + len = zlen (made ++ new)) by (rewrite zlen_app; lia). rewrite Em in E'.
  exists e', (made ++ new). split; [done|]. split; [|done].
  apply follows_grow; try done. by rewrite Hs, Hh.
Qed.

Lemma last_back t z made rest pos e c h budget :
  follows z made e c -> codes_of t c -> lz_ok z -> op_ok size z OpLast = true -> coded (tb_len_ld t) 257 -> zlen made + op_span z OpLast <= dest ->
  exists e' made', token take_all dest base (zlen made) budget (rs (encoded (tb_len_ld t) 257 ++ rest) pos e c h) =
    Ok (Some (zlen made', budget), rs rest (pos + zlen (encoded (tb_len_ld t) 257)) e' c h) /\
    follows (op_step z OpLast) made' e' c /\ zlen made' = zlen made + op_span z OpLast.
Proof.
  intros HF HC HZ HO Hc Hd. unfold token. rewrite (slot_symbol t) by done. cbn [Z.ltb Z.eqb Z.compare Pos.compare Pos.compare_cont Pos.eqb].
  unfold repeat_token, engine. rewrite !M_bind_assoc, M_gets. rewrite M_bind_assoc, M_gets.
  pose proof HF as [HP Hh Hpend Hcd Hcl]. change (rn_core (rs rest _ e c h)) with c. rewrite Hcl, Hcd.
  cbn [op_ok] in HO. apply andb_true_iff in HO as HO2. destruct HO2 as [HO1 HO2]. rewrite HO1.
  change (win_size_of (rn_engine (rs rest _ e c h))) with (h_size (ae_win e)). rewrite (pl_size _ _ _ _ _ HP).
  rewrite M_bind_assoc, M_guard, HO2. pose proof (nthZ_dist_range z 0 HZ) as Hr. pose proof (lk_len _ HZ) as Hl.
  unfold good_dist in HO2. rewrite negb_true_iff, !orb_false_iff, !Z.eqb_neq, Z.gtb_ltb, Z.ltb_ge in HO2.
  rewrite (wrap_small 32 (z_len z)) by lia.
  destruct (op_copied z OpLast (nthZ (z_dist z) 0) (z_len z) made rest (pos + zlen (encoded (tb_len_ld t) 257)) e c h) as (e' & made' & E & HF' & Hm); try done; [lia|].
  exists e', made'. rewrite (M_bind_some _ _ _ _ _ E). done.
Qed.

Lemma match_back t l d z made rest pos e c h budget :
  follows z made e c -> codes_of t c -> lz_ok z -> op_ok size z (OpMat l d) = true -> usable t (op_tok (OpMat l d)) ->
  zlen made + op_span z (OpMat l d) <= dest ->
  let x := tok_bits t (op_tok (OpMat l d)) in
  exists e' c' made', token take_all dest base (zlen made) budget (rs (x ++ rest) pos e c h) =
    Ok (Some (zlen made', budget), rs rest (pos + zlen x) e' c' h) /\
    follows (op_step z (OpMat l d)) made' e' c' /\ zlen made' = zlen made + op_span z (OpMat l d) /\ exists q n, c' = set_reps q n c.
Proof.
  intros HF HC HZ HO HU Hd. pose proof HF as [HP Hh Hpend Hcd Hcl].
  pose proof HO as HO'. cbn [op_ok] in HO'. rewrite !andb_true_iff, !Z.leb_le, !Z.ltb_lt in HO'. destruct HO' as (((H1 & H2) & H3) & H4).
  destruct (op_tok_match l d ltac:(lia) H3) as (ls & le & lb & ds & de & db & EK & EL & ED & (A1 & A2 & A3 & A4 & A5) & (B1 & B2 & B3 & B4 & B5)).
  rewrite EK in HU |- *. cbv zeta. unfold usable in HU. cbn [tok_bits tok_uses] in *. unfold match_bits. cbv zeta in HU. pose proof (pow_le lb 15 ltac:(lia)) as P15.
  destruct (match_token_fields Token_Match ls le ds de) as (G1 & G2 & G3 & G4 & G5 & G6 & G7); [unfold Token_Match; lia|lia|lia|lia|].
  rewrite G1, G2, G3, G4, G5, G6, G7, <- A2, <- B2 in *. cbn [Token_Match Token_LastLen Z.eqb Pos.eqb] in *.
  destruct HU as (_ & _ & _ & U1 & U2 & _ & _ & U3). unfold distance_bits.
  set (x4 := if db >=? 4 then _ else _).
  unfold token. rewrite <- !app_assoc. rewrite (slot_symbol t) by done.
  set (x1 := encoded (tb_len_ld t) (262 + ls)). set (x2 := field lb le). set (x3 := encoded (tb_len_dd t) ds).
  rewrite (proj2 (Z.ltb_ge _ _)), !(proj2 (Z.eqb_neq _ _)), Z.geb_leb, (proj2 (Z.leb_le _ _)) by lia.
  unfold match_token, engine. rewrite M_bind_assoc. replace (262 + ls - 262) with ls by lia.
  pose proof (length_increment_range d) as Hinc.
  rewrite (M_bind_some _ _ _ _ _ (length_slot_back ls le lb _ _ e c h A1 A2 A4 ltac:(rewrite A5; unfold MAX_LZ_MATCH; lia))).
  assert (L3 : 1 <= zlen x3) by (destruct U2; unfold x3, encoded; rewrite zlen_zbits; lia).
  rewrite M_bind_assoc, (M_bind_some _ _ _ _ _ (read_need 1 (x3 ++ x4 ++ rest) _ e c h ltac:(rewrite zlen_app; zlen_pose; lia))).
  rewrite M_bind_assoc, (M_bind_some _ _ _ _ _ (read_symbol c_dd _ _ _ _ e c h (co_dd _ _ HC) U2)).
  rewrite M_bind_assoc, M_gets, M_bind_assoc. change (rn_core (rs (x4 ++ rest) _ e c h)) with c.
  rewrite (co_extra _ _ HC), M_guard, Z.geb_leb, (proj2 (Z.leb_gt _ _)) by lia. cbn [negb].
  rewrite M_bind_assoc, (M_bind_some _ _ _ _ _ (distance_back (tb_len_ldd t) ds de db rest _ e c h (co_ldd _ _ HC) B1 B2 B4 U3)). rewrite B5.
  rewrite M_bind_assoc, M_gets. change (win_size_of (rn_engine (rs rest _ e c h))) with (h_size (ae_win e)). rewrite (pl_size _ _ _ _ _ HP).
  rewrite M_bind_assoc, M_guard, (proj2 (Z.eqb_neq d 0)), Z.gtb_ltb, (proj2 (Z.ltb_ge size d)) by lia. cbn [orb negb].
  rewrite M_bind_assoc, (M_bind_some _ _ _ _ _ (read_truncated _ _ e c h)). rewrite M_bind_assoc, M_guard. cbn [negb]. cbv zeta.
  rewrite A5. set (len := if d >? 256 then _ else _).
  assert (El : len = op_span z (OpMat l d)).
  { unfold len. cbn [op_span]. unfold match_span, length_increment. repeat case_match; lia. }
  unfold core. rewrite M_bind_assoc, (M_bind_some _ _ _ _ _ (write_core _ _ _ e c h)). rewrite Hcd. set (c1 := set_reps _ len c).
  set (p := pos + _ + _ + _ + _).
  destruct (op_copied z (OpMat l d) d len made rest p e c1 h) as (e' & made' & E & HF' & Hm); try done; try lia.
  { rewrite El. done. }
  exists e', c1, made'. rewrite (M_bind_some _ _ _ _ _ E). split; [|split; [done|split; [done|by eexists _, _]]].
  unfold mret, M_ret. do 3 f_equal. unfold p. rewrite !zlen_app. assert (zlen x2 = lb) by (apply zlen_field; lia). unfold x3, x4. lia.
Qed.

Lemma rep_back t i l z made rest pos e c h budget :
  follows z made e c -> codes_of t c -> lz_ok z -> op_ok size z (OpRep i l) = true -> usable t (op_tok (OpRep i l)) ->
  zlen made + op_span z (OpRep i l) <= dest ->
  let x := tok_bits t (op_tok (OpRep i l)) in
  exists e' c' made', token take_all dest base (zlen made) budget (rs (x ++ rest) pos e c h) =
    Ok (Some (zlen made', budget), rs rest (pos + zlen x) e' c' h) /\
    follows (op_step z (OpRep i l)) made' e' c' /\ zlen made' = zlen made + op_span z (OpRep i l) /\ exists q n, c' = set_reps q n c.
Proof.
  intros HF HC HZ HO HU Hd. pose proof HF as [HP Hh Hpend Hcd Hcl].
  pose proof HO as HO'. cbn [op_ok] in HO'. rewrite !andb_true_iff, !Z.leb_le, !Z.ltb_lt in HO'. destruct HO' as ((((H1 & H2) & H3) & H4) & H5).
  destruct (op_tok_rep i l ltac:(lia)) as (ls & le & lb & EK & EL & A1 & A2 & A3 & A4 & A5).
  rewrite EK in HU |- *. cbv zeta. unfold usable in HU. cbn [tok_bits tok_uses] in *. unfold match_bits. cbv zeta in HU. pose proof (pow_le lb 15 ltac:(lia)) as P15.
  destruct (rep_token_fields (Token_Rep0 + i) ls le) as (G1 & G2 & G3 & G4); [unfold Token_Rep0; lia|lia|lia|].
  rewrite G1, G2, G3, G4, <- A2 in *. unfold Token_Rep0, Token_LastLen, Token_Match in *.
  rewrite !(proj2 (Z.eqb_neq (2 + i) _)) in * by lia. replace (258 + (2 + i - 2)) with (258 + i) in * by lia.
  destruct HU as (_ & _ & _ & _ & U1 & U2). unfold token. rewrite <- !app_assoc. rewrite (slot_symbol t) by done.
  set (x1 := encoded (tb_len_ld t) (258 + i)). set (x2 := encoded (tb_len_rd t) ls). set (x3 := field lb le).
  rewrite (proj2 (Z.ltb_ge _ _)), !(proj2 (Z.eqb_neq _ _)), Z.geb_leb, (proj2 (Z.leb_gt _ _)) by lia.
  unfold rep_token, engine. replace (258 + i - 258) with i by lia. cbv zeta. rewrite M_bind_assoc, M_gets, M_bind_assoc, M_gets.
  set (p1 := pos + zlen x1). change (rn_core (rs (x2 ++ x3 ++ rest) p1 e c h)) with c.
  change (win_size_of (rn_engine (rs (x2 ++ x3 ++ rest) p1 e c h))) with (h_size (ae_win e)). rewrite (pl_size _ _ _ _ _ HP), Hcd.
  rewrite M_bind_assoc, M_guard, H5. unfold core. rewrite M_bind_assoc, (M_bind_some _ _ _ _ _ (write_core _ _ _ e c h)). rewrite Hcd. set (c1 := set_reps _ _ c).
  assert (L2 : 1 <= zlen x2) by (destruct U2; unfold x2, encoded; rewrite zlen_zbits; lia).
  rewrite M_bind_assoc, (M_bind_some _ _ _ _ _ (read_need 1 (x2 ++ x3 ++ rest) _ e c1 h ltac:(rewrite zlen_app; zlen_pose; lia))).
  rewrite M_bind_assoc, (M_bind_some _ _ _ _ _ (read_symbol c_rd _ _ _ _ e c1 h (co_rd _ _ HC) U2)).
  rewrite M_bind_assoc, (M_bind_some _ _ _ _ _ (length_slot_back ls le lb _ _ e c1 h A1 A2 A4 ltac:(rewrite A5; unfold MAX_LZ_MATCH in *; lia))).
  rewrite M_bind_assoc, (M_bind_some _ _ _ _ _ (read_truncated _ _ e c1 h)). rewrite M_bind_assoc, M_guard. cbn [negb].
  rewrite A5, M_bind_assoc, (M_bind_some _ _ _ _ _ (write_core _ _ _ e c1 h)). set (c2 := set_reps _ _ c1).
  set (p := p1 + _ + _). pose proof (nthZ_dist_range z i HZ) as Hr.
  unfold good_dist in H5. rewrite negb_true_iff, !orb_false_iff, !Z.eqb_neq, Z.gtb_ltb, Z.ltb_ge in H5.
  destruct (op_copied z (OpRep i l) (nthZ (z_dist z) i) l made rest p e c2 h) as (e' & made' & E & HF' & Hm); try done; [lia|].
  exists e', c2, made'. rewrite (M_bind_some _ _ _ _ _ E). split; [|split; [done|split; [done|by eexists _, _]]].
  unfold mret, M_ret. do 3 f_equal. unfold p, p1. rewrite !zlen_app. assert (zlen x3 = lb) by (apply zlen_field; lia). unfold x2. lia.
Qed.

(** A token is read back whole, and does what the operation does. *)
Lemma token_back t o z made rest pos e c h budget :
  follows z made e c -> codes_of t c -> lz_ok z -> op_ok size z o = true -> usable t (op_tok o) -> zlen made + op_span z o <= dest ->
  let x := tok_bits t (op_tok o) in
  exists e' c' made', token take_all dest base (zlen made) budget (rs (x ++ rest) pos e c h) =
    Ok (Some (zlen made', budget), rs rest (pos + zlen x) e' c' h) /\
    follows (op_step z o) made' e' c' /\ zlen made' = zlen made + op_span z o /\ exists q n, c' = set_reps q n c.
Proof.
  intros HF HC HZ HO HU Hd. assert (HS : exists q n, c = set_reps q n c) by (exists (c_old_dist c), (c_last_length c); by destruct c).
  destruct o as [b|l d|i l|]; [|by apply match_back|by apply rep_back|].
  - destruct HU as [Hb Hc]. cbn [op_span] in Hd. destruct (literal_back t b z made rest pos e c h budget HF HC Hb Hc ltac:(lia)) as (e' & made' & E & F & L).
    by exists e', c, made'.
  - destruct (last_back t z made rest pos e c h budget HF HC HZ HO HU Hd) as (e' & made' & E & F & L). by exists e', c, made'.
Qed.
End output.
