(* ===== verification/TableRoundtrip.v ===== *)
(** The decoder reads back the code tables of the encoder.

    [describes] and [bitlens] say what a table description stands for; the
    encoder writes such descriptions ([emit_table_writes]) and the decoder,
    reading one, ends with the lengths described and the codes built from them
    ([read_tables_back]). *)

From Stdlib Require Import ZArith Lia.
From stdpp Require Import base tactics list numbers.
From S2P Require Import Prelude Loops Bytes Arrays BitReader Huffman BuildLengths BitOutput Encoder LzWindow StateFail ApplyEngine Decoder DecoderSafety TokenRoundtrip.

Local Open Scope Z_scope.

(** ** The lengths of the table code *)

Inductive bitlens : list Z -> list bool -> Prop :=
  | bitlens_nil : bitlens [] []
  | bitlens_one l m x : 0 <= l < 15 -> bitlens m x -> bitlens (l :: m) (field 4 l ++ x)
  | bitlens_15 m x : bitlens m x -> bitlens (15 :: m) (field 4 15 ++ field 4 0 ++ x)
  | bitlens_run n m x : 3 <= n <= 17 -> bitlens m x -> bitlens (replicate (Z.to_nat n) 0 ++ m) (field 4 15 ++ field 4 (n - 2) ++ x).

Lemma zero_run_spec k l : 0 <= zero_run k l <= Z.of_nat k /\ l = replicate (Z.to_nat (zero_run k l)) 0 ++ drop (Z.to_nat (zero_run k l)) l.
Proof.
  revert l. induction k as [|k IH]; intros [|x l]; cbn [zero_run]; try (split; [lia|done]).
  destruct (Z.eqb_spec x 0) as [->|]; [|split; [lia|done]]. destruct (IH l) as [I1 I2]. split; [lia|].
  replace (Z.to_nat (1 + zero_run k l)) with (S (Z.to_nat (zero_run k l))) by lia. cbn [replicate drop app]. by rewrite <- I2.
Qed.

Definition short_lens (l : list Z) : Prop := Forall (fun x => 0 <= x <= 15) l.

Lemma emit_bitlens_spec fuel lens o :
  zlen lens < Z.of_nat fuel -> short_lens lens ->
  exists o' x, emit_bitlens fuel lens o = Ok o' /\ writes o o' x /\ bitlens lens x.
Proof.
  revert lens o. induction fuel as [|fuel IH]; intros lens o Hf HF; [zlen_lia|]. cbn [emit_bitlens].
  destruct lens as [|l lens']; [exists o, []; split_and!; [done|apply writes_nil|constructor]|].
  apply Forall_cons_inv in HF as [Hl HF']. rewrite zlen_cons in Hf.
  destruct (Z.eqb_spec l 15) as [->|H15].
  { destruct (IH lens' (put_bits (put_bits o 15 4) 0 4) ltac:(lia) HF') as (o' & x & E & W & B). exists o', (field 4 15 ++ field 4 0 ++ x).
    split; [done|]. split; [|by constructor]. eapply writes_trans; [|eapply writes_trans; [|exact W]]; by apply put_bits_writes. }
  destruct (Z.eqb_spec l 0) as [->|H0].
  - destruct (zero_run_spec 17 (0 :: lens')) as [Hr Er]. set (r := zero_run 17 (0 :: lens')) in *. rewrite Z.geb_leb. destruct (Z.leb_spec 3 r).
    + assert (HD : short_lens (drop (Z.to_nat r) (0 :: lens'))) by (apply Forall_drop, Forall_cons_2; [lia|done]).
      destruct (IH (drop (Z.to_nat r) (0 :: lens')) (put_bits (put_bits o 15 4) (r - 2) 4)) as (o' & x & E & W & B); [|done|].
      { unfold zlen in *. rewrite length_drop. cbn [length]. lia. }
      exists o', (field 4 15 ++ field 4 (r - 2) ++ x). split; [done|]. split.
      * eapply writes_trans; [|eapply writes_trans; [|exact W]]; apply put_bits_writes; lia.
      * rewrite Er. apply bitlens_run; [lia|done].
    + destruct (IH lens' (put_bits o 0 4) ltac:(lia) HF') as (o' & x & E & W & B). exists o', (field 4 0 ++ x).
      split; [done|]. split; [|by constructor]. eapply writes_trans; [by apply put_bits_writes|done].
  - destruct (IH lens' (put_bits o l 4) ltac:(lia) HF') as (o' & x & E & W & B). exists o', (field 4 l ++ x).
    split; [done|]. split; [|by constructor; [lia|]]. eapply writes_trans; [apply put_bits_writes; lia|done].
Qed.

Lemma read_bitlen_back m x done fuel rest pos e c h :
  bitlens m x -> zlen done + zlen m = 20 -> zlen m < Z.of_nat fuel ->
  read_bitlen fuel done (rs (x ++ rest) pos e c h) = Ok (Some (done ++ m), rs rest (pos + zlen x) e c h).
Proof.
  intros HB. revert done fuel pos. induction HB as [|l m x Hl HB IH|m x HB IH|n m x Hn HB IH]; intros done fuel pos Hd Hf;
    (destruct fuel as [|fuel]; [zlen_lia|]); cbn [read_bitlen].
  - rewrite zlen_nil in Hd. rewrite (proj2 (Z.ltb_ge _ _)) by lia. rewrite app_nil_r. unfold zlen at 1. cbn. by rewrite Z.add_0_r.
  - rewrite zlen_cons in Hd, Hf. zlen_pose. rewrite (proj2 (Z.ltb_lt _ _)) by lia. rewrite <- app_assoc.
    rewrite (M_bind_some _ _ _ _ _ (read_need 4 (field 4 l ++ x ++ rest) _ e c h ltac:(rewrite zlen_app, zlen_field by lia; zlen_pose; lia))).
    rewrite (M_bind_some _ _ _ _ _ (read_field 4 l (x ++ rest) pos e c h ltac:(lia) ltac:(lia))). rewrite (proj2 (Z.eqb_neq l 15)) by lia.
    rewrite IH by (rewrite ?zlen_app; zlen_lia). rewrite <- app_assoc, zlen_app, zlen_field by lia. do 3 f_equal. lia.
  - rewrite zlen_cons in Hd, Hf. zlen_pose. rewrite (proj2 (Z.ltb_lt _ _)) by lia. rewrite <- !app_assoc.
    rewrite (M_bind_some _ _ _ _ _ (read_need 4 (field 4 15 ++ field 4 0 ++ x ++ rest) _ e c h ltac:(rewrite zlen_app, zlen_field by lia; zlen_pose; lia))).
    rewrite (M_bind_some _ _ _ _ _ (read_field 4 15 (field 4 0 ++ x ++ rest) pos e c h ltac:(lia) ltac:(lia))). cbn [Z.eqb Pos.eqb].
    rewrite (M_bind_some _ _ _ _ _ (read_need 4 (field 4 0 ++ x ++ rest) _ e c h ltac:(rewrite zlen_app, zlen_field by lia; zlen_pose; lia))).
    rewrite (M_bind_some _ _ _ _ _ (read_field 4 0 (x ++ rest) (pos + 4) e c h ltac:(lia) ltac:(lia))). cbn [Z.eqb].
    rewrite IH by (rewrite ?zlen_app; zlen_lia). rewrite <- app_assoc, !zlen_app, !zlen_field by lia. do 3 f_equal. lia.
  - rewrite zlen_app, zlen_replicate in Hd, Hf. zlen_pose. rewrite (proj2 (Z.ltb_lt _ _)) by lia. rewrite <- !app_assoc.
    rewrite (M_bind_some _ _ _ _ _ (read_need 4 (field 4 15 ++ field 4 (n - 2) ++ x ++ rest) _ e c h ltac:(rewrite zlen_app, zlen_field by lia; zlen_pose; lia))).
    rewrite (M_bind_some _ _ _ _ _ (read_field 4 15 (field 4 (n - 2) ++ x ++ rest) pos e c h ltac:(lia) ltac:(lia))). cbn [Z.eqb Pos.eqb].
    rewrite (M_bind_some _ _ _ _ _ (read_need 4 (field 4 (n - 2) ++ x ++ rest) _ e c h ltac:(rewrite zlen_app, zlen_field by lia; zlen_pose; lia))).
    rewrite (M_bind_some _ _ _ _ _ (read_field 4 (n - 2) (x ++ rest) (pos + 4) e c h ltac:(lia) ltac:(lia))).
    rewrite (proj2 (Z.eqb_neq _ 0)) by lia. replace (Z.min (n - 2 + 2) (20 - zlen done)) with n by lia.
    rewrite IH by (rewrite ?zlen_app, ?zlen_replicate; lia). rewrite <- app_assoc, !zlen_app, !zlen_field by lia. do 3 f_equal. lia.
Qed.

(** ** The items *)

(** The item of a run: short or long. *)
Definition run_item (sym n : Z) : TableItem :=
  if n >=? 11 then {| ti_sym := sym + 1; ti_extra := u8 (n - 11); ti_bits := 7 |}
  else {| ti_sym := sym; ti_extra := u8 (n - 3); ti_bits := 3 |}.

(** After the entry [p], the items stand for the entries. *)
Inductive describes : option Z -> list TableItem -> list Z -> Prop :=
  | describes_nil p : describes p [] []
  | describes_plain p v its m : 0 <= v <= 15 -> describes (Some v) its m -> describes p (plain_item v :: its) (v :: m)
  | describes_zeros p n its m : 3 <= n <= 138 -> describes (Some 0) its m ->
      describes p (run_item 18 n :: its) (replicate (Z.to_nat n) 0 ++ m)
  | describes_repeat v n its m : 0 <= v <= 15 -> 3 <= n <= 138 -> describes (Some v) its m ->
      describes (Some v) (run_item 16 n :: its) (replicate (Z.to_nat n) v ++ m).

Lemma run_of_spec v l : 0 <= run_of v l <= zlen l /\ forall n, 0 <= n <= run_of v l -> l = replicate (Z.to_nat n) v ++ drop (Z.to_nat n) l.
Proof.
  induction l as [|x l IH]; cbn [run_of].
  - split; [done|]. intros n Hn. change (zlen (@nil Z)) with 0 in *. replace n with 0 by lia. done.
  - destruct IH as [I1 I2]. rewrite zlen_cons. destruct (Z.eqb_spec x v) as [->|Hne].
    + split; [lia|]. intros n Hn. destruct (Z.eq_dec n 0) as [->|Hn0]; [done|]. replace (Z.to_nat n) with (S (Z.to_nat (n - 1))) by lia.
      cbn [replicate drop app]. f_equal. apply I2. lia.
    + split; [lia|]. intros n Hn. replace n with 0 by lia. done.
Qed.

Lemma make_table_items_spec fuel prev bits :
  zlen bits < Z.of_nat fuel -> short_lens bits ->
  exists items, make_table_items fuel prev bits = Ok items /\ describes prev items bits.
Proof.
  revert prev bits. induction fuel as [|fuel IH]; intros prev bits Hf HF; [zlen_lia|]. cbn [make_table_items].
  destruct bits as [|v bits']; [exists []; split; [done|constructor]|].
  destruct (run_of_spec v (v :: bits')) as [Rr Rs]. set (r := run_of v (v :: bits')) in *. cbv zeta.
  set (chunk := if r >=? 11 then Z.min r 138 else r). set (repeat := if v =? 0 then _ else _).
  pose proof HF as [Hv HF']%Forall_cons_inv. rewrite zlen_cons in Hf.
  destruct repeat eqn:Er.
  - assert (Hr : 3 <= r) by (unfold repeat in Er; destruct (v =? 0); [|destruct prev as [p|]; [|done]; apply andb_true_iff in Er as [_ Er]]; rewrite Z.geb_leb, Z.leb_le in Er; done).
    assert (Hc : 3 <= chunk <= 138 /\ chunk <= r) by (unfold chunk; rewrite Z.geb_leb; destruct (Z.leb_spec 11 r); lia).
    specialize (Rs chunk ltac:(lia)).
    destruct (IH (Some v) (drop (Z.to_nat chunk) (v :: bits'))) as (items & E & HD); [|by apply Forall_drop|].
    { unfold zlen in *. rewrite length_drop. cbn [length]. lia. }
    rewrite E, bind_ok. eexists. split; [reflexivity|]. rewrite Rs. unfold repeat in Er. destruct (Z.eqb_spec v 0) as [->|Hv0].
    + apply (describes_zeros prev chunk); [lia|done].
    + destruct prev as [p|]; [|done]. apply andb_true_iff in Er as [->%Z.eqb_eq _]. apply (describes_repeat v chunk); [lia|lia|done].
  - destruct (IH (Some v) bits' ltac:(lia) HF') as (items & E & HD). rewrite E, bind_ok. eexists. split; [reflexivity|]. by constructor.
Qed.

Record item_fits (it : TableItem) : Prop := {
  if_sym : 0 <= ti_sym it < 20; if_bits : 0 <= ti_bits it <= 7; if_extra : 0 <= ti_extra it < 2 ^ ti_bits it
}.

Lemma run_item_fits sym n : (sym = 16 \/ sym = 18) -> 3 <= n <= 138 -> item_fits (run_item sym n).
Proof.
  intros Hs Hn. unfold run_item. rewrite Z.geb_leb. destruct (Z.leb_spec 11 n); split; cbn [ti_sym ti_bits ti_extra]; try lia;
    rewrite (wrap_small 8) by lia; lia.
Qed.

Lemma describes_fits p its m : describes p its m -> Forall item_fits its /\ zlen its <= zlen m.
Proof.
  intros HD. induction HD as [p|p v its m Hv HD [I1 I2]|p n its m Hn HD [I1 I2]|v n its m Hv Hn HD [I1 I2]].
  - split; [apply Forall_nil_2|done].
  - split; [|rewrite !zlen_cons; lia]. apply Forall_cons_2; [|done]. split; cbn [plain_item ti_sym ti_bits ti_extra]; lia.
  - split; [|rewrite zlen_cons, zlen_app, zlen_replicate; lia]. apply Forall_cons_2; [|done]. apply run_item_fits; [by right|done].
  - split; [|rewrite zlen_cons, zlen_app, zlen_replicate; lia]. apply Forall_cons_2; [|done]. apply run_item_fits; [by left|done].
Qed.

Lemma item_freqs_spec items freq k :
  Forall item_fits items -> zlen freq = 20 -> (forall s, 0 <= s < 20 -> 0 <= nthZ freq s <= k) -> k + zlen items < 2 ^ 32 ->
  let freq' := fold_left (fun freq it => setZ freq (ti_sym it) (u32 (nthZ freq (ti_sym it) + 1))) items freq in
  zlen freq' = 20 /\ (forall s, 0 <= s < 20 -> nthZ freq s <= nthZ freq' s) /\ Forall (fun it => 0 < nthZ freq' (ti_sym it)) items.
Proof.
  intros HF. revert freq k. induction HF as [|it items [H1 H2 H3] HF IH]; intros freq k L R B; cbn [fold_left]; [split_and!; [done|lia|apply Forall_nil_2]|].
  cbv zeta. rewrite zlen_cons in B. zlen_pose. pose proof (R _ H1) as R1. rewrite (wrap_small 32) by lia. set (freq1 := setZ freq (ti_sym it) _).
  destruct (IH freq1 (k + 1)) as (I1 & I2 & I3); [by unfold freq1; rewrite zlen_setZ| |lia|].
  { intros s Hs. unfold freq1. rewrite nthZ_setZ by lia. pose proof (R s Hs). destruct (s =? ti_sym it); lia. }
  split; [done|]. split.
  - intros s Hs. etrans; [|by apply I2]. unfold freq1. rewrite nthZ_setZ by lia. destruct (Z.eqb_spec s (ti_sym it)) as [->|]; lia.
  - apply Forall_cons_2; [|done]. eapply Z.lt_le_trans; [|by apply I2]. unfold freq1. rewrite nthZ_setZ_eq by lia. lia.
Qed.

(** The code of the items uses every symbol that occurs. *)
Lemma item_code items :
  Forall item_fits items -> zlen items < 2 ^ 32 ->
  exists lens, build_lengths (item_freqs items) 15 = Ok lens /\ code_good lens /\ zlen lens = 20 /\ Forall (fun it => coded lens (ti_sym it)) items.
Proof.
  intros HF HL. destruct (item_freqs_spec items (replicate 20 0) 0 HF) as (I1 & I2 & I3); [done| |lia|].
  { intros s Hs. rewrite nthZ_replicate by lia. lia. }
  unfold item_freqs. set (freq := fold_left _ items _) in *.
  destruct (build_lengths_good freq 15 ltac:(lia) ltac:(lia)) as (lens & E & G). exists lens. split; [done|].
  destruct (good_lengths_good freq lens G) as [C U]; [unfold MAX_SYMBOLS; lia|]. split; [done|]. split; [rewrite (gl_len _ _ _ G); lia|].
  rewrite I1 in U. eapply List.Forall_impl; [|apply List.Forall_and; [exact I3|exact HF]]. cbn beta. intros it [Hc [Hs _ _]]. apply U. split; [done|lia].
Qed.

Definition item_bits (lens : list Z) (it : TableItem) : list bool := encoded lens (ti_sym it) ++ field (ti_bits it) (ti_extra it).

Lemma emit_items_writes lens items o :
  code_good lens -> Forall item_fits items -> Forall (fun it => coded lens (ti_sym it)) items ->
  writes o (fold_left (emit_item (build_codes lens) lens) items o) (concat (map (item_bits lens) items)).
Proof.
  intros HG HF HC. revert o. induction items as [|it items IH]; intros o; cbn [fold_left map concat]; [apply writes_nil|].
  apply Forall_cons_inv in HF as [[H1 H2 H3] HF]. apply Forall_cons_inv in HC as [Hc HC].
  eapply writes_trans; [|by apply IH]. unfold emit_item, item_bits. eapply writes_trans; [by apply put_code_writes|].
  pose proof (pow_le (ti_bits it) 7 ltac:(lia)). apply put_bits_writes; lia.
Qed.

(** What stands for a table: the lengths of the item code, then the items. *)
Record table_text (bits : list Z) (text : list bool) : Prop := {
  tx_text : exists lens x items, text = x ++ concat (map (item_bits lens) items) /\ code_good lens /\ zlen lens = 20 /\ bitlens lens x /\
    describes None items bits /\ Forall (fun it => coded lens (ti_sym it)) items
}.

Lemma emit_table_writes bits o :
  short_lens bits -> zlen bits < 2 ^ 31 ->
  exists o' text, emit_table bits o = Ok o' /\ writes o o' text /\ table_text bits text.
Proof.
  intros HS HL. unfold emit_table. destruct (make_table_items_spec (S (length bits)) None bits) as (items & E1 & HD); [unfold zlen; lia|done|].
  destruct (describes_fits _ _ _ HD) as [HF Hn]. destruct (item_code items HF ltac:(lia)) as (lens & E2 & HG & Hl & HC).
  rewrite E1, bind_ok, E2, bind_ok. destruct (emit_bitlens_spec 21 lens o) as (o' & x & E3 & W & HB); [lia| |].
  { apply (cg_ok _ HG). }
  rewrite E3, bind_ok. eexists _, _. split; [reflexivity|]. split.
  - eapply writes_trans; [exact W|]. by apply emit_items_writes.
  - split. by exists lens, x, items.
Qed.

(** ** Reading them back *)

Lemma fill_table_spec n table pos v :
  0 <= pos -> pos + Z.of_nat n <= zlen table ->
  fill_table n table pos v = take (Z.to_nat pos) table ++ replicate n v ++ drop (Z.to_nat pos + n) table.
Proof.
  revert table pos. induction n as [|n IH]; intros table pos Hp Hn; cbn [fill_table].
  - cbn [replicate app]. by rewrite Nat.add_0_r, take_drop.
  - rewrite IH by (rewrite ?zlen_setZ; lia). unfold setZ. assert (Hlt : (Z.to_nat pos < length table)%nat) by (unfold zlen in Hn; lia).
    replace (Z.to_nat (pos + 1)) with (S (Z.to_nat pos)) by lia. rewrite insert_take_drop by done.
    rewrite take_app. rewrite length_take, Nat.min_l by lia. rewrite take_ge by (rewrite length_take; lia).
    replace (S (Z.to_nat pos) - Z.to_nat pos)%nat with 1%nat by lia. cbn [take replicate]. rewrite take_0, <- app_assoc. f_equal. cbn [app]. do 2 f_equal.
    rewrite drop_app_ge by (rewrite length_take; lia). rewrite length_take, Nat.min_l by lia.
    replace (S (Z.to_nat pos) + n - Z.to_nat pos)%nat with (S n) by lia. cbn [drop]. rewrite drop_drop. f_equal. lia.
Qed.

Section lengths.
Context (lens : list Z) (rest : list bool) (e : ApplyEngine History) (h : BlockHeader).

Definition after (p : option Z) (done : list Z) : Prop :=
  match p with None => True | Some v => exists front, done = front ++ [v] end.

(** The entries [m] are read after [done]. *)
Definition reads_entries (p : option Z) (its : list TableItem) (m : list Z) : Prop :=
  forall fuel done tail pos c,
    c_table c = done ++ tail -> zlen m <= zlen tail -> after p done -> zlen done + zlen m = c_table_size c -> zlen m < Z.of_nat fuel ->
    built lens (c_bd c) ->
    let text := concat (map (item_bits lens) its) in
    read_lengths fuel (zlen done) (rs (text ++ rest) pos e c h) =
      Ok (Some tt, rs rest (pos + zlen text) e (set_table (done ++ m ++ drop (length m) tail) (c_tables_ready c) c) h).

(** One item put in its place, the rest of the description read. *)
Lemma put_back v n its m fuel done tail pos c :
  reads_entries (Some v) its m -> c_table c = done ++ tail -> 1 <= n -> n + zlen m <= zlen tail -> zlen done + (n + zlen m) = c_table_size c ->
  n + zlen m <= Z.of_nat fuel -> built lens (c_bd c) ->
  (_ ← modify (set_core (fun c' => set_table (fill_table (Z.to_nat (Z.min n (c_table_size c - zlen done))) (c_table c') (zlen done) v) (c_tables_ready c') c'));
   read_lengths fuel (zlen done + Z.min n (c_table_size c - zlen done))) (rs (concat (map (item_bits lens) its) ++ rest) pos e c h) =
  Ok (Some tt, rs rest (pos + zlen (concat (map (item_bits lens) its))) e
        (set_table (done ++ (replicate (Z.to_nat n) v ++ m) ++ drop (length (replicate (Z.to_nat n) v ++ m)) tail) (c_tables_ready c) c) h).
Proof.
  intros HR Ht Hn Hl Hs Hf HB. zlen_pose. rewrite Z.min_l by lia. rewrite M_modify. unfold set_core. cbn [rs rn_reader rn_engine rn_core rn_header].
  set (c1 := set_table _ _ c). fold (rs (concat (map (item_bits lens) its) ++ rest) pos e c1 h).
  assert (E1 : c_table c1 = (done ++ replicate (Z.to_nat n) v) ++ drop (Z.to_nat n) tail).
  { cbn [c1 set_table c_table]. rewrite Ht, fill_table_spec by (rewrite ?zlen_app; lia). rewrite <- app_assoc. unfold zlen at 1 2. rewrite Nat2Z.id.
    rewrite take_app_le, take_ge by lia. f_equal. f_equal. rewrite drop_app_ge by lia. f_equal. lia. }
  replace (zlen done + n) with (zlen (done ++ replicate (Z.to_nat n) v)) by (rewrite zlen_app, zlen_replicate; lia).
  rewrite (HR fuel (done ++ replicate (Z.to_nat n) v) (drop (Z.to_nat n) tail) pos c1 E1).
  - cbv zeta. rewrite length_app, length_replicate, drop_drop, <- !app_assoc. done.
  - rewrite zlen_drop by lia. lia.
  - exists (done ++ replicate (Z.to_nat (n - 1)) v). replace (Z.to_nat n) with (Z.to_nat (n - 1) + 1)%nat by lia.
    by rewrite replicate_add, app_assoc.
  - rewrite zlen_app, zlen_replicate. cbn [c1 set_table c_table_size]. lia.
  - lia.
  - done.
Qed.

Lemma run_item_sym sym n : ti_sym (run_item sym n) = sym \/ ti_sym (run_item sym n) = sym + 1.
Proof. unfold run_item. destruct (n >=? 11); cbn; lia. Qed.

Lemma item_bits_pos it : coded lens (ti_sym it) -> 1 <= zlen (item_bits lens it).
Proof. intros [_ Hc]. unfold item_bits, encoded. rewrite zlen_app, zlen_zbits. zlen_pose. lia. Qed.

Lemma run_item_back sym n pos c more :
  (sym = 16 \/ sym = 18) -> 3 <= n <= 138 -> built lens (c_bd c) -> coded lens (ti_sym (run_item sym n)) ->
  let it := run_item sym n in
  symbol c_bd (rs (item_bits lens it ++ more) pos e c h) =
    Ok (Some (ti_sym it), rs (field (ti_bits it) (ti_extra it) ++ more) (pos + zlen (encoded lens (ti_sym it))) e c h) /\
  forall p, run_length (ti_sym it =? sym) (rs (field (ti_bits it) (ti_extra it) ++ more) p e c h) = Ok (Some n, rs more (p + ti_bits it) e c h).
Proof.
  intros Hs Hn HB Hc. cbv zeta. unfold item_bits. rewrite <- app_assoc. split; [by apply (read_symbol c_bd)|].
  intros p. unfold run_item. rewrite Z.geb_leb. destruct (Z.leb_spec 11 n); cbn [ti_sym ti_bits ti_extra]; rewrite (wrap_small 8) by lia; unfold run_length.
  - rewrite (proj2 (Z.eqb_neq _ _)) by lia.
    rewrite (M_bind_some _ _ _ _ _ (read_need 7 (field 7 (n - 11) ++ more) p e c h ltac:(rewrite zlen_app, zlen_field by lia; zlen_pose; lia))).
    rewrite (M_bind_some _ _ _ _ _ (read_field 7 (n - 11) more p e c h ltac:(lia) ltac:(lia))). unfold mret, M_ret. do 3 f_equal. lia.
  - rewrite Z.eqb_refl.
    rewrite (M_bind_some _ _ _ _ _ (read_need 3 (field 3 (n - 3) ++ more) p e c h ltac:(rewrite zlen_app, zlen_field by lia; zlen_pose; lia))).
    rewrite (M_bind_some _ _ _ _ _ (read_field 3 (n - 3) more p e c h ltac:(lia) ltac:(lia))). unfold mret, M_ret. do 3 f_equal. lia.
Qed.

Lemma read_lengths_back p its m :
  describes p its m -> Forall (fun it => coded lens (ti_sym it)) its -> reads_entries p its m.
Proof.
  intros HD. induction HD as [p|p v its m Hv HD IH|p n its m Hn HD IH|v n its m Hv Hn HD IH]; intros HC fuel done tail pos c Ht Hl Ha Hs Hf HB; cbv zeta;
    (destruct fuel as [|fuel]; [zlen_lia|]); cbn [read_lengths map concat]; rewrite M_gets; change (rn_core (rs _ pos e c h)) with c; cbv zeta.
  - rewrite zlen_nil in *. rewrite (proj2 (Z.ltb_ge _ _)) by lia. cbn [app]. rewrite Z.add_0_r, drop_0, <- Ht. by destruct c.
  - apply Forall_cons_inv in HC as [Hc HC]. rewrite zlen_cons in *. zlen_pose. rewrite (proj2 (Z.ltb_lt _ _)) by lia.
    assert (Hc1 : 1 <= zlen (encoded lens v)) by (destruct Hc as [_ Hc]; cbn [plain_item ti_sym] in Hc; unfold encoded; rewrite zlen_zbits; lia).
    assert (Ei : item_bits lens (plain_item v) = encoded lens v) by (unfold item_bits; cbn [plain_item ti_sym ti_bits ti_extra]; by rewrite field_0, app_nil_r).
    rewrite Ei, <- app_assoc.
    rewrite (M_bind_some _ _ _ _ _ (read_need 1 (encoded lens v ++ concat (map (item_bits lens) its) ++ rest) _ e c h ltac:(rewrite zlen_app; zlen_pose; lia))).
    rewrite (M_bind_some _ _ _ _ _ (read_symbol c_bd lens v _ _ e c h HB Hc)). rewrite (proj2 (Z.ltb_lt v 16)) by lia. rewrite (wrap_small 8 v) by lia.
    rewrite (put_back v 1 its m fuel done tail (pos + zlen (encoded lens v)) c (IH HC)) by (done || lia). rewrite zlen_app, Z.add_assoc. done.
  - apply Forall_cons_inv in HC as [Hc HC]. rewrite zlen_app, zlen_replicate in Hl, Hs, Hf. zlen_pose. rewrite (proj2 (Z.ltb_lt _ _)) by lia.
    destruct (run_item_back 18 n pos c (concat (map (item_bits lens) its) ++ rest) ltac:(by right) Hn HB Hc) as (R1 & R2).
    pose proof (item_bits_pos _ Hc) as Hp. rewrite <- app_assoc.
    rewrite (M_bind_some _ _ _ _ _ (read_need 1 (item_bits lens (run_item 18 n) ++ concat (map (item_bits lens) its) ++ rest) _ e c h ltac:(rewrite zlen_app; zlen_pose; lia))).
    rewrite (M_bind_some _ _ _ _ _ R1). pose proof (run_item_sym 18 n) as Hsym.
    rewrite (proj2 (Z.ltb_ge _ 16)), (proj2 (Z.ltb_ge _ 18)) by lia. rewrite (M_bind_some _ _ _ _ _ (R2 _)).
    rewrite (put_back 0 n its m fuel done tail _ c (IH HC)) by (done || lia). do 3 f_equal. unfold item_bits. rewrite !zlen_app, zlen_field by (apply run_item_fits; [by right|done]). lia.
  - apply Forall_cons_inv in HC as [Hc HC]. rewrite zlen_app, zlen_replicate in Hl, Hs, Hf. zlen_pose. rewrite (proj2 (Z.ltb_lt _ _)) by lia.
    destruct (run_item_back 16 n pos c (concat (map (item_bits lens) its) ++ rest) ltac:(by left) Hn HB Hc) as (R1 & R2).
    pose proof (item_bits_pos _ Hc) as Hp. rewrite <- app_assoc.
    rewrite (M_bind_some _ _ _ _ _ (read_need 1 (item_bits lens (run_item 16 n) ++ concat (map (item_bits lens) its) ++ rest) _ e c h ltac:(rewrite zlen_app; zlen_pose; lia))).
    rewrite (M_bind_some _ _ _ _ _ R1). pose proof (run_item_sym 16 n) as Hsym.
    rewrite (proj2 (Z.ltb_ge _ 16)), (proj2 (Z.ltb_lt _ 18)) by lia. rewrite (M_bind_some _ _ _ _ _ (R2 _)).
    destruct Ha as [front ->]. rewrite M_guard, zlen_app. change (zlen [v]) with 1. zlen_pose.
    rewrite (proj2 (Z.eqb_neq _ 0)) by lia. cbn [negb]. replace (nthZ (c_table c) (zlen front + 1 - 1)) with v by (rewrite Ht, <- (app_assoc front), Z.add_simpl_r; symmetry; exact (nthZ_middle front v tail)).
    replace (zlen front + 1) with (zlen (front ++ [v])) in * by (rewrite zlen_app; done).
    rewrite (put_back v n its m fuel (front ++ [v]) tail _ c (IH HC)) by (done || lia). do 3 f_equal. unfold item_bits. rewrite !zlen_app, zlen_field by (apply run_item_fits; [by left|done]). lia.
Qed.
End lengths.

(** The decoder is set up for the 430-entry table. *)
Record narrow (c : Core) : Prop := { nw_extra : c_extra_dist c = false; nw_size : c_table_size c = 430; nw_table : zlen (c_table c) = 446 }.

Lemma build_code_back get put lens x pos e c h :
  code_good lens -> exists d, built lens d /\ build_code get put lens (rs x pos e c h) = Ok (Some tt, rs x pos e (put d c) h).
Proof.
  intros [HL HK]. destruct (build_spec (get c) lens HL) as (ok & d & E & Hok & HB).
  assert (ok = true) as -> by by apply Hok. exists d. split; [by apply HB|].
  unfold build_code. rewrite M_gets. change (rn_core (rs x pos e c h)) with c. by rewrite (M_lift _ _ _ _ E).
Qed.

Record tables_sized (t : Tables) : Prop := {
  ts_good : tables_good t;
  ts_ld : zlen (tb_len_ld t) = 306; ts_dd : zlen (tb_len_dd t) = 64; ts_ldd : zlen (tb_len_ldd t) = 16; ts_rd : zlen (tb_len_rd t) = 44
}.

Lemma table_bits_short t : tables_sized t -> short_lens (table_bits t) /\ zlen (table_bits t) = 430.
Proof.
  intros [[G1 G2 G3 G4 _ _ _ _] L1 L2 L3 L4]. unfold table_bits. split; [|rewrite !zlen_app; lia].
  repeat apply Forall_app_2; [apply G1|apply G2|apply G3|apply G4].
Qed.

(** The parts of the table are the four codes. *)
Lemma table_parts t more :
  tables_sized t -> let table := table_bits t ++ more in
  part table 0 306 = tb_len_ld t /\ part table 306 64 = tb_len_dd t /\ part table (306 + 64) 16 = tb_len_ldd t /\ part table (306 + 64 + 16) 44 = tb_len_rd t.
Proof.
  intros [_ L1 L2 L3 L4]. cbv zeta. unfold table_bits, part, zlen in *. rewrite <- !app_assoc.
  assert (P : forall (a b c : list Z) i n, i = length a -> n = length b -> take n (drop i (a ++ b ++ c)) = b).
  { intros a b c i n -> ->. by rewrite drop_app_length, take_app_length. }
  split_and!.
  - apply (P []); cbn [length]; lia.
  - apply P; lia.
  - rewrite (app_assoc (tb_len_ld t)). apply P; rewrite ?length_app; lia.
  - rewrite (app_assoc (tb_len_ld t)), (app_assoc (tb_len_ld t ++ _)). apply P; rewrite ?length_app; lia.
Qed.

Lemma read_tables_back t text rest pos e c h :
  tables_sized t -> table_text (table_bits t) text -> narrow c -> bh_table_present h = true -> bh_block_size h <> 0 ->
  exists c', read_tables (rs (text ++ rest) pos e c h) = Ok (Some tt, rs rest (pos + zlen text) e c' h) /\
    codes_of t c' /\ narrow c' /\ c_tables_ready c' = true /\ same_rest c c'.
Proof.
  intros HT [(lens & x & items & -> & HG & Hl & HB & HD & HC)] [N1 N2 N3] Hp Hz.
  unfold read_tables. rewrite M_gets. change (rn_header (rs _ pos e c h)) with h. rewrite Hp, (proj2 (Z.eqb_neq _ 0)) by done. cbn [negb].
  rewrite <- app_assoc. set (its := concat (map (item_bits lens) items)).
  destruct (table_bits_short t HT) as [_ Lt].
  assert (E1 : read_bitlen 21 [] (rs (x ++ its ++ rest) pos e c h) = Ok (Some lens, rs (its ++ rest) (pos + zlen x) e c h)).
  { pose proof (read_bitlen_back lens x [] 21 (its ++ rest) pos e c h HB) as E. apply E; [by rewrite Hl|lia]. }
  rewrite (M_bind_some _ _ _ _ _ E1).
  destruct (build_code_back c_bd put_bd lens (its ++ rest) (pos + zlen x) e c h HG) as (d5 & B5 & E2). rewrite (M_bind_some _ _ _ _ _ E2).
  set (c1 := put_bd d5 c). rewrite M_gets. change (rn_core (rs (its ++ rest) (pos + zlen x) e c1 h)) with c1.
  assert (E3 : read_lengths (S (Z.to_nat (c_table_size c1))) 0 (rs (its ++ rest) (pos + zlen x) e c1 h) =
    Ok (Some tt, rs rest (pos + zlen x + zlen its) e (set_table (table_bits t ++ drop (length (table_bits t)) (c_table c1)) (c_tables_ready c1) c1) h)).
  { apply (read_lengths_back lens rest e h None items (table_bits t) HD HC (S (Z.to_nat (c_table_size c1))) [] (c_table c1)); try done.
    - rewrite Lt. change (c_table c1) with (c_table c). lia.
    - change (c_table_size c1) with (c_table_size c). rewrite zlen_nil. lia.
    - change (c_table_size c1) with (c_table_size c). lia. }
  rewrite (M_bind_some _ _ _ _ _ E3). set (table := table_bits t ++ _). set (c2 := set_table table _ c1).
  rewrite M_gets. cbv zeta. change (c_extra_dist (rn_core (rs rest _ e c2 h))) with (c_extra_dist c). rewrite N1. change (c_table (rn_core (rs rest _ e c2 h))) with table.
  destruct (table_parts t (drop (length (table_bits t)) (c_table c1)) HT) as (P1 & P2 & P3 & P4). fold table in P1, P2, P3, P4. rewrite P1, P2, P3, P4.
  pose proof (ts_good _ HT) as TG. set (p := pos + zlen x + zlen its).
  destruct (build_code_back c_ld put_ld _ rest p e c2 h (tg_ld _ TG)) as (d1 & B1 & F1). rewrite (M_bind_some _ _ _ _ _ F1).
  destruct (build_code_back c_dd put_dd _ rest p e (put_ld d1 c2) h (tg_dd _ TG)) as (d2 & B2 & F2). rewrite (M_bind_some _ _ _ _ _ F2).
  destruct (build_code_back c_ldd put_ldd _ rest p e (put_dd d2 (put_ld d1 c2)) h (tg_ldd _ TG)) as (d3 & B3 & F3). rewrite (M_bind_some _ _ _ _ _ F3).
  destruct (build_code_back c_rd put_rd _ rest p e (put_ldd d3 (put_dd d2 (put_ld d1 c2))) h (tg_rd _ TG)) as (d4 & B4 & F4). rewrite (M_bind_some _ _ _ _ _ F4).
  eexists. split; [unfold modify, set_core; cbn [rs rn_reader rn_engine rn_core rn_header]; unfold rs; do 4 f_equal; unfold p; rewrite zlen_app; lia|].
  split; [by split|]. split; [|by split_and!]. split; [done|done|]. change (zlen table = 446). unfold table. rewrite zlen_app.
  change (c_table c1) with (c_table c). unfold zlen in *. rewrite length_drop. lia.
Qed.
