(* ===== verification/EncoderRoundtrip.v ===== *)
(** The decoder restores what the block encoder was told to encode.

    A session of blocks is recorded and written by the encoder
    ([encode_blocks]); [block_of] says what a written block is, [stream] what
    the whole output is.  The decoder reads a block header, the tables and the
    tokens back, block after block, and delivers the expansion
    ([blocks_roundtrip]). *)

From Stdlib Require Import ZArith Lia.
From stdpp Require Import base tactics list numbers.
From S2P Require Import Prelude Loops Bytes Arrays BitReader Huffman BuildLengths BitOutput Encoder LzWindow StateFail ApplyEngine Decoder DecoderSafety TokenRoundtrip TableRoundtrip.

Local Open Scope Z_scope.

(** ** Sizes *)

Lemma bitlens_size m x : bitlens m x -> zlen x <= 8 * zlen m.
Proof.
  intros HB. induction HB as [|l m x Hl HB IH|m x HB IH|n m x Hn HB IH]; [done|..];
    rewrite ?zlen_app, ?zlen_cons, ?zlen_replicate, ?zlen_field by lia; lia.
Qed.

Lemma coded_size lens s : code_good lens -> coded lens s -> 1 <= zlen (encoded lens s) <= 15.
Proof. intros HG Hc. rewrite zlen_encoded by done. by apply coded_len. Qed.

Lemma concat_size {A B} (f : A -> list B) k l : 0 <= k -> Forall (fun x => zlen (f x) <= k) l -> zlen (concat (map f l)) <= k * zlen l.
Proof. intros Hk HF. induction HF as [|x l Hx HF IH]; cbn [map concat]; [unfold zlen; cbn; lia|]. rewrite zlen_app, zlen_cons. lia. Qed.

Lemma table_text_size bits text : table_text bits text -> zlen bits <= 430 -> zlen text <= 10000.
Proof.
  intros [(lens & x & items & -> & HG & Hl & HB & HD & HC)] Hb. rewrite zlen_app. pose proof (bitlens_size lens x HB).
  destruct (describes_fits _ _ _ HD) as [HF Hn].
  assert (zlen (concat (map (item_bits lens) items)) <= 22 * zlen items); [|lia]. apply concat_size; [lia|].
  eapply List.Forall_impl; [|apply List.Forall_and; [exact HC|exact HF]]. cbn beta. intros it [Hc [_ Hi _]].
  unfold item_bits. rewrite zlen_app, zlen_field by lia. pose proof (coded_size lens _ HG Hc). lia.
Qed.

Lemma zlen_data_bits n i v : zlen (data_bits n i v) = 8 * Z.of_nat n.
Proof. revert i. induction n as [|n IH]; intros i; cbn [data_bits]; [done|]. rewrite zlen_app, zlen_field, IH by lia. lia. Qed.

Lemma filter_data_size v : zlen (filter_data_bits v) <= 34.
Proof.
  unfold filter_data_bits. rewrite zlen_app, zlen_field, zlen_data_bits by lia. unfold filter_bytes. repeat case_match; cbn; lia.
Qed.

Lemma tok_size t k : tables_good t -> usable t k -> zlen (tok_bits t k) <= 96.
Proof.
  intros HT HU. destruct k as [b|tok|f]; unfold usable in HU; cbn [tok_bits tok_uses] in *.
  - destruct HU as [_ Hc]. pose proof (coded_size _ _ (tg_ld _ HT) Hc). lia.
  - unfold match_bits, distance_bits. cbv zeta in HU. destruct (get_type tok =? Token_LastLen); [pose proof (coded_size _ _ (tg_ld _ HT) HU); lia|].
    destruct HU as (_ & H1 & H2 & HU). destruct (get_type tok =? Token_Match).
    + destruct HU as (U1 & U2 & U3 & U4 & U5). pose proof (coded_size _ _ (tg_ld _ HT) U1). pose proof (coded_size _ _ (tg_dd _ HT) U2).
      rewrite !zlen_app, zlen_field by lia. rewrite Z.geb_leb. destruct (Z.leb_spec 4 (get_dist_bits tok)) as [H4|H4].
      * pose proof (coded_size _ _ (tg_ldd _ HT) (U5 H4)). rewrite zlen_app, zlen_field by lia. lia.
      * rewrite zlen_field by lia. lia.
    + destruct HU as (_ & U1 & U2). pose proof (coded_size _ _ (tg_ld _ HT) U1). pose proof (coded_size _ _ (tg_rd _ HT) U2).
      rewrite !zlen_app, zlen_field by lia. lia.
  - destruct HU as (Hc & _ & _). pose proof (coded_size _ _ (tg_ld _ HT) Hc). unfold filter_bits. rewrite !zlen_app.
    pose proof (filter_data_size (ft_block_start f)). pose proof (filter_data_size (ft_block_length f)). rewrite zlen_field by lia.
    destruct (ft_type f =? 0); rewrite ?zlen_field, ?zlen_nil by lia; lia.
Qed.

(** ** A written block *)

Definition block_of (last : bool) (toks : list Tok) (out : list Z) : Prop :=
  exists t text mem pad,
    out = block_header last (zlen mem) (8 - pad) ++ mem /\ bytes mem /\ 1 <= zlen mem < 2 ^ 24 /\ 0 <= pad < 8 /\
    bytes_bits mem = text ++ concat (map (tok_bits t) toks) ++ replicate (Z.to_nat pad) false /\
    tables_sized t /\ Forall (usable t) toks /\ table_text (table_bits t) text.

(** The tokens are gone, the frequencies counted from zero, the output grown. *)
Record next_start (e e' : Encoder) (out : list Z) : Prop := {
  ns_recording : recording e' [];
  ns_dist : en_old_dist e' = en_old_dist e;
  ns_len : en_last_length e' = en_last_length e;
  ns_out : en_mem_out e' = en_mem_out e ++ out
}.

Lemma cleared_recording e : recording (clear_block e) [].
Proof. split; try done; try (by apply Forall_replicate). Qed.

Lemma bitlens_nonempty m x : bitlens m x -> 1 <= zlen m -> 1 <= zlen x.
Proof.
  intros HB. destruct HB; [done|..]; intros _; rewrite !zlen_app, !zlen_field by lia; zlen_pose; lia.
Qed.

Lemma table_text_nonempty bits text : table_text bits text -> 1 <= zlen text.
Proof.
  intros [(lens & x & items & -> & _ & Hl & HB & _)]. rewrite zlen_app. pose proof (bitlens_nonempty lens x HB). zlen_pose. lia.
Qed.

Lemma block_data_spec e toks :
  recording e toks -> zlen toks <= 2 ^ 20 ->
  exists o t text pad, block_data e = Ok o /\ bytes (bo_mem o) /\ 0 <= pad < 8 /\
    bytes_bits (bo_mem o) = text ++ concat (map (tok_bits t) toks) ++ replicate (Z.to_nat pad) false /\
    bo_block_bits o = zlen text + zlen (concat (map (tok_bits t) toks)) /\ 1 <= zlen text <= 10000 /\
    zlen (concat (map (tok_bits t) toks)) <= 96 * 2 ^ 20 /\
    tables_sized t /\ Forall (usable t) toks /\ table_text (table_bits t) text.
Proof.
  intros HR Hn. destruct (make_tables_spec e toks HR) as (t & E1 & HT & HU & L1 & L2 & L3 & L4).
  assert (TS : tables_sized t) by done. destruct (table_bits_short t TS) as [HS HL].
  destruct (emit_table_writes (table_bits t) reset_for_block HS ltac:(lia)) as (o1 & text & E2 & W1 & HX).
  destruct (emit_tokens_writes t toks HT HU o1) as (o2 & E3 & W2). pose proof (table_text_size _ _ HX ltac:(lia)) as Sx. pose proof (table_text_nonempty _ _ HX).
  assert (St : zlen (concat (map (tok_bits t) toks)) <= 96 * 2 ^ 20).
  { etrans; [apply (concat_size _ 96); [lia|]|lia]. eapply List.Forall_impl; [|exact HU]. intros k. by apply tok_size. }
  destruct (W1 reset_for_block_ok) as [K1 B1]; [change (zlen (out_bits reset_for_block)) with 0; lia|]. change (out_bits reset_for_block) with (@nil bool) in B1.
  destruct (W2 K1) as [K2 B2]; [rewrite B1; cbn [app]; lia|]. rewrite B1 in B2. cbn [app] in B2.
  destruct (finish_block_data_spec o2 K2) as (F1 & F2 & pad & F3 & F4).
  exists (finish_block_data o2), t, text, (Z.of_nat pad). unfold block_data. destruct (rc_tokens _ _ HR) as [T1 T2 T3 T4].
  rewrite E1, bind_ok, E2, bind_ok, T1, T2, T3, T4, E3, bind_ok. rewrite Nat2Z.id. rewrite B2 in F2, F3. rewrite <- app_assoc in F3.
  rewrite F2, zlen_app. split_and!; (done || lia).
Qed.

Lemma write_block_spec last e toks :
  recording e toks -> zlen toks <= 2 ^ 20 ->
  exists e' out, write_block last e = Ok (true, e') /\ block_of last toks out /\ next_start e e' out.
Proof.
  intros HR Hn. destruct (block_data_spec e toks HR Hn) as (o & t & text & pad & E & HB & Hp & EB & Ebits & Sx & St & TS & HU & HX).
  pose proof (f_equal zlen EB) as EL. rewrite zlen_bytes_bits, !zlen_app, zlen_replicate in EL. zlen_pose.
  unfold write_block. rewrite E, bind_ok. cbv zeta. set (size := zlen (bo_mem o)) in *.
  rewrite (proj2 (Z.eqb_neq size 0)), Z.geb_leb, (proj2 (Z.leb_gt _ _)) by lia.
  rewrite (wrap_small 64) by lia. rewrite (wrap_small 32) by lia.
  set (bits := bo_block_bits o - (size - 1) * 8). assert (Eb : bits = 8 - pad) by (unfold bits; lia).
  rewrite (proj2 (Z.ltb_ge bits 1)), Z.gtb_ltb, (proj2 (Z.ltb_ge 8 bits)) by lia. rewrite Eb.
  eexists _, _. split; [reflexivity|]. split.
  - exists t, text, (bo_mem o), pad. split_and!; try done; unfold size in *; lia.
  - split; [apply cleared_recording|done..].
Qed.

(** ** Reading a block header *)

Section headers.
Context (e : ApplyEngine History) (c : Core).

Lemma align_back pad rest pos h :
  0 <= pad < 8 -> (pos + pad) mod 8 = 0 -> align (rs (replicate (Z.to_nat pad) false ++ rest) pos e c h) = Ok (Some tt, rs rest (pos + pad) e c h).
Proof.
  intros Hp Hm. unfold align, call, zoom, align_byte. cbn [rs rn_reader bit_pos Bits_source bt_pos consume_bits]. cbv zeta.
  change 7 with (Z.ones 3). rewrite Z.land_ones by lia. change (2 ^ 3) with 8.
  assert (C : pos mod 8 = 0 /\ pad = 0 \/ pos mod 8 <> 0 /\ 8 - pos mod 8 = pad) by dlia. destruct C as [[E ->]|[E E2]].
  - rewrite E. cbn. by rewrite Z.add_0_r.
  - rewrite (proj2 (Z.eqb_neq _ 0)) by done. cbn [negb]. rewrite E2.
    pose proof (consume_front (replicate (Z.to_nat pad) false) rest pos) as EC. rewrite zlen_replicate, Z2Nat.id in EC by lia. rewrite EC. done.
Qed.

Lemma read_byte b rest pos h : 0 <= b < 256 -> take_bits 8 (rs (bytes_bits [b] ++ rest) pos e c h) = Ok (Some b, rs rest (pos + 8) e c h).
Proof. intros Hb. apply (read_field 8); lia. Qed.

Lemma need_byte b rest pos h : need 8 (rs (bytes_bits [b] ++ rest) pos e c h) = Ok (Some tt, rs (bytes_bits [b] ++ rest) pos e c h).
Proof. apply read_need. rewrite zlen_app, zlen_bytes_bits. change (zlen [b]) with 1. zlen_pose. lia. Qed.

(** The bytes of a block size, from the [i]th. *)
Fixpoint size_bytes (k : nat) (i size : Z) : list Z :=
  match k with O => [] | S k' => u8 (Z.shiftr size (i * 8)) :: size_bytes k' (i + 1) size end.

Lemma size_byte_in i size :
  0 <= i < 4 -> Z.lor (size mod 2 ^ (8 * i)) (u32 (Z.shiftl (u8 (Z.shiftr size (i * 8))) (i * 8))) = size mod 2 ^ (8 * (i + 1)).
Proof.
  intros Hi. pose proof (wrap_range 8 (Z.shiftr size (i * 8)) ltac:(lia)) as Hb.
  pose proof (Z.mod_pos_bound size (2 ^ (8 * i)) ltac:(apply Z.pow_pos_nonneg; lia)) as Hm.
  rewrite (wrap_small 32).
  - rewrite (Z.mul_comm i 8), lor_shiftl_add by lia. unfold wrap. rewrite Z.shiftr_div_pow2 by lia.
    replace (8 * (i + 1)) with (8 * i + 8) by lia. rewrite Z.pow_add_r, Z.rem_mul_r by lia. lia.
  - rewrite Z.shiftl_mul_pow2 by lia. pose proof (pow_le (i * 8) 24 ltac:(lia)). nia.
Qed.

Lemma take_bytes_back k i size rest pos h :
  0 <= i -> i + Z.of_nat k <= 4 ->
  take_bytes k i (size mod 2 ^ (8 * i)) (rs (bytes_bits (size_bytes k i size) ++ rest) pos e c h) =
    Ok (Some (size mod 2 ^ (8 * (i + Z.of_nat k))), rs rest (pos + 8 * Z.of_nat k) e c h).
Proof.
  revert i pos. induction k as [|k IH]; intros i pos Hi Hk; cbn [take_bytes size_bytes].
  - rewrite !Z.add_0_r. done.
  - set (b := u8 (Z.shiftr size (i * 8))). change (b :: size_bytes k (i + 1) size) with ([b] ++ size_bytes k (i + 1) size). rewrite bytes_bits_app, <- app_assoc.
    rewrite (M_bind_some _ _ _ _ _ (need_byte b _ pos h)).
    rewrite (M_bind_some _ _ _ _ _ (read_byte b _ pos h ltac:(apply (wrap_range 8); lia))).
    unfold b. rewrite size_byte_in by lia. rewrite IH by lia. replace (i + 1 + Z.of_nat k) with (i + Z.of_nat (S k)) by lia. do 3 f_equal. lia.
Qed.

(** The flags of a block. *)
Definition block_flags (last : bool) (byte_count bits : Z) : Z :=
  u8 (Z.lor (Z.lor (Z.lor 0x80 (if last then 0x40 else 0)) (Z.shiftl (byte_count - 1) 3)) (bits - 1)).

Definition flags_good (last : bool) (byte_count bits : Z) : bool :=
  let f := block_flags last byte_count bits in
  (0 <=? f) && (f <? 256) && (Z.land (Z.shiftr f 3) 3 + 1 =? byte_count) && (Z.land f 7 + 1 =? bits) && Bool.eqb (has_flag f 0x40) last && has_flag f 0x80.

Lemma all_flags : forallb (fun last => forallb (fun n => forallb (fun b => flags_good last n b) (seqZ 1 8)) (seqZ 1 3)) [true; false] = true.
Proof. vm_compute. reflexivity. Qed.

Lemma block_flags_spec last n b :
  1 <= n <= 3 -> 1 <= b <= 8 ->
  let f := block_flags last n b in
  0 <= f < 256 /\ Z.land (Z.shiftr f 3) 3 + 1 = n /\ Z.land f 7 + 1 = b /\ has_flag f 0x40 = last /\ has_flag f 0x80 = true.
Proof.
  intros Hn Hb. pose proof all_flags as HA. rewrite forallb_forall in HA. specialize (HA last ltac:(destruct last; cbn; auto)).
  rewrite forallb_forall in HA. specialize (HA n ltac:(apply list_elem_of_In, elem_of_seqZ; lia)).
  rewrite forallb_forall in HA. specialize (HA b ltac:(apply list_elem_of_In, elem_of_seqZ; lia)).
  unfold flags_good in HA. rewrite !andb_true_iff, !Z.eqb_eq, Z.leb_le, Z.ltb_lt, Bool.eqb_true_iff in HA. cbv zeta. tauto.
Qed.

Definition byte_count (size : Z) : Z := if size <? 0x100 then 1 else if size <? 0x10000 then 2 else 3.

Lemma byte_count_spec size : 0 <= size < 2 ^ 24 -> 1 <= byte_count size <= 3 /\ size < 2 ^ (8 * byte_count size).
Proof. intros Hs. unfold byte_count. destruct (Z.ltb_spec size 0x100); [lia|]. destruct (Z.ltb_spec size 0x10000); lia. Qed.

Definition check_sum (flags size : Z) : Z := u8 (Z.lxor (Z.lxor (Z.lxor (Z.lxor 0x5a flags) size) (Z.shiftr size 8)) (Z.shiftr size 16)).

Lemma block_header_bytes last size bits :
  block_header last size bits =
    [block_flags last (byte_count size) bits] ++ [check_sum (block_flags last (byte_count size) bits) size] ++ size_bytes (Z.to_nat (byte_count size)) 0 size.
Proof.
  unfold block_header. fold (byte_count size). cbv zeta. fold (block_flags last (byte_count size) bits). fold (check_sum (block_flags last (byte_count size) bits) size).
  assert (C : byte_count size = 1 \/ byte_count size = 2 \/ byte_count size = 3) by (unfold byte_count; repeat case_match; lia).
  destruct C as [-> | [-> | ->]]; cbn; by rewrite ?Z.shiftr_0_r.
Qed.

(** The header of the block whose data start at bit [pos]. *)
Definition header_at (last : bool) (size bits pos : Z) : BlockHeader :=
  {| bh_block_size := size; bh_block_bit_size := bits; bh_block_start := pos / 8; bh_header_size := 2 + byte_count size;
     bh_last_block_in_file := last; bh_table_present := true |}.

Lemma upd_back a b d f g i x pos h :
  upd_header a b d f g i (rs x pos e c h) = Ok (Some tt, rs x pos e c
    {| bh_block_size := a; bh_block_bit_size := b; bh_block_start := d; bh_header_size := f; bh_last_block_in_file := g; bh_table_present := i |}).
Proof. done. Qed.

Lemma read_block_header_back last size bits pad rest pos h :
  1 <= size < 2 ^ 24 -> 1 <= bits <= 8 -> 0 <= pad < 8 -> (pos + pad) mod 8 = 0 ->
  let pos' := pos + pad + 8 * (2 + byte_count size) in
  read_block_header (rs (replicate (Z.to_nat pad) false ++ bytes_bits (block_header last size bits) ++ rest) pos e c h) =
    Ok (Some tt, rs rest pos' e c (header_at last size bits pos')).
Proof.
  intros Hs Hb Hp Hm. cbv zeta. destruct (byte_count_spec size ltac:(lia)) as [Hn Hsz]. rewrite block_header_bytes, !bytes_bits_app, <- !app_assoc.
  set (n := byte_count size) in *. set (flags := block_flags last n bits). set (sum := check_sum flags size).
  destruct (block_flags_spec last n bits Hn Hb) as (F1 & F2 & F3 & F4 & F5). fold flags in F1, F2, F3, F4, F5.
  set (text := bytes_bits [flags] ++ bytes_bits [sum] ++ bytes_bits (size_bytes (Z.to_nat n) 0 size) ++ rest).
  unfold read_block_header. rewrite M_gets. cbv zeta. rewrite (M_bind_some _ _ _ _ _ (upd_back _ _ _ _ _ _ _ pos h)).
  set (h1 := {| bh_block_size := _ |}).
  rewrite (M_bind_some _ _ _ _ _ (read_need 16 (replicate (Z.to_nat pad) false ++ text) pos e c h1 ltac:(unfold text; rewrite !zlen_app, !zlen_bytes_bits; change (zlen [flags]) with 1; change (zlen [sum]) with 1; zlen_pose; lia))).
  rewrite (M_bind_some _ _ _ _ _ (align_back pad text pos h1 Hp Hm)). unfold text.
  rewrite (M_bind_some _ _ _ _ _ (need_byte flags _ (pos + pad) h1)). rewrite (M_bind_some _ _ _ _ _ (read_byte flags _ (pos + pad) h1 F1)).
  rewrite F2, F3, M_guard, (proj2 (Z.eqb_neq n 4)) by lia. cbn [negb]. rewrite (M_bind_some _ _ _ _ _ (upd_back _ _ _ _ _ _ _ (pos + pad + 8) h1)).
  set (h2 := {| bh_block_size := _ |}). assert (Fs : 0 <= sum < 256) by (apply (wrap_range 8); lia).
  rewrite (M_bind_some _ _ _ _ _ (need_byte sum _ _ h2)). rewrite (M_bind_some _ _ _ _ _ (read_byte sum _ _ h2 Fs)).
  pose proof (take_bytes_back (Z.to_nat n) 0 size rest (pos + pad + 8 + 8) h2 ltac:(lia) ltac:(lia)) as ET. change (2 ^ (8 * 0)) with 1 in ET. rewrite Z.mod_1_r in ET.
  rewrite (M_bind_some _ _ _ _ _ ET). rewrite Z2Nat.id by lia. rewrite Z.add_0_l, (Z.mod_small size) by lia.
  rewrite (M_bind_some _ _ _ _ _ (upd_back _ _ _ _ _ _ _ _ h2)). set (h3 := {| bh_block_size := _ |}).
  rewrite M_guard. replace (Z.land _ 0xFF =? sum) with true; [|symmetry; apply Z.eqb_eq; unfold sum, check_sum; by rewrite wrap_land by lia].
  rewrite (M_bind_some _ _ _ _ _ (read_pos rest _ e c h3)). rewrite F4, F5, upd_back.
  replace (pos + pad + 8 + 8 + 8 * n) with (pos + pad + 8 * (2 + n)) by lia. done.
Qed.
End headers.

(** ** A stream of blocks *)

(** The output of a session: every block in turn, the last one marked. *)
Fixpoint stream (blocks : list (list Op)) (out : list Z) : Prop :=
  match blocks with
  | [] => out = []
  | ops :: blocks' => exists b more, out = b ++ more /\
      block_of (match blocks' with [] => true | _ => false end) (map op_tok ops) b /\ stream blocks' more
  end.

Definition small_blocks (blocks : list (list Op)) : Prop := Forall (fun ops => zlen ops <= 2 ^ 20) blocks.

Lemma encode_blocks_spec win blocks z e :
  recording e [] -> shadows e z -> lz_ok z -> ops_ok win z (concat blocks) = true -> small_blocks blocks ->
  exists e' out, encode_blocks blocks e = Ok (true, e') /\ en_mem_out e' = en_mem_out e ++ out /\ stream blocks out.
Proof.
  revert z e. induction blocks as [|ops blocks IH]; intros z e HR HS HZ HO HB; cbn [encode_blocks concat stream] in *.
  - exists e, []. by rewrite app_nil_r.
  - apply Forall_cons_inv in HB as [Hn HB]. assert (HO2 : ops_ok win z ops = true /\ ops_ok win (run_ops z ops) (concat blocks) = true).
    { revert HO. clear. revert z. induction ops as [|o ops IH]; intros z HO; [done|]. cbn [ops_ok app run_ops fold_left] in *.
      apply andb_true_iff in HO as [H1 H2]. rewrite H1. by apply IH. }
    destruct HO2 as [HO1 HO2]. destruct (record_ops_spec win ops z [] e HR HS HZ HO1) as (e1 & E1 & R1 & [S1 S2] & [M1 M2] & HZ1).
    rewrite E1, bind_ok. cbn [app] in R1.
    set (last := match blocks with [] => true | _ => false end).
    destruct (write_block_spec last e1 (map op_tok ops) R1) as (e2 & b & E2 & HBk & [N1 N2 N3 N4]); [by rewrite zlen_map|].
    rewrite E2, bind_ok. cbn [negb].
    destruct (IH (run_ops z ops) e2 N1) as (e3 & out & E3 & M3 & HSt); [by split; rewrite ?N2, ?N3|done|done|done|].
    exists e3, (b ++ out). split; [done|]. split; [by rewrite M3, N4, M1, app_assoc|]. by exists b, out.
Qed.

Lemma ops_ok_app win z a b : ops_ok win z (a ++ b) = ops_ok win z a && ops_ok win (run_ops z a) b.
Proof. revert z. induction a as [|o a IH]; intros z; [done|]. cbn [ops_ok app run_ops fold_left]. by rewrite IH, andb_assoc. Qed.

Lemma run_ops_app z a b : run_ops z (a ++ b) = run_ops (run_ops z a) b.
Proof. apply fold_left_app. Qed.

Lemma run_ops_grows win z ops :
  lz_ok z -> ops_ok win z ops = true -> zlen (z_hist z) + zlen ops <= zlen (z_hist (run_ops z ops)) /\ lz_ok (run_ops z ops).
Proof.
  revert z. induction ops as [|o ops IH]; intros z HZ HO; cbn [ops_ok run_ops fold_left] in *; [rewrite zlen_nil; split; [lia|done]|].
  apply andb_true_iff in HO as [H1 H2]. destruct (op_step_ok win z o HZ H1) as (HZ1 & Hs & new & E & _ & Ln).
  destruct (IH _ HZ1 H2) as [I1 I2]. split; [|done]. rewrite E, zlen_app in I1. rewrite zlen_cons. unfold run_ops in I1. lia.
Qed.

Lemma tok_nonempty t k : tables_good t -> usable t k -> 1 <= zlen (tok_bits t k).
Proof.
  intros HT HU. assert (HC : exists s x, coded (tb_len_ld t) s /\ tok_bits t k = encoded (tb_len_ld t) s ++ x).
  { destruct k as [b|tok|f]; unfold usable in HU; cbn [tok_bits tok_uses] in *.
    - exists b, []. rewrite app_nil_r. by destruct HU.
    - unfold match_bits. destruct (get_type tok =? Token_LastLen); [exists 257, []; by rewrite app_nil_r|].
      destruct HU as (_ & _ & _ & HU). destruct (get_type tok =? Token_Match); [destruct HU as (U & _)|destruct HU as (_ & U & _)]; by eexists _, _.
    - destruct HU as (U & _). by eexists 256, _. }
  destruct HC as (s & x & Hc & ->). rewrite zlen_app. pose proof (coded_size _ s (tg_ld _ HT) Hc). zlen_pose. lia.
Qed.

(** ** Decoding the stream *)

Section decoding.
Context (size dest base : Z) (prior sent : list Z).
Hypothesis size_range : 65536 <= size < 2 ^ 62.
Hypothesis dest_range : dest < 2 ^ 62.

Abbreviation loop := (token_loop (R := Bits) (W := History) take_all dest base false).
Abbreviation following := (follows size prior sent).

(** The tokens of a block. *)
Lemma tokens_back t ops z made rest pos e c h fuel budget :
  following z made e c -> codes_of t c -> tables_good t -> lz_ok z -> ops_ok size z ops = true -> Forall (usable t) (map op_tok ops) ->
  zlen (z_hist (run_ops z ops)) <= zlen prior + dest ->
  let x := concat (map (tok_bits t) (map op_tok ops)) in
  let end_bit := pos + zlen x in
  exists e' c' made',
    loop (length ops + fuel)%nat (zlen made) end_bit budget (rs (x ++ rest) pos e c h) = loop fuel (zlen made') end_bit budget (rs rest end_bit e' c' h) /\
    following (run_ops z ops) made' e' c' /\ exists q n, c' = set_reps q n c.
Proof.
  intros HF HC HT. revert z made pos e c HF HC. induction ops as [|o ops IH]; intros z made pos e c HF HC HZ HO HU Hd; cbv zeta; cbn [map concat].
  - exists e, c, made. rewrite Z.add_0_r. split; [done|]. split; [done|]. exists (c_old_dist c), (c_last_length c). by destruct c.
  - cbn [ops_ok run_ops fold_left] in *. apply andb_true_iff in HO as [HO1 HO2]. apply Forall_cons_inv in HU as [HU1 HU2].
    destruct (op_step_ok size z o HZ HO1) as (HZ1 & Hs & new & E & _ & Ln).
    destruct (run_ops_grows size _ ops HZ1 HO2) as [Hg _]. unfold run_ops in Hg. rewrite E, (fw_hist _ _ _ _ _ _ _ HF), !zlen_app in Hg. zlen_pose.
    set (x1 := tok_bits t (op_tok o)). set (xs := concat (map (tok_bits t) (map op_tok ops))).
    destruct (token_back size dest base prior sent size_range dest_range t o z made (xs ++ rest) pos e c h budget HF HC HZ HO1 HU1 ltac:(lia)) as (e1 & c1 & made1 & E1 & HF1 & Lm & q & n & Ec).
    fold x1 in E1. pose proof (tok_nonempty t _ HT HU1) as Hx. fold x1 in Hx.
    destruct (IH (op_step z o) made1 (pos + zlen x1) e1 c1 HF1 ltac:(rewrite Ec; by apply codes_of_reps) HZ1 HO2 HU2 Hd) as (e' & c' & made' & E2 & HF' & q' & n' & Ec').
    cbv zeta in E2. fold xs in E2. exists e', c', made'. split; [|split; [done|exists q', n'; by rewrite Ec', Ec]].
    rewrite zlen_app, Z.add_assoc. rewrite <- E2. cbn [length Nat.add token_loop]. rewrite (proj2 (Z.ltb_lt (zlen made) dest)) by lia.
    rewrite <- app_assoc. rewrite (M_bind_some _ _ _ _ _ (read_pos _ pos e c h)). rewrite Z.geb_leb, (proj2 (Z.leb_gt _ _)) by (zlen_pose; lia).
    rewrite (M_bind_some _ _ _ _ _ (read_remaining _ pos e c h)). rewrite zlen_app. rewrite (proj2 (Z.ltb_ge _ 1)) by (zlen_pose; lia).
    rewrite (M_bind_some _ _ _ _ _ E1). done.
Qed.

(** What the decoder has once it is in a block: its tables, and in front of it
    the tokens, the padding and the blocks that follow. *)
Record in_block (last : bool) (toks : list Tok) (rest : list bool) (t : Tables) (c c' : Core) (h : BlockHeader) (pos pad : Z) : Prop := {
  ib_tables : tables_good t; ib_usable : Forall (usable t) toks; ib_codes : codes_of t c'; ib_narrow : narrow c';
  ib_ready : c_tables_ready c' = true; ib_same : same_rest c c';
  ib_last : bh_last_block_in_file h = last; ib_present : bh_table_present h = true; ib_size : 0 < bh_block_size h;
  ib_end : block_end_bit h = pos + zlen (concat (map (tok_bits t) toks));
  ib_pad : 0 <= pad < 8 /\ (block_end_bit h + pad) mod 8 = 0
}.

Definition block_left (t : Tables) (toks : list Tok) (pad : Z) (rest : list bool) : list bool :=
  concat (map (tok_bits t) toks) ++ replicate (Z.to_nat pad) false ++ rest.

Lemma block_entered last toks b pad rest pos e c h :
  block_of last toks b -> narrow c -> 0 <= pad < 8 -> 0 <= pos -> (pos + pad) mod 8 = 0 ->
  let text := replicate (Z.to_nat pad) false ++ bytes_bits b ++ rest in
  pos + zlen text < 2 ^ 63 ->
  exists t c' h' pos' pad' rest1 pos1,
    read_block_header (rs text pos e c h) = Ok (Some tt, rs rest1 pos1 e c h') /\
    read_tables (rs rest1 pos1 e c h') = Ok (Some tt, rs (block_left t toks pad' rest) pos' e c' h') /\
    in_block last toks rest t c c' h' pos' pad' /\ pos < pos' /\ pos' + zlen (block_left t toks pad' rest) = pos + zlen text.
Proof.
  intros (t & tables & mem & pad' & -> & HM & Hs & Hp' & EM & TS & HU & HX) HN Hp Hpos Hm. cbv zeta. rewrite bytes_bits_app, <- app_assoc.
  set (size0 := zlen mem) in *. destruct (byte_count_spec size0 ltac:(lia)) as [Hn _].
  assert (Lh : zlen (bytes_bits (block_header last size0 (8 - pad'))) = 8 * (2 + byte_count size0)).
  { rewrite zlen_bytes_bits, block_header_bytes, !zlen_app. change (zlen [_]) with 1 at 1 2.
    assert (Lk : forall k i, zlen (size_bytes k i size0) = Z.of_nat k) by (induction k as [|k IH]; intros i; [done|]; cbn [size_bytes]; rewrite zlen_cons, IH; lia).
    rewrite Lk. lia. }
  intros Hall. rewrite !zlen_app, Lh, zlen_replicate in *. zlen_pose.
  pose proof (read_block_header_back e c last size0 (8 - pad') pad (bytes_bits mem ++ rest) pos h Hs ltac:(lia) Hp Hm) as E1. cbv zeta in E1.
  set (pos1 := pos + pad + 8 * (2 + byte_count size0)) in *. set (h' := header_at last size0 (8 - pad') pos1) in *.
  set (toksb := concat (map (tok_bits t) toks)) in *.
  destruct (read_tables_back t tables (toksb ++ replicate (Z.to_nat pad') false ++ rest) pos1 e c h' TS HX HN eq_refl) as (c' & E2 & HC & HN' & HR & HSame); [change (size0 <> 0); lia|].
  pose proof (f_equal zlen EM) as EL. rewrite zlen_bytes_bits, !zlen_app, zlen_replicate in EL. fold size0 in EL. pose proof (table_text_nonempty _ _ HX).
  pose proof (zlen_bytes_bits mem) as Lm. fold size0 in Lm.
  assert (Eend : block_end_bit h' = pos1 + zlen tables + zlen toksb).
  { unfold block_end_bit. cbn [h' header_at bh_block_size bh_block_start bh_block_bit_size]. rewrite (proj2 (Z.leb_gt _ _)) by lia.
    assert (E8 : pos1 / 8 * 8 = pos1) by (unfold pos1; dlia). assert (Ep : pos1 = pos + pad + 8 * (2 + byte_count size0)) by done. rewrite (wrap_small 64 (pos1 / 8 + size0 - 1)) by lia. rewrite wrap_small by lia. lia. }
  exists t, c', h', (pos1 + zlen tables), pad', (bytes_bits mem ++ rest), pos1. unfold block_left. fold toksb.
  split; [exact E1|]. split; [by rewrite EM, <- !app_assoc|].
  split; [|rewrite !zlen_app, zlen_replicate; unfold pos1; split; lia].
  split; try done; [apply TS|cbn; lia|split; [lia|]]. rewrite Eend. unfold pos1. replace (pos + pad + 8 * (2 + byte_count size0) + zlen tables + zlen toksb + pad')
    with (pos + pad + (2 + byte_count size0 + size0) * 8) by lia. by rewrite Z.mod_add.
Qed.

(** What must not move during a call. *)
Definition same_bases (c c' : Core) : Prop :=
  c_file_base c' = c_file_base c /\ c_member_start c' = c_member_start c /\ c_last_error c' = c_last_error c.

Lemma same_rest_bases c c' : same_rest c c' -> same_bases c c'.
Proof. by intros (? & ? & ? & ? & ? & ? & ?). Qed.

Lemma same_bases_trans c1 c2 c3 : same_bases c1 c2 -> same_bases c2 c3 -> same_bases c1 c3.
Proof. intros (A1 & A2 & A3) (B1 & B2 & B3). split_and!; congruence. Qed.

Lemma follows_rest z made e c c' : following z made e c -> same_rest c c' -> following z made e c'.
Proof. intros [F1 F2 F3 F4 F5] (S1 & S2 & _). split; try done; congruence. Qed.

Lemma narrow_reps q n c : narrow c -> narrow (set_reps q n c).
Proof. by intros []. Qed.

(** The end of the decode: the loop has left at the end of a block. *)
Definition finished (z : Lz) (end_bit : Z) (o : res (option (Z * Z) * Run Bits History)) (c : Core) : Prop :=
  exists rest e' c' h' made', o = Ok (Some (dest, end_bit), rs rest end_bit e' c' h') /\
    following z made' e' c' /\ zlen made' = dest /\ same_bases c c'.

(** The rest of the blocks, from the end of the tokens of one. *)
Lemma blocks_back blocks z made out pos pad e c h fuel budget :
  stream blocks out -> following z made e c -> narrow c -> lz_ok z -> ops_ok size z (concat blocks) = true ->
  zlen (z_hist (run_ops z (concat blocks))) = zlen prior + dest ->
  bh_last_block_in_file h = (match blocks with [] => true | _ => false end) ->
  0 <= pad < 8 -> 0 <= pos -> (pos + pad) mod 8 = 0 ->
  let text := replicate (Z.to_nat pad) false ++ bytes_bits out in
  pos + zlen text < 2 ^ 63 -> zlen text < Z.of_nat fuel ->
  exists end_bit, finished (run_ops z (concat blocks)) end_bit (loop fuel (zlen made) pos budget (rs text pos e c h)) c.
Proof.
  revert z made out pos pad e c h fuel budget. induction blocks as [|ops blocks IH]; intros z made out pos pad e c h fuel budget HSt HF HN HZ HO HD HL Hp Hpos Hm; cbv zeta; intros Hall Hf;
    cbn [concat stream] in *.
  all: zlen_pose; (destruct fuel as [|fuel]; [lia|]); cbn [token_loop].
  - cbn [run_ops fold_left] in *. rewrite (fw_hist _ _ _ _ _ _ _ HF), zlen_app in HD. rewrite (proj2 (Z.ltb_ge _ _)) by lia.
    exists pos, (replicate (Z.to_nat pad) false ++ bytes_bits out), e, c, h, made. split; [by replace (zlen made) with dest by lia|]. split; [done|]. split; [lia|done].
  - destruct HSt as (b & more & -> & HB & HSt). set (last := match blocks with [] => true | _ => false end) in *.
    destruct (run_ops_grows size z (ops ++ concat blocks) HZ HO) as [Hg _]. rewrite HD, (fw_hist _ _ _ _ _ _ _ HF), zlen_app in Hg. zlen_pose.
    destruct (Z.ltb_spec (zlen made) dest) as [Hlt|Hge].
    2: { assert (E0 : ops ++ concat blocks = []) by (apply zlen_zero_nil; zlen_pose; lia). rewrite E0. cbn [run_ops fold_left].
         exists pos, (replicate (Z.to_nat pad) false ++ bytes_bits (b ++ more)), e, c, h, made. split; [by replace (zlen made) with dest by lia|]. split; [done|]. split; [lia|done]. }
    rewrite (M_bind_some _ _ _ _ _ (read_pos _ pos e c h)). rewrite Z.geb_leb, Z.leb_refl. unfold overran_block. rewrite M_bind_assoc, M_gets, M_guard.
    rewrite !Z.gtb_ltb, Z.ltb_irrefl, andb_false_r. cbn [negb]. unfold next_block. rewrite !M_bind_assoc, M_gets.
    change (rn_header (rs _ pos e c h)) with h. rewrite HL. rewrite bytes_bits_app in *.
    destruct (block_entered last (map op_tok ops) b pad (bytes_bits more) pos e c h HB HN Hp Hpos Hm Hall) as (t & c' & h' & pos' & pad' & rest1 & pos1 & E1 & E2 & HI & Hlt' & Ez).
    destruct HI as [I1 I2 I3 I4 I5 I6 I7 I8 I9 I10 [I11 I12]].
    rewrite M_bind_assoc, (M_bind_some _ _ (rs _ pos e c h) true (rs rest1 pos1 e c h')) by (unfold attempt; by rewrite E1). cbn [negb].
    rewrite M_bind_assoc, (M_bind_some _ _ _ _ _ E2). unfold check_tables. rewrite !M_bind_assoc, !M_gets.
    change (rn_header (rs _ pos' e c' h')) with h'. rewrite M_bind_assoc, M_gets, M_guard, I8. cbn [orb]. rewrite M_bind_assoc, M_gets.
    change (rn_header (rs _ pos' e c' h')) with h'. rewrite (M_bind_some _ _ _ (Some (block_end_bit h')) _ eq_refl). rewrite ops_ok_app in HO. apply andb_true_iff in HO as [HO1 HO2].
    destruct (run_ops_grows size z ops HZ HO1) as [Hg1 HZ1]. destruct (run_ops_grows size _ _ HZ1 HO2) as [Hg2 _]. rewrite <- run_ops_app, HD in Hg2.
    set (xs := concat (map (tok_bits t) (map op_tok ops))) in *. unfold block_left in *. fold xs in E2, Ez |- *. zlen_pose.
    assert (Lo : zlen ops <= zlen xs).
    { clear -I1 I2. unfold xs. clear xs. induction ops as [|o ops IH]; [done|]. cbn [map concat] in *. apply Forall_cons_inv in I2 as [U1 U2]. rewrite zlen_cons, zlen_app.
      pose proof (tok_nonempty t _ I1 U1). specialize (IH U2). lia. }
    rewrite zlen_app in Ez. assert (Ef : fuel = (length ops + (fuel - length ops))%nat) by (unfold zlen in *; lia). rewrite Ef, I10.
    destruct (tokens_back t ops z made (replicate (Z.to_nat pad') false ++ bytes_bits more) pos' e c' h' (fuel - length ops) budget
      (follows_rest _ _ _ _ _ HF I6) I3 I1 HZ HO1 I2 ltac:(lia)) as (e2 & c2 & made2 & E3 & HF2 & q & n & Ec2).
    cbv zeta in E3. fold xs in E3. rewrite E3, run_ops_app.
    destruct (IH (run_ops z ops) made2 more (pos' + zlen xs) pad' e2 c2 h' (fuel - length ops)%nat budget) as (end_bit & rest' & e3 & c3 & h3 & made3 & E4 & HF3 & L3 & S3); try done.
    + rewrite Ec2. by apply narrow_reps.
    + by rewrite <- run_ops_app.
    + lia.
    + by rewrite <- I10.
    + lia.
    + unfold zlen in *. lia.
    + exists end_bit, rest', e3, c3, h3, made3. split; [exact E4|]. split; [done|]. split; [done|].
      apply (same_bases_trans _ c'); [by apply same_rest_bases|]. rewrite Ec2 in S3. exact S3.
Qed.

(** From the first block header to the final flush. *)
Lemma decode_blocks_back blocks z out e c h :
  stream blocks out -> blocks <> [] ->
  ae_filters e = [] -> ae_head e = O -> h_ready (ae_win e) = true -> h_size (ae_win e) = size -> h_bytes (ae_win e) = prior -> concat (ae_sent e) = sent ->
  c_old_dist c = z_dist z -> c_last_length c = z_len z -> z_hist z = prior ->
  narrow c -> lz_ok z -> ops_ok size z (concat blocks) = true ->
  zlen (z_hist (run_ops z (concat blocks))) = zlen prior + dest -> zlen (bytes_bits out) < 2 ^ 62 ->
  exists last s, decode_blocks take_all dest base false (rs (bytes_bits out) 0 e c h) = Ok (Some (dest, last), s) /\
    prior ++ drop (length sent) (concat (ae_sent (rn_engine s))) = z_hist (run_ops z (concat blocks)) /\
    take (length sent) (concat (ae_sent (rn_engine s))) = sent /\ c_last_error (rn_core s) = c_last_error c.
Proof.
  intros HSt Hne K1 K2 K3 K4 K5 K6 K7 K8 K9 HN HZ HO HD Hall. destruct blocks as [|ops blocks]; [done|]. cbn [stream concat] in *.
  destruct HSt as (b & more & -> & HB & HSt). set (last := match blocks with [] => true | _ => false end) in *. rewrite bytes_bits_app in *. zlen_pose.
  unfold decode_blocks. rewrite M_modify. change (set_header (fun _ => BlockHeader_init) (rs ?x ?p e c h)) with (rs (bytes_bits b ++ bytes_bits more) 0 e c BlockHeader_init).
  destruct (block_entered last (map op_tok ops) b 0 (bytes_bits more) 0 e c BlockHeader_init HB HN ltac:(lia) ltac:(lia) eq_refl) as (t & c' & h' & pos' & pad' & rest1 & pos1 & E1 & E2 & HI & Hlt' & Ez); [change (replicate (Z.to_nat 0) false) with (@nil bool); cbn [app]; lia|].
  change (replicate (Z.to_nat 0) false) with (@nil bool) in E1, Ez. cbn [app] in E1, Ez. destruct HI as [I1 I2 I3 I4 I5 I6 I7 I8 I9 I10 [I11 I12]].
  rewrite (M_bind_some _ _ _ _ _ E1), (M_bind_some _ _ _ _ _ E2). unfold check_tables. rewrite !M_bind_assoc, M_gets.
  change (rn_header (rs _ pos' e c' h')) with h'. rewrite M_bind_assoc, M_gets, M_guard, I8. cbn [orb]. rewrite M_gets.
  change (rn_header (rs _ pos' e c' h')) with h'. cbv zeta.
  set (e1 := set_flushed 0 e). rewrite (M_bind_some _ _ _ tt (rs (block_left t (map op_tok ops) pad' (bytes_bits more)) pos' e1 c' h')) by done.
  rewrite (M_bind_some _ _ _ _ _ (read_pos _ pos' e1 c' h')). unfold block_left in *. set (xs := concat (map (tok_bits t) (map op_tok ops))) in *.
  rewrite zlen_app in Ez. zlen_pose. unfold overran_block. rewrite M_bind_assoc, M_gets, M_guard, Z.gtb_ltb. rewrite (Z.gtb_ltb pos'), (proj2 (Z.ltb_ge _ pos')) by (rewrite I10; lia).
  rewrite andb_false_r. cbn [negb]. rewrite (M_bind_some _ _ _ _ _ (read_remaining _ pos' e1 c' h')).
  assert (HF : following z [] e1 c').
  { destruct I6 as (S1 & S2 & _). split; [|by rewrite app_nil_r|change (0 - 0 <= size / 2); dlia|congruence|congruence]. split; cbn [e1 set_flushed ae_filters ae_head ae_win ae_flushed ae_sent]; try done; try (by rewrite app_nil_r); change (zlen (@nil Z)) with 0; lia. }
  rewrite ops_ok_app in HO. apply andb_true_iff in HO as [HO1 HO2]. destruct (run_ops_grows size z ops HZ HO1) as [Hg1 HZ1].
  destruct (run_ops_grows size _ _ HZ1 HO2) as [Hg2 _]. rewrite <- run_ops_app, HD in Hg2. rewrite run_ops_app in HD |- *.
  assert (Lo : zlen ops <= zlen xs).
  { clear -I1 I2. unfold xs. clear xs. induction ops as [|o ops IH]; [done|]. cbn [map concat] in *. apply Forall_cons_inv in I2 as [U1 U2]. rewrite zlen_cons, zlen_app.
    pose proof (tok_nonempty t _ I1 U1). specialize (IH U2). lia. }
  set (tail := replicate (Z.to_nat pad') false ++ bytes_bits more) in *. set (fuel0 := S (Z.to_nat (zlen (xs ++ tail)))).
  assert (Ef : fuel0 = (length ops + (fuel0 - length ops))%nat) by (assert (zlen ops = Z.of_nat (length ops)) by done; pose proof (zlen_nonneg tail); unfold fuel0; rewrite !zlen_app; lia). rewrite Ef, I10.
  pose proof (zlen_nonneg (concat blocks)).
  destruct (tokens_back t ops z [] tail pos' e1 c' h' (fuel0 - length ops) 0 HF I3 I1 HZ HO1 I2 ltac:(lia)) as (e2 & c2 & made2 & E3 & HF2 & q & n & Ec2).
  cbv zeta in E3. fold xs in E3. change (zlen (@nil Z)) with 0 in E3.
  destruct (blocks_back blocks (run_ops z ops) made2 more (pos' + zlen xs) pad' e2 c2 h' (fuel0 - length ops)%nat 0) as (end_bit & rest' & e3 & c3 & h3 & made3 & E4 & HF3 & L3 & S3); try done.
  { rewrite Ec2. by apply narrow_reps. } { lia. } { by rewrite <- I10. } { fold tail. lia. } { fold tail. assert (zlen ops = Z.of_nat (length ops)) by done. pose proof (zlen_nonneg tail). unfold fuel0. rewrite zlen_app. lia. }
  fold tail in E4. rewrite (M_bind_some _ _ _ _ _ (eq_trans E3 E4)).
  rewrite (M_bind_some _ _ _ _ _ (read_pos _ end_bit e3 c3 h3)). rewrite M_bind_assoc, M_gets, M_guard, !Z.gtb_ltb, Z.ltb_irrefl, andb_false_r. cbn [negb orb].
  rewrite M_gets. change (rn_header (rs rest' end_bit e3 c3 h3)) with h3. cbv zeta.
  destruct (flush_plain size dest base prior sent size_range dest_range e3 made3 true (fw_plain _ _ _ _ _ _ _ HF3) ltac:(lia)) as (e4 & E5 & HP4 & Ef4).
  rewrite L3 in E5. rewrite (M_bind_some _ _ _ tt (rs rest' end_bit e4 c3 h3)).
  2: { unfold flush, zoom. change (rn_engine (rs rest' end_bit e3 c3 h3)) with e3. by rewrite E5. }
  rewrite Z.ltb_irrefl, M_guard. cbn [andb negb]. rewrite M_gets. eexists (bh_last_block_in_file h3), _. split; [reflexivity|].
  unfold core, modify, set_core. cbn [rs rn_engine rn_core set_bases c_last_error]. destruct HP4 as [_ _ _ _ _ _ _ P8]. rewrite P8, Ef4.
  rewrite (take_ge made3) by (unfold zlen; lia). rewrite drop_app_length, take_app_length. split; [by rewrite (fw_hist _ _ _ _ _ _ _ HF3)|]. split; [done|].
  destruct S3 as (_ & _ & ->). rewrite Ec2. cbn [set_reps c_last_error]. by destruct I6 as (_ & _ & _ & _ & _ & _ & ->).
Qed.
End decoding.

(** ** From the encoder to the decoder *)

Lemma size_bytes_bytes k i size : bytes (size_bytes k i size).
Proof. revert i. induction k as [|k IH]; intros i; cbn [size_bytes]; [apply Forall_nil_2|]. apply Forall_cons_2; [by apply (wrap_range 8)|apply IH]. Qed.

Lemma block_header_ok last size bits : bytes (block_header last size bits) /\ zlen (block_header last size bits) <= 5.
Proof.
  split.
  - rewrite block_header_bytes. apply Forall_app_2; [|apply Forall_app_2; [|apply size_bytes_bytes]]; (apply Forall_cons_2; [by apply (wrap_range 8)|apply Forall_nil_2]).
  - unfold block_header, zlen. rewrite length_take. cbn [length]. pose proof (Nat.le_min_r (Z.to_nat (2 + (if size <? 256 then 1 else if size <? 65536 then 2 else 3))) 5). lia.
Qed.

Lemma stream_ok blocks out : stream blocks out -> bytes out /\ zlen out <= (2 ^ 24 + 5) * zlen blocks.
Proof.
  revert out. induction blocks as [|ops blocks IH]; intros out HS; cbn [stream] in HS; [by subst out; split; [apply Forall_nil_2|]|].
  destruct HS as (b & more & -> & (t & tables & mem & pad & -> & HM & Hs & _) & HS). destruct (IH more HS) as [I1 I2].
  destruct (block_header_ok (match blocks with [] => true | _ => false end) (zlen mem) (8 - pad)) as [H1 H2].
  split; [by repeat apply Forall_app_2|]. rewrite !zlen_app, zlen_cons. change (2 ^ 24) with 16777216 in *. lia.
Qed.

Lemma stream_nonempty ops blocks out : stream (ops :: blocks) out -> 1 <= zlen out.
Proof.
  intros (b & more & -> & (t & tables & mem & pad & -> & HM & Hs & _) & HS). rewrite !zlen_app. zlen_pose. lia.
Qed.

Definition whole_call (data : list Z) (dest : Z) : decode_call := {| dl_data := data; dl_block := false; dl_dest := dest; dl_solid := false |}.

(** The reference decoder on a stream. *)
Lemma reference_restores blocks out size declared_win :
  stream blocks out -> size < 2 ^ 62 -> declared_win <= ALLOC_LIMIT -> zlen (bytes_bits out) < 2 ^ 62 ->
  ops_ok (Z.max size 0x10000) Lz_init (concat blocks) = true ->
  let text := z_hist (run_ops Lz_init (concat blocks)) in
  0 < zlen text < 2 ^ 62 ->
  exists last d, do_call bits_of_bytes take_all (whole_call out (zlen text)) (reference_decoder size declared_win false) = Ok (Some (zlen text, last), d) /\
    concat (ae_sent (dc_engine d)) = text.
Proof.
  intros HSt Hs Hw Hall HO. cbv zeta. set (text := z_hist (run_ops Lz_init (concat blocks))). intros Ht. set (win := Z.max size 65536) in *.
  assert (Hne : blocks <> []) by (intros ->; destruct Ht as [Ht _]; by vm_compute in Ht).
  unfold do_call, decompress, whole_call. cbn [dl_data dl_block dl_dest dl_solid].
  assert (Hout : zlen out <> 0) by (destruct blocks as [|ops bl]; [done|]; pose proof (stream_nonempty _ _ _ HSt); lia).
  rewrite (proj2 (Z.eqb_neq (zlen out) 0)), (proj2 (Z.eqb_neq (zlen text) 0)) by lia. cbn [orb].
  unfold with_reader, reference_decoder, Decompressor50_init. cbn [dc_engine dc_core]. fold win.
  rewrite Z.gtb_ltb, (proj2 (Z.ltb_ge _ _)) by lia. set (c0 := {| c_old_dist := no_dist |}). set (e0 := {| ae_win := _ |}).
  assert (E1 : exists e c, decompress_internal take_all (zlen text) false false {| rn_reader := bits_of_bytes out; rn_engine := e0; rn_core := c0; rn_header := BlockHeader_init |} =
      decode_blocks take_all (zlen text) 0 false (rs (bytes_bits out) 0 e c BlockHeader_init) /\
      ae_filters e = [] /\ ae_head e = O /\ ae_win e = {| h_size := win; h_ready := true; h_bytes := [] |} /\ ae_sent e = [] /\
      c_old_dist c = no_dist /\ c_last_length c = 0 /\ narrow c).
  { eexists _, _. split.
    { unfold decompress_internal. rewrite M_gets, M_guard. cbn [rn_core c_last_error c0].
    rewrite (M_bind_some _ _ _ tt {| rn_reader := bits_of_bytes out; rn_engine := set_win e0 {| h_size := win; h_ready := true; h_bytes := [] |}; rn_core := c0; rn_header := BlockHeader_init |}) by done.
    cbn [negb orb andb]. rewrite M_modify. cbv zeta. rewrite M_bind_assoc, M_modify. unfold core at 1. rewrite M_modify.
    rewrite (proj2 (Z.eqb_neq (zlen text) 0)) by lia. reflexivity. }
    split_and!; try reflexivity. by split. }
  destruct E1 as (e & c & E1 & A1 & A2 & A3 & A4 & A5 & A6 & A7). rewrite E1.
  destruct (decode_blocks_back win (zlen text) 0 [] [] ltac:(lia) ltac:(lia) blocks Lz_init out e c BlockHeader_init HSt Hne A1 A2) as (last & s & E2 & E3 & E4 & E5);
    try done; try (by rewrite A3); try (by rewrite A4); [apply Lz_init_ok|].
  rewrite E2. exists last, {| dc_engine := rn_engine s; dc_core := rn_core s |}. split; [done|]. cbn [dc_engine]. cbn [app length drop] in E3. by rewrite drop_0 in E3.
Qed.

(** C1. The decoder restores what the encoder wrote: for any tokens the parser
    may choose - literals, matches at any distance in the window, repeats of the
    last four distances, repeats of the last match - cut into blocks in any way,
    whose expansion is [text], the encoder counts, builds its codes and writes
    every block; and the decoder, reading those bytes through any bit source
    that delivers them into the real sliding window, returns the size of
    [text] and hands the callback exactly [text], when memory is granted. *)
Theorem blocks_roundtrip (R : Type) `{BitSourceLaws R} `{MemoryLaws} (mk : list Z -> R) (accepts : list (list Z) -> list Z -> bool)
    (size declared_win : Z) (blocks : list (list Op)) (text : list Z) :
  (forall data, bytes data -> zlen data < 2 ^ 60 -> bits_abs (mk data) (bits_of_bytes data)) ->
  (forall sent chunk, accepts sent chunk = true) -> memory_grants -> size < 2 ^ 62 -> declared_win <= ALLOC_LIMIT ->
  ops_ok (Z.max size 0x10000) Lz_init (concat blocks) = true -> small_blocks blocks -> zlen blocks < 2 ^ 32 ->
  z_hist (run_ops Lz_init (concat blocks)) = text -> 0 < zlen text < 2 ^ 62 ->
  exists e last d, encode_blocks blocks Encoder_init = Ok (true, e) /\
    do_call mk (Some accepts) (whole_call (en_mem_out e) (zlen text)) (Decompressor50_init (win_init size) declared_win false) = Ok (Some (zlen text, last), d) /\
    concat (ae_sent (dc_engine d)) = text.
Proof.
  intros Hmk Hacc HM Hs Hw HO HB Hn Et Ht.
  destruct (encode_blocks_spec _ blocks Lz_init Encoder_init (cleared_recording Encoder_init) ltac:(done) Lz_init_ok HO HB) as (e & out & E1 & E2 & HSt).
  cbn [Encoder_init en_mem_out app] in E2. destruct (stream_ok _ _ HSt) as [Hb Hl]. zlen_pose.
  assert (Hl2 : zlen out < 2 ^ 57) by (change (2 ^ 24 + 5) with 16777221 in Hl; lia).
  subst text. destruct (reference_restores blocks out size declared_win HSt Hs Hw ltac:(rewrite zlen_bytes_bits; lia) HO Ht) as (last & d' & E3 & E4).
  set (text := z_hist (run_ops Lz_init (concat blocks))) in *. set (c := whole_call out (zlen text)) in *.
  assert (HC : call_ok c) by (split; [done|]; cbn [c whole_call dl_data dl_dest]; unfold SIZE_MAX; lia).
  pose proof (do_call_sim mk (Some accepts) (Z.max size 65536) c Hmk HC _ _ (reference_rel size declared_win false Hs)) as SM.
  unfold sim_at in SM. change (accept_all (Some accepts)) with take_all in SM. rewrite E3 in SM. destruct SM as (o & d & E5 & HD).
  exists e, last, d. split; [done|]. rewrite E2. fold c. destruct HD as [[-> HR]|[-> HS]].
  - split; [done|]. rewrite <- E4. apply (er_sent _ _ _ (or_engine _ _ _ HR)).
  - exfalso. destruct HS as [(acc & pre & ch & Ea & _ & Er)|[_ Hng]]; [|by apply Hng]. injection Ea as <-. by rewrite Hacc in Er.
Qed.

(** Two blocks: "ab", a match of 4 two back, the same again, "a"; a repeat of
    the last distance, a match four back and a literal. *)
Definition sample_blocks : list (list Op) :=
  [[OpLit 97; OpLit 98; OpMat 4 2; OpLast; OpLit 97]; [OpRep 0 5; OpMat 9 4; OpLit 10]].

Lemma blocks_roundtrip_witness :
  let text := z_hist (run_ops Lz_init (concat sample_blocks)) in
  text = [97; 98; 97; 98; 97; 98; 97; 98; 97; 98; 97; 98; 97; 98; 97; 98; 97; 98; 97; 98; 97; 98; 97; 98; 97; 10] /\
  exists e last d, encode_blocks sample_blocks Encoder_init = Ok (true, e) /\
    @do_call (BitReader Empty_set) Window _ (@Window_dictionary pattern_memory) BitReader_memory (Some (fun _ _ => true)) (whole_call (en_mem_out e) (zlen text))
      (Decompressor50_init (win_init 70000) 70000 false) = Ok (Some (zlen text, last), d) /\
    concat (ae_sent (dc_engine d)) = text.
Proof.
  split; [vm_compute; reflexivity|].
  apply (@blocks_roundtrip (BitReader Empty_set) _ _ pattern_memory pattern_memory_laws BitReader_memory _ 70000 70000 sample_blocks).
  - apply BitReader_memory_abs.
  - done.
  - by repeat split.
  - lia.
  - unfold ALLOC_LIMIT. lia.
  - vm_compute. reflexivity.
  - repeat first [apply Forall_cons_2; [vm_compute; discriminate|]|apply Forall_nil_2].
  - vm_compute. reflexivity.
  - reflexivity.
  - split; vm_compute; reflexivity.
Defined.
