(* ===== verification/Gf16.v ===== *)
(** The field of the recovery records: GF(2^16) of [src/recovery/rs16.hpp] and
    the table constructor [GfField] of [src/recovery/rs16.cpp].

    The tables are built by the loop of the constructor; products and inverses
    are read from them.  The 16-bit words with these operations are a field
    ([gf_field_theory]), which the Reed-Solomon code builds on through the
    interface [FieldOps]. *)

From Stdlib Require Import ZArith Lia Field Eqdep_dec.
From stdpp Require Import base tactics list numbers gmap sorting.
From S2P Require Import Prelude.

Local Open Scope Z_scope.

Definition GF_SIZE : Z := 65535.

(** ** The tables *)

(** Multiplication by alpha: [v] after one pass of the constructor's loop. *)
Definition gf_step (v : Z) : Z :=
  let carry := Z.shiftr v 15 in
  Z.lxor (Z.land (u32 (Z.shiftl v 1)) 0xFFFF) (carry * 0x100B).

Record GfField := { power : gmap Z Z; exponent : gmap Z Z }.

Fixpoint field_loop (fuel : nat) (i v : Z) (f : GfField) : GfField :=
  match fuel with
  | O => f
  | S fuel' =>
      if i <? GF_SIZE then
        field_loop fuel' (i + 1) (gf_step v)
          {| exponent := <[v := i]> (exponent f); power := <[i := u16 v]> (power f) |}
      else f
  end.

Definition shared_gf_field : GfField :=
  let f := field_loop (Z.to_nat GF_SIZE) 0 1 {| power := ∅; exponent := ∅ |} in
  {| power := power f; exponent := <[0 := 0]> (exponent f) |}.

(** [antilog_[i]] and [logarithm_[v]]; an index outside the array has no
    value. *)
Definition antilog (i : Z) : Z := default 0 (power shared_gf_field !! i).
Definition logarithm (v : Z) : Z := default 0 (exponent shared_gf_field !! v).

Definition gf_add (a b : Z) : Z := Z.lxor a b.

(** The object's pointers [logarithm_] and [antilog_] are the arguments [lg]
    and [al]; the constructor sets them to the shared tables. *)
Definition gf_mul_with (lg al : Z -> Z) (a b : Z) : Z :=
  if (a =? 0) || (b =? 0) || (a >? GF_SIZE) || (b >? GF_SIZE) then 0
  else
    let sum := u32 (lg a + lg b) in
    al (if sum >=? GF_SIZE then sum - GF_SIZE else sum).

Definition gf_inv_with (lg al : Z -> Z) (a : Z) : Z :=
  if (a =? 0) || (a >? GF_SIZE) then 0
  else
    let e := lg a in
    if e =? 0 then 1 else al (GF_SIZE - e).

Definition gf_mul : Z -> Z -> Z := gf_mul_with logarithm antilog.
Definition gf_inv : Z -> Z := gf_inv_with logarithm antilog.

(** What the code of the recovery records uses of a field; [fword] reads an
    unsigned number below 2^16 as an element. *)
Class FieldOps (F : Type) := {
  f0 : F;
  f1 : F;
  fadd : F -> F -> F;
  fmul : F -> F -> F;
  finv : F -> F;
  feqb : F -> F -> bool;
  fword : Z -> F
}.

#[export] Instance gf16_ops : FieldOps Z :=
  {| f0 := 0; f1 := 1; fadd := gf_add; fmul := gf_mul; finv := gf_inv; feqb := Z.eqb; fword := fun z => z |}.

(** ** Powers of alpha *)

Definition word (v : Z) : Prop := 0 <= v < 2 ^ 16.

Lemma gf_step_eq v : word v -> gf_step v = if v <? 2 ^ 15 then 2 * v else Z.lxor (2 * v - 2 ^ 16) 0x100B.
Proof.
  intros Hv. unfold word in Hv. unfold gf_step. cbv zeta.
  rewrite Z.shiftl_mul_pow2, Z.shiftr_div_pow2, wrap_small by lia. change 0xFFFF with (Z.ones 16). rewrite Z.land_ones by lia.
  destruct (Z.ltb_spec v (2 ^ 15)).
  - rewrite Z.div_small by lia. rewrite Z.lxor_0_r. rewrite Z.mod_small by lia. lia.
  - replace (v / 2 ^ 15) with 1 by dlia. rewrite Z.mul_1_l. f_equal. dlia.
Qed.

Lemma gf_step_word v : word v -> word (gf_step v).
Proof.
  intros Hv. rewrite gf_step_eq by done. unfold word in *. destruct (Z.ltb_spec v (2 ^ 15)); [lia|].
  apply (lxor_range 16); lia.
Qed.

Lemma gf_step_zero v : word v -> gf_step v = 0 -> v = 0.
Proof.
  intros Hv. rewrite gf_step_eq by done. unfold word in *. destruct (Z.ltb_spec v (2 ^ 15)); [lia|].
  intros E. exfalso. assert (T : Z.testbit (Z.lxor (2 * v - 2 ^ 16) 0x100B) 0 = true); [|by rewrite E, Z.bits_0 in T].
  rewrite Z.lxor_spec. replace (2 * v - 2 ^ 16) with (2 * (v - 2 ^ 15)) by lia. by rewrite Z.testbit_even_0.
Qed.

Lemma gf_step_lxor a b : word a -> word b -> gf_step (Z.lxor a b) = Z.lxor (gf_step a) (gf_step b).
Proof.
  intros Ha Hb. unfold word in *. unfold gf_step. cbv zeta. rewrite Z.shiftl_lxor, Z.shiftr_lxor.
  assert (Hc : forall v, 0 <= v < 2 ^ 16 -> Z.shiftr v 15 = 0 \/ Z.shiftr v 15 = 1)
    by (intros v Hv; rewrite Z.shiftr_div_pow2 by lia; dlia).
  assert (Hl : forall x y, Z.land (u32 (Z.lxor x y)) 0xFFFF = Z.lxor (Z.land (u32 x) 0xFFFF) (Z.land (u32 y) 0xFFFF)).
  { intros x y. rewrite !wrap_land by lia. apply Z.bits_inj'. intros i Hi.
    rewrite !Z.lxor_spec, !Z.land_spec, Z.lxor_spec. by destruct (Z.testbit x i), (Z.testbit y i), (Z.testbit (Z.ones 32) i), (Z.testbit 0xFFFF i). }
  rewrite Hl. set (la := Z.land _ _). set (lb := Z.land _ _).
  assert (Hm : Z.lxor (Z.shiftr a 15) (Z.shiftr b 15) * 0x100B = Z.lxor (Z.shiftr a 15 * 0x100B) (Z.shiftr b 15 * 0x100B)).
  { destruct (Hc a Ha) as [-> | ->], (Hc b Hb) as [-> | ->]; reflexivity. }
  rewrite Hm. clearbody la lb. set (ca := _ * _). set (cb := Z.shiftr b 15 * _). clearbody ca cb.
  rewrite !Z.lxor_assoc. f_equal. rewrite <- !Z.lxor_assoc. f_equal. apply Z.lxor_comm.
Qed.

Lemma gf_step_inj a b : word a -> word b -> gf_step a = gf_step b -> a = b.
Proof.
  intros Ha Hb E. apply Z.lxor_eq. apply gf_step_zero; [by apply (lxor_range 16)|].
  rewrite gf_step_lxor, E by done. apply Z.lxor_nilpotent.
Qed.

(** [alpha^i] applied to [v]. *)
Definition gf_pow (i : Z) (v : Z) : Z := Nat.iter (Z.to_nat i) gf_step v.
Definition alpha (i : Z) : Z := gf_pow i 1.

Lemma gf_pow_0 v : gf_pow 0 v = v.
Proof. done. Qed.

Lemma gf_pow_succ i v : 0 <= i -> gf_pow (i + 1) v = gf_step (gf_pow i v).
Proof. intros Hi. unfold gf_pow. replace (Z.to_nat (i + 1)) with (S (Z.to_nat i)) by lia. done. Qed.

Lemma gf_pow_add i j v : 0 <= i -> 0 <= j -> gf_pow (i + j) v = gf_pow i (gf_pow j v).
Proof. intros Hi Hj. unfold gf_pow. rewrite Z2Nat.inj_add by done. apply Nat.iter_add. Qed.

(** Induction on a non-negative exponent. *)
Lemma Z_ind (P : Z -> Prop) : P 0 -> (forall i, 0 <= i -> P i -> P (i + 1)) -> forall i, 0 <= i -> P i.
Proof. intros H0 Hs. apply natlike_ind; [done|]. intros i Hi. by apply Hs. Qed.

Lemma gf_pow_word i v : 0 <= i -> word v -> word (gf_pow i v).
Proof.
  intros Hi Hv. revert i Hi. apply Z_ind; [done|]. intros i Hi IH. rewrite gf_pow_succ by done. by apply gf_step_word.
Qed.

Lemma gf_pow_lxor i a b : 0 <= i -> word a -> word b -> gf_pow i (Z.lxor a b) = Z.lxor (gf_pow i a) (gf_pow i b).
Proof.
  intros Hi Ha Hb. revert i Hi. apply Z_ind; [done|]. intros i Hi IH.
  rewrite !gf_pow_succ, IH by done. apply gf_step_lxor; by apply gf_pow_word.
Qed.

Lemma gf_pow_inj i a b : 0 <= i -> word a -> word b -> gf_pow i a = gf_pow i b -> a = b.
Proof.
  intros Hi Ha Hb. revert i Hi. apply (Z_ind (fun i => gf_pow i a = gf_pow i b -> a = b)); [done|]. intros i Hi IH.
  rewrite !gf_pow_succ by done. intros E. apply IH. apply gf_step_inj; [by apply gf_pow_word..|done].
Qed.

(** The order of alpha: the powers return to 1 after 65535 steps and not
    before, one computation. *)
Fixpoint no_return (fuel : nat) (v : Z) : bool :=
  match fuel with O => v =? 1 | S fuel' => negb (v =? 1) && no_return fuel' (gf_step v) end.

Lemma no_return_run : no_return (255 + 255 * 256 - 1) (gf_step 1) = true.
Proof. vm_compute. reflexivity. Qed.

Lemma no_return_spec fuel v :
  no_return fuel v = true -> gf_pow (Z.of_nat fuel) v = 1 /\ forall k, 0 <= k < Z.of_nat fuel -> gf_pow k v <> 1.
Proof.
  revert v. induction fuel as [|fuel IH]; intros v; cbn [no_return].
  - intros H%Z.eqb_eq. split; [done|lia].
  - intros [Hn Hr]%andb_true_iff. apply negb_true_iff, Z.eqb_neq in Hn. destruct (IH _ Hr) as [H1 H2].
    assert (Hs : forall k, 0 <= k -> gf_pow (k + 1) v = gf_pow k (gf_step v)) by (intros k Hk; by rewrite gf_pow_add).
    split; [rewrite Nat2Z.inj_succ; unfold Z.succ; by rewrite Hs by lia|].
    intros k Hk. destruct (Z.eq_dec k 0) as [->|]; [done|]. replace k with (k - 1 + 1) by lia. rewrite Hs by lia. apply H2. lia.
Qed.

Lemma alpha_word i : 0 <= i -> word (alpha i).
Proof. intros Hi. by apply gf_pow_word. Qed.

Lemma alpha_order : alpha GF_SIZE = 1 /\ forall k, 0 < k < GF_SIZE -> alpha k <> 1.
Proof.
  destruct (no_return_spec _ _ no_return_run) as [H1 H2].
  assert (Hs : forall k, 1 <= k -> alpha k = gf_pow (k - 1) (gf_step 1)).
  { intros k Hk. unfold alpha. replace k with (k - 1 + 1) at 1 by lia. by rewrite gf_pow_add by lia. }
  assert (Hn : Z.of_nat (255 + 255 * 256 - 1) = GF_SIZE - 1) by (rewrite Nat2Z.inj_sub; [|apply Nat.leb_le; vm_compute; reflexivity]; rewrite Nat2Z.inj_add, Nat2Z.inj_mul; reflexivity).
  rewrite Hn in H1, H2. unfold GF_SIZE in *. split; [by rewrite Hs|]. intros k Hk. rewrite Hs by lia. apply H2. lia.
Qed.

Lemma alpha_succ i : 0 <= i -> alpha (i + 1) = gf_step (alpha i).
Proof. apply gf_pow_succ. Qed.

Lemma alpha_add i j : 0 <= i -> 0 <= j -> gf_pow i (alpha j) = alpha (i + j).
Proof. intros Hi Hj. symmetry. by apply gf_pow_add. Qed.

Lemma gf_pow_zero i : 0 <= i -> gf_pow i 0 = 0.
Proof. revert i. apply Z_ind; [done|]. intros i Hi IH. by rewrite gf_pow_succ, IH by done. Qed.

Lemma alpha_nonzero i : 0 <= i -> alpha i <> 0.
Proof.
  intros Hi E. assert (1 = 0); [|lia]. apply (gf_pow_inj i); [done| |done|]; [done|]. by rewrite gf_pow_zero.
Qed.

Lemma alpha_period i : 0 <= i -> alpha (i + GF_SIZE) = alpha i.
Proof. intros Hi. rewrite <- alpha_add by (unfold GF_SIZE; lia). by rewrite (proj1 alpha_order). Qed.

Lemma alpha_inj_lt i j : 0 <= i < j -> j < GF_SIZE -> alpha i <> alpha j.
Proof.
  intros Hi Hj E. apply (proj2 alpha_order (j - i)); [lia|]. symmetry. apply (gf_pow_inj i); [lia|done|apply alpha_word; lia|].
  rewrite alpha_add by lia. by replace (i + (j - i)) with j by lia.
Qed.

Lemma alpha_inj i j : 0 <= i < GF_SIZE -> 0 <= j < GF_SIZE -> alpha i = alpha j -> i = j.
Proof.
  intros Hi Hj E. destruct (Z.lt_trichotomy i j) as [H|[H|H]]; [|done|].
  - by destruct (alpha_inj_lt i j) as []; [lia..|].
  - by destruct (alpha_inj_lt j i) as []; [lia..|].
Qed.

(** Every nonzero word is a power: 65535 distinct powers among 65535 words. *)
Lemma alpha_surj w : 0 < w < 2 ^ 16 -> exists i, 0 <= i < GF_SIZE /\ alpha i = w.
Proof.
  intros Hw. set (pows := alpha <$> seqZ 0 GF_SIZE). set (words := seqZ 1 GF_SIZE).
  assert (Hnd : NoDup pows).
  { apply NoDup_fmap_2_strong; [|apply NoDup_seqZ]. intros i j Hi%elem_of_seqZ Hj%elem_of_seqZ. apply alpha_inj; lia. }
  assert (Hsub : pows ⊆+ words).
  { apply NoDup_submseteq; [done|]. intros x (i & -> & Hi%elem_of_seqZ)%list_elem_of_fmap. apply elem_of_seqZ.
    pose proof (alpha_word i) as Ha. pose proof (alpha_nonzero i) as Hn. unfold word, GF_SIZE in *. lia. }
  assert (Hp : pows ≡ₚ words).
  { apply submseteq_length_Permutation; [done|]. unfold pows, words. by rewrite length_fmap, !length_seqZ. }
  assert (Hin : w ∈ pows) by (rewrite Hp; apply elem_of_seqZ; unfold GF_SIZE; lia).
  apply list_elem_of_fmap in Hin as (i & -> & Hi%elem_of_seqZ). exists i. split; [lia|done].
Qed.

Lemma field_loop_tables fuel i f :
  0 <= i -> (i + Z.of_nat fuel) = GF_SIZE ->
  (forall k, 0 <= k < i -> power f !! k = Some (alpha k) /\ exponent f !! alpha k = Some k) ->
  forall k, 0 <= k < GF_SIZE ->
    power (field_loop fuel i (alpha i) f) !! k = Some (alpha k) /\
    exponent (field_loop fuel i (alpha i) f) !! alpha k = Some k.
Proof.
  revert i f. induction fuel as [|fuel IH]; intros i f Hi Hf Hinv k Hk; cbn [field_loop]; [apply Hinv; lia|].
  rewrite Nat2Z.inj_succ in Hf. destruct (Z.ltb_spec i GF_SIZE); [|lia]. rewrite <- alpha_succ by done.
  apply IH; [lia..| |done]. intros j Hj. cbn [power exponent]. assert (Hw := alpha_word i Hi). unfold word in Hw.
  rewrite (wrap_small 16 (alpha i)) by lia. destruct (decide (j = i)) as [->|Hne].
  - by rewrite !lookup_insert_eq.
  - rewrite lookup_insert_ne by done. rewrite lookup_insert_ne by (apply not_eq_sym, alpha_inj_lt; lia). apply Hinv. lia.
Qed.

Lemma tables_spec k : 0 <= k < GF_SIZE -> antilog k = alpha k /\ logarithm (alpha k) = k.
Proof.
  intros Hk. unfold antilog, logarithm, shared_gf_field.
  assert (Hn : Z.of_nat (Z.to_nat GF_SIZE) = GF_SIZE) by (apply Z2Nat.id; unfold GF_SIZE; lia).
  revert Hn. generalize (Z.to_nat GF_SIZE). intros n Hn. cbv zeta. cbn [power exponent].
  destruct (field_loop_tables n 0 {| power := ∅; exponent := ∅ |}) with (k := k) as [Hp He]; [lia..|done|].
  change (alpha 0) with 1 in Hp, He. pose proof (alpha_nonzero k) as Hz.
  rewrite lookup_insert_ne by (intros E; apply Hz; [lia|done]). by rewrite Hp, He.
Qed.

Lemma alpha_0 : alpha 0 = 1.
Proof. done. Qed.

#[global] Opaque antilog logarithm alpha gf_pow.

(** ** Reference: polynomials over GF(2) modulo x^16 + x^12 + x^3 + x + 1 *)

Definition poly_double (v : Z) : Z := if 2 * v <? 0x10000 then 2 * v else Z.lxor (2 * v) 0x1100B.

(** Shift-and-add product of [a] (the low [n] bits) and [b]. *)
Fixpoint poly_mul (n : nat) (a b : Z) : Z :=
  match n with
  | O => 0
  | S n' => Z.lxor (if Z.odd a then b else 0) (poly_mul n' (Z.div2 a) (poly_double b))
  end.

Lemma poly_double_step v : word v -> poly_double v = gf_step v.
Proof.
  intros Hv. rewrite gf_step_eq by done. unfold word in Hv. unfold poly_double.
  destruct (Z.ltb_spec (2 * v) 0x10000), (Z.ltb_spec v (2 ^ 15)); try lia.
  change 0x1100B with (Z.lxor (Z.shiftl 1 16) 0x100B). rewrite <- Z.lxor_assoc. f_equal.
  replace (2 * v) with (2 * v - 2 ^ 16 + Z.shiftl 1 16) at 1 by (change (Z.shiftl 1 16) with (2 ^ 16); lia).
  rewrite Z.add_nocarry_lxor by (apply land_shiftl_disjoint; lia).
  by rewrite Z.lxor_assoc, Z.lxor_nilpotent, Z.lxor_0_r.
Qed.

(** ** The operations in terms of powers

    The tables enter only through [tables_spec]. *)
Section Operations.

Context (lg al : Z -> Z) (Htab : forall k, 0 <= k < GF_SIZE -> al k = alpha k /\ lg (alpha k) = k).

Abbreviation gf_mul := (gf_mul_with lg al).
Abbreviation gf_inv := (gf_inv_with lg al).

Lemma word_cases w : word w -> w = 0 \/ exists i, 0 <= i < GF_SIZE /\ alpha i = w.
Proof. unfold word. intros Hw. destruct (Z.eq_dec w 0); [by left|]. right. apply alpha_surj. lia. Qed.

Lemma alpha_bounds i : 0 <= i -> 0 < alpha i <= GF_SIZE.
Proof. intros Hi. pose proof (alpha_word i Hi). pose proof (alpha_nonzero i Hi). unfold word, GF_SIZE in *. lia. Qed.

Lemma gf_mul_pow i u : 0 <= i < GF_SIZE -> word u -> gf_mul (alpha i) u = gf_pow i u.
Proof.
  intros Hi Hu. pose proof (alpha_bounds i (proj1 Hi)) as Hai.
  destruct (word_cases u Hu) as [->|(j & Hj & <-)].
  { unfold gf_mul_with. rewrite orb_true_r. cbn [orb]. by rewrite gf_pow_zero by lia. }
  pose proof (alpha_bounds j (proj1 Hj)) as Haj.
  unfold gf_mul_with. rewrite !Z.gtb_ltb. rewrite (proj2 (Z.eqb_neq (alpha i) 0)), (proj2 (Z.eqb_neq (alpha j) 0)) by lia.
  rewrite (proj2 (Z.ltb_ge GF_SIZE (alpha i))), (proj2 (Z.ltb_ge GF_SIZE (alpha j))) by lia. cbn [orb].
  rewrite (proj2 (Htab i Hi)), (proj2 (Htab j Hj)). rewrite wrap_small by (unfold GF_SIZE in *; lia).
  cbv zeta. rewrite alpha_add, Z.geb_leb by lia. destruct (Z.leb_spec GF_SIZE (i + j)).
  - rewrite (proj1 (Htab (i + j - GF_SIZE) ltac:(lia))). rewrite <- alpha_period by lia. f_equal. lia.
  - by rewrite (proj1 (Htab (i + j) ltac:(lia))).
Qed.

Lemma gf_mul_0_l u : gf_mul 0 u = 0.
Proof. done. Qed.

Lemma gf_mul_comm a b : gf_mul a b = gf_mul b a.
Proof.
  unfold gf_mul_with. rewrite (Z.add_comm (lg a)).
  destruct (a =? 0), (b =? 0), (a >? GF_SIZE), (b >? GF_SIZE); cbn [orb]; reflexivity.
Qed.

Lemma gf_mul_0_r u : gf_mul u 0 = 0.
Proof. by rewrite gf_mul_comm. Qed.

Lemma gf_mul_word a b : word a -> word b -> word (gf_mul a b).
Proof.
  intros Ha Hb. destruct (word_cases a Ha) as [->|(i & Hi & <-)]; [by rewrite gf_mul_0_l|].
  rewrite gf_mul_pow by done. apply gf_pow_word; [lia|done].
Qed.

Lemma gf_mul_1_l a : word a -> gf_mul 1 a = a.
Proof. intros Ha. rewrite <- alpha_0 at 1. rewrite gf_mul_pow; [apply gf_pow_0|unfold GF_SIZE; lia|done]. Qed.

Lemma gf_mul_alphas i j : 0 <= i < GF_SIZE -> 0 <= j < GF_SIZE -> gf_mul (alpha i) (alpha j) = alpha (i + j).
Proof. intros Hi Hj. rewrite gf_mul_pow by (done || apply alpha_word; lia). apply alpha_add; lia. Qed.

(** A power of alpha is a power below the order. *)
Lemma alpha_mod i : 0 <= i -> exists r, 0 <= r < GF_SIZE /\ alpha i = alpha r.
Proof.
  intros Hi. destruct (word_cases (alpha i)) as [E|(r & Hr & E)]; [by apply alpha_word|by apply alpha_nonzero in E|].
  by exists r.
Qed.

Lemma gf_mul_assoc a b c : word a -> word b -> word c -> gf_mul a (gf_mul b c) = gf_mul (gf_mul a b) c.
Proof.
  intros Ha Hb Hc. destruct (word_cases a Ha) as [->|(i & Hi & <-)]; [by rewrite !gf_mul_0_l|].
  destruct (word_cases b Hb) as [->|(j & Hj & <-)]; [by rewrite gf_mul_0_l, gf_mul_0_r, gf_mul_0_l|].
  destruct (word_cases c Hc) as [->|(k & Hk & <-)]; [by rewrite gf_mul_0_r, gf_mul_0_r, gf_mul_0_r|].
  rewrite (gf_mul_comm (gf_mul (alpha i) (alpha j)) (alpha k)). rewrite (gf_mul_alphas j k), (gf_mul_alphas i j) by done.
  rewrite !gf_mul_pow, !alpha_add by (lia || apply alpha_word; lia). f_equal. lia.
Qed.

Lemma gf_mul_add_r a b c : word a -> word b -> word c -> gf_mul a (gf_add b c) = gf_add (gf_mul a b) (gf_mul a c).
Proof.
  intros Ha Hb Hc. destruct (word_cases a Ha) as [->|(i & Hi & <-)]; [done|]. unfold gf_add.
  rewrite !gf_mul_pow by (done || by apply (lxor_range 16)). apply gf_pow_lxor; [lia|done..].
Qed.

Lemma gf_mul_add_l a b c : word a -> word b -> word c -> gf_mul (gf_add a b) c = gf_add (gf_mul a c) (gf_mul b c).
Proof. intros Ha Hb Hc. rewrite (gf_mul_comm (gf_add a b)), (gf_mul_comm a), (gf_mul_comm b). by apply gf_mul_add_r. Qed.

Lemma gf_inv_word a : word a -> word (gf_inv a).
Proof.
  intros Ha. destruct (word_cases a Ha) as [->|(i & Hi & <-)]; [done|]. unfold gf_inv_with. destruct (_ || _); [done|].
  rewrite (proj2 (Htab i Hi)). cbv zeta. destruct (Z.eqb_spec i 0); [done|].
  rewrite (proj1 (Htab (GF_SIZE - i) ltac:(lia))). apply alpha_word. lia.
Qed.

Lemma gf_inv_l a : word a -> a <> 0 -> gf_mul (gf_inv a) a = 1.
Proof.
  intros Ha Hn. destruct (word_cases a Ha) as [->|(i & Hi & <-)]; [done|]. unfold word in Ha.
  assert (Hv : gf_inv (alpha i) = if i =? 0 then 1 else alpha (GF_SIZE - i)).
  { unfold gf_inv_with. rewrite (proj2 (Z.eqb_neq _ _)) by done. rewrite Z.gtb_ltb, (proj2 (Z.ltb_ge _ _)) by (unfold GF_SIZE; lia).
    rewrite (proj2 (Htab i Hi)). cbn [orb]. cbv zeta. destruct (Z.eqb_spec i 0); [done|].
    by rewrite (proj1 (Htab (GF_SIZE - i) ltac:(lia))). }
  rewrite Hv. destruct (Z.eqb_spec i 0) as [->|]; [rewrite alpha_0; apply gf_mul_1_l; done|].
  rewrite gf_mul_pow, alpha_add by (lia || apply alpha_word; lia). replace (GF_SIZE - i + i) with GF_SIZE by lia. apply alpha_order.
Qed.

Lemma gf_mul_double a b : word a -> 2 * a < 2 ^ 16 -> word b -> gf_mul (2 * a) b = gf_mul a (gf_step b).
Proof.
  intros Ha Hl Hb. unfold word in Ha. 
  assert (Hs : forall v, word v -> gf_mul (alpha 1) v = gf_step v).
  { intros v Hv. etransitivity; [apply (gf_mul_pow); [unfold GF_SIZE; lia|done]|].
    change 1 with (0 + 1). by rewrite gf_pow_succ, gf_pow_0. }
  assert (Hw : word (alpha 1)) by (apply alpha_word; lia).
  replace (2 * a) with (gf_mul (alpha 1) a).
  2: { rewrite Hs, gf_step_eq by done. destruct (Z.ltb_spec a (2 ^ 15)); lia. }
  rewrite <- (Hs b Hb). rewrite (gf_mul_comm (alpha 1) a).
  symmetry. by apply (gf_mul_assoc).
Qed.

Lemma gf_mul_poly n a b :
  0 <= a < 2 ^ Z.of_nat n -> Z.of_nat n <= 16 -> word b -> gf_mul a b = poly_mul n a b.
Proof.
  revert a b. induction n as [|n IH]; intros a b Ha Hn Hb; cbn [poly_mul].
  - replace a with 0 by lia. apply gf_mul_0_l.
  - rewrite Nat2Z.inj_succ in Ha, Hn. rewrite Z.pow_succ_r in Ha by lia.
    pose proof (Z.pow_le_mono_r 2 (Z.of_nat n) 15 ltac:(lia) ltac:(lia)) as Hp.
    pose proof (Z.div2_odd a) as Hd. assert (Hq : 0 <= Z.div2 a < 2 ^ Z.of_nat n) by (destruct (Z.odd a); cbn [Z.b2z] in Hd; lia).
    assert (Hwd : word (Z.div2 a)) by (unfold word; lia). assert (Hw2 : word (2 * Z.div2 a)) by (unfold word; lia).
    rewrite poly_double_step, <- IH by (done || lia || by apply gf_step_word).
    rewrite <- gf_mul_double by (done || lia).
    assert (Hx : a = gf_add (if Z.odd a then 1 else 0) (2 * Z.div2 a)).
    { rewrite Hd at 1. unfold gf_add. rewrite Z.lxor_comm, <- Z.add_nocarry_lxor.
      - destruct (Z.odd a); done.
      - destruct (Z.odd a); [|apply Z.land_0_r]. apply Z.bits_inj'. intros k Hk. rewrite Z.land_spec, Z.bits_0.
        destruct (Z.eq_dec k 0) as [->|]; [by rewrite Z.testbit_even_0|]. change 1 with (2 ^ 0).
        rewrite Z.pow2_bits_false by lia. apply andb_false_r. }
    rewrite Hx at 1. transitivity (gf_add (gf_mul (if Z.odd a then 1 else 0) b) (gf_mul (2 * Z.div2 a) b)).
    + apply (gf_mul_add_l); [by destruct (Z.odd a)|done..].
    + unfold gf_add. f_equal. destruct (Z.odd a); [by apply (gf_mul_1_l)|apply gf_mul_0_l].
Qed.

(** A product of a power of two that stays below 2^16. *)
Lemma gf_mul_pow2 k y : 0 <= k -> 0 <= y -> 2 ^ k * y < 2 ^ 16 -> k < 16 -> gf_mul (2 ^ k) y = 2 ^ k * y.
Proof.
  intros Hk. revert k Hk y. apply (Z_ind (fun k => forall y, 0 <= y -> 2 ^ k * y < 2 ^ 16 -> k < 16 -> gf_mul (2 ^ k) y = 2 ^ k * y)).
  - intros y Hy H _. rewrite Z.pow_0_r in *. rewrite gf_mul_1_l by (unfold word; lia). lia.
  - intros k Hk IH y Hy H Hk'. rewrite Z.pow_add_r, (Z.mul_comm (2 ^ k)) in * by lia. change (2 ^ 1) with 2 in *.
    pose proof (Z.pow_le_mono_r 2 (k + 1) 15 ltac:(lia) ltac:(lia)) as Hp. rewrite Z.pow_add_r in Hp by lia. change (2 ^ 1) with 2 in Hp.
    pose proof (Z.pow_pos_nonneg 2 k ltac:(lia) Hk). assert (Hyw : 2 * y < 2 ^ 16) by nia.
    rewrite gf_mul_double by (unfold word; lia). rewrite gf_step_eq by (unfold word; lia).
    destruct (Z.ltb_spec y (2 ^ 15)); [|lia]. rewrite IH by nia. lia.
Qed.

Lemma gf_words_field_spec a b c :
  word a -> word b -> word c ->
  word (gf_add a b) /\ word (gf_mul a b) /\ word (gf_inv a) /\
  gf_mul a b = poly_mul 16 a b /\
  gf_mul a (gf_mul b c) = gf_mul (gf_mul a b) c /\ gf_mul a b = gf_mul b a /\
  gf_mul (gf_add a b) c = gf_add (gf_mul a c) (gf_mul b c) /\
  (a <> 0 -> gf_mul a (gf_inv a) = 1).
Proof.
  intros Ha Hb Hc. split; [by apply (lxor_range 16)|]. split; [by apply gf_mul_word|]. split; [by apply gf_inv_word|].
  split; [by apply gf_mul_poly|]. split; [by apply gf_mul_assoc|]. split; [apply gf_mul_comm|].
  split; [by apply gf_mul_add_l|]. intros Hn. rewrite gf_mul_comm. by apply gf_inv_l.
Qed.

End Operations.

(** ** The field of 16-bit words *)

Definition wordb (z : Z) : bool := (0 <=? z) && (z <? 2 ^ 16).

Definition gf : Type := { z : Z | wordb z = true }.

Lemma wordb_word z : wordb z = true <-> word z.
Proof. unfold wordb, word. rewrite andb_true_iff, Z.leb_le, Z.ltb_lt. done. Qed.

Lemma gf_eq (a b : gf) : proj1_sig a = proj1_sig b -> a = b.
Proof. destruct a as [a Ha], b as [b Hb]. cbn. intros ->. f_equal. apply UIP_dec, Bool.bool_dec. Qed.

Lemma gf_word (a : gf) : word (proj1_sig a).
Proof. exact (proj1 (wordb_word _) (proj2_sig a)). Qed.

Definition gf_of (z : Z) (H : word z) : gf := exist _ z (proj2 (wordb_word z) H).

#[export] Instance gf_ops : FieldOps gf :=
  {| f0 := gf_of 0 ltac:(done); f1 := gf_of 1 ltac:(done);
     fadd a b := gf_of (gf_add (proj1_sig a) (proj1_sig b)) (lxor_range 16 _ _ ltac:(lia) (gf_word a) (gf_word b));
     fmul a b := gf_of (gf_mul (proj1_sig a) (proj1_sig b)) (gf_mul_word _ _ tables_spec _ _ (gf_word a) (gf_word b));
     finv a := gf_of (gf_inv (proj1_sig a)) (gf_inv_word _ _ tables_spec _ (gf_word a));
     feqb a b := proj1_sig a =? proj1_sig b;
     fword z := gf_of (u16 z) (wrap_range 16 z ltac:(lia)) |}.

(** The laws the Reed-Solomon code relies on: a field in which subtraction is
    addition. *)
Class Char2Field (F : Type) `{FieldOps F} : Prop := {
  char2_theory : field_theory f0 f1 fadd fmul fadd (fun x : F => x) (fun a b => fmul a (finv b)) finv eq;
  feqb_spec : forall a b : F, feqb a b = true <-> a = b;
  fword_inj : forall a b, word a -> word b -> fword a = fword b -> a = b
}.

#[global] Opaque gf_mul gf_inv.

#[export] Instance gf_char2 : Char2Field gf.
Proof.
  split; [|intros a b; cbn [feqb gf_ops]; rewrite Z.eqb_eq; split; [apply gf_eq|by intros ->]|].
  2: { intros a b Ha Hb E. apply (f_equal (@proj1_sig _ _)) in E. cbn [fword gf_ops gf_of proj1_sig] in E.
    by rewrite !wrap_small in E by (done || exact Ha || exact Hb). }
  split; [split| | |].
  - intros a. apply gf_eq. exact (Z.lxor_0_l _).
  - intros a b. apply gf_eq. exact (Z.lxor_comm _ _).
  - intros a b c. apply gf_eq. exact (eq_sym (Z.lxor_assoc _ _ _)).
  - intros a. apply gf_eq. exact (gf_mul_1_l _ _ tables_spec _ (gf_word a)).
  - intros a b. apply gf_eq. exact (gf_mul_comm _ _ _ _).
  - intros a b c. apply gf_eq. exact (gf_mul_assoc _ _ tables_spec _ _ _ (gf_word a) (gf_word b) (gf_word c)).
  - intros a b c. apply gf_eq. exact (gf_mul_add_l _ _ tables_spec _ _ _ (gf_word a) (gf_word b) (gf_word c)).
  - intros a b. reflexivity.
  - intros a. apply gf_eq. exact (Z.lxor_nilpotent _).
  - intros E. apply (f_equal (@proj1_sig _ _)) in E. discriminate E.
  - intros a b. reflexivity.
  - intros a Ha. apply gf_eq. apply (gf_inv_l _ _ tables_spec _ (gf_word a)). intros E. apply Ha. by apply gf_eq.
Qed.

(** The laws at the shared tables. *)
Lemma gf_mul_closed a b : word a -> word b -> word (gf_mul a b).
Proof. exact (gf_mul_word _ _ tables_spec a b). Qed.

Lemma gf_mul_lxor c a b : word c -> word a -> word b -> gf_mul c (Z.lxor a b) = Z.lxor (gf_mul c a) (gf_mul c b).
Proof. exact (gf_mul_add_r _ _ tables_spec c a b). Qed.

Lemma gf_mul_associative a b c : word a -> word b -> word c -> gf_mul a (gf_mul b c) = gf_mul (gf_mul a b) c.
Proof. exact (gf_mul_assoc _ _ tables_spec a b c). Qed.

Lemma gf_mul_zero_l b : gf_mul 0 b = 0.
Proof. exact (gf_mul_0_l _ _ b). Qed.

Lemma gf_mul_zero_r a : gf_mul a 0 = 0.
Proof. exact (gf_mul_0_r _ _ a). Qed.

Lemma gf_mul_256 y : is_byte y -> gf_mul 256 y = 256 * y.
Proof. intros Hy. unfold is_byte in Hy. apply (gf_mul_pow2 _ _ tables_spec 8); lia. Qed.

(** C38. The 16-bit words with the code's operations are the field
    GF(2)[x]/(x^16+x^12+x^3+x+1): sums, products and inverses of words are
    words; the product read from the logarithm tables is the product of
    polynomials modulo that polynomial, for every pair of words; it is
    associative, commutative and distributes over addition; and a nonzero word
    times its inverse is 1. *)
Theorem gf_words_field a b c :
  word a -> word b -> word c ->
  word (gf_add a b) /\ word (gf_mul a b) /\ word (gf_inv a) /\
  gf_mul a b = poly_mul 16 a b /\
  gf_mul a (gf_mul b c) = gf_mul (gf_mul a b) c /\ gf_mul a b = gf_mul b a /\
  gf_mul (gf_add a b) c = gf_add (gf_mul a c) (gf_mul b c) /\
  (a <> 0 -> gf_mul a (gf_inv a) = 1).
Proof. exact (gf_words_field_spec _ _ tables_spec a b c). Qed.

Lemma gf_words_field_witness :
  let a := 0x1234 in let b := 0xFFFF in
  poly_mul 16 a b = 0x5508 /\ gf_mul a b = poly_mul 16 a b /\ gf_mul a (gf_inv a) = 1.
Proof.
  destruct (gf_words_field 0x1234 0xFFFF 2) as (_ & _ & _ & Hm & _ & _ & _ & Hi); [done..|].
  split; [vm_compute; reflexivity|]. split; [exact Hm|]. apply Hi. done.
Defined.
