(* ===== verification/Linear.v ===== *)
(** Finite sums over a field of characteristic two, and the
    triviality of the kernel of a Cauchy matrix: what the proofs about
    [src/recovery/rs16.cpp] share.  The [ring] and [field] tactics decide
    identities of characteristic two here ([char2_morph] gives them the
    coefficients modulo 2). *)

From Stdlib Require Import ZArith Lia Field Ring Bool.
From stdpp Require Import base tactics list numbers.
From S2P Require Import Prelude Loops Gf16.

Local Open Scope Z_scope.

(** ** Fields of characteristic two *)

(** The constants of [ring]. *)
Ltac fcst t :=
  match t with @f0 _ _ => constr:(false) | @f1 _ _ => constr:(true) | _ => constr:(InitialRing.NotConstant) end.

Section Char2.
Context {F : Type} {O : FieldOps F} {C : Char2Field F}.

Definition fsub : F -> F -> F := fadd.
Definition fopp (a : F) : F := a.
Definition fdiv (a b : F) : F := fmul a (finv b).
Definition f_of_bool (b : bool) : F := if b then f1 else f0.

Lemma char2_field : field_theory f0 f1 fadd fmul fsub fopp fdiv finv (@eq F).
Proof. exact char2_theory. Qed.

Lemma char2_morph : ring_morph f0 f1 fadd fmul fsub fopp (@eq F) false true xorb andb xorb (fun b => b) Bool.eqb f_of_bool.
Proof.
  destruct char2_field as [[A0 Ac Aa M1 Mc Ma D Sd Od] ? ? ?].
  assert (A0r : forall x, fadd x f0 = x) by (intros x; by rewrite Ac).
  assert (M0 : forall x, fmul f0 x = f0).
  { intros x. transitivity (fmul (fadd f0 f0) x); [by rewrite A0|]. rewrite D. apply Od. }
  split; try done.
  - intros [] []; cbn; rewrite ?A0, ?A0r; try done; symmetry; apply Od.
  - intros [] []; unfold fsub; cbn; rewrite ?A0, ?A0r; try done; symmetry; apply Od.
  - intros [] []; cbn; rewrite ?M0, ?M1; done.
  - by intros x y ->%eqb_prop.
Qed.

Add Field char2_field_inst : char2_field (morphism char2_morph, constants [fcst]).

Lemma fadd_eq a b : fadd a b = f0 -> a = b.
Proof. intros H. transitivity (fadd (fadd a b) b); [ring|]. rewrite H. ring. Qed.

Lemma fmul_zero a b : fmul a b = f0 -> a <> f0 -> b = f0.
Proof. intros H Ha. transitivity (fmul (finv a) (fmul a b)); [by field|]. rewrite H. ring. Qed.

Lemma finv_nonzero a : a <> f0 -> finv a <> f0.
Proof.
  intros Ha E. apply (F_1_neq_0 char2_field). transitivity (fmul (finv a) a); [by field|]. rewrite E. ring.
Qed.

(** ** Sums *)

Definition fsum (a n : Z) (f : Z -> F) : F := for_range a n (fun j acc => fadd acc (f j)) f0.

Lemma fsum_empty a n f : n <= a -> fsum a n f = f0.
Proof. apply for_range_empty. Qed.

Lemma fsum_snoc a n f : a <= n -> fsum a (n + 1) f = fadd (fsum a n f) (f n).
Proof. intros Hn. unfold fsum. by rewrite for_range_snoc. Qed.

Lemma fsum_ext a n f g : (forall j, a <= j < n -> f j = g j) -> fsum a n f = fsum a n g.
Proof. intros H. apply for_range_ext. intros i t Hi. by rewrite H. Qed.

(** Induction on the end of a range, [n <= a] included. *)
Lemma fsum_ind (P : Z -> Prop) a n :
  (forall i, i <= a -> P i) -> (forall i, a <= i < n -> P i -> P (i + 1)) -> P n.
Proof. intros H0 Hs. destruct (Z.le_gt_cases a n) as [Hn|]; [|apply H0; lia]. apply (range_ind P a); [done|by apply H0|done]. Qed.

(** An accumulating loop adds the sum to its start. *)
Lemma for_range_acc a n f acc : for_range a n (fun j acc => fadd acc (f j)) acc = fadd acc (fsum a n f).
Proof.
  apply (fsum_ind (fun n => for_range a n (fun j acc => fadd acc (f j)) acc = fadd acc (fsum a n f)) a n).
  - intros i Hi. rewrite for_range_empty, fsum_empty by lia. ring.
  - intros i Hi IH. rewrite for_range_snoc, IH, fsum_snoc by lia. ring.
Qed.

Lemma fsum_add a n f g : fsum a n (fun j => fadd (f j) (g j)) = fadd (fsum a n f) (fsum a n g).
Proof.
  apply (fsum_ind (fun n => fsum a n (fun j => fadd (f j) (g j)) = fadd (fsum a n f) (fsum a n g)) a n).
  - intros i Hi. rewrite !fsum_empty by lia. ring.
  - intros i Hi IH. rewrite !fsum_snoc, IH by lia. ring.
Qed.

Lemma fsum_mul a n c f : fsum a n (fun j => fmul c (f j)) = fmul c (fsum a n f).
Proof.
  apply (fsum_ind (fun n => fsum a n (fun j => fmul c (f j)) = fmul c (fsum a n f)) a n).
  - intros i Hi. rewrite !fsum_empty by lia. ring.
  - intros i Hi IH. rewrite !fsum_snoc, IH by lia. ring.
Qed.

Lemma fsum_zero a n f : (forall j, a <= j < n -> f j = f0) -> fsum a n f = f0.
Proof.
  intros H. rewrite (fsum_ext a n f (fun j => fmul f0 f0)) by (intros j Hj; rewrite H by done; ring).
  rewrite fsum_mul. ring.
Qed.

Lemma fsum_split a m n f : a <= m <= n -> fsum a n f = fadd (fsum a m f) (fsum m n f).
Proof.
  intros Hm. apply (range_ind (fun n => fsum a n f = fadd (fsum a m f) (fsum m n f)) m n); [lia| |].
  - rewrite (fsum_empty m m) by lia. ring.
  - intros i Hi IH. rewrite !fsum_snoc, IH by lia. ring.
Qed.

Lemma fsum_at a n k f : a <= k < n -> (forall j, a <= j < n -> j <> k -> f j = f0) -> fsum a n f = f k.
Proof.
  intros Hk H. rewrite (fsum_split a k n), (fsum_split k (k + 1) n), fsum_snoc, (fsum_empty k k) by lia.
  rewrite (fsum_zero a k), (fsum_zero (k + 1) n) by (intros j Hj; apply H; lia). ring.
Qed.

Lemma fsum_swap a n b m (f : Z -> Z -> F) :
  fsum a n (fun i => fsum b m (fun j => f i j)) = fsum b m (fun j => fsum a n (fun i => f i j)).
Proof.
  apply (fsum_ind (fun n => fsum a n (fun i => fsum b m (fun j => f i j)) = fsum b m (fun j => fsum a n (fun i => f i j))) a n).
  - intros i Hi. rewrite fsum_empty by lia. symmetry. apply fsum_zero. intros j _. by apply fsum_empty.
  - intros i Hi IH. rewrite fsum_snoc, IH, <- fsum_add by lia. apply fsum_ext. intros j _. by rewrite fsum_snoc by lia.
Qed.

(** ** Cauchy matrices *)

Definition distinct (n : Z) (x : Z -> F) : Prop := forall i k, 0 <= i < n -> 0 <= k < n -> i <> k -> fadd (x i) (x k) <> f0.

Lemma cauchy_step (xi xm yj ym v : F) :
  fadd xi yj <> f0 -> fadd xm yj <> f0 ->
  fmul (fadd xi xm) (fmul (fmul (fmul v (fadd yj ym)) (finv (fadd xm yj))) (finv (fadd xi yj))) =
  fadd (fmul (fadd xi ym) (fmul v (finv (fadd xi yj)))) (fmul (fadd xm ym) (fmul v (finv (fadd xm yj)))).
Proof. intros H1 H2. field. by split. Qed.

Lemma cauchy_kernel n (x y v : Z -> F) :
  0 <= n -> distinct n x -> distinct n y -> (forall i j, 0 <= i < n -> 0 <= j < n -> fadd (x i) (y j) <> f0) ->
  (forall i, 0 <= i < n -> fsum 0 n (fun j => fmul (v j) (finv (fadd (x i) (y j)))) = f0) ->
  forall j, 0 <= j < n -> v j = f0.
Proof.
  intros Hn. revert v. revert n Hn. apply (Z_ind (fun n => forall v, distinct n x -> distinct n y -> _ -> _ -> forall j, 0 <= j < n -> v j = f0)); [lia|].
  intros m Hm IH v Dx Dy Dxy Hsum.
  set (S i := fsum 0 m (fun j => fmul (v j) (finv (fadd (x i) (y j))))).
  assert (HS : forall i, 0 <= i < m + 1 -> fmul (fadd (x i) (y m)) (S i) = v m).
  { intros i Hi. pose proof (Hsum i Hi) as E. rewrite fsum_snoc in E by lia. apply fadd_eq in E.
    unfold S. rewrite E. field. apply Dxy; lia. }
  assert (Hlow : forall j, 0 <= j < m -> v j = f0).
  { intros j Hj. set (w j := fmul (fmul (v j) (fadd (y j) (y m))) (finv (fadd (x m) (y j)))).
    assert (Hw : w j = f0).
    { apply IH; [intros i k Hi Hk; apply Dx; lia|intros i k Hi Hk; apply Dy; lia|intros i k Hi Hk; apply Dxy; lia| |done].
      intros i Hi. apply (fmul_zero (fadd (x i) (x m))); [|apply Dx; lia].
      rewrite <- fsum_mul. transitivity (fadd (fmul (fadd (x i) (y m)) (S i)) (fmul (fadd (x m) (y m)) (S m))).
      - unfold S. rewrite <- !fsum_mul, <- fsum_add. apply fsum_ext. intros k Hk. apply cauchy_step; apply Dxy; lia.
      - rewrite !HS by lia. ring. }
    apply (fmul_zero (fmul (fadd (y j) (y m)) (finv (fadd (x m) (y j))))).
    - rewrite <- Hw. unfold w. ring.
    - intros E. apply fmul_zero in E; [|apply Dy; lia]. revert E. apply finv_nonzero, Dxy; lia. }
  intros j Hj. destruct (Z.eq_dec j m) as [->|]; [|apply Hlow; lia].
  rewrite <- (HS m) by lia. unfold S. rewrite fsum_zero; [ring|]. intros k Hk. rewrite Hlow by done. ring.
Qed.

End Char2.
