(* ===== verification/Rs16.v ===== *)
(** The Cauchy Reed-Solomon erasure code of [src/recovery/rs16.cpp]: matrix
    inversion, the parity and recovery coefficients and [init].

    A [std::vector] is a list; a matrix is the flat vector the code keeps, read
    at [row * stride + col].  Definitions are written over the operations of
    [Gf16.FieldOps]: at [Z] they are the code, at [Gf16.gf] the same code over
    the field of words, and [*_word] lemmas relate the two. *)

From Stdlib Require Import ZArith Lia Field Ring Bool.
From stdpp Require Import base tactics list numbers.
From S2P Require Import Prelude Gf16 Loops Linear.

Local Open Scope Z_scope.

(** ** Vectors *)

Definition vget {A} (d : A) (v : list A) (k : Z) : A := default d (v !! Z.to_nat k).
Definition vset {A} (v : list A) (k : Z) (x : A) : list A := <[Z.to_nat k := x]> v.
Definition assign {A} (n : Z) (x : A) : list A := replicate (Z.to_nat n) x.
Definition resize {A} (d : A) (v : list A) (n : Z) : list A :=
  take (Z.to_nat n) v ++ replicate (Z.to_nat n - length v) d.

Section Code.
Context {F : Type} {FO : FieldOps F}.

Abbreviation get := (vget (A := F) f0).

(** *** [invert_square] *)

Fixpoint find_pivot (fuel : nat) (lu : list F) (n col sel : Z) : Z :=
  match fuel with
  | O => sel
  | S fuel' =>
      if (sel <? n) && feqb (get lu (sel * n + col)) f0 then find_pivot fuel' lu n col (sel + 1) else sel
  end.

Definition swap_ranges (lu : list F) (n sel col : Z) : list F :=
  for_range 0 n
    (fun j lu =>
       let a := get lu (sel * n + j) in
       let b := get lu (col * n + j) in
       vset (vset lu (sel * n + j) b) (col * n + j) a)
    lu.

Definition eliminate_row (n col : Z) (pivot_inverse : F) (row : Z) (lu : list F) : list F :=
  let factor := fmul (get lu (row * n + col)) pivot_inverse in
  let lu := vset lu (row * n + col) factor in
  if feqb factor f0 then lu
  else
    for_range (col + 1) n
      (fun j lu => vset lu (row * n + j) (fadd (get lu (row * n + j)) (fmul factor (get lu (col * n + j)))))
      lu.

Definition lu_column (n col : Z) (st : list F * list Z) : option (list F * list Z) :=
  let '(lu, original_row) := st in
  let sel := find_pivot (Z.to_nat (n - col)) lu n col col in
  if sel =? n then None
  else
    let '(lu, original_row) :=
      if sel =? col then (lu, original_row)
      else
        (swap_ranges lu n sel col,
         let a := vget 0 original_row sel in
         let b := vget 0 original_row col in
         vset (vset original_row sel b) col a) in
    let pivot_inverse := finv (get lu (col * n + col)) in
    Some (for_range (col + 1) n (eliminate_row n col pivot_inverse) lu, original_row).

Definition lu_factor (m : list F) (n : Z) : option (list F * list Z) :=
  for_range 0 n
    (fun col st => match st with Some st => lu_column n col st | None => None end)
    (Some (m, for_range 0 n (fun i rows => vset rows i i) (assign n 0))).

Definition solve_forward (lu : list F) (original_row : list Z) (n c : Z) (interim : list F) : list F :=
  for_range 0 n
    (fun row interim =>
       vset interim row
         (for_range 0 row (fun j acc => fadd acc (fmul (get lu (row * n + j)) (get interim j)))
            (if vget 0 original_row row =? c then f1 else f0)))
    interim.

Definition solve_back (lu : list F) (n c : Z) (interim inverse : list F) : list F :=
  for_down n
    (fun row inverse =>
       let acc :=
         for_range (row + 1) n
           (fun j acc => fadd acc (fmul (get lu (row * n + j)) (get inverse (j * n + c))))
           (get interim row) in
       vset inverse (row * n + c) (fmul acc (finv (get lu (row * n + row)))))
    inverse.

Definition invert_square (m : list F) (n : Z) : option (list F) :=
  match lu_factor m n with
  | None => None
  | Some (lu, original_row) =>
      Some
        (snd
           (for_range 0 n
              (fun c '(interim, inverse) =>
                 let interim := solve_forward lu original_row n c interim in
                 (interim, solve_back lu n c interim inverse))
              (assign n f0, assign (n * n) f0)))
  end.

(** *** Coefficients *)

Record ReedSolomon16 := {
  nd : Z;
  nr : Z;
  ne : Z;
  valid_flags : list bool;
  mx : list F
}.

Definition fill_parity_coefficients (rs : ReedSolomon16) : list F :=
  for_range 0 (nr rs)
    (fun i m =>
       let x_coord := u32 (nd rs + i) in
       for_range 0 (nd rs)
         (fun d m => vset m (i * nd rs + d) (finv (fadd (fword x_coord) (fword d))))
         m)
    (mx rs).

(** The first [limit] slots of a range whose flag is [want], in order. *)
Definition collect_slots (flags : list bool) (want : bool) (first last limit : Z) : Z * list Z :=
  for_range first last
    (fun slot '(e, slots) =>
       if e <? limit then
         if Bool.eqb (vget false flags slot) want then (e + 1, vset slots e slot) else (e, slots)
       else (e, slots))
    (0, assign limit 0).

Definition system_matrix (ne : Z) (substitutes erased : list Z) : list F :=
  for_range 0 ne
    (fun i m =>
       for_range 0 ne
         (fun r m => vset m (i * ne + r) (finv (fadd (fword (vget 0 substitutes i)) (fword (vget 0 erased r)))))
         m)
    (assign (ne * ne) f0).

Definition recovery_row (rs : ReedSolomon16) (substitutes erased : list Z) (system : list F) (k : Z) (m : list F)
  : list F :=
  let m :=
    for_range 0 (nd rs)
      (fun d m =>
         if negb (vget false (valid_flags rs) d) then m
         else
           vset m (k * nd rs + d)
             (for_range 0 (ne rs)
                (fun i acc =>
                   fadd acc
                     (fmul (get system (k * ne rs + i)) (finv (fadd (fword (vget 0 substitutes i)) (fword d)))))
                f0))
      m in
  for_range 0 (ne rs)
    (fun r m => vset m (k * nd rs + vget 0 erased r) (get system (k * ne rs + r)))
    m.

Definition derive_recovery_coefficients (rs : ReedSolomon16) : list F :=
  let '(e, erased) := collect_slots (valid_flags rs) false 0 (nd rs) (ne rs) in
  let '(p, substitutes) := collect_slots (valid_flags rs) true (nd rs) (u32 (nd rs + nr rs)) (ne rs) in
  let zero := assign (ne rs * nd rs) f0 in
  if negb (e =? ne rs) || negb (p =? ne rs) then zero
  else
    match invert_square (system_matrix (ne rs) substitutes erased) (ne rs) with
    | None => zero
    | Some system => for_range 0 (ne rs) (recovery_row rs substitutes erased system) zero
    end.

(** *** [init] *)

Definition count_flags (flags : list bool) (want : bool) (first last : Z) : Z :=
  for_range first last (fun i n => if Bool.eqb (vget false flags i) want then n + 1 else n) 0.

Definition SIZE_MAX : Z := 2 ^ 64 - 1.

(** [flags] is what the pointer [valid_flags] points to ([nd + nr] bytes,
    summed in the width of the pointer), [alloc n] whether the
    allocations for [n] elements succeed; a [std::bad_alloc] empties both
    vectors. *)
Definition init (alloc : Z -> bool) (data_count rec_count : Z) (flags : option (list Z)) (rs : ReedSolomon16)
  : bool * ReedSolomon16 :=
  let rs := {| nd := data_count; nr := rec_count; ne := 0; valid_flags := valid_flags rs; mx := mx rs |} in
  let total := u32 (nd rs + nr rs) in
  let failed rs := (false, {| nd := nd rs; nr := nr rs; ne := ne rs; valid_flags := []; mx := [] |}) in
  if (nd rs =? 0) || (nr rs =? 0) || (total >? GF_SIZE) then (false, rs)
  else
    match flags with
    | Some flags =>
        if negb (alloc (nd rs + nr rs)) then failed rs
        else
          let vf := map (fun b => negb (b =? 0)) (take (Z.to_nat (nd rs + nr rs)) flags) in
          let rs := {| nd := nd rs; nr := nr rs; ne := count_flags vf false 0 (nd rs); valid_flags := vf; mx := mx rs |} in
          let valid_ecc := count_flags vf true (nd rs) total in
          if (ne rs >? valid_ecc) || (ne rs =? 0) || (valid_ecc =? 0) then (false, rs)
          else if ne rs >? SIZE_MAX / nd rs then (false, rs)
          else if negb (alloc (ne rs * nd rs)) then failed rs
          else
            let rs := {| nd := nd rs; nr := nr rs; ne := ne rs; valid_flags := valid_flags rs;
                         mx := resize f0 (mx rs) (ne rs * nd rs) |} in
            (true, {| nd := nd rs; nr := nr rs; ne := ne rs; valid_flags := valid_flags rs;
                      mx := derive_recovery_coefficients rs |})
    | None =>
        if nr rs >? SIZE_MAX / nd rs then (false, rs)
        else if negb (alloc (nr rs * nd rs)) then failed rs
        else
          let rs := {| nd := nd rs; nr := nr rs; ne := ne rs; valid_flags := valid_flags rs;
                       mx := resize f0 (mx rs) (nr rs * nd rs) |} in
          (true, {| nd := nd rs; nr := nr rs; ne := ne rs; valid_flags := valid_flags rs;
                    mx := fill_parity_coefficients rs |})
    end.

Definition fresh : ReedSolomon16 := {| nd := 0; nr := 0; ne := 0; valid_flags := []; mx := [] |}.

End Code.

Arguments ReedSolomon16 : clear implicits.

(** ** Vectors *)

Section Vectors.
Context {A : Type} (d : A).
Implicit Types v : list A.

Lemma zlen_vset v k x : zlen (vset v k x) = zlen v.
Proof. unfold vset, zlen. by rewrite length_insert. Qed.

Lemma zlen_assign n (x : A) : 0 <= n -> zlen (assign n x) = n.
Proof. intros Hn. unfold assign, zlen. rewrite length_replicate. lia. Qed.

Lemma vget_vset v k k' x : 0 <= k < zlen v -> 0 <= k' -> vget d (vset v k x) k' = if k' =? k then x else vget d v k'.
Proof.
  unfold vget, vset, zlen. intros Hk Hk'. destruct (Z.eqb_spec k' k) as [->|Hne].
  - by rewrite list_lookup_insert_eq by lia.
  - by rewrite list_lookup_insert_ne by lia.
Qed.

Lemma vget_assign n x k : 0 <= k < n -> vget d (assign n x) k = x.
Proof. intros Hk. unfold vget, assign. by rewrite lookup_replicate_2 by lia. Qed.

(** Cells of a matrix with [n] columns and [m] rows. *)
Lemma cell_range m n i j : 0 <= i < m -> 0 <= j < n -> 0 <= i * n + j < m * n.
Proof. intros Hi Hj. nia. Qed.

Lemma cell_eqb n i j i' j' : 0 <= j < n -> 0 <= j' < n -> (i' * n + j' =? i * n + j) = (i' =? i) && (j' =? j).
Proof.
  intros Hj Hj'. destruct (Z.eqb_spec i' i) as [->|Hne]; cbn [andb].
  - destruct (Z.eqb_spec j' j) as [->|]; [by rewrite Z.eqb_refl|]. apply Z.eqb_neq. lia.
  - apply Z.eqb_neq. nia.
Qed.

Lemma cell_vset m n v i j i' j' x :
  zlen v = m * n -> 0 <= i < m -> 0 <= j < n -> 0 <= i' -> 0 <= j' < n ->
  vget d (vset v (i * n + j) x) (i' * n + j') = if (i' =? i) && (j' =? j) then x else vget d v (i' * n + j').
Proof.
  intros Hv Hi Hj Hi' Hj'. rewrite vget_vset by (try rewrite Hv; try apply cell_range; nia). by rewrite cell_eqb.
Qed.
End Vectors.

(** Case analysis on the comparisons of a goal, dropping impossible cases. *)
Ltac zbool :=
  repeat
    (match goal with
     | |- context [?a =? ?b] => destruct (Z.eqb_spec a b)
     | |- context [?a <? ?b] => destruct (Z.ltb_spec a b)
     | |- context [?a <=? ?b] => destruct (Z.leb_spec a b)
     end; cbn [andb orb negb]; try (exfalso; lia)).

Section Inverse.
Context {F : Type} {FO : FieldOps F} {FC : Char2Field F}.
Add Field rs_field : char2_field (morphism char2_morph, constants [fcst]).

Abbreviation get := (vget (A := F) f0).

Lemma feqb_false (a b : F) : feqb a b = false <-> a <> b.
Proof. rewrite <- not_true_iff_false, feqb_spec. done. Qed.

(** *** Elimination *)

Lemma find_pivot_spec lu n col k sel :
  sel + Z.of_nat k = n ->
  let s := find_pivot k lu n col sel in
  sel <= s <= n /\ (forall r, sel <= r < s -> get lu (r * n + col) = f0) /\ (s < n -> get lu (s * n + col) <> f0).
Proof.
  revert sel. induction k as [|k IH]; intros sel Hn; cbn [find_pivot].
  - split; [lia|]. split; [lia|]. lia.
  - destruct (Z.ltb_spec sel n); [|lia]. cbn [andb]. destruct (feqb _ _) eqn:E.
    + apply feqb_spec in E. destruct (IH (sel + 1) ltac:(lia)) as (H1 & H2 & H3). split; [lia|]. split; [|done].
      intros r Hr. destruct (Z.eq_dec r sel) as [->|]; [done|]. apply H2. lia.
    + apply feqb_false in E. split; [lia|]. split; [lia|done].
Qed.

Definition swap_index (a b i : Z) : Z := if i =? a then b else if i =? b then a else i.

Lemma swap_ranges_spec lu n sel col :
  zlen lu = n * n -> 0 <= sel < n -> 0 <= col < n -> sel <> col ->
  zlen (swap_ranges lu n sel col) = n * n /\
  forall i j, 0 <= i < n -> 0 <= j < n -> get (swap_ranges lu n sel col) (i * n + j) = get lu (swap_index sel col i * n + j).
Proof.
  intros Hlu Hs Hc Hne.
  set (P t v := zlen v = n * n /\ forall i j, 0 <= i < n -> 0 <= j < n ->
    get v (i * n + j) = get lu ((if j <? t then swap_index sel col i else i) * n + j)).
  assert (HP : P n (swap_ranges lu n sel col)).
  { unfold swap_ranges. apply for_range_ind; [lia|split; [done|intros i j Hi Hj; zbool; by try lia]|]. intros t v Ht [Hv H].
    assert (Hv' := Hv). rewrite <- (zlen_vset v (sel * n + t) (get v (col * n + t))) in Hv'.
    split; [by rewrite zlen_vset|]. intros i j Hi Hj.
    rewrite (cell_vset _ n n) by (done || lia). rewrite (cell_vset _ n n) by (done || lia). rewrite !H by lia.
    unfold swap_index. zbool; subst; by try lia. }
  destruct HP as [Hv H]. split; [done|]. intros i j Hi Hj. rewrite H by done. zbool; by try lia.
Qed.

Definition eliminated (n col row : Z) (f : F) (W : list F) (i j : Z) : F :=
  if i =? row then
    if j <? col then get W (i * n + j)
    else if j =? col then f else fadd (get W (i * n + j)) (fmul f (get W (col * n + j)))
  else get W (i * n + j).

Lemma eliminate_row_spec n col pinv row lu :
  zlen lu = n * n -> 0 <= col < row -> row < n ->
  zlen (eliminate_row n col pinv row lu) = n * n /\
  forall i j, 0 <= i < n -> 0 <= j < n ->
    get (eliminate_row n col pinv row lu) (i * n + j) =
    eliminated n col row (fmul (get lu (row * n + col)) pinv) lu i j.
Proof.
  intros Hlu Hc Hr. unfold eliminate_row. set (f := fmul _ _). cbv zeta. set (lu' := vset lu _ f).
  assert (Hlu' : zlen lu' = n * n) by (unfold lu'; by rewrite zlen_vset).
  assert (H' : forall i j, 0 <= i < n -> 0 <= j < n -> get lu' (i * n + j) = if (i =? row) && (j =? col) then f else get lu (i * n + j)).
  { intros i j Hi Hj. unfold lu'. rewrite (cell_vset _ n n) by (done || lia). done. }
  destruct (feqb f f0) eqn:Ef.
  { apply feqb_spec in Ef. split; [done|]. intros i j Hi Hj. rewrite H' by done. unfold eliminated. rewrite Ef.
    zbool; try lia; try done. ring. }
  clear Ef. set (body := fun (j : Z) (v : list F) => _).
  set (P t v := zlen v = n * n /\ forall i j, 0 <= i < n -> 0 <= j < n ->
    get v (i * n + j) = if (i =? row) && (col <? j) && (t <=? j) then get lu (i * n + j) else eliminated n col row f lu i j).
  assert (HP : P n (for_range (col + 1) n body lu')).
  { apply for_range_ind; [lia| |].
    - split; [done|]. intros i j Hi Hj. rewrite H' by done. unfold eliminated. zbool; try lia; done.
    - intros t v Ht [Hv H]. split; [unfold body; by rewrite zlen_vset|]. intros i j Hi Hj. unfold body.
      rewrite (cell_vset _ n n) by (done || lia). rewrite !H by lia. unfold eliminated. zbool; subst; try lia; try done. }
  destruct HP as [Hv H]. split; [done|]. intros i j Hi Hj. rewrite H by done. zbool; by try lia.
Qed.

Lemma eliminate_rows_spec n col lu :
  zlen lu = n * n -> 0 <= col < n ->
  let pinv := finv (get lu (col * n + col)) in
  let lu' := for_range (col + 1) n (eliminate_row n col pinv) lu in
  zlen lu' = n * n /\
  forall i j, 0 <= i < n -> 0 <= j < n ->
    get lu' (i * n + j) =
    if col <? i then eliminated n col i (fmul (get lu (i * n + col)) pinv) lu i j else get lu (i * n + j).
Proof.
  intros Hlu Hc pinv lu'.
  set (P t v := zlen v = n * n /\ forall i j, 0 <= i < n -> 0 <= j < n ->
    get v (i * n + j) = if (col <? i) && (i <? t) then eliminated n col i (fmul (get lu (i * n + col)) pinv) lu i j else get lu (i * n + j)).
  unfold lu'. assert (HP : P n (for_range (col + 1) n (eliminate_row n col pinv) lu)).
  { apply for_range_ind; [lia|split; [done|intros i j Hi Hj; zbool; by try lia]|]. intros t v Ht [Hv H].
    destruct (eliminate_row_spec n col pinv t v Hv ltac:(lia) ltac:(lia)) as [Hv2 H2]. split; [done|]. intros i j Hi Hj.
    rewrite H2 by done. unfold eliminated at 1. rewrite !H by lia. unfold eliminated. zbool; subst; by try lia. }
  destruct HP as [Hv H]. split; [done|]. intros i j Hi Hj. rewrite H by done. zbool; by try lia.
Qed.
(** *** The factorisation *)

Definition upper (n : Z) (W : list F) (k j : Z) : F := if k <=? j then get W (k * n + j) else f0.

(** After [c] columns the rows of [m], in the order [rows], are the product of
    the unit lower triangle and the upper triangle stored in [lu], plus the
    rest still to be eliminated. *)
Record lu_inv (m : list F) (n c : Z) (lu : list F) (rows : list Z) : Prop := {
  lu_len : zlen lu = n * n;
  lu_rows : zlen rows = n;
  lu_range : forall i, 0 <= i < n -> 0 <= vget 0 rows i < n;
  lu_onto : forall k, 0 <= k < n -> exists i, 0 <= i < n /\ vget 0 rows i = k;
  lu_eq : forall i j, 0 <= i < n -> 0 <= j < n ->
    get m (vget 0 rows i * n + j) =
    fadd (fsum 0 (Z.min i c) (fun k => fmul (get lu (i * n + k)) (upper n lu k j)))
         (if (j <? i) && (j <? c) then f0 else get lu (i * n + j));
  lu_diag : forall k, 0 <= k < c -> get lu (k * n + k) <> f0
}.

Lemma lu_inv_start m n : 0 <= n -> zlen m = n * n -> lu_inv m n 0 m (for_range 0 n (fun i rows => vset rows i i) (assign n 0)).
Proof.
  intros Hn Hm. set (P t (v : list Z) := zlen v = n /\ forall i, 0 <= i < t -> vget 0 v i = i).
  assert (HP : P n (for_range 0 n (fun i rows => vset rows i i) (assign n 0))).
  { apply for_range_ind; [done|split; [by apply zlen_assign|lia]|]. intros t v Ht [Hv H].
    split; [by rewrite zlen_vset|]. intros i Hi. rewrite vget_vset by lia. zbool; [done|]. apply H. lia. }
  destruct HP as [Hr H]. split; [done|done|intros i Hi; rewrite H; lia|intros k Hk; exists k; by rewrite H| |lia].
  intros i j Hi Hj. rewrite H, fsum_empty by lia. zbool; ring.
Qed.

Lemma vget_swap n (rows : list Z) a b i :
  zlen rows = n -> 0 <= a < n -> 0 <= b < n -> 0 <= i < n ->
  vget 0 (vset (vset rows a (vget 0 rows b)) b (vget 0 rows a)) i = vget 0 rows (swap_index a b i).
Proof.
  intros Hr Ha Hb Hi. rewrite vget_vset by (rewrite ?zlen_vset; lia). rewrite vget_vset by lia. unfold swap_index.
  zbool; subst; done.
Qed.

Lemma swap_index_range n a b i : 0 <= a < n -> 0 <= b < n -> 0 <= i < n -> 0 <= swap_index a b i < n.
Proof. intros Ha Hb Hi. unfold swap_index. zbool; lia. Qed.

(** Exchanging two rows that are not yet eliminated. *)
Lemma lu_inv_swap m n c lu rows sel :
  lu_inv m n c lu rows -> 0 <= c < n -> c < sel < n ->
  lu_inv m n c (swap_ranges lu n sel c) (vset (vset rows sel (vget 0 rows c)) c (vget 0 rows sel)).
Proof.
  intros I Hc Hs. destruct (swap_ranges_spec lu n sel c (lu_len _ _ _ _ _ I) ltac:(lia) Hc ltac:(lia)) as [Hl Hg].
  pose proof (lu_rows _ _ _ _ _ I) as Hr. pose proof (fun i => vget_swap n rows sel c i Hr ltac:(lia) Hc) as Hv.
  split; [done|by rewrite !zlen_vset| | | |].
  - intros i Hi. rewrite Hv by done. apply (lu_range _ _ _ _ _ I). apply swap_index_range; lia.
  - intros k Hk. destruct (lu_onto _ _ _ _ _ I k Hk) as (i & Hi & E). exists (swap_index sel c i).
    pose proof (swap_index_range n sel c i ltac:(lia) Hc Hi). split; [done|]. rewrite Hv by done.
    replace (swap_index sel c (swap_index sel c i)) with i; [done|]. unfold swap_index at 2. zbool; unfold swap_index; zbool; lia.
  - intros i j Hi Hj. pose proof (swap_index_range n sel c i ltac:(lia) Hc Hi) as Hsi. rewrite Hv, Hg by done.
    rewrite (lu_eq _ _ _ _ _ I) by done. assert (Hm : Z.min (swap_index sel c i) c = Z.min i c) by (unfold swap_index; zbool; lia).
    rewrite Hm. f_equal.
    + apply fsum_ext. intros k Hk. f_equal; [rewrite Hg by lia; done|]. unfold upper. zbool; [|done].
      rewrite Hg by lia. unfold swap_index. zbool. done.
    + replace ((j <? swap_index sel c i) && (j <? c)) with ((j <? i) && (j <? c)); [done|]. unfold swap_index. zbool; done.
  - intros k Hk. rewrite Hg by lia. unfold swap_index at 1. zbool. by apply (lu_diag _ _ _ _ _ I).
Qed.

Lemma lu_inv_eliminate m n c lu rows :
  lu_inv m n c lu rows -> 0 <= c < n -> get lu (c * n + c) <> f0 ->
  lu_inv m n (c + 1) (for_range (c + 1) n (eliminate_row n c (finv (get lu (c * n + c)))) lu) rows.
Proof.
  intros I Hc Hp. destruct (eliminate_rows_spec n c lu (lu_len _ _ _ _ _ I) Hc) as [Hl Hg]. cbv zeta in Hl, Hg.
  set (lu' := for_range _ _ _ _) in *. set (p := get lu (c * n + c)) in *.
  assert (Hlow : forall i j, 0 <= i <= c -> 0 <= j < n -> get lu' (i * n + j) = get lu (i * n + j)) by (intros; rewrite Hg by lia; zbool; done).
  assert (Hup : forall k j, 0 <= k <= c -> 0 <= j < n -> upper n lu' k j = upper n lu k j)
    by (intros; unfold upper; zbool; [by apply Hlow|done]).
  split; [done|apply I|apply I|apply I| |].
  - intros i j Hi Hj. rewrite (lu_eq _ _ _ _ _ I) by done. destruct (Z.le_gt_cases i c) as [Hic|Hic].
    + replace (Z.min i (c + 1)) with (Z.min i c) by lia. f_equal; [|rewrite Hlow by lia; zbool; done].
      apply fsum_ext. intros k Hk. rewrite Hlow, Hup by lia. done.
    + replace (Z.min i c) with c by lia. replace (Z.min i (c + 1)) with (c + 1) by lia. rewrite fsum_snoc by lia.
      rewrite (fsum_ext 0 c (fun k => fmul (get lu' _) _) (fun k => fmul (get lu (i * n + k)) (upper n lu k j))).
      2: { intros k Hk. rewrite Hup, Hg by lia. unfold eliminated. zbool. done. }
      rewrite !Hg, Hup by lia. unfold eliminated, upper. fold p. zbool; subst; try (fold p); try ring; try (by field).
  - intros k Hk. destruct (Z.eq_dec k c) as [->|]; [by rewrite Hlow by lia|]. rewrite Hlow by lia. apply (lu_diag _ _ _ _ _ I). lia.
Qed.
(** *** Solving *)

Definition row_times (m : list F) (n i : Z) (x : Z -> F) : F := fsum 0 n (fun j => fmul (get m (i * n + j)) (x j)).
Definition rest (n c : Z) (W : list F) (i j : Z) : F := if (j <? i) && (j <? c) then f0 else get W (i * n + j).

Lemma lu_apply m n c lu rows x i :
  lu_inv m n c lu rows -> 0 <= i < n ->
  row_times m n (vget 0 rows i) x =
  fadd (fsum 0 (Z.min i c) (fun k => fmul (get lu (i * n + k)) (fsum 0 n (fun j => fmul (upper n lu k j) (x j)))))
       (fsum 0 n (fun j => fmul (rest n c lu i j) (x j))).
Proof.
  intros I Hi. unfold row_times.
  rewrite (fsum_ext 0 n _ (fun j => fadd (fsum 0 (Z.min i c) (fun k => fmul (x j) (fmul (get lu (i * n + k)) (upper n lu k j))))
                                          (fmul (rest n c lu i j) (x j)))).
  2: { intros j Hj. rewrite (lu_eq _ _ _ _ _ I) by done. unfold rest. rewrite fsum_mul. ring. }
  rewrite fsum_add, fsum_swap. f_equal. apply fsum_ext. intros k Hk. rewrite <- fsum_mul. apply fsum_ext. intros j Hj. ring.
Qed.

Lemma lu_apply_full m n lu rows x i :
  lu_inv m n n lu rows -> 0 <= i < n ->
  let t k := fsum 0 n (fun j => fmul (upper n lu k j) (x j)) in
  row_times m n (vget 0 rows i) x = fadd (fsum 0 i (fun k => fmul (get lu (i * n + k)) (t k))) (t i).
Proof.
  intros I Hi t. rewrite (lu_apply _ _ _ _ _ _ _ I Hi). replace (Z.min i n) with i by lia. f_equal.
  apply fsum_ext. intros j Hj. unfold rest, upper. f_equal. zbool; done.
Qed.

Lemma upper_sum n lu k x :
  0 <= k < n ->
  fsum 0 n (fun j => fmul (upper n lu k j) (x j)) =
  fadd (fmul (get lu (k * n + k)) (x k)) (fsum (k + 1) n (fun j => fmul (get lu (k * n + j)) (x j))).
Proof.
  intros Hk. rewrite (fsum_split 0 k n), (fsum_split k (k + 1) n), (fsum_snoc k k), (fsum_empty k k) by lia.
  rewrite (fsum_zero 0 k) by (intros j Hj; unfold upper; zbool; ring).
  rewrite (fsum_ext (k + 1) n (fun j => fmul (upper n lu k j) (x j)) (fun j => fmul (get lu (k * n + j)) (x j)))
    by (intros j Hj; unfold upper; zbool; done).
  unfold upper. zbool. ring.
Qed.

(** A vector the matrix maps to zero, other than zero. *)
Definition singular (m : list F) (n : Z) : Prop :=
  exists x : Z -> F, (exists j, 0 <= j < n /\ x j <> f0) /\ forall i, 0 <= i < n -> row_times m n i x = f0.

Lemma back_substitution n lu c :
  0 <= c < n -> (forall k, 0 <= k < c -> get lu (k * n + k) <> f0) ->
  exists x : Z -> F, x c = f1 /\ (forall j, c < j -> x j = f0) /\
    forall k, 0 <= k < c -> fsum 0 n (fun j => fmul (upper n lu k j) (x j)) = f0.
Proof.
  intros Hc Hd. apply (down_ind (fun b => exists x : Z -> F, x c = f1 /\ (forall j, c < j -> x j = f0) /\
    forall k, b <= k < c -> fsum 0 n (fun j => fmul (upper n lu k j) (x j)) = f0) c); [lia| |].
  - exists (fun j => if j =? c then f1 else f0). rewrite Z.eqb_refl. split; [done|]. split; [intros j Hj; zbool; done|lia].
  - intros b Hb (x & Hx & Hz & Hs).
    set (v := fmul (finv (get lu (b * n + b))) (fsum (b + 1) n (fun j => fmul (get lu (b * n + j)) (x j)))).
    exists (fun j => if j =? b then v else x j). split; [zbool; done|]. split; [intros j Hj; zbool; by apply Hz|].
    intros k Hk. destruct (Z.eq_dec k b) as [->|].
    + rewrite upper_sum by lia. rewrite Z.eqb_refl.
      rewrite (fsum_ext (b + 1) n _ (fun j => fmul (get lu (b * n + j)) (x j))) by (intros j Hj; zbool; done).
      unfold v. field. apply Hd. lia.
    + rewrite <- (Hs k) by lia. apply fsum_ext. intros j Hj. zbool; [|done]. subst. unfold upper. zbool. ring.
Qed.

Lemma lu_stuck m n c lu rows :
  lu_inv m n c lu rows -> 0 <= c < n -> (forall i, c <= i < n -> get lu (i * n + c) = f0) -> singular m n.
Proof.
  intros I Hc Hz. destruct (back_substitution n lu c Hc (lu_diag _ _ _ _ _ I)) as (x & Hx & Hx0 & Hs).
  exists x. split; [exists c; split; [done|]; rewrite Hx; apply (F_1_neq_0 char2_field)|].
  intros k Hk. destruct (lu_onto _ _ _ _ _ I k Hk) as (i & Hi & <-). rewrite (lu_apply _ _ _ _ _ _ _ I Hi).
  rewrite (fsum_zero 0 (Z.min i c)) by (intros j Hj; rewrite Hs by lia; ring).
  destruct (Z.lt_ge_cases i c) as [Hic|Hic].
  - transitivity (fadd f0 (fsum 0 n (fun j => fmul (upper n lu i j) (x j)))); [|rewrite Hs by lia; ring]. f_equal.
    apply fsum_ext. intros j Hj. f_equal. unfold rest, upper. zbool; done.
  - rewrite (fsum_zero 0 n); [ring|]. intros j Hj. unfold rest. destruct (Z.lt_trichotomy j c) as [H|[->|H]].
    + zbool; ring.
    + zbool; rewrite Hz by lia; ring.
    + rewrite Hx0 by done. ring.
Qed.

Lemma lu_column_spec m n c lu rows :
  lu_inv m n c lu rows -> 0 <= c < n ->
  match lu_column n c (lu, rows) with Some (lu', rows') => lu_inv m n (c + 1) lu' rows' | None => singular m n end.
Proof.
  intros I Hc. unfold lu_column.
  destruct (find_pivot_spec lu n c (Z.to_nat (n - c)) c ltac:(lia)) as (Hs & Hz & Hp). cbv zeta.
  set (sel := find_pivot _ _ _ _ _) in *. destruct (Z.eqb_spec sel n) as [E|E].
  { apply (lu_stuck _ _ _ _ _ I Hc). intros i Hi. apply Hz. lia. }
  destruct (Z.eqb_spec sel c) as [E'|E']; [apply lu_inv_eliminate; [done|done|]; rewrite <- E' at 1; apply Hp; lia|].
  apply lu_inv_eliminate; [apply lu_inv_swap; [done|done|lia]|done|].
  destruct (swap_ranges_spec lu n sel c (lu_len _ _ _ _ _ I) ltac:(lia) Hc ltac:(lia)) as [_ Hg].
  rewrite Hg by lia. unfold swap_index at 1. zbool. apply Hp. lia.
Qed.

Lemma lu_factor_spec m n :
  0 <= n -> zlen m = n * n ->
  match lu_factor m n with Some (lu, rows) => lu_inv m n n lu rows | None => singular m n end.
Proof.
  intros Hn Hm. apply (for_range_ind (fun t st => match st with Some (lu, rows) => lu_inv m n t lu rows | None => singular m n end));
    [done|by apply lu_inv_start|].
  intros t [[lu rows]|] Ht I; [|done]. by apply lu_column_spec.
Qed.

Definition delta (i c : Z) : F := if i =? c then f1 else f0.

Lemma solve_forward_spec lu rows n c interim :
  0 <= n -> zlen interim = n ->
  let y := solve_forward lu rows n c interim in
  zlen y = n /\
  forall i, 0 <= i < n -> get y i = fadd (delta (vget 0 rows i) c) (fsum 0 i (fun j => fmul (get lu (i * n + j)) (get y j))).
Proof.
  intros Hn Hl y.
  apply (for_range_ind (fun t y => zlen y = n /\ forall i, 0 <= i < t ->
    get y i = fadd (delta (vget 0 rows i) c) (fsum 0 i (fun j => fmul (get lu (i * n + j)) (get y j))))); [done|split; [done|lia]|].
  intros t v Ht [Hv H]. split; [by rewrite zlen_vset|]. intros i Hi. rewrite vget_vset, for_range_acc by lia.
  rewrite (fsum_ext 0 i _ (fun j => fmul (get lu (i * n + j)) (get v j))).
  2: { intros j Hj. rewrite vget_vset by lia. zbool. done. }
  destruct (Z.eqb_spec i t) as [->|]; [done|]. apply H. lia.
Qed.

Lemma solve_back_spec lu n c interim inverse :
  0 <= c < n -> zlen inverse = n * n ->
  let x := solve_back lu n c interim inverse in
  zlen x = n * n /\
  (forall i j, 0 <= i < n -> 0 <= j < n -> j <> c -> get x (i * n + j) = get inverse (i * n + j)) /\
  forall i, 0 <= i < n ->
    get x (i * n + c) =
    fmul (fadd (get interim i) (fsum (i + 1) n (fun j => fmul (get lu (i * n + j)) (get x (j * n + c)))))
         (finv (get lu (i * n + i))).
Proof.
  intros Hc Hl x.
  set (P t (x : list F) := zlen x = n * n /\
    (forall i j, 0 <= i < n -> 0 <= j < n -> j <> c -> get x (i * n + j) = get inverse (i * n + j)) /\
    forall i, t <= i < n -> get x (i * n + c) =
      fmul (fadd (get interim i) (fsum (i + 1) n (fun j => fmul (get lu (i * n + j)) (get x (j * n + c)))))
           (finv (get lu (i * n + i)))).
  apply (for_down_ind P); [lia|split; [done|]; split; [done|lia]|].
  intros t v Ht (Hv & Ho & H). split; [by rewrite zlen_vset|]. split.
  - intros i j Hi Hj Hne. rewrite (cell_vset _ n n) by (done || lia). zbool; by apply Ho.
  - intros i Hi. rewrite (cell_vset _ n n), for_range_acc by (done || lia).
    rewrite (fsum_ext (i + 1) n _ (fun j => fmul (get lu (i * n + j)) (get v (j * n + c)))).
    2: { intros j Hj. rewrite (cell_vset _ n n) by (done || lia). zbool. done. }
    destruct (Z.eqb_spec i t) as [->|]; cbn [andb]; rewrite ?Z.eqb_refl; [done|]. apply H. lia.
Qed.

(** The column a forward and a back pass compute. *)
Lemma solved_column m n lu rows c y (x : Z -> F) i :
  lu_inv m n n lu rows -> 0 <= c < n ->
  (forall i, 0 <= i < n -> y i = fadd (delta (vget 0 rows i) c) (fsum 0 i (fun j => fmul (get lu (i * n + j)) (y j)))) ->
  (forall i, 0 <= i < n ->
     x i = fmul (fadd (y i) (fsum (i + 1) n (fun j => fmul (get lu (i * n + j)) (x j)))) (finv (get lu (i * n + i)))) ->
  0 <= i < n -> row_times m n i x = delta i c.
Proof.
  intros I Hc Hy Hx Hi. destruct (lu_onto _ _ _ _ _ I i Hi) as (r & Hr & <-). rewrite (lu_apply_full _ _ _ _ _ _ I Hr).
  assert (Ht : forall k, 0 <= k < n -> fsum 0 n (fun j => fmul (upper n lu k j) (x j)) = y k).
  { intros k Hk. rewrite upper_sum by done. rewrite (Hx k Hk) at 1. field. by apply (lu_diag _ _ _ _ _ I). }
  rewrite (fsum_ext 0 r _ (fun k => fmul (get lu (r * n + k)) (y k))) by (intros k Hk; by rewrite Ht by lia).
  rewrite Ht, (Hy r) by done. ring.
Qed.

(** A factored matrix maps only zero to zero. *)
Lemma lu_injective m n lu rows (x : Z -> F) :
  lu_inv m n n lu rows -> (forall i, 0 <= i < n -> row_times m n i x = f0) -> forall j, 0 <= j < n -> x j = f0.
Proof.
  intros I Hx j Hj. set (t k := fsum 0 n (fun j => fmul (upper n lu k j) (x j))).
  assert (Ht : forall k, 0 <= k < n -> t k = f0).
  { assert (Hs : forall b, 0 <= b -> forall k, 0 <= k < b -> k < n -> t k = f0); [|intros k Hk; apply (Hs n); lia].
    apply (Z_ind (fun b => forall k, 0 <= k < b -> k < n -> t k = f0)); [lia|]. intros b Hb IH k Hk Hkn.
    destruct (Z.eq_dec k b) as [->|]; [|apply IH; lia].
    pose proof (Hx _ (lu_range _ _ _ _ _ I b ltac:(lia))) as E. rewrite (lu_apply_full _ _ _ _ _ _ I) in E by lia. fold t in E.
    rewrite (fsum_zero 0 b) in E by (intros q Hq; fold (t q); rewrite IH by lia; ring). rewrite <- E. unfold t. ring. }
  assert (Hs : forall b, 0 <= b -> b <= n -> forall k, n - b <= k < n -> x k = f0); [|apply (Hs n); lia].
  apply (Z_ind (fun b => b <= n -> forall k, n - b <= k < n -> x k = f0)); [lia|]. intros b Hb IH Hbn k Hk.
  destruct (Z.eq_dec k (n - b - 1)) as [->|]; [|apply IH; lia].
  pose proof (Ht (n - b - 1) ltac:(lia)) as E. unfold t in E. rewrite upper_sum in E by lia.
  rewrite (fsum_zero (n - b - 1 + 1) n) in E by (intros q Hq; rewrite IH by lia; ring).
  apply (fmul_zero (get lu ((n - b - 1) * n + (n - b - 1)))); [etransitivity; [|exact E]; ring|]. apply (lu_diag _ _ _ _ _ I). lia.
Qed.

(** Both products of two matrices are the identity. *)
Definition inverse_of (m : list F) (n : Z) (x : list F) : Prop :=
  zlen x = n * n /\
  (forall i c, 0 <= i < n -> 0 <= c < n -> fsum 0 n (fun j => fmul (get m (i * n + j)) (get x (j * n + c))) = delta i c) /\
  (forall i c, 0 <= i < n -> 0 <= c < n -> fsum 0 n (fun j => fmul (get x (i * n + j)) (get m (j * n + c))) = delta i c).

Lemma fsum_delta n k f : 0 <= k < n -> fsum 0 n (fun j => fmul (f j) (delta j k)) = f k.
Proof.
  intros Hk. rewrite (fsum_at 0 n k) by (done || (intros j Hj Hne; unfold delta; rewrite (proj2 (Z.eqb_neq _ _) Hne); ring)). unfold delta. rewrite Z.eqb_refl. ring.
Qed.

(** With a trivial kernel a right inverse is a left inverse. *)
Lemma left_inverse m n (x : list F) :
  (forall v : Z -> F, (forall i, 0 <= i < n -> row_times m n i v = f0) -> forall j, 0 <= j < n -> v j = f0) ->
  (forall i c, 0 <= i < n -> 0 <= c < n -> fsum 0 n (fun j => fmul (get m (i * n + j)) (get x (j * n + c))) = delta i c) ->
  forall i c, 0 <= i < n -> 0 <= c < n -> fsum 0 n (fun j => fmul (get x (i * n + j)) (get m (j * n + c))) = delta i c.
Proof.
  intros Hk Hr i c Hi Hc. apply fadd_eq.
  apply (Hk (fun i => fadd (fsum 0 n (fun j => fmul (get x (i * n + j)) (get m (j * n + c)))) (delta i c))); [|done].
  intros r Hrr. unfold row_times.
  rewrite (fsum_ext 0 n _ (fun j => fadd (fsum 0 n (fun q => fmul (get m (q * n + c)) (fmul (get m (r * n + j)) (get x (j * n + q)))))
     (fmul (get m (r * n + j)) (delta j c)))).
  2: { intros j Hj. rewrite (fsum_ext 0 n (fun q => fmul (get m (q * n + c)) _)
         (fun q => fmul (get m (r * n + j)) (fmul (get x (j * n + q)) (get m (q * n + c))))) by (intros; ring).
       rewrite fsum_mul. ring. }
  rewrite fsum_add, fsum_delta, fsum_swap by done.
  rewrite (fsum_ext 0 n _ (fun q => fmul (get m (q * n + c)) (delta q r))).
  2: { intros q Hq. rewrite fsum_mul, Hr by done. unfold delta. zbool; done. }
  rewrite fsum_delta by done. ring.
Qed.

Lemma invert_square_spec m n :
  0 <= n -> zlen m = n * n ->
  match invert_square m n with Some x => inverse_of m n x | None => singular m n end.
Proof.
  intros Hn Hm. unfold invert_square. pose proof (lu_factor_spec m n Hn Hm) as H. destruct (lu_factor m n) as [[lu rows]|]; [|done].
  set (P t (st : list F * list F) := zlen (fst st) = n /\ zlen (snd st) = n * n /\
    forall c, 0 <= c < t -> forall i, 0 <= i < n -> row_times m n i (fun j => get (snd st) (j * n + c)) = delta i c).
  set (st := for_range _ _ _ _). assert (HP : P n st).
  { apply for_range_ind; [done|split; [by apply zlen_assign|split; [by apply zlen_assign; nia|lia]]|].
    intros t [y x] Ht (Hy & Hx & Hs). cbn [fst snd] in *. cbv zeta.
    destruct (solve_forward_spec lu rows n t y Hn Hy) as [Hy' Hf]. set (y' := solve_forward _ _ _ _ _) in *.
    destruct (solve_back_spec lu n t y' x Ht Hx) as (Hx' & Ho & Hb). set (x' := solve_back _ _ _ _ _) in *.
    split; [done|]. split; [done|]. cbn [snd]. intros c Hc i Hi. destruct (Z.eq_dec c t) as [->|].
    - by apply (solved_column m n lu rows t (fun i => get y' i)).
    - rewrite <- (Hs c) by lia. unfold row_times. apply fsum_ext. intros j Hj. by rewrite Ho by lia. }
  destruct HP as (_ & Hx & Hs). cbv zeta in *. split; [done|].
  assert (Hr : forall i c, 0 <= i < n -> 0 <= c < n -> fsum 0 n (fun j => fmul (get m (i * n + j)) (get (snd st) (j * n + c))) = delta i c)
    by (intros i c Hi Hc; exact (Hs c Hc i Hi)).
  split; [done|]. apply left_inverse; [|done]. intros v Hv. by apply (lu_injective m n lu rows).
Qed.

End Inverse.

(** ** Slots by rank *)

Section Slots.
Context (flags : list bool) (want : bool).

Definition flagged (slot : Z) : bool := Bool.eqb (vget false flags slot) want.

(** The number of flagged slots in [first, slot). *)
Definition rank (first slot : Z) : Z := count_flags flags want first slot.

Lemma rank_start first : rank first first = 0.
Proof. unfold rank, count_flags. by rewrite for_range_empty. Qed.

Lemma rank_succ first i : first <= i -> rank first (i + 1) = if flagged i then rank first i + 1 else rank first i.
Proof. intros Hi. unfold rank, count_flags. by rewrite for_range_snoc. Qed.


Lemma rank_mono first i j : first <= i <= j -> rank first i <= rank first j <= rank first i + (j - i).
Proof.
  intros [Hf Hij]. revert Hij. revert j. intros j Hij.
  apply (range_ind (fun j => rank first i <= rank first j <= rank first i + (j - i)) i j); [done|lia|].
  intros k Hk IH. rewrite rank_succ by lia. destruct (flagged k); lia.
Qed.

Lemma rank_lt first i j : first <= i < j -> flagged i = true -> rank first i < rank first j.
Proof.
  intros Hij Hf. pose proof (rank_mono first (i + 1) j ltac:(lia)) as H. rewrite rank_succ, Hf in H by lia. lia.
Qed.

(** The slot of a rank. *)
Lemma rank_onto first last r : first <= last -> 0 <= r < rank first last ->
  exists slot, first <= slot < last /\ flagged slot = true /\ rank first slot = r.
Proof.
  intros Hl Hr. revert Hr. apply (range_ind (fun l => 0 <= r < rank first l -> _) first last); [done|rewrite rank_start; lia|].
  intros i Hi IH Hr. rewrite rank_succ in Hr by lia. destruct (flagged i) eqn:Ef.
  - destruct (Z.eq_dec r (rank first i)) as [->|]; [by exists i; auto with lia|].
    destruct IH as (slot & Hs & Hf & E); [lia|]. exists slot. auto with lia.
  - destruct (IH Hr) as (slot & Hs & Hf & E). exists slot. auto with lia.
Qed.

Lemma collect_slots_spec first last limit :
  first <= last -> 0 <= limit ->
  let '(e, slots) := collect_slots flags want first last limit in
  e = Z.min limit (rank first last) /\ zlen slots = limit /\
  forall slot, first <= slot < last -> flagged slot = true -> rank first slot < limit -> vget 0 slots (rank first slot) = slot.
Proof.
  intros Hl H0.
  apply (for_range_ind (fun t '(e, slots) => e = Z.min limit (rank first t) /\ zlen slots = limit /\
    forall slot, first <= slot < t -> flagged slot = true -> rank first slot < limit -> vget 0 slots (rank first slot) = slot));
    [done|rewrite rank_start; split; [lia|]; split; [by apply zlen_assign|lia]|].
  intros t [e slots] Ht (-> & Hz & H). pose proof (rank_mono first first t ltac:(lia)) as Hm. rewrite rank_start in Hm.
  rewrite rank_succ by lia. fold (flagged t). destruct (Z.ltb_spec (Z.min limit (rank first t)) limit) as [Hlt|Hge].
  - destruct (flagged t) eqn:Ef.
    + split; [lia|]. split; [by rewrite zlen_vset|]. intros slot Hs Hf Hr.
      pose proof (rank_mono first first slot ltac:(lia)) as Hm'. rewrite rank_start in Hm'.
      rewrite vget_vset by lia. destruct (Z.eq_dec slot t) as [->|].
      * rewrite (proj2 (Z.eqb_eq _ _)) by lia. done.
      * pose proof (rank_lt first slot t ltac:(lia) Hf). rewrite (proj2 (Z.eqb_neq _ _)) by lia. apply H; [lia|done..].
    + split; [done|]. split; [done|]. intros slot Hs Hf Hr. apply H; [|done..]. destruct (Z.eq_dec slot t) as [->|]; [congruence|lia].
  - split; [destruct (flagged t); lia|]. split; [done|]. intros slot Hs Hf Hr. apply H; [|done..].
    destruct (Z.eq_dec slot t) as [->|]; lia.
Qed.

(** Read by rank. *)
Lemma slots_by_rank first last limit r :
  first <= last -> 0 <= r < limit -> r < rank first last ->
  let s := vget 0 (snd (collect_slots flags want first last limit)) r in
  first <= s < last /\ flagged s = true /\ rank first s = r.
Proof.
  intros Hl Hr Hlt. pose proof (collect_slots_spec first last limit Hl ltac:(lia)) as H.
  destruct (collect_slots _ _ _ _ _) as [e slots]. destruct H as (_ & _ & H). cbn [snd].
  destruct (rank_onto first last r Hl ltac:(lia)) as (slot & Hs & Hf & <-). rewrite H by (done || lia). done.
Qed.
End Slots.

(** ** Coefficients *)

Section Coefficients.
Context {F : Type} {FO : FieldOps F} {FC : Char2Field F}.
Add Field rs_field2 : char2_field (morphism char2_morph, constants [fcst]).

Abbreviation get := (vget (A := F) f0).

(** The Cauchy coefficient of parity slot [x] and data slot [d]. *)
Definition cauchy (x d : Z) : F := finv (fadd (fword x) (fword d)).

Lemma fword_distinct a b : word a -> word b -> a <> b -> fadd (fword (F := F) a) (fword b) <> f0.
Proof. intros Ha Hb Hne E. apply Hne. by apply fword_inj, fadd_eq. Qed.

(** A loop that stores [f i j] at each cell of row [i]. *)
Lemma fill_row_spec rows n i (f : Z -> F) m :
  0 <= i < rows -> 0 <= n -> zlen m = rows * n ->
  let m' := for_range 0 n (fun j m => vset m (i * n + j) (f j)) m in
  zlen m' = rows * n /\
  forall r j, 0 <= r < rows -> 0 <= j < n -> get m' (r * n + j) = if r =? i then f j else get m (r * n + j).
Proof.
  intros Hi Hn Hm.
  set (P t v := zlen v = rows * n /\ forall r j, 0 <= r < rows -> 0 <= j < n ->
    get v (r * n + j) = if (r =? i) && (j <? t) then f j else get m (r * n + j)).
  assert (HP : P n (for_range 0 n (fun j m => vset m (i * n + j) (f j)) m)).
  { apply for_range_ind; [done|split; [done|intros r j Hr Hj; zbool; by try lia]|]. intros t v Ht [Hv H].
    split; [by rewrite zlen_vset|]. intros r j Hr Hj. rewrite (cell_vset _ rows n) by (done || lia). rewrite H by done.
    zbool; by subst. }
  destruct HP as [Hv H]. split; [done|]. intros r j Hr Hj. rewrite H by done. zbool; by try lia.
Qed.

Lemma fill_matrix_spec rows n (f : Z -> Z -> F) m :
  0 <= rows -> 0 <= n -> zlen m = rows * n ->
  let m' := for_range 0 rows (fun i m => for_range 0 n (fun j m => vset m (i * n + j) (f i j)) m) m in
  zlen m' = rows * n /\ forall r j, 0 <= r < rows -> 0 <= j < n -> get m' (r * n + j) = f r j.
Proof.
  intros Hr Hn Hm.
  apply (for_range_ind (fun t v => zlen v = rows * n /\ forall r j, 0 <= r < t -> 0 <= j < n -> get v (r * n + j) = f r j));
    [done|split; [done|lia]|].
  intros t v Ht [Hv H]. destruct (fill_row_spec rows n t (f t) v Ht Hn Hv) as [Hv' H']. cbv zeta in *.
  split; [done|]. intros r j Hrr Hj. rewrite H' by lia. zbool; [by subst|]. apply H; lia.
Qed.

Lemma fill_parity_spec rs :
  0 <= nd rs -> 0 <= nr rs -> nd rs + nr rs <= GF_SIZE -> zlen (mx rs) = nr rs * nd rs ->
  zlen (fill_parity_coefficients rs) = nr rs * nd rs /\
  forall i d, 0 <= i < nr rs -> 0 <= d < nd rs -> get (fill_parity_coefficients rs) (i * nd rs + d) = cauchy (nd rs + i) d.
Proof.
  intros Hd Hr Hs Hm. destruct (fill_matrix_spec (nr rs) (nd rs) (fun i d => cauchy (u32 (nd rs + i)) d) (mx rs) Hr Hd Hm) as [Hl H].
  split; [exact Hl|]. intros i d Hi Hdd. unfold GF_SIZE in Hs.
  transitivity (cauchy (u32 (nd rs + i)) d); [by apply H|]. by rewrite wrap_small by lia.
Qed.

(** The Cauchy system of distinct slots is nonsingular. *)
Lemma system_matrix_spec n subs erased :
  0 <= n ->
  zlen (system_matrix n subs erased) = n * n /\
  forall i r, 0 <= i < n -> 0 <= r < n -> get (system_matrix n subs erased) (i * n + r) = cauchy (vget 0 subs i) (vget 0 erased r).
Proof.
  intros Hn. apply (fill_matrix_spec n n (fun i r => cauchy (vget 0 subs i) (vget 0 erased r))); [done..|]. apply zlen_assign. nia.
Qed.

Lemma system_nonsingular n subs erased :
  0 <= n -> (forall i, 0 <= i < n -> word (vget 0 subs i)) -> (forall i, 0 <= i < n -> word (vget 0 erased i)) ->
  (forall i k, 0 <= i < n -> 0 <= k < n -> i <> k -> vget 0 subs i <> vget 0 subs k) ->
  (forall i k, 0 <= i < n -> 0 <= k < n -> i <> k -> vget 0 erased i <> vget 0 erased k) ->
  (forall i k, 0 <= i < n -> 0 <= k < n -> vget 0 subs i <> vget 0 erased k) ->
  exists x, invert_square (system_matrix (F := F) n subs erased) n = Some x /\ inverse_of (system_matrix n subs erased) n x.
Proof.
  intros Hn Ws We Ds De Dse. destruct (system_matrix_spec n subs erased Hn) as [Hl Hg].
  pose proof (invert_square_spec (system_matrix (F := F) n subs erased) n Hn Hl) as H.
  destruct (invert_square _ _) as [x|]; [by exists x|]. destruct H as (v & (j & Hj & Hv) & Hz). destruct Hv.
  apply (cauchy_kernel n (fun i => fword (vget 0 subs i)) (fun j => fword (vget 0 erased j))); [done|..|done].
  - intros i k Hi Hk Hne. apply fword_distinct; auto.
  - intros i k Hi Hk Hne. apply fword_distinct; auto.
  - intros i k Hi Hk. apply fword_distinct; auto.
  - intros i Hi. rewrite <- (Hz i Hi). unfold row_times. apply fsum_ext. intros k Hk. rewrite Hg by done. unfold cauchy. ring.
Qed.

(** Summing over the flagged slots is summing over the ranks. *)
Lemma fsum_rank flags want n (g : Z -> F) :
  0 <= n -> fsum 0 n (fun d => if flagged flags want d then g (rank flags want 0 d) else f0) = fsum 0 (rank flags want 0 n) g.
Proof.
  revert n. apply (Z_ind (fun n => fsum 0 n _ = fsum 0 (rank flags want 0 n) g)).
  - rewrite rank_start. by rewrite !fsum_empty by lia.
  - intros n Hn IH. pose proof (rank_mono flags want 0 0 n ltac:(lia)) as Hm. rewrite rank_start in Hm.
    rewrite fsum_snoc, rank_succ, IH by lia. destruct (flagged flags want n); [by rewrite fsum_snoc by lia|ring].
Qed.

(** *** Recovery *)

Section Recovery.
Context (rs : ReedSolomon16 F).
Abbreviation ND := (nd rs).
Abbreviation NE := (ne rs).
Abbreviation erased_slot := (flagged (valid_flags rs) false).
Abbreviation valid_slot := (flagged (valid_flags rs) true).
Abbreviation erank := (rank (valid_flags rs) false 0).
Abbreviation vrank := (rank (valid_flags rs) true ND).

Lemma flagged_false d : flagged (valid_flags rs) false d = negb (vget false (valid_flags rs) d).
Proof. unfold flagged. by destruct (vget _ _ _). Qed.

Context (Hnd : 0 < ND) (Hnr : 0 <= nr rs) (Hsum : ND + nr rs <= GF_SIZE).
Context (Hne : NE = erank ND) (Havail : NE <= vrank (ND + nr rs)).

Let erased := snd (collect_slots (valid_flags rs) false 0 ND NE).
Let subs := snd (collect_slots (valid_flags rs) true ND (ND + nr rs) NE).

Lemma ne_nonneg : 0 <= NE.
Proof. pose proof (rank_mono (valid_flags rs) false 0 0 ND ltac:(lia)) as H. rewrite rank_start in H. lia. Qed.

Lemma erased_spec r : 0 <= r < NE -> 0 <= vget 0 erased r < ND /\ erased_slot (vget 0 erased r) = true /\ erank (vget 0 erased r) = r.
Proof. intros Hr. apply slots_by_rank; lia. Qed.

Lemma subs_spec r : 0 <= r < NE -> ND <= vget 0 subs r < ND + nr rs /\ valid_slot (vget 0 subs r) = true /\ vrank (vget 0 subs r) = r.
Proof. intros Hr. apply slots_by_rank; lia. Qed.

Lemma erank_lt d : 0 <= d < ND -> erased_slot d = true -> 0 <= erank d < NE.
Proof.
  intros Hd He. rewrite Hne. pose proof (rank_mono (valid_flags rs) false 0 0 d ltac:(lia)) as H. rewrite rank_start in H.
  pose proof (rank_lt (valid_flags rs) false 0 d ND Hd He). lia.
Qed.

Lemma erased_at d : 0 <= d < ND -> erased_slot d = true -> vget 0 erased (erank d) = d.
Proof.
  intros Hd He. pose proof (erank_lt d Hd He) as Hr.
  pose proof (collect_slots_spec (valid_flags rs) false 0 ND NE ltac:(lia) ltac:(lia)) as H. unfold erased.
  destruct (collect_slots _ _ _ _ _) as [e slots]. apply H; [done|done|lia].
Qed.

Definition coefficient (system : list F) (k d : Z) : F :=
  if erased_slot d then get system (k * NE + erank d)
  else fsum 0 NE (fun i => fmul (get system (k * NE + i)) (cauchy (vget 0 subs i) d)).

Lemma recovery_row_spec system k m :
  0 <= k < NE -> zlen m = NE * ND ->
  let m' := recovery_row rs subs erased system k m in
  zlen m' = NE * ND /\
  forall r d, 0 <= r < NE -> 0 <= d < ND -> get m' (r * ND + d) = if r =? k then coefficient system k d else get m (r * ND + d).
Proof.
  intros Hk Hm. unfold recovery_row. lazymatch goal with |- context [for_range 0 ND ?b m] => set (body1 := b) end.
  set (m1 := for_range 0 ND body1 m).
  set (P t (v : list F) := zlen v = NE * ND /\ forall r d, 0 <= r < NE -> 0 <= d < ND ->
    get v (r * ND + d) = if (r =? k) && (d <? t) && negb (erased_slot d) then coefficient system k d else get m (r * ND + d)).
  assert (H1 : P ND m1).
  { apply for_range_ind; [lia|split; [done|intros r d Hr Hd; zbool; done]|]. intros t v Ht [Hv H]. unfold P, body1. cbv beta.
    rewrite <- (flagged_false t). destruct (erased_slot t) eqn:Et.
    - split; [done|]. intros r d Hr Hd. rewrite H by done. destruct (Z.eq_dec d t) as [->|]; [rewrite Et; zbool; done|]. by zbool.
    - split; [by rewrite zlen_vset|]. intros r d Hr Hd. rewrite (cell_vset _ NE ND), H by (done || lia).
      destruct (Z.eq_dec d t) as [->|]; [rewrite Et; zbool; subst; try done; unfold coefficient; by rewrite Et|]. by zbool. }
  cbv zeta. destruct H1 as [Hm1 H1].
  set (Q t (v : list F) := zlen v = NE * ND /\ forall r d, 0 <= r < NE -> 0 <= d < ND ->
    get v (r * ND + d) = if (r =? k) && erased_slot d && (erank d <? t) then coefficient system k d else get m1 (r * ND + d)).
  assert (H2 : Q NE (for_range 0 NE (fun r m => vset m (k * ND + vget 0 erased r) (get system (k * NE + r))) m1)).
  { apply for_range_ind; [lia|split; [done|]|].
    - intros r d Hr Hd. destruct (erased_slot d) eqn:Ed; [|by rewrite andb_false_r]. pose proof (erank_lt d Hd Ed). zbool; done.
    - intros t v Ht [Hv H]. destruct (erased_spec t Ht) as (Her & Hef & Erk). split; [by rewrite zlen_vset|]. intros r d Hr Hd.
      rewrite (cell_vset _ NE ND), H by (done || lia). destruct (Z.eq_dec d (vget 0 erased t)) as [->|Hdt].
      + rewrite Hef, Erk, Z.eqb_refl. zbool; try done. unfold coefficient. by rewrite Hef, Erk.
      + rewrite (proj2 (Z.eqb_neq d _) Hdt), andb_false_r. destruct (erased_slot d) eqn:Ed; [|by rewrite !andb_false_r].
        assert (erank d <> t) by (intros <-; by rewrite erased_at in Hdt). by zbool. }
  destruct H2 as [Hm2 H2]. split; [done|]. intros r d Hr Hd. rewrite H2, H1 by done.
  destruct (erased_slot d) eqn:Ed; [pose proof (erank_lt d Hd Ed)|]; zbool; by subst.
Qed.

Lemma derive_spec :
  exists system,
    inverse_of (system_matrix NE subs erased) NE system /\
    zlen (derive_recovery_coefficients rs) = NE * ND /\
    forall k d, 0 <= k < NE -> 0 <= d < ND -> get (derive_recovery_coefficients rs) (k * ND + d) = coefficient system k d.
Proof.
  pose proof ne_nonneg as H0. pose proof Hsum as Hs. unfold GF_SIZE in Hs.
  destruct (system_nonsingular NE subs erased H0) as (system & Einv & Hinv).
  - intros i Hi. destruct (subs_spec i Hi) as (H & _ & _). unfold word. lia.
  - intros i Hi. destruct (erased_spec i Hi) as (H & _ & _). unfold word. lia.
  - intros i k Hi Hk Hik E. destruct (subs_spec i Hi) as (_ & _ & Hi'), (subs_spec k Hk) as (_ & _ & Hk'). rewrite E in Hi'. lia.
  - intros i k Hi Hk Hik E. destruct (erased_spec i Hi) as (_ & _ & Hi'), (erased_spec k Hk) as (_ & _ & Hk'). rewrite E in Hi'. lia.
  - intros i k Hi Hk E. destruct (subs_spec i Hi) as (Hi' & _), (erased_spec k Hk) as (Hk' & _). lia.
  - exists system. split; [done|]. unfold derive_recovery_coefficients. rewrite (wrap_small 32 (ND + nr rs)) by lia.
    pose proof (collect_slots_spec (valid_flags rs) false 0 ND NE ltac:(lia) H0) as He.
    pose proof (collect_slots_spec (valid_flags rs) true ND (ND + nr rs) NE ltac:(lia) H0) as Hp.
    assert (Xe := surjective_pairing (collect_slots (valid_flags rs) false 0 ND NE)). fold erased in Xe.
    assert (Xs := surjective_pairing (collect_slots (valid_flags rs) true ND (ND + nr rs) NE)). fold subs in Xs.
    rewrite Xe in He |- *. rewrite Xs in Hp |- *. destruct He as (He & _), Hp as (Hp & _).
    rewrite He, Hp, !(proj2 (Z.eqb_eq _ _)) by lia. cbn [negb orb].
    rewrite Einv.
    apply (for_range_ind (fun t v => zlen v = NE * ND /\ forall k d, 0 <= k < t -> 0 <= d < ND -> get v (k * ND + d) = coefficient system k d));
      [done|split; [apply zlen_assign; nia|lia]|].
    intros t v Ht [Hv H]. destruct (recovery_row_spec system t v Ht Hv) as [Hv' H']. cbv zeta in *.
    split; [exact Hv'|]. intros k d Hk Hd. rewrite H' by lia. zbool; [by subst|]. apply H; lia.
Qed.

(** The coefficients applied to the slots, with the [r]-th intact parity unit in
    the place of the [r]-th missing data unit, are the data. *)
Lemma recovery_sum (D s : Z -> F) d :
  (forall d, 0 <= d < ND -> erased_slot d = false -> s d = D d) ->
  (forall d x, 0 <= d < ND -> erased_slot d = true -> ND <= x < ND + nr rs -> valid_slot x = true -> vrank x = erank d ->
     s d = fsum 0 ND (fun j => fmul (cauchy x j) (D j))) ->
  0 <= d < ND -> erased_slot d = true ->
  fsum 0 ND (fun j => fmul (get (derive_recovery_coefficients rs) (erank d * ND + j)) (s j)) = D d.
Proof.
  intros Hv Hs Hd Hed. destruct derive_spec as (X & (_ & _ & Hinv) & _ & Hmx). pose proof ne_nonneg as H0.
  pose proof (erank_lt d Hd Hed) as Hk. set (k := erank d) in *.
  set (P x := fsum 0 ND (fun j => fmul (cauchy x j) (D j))).
  set (healthy i := fsum 0 ND (fun j => if erased_slot j then f0 else fmul (cauchy (vget 0 subs i) j) (D j))).
  set (lost i := fsum 0 NE (fun r => fmul (cauchy (vget 0 subs i) (vget 0 erased r)) (D (vget 0 erased r)))).
  assert (HP : forall i, P (vget 0 subs i) = fadd (healthy i) (lost i)).
  { intros i. unfold lost. rewrite Hne, <- fsum_rank by lia. unfold healthy, P. rewrite <- fsum_add. apply fsum_ext.
    intros j Hj. destruct (erased_slot j) eqn:Ej; [rewrite erased_at by done|]; ring. }
  transitivity (fadd (fsum 0 NE (fun i => fmul (get X (k * NE + i)) (healthy i)))
                     (fsum 0 NE (fun i => fmul (get X (k * NE + i)) (P (vget 0 subs i))))).
  - rewrite Hne at 2. rewrite <- (fsum_rank (valid_flags rs) false ND (fun i => fmul (get X (k * NE + i)) (P (vget 0 subs i)))) by lia.
    rewrite (fsum_ext 0 NE _ (fun i => fsum 0 ND (fun j => if erased_slot j then f0 else
      fmul (fmul (get X (k * NE + i)) (cauchy (vget 0 subs i) j)) (D j)))).
    2: { intros i Hi. unfold healthy. rewrite <- fsum_mul. apply fsum_ext. intros j Hj. destruct (erased_slot j); ring. }
    rewrite fsum_swap, <- fsum_add. apply fsum_ext. intros j Hj. rewrite Hmx by done. unfold coefficient.
    destruct (erased_slot j) eqn:Ej.
    + rewrite (fsum_zero 0 NE) by done. pose proof (erank_lt j Hj Ej) as Hr. destruct (subs_spec _ Hr) as (Hx & Hvx & Hrx).
      rewrite (Hs j _ Hj Ej Hx Hvx Hrx). fold (P (vget 0 subs (erank j))). ring.
    + rewrite Hv by done. rewrite (fsum_ext 0 NE (fun i => fmul (fmul _ _) (D j)) (fun i => fmul (D j) (fmul (get X (k * NE + i)) (cauchy (vget 0 subs i) j))))
        by (intros; ring). rewrite fsum_mul. ring.
  - rewrite (fsum_ext 0 NE (fun i => fmul _ (P _)) (fun i => fadd (fmul (get X (k * NE + i)) (healthy i)) (fmul (get X (k * NE + i)) (lost i))))
      by (intros i Hi; rewrite HP; ring).
    rewrite fsum_add. set (h := fsum 0 NE _) at 1 2.
    transitivity (fsum 0 NE (fun i => fmul (get X (k * NE + i)) (lost i))); [ring|]. unfold lost.
    rewrite (fsum_ext 0 NE _ (fun i => fsum 0 NE (fun r => fmul (D (vget 0 erased r)) (fmul (get X (k * NE + i)) (cauchy (vget 0 subs i) (vget 0 erased r)))))).
    2: { intros i Hi. rewrite <- fsum_mul. apply fsum_ext. intros r Hr. ring. }
    rewrite fsum_swap. rewrite (fsum_ext 0 NE _ (fun r => fmul (D (vget 0 erased r)) (delta r k))).
    2: { intros r Hr. rewrite fsum_mul. f_equal. destruct (system_matrix_spec NE subs erased H0) as [_ Hsm].
         transitivity (delta (F := F) k r); [|unfold delta; zbool; by try lia]. rewrite <- (Hinv k r) by done.
         apply fsum_ext. intros i Hi. by rewrite Hsm. }
    rewrite fsum_delta by done. unfold k. by rewrite erased_at.
Qed.
End Recovery.

End Coefficients.

(** ** The code over words

    [h] carries the operations of one field onto another; the inclusion of
    [gf] in [Z] is such a map, so what holds of the code over [gf] holds of
    the code over the words of the program. *)

Section Transfer.
Context {F G : Type} {FF : FieldOps F} {GG : FieldOps G} (h : F -> G).
Context (h0 : h f0 = f0) (h1 : h f1 = f1).
Context (hadd : forall a b, fadd (h a) (h b) = h (fadd a b)).
Context (hmul : forall a b, fmul (h a) (h b) = h (fmul a b)).
Context (hinv : forall a, finv (h a) = h (finv a)).
Context (heqb : forall a b, feqb (h a) (h b) = feqb a b).
Context (hword : forall z, word z -> fword z = h (fword z)).

Lemma h_get v k : vget f0 (map h v) k = h (vget f0 v k).
Proof. unfold vget. rewrite list_lookup_fmap. by destruct (v !! Z.to_nat k). Qed.

Lemma h_set v k x : vset (map h v) k (h x) = map h (vset v k x).
Proof. unfold vset. symmetry. apply list_fmap_insert. Qed.

Lemma h_assign n : assign n f0 = map h (assign n f0).
Proof. unfold assign. rewrite <- h0. symmetry. apply fmap_replicate. Qed.

Lemma h_eqb0 a : feqb (h a) f0 = feqb a f0.
Proof. rewrite <- h0. apply heqb. Qed.

Lemma h_if (b : bool) x y : (if b then h x else h y) = h (if b then x else y).
Proof. by destruct b. Qed.

Lemma h_sum a n f : fsum a n (fun j => h (f j)) = h (fsum a n f).
Proof. unfold fsum. rewrite <- h0. apply for_range_hom. intros i t _. apply hadd. Qed.

Lemma find_pivot_h k lu n col sel : find_pivot k (map h lu) n col sel = find_pivot k lu n col sel.
Proof. revert sel. induction k as [|k IH]; intros sel; cbn [find_pivot]; [done|]. by rewrite h_get, h_eqb0, IH. Qed.

Lemma swap_ranges_h lu n sel col : swap_ranges (map h lu) n sel col = map h (swap_ranges lu n sel col).
Proof. apply (for_range_hom (map h)). intros i t _. cbv zeta. by rewrite !h_get, !h_set. Qed.

Lemma eliminate_row_h n col p row lu : eliminate_row n col (h p) row (map h lu) = map h (eliminate_row n col p row lu).
Proof.
  unfold eliminate_row. cbv zeta. rewrite h_get, hmul, h_set, h_eqb0. destruct (feqb _ _); [done|].
  apply (for_range_hom (map h)). intros i t _. by rewrite !h_get, hmul, hadd, h_set.
Qed.

Definition map_lu (st : list F * list Z) : list G * list Z := (map h (fst st), snd st).

Lemma lu_column_h n col st : lu_column n col (map_lu st) = option_map map_lu (lu_column n col st).
Proof.
  destruct st as [lu rows]. unfold lu_column, map_lu. cbn [fst snd]. rewrite find_pivot_h. cbv zeta.
  destruct (_ =? n); [done|]. rewrite swap_ranges_h. destruct (_ =? col); cbn [option_map fst snd]; rewrite h_get, hinv; do 2 f_equal;
    apply (for_range_hom (map h)); intros i t _; apply eliminate_row_h.
Qed.

Lemma lu_factor_h m n : lu_factor (map h m) n = option_map map_lu (lu_factor m n).
Proof.
  apply (for_range_hom (option_map map_lu) _ _ 0 n (Some (m, _))). intros i [st|] _; [apply lu_column_h|done].
Qed.

Lemma solve_forward_h lu rows n c y : solve_forward (map h lu) rows n c (map h y) = map h (solve_forward lu rows n c y).
Proof.
  apply (for_range_hom (map h)). intros i t _. rewrite <- h_set. f_equal. rewrite <- h0, <- h1, h_if.
  apply for_range_hom. intros j acc _. rewrite h0, !h_get. by rewrite hmul, hadd.
Qed.

Lemma solve_back_h lu n c y x : solve_back (map h lu) n c (map h y) (map h x) = map h (solve_back lu n c y x).
Proof.
  apply (for_down_hom (map h)). intros i t _. cbv zeta. rewrite <- h_set, <- hmul, <- hinv, <- h_get. do 2 f_equal.
  rewrite h_get. apply for_range_hom. intros j acc _. by rewrite !h_get, hmul, hadd.
Qed.

Lemma invert_square_h m n : invert_square (map h m) n = option_map (map h) (invert_square m n).
Proof.
  unfold invert_square. rewrite lu_factor_h. destruct (lu_factor m n) as [[lu rows]|]; [|done]. cbn [option_map map_lu fst snd]. f_equal.
  rewrite !h_assign. set (g := fun st : list F * list F => (map h (fst st), map h (snd st))).
  change (map h (assign n f0), map h (assign (n * n) f0)) with (g (assign n f0, assign (n * n) f0)).
  transitivity (snd (g (for_range 0 n (fun c '(y, x) => let y := solve_forward lu rows n c y in (y, solve_back lu n c y x))
    (assign n f0, assign (n * n) f0)))); [|done]. f_equal. apply for_range_hom. intros i [y x] _. unfold g. cbn [fst snd]. cbv zeta.
  by rewrite solve_forward_h, solve_back_h.
Qed.

Lemma cauchy_h x d : word x -> word d -> finv (fadd (fword x) (fword d)) = h (finv (fadd (fword x) (fword d))).
Proof. intros Hx Hd. by rewrite (hword x), (hword d), hadd, hinv. Qed.

Lemma system_matrix_h n subs erased :
  (forall i, 0 <= i < n -> word (vget 0 subs i)) -> (forall i, 0 <= i < n -> word (vget 0 erased i)) ->
  system_matrix n subs erased = map h (system_matrix n subs erased).
Proof.
  intros Hs He. unfold system_matrix. rewrite h_assign. apply for_range_hom. intros i t Hi.
  apply for_range_hom. intros j t' Hj. by rewrite cauchy_h, h_set by auto.
Qed.

Definition with_mx {A B} (rs : ReedSolomon16 A) (m : list B) : ReedSolomon16 B :=
  {| nd := nd rs; nr := nr rs; ne := ne rs; valid_flags := valid_flags rs; mx := m |}.

Lemma recovery_row_h (rs : ReedSolomon16 F) subs erased system k m gm :
  nd rs <= 2 ^ 16 -> (forall i, 0 <= i < ne rs -> word (vget 0 subs i)) ->
  recovery_row (with_mx rs gm) subs erased (map h system) k (map h m) = map h (recovery_row rs subs erased system k m).
Proof.
  intros Hn Hs. unfold recovery_row. cbn [with_mx nd ne valid_flags].
  rewrite (for_range_hom (map h) (fun d m => if negb (vget false (valid_flags rs) d) then m else
    vset m (k * nd rs + d) (for_range 0 (ne rs) (fun i acc => fadd acc (fmul (vget f0 system (k * ne rs + i))
      (finv (fadd (fword (vget 0 subs i)) (fword d))))) f0))).
  - apply for_range_hom. intros i t _. by rewrite h_get, h_set.
  - intros d t Hd. destruct (vget _ _ _); [|done]. cbn [negb]. rewrite <- h_set. f_equal. rewrite <- h0. apply for_range_hom.
    intros i acc Hi. rewrite cauchy_h by (auto || unfold word; lia). rewrite h0, h_get. by rewrite hmul, hadd.
Qed.

Lemma derive_h (rs : ReedSolomon16 F) gm :
  0 < nd rs -> 0 <= nr rs -> nd rs + nr rs <= GF_SIZE -> ne rs = rank (valid_flags rs) false 0 (nd rs) ->
  ne rs <= rank (valid_flags rs) true (nd rs) (nd rs + nr rs) ->
  derive_recovery_coefficients (with_mx rs gm) = map h (derive_recovery_coefficients rs).
Proof.
  intros Hn Hr Hs He Hv. unfold derive_recovery_coefficients. cbn [with_mx nd nr ne valid_flags]. unfold GF_SIZE in *.
  rewrite (wrap_small 32 (nd rs + nr rs)) by lia.
  pose proof (erased_spec rs Hn He) as He'. pose proof (subs_spec rs Hr Hv) as Hs'. cbv zeta in He', Hs'.
  destruct (collect_slots _ false _ _ _) as [e er]. destruct (collect_slots _ true _ _ _) as [p su]. cbn [snd] in *.
  rewrite h_assign. destruct (_ || _); [done|].
  assert (Ws : forall i, 0 <= i < ne rs -> word (vget 0 su i)) by (intros i Hi; destruct (Hs' i Hi) as (H & _); unfold word; lia).
  assert (We : forall i, 0 <= i < ne rs -> word (vget 0 er i)) by (intros i Hi; destruct (He' i Hi) as (H & _); unfold word; lia).
  rewrite system_matrix_h, invert_square_h by done. destruct (invert_square _ _) as [x|]; [|done]. cbn [option_map].
  apply for_range_hom. intros i t _. apply recovery_row_h; [lia|done].
Qed.

End Transfer.

Section Words.

Definition gf_val : gf -> Z := @proj1_sig _ _.
Abbreviation h := gf_val.

Lemma word_list_lift (m : list Z) : Forall word m -> exists m' : list gf, map h m' = m.
Proof.
  induction 1 as [|x m Hx _ (m' & <-)]; [by exists []|]. by exists (gf_of x Hx :: m').
Qed.

Lemma word_list (m : list gf) : Forall word (map h m).
Proof. induction m as [|x m IH]; constructor; [apply gf_word|done]. Qed.

Lemma h_word z : word z -> fword z = h (fword z).
Proof. intros Hz. cbn [fword gf16_ops gf_ops gf_of proj1_sig]. symmetry. apply wrap_small. exact Hz. Qed.

Lemma sum_word a n (f : Z -> gf) : fsum a n (fun j => h (f j)) = h (fsum a n f).
Proof. by apply h_sum. Qed.

Lemma get_word (m : list gf) k : vget 0 (map h m) k = h (vget f0 m k).
Proof. exact (h_get h eq_refl m k). Qed.

Lemma delta_word i c : delta i c = h (delta i c).
Proof. unfold delta. by destruct (i =? c). Qed.

Lemma zlen_map_word (m : list gf) : zlen (map h m) = zlen m.
Proof. apply zlen_map. Qed.

Lemma product_word (m x : list gf) n i c :
  fsum 0 n (fun j => gf_mul (vget 0 (map h m) (i * n + j)) (vget 0 (map h x) (j * n + c))) =
  h (fsum 0 n (fun j => fmul (vget f0 m (i * n + j)) (vget f0 x (j * n + c)))).
Proof. rewrite <- sum_word. apply fsum_ext. intros j _. by rewrite !get_word. Qed.

Lemma inverse_of_word m n x : inverse_of (F := gf) m n x -> inverse_of (F := Z) (map h m) n (map h x).
Proof.
  intros (Hl & H1 & H2). split; [by rewrite zlen_map_word|].
  split; intros i c Hi Hc; rewrite delta_word; [rewrite <- H1|rewrite <- H2]; try done; apply product_word.
Qed.

Lemma invert_square_word m n : invert_square (map h m) n = option_map (map h) (invert_square m n).
Proof. by apply invert_square_h. Qed.

Lemma derive_word (rs : ReedSolomon16 gf) (gm : list Z) :
  0 < nd rs -> 0 <= nr rs -> nd rs + nr rs <= GF_SIZE -> ne rs = rank (valid_flags rs) false 0 (nd rs) ->
  ne rs <= rank (valid_flags rs) true (nd rs) (nd rs + nr rs) ->
  derive_recovery_coefficients (with_mx rs gm) = map h (derive_recovery_coefficients rs).
Proof. intros. apply derive_h; try done. exact h_word. Qed.

Lemma invert_square_correct_spec (m : list Z) n :
  0 <= n -> zlen m = n * n -> Forall word m ->
  match invert_square m n with
  | Some x => Forall word x /\ inverse_of m n x
  | None =>
      exists v, zlen v = n /\ Forall word v /\ (exists j, 0 <= j < n /\ vget 0 v j <> 0) /\
        forall i, 0 <= i < n -> row_times m n i (vget 0 v) = 0
  end.
Proof.
  intros Hn Hl Hw. destruct (word_list_lift m Hw) as (m' & <-). rewrite invert_square_word. rewrite zlen_map_word in Hl.
  pose proof (invert_square_spec m' n Hn Hl) as H. destruct (invert_square m' n) as [x|]; cbn [option_map].
  { split; [apply word_list|exact (inverse_of_word m' n x H)]. }
  destruct H as (v & (j & Hj & Hv) & Hz). set (v' := map v (seqZ 0 n)).
  assert (Hv' : forall k, 0 <= k < n -> vget f0 v' k = v k).
  { intros k Hk. unfold vget, v'. rewrite list_lookup_fmap, lookup_seqZ_lt by lia. cbn. f_equal. lia. }
  exists (map h v'). split; [|split; [apply word_list|split]].
  - rewrite zlen_map_word. unfold v', zlen. rewrite length_map, length_seqZ. lia.
  - exists j. split; [done|]. rewrite get_word, Hv' by done. intros E. apply Hv. by apply gf_eq.
  - intros i Hi. transitivity (h (row_times m' n i v)); [|by rewrite Hz]. unfold row_times. rewrite <- sum_word.
    apply fsum_ext. intros k Hk. by rewrite !get_word, Hv'.
Qed.

Lemma gf_val_fword z : word z -> h (fword z) = z.
Proof. intros Hz. by rewrite <- h_word. Qed.

Lemma cauchy_word x d : word x -> word d -> cauchy x d = h (cauchy x d).
Proof. intros Hx Hd. unfold cauchy. apply (cauchy_h h); try done. exact h_word. Qed.

(** The parity word of slot [x]. *)
Lemma parity_word n x (D : Z -> Z) :
  n <= GF_SIZE -> word x -> (forall j, 0 <= j < n -> word (D j)) ->
  fsum 0 n (fun i => gf_mul (cauchy x i) (D i)) = h (fsum 0 n (fun i => fmul (cauchy x i) (fword (D i)))).
Proof.
  intros Hn Hx HD. rewrite <- sum_word. apply fsum_ext. intros i Hi. unfold GF_SIZE in Hn.
  rewrite cauchy_word by (done || unfold word; lia). rewrite <- (gf_val_fword (D i)) at 1 by auto. done.
Qed.

(** [recovery_sum] over words. *)
Lemma recovery_words (rs : ReedSolomon16 Z) (D s : Z -> Z) d :
  0 < nd rs -> 0 <= nr rs -> nd rs + nr rs <= GF_SIZE ->
  ne rs = rank (valid_flags rs) false 0 (nd rs) -> ne rs <= rank (valid_flags rs) true (nd rs) (nd rs + nr rs) ->
  (forall j, 0 <= j < nd rs -> word (D j)) ->
  (forall j, 0 <= j < nd rs -> flagged (valid_flags rs) false j = false -> s j = D j) ->
  (forall j x, 0 <= j < nd rs -> flagged (valid_flags rs) false j = true -> nd rs <= x < nd rs + nr rs ->
     flagged (valid_flags rs) true x = true -> rank (valid_flags rs) true (nd rs) x = rank (valid_flags rs) false 0 j ->
     s j = fsum 0 (nd rs) (fun i => gf_mul (cauchy x i) (D i))) ->
  0 <= d < nd rs -> flagged (valid_flags rs) false d = true ->
  fsum 0 (nd rs)
    (fun j => gf_mul (vget 0 (derive_recovery_coefficients rs) (rank (valid_flags rs) false 0 d * nd rs + j)) (s j)) = D d.
Proof.
  intros Hn Hr Hs He Ha HD Hv Hp Hd Hf. set (rs' := with_mx rs ([] : list gf)).
  replace (derive_recovery_coefficients rs) with (map h (derive_recovery_coefficients rs')).
  2: { rewrite <- (derive_word rs' (mx rs)) by done. by destruct rs. }
  set (D' j := fword (F := gf) (D j)). set (s' j := fword (F := gf) (s j)).
  assert (Hw : forall j, 0 <= j < nd rs -> word (s j)).
  { intros j Hj. destruct (flagged (valid_flags rs) false j) eqn:Ej; [|rewrite Hv by done; auto].
    pose proof (erank_lt rs He j Hj Ej) as Hk. destruct (subs_spec rs Hr Ha _ Hk) as (Hx & Hfx & Hrx).
    rewrite (Hp j _ Hj Ej Hx Hfx Hrx).
    cbv zeta in Hx. unfold GF_SIZE in Hs. rewrite parity_word; [apply gf_word|unfold GF_SIZE; lia|unfold word; lia|done]. }
  transitivity (h (fsum 0 (nd rs') (fun j => fmul (vget f0 (derive_recovery_coefficients rs') (rank (valid_flags rs') false 0 d * nd rs' + j)) (s' j)))).
  - rewrite <- sum_word. apply fsum_ext. intros j Hj. rewrite get_word. unfold s'. rewrite <- (gf_val_fword (s j)) at 1 by auto. done.
  - rewrite (recovery_sum rs' Hn Hr Hs He Ha D' s'); [by apply gf_val_fword, HD| | |done..].
    + intros j Hj Hj'. unfold s', D'. by rewrite Hv.
    + intros j x Hj Hj' Hx Hfx Hrx. unfold s'. apply gf_eq. change (h (fword (s j)) = h (fsum 0 (nd rs') (fun i => fmul (cauchy x i) (D' i)))).
      change (nd rs') with (nd rs) in *. change (nr rs') with (nr rs) in *.
      rewrite gf_val_fword by auto. rewrite (Hp j x) by done. unfold GF_SIZE in Hs.
      apply parity_word; [unfold GF_SIZE; lia|unfold word; lia|done].
Qed.

(** *** [init] *)

Lemma zlen_resize {A} (d : A) v n : 0 <= n -> zlen (resize d v n) = n.
Proof. intros Hn. unfold resize, zlen. rewrite length_app, length_take, length_replicate. lia. Qed.

Lemma size_check a b : 0 < b -> 0 <= a -> a + b <= GF_SIZE -> (a >? SIZE_MAX / b) = false.
Proof.
  unfold GF_SIZE, SIZE_MAX. intros Hb Ha Hs. rewrite Z.gtb_ltb. apply Z.ltb_ge. apply Z.div_le_lower_bound; nia.
Qed.

Lemma init_guard n r : 0 < n -> 0 < r -> n + r <= GF_SIZE -> (n =? 0) || (r =? 0) || (u32 (n + r) >? GF_SIZE) = false.
Proof.
  unfold GF_SIZE. intros Hn Hr Hs. rewrite wrap_small by lia. rewrite !(proj2 (Z.eqb_neq _ _)) by lia.
  rewrite Z.gtb_ltb. by rewrite (proj2 (Z.ltb_ge _ _)) by lia.
Qed.

Lemma init_encode alloc n r (rs : ReedSolomon16 Z) :
  0 < n -> 0 < r -> n + r <= GF_SIZE -> alloc (r * n) = true ->
  exists rs', init alloc n r None rs = (true, rs') /\ nd rs' = n /\ nr rs' = r /\ zlen (mx rs') = r * n /\
    forall i d, 0 <= i < r -> 0 <= d < n -> vget 0 (mx rs') (i * n + d) = cauchy (n + i) d.
Proof.
  intros Hn Hr Hs Ha. unfold init. cbn [nd nr ne valid_flags mx]. cbv zeta. rewrite init_guard, size_check, Ha by lia. cbn [negb].
  eexists. split; [done|]. cbn [nd nr mx].
  match goal with |- context [fill_parity_coefficients ?q] => destruct (fill_parity_spec q) as [Hl H] end;
    cbn [nd nr mx] in *; [lia..|apply zlen_resize; nia|]. done.
Qed.

Definition flag_bits (flags : list Z) : list bool := map (fun b => negb (b =? 0)) flags.

(** The decoder is set up exactly when some data unit is missing and the intact
    parity units are enough. *)
Lemma init_decode alloc n r flags (rs : ReedSolomon16 Z) :
  0 < n -> 0 < r -> n + r <= GF_SIZE -> zlen flags = n + r -> (forall k, alloc k = true) ->
  let vf := flag_bits flags in
  let missing := rank vf false 0 n in
  let intact := rank vf true n (n + r) in
  fst (init alloc n r (Some flags) rs) = (0 <? missing) && (missing <=? intact) /\
  (0 < missing <= intact ->
   let rs' := snd (init alloc n r (Some flags) rs) in
   nd rs' = n /\ nr rs' = r /\ ne rs' = missing /\ valid_flags rs' = vf /\
   exists rs0, nd rs0 = n /\ nr rs0 = r /\ ne rs0 = missing /\ valid_flags rs0 = vf /\ mx rs' = derive_recovery_coefficients rs0).
Proof.
  intros Hn Hr Hs Hf Ha vf missing intact. unfold init. cbn [nd nr ne valid_flags mx]. cbv zeta. rewrite init_guard, Ha by done. cbn [negb].
  unfold GF_SIZE in Hs. rewrite (wrap_small 32) by lia. rewrite take_ge by (unfold zlen in Hf; lia).
  fold (flag_bits flags). fold vf. change (count_flags vf false 0 n) with missing. change (count_flags vf true n (n + r)) with intact.
  pose proof (rank_mono vf false 0 0 n ltac:(lia)) as Hm. rewrite rank_start in Hm. fold missing in Hm.
  pose proof (rank_mono vf true n n (n + r) ltac:(lia)) as Hi. rewrite rank_start in Hi. fold intact in Hi.
  rewrite Z.gtb_ltb. destruct (Z.ltb_spec intact missing) as [H1|H1].
  { cbn [orb fst]. split; [|lia]. rewrite (proj2 (Z.leb_gt _ _)) by lia. by rewrite andb_false_r. }
  destruct (Z.eqb_spec missing 0) as [H2|H2]; cbn [orb fst].
  { split; [|lia]. by rewrite (proj2 (Z.ltb_ge _ _)) by lia. }
  rewrite (proj2 (Z.eqb_neq intact 0)), size_check, Ha by (unfold GF_SIZE; lia). cbn [negb fst snd nd nr ne valid_flags mx].
  split; [by rewrite (proj2 (Z.ltb_lt _ _)), (proj2 (Z.leb_le _ _)) by lia|]. intros _. split; [done|]. split; [done|]. split; [done|].
  split; [done|]. eexists. split; [|split; [|split; [|split; [|reflexivity]]]]; done.
Qed.

End Words.

(** C17. [invert_square] is right for every square matrix of words: when it
    returns a matrix, both products with the argument are the identity; when it
    fails, the argument is singular, with a nonzero vector of words it maps to
    zero as evidence. *)
Theorem invert_square_correct (m : list Z) n :
  0 <= n -> zlen m = n * n -> Forall word m ->
  match invert_square m n with
  | Some x => Forall word x /\ inverse_of m n x
  | None =>
      exists v, zlen v = n /\ Forall word v /\ (exists j, 0 <= j < n /\ vget 0 v j <> 0) /\
        forall i, 0 <= i < n -> row_times m n i (vget 0 v) = 0
  end.
Proof. apply invert_square_correct_spec. Qed.

Lemma invert_square_correct_witness :
  match invert_square [2; 3; 5; 7; 11; 13; 17; 19; 23] 3 with
  | Some x => Forall word x /\ inverse_of [2; 3; 5; 7; 11; 13; 17; 19; 23] 3 x
  | None =>
      exists v, zlen v = 3 /\ Forall word v /\ (exists j, 0 <= j < 3 /\ vget 0 v j <> 0) /\
        forall i, 0 <= i < 3 -> row_times [2; 3; 5; 7; 11; 13; 17; 19; 23] 3 i (vget 0 v) = 0
  end.
Proof.
  apply (invert_square_correct [2; 3; 5; 7; 11; 13; 17; 19; 23] 3); [lia|reflexivity|]. repeat (apply Forall_cons_2; [unfold word; lia|]). by apply Forall_nil_2.
Defined.
