(* ===== verification/Rs16Fold.v ===== *)
(** Folding a data sector into a parity sector: [update_ecc] and
    [update_ecc_scalar] of [src/recovery/rs16.cpp] with the direct, the table,
    the SSSE3 and the AVX2 paths.

    A sector is a list of bytes and every access is checked; the two sectors
    are distinct, as at every call.  The CPU features are parameters; the GFNI
    and NEON kernels are not modelled. *)

From Stdlib Require Import ZArith Lia.
From stdpp Require Import base tactics list numbers.
From S2P Require Import Prelude Bytes Simd Gf16 Loops Linear Rs16.

Local Open Scope Z_scope.

(** ** Word loops *)

(** [d[0] | (d[1] << 8)] at [off]. *)
Definition word_at (m : list Z) (off : Z) : res Z :=
  b0 ← byte_at m off;
  b1 ← byte_at m (off + 1);
  mret (u16 (Z.lor b0 (Z.shiftl b1 8))).

(** One word of [ecc] folded with the product of one word of [data]. *)
Definition fold_word (mul : Z -> Z) (data ecc : list Z) (off : Z) : res (list Z) :=
  b ← word_at data off;
  ec ← word_at ecc off;
  let ec := Z.lxor ec (u16 (mul b)) in
  store ecc off [Z.land ec 0xFF; Z.land (Z.shiftr ec 8) 0xFF].

(** [while (remaining-- > 0)]. *)
Fixpoint word_loop (remaining : nat) (mul : Z -> Z) (data ecc : list Z) (off : Z) : res (list Z) :=
  match remaining with
  | O => mret ecc
  | S remaining' =>
      ecc ← fold_word mul data ecc off;
      word_loop remaining' mul data ecc (off + 2)
  end.

(** [while (remaining >= 4)], then the rest. *)
Fixpoint unrolled_loop (fuel : nat) (remaining : Z) (mul : Z -> Z) (data ecc : list Z) (off : Z) : res (list Z) :=
  match fuel with
  | O => Fuel
  | S fuel' =>
      if remaining >=? 4 then
        ecc ← fold_word mul data ecc off;
        ecc ← fold_word mul data ecc (off + 2);
        ecc ← fold_word mul data ecc (off + 4);
        ecc ← fold_word mul data ecc (off + 6);
        unrolled_loop fuel' (remaining - 4) mul data ecc (off + 8)
      else word_loop (Z.to_nat remaining) mul data ecc off
  end.

(** The last byte of a sector of odd size. *)
Definition odd_tail (coeff : Z) (data ecc : list Z) (block_size : Z) : res (list Z) :=
  if negb (block_size mod 2 =? 0) then
    let last := block_size - 1 in
    word ← byte_at data last;
    let product := u16 (gf_mul coeff word) in
    e ← byte_at ecc last;
    store ecc last [Z.lxor e (Z.land product 0xFF)]
  else mret ecc.

Definition mul_lo (coeff : Z) : list Z := map (fun i => u16 (gf_mul coeff i)) (seqZ 0 256).
Definition mul_hi (coeff : Z) : list Z := map (fun i => u16 (gf_mul coeff (Z.shiftl i 8))) (seqZ 0 256).

Definition table_mul (lo hi : list Z) (b : Z) : Z :=
  Z.lxor (nthZ lo (Z.land b 0xFF)) (nthZ hi (Z.land (Z.shiftr b 8) 0xFF)).

Definition TABLE_AMORTISE_BYTES : Z := 2048.

(** [if (data_num == 0) memset(ecc, 0, block_size)]. *)
Definition clear_first (data_num : Z) (ecc : list Z) (block_size : Z) : res (list Z) :=
  if data_num =? 0 then store ecc 0 (replicate (Z.to_nat block_size) 0) else mret ecc.

(** [mx_[ecc_num * nd_ + data_num]] in 32-bit arithmetic. *)
Definition coefficient_at (rs : ReedSolomon16 Z) (data_num ecc_num : Z) : res Z :=
  match mx rs !! Z.to_nat (u32 (u32 (ecc_num * nd rs) + data_num)) with Some c => Ok c | None => Fault end.

Definition update_ecc_scalar (rs : ReedSolomon16 Z) (data_num ecc_num : Z) (data ecc : list Z) (block_size : Z)
  : res (list Z) :=
  ecc ← clear_first data_num ecc block_size;
  coeff ← coefficient_at rs data_num ecc_num;
  if coeff =? 0 then mret ecc
  else
    let remaining := block_size / 2 in
    if block_size <? TABLE_AMORTISE_BYTES then
      ecc ← word_loop (Z.to_nat remaining) (gf_mul coeff) data ecc 0;
      odd_tail coeff data ecc block_size
    else
      let lo := mul_lo coeff in
      let hi := mul_hi coeff in
      ecc ← unrolled_loop (Z.to_nat remaining + 1) remaining (table_mul lo hi) data ecc 0;
      odd_tail coeff data ecc block_size.

(** ** The x86 kernels *)

Record X86FoldTables := { lo0 : list Z; hi0 : list Z; lo1 : list Z; hi1 : list Z }.

Definition make_x86_fold_tables (k : Z) : X86FoldTables :=
  {| lo0 := map (fun n => Z.land (gf_mul k n) 0xFF) (seqZ 0 16);
     hi0 := map (fun n => Z.land (Z.shiftr (gf_mul k n) 8) 0xFF) (seqZ 0 16);
     lo1 := map (fun n => Z.land (gf_mul k (Z.shiftl n 4)) 0xFF) (seqZ 0 16);
     hi1 := map (fun n => Z.land (Z.shiftr (gf_mul k (Z.shiftl n 4)) 8) 0xFF) (seqZ 0 16) |}.

Definition shuf_deint : list Z := [0; 2; 4; 6; 8; 10; 12; 14; 1; 3; 5; 7; 9; 11; 13; 15].

(** [rs16_fold_ssse3]: the products of 32 bytes. *)
Definition products_ssse3 (k0 k1 : X86FoldTables) (d_a d_b : list Z) : list Z * list Z :=
  let mask0f := v_set1 0x0F in
  let a := shuffle_epi8 d_a shuf_deint in
  let b := shuffle_epi8 d_b shuf_deint in
  let lo := unpacklo_epi64 a b in
  let hi := unpackhi_epi64 a b in
  let lon0 := v_and lo mask0f in
  let lon1 := v_and (srli_epi16 lo 4) mask0f in
  let hin0 := v_and hi mask0f in
  let hin1 := v_and (srli_epi16 hi 4) mask0f in
  let p_lo_lo := v_xor (shuffle_epi8 (lo0 k0) lon0) (shuffle_epi8 (lo1 k0) lon1) in
  let p_lo_hi := v_xor (shuffle_epi8 (hi0 k0) lon0) (shuffle_epi8 (hi1 k0) lon1) in
  let p_hi_lo := v_xor (shuffle_epi8 (lo0 k1) hin0) (shuffle_epi8 (lo1 k1) hin1) in
  let p_hi_hi := v_xor (shuffle_epi8 (hi0 k1) hin0) (shuffle_epi8 (hi1 k1) hin1) in
  let prod_lo := v_xor p_lo_lo p_hi_lo in
  let prod_hi := v_xor p_lo_hi p_hi_hi in
  (unpacklo_epi8 prod_lo prod_hi, unpackhi_epi8 prod_lo prod_hi).

Fixpoint ssse3_loop (fuel : nat) (k0 k1 : X86FoldTables) (data ecc : list Z) (bytes off : Z) : res (list Z) :=
  match fuel with
  | O => Fuel
  | S fuel' =>
      if off + 32 <=? bytes then
        d_a ← slice data off 16;
        d_b ← slice data (off + 16) 16;
        let '(p_a, p_b) := products_ssse3 k0 k1 d_a d_b in
        e_a ← slice ecc off 16;
        e_b ← slice ecc (off + 16) 16;
        ecc ← store ecc off (v_xor e_a p_a);
        ecc ← store ecc (off + 16) (v_xor e_b p_b);
        ssse3_loop fuel' k0 k1 data ecc bytes (off + 32)
      else mret ecc
  end.

Definition rs16_fold_ssse3 (data ecc : list Z) (bytes : Z) (k0 k1 : X86FoldTables) : res (list Z) :=
  ssse3_loop (Z.to_nat bytes + 1) k0 k1 data ecc bytes 0.

(** A 256-bit vector is a pair of 128-bit lanes; the operations act on each
    lane, and [_mm256_broadcastsi128_si256] repeats one. *)
Definition v256 : Type := list Z * list Z.
Definition broadcast (a : list Z) : v256 := (a, a).
Definition lanes1 (f : list Z -> list Z) (a : v256) : v256 := (f (fst a), f (snd a)).
Definition lanes2 (f : list Z -> list Z -> list Z) (a b : v256) : v256 := (f (fst a) (fst b), f (snd a) (snd b)).

Definition load256 (m : list Z) (off : Z) : res v256 :=
  l ← slice m off 16;
  h ← slice m (off + 16) 16;
  mret (l, h).

Definition store256 (m : list Z) (off : Z) (v : v256) : res (list Z) := store m off (fst v ++ snd v).

Definition products_avx2 (k0 k1 : X86FoldTables) (d_a d_b : v256) : v256 * v256 :=
  let mask0f := broadcast (v_set1 0x0F) in
  let shuf := broadcast shuf_deint in
  let a := lanes2 shuffle_epi8 d_a shuf in
  let b := lanes2 shuffle_epi8 d_b shuf in
  let lo := lanes2 unpacklo_epi64 a b in
  let hi := lanes2 unpackhi_epi64 a b in
  let lon0 := lanes2 v_and lo mask0f in
  let lon1 := lanes2 v_and (lanes1 (fun v => srli_epi16 v 4) lo) mask0f in
  let hin0 := lanes2 v_and hi mask0f in
  let hin1 := lanes2 v_and (lanes1 (fun v => srli_epi16 v 4) hi) mask0f in
  let p_lo_lo := lanes2 v_xor (lanes2 shuffle_epi8 (broadcast (lo0 k0)) lon0) (lanes2 shuffle_epi8 (broadcast (lo1 k0)) lon1) in
  let p_lo_hi := lanes2 v_xor (lanes2 shuffle_epi8 (broadcast (hi0 k0)) lon0) (lanes2 shuffle_epi8 (broadcast (hi1 k0)) lon1) in
  let p_hi_lo := lanes2 v_xor (lanes2 shuffle_epi8 (broadcast (lo0 k1)) hin0) (lanes2 shuffle_epi8 (broadcast (lo1 k1)) hin1) in
  let p_hi_hi := lanes2 v_xor (lanes2 shuffle_epi8 (broadcast (hi0 k1)) hin0) (lanes2 shuffle_epi8 (broadcast (hi1 k1)) hin1) in
  let prod_lo := lanes2 v_xor p_lo_lo p_hi_lo in
  let prod_hi := lanes2 v_xor p_lo_hi p_hi_hi in
  (lanes2 unpacklo_epi8 prod_lo prod_hi, lanes2 unpackhi_epi8 prod_lo prod_hi).

Fixpoint avx2_loop (fuel : nat) (k0 k1 : X86FoldTables) (data ecc : list Z) (bytes off : Z) : res (list Z) :=
  match fuel with
  | O => Fuel
  | S fuel' =>
      if off + 64 <=? bytes then
        d_a ← load256 data off;
        d_b ← load256 data (off + 32);
        let '(p_a, p_b) := products_avx2 k0 k1 d_a d_b in
        e_a ← load256 ecc off;
        e_b ← load256 ecc (off + 32);
        ecc ← store256 ecc off (lanes2 v_xor e_a p_a);
        ecc ← store256 ecc (off + 32) (lanes2 v_xor e_b p_b);
        avx2_loop fuel' k0 k1 data ecc bytes (off + 64)
      else mret ecc
  end.

Definition rs16_fold_avx2 (data ecc : list Z) (bytes : Z) (k0 k1 : X86FoldTables) : res (list Z) :=
  avx2_loop (Z.to_nat bytes + 1) k0 k1 data ecc bytes 0.

(** The remainder of a kernel: words from [body] while [off + 2 <= block_size]. *)
Definition remainder (coeff : Z) (data ecc : list Z) (body block_size : Z) : res (list Z) :=
  ecc ← word_loop (Z.to_nat ((block_size - body) / 2)) (gf_mul coeff) data ecc body;
  odd_tail coeff data ecc block_size.

Definition update_ecc (avx2 ssse3 : bool) (rs : ReedSolomon16 Z) (data_num ecc_num : Z) (data ecc : list Z) (block_size : Z)
  : res (list Z) :=
  ecc ← clear_first data_num ecc block_size;
  coeff ← coefficient_at rs data_num ecc_num;
  if coeff =? 0 then mret ecc
  else if avx2 && (block_size >=? 64) then
    let body := Z.land block_size (u64 (Z.lnot 63)) in
    let k0 := make_x86_fold_tables coeff in
    let k1 := make_x86_fold_tables (gf_mul coeff 0x100) in
    ecc ← rs16_fold_avx2 data ecc body k0 k1;
    remainder coeff data ecc body block_size
  else if ssse3 && (block_size >=? 32) then
    let body := Z.land block_size (u64 (Z.lnot 31)) in
    let k0 := make_x86_fold_tables coeff in
    let k1 := make_x86_fold_tables (gf_mul coeff 0x100) in
    ecc ← rs16_fold_ssse3 data ecc body k0 k1;
    remainder coeff data ecc body block_size
  else update_ecc_scalar rs data_num ecc_num data ecc block_size.

(** ** Reference: the products of a sector *)

(** The product of each little-endian word; the last byte of an odd sector is a
    word of its own whose product is cut to eight bits. *)
Fixpoint products (coeff : Z) (data : list Z) : list Z :=
  match data with
  | d0 :: d1 :: data' =>
      let w := gf_mul coeff (d0 + 256 * d1) in w mod 256 :: w / 256 :: products coeff data'
  | [d0] => [gf_mul coeff d0 mod 256]
  | [] => []
  end.

Definition folded (coeff : Z) (data ecc : list Z) : list Z := zip_with Z.lxor ecc (products coeff data).

Lemma list_ind2 {A} (P : list A -> Prop) :
  P [] -> (forall x, P [x]) -> (forall x y l, P l -> P (x :: y :: l)) -> forall l, P l.
Proof.
  intros H0 H1 H2. fix IH 1. intros [|x [|y l]]; [done|apply H1|apply H2, IH].
Qed.

Lemma zlen_products c d : zlen (products c d) = zlen d.
Proof. induction d as [|x|x y d IH] using list_ind2; [done..|]. cbn [products]. by rewrite !zlen_cons, IH. Qed.

Lemma zlen_folded c d e : zlen d = zlen e -> zlen (folded c d e) = zlen e.
Proof.
  intros H. pose proof (zlen_products c d) as Hp. unfold folded, zlen in *. rewrite length_zip_with. lia.
Qed.

Lemma products_app c a b : zlen a mod 2 = 0 -> products c (a ++ b) = products c a ++ products c b.
Proof.
  induction a as [|x|x y a IH] using list_ind2; [done|done|]. intros H. cbn [products app]. rewrite IH; [done|].
  rewrite !zlen_cons in H. dlia.
Qed.

Lemma folded_app c d1 d2 e1 e2 :
  zlen d1 = zlen e1 -> zlen d1 mod 2 = 0 -> folded c (d1 ++ d2) (e1 ++ e2) = folded c d1 e1 ++ folded c d2 e2.
Proof.
  intros Hl Hm. unfold folded. rewrite products_app by done. apply zip_with_app.
  pose proof (zlen_products c d1) as Hp. unfold zlen in *. lia.
Qed.

Lemma lor_word b0 b1 : is_byte b0 -> Z.lor b0 (Z.shiftl b1 8) = b0 + 256 * b1.
Proof. intros H. unfold is_byte in H. rewrite lor_shiftl_add by lia. lia. Qed.

(** ** The word loops *)

Definition mul_ok (mul : Z -> Z) (coeff : Z) : Prop := forall b, word b -> mul b = gf_mul coeff b.

Lemma bytes_split a b r : bytes (a ++ b ++ r) -> bytes b.
Proof. intros H. apply Forall_app in H as [_ H]. by apply Forall_app in H as [H _]. Qed.

Lemma word_at_split p b0 b1 r : is_byte b0 -> is_byte b1 -> word_at (p ++ b0 :: b1 :: r) (zlen p) = Ok (b0 + 256 * b1).
Proof.
  intros H0 H1. unfold word_at. rewrite byte_at_split. res_simpl.
  replace (p ++ b0 :: b1 :: r) with ((p ++ [b0]) ++ b1 :: r) by (by rewrite <- app_assoc).
  replace (zlen p + 1) with (zlen (p ++ [b0])) by zlen_lia. rewrite byte_at_split. res_simpl.
  rewrite lor_word by done. unfold is_byte in *. by rewrite wrap_small by lia.
Qed.

Lemma lxor_low a b : Z.land (Z.lxor a b) 0xFF = Z.lxor (a mod 256) (b mod 256).
Proof.
  change 0xFF with (Z.ones 8). change 256 with (2 ^ 8). rewrite <- !Z.land_ones by lia. apply Z.bits_inj'. intros i Hi.
  rewrite !Z.lxor_spec, !Z.land_spec, Z.lxor_spec. by destruct (Z.testbit a i), (Z.testbit b i), (Z.testbit (Z.ones 8) i).
Qed.

Lemma lxor_high a b : word a -> word b -> Z.land (Z.shiftr (Z.lxor a b) 8) 0xFF = Z.lxor (a / 256) (b / 256).
Proof.
  unfold word. intros Ha Hb. rewrite Z.shiftr_lxor. rewrite lxor_low, !Z.shiftr_div_pow2 by lia. change (2 ^ 8) with 256.
  by rewrite !(Z.mod_small (_ / 256)) by dlia.
Qed.

Lemma word_of_bytes b0 b1 : is_byte b0 -> is_byte b1 ->
  word (b0 + 256 * b1) /\ (b0 + 256 * b1) mod 256 = b0 /\ (b0 + 256 * b1) / 256 = b1.
Proof. unfold word, is_byte. intros H0 H1. split; [lia|]. split; dlia. Qed.

Lemma fold_word_spec mul c dp d0 d1 dr ep e0 e1 er :
  word c -> mul_ok mul c -> is_byte d0 -> is_byte d1 -> is_byte e0 -> is_byte e1 -> zlen ep = zlen dp ->
  fold_word mul (dp ++ d0 :: d1 :: dr) (ep ++ e0 :: e1 :: er) (zlen dp) = Ok (ep ++ folded c [d0; d1] [e0; e1] ++ er).
Proof.
  intros Hc Hm Hd0 Hd1 He0 He1 Hl. unfold fold_word. rewrite word_at_split by done. res_simpl. rewrite <- Hl, word_at_split by done.
  res_simpl. cbv zeta. destruct (word_of_bytes d0 d1 Hd0 Hd1) as (Wd & _ & _), (word_of_bytes e0 e1 He0 He1) as (We & Elo & Ehi).
  rewrite Hm by done. pose proof (gf_mul_closed c _ Hc Wd) as Wm. rewrite wrap_small by exact Wm.
  rewrite lxor_low, lxor_high, Elo, Ehi by done. change (e0 :: e1 :: er) with ([e0; e1] ++ er). by apply store_split.
Qed.

Lemma word_loop_spec k mul c dp dm dr ep em er :
  word c -> mul_ok mul c -> bytes dm -> bytes em -> zlen dm = 2 * Z.of_nat k -> zlen em = zlen dm -> zlen ep = zlen dp ->
  word_loop k mul (dp ++ dm ++ dr) (ep ++ em ++ er) (zlen dp) = Ok (ep ++ folded c dm em ++ er).
Proof.
  intros Hc Hm. revert dp dm ep em. induction k as [|k IH]; intros dp dm ep em Bd Be Hd He Hp; cbn [word_loop].
  - assert (dm = []) as -> by (apply zlen_zero_nil; lia). assert (em = []) as -> by (apply zlen_zero_nil; lia). done.
  - destruct dm as [|d0 [|d1 dm]]; [rewrite zlen_nil in Hd; lia|rewrite zlen_cons, zlen_nil in Hd; lia|].
    destruct em as [|e0 [|e1 em]]; [zlen_lia..|].
    apply Forall_cons_inv in Bd as [B0 Bd]. apply Forall_cons_inv in Bd as [B1 Bd].
    apply Forall_cons_inv in Be as [E0 Be]. apply Forall_cons_inv in Be as [E1 Be]. cbn [app].
    rewrite (fold_word_spec mul c) by done. res_simpl.
    replace (zlen dp + 2) with (zlen (dp ++ [d0; d1])) by zlen_lia.
    replace (dp ++ d0 :: d1 :: dm ++ dr) with ((dp ++ [d0; d1]) ++ dm ++ dr) by (by rewrite <- app_assoc).
    rewrite (app_assoc ep). rewrite IH; [|done|done|zlen_lia..|].
    + change (d0 :: d1 :: dm) with ([d0; d1] ++ dm). change (e0 :: e1 :: em) with ([e0; e1] ++ em).
      rewrite folded_app by done. by rewrite <- !app_assoc.
    + rewrite !zlen_app, Hp. done.
Qed.

Lemma unrolled_loop_eq fuel remaining mul data ecc off :
  0 <= remaining -> (Z.to_nat remaining < fuel)%nat ->
  unrolled_loop fuel remaining mul data ecc off = word_loop (Z.to_nat remaining) mul data ecc off.
Proof.
  revert remaining ecc off. induction fuel as [|fuel IH]; intros remaining ecc off Hr Hf; [lia|]. cbn [unrolled_loop].
  rewrite Z.geb_leb. destruct (Z.leb_spec 4 remaining) as [H|H]; [|done].
  replace (Z.to_nat remaining) with (S (S (S (S (Z.to_nat (remaining - 4)))))) by lia. cbn [word_loop].
  destruct (fold_word mul data ecc off) as [e1| | |]; res_simpl; [|done..].
  destruct (fold_word mul data e1 (off + 2)) as [e2| | |]; res_simpl; [|done..]. replace (off + 2 + 2) with (off + 4) by lia.
  destruct (fold_word mul data e2 (off + 4)) as [e3| | |]; res_simpl; [|done..]. replace (off + 4 + 2) with (off + 6) by lia.
  destruct (fold_word mul data e3 (off + 6)) as [e4| | |]; res_simpl; [|done..]. replace (off + 6 + 2) with (off + 8) by lia.
  apply IH; lia.
Qed.

(** The two tables give the product. *)
Lemma table_mul_ok c : word c -> mul_ok (table_mul (mul_lo c) (mul_hi c)) c.
Proof.
  intros Hc b Hb. unfold word in Hb. unfold table_mul. change 0xFF with (Z.ones 8). rewrite !Z.land_ones, Z.shiftr_div_pow2 by lia.
  assert (Hlo : forall f i, 0 <= i < 256 -> nthZ (map f (seqZ 0 256)) i = f i).
  { intros f i Hi. unfold nthZ. apply nth_lookup_Some. rewrite list_lookup_fmap, lookup_seqZ_lt by lia. cbn. f_equal. f_equal. lia. }
  unfold mul_lo, mul_hi. rewrite !Hlo by dlia. rewrite (Z.mod_small (b / 2 ^ 8)) by dlia.
  rewrite Z.shiftl_mul_pow2 by lia. assert (W1 : word (b mod 2 ^ 8)) by (unfold word; dlia).
  assert (W2 : word (b / 2 ^ 8 * 2 ^ 8)) by (unfold word; dlia).
  rewrite !wrap_small by (apply gf_mul_closed; done). rewrite <- gf_mul_lxor by done.
  assert (E : Z.lxor (b mod 2 ^ 8) (b / 2 ^ 8 * 2 ^ 8) = b); [|by rewrite E].
  rewrite <- Z.shiftl_mul_pow2 by lia. rewrite <- Z.add_nocarry_lxor by (apply land_shiftl_disjoint; dlia).
  rewrite Z.shiftl_mul_pow2 by lia. dlia.
Qed.

(** A whole sector: words, then the byte of an odd size. *)
Lemma words_and_tail mul c dp dm dr ep em er bs :
  word c -> mul_ok mul c -> bytes dm -> bytes em -> zlen dp mod 2 = 0 -> zlen dm = bs - zlen dp -> zlen em = zlen dm -> zlen ep = zlen dp ->
  (ecc ← word_loop (Z.to_nat ((bs - zlen dp) / 2)) mul (dp ++ dm ++ dr) (ep ++ em ++ er) (zlen dp);
   odd_tail c (dp ++ dm ++ dr) ecc bs) = Ok (ep ++ folded c dm em ++ er).
Proof.
  intros Hc Hm Bd Be Hev Hd He Hp. pose proof (zlen_nonneg dm) as Hn.
  destruct (split_at dm 0 (2 * (zlen dm / 2))) as (q & d1 & d2 & -> & Hq & Hd1); [lia|dlia|dlia|].
  apply zlen_zero_nil in Hq as ->. cbn [app] in *.
  destruct (split_at em 0 (zlen d1)) as (q & e1 & e2 & -> & Hq & He1); [lia|zlen_lia|zlen_lia|].
  apply zlen_zero_nil in Hq as ->. cbn [app] in *. rewrite !zlen_app in *.
  apply Forall_app in Bd as [Bd1 Bd2]. apply Forall_app in Be as [Be1 Be2]. rewrite <- !app_assoc.
  rewrite (word_loop_spec _ mul c) by (done || dlia). res_simpl. rewrite folded_app by dlia. unfold odd_tail.
  destruct (Z.eqb_spec (bs mod 2) 0) as [E|E]; cbn [negb].
  - assert (d2 = []) as -> by (apply zlen_zero_nil; dlia). assert (e2 = []) as -> by (apply zlen_zero_nil; zlen_lia).
    by rewrite app_nil_r.
  - assert (H2 : zlen d2 = 1) by dlia. destruct d2 as [|d [|? ?]]; [done| |zlen_lia]. destruct e2 as [|e [|? ?]]; [zlen_lia| |zlen_lia].
    apply Forall_cons_inv in Bd2 as [Bd2 _]. cbn [app]. cbv zeta.
    replace (bs - 1) with (zlen (dp ++ d1)) by (rewrite zlen_app, zlen_cons, zlen_nil in *; lia).
    rewrite (app_assoc dp d1), byte_at_split. res_simpl.
    assert (Hl : zlen (ep ++ folded c d1 e1) = zlen (dp ++ d1)) by (rewrite !zlen_app, zlen_folded by lia; lia).
    rewrite (app_assoc ep), <- Hl, byte_at_split. res_simpl.
    change (e :: er) with ([e] ++ er). rewrite store_split by done. rewrite <- !app_assoc. cbn [folded products zip_with app].
    unfold folded. cbn [products zip_with]. do 4 f_equal. unfold is_byte in Bd2.
    change 0xFF with (Z.ones 8). rewrite Z.land_ones, wrap_small by (lia || apply gf_mul_closed; unfold word; lia || done). done.
Qed.

(** ** The kernels *)

Fixpoint pairs (f g : Z -> Z -> Z) (d : list Z) : list Z :=
  match d with x :: y :: d' => f x y :: g x y :: pairs f g d' | _ => [] end.

Lemma list16 {A} (l : list A) : length l = 16%nat ->
  exists a b c d e f g h i j k m n o p q, l = [a; b; c; d; e; f; g; h; i; j; k; m; n; o; p; q].
Proof.
  intros H. do 16 (destruct l as [|? l]; [discriminate H|]). destruct l; [|discriminate H].
  repeat eexists.
Qed.

(** De-interleaving, a map over the (low, high) bytes, and re-interleaving. *)
Lemma deinterleaved f g d_a d_b :
  length d_a = 16%nat -> length d_b = 16%nat ->
  let lo := unpacklo_epi64 (shuffle_epi8 d_a shuf_deint) (shuffle_epi8 d_b shuf_deint) in
  let hi := unpackhi_epi64 (shuffle_epi8 d_a shuf_deint) (shuffle_epi8 d_b shuf_deint) in
  length lo = 16%nat /\ length hi = 16%nat /\ (bytes d_a -> bytes d_b -> bytes lo /\ bytes hi) /\
  unpacklo_epi8 (zip_with f lo hi) (zip_with g lo hi) = pairs f g d_a /\
  unpackhi_epi8 (zip_with f lo hi) (zip_with g lo hi) = pairs f g d_b.
Proof.
  intros Ha Hb. destruct (list16 d_a Ha) as (?&?&?&?&?&?&?&?&?&?&?&?&?&?&?&?&->).
  destruct (list16 d_b Hb) as (?&?&?&?&?&?&?&?&?&?&?&?&?&?&?&?&->).
  split; [done|]. split; [done|]. split; [|done].
  intros B1 B2. do 16 (apply Forall_cons_inv in B1 as [? B1]; apply Forall_cons_inv in B2 as [? B2]).
  split; cbn; bytes_solve.
Qed.

Lemma pairs_products c d : zlen d mod 2 = 0 ->
  pairs (fun x y => gf_mul c (x + 256 * y) mod 256) (fun x y => gf_mul c (x + 256 * y) / 256) d = products c d.
Proof.
  induction d as [|x|x y d IH] using list_ind2; [done|done|]. intros H. cbn [pairs products]. rewrite IH; [done|].
  rewrite !zlen_cons in H. dlia.
Qed.

(** Vector operations against a constant, as maps. *)
Lemma v_and_0f v : length v = 16%nat -> v_and v (v_set1 0x0F) = map (fun b => Z.land b 15) v.
Proof. intros H. by destruct (list16 v H) as (?&?&?&?&?&?&?&?&?&?&?&?&?&?&?&?&->). Qed.

Lemma srli4_word x y : is_byte x -> is_byte y ->
  let w := Z.shiftr (Z.lor x (Z.shiftl y 8)) 4 in
  Z.land (Z.land w 0xFF) 15 = Z.shiftr x 4 /\ Z.land (Z.shiftr w 8) 15 = Z.shiftr y 4.
Proof.
  intros Hx Hy. cbv zeta. rewrite lor_word by done. unfold is_byte in *. change 0xFF with (Z.ones 8). change 15 with (Z.ones 4).
  rewrite !Z.land_ones, !Z.shiftr_div_pow2 by lia. change (2 ^ 8) with 256. change (2 ^ 4) with 16. split; dlia.
Qed.

Lemma srli4_map v : zlen v mod 2 = 0 -> bytes v -> map (fun b => Z.land b 15) (srli_epi16 v 4) = map (fun b => Z.shiftr b 4) v.
Proof.
  induction v as [|x|x y v IH] using list_ind2; [done|done|]. intros H B.
  apply Forall_cons_inv in B as [Bx B]. apply Forall_cons_inv in B as [By B]. cbn [srli_epi16 map].
  destruct (srli4_word x y Bx By) as [E1 E2]. cbv zeta in *. rewrite E1, E2, IH; [done| |done]. rewrite !zlen_cons in H. dlia.
Qed.

Lemma length_srli v n : zlen v mod 2 = 0 -> length (srli_epi16 v n) = length v.
Proof.
  induction v as [|x|x y v IH] using list_ind2; [done|done|]. intros H. cbn [srli_epi16 length]. rewrite IH; [done|].
  rewrite !zlen_cons in H. dlia.
Qed.

Lemma shuffle_nibbles t (f : Z -> Z) (v : list Z) : Forall (fun b => 0 <= f b < 16) v -> shuffle_epi8 t (map f v) = map (fun b => nthZ t (f b)) v.
Proof.
  intros H. unfold shuffle_epi8. rewrite map_map. apply map_ext_in. intros b Hb. rewrite List.Forall_forall in H. specialize (H b Hb).
  assert (E : Z.land (f b) 15 = f b) by (change 15 with (Z.ones 4); rewrite Z.land_ones by lia; apply Z.mod_small; lia).
  rewrite E. rewrite <- E, <- Z.land_assoc. change (Z.land 15 0x80) with 0. by rewrite Z.land_0_r.
Qed.

Lemma v_xor_maps (f g : Z -> Z) v : v_xor (map f v) (map g v) = map (fun b => Z.lxor (f b) (g b)) v.
Proof. unfold v_xor. induction v as [|x v IH]; [done|]. cbn [map zip_with]. by rewrite IH. Qed.

Lemma v_xor_zip (f g : Z -> Z) v w : v_xor (map f v) (map g w) = zip_with (fun x y => Z.lxor (f x) (g y)) v w.
Proof.
  unfold v_xor. revert w. induction v as [|x v IH]; intros [|y w]; [done..|]. cbn [map zip_with]. by rewrite IH.
Qed.

Lemma zip_with_ext_bytes (f g : Z -> Z -> Z) v w :
  bytes v -> bytes w -> (forall x y, is_byte x -> is_byte y -> f x y = g x y) -> zip_with f v w = zip_with g v w.
Proof.
  intros Bv. revert w. induction Bv as [|x v Hx _ IH]; intros w Bw H; [done|]. destruct Bw as [|y w Hy Bw]; [done|].
  cbn [zip_with]. rewrite H by done. f_equal. by apply IH.
Qed.

(** *** The nibble tables *)

Lemma table_entry (f : Z -> Z) n : 0 <= n < 16 -> nthZ (map f (seqZ 0 16)) n = f n.
Proof.
  intros Hn. unfold nthZ. apply nth_lookup_Some. rewrite list_lookup_fmap, lookup_seqZ_lt by lia. cbn. do 2 f_equal. lia.
Qed.

Lemma nibble_split b : is_byte b ->
  0 <= Z.land b 15 < 16 /\ 0 <= Z.shiftr b 4 < 16 /\ Z.lxor (Z.land b 15) (Z.shiftl (Z.shiftr b 4) 4) = b.
Proof.
  unfold is_byte. intros Hb. change 15 with (Z.ones 4). rewrite Z.land_ones, Z.shiftr_div_pow2 by lia.
  split; [dlia|]. split; [dlia|]. rewrite <- Z.add_nocarry_lxor by (apply land_shiftl_disjoint; dlia).
  rewrite Z.shiftl_mul_pow2 by lia. dlia.
Qed.

Lemma mod256_lxor a b : Z.lxor (a mod 256) (b mod 256) = Z.lxor a b mod 256.
Proof. rewrite <- lxor_low. change 0xFF with (Z.ones 8). by rewrite Z.land_ones by lia. Qed.

Lemma div256_lxor a b : Z.lxor (a / 256) (b / 256) = Z.lxor a b / 256.
Proof. change 256 with (2 ^ 8). rewrite <- !Z.shiftr_div_pow2 by lia. symmetry. apply Z.shiftr_lxor. Qed.

Lemma land_ff_mod256 z : Z.land z 0xFF = z mod 256.
Proof. change 0xFF with (Z.ones 8). by rewrite Z.land_ones by lia. Qed.

Lemma high_byte z : word z -> Z.land (Z.shiftr z 8) 0xFF = z / 256.
Proof. unfold word. intros Hz. rewrite land_ff_mod256, Z.shiftr_div_pow2 by lia. change (2 ^ 8) with 256. apply Z.mod_small. dlia. Qed.

Lemma nibble_products k b : word k -> is_byte b ->
  let t := make_x86_fold_tables k in
  Z.lxor (nthZ (lo0 t) (Z.land b 15)) (nthZ (lo1 t) (Z.shiftr b 4)) = gf_mul k b mod 256 /\
  Z.lxor (nthZ (hi0 t) (Z.land b 15)) (nthZ (hi1 t) (Z.shiftr b 4)) = gf_mul k b / 256.
Proof.
  intros Hk Hb t. destruct (nibble_split b Hb) as (H0 & H1 & E). unfold t, make_x86_fold_tables. cbn [lo0 hi0 lo1 hi1].
  rewrite !table_entry by done. assert (W0 : word (Z.land b 15)) by (unfold word; lia).
  assert (W1 : word (Z.shiftl (Z.shiftr b 4) 4)) by (unfold word; rewrite Z.shiftl_mul_pow2 by lia; lia).
  pose proof (gf_mul_closed k _ Hk W0) as M0. pose proof (gf_mul_closed k _ Hk W1) as M1.
  rewrite (high_byte _ M0), (high_byte _ M1), !land_ff_mod256, mod256_lxor, div256_lxor, <- gf_mul_lxor by done. by rewrite E.
Qed.

(** One nibble lookup over a vector of bytes. *)
Lemma nibble_lookup k v :
  word k -> bytes v -> length v = 16%nat ->
  let t := make_x86_fold_tables k in
  let n0 := v_and v (v_set1 0x0F) in
  let n1 := v_and (srli_epi16 v 4) (v_set1 0x0F) in
  v_xor (shuffle_epi8 (lo0 t) n0) (shuffle_epi8 (lo1 t) n1) = map (fun b => gf_mul k b mod 256) v /\
  v_xor (shuffle_epi8 (hi0 t) n0) (shuffle_epi8 (hi1 t) n1) = map (fun b => gf_mul k b / 256) v.
Proof.
  intros Hk Bv Hl t n0 n1. assert (He : zlen v mod 2 = 0) by (unfold zlen; rewrite Hl; done).
  assert (E0 : n0 = map (fun b => Z.land b 15) v) by (unfold n0; by apply v_and_0f).
  assert (E1 : n1 = map (fun b => Z.shiftr b 4) v).
  { unfold n1. rewrite v_and_0f by (by rewrite length_srli). by apply srli4_map. }
  rewrite E0, E1. assert (N : forall b, is_byte b -> 0 <= Z.land b 15 < 16 /\ 0 <= Z.shiftr b 4 < 16)
    by (intros b Hb; destruct (nibble_split b Hb) as (? & ? & _); done).
  rewrite !shuffle_nibbles by (refine (List.Forall_impl _ _ Bv); intros b Hb; by apply N). rewrite !v_xor_maps.
  rewrite List.Forall_forall in Bv.
  split; apply map_ext_in; intros b Hb; by apply nibble_products, Bv.
Qed.

Lemma gf_mul_k1 c y : word c -> is_byte y -> gf_mul (gf_mul c 0x100) y = gf_mul c (256 * y).
Proof.
  intros Hc Hy. unfold is_byte in Hy. rewrite <- gf_mul_associative by (done || unfold word; lia).
  assert (E : gf_mul 0x100 y = 256 * y) by (by apply gf_mul_256). by rewrite E.
Qed.

Lemma products_ssse3_spec c d_a d_b :
  word c -> bytes d_a -> bytes d_b -> length d_a = 16%nat -> length d_b = 16%nat ->
  products_ssse3 (make_x86_fold_tables c) (make_x86_fold_tables (gf_mul c 0x100)) d_a d_b = (products c d_a, products c d_b).
Proof.
  intros Hc Ba Bb Ha Hb. set (k1 := gf_mul c 0x100). assert (Hk : word k1) by (by apply gf_mul_closed).
  set (f := fun x y => gf_mul c (x + 256 * y) mod 256). set (g := fun x y => gf_mul c (x + 256 * y) / 256).
  destruct (deinterleaved f g d_a d_b Ha Hb) as (Llo & Lhi & Bs & Elo & Ehi). destruct (Bs Ba Bb) as [Blo Bhi].
  unfold products_ssse3. cbv zeta in *. set (lo := unpacklo_epi64 _ _) in *. set (hi := unpackhi_epi64 _ _) in *.
  destruct (nibble_lookup c lo Hc Blo Llo) as [E1 E2]. destruct (nibble_lookup k1 hi Hk Bhi Lhi) as [E3 E4]. cbv zeta in *.
  rewrite E1, E2, E3, E4, !v_xor_zip.
  assert (Hx : forall x y, is_byte x -> is_byte y -> Z.lxor (gf_mul c x) (gf_mul k1 y) = gf_mul c (x + 256 * y)).
  { intros x y Hx Hy. unfold k1. rewrite gf_mul_k1, <- gf_mul_lxor by (done || unfold word, is_byte in *; lia).
    rewrite <- lor_word by done. assert (E : Z.lxor x (256 * y) = Z.lor x (Z.shiftl y 8)); [|by rewrite E].
    rewrite <- Z.lxor_lor by (apply land_shiftl_disjoint; unfold is_byte in *; lia). f_equal. rewrite Z.shiftl_mul_pow2 by lia. lia. }
  rewrite (zip_with_ext_bytes _ f lo hi Blo Bhi) by (intros x y Hx' Hy'; unfold f; by rewrite mod256_lxor, Hx).
  rewrite (zip_with_ext_bytes (fun x y => Z.lxor (gf_mul c x / 256) (gf_mul k1 y / 256)) g lo hi Blo Bhi) by (intros x y Hx' Hy'; unfold g; by rewrite div256_lxor, Hx).
  rewrite Elo, Ehi. unfold f, g. rewrite !pairs_products by (unfold zlen; rewrite ?Ha, ?Hb; done). done.
Qed.

(** The AVX2 products are the SSSE3 products of each pair of lanes. *)
Lemma products_avx2_lanes k0 k1 d_a d_b :
  products_avx2 k0 k1 d_a d_b =
  let '(la, lb) := products_ssse3 k0 k1 (fst d_a) (fst d_b) in
  let '(ha, hb) := products_ssse3 k0 k1 (snd d_a) (snd d_b) in
  ((la, ha), (lb, hb)).
Proof. done. Qed.

(** *** The kernel loops *)

Lemma slice_split p a r n : zlen a = n -> slice (p ++ a ++ r) (zlen p) n = Ok a.
Proof. intros <-. apply (slice_view _ _ a r); [zlen_lia|by apply view_app]. Qed.

Lemma slice_split2 p a b r n : zlen a = n -> zlen b = n -> slice (p ++ a ++ b ++ r) (zlen p + n) n = Ok b.
Proof.
  intros Ha Hb. rewrite (app_assoc p a). replace (zlen p + n) with (zlen (p ++ a)) by (rewrite zlen_app; lia). by apply slice_split.
Qed.

Lemma store_split2 p a b r x n : zlen a = n -> zlen b = zlen x -> store (p ++ a ++ b ++ r) (zlen p + n) x = Ok (p ++ a ++ x ++ r).
Proof.
  intros Ha Hb. rewrite (app_assoc p a). replace (zlen p + n) with (zlen (p ++ a)) by (rewrite zlen_app; lia).
  rewrite store_split by done. by rewrite <- app_assoc.
Qed.

Lemma fold16 c d e : zlen d = 16 -> zlen e = 16 -> v_xor e (products c d) = folded c d e /\ zlen (folded c d e) = 16.
Proof. intros Hd He. split; [done|]. rewrite zlen_folded; lia. Qed.

(** Peel [n] bytes off the front of both sectors. *)
Lemma peel n (d e : list Z) :
  0 <= n <= zlen d -> zlen e = zlen d -> bytes d -> bytes e ->
  exists d1 d2 e1 e2, d = d1 ++ d2 /\ e = e1 ++ e2 /\ zlen d1 = n /\ zlen e1 = n /\ zlen d2 = zlen d - n /\ zlen e2 = zlen d - n /\
    bytes d1 /\ bytes d2 /\ bytes e1 /\ bytes e2.
Proof.
  intros Hn He Bd Be. exists (take (Z.to_nat n) d), (drop (Z.to_nat n) d), (take (Z.to_nat n) e), (drop (Z.to_nat n) e).
  rewrite !take_drop, !zlen_take, !zlen_drop by lia. rewrite He. repeat split; auto with orar.
Qed.

Lemma zlen_nat16 (l : list Z) : zlen l = 16 -> length l = 16%nat.
Proof. unfold zlen. lia. Qed.

Lemma ssse3_loop_spec fuel c dp dm dr ep em er :
  word c -> bytes dm -> bytes em -> zlen em = zlen dm -> zlen ep = zlen dp -> zlen dm mod 32 = 0 -> zlen dm < Z.of_nat fuel ->
  ssse3_loop fuel (make_x86_fold_tables c) (make_x86_fold_tables (gf_mul c 0x100)) (dp ++ dm ++ dr) (ep ++ em ++ er)
    (zlen dp + zlen dm) (zlen dp) = Ok (ep ++ folded c dm em ++ er).
Proof.
  intros Hc. revert dp dm ep em. induction fuel as [|fuel IH]; intros dp dm ep em Bd Be He Hp Hm Hf; [zlen_lia|].
  cbn [ssse3_loop]. destruct (Z.leb_spec (zlen dp + 32) (zlen dp + zlen dm)) as [H|H].
  - destruct (peel 16 dm em) as (d1 & d' & e1 & e' & -> & -> & Ld1 & Le1 & Ld' & Le' & Bd1 & Bd' & Be1 & Be'); [lia|done..|].
    destruct (peel 16 d' e') as (d2 & d3 & e2 & e3 & -> & -> & Ld2 & Le2 & Ld3 & Le3 & Bd2 & Bd3 & Be2 & Be3); [zlen_lia|lia|done..|].
    rewrite <- !app_assoc. rewrite slice_split by done. res_simpl. rewrite slice_split2 by done. res_simpl.
    rewrite products_ssse3_spec by (done || by apply zlen_nat16). rewrite <- Hp, slice_split by done. res_simpl. rewrite slice_split2 by done. res_simpl.
    destruct (fold16 c d1 e1 Ld1 Le1) as [-> F1], (fold16 c d2 e2 Ld2 Le2) as [-> F2].
    rewrite store_split by lia. res_simpl. rewrite store_split2 by lia. res_simpl. rewrite Hp.
    replace (zlen dp + 32) with (zlen (dp ++ d1 ++ d2)) by (rewrite !zlen_app; lia).
    replace (zlen dp + zlen (d1 ++ d2 ++ d3)) with (zlen (dp ++ d1 ++ d2) + zlen d3) by (rewrite !zlen_app; lia).
    replace (dp ++ d1 ++ d2 ++ d3 ++ dr) with ((dp ++ d1 ++ d2) ++ d3 ++ dr) by (by rewrite <- !app_assoc).
    replace (ep ++ folded c d1 e1 ++ folded c d2 e2 ++ e3 ++ er) with ((ep ++ folded c d1 e1 ++ folded c d2 e2) ++ e3 ++ er) by (by rewrite <- !app_assoc).
    rewrite IH; [|done|done|lia|rewrite !zlen_app; lia|rewrite !zlen_app in *; dlia|rewrite !zlen_app in *; lia].
    rewrite (folded_app c d1) by (rewrite ?Ld1; lia || done). rewrite (folded_app c d2) by (rewrite ?Ld2; lia || done). by rewrite <- !app_assoc.
  - assert (dm = []) as -> by (apply zlen_zero_nil; pose proof (zlen_nonneg dm); dlia). assert (em = []) as -> by (apply zlen_zero_nil; done). done.
Qed.

Lemma load256_split p a b r : zlen a = 16 -> zlen b = 16 -> load256 (p ++ a ++ b ++ r) (zlen p) = Ok (a, b).
Proof. intros Ha Hb. unfold load256. rewrite slice_split by done. res_simpl. by rewrite slice_split2. Qed.

Lemma avx2_loop_spec fuel c dp dm dr ep em er :
  word c -> bytes dm -> bytes em -> zlen em = zlen dm -> zlen ep = zlen dp -> zlen dm mod 64 = 0 -> zlen dm < Z.of_nat fuel ->
  avx2_loop fuel (make_x86_fold_tables c) (make_x86_fold_tables (gf_mul c 0x100)) (dp ++ dm ++ dr) (ep ++ em ++ er)
    (zlen dp + zlen dm) (zlen dp) = Ok (ep ++ folded c dm em ++ er).
Proof.
  intros Hc. revert dp dm ep em. induction fuel as [|fuel IH]; intros dp dm ep em Bd Be He Hp Hm Hf; [zlen_lia|].
  cbn [avx2_loop]. destruct (Z.leb_spec (zlen dp + 64) (zlen dp + zlen dm)) as [H|H].
  - destruct (peel 16 dm em) as (d1 & d' & e1 & e' & -> & -> & Ld1 & Le1 & Ld' & Le' & Bd1 & Bd' & Be1 & Be'); [lia|done..|].
    destruct (peel 16 d' e') as (d2 & d'' & e2 & e'' & -> & -> & Ld2 & Le2 & Ld'' & Le'' & Bd2 & Bd'' & Be2 & Be''); [zlen_lia|lia|done..|].
    destruct (peel 16 d'' e'') as (d3 & d5 & e3 & e5 & -> & -> & Ld3 & Le3 & Ld5 & Le5 & Bd3 & Bd5 & Be3 & Be5); [zlen_lia|lia|done..|].
    destruct (peel 16 d5 e5) as (d4 & d6 & e4 & e6 & -> & -> & Ld4 & Le4 & Ld6 & Le6 & Bd4 & Bd6 & Be4 & Be6); [zlen_lia|lia|done..|].
    destruct (fold16 c d1 e1 Ld1 Le1) as [X1 F1], (fold16 c d2 e2 Ld2 Le2) as [X2 F2], (fold16 c d3 e3 Ld3 Le3) as [X3 F3], (fold16 c d4 e4 Ld4 Le4) as [X4 F4].
    assert (Ld12 : zlen dp + 32 = zlen (dp ++ d1 ++ d2)) by (rewrite !zlen_app; lia).
    assert (Le12 : zlen ep + 32 = zlen (ep ++ e1 ++ e2)) by (rewrite !zlen_app; lia).
    assert (Lf12 : zlen ep + 32 = zlen (ep ++ folded c d1 e1 ++ folded c d2 e2)) by (rewrite !zlen_app; lia).
    rewrite <- !app_assoc. rewrite load256_split by done. res_simpl.
    rewrite Ld12. replace (dp ++ d1 ++ d2 ++ d3 ++ d4 ++ d6 ++ dr) with ((dp ++ d1 ++ d2) ++ d3 ++ d4 ++ d6 ++ dr) by (by rewrite <- !app_assoc).
    rewrite load256_split by done. res_simpl. rewrite <- Ld12. rewrite products_avx2_lanes. cbn [fst snd].
    rewrite !products_ssse3_spec by (done || by apply zlen_nat16). rewrite <- Hp, load256_split by done. res_simpl.
    rewrite Le12. replace (ep ++ e1 ++ e2 ++ e3 ++ e4 ++ e6 ++ er) with ((ep ++ e1 ++ e2) ++ e3 ++ e4 ++ e6 ++ er) by (by rewrite <- !app_assoc).
    rewrite load256_split by done. res_simpl. unfold store256, lanes2. cbn [fst snd]. rewrite X1, X2, X3, X4.
    replace ((ep ++ e1 ++ e2) ++ e3 ++ e4 ++ e6 ++ er) with (ep ++ (e1 ++ e2) ++ e3 ++ e4 ++ e6 ++ er) by (by rewrite <- !app_assoc).
    rewrite store_split by (rewrite !zlen_app; lia). res_simpl. rewrite <- Le12, Lf12.
    replace (ep ++ (folded c d1 e1 ++ folded c d2 e2) ++ e3 ++ e4 ++ e6 ++ er)
      with ((ep ++ folded c d1 e1 ++ folded c d2 e2) ++ (e3 ++ e4) ++ e6 ++ er) by (by rewrite <- !app_assoc).
    rewrite store_split by (rewrite !zlen_app; lia). res_simpl. rewrite Hp.
    replace (zlen dp + 64) with (zlen (dp ++ d1 ++ d2 ++ d3 ++ d4)) by (rewrite !zlen_app; lia).
    replace (zlen dp + zlen (d1 ++ d2 ++ d3 ++ d4 ++ d6)) with (zlen (dp ++ d1 ++ d2 ++ d3 ++ d4) + zlen d6) by (rewrite !zlen_app; lia).
    replace ((dp ++ d1 ++ d2) ++ d3 ++ d4 ++ d6 ++ dr) with ((dp ++ d1 ++ d2 ++ d3 ++ d4) ++ d6 ++ dr) by (by rewrite <- !app_assoc).
    replace ((ep ++ folded c d1 e1 ++ folded c d2 e2) ++ (folded c d3 e3 ++ folded c d4 e4) ++ e6 ++ er)
      with ((ep ++ folded c d1 e1 ++ folded c d2 e2 ++ folded c d3 e3 ++ folded c d4 e4) ++ e6 ++ er) by (by rewrite <- !app_assoc).
    rewrite IH; [|done|done|lia|rewrite !zlen_app; lia|rewrite !zlen_app in *; dlia|rewrite !zlen_app in *; lia].
    rewrite (folded_app c d1) by (rewrite ?Ld1; lia || done). rewrite (folded_app c d2) by (rewrite ?Ld2; lia || done).
    rewrite (folded_app c d3) by (rewrite ?Ld3; lia || done). rewrite (folded_app c d4) by (rewrite ?Ld4; lia || done). by rewrite <- !app_assoc.
  - assert (dm = []) as -> by (apply zlen_zero_nil; pose proof (zlen_nonneg dm); dlia). assert (em = []) as -> by (apply zlen_zero_nil; done). done.
Qed.

(** ** [update_ecc] *)

Lemma products_zero d : bytes d -> products 0 d = replicate (length d) 0.
Proof.
  induction d as [|x|x y d IH] using list_ind2; intros B; [done|cbn [products]; by rewrite gf_mul_zero_l|].
  apply Forall_cons_inv in B as [_ B]. apply Forall_cons_inv in B as [_ B]. cbn [products length replicate].
  rewrite gf_mul_zero_l, IH by done. done.
Qed.

Lemma folded_zero d e : bytes d -> zlen d = zlen e -> folded 0 d e = e.
Proof.
  intros B H. unfold folded. rewrite products_zero by done. assert (Hl : length d = length e) by (unfold zlen in H; lia). rewrite Hl. clear.
  induction e as [|x e IH]; [done|]. cbn [length replicate zip_with]. by rewrite Z.lxor_0_r, IH.
Qed.

Lemma store_front l m r : zlen m = zlen l -> store (m ++ r) 0 l = Ok (l ++ r).
Proof. intros H. exact (store_split [] m r l (eq_sym H)). Qed.

Definition base (data_num : Z) (em : list Z) : list Z := if data_num =? 0 then replicate (length em) 0 else em.

Lemma zlen_base n em : zlen (base n em) = zlen em.
Proof. unfold base, zlen. destruct (n =? 0); by rewrite ?length_replicate. Qed.

Lemma base_bytes n em : bytes em -> bytes (base n em).
Proof. intros B. unfold base. destruct (n =? 0); [|done]. by apply Forall_replicate. Qed.

Lemma clear_first_spec n em er bs : zlen em = bs -> clear_first n (em ++ er) bs = Ok (base n em ++ er).
Proof.
  intros H. unfold clear_first, base. destruct (n =? 0); [|done].
  replace (Z.to_nat bs) with (length em) by (unfold zlen in H; lia). apply store_front. by rewrite zlen_replicate.
Qed.

Lemma mask_low k n : 0 <= k <= 64 -> 0 <= n < 2 ^ 64 -> Z.land n (u64 (Z.lnot (Z.ones k))) = n - n mod 2 ^ k.
Proof.
  intros Hk Hn. rewrite (wrap_land 64), (Z.land_comm (Z.lnot _)), Z.land_assoc, Z.land_ones by lia.
  rewrite (Z.mod_small n) by lia. rewrite <- Z.ldiff_land, Z.ldiff_ones_r, Z.shiftl_mul_pow2, Z.shiftr_div_pow2 by lia.
  pose proof (Z.div_mod n (2 ^ k) ltac:(lia)). lia.
Qed.

(** Words at the start of a buffer, then the odd byte. *)
Lemma words_at_start mul c dm dr em er bs :
  word c -> mul_ok mul c -> bytes dm -> bytes em -> zlen dm = bs -> zlen em = bs ->
  (ecc ← word_loop (Z.to_nat (bs / 2)) mul (dm ++ dr) (em ++ er) 0; odd_tail c (dm ++ dr) ecc bs) = Ok (folded c dm em ++ er).
Proof.
  intros Hc Hm Bd Be Hd He. pose proof (words_and_tail mul c [] dm dr [] em er bs Hc Hm Bd Be) as H.
  change (zlen (@nil Z)) with 0 in H. cbn [app] in H. rewrite Z.sub_0_r in H. apply H; [done|lia|lia|done].
Qed.

Lemma update_ecc_scalar_spec rs n k c dm dr em er bs :
  coefficient_at rs n k = Ok c -> word c -> bytes dm -> bytes em -> zlen dm = bs -> zlen em = bs ->
  update_ecc_scalar rs n k (dm ++ dr) (em ++ er) bs = Ok (folded c dm (base n em) ++ er).
Proof.
  intros Hco Hc Bd Be Hd He. unfold update_ecc_scalar. rewrite clear_first_spec, Hco by done. res_simpl.
  pose proof (base_bytes n em Be) as Bb. pose proof (zlen_base n em) as Lb.
  destruct (Z.eqb_spec c 0) as [->|Hne]; [rewrite folded_zero by (done || lia); done|]. cbv zeta.
  destruct (_ <? _).
  - by apply words_at_start; [|intros b _| | |lia|lia].
  - pose proof (zlen_nonneg dm). rewrite unrolled_loop_eq by dlia. apply words_at_start; try done; [by apply table_mul_ok|lia].
Qed.

(** A kernel over the body and words over the remainder. *)
Lemma kernel_and_remainder c dm dr em er bs k run :
  word c -> bytes dm -> bytes em -> zlen dm = bs -> zlen em = bs -> 0 < k ->
  (forall d1 d2 e1 e2, bytes d1 -> bytes e1 -> zlen d1 = bs - bs mod 2 ^ k -> zlen e1 = zlen d1 ->
     run (d1 ++ d2) (e1 ++ e2) = Ok (folded c d1 e1 ++ e2)) ->
  (ecc ← run (dm ++ dr) (em ++ er); remainder c (dm ++ dr) ecc (bs - bs mod 2 ^ k) bs) = Ok (folded c dm em ++ er).
Proof.
  intros Hc Bd Be Hd He Hk Hrun. set (body := bs - bs mod 2 ^ k) in *. pose proof (zlen_nonneg dm).
  assert (Hb : 0 <= body <= bs) by (unfold body; pose proof (Z.mod_pos_bound bs (2 ^ k) ltac:(lia)); pose proof (Z.mod_le bs (2 ^ k)); lia).
  assert (H2 : body mod 2 = 0).
  { unfold body. rewrite (Z.div_mod bs (2 ^ k)) at 1 by lia. replace (2 ^ k) with (2 * 2 ^ (k - 1)) by (rewrite <- Z.pow_succ_r by lia; f_equal; lia).
    apply Z.mod_divide; [lia|]. exists (2 ^ (k - 1) * (bs / (2 * 2 ^ (k - 1)))). lia. }
  destruct (peel body dm em) as (d1 & d2 & e1 & e2 & -> & -> & Ld1 & Le1 & Ld2 & Le2 & Bd1 & Bd2 & Be1 & Be2); [lia|lia|done..|].
  rewrite <- !app_assoc. rewrite Hrun by lia || done. res_simpl. unfold remainder.
  pose proof (words_and_tail (gf_mul c) c d1 d2 dr (folded c d1 e1) e2 er bs Hc (fun b _ => eq_refl) Bd2 Be2) as W.
  rewrite Ld1 in W. rewrite W; [|done|lia|lia|rewrite zlen_folded; lia]. rewrite folded_app by (rewrite ?Ld1; lia || done).
  by rewrite <- app_assoc.
Qed.

Lemma update_ecc_spec avx2 ssse3 rs n k c dm dr em er bs :
  coefficient_at rs n k = Ok c -> word c -> bytes dm -> bytes em -> zlen dm = bs -> zlen em = bs -> bs < 2 ^ 64 ->
  update_ecc avx2 ssse3 rs n k (dm ++ dr) (em ++ er) bs = Ok (folded c dm (base n em) ++ er).
Proof.
  intros Hco Hc Bd Be Hd He Hs. unfold update_ecc. rewrite clear_first_spec, Hco by done. res_simpl.
  pose proof (base_bytes n em Be) as Bb. pose proof (zlen_base n em) as Lb. pose proof (zlen_nonneg dm) as Hn.
  destruct (Z.eqb_spec c 0) as [->|Hne]; [rewrite folded_zero by (done || lia); done|]. cbv zeta.
  destruct (avx2 && (bs >=? 64)).
  { change (Z.lnot 63) with (Z.lnot (Z.ones 6)). rewrite mask_low by lia. apply (kernel_and_remainder c dm dr (base n em) er bs 6 (fun d e => rs16_fold_avx2 d e (bs - bs mod 2 ^ 6)
      (make_x86_fold_tables c) (make_x86_fold_tables (gf_mul c 0x100)))); [done..|lia|lia|].
    intros d1 d2 e1 e2 B1 B2 L1 L2. unfold rs16_fold_avx2. rewrite <- L1. apply (avx2_loop_spec _ c [] d1 d2 [] e1 e2); try done; [|lia].
    rewrite L1. change (2 ^ 6) with 64. dlia. }
  destruct (ssse3 && (bs >=? 32)).
  { change (Z.lnot 31) with (Z.lnot (Z.ones 5)). rewrite mask_low by lia. apply (kernel_and_remainder c dm dr (base n em) er bs 5 (fun d e => rs16_fold_ssse3 d e (bs - bs mod 2 ^ 5)
      (make_x86_fold_tables c) (make_x86_fold_tables (gf_mul c 0x100)))); [done..|lia|lia|].
    intros d1 d2 e1 e2 B1 B2 L1 L2. unfold rs16_fold_ssse3. rewrite <- L1. apply (ssse3_loop_spec _ c [] d1 d2 [] e1 e2); try done; [|lia].
    rewrite L1. change (2 ^ 5) with 32. dlia. }
  rewrite (update_ecc_scalar_spec rs n k c dm dr (base n em) er bs) by (done || lia). unfold base at 1 2.
  destruct (n =? 0) eqn:E; unfold base; rewrite E, ?length_replicate; done.
Qed.

(** In a sector of odd size the product of the last byte is cut to eight bits,
    and a coefficient can move all of that byte out of them. *)
Lemma odd_byte_lost b e : is_byte b -> folded 0x100 [b] [e] = [e].
Proof.
  intros Hb. unfold folded. cbn [products zip_with]. assert (E : gf_mul 0x100 b = 256 * b) by (by apply gf_mul_256).
  rewrite E, Z.mul_comm, Z.mod_mul by lia. by rewrite Z.lxor_0_r.
Qed.

Lemma split_front (m : list Z) n : 0 <= n <= zlen m -> zlen (take (Z.to_nat n) m) = n /\ m = take (Z.to_nat n) m ++ drop (Z.to_nat n) m.
Proof. intros H. split; [by apply zlen_take|]. by rewrite take_drop. Qed.

(** C18. Whatever the CPU offers, [update_ecc] and [update_ecc_scalar] do the
    same thing for every sector size: they stay inside the two sectors and add
    to each word of the parity sector (to zero, for the first data unit) the
    field product of the data word and the coefficient, leaving the bytes past
    the sector alone. *)
Theorem update_ecc_exact avx2 ssse3 rs data_num ecc_num data ecc bs c :
  coefficient_at rs data_num ecc_num = Ok c -> Forall word (mx rs) ->
  0 <= bs < 2 ^ 64 -> bs <= zlen data -> bs <= zlen ecc -> bytes data -> bytes ecc ->
  let sector := take (Z.to_nat bs) data in
  let parity := take (Z.to_nat bs) ecc in
  let start := if data_num =? 0 then replicate (length parity) 0 else parity in
  update_ecc avx2 ssse3 rs data_num ecc_num data ecc bs =
    Ok (zip_with Z.lxor start (products c sector) ++ drop (Z.to_nat bs) ecc) /\
  update_ecc_scalar rs data_num ecc_num data ecc bs = update_ecc avx2 ssse3 rs data_num ecc_num data ecc bs.
Proof.
  intros Hc Hw Hs Hd He Bd Be sector parity start. assert (Wc : word c).
  { unfold coefficient_at in Hc. destruct (mx rs !! _) eqn:E; [|done]. injection Hc as <-. by eapply Forall_lookup_1. }
  destruct (split_front data bs ltac:(lia)) as [Ld Ed]. destruct (split_front ecc bs ltac:(lia)) as [Le Ee].
  rewrite Ed at 1 2 3. rewrite Ee at 1 3 4. fold sector parity.
  rewrite (update_ecc_spec avx2 ssse3 rs data_num ecc_num c), (update_ecc_scalar_spec rs data_num ecc_num c) by (done || lia || by apply Forall_take). done.
Qed.

Lemma update_ecc_exact_witness :
  let rs := {| nd := 1; nr := 1; ne := 0; valid_flags := []; mx := [0x1234] |} in
  let data := replicate 100 7 in
  let ecc := replicate 99 9 in
  update_ecc true true rs 0 0 data ecc 97 =
    Ok (zip_with Z.lxor (replicate 97 0) (products 0x1234 (replicate 97 7)) ++ [9; 9]) /\
  update_ecc_scalar rs 0 0 data ecc 97 = update_ecc true true rs 0 0 data ecc 97.
Proof.
  apply (update_ecc_exact true true {| nd := 1; nr := 1; ne := 0; valid_flags := []; mx := [0x1234] |} 0 0
    (replicate 100 7) (replicate 99 9) 97 0x1234); [reflexivity| |lia|unfold zlen; cbn; lia|unfold zlen; cbn; lia| |].
  - apply Forall_cons_2; [unfold word; lia|by apply Forall_nil_2].
  - by apply Forall_replicate.
  - by apply Forall_replicate.
Defined.
