(* ===== verification/RecoveryRecord.v ===== *)
(** Recovery records: [src/recovery/recovery_record.hpp] and [.cpp].

    The protected data, the parity payload and the sectors are lists of bytes,
    and every access is checked.  [avx2] and [ssse3] are the CPU features,
    [alloc] tells which allocations of the coefficient matrices succeed; the
    byte buffers' own allocations are taken to succeed.  A pointer of
    [proc_sectors] is a value of [sector_ptr]: several may name the one buffer
    [last_sector_buf], whose contents are read when the pointer is followed.
    [Fail] is a [return false], and no write comes before one. *)

From Stdlib Require Import ZArith Lia.
From stdpp Require Import base tactics list numbers.
From S2P Require Import Prelude Bytes Gf16 Loops Linear Rs16 Rs16Fold.

Local Open Scope Z_scope.

(** ** Geometry *)

Definition MAX_PARITY_BUFFER_CAP : Z := 64 * 1024 * 1024 * 1024.

Definition calculate_parity_buffer_size (count unit_size : Z) : option Z :=
  if (count =? 0) || (unit_size =? 0) then None
  else if count >? MAX_PARITY_BUFFER_CAP / unit_size then None
  else
    let total := u64 (count * unit_size) in
    if total >? SIZE_MAX then None else Some total.


Record RecoveryParams := {
  sector_size : Z;
  protected_size : Z;
  data_sectors : Z;
  recovery_sectors : Z;
  protected_crc : Z
}.




(** ** Parity *)

(** A counted loop whose body may leave the buffers. *)
Definition for_res {S} (a n : Z) (body : Z -> S -> res S) (s : S) : res S :=
  for_range a n (fun i st => s ← st; body i s) (Ok s).

(** [update_ecc] on the sector at [buf + off]. *)
Definition at_offset (buf : list Z) (off : Z) (update : list Z -> res (list Z)) : res (list Z) :=
  if (0 <=? off) && (off <=? zlen buf) then
    ecc ← update (view buf off);
    mret (take (Z.to_nat off) buf ++ ecc)
  else Fault.

(** A sector that reaches past the end of the data: zeros, then a copy of what
    there is ([memset] and [memcpy] on the scratch sector). *)
Definition padded_tail (data : list Z) (psize offset ssize : Z) : res (list Z) :=
  if offset <? psize then
    tail ← slice data offset (psize - offset);
    store (replicate (Z.to_nat ssize) 0) 0 tail
  else Ok (replicate (Z.to_nat ssize) 0).

Definition source_sector (data : list Z) (params : RecoveryParams) (d : Z) : res (list Z) :=
  let offset := u64 (d * sector_size params) in
  if u64 (offset + sector_size params) <=? protected_size params then
    if (0 <=? offset) && (offset <=? zlen data) then Ok (view data offset) else Fault
  else padded_tail data (protected_size params) offset (sector_size params).

(** The inner loop: one data sector into every parity sector of [buf]. *)
Definition fold_into (avx2 ssse3 : bool) (rs : ReedSolomon16 Z) (count ssize : Z) (d : Z) (sector buf : list Z)
  : res (list Z) :=
  for_res 0 count
    (fun r buf => at_offset buf (u64 (r * ssize)) (fun ecc => update_ecc avx2 ssse3 rs d r sector ecc ssize))
    buf.

Definition generate_parity (avx2 ssse3 : bool) (alloc : Z -> bool) (data : list Z) (params : RecoveryParams)
  : res (list Z) :=
  if (data_sectors params =? 0) || (recovery_sectors params =? 0) then Ok []
  else
    match calculate_parity_buffer_size (recovery_sectors params) (sector_size params) with
    | None => Ok []
    | Some parity_size =>
        match init alloc (data_sectors params) (recovery_sectors params) None fresh with
        | (false, _) => Ok []
        | (true, rs) =>
            for_res 0 (data_sectors params)
              (fun d parity =>
                 sector ← source_sector data params d;
                 fold_into avx2 ssse3 rs (recovery_sectors params) (sector_size params) d sector parity)
              (replicate (Z.to_nat parity_size) 0)
        end
    end.

(** ** Repair *)

Inductive sector_ptr := NullSector | DataSector (off : Z) | LastSector | ParitySector (off : Z).

(** [while (r_idx < valid_sectors.size() && !valid_sectors[r_idx]) r_idx++;] *)
Fixpoint next_valid (fuel : nat) (valid : list bool) (r_idx : Z) : Z :=
  match fuel with
  | O => r_idx
  | S fuel' =>
      if (r_idx <? zlen valid) && negb (vget false valid r_idx) then next_valid fuel' valid (r_idx + 1) else r_idx
  end.

(** One pass of the loop that maps slots to sectors: the state is [r_idx],
    [last_sector_buf] and [proc_sectors]. *)
Definition map_slot (data : list Z) (params : RecoveryParams) (valid : list bool) (i : Z)
    (st : Z * list Z * list sector_ptr) : res (Z * list Z * list sector_ptr) :=
  let '(r_idx, last_buf, proc) := st in
  let ssize := sector_size params in
  if vget false valid i then
    let offset := u64 (i * ssize) in
    if u64 (offset + ssize) <=? protected_size params then
      Ok (r_idx, last_buf, vset proc i (DataSector offset))
    else
      last_buf ← padded_tail data (protected_size params) offset ssize;
      Ok (r_idx, last_buf, vset proc i LastSector)
  else
    let r_idx := next_valid (Z.to_nat (zlen valid - r_idx)) valid r_idx in
    if r_idx >=? zlen valid then Fail
    else
      let index := u32 (r_idx - data_sectors params) in
      _ ← require
            (if index >? 0 then
               match calculate_parity_buffer_size index ssize with Some _ => true | None => false end
             else true);
      Ok (u32 (r_idx + 1), last_buf, vset proc i (ParitySector (u64 (index * ssize)))).

(** Following a pointer. *)
Definition deref (data parity last_buf : list Z) (p : sector_ptr) : res (list Z) :=
  let at_off m off := if (0 <=? off) && (off <=? zlen m) then Ok (view m off) else Fault in
  match p with
  | NullSector => Fault
  | DataSector off => at_off data off
  | LastSector => Ok last_buf
  | ParitySector off => at_off parity off
  end.

(** One pass of the loop that writes repaired sectors back. *)
Definition write_back (params : RecoveryParams) (valid : list bool) (reconstructed : list Z) (i : Z)
    (st : Z * list Z) : res (Z * list Z) :=
  let '(cur_missing, data) := st in
  let ssize := sector_size params in
  if vget false valid i then Ok st
  else
    let offset := u64 (i * ssize) in
    let copy_len :=
      if u64 (offset + ssize) >? protected_size params then
        if offset <? protected_size params then protected_size params - offset else 0
      else ssize in
    data ←
      (if copy_len >? 0 then
         sector ← slice reconstructed (u64 (cur_missing * ssize)) copy_len;
         store data offset sector
       else Ok data);
    Ok (u32 (cur_missing + 1), data).

Definition repair_data (avx2 ssse3 : bool) (alloc : Z -> bool) (data parity : list Z) (params : RecoveryParams)
    (valid_sectors : list Z) : res (list Z) :=
  let n := data_sectors params in
  let ssize := sector_size params in
  let valid := flag_bits valid_sectors in
  if negb (zlen valid_sectors =? n + recovery_sectors params) then Fail
  else
    let missing_data := count_flags valid false 0 n in
    if missing_data =? 0 then Ok data
    else
      let valid_parity := count_flags valid true n (u32 (n + recovery_sectors params)) in
      if missing_data >? valid_parity then Fail
      else
        match init alloc n (recovery_sectors params) (Some valid_sectors) fresh with
        | (false, _) => Fail
        | (true, rs) =>
            '(_, last_buf, proc) ←
              for_res 0 n (map_slot data params valid)
                (n, replicate (Z.to_nat ssize) 0, assign n NullSector);
            match calculate_parity_buffer_size missing_data ssize with
            | None => Fail
            | Some recon_buf_size =>
                reconstructed ←
                  for_res 0 n
                    (fun j buf =>
                       sector ← deref data parity last_buf (vget NullSector proc j);
                       fold_into avx2 ssse3 rs missing_data ssize j sector buf)
                    (replicate (Z.to_nat recon_buf_size) 0);
                '(_, data) ← for_res 0 n (write_back params valid reconstructed) (0, data);
                Ok data
            end
        end.

(** ** Loops that stay inside the buffers *)

Lemma for_res_ind {S} (P : Z -> S -> Prop) (body : Z -> S -> res S) a n s :
  a <= n -> P a s -> (forall i t, a <= i < n -> P i t -> exists t', body i t = Ok t' /\ P (i + 1) t') ->
  exists t, for_res a n body s = Ok t /\ P n t.
Proof.
  intros Hn Ha Hs. apply (for_range_ind (fun i st => exists t, st = Ok t /\ P i t)); [done|by exists s|].
  intros i st Hi (t & -> & Ht). res_simpl. by apply Hs.
Qed.

(** ** Sectors of a buffer *)

Definition region (buf : list Z) (ssize i : Z) : list Z := take (Z.to_nat ssize) (view buf (i * ssize)).

(** The little-endian word [w] of a sector. *)
Definition wd (s : list Z) (w : Z) : Z := nthZ s (2 * w) + 256 * nthZ s (2 * w + 1).

Lemma wd_word s w : bytes s -> word (wd s w).
Proof. intros B. unfold wd, word. pose proof (nthZ_byte s (2 * w) B). pose proof (nthZ_byte s (2 * w + 1) B). unfold is_byte in *. lia. Qed.

Lemma words_ext a b :
  zlen a = zlen b -> zlen a mod 2 = 0 -> bytes a -> bytes b ->
  (forall w, 0 <= w < zlen a / 2 -> wd a w = wd b w) -> a = b.
Proof.
  intros Hl He Ba Bb Hw. apply nthZ_ext; [done|]. intros i Hi. specialize (Hw (i / 2) ltac:(dlia)). unfold wd in Hw.
  pose proof (nthZ_byte a (2 * (i / 2)) Ba). pose proof (nthZ_byte a (2 * (i / 2) + 1) Ba).
  pose proof (nthZ_byte b (2 * (i / 2)) Bb). pose proof (nthZ_byte b (2 * (i / 2) + 1) Bb). unfold is_byte in *.
  destruct (Z.eq_dec (i mod 2) 0).
  - replace (2 * (i / 2)) with i in * by dlia. lia.
  - replace (2 * (i / 2) + 1) with i in * by dlia. lia.
Qed.

Lemma nthZ_cons_S x l i : 0 < i -> nthZ (x :: l) i = nthZ l (i - 1).
Proof. intros Hi. unfold nthZ. replace (Z.to_nat i) with (S (Z.to_nat (i - 1))) by lia. done. Qed.

Lemma wd_cons x y s w : 0 <= w -> wd (x :: y :: s) w = if w =? 0 then x + 256 * y else wd s (w - 1).
Proof.
  intros Hw. unfold wd. destruct (Z.eqb_spec w 0) as [->|]; [done|]. rewrite !nthZ_cons_S by lia.
  f_equal; [|f_equal]; f_equal; lia.
Qed.

Lemma wd_folded c d e w :
  word c -> bytes d -> bytes e -> zlen d = zlen e -> zlen d mod 2 = 0 -> 0 <= w < zlen d / 2 ->
  wd (folded c d e) w = Z.lxor (wd e w) (gf_mul c (wd d w)).
Proof.
  intros Hc. revert e w. induction d as [|x|x y d IH] using list_ind2; intros e w Bd Be Hl He Hw.
  - change (zlen (@nil Z)) with 0 in Hw. dlia.
  - rewrite zlen_cons in He. change (zlen (@nil Z)) with 0 in He. dlia.
  - destruct e as [|e0 [|e1 e]]; [zlen_lia..|]. apply Forall_cons_inv in Bd as [B0 Bd]. apply Forall_cons_inv in Bd as [B1 Bd].
    apply Forall_cons_inv in Be as [E0 Be]. apply Forall_cons_inv in Be as [E1 Be].
    change (folded c (x :: y :: d) (e0 :: e1 :: e)) with
      (Z.lxor e0 (gf_mul c (x + 256 * y) mod 256) :: Z.lxor e1 (gf_mul c (x + 256 * y) / 256) :: folded c d e).
    rewrite !wd_cons by lia. rewrite !zlen_cons in *. destruct (Z.eqb_spec w 0) as [->|].
    + destruct (word_of_bytes x y B0 B1) as (Wd & _ & _). pose proof (gf_mul_closed c _ Hc Wd) as M. set (m := gf_mul c _) in *.
      clearbody m. unfold word in M. unfold is_byte in *.
      assert (Hr : forall u v, 0 <= u < 256 -> u + 256 * v = Z.lxor u (Z.shiftl v 8)).
      { intros u v Hu. rewrite <- Z.add_nocarry_lxor by (apply land_shiftl_disjoint; lia). rewrite Z.shiftl_mul_pow2 by lia. lia. }
      rewrite Hr by (apply (lxor_range 8); dlia). rewrite (Hr e0) by lia. rewrite Z.shiftl_lxor.
      rewrite (Z.div_mod m 256) at 3 by lia. rewrite (Z.add_comm (256 * _)), Hr by dlia.
      rewrite !Z.lxor_assoc. f_equal. rewrite <- !Z.lxor_assoc. f_equal. apply Z.lxor_comm.
    + apply IH; [done|done|lia|dlia|]. split; [lia|]. dlia.
Qed.

Lemma region_nth buf s i k : 0 <= i -> 0 <= s -> 0 <= k < s -> nthZ (region buf s i) k = nthZ buf (i * s + k).
Proof. intros Hi Hs Hk. unfold region. rewrite nthZ_take, nthZ_view by nia. done. Qed.

Lemma zlen_region buf s i : 0 <= i -> 0 <= s -> (i + 1) * s <= zlen buf -> zlen (region buf s i) = s.
Proof. intros Hi Hs Hl. unfold region. apply zlen_take. rewrite zlen_view by nia. nia. Qed.

Lemma region_bytes buf s i : bytes buf -> bytes (region buf s i).
Proof. intros B. unfold region. auto with orar. Qed.

Lemma region_view buf s i : 0 <= i -> 0 <= s -> view buf (i * s) = region buf s i ++ view buf ((i + 1) * s).
Proof.
  intros Hi Hs. unfold region, view. rewrite <- (take_drop (Z.to_nat s) (drop (Z.to_nat (i * s)) buf)) at 1. f_equal.
  rewrite drop_drop. f_equal. nia.
Qed.

(** Replacing one sector. *)
Lemma region_replaced buf s i x j :
  0 <= i -> 0 <= j -> 0 <= s -> zlen x = s -> (i + 1) * s <= zlen buf -> (j + 1) * s <= zlen buf ->
  let buf' := take (Z.to_nat (i * s)) buf ++ x ++ view buf ((i + 1) * s) in
  zlen buf' = zlen buf /\ region buf' s j = if j =? i then x else region buf s j.
Proof.
  intros Hi Hj Hs Hx Hl Hl' buf'. assert (Lt : zlen (take (Z.to_nat (i * s)) buf) = i * s) by (apply zlen_take; nia).
  assert (Hb : zlen buf' = zlen buf) by (unfold buf'; rewrite !zlen_app, Lt, zlen_view by nia; lia). split; [done|].
  apply nthZ_ext; [destruct (j =? i); rewrite !zlen_region by lia; lia|]. rewrite zlen_region by lia. intros k Hk. rewrite region_nth by lia.
  unfold buf'. rewrite nthZ_app, Lt by nia. destruct (Z.eqb_spec j i) as [->|Hne].
  - rewrite (proj2 (Z.ltb_ge _ _)) by lia. rewrite nthZ_app by lia. replace (i * s + k - i * s) with k by lia.
    by rewrite (proj2 (Z.ltb_lt _ _)) by lia.
  - rewrite region_nth by lia. destruct (Z.ltb_spec (j * s + k) (i * s)) as [H|H]; [by rewrite nthZ_take by nia|].
    rewrite nthZ_app by lia. assert (i < j) by nia. rewrite (proj2 (Z.ltb_ge _ _)) by nia. rewrite nthZ_view by nia. f_equal. lia.
Qed.

Lemma products_bytes c d : word c -> bytes d -> bytes (products c d).
Proof.
  intros Hc. induction d as [|x|x y d IH] using list_ind2; intros B; [done| |].
  - cbn [products]. apply Forall_cons_2; [|done]. apply Z.mod_pos_bound. lia.
  - apply Forall_cons_inv in B as [B0 B]. apply Forall_cons_inv in B as [B1 B]. cbn [products]. cbv zeta.
    destruct (word_of_bytes x y B0 B1) as (Wd & _ & _). pose proof (gf_mul_closed c _ Hc Wd) as M. unfold word in M. revert M. generalize (gf_mul c (x + 256 * y)). intros m M.
    apply Forall_cons_2; [unfold is_byte; dlia|]. apply Forall_cons_2; [unfold is_byte; dlia|]. by apply IH.
Qed.

Lemma folded_bytes c d e : word c -> bytes d -> bytes e -> bytes (folded c d e).
Proof.
  intros Hc Bd Be. unfold folded. pose proof (products_bytes c d Hc Bd) as Bp. revert Bp. generalize (products c d). intros p Bp. revert p Bp.
  induction Be as [|x e Hx _ IH]; intros p Bp; [done|]. destruct Bp as [|y p Hy Bp]; [done|]. cbn [zip_with].
  apply Forall_cons_2; [by apply (lxor_range 8)|]. by apply IH.
Qed.

(** ** Folding every sector *)

Section Fold.
Context (avx2 ssse3 : bool) (rs : ReedSolomon16 Z) (count s : Z).
Context (Hw : Forall word (mx rs)) (Hmx : zlen (mx rs) = count * nd rs) (Hnd : 0 < nd rs) (Hcount : 0 <= count).
Context (Hsmall : count * nd rs < 2 ^ 32) (Hs : 0 < s < 2 ^ 32) (Hbuf : count * s < 2 ^ 64) (Heven : s mod 2 = 0).

Definition coef (r d : Z) : Z := vget 0 (mx rs) (r * nd rs + d).

Lemma coef_word r d : word (coef r d).
Proof.
  unfold coef, vget. destruct (mx rs !! _) eqn:E; [|unfold word; cbn; lia]. by eapply Forall_lookup_1.
Qed.

Lemma coefficient_at_coef r d : 0 <= r < count -> 0 <= d < nd rs -> coefficient_at rs d r = Ok (coef r d).
Proof.
  intros Hr Hd. pose proof (cell_range count (nd rs) r d Hr Hd) as Hc. assert (0 <= r * nd rs) by nia.
  unfold coefficient_at, coef, vget. rewrite (wrap_small 32 (r * nd rs)), wrap_small by lia.
  destruct (lookup_lt_is_Some_2 (mx rs) (Z.to_nat (r * nd rs + d))) as [c E]; [unfold zlen in Hmx; lia|]. by rewrite E.
Qed.

Lemma update_region d r sector tail buf :
  0 <= r < count -> 0 <= d < nd rs -> zlen sector = s -> bytes sector -> bytes buf -> zlen buf = count * s ->
  exists buf', at_offset buf (u64 (r * s)) (fun ecc => update_ecc avx2 ssse3 rs d r (sector ++ tail) ecc s) = Ok buf' /\
    bytes buf' /\ zlen buf' = count * s /\
    forall j, 0 <= j < count -> region buf' s j = if j =? r then folded (coef r d) sector (base d (region buf s r)) else region buf s j.
Proof.
  intros Hr Hd Ls Bs Bb Lb. assert (Hoff : 0 <= r * s <= zlen buf) by nia. assert (Hr1 : (r + 1) * s <= zlen buf) by nia.
  rewrite wrap_small by nia. unfold at_offset. rewrite !(proj2 (Z.leb_le _ _)) by lia. cbn [andb].
  rewrite region_view by lia. rewrite (update_ecc_spec avx2 ssse3 rs d r (coef r d)) by
    (first [by apply coefficient_at_coef | apply coef_word | done | by apply region_bytes | by rewrite zlen_region by lia | lia]).
  res_simpl. set (x := folded _ _ _). assert (Lx : zlen x = s).
  { unfold x. rewrite zlen_folded, zlen_base, zlen_region by (rewrite ?zlen_base, ?zlen_region; lia). done. }
  eexists. split; [done|]. split; [|split].
  - repeat apply Forall_app_2; auto with orar. unfold x. apply folded_bytes; [apply coef_word|done|]. by apply base_bytes, region_bytes.
  - destruct (region_replaced buf s r x r) as [E _]; lia.
  - intros j Hj. apply (region_replaced buf s r x j); nia.
Qed.

Lemma fold_into_spec d sector tail buf :
  0 <= d < nd rs -> zlen sector = s -> bytes sector -> bytes buf -> zlen buf = count * s ->
  exists buf', fold_into avx2 ssse3 rs count s d (sector ++ tail) buf = Ok buf' /\ bytes buf' /\ zlen buf' = count * s /\
    forall j, 0 <= j < count -> region buf' s j = folded (coef j d) sector (base d (region buf s j)).
Proof.
  intros Hd Ls Bs Bb Lb. destruct (for_res_ind (fun t b => bytes b /\ zlen b = count * s /\ forall j, 0 <= j < count ->
    region b s j = if j <? t then folded (coef j d) sector (base d (region buf s j)) else region buf s j)
    (fun r buf => at_offset buf (u64 (r * s)) (fun ecc => update_ecc avx2 ssse3 rs d r (sector ++ tail) ecc s)) 0 count buf) as (b & E & B & L & R).
  - done.
  - split; [done|]. split; [done|]. intros j Hj. by rewrite (proj2 (Z.ltb_ge _ _)) by lia.
  - intros r b Hr (B & L & R). destruct (update_region d r sector tail b Hr Hd Ls Bs B L) as (b' & E & B' & L' & R').
    exists b'. split; [done|]. split; [done|]. split; [done|]. intros j Hj. rewrite R' by done. rewrite !R by lia. zbool; by subst.
  - exists b. split; [done|]. split; [done|]. split; [done|]. intros j Hj. rewrite R by done. by rewrite (proj2 (Z.ltb_lt _ _)) by lia.
Qed.

(** Every data sector, in order: each word of each parity sector is the sum of
    the products. *)
Lemma fold_all_spec (content : Z -> res (list Z)) (S : Z -> list Z) buf :
  (forall d, 0 <= d < nd rs -> zlen (S d) = s /\ bytes (S d) /\ exists tail, content d = Ok (S d ++ tail)) ->
  bytes buf -> zlen buf = count * s ->
  exists buf',
    for_res 0 (nd rs) (fun d buf => sector ← content d; fold_into avx2 ssse3 rs count s d sector buf) buf = Ok buf' /\
    bytes buf' /\ zlen buf' = count * s /\
    forall j w, 0 <= j < count -> 0 <= w < s / 2 ->
      wd (region buf' s j) w = fsum 0 (nd rs) (fun d => gf_mul (coef j d) (wd (S d) w)).
Proof.
  intros HS Bb Lb. destruct (for_res_ind (fun t b => bytes b /\ zlen b = count * s /\ (0 < t -> forall j w, 0 <= j < count -> 0 <= w < s / 2 ->
    wd (region b s j) w = fsum 0 t (fun d => gf_mul (coef j d) (wd (S d) w))))
    (fun d buf => sector ← content d; fold_into avx2 ssse3 rs count s d sector buf) 0 (nd rs) buf) as (b & E & B & L & R).
  - lia.
  - split; [done|]. split; [done|lia].
  - intros d b Hd (B & L & R). destruct (HS d Hd) as (Ls & Bs & tail & ->). res_simpl.
    destruct (fold_into_spec d (S d) tail b Hd Ls Bs B L) as (b' & E & B' & L' & R'). exists b'. split; [done|]. split; [done|]. split; [done|].
    intros _ j w Hj Hw'. rewrite R' by done. assert (Lr : zlen (base d (region b s j)) = s) by (rewrite zlen_base, zlen_region by nia; done).
    rewrite wd_folded; [|apply coef_word|done|by apply base_bytes, region_bytes|lia|by rewrite Ls|by rewrite Ls].
    rewrite fsum_snoc by lia. change (fadd ?a ?b) with (Z.lxor a b). f_equal. unfold base. destruct (Z.eqb_spec d 0) as [->|]; [|apply R; lia].
    rewrite fsum_empty by lia. unfold wd, nthZ. rewrite !nth_lookup.
    assert (Hz : forall i, default 0 (replicate (length (region b s j)) 0 !! i) = 0).
    { intros i. destruct (replicate _ 0 !! i) eqn:Ei; [|done]. by apply lookup_replicate in Ei as [-> _]. }
    by rewrite !Hz.
  - exists b. split; [done|]. split; [done|]. split; [done|]. apply R. lia.
Qed.
End Fold.

(** ** Coefficients are words *)

Lemma cells_word m n (v : list Z) :
  0 < n -> zlen v = m * n -> (forall i d, 0 <= i < m -> 0 <= d < n -> word (vget 0 v (i * n + d))) -> Forall word v.
Proof.
  intros Hn Hl H. apply Forall_lookup_2. intros k x E. assert (Hk : 0 <= Z.of_nat k < m * n) by (apply lookup_lt_Some in E; unfold zlen in Hl; lia).
  specialize (H (Z.of_nat k / n) (Z.of_nat k mod n)). unfold vget in H.
  replace (Z.to_nat (Z.of_nat k / n * n + Z.of_nat k mod n)) with k in H.
  - rewrite E in H. apply H; [|apply Z.mod_pos_bound; lia]. split; [apply Z.div_pos; lia|]. apply Z.div_lt_upper_bound; lia.
  - pose proof (Z.div_mod (Z.of_nat k) n ltac:(lia)). lia.
Qed.

Lemma cauchy_is_word x d : word x -> word d -> word (cauchy (F := Z) x d).
Proof. intros Hx Hd. rewrite cauchy_word by done. apply gf_word. Qed.

Lemma derive_words (rs : ReedSolomon16 Z) :
  0 < nd rs -> 0 <= nr rs -> nd rs + nr rs <= GF_SIZE -> ne rs = rank (valid_flags rs) false 0 (nd rs) ->
  ne rs <= rank (valid_flags rs) true (nd rs) (nd rs + nr rs) ->
  Forall word (derive_recovery_coefficients rs) /\ zlen (derive_recovery_coefficients rs) = ne rs * nd rs.
Proof.
  intros Hn Hr Hs He Ha. set (rs' := with_mx rs ([] : list gf)).
  replace (derive_recovery_coefficients rs) with (map gf_val (derive_recovery_coefficients rs')).
  2: { rewrite <- (derive_word rs' (mx rs)) by done. by destruct rs. }
  split; [apply word_list|]. destruct (derive_spec rs' Hn Hr Hs He Ha) as (_ & _ & Hl & _). by rewrite zlen_map_word.
Qed.

(** ** The sectors of the protected data *)

Lemma cpbs_some c u : 0 < c -> 0 < u -> c * u <= MAX_PARITY_BUFFER_CAP -> calculate_parity_buffer_size c u = Some (c * u).
Proof.
  unfold MAX_PARITY_BUFFER_CAP, calculate_parity_buffer_size. intros Hc Hu Hm. rewrite !(proj2 (Z.eqb_neq _ _)) by lia. cbn [orb].
  unfold MAX_PARITY_BUFFER_CAP. rewrite !Z.gtb_ltb. rewrite (proj2 (Z.ltb_ge _ _)) by (apply Z.div_le_lower_bound; lia). cbv zeta.
  rewrite wrap_small by nia. unfold SIZE_MAX. by rewrite (proj2 (Z.ltb_ge _ _)) by lia.
Qed.

(** The data, padded with zeros to whole sectors. *)
Definition extended (params : RecoveryParams) (data : list Z) : list Z :=
  data ++ replicate (Z.to_nat (data_sectors params * sector_size params - protected_size params)) 0.

Definition sector_of (params : RecoveryParams) (data : list Z) (d : Z) : list Z := region (extended params data) (sector_size params) d.

(** Parameters that fit the data: the last sector may be partial, the sector
    size is even, and the parity fits its cap. *)
Record geometry_ok (params : RecoveryParams) : Prop := {
  geo_data : 0 < data_sectors params;
  geo_rec : 0 < recovery_sectors params;
  geo_total : data_sectors params + recovery_sectors params <= GF_SIZE;
  geo_size : 0 < sector_size params < 2 ^ 32;
  geo_even : sector_size params mod 2 = 0;
  geo_fit : (data_sectors params - 1) * sector_size params < protected_size params <= data_sectors params * sector_size params;
  geo_cap : recovery_sectors params * sector_size params <= MAX_PARITY_BUFFER_CAP
}.

Section Geometry.
Context (params : RecoveryParams) (G : geometry_ok params).
Abbreviation n := (data_sectors params).
Abbreviation r := (recovery_sectors params).
Abbreviation s := (sector_size params).
Abbreviation P := (protected_size params).

Lemma geo_facts : 0 < n /\ 0 < r /\ n + r <= 65535 /\ 0 < s < 2 ^ 32 /\ (n - 1) * s < P <= n * s /\ n * s < 2 ^ 48 /\ r * s < 2 ^ 48.
Proof. destruct G. unfold GF_SIZE, MAX_PARITY_BUFFER_CAP in *. repeat split; try lia; nia. Qed.

Lemma zlen_extended data : zlen data = P -> zlen (extended params data) = n * s.
Proof. pose proof geo_facts. intros H1. unfold extended. rewrite zlen_app, zlen_replicate. lia. Qed.

Lemma zlen_sector_of data d : zlen data = P -> 0 <= d < n -> zlen (sector_of params data d) = s.
Proof. pose proof geo_facts. intros Hl Hd. apply zlen_region; [lia..|]. rewrite zlen_extended by done. nia. Qed.

Lemma sector_of_bytes data d : bytes data -> bytes (sector_of params data d).
Proof. intros B. apply region_bytes. apply Forall_app_2; [done|]. by apply Forall_replicate. Qed.

Lemma sector_of_nth data d k : zlen data = P -> 0 <= d < n -> 0 <= k < s ->
  nthZ (sector_of params data d) k = if d * s + k <? P then nthZ data (d * s + k) else 0.
Proof.
  pose proof geo_facts. intros Hl Hd Hk. unfold sector_of. rewrite region_nth by lia. unfold extended. rewrite nthZ_app, Hl by nia.
  destruct (_ <? _); [done|]. unfold nthZ. rewrite nth_lookup. destruct (replicate _ 0 !! _) eqn:E; [|done].
  by apply lookup_replicate in E as [-> _].
Qed.

Lemma padded_tail_spec data d :
  zlen data = P -> 0 <= d < n -> P < (d + 1) * s -> padded_tail data P (d * s) s = Ok (sector_of params data d).
Proof.
  pose proof geo_facts. intros Hl Hd HP. assert (d = n - 1) as -> by nia. unfold padded_tail.
  rewrite (proj2 (Z.ltb_lt _ _)) by lia. unfold slice. rewrite !(proj2 (Z.leb_le _ _)) by nia. cbn [andb]. res_simpl.
  set (tl := take _ _). assert (Lt : zlen tl = P - (n - 1) * s) by (unfold tl; rewrite zlen_take; [done|]; rewrite zlen_drop by nia; nia).
  destruct (store_get (replicate (Z.to_nat s) 0) 0 tl) as (m & E & Lm & Hm); [lia|rewrite zlen_replicate; lia|].
  rewrite E. f_equal. rewrite zlen_replicate in Lm. apply nthZ_ext; [rewrite zlen_sector_of by lia; lia|]. intros k Hk.
  rewrite Hm, sector_of_nth by lia. rewrite Z.sub_0_r, Lt. rewrite (proj2 (Z.leb_le 0 k)) by lia. cbn [andb].
  destruct (Z.ltb_spec k (0 + (P - (n - 1) * s))), (Z.ltb_spec ((n - 1) * s + k) P); try lia.
  - unfold tl. rewrite nthZ_take by lia. change (drop (Z.to_nat ((n - 1) * s)) data) with (view data ((n - 1) * s)). by rewrite nthZ_view by nia.
  - unfold nthZ. rewrite nth_lookup. destruct (replicate _ 0 !! _) eqn:Ez; [|done]. by apply lookup_replicate in Ez as [-> _].
Qed.

Lemma view_sector data d : zlen data = P -> 0 <= d < n -> (d + 1) * s <= P ->
  view data (d * s) = sector_of params data d ++ view data ((d + 1) * s).
Proof.
  pose proof geo_facts. intros Hl Hd HP. rewrite (region_view data s d) by lia. f_equal.
  apply nthZ_ext; [rewrite zlen_region, zlen_sector_of by lia; lia|]. rewrite zlen_region by lia. intros k Hk.
  rewrite region_nth, sector_of_nth by lia. by rewrite (proj2 (Z.ltb_lt _ _)) by lia.
Qed.

Lemma source_sector_spec data d : zlen data = P -> 0 <= d < n ->
  exists tail, source_sector data params d = Ok (sector_of params data d ++ tail).
Proof.
  pose proof geo_facts. intros Hl Hd. unfold source_sector. cbv zeta. rewrite (wrap_small 64 (d * s)), wrap_small by nia.
  destruct (Z.leb_spec (d * s + s) P) as [H1|H1].
  - rewrite !(proj2 (Z.leb_le _ _)) by nia. cbn [andb]. rewrite view_sector by lia. by eexists.
  - exists []. rewrite app_nil_r. apply padded_tail_spec; lia.
Qed.

(** ** Parity generation *)

Definition parity_sum (data : list Z) (j w : Z) : Z :=
  fsum 0 n (fun d => gf_mul (cauchy (n + j) d) (wd (sector_of params data d) w)).

Lemma generate_parity_spec avx2 ssse3 alloc data :
  (forall k, alloc k = true) -> bytes data -> zlen data = P ->
  exists parity, generate_parity avx2 ssse3 alloc data params = Ok parity /\ bytes parity /\ zlen parity = r * s /\
    forall j w, 0 <= j < r -> 0 <= w < s / 2 -> wd (region parity s j) w = parity_sum data j w.
Proof.
  pose proof geo_facts as F. intros Ha B Hl. unfold generate_parity. rewrite !(proj2 (Z.eqb_neq _ _)) by lia. cbn [orb].
  rewrite cpbs_some by (try lia; apply G).
  destruct (init_encode alloc n r (fresh (F := Z)) ltac:(lia) ltac:(lia) (geo_total _ G) (Ha _)) as (rs & -> & En & Er & Lm & Hm).
  destruct (fold_all_spec avx2 ssse3 rs r s) with (content := source_sector data params) (S := sector_of params data)
    (buf := replicate (Z.to_nat (r * s)) 0) as (par & E & Bp & Lp & Hp); rewrite ?En; try lia.
  - apply (cells_word r n); [lia|done|]. intros i d Hi Hd. rewrite Hm by done. apply cauchy_is_word; unfold word; lia.
  - nia.
  - apply G.
  - intros d Hd. split; [by apply zlen_sector_of|]. split; [by apply sector_of_bytes|]. by apply source_sector_spec.
  - by apply Forall_replicate.
  - rewrite zlen_replicate. lia.
  - rewrite En in E. exists par. split; [exact E|]. split; [done|]. split; [done|]. intros j w Hj Hw. rewrite Hp, En by done. unfold parity_sum.
    apply fsum_ext. intros d Hd. unfold coef. by rewrite En, Hm.
Qed.

(** ** Repair *)

Section Repair.
Context (orig parity : list Z) (valid : list bool).
Context (Lo : zlen orig = P) (Bo : bytes orig) (Lv : zlen valid = n + r).
Context (Bp : bytes parity) (Lp : zlen parity = r * s).
Context (Hp : forall j w, 0 <= j < r -> 0 <= w < s / 2 -> wd (region parity s j) w = parity_sum orig j w).

(** A damaged copy: the sectors marked intact are. *)
Record damaged (data par : list Z) : Prop := {
  dam_len : zlen data = P;
  dam_bytes : bytes data;
  dam_plen : zlen par = r * s;
  dam_pbytes : bytes par;
  dam_data : forall i q, 0 <= i < n -> vget false valid i = true -> i * s <= q < (i + 1) * s -> q < P -> nthZ data q = nthZ orig q;
  dam_par : forall j, 0 <= j < r -> vget false valid (n + j) = true -> region par s j = region parity s j
}.

Context (data par : list Z) (D : damaged data par).

Abbreviation missing := (rank valid false 0 n).
Abbreviation intact := (rank valid true n (n + r)).
Abbreviation erank := (rank valid false 0).
Abbreviation vrank := (rank valid true n).

Context (Hmiss : 0 < missing <= intact).

Lemma flagged_true i : flagged valid true i = vget false valid i.
Proof. unfold flagged. by destruct (vget _ _ _). Qed.

Lemma flagged_neg i : flagged valid false i = negb (vget false valid i).
Proof. unfold flagged. by destruct (vget _ _ _). Qed.

Lemma missing_le : missing <= n.
Proof. pose proof geo_facts. pose proof (rank_mono valid false 0 0 n ltac:(lia)) as H1. rewrite rank_start in H1. lia. Qed.

Lemma intact_le : intact <= r.
Proof. pose proof geo_facts. pose proof (rank_mono valid true n n (n + r) ltac:(lia)) as H1. rewrite rank_start in H1. lia. Qed.

Lemma erank_range d : 0 <= d <= n -> 0 <= erank d <= missing.
Proof.
  intros Hd. pose proof (rank_mono valid false 0 0 d ltac:(lia)) as H1. rewrite rank_start in H1.
  pose proof (rank_mono valid false 0 d n ltac:(lia)). lia.
Qed.

Lemma erank_below d : 0 <= d < n -> vget false valid d = false -> erank d < missing.
Proof. intros Hd Hv. apply rank_lt; [lia|]. by rewrite flagged_neg, Hv. Qed.

(** *** The slot map *)

Lemma next_valid_spec k x :
  0 <= x -> x + Z.of_nat k = zlen valid ->
  let y := next_valid k valid x in
  x <= y <= zlen valid /\ (forall z, x <= z < y -> vget false valid z = false) /\ (y < zlen valid -> vget false valid y = true).
Proof.
  revert x. induction k as [|k IH]; intros x Hx Hk; cbn [next_valid]; [split; [lia|]; split; lia|].
  rewrite (proj2 (Z.ltb_lt _ _)) by lia. cbn [andb]. destruct (vget false valid x) eqn:E; cbn [negb].
  - split; [lia|]. split; [lia|done].
  - destruct (IH (x + 1) ltac:(lia) ltac:(lia)) as (H1 & H2 & H3). split; [lia|]. split; [|done].
    intros z Hz. destruct (Z.eq_dec z x) as [->|]; [done|]. apply H2. lia.
Qed.

Lemma vrank_flat x y : n <= x <= y -> (forall z, x <= z < y -> vget false valid z = false) -> vrank y = vrank x.
Proof.
  intros [Hx Hy] Hz. revert Hz. apply (range_ind (fun y => (forall z, x <= z < y -> vget false valid z = false) -> vrank y = vrank x) x y Hy); [done|].
  intros i Hi IH Hz. rewrite rank_succ, flagged_true, (Hz i) by lia. apply IH. intros z Hzz. apply Hz. lia.
Qed.

(** What a processed slot points to. *)
Definition slot_ok (last_buf : list Z) (i : Z) (p : sector_ptr) : Prop :=
  (vget false valid i = true /\ (i + 1) * s <= P /\ p = DataSector (i * s)) \/
  (vget false valid i = true /\ i = n - 1 /\ p = LastSector /\ last_buf = sector_of params data i) \/
  (vget false valid i = false /\ exists x, n <= x < n + r /\ vget false valid x = true /\ vrank x = erank i /\ p = ParitySector ((x - n) * s)).

Definition map_inv (i : Z) (st : Z * list Z * list sector_ptr) : Prop :=
  let '(r_idx, last_buf, proc) := st in
  n <= r_idx <= n + r /\ vrank r_idx = erank i /\ zlen proc = n /\
  forall j, 0 <= j < i -> slot_ok last_buf j (vget NullSector proc j).

Lemma map_slot_spec i st : 0 <= i < n -> map_inv i st -> exists st', map_slot data params valid i st = Ok st' /\ map_inv (i + 1) st'.
Proof.
  pose proof geo_facts as F. intros Hi. destruct st as [[r_idx last_buf] proc]. intros (Hr & Hrk & Lpr & Hok).
  assert (Keep : forall p last', (forall j, 0 <= j < i -> slot_ok last' j (vget NullSector proc j)) -> slot_ok last' i p ->
    forall j, 0 <= j < i + 1 -> slot_ok last' j (vget NullSector (vset proc i p) j)).
  { intros p last' H1 H2 j Hj. rewrite vget_vset by lia. destruct (Z.eqb_spec j i) as [->|]; [done|]. apply H1. lia. }
  unfold map_slot. cbv zeta. destruct (vget false valid i) eqn:Ev.
  - assert (Hs1 : erank (i + 1) = erank i) by (rewrite rank_succ, flagged_neg, Ev by lia; done).
    rewrite (wrap_small 64 (i * s)), wrap_small by nia. destruct (Z.leb_spec (i * s + s) P) as [H1|H1].
    + eexists. split; [done|]. split; [done|]. rewrite Hs1. split; [done|]. split; [by rewrite zlen_vset|]. apply Keep; [done|].
      left. split; [done|]. split; [lia|done].
    + rewrite padded_tail_spec by (try apply D; lia). res_simpl. eexists. split; [done|]. split; [done|]. rewrite Hs1. split; [done|].
      split; [by rewrite zlen_vset|]. assert (i = n - 1) as -> by nia. apply Keep.
      * intros j Hj. destruct (Hok j Hj) as [Hs|[(_ & -> & _)|Hs]]; [by left|lia|by right; right].
      * right; left. done.
  - assert (Hs1 : erank (i + 1) = erank i + 1) by (rewrite rank_succ, flagged_neg, Ev by lia; done).
    destruct (next_valid_spec (Z.to_nat (zlen valid - r_idx)) r_idx) as (Hx & Hz & Hvx); [lia|lia|]. set (x := next_valid _ _ _) in *.
    assert (Hfl : vrank x = vrank r_idx) by (apply vrank_flat; [lia|done]).
    assert (Hxl : x < n + r).
    { destruct (Z.eq_dec x (n + r)) as [E|]; [|lia]. rewrite E in Hfl. pose proof (erank_below i Hi Ev). lia. }
    rewrite Z.geb_leb, (proj2 (Z.leb_gt _ _)) by lia. rewrite (wrap_small 32 (x - n)), (wrap_small 32 (x + 1)) by lia.
    assert (Hreq : (if x - n >? 0 then match calculate_parity_buffer_size (x - n) s with Some _ => true | None => false end else true) = true).
    { rewrite Z.gtb_ltb. destruct (Z.ltb_spec 0 (x - n)); [|done]. rewrite cpbs_some; [done|lia|lia|]. pose proof (geo_cap _ G). nia. }
    rewrite Hreq. res_simpl. eexists. split; [done|]. assert (Hvx' := Hvx ltac:(lia)). split; [lia|].
    rewrite rank_succ, flagged_true, Hvx', Hfl, Hrk by lia. split; [done|]. split; [by rewrite zlen_vset|].
    rewrite wrap_small by nia. apply Keep; [done|]. right; right. split; [done|]. exists x. split; [lia|]. split; [done|]. split; [lia|done].
Qed.

(** *** Decoding *)

Lemma vrank_inj x y : n <= x < n + r -> n <= y < n + r -> vget false valid x = true -> vget false valid y = true -> vrank x = vrank y -> x = y.
Proof.
  intros Hx Hy Vx Vy E. destruct (Z.lt_trichotomy x y) as [H1|[H1|H1]]; [|done|].
  - pose proof (rank_lt valid true n x y ltac:(lia) ltac:(by rewrite flagged_true)). lia.
  - pose proof (rank_lt valid true n y x ltac:(lia) ltac:(by rewrite flagged_true)). lia.
Qed.

(** The substitute of a missing sector. *)
Lemma substitute d : 0 <= d < n -> vget false valid d = false ->
  exists x, n <= x < n + r /\ vget false valid x = true /\ vrank x = erank d.
Proof.
  pose proof geo_facts. intros Hd Hv. pose proof (erank_below d Hd Hv). pose proof (erank_range d ltac:(lia)).
  destruct (rank_onto valid true n (n + r) (erank d)) as (x & Hx & Hf & E); [lia|lia|]. rewrite flagged_true in Hf. by exists x.
Qed.

Lemma intact_sector d : 0 <= d < n -> vget false valid d = true -> sector_of params data d = sector_of params orig d.
Proof.
  pose proof geo_facts. intros Hd Hv. apply nthZ_ext; [by rewrite !zlen_sector_of by (done || apply D)|].
  rewrite zlen_sector_of by (done || apply D). intros k Hk. rewrite !sector_of_nth by (done || apply D).
  destruct (Z.ltb_spec (d * s + k) P); [|done]. apply (dam_data _ _ D d); (done || lia).
Qed.

Lemma deref_slot last_buf d p :
  0 <= d < n -> slot_ok last_buf d p ->
  exists S tail, deref data par last_buf p = Ok (S ++ tail) /\ zlen S = s /\ bytes S /\
    (vget false valid d = true -> S = sector_of params orig d) /\
    (vget false valid d = false -> forall x, n <= x < n + r -> vget false valid x = true -> vrank x = erank d -> S = region parity s (x - n)).
Proof.
  pose proof geo_facts as F. intros Hd [(Hv & Hf & ->)|[(Hv & -> & -> & ->)|(Hv & x & Hx & Hvx & Hrx & ->)]].
  - exists (sector_of params data d), (view data ((d + 1) * s)). cbn [deref]. rewrite (dam_len _ _ D), !(proj2 (Z.leb_le _ _)) by nia. cbn [andb].
    rewrite <- view_sector by (try apply D; lia). split; [done|]. split; [apply zlen_sector_of; [apply D|done]|].
    split; [apply sector_of_bytes, D|]. split; [by intros _; apply intact_sector|congruence].
  - exists (sector_of params data (n - 1)), []. rewrite app_nil_r. split; [done|]. split; [apply zlen_sector_of; [apply D|done]|].
    split; [apply sector_of_bytes, D|]. split; [by intros _; apply intact_sector|congruence].
  - exists (region par s (x - n)), (view par ((x - n + 1) * s)). cbn [deref]. rewrite (dam_plen _ _ D), !(proj2 (Z.leb_le _ _)) by nia. cbn [andb].
    rewrite <- region_view by lia. split; [done|]. split; [apply zlen_region; [lia|lia|rewrite (dam_plen _ _ D); nia]|].
    split; [apply region_bytes, D|]. split; [congruence|]. intros _ y Hy Hvy Hry. assert (y = x) as -> by (apply vrank_inj; (done || lia)).
    apply (dam_par _ _ D); [lia|]. by replace (n + (x - n)) with x by lia.
Qed.

(** The state [init] leaves the decoder in. *)
Definition decoder_ok (rs : ReedSolomon16 Z) : Prop :=
  nd rs = n /\ nr rs = r /\ ne rs = missing /\ valid_flags rs = valid /\
  exists rs0, nd rs0 = n /\ nr rs0 = r /\ ne rs0 = missing /\ valid_flags rs0 = valid /\ mx rs = derive_recovery_coefficients rs0.

Lemma decoded avx2 ssse3 rs last_buf proc buf :
  decoder_ok rs -> (forall d, 0 <= d < n -> slot_ok last_buf d (vget NullSector proc d)) ->
  bytes buf -> zlen buf = missing * s ->
  exists recon,
    for_res 0 n (fun j buf => sector ← deref data par last_buf (vget NullSector proc j);
                              fold_into avx2 ssse3 rs missing s j sector buf) buf = Ok recon /\
    bytes recon /\ zlen recon = missing * s /\
    forall d, 0 <= d < n -> vget false valid d = false -> region recon s (erank d) = sector_of params orig d.
Proof.
  pose proof geo_facts as F. pose proof missing_le as Hml. pose proof intact_le as Hil.
  intros (E1 & E2 & E3 & E4 & rs0 & N1 & N2 & N3 & N4 & Emx) Hslots Bb Lb.
  assert (Hw : Forall word (mx rs) /\ zlen (mx rs) = missing * n).
  { pose proof (derive_words rs0) as Hdw. rewrite N1, N2, N3, N4 in Hdw. rewrite Emx. apply Hdw; (done || lia || apply G). }
  destruct Hw as [Hw Lmx].
  set (content d := match deref data par last_buf (vget NullSector proc d) with Ok l => take (Z.to_nat s) l | _ => [] end).
  assert (HS : forall d, 0 <= d < n -> zlen (content d) = s /\ bytes (content d) /\
    (exists tail, deref data par last_buf (vget NullSector proc d) = Ok (content d ++ tail)) /\
    (vget false valid d = true -> content d = sector_of params orig d) /\
    (vget false valid d = false -> forall x, n <= x < n + r -> vget false valid x = true -> vrank x = erank d -> content d = region parity s (x - n))).
  { intros d Hd. destruct (deref_slot last_buf d _ Hd (Hslots d Hd)) as (S & tail & E & LS & BS & H1 & H2).
    assert (Ec : content d = S).
    { unfold content. rewrite E. apply take_app_length'. unfold zlen in LS. lia. }
    rewrite Ec. split; [done|]. split; [done|]. split; [by exists tail|]. by split. }
  assert (Hb1 : missing * n < 2 ^ 32) by nia. assert (Hb2 : missing * s < 2 ^ 64) by nia.
  pose proof (fold_all_spec avx2 ssse3 rs missing s) as FA. rewrite E1 in FA.
  destruct (FA Hw Lmx ltac:(lia) ltac:(lia) Hb1 ltac:(lia) Hb2 (geo_even _ G)
    (fun j => deref data par last_buf (vget NullSector proc j)) content buf) as (recon & E & Br & Lr & Hr); [|exact Bb|exact Lb|].
  { intros d Hd. destruct (HS d Hd) as (H1 & H2 & H3 & _). done. }
  exists recon. split; [exact E|]. split; [done|]. split; [done|]. intros d Hd Hvd.
  pose proof (erank_below d Hd Hvd) as Hk. pose proof (erank_range d ltac:(lia)) as Hk0.
  assert (Lreg : zlen (region recon s (erank d)) = s) by (apply zlen_region; nia).
  apply words_ext; [rewrite Lreg, zlen_sector_of; done|rewrite Lreg; apply G|by apply region_bytes|by apply sector_of_bytes|].
  rewrite Lreg. intros w Hw'. rewrite Hr by lia. unfold coef. rewrite E1, Emx.
  pose proof (recovery_words rs0 (fun j => wd (sector_of params orig j) w) (fun j => wd (content j) w) d) as Hrec.
  rewrite N1, N2, N3, N4 in Hrec. apply Hrec; try (done || lia || apply G).
  - intros j Hj. by apply wd_word, sector_of_bytes.
  - intros j Hj Hf. rewrite flagged_neg in Hf. apply negb_false_iff in Hf. destruct (HS j Hj) as (_ & _ & _ & H1 & _). by rewrite H1.
  - intros j x Hj Hf Hx Hfx Hrx. rewrite flagged_neg in Hf. apply negb_true_iff in Hf. rewrite flagged_true in Hfx.
    destruct (HS j Hj) as (_ & _ & _ & _ & H2). rewrite (H2 Hf x Hx Hfx Hrx). rewrite Hp by lia. unfold parity_sum.
    by replace (n + (x - n)) with x by lia.
  - rewrite flagged_neg. by rewrite Hvd.
Qed.

(** *** Writing back *)

Definition back_inv (i : Z) (st : Z * list Z) : Prop :=
  fst st = erank i /\ zlen (snd st) = P /\
  forall q, 0 <= q < P -> nthZ (snd st) q = if q <? i * s then nthZ orig q else nthZ data q.

Lemma write_back_spec recon i st :
  0 <= i < n -> zlen recon = missing * s ->
  (forall d, 0 <= d < n -> vget false valid d = false -> region recon s (erank d) = sector_of params orig d) ->
  back_inv i st -> exists st', write_back params valid recon i st = Ok st' /\ back_inv (i + 1) st'.
Proof.
  pose proof geo_facts as F. pose proof missing_le as Hml. intros Hi Lr Hrec. destruct st as [cur dat]. intros (Ec & Ld & Hd). cbn [fst snd] in *.
  unfold write_back. cbv zeta. destruct (vget false valid i) eqn:Ev.
  - eexists. split; [done|]. split; [cbn [fst]; rewrite rank_succ, flagged_neg, Ev by lia; done|]. split; [done|]. intros q Hq. cbn [snd].
    rewrite Hd by done. destruct (Z.ltb_spec q (i * s)), (Z.ltb_spec q ((i + 1) * s)); try lia; try done.
    apply (dam_data _ _ D i); (done || lia).
  - pose proof (erank_below i Hi Ev) as Hk. pose proof (erank_range i ltac:(lia)) as Hk0.
    rewrite (wrap_small 64 (i * s)), (wrap_small 64 (i * s + s)), (wrap_small 64 (cur * s)), (wrap_small 32) by nia. rewrite !Z.gtb_ltb.
    set (len := if P <? i * s + s then if i * s <? P then P - i * s else 0 else s).
    assert (Hlen : len = Z.min s (P - i * s)) by (unfold len; destruct (Z.ltb_spec P (i * s + s)), (Z.ltb_spec (i * s) P); nia).
    assert (Hip : i * s < P) by nia. rewrite (proj2 (Z.ltb_lt 0 len)) by lia.
    unfold slice. rewrite !(proj2 (Z.leb_le _ _)) by nia. cbn [andb]. res_simpl. set (sec := take _ _).
    assert (Lsec : zlen sec = len) by (unfold sec; apply zlen_take; rewrite zlen_drop by nia; nia).
    destruct (store_get dat (i * s) sec) as (dat' & -> & Ld' & Hd'); [nia|lia|]. res_simpl. eexists. split; [done|].
    split; [cbn [fst]; rewrite rank_succ, flagged_neg, Ev by lia; cbn [negb]; lia|]. split; [cbn [snd]; lia|]. cbn [snd]. intros q Hq.
    rewrite Hd', Hd by lia. rewrite Lsec. destruct (Z.leb_spec (i * s) q) as [Hq1|Hq1]; cbn [andb].
    2: { rewrite !(proj2 (Z.ltb_lt _ _)) by lia. done. }
    destruct (Z.ltb_spec q (i * s + len)) as [Hq2|Hq2].
    + rewrite (proj2 (Z.ltb_lt q ((i + 1) * s))) by lia. unfold sec. rewrite nthZ_take by lia.
      change (drop (Z.to_nat (cur * s)) recon) with (view recon (cur * s)). rewrite nthZ_view by nia. rewrite Ec.
      rewrite <- region_nth with (s := s) by lia. rewrite Hrec by done. rewrite sector_of_nth by (done || lia).
      replace (i * s + (q - i * s)) with q by lia. by rewrite (proj2 (Z.ltb_lt q P)) by lia.
    + rewrite !(proj2 (Z.ltb_ge _ _)) by lia. done.
Qed.

Lemma repair_restores_spec avx2 ssse3 alloc bytes_valid :
  (forall k, alloc k = true) -> flag_bits bytes_valid = valid ->
  repair_data avx2 ssse3 alloc data par params bytes_valid = Ok orig.
Proof.
  pose proof geo_facts as F. pose proof missing_le as Hml. pose proof intact_le as Hil. intros Ha Hfb.
  assert (Lb : zlen bytes_valid = n + r) by (rewrite <- Lv, <- Hfb; unfold flag_bits; by rewrite zlen_map).
  unfold repair_data. cbv zeta. rewrite Hfb, Lb, Z.eqb_refl. cbn [negb]. change (count_flags valid false 0 n) with missing.
  rewrite (wrap_small 32 (n + r)) by lia. change (count_flags valid true n (n + r)) with intact.
  rewrite (proj2 (Z.eqb_neq missing 0)) by lia. rewrite Z.gtb_ltb, (proj2 (Z.ltb_ge _ _)) by lia.
  pose proof (init_decode alloc n r bytes_valid (fresh (F := Z)) ltac:(lia) ltac:(lia) (geo_total _ G) Lb Ha) as HI. cbv zeta in HI.
  rewrite Hfb in HI. destruct HI as [Hf Hst]. specialize (Hst Hmiss). destruct (init _ _ _ _ _) as [b rs]. cbn [fst snd] in *.
  rewrite Hf, (proj2 (Z.ltb_lt _ _)), (proj2 (Z.leb_le _ _)) by lia. cbn [andb].
  destruct (for_res_ind map_inv (map_slot data params valid) 0 n (n, replicate (Z.to_nat s) 0, assign n NullSector))
    as ([[r_idx last_buf] proc] & -> & _ & _ & Lpr & Hok).
  { lia. }
  { split; [lia|]. rewrite !rank_start. split; [done|]. split; [apply zlen_assign; lia|lia]. }
  { intros i st Hi Hinv. by apply map_slot_spec. }
  res_simpl. rewrite cpbs_some by (try lia; pose proof (geo_cap _ G); nia).
  destruct (decoded avx2 ssse3 rs last_buf proc (replicate (Z.to_nat (missing * s)) 0)) as (recon & -> & _ & Lr & Hrec);
    [done|done|by apply Forall_replicate|rewrite zlen_replicate; nia|]. res_simpl.
  destruct (for_res_ind back_inv (write_back params valid recon) 0 n (0, data)) as ([cur dat] & -> & _ & Ld & Hd).
  { lia. }
  { split; [done|]. split; [apply D|]. intros q Hq. rewrite (proj2 (Z.ltb_ge _ _)) by lia. done. }
  { intros i st Hi Hinv. by apply write_back_spec. }
  res_simpl. f_equal. cbn [snd] in *. apply nthZ_ext; [lia|]. intros q Hq. rewrite Hd by lia. by rewrite (proj2 (Z.ltb_lt _ _)) by nia.
Qed.
End Repair.
End Geometry.

(** [data] and [par] are [orig] and [parity] with arbitrary bytes in the sectors
    whose flag in [valid] is zero. *)
Definition damaged_copy (params : RecoveryParams) (orig parity valid data par : list Z) : Prop :=
  damaged params orig parity (flag_bits valid) data par.

(** C4. What the recovery record promises: for parameters that fit the data,
    parity generation succeeds, and whatever happens to the data and the parity
    in the sectors marked bad, [repair_data] restores the data exactly when the
    intact parity sectors are as many as the damaged data sectors, and reports
    failure otherwise; on any CPU on either side. *)
Theorem repair_restores avx2 ssse3 avx2' ssse3' alloc params orig :
  geometry_ok params -> (forall k, alloc k = true) -> zlen orig = protected_size params -> bytes orig ->
  exists parity,
    generate_parity avx2 ssse3 alloc orig params = Ok parity /\
    bytes parity /\ zlen parity = recovery_sectors params * sector_size params /\
    forall valid data par,
      zlen valid = data_sectors params + recovery_sectors params ->
      damaged_copy params orig parity valid data par ->
      let flags := flag_bits valid in
      let bad := count_flags flags false 0 (data_sectors params) in
      let good := count_flags flags true (data_sectors params) (data_sectors params + recovery_sectors params) in
      repair_data avx2' ssse3' alloc data par params valid = if bad <=? good then Ok orig else Fail.
Proof.
  intros G Ha Lo Bo. pose proof (geo_facts params G) as F.
  destruct (generate_parity_spec params G avx2 ssse3 alloc orig Ha Bo Lo) as (parity & Hg & Bp & Lp & Hp).
  exists parity. split; [done|]. split; [done|]. split; [done|]. intros valid data par Lv D flags bad good.
  assert (Lf : zlen flags = data_sectors params + recovery_sectors params) by (unfold flags, flag_bits; by rewrite zlen_map).
  pose proof (rank_mono flags false 0 0 (data_sectors params) ltac:(lia)) as R1. rewrite rank_start in R1. change (rank flags false 0 _) with bad in R1.
  pose proof (rank_mono flags true (data_sectors params) (data_sectors params) (data_sectors params + recovery_sectors params) ltac:(lia)) as R2.
  rewrite rank_start in R2. change (rank flags true _ _) with good in R2.
  destruct (Z.eq_dec bad 0) as [E0|E0]; [|destruct (Z.leb_spec bad good) as [Hbg|Hbg]].
  - rewrite (proj2 (Z.leb_le bad good)) by lia. unfold repair_data. rewrite Lv, Z.eqb_refl. cbv zeta. cbn [negb]. fold flags.
    change (count_flags flags false 0 (data_sectors params)) with bad. rewrite E0, Z.eqb_refl. f_equal.
    apply nthZ_ext; [rewrite (dam_len _ _ _ _ _ _ D); lia|]. rewrite (dam_len _ _ _ _ _ _ D). intros q Hq.
    set (s := sector_size params) in *. assert (Hi : 0 <= q / s < data_sectors params).
    { split; [apply Z.div_pos; lia|]. apply Z.div_lt_upper_bound; nia. }
    assert (Hq1 : q / s * s <= q < (q / s + 1) * s) by (pose proof (Z.div_mod q s ltac:(lia)); pose proof (Z.mod_pos_bound q s ltac:(lia)); lia).
    apply (dam_data _ _ _ _ _ _ D (q / s)); [done| |done|lia]. change (vget false flags (q / s) = true).
    destruct (vget false flags (q / s)) eqn:Ev; [done|]. pose proof (rank_lt flags false 0 (q / s) (data_sectors params) Hi) as Hlt.
    pose proof (rank_mono flags false 0 0 (q / s) ltac:(lia)) as R3. rewrite rank_start in R3. unfold flagged in Hlt. rewrite Ev in Hlt.
    specialize (Hlt eq_refl). change (rank flags false 0 (data_sectors params)) with bad in Hlt. lia.
  - apply (repair_restores_spec params G orig parity flags Lo Bo Lf Hp data par D); [|done|done].
    change (0 < bad <= good). lia.
  - unfold repair_data. rewrite Lv, Z.eqb_refl. cbv zeta. cbn [negb]. fold flags.
    change (count_flags flags false 0 (data_sectors params)) with bad. rewrite (wrap_small 32) by lia.
    change (count_flags flags true (data_sectors params) _) with good. rewrite (proj2 (Z.eqb_neq bad 0)) by done.
    by rewrite Z.gtb_ltb, (proj2 (Z.ltb_lt _ _)) by lia.
Qed.

Definition sample_params : RecoveryParams :=
  {| sector_size := 2; protected_size := 3; data_sectors := 2; recovery_sectors := 1; protected_crc := 0 |}.

Lemma repair_restores_witness :
  exists parity,
    generate_parity true false (fun _ => true) [1; 2; 3] sample_params = Ok parity /\
    repair_data false true (fun _ => true) [1; 2; 99] parity sample_params [1; 0; 1] = Ok [1; 2; 3] /\
    repair_data false true (fun _ => true) [1; 2; 99] parity sample_params [1; 0; 0] = Fail.
Proof.
  destruct (repair_restores true false false true (fun _ => true) sample_params [1; 2; 3]) as (parity & Hg & Bp & Lp & H).
  - split; done.
  - done.
  - done.
  - bytes_const.
  - assert (Hd : forall valid, flag_bits valid = [true; false; true] \/ flag_bits valid = [true; false; false] ->
      damaged_copy sample_params [1; 2; 3] parity valid [1; 2; 99] parity).
    { intros valid Hv. split; [done|bytes_const|done|done| |done]. cbn [data_sectors sector_size protected_size sample_params].
      intros i q Hi Hvi Hq Hq3. assert (i = 0) as -> by (assert (i = 0 \/ i = 1) as [E|E] by lia; [done|]; subst i; destruct Hv as [E|E]; rewrite E in Hvi; discriminate Hvi).
      assert (q = 0 \/ q = 1) as [E|E] by lia; subst q; reflexivity. }
    exists parity. split; [exact Hg|]. split.
    + etransitivity; [apply (H [1; 0; 1] [1; 2; 99] parity); [done|by apply Hd; left]|reflexivity].
    + etransitivity; [apply (H [1; 0; 0] [1; 2; 99] parity); [done|by apply Hd; right]|reflexivity].
Defined.

(** ** Choosing the geometry *)










